(* ===== verification/_CoqProject ===== *)
-Q . S2P
Prelude.v
Text.v
Utf8.v
Machine.v
PatchParser.v
PatchParserSpec.v
PatchRoundtrip.v
SeekSequence.v
FileSystem.v
PatchReplace.v
PatchApply.v
PatchInvocation.v
TurnDiff.v
TurnDiffSpec.v
ExecPolicy.v
ExecPolicyBuilder.v
StreamText.v
InlineHiddenTag.v
TaggedLines.v
AssistantText.v
Utf8Stream.v
HeadTailBuffer.v
ResponseItems.v
Truncate.v
HistoryNormalize.v
ContextFragments.v
History.v
TokenEstimate.v
ShellSyntax.v
ShellSafety.v
Paths.v
Permissions.v
PermissionsSpec.v
SandboxRoots.v
SandboxRootsSpec.v
LinuxBwrap.v
LinuxBwrapSpec.v
LinuxBwrapExamples.v
ExecApproval.v
ExecApprovalSpec.v
PermissionTransforms.v
PermissionGlobsSpec.v
PermissionTransformsSpec.v
TableDetect.v
StreamController.v
StreamPacing.v
StreamSpec.v
PasteBurst.v
ThreadItems.v
ThreadEvents.v
ThreadHistory.v
ThreadHistorySpec.v
ThreadHistoryChanges.v
LegacyEvents.v
LegacyEventsSpec.v
ThreadHistoryExamples.v
EventMapping.v
Compaction.v
CompactionSpec.v
RemoteCompaction.v
RemoteCompactionSpec.v
CompactionExamples.v
IpAddr.v
NetworkHosts.v
NetworkHostsSpec.v
NetworkConfig.v
MitmHooks.v
NetworkState.v
NetworkRuntime.v
NetworkSpec.v
NetworkExamples.v
ConfigValues.v
ConfigMergeSpec.v
ConfigLayers.v
ConfigLayersSpec.v
ConfigFiltersSpec.v
ConfigOriginsSpec.v
ShellEnvironment.v
Constrained.v
ConfigExamples.v
