(* ===== verification/Prelude.v ===== *)
(** * A verification library for the Codex Rust workspace

    The sources are the crates below [codex/codex-rs] (file names in this
    library leave that prefix and [src/] out where no doubt arises).  Codex is an
    agent that edits files and runs commands on behalf of a model.  What this
    library models are the parts of it that decide something: what a patch does
    to the files, which command runs, asks or is refused, what a sandbox lets it
    touch, which hosts it may reach, what the model is shown of the
    conversation, and what the user is shown of the answer.  The asynchronous
    loops, servers, processes and widgets around them are not modelled.

    ** Parts and how they interact

    A message of the model is streamed: [StreamText] and its parsers separate
    visible text from hidden tags, [StreamController] renders it and
    [StreamPacing] shows it.  A call of a tool is a shell command:
    [PatchInvocation] recognises patches among them, [PatchParser] reads a
    patch, [PatchReplace] edits a file and [PatchApply] applies a patch through
    the file system interface [FileSystem]; [TurnDiff] makes the diff of the turn
    from what it reports.  Any other command goes through
    [ExecApproval], which asks the policy of [ExecPolicy] about every command
    that [ShellSyntax] finds in the script, [ShellSafety] where no rule
    matches, and [Permissions] whether the sandbox may be left; a command may
    ask for more permissions, which [PermissionTransforms] cuts down and merges.
    [SandboxRoots] turns a policy into what a sandbox enforces, and
    [LinuxBwrap] into the mounts that enforce it on Linux; connections go
    through the network proxy, whose decisions are [NetworkState] on the
    patterns of [NetworkHosts].  Output comes back through [HeadTailBuffer] and
    [Truncate] into the [History] of the thread, which [HistoryNormalize]
    makes well formed before it is sent; when it grows too long it is replaced
    by its newest messages and a summary, [Compaction], or by what the server
    makes of it, [RemoteCompaction].  What happens is also recorded as
    events, the older ones made by [LegacyEvents], and [ThreadHistory] builds
    the turns a client lists from them.  What all of this is set to comes from
    layers of configuration, which [ConfigLayers] orders and merges by
    [ConfigValues]; [ShellEnvironment] makes the environment of commands of it.

    ** Files and sources

    Shared: [Prelude] (results, Rust's [?], lists), [Text] ([str]), [Utf8],
    [Machine] (saturating [usize], [i64], [f64]), [Paths] ([std::path],
    [utils/absolute-path]), [IpAddr] ([std::net]).

    Patches ([apply-patch]): [PatchParser] is [parser.rs] and
    [streaming_parser.rs]; [SeekSequence] is [seek_sequence.rs]; [PatchReplace]
    and [PatchApply] are [lib.rs]; [PatchInvocation] is [invocation.rs];
    [FileSystem] is the trait of [file-system/lib.rs]; [TurnDiff] is
    [core/turn_diff_tracker.rs], with theorems and examples of turns
    in [TurnDiffSpec].  [PatchParserSpec] and [PatchRoundtrip] hold theorems only.

    Commands: [ExecPolicy] is [execpolicy] ([policy.rs], [rule.rs],
    [decision.rs]), [ExecPolicyBuilder] its [parser.rs] and [amend.rs];
    [ShellSyntax] is [shell-command] ([bash.rs], [shell_detect.rs]),
    [ShellSafety] its [command_safety]; [ExecApproval] is
    [core/exec_policy.rs] and [core/tools/sandboxing.rs].

    Sandboxes: [Permissions] and [SandboxRoots] are [protocol/permissions.rs],
    with the legacy policies of [protocol.rs] and the profiles of [models.rs];
    [PermissionTransforms] is [sandboxing/policy_transforms.rs], with theorems in
    [PermissionTransformsSpec] and on its patterns in [PermissionGlobsSpec];
    [LinuxBwrap] is [linux-sandbox/bwrap.rs], its theorems are in [LinuxBwrapSpec]
    and concrete disks in [LinuxBwrapExamples].

    Network: [NetworkHosts], [NetworkConfig], [MitmHooks] and [NetworkState] are
    [policy.rs], [config.rs], [mitm_hook.rs] and [state.rs] of [network-proxy],
    with the decisions of [runtime.rs], [connect_policy.rs] and
    [network_policy.rs]; [NetworkRuntime] is the interleaving of the operations
    of [runtime.rs].

    Conversation: [ResponseItems] is the data of [protocol/models.rs];
    [HistoryNormalize], [History] and [TokenEstimate] are
    [core/context_manager]; [ContextFragments] is [context-fragments] and what
    recognises its texts; [Truncate] is [utils/string] and
    [utils/output-truncation]; [HeadTailBuffer] is
    [core/unified_exec/head_tail_buffer.rs]; [EventMapping] is
    [core/event_mapping.rs] with the functions on media labels and on the last
    message of the assistant; [Compaction] is [core/compact.rs] and
    [RemoteCompaction] [core/compact_remote.rs] and [core/compact_remote_v2.rs],
    with theorems in [CompactionSpec] and [RemoteCompactionSpec] and histories in
    [CompactionExamples].

    Threads: [ThreadItems] is the items of [protocol/items.rs] and of
    [app-server-protocol] ([v2/item.rs], [item_builders.rs]), [ThreadEvents] the
    events of [protocol.rs] and [approvals.rs] the history reads;
    [ThreadHistory] is [app-server-protocol/protocol/thread_history.rs], with
    theorems in [ThreadHistorySpec] and [ThreadHistoryChanges]; [LegacyEvents]
    is [protocol/legacy_events.rs], with theorems in [LegacyEventsSpec];
    [ThreadHistoryExamples] has a host and rollouts.

    Configuration ([config]): [ConfigValues] is [merge.rs], [key_aliases.rs],
    [overrides.rs] and [fingerprint.rs]; [ConfigLayers] is [state.rs] and
    [config_layer_source.rs]; [Constrained] is [constraint.rs];
    [ShellEnvironment] is [shell_environment_policy.rs] with
    [protocol/shell_environment.rs] and [core/exec_env.rs].  [ConfigMergeSpec],
    [ConfigLayersSpec], [ConfigFiltersSpec] and [ConfigOriginsSpec] hold the
    theorems on merges, layers, filters and origins, [ConfigExamples] a stack.

    Streams: [StreamText], [InlineHiddenTag], [TaggedLines], [AssistantText] and
    [Utf8Stream] are [utils/stream-parser]; [TableDetect], [StreamController],
    [StreamPacing] and [PasteBurst] are [tui] ([table_detect.rs], [streaming],
    [markdown_stream.rs], [bottom_pane/paste_burst.rs]).

    ** How the code is written down

    A method on [&mut self] takes the state and returns the new one, also where
    it returns an error: writes before an early return are kept.  A [Result] is
    [result], a panic is [None], and the theorems that need it say that it does
    not happen.  A [HashMap] is a [gmap], a [BTreeMap] a list sorted by its
    keys, a [Vec] a list, a [usize] or [u64] an [N] with its saturating
    operations, an [i64] a [Z].  A string is the list of its characters, and
    byte lengths are computed from them.  The code is read as compiled for
    Unix: [cfg(windows)] is false.

    Loops that are not structural run on fuel or a measure that is shown or
    chosen to suffice: [InlineHiddenTag.rounds] has one round more than there
    are characters pending, and each round takes one; [Utf8.from_utf8_loop] and
    the walks of [ShellSyntax] have the length of the text and the size of the
    tree; [ShellSafety] goes through at most nine levels of wrappers because the
    code stops there; an IPv6 address has at most eight groups; the loop that
    asks for a summary has one request for every item of the history and every
    retry, and a theorem shows that it ends within them.

    Code outside the sources is an interface: a class with its operations, and
    a class of laws where theorems need them, with an instance that keeps the
    laws and runs in the examples.  [FileSystem.ExecutorFileSystem] with
    [FileSystemLaws] (the files), [TurnDiff.DiffHost] with [DiffHostLaws] (hashes,
    the diff printer, taken to finish in its time, the order of hash maps), [Paths.Host] with [HostLaws] (links, home
    directory, canonical paths), [ExecPolicy.HostPaths], [SandboxRoots.Globs] with
    [PermissionGlobsSpec.GlobLaws] (what a plain pattern matches),
    [StreamController.Renderer] (markdown), [LinuxBwrap.LinuxHost] with [LinuxHostLaws] (links, file
    metadata, directories, the process [rg]), [ContextFragments.HistoryTexts]
    (XML and JSON readers), [ShellSyntax.BashGrammar] (what a tree of the bash
    parser looks like), [NetworkHosts.HostLibs] with [HostLibsLaws] (globs and
    hosts of URLs), [ThreadItems.Outside] (JSON, path URIs, [parse_command],
    [Uuid::now_v7]), [NetworkConfig.Urls], [MitmHooks.HttpLibs],
    [NetworkState.ProxyEnv] (resolver, certificate authority),
    [ConfigValues.ConfigLibs] with [ConfigLibsLaws] (what TOML is read as, hashes),
    [ShellEnvironment.WildMatch] (wildcards), [RemoteCompaction.StreamPayloads]
    (what events of a stream carry).  Arguments of
    the definitions stand for the bash parser and the query engine of
    tree-sitter, the diff printer, shell quoting and splitting, [uuid_v5], JSON
    lengths and the sizes of decoded images and audio, and what the requests
    of the compaction loop come to.

    ** What is shown

    - Patches: what is printed is read back, also from a stream cut into chunks
      anywhere, and text that arrives in chunks is parsed as in one; an update is the left-to-right replacement of
      its regions; applying a patch refines a function on files, a patch that
      does not parse touches nothing, the recorded change is exact in both
      directions, and what the user was shown is what happens; the diff of a turn
      follows the files and does not depend on what was rendered before.
    - Commands: policies are well formed, the most restrictive rule decides, an
      overlay only tightens; a script is answered by its strictest command,
      dangerous ones are never waved through, the sandbox is left only for what
      the rules allow, and an accepted amendment settles the question; which
      commands are dangerous, and which git commands are safe, exactly.
    - Sandboxes: the most specific entry decides, full access is complete,
      workspace metadata needs an entry of its own, roots grant no more than
      the policy, legacy policies survive the round trip, denied reads are
      matched, and a grant stays within the request and the grant, denied
      patterns included; on Linux, what can be written or read through the mounts
      is what the policy grants, also where roots are links and are mounted at
      their targets, and no link on the way to a protected path can be replaced.
    - Network: however operations interleave, the policy in force satisfies the
      managed constraints; hosts allowed by plainly written patterns are managed
      ones (an entry with a colon before a wildcard escapes, which an example
      shows); local addresses are
      reached only when named; a pattern allows another exactly when it stands
      for every host the other stands for; addresses refused as not public are
      the reserved blocks; hooks are tried in order.
    - Conversation: what is sent is paired, rollback drops whole turns, tool
      output keeps to its budget, the buffer is a function of the output;
      compaction keeps the newest messages within its budget and the summary
      last, messages survive any number of compactions, asking for the summary
      ends, and outputs give way from the end until a request fits.
    - Threads: no turn of a rollout is lost; what a batch of events reports,
      applied to the turns a client has, gives the turns after the batch; the
      older event of an item is the item, and that of a user message keeps its
      inputs.
    - Configuration: at every path the highest layer that says anything about it
      decides, and it is the origin of the value; however user layers are
      replaced the layers stay in order; the two forms of the environment
      filters never mix; what is in the environment of a command, exactly; a
      constrained value is accepted by every validator; overrides are read back.
    - Streams: parsers do not depend on chunks and match reference functions on
      the whole text; table detection matches a scan of the source; lines are
      emitted once, in order, and drained; no operation panics; no key of a
      paste is lost.

    Where a property fails, an example shows the run that breaks it; what a theorem
    leaves out for that reason stands in its comment.

    ** Not modelled

    Network and process I/O, the session loop, servers and their protocols,
    widgets, system calls of the sandbox back ends, persistence, and the Windows
    variants of the code.  Within modelled crates: serialised forms of
    policies, profiles and configurations; finding and reading the files of
    configuration layers, and the requirements laid on them; texts that only end up in logs and
    audit events; walking and copying files; the summaries of commands for
    display ([parse_command.rs]); warnings; hooks and analytics around a
    compaction, the retries of its transport, and how the session installs its
    result; an error wrapped by [CodexErr] is its text; the variants of [EventMsg] that
    the history of a thread ignores are one constructor, and its counters
    and the revisions of [TurnDiff] do not wrap. *)

From Stdlib Require Export Lia.
From stdpp Require Export base decidable gmap numbers option strings list.

(** * Results, and Rust's [?] operator

    A Rust [Result<A, E>] is [result E A].  A method that takes [&mut self] and
    returns a [Result] is a function [S -> S * result E A]: the receiver keeps
    the writes it made before an error, exactly as in Rust. *)

Inductive result (E A : Type) : Type :=
| Ok (a : A)
| Err (e : E).
Arguments Ok {E A} a.
Arguments Err {E A} e.

#[export] Instance result_eq_dec {E A} `{EqDecision E, EqDecision A} : EqDecision (result E A).
Proof. solve_decision. Defined.

Definition is_ok {E A} (r : result E A) : bool :=
  match r with Ok _ => true | Err _ => false end.

Definition result_map {E A B} (f : A → B) (r : result E A) : result E B :=
  match r with Ok a => Ok (f a) | Err e => Err e end.

Definition result_map_err {E F A} (f : E → F) (r : result E A) : result F A :=
  match r with Ok a => Ok a | Err e => Err (f e) end.

Definition ok_of_option {E A} (e : E) (o : option A) : result E A :=
  match o with Some a => Ok a | None => Err e end.

Declare Scope rust_scope.
Delimit Scope rust_scope with rust.
Notation "'let?' x ':=' c 'in' k" :=
  (match c with Ok x => k | Err err => Err err end)
  (at level 10, x pattern, c at level 100, k at level 200) : rust_scope.
Notation "'let!' s '|' x ':=' c 'in' k" :=
  (match c with (s, Ok x) => k | (s, Err err) => (s, Err err) end)
  (at level 10, s name, x pattern, c at level 100, k at level 200) : rust_scope.
Open Scope rust_scope.

Lemma result_bind_ok {E A B} (r : result E A) (f : A → result E B) b :
  (let? a := r in f a) = Ok b ↔ ∃ a, r = Ok a ∧ f a = Ok b.
Proof. destruct r as [a|e]; [split; [by exists a|by intros (? & [= ->] & ?)]|naive_solver]. Qed.

(** * Tactics *)

(** Case analysis on every [match], [if] and [decide] of the goal or a hypothesis. *)
Ltac crush_match :=
  repeat (case_match || case_decide || case_bool_decide); simplify_eq/=.

Create HintDb codex discriminated.
Create Rewrite HintDb codex.

(** * Lists *)

Section lists.
Context {A : Type}.
Implicit Types (l k : list A) (x y : A).

(** [v.last_mut().map(f)]: change the last element in place. *)
Fixpoint update_last (f : A → A) l : list A :=
  match l with
  | [] => []
  | [x] => [f x]
  | x :: l => x :: update_last f l
  end.

Lemma update_last_snoc f l x : update_last f (l ++ [x]) = l ++ [f x].
Proof.
  induction l as [|y l IH]; [done|]. simpl. rewrite IH.
  by destruct l.
Qed.

Lemma update_last_length f l : length (update_last f l) = length l.
Proof. induction l as [|x [|y l] IH]; [done..|]. simpl in *. by rewrite IH. Qed.

Lemma last_Some_snoc l x : last l = Some x → ∃ l', l = l' ++ [x].
Proof. rewrite last_Some. intros [l' ->]. by exists l'. Qed.

Lemma update_last_last f l x :
  last l = Some x → ∃ l', l = l' ++ [x] ∧ update_last f l = l' ++ [f x].
Proof.
  intros [l' ->]%last_Some_snoc. exists l'. by rewrite update_last_snoc.
Qed.

(** [v.is_empty()] as the boolean the code tests. *)
Definition is_nil l : bool := match l with [] => true | _ => false end.

Lemma is_nil_true l : is_nil l = true ↔ l = [].
Proof. by destruct l. Qed.

Lemma is_nil_false l : is_nil l = false ↔ l ≠ [].
Proof. by destruct l. Qed.

Lemma length_pos l : l ≠ [] → 0 < length l.
Proof. destruct l; [done|simpl; lia]. Qed.

(** [o.is_some_and(p)]. *)
Definition is_some_and (p : A → bool) (o : option A) : bool :=
  match o with Some x => p x | None => false end.

(** [all but the last element], Rust's [&v[..v.len() - 1]]. *)
Fixpoint init l : list A :=
  match l with
  | [] => []
  | [_] => []
  | x :: l => x :: init l
  end.

Lemma init_snoc l x : init (l ++ [x]) = l.
Proof. induction l as [|y l IH]; [done|]. simpl. rewrite IH. by destruct l. Qed.

Lemma init_length l : length (init l) = pred (length l).
Proof. induction l as [|x [|y l] IH]; [done..|]. simpl in *. by rewrite IH. Qed.

Lemma last_init l x : last l = Some x → l = init l ++ [x].
Proof. intros [l' ->]%last_Some_snoc. by rewrite init_snoc. Qed.

(** [Vec::insert] panics when the index is behind the end: [None]. *)
Definition vec_insert (i : nat) (x : A) l : option (list A) :=
  if decide (i ≤ length l) then Some (take i l ++ x :: drop i l) else None.

(** [l[i] = x] panics when there is no such index: [None]. *)
Definition vec_set (i : nat) (x : A) l : option (list A) :=
  if decide (i < length l) then Some (<[i := x]> l) else None.

Lemma vec_set_Some i x l : i < length l → vec_set i x l = Some (<[i := x]> l).
Proof. intros. unfold vec_set. by rewrite decide_True. Qed.

(** An update of the elements with a key changes nothing where there is none. *)
Lemma fmap_at_absent `{EqDecision K} (key : A → K) (k : K) (f : A → A) l :
  k ∉ key <$> l → (λ x, if decide (key x = k) then f x else x) <$> l = l.
Proof.
  induction l as [|x l IH]; [done|]. rewrite !fmap_cons, not_elem_of_cons.
  intros [Hne Hl]. by rewrite IH, decide_False by done.
Qed.

Lemma elem_of_option_list (x : A) (o : option A) : x ∈ option_list o ↔ o = Some x.
Proof. destruct o; simpl; [rewrite list_elem_of_singleton; naive_solver|by rewrite elem_of_nil]. Qed.

Lemma Forall_snoc (P : A → Prop) l x : Forall P (l ++ [x]) ↔ Forall P l ∧ P x.
Proof. rewrite Forall_app, Forall_singleton. done. Qed.

Lemma Forall_init (P : A → Prop) l : Forall P l → Forall P (init l).
Proof.
  destruct (last l) as [x|] eqn:Hl.
  - rewrite (last_init _ _ Hl) at 1. rewrite Forall_snoc. tauto.
  - apply last_None in Hl as ->. done.
Qed.

Lemma NoDup_omap_eq {B} (f : A → option B) l x y (k : B) :
  NoDup (omap f l) → x ∈ l → y ∈ l → f x = Some k → f y = Some k → x = y.
Proof.
  induction l as [|z l IH]; [by intros _ ?%elem_of_nil|]. simpl. intros Hn Hx Hy Ex Ey.
  assert (∀ w, w ∈ l → f w = Some k → k ∈ omap f l) as Hin.
  { intros w ??. apply list_elem_of_omap. by exists w. }
  apply elem_of_cons in Hx as [->|Hx]; apply elem_of_cons in Hy as [->|Hy]; [done| | |].
  - rewrite Ex in Hn. apply NoDup_cons in Hn as [Hn _]. destruct Hn. by eapply Hin.
  - rewrite Ey in Hn. apply NoDup_cons in Hn as [Hn _]. destruct Hn. by eapply Hin.
  - apply IH; [|done..]. destruct (f z); [by apply NoDup_cons in Hn as [_ ?]|done].
Qed.

Lemma elem_of_concat (x : A) (ls : list (list A)) : x ∈ concat ls ↔ ∃ l, x ∈ l ∧ l ∈ ls.
Proof. setoid_rewrite list_elem_of_In. rewrite in_concat. naive_solver. Qed.

Lemma Forall_kept (P : A → Prop) (Q : A → bool) l : Forall P l → Forall P (filter (λ x, Q x) l).
Proof. rewrite !Forall_forall. intros HP x [_ Hx]%list_elem_of_filter. by apply HP. Qed.

Lemma filter_none (P : A → Prop) `{!∀ x, Decision (P x)} l : (∀ x, x ∈ l → ¬ P x) → filter P l = [].
Proof.
  induction l as [|x l IH]; intros Hn; [done|]. rewrite filter_cons_False by (apply Hn; set_solver).
  apply IH. set_solver.
Qed.

Lemma filter_all (P : A → Prop) `{!∀ x, Decision (P x)} l : (∀ x, x ∈ l → P x) → filter P l = l.
Proof.
  induction l as [|x l IH]; [done|]. intros Hl. rewrite filter_cons_True by (apply Hl; left).
  rewrite IH; [done|]. intros y Hy. apply Hl. by right.
Qed.

Lemma filter_ext_in (P Q : A → Prop) `{!∀ x, Decision (P x), !∀ x, Decision (Q x)} l :
  (∀ x, x ∈ l → P x ↔ Q x) → filter P l = filter Q l.
Proof.
  induction l as [|x l IH]; [done|]. intros Hl. rewrite !filter_cons, IH by (intros y Hy; apply Hl; by right).
  pose proof (Hl x (list_elem_of_here _ _)). repeat case_decide; tauto.
Qed.

Lemma bind_ext_in {B} (f g : A → list B) l : (∀ x, x ∈ l → f x = g x) → l ≫= f = l ≫= g.
Proof.
  induction l as [|x l IH]; intros Hfg; [done|]. rewrite !bind_cons, Hfg by set_solver.
  f_equal. apply IH. set_solver.
Qed.

(** [it.max_by_key(key)], where [gt x y] says that the key of [x] is greater:
    of several greatest elements the last. *)
Definition max_by (gt : A → A → bool) l : option A :=
  foldl (λ best y,
    match best with
    | Some x => if gt x y then Some x else Some y
    | None => Some y
    end) None l.

Lemma max_by_None gt l : max_by gt l = None ↔ l = [].
Proof.
  destruct l as [|x l _] using rev_ind; [done|]. unfold max_by. rewrite foldl_snoc. split.
  - case_match; [case_match|]; done.
  - by intros [_ ?]%app_eq_nil.
Qed.

(** When [gt] is the strict part of a total preorder, [max_by] is a maximum. *)
Lemma max_by_spec gt l m :
  (∀ x y, gt x y = true → gt y x = false) →
  (∀ x y z, gt x y = false → gt y z = false → gt x z = false) →
  max_by gt l = Some m → m ∈ l ∧ ∀ x, x ∈ l → gt x m = false.
Proof.
  intros Hasym Htrans. revert m. induction l as [|y l IH] using rev_ind; intros m; [done|].
  assert (gt y y = false) as Hyy by (destruct (gt y y) eqn:E; [pose proof (Hasym _ _ E); congruence|done]).
  unfold max_by in *. rewrite foldl_snoc.
  destruct (foldl _ None l) as [x|] eqn:Hx.
  - destruct (IH x eq_refl) as [Hin Hall]. destruct (gt x y) eqn:Hxy; intros [= <-].
    + split; [set_solver|]. intros z [Hz| ->%list_elem_of_singleton]%elem_of_app; [by apply Hall|].
      by apply Hasym.
    + split; [set_solver|]. intros z [Hz| ->%list_elem_of_singleton]%elem_of_app; [|done].
      eapply Htrans; [by apply Hall|done].
  - intros [= <-]. apply (max_by_None gt) in Hx as ->. split; [set_solver|].
    intros z ->%list_elem_of_singleton. done.
Qed.

(** [if !v.contains(&x) { v.push(x) }] *)
Definition push_absent `{EqDecision A} l x : list A := if decide (x ∈ l) then l else l ++ [x].

Lemma elem_of_push_absent `{EqDecision A} l x y : y ∈ push_absent l x ↔ y ∈ l ∨ y = x.
Proof. unfold push_absent. case_decide; set_solver. Qed.

Lemma elem_of_foldl_push_absent `{EqDecision A} l k y :
  y ∈ foldl push_absent l k ↔ y ∈ l ∨ y ∈ k.
Proof.
  revert l. induction k as [|x k IH]; intros l; simpl; [rewrite elem_of_nil; tauto|].
  rewrite IH, elem_of_push_absent, elem_of_cons. tauto.
Qed.

Lemma foldl_push_absent_app `{EqDecision A} l k : ∃ k', foldl push_absent l k = l ++ k' ∧ k' `sublist_of` k.
Proof.
  revert l. induction k as [|x k IH]; intros l; simpl; [exists []; by rewrite app_nil_r|].
  destruct (IH (push_absent l x)) as (k' & -> & Hk). unfold push_absent. case_decide.
  - exists k'. split; [done|]. by apply sublist_cons.
  - exists (x :: k'). rewrite <- app_assoc. split; [done|]. by apply sublist_skip.
Qed.

(** [it.any(p)] over the elements of a list. *)
Lemma existsb_elem (p : A → bool) l : existsb p l = true ↔ ∃ x, x ∈ l ∧ p x = true.
Proof.
  rewrite existsb_exists. split; intros (x & Hx & Hp); exists x; by rewrite list_elem_of_In in *.
Qed.

Lemma existsb_false_elem (p : A → bool) l x : existsb p l = false → x ∈ l → p x = false.
Proof.
  intros Hf Hx. destruct (p x) eqn:E; [|done].
  assert (existsb p l = true) by (apply existsb_elem; by exists x). congruence.
Qed.
(** [it.filter_map(f).next()] / [it.find_map(f)] *)
Lemma head_omap_Some {B} (f : A → option B) l (y : B) : head (omap f l) = Some y → ∃ x, x ∈ l ∧ f x = Some y.
Proof. intros Hh%head_Some_elem_of. by apply list_elem_of_omap in Hh. Qed.

Lemma head_omap_None {B} (f : A → option B) l : head (omap f l) = None ↔ ∀ x, x ∈ l → f x = None.
Proof.
  split.
  - intros Hh x Hx. destruct (f x) as [y|] eqn:E; [|done].
    assert (y ∈ omap f l) as Hy by (apply list_elem_of_omap; by exists x).
    destruct (omap f l); [by apply elem_of_nil in Hy|done].
  - intros Hn. destruct (head (omap f l)) as [y|] eqn:E; [|done].
    apply head_omap_Some in E as (x & Hx & E). by rewrite Hn in E.
Qed.

Lemma head_omap_exists {B} (f : A → option B) l x (y : B) : x ∈ l → f x = Some y → is_Some (head (omap f l)).
Proof.
  intros Hx Hf. induction Hx as [x l|x z l Hx IH]; simpl; [by rewrite Hf|].
  destruct (f z); [done|]. by apply IH.
Qed.

End lists.

#[export] Hint Resolve Forall_init Forall_nil_2 : codex.
#[export] Hint Rewrite @update_last_snoc @init_snoc @update_last_length @init_length : codex.

(** A stable sort. *)
Fixpoint insert_by {A} (leb : A → A → bool) (x : A) (l : list A) : list A :=
  match l with
  | [] => [x]
  | y :: l => if leb x y then x :: y :: l else y :: insert_by leb x l
  end.
Definition sort_by {A} (leb : A → A → bool) (l : list A) : list A := foldr (insert_by leb) [] l.

Lemma elem_of_insert_by {A} leb (x y : A) l : y ∈ insert_by leb x l ↔ y = x ∨ y ∈ l.
Proof.
  induction l as [|z l IH]; simpl; [by rewrite list_elem_of_singleton, elem_of_nil; naive_solver|].
  destruct (leb x z); rewrite !elem_of_cons, ?IH; naive_solver.
Qed.

Lemma elem_of_sort_by {A} leb (x : A) l : x ∈ sort_by leb l ↔ x ∈ l.
Proof.
  induction l as [|y l IH]; simpl; [done|]. by rewrite elem_of_insert_by, elem_of_cons, IH.
Qed.

(** * Loops that may fail *)

(** A loop whose body may panic. *)
Fixpoint option_foldl {S A} (f : S → A → option S) (s : S) (l : list A) : option S :=
  match l with
  | [] => Some s
  | x :: l => s ← f s x; option_foldl f s l
  end.

(** [.into_iter().map(f).collect::<Result<Vec<_>, _>>()]: the first error wins. *)
Fixpoint try_map {E A B} (f : A → result E B) (l : list A) : result E (list B) :=
  match l with
  | [] => Ok []
  | x :: l => match f x with
              | Ok y => match try_map f l with Ok ys => Ok (y :: ys) | Err e => Err e end
              | Err e => Err e
              end
  end.

(** [for x in l { s = f(s, x)?; }] *)
Fixpoint try_foldl {E S A} (f : S → A → result E S) (s : S) (l : list A) : result E S :=
  match l with
  | [] => Ok s
  | x :: l => match f s x with Ok s => try_foldl f s l | Err e => Err e end
  end.

Lemma try_map_Forall2 {E A B} (f : A → result E B) l ys :
  try_map f l = Ok ys ↔ Forall2 (λ x y, f x = Ok y) l ys.
Proof.
  revert ys. induction l as [|x l IH]; intros ys; simpl.
  - split; [intros [= <-]; constructor|]. by inversion 1.
  - destruct (f x) as [y|] eqn:Hf; [destruct (try_map f l) as [ys'|] eqn:Hl|].
    + split; [intros [= <-]; constructor; [done|by apply IH]|]. inversion 1; simplify_eq.
      match goal with H : Forall2 _ l _ |- _ => apply IH in H end. congruence.
    + split; [done|]. inversion 1; simplify_eq. match goal with H : Forall2 _ l _ |- _ => apply IH in H end. congruence.
    + split; [done|]. inversion 1; congruence.
Qed.

Lemma try_foldl_app {E S A} (f : S → A → result E S) s l k :
  try_foldl f s (l ++ k) = match try_foldl f s l with Ok s => try_foldl f s k | Err e => Err e end.
Proof. revert s. induction l as [|x l IH]; intros s; simpl; [done|]. by destruct (f s x). Qed.

(** What holds of the state before and is kept by every step. *)
Lemma try_foldl_ind {E S A} (f : S → A → result E S) (I : S → Prop) l s s' :
  (∀ s x s', x ∈ l → I s → f s x = Ok s' → I s') → I s → try_foldl f s l = Ok s' → I s'.
Proof.
  revert s. induction l as [|x l IH]; intros s Hf Hs; simpl; [by intros [= <-]|].
  destruct (f s x) as [s1|] eqn:E1; [|done]. apply IH.
  - intros t y t' Hy. apply Hf. by apply list_elem_of_further.
  - eapply Hf; [apply list_elem_of_here|done|done].
Qed.
