(* ===== verification/Text.v ===== *)
(** Rust strings.  A [String]/[&str] is the list of its Unicode scalar values
    ([char], a number); [len_utf8] gives the number of bytes a character takes
    in the UTF-8 buffer, so byte lengths and byte offsets on character
    boundaries are computed, not approximated.  The functions are the methods
    of [str] the sources call: [trim], [strip_prefix], [split], [lines],
    [join], [len]; each comes with the equations the components use. *)

From S2P Require Import Prelude.

(** A string as the characters it holds. *)
Abbreviation str := (list N).

(** ASCII literals. *)
Definition lit (s : string) : str := Ascii.N_of_ascii <$> String.list_ascii_of_string s.

Definition nl : N := 10.
Definition cr : N := 13.

(** ** Length in bytes *)

Definition len_utf8 (c : N) : nat :=
  if decide (c < 128)%N then 1
  else if decide (c < 2048)%N then 2
  else if decide (c < 65536)%N then 3 else 4.

Definition str_len (s : str) : nat := sum_list (len_utf8 <$> s).

Lemma len_utf8_pos c : 1 ≤ len_utf8 c ≤ 4.
Proof. unfold len_utf8. crush_match; lia. Qed.

Lemma str_len_app s t : str_len (s ++ t) = str_len s + str_len t.
Proof. unfold str_len. by rewrite fmap_app, sum_list_with_app. Qed.

Lemma str_len_cons c s : str_len (c :: s) = len_utf8 c + str_len s.
Proof. done. Qed.

Lemma str_len_0 s : str_len s = 0 ↔ s = [].
Proof.
  destruct s as [|c s]; [done|]. rewrite str_len_cons.
  pose proof (len_utf8_pos c). split; [lia|done].
Qed.

(** ** White space ([char::is_whitespace], the Unicode [White_Space] property) *)

Definition is_whitespace (c : N) : bool :=
  (bool_decide (9 ≤ c ≤ 13)%N || bool_decide (c = 32)%N || bool_decide (c = 133)%N
   || bool_decide (c = 160)%N || bool_decide (c = 5760)%N
   || bool_decide (8192 ≤ c ≤ 8202)%N || bool_decide (c = 8232)%N
   || bool_decide (c = 8233)%N || bool_decide (c = 8239)%N
   || bool_decide (c = 8287)%N || bool_decide (c = 12288)%N).

Fixpoint trim_start (s : str) : str :=
  match s with
  | [] => []
  | c :: s' => if is_whitespace c then trim_start s' else s
  end.

Fixpoint trim_end (s : str) : str :=
  match s with
  | [] => []
  | c :: s' =>
      match trim_end s' with
      | [] => if is_whitespace c then [] else [c]
      | t => c :: t
      end
  end.

Definition trim (s : str) : str := trim_end (trim_start s).

(** [s.trim_end_matches(c)]. *)
Fixpoint trim_end_matches (d : N) (s : str) : str :=
  match s with
  | [] => []
  | c :: s' =>
      match trim_end_matches d s' with
      | [] => if decide (c = d) then [] else [c]
      | t => c :: t
      end
  end.

(** ** Prefixes and suffixes *)

Fixpoint strip_prefix (p s : str) : option str :=
  match p, s with
  | [], _ => Some s
  | _, [] => None
  | a :: p', b :: s' => if decide (a = b) then strip_prefix p' s' else None
  end.

Definition starts_with (s p : str) : bool := bool_decide (is_Some (strip_prefix p s)).

Definition strip_suffix (p s : str) : option str :=
  reverse <$> strip_prefix (reverse p) (reverse s).

Definition ends_with (s p : str) : bool := bool_decide (is_Some (strip_suffix p s)).

Lemma strip_prefix_Some p s r : strip_prefix p s = Some r ↔ s = p ++ r.
Proof.
  revert s. induction p as [|a p IH]; intros [|b s]; simpl.
  1,2,3: clear IH || idtac; naive_solver.
  case_decide as E; [rewrite IH; subst; naive_solver|].
  clear IH. naive_solver.
Qed.

Lemma strip_prefix_app p r : strip_prefix p (p ++ r) = Some r.
Proof. by apply strip_prefix_Some. Qed.

Lemma starts_with_true s p : starts_with s p = true ↔ ∃ r, s = p ++ r.
Proof.
  unfold starts_with. rewrite bool_decide_eq_true. unfold is_Some.
  split; intros [r H]; exists r; by apply strip_prefix_Some.
Qed.

Lemma starts_with_app p r : starts_with (p ++ r) p = true.
Proof. apply starts_with_true. by exists r. Qed.

Lemma strip_suffix_Some p s r : strip_suffix p s = Some r ↔ s = r ++ p.
Proof.
  unfold strip_suffix. rewrite fmap_Some. split.
  - intros (t & Ht & ->). apply strip_prefix_Some in Ht.
    apply (f_equal reverse) in Ht. by rewrite reverse_app, !reverse_involutive in Ht.
  - intros ->. exists (reverse r). rewrite reverse_app, reverse_involutive.
    by rewrite strip_prefix_app.
Qed.

Lemma ends_with_true s p : ends_with s p = true ↔ ∃ r, s = r ++ p.
Proof.
  unfold ends_with. rewrite bool_decide_eq_true. unfold is_Some.
  split; intros [r H]; exists r; by apply strip_suffix_Some.
Qed.

(** ** Case and search *)

(** [s.to_ascii_lowercase()] and [s.eq_ignore_ascii_case(t)] *)
Definition to_ascii_lowercase (s : str) : str :=
  (λ c, if decide (65 ≤ c ≤ 90)%N then (c + 32)%N else c) <$> s.
Definition eq_ignore_ascii_case (s t : str) : bool :=
  bool_decide (to_ascii_lowercase s = to_ascii_lowercase t).

(** [s.rsplit_once(d)] *)
Fixpoint rsplit_once (d : N) (s : str) : option (str * str) :=
  match s with
  | [] => None
  | c :: s' =>
      match rsplit_once d s' with
      | Some (a, b) => Some (c :: a, b)
      | None => if decide (c = d) then Some ([], s') else None
      end
  end.

(** [s.split_once(d)] *)
Fixpoint split_once (d : N) (s : str) : option (str * str) :=
  match s with
  | [] => None
  | c :: s' =>
      if decide (c = d) then Some ([], s')
      else match split_once d s' with Some (a, b) => Some (c :: a, b) | None => None end
  end.

(** [s.contains(needle)] *)
Fixpoint contains (s needle : str) : bool :=
  starts_with s needle || match s with [] => false | _ :: s' => contains s' needle end.

(** ** Lines *)

(** [s.split(d)]: never empty. *)
Fixpoint split_on (d : N) (s : str) : list str :=
  match s with
  | [] => [[]]
  | c :: s' =>
      if decide (c = d) then [] :: split_on d s'
      else match split_on d s' with
           | [] => [[c]]
           | l :: ls => (c :: l) :: ls
           end
  end.

(** [v.join(sep)]. *)
Fixpoint join (sep : str) (ls : list str) : str :=
  match ls with
  | [] => []
  | [l] => l
  | l :: ls' => l ++ sep ++ join sep ls'
  end.

Definition strip_cr (l : str) : str :=
  match strip_suffix [cr] l with Some l' => l' | None => l end.

(** [s.lines()]: the pieces ended by a newline lose it and one carriage
    return before it; what follows the last newline is a line if it is not
    empty, and keeps a carriage return. *)
Fixpoint lines_of_pieces (ls : list str) : list str :=
  match ls with
  | [] => []
  | [l] => if decide (l = []) then [] else [l]
  | l :: ls' => strip_cr l :: lines_of_pieces ls'
  end.

Definition lines (s : str) : list str := lines_of_pieces (split_on nl s).

(** A line of text holds no newline. *)
Definition no_nl (l : str) : Prop := nl ∉ l.

#[export] Instance no_nl_dec l : Decision (no_nl l).
Proof. unfold no_nl. apply _. Defined.

(** ** Lemmas on trimming *)

Lemma trim_end_app p s : trim_end s ≠ [] → trim_end (p ++ s) = p ++ trim_end s.
Proof.
  intros Hs. induction p as [|c p IH]; [done|]. simpl. rewrite IH.
  destruct (p ++ trim_end s) eqn:E; [|done].
  by apply app_eq_nil in E as [_ ?].
Qed.

Lemma trim_end_snoc s c : is_whitespace c = false → trim_end (s ++ [c]) = s ++ [c].
Proof.
  intros Hc. rewrite trim_end_app; simpl; by rewrite Hc.
Qed.

Lemma trim_end_snoc_ws s c : is_whitespace c = true → trim_end (s ++ [c]) = trim_end s.
Proof.
  intros Hc. induction s as [|d s IH]; simpl; [by rewrite Hc|]. by rewrite IH.
Qed.

Lemma trim_end_idemp s : trim_end (trim_end s) = trim_end s.
Proof.
  induction s as [|c s IH]; [done|]. simpl.
  destruct (trim_end s) as [|d t] eqn:E.
  - destruct (is_whitespace c) eqn:Hc; [done|]. simpl. by rewrite Hc.
  - change (c :: d :: t) with ([c] ++ (d :: t)).
    rewrite trim_end_app; by rewrite IH.
Qed.

Lemma trim_start_nonws c s : is_whitespace c = false → trim_start (c :: s) = c :: s.
Proof. intros Hc. simpl. by rewrite Hc. Qed.

Lemma trim_fixed c s :
  is_whitespace c = false → trim_end (c :: s) = c :: s → trim (c :: s) = c :: s.
Proof. intros Hc Ht. unfold trim. by rewrite trim_start_nonws. Qed.

(** A literal whose last character is not white space, followed by text that
    is its own [trim_end], is its own [trim_end]. *)
Lemma trim_end_prefix p s : trim_end s = s → s ≠ [] → trim_end (p ++ s) = p ++ s.
Proof. intros Hs Hne. rewrite trim_end_app; by rewrite Hs. Qed.

Lemma trim_end_prefix_any p s :
  trim_end p = p → trim_end s = s → trim_end (p ++ s) = p ++ s.
Proof.
  intros Hp Hs. destruct s as [|c s]; [by rewrite app_nil_r|].
  by apply trim_end_prefix.
Qed.

Lemma trim_end_sublist s : trim_end s `prefix_of` s.
Proof.
  induction s as [|c s IH]; [done|]. simpl.
  destruct (trim_end s) eqn:E.
  - destruct (is_whitespace c); [apply prefix_nil|]. apply prefix_cons, prefix_nil.
  - by apply prefix_cons.
Qed.

Lemma trim_end_last s c : last (trim_end s) = Some c → is_whitespace c = false.
Proof.
  induction s as [|d s IH]; [done|]. simpl.
  destruct (trim_end s) as [|e t] eqn:E.
  - destruct (is_whitespace d) eqn:Hd; simpl; naive_solver.
  - rewrite last_cons_cons. auto.
Qed.

Lemma trim_start_suffix s : trim_start s `suffix_of` s.
Proof.
  induction s as [|c s IH]; [done|]. simpl. destruct (is_whitespace c); [|done].
  by apply suffix_cons_r.
Qed.

(** ** Lemmas on lines *)

Lemma split_on_nonempty d s : split_on d s ≠ [].
Proof.
  destruct s as [|c s]; simpl; [done|]. case_decide; [done|].
  by destruct (split_on d s).
Qed.

Lemma split_on_no d s : d ∉ s → split_on d s = [s].
Proof.
  induction s as [|c s IH]; [done|]. intros [? ?]%not_elem_of_cons. simpl.
  rewrite decide_False by done. by rewrite IH.
Qed.

Lemma split_on_app d l s : d ∉ l → split_on d (l ++ d :: s) = l :: split_on d s.
Proof.
  induction l as [|c l IH]; intros Hl; simpl; [by rewrite decide_True|].
  apply not_elem_of_cons in Hl as [? ?].
  rewrite decide_False by done. by rewrite IH.
Qed.

Lemma join_cons sep l ls : ls ≠ [] → join sep (l :: ls) = l ++ sep ++ join sep ls.
Proof. by destruct ls. Qed.

Lemma join_split d s : join [d] (split_on d s) = s.
Proof.
  induction s as [|c s IH]; [done|]. simpl.
  pose proof (split_on_nonempty d s). case_decide as E; subst.
  - rewrite join_cons by done. simpl. by rewrite IH.
  - destruct (split_on d s) as [|l ls]; [done|].
    rewrite <- IH. by destruct ls.
Qed.

Lemma split_join d ls :
  ls ≠ [] → Forall (λ l, d ∉ l) ls → split_on d (join [d] ls) = ls.
Proof.
  intros Hne HF. induction HF as [|l ls Hl HF IH]; [done|].
  destruct ls as [|l' ls]; [by apply split_on_no|].
  rewrite join_cons by done. cbn [app]. rewrite split_on_app by done. by rewrite IH.
Qed.

Lemma split_on_Forall d s : Forall (λ l, d ∉ l) (split_on d s).
Proof.
  induction s as [|c s IH]; simpl; [repeat constructor; apply not_elem_of_nil|].
  case_decide; [constructor; [apply not_elem_of_nil|done]|].
  destruct (split_on d s) as [|l ls].
  - constructor; [|constructor]. set_solver.
  - inv IH. constructor; [|done]. set_solver.
Qed.

Lemma split_on_snoc d s : split_on d (s ++ [d]) = split_on d s ++ [[]].
Proof.
  induction s as [|c s IH]; simpl; [by rewrite decide_True|].
  rewrite IH. pose proof (split_on_nonempty d s). case_decide; [done|].
  by destruct (split_on d s).
Qed.

(** The last piece is empty only for a text that is empty or ends with the separator. *)
Lemma split_on_last_empty d s :
  last (split_on d s) = Some [] → s = [] ∨ last s = Some d.
Proof.
  destruct (last s) as [c|] eqn:Hl; [|apply last_None in Hl; auto].
  apply last_Some_snoc in Hl as [t ->]. intros H. right.
  f_equal. destruct (decide (c = d)) as [|Hc]; [done|]. exfalso. revert H.
  induction t as [|x t IH]; simpl; [by rewrite decide_False|].
  pose proof (split_on_nonempty d (t ++ [c])).
  case_decide; destruct (split_on d (t ++ [c])) as [|l [|l' ls]]; done.
Qed.

Lemma join_snoc sep ls l : ls ≠ [] → join sep (ls ++ [l]) = join sep ls ++ sep ++ l.
Proof.
  induction ls as [|x ls IH]; [done|]. intros _. destruct ls as [|y ls]; [done|].
  rewrite <- app_comm_cons, !join_cons, IH by (by try destruct ls). by rewrite !app_assoc.
Qed.

(** ** Lines hold no newline *)

Lemma no_nl_app s t : no_nl (s ++ t) ↔ no_nl s ∧ no_nl t.
Proof. unfold no_nl. set_solver. Qed.

Lemma no_nl_cons c s : no_nl (c :: s) ↔ c ≠ nl ∧ no_nl s.
Proof. unfold no_nl. set_solver. Qed.

Lemma no_nl_nil : no_nl [].
Proof. apply not_elem_of_nil. Qed.

Lemma no_nl_trim_end s : no_nl s → no_nl (trim_end s).
Proof. destruct (trim_end_sublist s) as [t Ht]. rewrite Ht at 1. rewrite no_nl_app. tauto. Qed.

Lemma no_nl_trim s : no_nl s → no_nl (trim s).
Proof.
  intros H. apply no_nl_trim_end. destruct (trim_start_suffix s) as [t Ht].
  rewrite Ht, no_nl_app in H. tauto.
Qed.

Lemma no_nl_strip_prefix p s r : strip_prefix p s = Some r → no_nl s → no_nl r.
Proof. intros ->%strip_prefix_Some. rewrite no_nl_app. tauto. Qed.

Lemma strip_cr_prefix l : ∃ t, l = strip_cr l ++ t.
Proof.
  unfold strip_cr. destruct (strip_suffix [cr] l) as [l'|] eqn:E.
  - apply strip_suffix_Some in E. by exists [cr].
  - exists []. by rewrite app_nil_r.
Qed.

Lemma no_nl_strip_cr l : no_nl l → no_nl (strip_cr l).
Proof. destruct (strip_cr_prefix l) as [t Ht]. rewrite Ht at 1. rewrite no_nl_app. tauto. Qed.

(** A line that does not end in a carriage return is left alone. *)
Lemma strip_cr_id l : last l ≠ Some cr → strip_cr l = l.
Proof.
  intros Hl. unfold strip_cr. destruct (strip_suffix [cr] l) as [l'|] eqn:E; [|done].
  apply strip_suffix_Some in E as ->. by rewrite last_snoc in Hl.
Qed.

#[export] Hint Resolve no_nl_nil no_nl_trim_end no_nl_trim no_nl_strip_cr no_nl_strip_prefix : codex.

(** ** Lemmas on case and search *)

Lemma split_once_Some d s a b : split_once d s = Some (a, b) → s = a ++ d :: b.
Proof.
  revert a. induction s as [|c s IH]; intros a; simpl; [done|].
  case_decide as Hc; [intros [= <- <-]; by subst|].
  destruct (split_once d s) as [[a' b']|]; [|done]. intros [= <- <-]. simpl. f_equal. by apply IH.
Qed.

Lemma rsplit_once_Some d s a b : rsplit_once d s = Some (a, b) → s = a ++ d :: b.
Proof.
  revert a. induction s as [|c s IH]; intros a; simpl; [done|].
  destruct (rsplit_once d s) as [[a' b']|].
  - intros [= <- <-]. simpl. f_equal. by apply IH.
  - case_decide as Hc; [intros [= <- <-]; by subst|done].
Qed.

Lemma contains_char s c : contains s [c] = true ↔ c ∈ s.
Proof.
  induction s as [|x s IH]; cbn [contains].
  - rewrite elem_of_nil. split; [|done]. rewrite orb_false_r, starts_with_true. by intros [r [=]].
  - rewrite orb_true_iff, IH, starts_with_true, elem_of_cons. naive_solver.
Qed.

Lemma trim_subset s c : c ∈ trim s → c ∈ s.
Proof.
  unfold trim. destruct (trim_end_sublist (trim_start s)) as [k Hk], (trim_start_suffix s) as [k' Hk'].
  intros Hc. rewrite Hk', elem_of_app. right. rewrite Hk, elem_of_app. by left.
Qed.

Lemma trim_end_matches_subset d s c : c ∈ trim_end_matches d s → c ∈ s.
Proof.
  induction s as [|x s IH]; simpl; [done|].
  destruct (trim_end_matches d s) as [|y t]; [case_decide|]; rewrite ?elem_of_cons, ?elem_of_nil in *;
    tauto.
Qed.

(** ** Lemmas on [lines] *)

Lemma split_on_app_sep d s t : split_on d (s ++ d :: t) = split_on d s ++ split_on d t.
Proof.
  induction s as [|c s IH]; simpl; [by rewrite decide_True|].
  rewrite IH. pose proof (split_on_nonempty d s). case_decide; [done|].
  by destruct (split_on d s).
Qed.

Lemma lines_of_pieces_snoc ls l :
  lines_of_pieces (ls ++ [l]) = (strip_cr <$> ls) ++ (if decide (l = []) then [] else [l]).
Proof.
  induction ls as [|k ls IH]; [done|].
  rewrite fmap_cons, <- !app_comm_cons, <- IH. by destruct ls.
Qed.

(** The last piece of a text ends as the text does. *)
Lemma split_on_last d s l c :
  last (split_on d s) = Some l → last s = Some c → c ≠ d → last l = Some c.
Proof.
  intros Hl [t ->]%last_Some_snoc Hc. revert l Hl.
  induction t as [|x t IH]; intros l; simpl.
  - rewrite decide_False by done. by intros [= <-].
  - pose proof (split_on_nonempty d (t ++ [c])). case_decide;
      destruct (split_on d (t ++ [c])) as [|k [|k' ks]]; try done; try apply IH.
    intros [= <-]. specialize (IH k eq_refl). by destruct k.
Qed.

Lemma lines_snoc_nl t : lines (t ++ [nl]) = strip_cr <$> split_on nl t.
Proof. unfold lines. rewrite split_on_snoc, lines_of_pieces_snoc. simpl. by rewrite app_nil_r. Qed.

(** A text that does not end with a newline or a carriage return. *)
Lemma lines_no_final_newline s c :
  last s = Some c → c ≠ nl → c ≠ cr → lines s = strip_cr <$> split_on nl s.
Proof.
  intros Hs Hnl Hcr. unfold lines.
  destruct (last (split_on nl s)) as [l|] eqn:Hl.
  2: { apply last_None in Hl. by apply split_on_nonempty in Hl. }
  pose proof (split_on_last _ _ _ _ Hl Hs Hnl) as Hc. apply last_init in Hl as ->.
  rewrite lines_of_pieces_snoc, fmap_app, decide_False by by intros ->. simpl.
  rewrite strip_cr_id; [done|]. rewrite Hc. congruence.
Qed.

(** ** Byte offsets *)

(** [s.len()] *)
Definition byte_len (s : str) : N := N.of_nat (str_len s).

(** [(&s[..n], &s[n..])]: [None] is the panic of a slice that is not on
    character boundaries. *)
Fixpoint split_at_byte (s : str) (n : N) : option (str * str) :=
  if decide (n = 0%N) then Some ([], s)
  else
    match s with
    | [] => None
    | c :: s =>
        let k := N.of_nat (len_utf8 c) in
        if decide (k ≤ n)%N then
          '(l, r) ← split_at_byte s (n - k); Some (c :: l, r)
        else None
    end.

Lemma byte_len_app s t : byte_len (s ++ t) = (byte_len s + byte_len t)%N.
Proof. unfold byte_len. rewrite str_len_app. lia. Qed.

Lemma byte_len_cons c s : byte_len (c :: s) = (N.of_nat (len_utf8 c) + byte_len s)%N.
Proof. unfold byte_len. rewrite str_len_cons. lia. Qed.

Lemma byte_len_nil : byte_len [] = 0%N.
Proof. done. Qed.

Lemma byte_len_0 s : byte_len s = 0%N ↔ s = [].
Proof. unfold byte_len. rewrite <- str_len_0. lia. Qed.

Lemma len_utf8_N c : (1 ≤ N.of_nat (len_utf8 c) ≤ 4)%N.
Proof. pose proof (len_utf8_pos c). lia. Qed.

Lemma split_at_byte_app l r : split_at_byte (l ++ r) (byte_len l) = Some (l, r).
Proof.
  induction l as [|c l IH]; [by destruct r|]. rewrite byte_len_cons.
  pose proof (len_utf8_N c). cbn [app split_at_byte].
  rewrite decide_False, decide_True by lia.
  replace (_ + byte_len l - _)%N with (byte_len l) by lia. by rewrite IH.
Qed.

#[export] Hint Rewrite byte_len_app byte_len_cons byte_len_nil : codex.

(** ** Order and numbers *)

(** The order of strings is the one of their bytes, which for characters is the
    order of their numbers. *)
Fixpoint str_leb (s t : str) : bool :=
  match s, t with
  | [], _ => true
  | _, [] => false
  | c :: s, d :: t => if decide (c = d) then str_leb s t else bool_decide (c < d)%N
  end.

(** A number in decimal, as [format!] writes it. *)
Definition decimal_N (n : N) : str := lit (pretty.pretty n).
Definition decimal_Z (z : Z) : str := lit (pretty.pretty z).
