(* ===== verification/Utf8.v ===== *)
(** UTF-8 as the Rust standard library has it: [char::encode_utf8],
    [String::into_bytes] and [str::from_utf8] with the [valid_up_to] and
    [error_len] of its error.  A byte is a number; a [str] is the list of its
    scalar values ([Text.v]).  The codec is shared by the filesystem interface
    and by the byte-stream parser. *)

From S2P Require Import Prelude Text.

(** * The code *)

(** A Unicode scalar value: what a Rust [char] can hold. *)
Definition is_char (c : N) : Prop := (c < 55296 ∨ 57344 ≤ c ≤ 1114111)%N.

#[export] Instance is_char_dec c : Decision (is_char c).
Proof. unfold is_char. apply _. Defined.

Definition encode_char (c : N) : list N :=
  if decide (c < 128)%N then [c]
  else if decide (c < 2048)%N then [192 + c / 64; 128 + c mod 64]%N
  else if decide (c < 65536)%N then [224 + c / 4096; 128 + c / 64 mod 64; 128 + c mod 64]%N
  else [240 + c / 262144; 128 + c / 4096 mod 64; 128 + c / 64 mod 64; 128 + c mod 64]%N.

(** [s.into_bytes()] *)
Definition into_bytes (s : str) : list N := s ≫= encode_char.
Arguments into_bytes : simpl never.

Inductive decoded :=
| Char (c : N) (rest : list N)
| Invalid (error_len : nat)
| Incomplete.

Definition in_range (lo hi b : N) : bool := bool_decide (lo ≤ b ≤ hi)%N.
Definition is_continuation : N → bool := in_range 128 191.

(** The second byte allowed after a three- or four-byte lead byte. *)
Definition second_of_3 (b0 b1 : N) : bool :=
  if decide (b0 = 224)%N then in_range 160 191 b1
  else if decide (b0 = 237)%N then in_range 128 159 b1
  else in_range 128 191 b1.
Definition second_of_4 (b0 b1 : N) : bool :=
  if decide (b0 = 240)%N then in_range 144 191 b1
  else if decide (b0 = 244)%N then in_range 128 143 b1
  else in_range 128 191 b1.

(** One step of the validation loop, on a non-empty buffer. *)
Definition decode_char (bs : list N) : decoded :=
  match bs with
  | [] => Incomplete
  | b0 :: bs =>
      if decide (b0 < 128)%N then Char b0 bs
      else if in_range 194 223 b0 then
        match bs with
        | [] => Incomplete
        | b1 :: bs =>
            if is_continuation b1 then Char ((b0 - 192) * 64 + (b1 - 128))%N bs else Invalid 1
        end
      else if in_range 224 239 b0 then
        match bs with
        | [] => Incomplete
        | b1 :: bs =>
            if second_of_3 b0 b1 then
              match bs with
              | [] => Incomplete
              | b2 :: bs =>
                  if is_continuation b2
                  then Char ((b0 - 224) * 4096 + (b1 - 128) * 64 + (b2 - 128))%N bs
                  else Invalid 2
              end
            else Invalid 1
        end
      else if in_range 240 244 b0 then
        match bs with
        | [] => Incomplete
        | b1 :: bs =>
            if second_of_4 b0 b1 then
              match bs with
              | [] => Incomplete
              | b2 :: bs =>
                  if is_continuation b2 then
                    match bs with
                    | [] => Incomplete
                    | b3 :: bs =>
                        if is_continuation b3
                        then Char ((b0 - 240) * 262144 + (b1 - 128) * 4096
                                   + (b2 - 128) * 64 + (b3 - 128))%N bs
                        else Invalid 3
                    end
                  else Invalid 2
              end
            else Invalid 1
        end
      else Invalid 1
  end.

(** [Utf8Error] *)
Record Utf8Error := mkUtf8Error { valid_up_to : nat; error_len : option nat }.

(** The loop; every step consumes a byte, so the length of the input is enough fuel. *)
Fixpoint from_utf8_loop (fuel : nat) (pos : nat) (bs : list N) : result Utf8Error str :=
  match bs, fuel with
  | [], _ => Ok []
  | _, O => Err (mkUtf8Error pos None)
  | _, S fuel =>
      match decode_char bs with
      | Char c rest =>
          let? s := from_utf8_loop fuel (pos + (length bs - length rest)) rest in Ok (c :: s)
      | Invalid n => Err (mkUtf8Error pos (Some n))
      | Incomplete => Err (mkUtf8Error pos None)
      end
  end.

Definition from_utf8 (bs : list N) : result Utf8Error str := from_utf8_loop (length bs) 0 bs.

(** * One character *)

Lemma in_range_true lo hi b : in_range lo hi b = true ↔ (lo ≤ b ≤ hi)%N.
Proof. apply bool_decide_eq_true. Qed.

Lemma in_range_false lo hi b : in_range lo hi b = false ↔ ¬ (lo ≤ b ≤ hi)%N.
Proof. apply bool_decide_eq_false. Qed.

Ltac byte_facts :=
  unfold is_continuation, second_of_3, second_of_4 in *;
  repeat (case_decide || case_match); simplify_eq/=;
  repeat match goal with
  | H : in_range _ _ _ = true |- _ => apply in_range_true in H
  | H : in_range _ _ _ = false |- _ => apply in_range_false in H
  end.
Ltac div_mod_lia := zify; Z.to_euclidean_division_equations; lia.

Lemma encode_char_nonempty c : encode_char c ≠ [].
Proof. unfold encode_char. by repeat case_decide. Qed.

Lemma encode_char_length c : length (encode_char c) = len_utf8 c.
Proof. unfold encode_char, len_utf8. repeat case_decide; simpl; lia. Qed.

Lemma decode_char_sound bs c rest :
  decode_char bs = Char c rest → bs = encode_char c ++ rest ∧ is_char c.
Proof.
  destruct bs as [|b0 bs]; [done|]. unfold decode_char, is_char. intros H.
  byte_facts; (split; [|lia]); unfold encode_char;
    repeat (case_decide; try lia); simpl; repeat f_equal; div_mod_lia.
Qed.

Lemma in_range_dec_true lo hi b : (lo ≤ b ≤ hi)%N → in_range lo hi b = true.
Proof. apply in_range_true. Qed.
Lemma in_range_dec_false lo hi b : (b < lo ∨ hi < b)%N → in_range lo hi b = false.
Proof. rewrite in_range_false. lia. Qed.

Ltac eval_ranges :=
  repeat first
    [ rewrite decide_True by div_mod_lia | rewrite decide_False by div_mod_lia
    | rewrite in_range_dec_true by div_mod_lia | rewrite in_range_dec_false by div_mod_lia ].

Lemma second_of_3_encode c :
  is_char c → (2048 ≤ c < 65536)%N →
  second_of_3 (224 + c / 4096) (128 + c / 64 mod 64) = true.
Proof.
  unfold is_char, second_of_3. intros. repeat case_decide; apply in_range_true; div_mod_lia.
Qed.

Lemma second_of_4_encode c :
  is_char c → (65536 ≤ c)%N →
  second_of_4 (240 + c / 262144) (128 + c / 4096 mod 64) = true.
Proof.
  unfold is_char, second_of_4. intros. repeat case_decide; apply in_range_true; div_mod_lia.
Qed.

Lemma decode_char_encode c rest : is_char c → decode_char (encode_char c ++ rest) = Char c rest.
Proof.
  intros Hc. pose proof Hc as Hc'. unfold is_char in Hc'. unfold encode_char.
  repeat case_decide; simpl; unfold is_continuation.
  - by rewrite decide_True.
  - eval_ranges. f_equal. div_mod_lia.
  - rewrite second_of_3_encode by (done || lia). eval_ranges. f_equal. div_mod_lia.
  - rewrite second_of_4_encode by (done || lia). eval_ranges. f_equal. div_mod_lia.
Qed.

(** What more input does to a decision: nothing, unless the character was incomplete. *)
Lemma decode_char_app bs more :
  match decode_char bs with
  | Char c rest => decode_char (bs ++ more) = Char c (rest ++ more)
  | Invalid n => decode_char (bs ++ more) = Invalid n
  | Incomplete => True
  end.
Proof.
  destruct bs as [|b0 bs]; [done|]. simpl.
  repeat (case_decide; try done).
  destruct (in_range 194 223 b0), (in_range 224 239 b0), (in_range 240 244 b0); try done;
    destruct bs as [|b1 bs]; try done; simpl;
    repeat (case_match; simplify_eq/=; try done).
Qed.

Lemma decode_char_incomplete_length bs : decode_char bs = Incomplete → length bs ≤ 3.
Proof.
  destruct bs as [|b0 [|b1 [|b2 [|b3 bs]]]]; simpl; try lia.
  intros H. repeat (case_decide || case_match); simplify_eq/=.
Qed.

(** * Whole buffers *)

Lemma into_bytes_app s t : into_bytes (s ++ t) = into_bytes s ++ into_bytes t.
Proof. apply bind_app. Qed.

Lemma into_bytes_cons c s : into_bytes (c :: s) = encode_char c ++ into_bytes s.
Proof. done. Qed.

Lemma into_bytes_length s : length (into_bytes s) = str_len s.
Proof.
  induction s as [|c s IH]; [done|].
  by rewrite into_bytes_cons, str_len_cons, length_app, encode_char_length, IH.
Qed.

(** The first thing in [bs] after the characters [s] that does not decode. *)
Definition stuck_at (bs : list N) (s : str) (rest : list N) : Prop :=
  bs = into_bytes s ++ rest ∧ Forall is_char s.

Lemma from_utf8_loop_spec fuel pos bs :
  length bs ≤ fuel →
  match from_utf8_loop fuel pos bs with
  | Ok s => stuck_at bs s []
  | Err e => ∃ s rest, stuck_at bs s rest ∧ rest ≠ [] ∧ valid_up_to e = pos + str_len s
      ∧ decode_char rest = match error_len e with Some n => Invalid n | None => Incomplete end
  end.
Proof.
  revert pos bs. induction fuel as [|fuel IH]; intros pos [|b bs] Hf; try done; [simpl in Hf; lia|].
  cbn [from_utf8_loop]. destruct (decode_char (b :: bs)) as [c rest|n|] eqn:E.
  - apply decode_char_sound in E as [E Hc]. rewrite E, length_app, encode_char_length.
    apply (f_equal length) in E as El. rewrite length_app, encode_char_length in El. simpl in *.
    pose proof (len_utf8_pos c).
    specialize (IH (pos + (len_utf8 c + length rest - length rest)) rest ltac:(lia)).
    destruct (from_utf8_loop _ _ rest) as [s|e]; unfold stuck_at in *; simpl.
    + destruct IH as [-> Hs]. rewrite into_bytes_cons, app_assoc. auto.
    + destruct IH as (s & rest' & (-> & Hs) & Hr & -> & Hd). exists (c :: s), rest'.
      rewrite into_bytes_cons, str_len_cons, app_assoc. split_and!; auto. lia.
  - exists [], (b :: bs). unfold stuck_at. simpl. split_and!; auto; lia.
  - exists [], (b :: bs). unfold stuck_at. simpl. split_and!; auto; lia.
Qed.

Lemma stuck_at_unique bs s rest s' rest' :
  stuck_at bs s rest → stuck_at bs s' rest' →
  (∀ c r, decode_char rest ≠ Char c r) → (∀ c r, decode_char rest' ≠ Char c r) →
  s = s' ∧ rest = rest'.
Proof.
  unfold stuck_at. intros [-> Hs] [Heq Hs']. revert s' Heq Hs'.
  induction Hs as [|c s Hc Hs IH]; intros [|c' s'] Heq Hs' Hr Hr'; simpl in *.
  - done.
  - apply Forall_cons in Hs' as [Hc' _]. rewrite into_bytes_cons, <- app_assoc in Heq.
    subst rest. by destruct (Hr c' (into_bytes s' ++ rest')); apply decode_char_encode.
  - rewrite into_bytes_cons, <- app_assoc in Heq.
    subst rest'. by destruct (Hr' c (into_bytes s ++ rest)); apply decode_char_encode.
  - apply Forall_cons in Hs' as [Hc' Hs'].
    rewrite !into_bytes_cons, <- !app_assoc in Heq. apply (f_equal decode_char) in Heq.
    rewrite !decode_char_encode in Heq by done. injection Heq as <- Heq.
    by destruct (IH s' Heq Hs' Hr Hr') as [-> ->].
Qed.

Lemma from_utf8_Ok bs s : from_utf8 bs = Ok s ↔ bs = into_bytes s ∧ Forall is_char s.
Proof.
  unfold from_utf8. pose proof (from_utf8_loop_spec (length bs) 0 bs ltac:(lia)) as H.
  destruct (from_utf8_loop _ _ _) as [s'|e]; unfold stuck_at in H; rewrite ?app_nil_r in H.
  - split; [by intros [= <-]|]. intros Hs. f_equal.
    destruct (stuck_at_unique bs s' [] s []); unfold stuck_at; rewrite ?app_nil_r; done.
  - split; [done|]. intros Hs. destruct H as (s' & rest & Hst & Hr & _ & Hd). exfalso. apply Hr.
    eapply (stuck_at_unique bs s' rest s []); unfold stuck_at; rewrite ?app_nil_r; try done.
    rewrite Hd. by destruct (error_len e).
Qed.

Lemma from_utf8_into_bytes s : Forall is_char s → from_utf8 (into_bytes s) = Ok s.
Proof. intros H. by apply from_utf8_Ok. Qed.

Lemma from_utf8_Err bs e :
  from_utf8 bs = Err e ↔
  ∃ s rest, stuck_at bs s rest ∧ rest ≠ [] ∧ valid_up_to e = str_len s
    ∧ decode_char rest = match error_len e with Some n => Invalid n | None => Incomplete end.
Proof.
  unfold from_utf8. pose proof (from_utf8_loop_spec (length bs) 0 bs ltac:(lia)) as H.
  destruct (from_utf8_loop _ _ _) as [s'|e'] eqn:E; [split; [done|]|].
  - intros (s & rest & Hst & Hr & _ & Hd). exfalso. apply Hr. symmetry.
    apply (stuck_at_unique bs s' [] s rest); [done..|]. rewrite Hd. by destruct (error_len e).
  - split; [by intros [= <-]|]. intros (s & rest & Hst & Hr & Hv & Hd).
    destruct H as (s' & rest' & Hst' & Hr' & Hv' & Hd').
    assert (s' = s ∧ rest' = rest) as [-> ->].
    { apply (stuck_at_unique bs); try done; rewrite ?Hd, ?Hd'; [by destruct (error_len e')|by destruct (error_len e)]. }
    destruct e as [v l], e' as [v' l']; simpl in *. f_equal. f_equal; [lia|].
    rewrite Hd in Hd'. destruct l, l'; congruence.
Qed.
