(* ===== verification/Machine.v ===== *)
(** Machine integers.  A [usize] or [u64] is an [N], an [i64] a [Z]; the
    saturating operations the sources use are written out at 64 bits, and the
    lemmas say when a chain of them is one sum cut off once.  An [f64] is the
    Standard Library's [spec_float] at 53 bits of precision, so products round
    as IEEE 754 says. *)

From Stdlib Require Import SpecFloat.
From S2P Require Import Prelude.

Definition usize_max : N := 18446744073709551615.
Definition i64_max : Z := 9223372036854775807.
Definition i64_min : Z := -9223372036854775808.

(** A count as a [usize]: the length of a list, or a sum that saturated. *)
Definition usize_sat (n : N) : N := N.min n usize_max.

(** [usize::saturating_add] and [usize::saturating_mul] (also of [u64]). *)
Definition usize_add (a b : N) : N := usize_sat (a + b).
Definition usize_mul (a b : N) : N := usize_sat (a * b).

(** [i64::saturating_add] and [i64::saturating_sub]. *)
Definition i64_sat (z : Z) : Z := Z.max i64_min (Z.min z i64_max).
Definition i64_add (a b : Z) : Z := i64_sat (a + b).
Definition i64_sub (a b : Z) : Z := i64_sat (a - b).

(** [i64::try_from(n).unwrap_or(i64::MAX)]. *)
Definition i64_of_usize (n : N) : Z := Z.min (Z.of_N n) i64_max.

(** [n as f64], and the product of two [f64]s. *)
Definition f64_of_usize (n : N) : spec_float := binary_normalize 53 1024 (Z.of_N n) 0 false.
Definition f64_mul : spec_float → spec_float → spec_float := SFmul 53 1024.

(** [x.ceil() as usize]: the cast saturates, and sends NaN to 0. *)
Definition f64_ceil_as_usize (x : spec_float) : N :=
  match x with
  | S754_finite false m e =>
      usize_sat (Z.to_N (if decide (0 ≤ e)%Z then Z.shiftl (Zpos m) e
                         else - Z.shiftr (- Zpos m) (- e)))
  | S754_infinity false => usize_max
  | _ => 0
  end.

Lemma usize_add_sat_l a b : usize_add (usize_sat a) b = usize_sat (a + b).
Proof. unfold usize_add, usize_sat. lia. Qed.

Lemma usize_add_sat_r a b : usize_add a (usize_sat b) = usize_sat (a + b).
Proof. unfold usize_add, usize_sat. lia. Qed.

Lemma usize_add_sat a b : usize_add (usize_sat a) (usize_sat b) = usize_sat (a + b).
Proof. unfold usize_add, usize_sat. lia. Qed.

Lemma usize_add_0_r a : usize_add (usize_sat a) 0 = usize_sat a.
Proof. unfold usize_add, usize_sat. lia. Qed.

Lemma usize_sat_0 a : usize_sat a = 0%N ↔ a = 0%N.
Proof. unfold usize_sat, usize_max. lia. Qed.

Lemma usize_sat_le a b : (a ≤ b)%N → (usize_sat a ≤ usize_sat b)%N.
Proof. unfold usize_sat. lia. Qed.

Lemma i64_sat_id z : (i64_min ≤ z ≤ i64_max)%Z → i64_sat z = z.
Proof. unfold i64_sat. lia. Qed.

(** Sums of counts saturate once. *)
Lemma i64_add_nonneg a b :
  (0 ≤ a)%Z → (0 ≤ b)%Z → i64_add (Z.min a i64_max) (Z.min b i64_max) = Z.min (a + b) i64_max.
Proof. unfold i64_add, i64_sat, i64_min, i64_max. lia. Qed.

#[export] Hint Rewrite usize_add_sat_l usize_add_sat_r usize_add_0_r : codex.
