(* ===== verification/PatchParser.v ===== *)
(** The patch grammar of [apply_patch]: the data types and boundary checks of
    [apply-patch/src/parser.rs] and the line-driven state machine of
    [apply-patch/src/streaming_parser.rs].  [push_delta] and [finish] keep the
    parser's writes on the error path, as the methods on [&mut self] do. *)

From S2P Require Import Prelude Text.

(** * Data *)

(** [ParseError] *)
Inductive ParseError :=
| InvalidPatchError (message : str)
| InvalidHunkError (message : str) (line_number : nat).

(** [UpdateFileChunk] *)
Record UpdateFileChunk := mkChunk {
  change_context : option str;
  old_lines : list str;
  new_lines : list str;
  is_end_of_file : bool
}.

(** [Hunk]; a [PathBuf] is the text it was built from. *)
Inductive Hunk :=
| AddFile (path : str) (contents : str)
| DeleteFile (path : str)
| UpdateFile (path : str) (move_path : option str) (chunks : list UpdateFileChunk).

(** [Hunk::path] *)
Definition hunk_path (h : Hunk) : str :=
  match h with
  | AddFile path _ => path
  | DeleteFile path => path
  | UpdateFile _ (Some path) _ => path
  | UpdateFile path None _ => path
  end.

#[export] Instance ParseError_eq_dec : EqDecision ParseError.
Proof. solve_decision. Defined.
#[export] Instance UpdateFileChunk_eq_dec : EqDecision UpdateFileChunk.
Proof. solve_decision. Defined.
#[export] Instance Hunk_eq_dec : EqDecision Hunk.
Proof. solve_decision. Defined.

(** * Markers *)

Definition BEGIN_PATCH_MARKER : str := lit "*** Begin Patch".
Definition END_PATCH_MARKER : str := lit "*** End Patch".
Definition ADD_FILE_MARKER : str := lit "*** Add File: ".
Definition DELETE_FILE_MARKER : str := lit "*** Delete File: ".
Definition UPDATE_FILE_MARKER : str := lit "*** Update File: ".
Definition MOVE_TO_MARKER : str := lit "*** Move to: ".
Definition EOF_MARKER : str := lit "*** End of File".
Definition CHANGE_CONTEXT_MARKER : str := lit "@@ ".
Definition EMPTY_CHANGE_CONTEXT_MARKER : str := lit "@@".
Definition ENVIRONMENT_ID_MARKER : str := lit "*** Environment ID:".

(** * The streaming parser *)

(** [StreamingParserMode] *)
Module Mode.
Inductive t :=
| NotStarted
| StartedPatch
| AddFile
| DeleteFile
| UpdateFile (hunk_line_number : nat)
| EndedPatch.

#[export] Instance eq_dec : EqDecision t.
Proof. solve_decision. Defined.
End Mode.

(** [StreamingParserState] *)
Record StreamingParserState := mkState {
  mode : Mode.t;
  hunks : list Hunk;
  environment_id : option str
}.

(** [StreamingPatchParser] *)
Record StreamingPatchParser := mkParser {
  line_buffer : str;
  state : StreamingParserState;
  line_number : nat
}.

(** [StreamingPatchParser::default()] *)
Definition default_parser : StreamingPatchParser :=
  mkParser [] (mkState Mode.NotStarted [] None) 0.

Definition set_mode (m : Mode.t) (p : StreamingPatchParser) : StreamingPatchParser :=
  mkParser (line_buffer p) (mkState m (hunks (state p)) (environment_id (state p))) (line_number p).
Definition set_hunks (hs : list Hunk) (p : StreamingPatchParser) : StreamingPatchParser :=
  mkParser (line_buffer p) (mkState (mode (state p)) hs (environment_id (state p))) (line_number p).
Definition set_environment_id (e : option str) (p : StreamingPatchParser) : StreamingPatchParser :=
  mkParser (line_buffer p) (mkState (mode (state p)) (hunks (state p)) e) (line_number p).
Definition set_line_buffer (b : str) (p : StreamingPatchParser) : StreamingPatchParser :=
  mkParser b (state p) (line_number p).
Definition next_line (p : StreamingPatchParser) : StreamingPatchParser :=
  mkParser (line_buffer p) (state p) (S (line_number p)).

Definition push_hunk (h : Hunk) (p : StreamingPatchParser) : StreamingPatchParser :=
  set_hunks (hunks (state p) ++ [h]) p.

(** ** Error messages *)

Definition msg_first_line : str := lit "The first line of the patch must be '*** Begin Patch'".
Definition msg_last_line : str := lit "The last line of the patch must be '*** End Patch'".
Definition msg_no_lines : str := lit "Update hunk does not contain any lines".
Definition msg_empty_update (path : str) : str :=
  lit "Update file hunk for path '" ++ path ++ lit "' is empty".
Definition msg_unexpected_line (line : str) : str :=
  lit "Unexpected line found in update hunk: '" ++ line ++
  lit "'. Every line should start with ' ' (context line), '+' (added line), or '-' (removed line)".
Definition msg_expected_context (line : str) : str :=
  lit "Expected update hunk to start with a @@ context marker, got: '" ++ line ++ lit "'".
Definition msg_bad_header (trimmed : str) : str :=
  lit "'" ++ trimmed ++
  lit "' is not a valid hunk header. Valid hunk headers: '*** Add File: {path}', '*** Delete File: {path}', '*** Update File: {path}'".
Definition msg_env_twice : str := lit "apply_patch environment_id cannot be specified more than once".
Definition msg_env_empty : str := lit "apply_patch environment_id cannot be empty".

(** [chunk.old_lines.is_empty() && chunk.new_lines.is_empty()] *)
Definition chunk_is_empty (c : UpdateFileChunk) : bool :=
  is_nil (old_lines c) && is_nil (new_lines c).

(** [ensure_update_hunk_is_not_empty] *)
Definition ensure_update_hunk_is_not_empty (line : str) (p : StreamingPatchParser)
  : result ParseError () :=
  match last (hunks (state p)) with
  | Some (UpdateFile path _ chunks) =>
      let check_last_chunk :=
        if is_some_and chunk_is_empty (last chunks) then
          if decide (line = END_PATCH_MARKER)
          then Err (InvalidHunkError msg_no_lines (line_number p))
          else Err (InvalidHunkError (msg_unexpected_line line) (line_number p))
        else Ok () in
      match chunks, mode (state p) with
      | [], Mode.UpdateFile hunk_line_number =>
          Err (InvalidHunkError (msg_empty_update path) hunk_line_number)
      | _, _ => check_last_chunk
      end
  | _ => Ok ()
  end.

(** The headers and the end marker of [handle_hunk_headers_and_end_patch]:
    each is guarded by [ensure_update_hunk_is_not_empty]. *)
Definition enter_header (trimmed : str) (p p' : StreamingPatchParser)
  : StreamingPatchParser * result ParseError bool :=
  match ensure_update_hunk_is_not_empty trimmed p with
  | Err e => (p, Err e)
  | Ok _ => (p', Ok true)
  end.

Definition hunk_headers_and_end_patch (trimmed : str) (p : StreamingPatchParser)
  : StreamingPatchParser * result ParseError bool :=
  if decide (trimmed = END_PATCH_MARKER) then
    enter_header trimmed p (set_mode Mode.EndedPatch p)
  else match strip_prefix ADD_FILE_MARKER trimmed with
  | Some path =>
      enter_header trimmed p (set_mode Mode.AddFile (push_hunk (AddFile path []) p))
  | None =>
  match strip_prefix DELETE_FILE_MARKER trimmed with
  | Some path =>
      enter_header trimmed p (set_mode Mode.DeleteFile (push_hunk (DeleteFile path) p))
  | None =>
  match strip_prefix UPDATE_FILE_MARKER trimmed with
  | Some path =>
      enter_header trimmed p
        (set_mode (Mode.UpdateFile (line_number p)) (push_hunk (UpdateFile path None []) p))
  | None => (p, Ok false)
  end end end.

(** [handle_hunk_headers_and_end_patch] *)
Definition handle_hunk_headers_and_end_patch (trimmed : str) (p : StreamingPatchParser)
  : StreamingPatchParser * result ParseError bool :=
  match mode (state p), strip_prefix ENVIRONMENT_ID_MARKER trimmed with
  | Mode.StartedPatch, Some env =>
      match environment_id (state p) with
      | Some _ => (p, Err (InvalidPatchError msg_env_twice))
      | None =>
          let env := trim env in
          if decide (env = []) then (p, Err (InvalidPatchError msg_env_empty))
          else (set_environment_id (Some env) p, Ok true)
      end
  | _, _ => hunk_headers_and_end_patch trimmed p
  end.

(** The lines of an update hunk: [process_line] in [UpdateFile] mode, on the
    last hunk's [move_path] and [chunks]. *)
Definition empty_chunk (ctx : option str) : UpdateFileChunk := mkChunk ctx [] [] false.

(** [if chunks.is_empty() { chunks.push(..) }] *)
Definition ensure_chunk (chunks : list UpdateFileChunk) : list UpdateFileChunk :=
  match chunks with [] => [empty_chunk None] | _ => chunks end.

Definition push_old (l : str) (c : UpdateFileChunk) : UpdateFileChunk :=
  mkChunk (change_context c) (old_lines c ++ [l]) (new_lines c) (is_end_of_file c).
Definition push_new (l : str) (c : UpdateFileChunk) : UpdateFileChunk :=
  mkChunk (change_context c) (old_lines c) (new_lines c ++ [l]) (is_end_of_file c).
Definition mark_end_of_file (c : UpdateFileChunk) : UpdateFileChunk :=
  mkChunk (change_context c) (old_lines c) (new_lines c) true.

Definition is_context_line (update_line : str) : bool :=
  bool_decide (update_line = EMPTY_CHANGE_CONTEXT_MARKER)
  || starts_with update_line CHANGE_CONTEXT_MARKER.

Definition process_update_line (line : str) (ln : nat)
    (move_path : option str) (chunks : list UpdateFileChunk)
  : result ParseError (option str * list UpdateFileChunk) :=
  let update_line := trim_end line in
  let at_eof := is_some_and is_end_of_file (last chunks) in
  if at_eof && bool_decide (update_line = []) then Ok (move_path, chunks)
  else if at_eof && negb (is_context_line update_line)
  then Err (InvalidHunkError (msg_expected_context line) ln)
  else match (if is_nil chunks && bool_decide (move_path = None)
              then strip_prefix MOVE_TO_MARKER update_line else None) with
  | Some move_to_path => Ok (Some move_to_path, chunks)
  | None =>
  if is_context_line update_line && is_some_and chunk_is_empty (last chunks)
  then Err (InvalidHunkError (msg_unexpected_line line) ln)
  else if decide (update_line = EMPTY_CHANGE_CONTEXT_MARKER)
  then Ok (move_path, chunks ++ [empty_chunk None])
  else match strip_prefix CHANGE_CONTEXT_MARKER update_line with
  | Some ctx => Ok (move_path, chunks ++ [empty_chunk (Some ctx)])
  | None =>
  if decide (update_line = EOF_MARKER) then
    if is_some_and chunk_is_empty (last chunks)
    then Err (InvalidHunkError msg_no_lines ln)
    else Ok (move_path, update_last mark_end_of_file chunks)
  else if decide (line = []) then
    Ok (move_path, update_last (push_new [] ∘ push_old []) (ensure_chunk chunks))
  else match line with
  | 32%N :: l => Ok (move_path, update_last (push_new l ∘ push_old l) (ensure_chunk chunks))
  | 43%N :: l => Ok (move_path, update_last (push_new l) (ensure_chunk chunks))
  | 45%N :: l => Ok (move_path, update_last (push_old l) (ensure_chunk chunks))
  | _ =>
      if is_some_and (λ c, negb (is_nil (old_lines c)) || negb (is_nil (new_lines c))) (last chunks)
      then Err (InvalidHunkError (msg_expected_context line) ln)
      else Err (InvalidHunkError (msg_unexpected_line line) ln)
  end
  end
  end.

(** [process_line] *)
Definition process_line (line : str) (p : StreamingPatchParser)
  : StreamingPatchParser * result ParseError () :=
  let trimmed := trim line in
  let bad_header p := (p, Err (InvalidHunkError (msg_bad_header trimmed) (line_number p))) in
  match mode (state p) with
  | Mode.NotStarted =>
      if decide (trimmed = BEGIN_PATCH_MARKER)
      then (set_mode Mode.StartedPatch p, Ok ())
      else (p, Err (InvalidPatchError msg_first_line))
  | Mode.StartedPatch =>
      let! p | handled := handle_hunk_headers_and_end_patch trimmed p in
      if handled : bool then (p, Ok ()) else bad_header p
  | Mode.AddFile =>
      let! p | handled := handle_hunk_headers_and_end_patch trimmed p in
      if handled : bool then (p, Ok ())
      else match strip_prefix (lit "+") line, last (hunks (state p)) with
      | Some line_to_add, Some (AddFile path contents) =>
          (set_hunks (update_last
             (λ _, AddFile path (contents ++ line_to_add ++ [nl])) (hunks (state p))) p, Ok ())
      | _, _ => bad_header p
      end
  | Mode.DeleteFile =>
      let! p | handled := handle_hunk_headers_and_end_patch trimmed p in
      if handled : bool then (p, Ok ()) else bad_header p
  | Mode.UpdateFile hunk_line_number =>
      let! p | handled := handle_hunk_headers_and_end_patch (trim_end line) p in
      if handled : bool then (p, Ok ())
      else match last (hunks (state p)) with
      | Some (UpdateFile path move_path chunks) =>
          match process_update_line line (line_number p) move_path chunks with
          | Err e => (p, Err e)
          | Ok (move_path, chunks) =>
              (set_mode (Mode.UpdateFile hunk_line_number)
                 (set_hunks (update_last (λ _, UpdateFile path move_path chunks)
                               (hunks (state p))) p), Ok ())
          end
      | _ => (p, Err (InvalidHunkError (msg_unexpected_line line) (line_number p)))
      end
  | Mode.EndedPatch =>
      if decide (trimmed = []) then (p, Ok ())
      else (p, Err (InvalidPatchError msg_last_line))
  end.

(** [push_delta], without the clone of the hunks it returns. *)
Fixpoint push_chars (delta : str) (p : StreamingPatchParser)
  : StreamingPatchParser * result ParseError () :=
  match delta with
  | [] => (p, Ok ())
  | ch :: rest =>
      if decide (ch = nl) then
        let line := strip_cr (line_buffer p) in
        let! p | _ := process_line line (next_line (set_line_buffer [] p)) in
        push_chars rest p
      else push_chars rest (set_line_buffer (line_buffer p ++ [ch]) p)
  end.

Definition push_delta (delta : str) (p : StreamingPatchParser)
  : StreamingPatchParser * result ParseError (list Hunk) :=
  let! p | _ := push_chars delta p in (p, Ok (hunks (state p))).

(** The end-of-input line of [finish]. *)
Definition finish_line (line : str) (p : StreamingPatchParser)
  : StreamingPatchParser * result ParseError () :=
  if decide (trim line = END_PATCH_MARKER) then
    match ensure_update_hunk_is_not_empty (trim line) p with
    | Err e => (p, Err e)
    | Ok _ => (set_mode Mode.EndedPatch p, Ok ())
    end
  else process_line line p.

(** [finish] *)
Definition finish (p : StreamingPatchParser)
  : StreamingPatchParser * result ParseError (list Hunk) :=
  let! p | _ :=
    (if decide (line_buffer p = []) then (p, Ok ())
     else finish_line (line_buffer p) (next_line (set_line_buffer [] p))) in
  match mode (state p) with
  | Mode.EndedPatch => (p, Ok (hunks (state p)))
  | _ => (p, Err (InvalidPatchError msg_last_line))
  end.

(** * Parsing a whole patch ([parser.rs]) *)

(** [ParseMode] *)
Inductive ParseMode := Strict | Lenient.

Definition PARSE_IN_STRICT_MODE : bool := false.

(** [ApplyPatchArgs] *)
Record ApplyPatchArgs := mkArgs {
  args_patch : str;
  args_hunks : list Hunk;
  args_workdir : option str;
  args_environment_id : option str
}.

(** [check_start_and_end_lines_strict] *)
Definition check_start_and_end_lines_strict (first_line last_line : option str)
  : result ParseError () :=
  match trim <$> first_line, trim <$> last_line with
  | Some first, Some last =>
      if decide (first = BEGIN_PATCH_MARKER ∧ last = END_PATCH_MARKER) then Ok ()
      else if decide (first ≠ BEGIN_PATCH_MARKER) then Err (InvalidPatchError msg_first_line)
      else Err (InvalidPatchError msg_last_line)
  | Some first, None =>
      if decide (first ≠ BEGIN_PATCH_MARKER) then Err (InvalidPatchError msg_first_line)
      else Err (InvalidPatchError msg_last_line)
  | None, _ => Err (InvalidPatchError msg_last_line)
  end.

(** [check_patch_boundaries_strict] *)
Definition check_patch_boundaries_strict (ls : list str) : result ParseError (list str) :=
  match check_start_and_end_lines_strict (head ls) (last ls) with
  | Ok _ => Ok ls
  | Err e => Err e
  end.

(** The heredoc openers [<<EOF], [<<'EOF'] and, with double quotes, the third. *)
Definition is_heredoc_open (l : str) : bool :=
  bool_decide (l = lit "<<EOF") || bool_decide (l = lit "<<'EOF'")
  || bool_decide (l = lit "<<" ++ [34%N] ++ lit "EOF" ++ [34%N]).

(** [check_patch_boundaries_lenient] *)
Definition check_patch_boundaries_lenient (original_lines : list str)
  : result ParseError (list str) :=
  match check_patch_boundaries_strict original_lines with
  | Ok ls => Ok ls
  | Err original_parse_error =>
      match original_lines, last original_lines with
      | first :: _ :: _, Some last =>
          if is_heredoc_open first && ends_with last (lit "EOF")
             && bool_decide (4 ≤ length original_lines)
          then check_patch_boundaries_strict (init (tail original_lines))
          else Err original_parse_error
      | _, _ => Err original_parse_error
      end
  end.

(** [parse_patch_text] *)
Definition parse_patch_text (patch : str) (m : ParseMode) : result ParseError ApplyPatchArgs :=
  let ls := lines (trim patch) in
  let? patch_lines :=
    (match m with
     | Strict => check_patch_boundaries_strict ls
     | Lenient => check_patch_boundaries_lenient ls
     end) in
  let patch := join [nl] patch_lines in
  match push_delta patch default_parser with
  | (_, Err e) => Err e
  | (p, Ok _) =>
      match finish p with
      | (_, Err e) => Err e
      | (p, Ok hs) => Ok (mkArgs patch hs None (environment_id (state p)))
      end
  end.

(** [parse_patch] *)
Definition parse_patch (patch : str) : result ParseError ApplyPatchArgs :=
  parse_patch_text patch (if PARSE_IN_STRICT_MODE then Strict else Lenient).
