(* ===== verification/PatchParserSpec.v ===== *)
(** Correctness of the streaming patch parser: the well-formedness invariant
    of its state, what a successful parse guarantees about the hunks, and the
    independence of the result from how the text was cut into deltas. *)

From S2P Require Import Prelude Text PatchParser.

(** * The invariant *)

(** A chunk that would change or pin down at least one line. *)
Definition chunk_ok (c : UpdateFileChunk) : Prop := chunk_is_empty c = false.

(** The lines of a chunk are single lines. *)
Definition chunk_text (c : UpdateFileChunk) : Prop :=
  Forall no_nl (old_lines c) ∧ Forall no_nl (new_lines c).

(** Text made of newline-terminated lines. *)
Definition line_text (s : str) : Prop :=
  ∃ ls, Forall no_nl ls ∧ s = concat ((λ l, l ++ [nl]) <$> ls).

Definition hunk_text (h : Hunk) : Prop :=
  match h with
  | AddFile _ contents => line_text contents
  | DeleteFile _ => True
  | UpdateFile _ _ chunks => Forall chunk_text chunks
  end.

(** What [apply_hunks] relies on: an update hunk has chunks, none of them empty. *)
Definition complete (h : Hunk) : Prop :=
  match h with
  | UpdateFile _ _ chunks => chunks ≠ [] ∧ Forall chunk_ok chunks
  | _ => True
  end.

(** The mode agrees with the hunk being built, and every earlier hunk is complete. *)
Definition wf_mode (s : StreamingParserState) : Prop :=
  match mode s with
  | Mode.NotStarted => hunks s = [] ∧ environment_id s = None
  | Mode.StartedPatch => hunks s = []
  | Mode.AddFile =>
      ∃ hs path c, hunks s = hs ++ [AddFile path c] ∧ Forall complete hs
  | Mode.DeleteFile =>
      ∃ hs path, hunks s = hs ++ [DeleteFile path] ∧ Forall complete hs
  | Mode.UpdateFile _ =>
      ∃ hs path mv cs, hunks s = hs ++ [UpdateFile path mv cs] ∧ Forall complete hs
                       ∧ Forall chunk_ok (init cs)
  | Mode.EndedPatch => Forall complete (hunks s)
  end.

Definition wf_parser (p : StreamingPatchParser) : Prop :=
  no_nl (line_buffer p) ∧ wf_mode (state p) ∧ Forall hunk_text (hunks (state p)).

Lemma wf_default : wf_parser default_parser.
Proof. split_and!; [apply no_nl_nil|done|constructor]. Qed.

(** * The invariant is preserved *)

Lemma chunk_ok_last cs : Forall chunk_ok (init cs) →
  is_some_and chunk_is_empty (last cs) = false → Forall chunk_ok cs.
Proof.
  intros Hi Hl. destruct (last cs) as [c|] eqn:E.
  - rewrite (last_init _ _ E). apply Forall_snoc. done.
  - by apply last_None in E as ->.
Qed.

(** The guard in front of every header and of the end marker. *)
Lemma ensure_complete line p :
  wf_mode (state p) → ensure_update_hunk_is_not_empty line p = Ok () →
  Forall complete (hunks (state p)).
Proof.
  unfold wf_mode, ensure_update_hunk_is_not_empty. intros Hwf Hok.
  destruct (mode (state p)) eqn:Em.
  - by rewrite (proj1 Hwf).
  - by rewrite Hwf.
  - destruct Hwf as (hs & path & c & -> & ?). by apply Forall_snoc.
  - destruct Hwf as (hs & path & -> & ?). by apply Forall_snoc.
  - destruct Hwf as (hs & path & mv & cs & Hh & ? & Hi). rewrite Hh in Hok |- *.
    rewrite last_snoc in Hok. apply Forall_snoc. split; [done|].
    destruct cs as [|c cs']; [done|]. split; [done|].
    apply chunk_ok_last; [done|].
    destruct (is_some_and _ _); [by case_decide|done].
  - done.
Qed.

(** The transitions [handle_hunk_headers_and_end_patch] can make. *)
Inductive header_step (t : str) (p : StreamingPatchParser)
  : StreamingPatchParser → result ParseError bool → Prop :=
| HeaderRefused e : header_step t p p (Err e)
| HeaderNone : header_step t p p (Ok false)
| HeaderEnvironment e :
    mode (state p) = Mode.StartedPatch →
    header_step t p (set_environment_id (Some e) p) (Ok true)
| HeaderEnd :
    ensure_update_hunk_is_not_empty t p = Ok () →
    header_step t p (set_mode Mode.EndedPatch p) (Ok true)
| HeaderAdd path :
    ensure_update_hunk_is_not_empty t p = Ok () →
    header_step t p (set_mode Mode.AddFile (push_hunk (AddFile path []) p)) (Ok true)
| HeaderDelete path :
    ensure_update_hunk_is_not_empty t p = Ok () →
    header_step t p (set_mode Mode.DeleteFile (push_hunk (DeleteFile path) p)) (Ok true)
| HeaderUpdate path n :
    ensure_update_hunk_is_not_empty t p = Ok () →
    header_step t p (set_mode (Mode.UpdateFile n) (push_hunk (UpdateFile path None []) p)) (Ok true).

#[local] Hint Constructors header_step : codex.

Lemma hunk_headers_step t p p' r :
  hunk_headers_and_end_patch t p = (p', r) → header_step t p p' r.
Proof.
  unfold hunk_headers_and_end_patch, enter_header.
  destruct (ensure_update_hunk_is_not_empty t p) as [[]|e] eqn:E;
    intros H; repeat case_match; simplify_eq/=; auto with codex.
Qed.

Lemma headers_step t p p' r :
  handle_hunk_headers_and_end_patch t p = (p', r) → header_step t p p' r.
Proof.
  unfold handle_hunk_headers_and_end_patch. intros H.
  destruct (mode (state p)) eqn:Em; try by eapply hunk_headers_step.
  destruct (strip_prefix _ t); [|by eapply hunk_headers_step].
  repeat case_match; simplify_eq/=; auto with codex.
Qed.

Lemma header_step_none t p p' : header_step t p p' (Ok false) → p' = p.
Proof. by inversion 1. Qed.

Lemma headers_wf t p p' r :
  wf_parser p → header_step t p p' r → wf_parser p'.
Proof.
  intros (Hb & Hm & Hx) Hs. destruct Hs as [| |e Em|Hen|path Hen|path Hen|path n Hen];
    try (apply ensure_complete in Hen; [|done]); try (by split_and!).
  - split_and!; [done| |done]. unfold wf_mode in *. simpl. by rewrite Em in *.
  - split_and!; [done| |]; simpl; [by eexists _, _, _|]. apply Forall_snoc. split; [done|].
    by exists [].
  - split_and!; [done| |]; simpl; [by eexists _, _|]. by apply Forall_snoc.
  - split_and!; [done| |]; simpl; [by eexists _, _, _, _; split_and!|].
    apply Forall_snoc. split; [done|constructor].
Qed.

(** The transitions one line of an update hunk can make. *)
Inductive update_step (line : str) (mv : option str) (cs : list UpdateFileChunk)
  : option str → list UpdateFileChunk → Prop :=
| UpdateBlank :
    is_some_and is_end_of_file (last cs) = true → trim_end line = [] →
    update_step line mv cs mv cs
| UpdateMove dest :
    cs = [] → mv = None → trim_end line = MOVE_TO_MARKER ++ dest →
    update_step line mv cs (Some dest) cs
| UpdateContext ctx :
    is_some_and chunk_is_empty (last cs) = false →
    update_step line mv cs mv (cs ++ [empty_chunk ctx])
| UpdateEof :
    is_some_and chunk_is_empty (last cs) = false → trim_end line = EOF_MARKER →
    update_step line mv cs mv (update_last mark_end_of_file cs)
| UpdateLine l f :
    (line = l ∧ l = [] ∨ line = 32%N :: l) ∧ f = push_new l ∘ push_old l
    ∨ line = 43%N :: l ∧ f = push_new l ∨ line = 45%N :: l ∧ f = push_old l →
    update_step line mv cs mv (update_last f (ensure_chunk cs)).

Lemma update_line_step line ln mv cs mv' cs' :
  process_update_line line ln mv cs = Ok (mv', cs') → update_step line mv cs mv' cs'.
Proof.
  unfold process_update_line. intros H.
  destruct (_ && bool_decide (trim_end line = [])) eqn:E1.
  { apply andb_true_iff in E1 as [? E%bool_decide_eq_true]. simplify_eq. by constructor. }
  destruct (_ && negb _) eqn:E2; [done|].
  destruct (if is_nil cs && _ then _ else _) as [d|] eqn:E3.
  { destruct (is_nil cs && _) eqn:E4; [|done].
    apply andb_true_iff in E4 as [?%is_nil_true E%bool_decide_eq_true].
    apply strip_prefix_Some in E3. simplify_eq. by constructor. }
  destruct (is_context_line (trim_end line) && _) eqn:E5; [done|].
  apply andb_false_iff in E5.
  case_decide as E6.
  { simplify_eq. constructor. destruct E5 as [E5|]; [|done]. by rewrite E6 in E5. }
  destruct (strip_prefix CHANGE_CONTEXT_MARKER _) as [ctx|] eqn:E7.
  { simplify_eq. constructor. destruct E5 as [E5|]; [|done].
    apply strip_prefix_Some in E7. unfold is_context_line in E5.
    by rewrite E7, starts_with_app, orb_true_r in E5. }
  case_decide as E8.
  { destruct (is_some_and chunk_is_empty (last cs)) eqn:?; simplify_eq. by constructor. }
  case_decide as E9; [simplify_eq; by apply (UpdateLine _ _ _ []); auto|].
  destruct (is_some_and _ _); repeat case_match; simplify_eq;
    eapply UpdateLine; eauto 10.
Qed.

Lemma init_update_last {A} (f : A → A) l : init (update_last f l) = init l.
Proof.
  induction l as [|x l _] using rev_ind; [done|].
  by rewrite update_last_snoc, !init_snoc.
Qed.

Lemma Forall_update_last {A} (P : A → Prop) f l :
  (∀ x, P x → P (f x)) → Forall P l → Forall P (update_last f l).
Proof.
  intros Hf. induction l as [|x l _] using rev_ind; [done|].
  rewrite update_last_snoc, !Forall_snoc. naive_solver.
Qed.

Lemma ensure_chunk_text cs : Forall chunk_text cs → Forall chunk_text (ensure_chunk cs).
Proof. destruct cs; [|done]. intros _. constructor; [|constructor]. split; constructor. Qed.

Lemma update_step_wf line mv cs mv' cs' :
  no_nl line → Forall chunk_ok (init cs) → Forall chunk_text cs →
  update_step line mv cs mv' cs' → Forall chunk_ok (init cs') ∧ Forall chunk_text cs'.
Proof.
  intros Hl Hi Ht [| |ctx Hc|Hc _|l f Hf]; [done|done| | |].
  - rewrite init_snoc, Forall_snoc. split_and!; [by apply chunk_ok_last|done|by split].
  - rewrite init_update_last. split; [done|].
    apply Forall_update_last; [|done]. by intros c [? ?].
  - rewrite init_update_last. split; [by destruct cs|].
    apply Forall_update_last; [|by apply ensure_chunk_text].
    assert (no_nl l) as Hnl.
    { destruct Hf as [[[[-> _]| ->] _]|[[-> _]|[-> _]]];
        [done|..]; by apply no_nl_cons in Hl as [_ ?]. }
    intros c [Ho Hn].
    destruct Hf as [[_ ->]|[[_ ->]|[_ ->]]]; split; simpl; rewrite ?Forall_snoc; auto.
Qed.

Lemma line_text_snoc s l : line_text s → no_nl l → line_text (s ++ l ++ [nl]).
Proof.
  intros (ls & Hls & ->) Hl. exists (ls ++ [l]).
  rewrite Forall_snoc, fmap_app, concat_app. simpl. by rewrite app_nil_r.
Qed.

(** Dispatch on the headers first: either they decide, or [k] runs on the parser unchanged. *)
Lemma dispatch_ind (Q : StreamingPatchParser → Prop) t p
    (k : StreamingPatchParser → StreamingPatchParser * result ParseError ()) :
  (∀ q r, header_step t p q r → Q q) → Q (k p).1 →
  Q (let! q | handled := handle_hunk_headers_and_end_patch t p in
     if handled : bool then (q, Ok ()) else k q).1.
Proof.
  intros Hh Hk. destruct (handle_hunk_headers_and_end_patch t p) as [q [[]|e]] eqn:E;
    apply headers_step in E; [by eapply Hh| |by eapply Hh].
  by apply header_step_none in E as ->.
Qed.

Lemma add_line_wf hs path c l p :
  wf_parser p → mode (state p) = Mode.AddFile → hunks (state p) = hs ++ [AddFile path c] →
  no_nl l → wf_parser (set_hunks (hs ++ [AddFile path (c ++ l ++ [nl])]) p).
Proof.
  intros (Hb & Hm & Hx) Em Hh Hl. rewrite Hh, Forall_snoc in Hx. destruct Hx as [Hx Hc].
  unfold wf_mode in Hm. rewrite Em in Hm. destruct Hm as (hs' & ? & ? & Hm & ?).
  rewrite Hh in Hm. apply app_inj_tail in Hm as [-> _].
  split_and!; [done| |].
  - unfold wf_mode. simpl. rewrite Em. by eexists _, _, _.
  - simpl. apply Forall_snoc. split; [done|]. by apply line_text_snoc.
Qed.

Lemma update_line_wf n hs path mv cs mv' cs' line p :
  wf_parser p → mode (state p) = Mode.UpdateFile n →
  hunks (state p) = hs ++ [UpdateFile path mv cs] → no_nl line →
  update_step line mv cs mv' cs' →
  wf_parser (set_mode (Mode.UpdateFile n) (set_hunks (hs ++ [UpdateFile path mv' cs']) p)).
Proof.
  intros (Hb & Hm & Hx) Em Hh Hl Hs. rewrite Hh, Forall_snoc in Hx. destruct Hx as [Hx Hc].
  unfold wf_mode in Hm. rewrite Em in Hm. destruct Hm as (hs' & ? & ? & ? & Hm & ? & Hi).
  rewrite Hh in Hm. apply app_inj_tail in Hm as [-> ?]. simplify_eq.
  apply update_step_wf in Hs as [Hi' Ht']; [|done..].
  split_and!; [done| |].
  - unfold wf_mode. simpl. by eexists _, _, _, _.
  - simpl. by apply Forall_snoc.
Qed.

Lemma process_line_wf line p :
  no_nl line → wf_parser p → wf_parser (process_line line p).1.
Proof.
  intros Hl Hwf. unfold process_line.
  assert (∀ t q r, header_step t p q r → wf_parser q) as Hh by eauto using headers_wf.
  destruct (mode (state p)) eqn:Em.
  - destruct Hwf as (Hb & Hm & Hx). case_decide; [|by split_and!].
    split_and!; [done| |done]. unfold wf_mode in *. rewrite Em in Hm. by destruct Hm.
  - by apply dispatch_ind; eauto.
  - apply dispatch_ind; [by eauto|].
    destruct (strip_prefix _ line) as [l|] eqn:Es; [|done].
    apply (no_nl_strip_prefix _ _ _ Es) in Hl.
    destruct (last (hunks (state p))) as [[path c| |]|] eqn:E; [|done..].
    apply last_Some_snoc in E as [hs Hp]. rewrite Hp, update_last_snoc.
    by eapply add_line_wf.
  - by apply dispatch_ind; eauto.
  - apply dispatch_ind; [by eauto|].
    destruct (last (hunks (state p))) as [[| |path mv cs]|] eqn:E; [done..| |done].
    destruct (process_update_line _ _ _ _) as [[mv' cs']|e] eqn:Eu; [|done].
    apply last_Some_snoc in E as [hs Hp]. rewrite Hp, update_last_snoc.
    by eapply update_line_wf; [..|eapply update_line_step].
  - by case_decide.
Qed.

Lemma wf_take_line p : wf_parser p → wf_parser (next_line (set_line_buffer [] p)).
Proof. intros (? & ? & ?). split_and!; [apply no_nl_nil|done..]. Qed.

Lemma push_chars_wf delta p : wf_parser p → wf_parser (push_chars delta p).1.
Proof.
  revert p. induction delta as [|ch delta IH]; intros p Hwf; [done|]. simpl.
  case_decide as E.
  - pose proof (process_line_wf (strip_cr (line_buffer p)) (next_line (set_line_buffer [] p))) as Hp.
    destruct (process_line _ _) as [q [[]|e]]; [apply IH|]; apply Hp;
      auto using wf_take_line; apply no_nl_strip_cr, Hwf.
  - apply IH. destruct Hwf as (Hb & Hm & Hx). split_and!; [|done..].
    simpl. apply no_nl_app. split; [done|]. apply no_nl_cons. auto using no_nl_nil.
Qed.

Lemma finish_wf p : wf_parser p → wf_parser (finish p).1.
Proof.
  intros Hwf. unfold finish.
  assert (wf_parser (if decide (line_buffer p = []) then (p, @Ok ParseError () ())
     else finish_line (line_buffer p) (next_line (set_line_buffer [] p))).1) as Hq.
  { case_decide; [done|]. pose proof (wf_take_line p Hwf) as Hq.
    unfold finish_line. case_decide; [|apply process_line_wf; [apply Hwf|done]].
    destruct (ensure_update_hunk_is_not_empty _ _) as [[]|e] eqn:E; [|done].
    apply ensure_complete in E; [|apply Hq]. by destruct Hq as (? & ? & ?). }
  destruct (if decide _ then _ else _) as [q [[]|e]]; [|done].
  by destruct (mode (state q)).
Qed.

(** What [finish] returns are the hunks of an ended patch. *)
Lemma finish_Ok p p' hs : finish p = (p', Ok hs) → mode (state p') = Mode.EndedPatch ∧ hunks (state p') = hs.
Proof.
  unfold finish. intros H. destruct (if decide _ then _ else _) as [q [[]|e]]; [|done].
  destruct (mode (state q)) eqn:E; by simplify_eq.
Qed.

Lemma finish_complete p p' hs :
  wf_parser p → finish p = (p', Ok hs) → Forall (λ h, complete h ∧ hunk_text h) hs.
Proof.
  intros Hwf H. pose proof (finish_wf p Hwf) as (_ & Hm & Hx). rewrite H in Hm, Hx.
  apply finish_Ok in H as [Em <-]. unfold wf_mode in Hm. simpl in *. rewrite Em in Hm.
  by apply Forall_and.
Qed.

(** * Independence from the cut into deltas *)

(** A client that pushes the deltas one by one and stops at the first error. *)
Fixpoint push_deltas (ds : list str) (p : StreamingPatchParser)
  : StreamingPatchParser * result ParseError () :=
  match ds with
  | [] => (p, Ok ())
  | d :: ds => let! p | _ := push_delta d p in push_deltas ds p
  end.

Definition run_deltas (ds : list str) : StreamingPatchParser * result ParseError (list Hunk) :=
  let! p | _ := push_deltas ds default_parser in finish p.

Lemma push_chars_app a b p :
  push_chars (a ++ b) p = (let! p | _ := push_chars a p in push_chars b p).
Proof.
  revert p. induction a as [|ch a IH]; intros p; simpl; [done|].
  case_decide; [|apply IH]. destruct (process_line _ _) as [q [[]|e]]; [apply IH|done].
Qed.

Lemma push_deltas_concat ds p : push_deltas ds p = push_chars (concat ds) p.
Proof.
  revert p. induction ds as [|d ds IH]; intros p; simpl; [done|].
  rewrite push_chars_app. unfold push_delta.
  destruct (push_chars d p) as [q [[]|e]]; [apply IH|done].
Qed.

(** * The lines the parser sees *)

(** Reference semantics: process the newline-terminated pieces in order, keep the rest. *)
Fixpoint process_pieces (pieces : list str) (p : StreamingPatchParser)
  : StreamingPatchParser * result ParseError () :=
  match pieces with
  | [] => (p, Ok ())
  | [rest] => (set_line_buffer rest p, Ok ())
  | l :: pieces =>
      let! p | _ := process_line (strip_cr l) (next_line (set_line_buffer [] p)) in
      process_pieces pieces p
  end.

Lemma process_pieces_cons l ls p : ls ≠ [] →
  process_pieces (l :: ls) p =
  (let! p | _ := process_line (strip_cr l) (next_line (set_line_buffer [] p)) in
   process_pieces ls p).
Proof. by destruct ls. Qed.

Lemma header_step_buffer t p p' r : header_step t p p' r → line_buffer p' = line_buffer p.
Proof. by destruct 1. Qed.

Lemma process_line_buffer line p : line_buffer (process_line line p).1 = line_buffer p.
Proof.
  unfold process_line. destruct (mode (state p)).
  1: by case_decide.
  1,3: apply (dispatch_ind (λ q, line_buffer q = line_buffer p)); eauto using header_step_buffer.
  1,2: apply (dispatch_ind (λ q, line_buffer q = line_buffer p)); eauto using header_step_buffer;
       by repeat case_match.
  by case_decide.
Qed.

Lemma push_chars_pieces text p :
  no_nl (line_buffer p) →
  push_chars text p = process_pieces (split_on nl (line_buffer p ++ text)) p.
Proof.
  revert p. induction text as [|ch text IH]; intros p Hb; simpl.
  - rewrite app_nil_r, split_on_no by done. simpl. by destruct p.
  - case_decide as E; subst.
    + rewrite split_on_app, process_pieces_cons by auto using split_on_nonempty.
      pose proof (process_line_buffer (strip_cr (line_buffer p)) (next_line (set_line_buffer [] p))) as Hq.
      destruct (process_line _ _) as [q [[]|e]]; [|done]. simpl in Hq.
      rewrite IH; rewrite Hq; [done|apply no_nl_nil].
    + rewrite IH; simpl.
      * rewrite <- app_assoc. simpl.
        pose proof (split_on_nonempty nl (line_buffer p ++ ch :: text)) as Hne.
        by destruct (split_on nl _) as [|l [|l' ls]].
      * apply no_nl_app. split; [done|]. apply no_nl_cons. auto using no_nl_nil.
Qed.

(** * Hunks already streamed are stable *)

Lemma prefix_init {A} (l : list A) : init l `prefix_of` l.
Proof.
  destruct (last l) as [x|] eqn:E.
  - rewrite (last_init _ _ E) at 2. by apply prefix_app_r.
  - by apply last_None in E as ->.
Qed.

Lemma header_step_hunks t p p' r :
  header_step t p p' r → hunks (state p) `prefix_of` hunks (state p').
Proof. destruct 1; simpl; by try apply prefix_app_r. Qed.

Lemma update_last_prefix {A} (f : A → A) l : init l `prefix_of` update_last f l.
Proof.
  destruct (last l) as [x|] eqn:E.
  - rewrite (last_init _ _ E), init_snoc, update_last_snoc. by apply prefix_app_r.
  - by apply last_None in E as ->.
Qed.

Lemma process_line_hunks line p :
  init (hunks (state p)) `prefix_of` hunks (state (process_line line p).1)
  ∧ length (hunks (state p)) ≤ length (hunks (state (process_line line p).1)).
Proof.
  set (Q q := init (hunks (state p)) `prefix_of` hunks (state q)
              ∧ length (hunks (state p)) ≤ length (hunks (state q))).
  assert (Q p) as Hp by (split; [apply prefix_init|done]).
  assert (∀ t q r, header_step t p q r → Q q) as Hh.
  { intros t q r Hs%header_step_hunks. split; [|by apply prefix_length].
    etrans; [apply prefix_init|done]. }
  assert (∀ f, Q (set_hunks (update_last f (hunks (state p))) p)) as Hu.
  { intros f. split; [apply update_last_prefix|]. simpl. by rewrite update_last_length. }
  change (Q (process_line line p).1).
  unfold process_line. destruct (mode (state p)).
  1: by case_decide.
  1,3: by apply dispatch_ind; eauto.
  1,2: apply dispatch_ind; [by eauto|]; repeat case_match; (done || apply Hu).
  by case_decide.
Qed.

Lemma prefix_init_longer {A} (l k m : list A) :
  init l `prefix_of` k → length l ≤ length k → init k `prefix_of` m → init l `prefix_of` m.
Proof.
  intros Hl Hlen Hk. destruct k as [|x k' _] using rev_ind.
  - apply prefix_nil_inv in Hl as ->. apply prefix_nil.
  - rewrite init_snoc in Hk. etrans; [|done].
    destruct Hl as [t Ht]. destruct t as [|y t' _] using rev_ind.
    + exfalso. rewrite app_nil_r in Ht. apply (f_equal length) in Ht.
      rewrite init_length, !length_app in *. simpl in *. lia.
    + rewrite app_assoc in Ht. apply app_inj_tail in Ht as [-> _]. by apply prefix_app_r.
Qed.

Lemma push_chars_hunks text p :
  init (hunks (state p)) `prefix_of` hunks (state (push_chars text p).1).
Proof.
  revert p. induction text as [|ch text IH]; intros p; simpl; [apply prefix_init|].
  case_decide; [|apply (IH (set_line_buffer (line_buffer p ++ [ch]) p))].
  destruct (process_line_hunks (strip_cr (line_buffer p)) (next_line (set_line_buffer [] p))) as [Hp Hlen].
  destruct (process_line _ _) as [q [[]|e]]; [|done].
  by eapply prefix_init_longer.
Qed.

(** * Properties *)

(** A patch that [parse_patch] accepts has only well-formed hunks: every
    update hunk has at least one chunk, every chunk has at least one line, the
    lines of chunks hold no newline and the contents of added files are
    newline-terminated lines. *)
Theorem parse_patch_well_formed patch args :
  parse_patch patch = Ok args →
  Forall (λ h, complete h ∧ hunk_text h) (args_hunks args).
Proof.
  unfold parse_patch, parse_patch_text. intros H. simpl in H.
  destruct (check_patch_boundaries_lenient _) as [ls|e]; [|done].
  unfold push_delta in H.
  pose proof (push_chars_wf (join [nl] ls) default_parser wf_default) as Hwf.
  destruct (push_chars _ _) as [p [[]|e]]; [|done].
  destruct (finish p) as [p' [hs|e]] eqn:Ef; [|done]. simplify_eq.
  by eapply finish_complete.
Qed.

(** Pushing a text in any sequence of deltas and finishing gives the same
    parser, hunks and error as pushing it in one delta. *)
Theorem streaming_chunk_invariant ds :
  run_deltas ds =
  (let! p | _ := push_delta (concat ds) default_parser in finish p).
Proof.
  unfold run_deltas. rewrite push_deltas_concat. unfold push_delta.
  by destruct (push_chars _ _) as [p [[]|e]].
Qed.

(** The characters pushed are seen as the lines of the text: the parser
    runs [process_line] on each newline-terminated piece, minus one carriage
    return, in order, stops at the first error and buffers the rest. *)
Theorem push_delta_is_line_by_line text :
  (push_delta text default_parser).1 = (process_pieces (split_on nl text) default_parser).1
  ∧ is_ok (push_delta text default_parser).2 =
    is_ok (process_pieces (split_on nl text) default_parser).2.
Proof.
  unfold push_delta. rewrite push_chars_pieces by apply no_nl_nil. simpl.
  by destruct (process_pieces _ _) as [p [[]|e]].
Qed.

(** Hunks already streamed are stable: whatever is pushed next, with or
    without an error, every hunk but the last of the parser is kept. *)
Theorem streamed_hunks_stable text p :
  init (hunks (state p)) `prefix_of` hunks (state (push_delta text p).1).
Proof.
  unfold push_delta. pose proof (push_chars_hunks text p) as H.
  by destruct (push_chars _ _) as [q [[]|e]].
Qed.

Definition sample_patch : str :=
  lit "*** Begin Patch" ++ [nl] ++ lit "*** Update File: f" ++ [nl]
  ++ lit "@@" ++ [nl] ++ lit "-a" ++ [nl] ++ lit "*** End Patch".

Lemma parse_patch_well_formed_witness :
  ∃ args, parse_patch sample_patch = Ok args
    ∧ args_hunks args = [UpdateFile (lit "f") None [mkChunk None [lit "a"] [] false]]
    ∧ Forall (λ h, complete h ∧ hunk_text h) (args_hunks args).
Proof.
  eexists. split_and!; [vm_compute; reflexivity|reflexivity|].
  apply (parse_patch_well_formed sample_patch). vm_compute. reflexivity.
Defined.
