(* ===== verification/PatchRoundtrip.v ===== *)
(** Round trip of the patch language: a printer for parsed patches, the
    conditions under which a patch can be written down, and the theorem that
    [parse_patch] reads back exactly what was printed. *)

From S2P Require Import Prelude Text PatchParser PatchParserSpec.

(** * The printer *)

Definition render_chunk (c : UpdateFileChunk) : list str :=
  [match change_context c with
   | None => EMPTY_CHANGE_CONTEXT_MARKER
   | Some ctx => CHANGE_CONTEXT_MARKER ++ ctx
   end]
  ++ (cons 45%N <$> old_lines c) ++ (cons 43%N <$> new_lines c)
  ++ (if is_end_of_file c then [EOF_MARKER] else []).

(** The newline-terminated lines of a text. *)
Definition text_lines (s : str) : list str := init (split_on nl s).

Definition render_hunk (h : Hunk) : list str :=
  match h with
  | AddFile path contents => [ADD_FILE_MARKER ++ path] ++ (cons 43%N <$> text_lines contents)
  | DeleteFile path => [DELETE_FILE_MARKER ++ path]
  | UpdateFile path move_path chunks =>
      [UPDATE_FILE_MARKER ++ path]
      ++ (match move_path with None => [] | Some dest => [MOVE_TO_MARKER ++ dest] end)
      ++ concat (render_chunk <$> chunks)
  end.

Definition render_body (env : option str) (hs : list Hunk) : list str :=
  [BEGIN_PATCH_MARKER]
  ++ (match env with None => [] | Some e => [ENVIRONMENT_ID_MARKER ++ lit " " ++ e] end)
  ++ concat (render_hunk <$> hs).

Definition render_patch (env : option str) (hs : list Hunk) : str :=
  join [nl] (render_body env hs ++ [END_PATCH_MARKER]).

(** * What can be printed *)

(** A name after a marker: one line, not empty, no trailing white space. *)
Definition clean_name (s : str) : Prop := no_nl s ∧ s ≠ [] ∧ trim_end s = s.

(** A line of text: no newline, no carriage return at its end. *)
Definition clean_line (l : str) : Prop := no_nl l ∧ last l ≠ Some cr.

Definition clean_chunk (c : UpdateFileChunk) : Prop :=
  chunk_ok c ∧ Forall clean_line (old_lines c) ∧ Forall clean_line (new_lines c)
  ∧ match change_context c with None => True | Some ctx => clean_name ctx end.

Definition clean_hunk (h : Hunk) : Prop :=
  match h with
  | AddFile path contents =>
      clean_name path ∧ ∃ ls, Forall clean_line ls ∧ contents = concat ((λ l, l ++ [nl]) <$> ls)
  | DeleteFile path => clean_name path
  | UpdateFile path move_path chunks =>
      clean_name path ∧ chunks ≠ [] ∧ Forall clean_chunk chunks
      ∧ match move_path with None => True | Some dest => clean_name dest end
  end.

Definition clean_env (env : option str) : Prop :=
  match env with
  | None => True
  | Some e => no_nl e ∧ e ≠ [] ∧ trim e = e
  end.

(** * Running the parser on lines *)

Fixpoint process_lines (ls : list str) (p : StreamingPatchParser)
  : StreamingPatchParser * result ParseError () :=
  match ls with
  | [] => (p, Ok ())
  | l :: ls => let! p | _ := process_line l (next_line p) in process_lines ls p
  end.

(** The parser consumes [ls] and ends with the given state. *)
Definition consumes (ls : list str) (p : StreamingPatchParser) (P : StreamingPatchParser → Prop) : Prop :=
  ∃ p', process_lines ls p = (p', Ok ()) ∧ line_buffer p' = line_buffer p ∧ P p'.

Lemma consumes_nil p (P : StreamingPatchParser → Prop) : P p → consumes [] p P.
Proof. by exists p. Qed.

Lemma consumes_cons l ls p P :
  (∃ q, process_line l (next_line p) = (q, Ok ()) ∧ consumes ls q P) → consumes (l :: ls) p P.
Proof.
  intros (q & Hq & p' & Hp & Hb & HP). exists p'. simpl. rewrite Hq. split_and!; [done| |done].
  pose proof (process_line_buffer l (next_line p)) as H. rewrite Hq in H. by rewrite Hb.
Qed.

Lemma consumes_app ls ks p (P Q : StreamingPatchParser → Prop) :
  consumes ls p P → (∀ q, P q → consumes ks q Q) → consumes (ls ++ ks) p Q.
Proof.
  revert p. induction ls as [|l ls IH]; intros p (p' & Hp & Hb & HP) HQ; simpl in *.
  - simplify_eq. auto.
  - destruct (process_line l (next_line p)) as [q [[]|e]] eqn:Eq; [|done].
    apply consumes_cons. exists q. split; [done|]. apply IH; [|done].
    exists p'. pose proof (process_line_buffer l (next_line p)) as H. rewrite Eq in H.
    split_and!; [done| |done]. rewrite Hb. done.
Qed.

(** ** Headers *)

(** Modes in which a header may come. *)
Definition open_mode (p : StreamingPatchParser) : Prop :=
  match mode (state p) with Mode.NotStarted | Mode.EndedPatch => False | _ => True end.

(** A parser between hunks: the hunks read so far are complete. *)
Definition between (env : option str) (hs : list Hunk) (p : StreamingPatchParser) : Prop :=
  open_mode p ∧ hunks (state p) = hs ∧ environment_id (state p) = env
  ∧ ∀ t, ensure_update_hunk_is_not_empty t p = Ok ().

Lemma ensure_between t p h hs :
  hunks (state p) = hs ++ [h] → complete h →
  ensure_update_hunk_is_not_empty t p = Ok ().
Proof.
  intros Hh Hc. unfold ensure_update_hunk_is_not_empty. rewrite Hh, last_snoc.
  destruct h as [| |path mv cs]; [done..|]. destruct Hc as [Hne Hok].
  destruct (last cs) as [c|] eqn:E; [|by apply last_None in E].
  apply last_Some_snoc in E as [cs' ->]. apply Forall_snoc in Hok as [_ Hok].
  simpl. rewrite Hok. by destruct (cs' ++ [c]).
Qed.

Lemma trim_fixed_end t : trim t = t → trim_end t = t.
Proof. intros H. rewrite <- H. unfold trim. by rewrite trim_end_idemp. Qed.

Lemma process_line_handled t p q :
  open_mode p → trim t = t → handle_hunk_headers_and_end_patch t p = (q, Ok true) →
  process_line t p = (q, Ok ()).
Proof.
  intros Hm Ht Hh. unfold process_line, open_mode in *. rewrite Ht, (trim_fixed_end _ Ht), Hh.
  by destruct (mode (state p)).
Qed.

Lemma ensure_next_line t p :
  ensure_update_hunk_is_not_empty t p = Ok () →
  ensure_update_hunk_is_not_empty t (next_line p) = Ok ().
Proof. unfold ensure_update_hunk_is_not_empty. simpl. intros. by repeat case_match. Qed.

Lemma between_next_line env hs p : between env hs p → between env hs (next_line p).
Proof. intros (? & ? & ? & ?). split_and!; auto using ensure_next_line. Qed.

(** A name after a marker survives [trim] and [trim_end]. *)
Lemma trim_header m s :
  clean_name s → is_whitespace (default 32%N (head m)) = false → trim (m ++ s) = m ++ s.
Proof.
  intros (_ & Hne & Ht) Hm. destruct m as [|c m]; [done|].
  apply trim_fixed; [done|]. by apply (trim_end_prefix (c :: m)).
Qed.

(** The header is recognised whatever the open mode. *)
Lemma handle_headers_open t p :
  strip_prefix ENVIRONMENT_ID_MARKER t = None →
  handle_hunk_headers_and_end_patch t p = hunk_headers_and_end_patch t p.
Proof.
  intros H. unfold handle_hunk_headers_and_end_patch. rewrite H. by destruct (mode (state p)).
Qed.

Ltac marker_neq := intros E; vm_compute in E; discriminate.

Lemma consumes_header t p q (P : StreamingPatchParser → Prop) :
  open_mode p → trim t = t →
  strip_prefix ENVIRONMENT_ID_MARKER t = None →
  hunk_headers_and_end_patch t (next_line p) = (q, Ok true) → P q →
  consumes [t] p P.
Proof.
  intros Hm Ht He Hh HP. apply consumes_cons. exists q.
  split; [|by apply consumes_nil]. apply process_line_handled; [done..|].
  by rewrite handle_headers_open.
Qed.

Lemma consumes_add_header env hs path p :
  clean_name path → between env hs p →
  consumes [ADD_FILE_MARKER ++ path] p
    (λ q, mode (state q) = Mode.AddFile ∧ hunks (state q) = hs ++ [AddFile path []]
          ∧ environment_id (state q) = env).
Proof.
  intros Hp (Hm & Hh & He & Hen)%between_next_line.
  eapply consumes_header; [done|by apply trim_header|done|..].
  - unfold hunk_headers_and_end_patch. rewrite decide_False by marker_neq.
    rewrite strip_prefix_app. unfold enter_header. by rewrite Hen.
  - simpl in *. by rewrite Hh.
Qed.

Lemma consumes_delete_header env hs path p :
  clean_name path → between env hs p →
  consumes [DELETE_FILE_MARKER ++ path] p (between env (hs ++ [DeleteFile path])).
Proof.
  intros Hp (Hm & Hh & He & Hen)%between_next_line.
  eapply consumes_header; [done|by apply trim_header|done|..].
  - unfold hunk_headers_and_end_patch. rewrite decide_False by marker_neq.
    rewrite strip_prefix_app. unfold enter_header. by rewrite Hen.
  - split_and!; [done|simpl in *; by rewrite Hh|done|].
    intros t. by eapply ensure_between.
Qed.

(** The parser is inside an update hunk. *)
Definition in_update (env : option str) (hs : list Hunk) path mv cs (p : StreamingPatchParser) : Prop :=
  (∃ n, mode (state p) = Mode.UpdateFile n) ∧ hunks (state p) = hs ++ [UpdateFile path mv cs]
  ∧ environment_id (state p) = env.

Lemma consumes_update_header env hs path p :
  clean_name path → between env hs p →
  consumes [UPDATE_FILE_MARKER ++ path] p (in_update env hs path None []).
Proof.
  intros Hp (Hm & Hh & He & Hen)%between_next_line.
  eapply consumes_header; [done|by apply trim_header|done|..].
  - unfold hunk_headers_and_end_patch. rewrite decide_False by marker_neq.
    rewrite strip_prefix_app. unfold enter_header. by rewrite Hen.
  - split_and!; [by eexists|simpl in *; by rewrite Hh|done].
Qed.

(** ** Added lines *)

(** A line that no header matches, by its first character. *)
Definition no_header (t : str) : Prop :=
  ∀ p, mode (state p) ≠ Mode.StartedPatch → handle_hunk_headers_and_end_patch t p = (p, Ok false).

Lemma no_header_first c t : c ≠ 42%N → no_header (c :: t).
Proof.
  intros Hc p Hm. unfold handle_hunk_headers_and_end_patch.
  assert (hunk_headers_and_end_patch (c :: t) p = (p, Ok false)) as ->.
  { unfold hunk_headers_and_end_patch. rewrite decide_False by (intros E; by inversion E).
    unfold ADD_FILE_MARKER, DELETE_FILE_MARKER, UPDATE_FILE_MARKER. simpl.
    by rewrite !decide_False by done. }
  by destruct (mode (state p)); [| | | | |]; try done; destruct (strip_prefix _ _).
Qed.

Lemma trim_end_cons c s : is_whitespace c = false → trim_end (c :: s) = c :: trim_end s.
Proof. intros Hc. simpl. rewrite Hc. by destruct (trim_end s). Qed.

Lemma consumes_added ls env hs path c p :
  mode (state p) = Mode.AddFile → hunks (state p) = hs ++ [AddFile path c] →
  environment_id (state p) = env →
  consumes (cons 43%N <$> ls) p
    (between env (hs ++ [AddFile path (c ++ concat ((λ l, l ++ [nl]) <$> ls))])).
Proof.
  revert c p. induction ls as [|l ls IH]; intros c p Hm Hh He; simpl.
  - apply consumes_nil. rewrite app_nil_r. split_and!; [by unfold open_mode; rewrite Hm|done..|].
    intros t. by eapply ensure_between.
  - apply consumes_cons. unfold process_line. simpl. rewrite Hm.
    unfold trim. rewrite trim_start_nonws, trim_end_cons by done.
    rewrite no_header_first by (simpl; by rewrite ?Hm). simpl. rewrite Hh, last_snoc, update_last_snoc.
    eexists. split; [done|]. rewrite (app_assoc c (l ++ [nl])). by apply IH.
Qed.

(** ** Lines of an update hunk *)

Lemma process_line_update env hs path mv cs mv' cs' line p :
  in_update env hs path mv cs p → no_header (trim_end line) →
  process_update_line line (line_number p) mv cs = Ok (mv', cs') →
  ∃ q, process_line line p = (q, Ok ()) ∧ in_update env hs path mv' cs' q.
Proof.
  intros ([n Hm] & Hh & He) Hn Hu. unfold process_line. rewrite Hm.
  rewrite Hn by (by rewrite Hm). rewrite Hh, last_snoc, Hu, update_last_snoc.
  eexists. split; [done|]. split_and!; [by eexists|done..].
Qed.

Lemma consumes_update_line env hs path mv cs mv' cs' line p :
  in_update env hs path mv cs p → no_header (trim_end line) →
  (∀ ln, process_update_line line ln mv cs = Ok (mv', cs')) →
  consumes [line] p (in_update env hs path mv' cs').
Proof.
  intros Hi Hn Hu. apply consumes_cons.
  destruct (process_line_update env hs path mv cs mv' cs' line (next_line p)) as (q & Hq & Hi');
    [done..|]. exists q. split; [done|]. by apply consumes_nil.
Qed.

(** A chunk that still accepts lines: it is the last one and not at the end of the file. *)
Lemma update_line_old l ln mv cs c :
  is_end_of_file c = false →
  process_update_line (45%N :: l) ln mv (cs ++ [c]) = Ok (mv, cs ++ [push_old l c]).
Proof.
  intros Hc. unfold process_update_line. rewrite trim_end_cons by done.
  rewrite last_snoc. simpl. rewrite Hc. simpl.
  replace (is_nil (cs ++ [c])) with false by (by destruct cs). simpl.
  assert (ensure_chunk (cs ++ [c]) = cs ++ [c]) as -> by (by destruct cs).
  by rewrite update_last_snoc.
Qed.

Lemma update_line_new l ln mv cs c :
  is_end_of_file c = false →
  process_update_line (43%N :: l) ln mv (cs ++ [c]) = Ok (mv, cs ++ [push_new l c]).
Proof.
  intros Hc. unfold process_update_line. rewrite trim_end_cons by done.
  rewrite last_snoc. simpl. rewrite Hc. simpl.
  replace (is_nil (cs ++ [c])) with false by (by destruct cs). simpl.
  assert (ensure_chunk (cs ++ [c]) = cs ++ [c]) as -> by (by destruct cs).
  by rewrite update_last_snoc.
Qed.

Lemma update_line_eof ln mv cs c :
  is_end_of_file c = false → chunk_ok c →
  process_update_line EOF_MARKER ln mv (cs ++ [c]) = Ok (mv, cs ++ [mark_end_of_file c]).
Proof.
  intros Hc Hok. unfold process_update_line. rewrite last_snoc. simpl. rewrite Hc, Hok. simpl.
  replace (is_nil (cs ++ [c])) with false by (by destruct cs). simpl.
  by rewrite update_last_snoc.
Qed.

Lemma update_line_context ln mv cs ctx :
  Forall chunk_ok cs → match ctx with None => True | Some s => clean_name s end →
  process_update_line
    (match ctx with None => EMPTY_CHANGE_CONTEXT_MARKER | Some s => CHANGE_CONTEXT_MARKER ++ s end)
    ln mv cs = Ok (mv, cs ++ [empty_chunk ctx]).
Proof.
  intros Hok Hc. set (line := match ctx with None => _ | _ => _ end).
  assert (trim_end line = line) as Ht.
  { destruct ctx as [s|]; [|done]. destruct Hc as (? & ? & ?). by apply trim_end_prefix. }
  assert (is_context_line line = true) as Hcl.
  { destruct ctx as [s|]; [|done]. unfold is_context_line, line.
    by rewrite starts_with_app, orb_true_r. }
  assert (is_some_and chunk_is_empty (last cs) = false) as Hl.
  { destruct (last cs) as [c|] eqn:E; [|done]. apply last_Some_snoc in E as [? ->].
    by apply Forall_snoc in Hok as [_ ?]. }
  assert (strip_prefix MOVE_TO_MARKER line = None) as Hmv by (by destruct ctx).
  unfold process_update_line. rewrite Ht, Hcl, Hl, andb_false_r.
  rewrite (bool_decide_false (line = [])) by (by destruct ctx). rewrite andb_false_r.
  replace (if is_nil cs && _ then _ else _) with (@None str) by (by destruct (is_nil cs && _)).
  simpl. destruct ctx as [s|]; [|by rewrite decide_True].
  rewrite decide_False by (destruct Hc as (? & ? & ?); by destruct s).
  done.
Qed.

(** A run of lines with the same tag ([-] or [+]). *)
Lemma consumes_tagged tag push env hs path mv cs ls c p :
  tag ≠ 42%N → is_whitespace tag = false →
  (∀ l ln cs c, is_end_of_file c = false →
     process_update_line (tag :: l) ln mv (cs ++ [c]) = Ok (mv, cs ++ [push l c])) →
  (∀ l c, is_end_of_file (push l c) = is_end_of_file c) →
  is_end_of_file c = false → in_update env hs path mv (cs ++ [c]) p →
  consumes (cons tag <$> ls) p (in_update env hs path mv (cs ++ [foldl (flip push) c ls])).
Proof.
  intros Hne Hws Hl Heof. revert c p. induction ls as [|l ls IH]; intros c p Hc Hi.
  - by apply consumes_nil.
  - rewrite fmap_cons. apply (consumes_app [tag :: l] _ p (in_update env hs path mv (cs ++ [push l c]))).
    + eapply consumes_update_line; [done| |by intros; apply Hl].
      rewrite trim_end_cons by done. by apply no_header_first.
    + intros q Hq. apply IH; [|done]. etrans; [apply Heof|done].
Qed.

Lemma foldl_push_old ls c :
  foldl (flip push_old) c ls =
  mkChunk (change_context c) (old_lines c ++ ls) (new_lines c) (is_end_of_file c).
Proof.
  revert c. induction ls as [|l ls IH]; intros c; simpl.
  - rewrite app_nil_r. by destruct c.
  - rewrite IH. simpl. by rewrite <- app_assoc.
Qed.

Lemma foldl_push_new ls c :
  foldl (flip push_new) c ls =
  mkChunk (change_context c) (old_lines c) (new_lines c ++ ls) (is_end_of_file c).
Proof.
  revert c. induction ls as [|l ls IH]; intros c; simpl.
  - rewrite app_nil_r. by destruct c.
  - rewrite IH. simpl. by rewrite <- app_assoc.
Qed.

Lemma no_header_context ctx :
  match ctx with None => True | Some s => clean_name s end →
  no_header (trim_end (match ctx with
    | None => EMPTY_CHANGE_CONTEXT_MARKER | Some s => CHANGE_CONTEXT_MARKER ++ s end)).
Proof.
  intros Hc. destruct ctx as [s|]; [|by apply no_header_first].
  destruct Hc as (? & ? & ?). rewrite trim_end_prefix by done. by apply no_header_first.
Qed.

Lemma no_header_eof : no_header (trim_end EOF_MARKER).
Proof.
  intros p Hm. change (trim_end EOF_MARKER) with EOF_MARKER.
  by rewrite handle_headers_open.
Qed.

Lemma consumes_chunk env hs path mv cs c p :
  clean_chunk c → Forall chunk_ok cs → in_update env hs path mv cs p →
  consumes (render_chunk c) p (in_update env hs path mv (cs ++ [c])).
Proof.
  intros (Hok & _ & _ & Hctx) Hcs Hi. destruct c as [ctx olds news eof]. unfold render_chunk. simpl in *.
  apply (consumes_app [_] _ p (in_update env hs path mv (cs ++ [empty_chunk ctx]))).
  { eapply consumes_update_line; [done|by apply no_header_context|].
    intros ln. by apply update_line_context. }
  intros q Hq.
  apply (consumes_app _ _ q (in_update env hs path mv (cs ++ [mkChunk ctx olds [] false]))).
  { replace (mkChunk ctx olds [] false) with (foldl (flip push_old) (empty_chunk ctx) olds)
      by apply foldl_push_old.
    by apply consumes_tagged; eauto using update_line_old. }
  intros r Hr.
  apply (consumes_app _ _ r (in_update env hs path mv (cs ++ [mkChunk ctx olds news false]))).
  { replace (mkChunk ctx olds news false)
      with (foldl (flip push_new) (mkChunk ctx olds [] false) news) by apply foldl_push_new.
    by apply consumes_tagged; eauto using update_line_new. }
  intros u Hu. destruct eof; [|by apply consumes_nil].
  eapply consumes_update_line; [done|apply no_header_eof|].
  intros ln. by apply update_line_eof.
Qed.

Lemma consumes_chunks env hs path mv cs ks p :
  Forall clean_chunk ks → Forall chunk_ok cs → in_update env hs path mv cs p →
  consumes (concat (render_chunk <$> ks)) p (in_update env hs path mv (cs ++ ks)).
Proof.
  intros Hks. revert cs p. induction Hks as [|k ks Hk Hks IH]; intros cs p Hcs Hi.
  - apply consumes_nil. by rewrite app_nil_r.
  - rewrite fmap_cons, concat_cons. eapply consumes_app; [by eapply consumes_chunk|]. intros q Hq.
    rewrite cons_middle, app_assoc. apply IH; [|done].
    apply Forall_snoc. split; [done|]. apply Hk.
Qed.

Lemma update_line_move dest ln :
  clean_name dest →
  process_update_line (MOVE_TO_MARKER ++ dest) ln None [] = Ok (Some dest, []).
Proof.
  intros (? & ? & ?). unfold process_update_line. rewrite trim_end_prefix by done.
  simpl is_some_and. rewrite !andb_false_l. simpl is_nil.
  rewrite bool_decide_true by done. cbn [andb].
  by rewrite strip_prefix_app.
Qed.

Lemma in_update_between env hs path mv cs p :
  in_update env hs path mv cs p → cs ≠ [] → Forall chunk_ok cs →
  between env (hs ++ [UpdateFile path mv cs]) p.
Proof.
  intros ([n Hm] & Hh & He) Hne Hok.
  split_and!; [by unfold open_mode; rewrite Hm|done..|]. intros t. by eapply ensure_between.
Qed.

(** Lines as they are printed, each with its newline. *)
Definition printed_lines (ls : list str) : str := concat ((λ l, l ++ [nl]) <$> ls).

Lemma split_printed_lines ls rest :
  Forall clean_line ls → no_nl rest → split_on nl (printed_lines ls ++ rest) = ls ++ [rest].
Proof.
  intros Hls Hr. unfold printed_lines. induction Hls as [|l ls [Hl _] _ IH]; [by apply split_on_no|].
  rewrite fmap_cons, concat_cons, <- !app_assoc. cbn [app].
  rewrite split_on_app by done. by rewrite IH.
Qed.

Lemma text_lines_concat ls :
  Forall clean_line ls → text_lines (concat ((λ l, l ++ [nl]) <$> ls)) = ls.
Proof.
  intros Hls. pose proof (split_printed_lines ls [] Hls no_nl_nil) as Hs.
  rewrite app_nil_r in Hs. unfold text_lines, printed_lines in *. by rewrite Hs, init_snoc.
Qed.

Lemma consumes_hunk env hs h p :
  clean_hunk h → between env hs p → consumes (render_hunk h) p (between env (hs ++ [h])).
Proof.
  intros Hc Hb. destruct h as [path contents|path|path mv cs]; unfold render_hunk; simpl in Hc.
  - destruct Hc as (Hp & ls & Hls & ->). rewrite text_lines_concat by done.
    eapply (consumes_app [_]); [by eapply consumes_add_header|].
    intros q (Hm & Hh & He). by apply (consumes_added ls env hs path []).
  - by apply consumes_delete_header.
  - destruct Hc as (Hp & Hne & Hcs & Hmv).
    eapply (consumes_app [_]); [by eapply consumes_update_header|]. intros q Hq.
    apply (consumes_app _ _ q (in_update env hs path mv [])).
    { destruct mv as [dest|]; [|by apply consumes_nil].
      eapply consumes_update_line; [done| |intros; by apply update_line_move].
      destruct Hmv as (? & ? & ?). rewrite trim_end_prefix by done.
      intros r Hr. by rewrite handle_headers_open. }
    intros r Hr. destruct (consumes_chunks env hs path mv [] cs r) as (u & Hu & Hbu & Hi); [done..|].
    exists u. split_and!; [done..|]. apply in_update_between; [done..|].
    eapply Forall_impl; [done|]. by intros c [? _].
Qed.

Lemma consumes_hunks env hs ks p :
  Forall clean_hunk ks → between env hs p →
  consumes (concat (render_hunk <$> ks)) p (between env (hs ++ ks)).
Proof.
  intros Hks. revert hs p. induction Hks as [|k ks Hk Hks IH]; intros hs p Hb.
  - apply consumes_nil. by rewrite app_nil_r.
  - rewrite fmap_cons, concat_cons. eapply consumes_app; [by eapply consumes_hunk|]. intros q Hq.
    rewrite cons_middle, app_assoc. by apply IH.
Qed.

(** * The whole patch *)

Lemma clean_no_header_cr m s : clean_name s → clean_line (m ++ s) ∨ ¬ no_nl m.
Proof.
  intros (Hn & Hne & Ht). destruct (decide (no_nl m)) as [Hm|]; [left|by right].
  split; [by apply no_nl_app|]. rewrite last_app.
  destruct (last s) as [c|] eqn:E; [|by apply last_None in E].
  rewrite <- Ht in E. apply trim_end_last in E. by intros [= ->].
Qed.

Lemma clean_marker m s : clean_name s → no_nl m → clean_line (m ++ s).
Proof. intros Hs Hm. by destruct (clean_no_header_cr m s Hs). Qed.

Ltac closed_no_nl := by apply (bool_decide_unpack _); vm_compute.

Lemma clean_cons c l : c ≠ nl → c ≠ cr → clean_line l → clean_line (c :: l).
Proof.
  intros ?? [Hn Hl]. split; [by apply no_nl_cons|]. rewrite last_cons.
  destruct (last l); [done|]. by intros [= ->].
Qed.

Lemma clean_tagged c ls : c ≠ nl → c ≠ cr → Forall clean_line ls → Forall clean_line (cons c <$> ls).
Proof. intros ?? H. apply Forall_fmap. eapply Forall_impl; [done|]. intros l. by apply clean_cons. Qed.

Lemma clean_render_chunk c : clean_chunk c → Forall clean_line (render_chunk c).
Proof.
  intros (_ & Ho & Hn & Hc). unfold render_chunk. rewrite !Forall_app.
  split_and!; [|by apply clean_tagged..|].
  - constructor; [|constructor]. destruct (change_context c); [|by split; closed_no_nl].
    apply clean_marker; [done|closed_no_nl].
  - destruct (is_end_of_file c); [|constructor]. constructor; [|constructor]. split; closed_no_nl.
Qed.

Lemma clean_render_hunk h : clean_hunk h → Forall clean_line (render_hunk h).
Proof.
  destruct h as [path contents|path|path mv cs]; unfold render_hunk; simpl clean_hunk.
  - intros (Hp & ls & Hls & ->). rewrite text_lines_concat by done. apply Forall_app. split.
    + constructor; [|constructor]. apply clean_marker; [done|closed_no_nl].
    + by apply clean_tagged.
  - intros Hp. constructor; [|constructor]. apply clean_marker; [done|closed_no_nl].
  - intros (Hp & _ & Hcs & Hmv). rewrite !Forall_app. split_and!.
    + constructor; [|constructor]. apply clean_marker; [done|closed_no_nl].
    + destruct mv; [|constructor]. constructor; [|constructor]. apply clean_marker; [done|closed_no_nl].
    + induction Hcs; [constructor|]. rewrite fmap_cons, concat_cons. apply Forall_app.
      auto using clean_render_chunk.
Qed.

Lemma consumes_prologue env p :
  clean_env env → p = default_parser →
  consumes ([BEGIN_PATCH_MARKER] ++
            match env with None => [] | Some e => [ENVIRONMENT_ID_MARKER ++ lit " " ++ e] end)
           p (between env []).
Proof.
  intros He ->. apply consumes_cons. eexists. split; [reflexivity|].
  destruct env as [e|]; [|by apply consumes_nil; split_and!].
  destruct He as (Hn & Hne & Ht). apply consumes_cons.
  set (q := set_mode _ _).
  exists (set_environment_id (Some e) (next_line q)).
  split; [|by apply consumes_nil; split_and!].
  assert (trim (ENVIRONMENT_ID_MARKER ++ lit " " ++ e) = ENVIRONMENT_ID_MARKER ++ lit " " ++ e) as Hte.
  { rewrite app_assoc. apply trim_header; [|done]. split_and!; [done..|]. by apply trim_fixed_end. }
  apply process_line_handled; [done..|]. unfold handle_hunk_headers_and_end_patch.
  rewrite strip_prefix_app. simpl mode. cbv beta iota. simpl environment_id. cbv beta iota.
  assert (trim (lit " " ++ e) = e) as -> by done.
  by rewrite decide_False.
Qed.

Lemma consumes_body env hs :
  clean_env env → Forall clean_hunk hs →
  consumes (render_body env hs) default_parser (between env hs).
Proof.
  intros He Hh. unfold render_body. rewrite app_assoc.
  eapply consumes_app; [by apply consumes_prologue|].
  intros q Hq. by apply (consumes_hunks env [] hs).
Qed.

Lemma clean_body env hs :
  clean_env env → Forall clean_hunk hs → Forall clean_line (render_body env hs).
Proof.
  intros He Hh. unfold render_body. rewrite !Forall_app. split_and!.
  - constructor; [|constructor]. split; closed_no_nl.
  - destruct env as [e|]; [|constructor]. constructor; [|constructor].
    destruct He as (? & ? & ?). rewrite app_assoc. apply clean_marker; [|closed_no_nl].
    split_and!; [done..|]. by apply trim_fixed_end.
  - induction Hh; [constructor|]. rewrite fmap_cons, concat_cons. apply Forall_app.
    auto using clean_render_hunk.
Qed.

Lemma process_pieces_lines ls rest p :
  Forall clean_line ls → line_buffer p = [] →
  process_pieces (ls ++ [rest]) p =
  (let! q | _ := process_lines ls p in (set_line_buffer rest q, Ok ())).
Proof.
  intros Hls. revert p. induction Hls as [|l ls [Hn Hl] Hls IH]; intros p Hb; [done|].
  cbn [app]. rewrite process_pieces_cons by (by destruct ls). simpl.
  rewrite strip_cr_id by done.
  assert (set_line_buffer [] p = p) as -> by (destruct p; simpl in *; by subst).
  pose proof (process_line_buffer l (next_line p)) as Hq. simpl in Hq.
  destruct (process_line _ _) as [q [[]|e]]; [|done]. apply IH. simpl in Hq. by rewrite Hq.
Qed.

(** The lines of a rendered patch, cut out again. *)
Lemma lines_join_clean ls l :
  Forall clean_line ls → no_nl l → l ≠ [] → lines (join [nl] (ls ++ [l])) = ls ++ [l].
Proof.
  intros Hls Hn Hne. unfold lines. rewrite split_join; [|by destruct ls|].
  - induction Hls as [|k ls [_ Hk] _ IH]; cbn [app lines_of_pieces]; [by rewrite decide_False|].
    rewrite IH, strip_cr_id by done. by destruct (ls ++ [l]) eqn:E; [destruct ls|].
  - apply Forall_snoc. split; [|done]. eapply Forall_impl; [done|]. by intros k [? _].
Qed.

Lemma trim_render env hs : trim (render_patch env hs) = render_patch env hs.
Proof.
  unfold render_patch, render_body.
  assert (∀ ls, ∃ s, join [nl] (ls ++ [END_PATCH_MARKER]) = s ++ END_PATCH_MARKER) as Hend.
  { intros ls. induction ls as [|l ls [s IH]]; [by exists []|].
    exists (l ++ [nl] ++ s). cbn [app]. rewrite join_cons by (by destruct ls).
    rewrite IH. by rewrite <- !app_assoc. }
  cbn [app]. rewrite join_cons by (by destruct (_ ++ [END_PATCH_MARKER]) eqn:E; [apply app_eq_nil in E as [_ ?]|]).
  match goal with |- context [join [nl] (?ls ++ [END_PATCH_MARKER])] => destruct (Hend ls) as [s ->] end.
  unfold trim. change (trim_start (BEGIN_PATCH_MARKER ++ ?x)) with (BEGIN_PATCH_MARKER ++ x).
  rewrite (app_assoc _ [nl]), app_assoc.
  by apply (trim_end_prefix _ END_PATCH_MARKER).
Qed.

(** C28: printing a patch and parsing the text gives back the environment and
    the hunks, for every list of hunks that the format can express: lines hold no
    newline and do not end in a carriage return, and names and paths are not empty
    and do not end in white space. *)
Theorem parse_render_roundtrip env hs :
  clean_env env → Forall clean_hunk hs →
  parse_patch (render_patch env hs) = Ok (mkArgs (render_patch env hs) hs None env).
Proof.
  intros He Hh. pose proof (clean_body env hs He Hh) as Hc.
  unfold parse_patch, parse_patch_text. simpl.
  rewrite trim_render. unfold render_patch at 1. rewrite lines_join_clean by (done || closed_no_nl).
  assert (check_patch_boundaries_strict (render_body env hs ++ [END_PATCH_MARKER])
          = Ok (render_body env hs ++ [END_PATCH_MARKER])) as Hb.
  { unfold check_patch_boundaries_strict. rewrite last_snoc. reflexivity. }
  unfold check_patch_boundaries_lenient. rewrite Hb. fold (render_patch env hs).
  destruct (consumes_body env hs He Hh) as (p & Hp & Hlb & Hm & Hhs & Henv & Hen).
  unfold push_delta. rewrite push_chars_pieces by apply no_nl_nil. simpl line_buffer. cbn [app].
  unfold render_patch at 1. rewrite split_join.
  - rewrite process_pieces_lines, Hp by done. unfold finish. simpl line_buffer.
    rewrite decide_False by done. unfold finish_line. rewrite decide_True by done.
    rewrite ensure_next_line; [simpl; by rewrite Hhs, Henv|]. apply Hen.
  - by destruct (render_body env hs).
  - apply Forall_snoc. split; [|closed_no_nl]. eapply Forall_impl; [done|]. by intros k [? _].
Qed.

(** ** A patch that is streamed *)

Lemma printed_join ls l : join [nl] (ls ++ [l]) = printed_lines ls ++ l.
Proof.
  induction ls as [|k ls IH]; [done|]. cbn [app]. rewrite join_cons by (by destruct ls).
  rewrite IH. unfold printed_lines. rewrite fmap_cons, concat_cons. by rewrite !app_assoc.
Qed.

(** The parser between the hunks of a printed patch, with the text [rest] of a
    line that has not ended. *)
Definition waiting (env : option str) (hs : list Hunk) (rest : str) (p : StreamingPatchParser) : Prop :=
  ∃ q, p = set_line_buffer rest q ∧ between env hs q.

Lemma push_body env hs rest :
  clean_env env → Forall clean_hunk hs → no_nl rest →
  ∃ p, push_chars (printed_lines (render_body env hs) ++ rest) default_parser = (p, Ok ())
       ∧ waiting env hs rest p.
Proof.
  intros He Hh Hr. destruct (consumes_body env hs He Hh) as (p & Hp & Hb & Hbt).
  exists (set_line_buffer rest p). split; [|by exists p].
  rewrite push_chars_pieces by apply no_nl_nil. cbn [line_buffer default_parser app].
  rewrite split_printed_lines by auto using clean_body.
  rewrite process_pieces_lines, Hp by auto using clean_body. done.
Qed.

(** The whole patch, with or without a newline at its end. *)
Lemma push_whole env hs tail :
  clean_env env → Forall clean_hunk hs → tail = [] ∨ tail = [nl] →
  ∃ p p', push_chars (render_patch env hs ++ tail) default_parser = (p, Ok ()) ∧ hunks (state p) = hs
    ∧ finish p = (p', Ok hs) ∧ environment_id (state p') = env.
Proof.
  intros He Hh Htail. unfold render_patch. rewrite printed_join.
  destruct (push_body env hs END_PATCH_MARKER He Hh) as (p & Hp & q & -> & Hm & Hhs & Henv & Hen);
    [closed_no_nl|].
  rewrite push_chars_app, Hp. destruct Htail as [->| ->]; simpl push_chars.
  - eexists _, _. split_and!; [done|done| |].
    + unfold finish. simpl line_buffer. rewrite decide_False by done.
      unfold finish_line. rewrite decide_True by done. rewrite ensure_next_line by apply Hen.
      simpl. by rewrite Hhs.
    + done.
  - set (r := next_line _).
    assert (process_line (strip_cr END_PATCH_MARKER) r = (set_mode Mode.EndedPatch r, Ok ())) as Hend.
    { apply process_line_handled; [done..|]. rewrite handle_headers_open by done.
      unfold hunk_headers_and_end_patch. rewrite decide_True by done.
      unfold enter_header. by rewrite (ensure_next_line (strip_cr END_PATCH_MARKER) q (Hen _)
        : ensure_update_hunk_is_not_empty (strip_cr END_PATCH_MARKER) r = Ok ()). }
    change (line_buffer (set_line_buffer END_PATCH_MARKER q)) with END_PATCH_MARKER.
    rewrite Hend. eexists _, _. split_and!; [done|done| |].
    + unfold finish. simpl. by rewrite Hhs.
    + done.
Qed.

(** C13: A patch of hunks the format can express, printed and arriving in pieces of any
    size, is read back.  After the
    last piece, [finish] gives exactly the hunks that were printed, and the environment.
    No piece is an error, what each piece reports is, its last hunk apart, a beginning
    of these hunks, and it is exactly the first of them once their lines have arrived
    and the next line has not. *)
Theorem streamed_patch_is_read_back env hs tail ds :
  clean_env env → Forall clean_hunk hs → tail = [] ∨ tail = [nl] →
  concat ds = render_patch env hs ++ tail →
  (∃ p p', push_deltas ds default_parser = (p, Ok ()) ∧ finish p = (p', Ok hs)
           ∧ environment_id (state p') = env)
  ∧ ∀ before delta after, ds = before ++ delta :: after →
    ∃ p p' reported, push_deltas before default_parser = (p, Ok ())
      ∧ push_delta delta p = (p', Ok reported)
      ∧ init reported `prefix_of` hs
      ∧ ∀ j rest, no_nl rest →
          concat before ++ delta = printed_lines (render_body env (take j hs)) ++ rest →
          reported = take j hs.
Proof.
  intros He Hh Htail Hds.
  destruct (push_whole env hs tail He Hh Htail) as (p & p' & Hp & Hhs & Hf & Henv).
  rewrite <- Hds in Hp. split; [exists p, p'; by rewrite push_deltas_concat|].
  intros before delta after ->. rewrite push_deltas_concat. unfold push_delta.
  assert (concat (before ++ delta :: after) = concat before ++ delta ++ concat after) as Hc
    by (by rewrite concat_app).
  rewrite Hc, push_chars_app in Hp.
  destruct (push_chars (concat before) default_parser) as [q [[]|]] eqn:Hq; [|done].
  rewrite push_chars_app in Hp.
  destruct (push_chars delta q) as [r [[]|]] eqn:Hr; [|done].
  exists q, r, (hunks (state r)). split_and!; [done|by rewrite Hr| |].
  - rewrite <- Hhs. pose proof (push_chars_hunks (concat after) r) as H. by rewrite Hp in H.
  - intros j rest Hn Hj. destruct (push_body env (take j hs) rest) as (r' & Hr' & u & -> & _ & Hu & _);
      [done|by apply Forall_take|done|].
    rewrite <- Hj, push_chars_app, Hq, Hr in Hr'. by injection Hr' as ->.
Qed.

(** A patch with one hunk of each kind. *)
Definition sample_hunks : list Hunk :=
  [AddFile (lit "docs/new.md") (lit "hello" ++ [nl] ++ [nl]);
   DeleteFile (lit "old.txt");
   UpdateFile (lit "src/main.py") (Some (lit "src/app.py"))
     [mkChunk (Some (lit "def f():")) [lit "    pass"] [lit "    return 123"] false;
      mkChunk None [lit "tail"] [] true]].

Lemma clean_sample : Forall clean_hunk sample_hunks.
Proof.
  unfold sample_hunks. repeat apply Forall_cons_2; [..|constructor]; simpl.
  - split; [unfold clean_name; by apply (bool_decide_unpack _); vm_compute|].
    exists [lit "hello"; []]. split; [|reflexivity].
    unfold clean_line. by apply (bool_decide_unpack _); vm_compute.
  - unfold clean_name. by apply (bool_decide_unpack _); vm_compute.
  - unfold clean_name, clean_chunk, chunk_ok, clean_line.
    split_and!; try by apply (bool_decide_unpack _); vm_compute.
    constructor; [|constructor; [|constructor]]; simpl; split_and!;
      try done; try (by apply (bool_decide_unpack _); vm_compute).
Defined.

Lemma parse_render_roundtrip_witness :
  parse_patch (render_patch (Some (lit "remote")) sample_hunks)
  = Ok (mkArgs (render_patch (Some (lit "remote")) sample_hunks) sample_hunks None (Some (lit "remote"))).
Proof.
  apply parse_render_roundtrip.
  - unfold clean_env. by apply (bool_decide_unpack _); vm_compute.
  - apply clean_sample.
Defined.

(** The patch in pieces of one character, with a newline at its end. *)
Definition sample_deltas : list str :=
  (λ c, [c]) <$> render_patch (Some (lit "remote")) sample_hunks ++ [nl].

Lemma streamed_patch_is_read_back_witness :
  ∃ p p', push_deltas sample_deltas default_parser = (p, Ok ()) ∧ finish p = (p', Ok sample_hunks)
          ∧ environment_id (state p') = Some (lit "remote").
Proof.
  apply (streamed_patch_is_read_back (Some (lit "remote")) sample_hunks [nl] sample_deltas).
  - unfold clean_env. by apply (bool_decide_unpack _); vm_compute.
  - apply clean_sample.
  - by right.
  - vm_compute. reflexivity.
Defined.
