(* ===== verification/SeekSequence.v ===== *)
(** [apply-patch/src/seek_sequence.rs]: locating the lines a chunk replaces.
    Four passes over the file, each with a coarser comparison of lines than
    the one before; the theorems say what the four loops compute together. *)

From S2P Require Import Prelude Text.

(** * The code *)

(** [normalise]: typographic punctuation to ASCII, on the trimmed line. *)
Definition normalise_char (c : N) : N :=
  if decide (c ∈ [8208; 8209; 8210; 8211; 8212; 8213; 8722]%N) then 45%N
  else if decide (c ∈ [8216; 8217; 8218; 8219]%N) then 39%N
  else if decide (c ∈ [8220; 8221; 8222; 8223]%N) then 34%N
  else if decide (c ∈ [160; 8194; 8195; 8196; 8197; 8198; 8199; 8200; 8201; 8202;
                       8239; 8287; 12288]%N) then 32%N
  else c.

Definition normalise (s : str) : str := normalise_char <$> trim s.

(** [lines[i..i + pattern.len()] == *pattern] *)
Definition exact_at (ls pattern : list str) (i : nat) : bool :=
  bool_decide (take (length pattern) (drop i ls) = pattern).

(** The inner loop of the lenient passes: compare [f] of the lines one by one. *)
Fixpoint lenient_at (f : str → str) (ls pattern : list str) (i : nat) : bool :=
  match pattern with
  | [] => true
  | pat :: pattern' =>
      match ls !! i with
      | Some l => bool_decide (f l = f pat) && lenient_at f ls pattern' (S i)
      | None => false
      end
  end.

(** [for i in start .. start + n { if test(i) { return Some(i) } }] *)
Fixpoint scan (test : nat → bool) (start n : nat) : option nat :=
  match n with
  | O => None
  | S n => if test start then Some start else scan test (S start) n
  end.

Definition seek_sequence (ls pattern : list str) (start : nat) (eof : bool) : option nat :=
  if is_nil pattern then Some start
  else if decide (length ls < length pattern) then None
  else
    let search_start :=
      if eof && bool_decide (length pattern ≤ length ls)
      then length ls - length pattern else start in
    let pass test := scan test search_start (S (length ls - length pattern) - search_start) in
    match pass (exact_at ls pattern) with
    | Some i => Some i
    | None =>
    match pass (lenient_at trim_end ls pattern) with
    | Some i => Some i
    | None =>
    match pass (lenient_at trim ls pattern) with
    | Some i => Some i
    | None => pass (lenient_at normalise ls pattern)
    end end end.

(** * Specification *)

(** The lines of [pattern] are those of [ls] at [i], up to [f]. *)
Definition match_at (f : str → str) (ls pattern : list str) (i : nat) : Prop :=
  f <$> take (length pattern) (drop i ls) = f <$> pattern.

(** [i] is the first index of [a, b) where [P] holds. *)
Definition first_in (P : nat → Prop) (a b i : nat) : Prop :=
  a ≤ i < b ∧ P i ∧ ∀ j, a ≤ j < i → ¬ P j.

(** The four comparisons, from the strictest to the most permissive. *)
Definition passes : list (str → str) := [id; trim_end; trim; normalise].

(** Where a search from [start] may end: [eof] moves its start to the last position. *)
Definition search_from (ls pattern : list str) (start : nat) (eof : bool) : nat :=
  if eof then length ls - length pattern else start.

Lemma scan_Some test a n i :
  scan test a n = Some i ↔ first_in (λ j, test j = true) a (a + n) i.
Proof.
  revert a. induction n as [|n IH]; intros a; simpl.
  { split; [done|]. intros ((? & ?) & _). lia. }
  destruct (test a) eqn:E.
  - split.
    + intros [= <-]. split_and!; [lia..|done|]. intros; lia.
    + intros (? & Hi & Hj). f_equal. destruct (decide (a = i)); [done|].
      by destruct (Hj a); [lia|].
  - rewrite IH. split.
    + intros (? & Hi & Hj). split_and!; [lia..|done|]. intros j ?.
      destruct (decide (j = a)) as [->|]; [by rewrite E|]. apply Hj. lia.
    + intros (? & Hi & Hj). assert (a ≠ i) by (intros ->; congruence).
      split_and!; [lia..|done|]. intros j ?. apply Hj. lia.
Qed.

Lemma scan_None test a n :
  scan test a n = None ↔ ∀ j, a ≤ j < a + n → test j = false.
Proof.
  revert a. induction n as [|n IH]; intros a; simpl; [split; [intros; lia|done]|].
  destruct (test a) eqn:E.
  - split; [done|]. intros H. specialize (H a). rewrite H in E; [done|lia].
  - rewrite IH. split; intros H j ?.
    + destruct (decide (j = a)) as [->|]; [done|]. apply H. lia.
    + apply H. lia.
Qed.

Lemma exact_at_true ls pattern i : exact_at ls pattern i = true ↔ match_at id ls pattern i.
Proof. unfold exact_at, match_at. by rewrite bool_decide_eq_true, !list_fmap_id. Qed.

Lemma lenient_at_true f ls pattern i :
  lenient_at f ls pattern i = true ↔ match_at f ls pattern i.
Proof.
  unfold match_at. revert i. induction pattern as [|pat ps IH]; intros i; [done|]. simpl.
  destruct (ls !! i) as [l|] eqn:E.
  - rewrite andb_true_iff, bool_decide_eq_true, IH, (drop_S _ _ _ E). simpl. split.
    + intros [-> H]. f_equal. exact H.
    + intros [= -> H]. split; [done|exact H].
  - split; [done|]. apply lookup_ge_None in E. rewrite drop_ge by done. done.
Qed.

(** The passes in order, as one search. *)
Fixpoint first_pass (fs : list (str → str)) (ls pattern : list str) (a n : nat) : option nat :=
  match fs with
  | [] => None
  | f :: fs =>
      match scan (lenient_at f ls pattern) a n with
      | Some i => Some i
      | None => first_pass fs ls pattern a n
      end
  end.

Lemma scan_ext t1 t2 a n : (∀ i, t1 i = t2 i) → scan t1 a n = scan t2 a n.
Proof. intros H. revert a. induction n as [|n IH]; intros a; simpl; [done|]. by rewrite H, IH. Qed.

Lemma exact_lenient ls pattern i : exact_at ls pattern i = lenient_at id ls pattern i.
Proof. apply eq_bool_prop_intro. by rewrite !Is_true_true, exact_at_true, lenient_at_true. Qed.

Lemma seek_passes ls pattern start eof :
  pattern ≠ [] → length pattern ≤ length ls →
  let a := search_from ls pattern start eof in
  seek_sequence ls pattern start eof =
  first_pass passes ls pattern a (S (length ls - length pattern) - a).
Proof.
  intros Hne Hlen a. unfold seek_sequence.
  rewrite (proj2 (is_nil_false _) Hne), decide_False, (bool_decide_true (_ ≤ _)), andb_true_r by lia.
  fold a. unfold passes, first_pass. rewrite (scan_ext _ _ _ _ (exact_lenient ls pattern)).
  by destruct (scan (lenient_at normalise ls pattern) _ _).
Qed.

Lemma first_pass_Some fs ls pattern a n i :
  first_pass fs ls pattern a n = Some i ↔
  ∃ k f, fs !! k = Some f ∧ first_in (match_at f ls pattern) a (a + n) i
         ∧ ∀ k' f', k' < k → fs !! k' = Some f' → ∀ j, a ≤ j < a + n → ¬ match_at f' ls pattern j.
Proof.
  assert (∀ f j, first_in (λ j, lenient_at f ls pattern j = true) a (a + n) j
                 ↔ first_in (match_at f ls pattern) a (a + n) j) as Hfi.
  { intros f j. unfold first_in. setoid_rewrite lenient_at_true. done. }
  induction fs as [|f fs IH]; simpl.
  { split; [done|]. intros (k & f & Hk & _). done. }
  destruct (scan _ a n) as [i'|] eqn:E.
  - apply scan_Some, Hfi in E. split.
    + intros [= <-]. exists 0, f. split_and!; [done|done|]. intros; lia.
    + intros (k & g & Hk & Hi & Hlt). destruct k as [|k].
      * simplify_eq/=. f_equal. destruct E as (? & ? & E), Hi as (? & ? & Hi).
        destruct (Nat.lt_trichotomy i i') as [?|[?|?]]; [|done|]; exfalso;
          [apply (E i)|apply (Hi i')]; done || lia.
      * exfalso. destruct E as (? & ? & _). by apply (Hlt 0 f ltac:(lia) eq_refl i').
  - rewrite IH. pose proof (proj1 (scan_None _ _ _) E) as Hn.
    assert (∀ j, a ≤ j < a + n → ¬ match_at f ls pattern j) as Hn'.
    { intros j Hj Hm. apply lenient_at_true in Hm. by rewrite Hn in Hm. }
    split.
    + intros (k & g & Hk & Hi & Hlt). exists (S k), g. split_and!; [done|done|].
      intros [|k'] f' ? Hf'; simplify_eq/=; [done|]. apply (Hlt k'); [lia|done].
    + intros (k & g & Hk & Hi & Hlt). destruct k as [|k]; simplify_eq/=.
      * exfalso. destruct Hi as (? & ? & _). by eapply Hn'.
      * exists k, g. split_and!; [done|done|]. intros k' f' ? Hf'. apply (Hlt (S k')); [lia|done].
Qed.

Lemma first_pass_None fs ls pattern a n :
  first_pass fs ls pattern a n = None ↔
  ∀ f, f ∈ fs → ∀ j, a ≤ j < a + n → ¬ match_at f ls pattern j.
Proof.
  induction fs as [|f fs IH]; simpl; [set_solver|].
  destruct (scan _ a n) as [i|] eqn:E.
  - split; [done|]. intros H. apply scan_Some in E as (? & E & _).
    apply lenient_at_true in E. exfalso. eapply H; [|done..]. set_solver.
  - rewrite IH. pose proof (proj1 (scan_None _ _ _) E) as Hn. split.
    + intros H g [->|Hg]%elem_of_cons; [|auto]. intros j Hj Hm%lenient_at_true. by rewrite Hn in Hm.
    + intros H g Hg. apply H. set_solver.
Qed.

(** ** Each comparison is coarser than the one before *)

Lemma trim_end_ws s : trim_end s = [] ↔ Forall (λ c, is_whitespace c = true) s.
Proof.
  induction s as [|c s IH]; [done|]. simpl. rewrite Forall_cons, <- IH.
  destruct (trim_end s); [|naive_solver]. destruct (is_whitespace c); naive_solver.
Qed.

Lemma trim_start_end s : trim_start (trim_end s) = trim_end (trim_start s).
Proof.
  induction s as [|c s IH]; [done|]. simpl.
  destruct (is_whitespace c) eqn:Hc.
  - destruct (trim_end s) as [|d t] eqn:E.
    + simpl. rewrite <- IH. done.
    + simpl. rewrite Hc. by rewrite <- IH.
  - destruct (trim_end s) as [|d t] eqn:E; simpl; rewrite Hc, E; [by rewrite ?Hc|done].
Qed.

(** [f] is coarser than [g] when it factors through it. *)
Lemma match_at_coarser (f g h : str → str) ls pattern i :
  (∀ l, g l = h (f l)) → match_at f ls pattern i → match_at g ls pattern i.
Proof.
  unfold match_at. intros Hg Hm.
  rewrite (list_fmap_ext g (h ∘ f)), (list_fmap_ext g (h ∘ f) pattern) by done.
  by rewrite !list_fmap_compose, Hm.
Qed.

Lemma passes_coarser f ls pattern i :
  f ∈ passes → match_at f ls pattern i → match_at normalise ls pattern i.
Proof.
  unfold passes. rewrite !elem_of_cons, elem_of_nil.
  intros [->|[->|[->|[->|[]]]]]; [| | |done].
  - by apply (match_at_coarser id normalise normalise).
  - apply (match_at_coarser trim_end normalise (fmap normalise_char ∘ trim_start)).
    intros l. unfold normalise, trim. simpl. by rewrite trim_start_end.
  - by apply (match_at_coarser trim normalise (fmap normalise_char)).
Qed.

(** What a caller may rely on: the position found is in range and matches. *)
Lemma seek_sequence_found ls pattern start eof i :
  pattern ≠ [] → seek_sequence ls pattern start eof = Some i →
  search_from ls pattern start eof ≤ i ∧ i + length pattern ≤ length ls
  ∧ match_at normalise ls pattern i.
Proof.
  intros Hne Hs. destruct (decide (length ls < length pattern)) as [Hlt|Hge].
  { unfold seek_sequence in Hs. by rewrite (proj2 (is_nil_false _) Hne), decide_True in Hs by done. }
  rewrite seek_passes in Hs by (done || lia).
  apply first_pass_Some in Hs as (k & f & Hf & (? & Hm & _) & _).
  split_and!; [lia..|]. eapply passes_coarser; [|done]. by eapply list_elem_of_lookup_2.
Qed.

(** * Properties *)

(** For a pattern that fits, [seek_sequence] returns [i] exactly when [i]
    is the first position of the search range that matches under some
    comparison (exact, ignoring trailing white space, ignoring surrounding
    white space, normalised punctuation) and no stricter comparison matches
    anywhere in the range. *)
Theorem seek_sequence_spec ls pattern start eof i :
  pattern ≠ [] → length pattern ≤ length ls →
  let a := search_from ls pattern start eof in
  let b := S (length ls - length pattern) in
  seek_sequence ls pattern start eof = Some i ↔
  ∃ k f, passes !! k = Some f ∧ first_in (match_at f ls pattern) a b i
         ∧ ∀ k' f', k' < k → passes !! k' = Some f' → ∀ j, a ≤ j < b → ¬ match_at f' ls pattern j.
Proof.
  intros Hne Hlen a b. rewrite seek_passes, first_pass_Some by done. fold a.
  destruct (decide (a ≤ b)); [by replace (a + (_ - a)) with b by (unfold b; lia)|].
  split; intros (k & f & _ & ((? & ?) & _) & _); unfold b in *; lia.
Qed.

Lemma seek_sequence_spec_witness :
  seek_sequence [lit "a"; lit "b "; lit "c"; lit "b"] [lit "b"] 0 false = Some 3
  ∧ ∃ k f, passes !! k = Some f
     ∧ first_in (match_at f [lit "a"; lit "b "; lit "c"; lit "b"] [lit "b"]) 0 4 3
     ∧ ∀ k' f', k' < k → passes !! k' = Some f' → ∀ j, 0 ≤ j < 4 →
         ¬ match_at f' [lit "a"; lit "b "; lit "c"; lit "b"] [lit "b"] j.
Proof.
  split; [vm_compute; reflexivity|].
  apply (seek_sequence_spec [lit "a"; lit "b "; lit "c"; lit "b"] [lit "b"] 0 false 3);
    [done|simpl; lia|vm_compute; reflexivity].
Defined.

(** A search fails only when nothing matches even the most permissive
    comparison: [None] means that no position of the range matches after
    normalisation, or the pattern is longer than the file. *)
Theorem seek_sequence_complete ls pattern start eof :
  seek_sequence ls pattern start eof = None ↔
  pattern ≠ [] ∧ ∀ j, search_from ls pattern start eof ≤ j → ¬ match_at normalise ls pattern j.
Proof.
  destruct (decide (pattern = [])) as [->|Hne]; [naive_solver|].
  assert (∀ j, match_at normalise ls pattern j → j + length pattern ≤ length ls) as Hfit.
  { intros j Hm. apply (f_equal length) in Hm. rewrite !length_fmap, length_take, length_drop in Hm.
    apply length_pos in Hne. lia. }
  destruct (decide (length ls < length pattern)) as [Hlt|Hge].
  - unfold seek_sequence. rewrite (proj2 (is_nil_false _) Hne), decide_True by done.
    split; [|done]. intros _. split; [done|]. intros j _ Hm%Hfit. lia.
  - rewrite seek_passes, first_pass_None by (done || lia). split.
    + intros H. split; [done|]. intros j Hj Hm. pose proof (Hfit j Hm).
      apply (H normalise ltac:(unfold passes; set_solver) j); [lia|done].
    + intros [_ H] f Hf j Hj Hm. apply (H j); [lia|]. by eapply passes_coarser.
Qed.

(** With [eof] the search looks at the last position of the file only:
    it never falls back to [start], although the comment above
    [seek_sequence] says that it does. *)
Theorem seek_sequence_eof_only_at_end ls pattern start i :
  pattern ≠ [] → seek_sequence ls pattern start true = Some i →
  i = length ls - length pattern.
Proof.
  intros Hne Hs. destruct (decide (length ls < length pattern)) as [Hlt|Hge].
  - unfold seek_sequence in Hs. by rewrite (proj2 (is_nil_false _) Hne), decide_True in Hs by done.
  - rewrite seek_passes in Hs by (done || lia). apply first_pass_Some in Hs as (? & ? & _ & [? _] & _).
    simpl in *. lia.
Qed.

Lemma seek_sequence_eof_only_at_end_witness :
  seek_sequence [lit "a"; lit "b"] [lit "a"] 0 false = Some 0
  ∧ seek_sequence [lit "a"; lit "b"] [lit "a"] 0 true = None
  ∧ 1 = length [lit "a"; lit "b"] - length [lit "b"].
Proof.
  split_and!; [vm_compute; reflexivity..|].
  apply (seek_sequence_eof_only_at_end [lit "a"; lit "b"] [lit "b"] 0); [done|].
  vm_compute. reflexivity.
Defined.
