(* ===== verification/FileSystem.v ===== *)
(** The interface between [apply_patch] and the environment it runs in: the
    part of the trait [ExecutorFileSystem] ([file-system/src/lib.rs]) and of
    the type [PathUri] ([utils/path-uri/src/lib.rs]) that [apply-patch] calls.

    [ExecutorFileSystem] is the trait: a record of operations over a state.
    [FileSystemLaws] states what an implementation promises about the files
    named by URIs, and [MemFs] is an implementation that keeps the promise,
    with directories that must exist before a file is written. *)

From S2P Require Import Prelude Text Utf8.

(** * Errors *)

(** [std::io::ErrorKind]: the kinds the code tests or makes, and the others. *)
Inductive ErrorKind := NotFound | InvalidInput | InvalidData | Other | OtherKind (code : nat).

#[export] Instance ErrorKind_eq_dec : EqDecision ErrorKind.
Proof. solve_decision. Defined.

(** [std::io::Error]: its kind and its text. *)
Record io_error := mkIo { kind : ErrorKind; io_message : str }.

#[export] Instance io_error_eq_dec : EqDecision io_error.
Proof. solve_decision. Defined.

(** [PathUriParseError]; [InvalidUri] carries the text of the [url] crate's error. *)
Inductive PathUriParseError :=
| InvalidUri (e : str)
| UnsupportedScheme (scheme : str)
| InvalidFileUriPath (path : str)
| CredentialsNotAllowed
| PortNotAllowed
| QueryNotAllowed
| FragmentNotAllowed
| JoinPathMustBeRelative (path : str).

#[export] Instance PathUriParseError_eq_dec : EqDecision PathUriParseError.
Proof. solve_decision. Defined.

(** * Paths *)

(** What [apply-patch] uses of [PathUri]; the text of a parse error depends on the host. *)
Class PathUri (U : Type) `{Countable U} := {
  uri_join : U → str → result PathUriParseError U;
  uri_parent : U → option U;
  inferred_native_path_string : U → str;
  uri_error_text : PathUriParseError → str
}.

(** * The trait *)

(** [FileMetadata] *)
Record FileMetadata := mkMeta {
  is_directory : bool;
  is_file : bool;
  is_symlink : bool;
  size : N;
  created_at_ms : Z;
  modified_at_ms : Z
}.

Record CreateDirectoryOptions := mkCreateDirectoryOptions { create_recursive : bool }.
Record RemoveOptions := mkRemoveOptions { remove_recursive : bool; remove_force : bool }.

(** [ExecutorFileSystem]: the operations [apply-patch] calls, with the sandbox
    argument every call passes on fixed.  Reading does not change the state:
    nothing else writes to the files while a patch is applied. *)
Record ExecutorFileSystem (U S : Type) := mkFs {
  read_file : S → U → result io_error (list N);
  get_metadata : S → U → result io_error FileMetadata;
  write_file : S → U → list N → S * result io_error ();
  create_directory : S → U → CreateDirectoryOptions → S * result io_error ();
  remove : S → U → RemoveOptions → S * result io_error ()
}.
Arguments read_file {U S}.
Arguments get_metadata {U S}.
Arguments write_file {U S}.
Arguments create_directory {U S}.
Arguments remove {U S}.

(** The default method [read_file_text]. *)
Definition read_file_text {U S} (fs : ExecutorFileSystem U S) (s : S) (path : U) :
    result io_error str :=
  let? bytes := read_file fs s path in
  result_map_err (λ _, mkIo InvalidData (lit "invalid utf-8 sequence")) (from_utf8 bytes).

(** * What an implementation promises *)

Section laws.
Context {U S : Type} `{Countable U} `{!PathUri U} (fs : ExecutorFileSystem U S).

(** The path names a regular file, or nothing: the case [apply_patch] can undo. *)
Definition tracked (s : S) (p : U) : Prop :=
  match get_metadata fs s p with
  | Ok m => is_file m = true ∧ is_symlink m = false
  | Err e => kind e = NotFound
  end.

(** [view s] maps each URI to the bytes read there.  On tracked paths the
    operations change the file they name and no other; a write that fails
    with [NotFound] has written nothing, other failed writes promise nothing
    about their own path, and a failed removal leaves the file or removes it. *)
Class FileSystemLaws (view : S → gmap U (list N)) : Prop := {
  read_ok s p b : read_file fs s p = Ok b → view s !! p = Some b;
  read_not_found s p e : read_file fs s p = Err e → kind e = NotFound → view s !! p = None;
  write_ok s s' p b : tracked s p → write_file fs s p b = (s', Ok tt) →
    view s' = <[p := b]> (view s);
  write_not_found s s' p b e : tracked s p → write_file fs s p b = (s', Err e) →
    kind e = NotFound → view s' = view s;
  write_tracked s s' p q b r : tracked s p → write_file fs s p b = (s', r) →
    tracked s q → tracked s' q;
  mkdir_view s s' d o r : create_directory fs s d o = (s', r) → view s' = view s;
  mkdir_tracked s s' d o r p : create_directory fs s d o = (s', r) → tracked s p →
    is_Some (view s !! p) ∨ uri_parent p = Some d → tracked s' p;
  remove_ok s s' p o : tracked s p → remove fs s p o = (s', Ok tt) →
    view s' = delete p (view s);
  remove_err s s' p o e : tracked s p → remove fs s p o = (s', Err e) →
    view s' = view s ∨ view s' = delete p (view s)
}.
End laws.

Lemma read_file_text_ok {U S} (fs : ExecutorFileSystem U S) s p t :
  read_file_text fs s p = Ok t → read_file fs s p = Ok (into_bytes t).
Proof.
  unfold read_file_text. destruct (read_file fs s p) as [b|]; [|done].
  destruct (from_utf8 b) as [t'|] eqn:E; [|done]. intros [= <-].
  by apply from_utf8_Ok in E as [-> _].
Qed.

Lemma read_file_text_not_found {U S} (fs : ExecutorFileSystem U S) s p e :
  read_file_text fs s p = Err e → kind e = NotFound →
  ∃ e', read_file fs s p = Err e' ∧ kind e' = NotFound.
Proof.
  unfold read_file_text. destruct (read_file fs s p) as [b|e'].
  - by destruct (from_utf8 b); intros [= <-].
  - intros [= <-] ?. eauto.
Qed.

(** * An implementation *)

(** POSIX-like paths: a list of segments below the root. *)
Module MemFs.
Abbreviation path := (list str).

Definition path_join (p : path) (t : str) : result PathUriParseError path :=
  if decide (0%N ∈ t) then Err (InvalidFileUriPath t)
  else
    let segments := filter (λ seg : str, seg ≠ []) (split_on 47%N t) in
    Ok (if starts_with t (lit "/") then segments else p ++ segments).

#[global] Instance path_uri : PathUri path := {
  uri_join := path_join;
  uri_parent p := if is_nil p then None else Some (init p);
  inferred_native_path_string p := lit "/" ++ join (lit "/") p;
  uri_error_text _ := lit "invalid path"
}.

(** Files with their bytes, and the directories that exist. *)
Record state := mk { files : gmap path (list N); dirs : gset path }.

Definition not_found : io_error := mkIo NotFound (lit "No such file or directory").
Definition is_a_directory : io_error := mkIo (OtherKind 21) (lit "Is a directory").

Definition meta (dir : bool) (bytes : list N) : FileMetadata :=
  mkMeta dir (negb dir) false (N.of_nat (length bytes)) 0 0.

Definition prefixes (p : path) : list path := (λ n, take n p) <$> seq 0 (S (length p)).
Definition ancestors (p : path) : gset path := list_to_set (prefixes p).
Arguments ancestors : simpl never.
Arguments prefixes : simpl never.

Definition fs : ExecutorFileSystem path state := {|
  read_file s p :=
    if decide (p ∈ dirs s) then Err is_a_directory
    else ok_of_option not_found (files s !! p);
  get_metadata s p :=
    if decide (p ∈ dirs s) then Ok (meta true [])
    else match files s !! p with Some b => Ok (meta false b) | None => Err not_found end;
  write_file s p b :=
    if decide (p ∈ dirs s) then (s, Err is_a_directory)
    else if decide (init p ∈ dirs s) then (mk (<[p := b]> (files s)) (dirs s), Ok tt)
    else (s, Err not_found);
  create_directory s d o :=
    if decide (Exists (λ q, is_Some (files s !! q)) (prefixes d))
    then (s, Err (mkIo (OtherKind 17) (lit "File exists")))
    else (mk (files s) (ancestors d ∪ dirs s), Ok tt);
  remove s p o :=
    if decide (p ∈ dirs s) then (s, Err is_a_directory)
    else match files s !! p with
         | Some _ => (mk (delete p (files s)) (dirs s), Ok tt)
         | None => (s, Err not_found)
         end
|}.

Lemma tracked_iff s p : tracked fs s p ↔ p ∉ dirs s.
Proof.
  unfold tracked. simpl. case_decide; simpl; [naive_solver|].
  destruct (files s !! p); naive_solver.
Qed.

Lemma prefixes_longer p d : p ∈ prefixes d → length p ≤ length d.
Proof. unfold prefixes. rewrite list_elem_of_fmap. intros (n & -> & _). rewrite length_take. lia. Qed.

(** No file is a directory, and no child of [d] is an ancestor of [d]. *)
Lemma not_ancestor (s : state) p d :
  ¬ Exists (λ q, is_Some (files s !! q)) (prefixes d) → p ∉ dirs s →
  is_Some (files s !! p) ∨ uri_parent p = Some d → p ∉ ancestors d ∪ dirs s.
Proof.
  intros Hex Hp Hc [Hin%elem_of_list_to_set|?]%elem_of_union; [|done].
  destruct Hc as [Hf|Hd]; [apply Hex, Exists_exists; eauto|].
  apply prefixes_longer in Hin. unfold uri_parent in Hd. cbn in Hd.
  destruct (is_nil p) eqn:E; [done|]. injection Hd as <-.
  apply is_nil_false, length_pos in E. rewrite init_length in Hin. lia.
Qed.

#[global] Instance laws : FileSystemLaws fs files.
Proof.
  split; intros s; intros; rewrite ?tracked_iff in *; cbn -[uri_parent] in *;
    repeat (case_decide || case_match); simplify_eq/=; auto using not_ancestor.
  - by destruct (files s !! p); simplify_eq/=.
  - by destruct (files s !! p); simplify_eq/=.
Qed.
End MemFs.
