(* ===== verification/PatchReplace.v ===== *)
(** The text half of [apply-patch/src/lib.rs]: where the chunks of an update
    hunk land in a file ([compute_replacements]), the in-place edit
    ([apply_replacements]) and the new contents of the file
    ([derive_new_contents_from_chunks] after the read).  The edit is compared
    with [splice], a left-to-right definition of the same replacement. *)

From Stdlib Require Import Sorted.
From S2P Require Import Prelude Text PatchParser SeekSequence FileSystem.

(** * The code *)

(** [IoError] and [ApplyPatchError] *)
Record IoError := mkIoError { context : str; source : io_error }.

Inductive ApplyPatchError :=
| ParseError_ (e : ParseError)
| IoError_ (e : IoError)
| ComputeReplacements (message : str)
| PathUri_ (e : PathUriParseError)
| ImplicitInvocation.

(** [(start_index, old_len, new_lines)] *)
Record replacement := mkRepl { start_idx : nat; old_len : nat; new_segment : list str }.

Definition last_is_empty (ls : list str) : bool := is_some_and is_nil (last ls).

Definition msg_no_context (ctx_line path : str) : str :=
  lit "Failed to find context '" ++ ctx_line ++ lit "' in " ++ path.
Definition msg_no_lines_found (path : str) (old : list str) : str :=
  lit "Failed to find expected lines in " ++ path ++ lit ":" ++ [nl] ++ join [nl] old.

(** The first step of the loop body: move [line_index] behind the context line. *)
Definition seek_context (ls : list str) (path : str) (line_index : nat) (chunk : UpdateFileChunk) :
    result ApplyPatchError nat :=
  match change_context chunk with
  | None => Ok line_index
  | Some ctx_line =>
      match seek_sequence ls [ctx_line] line_index false with
      | Some idx => Ok (idx + 1)
      | None => Err (ComputeReplacements (msg_no_context ctx_line path))
      end
  end.

(** Where a chunk without old lines goes. *)
Definition insertion_idx (ls : list str) : nat :=
  if last_is_empty ls then length ls - 1 else length ls.

(** The second try, without the trailing empty line of the pattern. *)
Definition without_trailing_empty (ls : list str) : list str :=
  if last_is_empty ls then init ls else ls.

(** The rest of the loop body: the region of [chunk], and the next [line_index]. *)
Definition locate (ls : list str) (path : str) (line_index : nat) (chunk : UpdateFileChunk) :
    result ApplyPatchError (nat * replacement) :=
  if is_nil (old_lines chunk) then
    Ok (line_index, mkRepl (insertion_idx ls) 0 (new_lines chunk))
  else
    let pattern := old_lines chunk in
    let found := seek_sequence ls pattern line_index (is_end_of_file chunk) in
    let '(pattern, new_slice, found) :=
      if bool_decide (found = None) && last_is_empty pattern then
        let pattern := init pattern in
        (pattern, without_trailing_empty (new_lines chunk),
         seek_sequence ls pattern line_index (is_end_of_file chunk))
      else (pattern, new_lines chunk, found) in
    match found with
    | Some start => Ok (start + length pattern, mkRepl start (length pattern) new_slice)
    | None => Err (ComputeReplacements (msg_no_lines_found path (old_lines chunk)))
    end.

Definition place_chunk (ls : list str) (path : str) (line_index : nat) (chunk : UpdateFileChunk) :
    result ApplyPatchError (nat * replacement) :=
  let? line_index := seek_context ls path line_index chunk in
  locate ls path line_index chunk.

(** The loop over the chunks; each pushes one replacement. *)
Fixpoint place_chunks (ls : list str) (path : str) (line_index : nat)
    (chunks : list UpdateFileChunk) : result ApplyPatchError (list replacement) :=
  match chunks with
  | [] => Ok []
  | chunk :: chunks =>
      let? (line_index, r) := place_chunk ls path line_index chunk in
      let? rs := place_chunks ls path line_index chunks in
      Ok (r :: rs)
  end.

(** [sort_by_key(|(index, _, _)| *index)]: the standard library's sort is stable. *)
Fixpoint insert_by_index (r : replacement) (rs : list replacement) : list replacement :=
  match rs with
  | [] => [r]
  | r' :: rs' =>
      if decide (start_idx r ≤ start_idx r') then r :: rs else r' :: insert_by_index r rs'
  end.
Definition sort_by_index (rs : list replacement) : list replacement := foldr insert_by_index [] rs.

Definition compute_replacements (ls : list str) (path : str) (chunks : list UpdateFileChunk) :
    result ApplyPatchError (list replacement) :=
  let? rs := place_chunks ls path 0 chunks in Ok (sort_by_index rs).

(** [Vec::remove] in range, guarded by the code. *)
Fixpoint remove_lines (i n : nat) (ls : list str) : list str :=
  match n with
  | O => ls
  | S n => remove_lines i n (if decide (i < length ls) then delete i ls else ls)
  end.

Fixpoint insert_lines (i : nat) (new : list str) (ls : list str) : option (list str) :=
  match new with
  | [] => Some ls
  | l :: new => vec_insert i l ls ≫= insert_lines (S i) new
  end.

Definition apply_replacement (r : replacement) (ls : list str) : option (list str) :=
  insert_lines (start_idx r) (new_segment r) (remove_lines (start_idx r) (old_len r) ls).

(** The loop over the replacements in reverse; [None] is a panic. *)
Fixpoint apply_replacements (ls : list str) (rs : list replacement) : option (list str) :=
  match rs with
  | [] => Some ls
  | r :: rs => apply_replacements ls rs ≫= apply_replacement r
  end.

(** The lines of a file, without the empty piece behind its final newline. *)
Definition original_lines (contents : str) : list str :=
  without_trailing_empty (split_on nl contents).

Definition contents_of_lines (ls : list str) : str :=
  join [nl] (if last_is_empty ls then ls else ls ++ [[]]).

(** [derive_new_contents_from_chunks] on the text that was read; [Ok None] is a panic. *)
Definition derive_new_contents (contents path_text : str) (chunks : list UpdateFileChunk) :
    result ApplyPatchError (option str) :=
  let ls := original_lines contents in
  let? rs := compute_replacements ls path_text chunks in
  Ok (contents_of_lines <$> apply_replacements ls rs).

(** * The edit *)

(** Left to right: copy up to the region, put the new lines, skip the old ones. *)
Fixpoint splice (pos : nat) (ls : list str) (rs : list replacement) : list str :=
  match rs with
  | [] => ls
  | r :: rs =>
      take (start_idx r - pos) ls ++ new_segment r
      ++ splice (start_idx r + old_len r) (drop (start_idx r - pos + old_len r) ls) rs
  end.

Definition end_idx (r : replacement) : nat := start_idx r + old_len r.

(** [r] ends before [r'] starts. *)
Definition before (r r' : replacement) : Prop := end_idx r ≤ start_idx r'.

(** The regions follow each other from [pos] on and lie in a file of [n] lines. *)
Fixpoint in_order (pos n : nat) (rs : list replacement) : Prop :=
  match rs with
  | [] => pos ≤ n
  | r :: rs => pos ≤ start_idx r ∧ in_order (end_idx r) n rs
  end.

Lemma remove_lines_spec i n ls : remove_lines i n ls = take i ls ++ drop (i + n) ls.
Proof.
  revert ls. induction n as [|n IH]; intros ls; simpl.
  { by rewrite Nat.add_0_r, take_drop. }
  rewrite IH. case_decide.
  - rewrite (delete_take_drop ls), take_app_le, take_take by (rewrite length_take; lia).
    rewrite Nat.min_id. f_equal.
    rewrite drop_app_ge, drop_drop by (rewrite length_take; lia).
    rewrite length_take. f_equal. lia.
  - rewrite !drop_ge by lia. done.
Qed.

Lemma insert_lines_spec i new ls :
  i ≤ length ls → insert_lines i new ls = Some (take i ls ++ new ++ drop i ls).
Proof.
  revert i ls. induction new as [|l new IH]; intros i ls Hi; simpl.
  { by rewrite take_drop. }
  unfold vec_insert. rewrite decide_True by done. simpl.
  assert (length (take i ls) = i) as Hl by (rewrite length_take; lia).
  rewrite IH by (rewrite length_app, length_take; simpl; rewrite length_drop; lia). f_equal.
  replace (take i ls ++ l :: drop i ls) with ((take i ls ++ [l]) ++ drop i ls)
    by by rewrite <- app_assoc.
  replace (S i) with (length (take i ls ++ [l])) by (rewrite length_app, Hl; simpl; lia).
  by rewrite take_app_length, drop_app_length, <- !app_assoc.
Qed.

Lemma apply_replacement_spec r ls :
  start_idx r ≤ length ls →
  apply_replacement r ls = Some (take (start_idx r) ls ++ new_segment r ++ drop (end_idx r) ls).
Proof.
  intros Hs. unfold apply_replacement. rewrite remove_lines_spec.
  assert (length (take (start_idx r) ls) = start_idx r) as Hl by (rewrite length_take; lia).
  rewrite insert_lines_spec by (rewrite length_app, Hl; lia). f_equal.
  rewrite take_app_le, take_take, Nat.min_id by lia. do 2 f_equal.
  rewrite drop_app_ge, Hl, Nat.sub_diag by lia. done.
Qed.

Lemma in_order_pos pos n rs : in_order pos n rs → pos ≤ n.
Proof.
  revert pos. induction rs as [|r rs IH]; intros pos; simpl; [done|].
  intros [? H%IH]. unfold end_idx in *. lia.
Qed.

Lemma splice_skip pos q ls rs n :
  pos ≤ q → in_order q n rs → length ls = n - pos →
  splice pos ls rs = take (q - pos) ls ++ splice q (drop (q - pos) ls) rs.
Proof.
  intros Hp Ho Hl. destruct rs as [|r rs]; simpl in *; [by rewrite take_drop|].
  destruct Ho as [Hq Ho]. rewrite (app_assoc (take (q - pos) ls)). f_equal; [|f_equal].
  - replace (start_idx r - pos) with ((q - pos) + (start_idx r - q)) by lia.
    by rewrite take_take_drop.
  - rewrite drop_drop. do 2 f_equal. lia.
Qed.

Lemma splice_prefix pos ls rs n :
  in_order pos n rs → length ls = n →
  take pos ls ++ splice pos (drop pos ls) rs = splice 0 ls rs.
Proof.
  intros Ho Hl. rewrite (splice_skip 0 pos ls rs n), Nat.sub_0_r by (done || lia). done.
Qed.

Lemma apply_replacements_in_order pos n rs ls :
  in_order pos n rs → length ls = n →
  apply_replacements ls rs = Some (take pos ls ++ splice pos (drop pos ls) rs).
Proof.
  intros Ho Hl. revert pos Ho. induction rs as [|r rs IH]; intros pos; simpl.
  { intros _. by rewrite take_drop. }
  intros [Hp Ho]. rewrite (IH _ Ho). simpl. pose proof (in_order_pos _ _ _ Ho) as He.
  unfold end_idx in *.
  assert (length (take (start_idx r + old_len r) ls) = start_idx r + old_len r) as Ht
    by (rewrite length_take; lia).
  rewrite apply_replacement_spec by (rewrite length_app; lia). unfold end_idx. f_equal.
  rewrite take_app_le, take_take, Nat.min_l by lia.
  rewrite drop_app_ge, Ht, Nat.sub_diag, drop_0 by lia.
  rewrite drop_drop. replace (pos + (start_idx r - pos + old_len r)) with (start_idx r + old_len r) by lia.
  rewrite (app_assoc (take pos ls)), take_take_drop. do 2 f_equal. lia.
Qed.

(** * The order of the replacements *)

(** Neither region reaches into the other, and [r'] may come first only if it starts first. *)
Definition disjoint_regions (r r' : replacement) : Prop :=
  before r r' ∨ (before r' r ∧ start_idx r' < start_idx r).

Lemma insert_by_index_perm r rs : insert_by_index r rs ≡ₚ r :: rs.
Proof.
  induction rs as [|r' rs IH]; simpl; [done|]. case_decide; [done|].
  rewrite IH. constructor.
Qed.

Lemma sort_by_index_perm rs : sort_by_index rs ≡ₚ rs.
Proof. induction rs as [|r rs IH]; simpl; [done|]. by rewrite insert_by_index_perm, IH. Qed.

Lemma insert_by_index_sorted r rs :
  StronglySorted before rs → Forall (disjoint_regions r) rs →
  StronglySorted before (insert_by_index r rs).
Proof.
  unfold disjoint_regions, before, end_idx.
  induction 1 as [|r' rs Hs IH Hall]; simpl; [repeat constructor|].
  intros [Hr' Hrs]%Forall_cons. case_decide.
  - constructor; [by constructor|]. constructor; [lia|]. rewrite Forall_forall in *.
    intros x Hx. specialize (Hall x Hx). specialize (Hrs x Hx). simpl in *. lia.
  - constructor; [by apply IH|]. apply Forall_forall. intros x.
    rewrite insert_by_index_perm, elem_of_cons. intros [->|Hx]; [lia|].
    by eapply Forall_forall in Hall.
Qed.

Lemma sort_by_index_before rs :
  ForallOrdPairs disjoint_regions rs → StronglySorted before (sort_by_index rs).
Proof.
  induction 1 as [|r rs Hr _ IH]; simpl; [constructor|].
  apply insert_by_index_sorted; [done|]. by rewrite sort_by_index_perm.
Qed.

Definition by_index (r r' : replacement) : Prop := start_idx r ≤ start_idx r'.

(** Without any assumption the result is sorted by index. *)
Lemma sort_by_index_sorted rs : StronglySorted by_index (sort_by_index rs).
Proof.
  induction rs as [|r rs IH]; simpl; [constructor|]. revert IH.
  generalize (sort_by_index rs). unfold by_index.
  induction 1 as [|r' rs' Hs IH Hall]; simpl; [repeat constructor|]. case_decide.
  - constructor; [by constructor|]. constructor; [lia|].
    eapply Forall_impl; [done|]. simpl. lia.
  - constructor; [done|]. rewrite insert_by_index_perm. constructor; [lia|done].
Qed.

Definition in_file (n : nat) (r : replacement) : Prop := end_idx r ≤ n.

Lemma in_order_of_sorted n rs :
  StronglySorted before rs → Forall (in_file n) rs → in_order 0 n rs.
Proof.
  intros Hs Hf. assert (Forall (λ r, 0 ≤ start_idx r) rs) as H0 by (apply Forall_true; lia).
  assert (0 ≤ n) as Hn by lia. revert H0 Hn. generalize 0.
  induction Hs as [|r rs Hs IH Hall]; intros pos H0 Hn; simpl; [done|].
  apply Forall_cons in Hf as [Hr Hf]. apply Forall_cons in H0 as [H0 _].
  split; [done|]. apply IH; done.
Qed.

(** An in-file replacement sorted by index never panics, overlapping or not. *)
Lemma apply_replacements_total ls rs :
  StronglySorted by_index rs → Forall (in_file (length ls)) rs →
  ∃ out, apply_replacements ls rs = Some out
         ∧ match rs with [] => out = ls | r :: _ => start_idx r ≤ length out end.
Proof.
  induction 1 as [|r rs Hs IH Hall]; intros Hf; simpl; [eauto|].
  apply Forall_cons in Hf as [Hr Hf]. destruct (IH Hf) as (out & -> & Hout). simpl.
  assert (start_idx r ≤ length out) as Hlen.
  { destruct rs as [|r' rs]; [subst out; unfold in_file, end_idx in Hr; lia|].
    apply Forall_cons in Hall as [Hb _]. unfold by_index in Hb. lia. }
  rewrite apply_replacement_spec by done. eexists. split; [done|].
  rewrite length_app, length_take. lia.
Qed.

(** * Where the chunks land *)

(** The pairs of pattern and new lines the code may use for a chunk. *)
Definition pattern_of (chunk : UpdateFileChunk) (pattern new : list str) : Prop :=
  (pattern = old_lines chunk ∧ new = new_lines chunk)
  ∨ (old_lines chunk = pattern ++ [[]] ∧ new = without_trailing_empty (new_lines chunk)).

(** [r] replaces lines of the file that match the chunk, or adds lines at its end. *)
Definition replaces (ls : list str) (chunk : UpdateFileChunk) (r : replacement) : Prop :=
  (old_lines chunk = [] ∧ r = mkRepl (insertion_idx ls) 0 (new_lines chunk))
  ∨ (old_lines chunk ≠ [] ∧ ∃ pattern, pattern_of chunk pattern (new_segment r)
       ∧ old_len r = length pattern ∧ match_at normalise ls pattern (start_idx r)).

Lemma insertion_idx_le ls : insertion_idx ls ≤ length ls.
Proof. unfold insertion_idx. case_match; lia. Qed.

Lemma last_is_empty_true ls : last_is_empty ls = true ↔ last ls = Some [].
Proof.
  unfold last_is_empty. destruct (last ls) as [l|]; [|done]. simpl. rewrite is_nil_true. naive_solver.
Qed.

Lemma seek_context_bounds ls path i chunk j :
  i ≤ length ls → seek_context ls path i chunk = Ok j → i ≤ j ≤ length ls.
Proof.
  unfold seek_context. intros Hi. destruct (change_context chunk) as [c|]; [|intros [= <-]; lia].
  destruct (seek_sequence _ _ _ _) as [idx|] eqn:E; [|done]. intros [= <-].
  apply seek_sequence_found in E as (? & ? & _); [|done]. simpl in *. lia.
Qed.

(** A position found for a pattern, the empty one included. *)
Lemma seek_region ls pattern i eof start :
  i ≤ length ls → seek_sequence ls pattern i eof = Some start →
  (eof = false → i ≤ start) ∧ start + length pattern ≤ length ls
  ∧ match_at normalise ls pattern start.
Proof.
  intros Hi Hs. destruct (decide (pattern = [])) as [->|Hne].
  - injection Hs as <-. split_and!; [lia|simpl; lia|done].
  - apply seek_sequence_found in Hs as (Hf & ? & ?); [|done]. split_and!; [|done..].
    by intros ->.
Qed.

Lemma locate_spec ls path i chunk j r :
  i ≤ length ls → locate ls path i chunk = Ok (j, r) →
  replaces ls chunk r ∧ in_file (length ls) r ∧ j ≤ length ls
  ∧ ((old_lines chunk = [] ∧ j = i)
     ∨ (old_lines chunk ≠ [] ∧ j = end_idx r ∧ (is_end_of_file chunk = false → i ≤ start_idx r))).
Proof.
  unfold locate, replaces, in_file, end_idx. intros Hi.
  destruct (is_nil (old_lines chunk)) eqn:Hn.
  { apply is_nil_true in Hn. intros [= <- <-]. simpl. pose proof (insertion_idx_le ls).
    split_and!; auto; lia. }
  apply is_nil_false in Hn.
  destruct (bool_decide _ && _) eqn:Eb.
  - apply andb_true_iff in Eb as [_ Hl%last_is_empty_true].
    destruct (seek_sequence _ (init _) _ _) as [start|] eqn:E; [|done]. intros [= <- <-].
    apply seek_region in E as (? & ? & ?); [|done]. simpl.
    split_and!; [|done..|auto]. right. split; [done|]. exists (init (old_lines chunk)).
    split_and!; [|done..]. right. split; [by apply last_init|done].
  - destruct (seek_sequence _ _ _ _) as [start|] eqn:E; [|done]. intros [= <- <-].
    apply seek_region in E as (? & ? & ?); [|done]. simpl.
    split_and!; [|done..|auto]. right. split; [done|]. exists (old_lines chunk).
    split_and!; [|done..]. by left.
Qed.

Lemma place_chunk_spec ls path i chunk j r :
  i ≤ length ls → place_chunk ls path i chunk = Ok (j, r) →
  replaces ls chunk r ∧ in_file (length ls) r ∧ j ≤ length ls
  ∧ ((old_lines chunk = [] ∧ i ≤ j)
     ∨ (old_lines chunk ≠ [] ∧ j = end_idx r ∧ (is_end_of_file chunk = false → i ≤ start_idx r))).
Proof.
  unfold place_chunk. intros Hi. destruct (seek_context _ _ _ _) as [i'|] eqn:E; [|done].
  apply seek_context_bounds in E as [? ?]; [|done].
  intros (? & ? & ? & Hj)%locate_spec; [|done]. split_and!; [done..|].
  destruct Hj as [[? ->]|(? & ? & Hs)]; [left; split; [done|lia]|right].
  split_and!; [done..|]. intros ?%Hs. lia.
Qed.

(** Chunks whose regions cannot collide: none is pinned to the end of the file,
    and added lines are not put before a trailing blank line. *)
Definition plain_chunk (ls : list str) (chunk : UpdateFileChunk) : Prop :=
  is_end_of_file chunk = false ∧ (old_lines chunk = [] → last_is_empty ls = false).

Lemma place_chunks_spec ls path i chunks rs :
  i ≤ length ls → place_chunks ls path i chunks = Ok rs →
  Forall2 (replaces ls) chunks rs ∧ Forall (in_file (length ls)) rs.
Proof.
  revert i rs. induction chunks as [|chunk chunks IH]; intros i rs Hi; simpl.
  { intros [= <-]. auto. }
  destruct (place_chunk _ _ _ _) as [[j r]|] eqn:E; [|done].
  apply place_chunk_spec in E as (? & ? & ? & _); [|done].
  destruct (place_chunks _ _ j _) as [rs'|] eqn:E'; [|done]. intros [= <-].
  apply IH in E' as [? ?]; [|done]. auto.
Qed.

(** Every later replacement of plain chunks starts at or after [i], or adds lines at the end. *)
Lemma place_chunks_later ls path i chunks rs :
  i ≤ length ls → Forall (plain_chunk ls) chunks → place_chunks ls path i chunks = Ok rs →
  Forall (λ r, i ≤ start_idx r) rs ∧ ForallOrdPairs disjoint_regions rs.
Proof.
  intros Hi Hp. revert i rs Hi. induction Hp as [|chunk chunks [Heof Hadd] Hp IH]; intros i rs Hi; simpl.
  { intros [= <-]. split; constructor. }
  destruct (place_chunk _ _ _ _) as [[j r]|] eqn:E; [|done].
  apply place_chunk_spec in E as (Hr & Hin & Hj & Hcase); [|done].
  destruct (place_chunks _ _ j _) as [rs'|] eqn:E'; [|done]. intros [= <-].
  destruct (place_chunks_spec _ _ _ _ _ Hj E') as [_ Hf].
  apply IH in E' as [Hlater Hord]; [|done].
  unfold in_file, end_idx in *. destruct Hcase as [[Hold Hij]|(Hold & -> & Hi')].
  - destruct Hr as [[_ ->]|[? _]]; [|done]. unfold insertion_idx in *.
    rewrite Hadd in * by done. simpl in *. split.
    + constructor; [simpl; lia|]. apply (Forall_impl _ _ _ Hlater). simpl. lia.
    + constructor; [|done]. rewrite Forall_forall in *. intros x Hx.
      specialize (Hf x Hx). unfold disjoint_regions, before, end_idx in *. simpl in *. lia.
  - specialize (Hi' Heof). split.
    + constructor; [done|]. apply (Forall_impl _ _ _ Hlater). simpl. lia.
    + constructor; [|done]. apply (Forall_impl _ _ _ Hlater). simpl. intros x ?.
      left. unfold before, end_idx. lia.
Qed.

Lemma compute_replacements_spec ls path chunks rs :
  compute_replacements ls path chunks = Ok rs →
  ∃ placed, rs = sort_by_index placed ∧ Forall2 (replaces ls) chunks placed
    ∧ Forall (in_file (length ls)) rs
    ∧ (Forall (plain_chunk ls) chunks → in_order 0 (length ls) rs).
Proof.
  unfold compute_replacements. destruct (place_chunks _ _ _ _) as [placed|] eqn:E; [|done].
  intros [= <-]. exists placed. destruct (place_chunks_spec _ _ 0 _ _ ltac:(lia) E) as [? Hf].
  assert (Forall (in_file (length ls)) (sort_by_index placed)) by by rewrite sort_by_index_perm.
  split_and!; [done..|]. intros Hp. apply in_order_of_sorted; [|done].
  apply sort_by_index_before. eapply place_chunks_later; [|done..]. lia.
Qed.

(** * The text of the file *)

Lemma contents_of_lines_newline ls :
  contents_of_lines ls = [] ∨ last (contents_of_lines ls) = Some nl.
Proof.
  assert (∀ l, join [nl] (l ++ [[]]) = [] ∨ last (join [nl] (l ++ [[]])) = Some nl) as H.
  { intros [|x l]; [by left|]. right.
    rewrite join_snoc, app_nil_r by done. by rewrite last_snoc. }
  unfold contents_of_lines. destruct (last_is_empty ls) eqn:E; [|apply H].
  apply last_is_empty_true, last_init in E. rewrite E. apply H.
Qed.

Lemma derive_new_contents_Ok contents path chunks o :
  derive_new_contents contents path chunks = Ok o →
  ∃ rs, compute_replacements (original_lines contents) path chunks = Ok rs
        ∧ o = contents_of_lines <$> apply_replacements (original_lines contents) rs.
Proof.
  unfold derive_new_contents. destruct (compute_replacements _ _ _); [|done]. naive_solver.
Qed.

Lemma derive_new_contents_Some contents path chunks o :
  derive_new_contents contents path chunks = Ok o → is_Some o.
Proof.
  intros (rs & Hc & ->)%derive_new_contents_Ok.
  apply compute_replacements_spec in Hc as Hs. destruct Hs as (placed & -> & _ & Hf & _).
  destruct (apply_replacements_total _ _ (sort_by_index_sorted placed) Hf) as (out & -> & _).
  by eexists.
Qed.

(** * Properties *)

(** Updating a file never panics: whatever the chunks are, and even when
    their regions overlap, [Vec::insert] is only called with an index inside
    the vector. *)
Theorem derive_new_contents_no_panic contents path chunks :
  derive_new_contents contents path chunks ≠ Ok None.
Proof. intros []%derive_new_contents_Some. done. Qed.

(** C5: when no chunk is pinned to the end of the file and no lines are added
    before a trailing blank line, an update is the simultaneous replacement
    of the chunks' regions: there is one region per chunk, its lines match the
    chunk's old lines up to white space and punctuation (a chunk without old
    lines adds at the end; a last old line that is empty may be left out, with
    an empty last new line), the regions are in order and do not overlap, and
    the new text is the old one with every region exchanged for the new lines. *)
Theorem update_is_splice contents path chunks new :
  Forall (plain_chunk (original_lines contents)) chunks →
  derive_new_contents contents path chunks = Ok (Some new) →
  let ls := original_lines contents in
  ∃ placed, Forall2 (replaces ls) chunks placed
    ∧ in_order 0 (length ls) (sort_by_index placed)
    ∧ new = contents_of_lines (splice 0 ls (sort_by_index placed)).
Proof.
  intros Hp (rs & Hc & Hn)%derive_new_contents_Ok ls.
  apply compute_replacements_spec in Hc as (placed & -> & Hr & _ & Ho).
  specialize (Ho Hp). exists placed. split_and!; [done..|].
  rewrite (apply_replacements_in_order 0 (length ls)) in Hn by done. simpl in Hn. by simplify_eq.
Qed.

Lemma update_is_splice_witness :
  let contents := join [nl] [lit "fn a() {"; lit "  one"; lit "}"; lit "two"; []] in
  let chunks := [mkChunk (Some (lit "fn a() {")) [lit "one"] [lit "  1"; lit "  1.5"] false;
                 mkChunk None [] [lit "end"] false;
                 mkChunk None [lit "two"; []] [lit "2"; []] false] in
  let new := join [nl] [lit "fn a() {"; lit "  1"; lit "  1.5"; lit "}"; lit "2"; lit "end"; []] in
  derive_new_contents contents (lit "/f") chunks = Ok (Some new)
  ∧ ∃ placed, Forall2 (replaces (original_lines contents)) chunks placed
      ∧ in_order 0 (length (original_lines contents)) (sort_by_index placed)
      ∧ new = contents_of_lines (splice 0 (original_lines contents) (sort_by_index placed)).
Proof.
  intros contents chunks new.
  assert (derive_new_contents contents (lit "/f") chunks = Ok (Some new)) as H
    by (vm_compute; reflexivity).
  split; [exact H|]. apply (update_is_splice contents (lit "/f")); [|exact H].
  repeat constructor.
Defined.

(** The new contents of a file that is not emptied end with a newline. *)
Theorem update_ends_with_newline contents path chunks new :
  derive_new_contents contents path chunks = Ok (Some new) → new = [] ∨ last new = Some nl.
Proof.
  intros (rs & _ & Hn)%derive_new_contents_Ok.
  destruct (apply_replacements _ _) as [out|]; [|done]. simpl in Hn. simplify_eq.
  apply contents_of_lines_newline.
Qed.

Lemma update_ends_with_newline_witness :
  let new := lit "b" ++ [nl] in
  derive_new_contents (lit "a") (lit "/f") [mkChunk None [lit "a"] [lit "b"] false] = Ok (Some new)
  ∧ (new = [] ∨ last new = Some nl).
Proof.
  intros new.
  assert (derive_new_contents (lit "a") (lit "/f") [mkChunk None [lit "a"] [lit "b"] false]
          = Ok (Some new)) as H by (vm_compute; reflexivity).
  split; [exact H|]. exact (update_ends_with_newline _ _ _ _ H).
Defined.

(** The untouched text of a file is kept: for a file that ends with one
    newline, the lines the edit works on give back exactly the file. *)
Theorem untouched_text_roundtrip text c :
  last text = Some c → c ≠ nl →
  original_lines (text ++ [nl]) = split_on nl text
  ∧ contents_of_lines (original_lines (text ++ [nl])) = text ++ [nl].
Proof.
  intros Hl Hc.
  assert (original_lines (text ++ [nl]) = split_on nl text) as ->.
  { unfold original_lines, without_trailing_empty. rewrite split_on_snoc.
    rewrite (proj2 (last_is_empty_true _)) by by rewrite last_snoc. apply init_snoc. }
  split; [done|]. unfold contents_of_lines. destruct (last_is_empty (split_on nl text)) eqn:E.
  - apply last_is_empty_true, split_on_last_empty in E as [->|E]; [done|]. congruence.
  - rewrite join_snoc, join_split, app_nil_r by apply split_on_nonempty. done.
Qed.

Lemma untouched_text_roundtrip_witness :
  original_lines (lit "ab" ++ [nl]) = split_on nl (lit "ab")
  ∧ contents_of_lines (original_lines (lit "ab" ++ [nl])) = lit "ab" ++ [nl].
Proof. apply (untouched_text_roundtrip (lit "ab") 98%N); [reflexivity|discriminate]. Defined.

(** * Collisions *)

(** A file that ends with a blank line loses it when any other line is changed:
    the last empty line is taken for the mark of a final newline. *)
Example update_drops_trailing_blank_line :
  derive_new_contents (join [nl] [lit "a"; lit "b"; []; []]) (lit "/f")
    [mkChunk None [lit "a"] [lit "c"] false]
  = Ok (Some (join [nl] [lit "c"; lit "b"; []])).
Proof. vm_compute. reflexivity. Qed.

(** Lines added to such a file are lost when another chunk covers the blank line:
    the added line [c] is not in the result. *)
Example added_lines_lost :
  derive_new_contents (join [nl] [lit "a"; []; []]) (lit "/f")
    [mkChunk None [lit "a"; []] [lit "b"; []] false; mkChunk None [] [lit "c"] false]
  = Ok (Some (join [nl] [lit "b"; []; []])).
Proof. vm_compute. reflexivity. Qed.

(** A chunk pinned to the end of the file may cover lines an earlier chunk has
    replaced; the result then holds the new lines of both chunks for one region. *)
Example end_of_file_chunk_overlaps :
  derive_new_contents (join [nl] [lit "a"; lit "b"; []]) (lit "/f")
    [mkChunk None [lit "a"; lit "b"] [lit "x"] false; mkChunk None [lit "b"] [lit "y"; lit "z"] true]
  = Ok (Some (join [nl] [lit "x"; lit "z"; []])).
Proof. vm_compute. reflexivity. Qed.
