(* ===== verification/PatchApply.v ===== *)
(** [apply-patch/src/lib.rs]: applying hunks to a file system, with the record
    of what was committed ([AppliedPatchDelta]) and the output on the two
    writers.  Errors keep the state reached, as the code's early returns do.
    The abstract specification is [spec_hunks], a function on the map from
    URIs to file contents; the theorems relate the two, and say that a delta
    marked exact is a complete record, on success and on failure alike. *)

From stdpp Require Import pretty.
From S2P Require Import Prelude Text Utf8 PatchParser SeekSequence FileSystem PatchReplace.

(** * Data *)

(** [AppliedPatchFileChange] *)
Module Change.
Inductive t (U : Type) :=
| Add (content : str) (overwritten_content : option str)
| Delete (content : str)
| Update (move_path : option U) (old_content : str) (overwritten_move_content : option str)
    (new_content : str).
Arguments Add {U}.
Arguments Delete {U}.
Arguments Update {U}.
End Change.

(** [AppliedPatchChange] *)
Record AppliedPatchChange (U : Type) := mkChange { path : U; change : Change.t U }.
Arguments mkChange {U}.
Arguments path {U}.
Arguments change {U}.

(** [AppliedPatchDelta] *)
Record AppliedPatchDelta (U : Type) := mkDelta {
  changes : list (AppliedPatchChange U);
  exact : bool
}.
Arguments mkDelta {U}.
Arguments changes {U}.
Arguments exact {U}.

Definition delta_empty {U} : AppliedPatchDelta U := mkDelta [] true.

(** [AppliedPatchDelta::append] *)
Definition delta_append {U} (d other : AppliedPatchDelta U) : AppliedPatchDelta U :=
  mkDelta (changes d ++ changes other) (exact d && exact other).

(** [ApplyPatchFailure] *)
Record ApplyPatchFailure (U : Type) := mkFailure {
  error : ApplyPatchError;
  failure_delta : AppliedPatchDelta U
}.
Arguments mkFailure {U}.
Arguments error {U}.
Arguments failure_delta {U}.

Definition without_delta {U} (e : ApplyPatchError) : ApplyPatchFailure U := mkFailure e delta_empty.

(** [AffectedPaths] *)
Record AffectedPaths := mkAffected { added : list str; modified : list str; deleted : list str }.

Definition push_added (p : str) (a : AffectedPaths) : AffectedPaths :=
  mkAffected (added a ++ [p]) (modified a) (deleted a).
Definition push_modified (p : str) (a : AffectedPaths) : AffectedPaths :=
  mkAffected (added a) (modified a ++ [p]) (deleted a).
Definition push_deleted (p : str) (a : AffectedPaths) : AffectedPaths :=
  mkAffected (added a) (modified a) (deleted a ++ [p]).

(** [AppliedPatch] *)
Record AppliedPatch := mkApplied { original_contents : str; new_contents : str }.

(** The errors an [anyhow::Error] carries here: a message, an I/O error with the
    context attached to it, the two error types of the crate; and a panic. *)
Inductive anyhow :=
| Message (m : str)
| Io (context : option str) (e : io_error)
| Apply (e : ApplyPatchError)
| Uri (e : PathUriParseError)
| Panicked.

(** [std::io::Write] *)
Class Write (W : Type) := write_str : W → str → W * result io_error ().

Definition writeln {W} `{Write W} (w : W) (line : str) : W * result io_error () :=
  write_str w (line ++ [nl]).

(** * The code *)

Section apply.
Context {U S : Type} `{Countable U} `{!PathUri U} (fs : ExecutorFileSystem U S).

(** [Hunk::resolve_path] *)
Definition resolve_path (hunk : Hunk) (cwd : U) : result PathUriParseError U :=
  let path :=
    match hunk with
    | UpdateFile path _ _ => path
    | AddFile _ _ | DeleteFile _ => hunk_path hunk
    end in
  uri_join cwd path.

Definition parse_error_text (e : ParseError) : str :=
  match e with
  | InvalidPatchError m => lit "invalid patch: " ++ m
  | InvalidHunkError m n =>
      lit "invalid hunk at line " ++ lit (pretty (N.of_nat n)) ++ lit ", " ++ m
  end.

(** [Display for ApplyPatchError] *)
Definition apply_error_text (e : ApplyPatchError) : str :=
  match e with
  | ParseError_ e => parse_error_text e
  | IoError_ e => context e ++ lit ": " ++ io_message (source e)
  | ComputeReplacements m => m
  | PathUri_ e => uri_error_text e
  | ImplicitInvocation =>
      lit "patch detected without explicit call to apply_patch. Rerun as ["
      ++ [34%N] ++ lit "apply_patch" ++ [34%N] ++ lit ", " ++ [34%N] ++ lit "<patch>" ++ [34%N]
      ++ lit "]"
  end.

(** [error.to_string()]: the outermost context, or the error itself. *)
Definition anyhow_text (e : anyhow) : str :=
  match e with
  | Message m => m
  | Io (Some c) _ => c
  | Io None e => io_message e
  | Apply e => apply_error_text e
  | Uri e => uri_error_text e
  | Panicked => []
  end.

(** [error.downcast_ref::<io::Error>()]: contexts are transparent to it. *)
Definition downcast_io (e : anyhow) : option io_error :=
  match e with Io _ e => Some e | _ => None end.

(** [.with_context(|| format!("{what} {}", path.inferred_native_path_string()))] *)
Definition with_context (what : str) (p : U) (r : result io_error ()) : result anyhow () :=
  result_map_err (Io (Some (what ++ lit " " ++ inferred_native_path_string p))) r.

Definition ensure_not_directory (s : S) (p : U) : result io_error () :=
  let? metadata := get_metadata fs s p in
  if is_directory metadata then Err (mkIo InvalidInput (lit "path is a directory")) else Ok tt.

Definition remove_failure_was_side_effect_free (s : S) (p : U) (expected : option str) : bool :=
  match expected with
  | Some expected =>
      match read_file_text fs s p with
      | Ok content => bool_decide (content = expected)
      | Err _ => false
      end
  | None => false
  end.

(** The new value of [*exact]. *)
Definition note_existing_path_delta_support (s : S) (p : U) (exact : bool) : bool :=
  match get_metadata fs s p with
  | Ok metadata => if is_file metadata && negb (is_symlink metadata) then exact else false
  | Err source => if decide (kind source = NotFound) then exact else false
  end.

Definition read_optional_file_text_for_delta (s : S) (p : U) (exact : bool) :
    option str * bool :=
  let exact := note_existing_path_delta_support s p exact in
  match read_file_text fs s p with
  | Ok content => (Some content, exact)
  | Err source => if decide (kind source = NotFound) then (None, exact) else (None, false)
  end.

Definition write_file_with_missing_parent_retry (s : S) (p : U) (contents : list N) :
    S * result anyhow () :=
  match write_file fs s p contents with
  | (s, Ok _) => (s, Ok tt)
  | (s, Err err) =>
      if decide (kind err = NotFound) then
        let '(s, made) :=
          match uri_parent p with
          | Some parent =>
              let '(s, r) := create_directory fs s parent (mkCreateDirectoryOptions true) in
              (s, with_context (lit "Failed to create parent directories for") p r)
          | None => (s, Ok tt)
          end in
        match made with
        | Err e => (s, Err e)
        | Ok _ =>
            let '(s, r) := write_file fs s p contents in
            (s, with_context (lit "Failed to write file") p r)
        end
      else (s, with_context (lit "Failed to write file") p (Err err))
  end.

(** [Ok None] stands for a panic. *)
Definition derive_new_contents_from_chunks (s : S) (p : U) (chunks : list UpdateFileChunk) :
    result ApplyPatchError (option AppliedPatch) :=
  let path_text := inferred_native_path_string p in
  match read_file_text fs s p with
  | Err err =>
      Err (IoError_ (mkIoError (lit "Failed to read file to update " ++ path_text) err))
  | Ok original =>
      let? new := derive_new_contents original path_text chunks in
      Ok (mkApplied original <$> new)
  end.

(** The state of the loop: the file system and the delta. *)
Record progress := mkProgress { files : S; delta : AppliedPatchDelta U }.

Definition push_change (c : AppliedPatchChange U) (d : AppliedPatchDelta U) :
    AppliedPatchDelta U := mkDelta (changes d ++ [c]) (exact d).
Definition set_exact (b : bool) (d : AppliedPatchDelta U) : AppliedPatchDelta U :=
  mkDelta (changes d) b.
Definition and_exact (b : bool) (d : AppliedPatchDelta U) : AppliedPatchDelta U :=
  mkDelta (changes d) (exact d && b).

Definition remove_options : RemoveOptions := mkRemoveOptions false false.

(** [ensure_not_directory] and [remove], both with the context [what]; only a
    failed [remove] puts the exactness of the delta in question. *)
Definition checked_remove (what : str) (p : U) (expected : option str) (st : progress) :
    progress * result anyhow () :=
  match with_context what p (ensure_not_directory (files st) p) with
  | Err e => (st, Err e)
  | Ok _ =>
      match remove fs (files st) p remove_options with
      | (s, Ok _) => (mkProgress s (delta st), Ok tt)
      | (s, Err e) =>
          (mkProgress s (and_exact (remove_failure_was_side_effect_free s p expected) (delta st)),
           with_context what p (Err e))
      end
  end.

(** [Hunk::AddFile], and the first half of a move: write [contents] to [p]. *)
Definition apply_add (p : U) (contents : str) (st : progress) :
    progress * result anyhow (option str) :=
  let '(overwritten, ex) :=
    read_optional_file_text_for_delta (files st) p (exact (delta st)) in
  let d := set_exact ex (delta st) in
  match write_file_with_missing_parent_retry (files st) p (into_bytes contents) with
  | (s, Err e) => (mkProgress s (set_exact false d), Err e)
  | (s, Ok _) =>
      (mkProgress s (push_change (mkChange p (Change.Add contents overwritten)) d),
       Ok overwritten)
  end.

(** [Hunk::DeleteFile] *)
Definition apply_delete (p : U) (st : progress) : progress * result anyhow () :=
  let s := files st in
  let ex := note_existing_path_delta_support s p (exact (delta st)) in
  let deleted_content := match read_file_text fs s p with Ok c => Some c | Err _ => None end in
  let ex := match deleted_content with None => false | Some _ => ex end in
  let! st | _ :=
    checked_remove (lit "Failed to delete file") p deleted_content
      (mkProgress s (set_exact ex (delta st))) in
  (match deleted_content with
   | Some content => mkProgress (files st) (push_change (mkChange p (Change.Delete content)) (delta st))
   | None => st
   end, Ok tt).

(** [Hunk::UpdateFile] with a [move_path], after the new contents are known. *)
Definition apply_move (p dest : U) (ap : AppliedPatch) (st : progress) :
    progress * result anyhow () :=
  let dest_write_change_index := length (changes (delta st)) in
  let! st | overwritten := apply_add dest (new_contents ap) st in
  let! st | _ :=
    checked_remove (lit "Failed to remove original") p (Some (original_contents ap)) st in
  (mkProgress (files st)
     (mkDelta
        (<[dest_write_change_index :=
            mkChange p (Change.Update (Some dest) (original_contents ap) overwritten
                          (new_contents ap))]> (changes (delta st)))
        (exact (delta st))), Ok tt).

(** [Hunk::UpdateFile] without a [move_path]. *)
Definition apply_rewrite (p : U) (ap : AppliedPatch) (st : progress) :
    progress * result anyhow () :=
  let '(s, r) := write_file fs (files st) p (into_bytes (new_contents ap)) in
  match with_context (lit "Failed to write file") p r with
  | Err e => (mkProgress s (set_exact false (delta st)), Err e)
  | Ok _ =>
      (mkProgress s
         (push_change
            (mkChange p (Change.Update None (original_contents ap) None (new_contents ap)))
            (delta st)), Ok tt)
  end.

(** [Hunk::UpdateFile] *)
Definition apply_update (cwd p : U) (move_path : option str) (chunks : list UpdateFileChunk)
    (st : progress) : progress * result anyhow () :=
  let ex := note_existing_path_delta_support (files st) p (exact (delta st)) in
  let st := mkProgress (files st) (set_exact ex (delta st)) in
  match derive_new_contents_from_chunks (files st) p chunks with
  | Err e => (st, Err (Apply e))
  | Ok None => (st, Err Panicked)
  | Ok (Some ap) =>
      match move_path with
      | Some dest =>
          match uri_join cwd dest with
          | Err e => (st, Err (Uri e))
          | Ok dest_uri => apply_move p dest_uri ap st
          end
      | None => apply_rewrite p ap st
      end
  end.

(** The body of the loop. *)
Definition apply_hunk (cwd : U) (st : progress) (affected : AffectedPaths) (hunk : Hunk) :
    progress * result anyhow AffectedPaths :=
  let affected_path := hunk_path hunk in
  match resolve_path hunk cwd with
  | Err e => (st, Err (Uri e))
  | Ok path_uri =>
      match hunk with
      | AddFile _ contents =>
          let! st | _ := apply_add path_uri contents st in
          (st, Ok (push_added affected_path affected))
      | DeleteFile _ =>
          let! st | _ := apply_delete path_uri st in
          (st, Ok (push_deleted affected_path affected))
      | UpdateFile _ move_path chunks =>
          let! st | _ := apply_update cwd path_uri move_path chunks st in
          (st, Ok (push_modified affected_path affected))
      end
  end.

Fixpoint apply_hunks_loop (cwd : U) (hunks : list Hunk) (st : progress)
    (affected : AffectedPaths) : progress * result anyhow AffectedPaths :=
  match hunks with
  | [] => (st, Ok affected)
  | hunk :: hunks =>
      let! st | affected := apply_hunk cwd st affected hunk in
      apply_hunks_loop cwd hunks st affected
  end.

Definition apply_hunks_to_files (hunks : list Hunk) (cwd : U) (st : progress) :
    progress * result anyhow AffectedPaths :=
  if is_nil hunks then (st, Err (Message (lit "No files were modified.")))
  else apply_hunks_loop cwd hunks st (mkAffected [] [] []).

(** ** Output *)

Context {W : Type} `{Write W}.

Fixpoint print_paths (tag : str) (paths : list str) (w : W) : W * result io_error () :=
  match paths with
  | [] => (w, Ok tt)
  | p :: paths => let! w | _ := writeln w (tag ++ p) in print_paths tag paths w
  end.

Definition print_summary (affected : AffectedPaths) (w : W) : W * result io_error () :=
  let! w | _ := writeln w (lit "Success. Updated the following files:") in
  let! w | _ := print_paths (lit "A ") (added affected) w in
  let! w | _ := print_paths (lit "M ") (modified affected) w in
  print_paths (lit "D ") (deleted affected) w.

(** [From<io::Error>] and [From<&io::Error>] *)
Definition apply_error_of_io (e : io_error) : ApplyPatchError :=
  IoError_ (mkIoError (lit "I/O error") e).

Record outcome := mkOutcome {
  final_files : S;
  stdout : W;
  stderr : W;
  outcome_result : result (ApplyPatchFailure U) (AppliedPatchDelta U)
}.

Definition apply_hunks (hunks : list Hunk) (cwd : U) (stdout stderr : W) (s : S) : outcome :=
  let '(st, r) := apply_hunks_to_files hunks cwd (mkProgress s delta_empty) in
  let d := delta st in
  match r with
  | Ok affected =>
      let '(stdout, printed) := print_summary affected stdout in
      mkOutcome (files st) stdout stderr
        (match printed with
         | Ok _ => Ok d
         | Err e => Err (mkFailure (apply_error_of_io e) d)
         end)
  | Err e =>
      let msg := anyhow_text e in
      let '(stderr, printed) := writeln stderr msg in
      mkOutcome (files st) stdout stderr
        (match printed with
         | Err e => Err (mkFailure (apply_error_of_io e) d)
         | Ok _ =>
             let error :=
               match downcast_io e with
               | Some io => apply_error_of_io io
               | None => IoError_ (mkIoError msg (mkIo Other msg))
               end in
             Err (mkFailure error d)
         end)
  end.

Definition parse_error_line (e : ParseError) : str :=
  match e with
  | InvalidPatchError message => lit "Invalid patch: " ++ message
  | InvalidHunkError message n =>
      lit "Invalid patch hunk on line " ++ lit (pretty (N.of_nat n)) ++ lit ": " ++ message
  end.

Definition apply_patch (patch : str) (cwd : U) (stdout stderr : W) (s : S) : outcome :=
  match parse_patch patch with
  | Ok args => apply_hunks (args_hunks args) cwd stdout stderr s
  | Err e =>
      let '(stderr, printed) := writeln stderr (parse_error_line e) in
      mkOutcome s stdout stderr
        (Err (without_delta
           (match printed with
            | Err io => apply_error_of_io io
            | Ok _ => ParseError_ e
            end)))
  end.
End apply.
Arguments mkProgress {U S}.
Arguments files {U S}.
Arguments delta {U S}.
Arguments final_files {U S W}.
Arguments stdout {U S W}.
Arguments stderr {U S W}.
Arguments outcome_result {U S W}.

(** * Specification *)

Section spec.
Context {U : Type} `{Countable U} `{!PathUri U}.
Implicit Types (m : gmap U (list N)) (c : AppliedPatchChange U).

(** A hunk as a function on files; [None] where the hunk cannot be applied. *)
Definition spec_hunk (cwd : U) m (h : Hunk) : option (gmap U (list N)) :=
  match resolve_path h cwd with
  | Err _ => None
  | Ok p =>
      match h with
      | AddFile _ contents => Some (<[p := into_bytes contents]> m)
      | DeleteFile _ => m !! p ≫= λ _, Some (delete p m)
      | UpdateFile _ move_path chunks =>
          bytes ← m !! p;
          match from_utf8 bytes with
          | Err _ => None
          | Ok text =>
              match derive_new_contents text (inferred_native_path_string p) chunks with
              | Ok (Some new) =>
                  match move_path with
                  | None => Some (<[p := into_bytes new]> m)
                  | Some dest =>
                      match uri_join cwd dest with
                      | Ok d => Some (delete p (<[d := into_bytes new]> m))
                      | Err _ => None
                      end
                  end
              | _ => None
              end
          end
      end
  end.

Fixpoint spec_hunks (cwd : U) m (hs : list Hunk) : option (gmap U (list N)) :=
  match hs with
  | [] => Some m
  | h :: hs => spec_hunk cwd m h ≫= λ m, spec_hunks cwd m hs
  end.

(** Doing a recorded change again, and undoing it. *)
Definition replay_change m c : gmap U (list N) :=
  match change c with
  | Change.Add content _ => <[path c := into_bytes content]> m
  | Change.Delete _ => delete (path c) m
  | Change.Update None _ _ new => <[path c := into_bytes new]> m
  | Change.Update (Some dest) _ _ new => delete (path c) (<[dest := into_bytes new]> m)
  end.

Definition restore (p : U) (o : option str) m : gmap U (list N) :=
  partial_alter (λ _, into_bytes <$> o) p m.

Definition revert_change c m : gmap U (list N) :=
  match change c with
  | Change.Add _ overwritten => restore (path c) overwritten m
  | Change.Delete content => restore (path c) (Some content) m
  | Change.Update None old _ _ => restore (path c) (Some old) m
  | Change.Update (Some dest) old overwritten _ =>
      restore dest overwritten (restore (path c) (Some old) m)
  end.

Definition replay (cs : list (AppliedPatchChange U)) m := foldl replay_change m cs.
Definition revert (cs : list (AppliedPatchChange U)) m := foldr revert_change m cs.

(** The contents that a change records are those the files have when it is made:
    undoing it gives them back. *)
Definition undone c m : Prop := revert_change c (replay_change m c) = m.
Fixpoint faithful (cs : list (AppliedPatchChange U)) m : Prop :=
  match cs with
  | [] => True
  | c :: cs => undone c m ∧ faithful cs (replay_change m c)
  end.

(** Which summary list a hunk's path belongs to. *)
Definition affected_by (hs : list Hunk) : AffectedPaths :=
  mkAffected
    (omap (λ h, match h with AddFile _ _ => Some (hunk_path h) | _ => None end) hs)
    (omap (λ h, match h with UpdateFile _ _ _ => Some (hunk_path h) | _ => None end) hs)
    (omap (λ h, match h with DeleteFile _ => Some (hunk_path h) | _ => None end) hs).

Lemma restore_same p o m : into_bytes <$> o = m !! p → restore p o m = m.
Proof.
  intros Ho. unfold restore. apply map_eq. intros q. destruct (decide (p = q)) as [->|].
  - by rewrite lookup_partial_alter_eq.
  - by rewrite lookup_partial_alter_ne.
Qed.

(** Restoring forgets what was done to the same path before. *)
Lemma restore_insert p o b m : restore p o (<[p := b]> m) = restore p o m.
Proof. unfold restore. by rewrite partial_alter_insert_eq. Qed.

Lemma restore_delete p o m : restore p o (delete p m) = restore p o m.
Proof. unfold restore. by rewrite partial_alter_delete_eq. Qed.

Lemma restore_restore p o o' m : restore p o (restore p o' m) = restore p o m.
Proof. unfold restore. by rewrite partial_alter_partial_alter_eq. Qed.

Lemma restore_commute p q o o' m :
  p ≠ q → restore p o (restore q o' m) = restore q o' (restore p o m).
Proof. intros. unfold restore. by rewrite partial_alter_partial_alter_ne. Qed.

(** Undoing a move, the source being the destination or not. *)
Lemma revert_move p dest old o b m :
  m !! p = Some (into_bytes old) → into_bytes <$> o = m !! dest →
  restore dest o (restore p (Some old) (delete p (<[dest := b]> m))) = m.
Proof.
  intros Hp Ho. rewrite restore_delete. destruct (decide (dest = p)) as [->|Hne].
  - rewrite restore_insert, restore_restore. by apply restore_same.
  - rewrite restore_commute, restore_insert, (restore_same dest) by done. by apply restore_same.
Qed.

Lemma replay_app cs cs' m : replay (cs ++ cs') m = replay cs' (replay cs m).
Proof. apply foldl_app. Qed.

Lemma faithful_app cs cs' m : faithful (cs ++ cs') m ↔ faithful cs m ∧ faithful cs' (replay cs m).
Proof. revert m. induction cs as [|c cs IH]; intros m; simpl; [tauto|]. rewrite IH. tauto. Qed.

Lemma faithful_reverts cs m : faithful cs m → revert cs (replay cs m) = m.
Proof.
  revert m. induction cs as [|c cs IH]; intros m; [done|]. intros [Hc Hcs]. simpl.
  rewrite IH by done. exact Hc.
Qed.
End spec.

#[export] Hint Rewrite @restore_insert @restore_delete @restore_restore @replay_app : codex.

(** * The operations against the interface *)

Section correctness.
Context {U S : Type} `{Countable U} `{!PathUri U} (fs : ExecutorFileSystem U S)
  (view : S → gmap U (list N)) `{!FileSystemLaws fs view}.
Implicit Types (s : S) (p : U) (st : progress (U := U) (S := S)).

Lemma note_support_true s p b :
  note_existing_path_delta_support fs s p b = true → b = true ∧ tracked fs s p.
Proof.
  unfold note_existing_path_delta_support, tracked.
  destruct (get_metadata fs s p) as [m|e]; [destruct (is_file m), (is_symlink m)|case_decide]; done.
Qed.

Lemma read_text_view s p t :
  read_file_text fs s p = Ok t → view s !! p = Some (into_bytes t).
Proof. intros Hr%read_file_text_ok. by eapply read_ok. Qed.

Lemma read_optional_true s p b o :
  read_optional_file_text_for_delta fs s p b = (o, true) →
  b = true ∧ tracked fs s p ∧ into_bytes <$> o = view s !! p.
Proof.
  unfold read_optional_file_text_for_delta. intros Hr.
  destruct (read_file_text fs s p) as [t|e] eqn:E.
  - injection Hr as <- [-> ?]%note_support_true. by rewrite (read_text_view _ _ _ E).
  - case_decide as Hk; [|done]. injection Hr as <- [-> ?]%note_support_true.
    split_and!; [done..|]. apply read_file_text_not_found in E as (e' & E & Hk'); [|done].
    symmetry. by eapply read_not_found.
Qed.

Lemma with_context_ok what p r : with_context what p r = Ok tt → r = Ok tt.
Proof. destruct r as [[]|]; [done|]. intros [=]. Qed.

(** A successful write, with or without the retry, sets the file; files stay files. *)
Lemma write_retry_ok s s' p b :
  tracked fs s p → write_file_with_missing_parent_retry fs s p b = (s', Ok tt) →
  view s' = <[p := b]> (view s)
  ∧ ∀ q, tracked fs s q → is_Some (view s !! q) → tracked fs s' q.
Proof.
  intros Ht. unfold write_file_with_missing_parent_retry.
  destruct (write_file fs s p b) as [s1 [[]|e]] eqn:Ew.
  { intros [= <-]. split; [by eapply write_ok|]. intros q Hq _. by eapply (write_tracked fs); [exact Ht|..]. }
  case_decide as Hk; [|by intros [=]].
  pose proof (write_not_found fs _ _ _ _ _ Ht Ew Hk) as Hv1.
  assert (∀ q, tracked fs s q → tracked fs s1 q) as Ht1
    by (intros; by eapply (write_tracked fs); [exact Ht|..]).
  destruct (uri_parent p) as [d|] eqn:Ed.
  - destruct (create_directory fs s1 d _) as [s2 r] eqn:Ec.
    pose proof (mkdir_view fs _ _ _ _ _ Ec) as Hv2.
    assert (∀ q, tracked fs s q → is_Some (view s !! q) ∨ uri_parent q = Some d → tracked fs s2 q) as Ht2.
    { intros q Hq Hs. eapply (mkdir_tracked fs); [done|by apply Ht1|]. by rewrite Hv1. }
    destruct (with_context _ _ r) as [[]|]; [|by intros [=]].
    destruct (write_file fs s2 p b) as [s3 r3] eqn:E3. intros [= <- ->%with_context_ok].
    assert (tracked fs s2 p) as Hp2 by auto. split.
    + erewrite write_ok by done. by rewrite Hv2, Hv1.
    + intros q Hq Hs. eapply (write_tracked fs); [exact Hp2|done|]; auto.
  - destruct (write_file fs s1 p b) as [s3 r3] eqn:E3. intros [= <- ->%with_context_ok].
    specialize (Ht1 p Ht) as Hp1. split; [erewrite write_ok by done; by rewrite Hv1|].
    intros q Hq Hs. eapply (write_tracked fs); [exact Hp1|done|]; auto.
Qed.

(** ** Recorded progress *)

(** The changes [cs] lead from the files of [s] to those of [s'], and each step back. *)
Definition committed s s' (cs : list (AppliedPatchChange U)) : Prop :=
  replay cs (view s) = view s' ∧ faithful cs (view s).

Lemma committed_one s s' c :
  replay_change (view s) c = view s' → revert_change c (view s') = view s → committed s s' [c].
Proof. intros Hr Hv. split; [done|]. split; [|done]. unfold undone. by rewrite Hr. Qed.

(** Between [st] and [st'] an exact delta has grown by what happened to the files. *)
Definition records st st' : Prop :=
  exact (delta st') = true →
  exact (delta st) = true
  ∧ ∃ cs, changes (delta st') = changes (delta st) ++ cs ∧ committed (files st) (files st') cs.

Lemma records_refl st : records st st.
Proof. intros ?. split; [done|]. exists []. rewrite app_nil_r. done. Qed.

Lemma records_trans st1 st2 st3 : records st1 st2 → records st2 st3 → records st1 st3.
Proof.
  intros H12 H23 He. destruct (H23 He) as (He2 & cs2 & -> & Hr2 & Hv2).
  destruct (H12 He2) as (He1 & cs1 & -> & Hr1 & Hv1). split; [done|].
  exists (cs1 ++ cs2). rewrite app_assoc. split; [done|]. unfold committed.
  rewrite faithful_app, replay_app. by rewrite Hr1.
Qed.

Lemma records_inexact st st' : exact (delta st') = false → records st st'.
Proof. intros ? ?. congruence. Qed.

(** Only the flag changed, and not upwards. *)
Lemma records_set_exact st b :
  (b = true → exact (delta st) = true) →
  records st (mkProgress (files st) (set_exact b (delta st))).
Proof. intros Hb He. split; [by apply Hb|]. exists []. simpl. by rewrite app_nil_r. Qed.

Lemma apply_add_ok p contents st st' o :
  apply_add fs p contents st = (st', Ok o) → exact (delta st') = true →
  exact (delta st) = true ∧ into_bytes <$> o = view (files st) !! p
  ∧ changes (delta st') = changes (delta st) ++ [mkChange p (Change.Add contents o)]
  ∧ view (files st') = <[p := into_bytes contents]> (view (files st))
  ∧ (∀ q, tracked fs (files st) q → is_Some (view (files st) !! q) → tracked fs (files st') q).
Proof.
  unfold apply_add. destruct (read_optional_file_text_for_delta _ _ _ _) as [o' ex] eqn:Er.
  destruct (write_file_with_missing_parent_retry _ _ _ _) as [s [[]|e]] eqn:Ew; [|done].
  intros [= <- <-]. simpl. intros ->.
  apply read_optional_true in Er as (He & Ht & Ho).
  apply write_retry_ok in Ew as [Hv Hq]; auto.
Qed.

Lemma apply_add_records p contents st st' r :
  apply_add fs p contents st = (st', r) → records st st'.
Proof.
  intros Ha. destruct r as [o|e].
  - intros He. destruct (apply_add_ok _ _ _ _ _ Ha He) as (? & Ho & -> & Hv & _).
    split; [done|]. eexists. split; [done|]. apply committed_one; [done|].
    rewrite Hv. unfold revert_change. simpl. autorewrite with codex. by apply restore_same.
  - apply records_inexact. unfold apply_add in Ha.
    destruct (read_optional_file_text_for_delta _ _ _ _).
    destruct (write_file_with_missing_parent_retry _ _ _ _) as [? [[]|]]; by simplify_eq.
Qed.

Lemma checked_remove_exact what p o st st' r :
  checked_remove fs what p o st = (st', r) → exact (delta st') = true → exact (delta st) = true.
Proof.
  unfold checked_remove. destruct (with_context _ _ (ensure_not_directory _ _ _)) as [[]|].
  2: { by intros [= <- <-]. }
  destruct (remove _ _ _ _) as [s [[]|e']]; intros [= <- <-]; simpl; [done|].
  by intros [? _]%andb_true_iff.
Qed.

Lemma checked_remove_ok what p o st st' :
  checked_remove fs what p o st = (st', Ok tt) → tracked fs (files st) p →
  delta st' = delta st ∧ view (files st') = delete p (view (files st)).
Proof.
  unfold checked_remove. destruct (with_context _ _ _) as [[]|]; [|done].
  destruct (remove _ _ _ _) as [s [[]|]] eqn:Er; [|done]. intros [= <-] Ht. simpl.
  split; [done|]. by eapply remove_ok.
Qed.

(** A failed removal that leaves the delta exact has left the files as they were. *)
Lemma checked_remove_err what p o st st' e :
  checked_remove fs what p o st = (st', Err e) → tracked fs (files st) p →
  exact (delta st') = true →
  delta st' = delta st ∧ view (files st') = view (files st).
Proof.
  unfold checked_remove. destruct (with_context _ _ (ensure_not_directory _ _ _)) as [[]|].
  2: { by intros [= <- <-]. }
  destruct (remove _ _ _ _) as [s [[]|e']] eqn:Er; [done|]. intros [= <- <-] Ht. simpl.
  destruct (delta st) as [cs ex]. unfold and_exact. simpl. intros [-> Hf]%andb_true_iff.
  rewrite Hf. split; [done|]. unfold remove_failure_was_side_effect_free in Hf.
  destruct o as [t|]; [|done]. destruct (read_file_text fs s p) as [t'|] eqn:Et; [|done].
  apply read_text_view in Et.
  destruct (remove_err fs _ _ _ _ _ Ht Er) as [->| Hd]; [done|].
  rewrite Hd, lookup_delete_eq in Et. done.
Qed.

Lemma apply_delete_ok p st st' :
  apply_delete fs p st = (st', Ok tt) → exact (delta st') = true →
  ∃ t, exact (delta st) = true ∧ view (files st) !! p = Some (into_bytes t)
  ∧ changes (delta st') = changes (delta st) ++ [mkChange p (Change.Delete t)]
  ∧ view (files st') = delete p (view (files st)).
Proof.
  unfold apply_delete. destruct (read_file_text fs (files st) p) as [t|] eqn:Et.
  - destruct (checked_remove _ _ _ _ _) as [st1 [[]|e]] eqn:Ec; [|done].
    intros [= <-]. simpl. intros He. exists t.
    apply checked_remove_exact in Ec as Hex; [|done].
    simpl in Hex. apply note_support_true in Hex as [? Ht].
    apply checked_remove_ok in Ec as [-> ->]; [|done]. simpl. eauto using read_text_view.
  - destruct (checked_remove _ _ _ _ _) as [st1 [[]|?]] eqn:Ec; [|done].
    intros [= <-] Hex. by apply checked_remove_exact in Ec.
Qed.

Lemma apply_delete_records p st st' r :
  apply_delete fs p st = (st', r) → records st st'.
Proof.
  intros Hd. destruct r as [[]|e]; intros He.
  - apply apply_delete_ok in Hd as (t & ? & Ht & -> & Hv); [|done]. split; [done|].
    eexists. split; [done|]. apply committed_one; [done|].
    rewrite Hv. unfold revert_change. simpl. autorewrite with codex. by apply restore_same.
  - unfold apply_delete in Hd.
    destruct (checked_remove _ _ _ _ _) as [st1 [[]|e']] eqn:Ec; simplify_eq.
    apply checked_remove_exact in Ec as Hex; [|done]. simpl in Hex.
    destruct (read_file_text fs (files st) p) as [t|] eqn:Et; [|done].
    apply note_support_true in Hex as [? Ht].
    apply checked_remove_err in Ec as [-> Hv]; [|done..]. split; [done|].
    exists []. rewrite app_nil_r. by split.
Qed.

(** The path of an update is a tracked file with the contents that were read. *)
Definition readable st p (ap : AppliedPatch) : Prop :=
  exact (delta st) = true → tracked fs (files st) p
  ∧ view (files st) !! p = Some (into_bytes (original_contents ap)).

Lemma apply_move_ok p dest ap st st' :
  readable st p ap → apply_move fs p dest ap st = (st', Ok tt) → exact (delta st') = true →
  ∃ o, exact (delta st) = true ∧ into_bytes <$> o = view (files st) !! dest
  ∧ changes (delta st') = changes (delta st)
      ++ [mkChange p (Change.Update (Some dest) (original_contents ap) o (new_contents ap))]
  ∧ view (files st') = delete p (<[dest := into_bytes (new_contents ap)]> (view (files st))).
Proof.
  intros Hread. unfold apply_move.
  destruct (apply_add _ _ _ _) as [st1 [o|e]] eqn:Ea; [|done].
  destruct (checked_remove _ _ _ _ _) as [st2 [[]|e]] eqn:Ec; [|done].
  intros [= <-]. simpl. intros He. exists o.
  apply checked_remove_exact in Ec as He1; [|done].
  apply apply_add_ok in Ea as (He0 & Ho & Hc & Hv & Hq); [|done].
  destruct (Hread He0) as [Ht Hp]. apply checked_remove_ok in Ec as [-> ->]; [|by auto].
  rewrite Hc, Hv. split_and!; [done..| |done].
  by rewrite insert_app_r_alt, Nat.sub_diag by done.
Qed.

Lemma apply_move_records p dest ap st st' r :
  readable st p ap → apply_move fs p dest ap st = (st', r) → records st st'.
Proof.
  intros Hread Hm. destruct r as [[]|e].
  - intros He. destruct (apply_move_ok _ _ _ _ _ Hread Hm He) as (o & He0 & Ho & -> & Hv).
    destruct (Hread He0) as [_ Hp]. split; [done|]. eexists. split; [done|].
    apply committed_one; [done|]. rewrite Hv. by apply revert_move.
  - unfold apply_move in Hm. destruct (apply_add _ _ _ _) as [st1 [o|e1]] eqn:Ea.
    2: { simplify_eq. by eapply apply_add_records. }
    destruct (checked_remove _ _ _ _ _) as [st2 [[]|e2]] eqn:Ec; simplify_eq.
    eapply records_trans; [by eapply apply_add_records|]. intros He.
    apply checked_remove_exact in Ec as He1; [|done].
    apply apply_add_ok in Ea as (He0 & _ & _ & _ & Hq); [|done].
    destruct (Hread He0) as [Ht Hp].
    apply checked_remove_err in Ec as [-> Hv]; [|by eauto|done].
    split; [done|]. exists []. rewrite app_nil_r. by split.
Qed.

Lemma apply_rewrite_ok p ap st st' :
  readable st p ap → apply_rewrite fs p ap st = (st', Ok tt) → exact (delta st') = true →
  exact (delta st) = true
  ∧ changes (delta st') = changes (delta st)
      ++ [mkChange p (Change.Update None (original_contents ap) None (new_contents ap))]
  ∧ view (files st') = <[p := into_bytes (new_contents ap)]> (view (files st)).
Proof.
  intros Hread. unfold apply_rewrite. destruct (write_file _ _ _ _) as [s r] eqn:Ew.
  destruct (with_context _ _ r) as [[]|] eqn:Er; [|done]. apply with_context_ok in Er as ->.
  intros [= <-]. simpl. intros He. destruct (Hread He) as [Ht _].
  split_and!; [done..|]. by eapply write_ok.
Qed.

Lemma apply_rewrite_records p ap st st' r :
  readable st p ap → apply_rewrite fs p ap st = (st', r) → records st st'.
Proof.
  intros Hread Hw. destruct r as [[]|e].
  - intros He. destruct (apply_rewrite_ok _ _ _ _ Hread Hw He) as (He0 & -> & Hv).
    destruct (Hread He0) as [_ Hp]. split; [done|]. eexists. split; [done|].
    apply committed_one; [done|]. rewrite Hv. unfold revert_change. simpl.
    autorewrite with codex. by apply restore_same.
  - apply records_inexact. unfold apply_rewrite in Hw.
    destruct (write_file _ _ _ _) as [s r']. destruct (with_context _ _ r') as [[]|]; by simplify_eq.
Qed.

Lemma derive_from_chunks_ok s p chunks o :
  derive_new_contents_from_chunks fs s p chunks = Ok o →
  ∃ ap, o = Some ap ∧ read_file_text fs s p = Ok (original_contents ap)
  ∧ derive_new_contents (original_contents ap) (inferred_native_path_string p) chunks
    = Ok (Some (new_contents ap)).
Proof.
  unfold derive_new_contents_from_chunks. destruct (read_file_text fs s p) as [t|]; [|done].
  destruct (derive_new_contents _ _ _) as [n|] eqn:Ed; [|done]. intros [= <-].
  apply derive_new_contents_Some in Ed as Hs. destruct Hs as [new ->].
  by exists (mkApplied t new).
Qed.

(** The progress an update starts its writes from. *)
Definition noted p st : progress (U := U) (S := S) :=
  mkProgress (files st)
    (set_exact (note_existing_path_delta_support fs (files st) p (exact (delta st))) (delta st)).

Lemma noted_readable p st ap :
  read_file_text fs (files st) p = Ok (original_contents ap) → readable (noted p st) p ap.
Proof.
  intros Hr He. simpl in *. apply note_support_true in He as [_ Ht]. eauto using read_text_view.
Qed.

Lemma noted_records p st : records st (noted p st).
Proof. apply records_set_exact. by intros [? _]%note_support_true. Qed.

Lemma apply_update_records cwd p move_path chunks st st' r :
  apply_update fs cwd p move_path chunks st = (st', r) → records st st'.
Proof.
  unfold apply_update. fold (noted p st). intros Hu.
  eapply records_trans; [apply (noted_records p)|].
  destruct (derive_new_contents_from_chunks _ _ _ _) as [o|e] eqn:Ed.
  2: { simplify_eq. apply records_refl. }
  apply derive_from_chunks_ok in Ed as (ap & -> & Hr & _). apply (noted_readable p st) in Hr.
  destruct move_path as [dest|]; [|by eapply apply_rewrite_records].
  destruct (uri_join cwd dest) as [d|e]; [by eapply apply_move_records|].
  simplify_eq. apply records_refl.
Qed.

Lemma apply_hunk_records cwd st a h st' r :
  apply_hunk fs cwd st a h = (st', r) → records st st'.
Proof.
  unfold apply_hunk. destruct (resolve_path h cwd) as [p|e].
  2: { intros [= <- <-]. apply records_refl. }
  destruct h as [? contents|?|? move_path chunks].
  - destruct (apply_add _ _ _ _) as [st1 [o|e]] eqn:E; intros [= <- <-];
      by eapply apply_add_records.
  - destruct (apply_delete _ _ _) as [st1 [o|e]] eqn:E; intros [= <- <-];
      by eapply apply_delete_records.
  - destruct (apply_update _ _ _ _ _ _) as [st1 [o|e]] eqn:E; intros [= <- <-];
      by eapply apply_update_records.
Qed.

Lemma apply_hunks_loop_records cwd hs st a st' r :
  apply_hunks_loop fs cwd hs st a = (st', r) → records st st'.
Proof.
  revert st a. induction hs as [|h hs IH]; intros st a; simpl.
  { intros [= <- <-]. apply records_refl. }
  destruct (apply_hunk _ _ _ _ _) as [st1 [a1|e]] eqn:E.
  - intros Hl. eapply records_trans; [by eapply apply_hunk_records|by eapply IH].
  - intros [= <- <-]. by eapply apply_hunk_records.
Qed.

Lemma apply_hunks_to_files_records cwd hs st st' r :
  apply_hunks_to_files fs hs cwd st = (st', r) → records st st'.
Proof.
  unfold apply_hunks_to_files. destruct (is_nil hs); [|apply apply_hunks_loop_records].
  intros [= <- <-]. apply records_refl.
Qed.

(** ** Refinement of the specification *)

Lemma apply_update_spec cwd path p move_path chunks st st' :
  uri_join cwd path = Ok p →
  apply_update fs cwd p move_path chunks st = (st', Ok tt) → exact (delta st') = true →
  spec_hunk cwd (view (files st)) (UpdateFile path move_path chunks) = Some (view (files st')).
Proof.
  intros Hp. unfold apply_update. fold (noted p st). intros Hu He.
  destruct (derive_new_contents_from_chunks _ _ _ _) as [o|] eqn:Ed; [|done].
  apply derive_from_chunks_ok in Ed as (ap & -> & Hr & Hd).
  apply (noted_readable p st) in Hr as Hread.
  unfold spec_hunk, resolve_path. rewrite Hp. simpl in Hr.
  rewrite (read_text_view _ _ _ Hr). simpl.
  assert (from_utf8 (into_bytes (original_contents ap)) = Ok (original_contents ap)) as ->.
  { apply read_file_text_ok in Hr as Hb. unfold read_file_text in Hr. rewrite Hb in Hr.
    by destruct (from_utf8 _); simplify_eq/=. }
  rewrite Hd. destruct move_path as [dest|].
  - destruct (uri_join cwd dest) as [d|]; [|done].
    by destruct (apply_move_ok _ _ _ _ _ Hread Hu He) as (o & _ & _ & _ & ->).
  - by destruct (apply_rewrite_ok _ _ _ _ Hread Hu He) as (_ & _ & ->).
Qed.

Lemma apply_hunk_spec cwd st a h st' a' :
  apply_hunk fs cwd st a h = (st', Ok a') → exact (delta st') = true →
  spec_hunk cwd (view (files st)) h = Some (view (files st')).
Proof.
  unfold apply_hunk. destruct (resolve_path h cwd) as [p|] eqn:Hp; [|done].
  destruct h as [? contents|?|? move_path chunks].
  - destruct (apply_add _ _ _ _) as [st1 [o|]] eqn:E; [|done]. intros [= <- <-] He.
    apply apply_add_ok in E as (_ & _ & _ & -> & _); [|done]. unfold spec_hunk. by rewrite Hp.
  - destruct (apply_delete _ _ _) as [st1 [[]|]] eqn:E; [|done]. intros [= <- <-] He.
    apply apply_delete_ok in E as (t & _ & Ht & _ & ->); [|done].
    unfold spec_hunk. by rewrite Hp, Ht.
  - destruct (apply_update _ _ _ _ _ _) as [st1 [[]|]] eqn:E; [|done]. intros [= <- <-] He.
    by eapply apply_update_spec.
Qed.

Lemma apply_hunks_loop_spec cwd hs st a st' a' :
  apply_hunks_loop fs cwd hs st a = (st', Ok a') → exact (delta st') = true →
  spec_hunks cwd (view (files st)) hs = Some (view (files st')).
Proof.
  revert st a. induction hs as [|h hs IH]; intros st a; simpl; [by intros [= <- <-]|].
  destruct (apply_hunk _ _ _ _ _) as [st1 [a1|]] eqn:E; [|done]. intros Hl He.
  destruct (apply_hunks_loop_records _ _ _ _ _ _ Hl He) as [He1 _].
  rewrite (apply_hunk_spec _ _ _ _ _ _ E He1). simpl. by eapply IH.
Qed.

Lemma apply_hunks_to_files_spec cwd hs st st' a :
  apply_hunks_to_files fs hs cwd st = (st', Ok a) → exact (delta st') = true →
  spec_hunks cwd (view (files st)) hs = Some (view (files st')).
Proof.
  unfold apply_hunks_to_files. destruct (is_nil hs); [done|]. apply apply_hunks_loop_spec.
Qed.
End correctness.

(** ** The summary, whatever the file system does *)

Section summary.
Context {U S : Type} `{Countable U} `{!PathUri U} (fs : ExecutorFileSystem U S).

Definition affected_app (a b : AffectedPaths) : AffectedPaths :=
  mkAffected (added a ++ added b) (modified a ++ modified b) (deleted a ++ deleted b).

Lemma apply_hunk_affected cwd st a h st' a' :
  apply_hunk fs cwd st a h = (st', Ok a') → a' = affected_app a (affected_by [h]).
Proof.
  unfold apply_hunk. destruct (resolve_path h cwd) as [p|]; [|done].
  unfold affected_app.
  destruct h as [? contents|?|? move_path chunks];
    [ destruct (apply_add _ _ _ _) as [? [?|]] | destruct (apply_delete _ _ _) as [? [?|]]
    | destruct (apply_update _ _ _ _ _ _) as [? [?|]]]; intros [=]; subst; simpl;
    by rewrite ?app_nil_r.
Qed.

Lemma apply_hunks_loop_affected cwd hs st a st' a' :
  apply_hunks_loop fs cwd hs st a = (st', Ok a') → a' = affected_app a (affected_by hs).
Proof.
  revert st a. induction hs as [|h hs IH]; intros st a; simpl.
  { intros [= <- <-]. unfold affected_app. simpl. rewrite !app_nil_r. by destruct a. }
  destruct (apply_hunk _ _ _ _ _) as [st1 [a1|]] eqn:E; [|done]. intros ->%IH.
  apply apply_hunk_affected in E as ->. unfold affected_app. simpl.
  rewrite <- !app_assoc. by destruct h as [| |? []].
Qed.
End summary.

(** * Properties *)

(** The delta [apply_patch] hands back, on success or failure. *)
Definition delta_of {U} (r : result (ApplyPatchFailure U) (AppliedPatchDelta U)) :
    AppliedPatchDelta U :=
  match r with Ok d => d | Err f => failure_delta f end.

Section outcomes.
Context {U S : Type} `{Countable U} `{!PathUri U} (fs : ExecutorFileSystem U S).
Context {W : Type} `{Write W}.

(** The output does not touch the files or the delta. *)
Lemma apply_hunks_progress hs cwd out err s (o := apply_hunks fs hs cwd out err s) :
  let '(st, r) := apply_hunks_to_files fs hs cwd (mkProgress s delta_empty) in
  final_files o = files st ∧ delta_of (outcome_result o) = delta st
  ∧ (is_ok (outcome_result o) = true → ∃ a, r = Ok a).
Proof.
  subst o. unfold apply_hunks. destruct (apply_hunks_to_files _ _ _ _) as [st [a|e]].
  - destruct (print_summary a out) as [out' [[]|e]]; simpl; split_and!; eauto.
  - destruct (writeln err _) as [err' [[]|e']]; simpl; split_and!; done.
Qed.
End outcomes.

(** In-memory output. *)
Module Sink.
#[global] Instance write : Write str := λ w t, (w ++ t, Ok tt).
End Sink.

(** A small tree, used by the examples: [/d/a] and [/b]. *)
Module Demo.
Definition files0 : MemFs.state :=
  MemFs.mk {[ [lit "d"; lit "a"] := into_bytes (join [nl] [lit "one"; lit "two"; []]);
              [lit "b"] := into_bytes (lit "bee" ++ [nl]) ]}
    {[ []; [lit "d"] ]}.

Definition patch_text : str :=
  join [nl]
    [lit "*** Begin Patch"; lit "*** Add File: new/c"; lit "+see";
     lit "*** Update File: d/a"; lit "*** Move to: e/a"; lit "@@"; lit " one"; lit "-two"; lit "+2";
     lit "*** Delete File: b"; lit "*** End Patch"].
End Demo.

(** An exact delta leads from the files before to the files after, each of its
    changes recording the contents it replaced. *)
Lemma exact_delta_faithful {U S W} `{Countable U} `{!PathUri U} `{Write W}
    (fs : ExecutorFileSystem U S) (view : S → gmap U (list N)) `{!FileSystemLaws fs view}
    patch cwd out err s :
  let o := apply_patch fs patch cwd out err s in
  exact (delta_of (outcome_result o)) = true →
  replay (changes (delta_of (outcome_result o))) (view s) = view (final_files o)
  ∧ faithful (changes (delta_of (outcome_result o))) (view s).
Proof.
  intros o He. subst o. unfold apply_patch in *.
  destruct (parse_patch patch) as [args|e].
  2: { by destruct (writeln err _) as [? [[]|]]. }
  pose proof (apply_hunks_progress fs (args_hunks args) cwd out err s) as Hp.
  destruct (apply_hunks_to_files _ _ _ _) as [st r] eqn:E. destruct Hp as (-> & Hd & _).
  rewrite Hd in *. apply (apply_hunks_to_files_records fs view) in E.
  destruct (E He) as (_ & cs & -> & Hc). exact Hc.
Qed.

(** C1: a delta marked exact is a complete record.  Whether [apply_patch]
    succeeds or fails half way, if the delta it returns is exact then
    replaying its changes on the files as they were gives the files as they
    are, and undoing them in reverse order gives the original files back. *)
Theorem exact_delta_replays_and_reverts {U S W} `{Countable U} `{!PathUri U} `{Write W}
    (fs : ExecutorFileSystem U S) (view : S → gmap U (list N)) `{!FileSystemLaws fs view}
    patch cwd out err s :
  let o := apply_patch fs patch cwd out err s in
  exact (delta_of (outcome_result o)) = true →
  replay (changes (delta_of (outcome_result o))) (view s) = view (final_files o)
  ∧ revert (changes (delta_of (outcome_result o))) (view (final_files o)) = view s.
Proof.
  intros o He. subst o. destruct (exact_delta_faithful fs view patch cwd out err s He) as [Hr Hf].
  split; [exact Hr|]. rewrite <- Hr at 1. by apply faithful_reverts.
Qed.

Lemma exact_delta_replays_and_reverts_witness :
  let o := apply_patch MemFs.fs Demo.patch_text [] ([] : str) ([] : str) Demo.files0 in
  length (changes (delta_of (outcome_result o))) = 3
  ∧ replay (changes (delta_of (outcome_result o))) (MemFs.files Demo.files0)
    = MemFs.files (final_files o)
  ∧ revert (changes (delta_of (outcome_result o))) (MemFs.files (final_files o))
    = MemFs.files Demo.files0.
Proof.
  intros o. split; [vm_compute; reflexivity|].
  refine (exact_delta_replays_and_reverts MemFs.fs MemFs.files Demo.patch_text [] [] [] Demo.files0 _).
  vm_compute. reflexivity.
Defined.

(** C2: applying a patch refines the specification on files: when
    [apply_patch] succeeds with an exact delta, the patch parses and the files
    are what [spec_hunks] makes of them, hunk after hunk: additions write the
    given text, deletions remove an existing file, updates replace the
    contents by the edited text and moves leave it at the destination only. *)
Theorem apply_patch_refines_spec {U S W} `{Countable U} `{!PathUri U} `{Write W}
    (fs : ExecutorFileSystem U S) (view : S → gmap U (list N)) `{!FileSystemLaws fs view}
    patch cwd out err s :
  let o := apply_patch fs patch cwd out err s in
  is_ok (outcome_result o) = true → exact (delta_of (outcome_result o)) = true →
  ∃ args, parse_patch patch = Ok args
    ∧ spec_hunks cwd (view s) (args_hunks args) = Some (view (final_files o)).
Proof.
  intros o Hok He. subst o. unfold apply_patch in *.
  destruct (parse_patch patch) as [args|e].
  2: { by destruct (writeln err _) as [? [[]|]]. }
  exists args. split; [done|].
  pose proof (apply_hunks_progress fs (args_hunks args) cwd out err s) as Hp.
  destruct (apply_hunks_to_files _ _ _ _) as [st r] eqn:E. destruct Hp as (-> & Hd & Hr).
  destruct (Hr Hok) as [a ->]. rewrite Hd in He.
  by apply (apply_hunks_to_files_spec fs view) in E.
Qed.

Lemma apply_patch_refines_spec_witness :
  let o := apply_patch MemFs.fs Demo.patch_text [] ([] : str) ([] : str) Demo.files0 in
  ∃ args, parse_patch Demo.patch_text = Ok args
    ∧ spec_hunks [] (MemFs.files Demo.files0) (args_hunks args) = Some (MemFs.files (final_files o)).
Proof.
  intros o.
  refine (apply_patch_refines_spec MemFs.fs MemFs.files Demo.patch_text [] [] [] Demo.files0 _ _);
    vm_compute; reflexivity.
Defined.

(** A patch that does not parse touches nothing: the files and the
    standard output are as before, the delta is empty and exact, and the parse
    error is reported unless writing to the error output fails. *)
Theorem rejected_patch_touches_nothing {U S W} `{Countable U} `{!PathUri U} `{Write W}
    (fs : ExecutorFileSystem U S) patch cwd out err s e :
  parse_patch patch = Err e →
  let o := apply_patch fs patch cwd out err s in
  final_files o = s ∧ stdout o = out ∧ delta_of (outcome_result o) = delta_empty
  ∧ stderr o = (writeln err (parse_error_line e)).1
  ∧ ((writeln err (parse_error_line e)).2 = Ok tt →
     outcome_result o = Err (mkFailure (ParseError_ e) delta_empty)).
Proof.
  intros He o. subst o. unfold apply_patch. rewrite He.
  by destruct (writeln err _) as [err' [[]|io]].
Qed.

Lemma rejected_patch_touches_nothing_witness :
  let o := apply_patch MemFs.fs (lit "*** Begin") [] ([] : str) ([] : str) Demo.files0 in
  final_files o = Demo.files0
  ∧ outcome_result o = Err (mkFailure (ParseError_ (InvalidPatchError msg_first_line)) delta_empty).
Proof.
  assert (parse_patch (lit "*** Begin") = Err (InvalidPatchError msg_first_line)) as He
    by (vm_compute; reflexivity).
  destruct (rejected_patch_touches_nothing MemFs.fs (lit "*** Begin") [] ([] : str) ([] : str)
              Demo.files0 _ He) as (Hf & _ & _ & _ & Hr).
  split; [exact Hf|apply Hr; reflexivity].
Defined.

(** The summary is the patch: when the hunks are applied, the paths
    reported as added, modified and deleted are those of the hunks of each
    kind, in the order of the patch and with the patch's spelling, a move
    being reported under its destination; and no hunk at all is an error. *)
Theorem summary_lists_the_hunks {U S} `{Countable U} `{!PathUri U}
    (fs : ExecutorFileSystem U S) hs cwd st st' a :
  apply_hunks_to_files fs hs cwd st = (st', Ok a) → hs ≠ [] ∧ a = affected_by hs.
Proof.
  unfold apply_hunks_to_files. destruct (is_nil hs) eqn:E; [done|]. apply is_nil_false in E.
  intros ->%apply_hunks_loop_affected. by split.
Qed.

Lemma summary_lists_the_hunks_witness :
  let hs := [AddFile (lit "x") []; UpdateFile (lit "b") (Some (lit "y")) [mkChunk None [] [[]] false]] in
  hs ≠ [] ∧ mkAffected [lit "x"] [lit "y"] [] = affected_by hs.
Proof.
  intros hs.
  apply (summary_lists_the_hunks MemFs.fs hs [] (mkProgress Demo.files0 delta_empty)
           (apply_hunks_to_files MemFs.fs hs [] (mkProgress Demo.files0 delta_empty)).1).
  vm_compute. reflexivity.
Defined.

(** A move onto its own path loses the file.  When an update names its
    own path as the destination (the two resolve to one URI) and is applied,
    the file is gone afterwards although the summary reports it as modified. *)
Theorem self_move_deletes_the_file {U S} `{Countable U} `{!PathUri U}
    (fs : ExecutorFileSystem U S) (view : S → gmap U (list N)) `{!FileSystemLaws fs view}
    path dest chunks cwd p st st' a :
  uri_join cwd path = Ok p → uri_join cwd dest = Ok p →
  apply_hunks_to_files fs [UpdateFile path (Some dest) chunks] cwd st = (st', Ok a) →
  exact (delta st') = true →
  is_Some (view (files st) !! p) ∧ view (files st') = delete p (view (files st))
  ∧ modified a = [dest].
Proof.
  intros Hp Hd Ha He.
  assert (a = affected_by [UpdateFile path (Some dest) chunks]) as ->.
  { by apply apply_hunks_loop_affected in Ha. }
  apply (apply_hunks_to_files_spec fs view) in Ha; [|done].
  simpl in Ha. unfold spec_hunk, resolve_path in Ha. rewrite Hp in Ha. simpl in Ha.
  destruct (view (files st) !! p) as [b|]; [|done]. simpl in Ha.
  destruct (from_utf8 b) as [t|]; [|done].
  destruct (derive_new_contents _ _ _) as [[new|]|]; [|done..].
  rewrite Hd in Ha. simpl in Ha. rewrite delete_insert_eq in Ha. simplify_eq. by eauto.
Qed.

Lemma self_move_deletes_the_file_witness :
  let h := UpdateFile (lit "b") (Some (lit "/b")) [mkChunk None [lit "bee"] [lit "bug"] false] in
  let r := apply_hunks_to_files MemFs.fs [h] [] (mkProgress Demo.files0 delta_empty) in
  r.2 = Ok (mkAffected [] [lit "/b"] [])
  ∧ MemFs.files (files r.1) = delete [lit "b"] (MemFs.files Demo.files0).
Proof.
  intros h r. assert (r.2 = Ok (mkAffected [] [lit "/b"] [])) as Hr by (vm_compute; reflexivity).
  split; [exact Hr|].
  apply (self_move_deletes_the_file MemFs.fs MemFs.files (lit "b") (lit "/b")
           [mkChunk None [lit "bee"] [lit "bug"] false] [] [lit "b"]
           (mkProgress Demo.files0 delta_empty) r.1 (mkAffected [] [lit "/b"] []));
    vm_compute; reflexivity.
Defined.
