(* ===== verification/PatchInvocation.v ===== *)
(** [apply-patch/src/invocation.rs]: recognising an [apply_patch] call in an
    argument vector and working out, before anything is written, the changes
    it would make.  The Bash grammar (tree-sitter), the diff printer (the
    [similar] crate) and the guess of a path's convention are parameters; the
    theorems compare the changes shown to the user with what applying the
    hunks does. *)

From S2P Require Import Prelude Text Utf8 PatchParser SeekSequence FileSystem PatchReplace PatchApply.

(** * Data *)

(** [PathConvention] *)
Inductive PathConvention := Posix | Windows.

(** [ApplyPatchShell] *)
Inductive ApplyPatchShell := Unix | PowerShell | Cmd.

(** [ExtractHeredocError]; the payloads are errors of other crates, as text. *)
Inductive ExtractHeredocError :=
| CommandDidNotStartWithApplyPatch
| FailedToLoadBashGrammar (e : str)
| HeredocNotUtf8 (e : str)
| FailedToParsePatchIntoAst
| FailedToFindHeredocBody.

(** [MaybeApplyPatch] *)
Module Maybe.
Inductive t :=
| Body (args : ApplyPatchArgs)
| ShellParseError (e : ExtractHeredocError)
| PatchParseError (e : ParseError)
| NotApplyPatch.
End Maybe.

(** [ApplyPatchFileChange] *)
Module FileChange.
Inductive t (U : Type) :=
| Add (content : str)
| Delete (content : str)
| Update (unified_diff : str) (move_path : option U) (new_content : str).
Arguments Add {U}.
Arguments Delete {U}.
Arguments Update {U}.
End FileChange.

(** [ApplyPatchAction] *)
Record ApplyPatchAction (U : Type) `{Countable U} := mkAction {
  action_changes : gmap U (FileChange.t U);
  action_patch : str;
  action_cwd : U
}.
Arguments mkAction {U _ _}.
Arguments action_changes {U _ _}.
Arguments action_patch {U _ _}.
Arguments action_cwd {U _ _}.

(** [MaybeApplyPatchVerified] *)
Module Verified.
Inductive t (U : Type) `{Countable U} :=
| Body (action : ApplyPatchAction U)
| ShellParseError (e : ExtractHeredocError)
| CorrectnessError (e : ApplyPatchError)
| NotApplyPatch.
Arguments Body {U _ _}.
Arguments ShellParseError {U _ _}.
Arguments CorrectnessError {U _ _}.
Arguments NotApplyPatch {U _ _}.
End Verified.

(** A capture of the tree-sitter query: its name and the text of its node. *)
Inductive capture_name := Heredoc | CdPath | CdRawString | OtherCapture.

(** * The code *)

Definition APPLY_PATCH_COMMANDS : list str := [lit "apply_patch"; lit "applypatch"].

(** [PathConvention::path_segments] *)
Fixpoint split_by (p : N → bool) (s : str) : list str :=
  match s with
  | [] => [[]]
  | c :: s' =>
      if p c then [] :: split_by p s'
      else match split_by p s' with
           | [] => [[c]]
           | l :: ls => (c :: l) :: ls
           end
  end.
Definition is_separator (convention : PathConvention) (c : N) : bool :=
  match convention with
  | Posix => bool_decide (c = 47)%N
  | Windows => bool_decide (c = 47 ∨ c = 92)%N
  end.
Definition path_segments (convention : PathConvention) (path : str) : list str :=
  split_by (is_separator convention) path.

Definition classify_shell_name (shell : str) (convention : PathConvention) : option str :=
  basename ← last (path_segments convention shell);
  let stem :=
    match rsplit_once 46%N basename with
    | Some (stem, _) => if is_nil stem then basename else stem
    | None => basename
    end in
  Some (to_ascii_lowercase stem).

Definition classify_shell (shell flag : str) (convention : PathConvention) :
    option ApplyPatchShell :=
  name ← classify_shell_name shell convention;
  if decide (name ∈ [lit "bash"; lit "zsh"; lit "sh"] ∧ flag ∈ [lit "-lc"; lit "-c"])
  then Some Unix
  else if decide (name ∈ [lit "pwsh"; lit "powershell"]) then
    if eq_ignore_ascii_case flag (lit "-command") then Some PowerShell else None
  else if decide (name = lit "cmd") then
    if eq_ignore_ascii_case flag (lit "/c") then Some Cmd else None
  else None.

Definition can_skip_flag (shell flag : str) (convention : PathConvention) : bool :=
  match classify_shell_name shell convention with
  | Some name =>
      bool_decide (name ∈ [lit "pwsh"; lit "powershell"])
      && eq_ignore_ascii_case flag (lit "-noprofile")
  | None => false
  end.

Definition strip_quotes (raw : str) : str :=
  match strip_prefix [39%N] raw ≫= strip_suffix [39%N] with
  | Some trimmed => trimmed
  | None => raw
  end.

(** The inner loop over the captures of one match. *)
Definition read_captures (captures : list (capture_name * str)) : option str * option str :=
  foldl (λ '(heredoc, cd) '(name, text),
           match name with
           | Heredoc => (Some (trim_end_matches nl text), cd)
           | CdPath => (heredoc, Some text)
           | CdRawString => (heredoc, Some (strip_quotes text))
           | OtherCapture => (heredoc, cd)
           end) (None, None) captures.

Fixpoint first_heredoc (matches : list (list (capture_name * str))) :
    result ExtractHeredocError (str * option str) :=
  match matches with
  | [] => Err CommandDidNotStartWithApplyPatch
  | m :: matches =>
      match read_captures m with
      | (Some heredoc, cd_path) => Ok (heredoc, cd_path)
      | (None, _) => first_heredoc matches
      end
  end.

Section invocation.
Context {U S : Type} `{Countable U} `{!PathUri U} (fs : ExecutorFileSystem U S).

(** [PathUri::infer_path_convention]; the matches of the query in a script;
    [TextDiff::unified_diff] with one line of context. *)
Variable infer_path_convention : U → option PathConvention.
Variable query_matches : str → result ExtractHeredocError (list (list (capture_name * str))).
Variable diff : str → str → str.

Definition extract_apply_patch_from_bash (src : str) :
    result ExtractHeredocError (str * option str) :=
  let? matches := query_matches src in first_heredoc matches.

Definition extract_apply_patch_from_shell (shell : ApplyPatchShell) (script : str) :
    result ExtractHeredocError (str * option str) :=
  match shell with
  | Unix | PowerShell | Cmd => extract_apply_patch_from_bash script
  end.

Definition parse_shell_script (argv : list str) (cwd : U) : option (ApplyPatchShell * str) :=
  convention ← infer_path_convention cwd;
  match argv with
  | [shell; flag; script] =>
      shell_type ← classify_shell shell flag convention; Some (shell_type, script)
  | [shell; skip_flag; flag; script] =>
      if negb (can_skip_flag shell skip_flag convention) then None
      else shell_type ← classify_shell shell flag convention; Some (shell_type, script)
  | _ => None
  end.

(** The arm for everything but a direct call. *)
Definition parse_shell_call (argv : list str) (cwd : U) : Maybe.t :=
  match parse_shell_script argv cwd with
  | Some (shell, script) =>
      match extract_apply_patch_from_shell shell script with
      | Ok (body, workdir) =>
          match parse_patch body with
          | Ok source =>
              Maybe.Body (mkArgs (args_patch source) (args_hunks source) workdir
                            (args_environment_id source))
          | Err e => Maybe.PatchParseError e
          end
      | Err CommandDidNotStartWithApplyPatch => Maybe.NotApplyPatch
      | Err e => Maybe.ShellParseError e
      end
  | None => Maybe.NotApplyPatch
  end.

Definition maybe_parse_apply_patch (argv : list str) (cwd : U) : Maybe.t :=
  match argv with
  | [cmd; body] =>
      if decide (cmd ∈ APPLY_PATCH_COMMANDS) then
        match parse_patch body with
        | Ok source => Maybe.Body source
        | Err e => Maybe.PatchParseError e
        end
      else parse_shell_call argv cwd
  | _ => parse_shell_call argv cwd
  end.

(** [unified_diff_from_chunks]: the diff and the new content; [Ok None] is a panic. *)
Definition unified_diff_from_chunks (s : S) (p : U) (chunks : list UpdateFileChunk) :
    result ApplyPatchError (option (str * str)) :=
  let? o := derive_new_contents_from_chunks fs s p chunks in
  Ok ((λ ap, (diff (original_contents ap) (new_contents ap), new_contents ap)) <$> o).

(** What one hunk adds to the map of changes; [Ok None] is a panic. *)
Definition verify_hunk (s : S) (cwd : U) (hunk : Hunk) :
    result ApplyPatchError (option (U * FileChange.t U)) :=
  let? path := result_map_err PathUri_ (resolve_path hunk cwd) in
  match hunk with
  | AddFile _ contents => Ok (Some (path, FileChange.Add contents))
  | DeleteFile _ =>
      let? content :=
        result_map_err
          (λ source, IoError_ (mkIoError
             (lit "Failed to read " ++ inferred_native_path_string path) source))
          (read_file_text fs s path) in
      Ok (Some (path, FileChange.Delete content))
  | UpdateFile _ move_path chunks =>
      let? update := unified_diff_from_chunks s path chunks in
      match update with
      | None => Ok None
      | Some (unified_diff, contents) =>
          let? move_path :=
            (match move_path with
             | None => Ok None
             | Some dest => result_map Some (result_map_err PathUri_ (uri_join cwd dest))
             end) in
          Ok (Some (path, FileChange.Update unified_diff move_path contents))
      end
  end.

Fixpoint verify_hunks (s : S) (cwd : U) (hunks : list Hunk) (changes : gmap U (FileChange.t U)) :
    result ApplyPatchError (option (gmap U (FileChange.t U))) :=
  match hunks with
  | [] => Ok (Some changes)
  | hunk :: hunks =>
      let? o := verify_hunk s cwd hunk in
      match o with
      | None => Ok None
      | Some (path, change) => verify_hunks s cwd hunks (<[path := change]> changes)
      end
  end.

Definition effective_cwd (args : ApplyPatchArgs) (cwd : U) : result ApplyPatchError U :=
  match args_workdir args with
  | Some dir => result_map_err PathUri_ (uri_join cwd dir)
  | None => Ok cwd
  end.

Definition try_verify_apply_patch_args (s : S) (args : ApplyPatchArgs) (cwd : U) :
    result ApplyPatchError (option (ApplyPatchAction U)) :=
  let? cwd := effective_cwd args cwd in
  let? changes := verify_hunks s cwd (args_hunks args) ∅ in
  Ok ((λ changes, mkAction changes (args_patch args) cwd) <$> changes).

(** [None] is a panic. *)
Definition verify_apply_patch_args (s : S) (args : ApplyPatchArgs) (cwd : U) :
    option (Verified.t U) :=
  match try_verify_apply_patch_args s args cwd with
  | Ok (Some action) => Some (Verified.Body action)
  | Ok None => None
  | Err e => Some (Verified.CorrectnessError e)
  end.

Definition is_raw_patch (argv : list str) (cwd : U) : bool :=
  match argv with [body] => is_ok (parse_patch body) | _ => false end
  || match parse_shell_script argv cwd with
     | Some (_, script) => is_ok (parse_patch script)
     | None => false
     end.

Definition maybe_parse_apply_patch_verified (s : S) (argv : list str) (cwd : U) :
    option (Verified.t U) :=
  if is_raw_patch argv cwd then Some (Verified.CorrectnessError ImplicitInvocation)
  else
    match maybe_parse_apply_patch argv cwd with
    | Maybe.Body args => verify_apply_patch_args s args cwd
    | Maybe.ShellParseError e => Some (Verified.ShellParseError e)
    | Maybe.PatchParseError e => Some (Verified.CorrectnessError (ParseError_ e))
    | Maybe.NotApplyPatch => Some Verified.NotApplyPatch
    end.
End invocation.

(** * What the changes promise *)

Section preview.
Context {U S : Type} `{Countable U} `{!PathUri U} (fs : ExecutorFileSystem U S)
  (view : S → gmap U (list N)) `{!FileSystemLaws fs view} (diff : str → str → str).
Implicit Types (m : gmap U (list N)) (changes : gmap U (FileChange.t U)).

(** The files [m] hold what change [c] at [p] shows. *)
Definition shows m (p : U) (c : FileChange.t U) : Prop :=
  match c with
  | FileChange.Add content => m !! p = Some (into_bytes content)
  | FileChange.Delete _ => m !! p = None
  | FileChange.Update _ None new => m !! p = Some (into_bytes new)
  | FileChange.Update _ (Some d) new => m !! p = None ∧ m !! d = Some (into_bytes new)
  end.

(** The paths a change names. *)
Definition names (p : U) (c : FileChange.t U) : list U :=
  p :: match c with FileChange.Update _ (Some d) _ => [d] | _ => [] end.

(** [changes] is the whole difference between [m] and [m']. *)
Definition predicts changes m m' : Prop :=
  map_Forall (shows m') changes
  ∧ ∀ q, map_Forall (λ p c, q ∉ names p c) changes → m' !! q = m !! q.

(** The paths a hunk names. *)
Definition touched (cwd : U) (h : Hunk) : list U :=
  (match resolve_path h cwd with Ok p => [p] | Err _ => [] end)
  ++ match h with
     | UpdateFile _ (Some dest) _ =>
         match uri_join cwd dest with Ok d => [d] | Err _ => [] end
     | _ => []
     end.

Lemma shows_agree m m' p c :
  (∀ q, q ∈ names p c → m' !! q = m !! q) → shows m p c → shows m' p c.
Proof.
  intros Ha. assert (m' !! p = m !! p) as Hp by (apply Ha; set_solver).
  destruct c as [| |? [d|] ?]; simpl; rewrite ?Hp; try done.
  by rewrite (Ha d) by set_solver.
Qed.

Lemma verify_update_ok s p chunks o :
  unified_diff_from_chunks fs diff s p chunks = Ok o →
  ∃ old new, o = Some (diff old new, new) ∧ view s !! p = Some (into_bytes old)
    ∧ Forall is_char old
    ∧ derive_new_contents old (inferred_native_path_string p) chunks = Ok (Some new).
Proof.
  unfold unified_diff_from_chunks.
  destruct (derive_new_contents_from_chunks _ _ _ _) as [o'|] eqn:E; [|done]. intros [= <-].
  apply derive_from_chunks_ok in E as (ap & -> & Hr & Hd).
  exists (original_contents ap), (new_contents ap). split_and!; [done| | |done].
  - by eapply read_text_view.
  - unfold read_file_text in Hr. destruct (read_file fs s p); [|done].
    destruct (from_utf8 _) as [t|] eqn:Eu; [|done]. simplify_eq/=. by apply from_utf8_Ok in Eu as [_ ?].
Qed.

(** One hunk: on files that agree with those read, the specification does
    what the change shows, and nothing outside the paths of the hunk. *)
Lemma verify_hunk_spec s cwd h o m :
  verify_hunk fs diff s cwd h = Ok o → NoDup (touched cwd h) →
  (∀ q, q ∈ touched cwd h → m !! q = view s !! q) →
  ∃ p c m', o = Some (p, c) ∧ names p c = touched cwd h
    ∧ spec_hunk cwd m h = Some m' ∧ shows m' p c
    ∧ ∀ q, q ∉ touched cwd h → m' !! q = m !! q.
Proof.
  unfold verify_hunk, touched, spec_hunk.
  destruct (resolve_path h cwd) as [p|]; [|done]. simpl. intros Hv Hd Ha.
  destruct h as [? contents|?|? move_path chunks]; simpl in *.
  - injection Hv as <-. eexists p, _, _. split_and!; [done..| |].
    + simpl. by rewrite lookup_insert_eq.
    + intros q Hq. rewrite lookup_insert_ne by set_solver. done.
  - destruct (read_file_text fs s p) as [t|] eqn:Et; [|done]. injection Hv as <-.
    apply (read_text_view fs view) in Et. rewrite <- (Ha p) in Et by set_solver.
    rewrite Et. simpl. eexists p, _, _. split_and!; [done..| |].
    + simpl. by rewrite lookup_delete_eq.
    + intros q Hq. rewrite lookup_delete_ne by set_solver. done.
  - destruct (unified_diff_from_chunks _ _ _ _ _) as [u|] eqn:Eu; [|done].
    apply verify_update_ok in Eu as (old & new & -> & Ho & Hc & Hn).
    rewrite (Ha p) by set_solver. rewrite Ho. simpl. rewrite from_utf8_into_bytes, Hn by done.
    destruct move_path as [dest|]; simpl in *.
    + destruct (uri_join cwd dest) as [d|]; [|done]. injection Hv as <-.
      assert (p ≠ d) by (apply NoDup_cons in Hd as [? _]; set_solver).
      eexists p, _, _. split_and!; [done..| |].
      * simpl. by rewrite lookup_delete_eq, lookup_delete_ne, lookup_insert_eq by done.
      * intros q Hq. rewrite lookup_delete_ne, lookup_insert_ne by set_solver. done.
    + injection Hv as <-. eexists p, _, _. split_and!; [done..| |].
      * simpl. by rewrite lookup_insert_eq.
      * intros q Hq. rewrite lookup_insert_ne by set_solver. done.
Qed.

(** The loop, from files [m] that [changes] already predicts. *)
Lemma verify_hunks_spec s cwd hs changes o m done_paths :
  verify_hunks fs diff s cwd hs changes = Ok o →
  NoDup (done_paths ++ (hs ≫= touched cwd)) →
  map_Forall (λ p c, names p c ⊆ done_paths) changes →
  predicts changes (view s) m → (∀ q, q ∉ done_paths → m !! q = view s !! q) →
  ∃ changes' m', o = Some changes' ∧ spec_hunks cwd m hs = Some m'
    ∧ predicts changes' (view s) m'.
Proof.
  revert changes m done_paths. induction hs as [|h hs IH]; intros changes m dp; simpl.
  { intros [= <-] _ _ Hp _. eauto. }
  destruct (verify_hunk _ _ _ _ _) as [oh|] eqn:Eh; [|done]. intros Hv Hnd Hn [Hs Hf] Hm.
  rewrite app_assoc in Hnd. pose proof Hnd as [Hnd1 _]%NoDup_app.
  apply NoDup_app in Hnd1 as (_ & Hdis & Hndh).
  apply (verify_hunk_spec _ _ _ _ m) in Eh as (p & c & m1 & -> & Hnames & Hsp & Hshow & Hfr); [|done|].
  2: { intros q Hq. apply Hm. intros Hq'. by apply (Hdis q). }
  rewrite Hsp. simpl. eapply (IH _ m1 (dp ++ touched cwd h)); [exact Hv|exact Hnd| | |].
  - apply map_Forall_insert_2; [rewrite Hnames; set_solver|].
    intros p' c' Hc'. specialize (Hn p' c' Hc'). set_solver.
  - split.
    + apply map_Forall_insert_2; [done|]. intros p' c' Hc'.
      apply (shows_agree m); [|by apply Hs]. intros q Hq. apply Hfr. intros Hq'.
      apply (Hdis q); [|done]. by apply (Hn p' c').
    + intros q Hq. assert (q ∉ names p c) as Hqp.
      { apply (Hq p c). by rewrite lookup_insert_eq. }
      rewrite Hfr by by rewrite <- Hnames. apply Hf. intros p' c' Hc'. apply Hq.
      rewrite lookup_insert_ne; [done|]. intros ->.
      apply (Hdis p'); [|rewrite <- Hnames; set_solver]. apply (Hn p' c' Hc'). set_solver.
  - intros q Hq. rewrite Hfr by set_solver. apply Hm. set_solver.
Qed.
End preview.

(** * Accepted calls *)

Section accepted.
Context {U S : Type} `{Countable U} `{!PathUri U} (fs : ExecutorFileSystem U S).

Lemma parse_patch_workdir body args : parse_patch body = Ok args → args_workdir args = None.
Proof.
  unfold parse_patch, parse_patch_text. intros Hp.
  destruct (match _ with Strict => _ | Lenient => _ end); [|done].
  destruct (push_delta _ _) as [p [?|?]]; [|done].
  destruct (finish p) as [p' [?|?]]; [|done]. by simplify_eq.
Qed.

Lemma verify_args_body (diff : str → str → str) s args cwd action :
  verify_apply_patch_args fs diff s args cwd = Some (Verified.Body action) →
  action_patch action = args_patch args ∧ effective_cwd args cwd = Ok (action_cwd action).
Proof.
  unfold verify_apply_patch_args, try_verify_apply_patch_args.
  destruct (effective_cwd args cwd) as [c|]; [|naive_solver].
  destruct (verify_hunks _ _ _ _ _ _) as [[ch|]|]; naive_solver.
Qed.

Context (infer : U → option PathConvention)
  (query : str → result ExtractHeredocError (list (list (capture_name * str)))).

Lemma parse_shell_call_body argv cwd args :
  parse_shell_call infer query argv cwd = Maybe.Body args →
  ∃ shell script body workdir src, parse_shell_script infer argv cwd = Some (shell, script)
    ∧ extract_apply_patch_from_shell query shell script = Ok (body, workdir)
    ∧ parse_patch body = Ok src ∧ args_patch args = args_patch src ∧ args_workdir args = workdir.
Proof.
  unfold parse_shell_call.
  destruct (parse_shell_script infer argv cwd) as [[shell script]|]; [|done].
  destruct (extract_apply_patch_from_shell query shell script) as [[body workdir]|e] eqn:Ee;
    [|by destruct e].
  destruct (parse_patch body) as [src|] eqn:Eb; [|done]. intros [= <-].
  by exists shell, script, body, workdir, src.
Qed.

Lemma maybe_parse_body argv cwd args :
  maybe_parse_apply_patch infer query argv cwd = Maybe.Body args →
  (∃ cmd body, argv = [cmd; body] ∧ cmd ∈ APPLY_PATCH_COMMANDS ∧ parse_patch body = Ok args)
  ∨ parse_shell_call infer query argv cwd = Maybe.Body args.
Proof.
  unfold maybe_parse_apply_patch. destruct argv as [|cmd [|body [|]]]; auto.
  case_decide; [|by auto]. intros Hm. left. exists cmd, body.
  destruct (parse_patch body); by simplify_eq.
Qed.
End accepted.

(** * Properties *)

(** C38: what is verified is what is applied.  When the hunks of a patch name
    pairwise distinct paths, the changes worked out from the files before the
    patch are exactly the difference that applying the hunks one after the
    other makes: every change holds of the resulting files, and every path no
    change names is as before.  Verification never panics. *)
Theorem verified_changes_predict_application {U S} `{Countable U} `{!PathUri U}
    (fs : ExecutorFileSystem U S) (view : S → gmap U (list N)) `{!FileSystemLaws fs view}
    (diff : str → str → str) s args cwd cwd' v :
  effective_cwd args cwd = Ok cwd' → NoDup (args_hunks args ≫= touched cwd') →
  try_verify_apply_patch_args fs diff s args cwd = Ok v →
  ∃ changes m, v = Some (mkAction changes (args_patch args) cwd')
    ∧ spec_hunks cwd' (view s) (args_hunks args) = Some m ∧ predicts changes (view s) m.
Proof.
  unfold try_verify_apply_patch_args. intros -> Hnd Hv.
  destruct (verify_hunks _ _ _ _ _ _) as [o|] eqn:E; [|done]. injection Hv as <-.
  apply (verify_hunks_spec fs view diff _ _ _ _ _ (view s) []) in E
    as (changes & m & -> & Hm & Hp); [by eauto|done| | |done].
  - apply map_Forall_empty.
  - split; [apply map_Forall_empty|done].
Qed.

(** A diff printer for the examples: the new text. *)
Definition demo_diff (_ new : str) : str := new.

Lemma verified_changes_predict_application_witness :
  let args := mkArgs [] [UpdateFile (lit "a") (Some (lit "b")) [mkChunk None [lit "two"] [lit "2"] false];
                         AddFile (lit "c") (lit "see")] (Some (lit "d")) None in
  let v := try_verify_apply_patch_args MemFs.fs demo_diff Demo.files0 args [] in
  is_ok v = true
  ∧ ∃ changes m, v = Ok (Some (mkAction changes [] [lit "d"]))
    ∧ spec_hunks [lit "d"] (MemFs.files Demo.files0) (args_hunks args) = Some m
    ∧ predicts changes (MemFs.files Demo.files0) m.
Proof.
  intros args v. split; [vm_compute; reflexivity|].
  destruct (try_verify_apply_patch_args MemFs.fs demo_diff Demo.files0 args []) as [o|e] eqn:E.
  - destruct (verified_changes_predict_application MemFs.fs MemFs.files demo_diff Demo.files0 args []
                [lit "d"] o) as (changes & m & -> & Hm & Hp).
    + vm_compute. reflexivity.
    + apply (bool_decide_unpack _). vm_compute. exact I.
    + exact E.
    + exists changes, m. split; [reflexivity|]. split; [exact Hm|exact Hp].
  - vm_compute in E. discriminate E.
Defined.

(** Without distinct paths the preview is wrong: for two updates of one file the
    change shown holds the second edit only, while applying the patch makes both. *)
Example repeated_path_previews_differ :
  let one := [mkChunk None [lit "one"] [lit "1"] false] in
  let two := [mkChunk None [lit "two"] [lit "2"] false] in
  let hs := [UpdateFile (lit "d/a") None one; UpdateFile (lit "d/a") None two] in
  let shown := join [nl] [lit "one"; lit "2"; []] in
  let applied := join [nl] [lit "1"; lit "2"; []] in
  verify_hunks MemFs.fs demo_diff Demo.files0 [] hs ∅
    = Ok (Some {[ [lit "d"; lit "a"] := FileChange.Update shown None shown ]})
  ∧ match apply_hunks_to_files MemFs.fs hs [] (mkProgress Demo.files0 delta_empty) with
    | (st, Ok _) => MemFs.files (files st) !! [lit "d"; lit "a"] = Some (into_bytes applied)
    | _ => False
    end.
Proof. split; vm_compute; reflexivity. Qed.

(** A patch is only taken from an explicit call: when an argument vector
    is accepted, it is either [apply_patch <patch>] with a well-formed patch
    or a shell call whose script is not itself a patch and in which the query
    found the heredoc of an [apply_patch] command. *)
Theorem accepted_call_is_explicit {U S} `{Countable U} `{!PathUri U}
    (fs : ExecutorFileSystem U S) infer query diff s argv cwd action :
  maybe_parse_apply_patch_verified fs infer query diff s argv cwd = Some (Verified.Body action) →
  ∃ body args, parse_patch body = Ok args ∧ action_patch action = args_patch args
    ∧ ((∃ cmd, argv = [cmd; body] ∧ cmd ∈ APPLY_PATCH_COMMANDS ∧ action_cwd action = cwd)
       ∨ ∃ shell script workdir, parse_shell_script infer argv cwd = Some (shell, script)
           ∧ is_ok (parse_patch script) = false
           ∧ extract_apply_patch_from_shell query shell script = Ok (body, workdir)
           ∧ effective_cwd (mkArgs [] [] workdir None) cwd = Ok (action_cwd action)).
Proof.
  unfold maybe_parse_apply_patch_verified. intros Hv.
  destruct (is_raw_patch infer argv cwd) eqn:Hraw; [by simplify_eq|].
  apply orb_false_iff in Hraw as [_ Hraw].
  destruct (maybe_parse_apply_patch infer query argv cwd) as [args| | |] eqn:Em; [|done..].
  apply verify_args_body in Hv as [Hpat Hcwd].
  apply maybe_parse_body in Em as [(cmd & body & -> & Hc & Hb)|Hm].
  - exists body, args. split_and!; [done..|]. left. exists cmd. split_and!; [done..|].
    unfold effective_cwd in Hcwd. rewrite (parse_patch_workdir _ _ Hb) in Hcwd. congruence.
  - apply parse_shell_call_body in Hm
      as (shell & script & body & workdir & src & Hsc & Hex & Hb & Hp & Hw).
    rewrite Hsc in Hraw. exists body, src. split_and!; [done|congruence|]. right.
    exists shell, script, workdir. split_and!; [done..|]. unfold effective_cwd in *. simpl.
    by rewrite <- Hw.
Qed.

Lemma accepted_call_is_explicit_witness :
  let argv := [lit "apply_patch"; join [nl] [lit "*** Begin Patch"; lit "*** Delete File: b"; lit "*** End Patch"]] in
  ∃ action body args, parse_patch body = Ok args ∧ action_patch action = args_patch args
    ∧ ((∃ cmd, argv = [cmd; body] ∧ cmd ∈ APPLY_PATCH_COMMANDS ∧ action_cwd action = [])
       ∨ ∃ shell script workdir,
           parse_shell_script (λ _ : MemFs.path, Some Posix) argv [] = Some (shell, script)
           ∧ is_ok (parse_patch script) = false
           ∧ extract_apply_patch_from_shell (λ _, Ok []) shell script = Ok (body, workdir)
           ∧ effective_cwd (mkArgs [] [] workdir None) [] = Ok (action_cwd action)).
Proof.
  intros argv.
  eexists. apply (accepted_call_is_explicit MemFs.fs (λ _, Some Posix) (λ _, Ok []) demo_diff
                    Demo.files0 argv []).
  vm_compute. reflexivity.
Defined.
