(* ===== verification/TurnDiff.v ===== *)
(** The net diff of a turn: [core/src/turn_diff_tracker.rs].  The tracker learns
    what patches did from their deltas, never from the disk; what it knows about
    the files is in [TurnDiffSpec].  Hashes, the printer of diffs, displayed paths
    and the order of hash maps are an interface. *)

From S2P Require Import Prelude Text Utf8 FileSystem PatchApply.

(** * What is used of other crates *)

(** A path with the environment it is in *)
Abbreviation TrackedPath U := (str * U)%type (only parsing).

(** [sha1_hex] is the digest in hexadecimal digits, [print_diff] the unified diff of
    two texts with three lines of context, below a header for each; [hash_order] is
    the order in which a map is iterated. *)
Class DiffHost (U : Type) `{Countable U} := {
  relative_path_from : U → U → option str;
  sha1_hex : list N → str;
  print_diff (old new old_header new_header : str) : str;
  hash_order {A} : gmap (TrackedPath U) A → list (TrackedPath U * A)
}.
Class DiffHostLaws (U : Type) `{Countable U} `{!DiffHost U} : Prop := {
  hash_order_all {A} (m : gmap (TrackedPath U) A) : hash_order m ≡ₚ map_to_list m
}.

(** * The tracker *)

Record TrackedContent := mkTracked { content : str; revision : N }.

Section tracker.
Context {U : Type} `{Countable U} `{!PathUri U} `{!DiffHost U}.
Implicit Types (p : TrackedPath U).

Definition DiffCacheKey : Type := TrackedPath U * option N * TrackedPath U * option N.

Record TurnDiffTracker := mkTracker {
  valid : bool;
  display_roots_by_environment : gmap str U;
  baseline_by_path : gmap (TrackedPath U) TrackedContent;
  current_by_path : gmap (TrackedPath U) TrackedContent;
  origin_by_current_path : gmap (TrackedPath U) (TrackedPath U);
  next_revision : N;
  rendered_diffs : gmap DiffCacheKey (option str);
  unified_diff : option str
}.
Implicit Types (t : TurnDiffTracker).

Definition with_environment_display_roots (display_roots : gmap str U) : TurnDiffTracker :=
  mkTracker true display_roots ∅ ∅ ∅ 0 ∅ None.

Definition invalidate t : TurnDiffTracker :=
  mkTracker false (display_roots_by_environment t) (baseline_by_path t) (current_by_path t)
    (origin_by_current_path t) (next_revision t) ∅ None.

Definition set_baseline f t : TurnDiffTracker :=
  mkTracker (valid t) (display_roots_by_environment t) (f (baseline_by_path t)) (current_by_path t)
    (origin_by_current_path t) (next_revision t) (rendered_diffs t) (unified_diff t).
Definition set_current f t : TurnDiffTracker :=
  mkTracker (valid t) (display_roots_by_environment t) (baseline_by_path t) (f (current_by_path t))
    (origin_by_current_path t) (next_revision t) (rendered_diffs t) (unified_diff t).
Definition set_origin f t : TurnDiffTracker :=
  mkTracker (valid t) (display_roots_by_environment t) (baseline_by_path t) (current_by_path t)
    (f (origin_by_current_path t)) (next_revision t) (rendered_diffs t) (unified_diff t).

Definition tracked_content (text : str) t : TurnDiffTracker * TrackedContent :=
  (mkTracker (valid t) (display_roots_by_environment t) (baseline_by_path t) (current_by_path t)
     (origin_by_current_path t) (next_revision t + 1) (rendered_diffs t) (unified_diff t),
   mkTracked text (next_revision t)).
Definition insert_baseline p (text : str) t : TurnDiffTracker :=
  let '(t, tracked) := tracked_content text t in set_baseline <[p := tracked]> t.
Definition insert_current p (text : str) t : TurnDiffTracker :=
  let '(t, tracked) := tracked_content text t in set_current <[p := tracked]> t.

(** Neither in the one map nor in the other *)
Definition is_untracked p t : bool :=
  bool_decide (current_by_path t !! p = None) && bool_decide (baseline_by_path t !! p = None).
Definition insert_overwritten p (overwritten : option str) t : TurnDiffTracker :=
  match overwritten with
  | Some text => if is_untracked p t then insert_baseline p text t else t
  | None => t
  end.

Definition apply_add p (text : str) (overwritten_content : option str) t : TurnDiffTracker :=
  let t := set_origin (delete p) t in
  let t := insert_overwritten p overwritten_content t in
  insert_current p text t.

Definition apply_delete p (text : str) t : TurnDiffTracker :=
  let removed := current_by_path t !! p in
  let t := set_current (delete p) t in
  let t := if bool_decide (removed = None) && bool_decide (baseline_by_path t !! p = None)
           then insert_baseline p text t else t in
  set_origin (delete p) t.

Definition apply_update source_path (move_path : option (TrackedPath U)) (old_content : str)
    (overwritten_move_content : option str) (new_content : str) t : TurnDiffTracker :=
  let t := insert_overwritten source_path (Some old_content) t in
  match move_path with
  | Some dest_path =>
      let t := insert_overwritten dest_path overwritten_move_content t in
      let origin := default source_path (origin_by_current_path t !! source_path) in
      let t := set_origin (delete source_path) t in
      let t := set_current (delete source_path) t in
      let t := insert_current dest_path new_content t in
      let t := set_origin (delete dest_path) t in
      if decide (dest_path = origin) then t else set_origin <[dest_path := origin]> t
  | None => insert_current source_path new_content t
  end.

Definition apply_change (environment_id : str) (c : AppliedPatchChange U) t : TurnDiffTracker :=
  let source_path := (environment_id, path c) in
  match change c with
  | Change.Add text overwritten_content => apply_add source_path text overwritten_content t
  | Change.Delete text => apply_delete source_path text t
  | Change.Update move_path old_content overwritten_move_content new_content =>
      apply_update source_path (pair environment_id <$> move_path) old_content overwritten_move_content new_content t
  end.

(** * The diff *)

(** A move from a path that held a file before the turn, and holds none now, to one
    that held none before. *)
Definition rename_pair t '(dest_path, origin_path) : option (TrackedPath U * TrackedPath U) :=
  if bool_decide (dest_path = origin_path)
     || bool_decide (is_Some (current_by_path t !! origin_path))
     || bool_decide (current_by_path t !! dest_path = None)
     || bool_decide (baseline_by_path t !! origin_path = None)
     || bool_decide (is_Some (baseline_by_path t !! dest_path))
  then None
  else Some (origin_path, dest_path).
Definition rename_pairs t : gmap (TrackedPath U) (TrackedPath U) :=
  foldl (λ pairs '(origin_path, dest_path), <[origin_path := dest_path]> pairs) ∅
    (omap (rename_pair t) (hash_order (origin_by_current_path t))).

Definition display_path t p : str :=
  let '(environment_id, path) := p in
  let display := default (inferred_native_path_string path)
                   (display_roots_by_environment t !! environment_id ≫= relative_path_from path) in
  if bool_decide (1 < base.size (display_roots_by_environment t)) && negb (is_nil environment_id)
  then environment_id ++ lit "/" ++ display else display.
(** [replace('\\', "/")] *)
Definition with_slashes (s : str) : str := (λ c, if decide (c = 92%N) then 47%N else c) <$> s.

Definition ZERO_OID : str := replicate 40 48%N.
Definition DEV_NULL : str := lit "/dev/null".
Definition REGULAR_FILE_MODE : str := lit "100644".
Definition git_blob_oid (text : str) : str :=
  let data := into_bytes text in
  sha1_hex (into_bytes (lit "blob " ++ decimal_N (N.of_nat (length data)) ++ [0%N]) ++ data).

Definition render_diff t left_path (left_content : option str) right_path (right_content : option str) : option str :=
  if decide (left_content = right_content) then None
  else
    let left_display := with_slashes (display_path t left_path) in
    let right_display := with_slashes (display_path t right_path) in
    let left_oid := from_option git_blob_oid ZERO_OID left_content in
    let right_oid := from_option git_blob_oid ZERO_OID right_content in
    let old_header := match left_content with Some _ => lit "a/" ++ left_display | None => DEV_NULL end in
    let new_header := match right_content with Some _ => lit "b/" ++ right_display | None => DEV_NULL end in
    let diff := lit "diff --git a/" ++ left_display ++ lit " b/" ++ right_display ++ [nl] in
    let diff := diff ++
      match left_content, right_content with
      | None, Some _ => lit "new file mode " ++ REGULAR_FILE_MODE ++ [nl]
      | Some _, None => lit "deleted file mode " ++ REGULAR_FILE_MODE ++ [nl]
      | _, _ => []
      end in
    let diff := diff ++ lit "index " ++ left_oid ++ lit ".." ++ right_oid ++ [nl] in
    Some (diff ++ print_diff (default [] left_content) (default [] right_content) old_header new_header).

(** [Vec::dedup] *)
Fixpoint dedup (paths : list (TrackedPath U)) : list (TrackedPath U) :=
  match paths with
  | p :: (q :: _) as rest => if decide (p = q) then dedup rest else p :: dedup rest
  | paths => paths
  end.
Definition sorted_paths t : list (TrackedPath U) :=
  let paths := (hash_order (baseline_by_path t)).*1 ++ (hash_order (current_by_path t)).*1 in
  dedup (sort_by (λ p q, str_leb (display_path t p) (display_path t q)) paths).

(** The loop of [refresh_unified_diff] *)
Record Refresh := mkRefresh {
  handled : gset (TrackedPath U);
  previous_diffs : gmap DiffCacheKey (option str);
  new_diffs : gmap DiffCacheKey (option str);
  aggregated : str
}.
Definition cache_key t left_path right_path : DiffCacheKey :=
  (left_path, revision <$> baseline_by_path t !! left_path, right_path, revision <$> current_by_path t !! right_path).
Definition render_entry t left_path right_path : option str :=
  render_diff t left_path (content <$> baseline_by_path t !! left_path)
    right_path (content <$> current_by_path t !! right_path).
Definition push_diff (aggregated : str) (rendered : option str) : str :=
  match rendered with
  | Some diff => let aggregated := aggregated ++ diff in
                 if ends_with aggregated [nl] then aggregated else aggregated ++ [nl]
  | None => aggregated
  end.

Definition refresh_path t (pairs : gmap (TrackedPath U) (TrackedPath U)) (st : Refresh) p : Refresh :=
  if decide (p ∈ handled st) then st
  else
    let handled := {[p]} ∪ handled st in
    if existsb (λ pair, bool_decide (pair.2 = p)) (map_to_list pairs)
    then mkRefresh handled (previous_diffs st) (new_diffs st) (aggregated st)
    else
      let right_path := default p (pairs !! p) in
      let handled := {[right_path]} ∪ handled in
      let key := cache_key t p right_path in
      let rendered := default (render_entry t p right_path) (previous_diffs st !! key) in
      mkRefresh handled (delete key (previous_diffs st)) (<[key := rendered]> (new_diffs st))
        (push_diff (aggregated st) rendered).

Definition refresh_unified_diff t : TurnDiffTracker :=
  let refreshed := foldl (refresh_path t (rename_pairs t)) (mkRefresh ∅ (rendered_diffs t) ∅ []) (sorted_paths t) in
  mkTracker (valid t) (display_roots_by_environment t) (baseline_by_path t) (current_by_path t)
    (origin_by_current_path t) (next_revision t) (new_diffs refreshed)
    (if is_nil (aggregated refreshed) then None else Some (aggregated refreshed)).

Definition track_delta (environment_id : str) (d : AppliedPatchDelta U) t : TurnDiffTracker :=
  if negb (valid t) then t
  else if negb (exact d) then invalidate t
  else refresh_unified_diff (foldl (λ t c, apply_change environment_id c t) t (changes d)).

End tracker.

Arguments TurnDiffTracker U {_ _}.
Arguments Refresh U {_ _}.
Arguments DiffCacheKey : clear implicits.
