(* ===== verification/TurnDiffSpec.v ===== *)
(** What the diff of a turn says.  The contents the tracker keeps are those of the
    files before the turn and now, though it only reads deltas; no diff means that
    files were at most moved; and the diff does not depend on what was rendered
    before.  The contract with [PatchApply] is that an exact delta is faithful. *)

From S2P Require Import Prelude Text Utf8 FileSystem PatchReplace PatchApply TurnDiff.

Section spec.
Context {U : Type} `{Countable U} `{!PathUri U} `{!DiffHost U}.
Implicit Types (t : TurnDiffTracker U) (p q : TrackedPath U).
Abbreviation Files := (TrackedPath U → option (list N)).
Implicit Types F : Files.

(** * The contents that are tracked *)

Definition before t p : option str := content <$> baseline_by_path t !! p.
Definition now t p : option str := content <$> current_by_path t !! p.

(** What the tracker has of a path, and the file before the turn and now *)
Definition entry_ok (b c : option str) (f0 f : option (list N)) : Prop :=
  match b, c with
  | None, None => f = f0
  | _, _ => f0 = into_bytes <$> b ∧ f = into_bytes <$> c
  end.
Definition follows t F0 F : Prop := ∀ p, entry_ok (before t p) (now t p) (F0 p) (F p).

(** The first contents that are noted of a path stay. *)
Definition note (b c o : option str) : option str := match b, c with None, None => o | _, _ => b end.

Definition at_path {A} p (x : A) (f : TrackedPath U → A) : TrackedPath U → A := λ q, if decide (q = p) then x else f q.

Lemma note_before b c o f0 f : entry_ok b c f0 f → f = into_bytes <$> o → f0 = into_bytes <$> note b c o.
Proof. destruct b, c; simpl; naive_solver. Qed.

Lemma entry_noted b c o f0 f new :
  entry_ok b c f0 f → f = into_bytes <$> o → entry_ok (note b c o) new f0 (into_bytes <$> new).
Proof. intros He Hf. pose proof (note_before _ _ _ _ _ He Hf) as ->. destruct (note b c o), new; done. Qed.

Lemma lookup_at {A B} (f : A → B) (m : gmap (TrackedPath U) A) p q x :
  f <$> <[p := x]> m !! q = at_path p (Some (f x)) (λ q, f <$> m !! q) q.
Proof. unfold at_path. case_decide; [subst; by rewrite lookup_insert_eq|by rewrite lookup_insert_ne]. Qed.
Lemma delete_at {A B} (f : A → B) (m : gmap (TrackedPath U) A) p q :
  f <$> delete p m !! q = at_path p None (λ q, f <$> m !! q) q.
Proof. unfold at_path. case_decide; [subst; by rewrite lookup_delete_eq|by rewrite lookup_delete_ne]. Qed.

Lemma untracked_spec p t : is_untracked p t = true ↔ now t p = None ∧ before t p = None.
Proof. unfold is_untracked, now, before. rewrite andb_true_iff, !bool_decide_eq_true, !fmap_None. done. Qed.

Lemma insert_overwritten_before p o t q :
  before (insert_overwritten p o t) q = at_path p (note (before t p) (now t p) o) (before t) q.
Proof.
  unfold insert_overwritten. pose proof (untracked_spec p t) as Hu. destruct o as [text|].
  - destruct (is_untracked p t).
    + destruct Hu as [Hu _]. destruct (Hu eq_refl) as [Hc Hb]. rewrite Hc, Hb. unfold before at 1. apply (lookup_at content).
    + unfold at_path. case_decide; [|done]. subst q. unfold note.
      destruct (before t p), (now t p); try done. by destruct Hu as [_ Hu]; specialize (Hu (conj eq_refl eq_refl)).
  - unfold at_path. case_decide; [|done]. subst q. by destruct (before t p), (now t p).
Qed.
Lemma insert_overwritten_now p o t q : now (insert_overwritten p o t) q = now t q.
Proof. unfold insert_overwritten. destruct o; [|done]. by destruct (is_untracked p t). Qed.

Lemma insert_current_now p text t q : now (insert_current p text t) q = at_path p (Some text) (now t) q.
Proof. apply (lookup_at content). Qed.
Lemma set_origin_contents f t : before (set_origin f t) = before t ∧ now (set_origin f t) = now t.
Proof. done. Qed.

Lemma apply_add_follows p text o t F0 F :
  F p = into_bytes <$> o → follows t F0 F → follows (apply_add p text o t) F0 (at_path p (Some (into_bytes text)) F).
Proof.
  intros Hp Hf q. specialize (Hf q). unfold apply_add. rewrite insert_current_now.
  change (before (insert_current p text (insert_overwritten p o (set_origin (delete p) t))) q)
    with (before (insert_overwritten p o (set_origin (delete p) t)) q).
  rewrite insert_overwritten_before. unfold at_path. case_decide as Hq; [subst q|by rewrite insert_overwritten_now].
  apply (entry_noted _ _ o _ (F p) (Some text)); [exact Hf|done].
Qed.

Lemma apply_delete_now p text t q : now (apply_delete p text t) q = at_path p None (now t) q.
Proof.
  unfold apply_delete. destruct (_ && _); unfold now at 1; apply (delete_at content).
Qed.
Lemma apply_delete_before p text t q :
  before (apply_delete p text t) q = at_path p (note (before t p) (now t p) (Some text)) (before t) q.
Proof.
  unfold apply_delete. cbn [baseline_by_path set_current]. unfold now.
  destruct (current_by_path t !! p) as [c|]; destruct (baseline_by_path t !! p) as [b|] eqn:Hb; simpl.
  4: { unfold before at 2. rewrite Hb. simpl. apply (lookup_at content). }
  all: unfold at_path; destruct (decide (q = p)) as [->|]; [|done]; unfold before; simpl; by rewrite Hb.
Qed.

Lemma apply_delete_follows p text t F0 F :
  F p = Some (into_bytes text) → follows t F0 F → follows (apply_delete p text t) F0 (at_path p None F).
Proof.
  intros Hp Hf q. specialize (Hf q). rewrite apply_delete_now, apply_delete_before.
  unfold at_path. case_decide as Hq; [subst q|done].
  by apply (entry_noted _ _ (Some text) _ (F p) None).
Qed.

Lemma apply_rewrite_follows p old new t F0 F :
  F p = Some (into_bytes old) → follows t F0 F →
  follows (apply_update p None old None new t) F0 (at_path p (Some (into_bytes new)) F).
Proof.
  intros Hp Hf q. specialize (Hf q). unfold apply_update. rewrite insert_current_now.
  change (before (insert_current p new (insert_overwritten p (Some old) t)) q)
    with (before (insert_overwritten p (Some old) t) q).
  rewrite insert_overwritten_before. unfold at_path. case_decide as Hq; [subst q|by rewrite insert_overwritten_now].
  by apply (entry_noted _ _ (Some old) _ (F p) (Some new)).
Qed.

Lemma apply_move_follows p dest old o new t F0 F :
  dest ≠ p → F p = Some (into_bytes old) → F dest = into_bytes <$> o → follows t F0 F →
  follows (apply_update p (Some dest) old o new t) F0 (at_path p None (at_path dest (Some (into_bytes new)) F)).
Proof.
  intros Hne Hp Hd Hf q. pose proof (Hf q) as Hq. pose proof (Hf p) as Hfp. pose proof (Hf dest) as Hfd.
  set (t1 := insert_overwritten dest o (insert_overwritten p (Some old) t)).
  assert (∀ q, before (apply_update p (Some dest) old o new t) q = before t1 q
             ∧ now (apply_update p (Some dest) old o new t) q = at_path dest (Some new) (at_path p None (now t1)) q) as Ht.
  { intros r. unfold apply_update. fold t1. case_decide.
    all: split; [done|].
    all: trans (now (insert_current dest new (set_current (delete p) (set_origin (delete p) t1))) r); [done|].
    all: rewrite insert_current_now; unfold at_path; case_decide; [done|]; apply (delete_at content). }
  destruct (Ht q) as [-> ->]. unfold t1. rewrite insert_overwritten_before. unfold at_path.
  destruct (decide (q = dest)) as [->|Hqd].
  - rewrite decide_False by done. rewrite !insert_overwritten_before, !insert_overwritten_now. unfold at_path.
    rewrite decide_False by done. by apply (entry_noted _ _ o _ (F dest) (Some new)).
  - rewrite !insert_overwritten_before, !insert_overwritten_now. unfold at_path. case_decide as Hqp; [subst q|done].
    by apply (entry_noted _ _ (Some old) _ (F p) None).
Qed.

(** * Deltas *)

(** The files of an environment *)
Definition in_env (e : str) (m : gmap U (list N)) F : Files :=
  λ q, if decide (q.1 = e) then m !! q.2 else F q.
Definition onto_itself (c : AppliedPatchChange U) : Prop :=
  match change c with Change.Update (Some dest) _ _ _ => dest = path c | _ => False end.

Lemma follows_ext t F0 F F' : (∀ p, F p = F' p) → follows t F0 F → follows t F0 F'.
Proof. intros HF Hf p. by rewrite <- HF. Qed.

Lemma restored (u : U) o (m m' : gmap U (list N)) : restore u o m' = m → m !! u = into_bytes <$> o.
Proof. intros <-. unfold restore. by rewrite lookup_partial_alter_eq. Qed.

Lemma apply_change_follows e c t F0 F m :
  undone c m → ¬ onto_itself c → follows t F0 (in_env e m F) →
  follows (apply_change e c t) F0 (in_env e (replay_change m c) F).
Proof.
  intros Hu Hself Hf. unfold undone, revert_change, replay_change, apply_change, onto_itself in *.
  destruct c as [u [text o|text|[dest|] old o new]]; simpl in *.
  - apply restored in Hu. eapply follows_ext, apply_add_follows, Hf; [|unfold in_env; simpl; by rewrite decide_True].
    intros [e' v]. unfold at_path, in_env. simpl. repeat case_decide; simplify_eq; rewrite ?lookup_insert_eq; try done.
    rewrite lookup_insert_ne; [done|]. congruence.
  - apply restored in Hu. eapply follows_ext, apply_delete_follows, Hf; [|unfold in_env; simpl; by rewrite decide_True].
    intros [e' v]. unfold at_path, in_env. simpl. repeat case_decide; simplify_eq; rewrite ?lookup_delete_eq; try done.
    rewrite lookup_delete_ne; [done|]. congruence.
  - apply restored in Hu as Hd.
    assert (m !! u = Some (into_bytes old)) as Hp.
    { rewrite <- Hu. unfold restore. rewrite lookup_partial_alter_ne by done. by rewrite lookup_partial_alter_eq. }
    eapply follows_ext, (apply_move_follows (e, u) (e, dest)), Hf;
      [|congruence|unfold in_env; simpl; by rewrite decide_True..].
    intros [e' v]. unfold at_path, in_env. simpl. repeat case_decide; simplify_eq;
      rewrite ?lookup_delete_eq, ?lookup_insert_eq; try done.
    + rewrite lookup_delete_ne, lookup_insert_eq by congruence. done.
    + rewrite lookup_delete_ne, lookup_insert_ne by congruence. done.
  - apply restored in Hu. eapply follows_ext, apply_rewrite_follows, Hf; [|unfold in_env; simpl; by rewrite decide_True].
    intros [e' v]. unfold at_path, in_env. simpl. repeat case_decide; simplify_eq; rewrite ?lookup_insert_eq; try done.
    rewrite lookup_insert_ne; [done|]. congruence.
Qed.

Lemma apply_changes_follow e cs t F0 F m :
  faithful cs m → Forall (λ c, ¬ onto_itself c) cs → follows t F0 (in_env e m F) →
  follows (foldl (λ t c, apply_change e c t) t cs) F0 (in_env e (replay cs m) F).
Proof.
  revert t m. induction cs as [|c cs IH]; intros t m; [done|]. intros [Hc Hcs] [Hs Hss]%Forall_cons Hf. simpl.
  apply IH; [done..|]. by apply apply_change_follows.
Qed.

Lemma track_delta_follows e (d : AppliedPatchDelta U) t F0 F m :
  faithful (changes d) m → Forall (λ c, ¬ onto_itself c) (changes d) → follows t F0 (in_env e m F) →
  valid (track_delta e d t) = true → follows (track_delta e d t) F0 (in_env e (replay (changes d) m) F).
Proof.
  intros Hc Hs Hf. unfold track_delta. destruct (valid t) eqn:Hv; simpl; [|by rewrite Hv].
  destruct (exact d); simpl; [|done]. intros _.
  exact (apply_changes_follow e (changes d) t F0 F m Hc Hs Hf).
Qed.

(** * The cache *)

(** Texts by revision: a revision stands for one text, whatever it is the content of. *)
Abbreviation Texts := (gmap N str).
Definition versioned (texts : Texts) (m : gmap (TrackedPath U) TrackedContent) : Prop :=
  ∀ p x, m !! p = Some x → texts !! revision x = Some (content x).
Definition cached (texts : Texts) t (key : DiffCacheKey U) (rendered : option str) : Prop :=
  let '(left_path, left_revision, right_path, right_revision) := key in
  (∀ r, left_revision = Some r ∨ right_revision = Some r → is_Some (texts !! r))
  ∧ rendered = render_diff t left_path (left_revision ≫= (texts !!.)) right_path (right_revision ≫= (texts !!.)).
Definition cache_ok (texts : Texts) t : Prop :=
  (∀ r, is_Some (texts !! r) → (r < next_revision t)%N)
  ∧ versioned texts (baseline_by_path t) ∧ versioned texts (current_by_path t)
  ∧ ∀ key rendered, rendered_diffs t !! key = Some rendered → cached texts t key rendered.

Lemma versioned_insert texts m p x :
  versioned texts m → texts !! revision x = Some (content x) → versioned texts (<[p := x]> m).
Proof. intros Hm Hx q y [[-> ->]|[_ Hy]]%lookup_insert_Some; [done|by eapply Hm]. Qed.
Lemma versioned_delete texts m p : versioned texts m → versioned texts (delete p m).
Proof. intros Hm q y [_ Hy]%lookup_delete_Some. by eapply Hm. Qed.
Lemma versioned_mono texts texts' m : texts ⊆ texts' → versioned texts m → versioned texts' m.
Proof. intros Ht Hm p x Hx. eapply lookup_weaken; [by eapply Hm|done]. Qed.

Lemma cached_mono texts texts' t key rendered :
  texts ⊆ texts' → cached texts t key rendered → cached texts' t key rendered.
Proof.
  intros Ht. destruct key as [[[lp lr] rp] rr]. intros [Hr ->]. split.
  - intros r Hor. destruct (Hr r Hor) as [x Hx]. exists x. by eapply lookup_weaken.
  - assert (∀ o : option N, (∀ r, o = Some r → is_Some (texts !! r)) → o ≫= (texts' !!.) = o ≫= (texts !!.)) as He.
    { intros [r|] Ho; [|done]. destruct (Ho r eq_refl) as [x Hx]. simpl. rewrite Hx. by eapply lookup_weaken. }
    by rewrite !He by naive_solver.
Qed.

(** A text that is tracked gets a revision of its own. *)
Lemma tracked_text texts t text :
  cache_ok texts t → ∃ texts', texts ⊆ texts' ∧ cache_ok texts' (tracked_content text t).1
    ∧ texts' !! next_revision t = Some text.
Proof.
  intros (Hn & Hb & Hc & Hd).
  assert (texts !! next_revision t = None) as Hf.
  { apply eq_None_not_Some. intros Hs%Hn. lia. }
  pose proof (insert_subseteq texts (next_revision t) text Hf) as Hs.
  exists (<[next_revision t := text]> texts). split; [done|]. split; [|apply lookup_insert_eq]. split_and!.
  - intros r [x [[<- _]|[_ Hx]]%lookup_insert_Some]; simpl; [lia|]. assert (is_Some (texts !! r)) as ?%Hn by by exists x. lia.
  - by eapply versioned_mono.
  - by eapply versioned_mono.
  - intros key rendered Hk. eapply cached_mono; [done|]. by apply (Hd key).
Qed.

Definition cached_tracker t : Prop := ∃ texts, cache_ok texts t.

Lemma insert_baseline_cached p text t : cached_tracker t → cached_tracker (insert_baseline p text t).
Proof.
  intros [texts Hok]. destruct (tracked_text texts t text Hok) as (texts' & _ & (Hn & Hb & Hc & Hd) & Hx).
  exists texts'. split_and!; [done| |done|done]. by apply versioned_insert.
Qed.
Lemma insert_current_cached p text t : cached_tracker t → cached_tracker (insert_current p text t).
Proof.
  intros [texts Hok]. destruct (tracked_text texts t text Hok) as (texts' & _ & (Hn & Hb & Hc & Hd) & Hx).
  exists texts'. split_and!; [done|done| |done]. by apply versioned_insert.
Qed.
Lemma delete_current_cached p t : cached_tracker t → cached_tracker (set_current (delete p) t).
Proof. intros [texts (Hn & Hb & Hc & Hd)]. exists texts. split_and!; [done|done|by apply versioned_delete|done]. Qed.
Lemma set_origin_cached f t : cached_tracker t → cached_tracker (set_origin f t).
Proof. done. Qed.
Lemma insert_overwritten_cached p o t : cached_tracker t → cached_tracker (insert_overwritten p o t).
Proof. intros Ht. destruct o; [|done]. simpl. destruct (is_untracked p t); [by apply insert_baseline_cached|done]. Qed.

Lemma apply_change_cached e c t : cached_tracker t → cached_tracker (apply_change e c t).
Proof.
  intros Ht. unfold apply_change. destruct (change c) as [text o|text|[dest|] old o new]; cbn -[insert_overwritten].
  - by apply insert_current_cached, insert_overwritten_cached, set_origin_cached.
  - unfold apply_delete. apply set_origin_cached. destruct (_ && _); [apply insert_baseline_cached|];
      by apply delete_current_cached.
  - unfold apply_update. assert (∀ p text t, cached_tracker t → cached_tracker
      (insert_current p text (set_current (delete (e, path c)) (set_origin (delete (e, path c)) t)))) as Hm
      by (intros; by apply insert_current_cached, delete_current_cached, set_origin_cached).
    case_decide; repeat apply set_origin_cached; by apply Hm, insert_overwritten_cached, insert_overwritten_cached.
  - by apply insert_current_cached, insert_overwritten_cached.
Qed.

Lemma apply_changes_cached e cs t : cached_tracker t → cached_tracker (foldl (λ t c, apply_change e c t) t cs).
Proof. revert t. induction cs as [|c cs IH]; intros t Ht; [done|]. by apply IH, apply_change_cached. Qed.

(** ** Refreshing *)

(** What is rendered of an entry is what its revisions say. *)
Lemma entry_cached texts t left_path right_path rendered :
  cache_ok texts t → cached texts t (cache_key t left_path right_path) rendered ↔
  rendered = render_entry t left_path right_path.
Proof.
  intros (_ & Hb & Hc & _). unfold cached, cache_key, render_entry.
  assert (∀ m p, versioned texts m → ((revision <$> m !! p) ≫= (texts !!.)) = content <$> m !! p) as Hv.
  { intros m p Hm. destruct (m !! p) as [x|] eqn:Hx; [|done]. simpl. by apply Hm in Hx. }
  rewrite !Hv by done. split; [by intros [_ ->]|]. intros ->. split; [|done].
  intros r [Hr|Hr]; apply fmap_Some in Hr as (x & Hx & ->); [apply Hb in Hx|apply Hc in Hx]; by eexists.
Qed.

(** A loop with cached diffs, and the same loop that renders all. *)
Definition same_refresh texts t (st st' : Refresh U) : Prop :=
  handled st = handled st' ∧ aggregated st = aggregated st' ∧ previous_diffs st' = ∅
  ∧ (∀ key rendered, previous_diffs st !! key = Some rendered → cached texts t key rendered)
  ∧ (∀ key rendered, new_diffs st !! key = Some rendered → cached texts t key rendered).

Lemma refresh_path_same texts t pairs st st' p :
  cache_ok texts t → same_refresh texts t st st' →
  same_refresh texts t (refresh_path t pairs st p) (refresh_path t pairs st' p).
Proof.
  intros Hok (Hh & Ha & Hp' & Hp & Hn). unfold refresh_path. rewrite <- Hh. case_decide as Hin; [done|].
  destruct (existsb _ _); [done|]. set (right_path := default p (pairs !! p)).
  rewrite Hp', lookup_empty. simpl.
  assert (default (render_entry t p right_path) (previous_diffs st !! cache_key t p right_path)
          = render_entry t p right_path) as ->.
  { destruct (previous_diffs st !! _) as [r|] eqn:Hr; [|done]. simpl. apply Hp in Hr. by apply entry_cached in Hr. }
  split_and!; simpl; [done|by rewrite Ha|apply delete_empty| |].
  - intros key r [_ Hr]%lookup_delete_Some. by apply Hp.
  - intros key r [[<- <-]|[_ Hr]]%lookup_insert_Some; [by apply entry_cached|by apply Hn].
Qed.

Definition refreshed t (previous : gmap (DiffCacheKey U) (option str)) : Refresh U :=
  foldl (refresh_path t (rename_pairs t)) (mkRefresh ∅ previous ∅ []) (sorted_paths t).

Lemma refreshed_same texts t :
  cache_ok texts t → same_refresh texts t (refreshed t (rendered_diffs t)) (refreshed t ∅).
Proof.
  intros Hok. unfold refreshed.
  assert (same_refresh texts t (mkRefresh ∅ (rendered_diffs t) ∅ []) (mkRefresh ∅ ∅ ∅ [])) as Hs.
  { split_and!; [done..|apply Hok|]. intros key r. simpl. by rewrite lookup_empty. }
  revert Hs. generalize (mkRefresh (U := U) ∅ (rendered_diffs t) ∅ []), (mkRefresh (U := U) ∅ ∅ ∅ []).
  induction (sorted_paths t) as [|p paths IH]; intros st st' Hs; [done|]. simpl. by apply IH, refresh_path_same.
Qed.

Lemma refresh_cached t : cached_tracker t → cached_tracker (refresh_unified_diff t).
Proof.
  intros [texts Hok]. pose proof (refreshed_same texts t Hok) as (_ & _ & _ & _ & Hn).
  destruct Hok as (Hr & Hb & Hc & _). exists texts. by split_and!.
Qed.

Definition diff_text (aggregated : str) : option str := if is_nil aggregated then None else Some aggregated.
(** The diff, rendered from the contents alone *)
Definition fresh_diff t : option str := diff_text (aggregated (refreshed t ∅)).

Lemma refresh_fresh t : cached_tracker t → unified_diff (refresh_unified_diff t) = fresh_diff t.
Proof.
  intros [texts Hok]. pose proof (refreshed_same texts t Hok) as (_ & Ha & _).
  unfold fresh_diff, refresh_unified_diff. simpl. fold (refreshed t (rendered_diffs t)). by rewrite Ha.
Qed.

Lemma fresh_diff_refresh t : fresh_diff (refresh_unified_diff t) = fresh_diff t.
Proof. by destruct t. Qed.

(** Trackers that the handlers of patches make *)
Inductive reachable : TurnDiffTracker U → Prop :=
| reachable_new display_roots : reachable (with_environment_display_roots display_roots)
| reachable_delta e d t : reachable t → reachable (track_delta e d t)
| reachable_invalidate t : reachable t → reachable (invalidate t).

Lemma empty_paths `{!DiffHostLaws U} t :
  baseline_by_path t = ∅ → current_by_path t = ∅ → sorted_paths t = [].
Proof.
  intros Hb Hc. unfold sorted_paths. rewrite Hb, Hc.
  assert (hash_order (∅ : gmap (TrackedPath U) TrackedContent) = []) as ->; [|done].
  apply Permutation_nil_r. rewrite (hash_order_all ∅). by rewrite map_to_list_empty.
Qed.

Lemma reachable_fresh `{!DiffHostLaws U} t :
  reachable t → cached_tracker t ∧ (valid t = true → unified_diff t = fresh_diff t).
Proof.
  induction 1 as [roots|e d t _ [Hc Hf]|t _ [Hc Hf]].
  - split; [|intros _; unfold fresh_diff, refreshed; by rewrite empty_paths].
    exists ∅. split_and!.
    + intros r [x Hx]. by rewrite lookup_empty in Hx.
    + intros p x Hx. simpl in Hx. by rewrite lookup_empty in Hx.
    + intros p x Hx. simpl in Hx. by rewrite lookup_empty in Hx.
    + intros key r Hx. simpl in Hx. by rewrite lookup_empty in Hx.
  - unfold track_delta. destruct (valid t) eqn:Hv; simpl; [|by rewrite Hv].
    destruct (exact d); simpl.
    + pose proof (apply_changes_cached e (changes d) t Hc) as Hc'. split; [by apply refresh_cached|].
      intros _. rewrite fresh_diff_refresh. by apply refresh_fresh.
    + split; [|done]. destruct Hc as [texts (Hr & Hb & Hcu & _)]. exists texts. split_and!; [done..|].
      intros key r. simpl. by rewrite lookup_empty.
  - split; [|done]. destruct Hc as [texts (Hr & Hb & Hcu & _)]. exists texts. split_and!; [done..|].
    intros key r. simpl. by rewrite lookup_empty.
Qed.

(** C11: The cache of rendered diffs does not show.  Whatever deltas a tracker has
    seen, the diff it shows while it is valid is the one it would show had it
    rendered every entry again, from the contents it keeps. *)
Theorem cached_diff_is_fresh `{!DiffHostLaws U} t :
  reachable t → valid t = true →
  unified_diff t = diff_text (aggregated (foldl (refresh_path t (rename_pairs t)) (mkRefresh ∅ ∅ ∅ []) (sorted_paths t))).
Proof. intros Hr Hv. by apply (reachable_fresh t Hr). Qed.

(** * No diff *)

Lemma dedup_elem p (paths : list (TrackedPath U)) : p ∈ dedup paths ↔ p ∈ paths.
Proof.
  induction paths as [|q [|r paths] IH]; [done..|].
  change (dedup (q :: r :: paths)) with (if decide (q = r) then dedup (r :: paths) else q :: dedup (r :: paths)).
  case_decide as Hq; [subst r|]; rewrite ?(elem_of_cons _ _ q), IH, ?(elem_of_cons _ _ q); set_solver.
Qed.

Lemma sorted_paths_elem `{!DiffHostLaws U} t p :
  p ∈ sorted_paths t ↔ is_Some (baseline_by_path t !! p) ∨ is_Some (current_by_path t !! p).
Proof.
  assert (∀ m : gmap (TrackedPath U) TrackedContent, p ∈ (hash_order m).*1 ↔ is_Some (m !! p)) as Hm.
  { intros m. rewrite (hash_order_all m). rewrite list_elem_of_fmap. split.
    - intros ([q x] & -> & Hin%elem_of_map_to_list). by exists x.
    - intros [x Hx]. exists (p, x). split; [done|]. by apply elem_of_map_to_list. }
  unfold sorted_paths. by rewrite dedup_elem, elem_of_sort_by, elem_of_app, !Hm.
Qed.

Lemma rename_pairs_spec t o d :
  rename_pairs t !! o = Some d →
  d ≠ o ∧ current_by_path t !! o = None ∧ is_Some (current_by_path t !! d)
  ∧ is_Some (baseline_by_path t !! o) ∧ baseline_by_path t !! d = None.
Proof.
  unfold rename_pairs. assert (∀ l (m : gmap (TrackedPath U) (TrackedPath U)),
    foldl (λ pairs '(origin_path, dest_path), <[origin_path := dest_path]> pairs) m l !! o = Some d →
    (o, d) ∈ l ∨ m !! o = Some d) as Hl.
  { induction l as [|[o' d'] l IH]; intros m Hd; [by right|]. simpl in Hd.
    apply IH in Hd as [Hin|[[-> ->]|[_ Hd]]%lookup_insert_Some]; [left; by right|left; by left|by right]. }
  intros [Hin|Hd]%Hl; [|by rewrite lookup_empty in Hd].
  apply list_elem_of_omap in Hin as ([d' o'] & _ & Hp). unfold rename_pair in Hp.
  destruct (_ || _) eqn:Hb; [done|]. injection Hp as -> ->.
  rewrite !orb_false_iff, !bool_decide_eq_false in Hb. destruct Hb as [[[[Hne Ho] Hd] Hbo] Hbd].
  split_and!; [done|by apply eq_None_not_Some| | |by apply eq_None_not_Some]; by apply not_eq_None_Some.
Qed.

Definition is_destination t p : bool := existsb (λ pair, bool_decide (pair.2 = p)) (map_to_list (rename_pairs t)).
Lemma is_destination_spec t p : is_destination t p = true ↔ ∃ o, rename_pairs t !! o = Some p.
Proof.
  unfold is_destination. rewrite existsb_exists. split.
  - intros ([o d] & Hin & Hd%bool_decide_eq_true). simpl in Hd. subst d. exists o.
    by apply elem_of_map_to_list, list_elem_of_In.
  - intros [o Ho]. exists (o, p). split; [|by apply bool_decide_eq_true].
    by apply list_elem_of_In, elem_of_map_to_list.
Qed.

Lemma render_diff_none t left_path left_content right_path right_content :
  render_diff t left_path left_content right_path right_content = None → left_content = right_content.
Proof. unfold render_diff. by case_decide. Qed.
Lemma push_diff_nil a r : push_diff a r = [] → a = [].
Proof.
  destruct r as [d|]; [|done]. simpl. destruct (ends_with _ _).
  - by intros [-> _]%app_nil.
  - by intros [[-> _]%app_nil _]%app_nil.
Qed.
Lemma push_rendered_nil t a left_path left_content right_path right_content :
  push_diff a (render_diff t left_path left_content right_path right_content) = [] → left_content = right_content.
Proof.
  intros Hp. unfold render_diff in Hp. case_decide as Hc; [done|]. exfalso. simpl in Hp.
  destruct (ends_with _ _).
  - by apply app_nil in Hp as [_ Hp].
  - apply app_nil in Hp as [Hp _]. by apply app_nil in Hp as [_ Hp].
Qed.

Lemma refresh_nil t pairs paths st :
  aggregated (foldl (refresh_path t pairs) st paths) = [] → aggregated st = [].
Proof.
  revert st. induction paths as [|p paths IH]; intros st; [done|]. simpl. intros Hn%IH.
  unfold refresh_path in Hn. case_decide; [done|]. destruct (existsb _ _); [done|]. by apply push_diff_nil in Hn.
Qed.

(** An entry that adds nothing to the diff *)
Definition silent t p : Prop :=
  is_destination t p = true ∨ before t p = now t (default p (rename_pairs t !! p)).

Lemma refresh_silent t paths st :
  previous_diffs st = ∅ → (∀ p, p ∈ handled st → silent t p) →
  aggregated (foldl (refresh_path t (rename_pairs t)) st paths) = [] → ∀ p, p ∈ paths → silent t p.
Proof.
  revert st. induction paths as [|p paths IH]; intros st Hprev Hh Hn q; [by intros ?%not_elem_of_nil|].
  simpl in Hn. pose proof (refresh_nil _ _ _ _ Hn) as Hn1.
  assert (silent t p ∧ previous_diffs (refresh_path t (rename_pairs t) st p) = ∅
          ∧ ∀ r, r ∈ handled (refresh_path t (rename_pairs t) st p) → silent t r) as (Hp & Hprev' & Hh').
  { clear IH Hn. unfold refresh_path in *. case_decide as Hin; [by auto|]. fold (is_destination t p) in *.
    destruct (is_destination t p) eqn:Hd; simpl in *.
    - assert (silent t p) as Hp by by left. split_and!; [done..|]. set_solver.
    - rewrite Hprev, lookup_empty in Hn1. simpl in Hn1. apply push_rendered_nil in Hn1.
      assert (silent t p) as Hp by by right. split; [done|]. rewrite Hprev, delete_empty. split; [done|].
      intros r [->%elem_of_singleton|[->%elem_of_singleton|Hr]%elem_of_union]%elem_of_union; [|done|by apply Hh].
      destruct (rename_pairs t !! p) as [d|] eqn:Hpd; [|done]. left. apply is_destination_spec. by exists p. }
  intros [->|Hq]%elem_of_cons; [done|]. by apply (IH _ Hprev' Hh' Hn).
Qed.

(** Files at most moved *)
Definition moved F0 F p : Prop :=
  ∃ o d, (p = o ∨ p = d) ∧ is_Some (F0 o) ∧ F d = F0 o ∧ F o = None ∧ F0 d = None.

Lemma no_diff_no_change `{!DiffHostLaws U} t F0 F p :
  follows t F0 F → fresh_diff t = None → F p = F0 p ∨ moved F0 F p.
Proof.
  intros Hf Hn. unfold fresh_diff, diff_text in Hn. destruct (is_nil _) eqn:Ha; [|done]. apply is_nil_true in Ha.
  assert (∀ q, q ∈ sorted_paths t → silent t q) as Hs.
  { apply (refresh_silent t (sorted_paths t) (mkRefresh ∅ ∅ ∅ [])); [done|set_solver|exact Ha]. }
  assert (∀ o d, rename_pairs t !! o = Some d → is_Some (F0 o) ∧ F d = F0 o ∧ F o = None ∧ F0 d = None) as Hmoved.
  { intros o d Hod. apply rename_pairs_spec in Hod as Hr. destruct Hr as (Hne & Hco & [c Hcd] & [b Hbo] & Hbd).
    assert (silent t o) as [Hd|He].
    - apply Hs, sorted_paths_elem. left. by exists b.
    - apply is_destination_spec in Hd as [o' Ho']. apply rename_pairs_spec in Ho' as (_ & _ & _ & _ & Hbn). congruence.
    - rewrite Hod in He. simpl in He. pose proof (Hf o) as Hfo. pose proof (Hf d) as Hfd.
      unfold before, now in *. rewrite Hco, Hbo, Hcd, Hbd in *. simpl in *.
      destruct Hfo as [Hfo0 Hfo], Hfd as [Hfd0 Hfd]. split_and!; [by rewrite Hfo0|congruence..]. }
  destruct (is_destination t p) eqn:Hdest.
  { apply is_destination_spec in Hdest as [o Ho]. right. exists o, p. split; [by right|by apply Hmoved]. }
  destruct (rename_pairs t !! p) as [d|] eqn:Hpd.
  { right. exists p, d. split; [by left|by apply Hmoved]. }
  left. pose proof (Hf p) as Hfp. unfold entry_ok in Hfp.
  destruct (decide (p ∈ sorted_paths t)) as [Hin|Hin].
  - apply Hs in Hin as [Hd|He]; [congruence|]. rewrite Hpd in He. simpl in He. rewrite He in Hfp.
    destruct (now t p); [|done]. by destruct Hfp as [-> ->].
  - rewrite sorted_paths_elem, <- !not_eq_None_Some in Hin. unfold before, now in Hfp.
    destruct (baseline_by_path t !! p); [naive_solver|]. by destruct (current_by_path t !! p); [naive_solver|].
Qed.

(** * A turn *)

(** The patches of a turn, each applied to the files the one before left and reported
    to the tracker *)
Section turn.
Context {S W : Type} `{Write W} (fs : ExecutorFileSystem U S) (environment_id : str) (cwd : U) (out err : W).

Fixpoint run_turn (patches : list str) (s : S) t : S * TurnDiffTracker U :=
  match patches with
  | [] => (s, t)
  | patch :: patches =>
      let o := apply_patch fs patch cwd out err s in
      run_turn patches (final_files o) (track_delta environment_id (delta_of (outcome_result o)) t)
  end.
(** No patch moves a file onto itself, which deletes it. *)
Fixpoint moves_elsewhere (patches : list str) (s : S) : bool :=
  match patches with
  | [] => true
  | patch :: patches =>
      let o := apply_patch fs patch cwd out err s in
      forallb (λ c, match change c with
                    | Change.Update (Some dest) _ _ _ => bool_decide (dest ≠ path c)
                    | _ => true
                    end) (changes (delta_of (outcome_result o)))
      && moves_elsewhere patches (final_files o)
  end.

Lemma run_turn_valid patches s t : valid (run_turn patches s t).2 = true → valid t = true.
Proof.
  revert s t. induction patches as [|patch patches IH]; intros s t; [done|]. simpl. intros Hv%IH.
  unfold track_delta in Hv. destruct (valid t) eqn:Ht; [done|]. simpl in Hv. congruence.
Qed.

Lemma run_turn_reachable patches s t : reachable t → reachable (run_turn patches s t).2.
Proof. revert s t. induction patches as [|patch patches IH]; intros s t Ht; [done|]. by apply IH, reachable_delta. Qed.

Lemma run_turn_follows (view : S → gmap U (list N)) `{!FileSystemLaws fs view} patches s t F0 F :
  moves_elsewhere patches s = true → valid (run_turn patches s t).2 = true →
  follows t F0 (in_env environment_id (view s) F) →
  follows (run_turn patches s t).2 F0 (in_env environment_id (view (run_turn patches s t).1) F).
Proof.
  revert s t. induction patches as [|patch patches IH]; intros s t; [done|]. simpl.
  intros [Hm Hms]%andb_true_iff Hv Hf. apply IH; [done..|].
  pose proof (run_turn_valid _ _ _ Hv) as Hvt. set (o := apply_patch fs patch cwd out err s) in *.
  destruct (exact (delta_of (outcome_result o))) eqn:He.
  2: { unfold track_delta in Hvt. rewrite He in Hvt. destruct (valid t) eqn:Ht; simpl in Hvt; congruence. }
  destruct (exact_delta_faithful fs view patch cwd out err s He) as [Hr Hfa]. fold o in Hr. rewrite <- Hr.
  apply track_delta_follows; [done| |done..]. apply Forall_forall. intros c Hc. rewrite forallb_forall in Hm.
  specialize (Hm c (proj1 (list_elem_of_In _ _) Hc)). unfold onto_itself.
  destruct (change c) as [| |[dest|]]; try (by intros []). by apply bool_decide_eq_true in Hm.
Qed.

(** C10: The diff of a turn follows the files.  While a tracker that was told of
    every patch of a turn is valid, and none moved a file onto itself, then for
    every file: the contents it keeps as those before the turn are those the file
    had, the contents it keeps as those now are those the file has, and a file it
    knows nothing of has not changed; and when it shows no diff, every file is as it
    was, or was moved as it was to a path where there was none. *)
Theorem turn_diff_follows_the_files `{!DiffHostLaws U} (view : S → gmap U (list N)) `{!FileSystemLaws fs view}
    display_roots patches s :
  let r := run_turn patches s (with_environment_display_roots display_roots) in
  let s' := r.1 in
  let t := r.2 in
  moves_elsewhere patches s = true → valid t = true →
  ∀ u, let p := (environment_id, u) in
    entry_ok (before t p) (now t p) (view s !! u) (view s' !! u)
    ∧ (unified_diff t = None → view s' !! u = view s !! u ∨
         ∃ o d, (u = o ∨ u = d) ∧ is_Some (view s !! o) ∧ view s' !! d = view s !! o
           ∧ view s' !! o = None ∧ view s !! d = None).
Proof.
  intros r. destruct r as [s' t] eqn:Hrun. cbn [fst snd]. intros Hm Hv u. cbn zeta. unfold r in Hrun. clear r.
  set (F0 := in_env environment_id (view s) (λ _, None)). set (F := in_env environment_id (view s') (λ _, None)).
  assert (reachable t) as Hre.
  { replace t with (run_turn patches s (with_environment_display_roots display_roots)).2 by by rewrite Hrun.
    apply run_turn_reachable, reachable_new. }
  assert (follows t F0 F) as Hf.
  { pose proof (run_turn_follows view patches s (with_environment_display_roots display_roots) F0 (λ _, None)) as Hf.
    rewrite Hrun in Hf. apply Hf; [done..|]. intros p. unfold before, now. simpl. by rewrite !lookup_empty. }
  assert (∀ v, F0 (environment_id, v) = view s !! v ∧ F (environment_id, v) = view s' !! v) as Hview
    by (intros v; unfold F0, F, in_env; simpl; by rewrite !decide_True).
  destruct (Hview u) as [Hu0 Hu]. split; [rewrite <- Hu0, <- Hu; apply Hf|]. intros Hd.
  rewrite (proj2 (reachable_fresh t Hre) Hv) in Hd. rewrite <- Hu0, <- Hu.
  destruct (no_diff_no_change t F0 F (environment_id, u) Hf Hd) as [?|(o & d & Hor & [x Hx] & Hmoved)]; [by left|right].
  assert (∀ q y, F0 q = Some y → q.1 = environment_id) as Henv
    by (intros q y; unfold F0, in_env; by case_decide).
  destruct Hmoved as (Hd' & Ho' & Hd0). pose proof (Henv _ _ Hx) as Heo.
  assert (d.1 = environment_id) as Hed by (unfold F, in_env in Hd'; rewrite Hx in Hd'; by case_decide).
  destruct o as [? o], d as [? d]. simpl in Heo, Hed. subst.
  destruct (Hview o) as [Ho0 Ho1], (Hview d) as [Hd1 Hd2]. exists o, d. rewrite <- Ho0, <- Ho1, <- Hd1, <- Hd2.
  split_and!; [destruct Hor; simplify_eq; auto|by eexists|done..].
Qed.
End turn.

End spec.

(** * Turns on a small tree

    What the diff of a turn shows, and where it is wrong. *)

Import PatchApply.Sink.

(** A host that prints the header and both texts, and iterates maps by keys, or the
    other way round. *)
#[local] Instance demo_host : DiffHost MemFs.path := {
  relative_path_from p root := if decide (take (length root) p = root) then Some (join (lit "/") (drop (length root) p)) else None;
  sha1_hex bytes := decimal_N (N.of_nat (length bytes));
  print_diff old new old_header new_header :=
    lit "--- " ++ old_header ++ [nl] ++ lit "+++ " ++ new_header ++ [nl] ++ old ++ new;
  hash_order A m := map_to_list m
}.
#[local] Instance demo_laws : DiffHostLaws MemFs.path.
Proof. by constructor. Qed.

Definition reversed_host : DiffHost MemFs.path := {|
  relative_path_from := @relative_path_from _ _ _ demo_host;
  sha1_hex := @sha1_hex _ _ _ demo_host;
  print_diff := @print_diff _ _ _ demo_host;
  hash_order A m := reverse (map_to_list m)
|}.
Lemma reversed_laws : @DiffHostLaws MemFs.path _ _ reversed_host.
Proof. constructor. intros A m. apply reverse_Permutation. Qed.

Definition patch_of (lines : list string) : str :=
  join [nl] ([lit "*** Begin Patch"] ++ (lit <$> lines) ++ [lit "*** End Patch"]).
Definition run (patches : list str) : MemFs.state * TurnDiffTracker MemFs.path :=
  run_turn MemFs.fs (lit "local") [] ([] : str) ([] : str) patches Demo.files0
    (with_environment_display_roots {[lit "local" := []]}).

(** Two patches: the second takes back what the first did to one file. *)
Definition demo_turn : list str :=
  [Demo.patch_text; patch_of ["*** Add File: b"; "+bee"; "*** Delete File: new/c"]].

Lemma turn_diff_follows_the_files_witness :
  let p := [lit "d"; lit "a"] in
  is_Some (unified_diff (run demo_turn).2)
  ∧ entry_ok (before (run demo_turn).2 (lit "local", p)) (now (run demo_turn).2 (lit "local", p))
      (MemFs.files Demo.files0 !! p) (MemFs.files (run demo_turn).1 !! p).
Proof.
  intros p. split; [vm_compute; by eexists|].
  apply (turn_diff_follows_the_files MemFs.fs (lit "local") [] [] [] MemFs.files {[lit "local" := []]} demo_turn Demo.files0);
    vm_compute; reflexivity.
Defined.

Lemma cached_diff_is_fresh_witness :
  let t := (run demo_turn).2 in
  unified_diff t = diff_text (aggregated (foldl (refresh_path t (rename_pairs t)) (mkRefresh ∅ ∅ ∅ []) (sorted_paths t))).
Proof.
  intros t. apply cached_diff_is_fresh; [|vm_compute; reflexivity].
  apply run_turn_reachable, reachable_new.
Defined.

(** A file that is only moved is not shown. *)
Example moved_file_is_not_shown :
  let r := run [patch_of ["*** Update File: b"; "*** Move to: c"; "@@"; "-bee"; "+bee"]] in
  unified_diff r.2 = None ∧ MemFs.files r.1 !! [lit "b"] = None ∧ is_Some (MemFs.files r.1 !! [lit "c"]).
Proof. vm_compute. split_and!; [done|done|by eexists]. Qed.

(** A file that is moved onto itself is deleted, but the tracker keeps its new
    contents and shows them. *)
Example self_move_is_shown_as_edit :
  let r := run [patch_of ["*** Update File: b"; "*** Move to: /b"; "@@"; "-bee"; "+bug"]] in
  valid r.2 = true ∧ MemFs.files r.1 !! [lit "b"] = None
  ∧ now r.2 (lit "local", [lit "b"]) = Some (lit "bug" ++ [nl]) ∧ is_Some (unified_diff r.2).
Proof. vm_compute. split_and!; [done..|by eexists]. Qed.

(** Two files that both come from one path: which of them is shown as the file that
    was renamed depends on the order of a hash map. *)
Definition two_moves : AppliedPatchDelta MemFs.path :=
  mkDelta [mkChange [lit "a"] (Change.Update (Some [lit "b"]) (lit "x") None (lit "y"));
           mkChange [lit "a"] (Change.Add (lit "z") None);
           mkChange [lit "a"] (Change.Update (Some [lit "c"]) (lit "z") None (lit "w"))] true.
Example renames_depend_on_hash_order :
  unified_diff (track_delta (DiffHost0 := demo_host) [] two_moves (with_environment_display_roots ∅))
  ≠ unified_diff (track_delta (DiffHost0 := reversed_host) [] two_moves (with_environment_display_roots ∅)).
Proof. vm_compute. discriminate. Qed.
