(* ===== verification/ExecPolicy.v ===== *)
(** The execution policy of [execpolicy/src]: rules that allow, prompt for or
    forbid commands by their prefix ([rule.rs], [policy.rs], [decision.rs],
    [executable_name.rs]) and the network rules compiled from a policy.
    Paths of the host are behind the class [HostPaths]; the fallback for
    commands no rule matches is an argument, as in the code. *)

From S2P Require Import Prelude Text.

(** * Data *)

(** [Decision], ordered by how much it restricts. *)
Inductive Decision := Allow | Prompt | Forbidden.

#[export] Instance Decision_eq_dec : EqDecision Decision.
Proof. solve_decision. Defined.

(** The derived [Ord]. *)
Definition severity (d : Decision) : nat :=
  match d with Allow => 0 | Prompt => 1 | Forbidden => 2 end.
Definition decision_max (a b : Decision) : Decision :=
  if decide (severity a ≤ severity b) then b else a.

(** [Error]: the variants of this crate's own code; positions are line and column. *)
Record ErrorLocation := mkLocation { location_path : str; range : (nat * nat) * (nat * nat) }.

Inductive Error :=
| InvalidDecision (raw : str)
| InvalidPattern (m : str)
| InvalidExample (m : str)
| InvalidRule (m : str)
| ExampleDidNotMatch (rules examples : list str) (location : option ErrorLocation)
| ExampleDidMatch (rule example : str) (location : option ErrorLocation).

(** [PatternToken] and [PrefixPattern] *)
Inductive PatternToken := Single (expected : str) | Alts (alternatives : list str).

Record PrefixPattern := mkPattern { first : str; rest : list PatternToken }.

(** [RuleMatch]; an [AbsolutePathBuf] is its text. *)
Inductive RuleMatch :=
| PrefixRuleMatch (matched_prefix : list str) (decision : Decision)
    (resolved_program : option str) (justification : option str)
| HeuristicsRuleMatch (command : list str) (decision : Decision).

(** [PrefixRule], the only implementation of the trait [Rule]. *)
Record PrefixRule := mkRule {
  pattern : PrefixPattern;
  rule_decision : Decision;
  rule_justification : option str
}.

(** [NetworkRuleProtocol] and [NetworkRule] *)
Inductive NetworkRuleProtocol := Http | Https | Socks5Tcp | Socks5Udp.

Record NetworkRule := mkNetworkRule {
  host : str;
  protocol : NetworkRuleProtocol;
  network_decision : Decision;
  network_justification : option str
}.

(** [Policy]; a [MultiMap] keeps the values of a key in insertion order. *)
Record Policy := mkPolicy {
  rules_by_program : gmap str (list PrefixRule);
  network_rules : list NetworkRule;
  host_executables_by_name : gmap str (list str)
}.

(** [MatchOptions] *)
Record MatchOptions := mkOptions { resolve_host_executables : bool }.
Definition default_options : MatchOptions := mkOptions false.

(** [Evaluation] *)
Record Evaluation := mkEvaluation { evaluation_decision : Decision; matched_rules : list RuleMatch }.

(** What the code asks of the host: whether it is Windows ([cfg(windows)]),
    [AbsolutePathBuf::try_from], and [Path::file_name] read as a [str]. *)
Class HostPaths := {
  windows : bool;
  absolute_path : str → option str;
  path_file_name : str → option str
}.

(** * Names of executables *)

Definition WINDOWS_EXECUTABLE_SUFFIXES : list str := [lit ".exe"; lit ".cmd"; lit ".bat"; lit ".com"].

(** The loop of [executable_lookup_key] over the suffixes. *)
Fixpoint strip_executable_suffix (suffixes : list str) (raw : str) : str :=
  match suffixes with
  | [] => raw
  | suffix :: suffixes =>
      match strip_suffix suffix raw with
      | Some stem => stem
      | None => strip_executable_suffix suffixes raw
      end
  end.

Definition executable_lookup_key `{HostPaths} (raw : str) : str :=
  if windows then strip_executable_suffix WINDOWS_EXECUTABLE_SUFFIXES (to_ascii_lowercase raw)
  else raw.

Definition executable_path_lookup_key `{HostPaths} (path : str) : option str :=
  executable_lookup_key <$> path_file_name path.

(** * Rules *)

(** [Decision::parse] *)
Definition parse_decision (raw : str) : result Error Decision :=
  if decide (raw = lit "allow") then Ok Allow
  else if decide (raw = lit "prompt") then Ok Prompt
  else if decide (raw = lit "forbidden") then Ok Forbidden
  else Err (InvalidDecision raw).

(** [PatternToken::matches] *)
Definition token_matches (t : PatternToken) (token : str) : bool :=
  match t with
  | Single expected => bool_decide (expected = token)
  | Alts alternatives => existsb (λ alt, bool_decide (alt = token)) alternatives
  end.

(** [PatternToken::alternatives] *)
Definition alternatives (t : PatternToken) : list str :=
  match t with Single expected => [expected] | Alts alternatives => alternatives end.

(** [PrefixPattern::matches_prefix] *)
Definition matches_prefix (p : PrefixPattern) (cmd : list str) : option (list str) :=
  let pattern_length := length (rest p) + 1 in
  if bool_decide (length cmd < pattern_length) || negb (bool_decide (head cmd = Some (first p)))
  then None
  else if forallb (λ '(t, token), token_matches t token)
            (zip (rest p) (take (pattern_length - 1) (drop 1 cmd)))
  then Some (take pattern_length cmd)
  else None.

(** [<PrefixRule as Rule>::program] and [::matches] *)
Definition program (r : PrefixRule) : str := first (pattern r).
Definition rule_matches (r : PrefixRule) (cmd : list str) : option RuleMatch :=
  (λ matched_prefix, PrefixRuleMatch matched_prefix (rule_decision r) None (rule_justification r))
  <$> matches_prefix (pattern r) cmd.

(** [RuleMatch::decision] and [RuleMatch::with_resolved_program] *)
Definition match_decision (m : RuleMatch) : Decision :=
  match m with PrefixRuleMatch _ d _ _ => d | HeuristicsRuleMatch _ d => d end.
Definition with_resolved_program (m : RuleMatch) (resolved : str) : RuleMatch :=
  match m with
  | PrefixRuleMatch matched_prefix decision _ justification =>
      PrefixRuleMatch matched_prefix decision (Some resolved) justification
  | other => other
  end.

(** * The policy *)

(** [MultiMap::insert] and [MultiMap::get_vec] *)
Definition multimap_insert (k : str) (r : PrefixRule) (m : gmap str (list PrefixRule)) :
    gmap str (list PrefixRule) :=
  <[k := default [] (m !! k) ++ [r]]> m.

Definition empty_policy : Policy := mkPolicy ∅ [] ∅.

(** [Policy::add_prefix_rule] *)
Definition add_prefix_rule (prefix : list str) (decision : Decision) (p : Policy) :
    Policy * result Error () :=
  match prefix with
  | [] => (p, Err (InvalidPattern (lit "prefix cannot be empty")))
  | first_token :: rest =>
      let rule := mkRule (mkPattern first_token (Single <$> rest)) decision None in
      (mkPolicy (multimap_insert first_token rule (rules_by_program p)) (network_rules p)
         (host_executables_by_name p), Ok tt)
  end.

(** [Policy::set_host_executable_paths] *)
Definition set_host_executable_paths (name : str) (paths : list str) (p : Policy) : Policy :=
  mkPolicy (rules_by_program p) (network_rules p) (<[name := paths]> (host_executables_by_name p)).

(** [Policy::merge_overlay]: per program the overlay's rules come behind, in
    their order, whatever order the programs are visited in. *)
Definition merge_overlay (p overlay : Policy) : Policy :=
  mkPolicy
    (union_with (λ rs rs', Some (rs ++ rs')) (rules_by_program p) (rules_by_program overlay))
    (network_rules p ++ network_rules overlay)
    (host_executables_by_name overlay ∪ host_executables_by_name p).

(** [Policy::match_exact_rules] *)
Definition match_exact_rules (p : Policy) (cmd : list str) : option (list RuleMatch) :=
  first ← head cmd;
  Some (match rules_by_program p !! first with
        | Some rules => omap (λ rule, rule_matches rule cmd) rules
        | None => []
        end).

(** [Policy::match_host_executable_rules] *)
Definition match_host_executable_rules `{HostPaths} (p : Policy) (cmd : list str) :
    list RuleMatch :=
  match cmd with
  | [] => []
  | first :: args =>
      match absolute_path first with
      | None => []
      | Some program =>
          match executable_path_lookup_key program with
          | None => []
          | Some basename =>
              match rules_by_program p !! basename with
              | None => []
              | Some rules =>
                  if match host_executables_by_name p !! basename with
                     | Some paths => negb (existsb (λ path, bool_decide (path = program)) paths)
                     | None => false
                     end
                  then []
                  else
                    (λ m, with_resolved_program m program)
                    <$> omap (λ rule, rule_matches rule (basename :: args)) rules
              end
          end
      end
  end.

Definition non_empty (ms : list RuleMatch) : option (list RuleMatch) :=
  if is_nil ms then None else Some ms.

(** [Policy::matches_for_command_with_options] *)
Definition matches_for_command_with_options `{HostPaths} (p : Policy) (cmd : list str)
    (heuristics_fallback : option (list str → Decision)) (options : MatchOptions) :
    list RuleMatch :=
  let matched_rules :=
    match match_exact_rules p cmd ≫= non_empty with
    | Some ms => ms
    | None =>
        match (if resolve_host_executables options
               then Some (match_host_executable_rules p cmd) else None) ≫= non_empty with
        | Some ms => ms
        | None => []
        end
    end in
  match matched_rules, heuristics_fallback with
  | [], Some fallback => [HeuristicsRuleMatch cmd (fallback cmd)]
  | ms, _ => ms
  end.

(** [Iterator::max]; [None] for no element. *)
Fixpoint max_decision (ds : list Decision) : option Decision :=
  match ds with
  | [] => None
  | d :: ds => Some (match max_decision ds with Some d' => decision_max d d' | None => d end)
  end.

(** [Evaluation::from_matches]; [None] is the panic of [expect]. *)
Definition from_matches (ms : list RuleMatch) : option Evaluation :=
  d ← max_decision (match_decision <$> ms); Some (mkEvaluation d ms).

(** [Evaluation::is_match] *)
Definition is_match (e : Evaluation) : bool :=
  existsb (λ m, match m with HeuristicsRuleMatch _ _ => false | _ => true end) (matched_rules e).

(** [Policy::check_with_options], [Policy::check] and [Policy::check_multiple_with_options] *)
Definition check_with_options `{HostPaths} (p : Policy) (cmd : list str)
    (fallback : list str → Decision) (options : MatchOptions) : option Evaluation :=
  from_matches (matches_for_command_with_options p cmd (Some fallback) options).
Definition check `{HostPaths} (p : Policy) (cmd : list str) (fallback : list str → Decision) :
    option Evaluation := check_with_options p cmd fallback default_options.
Definition check_multiple_with_options `{HostPaths} (p : Policy) (commands : list (list str))
    (fallback : list str → Decision) (options : MatchOptions) : option Evaluation :=
  from_matches
    (commands ≫= λ command, matches_for_command_with_options p command (Some fallback) options).

(** [upsert_domain] and [Policy::compiled_network_domains] *)
Definition retain_other (h : str) (entries : list str) : list str :=
  filter (λ entry, entry ≠ h) entries.
Definition upsert_domain (entries : list str) (h : str) : list str := retain_other h entries ++ [h].

Definition compile_rule (acc : list str * list str) (r : NetworkRule) : list str * list str :=
  let '(allowed, denied) := acc in
  match network_decision r with
  | Allow => (upsert_domain allowed (host r), retain_other (host r) denied)
  | Forbidden => (retain_other (host r) allowed, upsert_domain denied (host r))
  | Prompt => (allowed, denied)
  end.
Definition compiled_network_domains (p : Policy) : list str * list str :=
  foldl compile_rule ([], []) (network_rules p).

(** * What a rule means *)

(** [cmd] starts with the rule's program and one allowed token per pattern token. *)
Definition applies (r : PrefixRule) (cmd : list str) : Prop :=
  ∃ tokens args, cmd = program r :: tokens ++ args
    ∧ Forall2 (λ t token, token ∈ alternatives t) (rest (pattern r)) tokens.

(** The rule is one of the policy. *)
Definition stored (p : Policy) (r : PrefixRule) : Prop :=
  ∃ rules, rules_by_program p !! program r = Some rules ∧ r ∈ rules.

(** Every rule is filed under its program. *)
Definition wf_policy (p : Policy) : Prop :=
  map_Forall (λ k rules, Forall (λ r, program r = k) rules) (rules_by_program p).

Lemma token_matches_true t token : token_matches t token = true ↔ token ∈ alternatives t.
Proof.
  destruct t as [e|alts]; simpl.
  - rewrite bool_decide_eq_true, list_elem_of_singleton. naive_solver.
  - rewrite existsb_exists. split.
    + intros (x & Hx & ->%bool_decide_eq_true). by apply list_elem_of_In.
    + intros Hx. exists token. rewrite bool_decide_eq_true, <- list_elem_of_In. done.
Qed.

Lemma forallb_zip ts tokens :
  length ts = length tokens →
  forallb (λ '(t, token), token_matches t token) (zip ts tokens) = true
  ↔ Forall2 (λ t token, token ∈ alternatives t) ts tokens.
Proof.
  revert tokens. induction ts as [|t ts IH]; intros [|x tokens]; simpl; try done.
  intros [= Hl]. rewrite andb_true_iff, token_matches_true, IH by done.
  split; [intros []; by constructor|inversion 1; by split].
Qed.

Lemma matches_prefix_spec p cmd pre :
  matches_prefix p cmd = Some pre ↔
  ∃ tokens args, cmd = pre ++ args ∧ pre = first p :: tokens
    ∧ Forall2 (λ t token, token ∈ alternatives t) (rest p) tokens.
Proof.
  unfold matches_prefix. rewrite Nat.add_1_r. split.
  - destruct (bool_decide _) eqn:Hlen; simpl; [done|].
    apply bool_decide_eq_false in Hlen. destruct (bool_decide (head cmd = _)) eqn:Hh; [|done].
    apply bool_decide_eq_true in Hh. destruct cmd as [|x cmd]; [done|]. simpl in *. simplify_eq.
    rewrite Nat.sub_0_r, drop_0. destruct (forallb _ _) eqn:Hf; [|done]. intros [= <-].
    exists (take (length (rest p)) cmd), (drop (length (rest p)) cmd).
    rewrite <- app_comm_cons, take_drop. split_and!; [done..|].
    apply forallb_zip; [|done]. rewrite length_take. lia.
  - intros (tokens & args & -> & -> & Hf). pose proof (Forall2_length _ _ _ Hf) as Hl.
    rewrite bool_decide_eq_false_2 by (simpl; rewrite length_app; lia).
    rewrite bool_decide_eq_true_2 by done. simpl.
    rewrite Nat.sub_0_r, drop_0, Hl, take_app_length.
    by rewrite (proj2 (forallb_zip (rest p) tokens Hl)).
Qed.

Lemma rule_matches_spec r cmd :
  (∃ m, rule_matches r cmd = Some m) ↔ applies r cmd.
Proof.
  unfold rule_matches, applies. split.
  - intros [m Hm]. apply fmap_Some in Hm as (pre & Hp & _).
    apply matches_prefix_spec in Hp as (tokens & args & -> & -> & Hf). by exists tokens, args.
  - intros (tokens & args & -> & Hf).
    rewrite (proj2 (matches_prefix_spec _ _ (program r :: tokens))); [by eexists|].
    by exists tokens, args.
Qed.

Lemma rule_matches_decision r cmd m :
  rule_matches r cmd = Some m → match_decision m = rule_decision r.
Proof. unfold rule_matches. intros (pre & _ & ->)%fmap_Some. done. Qed.

(** The exact matches of a command are the rules of the policy that apply to it. *)
Lemma exact_matches_spec p x cmd m :
  m ∈ default [] (match_exact_rules p (x :: cmd)) ↔
  ∃ rules r, rules_by_program p !! x = Some rules ∧ r ∈ rules ∧ rule_matches r (x :: cmd) = Some m.
Proof.
  unfold match_exact_rules. simpl. destruct (rules_by_program p !! x) as [rules|]; simpl.
  - rewrite list_elem_of_omap. naive_solver.
  - rewrite elem_of_nil. naive_solver.
Qed.

Lemma exact_matches_stored p cmd m :
  m ∈ default [] (match_exact_rules p cmd) →
  ∃ r, stored p r ∧ applies r cmd ∧ match_decision m = rule_decision r
       ∧ match m with PrefixRuleMatch _ _ _ _ => True | _ => False end.
Proof.
  destruct cmd as [|x cmd]; [by intros ?%elem_of_nil|].
  intros (rules & r & Hl & Hr & Hm)%exact_matches_spec. exists r.
  assert (applies r (x :: cmd)) as Ha by (apply rule_matches_spec; eauto).
  split_and!; [|done| |].
  - destruct Ha as (tokens & args & [= -> ->] & _). by exists rules.
  - by eapply rule_matches_decision.
  - unfold rule_matches in Hm. apply fmap_Some in Hm as (pre & _ & ->). done.
Qed.

Lemma stored_exact_match p cmd r :
  stored p r → applies r cmd →
  ∃ m, m ∈ default [] (match_exact_rules p cmd) ∧ match_decision m = rule_decision r.
Proof.
  intros (rules & Hl & Hr) Ha. apply rule_matches_spec in Ha as Hm. destruct Hm as [m Hm].
  destruct Ha as (tokens & args & -> & _). exists m. split; [|by eapply rule_matches_decision].
  apply exact_matches_spec. eauto.
Qed.

(** * The most restrictive decision *)

Lemma severity_inj a b : severity a = severity b → a = b.
Proof. by destruct a, b. Qed.

Lemma decision_max_severity a b :
  severity (decision_max a b) = Nat.max (severity a) (severity b).
Proof. unfold decision_max. case_decide; lia. Qed.

Lemma max_decision_None ds : max_decision ds = None ↔ ds = [].
Proof. by destruct ds. Qed.

Lemma max_decision_spec ds d :
  max_decision ds = Some d ↔ d ∈ ds ∧ ∀ d', d' ∈ ds → severity d' ≤ severity d.
Proof.
  revert d. induction ds as [|x ds IH]; intros d; simpl.
  { split; [done|]. by intros [?%elem_of_nil _]. }
  destruct (max_decision ds) as [y|] eqn:E.
  - destruct (proj1 (IH y) eq_refl) as [Hy Hmax]. split.
    + intros [= <-]. split.
      * unfold decision_max. case_decide; set_solver.
      * intros d' [->|Hd]%elem_of_cons; rewrite decision_max_severity; [lia|].
        specialize (Hmax d' Hd). lia.
    + intros [Hd Hall]. f_equal. apply severity_inj. rewrite decision_max_severity.
      pose proof (Hall x ltac:(set_solver)). pose proof (Hall y ltac:(set_solver)).
      apply elem_of_cons in Hd as [->|Hd]; [lia|]. specialize (Hmax d Hd). lia.
  - apply max_decision_None in E as ->. rewrite list_elem_of_singleton. split.
    + intros [= ->]. split; [done|]. by intros d' ->%list_elem_of_singleton.
    + intros [-> _]. done.
Qed.

Lemma from_matches_None ms : from_matches ms = None ↔ ms = [].
Proof.
  unfold from_matches. destruct (max_decision _) eqn:E; simpl.
  - split; [done|]. intros ->. done.
  - apply max_decision_None, fmap_nil_inv in E as ->. done.
Qed.

Lemma from_matches_spec ms e :
  from_matches ms = Some e →
  matched_rules e = ms ∧ (∃ m, m ∈ ms ∧ match_decision m = evaluation_decision e)
  ∧ ∀ m, m ∈ ms → severity (match_decision m) ≤ severity (evaluation_decision e).
Proof.
  unfold from_matches. destruct (max_decision _) as [d|] eqn:E; [|done]. intros [= <-].
  apply max_decision_spec in E as [(m & -> & Hm)%list_elem_of_fmap Hmax]. simpl.
  split_and!; [done|by eauto|]. intros m' Hm'. apply Hmax. by apply list_elem_of_fmap_2.
Qed.

Section matching.
Context `{HostPaths}.
Implicit Types (p : Policy) (cmd : list str) (f : list str → Decision).

Lemma matches_exact p cmd fb o :
  default [] (match_exact_rules p cmd) ≠ [] →
  matches_for_command_with_options p cmd fb o = default [] (match_exact_rules p cmd).
Proof.
  unfold matches_for_command_with_options, non_empty.
  destruct (match_exact_rules p cmd) as [[|m ms]|]; by destruct fb.
Qed.

Lemma matches_fallback p cmd f :
  default [] (match_exact_rules p cmd) = [] →
  matches_for_command_with_options p cmd (Some f) default_options
  = [HeuristicsRuleMatch cmd (f cmd)].
Proof.
  unfold matches_for_command_with_options, non_empty.
  by destruct (match_exact_rules p cmd) as [[|m ms]|].
Qed.

Lemma matches_nonempty p cmd f o :
  matches_for_command_with_options p cmd (Some f) o ≠ [].
Proof. unfold matches_for_command_with_options. intros Hm. by case_match. Qed.

Lemma check_exact p cmd f o e :
  check_with_options p cmd f o = Some e → default [] (match_exact_rules p cmd) ≠ [] →
  matched_rules e = default [] (match_exact_rules p cmd)
  ∧ (∃ r, stored p r ∧ applies r cmd ∧ rule_decision r = evaluation_decision e)
  ∧ ∀ r, stored p r → applies r cmd → severity (rule_decision r) ≤ severity (evaluation_decision e).
Proof.
  unfold check_with_options. intros He Hne. rewrite matches_exact in He by done.
  apply from_matches_spec in He as (-> & (m & Hm & <-) & Hmax). split_and!; [done| |].
  - apply exact_matches_stored in Hm as (r & ? & ? & -> & _). eauto.
  - intros r Hr Ha. destruct (stored_exact_match _ _ _ Hr Ha) as (m' & Hm' & <-). auto.
Qed.

Lemma applies_exact p cmd r :
  stored p r → applies r cmd → default [] (match_exact_rules p cmd) ≠ [].
Proof.
  intros Hr Ha. destruct (stored_exact_match _ _ _ Hr Ha) as (m & Hm & _).
  intros E. rewrite E in Hm. by apply elem_of_nil in Hm.
Qed.

(** A match reported without host resolution comes from a rule of the policy. *)
Lemma check_match_exact p cmd f e :
  check p cmd f = Some e → is_match e = true → default [] (match_exact_rules p cmd) ≠ [].
Proof.
  intros He Hm E. unfold check, check_with_options in He. rewrite matches_fallback in He by done.
  by injection He as <-.
Qed.

Lemma stored_default p r : stored p r ↔ r ∈ default [] (rules_by_program p !! program r).
Proof.
  unfold stored. destruct (rules_by_program p !! program r) as [rs|]; simpl; [naive_solver|].
  rewrite elem_of_nil. naive_solver.
Qed.

Lemma stored_merge p o r : stored (merge_overlay p o) r ↔ stored p r ∨ stored o r.
Proof.
  rewrite !stored_default, <- elem_of_app. simpl. rewrite lookup_union_with.
  destruct (rules_by_program p !! program r), (rules_by_program o !! program r); simpl;
    by rewrite ?app_nil_r.
Qed.
End matching.

(** * Network rules *)

(** The decision of the last rule on [h] that is not [Prompt]. *)
Definition last_verdict (h : str) (rules : list NetworkRule) : option Decision :=
  network_decision <$> last (filter (λ r, host r = h ∧ network_decision r ≠ Prompt) rules).

Lemma last_verdict_snoc h rules r :
  last_verdict h (rules ++ [r]) =
  if decide (host r = h ∧ network_decision r ≠ Prompt)
  then Some (network_decision r) else last_verdict h rules.
Proof.
  unfold last_verdict. rewrite filter_app, filter_cons, filter_nil. case_decide.
  - by rewrite last_snoc.
  - by rewrite app_nil_r.
Qed.

Lemma elem_of_retain_other x h es : x ∈ retain_other h es ↔ x ∈ es ∧ x ≠ h.
Proof. unfold retain_other. rewrite list_elem_of_filter. tauto. Qed.

Lemma elem_of_upsert_domain x h es : x ∈ upsert_domain es h ↔ x = h ∨ x ∈ es.
Proof.
  unfold upsert_domain. rewrite elem_of_app, elem_of_retain_other, list_elem_of_singleton.
  destruct (decide (x = h)); tauto.
Qed.

Lemma NoDup_retain_other h es : NoDup es → NoDup (retain_other h es).
Proof. apply NoDup_filter. Qed.

Lemma NoDup_upsert_domain h es : NoDup es → NoDup (upsert_domain es h).
Proof.
  intros He. apply NoDup_app. split_and!.
  - by apply NoDup_filter.
  - intros x [_ Hx]%elem_of_retain_other ->%list_elem_of_singleton. done.
  - apply NoDup_singleton.
Qed.

Lemma compile_rules_spec rules :
  let '(allowed, denied) := foldl compile_rule ([], []) rules in
  NoDup allowed ∧ NoDup denied
  ∧ ∀ h, (h ∈ allowed ↔ last_verdict h rules = Some Allow)
         ∧ (h ∈ denied ↔ last_verdict h rules = Some Forbidden).
Proof.
  induction rules as [|r rules IH] using rev_ind; simpl.
  { split_and!; [constructor..|]. intros h. rewrite elem_of_nil. done. }
  rewrite foldl_snoc. destruct (foldl _ _ _) as [allowed denied].
  destruct IH as (Ha & Hd & Hh). unfold compile_rule.
  destruct (network_decision r) eqn:Er; (split_and!;
    [auto using NoDup_upsert_domain, NoDup_retain_other..|]);
    intros h; specialize (Hh h) as [Hha Hhd]; rewrite last_verdict_snoc, Er;
    case_decide as Hc; rewrite ?elem_of_upsert_domain, ?elem_of_retain_other, ?Hha, ?Hhd;
    naive_solver.
Qed.

(** * Properties *)

(** C15: evaluating a command never fails, and the answer is the most
    restrictive one: if rules of the policy apply to the command (same
    program, one allowed token per pattern token), the decision is one of
    theirs and none of them is stricter; if none applies, the decision is the
    fallback's and no rule is reported as matched. *)
Theorem check_is_most_restrictive `{HostPaths} p cmd f :
  ∃ e, check p cmd f = Some e
  ∧ ((∃ r, stored p r ∧ applies r cmd) →
     is_match e = true
     ∧ (∃ r, stored p r ∧ applies r cmd ∧ rule_decision r = evaluation_decision e)
     ∧ ∀ r, stored p r → applies r cmd →
         severity (rule_decision r) ≤ severity (evaluation_decision e))
  ∧ (¬ (∃ r, stored p r ∧ applies r cmd) → is_match e = false ∧ evaluation_decision e = f cmd).
Proof.
  destruct (check p cmd f) as [e|] eqn:He.
  2: { by apply from_matches_None, matches_nonempty in He. }
  exists e. split_and!; [done| |].
  - intros (r & Hr & Ha). pose proof (applies_exact _ _ _ Hr Ha) as Hne.
    apply check_exact in He as (Hm & Hd & Hmax); [|done]. split_and!; [|done..].
    unfold is_match. apply existsb_exists. rewrite Hm.
    destruct (stored_exact_match _ _ _ Hr Ha) as (m & Hin & _). exists m.
    rewrite <- list_elem_of_In. split; [done|].
    apply exact_matches_stored in Hin as (? & _ & _ & _ & ?). by destruct m.
  - intros Hno. unfold check, check_with_options in He. rewrite matches_fallback in He.
    { by injection He as <-. }
    destruct (default [] (match_exact_rules p cmd)) as [|m ms] eqn:E; [done|].
    destruct Hno. destruct (exact_matches_stored p cmd m) as (r & ? & ? & _); [|by eauto].
    rewrite E. set_solver.
Qed.

(** A forbidden prefix stays forbidden: after a rule forbidding a prefix
    is added, every command that starts with it is forbidden, whatever other
    rules say, whatever the fallback says and with or without the resolution
    of host executables. *)
Theorem forbidden_prefix_is_final `{HostPaths} p p' prefix args f o :
  add_prefix_rule prefix Forbidden p = (p', Ok tt) →
  ∃ e, check_with_options p' (prefix ++ args) f o = Some e ∧ evaluation_decision e = Forbidden.
Proof.
  destruct prefix as [|x prefix]; [done|]. intros [= <-]. simpl.
  set (r := mkRule (mkPattern x (Single <$> prefix)) Forbidden None).
  set (p' := mkPolicy _ _ _).
  assert (stored p' r) as Hr.
  { eexists. simpl. unfold multimap_insert. rewrite lookup_insert_eq. split; [done|]. set_solver. }
  assert (applies r (x :: prefix ++ args)) as Ha.
  { exists prefix, args. split; [done|]. simpl. apply Forall2_fmap_l, Forall_Forall2_diag.
    apply Forall_forall. simpl. set_solver. }
  destruct (check_with_options p' (x :: prefix ++ args) f o) as [e|] eqn:He.
  2: { by apply from_matches_None, matches_nonempty in He. }
  exists e. split; [done|]. apply check_exact in He as (_ & _ & Hmax); [|by eapply applies_exact].
  specialize (Hmax r Hr Ha). simpl in Hmax. by destruct (evaluation_decision e); simpl in *; lia || done.
Qed.

(** Paths for the examples: POSIX, the last segment being the name. *)
#[local] Instance demo_paths : HostPaths := {
  windows := false;
  absolute_path s := if starts_with s (lit "/") then Some s else None;
  path_file_name s := last (split_on 47%N s)
}.

Lemma forbidden_prefix_is_final_witness :
  ∃ e, check_with_options (add_prefix_rule [lit "git"; lit "push"] Forbidden empty_policy).1
         ([lit "git"; lit "push"] ++ [lit "--force"]) (λ _, Allow) default_options = Some e
       ∧ evaluation_decision e = Forbidden.
Proof.
  apply (forbidden_prefix_is_final empty_policy _ [lit "git"; lit "push"] [lit "--force"]).
  reflexivity.
Defined.

(** An overlay can only tighten what the base policy decides by a rule:
    if a rule of the base applies to a command, the merged policy's decision
    for the command is at least as strict as the base's, and it is the
    stricter of the two when the overlay has a rule for it as well. *)
Theorem merge_overlay_never_weakens `{HostPaths} base overlay cmd f e e' :
  check base cmd f = Some e → check (merge_overlay base overlay) cmd f = Some e' →
  is_match e = true →
  severity (evaluation_decision e) ≤ severity (evaluation_decision e')
  ∧ (∀ eo, check overlay cmd f = Some eo → is_match eo = true →
       evaluation_decision e' = decision_max (evaluation_decision e) (evaluation_decision eo)).
Proof.
  intros He He' Hm. pose proof (check_match_exact _ _ _ _ He Hm) as Hne.
  apply check_exact in He as (_ & (r & Hr & Ha & Hrd) & Hmax); [|done].
  assert (default [] (match_exact_rules (merge_overlay base overlay) cmd) ≠ []) as Hne'.
  { apply (applies_exact _ _ r); [|done]. apply stored_merge. by left. }
  apply check_exact in He' as (_ & (r' & Hr' & Ha' & Hrd') & Hmax'); [|done].
  assert (severity (evaluation_decision e) ≤ severity (evaluation_decision e')) as Hle.
  { rewrite <- Hrd. apply Hmax'; [|done]. apply stored_merge. by left. }
  split; [done|]. intros eo Heo Hmo. pose proof (check_match_exact _ _ _ _ Heo Hmo) as Hneo.
  apply check_exact in Heo as (_ & (ro & Hro & Hao & Hrdo) & Hmaxo); [|done].
  apply severity_inj. rewrite decision_max_severity.
  assert (severity (rule_decision ro) ≤ severity (evaluation_decision e')).
  { apply Hmax'; [|done]. apply stored_merge. by right. }
  apply stored_merge in Hr' as [Hr'|Hr'];
    [specialize (Hmax r' Hr' Ha')|specialize (Hmaxo r' Hr' Ha')]; rewrite Hrdo in *; rewrite Hrd' in *; lia.
Qed.

(** Two small policies for the examples. *)
Definition demo_base : Policy := (add_prefix_rule [lit "rm"] Prompt empty_policy).1.
Definition demo_overlay : Policy := (add_prefix_rule [lit "rm"; lit "-rf"] Forbidden empty_policy).1.

Lemma merge_overlay_never_weakens_witness :
  let cmd := [lit "rm"; lit "-rf"; lit "/"] in
  severity Prompt ≤ severity Forbidden
  ∧ ∀ eo, check demo_overlay cmd (λ _, Allow) = Some eo → is_match eo = true →
      Forbidden = decision_max Prompt (evaluation_decision eo).
Proof.
  intros cmd.
  destruct (check demo_base cmd (λ _, Allow)) as [e|] eqn:E1; [|discriminate E1].
  destruct (check (merge_overlay demo_base demo_overlay) cmd (λ _, Allow)) as [e'|] eqn:E2;
    [|discriminate E2].
  pose proof (merge_overlay_never_weakens demo_base demo_overlay cmd (λ _, Allow) e e' E1 E2) as Ht.
  vm_compute in E1, E2. injection E1 as <-. injection E2 as <-. apply Ht. reflexivity.
Defined.

(** A list of commands is judged as strictly as its strictest member, and
    the evaluation fails (the code panics) exactly for the empty list. *)
Theorem check_multiple_is_strictest `{HostPaths} p commands f o :
  match check_multiple_with_options p commands f o with
  | None => commands = []
  | Some e =>
      (∃ cmd e', cmd ∈ commands ∧ check_with_options p cmd f o = Some e'
                 ∧ evaluation_decision e' = evaluation_decision e)
      ∧ ∀ cmd e', cmd ∈ commands → check_with_options p cmd f o = Some e' →
          severity (evaluation_decision e') ≤ severity (evaluation_decision e)
  end.
Proof.
  unfold check_multiple_with_options, check_with_options.
  destruct (from_matches _) as [e|] eqn:E.
  - apply from_matches_spec in E as (_ & (m & Hm & Hd) & Hmax).
    apply list_elem_of_bind in Hm as (cmd & Hm & Hcmd). split.
    + destruct (from_matches (matches_for_command_with_options p cmd (Some f) o)) as [e'|] eqn:E'.
      2: { by apply from_matches_None, matches_nonempty in E'. }
      exists cmd, e'. split_and!; [done..|]. apply severity_inj.
      apply from_matches_spec in E' as (_ & (m' & Hm' & Hd') & Hmax').
      assert (severity (match_decision m') ≤ severity (evaluation_decision e)).
      { apply Hmax. apply list_elem_of_bind. eauto. }
      specialize (Hmax' m Hm). rewrite Hd in *. rewrite Hd' in *. lia.
    + intros cmd' e' Hc' (_ & (m' & Hm' & <-) & _)%from_matches_spec. apply Hmax.
      apply list_elem_of_bind. eauto.
  - apply from_matches_None in E. destruct commands as [|cmd commands]; [done|].
    simpl in E. by apply app_nil in E as [?%matches_nonempty _].
Qed.

(** The compiled network domains follow the last word on each host: a host
    is allowed (denied) exactly when the last rule on it that is not a prompt
    allows (forbids) it; so no host is in both lists, and none is listed twice. *)
Theorem compiled_domains_follow_last_rule p :
  let '(allowed, denied) := compiled_network_domains p in
  NoDup allowed ∧ NoDup denied
  ∧ (∀ h, h ∈ allowed ↔ last_verdict h (network_rules p) = Some Allow)
  ∧ (∀ h, h ∈ denied ↔ last_verdict h (network_rules p) = Some Forbidden)
  ∧ (∀ h, h ∈ allowed → h ∉ denied).
Proof.
  unfold compiled_network_domains. pose proof (compile_rules_spec (network_rules p)) as Hs.
  destruct (foldl _ _ _) as [allowed denied]. destruct Hs as (? & ? & Hh).
  split_and!; [done..| | |]; intros h; [apply Hh..|].
  intros Ha%Hh Hd%Hh. congruence.
Qed.

(** A rule for a bare name is not extended to an executable outside the
    declared paths: when a command names an absolute path, no rule is filed
    under that path, paths are declared for its file name and it is not one
    of them, then no rule matches even with host resolution, and the fallback
    decides. *)
Theorem undeclared_executable_uses_fallback `{HostPaths} p path args f program name paths :
  absolute_path path = Some program → executable_path_lookup_key program = Some name →
  host_executables_by_name p !! name = Some paths → program ∉ paths →
  rules_by_program p !! path = None →
  ∃ e, check_with_options p (path :: args) f (mkOptions true) = Some e
       ∧ evaluation_decision e = f (path :: args) ∧ is_match e = false.
Proof.
  intros Hp Hn Hh Hnot Hr. unfold check_with_options, matches_for_command_with_options.
  unfold match_exact_rules, match_host_executable_rules. simpl. rewrite Hr. simpl. rewrite Hp, Hn, Hh.
  assert (existsb (λ path, bool_decide (path = program)) paths = false) as ->.
  { apply not_true_is_false. rewrite existsb_exists.
    intros (x & Hx%list_elem_of_In & ->%bool_decide_eq_true). done. }
  by destruct (rules_by_program p !! name); eexists.
Qed.

Lemma undeclared_executable_uses_fallback_witness :
  let p := set_host_executable_paths (lit "rm") [lit "/bin/rm"] demo_base in
  ∃ e, check_with_options p [lit "/tmp/rm"; lit "x"] (λ _, Allow) (mkOptions true) = Some e
       ∧ evaluation_decision e = Allow ∧ is_match e = false.
Proof.
  intros p.
  apply (undeclared_executable_uses_fallback p (lit "/tmp/rm") [lit "x"] (λ _, Allow)
           (lit "/tmp/rm") (lit "rm") [lit "/bin/rm"]).
  - reflexivity.
  - reflexivity.
  - reflexivity.
  - intros [Hx|Hx]%elem_of_cons; [discriminate Hx|by apply elem_of_nil in Hx].
  - reflexivity.
Defined.
