(* ===== verification/ExecPolicyBuilder.v ===== *)
(** How an execution policy is built ([execpolicy/src/parser.rs]), how network
    hosts are normalised ([rule.rs]) and how rules are appended to a policy
    file ([amend.rs]).  The Starlark interpreter is outside: a policy file is
    the sequence of calls it makes to the three built-in functions, with
    their arguments as Starlark values.  Rendering of values that only ends up
    in messages or in the text of a rule (debug output, shell quoting, JSON
    strings) is a parameter. *)

From S2P Require Import Prelude Text ExecPolicy.

(** * Network hosts *)

Definition is_ascii_digit (c : N) : bool := bool_decide (48 ≤ c ≤ 57)%N.
Definition is_port (s : str) : bool := negb (is_nil s) && forallb is_ascii_digit s.

Definition msg_host_empty : Error := InvalidRule (lit "network_rule host cannot be empty").

(** The part of [normalize_network_rule_host] that drops brackets and a port. *)
Definition strip_host (raw host : str) : result Error str :=
  match strip_prefix [91%N] host with
  | Some stripped =>
      match split_once 93%N stripped with
      | None => Err (InvalidRule (lit "network_rule host has an invalid bracketed IPv6 literal"))
      | Some (inside, rest) =>
          let port_ok := is_some_and is_port (strip_prefix [58%N] rest) in
          if negb (is_nil rest) && negb port_ok
          then Err (InvalidRule (lit "network_rule host contains an unsupported suffix: " ++ raw))
          else Ok inside
      end
  | None =>
      if bool_decide (length (filter (λ c, c = 58%N) host) = 1) then
        match rsplit_once 58%N host with
        | Some (candidate, port) =>
            if negb (is_nil candidate) && is_port port then Ok candidate else Ok host
        | None => Ok host
        end
      else Ok host
  end.

(** [normalize_network_rule_host] *)
Definition normalize_network_rule_host (raw : str) : result Error str :=
  let host := trim raw in
  if is_nil host then Err msg_host_empty
  else if contains host (lit "://") || contains host (lit "/") || contains host (lit "?")
          || contains host (lit "#")
  then Err (InvalidRule
         (lit "network_rule host must be a hostname or IP literal (without scheme or path)"))
  else
    let? host := strip_host raw host in
    let normalized := to_ascii_lowercase (trim (trim_end_matches 46%N host)) in
    if is_nil normalized then Err msg_host_empty
    else if contains normalized (lit "*") then
      Err (InvalidRule
         (lit "network_rule host must be a specific host; wildcards are not allowed"))
    else if existsb is_whitespace normalized then
      Err (InvalidRule (lit "network_rule host cannot contain whitespace"))
    else Ok normalized.

(** [NetworkRuleProtocol::parse] and [::as_policy_string] *)
Definition parse_protocol (raw : str) : result Error NetworkRuleProtocol :=
  if decide (raw = lit "http") then Ok Http
  else if decide (raw ∈ [lit "https"; lit "https_connect"; lit "http-connect"]) then Ok Https
  else if decide (raw = lit "socks5_tcp") then Ok Socks5Tcp
  else if decide (raw = lit "socks5_udp") then Ok Socks5Udp
  else Err (InvalidRule
    (lit "network_rule protocol must be one of http, https, socks5_tcp, socks5_udp (got "
     ++ raw ++ lit ")")).
Definition as_policy_string (p : NetworkRuleProtocol) : str :=
  match p with
  | Http => lit "http"
  | Https => lit "https"
  | Socks5Tcp => lit "socks5_tcp"
  | Socks5Udp => lit "socks5_udp"
  end.

(** [parse_network_rule_decision] *)
Definition parse_network_rule_decision (raw : str) : result Error Decision :=
  if decide (raw = lit "deny") then Ok Forbidden else parse_decision raw.

Definition msg_justification : Error := InvalidRule (lit "justification cannot be empty").

(** The check of the optional justification, shared by the callers. *)
Definition parse_justification (j : option str) : result Error (option str) :=
  match j with
  | Some raw => if is_nil (trim raw) then Err msg_justification else Ok (Some raw)
  | None => Ok None
  end.

(** [Policy::add_network_rule] *)
Definition add_network_rule (raw : str) (protocol : NetworkRuleProtocol) (decision : Decision)
    (justification : option str) (p : Policy) : Policy * result Error () :=
  match normalize_network_rule_host raw with
  | Err e => (p, Err e)
  | Ok host =>
      match parse_justification justification with
      | Err e => (p, Err e)
      | Ok justification =>
          (mkPolicy (rules_by_program p)
             (network_rules p ++ [mkNetworkRule host protocol decision justification])
             (host_executables_by_name p), Ok tt)
      end
  end.

(** * Starlark values *)

Inductive value := VStr (s : str) | VList (items : list value) | VOther (type_name : str).

Definition get_type (v : value) : str :=
  match v with VStr _ => lit "string" | VList _ => lit "list" | VOther t => t end.

Definition unpack_str (e : str → Error) (v : value) : result Error str :=
  match v with VStr s => Ok s | v => Err (e (get_type v)) end.

(** [parse_pattern_token] and [parse_pattern] *)
Definition parse_pattern_token (v : value) : result Error PatternToken :=
  match v with
  | VStr s => Ok (Single s)
  | VList items =>
      let? tokens :=
        try_map (unpack_str (λ t, InvalidPattern
                   (lit "pattern alternative must be a string (got " ++ t ++ lit ")"))) items in
      match tokens with
      | [] => Err (InvalidPattern (lit "pattern alternatives cannot be empty"))
      | [single] => Ok (Single single)
      | _ => Ok (Alts tokens)
      end
  | v => Err (InvalidPattern
           (lit "pattern element must be a string or list of strings (got " ++ get_type v ++ lit ")"))
  end.

Definition parse_pattern (items : list value) : result Error (list PatternToken) :=
  let? tokens := try_map parse_pattern_token items in
  if is_nil tokens then Err (InvalidPattern (lit "pattern cannot be empty")) else Ok tokens.

Section builder.
Context `{HostPaths}.

(** [shlex::split] and [shlex::try_join], the debug output of a rule and of a
    match, and what the host says of path texts: [Path::is_absolute], the
    text of an [AbsolutePathBuf] error, whether a text is one path
    component equal to its file name. *)
Variable shlex_split : str → option (list str).
Variable shlex_join : list str → option str.
Variable debug_rule : PrefixRule → str.
Variable debug_match : RuleMatch → str.
Variable path_is_absolute : str → bool.
Variable absolute_path_error : str → str.
Variable bare_name : str → bool.

(** [parse_string_example], [parse_list_example], [parse_example] and [parse_examples] *)
Definition parse_string_example (raw : str) : result Error (list str) :=
  match shlex_split raw with
  | None => Err (InvalidExample (lit "example string has invalid shell syntax"))
  | Some tokens =>
      if is_nil tokens then Err (InvalidExample (lit "example cannot be an empty string"))
      else Ok tokens
  end.
Definition parse_list_example (items : list value) : result Error (list str) :=
  let? tokens :=
    try_map (unpack_str (λ t, InvalidExample
               (lit "example tokens must be strings (got " ++ t ++ lit ")"))) items in
  if is_nil tokens then Err (InvalidExample (lit "example cannot be an empty list"))
  else Ok tokens.
Definition parse_example (v : value) : result Error (list str) :=
  match v with
  | VStr raw => parse_string_example raw
  | VList items => parse_list_example items
  | v => Err (InvalidExample
           (lit "example must be a string or list of strings (got " ++ get_type v ++ lit ")"))
  end.
Definition parse_examples (examples : option (list value)) : result Error (list (list str)) :=
  match examples with Some vs => try_map parse_example vs | None => Ok [] end.

(** [PendingExampleValidation] and [PolicyBuilder] *)
Record PendingExampleValidation := mkPending {
  pending_rules : list PrefixRule;
  pending_matches : list (list str);
  pending_not_matches : list (list str);
  pending_location : option ErrorLocation
}.
Record PolicyBuilder := mkBuilder {
  built : Policy;
  pending_example_validations : list PendingExampleValidation
}.

Definition new_builder : PolicyBuilder := mkBuilder empty_policy [].

(** [PolicyBuilder::add_rule] *)
Definition add_rule (r : PrefixRule) (p : Policy) : Policy :=
  mkPolicy (multimap_insert (program r) r (rules_by_program p)) (network_rules p)
    (host_executables_by_name p).

(** The rules a pattern stands for: one for each alternative of its first token. *)
Definition rules_of_pattern (tokens : list PatternToken) (decision : Decision)
    (justification : option str) : list PrefixRule :=
  match tokens with
  | [] => []
  | first_token :: remaining =>
      (λ head, mkRule (mkPattern head remaining) decision justification)
      <$> alternatives first_token
  end.

(** The arguments of [prefix_rule]: the rules and the two lists of examples. *)
Definition prefix_rule_args (pattern : list value) (decision : option str)
    (match_ not_match : option (list value)) (justification : option str) :
    result Error (list PrefixRule * list (list str) * list (list str)) :=
  let? decision := (match decision with Some raw => parse_decision raw | None => Ok Allow end) in
  let? justification := parse_justification justification in
  let? tokens := parse_pattern pattern in
  let? matches := parse_examples match_ in
  let? not_matches := parse_examples not_match in
  Ok (rules_of_pattern tokens decision justification, matches, not_matches).

(** The built-in [prefix_rule]. *)
Definition prefix_rule (pattern : list value) (decision : option str)
    (match_ not_match : option (list value)) (justification : option str)
    (location : option ErrorLocation) (b : PolicyBuilder) : PolicyBuilder * result Error () :=
  match prefix_rule_args pattern decision match_ not_match justification with
  | Err e => (b, Err e)
  | Ok (rules, matches, not_matches) =>
      (mkBuilder (foldl (λ p r, add_rule r p) (built b) rules)
         (pending_example_validations b ++ [mkPending rules matches not_matches location]), Ok tt)
  end.

(** The built-in [network_rule]. *)
Definition network_rule (raw_host protocol decision : str) (justification : option str)
    (b : PolicyBuilder) : PolicyBuilder * result Error () :=
  let parsed :=
    let? protocol := parse_protocol protocol in
    let? decision := parse_network_rule_decision decision in
    let? justification := parse_justification justification in
    let? host := normalize_network_rule_host raw_host in
    Ok (mkNetworkRule host protocol decision justification) in
  match parsed with
  | Err e => (b, Err e)
  | Ok r =>
      (mkBuilder (mkPolicy (rules_by_program (built b)) (network_rules (built b) ++ [r])
                    (host_executables_by_name (built b))) (pending_example_validations b), Ok tt)
  end.

(** [validate_host_executable_name] and [parse_literal_absolute_path] *)
Definition validate_host_executable_name (name : str) : result Error () :=
  if is_nil name then Err (InvalidRule (lit "host_executable name cannot be empty"))
  else if negb (bare_name name) then
    Err (InvalidRule
      (lit "host_executable name must be a bare executable name (got " ++ name ++ lit ")"))
  else Ok tt.
Definition parse_literal_absolute_path (raw : str) : result Error str :=
  if negb (path_is_absolute raw) then
    Err (InvalidRule (lit "host_executable paths must be absolute (got " ++ raw ++ lit ")"))
  else
    match absolute_path raw with
    | Some path => Ok path
    | None => Err (InvalidRule
        (lit "invalid absolute path `" ++ raw ++ lit "`: " ++ absolute_path_error raw))
    end.

Definition msg_basename (raw name : str) : Error :=
  InvalidRule (lit "host_executable path `" ++ raw ++ lit "` must have basename `" ++ name ++ lit "`").

(** The loop over the paths of [host_executable]. *)
Fixpoint parse_host_paths (name : str) (paths : list value) (parsed : list str) :
    result Error (list str) :=
  match paths with
  | [] => Ok parsed
  | v :: paths =>
      let? raw := unpack_str (λ t, InvalidRule
                    (lit "host_executable paths must be strings (got " ++ t ++ lit ")")) v in
      let? path := parse_literal_absolute_path raw in
      match executable_path_lookup_key path with
      | None => Err (msg_basename raw name)
      | Some path_name =>
          if negb (bool_decide (path_name = executable_lookup_key name))
          then Err (msg_basename raw name)
          else parse_host_paths name paths
                 (if existsb (λ existing, bool_decide (existing = path)) parsed
                  then parsed else parsed ++ [path])
      end
  end.

(** The built-in [host_executable]. *)
Definition host_executable (name : str) (paths : list value) (b : PolicyBuilder) :
    PolicyBuilder * result Error () :=
  match (let? _ := validate_host_executable_name name in parse_host_paths name paths []) with
  | Err e => (b, Err e)
  | Ok parsed =>
      (mkBuilder (set_host_executable_paths (executable_lookup_key name) parsed (built b))
         (pending_example_validations b), Ok tt)
  end.

(** ** Examples *)

Definition render_example (example : list str) : str :=
  default (lit "unable to render example") (shlex_join example).

(** [validate_match_examples] and [validate_not_match_examples] *)
Definition validate_match_examples (p : Policy) (rules : list PrefixRule)
    (matches : list (list str)) : result Error () :=
  let unmatched :=
    filter (λ ex, matches_for_command_with_options p ex None (mkOptions true) = []) matches in
  if is_nil unmatched then Ok tt
  else Err (ExampleDidNotMatch (debug_rule <$> rules) (render_example <$> unmatched) None).

Fixpoint validate_not_match_examples (p : Policy) (not_matches : list (list str)) :
    result Error () :=
  match not_matches with
  | [] => Ok tt
  | example :: not_matches =>
      match matches_for_command_with_options p example None (mkOptions true) with
      | m :: _ => Err (ExampleDidMatch (debug_match m) (render_example example) None)
      | [] => validate_not_match_examples p not_matches
      end
  end.

(** [Error::with_location] and [attach_validation_location] *)
Definition with_location (e : Error) (l : ErrorLocation) : Error :=
  match e with
  | ExampleDidNotMatch rules examples None => ExampleDidNotMatch rules examples (Some l)
  | ExampleDidMatch rule example None => ExampleDidMatch rule example (Some l)
  | other => other
  end.
Definition attach_validation_location (e : Error) (l : option ErrorLocation) : Error :=
  match l with Some l => with_location e l | None => e end.

Definition validate_one (b : PolicyBuilder) (v : PendingExampleValidation) : result Error () :=
  let p := mkPolicy (foldl (λ m r, multimap_insert (program r) r m) ∅ (pending_rules v)) []
             (host_executables_by_name (built b)) in
  result_map_err (λ e, attach_validation_location e (pending_location v))
    (let? _ := validate_not_match_examples p (pending_not_matches v) in
     validate_match_examples p (pending_rules v) (pending_matches v)).

(** [PolicyBuilder::validate_pending_examples_from]; a start behind the end panics. *)
Definition validate_pending_examples_from (start : nat) (b : PolicyBuilder) :
    option (result Error ()) :=
  if decide (start ≤ length (pending_example_validations b))
  then Some (let? _ := try_map (validate_one b) (drop start (pending_example_validations b)) in Ok tt)
  else None.

(** A call of a built-in, as the interpreter makes it. *)
Inductive call :=
| CallPrefixRule (pattern : list value) (decision : option str)
    (match_ not_match : option (list value)) (justification : option str)
    (location : option ErrorLocation)
| CallNetworkRule (raw_host protocol decision : str) (justification : option str)
| CallHostExecutable (name : str) (paths : list value).

Definition run_call (c : call) (b : PolicyBuilder) : PolicyBuilder * result Error () :=
  match c with
  | CallPrefixRule pattern decision m nm justification location =>
      prefix_rule pattern decision m nm justification location b
  | CallNetworkRule h protocol decision justification =>
      network_rule h protocol decision justification b
  | CallHostExecutable name paths => host_executable name paths b
  end.

(** The calls of a file, up to the first that fails. *)
Fixpoint run_calls (cs : list call) (b : PolicyBuilder) : PolicyBuilder * result Error () :=
  match cs with
  | [] => (b, Ok tt)
  | c :: cs => let! b | _ := run_call c b in run_calls cs b
  end.

(** [PolicyParser::parse] around the interpreter. *)
Definition parse_policy (cs : list call) (b : PolicyBuilder) :
    PolicyBuilder * option (result Error ()) :=
  let pending_validation_count := length (pending_example_validations b) in
  match run_calls cs b with
  | (b, Err e) => (b, Some (Err e))
  | (b, Ok _) => (b, validate_pending_examples_from pending_validation_count b)
  end.
End builder.

(** * Appending to a policy file *)

(** [append_locked_line] on the contents read: the texts written, in order. *)
Definition append_line_writes (contents line : str) : list str :=
  if existsb (λ existing, bool_decide (existing = line)) (lines contents) then []
  else (if negb (is_nil contents) && negb (ends_with contents [nl]) then [[nl]] else [])
       ++ [line ++ [nl]].

Definition append_line (contents line : str) : str := contents ++ concat (append_line_writes contents line).

Section amend.
(** [serde_json::to_string] of a string. *)
Variable json_string : str → str.

Inductive AmendError := EmptyPrefix | InvalidNetworkRule (e : Error).

(** The line [blocking_append_allow_prefix_rule] appends. *)
Definition allow_prefix_rule_line (prefix : list str) : result AmendError str :=
  if is_nil prefix then Err EmptyPrefix
  else Ok (lit "prefix_rule(pattern=[" ++ join (lit ", ") (json_string <$> prefix)
           ++ lit "], decision=" ++ [34%N] ++ lit "allow" ++ [34%N] ++ lit ")").

Definition decision_text (d : Decision) : str :=
  match d with Allow => lit "allow" | Prompt => lit "prompt" | Forbidden => lit "deny" end.

(** The line [blocking_append_network_rule] appends. *)
Definition network_rule_line (raw : str) (protocol : NetworkRuleProtocol) (decision : Decision)
    (justification : option str) : result AmendError str :=
  let? host := result_map_err InvalidNetworkRule (normalize_network_rule_host raw) in
  let? justification := result_map_err InvalidNetworkRule (parse_justification justification) in
  let args :=
    [lit "host=" ++ json_string host; lit "protocol=" ++ json_string (as_policy_string protocol);
     lit "decision=" ++ json_string (decision_text decision)]
    ++ match justification with
       | Some j => [lit "justification=" ++ json_string j]
       | None => []
       end in
  Ok (lit "network_rule(" ++ join (lit ", ") args ++ lit ")").
End amend.

(** * Normalised hosts *)

(** The characters a host is refused for before it is stripped, and the wild card. *)
Definition url_chars : list N := [47; 63; 35]%N.

(** What a stored host looks like: lower case, no white space, wild card, path or query. *)
Definition clean_host (h : str) : Prop :=
  h ≠ [] ∧ Forall (λ c, is_whitespace c = false ∧ (c ∉ 42%N :: url_chars) ∧ ¬ (65 ≤ c ≤ 90)%N) h.

Lemma strip_host_subset raw host h c : strip_host raw host = Ok h → c ∈ h → c ∈ host.
Proof.
  unfold strip_host. destruct (strip_prefix [91%N] host) as [s|] eqn:Ep.
  - apply strip_prefix_Some in Ep as ->.
    destruct (split_once 93%N s) as [[inside rest]|] eqn:Es; [|done].
    apply split_once_Some in Es as ->. destruct (negb _ && _); [done|]. intros [= <-]. set_solver.
  - destruct (bool_decide _); [|by intros [= <-]].
    destruct (rsplit_once 58%N host) as [[a b]|] eqn:Er; [|by intros [= <-]].
    apply rsplit_once_Some in Er as ->. destruct (negb _ && _); intros [= <-]; set_solver.
Qed.

Lemma lowercase_char c :
  let d := (if decide (65 ≤ c ≤ 90)%N then (c + 32)%N else c) in
  ((d ∉ url_chars) ∧ ¬ (65 ≤ d ≤ 90)%N) ∨ c ∈ url_chars.
Proof.
  simpl. destruct (decide (c ∈ url_chars)) as [|Hn]; [by right|]. left.
  case_decide; [|done]. split; [|lia]. unfold url_chars. rewrite !elem_of_cons, elem_of_nil. lia.
Qed.

Lemma normalized_host_clean raw h : normalize_network_rule_host raw = Ok h → clean_host h.
Proof.
  unfold normalize_network_rule_host. destruct (is_nil (trim raw)); [done|].
  destruct (_ || _) eqn:Ebad; [done|]. rewrite !orb_false_iff in Ebad.
  destruct Ebad as [[[_ Hslash] Hq] Hhash].
  destruct (strip_host raw (trim raw)) as [host|] eqn:Es; [|done].
  set (n := to_ascii_lowercase _). destruct (is_nil n) eqn:Hn; [done|].
  destruct (contains n (lit "*")) eqn:Hstar; [done|].
  destruct (existsb is_whitespace n) eqn:Hws; [done|]. intros [= <-].
  split; [by apply is_nil_false|]. apply Forall_forall. intros c Hc.
  assert (c ≠ 42%N) as Hc42.
  { intros ->. assert (contains n (lit "*") = true) by by apply (contains_char n 42). congruence. }
  assert (is_whitespace c = false) as Hcw.
  { destruct (is_whitespace c) eqn:Hw; [|done].
    assert (existsb is_whitespace n = true); [|congruence].
    apply existsb_exists. exists c. by rewrite <- list_elem_of_In. }
  apply list_elem_of_fmap in Hc as (x & -> & Hx).
  apply trim_subset, trim_end_matches_subset, (strip_host_subset _ _ _ _ Es) in Hx.
  destruct (lowercase_char x) as [[Hl Hu]|Hbad].
  - split_and!; [done| |done]. rewrite elem_of_cons. tauto.
  - exfalso. assert (∀ y, contains (trim raw) [y] = false → x ≠ y) as Hno.
    { intros y Hy ->. apply contains_char in Hx. congruence. }
    unfold url_chars in Hbad. rewrite !elem_of_cons, elem_of_nil in Hbad. destruct Hbad as [->|[->|[->|[]]]];
      [by apply (Hno 47%N)|by apply (Hno 63%N)|by apply (Hno 35%N)].
Qed.

(** * The rules of a pattern *)

Lemma rules_of_pattern_applies tokens d j cmd :
  tokens ≠ [] →
  (∃ r, r ∈ rules_of_pattern tokens d j ∧ applies r cmd)
  ↔ ∃ words args, cmd = words ++ args ∧ Forall2 (λ t w, w ∈ alternatives t) tokens words.
Proof.
  destruct tokens as [|t tokens]; [done|]. intros _. simpl. split.
  - intros (r & (head & -> & Hh)%list_elem_of_fmap & words & args & -> & Hf).
    exists (head :: words), args. split; [done|]. by constructor.
  - intros (words & args & -> & Hf). inversion Hf as [|? w ? ws Hw Hws]; subst.
    eexists. split; [apply list_elem_of_fmap; eauto|]. by exists ws, args.
Qed.

Lemma stored_add_rule p r r' : stored (add_rule r p) r' ↔ stored p r' ∨ r' = r.
Proof.
  rewrite !stored_default. simpl. unfold multimap_insert.
  destruct (decide (program r = program r')) as [E|E].
  - rewrite E, lookup_insert_eq. simpl. rewrite elem_of_app, list_elem_of_singleton. done.
  - rewrite lookup_insert_ne by done. naive_solver.
Qed.

Lemma stored_add_rules rules p r :
  stored (foldl (λ p r, add_rule r p) p rules) r ↔ stored p r ∨ r ∈ rules.
Proof.
  revert p. induction rules as [|x rules IH]; intros p; simpl; [rewrite elem_of_nil; tauto|].
  rewrite IH, stored_add_rule, elem_of_cons. tauto.
Qed.

(** * Built policies *)

Section built.
Context `{HostPaths}.
Variables (shlex_split : str → option (list str)) (shlex_join : list str → option str)
  (debug_rule : PrefixRule → str) (debug_match : RuleMatch → str)
  (path_is_absolute : str → bool) (absolute_path_error : str → str) (bare_name : str → bool).

(** Rules are filed under their program, hosts are normalised, and the paths
    declared for a name are distinct and have that file name. *)
Definition wf_built (p : Policy) : Prop :=
  wf_policy p ∧ Forall (λ r, clean_host (host r)) (network_rules p)
  ∧ map_Forall (λ name paths,
      NoDup paths ∧ Forall (λ path, executable_path_lookup_key path = Some name) paths)
      (host_executables_by_name p).

Lemma multimap_insert_wf k r m :
  map_Forall (λ k rules, Forall (λ r, program r = k) rules) m → program r = k →
  map_Forall (λ k rules, Forall (λ r, program r = k) rules) (multimap_insert k r m).
Proof.
  intros Hm Hr. unfold multimap_insert. apply map_Forall_insert_2; [|done].
  apply Forall_snoc. split; [|done]. destruct (m !! k) eqn:E; [by apply Hm in E|constructor].
Qed.

Lemma add_rules_wf rules p : wf_built p → wf_built (foldl (λ p r, add_rule r p) p rules).
Proof.
  revert p. induction rules as [|r rules IH]; intros p Hp; simpl; [done|]. apply IH.
  destruct Hp as (Hw & Hn & Hh). split_and!; [|done..]. by apply multimap_insert_wf.
Qed.

Lemma parse_host_paths_spec name paths parsed out :
  parse_host_paths path_is_absolute absolute_path_error name paths parsed
    = Ok out →
  NoDup parsed →
  Forall (λ path, executable_path_lookup_key path = Some (executable_lookup_key name)) parsed →
  NoDup out
  ∧ Forall (λ path, executable_path_lookup_key path = Some (executable_lookup_key name)) out.
Proof.
  revert parsed. induction paths as [|v paths IH]; intros parsed; simpl; [by intros [= <-]|].
  destruct (unpack_str _ v) as [raw|]; [|done].
  destruct (parse_literal_absolute_path _ _ raw) as [path|]; [|done].
  destruct (executable_path_lookup_key path) as [n|] eqn:En; [|done].
  destruct (bool_decide _) eqn:Eb; simpl; [|done]. apply bool_decide_eq_true in Eb as ->.
  intros Hp Hnd Hf. apply (IH _ Hp); destruct (existsb _ parsed) eqn:Ex; try done.
  - apply NoDup_app. split_and!; [done| |apply NoDup_singleton].
    intros x Hx ->%list_elem_of_singleton. apply not_true_iff_false in Ex. apply Ex.
    apply existsb_exists. exists path. by rewrite <- list_elem_of_In, bool_decide_eq_true.
  - by apply Forall_snoc.
Qed.

Lemma run_call_wf c b b' r :
  run_call shlex_split path_is_absolute absolute_path_error bare_name c b
    = (b', r) →
  wf_built (built b) → wf_built (built b').
Proof.
  destruct c as [pattern decision m nm j loc|h pr d j|name paths]; simpl.
  - unfold prefix_rule. destruct (prefix_rule_args _ _ _ _ _ _) as [[[rules ms] nms]|];
      intros [= <- <-]; [apply add_rules_wf|done].
  - unfold network_rule.
    destruct (parse_protocol pr) as [pr'|]; [|by intros [= <- <-]].
    destruct (parse_network_rule_decision d) as [d'|]; [|by intros [= <- <-]].
    destruct (parse_justification j) as [j'|]; [|by intros [= <- <-]].
    destruct (normalize_network_rule_host h) as [h'|] eqn:Eh; intros [= <- <-]; [|done].
    intros (? & Hn & ?). split_and!; [done| |done]. simpl. apply Forall_snoc. split; [done|].
    by eapply normalized_host_clean.
  - unfold host_executable. destruct (validate_host_executable_name _ _); [|by intros [= <- <-]].
    destruct (parse_host_paths _ _ _ _ _) as [out|] eqn:Ep; intros [= <- <-]; [|done].
    intros (? & ? & Hh). split_and!; [done..|]. simpl. apply map_Forall_insert_2; [|done].
    eapply parse_host_paths_spec; [done|constructor..].
Qed.

Lemma run_calls_wf cs b b' r :
  run_calls shlex_split path_is_absolute absolute_path_error bare_name cs b
    = (b', r) →
  wf_built (built b) → wf_built (built b').
Proof.
  revert b. induction cs as [|c cs IH]; intros b; simpl; [by intros [= <- <-]|].
  destruct (run_call _ _ _ _ c b) as [b1 [[]|e]] eqn:E; [|intros [= <- <-]];
    intros; eauto using run_call_wf.
Qed.

(** Calls only add pending validations. *)
Lemma run_call_pending c b b' r :
  run_call shlex_split path_is_absolute absolute_path_error bare_name c b
    = (b', r) →
  length (pending_example_validations b) ≤ length (pending_example_validations b').
Proof.
  destruct c as [pattern decision m nm j loc|h pr d j|name paths]; simpl.
  - unfold prefix_rule. destruct (prefix_rule_args _ _ _ _ _ _) as [[[rules ms] nms]|];
      intros [= <- <-]; simpl; rewrite ?length_app; lia.
  - unfold network_rule. intros Hn. repeat case_match; by simplify_eq/=.
  - unfold host_executable. intros Hn. repeat case_match; by simplify_eq/=.
Qed.

Lemma run_calls_pending cs b b' r :
  run_calls shlex_split path_is_absolute absolute_path_error bare_name cs b
    = (b', r) →
  length (pending_example_validations b) ≤ length (pending_example_validations b').
Proof.
  revert b. induction cs as [|c cs IH]; intros b; simpl; [by intros [= <- <-]|].
  destruct (run_call _ _ _ _ c b) as [b1 [[]|e]] eqn:E; apply run_call_pending in E.
  - intros Hr%IH. lia.
  - by intros [= <- <-].
Qed.

(** ** Examples *)

Lemma try_map_Ok {A E} (f : A → result E ()) l x ys :
  try_map f l = Ok ys → x ∈ l → f x = Ok tt.
Proof.
  revert ys. induction l as [|y l IH]; intros ys; simpl; [by intros _ ?%elem_of_nil|].
  destruct (f y) as [[]|] eqn:Ey; [|done]. destruct (try_map f l) as [ys'|]; [|done].
  intros _ [->|Hx]%elem_of_cons; [done|]. by eapply IH.
Qed.

(** The policy a validation is run against. *)
Definition validation_policy (b : PolicyBuilder) (v : PendingExampleValidation) : Policy :=
  mkPolicy (foldl (λ m r, multimap_insert (program r) r m) ∅ (pending_rules v)) []
    (host_executables_by_name (built b)).

Definition example_matches (p : Policy) (ex : list str) : Prop :=
  matches_for_command_with_options p ex None (mkOptions true) ≠ [].

Lemma validate_one_Ok b v :
  validate_one shlex_join debug_rule debug_match b v = Ok tt →
  Forall (example_matches (validation_policy b v)) (pending_matches v)
  ∧ Forall (λ ex, ¬ example_matches (validation_policy b v) ex) (pending_not_matches v).
Proof.
  unfold validate_one. fold (validation_policy b v). generalize (validation_policy b v) as p.
  intros p. destruct (validate_not_match_examples _ _ p _) as [[]|] eqn:En; [|done].
  destruct (validate_match_examples _ _ p _ _) as [[]|] eqn:Em; [|done]. intros _. split.
  - unfold validate_match_examples in Em. destruct (is_nil _) eqn:Ef; [|done].
    apply is_nil_true in Ef. apply Forall_forall. intros ex Hex Hm.
    eapply (elem_of_nil ex). rewrite <- Ef. by apply list_elem_of_filter.
  - clear Em. revert En. induction (pending_not_matches v) as [|ex l IH]; simpl; [constructor|].
    destruct (matches_for_command_with_options p ex None (mkOptions true)) eqn:Ex; [|done].
    intros Hv. constructor; [|by apply IH]. intros Hm. by apply Hm.
Qed.
End built.

(** * Policy files *)

(** Appending adds one line, whether or not the file ended with a newline. *)
Lemma append_new_line contents line :
  no_nl line → last line ≠ Some cr → last contents ≠ Some cr → line ∉ lines contents →
  lines (append_line contents line) = lines contents ++ [line].
Proof.
  intros Hl Hcr Hc Hnew. unfold append_line, append_line_writes.
  assert (existsb (λ existing, bool_decide (existing = line)) (lines contents) = false) as ->.
  { apply not_true_is_false. rewrite existsb_exists.
    intros (x & Hx%list_elem_of_In & ->%bool_decide_eq_true). done. }
  destruct (last contents) as [c|] eqn:Hlast.
  2: { apply last_None in Hlast as ->. simpl. rewrite app_nil_r, lines_snoc_nl, split_on_no by done.
       simpl. by rewrite strip_cr_id. }
  rewrite (proj2 (is_nil_false contents)) by by intros ->. simpl.
  destruct (decide (c = nl)) as [->|Hn].
  - apply last_Some_snoc in Hlast as [t ->].
    rewrite (proj2 (ends_with_true _ _)) by by exists t. simpl.
    rewrite app_nil_r, !app_assoc, !lines_snoc_nl, <- app_assoc. simpl.
    rewrite split_on_app_sep, fmap_app, (split_on_no nl line) by done. simpl.
    by rewrite strip_cr_id.
  - assert (ends_with contents [nl] = false) as ->.
    { apply not_true_is_false. rewrite ends_with_true. intros [t ->].
      rewrite last_snoc in Hlast. congruence. }
    simpl. rewrite app_nil_r, app_comm_cons, app_assoc, lines_snoc_nl.
    rewrite (lines_no_final_newline contents c) by congruence.
    rewrite split_on_app_sep, fmap_app, (split_on_no nl line) by done. simpl.
    by rewrite strip_cr_id.
Qed.

(** * Properties *)

(** C40: a parsed policy is well formed, also when parsing stops at an error:
    every rule is filed under the program it is for (so that the lookup by
    program finds all rules), every network host is normalised, and the
    paths declared for an executable are distinct and carry its name. *)
Theorem parsed_policy_well_formed `{HostPaths} shlex_split shlex_join debug_rule debug_match
    path_is_absolute absolute_path_error bare_name cs :
  wf_built (built (parse_policy shlex_split shlex_join debug_rule debug_match path_is_absolute
                     absolute_path_error bare_name cs new_builder).1).
Proof.
  unfold parse_policy. destruct (run_calls _ _ _ _ _ _) as [b r] eqn:E.
  apply run_calls_wf in E; [by destruct r|]. split_and!; [apply map_Forall_empty|constructor|].
  apply map_Forall_empty.
Qed.

(** The examples of accepted rules are true: when a policy file is
    accepted, every [match] example of its rules is matched and no [not_match]
    example is, with the executables declared in the whole file; and
    validation never reads outside the recorded examples. *)
Theorem accepted_examples_hold `{HostPaths} shlex_split shlex_join debug_rule debug_match
    path_is_absolute absolute_path_error bare_name cs b :
  match parse_policy shlex_split shlex_join debug_rule debug_match path_is_absolute
          absolute_path_error bare_name cs b with
  | (_, None) => False
  | (_, Some (Err _)) => True
  | (b', Some (Ok _)) =>
      ∀ v, v ∈ drop (length (pending_example_validations b)) (pending_example_validations b') →
        Forall (example_matches (validation_policy b' v)) (pending_matches v)
        ∧ Forall (λ ex, ¬ example_matches (validation_policy b' v) ex) (pending_not_matches v)
  end.
Proof.
  unfold parse_policy. destruct (run_calls _ _ _ _ _ _) as [b' [[]|e]] eqn:E; [|done].
  unfold validate_pending_examples_from. rewrite decide_True by by eapply run_calls_pending.
  destruct (try_map _ _) as [ys|] eqn:Em; [|done]. intros v Hv.
  eapply validate_one_Ok, try_map_Ok; done.
Qed.

(** What [prefix_rule] means: after a successful call the commands
    some rule applies to are those before the call and those that start with
    one allowed word per element of the pattern, the first element included. *)
Theorem prefix_rule_meaning `{HostPaths} shlex_split pattern decision m nm j loc b b' :
  prefix_rule shlex_split pattern decision m nm j loc b = (b', Ok tt) →
  ∃ tokens, parse_pattern pattern = Ok tokens
    ∧ ∀ cmd, (∃ r, stored (built b') r ∧ applies r cmd)
        ↔ (∃ r, stored (built b) r ∧ applies r cmd)
          ∨ ∃ words args, cmd = words ++ args ∧ Forall2 (λ t w, w ∈ alternatives t) tokens words.
Proof.
  unfold prefix_rule, prefix_rule_args.
  destruct (match decision with Some _ => _ | None => _ end) as [d|]; [|done].
  destruct (parse_justification j) as [j'|]; [|done].
  destruct (parse_pattern pattern) as [tokens|] eqn:Et; [|done].
  destruct (parse_examples _ m) as [ms|]; [|done].
  destruct (parse_examples _ nm) as [nms|]; [|done]. intros [= <-]. exists tokens.
  split; [done|]. intros cmd. rewrite <- (rules_of_pattern_applies tokens d j').
  - simpl. setoid_rewrite stored_add_rules. naive_solver.
  - unfold parse_pattern in Et. destruct (try_map _ _) as [ts|]; [|done].
    destruct (is_nil ts) eqn:En; [done|]. simplify_eq. by apply is_nil_false.
Qed.

#[local] Instance demo_paths : HostPaths := {
  windows := false;
  absolute_path s := if starts_with s (lit "/") then Some s else None;
  path_file_name s := last (split_on 47%N s)
}.

Lemma prefix_rule_meaning_witness :
  let pattern := [VList [VStr (lit "npm"); VStr (lit "yarn")]; VStr (lit "test")] in
  let b' := (prefix_rule (λ _, None) pattern None None None None None new_builder).1 in
  ∃ tokens, parse_pattern pattern = Ok tokens
    ∧ ∀ cmd, (∃ r, stored (built b') r ∧ applies r cmd)
        ↔ (∃ r, stored (built new_builder) r ∧ applies r cmd)
          ∨ ∃ words args, cmd = words ++ args ∧ Forall2 (λ t w, w ∈ alternatives t) tokens words.
Proof.
  intros pattern b'.
  apply (prefix_rule_meaning (λ _, None) pattern None None None None None new_builder b').
  reflexivity.
Defined.

(** Appending a rule to a policy file adds exactly that line at the end,
    unless the file has it already; the old text stays as it was, a missing
    final newline is supplied, and appending the same rule again changes
    nothing. *)
Theorem append_rule_line contents line :
  no_nl line → last line ≠ Some cr → last contents ≠ Some cr →
  lines (append_line contents line)
    = (if decide (line ∈ lines contents) then lines contents else lines contents ++ [line])
  ∧ contents `prefix_of` append_line contents line
  ∧ append_line (append_line contents line) line = append_line contents line.
Proof.
  intros Hl Hcr Hc.
  assert (∀ c, line ∈ lines c → append_line c line = c) as Hid.
  { intros c Hin. unfold append_line, append_line_writes.
    assert (existsb (λ existing, bool_decide (existing = line)) (lines c) = true) as ->.
    { apply existsb_exists. exists line. by rewrite <- list_elem_of_In, bool_decide_eq_true. }
    simpl. apply app_nil_r. }
  assert (lines (append_line contents line)
    = if decide (line ∈ lines contents) then lines contents else lines contents ++ [line]) as Hlines.
  { case_decide; [by rewrite Hid|by apply append_new_line]. }
  split_and!; [done|by eexists|]. apply Hid. rewrite Hlines. case_decide; set_solver.
Qed.

Lemma append_rule_line_witness :
  let contents := lit "a" in let line := lit "b" in
  lines (append_line contents line)
    = (if decide (line ∈ lines contents) then lines contents else lines contents ++ [line])
  ∧ contents `prefix_of` append_line contents line
  ∧ append_line (append_line contents line) line = append_line contents line.
Proof.
  apply (append_rule_line (lit "a") (lit "b")); [|discriminate..].
  intros [Hx|Hx]%elem_of_cons; [discriminate Hx|by apply elem_of_nil in Hx].
Defined.

(** The text of a network rule reads back: the protocol and the decision
    that [blocking_append_network_rule] writes are parsed by the built-in
    [network_rule] to the same protocol and decision. *)
Theorem network_rule_text_roundtrip pr d :
  parse_protocol (as_policy_string pr) = Ok pr
  ∧ parse_network_rule_decision (decision_text d) = Ok d.
Proof. split; [by destruct pr|by destruct d]. Qed.

(** * Normalising twice *)

(** [normalize_network_rule_host] is not idempotent, so a host that is normalised
    when it is appended to a policy file and again when the file is read may
    change: a bracketed name with a port loses the brackets first and the
    port then. *)
Example normalize_host_twice :
  normalize_network_rule_host (lit "[example.com:80]") = Ok (lit "example.com:80")
  ∧ normalize_network_rule_host (lit "example.com:80") = Ok (lit "example.com").
Proof. split; reflexivity. Qed.
