(* ===== verification/StreamText.v ===== *)
(** [utils/stream-parser/src/stream_text.rs]: the trait of parsers that consume
    streamed text and emit visible text plus extracted payloads, and the law
    its implementations keep: the output does not depend on how the text was
    cut into chunks.  Payloads are compared up to a congruence, because a
    parser may split one payload over two chunks. *)

From Stdlib Require Import Setoid.
From S2P Require Import Prelude Text.

(** [StreamTextChunk] *)
Record StreamTextChunk (X : Type) := mkTextChunk { visible_text : str; extracted : list X }.
Arguments mkTextChunk {X}.
Arguments visible_text {X}.
Arguments extracted {X}.

Definition default_chunk {X} : StreamTextChunk X := mkTextChunk [] [].

(** [StreamTextChunk::is_empty] *)
Definition chunk_is_empty {X} (c : StreamTextChunk X) : bool :=
  is_nil (visible_text c) && is_nil (extracted c).

Definition chunk_app {X} (a b : StreamTextChunk X) : StreamTextChunk X :=
  mkTextChunk (visible_text a ++ visible_text b) (extracted a ++ extracted b).

(** [StreamTextParser] *)
Class StreamTextParser (P X : Type) := {
  push_str : P → str → P * StreamTextChunk X;
  finish : P → P * StreamTextChunk X
}.

(** Pushing a list of chunks, and the whole life of a parser. *)
Fixpoint push_all {P X} `{StreamTextParser P X} (p : P) (chunks : list str) :
    P * StreamTextChunk X :=
  match chunks with
  | [] => (p, default_chunk)
  | c :: chunks =>
      let '(p, out) := push_str p c in
      let '(p, out') := push_all p chunks in (p, chunk_app out out')
  end.

Definition run_stream {P X} `{StreamTextParser P X} (p : P) (chunks : list str) :
    StreamTextChunk X :=
  let '(p, out) := push_all p chunks in
  let '(_, tail) := finish p in chunk_app out tail.

(** An equivalence on payload sequences that concatenation respects. *)
Class PayloadEquiv {X} (R : relation (list X)) : Prop := {
  payload_equivalence :: Equivalence R;
  payload_app :: Proper (R ==> R ==> R) app
}.

#[export] Instance eq_payload {X} : PayloadEquiv (@eq (list X)).
Proof. split; [apply _|]. intros ? ? -> ? ? ->. done. Qed.

(** Equal visible text, equivalent payloads. *)
Definition chunk_equiv {X} (R : relation (list X)) : relation (StreamTextChunk X) :=
  λ a b, visible_text a = visible_text b ∧ R (extracted a) (extracted b).

#[export] Instance chunk_equiv_equivalence {X} (R : relation (list X)) `{!PayloadEquiv R} :
  Equivalence (chunk_equiv R).
Proof.
  unfold chunk_equiv. split.
  - intros x. split; reflexivity.
  - intros x y [-> HR]. split; [done|by symmetry].
  - intros x y z [-> ?] [-> ?]. split; [done|by etransitivity].
Qed.

#[export] Instance chunk_app_proper {X} (R : relation (list X)) `{!PayloadEquiv R} :
  Proper (chunk_equiv R ==> chunk_equiv R ==> chunk_equiv R) chunk_app.
Proof.
  intros a a' [Ha HRa] b b' [Hb HRb]. unfold chunk_equiv, chunk_app. simpl.
  rewrite Ha, Hb. split; [done|]. by apply payload_app.
Qed.

Lemma chunk_app_assoc {X} (a b c : StreamTextChunk X) :
  chunk_app (chunk_app a b) c = chunk_app a (chunk_app b c).
Proof. unfold chunk_app. simpl. by rewrite !app_assoc. Qed.

Lemma chunk_app_default_r {X} (a : StreamTextChunk X) : chunk_app a default_chunk = a.
Proof. unfold chunk_app. simpl. rewrite !app_nil_r. by destruct a. Qed.

Lemma chunk_app_default_l {X} (a : StreamTextChunk X) : chunk_app default_chunk a = a.
Proof. by destruct a. Qed.

(** The law: on parsers that satisfy the invariant [ok], one push of a text is
    two pushes of its halves, and an empty parser emits nothing for no text. *)
Class ChunkInvariant P X `{StreamTextParser P X} (ok : P → Prop) (R : relation (list X)) : Prop := {
  invariant_payload :: PayloadEquiv R;
  push_str_ok p a : ok p → ok (push_str p a).1;
  push_str_app p a b p1 o1 p2 o2 :
    ok p → push_str p a = (p1, o1) → push_str p1 b = (p2, o2) →
    ∃ o, push_str p (a ++ b) = (p2, o) ∧ chunk_equiv R o (chunk_app o1 o2)
}.

Section invariant.
Context {P X : Type} `{StreamTextParser P X} (ok : P → Prop) (R : relation (list X))
  `{!ChunkInvariant P X ok R}.

Lemma push_all_concat p c chunks p' o :
  ok p → push_all p (c :: chunks) = (p', o) →
  ∃ o', push_str p (concat (c :: chunks)) = (p', o') ∧ chunk_equiv R o' o.
Proof.
  revert p c p' o. induction chunks as [|d chunks IH]; intros p c p' o Hok.
  - simpl. destruct (push_str p c) as [p1 o1] eqn:E. intros [= <- <-].
    rewrite app_nil_r, chunk_app_default_r. exists o1. split; [done|reflexivity].
  - cbn [push_all]. destruct (push_str p c) as [p1 o1] eqn:E1.
    pose proof (push_str_ok p c Hok) as Hok1. rewrite E1 in Hok1. simpl in Hok1.
    destruct (push_str p1 d) as [p2 o2] eqn:E2. destruct (push_all p2 chunks) as [p3 o3] eqn:E3.
    intros [= <- <-].
    destruct (IH p1 d p3 (chunk_app o2 o3) Hok1) as (o' & Ho' & Heq).
    { cbn [push_all]. by rewrite E2, E3. }
    destruct (push_str_app p c (concat (d :: chunks)) _ _ _ _ Hok E1 Ho') as (o & Ho & Heq').
    exists o. split; [exact Ho|].
    etransitivity; [exact Heq'|]. apply (chunk_app_proper R); [reflexivity|done].
Qed.

(** However a text is cut, the output is that of the whole text. *)
Lemma run_stream_concat p c chunks :
  ok p → chunk_equiv R (run_stream p (c :: chunks)) (run_stream p [concat (c :: chunks)]).
Proof.
  intros Hok. unfold run_stream. destruct (push_all p (c :: chunks)) as [p' o] eqn:E.
  apply push_all_concat in E as (o' & Ho' & Heq); [|done].
  cbn [push_all]. rewrite Ho'. destruct (finish p') as [p'' t].
  rewrite chunk_app_default_r. apply (chunk_app_proper R); [by symmetry|reflexivity].
Qed.
End invariant.
