(* ===== verification/InlineHiddenTag.v ===== *)
(** [utils/stream-parser/src/inline_hidden_tag.rs]: the streaming parser that
    hides inline tags and extracts their contents.  Positions are counted in
    characters.  The loop of [push_str] is shown to compute, over any
    chunking, the reference function [hide] on the whole text. *)

From S2P Require Import Prelude Text StreamText.

(** * The code *)

(** [InlineTagSpec], [ExtractedInlineTag] and [ActiveTag] *)
Record InlineTagSpec (T : Type) := mkSpec { spec_tag : T; spec_open : str; spec_close : str }.
Arguments mkSpec {T}.
Arguments spec_tag {T}.
Arguments spec_open {T}.
Arguments spec_close {T}.

Record ExtractedInlineTag (T : Type) := mkExtracted { tag : T; content : str }.
Arguments mkExtracted {T}.
Arguments tag {T}.
Arguments content {T}.

Record ActiveTag (T : Type) := mkActive { active_tag : T; active_close : str; active_content : str }.
Arguments mkActive {T}.
Arguments active_tag {T}.
Arguments active_close {T}.
Arguments active_content {T}.

(** [InlineHiddenTagParser] *)
Record InlineHiddenTagParser (T : Type) := mkInline {
  specs : list (InlineTagSpec T);
  pending : str;
  active : option (ActiveTag T)
}.
Arguments mkInline {T}.
Arguments specs {T}.
Arguments pending {T}.
Arguments active {T}.

(** [s.find(needle)] *)
Fixpoint find_str (needle s : str) : option nat :=
  if starts_with s needle then Some 0
  else match s with [] => None | _ :: s' => S <$> find_str needle s' end.

(** [longest_suffix_prefix_len]: the loop over [k] downwards. *)
Fixpoint suffix_prefix_from (s needle : str) (k : nat) : nat :=
  match k with
  | O => 0
  | S k' => if ends_with s (take k needle) then k else suffix_prefix_from s needle k'
  end.
Definition longest_suffix_prefix_len (s needle : str) : nat :=
  suffix_prefix_from s needle (length s `min` (length needle - 1)).

Section code.
Context {T : Type}.
Implicit Types (p : InlineHiddenTagParser T) (out : StreamTextChunk (ExtractedInlineTag T)).

(** [InlineHiddenTagParser::new]; [None] when an assertion fails. *)
Definition new_inline (ss : list (InlineTagSpec T)) : option (InlineHiddenTagParser T) :=
  if negb (is_nil ss)
     && forallb (λ s, negb (is_nil (spec_open s)) && negb (is_nil (spec_close s))) ss
  then Some (mkInline ss [] None) else None.

(** [find_next_open]: [min_by] position, then longer opener, then index;
    the first of equal elements wins, as in [Iterator::min_by]. *)
Definition opens_before (a b : nat * InlineTagSpec T) : bool :=
  bool_decide (a.1 < b.1)
  || bool_decide (a.1 = b.1 ∧ str_len (spec_open b.2) ≤ str_len (spec_open a.2)).

Fixpoint find_next_open (ss : list (InlineTagSpec T)) (s : str) :
    option (nat * InlineTagSpec T) :=
  match ss with
  | [] => None
  | spec :: ss =>
      match find_str (spec_open spec) s, find_next_open ss s with
      | Some pos, Some b => if opens_before (pos, spec) b then Some (pos, spec) else Some b
      | Some pos, None => Some (pos, spec)
      | None, r => r
      end
  end.

(** [max_open_prefix_suffix_len] *)
Definition max_open_prefix_suffix_len (ss : list (InlineTagSpec T)) (s : str) : nat :=
  foldr (λ spec m, longest_suffix_prefix_len s (spec_open spec) `max` m) 0 ss.

(** One round of the loop: what it emits, the new parser, and whether it continues. *)
Definition round p : StreamTextChunk (ExtractedInlineTag T) * InlineHiddenTagParser T * bool :=
  let s := pending p in
  match active p with
  | Some a =>
      match find_str (active_close a) s with
      | Some close_idx =>
          (mkTextChunk []
             [mkExtracted (active_tag a) (active_content a ++ take close_idx s)],
           mkInline (specs p) (drop (close_idx + length (active_close a)) s) None, true)
      | None =>
          let n := length s - longest_suffix_prefix_len s (active_close a) in
          (default_chunk,
           mkInline (specs p) (drop n s)
             (Some (mkActive (active_tag a) (active_close a) (active_content a ++ take n s))),
           false)
      end
  | None =>
      match find_next_open (specs p) s with
      | Some (open_idx, spec) =>
          (mkTextChunk (take open_idx s) [],
           mkInline (specs p) (drop (open_idx + length (spec_open spec)) s)
             (Some (mkActive (spec_tag spec) (spec_close spec) [])), true)
      | None =>
          let n := length s - max_open_prefix_suffix_len (specs p) s in
          (mkTextChunk (take n s) [], mkInline (specs p) (drop n s) None, false)
      end
  end.

(** The loop; a round that continues consumes a delimiter, so the length of
    the pending text bounds the number of rounds. *)
Fixpoint rounds (fuel : nat) p : InlineHiddenTagParser T * StreamTextChunk (ExtractedInlineTag T) :=
  match fuel with
  | O => (p, default_chunk)
  | S fuel =>
      let '(out, p, continue) := round p in
      if continue then let '(p, out') := rounds fuel p in (p, chunk_app out out')
      else (p, out)
  end.

Definition drain p := rounds (S (length (pending p))) p.

#[export] Instance inline_parser : StreamTextParser (InlineHiddenTagParser T) (ExtractedInlineTag T) := {
  push_str p chunk := drain (mkInline (specs p) (pending p ++ chunk) (active p));
  finish p :=
    match active p with
    | Some a =>
        (mkInline (specs p) [] None,
         mkTextChunk [] [mkExtracted (active_tag a) (active_content a ++ pending p)])
    | None => (mkInline (specs p) [] None, mkTextChunk (pending p) [])
    end
}.
End code.

(** * Occurrences *)

(** [needle] occurs in [s] at [j]; the part of [s] from [j] on is a proper prefix of it. *)
Definition occ (needle s : str) (j : nat) : Prop := take (length needle) (drop j s) = needle.
Definition part (needle s : str) (j : nat) : Prop :=
  j ≤ length s ∧ length s - j < length needle ∧ drop j s = take (length s - j) needle.

Lemma occ_bound needle s j : needle ≠ [] → occ needle s j → j + length needle ≤ length s.
Proof.
  unfold occ. intros Hn Ho. apply (f_equal length) in Ho.
  rewrite length_take, length_drop in Ho. apply length_pos in Hn. lia.
Qed.

Lemma occ_app needle s b j : j + length needle ≤ length s → occ needle (s ++ b) j ↔ occ needle s j.
Proof.
  intros Hj. unfold occ. rewrite drop_app_le, take_app_le by (rewrite ?length_drop; lia). done.
Qed.

Lemma occ_drop needle s t j : occ needle (drop t s) j ↔ occ needle s (t + j).
Proof. unfold occ. by rewrite drop_drop. Qed.

Lemma part_drop needle s t j :
  t ≤ length s → part needle (drop t s) j ↔ part needle s (t + j).
Proof.
  intros Ht. unfold part. rewrite drop_drop, length_drop.
  replace (length s - t - j) with (length s - (t + j)) by lia. split; intros (? & ? & ?); split_and!; auto; lia.
Qed.

(** An occurrence that needs more text than there is begins as a part. *)
Lemma occ_app_part needle s b j :
  needle ≠ [] → occ needle (s ++ b) j → ¬ occ needle s j → j ≤ length s → part needle s j.
Proof.
  intros Hn Ho Hno Hj.
  assert (length s < j + length needle) as Hlt.
  { destruct (decide (length s < j + length needle)) as [|Hge]; [done|].
    apply occ_app in Ho; [done|lia]. }
  split_and!; [done|lia|]. unfold occ in Ho.
  rewrite drop_app_le in Ho by done. rewrite <- Ho.
  rewrite take_take, Nat.min_l by lia. rewrite take_app_le by (rewrite length_drop; lia).
  by rewrite take_ge by (rewrite length_drop; lia).
Qed.

Lemma part_app needle s b j : part needle (s ++ b) j → j ≤ length s → part needle s j.
Proof.
  intros (_ & Hl & Hp) Hj. rewrite length_app in *. split_and!; [done|lia|].
  rewrite drop_app_le in Hp by done. apply (f_equal (take (length s - j))) in Hp.
  rewrite take_app_le, take_ge in Hp by (rewrite length_drop; lia).
  rewrite Hp, take_take. f_equal. lia.
Qed.

Lemma starts_with_occ needle s : starts_with s needle = true ↔ occ needle s 0.
Proof.
  rewrite starts_with_true. unfold occ. rewrite drop_0. split.
  - intros [r ->]. by rewrite take_app_length.
  - intros Ht. exists (drop (length needle) s). rewrite <- Ht at 1. by rewrite take_drop.
Qed.

Lemma find_str_Some needle s i :
  needle ≠ [] →
  find_str needle s = Some i ↔ occ needle s i ∧ ∀ j, j < i → ¬ occ needle s j.
Proof.
  intros Hn. revert i. induction s as [|c s IH]; intros i; cbn [find_str].
  - destruct (starts_with [] needle) eqn:E.
    + apply starts_with_occ, occ_bound in E; [|done]. apply length_pos in Hn. simpl in E. lia.
    + split; [done|]. intros [Ho%occ_bound _]; [|done]. apply length_pos in Hn. simpl in Ho. lia.
  - destruct (starts_with (c :: s) needle) eqn:E.
    + apply starts_with_occ in E. split.
      * intros [= <-]. split; [done|lia].
      * intros [_ Hno]. destruct i; [done|]. by destruct (Hno 0 ltac:(lia)).
    + assert (¬ occ needle (c :: s) 0) as H0.
      { intros Ho%starts_with_occ. congruence. }
      rewrite fmap_Some. setoid_rewrite IH. split.
      * intros (k & [Ho Hno] & ->). split; [by apply (occ_drop needle (c :: s) 1)|].
        intros [|j] Hj; [done|]. intros Hoj. apply (Hno j); [lia|].
        by apply (occ_drop needle (c :: s) 1) in Hoj.
      * intros [Ho Hno]. destruct i as [|i]; [done|]. exists i. split; [|done].
        split; [by apply (occ_drop needle (c :: s) 1) in Ho|].
        intros j Hj Hoj. apply (Hno (S j)); [lia|]. by apply (occ_drop needle (c :: s) 1).
Qed.

Lemma find_str_None needle s :
  needle ≠ [] → find_str needle s = None ↔ ∀ j, ¬ occ needle s j.
Proof.
  intros Hn. split.
  - intros Hf j. induction j as [j IH] using lt_wf_ind. intros Ho.
    assert (find_str needle s = Some j) by by apply find_str_Some. congruence.
  - intros Hno. destruct (find_str needle s) as [i|] eqn:E; [|done].
    apply find_str_Some in E as [Ho _]; [|done]. by apply Hno in Ho.
Qed.

(** Nothing occurs before [t]: search from there. *)
Lemma find_str_drop needle s t :
  needle ≠ [] → (∀ j, j < t → ¬ occ needle s j) →
  find_str needle s = (λ i, t + i) <$> find_str needle (drop t s).
Proof.
  intros Hn Hno. destruct (find_str needle (drop t s)) as [i|] eqn:E; simpl.
  - apply find_str_Some in E as [Ho Hi]; [|done]. apply occ_drop in Ho.
    apply find_str_Some; [done|]. split; [done|]. intros j Hj Hoj.
    destruct (decide (j < t)) as [|Hge]; [by apply (Hno j)|].
    apply (Hi (j - t)); [lia|]. apply occ_drop. by replace (t + (j - t)) with j by lia.
  - pose proof (proj1 (find_str_None _ _ Hn) E) as Hd. apply find_str_None; [done|]. intros j Hoj.
    destruct (decide (j < t)) as [|Hge]; [by apply (Hno j)|].
    apply (Hd (j - t)). apply occ_drop. by replace (t + (j - t)) with j by lia.
Qed.

(** * The suffix that is kept *)

Lemma ends_with_part needle s k :
  k ≤ length s → k < length needle →
  ends_with s (take k needle) = true ↔ part needle s (length s - k).
Proof.
  intros Hs Hn. rewrite ends_with_true. unfold part.
  replace (length s - (length s - k)) with k by lia. split.
  - intros [r ->]. split_and!; [lia..|]. rewrite length_app, length_take, Nat.min_l by lia.
    replace (length r + k - k) with (length r) by lia. by rewrite drop_app_length.
  - intros (_ & _ & Hd). exists (take (length s - k) s). rewrite <- Hd. by rewrite take_drop.
Qed.

(** The kept suffix starts at the first part. *)
Lemma longest_suffix_prefix_spec s needle :
  needle ≠ [] →
  longest_suffix_prefix_len s needle ≤ length s
  ∧ part needle s (length s - longest_suffix_prefix_len s needle)
  ∧ ∀ j, j < length s - longest_suffix_prefix_len s needle → ¬ part needle s j.
Proof.
  intros Hn. apply length_pos in Hn. unfold longest_suffix_prefix_len.
  assert (∀ j, j < length s - length s `min` (length needle - 1) → ¬ part needle s j) as Hout.
  { intros j Hj (? & ? & _). lia. }
  assert (length s `min` (length needle - 1) ≤ length s) as Hs by lia.
  assert (length s `min` (length needle - 1) < length needle) as Hlt by lia. revert Hout Hs Hlt.
  generalize (length s `min` (length needle - 1)). intros k. induction k as [|k IH]; intros Hout Hs Hlt.
  - cbn [suffix_prefix_from]. split_and!; [lia| |done]. rewrite Nat.sub_0_r.
    unfold part. rewrite Nat.sub_diag, drop_ge by lia. auto with lia.
  - cbn [suffix_prefix_from]. destruct (ends_with s (take (S k) needle)) eqn:E.
    + apply ends_with_part in E; [|lia..]. auto.
    + apply IH; [|lia..]. intros j Hj Hp. destruct (decide (j = length s - S k)) as [->|].
      * apply ends_with_part in Hp; [congruence|lia..].
      * apply (Hout j); [lia|done].
Qed.

Lemma longest_suffix_prefix_unique s needle t :
  needle ≠ [] → part needle s t → (∀ j, j < t → ¬ part needle s j) →
  longest_suffix_prefix_len s needle = length s - t.
Proof.
  intros Hn Hp Hno. destruct (longest_suffix_prefix_spec s needle Hn) as (Hl & Hp' & Hno').
  set (k := longest_suffix_prefix_len s needle) in *. pose proof Hp as [Ht _].
  destruct (decide (t < length s - k)) as [|H1]; [by destruct (Hno' t)|].
  destruct (decide (length s - k < t)) as [|H2]; [by destruct (Hno (length s - k))|]. lia.
Qed.

(** Nothing starts before [t]: the kept suffix is that of the text from [t] on. *)
Lemma longest_suffix_prefix_drop s needle t :
  needle ≠ [] → t ≤ length s → (∀ j, j < t → ¬ part needle s j) →
  longest_suffix_prefix_len s needle = longest_suffix_prefix_len (drop t s) needle.
Proof.
  intros Hn Ht Hno.
  destruct (longest_suffix_prefix_spec (drop t s) needle Hn) as (Hl & Hp & Hno').
  set (k := longest_suffix_prefix_len (drop t s) needle) in *. rewrite length_drop in *.
  apply part_drop in Hp; [|done].
  rewrite (longest_suffix_prefix_unique s needle (t + (length s - t - k))); [lia|done..|].
  intros j Hj Hpj. destruct (decide (j < t)) as [|]; [by apply (Hno j)|].
  apply (Hno' (j - t)); [lia|]. apply part_drop; [done|]. by replace (t + (j - t)) with j by lia.
Qed.

(** * Searching a growing text *)

(** A search with a position and a datum, and how much of the text is settled
    when nothing is found.  A hit stays the hit when text is added; without a
    hit, the settled text never takes part in a later one. *)
Class Search {X} (find : str → option (nat * X)) (settled : str → nat) : Prop := {
  settled_le s : settled s ≤ length s;
  search_stable s b r : find s = Some r → find (s ++ b) = Some r;
  search_resume s b : find s = None →
    find (s ++ b) = (λ '(i, x), (settled s + i, x)) <$> find (drop (settled s) s ++ b);
  settled_resume s b : find s = None → find (s ++ b) = None →
    settled (s ++ b) = settled s + settled (drop (settled s) s ++ b);
  search_fits s i x : find s = Some (i, x) → i ≤ length s
}.

Definition find_close (close : str) (s : str) : option (nat * ()) :=
  (λ i, (i, tt)) <$> find_str close s.
Definition settled_close (close s : str) : nat := length s - longest_suffix_prefix_len s close.

(** Below [settled], no occurrence and no part, even with more text. *)
Lemma settled_clear needle s b t :
  needle ≠ [] → find_str needle s = None → t ≤ length s - longest_suffix_prefix_len s needle →
  (∀ j, j < t → ¬ occ needle (s ++ b) j) ∧ (∀ j, j < t → ¬ part needle (s ++ b) j).
Proof.
  intros Hn Hf Ht. destruct (longest_suffix_prefix_spec s needle Hn) as (Hl & _ & Hno).
  pose proof (proj1 (find_str_None _ _ Hn) Hf) as Hocc. split; intros j Hj Hx.
  - apply (Hno j); [lia|]. apply (occ_app_part _ _ b); [done..|lia].
  - apply (Hno j); [lia|]. apply (part_app _ _ b); [done|lia].
Qed.

Lemma find_str_stable needle s b i :
  needle ≠ [] → find_str needle s = Some i → find_str needle (s ++ b) = Some i.
Proof.
  intros Hn Hf. apply find_str_Some in Hf as [Ho Hno]; [|done]. apply find_str_Some; [done|].
  apply occ_bound in Ho as Hb; [|done]. split; [by apply occ_app|].
  intros j Hj Hoj. apply (Hno j Hj). apply occ_app in Hoj; [done|lia].
Qed.

Lemma find_str_resume needle s b t :
  needle ≠ [] → find_str needle s = None → t ≤ length s - longest_suffix_prefix_len s needle →
  find_str needle (s ++ b) = (λ i, t + i) <$> find_str needle (drop t s ++ b).
Proof.
  intros Hn Hf Ht. destruct (settled_clear needle s b t Hn Hf Ht) as [Hocc _].
  rewrite (find_str_drop _ _ t) by done. by rewrite drop_app_le by lia.
Qed.

Lemma longest_suffix_prefix_resume needle s b t :
  needle ≠ [] → find_str needle s = None → t ≤ length s - longest_suffix_prefix_len s needle →
  longest_suffix_prefix_len (s ++ b) needle = longest_suffix_prefix_len (drop t s ++ b) needle.
Proof.
  intros Hn Hf Ht. destruct (settled_clear needle s b t Hn Hf Ht) as [_ Hpart].
  rewrite (longest_suffix_prefix_drop _ _ t); [|done|rewrite length_app; lia|done].
  by rewrite drop_app_le by lia.
Qed.

Lemma find_str_fits needle s i : needle ≠ [] → find_str needle s = Some i → i + length needle ≤ length s.
Proof. intros Hn Hf. apply find_str_Some in Hf as [Ho _]; [|done]. by apply occ_bound. Qed.

Lemma close_search close : close ≠ [] → Search (find_close close) (settled_close close).
Proof.
  intros Hn. unfold find_close, settled_close. split.
  - intros s. lia.
  - intros s b r (i & Hf & ->)%fmap_Some. by rewrite (find_str_stable _ _ _ i).
  - intros s b Hf%fmap_None. rewrite (find_str_resume _ _ _ _ Hn Hf (le_n _)).
    by destruct (find_str close (drop _ s ++ b)).
  - intros s b Hf%fmap_None _.
    rewrite (longest_suffix_prefix_resume _ _ b _ Hn Hf (le_n _)), !length_app, length_drop.
    destruct (longest_suffix_prefix_spec
      (drop (length s - longest_suffix_prefix_len s close) s ++ b) close Hn) as (Hl & _ & _).
    rewrite length_app, length_drop in Hl. lia.
  - intros s i x (k & Hf & [= -> ->])%fmap_Some. apply find_str_fits in Hf; [lia|done].
Qed.

Section openers.
Context {T : Type}.
Implicit Types (ss : list (InlineTagSpec T)).

(** Delimiters are not empty, and no opener is found inside a different one. *)
Definition valid_specs ss : Prop :=
  Forall (λ sp, spec_open sp ≠ [] ∧ spec_close sp ≠ []) ss.
Definition no_infix ss : Prop :=
  ∀ sp sp', sp ∈ ss → sp' ∈ ss → ∀ j, occ (spec_open sp) (spec_open sp') j →
    spec_open sp = spec_open sp'.

Lemma find_next_open_Some ss s i sp :
  find_next_open ss s = Some (i, sp) → sp ∈ ss ∧ find_str (spec_open sp) s = Some i.
Proof.
  induction ss as [|x ss IH]; simpl; [done|].
  destruct (find_str (spec_open x) s) as [pos|] eqn:E.
  - destruct (find_next_open ss s) as [[j y]|]; [destruct (opens_before _ _)|];
      intros [= <- <-]; set_solver.
  - set_solver.
Qed.

Lemma find_next_open_None ss s :
  find_next_open ss s = None ↔ Forall (λ sp, find_str (spec_open sp) s = None) ss.
Proof.
  induction ss as [|x ss IH]; simpl; [done|]. rewrite Forall_cons, <- IH.
  destruct (find_str (spec_open x) s), (find_next_open ss s); try (split; naive_solver).
  destruct (opens_before _ _); naive_solver.
Qed.

(** An opener that only occurs once text is added starts behind those that occurred. *)
Lemma new_occurrence_later ss s b sp sp' i i' :
  valid_specs ss → no_infix ss → sp ∈ ss → sp' ∈ ss →
  find_str (spec_open sp) s = Some i → find_str (spec_open sp') s = None →
  find_str (spec_open sp') (s ++ b) = Some i' → i < i'.
Proof.
  intros Hv Hni Hs Hs' Hi Hno Hi'. unfold valid_specs in Hv. rewrite Forall_forall in Hv.
  destruct (Hv sp Hs) as [Ho _], (Hv sp' Hs') as [Ho' _].
  apply find_str_Some in Hi as [Hocc _]; [|done]. apply occ_bound in Hocc as Hb; [|done].
  apply find_str_Some in Hi' as [Hocc' _]; [|done].
  pose proof (proj1 (find_str_None _ _ Ho') Hno) as Hnone.
  destruct (decide (i < i')) as [|Hge]; [done|]. exfalso.
  assert (length s < i' + length (spec_open sp')) as Hlong.
  { destruct (decide (length s < i' + length (spec_open sp'))); [done|].
    exfalso. apply (Hnone i'). by apply (occ_app _ s b); [lia|]. }
  assert (spec_open sp = spec_open sp') as Heq.
  { apply (Hni sp sp' Hs Hs' (i - i')). unfold occ in *.
    rewrite <- Hocc' at 1. rewrite skipn_firstn_comm, drop_drop, take_take.
    replace (i' + (i - i')) with i by lia. rewrite Nat.min_l by lia.
    rewrite drop_app_le, take_app_le by (rewrite ?length_drop; lia). done. }
  rewrite Heq in Hocc. by apply (Hnone i).
Qed.

Lemma find_next_open_stable ss0 ss s b r :
  valid_specs ss0 → no_infix ss0 → ss ⊆ ss0 →
  find_next_open ss s = Some r → find_next_open ss (s ++ b) = Some r.
Proof.
  intros Hv Hni. revert r. induction ss as [|x ss IH]; intros r Hsub; simpl; [done|].
  assert (ss ⊆ ss0) as Hsub' by set_solver. assert (x ∈ ss0) as Hx by set_solver.
  assert (spec_open x ≠ []) as Hxo.
  { unfold valid_specs in Hv. rewrite Forall_forall in Hv. by destruct (Hv x Hx). }
  destruct (find_str (spec_open x) s) as [pos|] eqn:Ex.
  - rewrite (find_str_stable _ _ _ _ Hxo Ex).
    destruct (find_next_open ss s) as [[j y]|] eqn:Et; [by rewrite (IH _ Hsub' eq_refl)|].
    intros [= <-]. destruct (find_next_open ss (s ++ b)) as [[j y]|] eqn:Et'; [|done].
    apply find_next_open_Some in Et' as [Hy Hj].
    apply find_next_open_None in Et. rewrite Forall_forall in Et. specialize (Et y Hy).
    assert (pos < j) by (apply (new_occurrence_later ss0 s b x y); auto).
    unfold opens_before. simpl. by rewrite bool_decide_eq_true_2.
  - intros Hr. rewrite (IH _ Hsub' Hr). destruct (find_str (spec_open x) (s ++ b)) as [pos|] eqn:Ex'; [|done].
    destruct r as [j y]. apply find_next_open_Some in Hr as [Hy Hj].
    assert (j < pos) by (apply (new_occurrence_later ss0 s b y x); auto).
    unfold opens_before. simpl. rewrite !bool_decide_eq_false_2 by lia. done.
Qed.

Lemma find_next_open_shift ss s s' t :
  Forall (λ sp, find_str (spec_open sp) s = (λ i, t + i) <$> find_str (spec_open sp) s') ss →
  find_next_open ss s = (λ '(i, sp), (t + i, sp)) <$> find_next_open ss s'.
Proof.
  induction 1 as [|x ss Hx _ IH]; simpl; [done|]. rewrite Hx, IH.
  destruct (find_str (spec_open x) s') as [pos|], (find_next_open ss s') as [[j y]|]; simpl; try done.
  assert (opens_before (t + pos, x) (t + j, y) = opens_before (pos, x) (j, y)) as ->.
  { unfold opens_before. simpl. f_equal; apply bool_decide_ext; lia. }
  by destruct (opens_before _ _).
Qed.

(** A check of the two conditions. *)
Definition specs_okb ss : bool :=
  forallb (λ sp, negb (is_nil (spec_open sp)) && negb (is_nil (spec_close sp))) ss
  && forallb (λ sp, forallb (λ sp',
       bool_decide (spec_open sp = spec_open sp')
       || bool_decide (find_str (spec_open sp) (spec_open sp') = None)) ss) ss.

Lemma specs_okb_true ss : specs_okb ss = true → valid_specs ss ∧ no_infix ss.
Proof.
  unfold specs_okb. intros [Hv Hi]%andb_true_iff.
  assert (valid_specs ss) as Hvalid.
  { apply Forall_forall. intros sp Hsp. rewrite forallb_forall in Hv.
    apply list_elem_of_In in Hsp. specialize (Hv sp Hsp).
    apply andb_true_iff in Hv as [H1%negb_true_iff H2%negb_true_iff].
    by rewrite is_nil_false in H1, H2. }
  split; [done|]. intros sp sp' Hsp Hsp' j Ho. unfold valid_specs in Hvalid.
  rewrite Forall_forall in Hvalid. destruct (Hvalid sp Hsp) as [Hne _].
  rewrite forallb_forall in Hi. apply list_elem_of_In in Hsp, Hsp'. specialize (Hi sp Hsp).
  rewrite forallb_forall in Hi. specialize (Hi sp' Hsp').
  apply orb_true_iff in Hi as [?%bool_decide_eq_true|Hn%bool_decide_eq_true]; [done|].
  by destruct (proj1 (find_str_None _ _ Hne) Hn j).
Qed.

Lemma find_next_open_nil ss : valid_specs ss → find_next_open ss [] = None.
Proof.
  intros Hv. apply find_next_open_None. eapply Forall_impl; [done|]. intros sp [Ho _].
  apply find_str_None; [done|]. intros j Hj%occ_bound; [|done].
  apply length_pos in Ho. simpl in Hj. lia.
Qed.

Definition settled_open ss (s : str) : nat := length s - max_open_prefix_suffix_len ss s.

Lemma max_open_ge ss s sp :
  sp ∈ ss → longest_suffix_prefix_len s (spec_open sp) ≤ max_open_prefix_suffix_len ss s.
Proof.
  unfold max_open_prefix_suffix_len. induction ss as [|x ss IH]; simpl; [by intros ?%elem_of_nil|].
  intros [->|Hs]%elem_of_cons; [lia|]. specialize (IH Hs). lia.
Qed.

Lemma max_open_le ss s : valid_specs ss → max_open_prefix_suffix_len ss s ≤ length s.
Proof.
  unfold max_open_prefix_suffix_len. induction 1 as [|x ss [Hx _] _ IH]; simpl; [lia|].
  destruct (longest_suffix_prefix_spec s (spec_open x) Hx) as (? & _). lia.
Qed.

Lemma max_open_ext ss s s' :
  Forall (λ sp, longest_suffix_prefix_len s (spec_open sp)
                = longest_suffix_prefix_len s' (spec_open sp)) ss →
  max_open_prefix_suffix_len ss s = max_open_prefix_suffix_len ss s'.
Proof. unfold max_open_prefix_suffix_len. induction 1 as [|x ss Hx _ IH]; simpl; [done|]. by rewrite Hx, IH. Qed.

Lemma open_search ss :
  valid_specs ss → no_infix ss → Search (find_next_open ss) (settled_open ss).
Proof.
  intros Hv Hni. split.
  - intros s. unfold settled_open. lia.
  - intros s b r. by apply (find_next_open_stable ss).
  - intros s b Hf%find_next_open_None. apply find_next_open_shift.
    unfold valid_specs in Hv. rewrite Forall_forall in *. intros sp Hs.
    destruct (Hv sp Hs) as [Ho _]. apply find_str_resume; [done|by apply Hf|].
    unfold settled_open. pose proof (max_open_ge ss s sp Hs). lia.
  - intros s b Hf%find_next_open_None _. unfold settled_open at 1 3.
    rewrite (max_open_ext ss (s ++ b) (drop (settled_open ss s) s ++ b)).
    + pose proof (max_open_le ss (drop (settled_open ss s) s ++ b) Hv) as Hle.
      rewrite !length_app, length_drop in *. unfold settled_open in *. lia.
    + pose proof Hv as Hv'. unfold valid_specs in Hv'. rewrite Forall_forall in *. intros sp Hs.
      destruct (Hv' sp Hs) as [Ho _]. apply longest_suffix_prefix_resume; [done|by apply Hf|].
      unfold settled_open. pose proof (max_open_ge ss s sp Hs). lia.
  - intros s i sp [Hs Hi]%find_next_open_Some. unfold valid_specs in Hv. rewrite Forall_forall in Hv.
    destruct (Hv sp Hs) as [Ho _]. apply find_str_fits in Hi; [lia|done].
Qed.
End openers.

(** * The loop *)

Section loop.
Context {T : Type}.
Implicit Types (p : InlineHiddenTagParser T).

Definition wf_inline p : Prop :=
  valid_specs (specs p) ∧ no_infix (specs p)
  ∧ match active p with Some a => active_close a ≠ [] | None => True end.

(** More text behind the pending text. *)
Definition feed p (b : str) : InlineHiddenTagParser T :=
  mkInline (specs p) (pending p ++ b) (active p).

(** Both branches of a round in terms of their search. *)
Lemma round_eq p :
  round p =
  let s := pending p in
  match active p with
  | Some a =>
      match find_close (active_close a) s with
      | Some (i, _) =>
          (mkTextChunk [] [mkExtracted (active_tag a) (active_content a ++ take i s)],
           mkInline (specs p) (drop (i + length (active_close a)) s) None, true)
      | None =>
          let n := settled_close (active_close a) s in
          (default_chunk,
           mkInline (specs p) (drop n s)
             (Some (mkActive (active_tag a) (active_close a) (active_content a ++ take n s))), false)
      end
  | None =>
      match find_next_open (specs p) s with
      | Some (i, sp) =>
          (mkTextChunk (take i s) [],
           mkInline (specs p) (drop (i + length (spec_open sp)) s)
             (Some (mkActive (spec_tag sp) (spec_close sp) [])), true)
      | None =>
          let n := settled_open (specs p) s in
          (mkTextChunk (take n s) [], mkInline (specs p) (drop n s) None, false)
      end
  end.
Proof.
  unfold round, find_close. destruct (active p) as [a|]; [|done].
  by destruct (find_str _ _).
Qed.

(** A round that continues finds a delimiter in the pending text and drops it. *)
Lemma round_continue p o p' :
  wf_inline p → round p = (o, p', true) →
  wf_inline p' ∧ length (pending p') < length (pending p)
  ∧ ∀ b, round (feed p b) = (o, feed p' b, true).
Proof.
  intros (Hv & Hni & Ha). rewrite round_eq. unfold feed. setoid_rewrite round_eq. simpl.
  destruct (active p) as [a|].
  - destruct (find_close _ _) as [[i []]|] eqn:Ef; [|done]. intros [= <- <-].
    pose proof (fun b => @search_stable _ _ _ (close_search _ Ha) _ b _ Ef) as Hst.
    apply fmap_Some in Ef as (i' & Hf & [= <-]). apply find_str_fits in Hf; [|done].
    apply length_pos in Ha as Hlen. split_and!; [by split_and!|simpl; rewrite length_drop; lia|].
    intros b. rewrite Hst. by rewrite take_app_le, drop_app_le by lia.
  - destruct (find_next_open _ _) as [[i sp]|] eqn:Ef; [|done]. intros [= <- <-].
    pose proof (fun b => @search_stable _ _ _ (open_search _ Hv Hni) _ b _ Ef) as Hst.
    apply find_next_open_Some in Ef as [Hsp Hf]. pose proof Hv as Hv'.
    unfold valid_specs in Hv'. rewrite Forall_forall in Hv'. destruct (Hv' sp Hsp) as [Ho Hc].
    apply find_str_fits in Hf; [|done]. apply length_pos in Ho as Hlen.
    split_and!; [by split_and!|simpl; rewrite length_drop; lia|].
    intros b. rewrite Hst. by rewrite take_app_le, drop_app_le by lia.
Qed.

Lemma take_settled (s b : str) t i :
  t ≤ length s → take (t + i) (s ++ b) = take t s ++ take i (drop t s ++ b).
Proof.
  intros Ht. rewrite <- take_take_drop, take_app_le, drop_app_le by done. done.
Qed.

Lemma drop_settled (s b : str) t i :
  t ≤ length s → drop (t + i) (s ++ b) = drop i (drop t s ++ b).
Proof. intros Ht. by rewrite <- drop_drop, drop_app_le. Qed.

(** After a round that stops, more text is handled as if it had been there. *)
Lemma round_stop p o1 p1 :
  wf_inline p → round p = (o1, p1, false) →
  wf_inline p1
  ∧ ∀ b o2 p2 c, round (feed p1 b) = (o2, p2, c) →
      round (feed p b) = (chunk_app o1 o2, p2, c).
Proof.
  intros (Hv & Hni & Ha). rewrite round_eq. unfold feed. simpl.
  set (s := pending p). destruct (active p) as [a|] eqn:Eact.
  - destruct (find_close _ s) as [[i []]|] eqn:Ef; [done|]. intros [= <- <-]. simpl.
    split; [by split_and!|]. destruct (close_search _ Ha) as [Hle _ Hres Hset _].
    intros b o2 p2 c. rewrite !round_eq. simpl. rewrite (Hres s b Ef).
    specialize (Hset s b Ef). rewrite (Hres s b Ef) in Hset. specialize (Hle s).
    set (t := settled_close _ s) in *.
    destruct (find_close _ (drop t s ++ b)) as [[i []]|]; simpl; intros [= <- <- <-];
      rewrite chunk_app_default_l.
    + by rewrite take_settled, <- Nat.add_assoc, drop_settled, app_assoc by done.
    + by rewrite Hset, take_settled, drop_settled, app_assoc by done.
  - destruct (find_next_open _ s) as [[i sp]|] eqn:Ef; [done|]. intros [= <- <-]. simpl.
    split; [by split_and!|]. destruct (open_search _ Hv Hni) as [Hle _ Hres Hset _].
    intros b o2 p2 c. rewrite !round_eq. simpl. rewrite (Hres s b Ef).
    specialize (Hset s b Ef). rewrite (Hres s b Ef) in Hset. specialize (Hle s).
    set (t := settled_open _ s) in *.
    destruct (find_next_open _ (drop t s ++ b)) as [[i sp]|]; simpl; intros [= <- <- <-];
      unfold chunk_app; simpl.
    + by rewrite take_settled, <- Nat.add_assoc, drop_settled by done.
    + by rewrite Hset, take_settled, drop_settled by done.
Qed.

(** Any fuel above the length of the pending text gives the same result. *)
Lemma rounds_fuel p n m :
  wf_inline p → length (pending p) < n → length (pending p) < m → rounds n p = rounds m p.
Proof.
  revert p m. induction n as [|n IH]; intros p [|m] Hwf Hn Hm; [lia..|]. cbn [rounds].
  destruct (round p) as [[o p'] []] eqn:Er; [|done].
  apply round_continue in Er as (Hwf' & Hlt & _); [|done].
  by rewrite (IH p' m) by (done || lia).
Qed.

Lemma drain_unfold p :
  wf_inline p →
  drain p =
  let '(o, p', c) := round p in
  if c then let '(p'', o') := drain p' in (p'', chunk_app o o') else (p', o).
Proof.
  intros Hwf. unfold drain. cbn [rounds]. destruct (round p) as [[o p'] []] eqn:Er; [|done].
  apply round_continue in Er as (Hwf' & Hlt & _); [|done].
  by rewrite (rounds_fuel p' _ (S (length (pending p')))) by (done || lia).
Qed.

Lemma wf_feed p b : wf_inline p → wf_inline (feed p b).
Proof. done. Qed.

Lemma drain_feed p b p1 o1 p2 o2 :
  wf_inline p → drain p = (p1, o1) → drain (feed p1 b) = (p2, o2) →
  drain (feed p b) = (p2, chunk_app o1 o2).
Proof.
  remember (length (pending p)) as n eqn:Hn. revert p p1 o1 Hn.
  induction n as [n IH] using lt_wf_ind. intros p p1 o1 -> Hwf.
  rewrite (drain_unfold p), (drain_unfold (feed p b)) by done.
  destruct (round p) as [[o p'] []] eqn:Er.
  - apply round_continue in Er as (Hwf' & Hlt & Hfeed); [|done]. rewrite (Hfeed b).
    destruct (drain p') as [p'' o'] eqn:Ed. intros [= -> <-] Hd.
    rewrite (IH _ Hlt p' p1 o' eq_refl Hwf' Ed Hd). by rewrite chunk_app_assoc.
  - apply round_stop in Er as [Hwf' Hstop]; [|done]. intros [= -> ->] Hd.
    rewrite drain_unfold in Hd by done. destruct (round (feed p1 b)) as [[o3 p3] c] eqn:E3.
    rewrite (Hstop _ _ _ _ E3). destruct c.
    + destruct (drain p3) as [p4 o4]. simplify_eq. by rewrite chunk_app_assoc.
    + by simplify_eq.
Qed.

Lemma drain_wf p p' o : wf_inline p → drain p = (p', o) → wf_inline p' ∧ specs p' = specs p.
Proof.
  remember (length (pending p)) as n eqn:Hn. revert p p' o Hn.
  induction n as [n IH] using lt_wf_ind. intros p p' o -> Hwf. rewrite drain_unfold by done.
  destruct (round p) as [[o1 p1] c] eqn:Er.
  assert (specs p1 = specs p) as Hs.
  { unfold round in Er. repeat case_match; by simplify_eq/=. }
  destruct c.
  - apply round_continue in Er as (Hwf' & Hlt & _); [|done].
    destruct (drain p1) as [p2 o2] eqn:Ed. intros [= <- <-].
    destruct (IH _ Hlt p1 p2 o2 eq_refl Hwf' Ed) as [? ?]. split; [done|congruence].
  - apply round_stop in Er as [Hwf' _]; [|done]. by intros [= <- <-].
Qed.
End loop.

#[export] Instance inline_chunk_invariant {T} :
  ChunkInvariant (InlineHiddenTagParser T) (ExtractedInlineTag T) wf_inline eq.
Proof.
  split.
  - apply _.
  - intros p a Hp. simpl. destruct (drain _) as [p' o] eqn:E. by apply drain_wf in E as [? _].
  - intros p a b p1 o1 p2 o2 Hwf. simpl. fold (feed p a) (feed p1 b) (feed p (a ++ b)).
    intros H1 H2. exists (chunk_app o1 o2). split; [|reflexivity].
    replace (feed p (a ++ b)) with (feed (feed p a) b) by (unfold feed; simpl; by rewrite app_assoc).
    by eapply drain_feed.
Qed.

(** * The reference *)

Section reference.
Context {T : Type} (ss : list (InlineTagSpec T)).

(** Hiding the tags of a complete text: up to the first opener the text is
    visible; the tag's content ends at the first closer behind the opener,
    or with the text; and so on. *)
Inductive Hides : str → str → list (ExtractedInlineTag T) → Prop :=
| hides_plain s : find_next_open ss s = None → Hides s s []
| hides_unclosed s i sp :
    find_next_open ss s = Some (i, sp) →
    let body := drop (i + length (spec_open sp)) s in
    find_str (spec_close sp) body = None →
    Hides s (take i s) [mkExtracted (spec_tag sp) body]
| hides_closed s i sp j visible es :
    find_next_open ss s = Some (i, sp) →
    let body := drop (i + length (spec_open sp)) s in
    find_str (spec_close sp) body = Some j →
    Hides (drop (j + length (spec_close sp)) body) visible es →
    Hides s (take i s ++ visible) (mkExtracted (spec_tag sp) (take j body) :: es).

Lemma Hides_functional s v es v' es' : Hides s v es → Hides s v' es' → v = v' ∧ es = es'.
Proof.
  intros Hh. revert v' es'. induction Hh as [s Hn|s i sp Hf body Hc|s i sp j v es Hf body Hc _ IH];
    intros v' es' Hh'; inversion Hh'; subst; simplify_eq; try done;
    unfold body0, body in *; simplify_eq; try done.
  by edestruct IH as [-> ->].
Qed.

(** What is emitted when the pending text is drained and the stream ends. *)
Definition total (p : InlineHiddenTagParser T) : StreamTextChunk (ExtractedInlineTag T) :=
  let '(p', o) := drain p in chunk_app o (finish p').2.

Lemma total_continue p o p' :
  wf_inline p → round p = (o, p', true) → total p = chunk_app o (total p').
Proof.
  intros Hwf Hr. unfold total. rewrite (drain_unfold p Hwf), Hr.
  destruct (drain p') as [p'' o']. by rewrite chunk_app_assoc.
Qed.

Lemma total_stop p o p' :
  wf_inline p → round p = (o, p', false) → total p = chunk_app o (finish p').2.
Proof. intros Hwf Hr. unfold total. by rewrite (drain_unfold p Hwf), Hr. Qed.

Lemma total_hides s :
  valid_specs ss → no_infix ss →
  let out := total (mkInline ss s None) in Hides s (visible_text out) (extracted out).
Proof.
  intros Hv Hni. remember (length s) as n eqn:Hn. revert s Hn.
  induction n as [n IH] using lt_wf_ind. intros s -> out. subst out.
  assert (∀ s a, match a with Some a => active_close a ≠ [] | None => True end →
            wf_inline (mkInline ss s a)) as Hwf by done.
  destruct (find_next_open ss s) as [[i sp]|] eqn:Ef.
  - set (body := drop (i + length (spec_open sp)) s).
    set (a := mkActive (spec_tag sp) (spec_close sp) []).
    assert (spec_close sp ≠ []) as Hc.
    { apply find_next_open_Some in Ef as [Hsp _]. unfold valid_specs in Hv.
      rewrite Forall_forall in Hv. by destruct (Hv sp Hsp). }
    assert (round (mkInline ss s None) = (mkTextChunk (take i s) [], mkInline ss body (Some a), true))
      as Hr by (unfold round; simpl; by rewrite Ef).
    destruct (round_continue _ _ _ (Hwf s None I) Hr) as (_ & Hlt & _). simpl in Hlt.
    rewrite (total_continue _ _ _ (Hwf s None I) Hr).
    destruct (find_str (spec_close sp) body) as [j|] eqn:Ec.
    + assert (round (mkInline ss body (Some a))
        = (mkTextChunk [] [mkExtracted (spec_tag sp) (take j body)],
           mkInline ss (drop (j + length (spec_close sp)) body) None, true)) as Hr'
        by (unfold round; simpl; by rewrite Ec).
      destruct (round_continue _ _ _ (Hwf body (Some a) Hc) Hr') as (_ & Hlt' & _). simpl in Hlt'.
      rewrite (total_continue _ _ _ (Hwf body (Some a) Hc) Hr'). simpl.
      apply hides_closed; [done..|]. eapply IH; [|done]. lia.
    + assert (∃ n, round (mkInline ss body (Some a))
        = (default_chunk, mkInline ss (drop n body)
             (Some (mkActive (spec_tag sp) (spec_close sp) (take n body))), false)) as [n Hr']
        by (unfold round; simpl; rewrite Ec; eauto).
      rewrite (total_stop _ _ _ (Hwf body (Some a) Hc) Hr'). simpl.
      rewrite app_nil_r, take_drop. by apply hides_unclosed.
  - assert (∃ n, round (mkInline ss s None)
      = (mkTextChunk (take n s) [], mkInline ss (drop n s) None, false)) as [n Hr]
      by (unfold round; simpl; rewrite Ef; eauto).
    rewrite (total_stop _ _ _ (Hwf s None I) Hr). simpl. rewrite take_drop. by apply hides_plain.
Qed.
End reference.

(** Any chunks give the output of the reference on the whole text. *)
Lemma inline_hides {T} (ss : list (InlineTagSpec T)) chunks :
  valid_specs ss → no_infix ss →
  let out := run_stream (mkInline ss [] None) chunks in
  Hides ss (concat chunks) (visible_text out) (extracted out).
Proof.
  intros Hv Hni. simpl. destruct chunks as [|c chunks].
  - by apply hides_plain, find_next_open_nil.
  - destruct (run_stream_concat wf_inline eq (mkInline ss [] None) c chunks) as [-> ->]; [done|].
    pose proof (total_hides ss (concat (c :: chunks)) Hv Hni) as Ht.
    unfold run_stream, total in *. cbn [push_all]. simpl push_str.
    destruct (drain _) as [p' o]. destruct (finish p') as [p'' t].
    by rewrite chunk_app_default_r.
Qed.

(** * Properties *)

(** C33: hiding inline tags does not depend on the chunks: for delimiters that
    are not empty and openers none of which occurs inside another, feeding
    any sequence of chunks and finishing emits exactly the visible text and
    the tags of the reference on the whole text. *)
Theorem inline_tags_match_reference {T} (ss : list (InlineTagSpec T)) chunks :
  valid_specs ss → no_infix ss →
  let out := run_stream (mkInline ss [] None) chunks in
  Hides ss (concat chunks) (visible_text out) (extracted out).
Proof. apply inline_hides. Qed.

Lemma inline_tags_match_reference_witness :
  let ss := [mkSpec 0 (lit "<a>") (lit "</a>"); mkSpec 1 (lit "<b>") (lit "</b>")] in
  let chunks := [lit "x<"; lit "b>y</"; lit "b>z<a>w"] in
  Hides ss (concat chunks) (lit "xz") [mkExtracted 1 (lit "y"); mkExtracted 0 (lit "w")].
Proof.
  intros ss chunks.
  assert (run_stream (mkInline ss [] None) chunks
          = mkTextChunk (lit "xz") [mkExtracted 1 (lit "y"); mkExtracted 0 (lit "w")]) as Ho
    by (vm_compute; reflexivity).
  refine (eq_ind _ (λ o, Hides ss (concat chunks) (visible_text o) (extracted o))
            (inline_tags_match_reference ss chunks _ _) _ Ho);
    apply (specs_okb_true ss); reflexivity.
Defined.

(** When one opener is a prefix of another the chunks matter: the longer tag is
    taken from the whole text and the shorter one when the text is cut inside. *)
Example overlapping_openers_depend_on_chunks :
  let p := mkInline [mkSpec 0 (lit "<a") (lit ">"); mkSpec 1 (lit "<ab") (lit ">")] [] None in
  extracted (run_stream p [lit "<abc>"]) = [mkExtracted 1 (lit "c")]
  ∧ extracted (run_stream p [lit "<a"; lit "bc>"]) = [mkExtracted 0 (lit "bc")].
Proof. split; vm_compute; reflexivity. Qed.
