(* ===== verification/TaggedLines.v ===== *)
(** [utils/stream-parser/src/tagged_line_parser.rs]: the streaming parser for
    blocks whose tags stand alone on a line.  It decides a line as soon as a
    character rules out every tag, so its state depends on the chunks; the
    theorem says its output does not, and that it is what reading the text
    line by line gives. *)

From S2P Require Import Prelude Text StreamText.

(** * The code *)

(** [TagSpec], [TaggedLineSegment] and [TaggedLineParser] *)
Record TagSpec (T : Type) := mkTagSpec { open : str; close : str; spec_tag : T }.
Arguments mkTagSpec {T}.
Arguments open {T}.
Arguments close {T}.
Arguments spec_tag {T}.

Inductive TaggedLineSegment (T : Type) :=
| Normal (text : str)
| TagStart (t : T)
| TagDelta (t : T) (text : str)
| TagEnd (t : T).
Arguments Normal {T}.
Arguments TagStart {T}.
Arguments TagDelta {T}.
Arguments TagEnd {T}.

Record TaggedLineParser (T : Type) := mkTagged {
  specs : list (TagSpec T);
  active_tag : option T;
  detect_tag : bool;
  line_buffer : str
}.
Arguments mkTagged {T}.
Arguments specs {T}.
Arguments active_tag {T}.
Arguments detect_tag {T}.
Arguments line_buffer {T}.

Section code.
Context {T : Type} `{EqDecision T}.
Implicit Types (p : TaggedLineParser T) (segments : list (TaggedLineSegment T)).

(** [TaggedLineParser::new] *)
Definition new_tagged (ss : list (TagSpec T)) : TaggedLineParser T := mkTagged ss None true [].

Definition set_buffer (b : str) p : TaggedLineParser T :=
  mkTagged (specs p) (active_tag p) (detect_tag p) b.
Definition set_detect (d : bool) p : TaggedLineParser T :=
  mkTagged (specs p) (active_tag p) d (line_buffer p).
Definition set_active (a : option T) p : TaggedLineParser T :=
  mkTagged (specs p) a (detect_tag p) (line_buffer p).

(** [push_segment] *)
Definition push_segment segments (segment : TaggedLineSegment T) : list (TaggedLineSegment T) :=
  match segment with
  | Normal delta =>
      if is_nil delta then segments
      else match last segments with
           | Some (Normal existing) => update_last (λ _, Normal (existing ++ delta)) segments
           | _ => segments ++ [Normal delta]
           end
  | TagDelta tag delta =>
      if is_nil delta then segments
      else match last segments with
           | Some (TagDelta existing_tag existing) =>
               if decide (existing_tag = tag)
               then update_last (λ _, TagDelta existing_tag (existing ++ delta)) segments
               else segments ++ [TagDelta tag delta]
           | _ => segments ++ [TagDelta tag delta]
           end
  | TagStart tag => segments ++ [TagStart tag]
  | TagEnd tag => segments ++ [TagEnd tag]
  end.

(** [push_text] *)
Definition push_text p (text : str) segments : list (TaggedLineSegment T) :=
  match active_tag p with
  | Some tag => push_segment segments (TagDelta tag text)
  | None => push_segment segments (Normal text)
  end.

(** [is_tag_prefix], [match_open] and [match_close] *)
Definition is_tag_prefix p (slug : str) : bool :=
  existsb (λ spec, starts_with (open spec) (trim_end slug) || starts_with (close spec) (trim_end slug))
    (specs p).
Definition match_open p (slug : str) : option T :=
  spec_tag <$> list_find (λ spec, open spec = slug) (specs p) ≫= (λ r, Some r.2).
Definition match_close p (slug : str) : option T :=
  spec_tag <$> list_find (λ spec, close spec = slug) (specs p) ≫= (λ r, Some r.2).

Definition strip_newline (line : str) : str :=
  match strip_suffix [nl] line with Some l => l | None => line end.

(** The decision on a complete line, shared by [finish_line] and [finish]. *)
Definition decide_line p (line : str) segments : TaggedLineParser T * list (TaggedLineSegment T) :=
  let slug := trim_end (trim_start (strip_newline line)) in
  match match_open p slug, active_tag p with
  | Some tag, None => (set_active (Some tag) p, push_segment segments (TagStart tag))
  | _, _ =>
      match match_close p slug with
      | Some tag =>
          if decide (active_tag p = Some tag)
          then (set_active None p, push_segment segments (TagEnd tag))
          else (p, push_text p line segments)
      | None => (p, push_text p line segments)
      end
  end.

(** [finish_line] *)
Definition finish_line p segments : TaggedLineParser T * list (TaggedLineSegment T) :=
  decide_line (set_detect true (set_buffer [] p)) (line_buffer p) segments.

Definition flush_run p (run : str) segments : list (TaggedLineSegment T) :=
  if is_nil run then segments else push_text p run segments.

(** [parse]: the loop over the characters with the run of undoubted text. *)
Fixpoint parse_loop (delta : str) p (run : str) segments :
    TaggedLineParser T * list (TaggedLineSegment T) :=
  match delta with
  | [] => (p, flush_run p run segments)
  | ch :: delta =>
      if detect_tag p then
        let segments := flush_run p run segments in
        let p := set_buffer (line_buffer p ++ [ch]) p in
        if decide (ch = nl) then
          let '(p, segments) := finish_line p segments in parse_loop delta p [] segments
        else
          let slug := trim_start (line_buffer p) in
          if is_nil slug || is_tag_prefix p slug then parse_loop delta p [] segments
          else
            let buffered := line_buffer p in
            let p := set_detect false (set_buffer [] p) in
            parse_loop delta p [] (push_text p buffered segments)
      else
        let run := run ++ [ch] in
        if decide (ch = nl) then
          parse_loop delta (set_detect true p) [] (push_text p run segments)
        else parse_loop delta p run segments
  end.
Definition parse p (delta : str) : TaggedLineParser T * list (TaggedLineSegment T) :=
  parse_loop delta p [] [].

(** [finish] *)
Definition finish_tagged p : TaggedLineParser T * list (TaggedLineSegment T) :=
  let '(p, segments) :=
    if is_nil (line_buffer p) then (p, [])
    else decide_line (set_buffer [] p) (line_buffer p) [] in
  let segments :=
    match active_tag p with
    | Some tag => push_segment segments (TagEnd tag)
    | None => segments
    end in
  (set_detect true (set_active None p), segments).
End code.

(** * Events *)

(** Segments character by character: two sequences with the same events differ
    only in where a text is cut. *)
Inductive event (T : Type) := EText (t : option T) (c : N) | EStart (t : T) | EEnd (t : T).
Arguments EText {T}.
Arguments EStart {T}.
Arguments EEnd {T}.

Definition segment_events {T} (s : TaggedLineSegment T) : list (event T) :=
  match s with
  | Normal text => EText None <$> text
  | TagDelta t text => EText (Some t) <$> text
  | TagStart t => [EStart t]
  | TagEnd t => [EEnd t]
  end.
Definition events {T} (ss : list (TaggedLineSegment T)) : list (event T) := ss ≫= segment_events.

Definition same_events {T} : relation (list (TaggedLineSegment T)) :=
  λ a b, events a = events b.

Lemma events_app {T} (a b : list (TaggedLineSegment T)) : events (a ++ b) = events a ++ events b.
Proof. apply bind_app. Qed.

#[export] Instance same_events_payload {T} : PayloadEquiv (@same_events T).
Proof.
  unfold same_events. split.
  - split; [done|by intros ? ? ->|by intros ? ? ? -> ->].
  - intros a a' Ha b b' Hb. by rewrite !events_app, Ha, Hb.
Qed.

Section events.
Context {T : Type} `{EqDecision T}.
Implicit Types (p : TaggedLineParser T) (segments : list (TaggedLineSegment T)).

Lemma events_snoc segments s : events (segments ++ [s]) = events segments ++ segment_events s.
Proof. rewrite events_app. unfold events at 2. simpl. by rewrite app_nil_r. Qed.

Lemma events_push_segment segments s :
  events (push_segment segments s) = events segments ++ segment_events s.
Proof.
  destruct s as [delta|t|t delta|t]; simpl; [|by rewrite events_snoc| |by rewrite events_snoc].
  - destruct (is_nil delta) eqn:En; [apply is_nil_true in En as ->; by rewrite app_nil_r|].
    destruct (last segments) as [[x| | |]|] eqn:El; try by rewrite events_snoc.
    apply (update_last_last (λ _, Normal (x ++ delta))) in El as (k & -> & ->).
    rewrite !events_snoc. simpl. by rewrite fmap_app, app_assoc.
  - destruct (is_nil delta) eqn:En; [apply is_nil_true in En as ->; by rewrite app_nil_r|].
    destruct (last segments) as [[| |t' x|]|] eqn:El; try by rewrite events_snoc.
    case_decide; [subst t'|by rewrite events_snoc].
    apply (update_last_last (λ _, TagDelta t (x ++ delta))) in El as (k & -> & ->).
    rewrite !events_snoc. simpl. by rewrite fmap_app, app_assoc.
Qed.

Definition text_events p (text : str) : list (event T) := EText (active_tag p) <$> text.

Lemma events_push_text p text segments :
  events (push_text p text segments) = events segments ++ text_events p text.
Proof.
  unfold push_text, text_events. destruct (active_tag p); by rewrite events_push_segment.
Qed.

Lemma events_flush_run p run segments :
  events (flush_run p run segments) = events segments ++ text_events p run.
Proof.
  unfold flush_run. destruct (is_nil run) eqn:E; [|apply events_push_text].
  apply is_nil_true in E as ->. by rewrite app_nil_r.
Qed.

(** What a line turns into. *)
Definition line_events p (line : str) : TaggedLineParser T * list (event T) :=
  let slug := trim (strip_newline line) in
  match match_open p slug, active_tag p with
  | Some tag, None => (set_active (Some tag) p, [EStart tag])
  | _, _ =>
      match match_close p slug with
      | Some tag =>
          if decide (active_tag p = Some tag) then (set_active None p, [EEnd tag])
          else (p, text_events p line)
      | None => (p, text_events p line)
      end
  end.

Lemma decide_line_events p line segments :
  let '(p', es) := line_events p line in
  ∃ segments', decide_line p line segments = (p', segments')
               ∧ events segments' = events segments ++ es.
Proof.
  unfold decide_line, line_events. fold (trim (strip_newline line)).
  set (slug := trim (strip_newline line)).
  destruct (match_open p slug) as [t|]; [destruct (active_tag p) as [a|]|];
    try (destruct (match_close p slug) as [t'|]; [case_decide|]);
    eexists; (split; [done|]); by rewrite ?events_push_segment, ?events_push_text.
Qed.

(** One character. *)
Definition char_step p (ch : N) : TaggedLineParser T * list (event T) :=
  if detect_tag p then
    let buffer := line_buffer p ++ [ch] in
    if decide (ch = nl) then line_events (set_detect true (set_buffer [] p)) buffer
    else if is_nil (trim_start buffer) || is_tag_prefix p (trim_start buffer)
    then (set_buffer buffer p, [])
    else (set_detect false (set_buffer [] p), text_events p buffer)
  else (if decide (ch = nl) then set_detect true p else p, text_events p [ch]).

Fixpoint char_run p (text : str) : TaggedLineParser T * list (event T) :=
  match text with
  | [] => (p, [])
  | ch :: text =>
      let '(p, es) := char_step p ch in
      let '(p, es') := char_run p text in (p, es ++ es')
  end.

Lemma char_run_app p a b :
  char_run p (a ++ b) =
  let '(p1, es1) := char_run p a in
  let '(p2, es2) := char_run p1 b in (p2, es1 ++ es2).
Proof.
  revert p. induction a as [|c a IH]; intros p; simpl; [by destruct (char_run p b)|].
  destruct (char_step p c) as [p1 es1]. rewrite IH.
  destruct (char_run p1 a) as [p2 es2]. destruct (char_run p2 b) as [p3 es3].
  by rewrite app_assoc.
Qed.

(** The loop computes the events of its characters. *)
Lemma parse_loop_events delta p run segments :
  let '(p', es) := char_run p delta in
  ∃ segments', parse_loop delta p run segments = (p', segments')
    ∧ events segments' = events segments ++ text_events p run ++ es.
Proof.
  revert p run segments. induction delta as [|ch delta IH]; intros p run segments; simpl.
  { eexists. split; [done|]. by rewrite events_flush_run, app_nil_r. }
  unfold char_step. destruct (detect_tag p) eqn:Ed.
  - simpl. case_decide as Hnl.
    + unfold finish_line.
      pose proof (decide_line_events (set_detect true (set_buffer [] p)) (line_buffer p ++ [ch])
                    (flush_run p run segments)) as Hl.
      change (set_buffer [] (set_buffer (line_buffer p ++ [ch]) p)) with (set_buffer [] p).
      cbn [line_buffer set_buffer].
      destruct (line_events _ _) as [p1 es1]. destruct Hl as (segs1 & -> & He1).
      specialize (IH p1 [] segs1). destruct (char_run p1 delta) as [p2 es2].
      destruct IH as (segs2 & -> & He2). exists segs2. split; [done|].
      rewrite He2, He1, events_flush_run. simpl. by rewrite !app_assoc.
    + change (is_tag_prefix (set_buffer (line_buffer p ++ [ch]) p)) with (is_tag_prefix p).
      destruct (_ || _).
      * specialize (IH (set_buffer (line_buffer p ++ [ch]) p) [] (flush_run p run segments)).
        destruct (char_run _ delta) as [p2 es2]. destruct IH as (segs2 & -> & He2).
        exists segs2. split; [done|]. rewrite He2, events_flush_run. simpl. by rewrite app_assoc.
      * set (p1 := set_detect false (set_buffer [] p)).
        specialize (IH p1 [] (push_text p1 (line_buffer p ++ [ch]) (flush_run p run segments))).
        destruct (char_run p1 delta) as [p2 es2]. destruct IH as (segs2 & Hp & He2).
        exists segs2. split; [exact Hp|]. rewrite He2, events_push_text, events_flush_run.
        simpl. by rewrite !app_assoc.
  - case_decide as Hnl.
    + specialize (IH (set_detect true p) [] (push_text p (run ++ [ch]) segments)).
      destruct (char_run _ delta) as [p2 es2]. destruct IH as (segs2 & -> & He2).
      exists segs2. split; [done|]. rewrite He2, events_push_text. unfold text_events.
      rewrite fmap_app. simpl. by rewrite <- !app_assoc.
    + specialize (IH p (run ++ [ch]) segments).
      destruct (char_run _ delta) as [p2 es2]. destruct IH as (segs2 & -> & He2).
      exists segs2. split; [done|]. rewrite He2. unfold text_events.
      rewrite fmap_app. simpl. by rewrite <- !app_assoc.
Qed.

Lemma parse_events p delta p' segments :
  parse p delta = (p', segments) → char_run p delta = (p', events segments).
Proof.
  unfold parse. intros Hp. pose proof (parse_loop_events delta p [] []) as Hl.
  destruct (char_run p delta) as [p1 es]. destruct Hl as (segs & Hp' & He).
  rewrite Hp in Hp'. by simplify_eq/=.
Qed.
End events.

(** * Line by line *)

Section reference.
Context {T : Type} `{EqDecision T} (ss : list (TagSpec T)).
Implicit Types (a : option T) (p : TaggedLineParser T).

Definition tag_of (field : TagSpec T → str) (slug : str) : option T :=
  spec_tag <$> list_find (λ spec, field spec = slug) ss ≫= (λ r, Some r.2).

(** A line (without its newline): an opening tag outside of blocks and the
    closing tag of the block it is in are tags, anything else is text. *)
Definition read_line a (line text : str) : option T * list (event T) :=
  match tag_of open (trim line), tag_of close (trim line), a with
  | Some t, _, None => (Some t, [EStart t])
  | _, Some t, Some t' =>
      if decide (t' = t) then (None, [EEnd t]) else (a, EText a <$> text)
  | _, _, _ => (a, EText a <$> text)
  end.

Definition end_events a : list (event T) := match a with Some t => [EEnd t] | None => [] end.

(** A text cut at its newlines; the last piece is a line only if it is not empty. *)
Fixpoint by_lines a (pieces : list str) : list (event T) :=
  match pieces with
  | [] => end_events a
  | [l] =>
      if is_nil l then end_events a
      else let '(a, es) := read_line a l l in es ++ end_events a
  | l :: pieces =>
      let '(a, es) := read_line a l (l ++ [nl]) in es ++ by_lines a pieces
  end.

(** A parser at the start of a line. *)
Definition at_line a : TaggedLineParser T := mkTagged ss a true [].

Lemma strip_newline_nl l : strip_newline (l ++ [nl]) = l.
Proof.
  unfold strip_newline. destruct (strip_suffix [nl] (l ++ [nl])) as [k|] eqn:E.
  - apply strip_suffix_Some in E. by apply app_inv_tail in E.
  - assert (strip_suffix [nl] (l ++ [nl]) = Some l) by by apply strip_suffix_Some. congruence.
Qed.

Lemma strip_newline_no l : no_nl l → strip_newline l = l.
Proof.
  intros Hl. unfold strip_newline. destruct (strip_suffix [nl] l) as [k|] eqn:E; [|done].
  apply strip_suffix_Some in E as ->. apply no_nl_app in Hl as [_ Hl]. by apply no_nl_cons in Hl as [? _].
Qed.

Lemma line_events_read a line l :
  strip_newline line = l →
  line_events (at_line a) line =
  let '(a', es) := read_line a l line in (at_line a', es).
Proof.
  intros Hl. unfold line_events, read_line, text_events. rewrite Hl.
  change (match_open (at_line a)) with (tag_of open).
  change (match_close (at_line a)) with (tag_of close). cbn [active_tag at_line].
  destruct (tag_of open (trim l)) as [t|], (tag_of close (trim l)) as [t'|], a as [t''|];
    simpl; try done; repeat case_decide; simplify_eq; (done || congruence).
Qed.

(** A prefix of the line that no tag starts with rules the whole line out. *)
Lemma trim_end_app_prefix (x y : str) : ∃ r, trim_end (x ++ y) = trim_end x ++ r.
Proof.
  destruct (decide (trim_end y = [])) as [Hy|Hy].
  - exists []. rewrite app_nil_r. induction y as [|c y IH] using rev_ind; [by rewrite app_nil_r|].
    destruct (is_whitespace c) eqn:Ec.
    + rewrite trim_end_snoc_ws in Hy by done. rewrite app_assoc, trim_end_snoc_ws by done.
      by apply IH.
    + rewrite trim_end_snoc in Hy by done. by apply app_eq_nil in Hy as [_ ?].
  - rewrite trim_end_app by done. destruct (trim_end_sublist x) as [k Hk].
    exists (k ++ trim_end y). rewrite app_assoc. by rewrite <- Hk.
Qed.

Lemma tag_of_None field slug :
  Forall (λ spec, field spec ≠ slug) ss → tag_of field slug = None.
Proof.
  intros Hf. unfold tag_of. destruct (list_find _ ss) as [[i spec]|] eqn:E; [|done].
  apply list_find_Some in E as (Hl & <- & _). rewrite Forall_lookup in Hf.
  by destruct (Hf i spec Hl).
Qed.

Lemma not_a_tag a u w :
  trim_start u ≠ [] → is_tag_prefix (at_line a) (trim_start u) = false →
  tag_of open (trim (u ++ w)) = None ∧ tag_of close (trim (u ++ w)) = None.
Proof.
  intros Hu Hp.
  assert (trim_start (u ++ w) = trim_start u ++ w) as Hts.
  { clear Hp. induction u as [|c u IH]; [done|]. simpl in *.
    destruct (is_whitespace c); [by apply IH|done]. }
  destruct (trim_end_app_prefix (trim_start u) w) as [r Hr].
  assert (Forall (λ spec, open spec ≠ trim (u ++ w) ∧ close spec ≠ trim (u ++ w)) ss) as Hno.
  { apply Forall_forall. intros spec Hspec. unfold trim. rewrite Hts, Hr.
    unfold is_tag_prefix in Hp. apply not_true_iff_false in Hp.
    split; intros Heq; apply Hp, existsb_exists; exists spec; rewrite <- list_elem_of_In;
      (split; [done|]); rewrite Heq, starts_with_app, ?orb_true_r; done. }
  split; apply tag_of_None; eapply Forall_impl; [exact Hno|naive_solver|exact Hno|naive_solver].
Qed.

(** A parser that has ruled the current line out. *)
Definition undoubted a : TaggedLineParser T := mkTagged ss a false [].

Lemma undoubted_text a w : no_nl w → char_run (undoubted a) w = (undoubted a, EText a <$> w).
Proof.
  induction w as [|c w IH]; [done|]. intros [Hc Hw]%no_nl_cons. cbn [char_run char_step detect_tag undoubted].
  unfold char_step. cbn [detect_tag undoubted]. rewrite decide_False by done. fold (undoubted a).
  rewrite IH by done. done.
Qed.

Definition buffering a u : TaggedLineParser T := mkTagged ss a true u.

(** The parser's step on an ordinary character of an undecided line. *)
Lemma buffering_step a u c :
  c ≠ nl →
  char_step (buffering a u) c = (buffering a (u ++ [c]), [])
  ∨ (char_step (buffering a u) c = (undoubted a, EText a <$> (u ++ [c]))
     ∧ ∀ w, tag_of open (trim ((u ++ [c]) ++ w)) = None
            ∧ tag_of close (trim ((u ++ [c]) ++ w)) = None).
Proof.
  intros Hc. unfold char_step. cbn [detect_tag line_buffer buffering].
  rewrite decide_False by done. destruct (_ || _) eqn:E; [by left|].
  right. split; [done|]. intros w. apply orb_false_iff in E as [E1 E2].
  apply (not_a_tag a); [by apply is_nil_false|exact E2].
Qed.

Lemma read_line_text a l text :
  tag_of open (trim l) = None → tag_of close (trim l) = None →
  read_line a l text = (a, EText a <$> text).
Proof. intros Ho Hc. unfold read_line. by rewrite Ho, Hc. Qed.

(** A line with its newline. *)
Lemma buffering_line a u w :
  no_nl w →
  char_run (buffering a u) (w ++ [nl]) =
  let '(a', es) := read_line a (u ++ w) (u ++ w ++ [nl]) in (at_line a', es).
Proof.
  revert u. induction w as [|c w IH]; intros u Hw.
  - rewrite app_nil_l, app_nil_r. cbn [char_run]. unfold char_step. cbn [detect_tag line_buffer buffering].
    rewrite decide_True by done. fold (at_line a).
    change (set_detect true (set_buffer [] (buffering a u))) with (at_line a).
    rewrite (line_events_read _ _ u) by apply strip_newline_nl.
    destruct (read_line a u (u ++ [nl])) as [a' es]. by rewrite app_nil_r.
  - apply no_nl_cons in Hw as [Hc Hw]. rewrite <- app_comm_cons. cbn [char_run].
    rewrite !(cons_middle c), !(app_assoc u).
    destruct (buffering_step a u c Hc) as [->|[-> Hno]].
    + rewrite IH by done. rewrite <- !app_assoc. simpl. by destruct (read_line _ _ _).
    + rewrite char_run_app, undoubted_text by done.
      destruct (Hno w) as [Ho Hcl]. rewrite read_line_text by done.
      cbn [char_run]. unfold char_step. cbn [detect_tag undoubted]. rewrite decide_True by done.
      rewrite app_nil_r, !fmap_app. unfold text_events. simpl. by rewrite <- !app_assoc.
Qed.

(** A last line without newline, and the end of the stream. *)
Lemma buffering_last a u w :
  no_nl (u ++ w) →
  (let '(p, es) := char_run (buffering a u) w in es ++ events (finish_tagged p).2)
  = if is_nil (u ++ w) then end_events a
    else let '(a', es) := read_line a (u ++ w) (u ++ w) in es ++ end_events a'.
Proof.
  revert u. induction w as [|c w IH]; intros u Hw.
  - rewrite app_nil_r in *. cbn [char_run]. rewrite app_nil_l.
    unfold finish_tagged. cbn [line_buffer buffering].
    destruct (is_nil u) eqn:Eu; [by destruct a|].
    change (set_buffer [] (buffering a u)) with (at_line a).
    pose proof (decide_line_events (at_line a) u []) as Hd.
    rewrite (line_events_read _ _ u) in Hd by by apply strip_newline_no.
    destruct (read_line a u u) as [a' es]. destruct Hd as (segs & -> & He). simpl in He.
    cbn [active_tag at_line snd]. destruct a' as [t|]; simpl; rewrite ?events_snoc, He; simpl;
      by rewrite ?app_nil_r.
  - apply no_nl_app in Hw as Hw'. destruct Hw' as [Hu [Hc Hw']%no_nl_cons].
    cbn [char_run]. rewrite (cons_middle c), (app_assoc u) in *.
    destruct (buffering_step a u c Hc) as [->|[-> Hno]].
    + rewrite <- IH by done. by destruct (char_run _ w).
    + rewrite undoubted_text by done. destruct (Hno w) as [Ho Hcl].
      rewrite read_line_text by done.
      assert (is_nil ((u ++ [c]) ++ w) = false) as -> by by destruct u.
      rewrite (fmap_app _ (u ++ [c]) w). f_equal. by destruct a.
Qed.

(** A whole text from the start of a line. *)
Lemma char_run_by_lines a text :
  (let '(p, es) := char_run (at_line a) text in es ++ events (finish_tagged p).2)
  = by_lines a (split_on nl text).
Proof.
  remember (split_on nl text) as pieces eqn:Hp.
  assert (Forall (λ l, nl ∉ l) pieces) as Hno by (subst; apply split_on_Forall).
  assert (text = join [nl] pieces) as -> by (subst; by rewrite join_split).
  assert (pieces ≠ []) as Hne by (rewrite Hp; apply split_on_nonempty). clear Hp.
  revert a. induction Hno as [|l pieces Hl Hno IH]; intros a; [done|].
  destruct pieces as [|l' pieces].
  - apply (buffering_last a [] l). exact Hl.
  - rewrite join_cons by done. cbn [by_lines]. rewrite app_assoc, char_run_app.
    fold (buffering a []) (at_line a). change (at_line a) with (buffering a []).
    rewrite (buffering_line a [] l) by exact Hl. rewrite !app_nil_l.
    destruct (read_line a l (l ++ [nl])) as [a' es]. specialize (IH ltac:(done) a').
    destruct (char_run (at_line a') _) as [p es']. by rewrite <- app_assoc, IH.
Qed.
End reference.
