(* ===== verification/AssistantText.v ===== *)
(** The parsers built on the two generic ones: citations ([citation.rs]),
    proposed plans ([proposed_plan.rs]) and the assistant's text with both
    ([assistant_text.rs]), all of [utils/stream-parser/src].  Their theorems
    are proved against the law of [StreamText.v]. *)

From S2P Require Import Prelude Text StreamText InlineHiddenTag TaggedLines.

(** * Citations *)

Module Citation.
Inductive CitationTag := Citation.

Definition CITATION_OPEN : str := lit "<oai-mem-citation>".
Definition CITATION_CLOSE : str := lit "</oai-mem-citation>".
Definition citation_specs : list (InlineTagSpec CitationTag) :=
  [mkSpec Citation CITATION_OPEN CITATION_CLOSE].

(** [CitationStreamParser] *)
Record CitationStreamParser := mkCitation { inner : InlineHiddenTagParser CitationTag }.

(** [CitationStreamParser::new] *)
Definition new_citation : CitationStreamParser := mkCitation (mkInline citation_specs [] None).

Definition map_contents (c : StreamTextChunk (ExtractedInlineTag CitationTag)) :
    StreamTextChunk str :=
  mkTextChunk (visible_text c) (content <$> extracted c).

#[global] Instance citation_parser : StreamTextParser CitationStreamParser str := {
  push_str p chunk :=
    let '(i, out) := push_str (inner p) chunk in (mkCitation i, map_contents out);
  finish p := let '(i, out) := finish (inner p) in (mkCitation i, map_contents out)
}.

(** [strip_citations] *)
Definition strip_citations (text : str) : str * list str :=
  let '(p, out) := push_str new_citation text in
  let '(_, tail) := finish p in
  (visible_text out ++ visible_text tail, extracted out ++ extracted tail).

Lemma map_contents_app a b : map_contents (chunk_app a b) = chunk_app (map_contents a) (map_contents b).
Proof. unfold map_contents, chunk_app. simpl. by rewrite fmap_app. Qed.

#[global] Instance citation_chunk_invariant :
  ChunkInvariant CitationStreamParser str (λ p, wf_inline (inner p)) eq.
Proof.
  split.
  - apply _.
  - intros p a Hp. pose proof (push_str_ok (R := eq) (inner p) a Hp) as Hok. simpl in *.
    by destruct (drain _).
  - intros p a b p1 o1 p2 o2 Hp. cbn [push_str citation_parser].
    destruct (push_str (inner p) a) as [i1 c1] eqn:E1. intros [= <- <-]. cbn [inner].
    destruct (push_str i1 b) as [i2 c2] eqn:E2. intros [= <- <-].
    destruct (push_str_app (R := eq) _ _ _ _ _ _ _ Hp E1 E2) as (c & -> & Hc).
    eexists. split; [done|]. rewrite <- map_contents_app. unfold map_contents.
    destruct Hc as [-> ->]. reflexivity.
Qed.

Lemma citation_specs_ok : valid_specs citation_specs ∧ no_infix citation_specs.
Proof. apply specs_okb_true. vm_compute. reflexivity. Qed.

(** The output of the citation parser is the inner one's, with the bodies only. *)
Lemma run_citation_inner i chunks :
  run_stream (mkCitation i) chunks = map_contents (run_stream i chunks).
Proof.
  unfold run_stream.
  assert (push_all (mkCitation i) chunks =
          let '(i', o) := push_all i chunks in (mkCitation i', map_contents o)) as ->.
  { revert i. induction chunks as [|c chunks IH]; intros i; [done|]. cbn [push_all].
    cbn [push_str citation_parser inner]. destruct (push_str i c) as [i1 o1]. rewrite IH.
    destruct (push_all i1 chunks) as [i2 o2]. by rewrite map_contents_app. }
  destruct (push_all i chunks) as [i' o]. cbn [finish citation_parser inner].
  destruct (finish i') as [i'' t]. by rewrite map_contents_app.
Qed.
End Citation.

(** * Plans *)

Module Plan.
Inductive PlanTag := ProposedPlan.

#[global] Instance PlanTag_eq_dec : EqDecision PlanTag.
Proof. solve_decision. Defined.

Definition OPEN_TAG : str := lit "<proposed_plan>".
Definition CLOSE_TAG : str := lit "</proposed_plan>".
Definition plan_specs : list (TagSpec PlanTag) := [mkTagSpec OPEN_TAG CLOSE_TAG ProposedPlan].

(** [ProposedPlanSegment] and [ProposedPlanParser] *)
Inductive ProposedPlanSegment :=
| NormalText (text : str)
| ProposedPlanStart
| ProposedPlanDelta (text : str)
| ProposedPlanEnd.

Record ProposedPlanParser := mkPlan { parser : TaggedLineParser PlanTag }.

(** [ProposedPlanParser::new] *)
Definition new_plan : ProposedPlanParser := mkPlan (new_tagged plan_specs).

(** [map_segments] *)
Definition map_segment (s : TaggedLineSegment PlanTag) : ProposedPlanSegment :=
  match s with
  | Normal text => NormalText text
  | TagStart ProposedPlan => ProposedPlanStart
  | TagDelta ProposedPlan text => ProposedPlanDelta text
  | TagEnd ProposedPlan => ProposedPlanEnd
  end.
Definition map_segments (ss : list (TaggedLineSegment PlanTag)) :
    StreamTextChunk ProposedPlanSegment :=
  foldl (λ out s,
           let mapped := map_segment s in
           mkTextChunk
             (match mapped with NormalText text => visible_text out ++ text | _ => visible_text out end)
             (extracted out ++ [mapped])) default_chunk ss.

#[global] Instance plan_parser : StreamTextParser ProposedPlanParser ProposedPlanSegment := {
  push_str p chunk :=
    let '(t, segments) := parse (parser p) chunk in (mkPlan t, map_segments segments);
  finish p := let '(t, segments) := finish_tagged (parser p) in (mkPlan t, map_segments segments)
}.

(** [strip_proposed_plan_blocks] and [extract_proposed_plan_text] *)
Definition strip_proposed_plan_blocks (text : str) : str :=
  let '(p, out) := push_str new_plan text in
  let '(_, tail) := finish p in visible_text out ++ visible_text tail.

Definition collect_plan (acc : str * bool) (s : ProposedPlanSegment) : str * bool :=
  let '(plan_text, saw_plan_block) := acc in
  match s with
  | ProposedPlanStart => ([], true)
  | ProposedPlanDelta delta => (plan_text ++ delta, saw_plan_block)
  | ProposedPlanEnd | NormalText _ => (plan_text, saw_plan_block)
  end.
Definition extract_proposed_plan_text (text : str) : option str :=
  let '(p, out) := push_str new_plan text in
  let '(_, tail) := finish p in
  let '(plan_text, saw) := foldl collect_plan ([], false) (extracted out ++ extracted tail) in
  if saw then Some plan_text else None.

(** ** Plan segments as events *)

Definition unmap_segment (s : ProposedPlanSegment) : TaggedLineSegment PlanTag :=
  match s with
  | NormalText text => Normal text
  | ProposedPlanStart => TagStart ProposedPlan
  | ProposedPlanDelta text => TagDelta ProposedPlan text
  | ProposedPlanEnd => TagEnd ProposedPlan
  end.
Definition plan_events (ss : list ProposedPlanSegment) : list (event PlanTag) :=
  events (unmap_segment <$> ss).

Definition same_plan : relation (list ProposedPlanSegment) :=
  λ a b, plan_events a = plan_events b.

(** The text outside of blocks. *)
Definition outside (es : list (event PlanTag)) : str :=
  omap (λ e, match e with EText None c => Some c | _ => None end) es.

Lemma plan_events_app a b : plan_events (a ++ b) = plan_events a ++ plan_events b.
Proof. unfold plan_events. by rewrite fmap_app, events_app. Qed.

#[global] Instance same_plan_payload : PayloadEquiv same_plan.
Proof.
  unfold same_plan. split.
  - split; [done|by intros ? ? ->|by intros ? ? ? -> ->].
  - intros a a' Ha b b' Hb. by rewrite !plan_events_app, Ha, Hb.
Qed.

Lemma outside_app a b : outside (a ++ b) = outside a ++ outside b.
Proof. apply omap_app. Qed.

Lemma outside_text (t : str) : outside (EText None <$> t) = t.
Proof. unfold outside. induction t as [|c t IH]; [done|]. simpl. by f_equal. Qed.

Lemma outside_hidden (k : PlanTag) (t : str) : outside (EText (Some k) <$> t) = [].
Proof. unfold outside. induction t as [|c t IH]; [done|]. simpl. done. Qed.

Lemma map_segments_snoc ss s :
  map_segments (ss ++ [s]) =
  chunk_app (map_segments ss)
    (mkTextChunk (match s with Normal text => text | _ => [] end) [map_segment s]).
Proof.
  unfold map_segments. rewrite foldl_snoc. unfold chunk_app. simpl.
  by destruct s as [t|[]|[] t|[]]; simpl; rewrite ?app_nil_r.
Qed.

Lemma map_segments_events ss :
  plan_events (extracted (map_segments ss)) = events ss
  ∧ visible_text (map_segments ss) = outside (events ss).
Proof.
  induction ss as [|s ss [IHe IHv]] using rev_ind; [done|].
  rewrite map_segments_snoc, events_snoc, outside_app. simpl.
  rewrite plan_events_app, IHe, IHv. split.
  - f_equal. unfold plan_events, events. simpl. rewrite app_nil_r. by destruct s as [t|[]|[] t|[]].
  - f_equal. destruct s as [t|[]|[] t|[]]; simpl; by rewrite ?outside_text, ?outside_hidden.
Qed.

#[global] Instance plan_chunk_invariant :
  ChunkInvariant ProposedPlanParser ProposedPlanSegment (λ _, True) same_plan.
Proof.
  split; [apply _|done|]. intros p a b p1 o1 p2 o2 _. cbn [push_str plan_parser].
  destruct (parse (parser p) a) as [t1 s1] eqn:E1. intros [= <- <-]. cbn [parser].
  destruct (parse t1 b) as [t2 s2] eqn:E2. intros [= <- <-].
  destruct (parse (parser p) (a ++ b)) as [t3 s3] eqn:E3.
  apply parse_events in E1, E2, E3. rewrite char_run_app, E1, E2 in E3. injection E3 as <- He.
  eexists. split; [done|]. unfold chunk_equiv, same_plan, chunk_app. simpl.
  destruct (map_segments_events s1) as [He1 Hv1], (map_segments_events s2) as [He2 Hv2],
    (map_segments_events s3) as [He3 Hv3].
  rewrite plan_events_app, He1, He2, He3, Hv1, Hv2, Hv3, <- He, outside_app. done.
Qed.

(** The plan parser on a whole text. *)
Lemma run_plan_text text :
  let out := run_stream new_plan [text] in
  plan_events (extracted out) = by_lines plan_specs None (split_on nl text)
  ∧ visible_text out = outside (by_lines plan_specs None (split_on nl text)).
Proof.
  rewrite <- char_run_by_lines. unfold run_stream. cbn [push_all push_str plan_parser].
  cbn [parser new_plan]. fold (at_line plan_specs (None : option PlanTag)).
  change (new_tagged plan_specs) with (at_line plan_specs (None : option PlanTag)).
  destruct (parse (at_line plan_specs None) text) as [t s] eqn:E. apply parse_events in E.
  rewrite E. rewrite chunk_app_default_r. cbn [finish plan_parser parser].
  destruct (finish_tagged t) as [t' s']. simpl.
  destruct (map_segments_events s) as [He Hv], (map_segments_events s') as [He' Hv'].
  by rewrite plan_events_app, He, He', Hv, Hv', outside_app.
Qed.

Lemma run_plan chunks :
  let out := run_stream new_plan chunks in
  plan_events (extracted out) = by_lines plan_specs None (split_on nl (concat chunks))
  ∧ visible_text out = outside (by_lines plan_specs None (split_on nl (concat chunks))).
Proof.
  destruct chunks as [|c chunks]; [done|]. simpl.
  destruct (run_stream_concat (λ _, True) same_plan new_plan c chunks I) as [-> ->].
  apply run_plan_text.
Qed.
End Plan.

(** * The assistant's text *)

Import Citation Plan.

(** [AssistantTextChunk] *)
Record AssistantTextChunk := mkAssistantChunk {
  assistant_visible : str;
  citations : list str;
  plan_segments : list ProposedPlanSegment
}.

(** [AssistantTextStreamParser] *)
Record AssistantTextStreamParser := mkAssistant {
  plan_mode : bool;
  citations_parser : CitationStreamParser;
  plan : ProposedPlanParser
}.

(** [AssistantTextStreamParser::new] *)
Definition new_assistant (plan_mode : bool) : AssistantTextStreamParser :=
  mkAssistant plan_mode new_citation new_plan.

(** [parse_visible_text] *)
Definition parse_visible_text (p : AssistantTextStreamParser) (visible : str) :
    AssistantTextStreamParser * AssistantTextChunk :=
  if negb (plan_mode p) then (p, mkAssistantChunk visible [] [])
  else
    let '(pl, out) := push_str (plan p) visible in
    (mkAssistant (plan_mode p) (citations_parser p) pl,
     mkAssistantChunk (visible_text out) [] (extracted out)).

(** [push_str] and [finish] *)
Definition assistant_push (p : AssistantTextStreamParser) (chunk : str) :
    AssistantTextStreamParser * AssistantTextChunk :=
  let '(c, citation_chunk) := push_str (citations_parser p) chunk in
  let '(p, out) :=
    parse_visible_text (mkAssistant (plan_mode p) c (plan p)) (visible_text citation_chunk) in
  (p, mkAssistantChunk (assistant_visible out) (extracted citation_chunk) (plan_segments out)).

Definition assistant_finish (p : AssistantTextStreamParser) :
    AssistantTextStreamParser * AssistantTextChunk :=
  let '(c, citation_chunk) := finish (citations_parser p) in
  let '(p, out) :=
    parse_visible_text (mkAssistant (plan_mode p) c (plan p)) (visible_text citation_chunk) in
  let '(p, out) :=
    if plan_mode p then
      let '(pl, tail) := finish (plan p) in
      (mkAssistant (plan_mode p) (citations_parser p) pl,
       if chunk_is_empty tail then out
       else mkAssistantChunk (assistant_visible out ++ visible_text tail) (citations out)
              (plan_segments out ++ extracted tail))
    else (p, out) in
  (p, mkAssistantChunk (assistant_visible out) (extracted citation_chunk) (plan_segments out)).

Definition assistant_app (a b : AssistantTextChunk) : AssistantTextChunk :=
  mkAssistantChunk (assistant_visible a ++ assistant_visible b) (citations a ++ citations b)
    (plan_segments a ++ plan_segments b).

Fixpoint assistant_push_all (p : AssistantTextStreamParser) (chunks : list str) :
    AssistantTextStreamParser * AssistantTextChunk :=
  match chunks with
  | [] => (p, mkAssistantChunk [] [] [])
  | c :: chunks =>
      let '(p, out) := assistant_push p c in
      let '(p, out') := assistant_push_all p chunks in (p, assistant_app out out')
  end.

Definition run_assistant (plan_mode : bool) (chunks : list str) : AssistantTextChunk :=
  let '(p, out) := assistant_push_all (new_assistant plan_mode) chunks in
  let '(_, tail) := assistant_finish p in assistant_app out tail.

(** What the plan parser is given: the visible text of each push. *)
Fixpoint visible_pieces (c : CitationStreamParser) (chunks : list str) :
    CitationStreamParser * list str :=
  match chunks with
  | [] => (c, [])
  | chunk :: chunks =>
      let '(c, out) := push_str c chunk in
      let '(c, vs) := visible_pieces c chunks in (c, visible_text out :: vs)
  end.

Lemma visible_pieces_concat c chunks c' vs :
  visible_pieces c chunks = (c', vs) →
  ∃ o, push_all c chunks = (c', o) ∧ visible_text o = concat vs.
Proof.
  revert c c' vs. induction chunks as [|chunk chunks IH]; intros c c' vs; cbn [visible_pieces push_all].
  { intros [= <- <-]. by eexists. }
  destruct (push_str c chunk) as [c1 o1]. destruct (visible_pieces c1 chunks) as [c2 vs2] eqn:E.
  intros [= <- <-]. apply IH in E as (o2 & -> & Hv). eexists. split; [done|]. simpl. by rewrite Hv.
Qed.

(** Without plan mode the citations' output is passed on. *)
Lemma push_all_plain c pl chunks :
  assistant_push_all (mkAssistant false c pl) chunks =
  let '(c', o) := push_all c chunks in
  (mkAssistant false c' pl, mkAssistantChunk (visible_text o) (extracted o) []).
Proof.
  revert c. induction chunks as [|chunk chunks IH]; intros c; [done|].
  cbn [assistant_push_all push_all]. unfold assistant_push, parse_visible_text.
  cbn [citations_parser plan_mode plan negb]. destruct (push_str c chunk) as [c1 o1].
  rewrite IH. by destruct (push_all c1 chunks).
Qed.

(** With plan mode the plan parser sees the visible pieces. *)
Lemma push_all_plan c pl chunks c' vs pl' po co :
  visible_pieces c chunks = (c', vs) → push_all pl vs = (pl', po) → push_all c chunks = (c', co) →
  assistant_push_all (mkAssistant true c pl) chunks =
  (mkAssistant true c' pl', mkAssistantChunk (visible_text po) (extracted co) (extracted po)).
Proof.
  revert c pl c' vs pl' po co.
  induction chunks as [|chunk chunks IH]; intros c pl c' vs pl' po co;
    cbn [visible_pieces assistant_push_all push_all].
  { intros [= <- <-] [= <- <-] [= <-]. done. }
  unfold assistant_push, parse_visible_text. cbn [citations_parser plan_mode plan negb].
  destruct (push_str c chunk) as [c1 o1]. destruct (visible_pieces c1 chunks) as [c2 vs2] eqn:E.
  intros [= <- <-]. cbn [push_all]. destruct (push_str pl (visible_text o1)) as [pl1 po1].
  destruct (push_all pl1 vs2) as [pl2 po2] eqn:Ep. intros [= <- <-].
  destruct (push_all c1 chunks) as [c3 o3] eqn:Ec. intros [= -> <-].
  by rewrite (IH _ _ _ _ _ _ _ E Ep Ec).
Qed.

Lemma run_assistant_plain chunks :
  let o := run_stream new_citation chunks in
  run_assistant false chunks = mkAssistantChunk (visible_text o) (extracted o) [].
Proof.
  unfold run_assistant, run_stream, new_assistant. rewrite push_all_plain.
  destruct (push_all new_citation chunks) as [c o]. unfold assistant_finish, parse_visible_text.
  cbn [citations_parser plan_mode plan negb]. by destruct (finish c).
Qed.

Lemma run_assistant_plan chunks :
  let o := run_stream new_citation chunks in
  ∃ vs, concat vs = visible_text o
    ∧ let po := run_stream new_plan vs in
      run_assistant true chunks = mkAssistantChunk (visible_text po) (extracted o) (extracted po).
Proof.
  unfold run_assistant, run_stream, new_assistant.
  destruct (visible_pieces new_citation chunks) as [c vs] eqn:Ev.
  pose proof (visible_pieces_concat _ _ _ _ Ev) as (o & Ho & Hvs).
  destruct (push_all new_plan vs) as [pl po] eqn:Ep.
  rewrite (push_all_plan _ _ _ _ _ _ _ _ Ev Ep Ho), Ho.
  unfold assistant_finish, parse_visible_text. cbn [citations_parser plan_mode plan negb].
  destruct (finish c) as [c' t] eqn:Ef. destruct (push_str pl (visible_text t)) as [pl1 po1] eqn:E1.
  cbn [plan_mode plan]. destruct (finish pl1) as [pl2 tail] eqn:E2.
  exists (vs ++ [visible_text t]).
  split; [cbn [visible_text chunk_app]; by rewrite concat_app, Hvs; simpl; rewrite app_nil_r|].
  assert (∀ p p' out, push_all p vs = (p', out) →
    push_all p (vs ++ [visible_text t]) =
    let '(p2, o2) := push_str p' (visible_text t) in (p2, chunk_app out o2)) as Hsnoc.
  { clear. induction vs as [|v vs IH]; intros p p' out; cbn [push_all app].
    - intros [= <- <-]. destruct (push_str p _) as [p2 o2].
      by rewrite chunk_app_default_r, chunk_app_default_l.
    - destruct (push_str p v) as [p1 o1]. destruct (push_all p1 vs) as [p2 o2] eqn:E.
      intros [= <- <-]. rewrite (IH _ _ _ E). destruct (push_str p2 _) as [p3 o3].
      by rewrite chunk_app_assoc. }
  rewrite (Hsnoc _ _ _ Ep), E1, E2.
  unfold assistant_app, chunk_app. simpl.
  destruct (chunk_is_empty tail) eqn:Et; simpl; rewrite ?app_assoc; [|done].
  apply andb_true_iff in Et as [Hv%is_nil_true He%is_nil_true]. by rewrite Hv, He, !app_nil_r.
Qed.

(** * Properties *)

(** The citations of a streamed text: however the text is cut, the visible
    text and the citation bodies are those of hiding
    [<oai-mem-citation>] tags in the whole text, and [strip_citations] gives
    the same. *)
Theorem citations_independent_of_chunks chunks :
  let out := run_stream new_citation chunks in
  (∃ tags, Hides citation_specs (concat chunks) (visible_text out) tags
           ∧ extracted out = content <$> tags)
  ∧ strip_citations (concat chunks) = (visible_text out, extracted out).
Proof.
  assert (∀ cs, ∃ tags, Hides citation_specs (concat cs) (visible_text (run_stream new_citation cs)) tags
           ∧ extracted (run_stream new_citation cs) = content <$> tags) as Hh.
  { intros cs. unfold new_citation. rewrite run_citation_inner. simpl. eexists. split; [|done].
    destruct citation_specs_ok as [Hv Hni]. by apply inline_hides. }
  split; [apply Hh|]. simpl.
  assert (strip_citations (concat chunks) =
    (visible_text (run_stream new_citation [concat chunks]),
     extracted (run_stream new_citation [concat chunks]))) as ->.
  { unfold strip_citations, run_stream. cbn [push_all]. destruct (push_str _ _) as [p o].
    destruct (finish p) as [p' t]. by rewrite chunk_app_default_r. }
  destruct (Hh chunks) as (tags & H1 & ->), (Hh [concat chunks]) as (tags' & H2 & ->).
  simpl concat in H2. rewrite app_nil_r in H2.
  by destruct (Hides_functional _ _ _ _ _ _ H1 H2) as [-> ->].
Qed.

(** Plan blocks are read line by line: however the text is cut, the plan
    segments and the visible text are those of the lines of the whole text,
    where a line holding only [<proposed_plan>] opens a block, a line holding
    only the closing tag ends it, and the end of the text ends an open block. *)
Theorem plan_blocks_by_lines chunks :
  let out := run_stream new_plan chunks in
  let es := by_lines plan_specs None (split_on nl (concat chunks)) in
  plan_events (extracted out) = es ∧ visible_text out = outside es
  ∧ strip_proposed_plan_blocks (concat chunks) = outside es.
Proof.
  destruct (run_plan chunks) as [He Hv]. simpl. split_and!; [done..|].
  destruct (run_plan_text (concat chunks)) as [_ Hv']. rewrite <- Hv'.
  unfold strip_proposed_plan_blocks, run_stream. cbn [push_all].
  destruct (push_str new_plan (concat chunks)) as [p o]. destruct (finish p) as [p' t].
  by rewrite chunk_app_default_r.
Qed.

(** The assistant's text is citations first and plans second, in one pass:
    over any chunks, the citations are those hidden in the whole text; outside
    of plan mode the rest is visible as it is, and in plan mode it is split
    into the plan blocks and the text around them, line by line. *)
Theorem assistant_text_two_passes mode chunks :
  let out := run_assistant mode chunks in
  ∃ visible tags, Hides citation_specs (concat chunks) visible tags
    ∧ citations out = content <$> tags
    ∧ if mode then
        let es := by_lines plan_specs None (split_on nl visible) in
        plan_events (plan_segments out) = es ∧ assistant_visible out = outside es
      else assistant_visible out = visible ∧ plan_segments out = [].
Proof.
  destruct citation_specs_ok as [Hv Hni].
  pose proof (inline_hides citation_specs chunks Hv Hni) as Hh. cbv zeta in Hh.
  exists (visible_text (run_stream new_citation chunks)). eexists.
  split; [unfold new_citation; rewrite run_citation_inner; exact Hh|].
  destruct mode.
  - destruct (run_assistant_plan chunks) as (vs & Hvs & ->). cbn [citations plan_segments assistant_visible].
    split; [unfold new_citation; by rewrite run_citation_inner|].
    destruct (run_plan vs) as [He Hp]. rewrite Hvs in *. done.
  - rewrite run_assistant_plain. cbn [citations plan_segments assistant_visible].
    split; [unfold new_citation; by rewrite run_citation_inner|]. done.
Qed.
