(* ===== verification/Utf8Stream.v ===== *)
(** [utils/stream-parser/src/utf8_stream.rs]: a wrapper that lets a text parser
    take raw bytes, holding back the bytes of a character that is not complete
    yet.  The theorems are about any inner parser that keeps the law of
    [StreamText.v]. *)

From S2P Require Import Prelude Text Utf8 StreamText.

(** * The code *)

(** [Utf8StreamParserError] *)
Inductive Utf8StreamParserError :=
| InvalidUtf8 (valid_up_to error_len : nat)
| IncompleteUtf8AtEof.

(** [Utf8StreamParser] *)
Record Utf8StreamParser (P : Type) := mkUtf8 { inner : P; pending_utf8 : list N }.
Arguments mkUtf8 {P}.
Arguments inner {P}.
Arguments pending_utf8 {P}.

Section code.
Context {P X : Type} `{StreamTextParser P X}.
Implicit Types (u : Utf8StreamParser P).

Definition new_utf8 (p : P) : Utf8StreamParser P := mkUtf8 p [].

(** [push_bytes] *)
Definition push_bytes u (chunk : list N) :
    Utf8StreamParser P * result Utf8StreamParserError (StreamTextChunk X) :=
  let old_len := length (pending_utf8 u) in
  let buffer := pending_utf8 u ++ chunk in
  match from_utf8 buffer with
  | Ok text => let '(p, out) := push_str (inner u) text in (mkUtf8 p [], Ok out)
  | Err err =>
      match error_len err with
      | Some n => (mkUtf8 (inner u) (take old_len buffer), Err (InvalidUtf8 (valid_up_to err) n))
      | None =>
          if decide (valid_up_to err = 0) then (mkUtf8 (inner u) buffer, Ok default_chunk)
          else
            match from_utf8 (take (valid_up_to err) buffer) with
            | Ok text =>
                let '(p, out) := push_str (inner u) text in
                (mkUtf8 p (drop (valid_up_to err) buffer), Ok out)
            | Err prefix_err =>
                (mkUtf8 (inner u) (take old_len buffer),
                 Err (InvalidUtf8 (valid_up_to prefix_err) (default 0 (error_len prefix_err))))
            end
      end
  end.

(** [finish] *)
Definition finish_utf8 u :
    Utf8StreamParser P * result Utf8StreamParserError (StreamTextChunk X) :=
  let checked :=
    if is_nil (pending_utf8 u) then Ok tt
    else match from_utf8 (pending_utf8 u) with
         | Ok _ => Ok tt
         | Err err =>
             match error_len err with
             | Some n => Err (InvalidUtf8 (valid_up_to err) n)
             | None => Err IncompleteUtf8AtEof
             end
         end in
  match checked with
  | Err e => (u, Err e)
  | Ok _ =>
      let flushed :=
        if is_nil (pending_utf8 u) then Ok (u, default_chunk)
        else match from_utf8 (pending_utf8 u) with
             | Ok text => let '(p, out) := push_str (inner u) text in Ok (mkUtf8 p [], out)
             | Err err => Err (InvalidUtf8 (valid_up_to err) (default 0 (error_len err)))
             end in
      match flushed with
      | Err e => (u, Err e)
      | Ok (u, out) =>
          let '(p, tail) := finish (inner u) in
          (mkUtf8 p (pending_utf8 u), Ok (chunk_app out tail))
      end
  end.

(** [into_inner] and [into_inner_lossy] *)
Definition into_inner u : result Utf8StreamParserError P :=
  if is_nil (pending_utf8 u) then Ok (inner u)
  else match from_utf8 (pending_utf8 u) with
       | Ok _ => Ok (inner u)
       | Err err =>
           match error_len err with
           | Some n => Err (InvalidUtf8 (valid_up_to err) n)
           | None => Err IncompleteUtf8AtEof
           end
       end.
Definition into_inner_lossy u : P := inner u.

(** A stream of byte chunks and its end, up to the first error. *)
Fixpoint push_all_bytes u (chunks : list (list N)) :
    Utf8StreamParser P * result Utf8StreamParserError (StreamTextChunk X) :=
  match chunks with
  | [] => (u, Ok default_chunk)
  | c :: chunks =>
      let! u | out := push_bytes u c in
      let! u | out' := push_all_bytes u chunks in
      (u, Ok (chunk_app out out'))
  end.

Definition run_bytes u (chunks : list (list N)) : result Utf8StreamParserError (StreamTextChunk X) :=
  match push_all_bytes u chunks with
  | (_, Err e) => Err e
  | (u, Ok out) =>
      match finish_utf8 u with
      | (_, Err e) => Err e
      | (_, Ok tail) => Ok (chunk_app out tail)
      end
  end.
End code.

(** * Valid input *)

(** A text whose bytes begin with those of [s] begins with [s]. *)
Lemma into_bytes_split text s y :
  Forall is_char text → Forall is_char s → into_bytes text = into_bytes s ++ y →
  ∃ text', text = s ++ text' ∧ y = into_bytes text' ∧ Forall is_char text'.
Proof.
  intros Ht Hs. revert text Ht. induction Hs as [|c s Hc Hs IH]; intros text Ht Heq.
  { exists text. simpl in Heq. auto. }
  rewrite into_bytes_cons, <- app_assoc in Heq.
  destruct text as [|c' text].
  { symmetry in Heq. apply app_eq_nil in Heq as [Heq _]. by apply encode_char_nonempty in Heq. }
  apply Forall_cons in Ht as [Hc' Ht]. rewrite into_bytes_cons in Heq.
  apply (f_equal decode_char) in Heq. rewrite !decode_char_encode in Heq by done.
  injection Heq as <- Heq. destruct (IH text Ht Heq) as (text' & -> & -> & ?). by exists text'.
Qed.

Lemma into_bytes_decodes text :
  Forall is_char text → into_bytes text ≠ [] → ∃ c rest, decode_char (into_bytes text) = Char c rest.
Proof.
  intros Ht Hne. destruct Ht as [|c text Hc Ht]; [done|].
  rewrite into_bytes_cons, decode_char_encode by done. eauto.
Qed.

(** A valid buffer cut anywhere: a decoded text, and a held-back beginning of a character. *)
Lemma from_utf8_cut text b more :
  Forall is_char text → into_bytes text = b ++ more →
  ∃ s held, b = into_bytes s ++ held ∧ Forall is_char s
    ∧ (held = [] ∨ decode_char held = Incomplete)
    ∧ from_utf8 b = if is_nil held then Ok s else Err (mkUtf8Error (str_len s) None).
Proof.
  intros Ht Heq. destruct (from_utf8 b) as [s|e] eqn:E.
  - apply from_utf8_Ok in E as [-> Hs]. exists s, []. rewrite app_nil_r. auto.
  - apply from_utf8_Err in E as (s & held & [-> Hs] & Hne & Hv & Hd).
    exists s, held. rewrite (proj2 (is_nil_false held) Hne).
    rewrite <- app_assoc in Heq.
    destruct (into_bytes_split _ _ _ Ht Hs Heq) as (text' & -> & Hy & Ht').
    assert (decode_char held = Incomplete ∧ error_len e = None) as [Hi He].
    { destruct (error_len e) as [n|]; [|done]. exfalso.
      destruct (into_bytes_decodes text' Ht') as (c & r & Hdec).
      { rewrite <- Hy. by destruct held. }
      pose proof (decode_char_app held more) as Ha. rewrite Hd in Ha. rewrite <- Hy in Hdec. congruence. }
    split_and!; auto. f_equal. destruct e. simpl in *. by subst.
Qed.

Section valid.
Context {P X : Type} `{StreamTextParser P X}.
Implicit Types (u : Utf8StreamParser P) (p : P).

Lemma str_len_zero_bytes s : str_len s = 0 → s = [].
Proof. apply str_len_0. Qed.

(** One push of a chunk of a valid stream. *)
Lemma push_bytes_valid p held chunk more text :
  Forall is_char text → into_bytes text = held ++ chunk ++ more →
  ∃ s held' text', text = s ++ text' ∧ Forall is_char text'
    ∧ into_bytes text' = held' ++ more ∧ (held' = [] ∨ decode_char held' = Incomplete)
    ∧ (push_bytes (mkUtf8 p held) chunk =
         (let '(p', out) := push_str p s in (mkUtf8 p' held', Ok out))
       ∨ s = [] ∧ push_bytes (mkUtf8 p held) chunk = (mkUtf8 p held', Ok default_chunk)).
Proof.
  intros Ht Heq. rewrite app_assoc in Heq.
  destruct (from_utf8_cut text (held ++ chunk) more Ht Heq) as (s & held' & Hb & Hs & Hheld & Hfrom).
  rewrite Hb, <- app_assoc in Heq.
  destruct (into_bytes_split _ _ _ Ht Hs Heq) as (text' & -> & Hy & Ht').
  exists s, held', text'. split_and!; [done..|]. unfold push_bytes. cbn [pending_utf8 inner].
  rewrite Hfrom. destruct (is_nil held') eqn:En.
  - apply is_nil_true in En as ->. by left.
  - cbn [error_len valid_up_to]. case_decide as Hz.
    + right. apply str_len_zero_bytes in Hz as ->. rewrite Hb. by split.
    + left. rewrite Hb, <- into_bytes_length, take_app_length, drop_app_length.
      by rewrite from_utf8_into_bytes.
Qed.

(** The whole stream: the inner parser is pushed pieces of the text. *)
Lemma push_all_bytes_valid chunks p held text :
  Forall is_char text → into_bytes text = held ++ concat chunks →
  (held = [] ∨ decode_char held = Incomplete) →
  ∃ pieces p' out, concat pieces = text ∧ push_all p pieces = (p', out)
    ∧ push_all_bytes (mkUtf8 p held) chunks = (mkUtf8 p' [], Ok out).
Proof.
  revert p held text. induction chunks as [|chunk chunks IH]; intros p held text Ht Heq Hheld.
  - simpl in Heq. rewrite app_nil_r in Heq.
    assert (held = []) as ->.
    { destruct Hheld as [|Hi]; [done|]. destruct (decide (held = [])) as [|Hne]; [done|].
      rewrite <- Heq in *. destruct (into_bytes_decodes text Ht Hne) as (c & r & Hd). congruence. }
    destruct text as [|c text].
    2: { rewrite into_bytes_cons in Heq. apply app_eq_nil in Heq as [Heq _].
         by apply encode_char_nonempty in Heq. }
    exists [], p, default_chunk. done.
  - cbn [concat] in Heq.
    destruct (push_bytes_valid p held chunk (concat chunks) text Ht Heq)
      as (s & held' & text' & -> & Ht' & Heq' & Hheld' & [Hp|[-> Hp]]).
    + destruct (push_str p s) as [p1 o1] eqn:Es.
      destruct (IH p1 held' text' Ht' Heq' Hheld') as (pieces & p2 & o2 & <- & Hpush & Hall).
      exists (s :: pieces), p2, (chunk_app o1 o2). split_and!; [done| |].
      * cbn [push_all]. by rewrite Es, Hpush.
      * cbn [push_all_bytes]. by rewrite Hp, Hall.
    + destruct (IH p held' text' Ht' Heq' Hheld') as (pieces & p2 & o2 & <- & Hpush & Hall).
      exists pieces, p2, o2. split_and!; [done|done|].
      cbn [push_all_bytes]. by rewrite Hp, Hall, chunk_app_default_l.
Qed.

Lemma run_bytes_valid chunks p text :
  Forall is_char text → into_bytes text = concat chunks →
  ∃ pieces, concat pieces = text ∧ run_bytes (new_utf8 p) chunks = Ok (run_stream p pieces).
Proof.
  intros Ht Heq.
  destruct (push_all_bytes_valid chunks p [] text Ht Heq (or_introl eq_refl))
    as (pieces & p' & out & Hc & Hpush & Hall).
  exists pieces. split; [done|]. unfold run_bytes, run_stream, new_utf8. rewrite Hall, Hpush.
  unfold finish_utf8. cbn. destruct (finish p') as [p'' tail]. by rewrite chunk_app_default_l.
Qed.
End valid.

(** * Properties *)

(** The bytes of a text may be cut anywhere, inside of characters too: if
    the chunks together are the UTF-8 encoding of a non-empty text, every
    push and the final flush succeed, and the output is that of pushing the
    text to the inner parser at once. *)
Theorem utf8_stream_valid {P X} `{StreamTextParser P X} (ok : P → Prop) (R : relation (list X))
    `{!ChunkInvariant P X ok R} p chunks text :
  ok p → text ≠ [] → Forall is_char text → concat chunks = into_bytes text →
  ∃ out, run_bytes (new_utf8 p) chunks = Ok out ∧ chunk_equiv R out (run_stream p [text]).
Proof.
  intros Hok Hne Ht Heq. destruct (run_bytes_valid chunks p text Ht (eq_sym Heq)) as (pieces & Hc & ->).
  eexists. split; [done|]. destruct pieces as [|c pieces]; [done|].
  rewrite <- Hc. by apply (run_stream_concat ok R).
Qed.

(** A parser that shows everything, for the example. *)
Module Echo.
#[global] Instance parser : StreamTextParser () () := {
  push_str _ chunk := (tt, mkTextChunk chunk []);
  finish _ := (tt, default_chunk)
}.
#[global] Instance invariant : ChunkInvariant () () (λ _, True) eq.
Proof.
  split; [apply _|done|]. intros [] a b p1 o1 p2 o2 _ [= <- <-] [= <- <-]. by eexists.
Qed.
End Echo.

Lemma utf8_stream_valid_witness :
  let text := [233; 8364; 97]%N in
  let chunks := [[195]; [169; 226; 130]; [172; 97]]%N in
  ∃ out, run_bytes (new_utf8 tt) chunks = Ok out ∧ chunk_equiv eq out (run_stream tt [text]).
Proof.
  intros text chunks.
  apply (utf8_stream_valid (λ _, True) eq tt chunks text).
  - exact I.
  - discriminate.
  - apply (bool_decide_unpack _). vm_compute. exact I.
  - vm_compute. reflexivity.
Defined.

(** An invalid chunk is rolled back: when [push_bytes] reports an error,
    the wrapper is exactly as before the push, the held-back bytes included,
    and the inner parser has seen nothing of the chunk. *)
Theorem utf8_push_error_rolls_back {P X} `{StreamTextParser P X} (u u' : Utf8StreamParser P) chunk e :
  push_bytes u chunk = (u', Err e) → u' = u.
Proof.
  unfold push_bytes. destruct u as [p held]. cbn [pending_utf8 inner].
  destruct (from_utf8 (held ++ chunk)) as [text|err].
  { by destruct (push_str p text). }
  destruct (error_len err) as [n|].
  - intros [= <- _]. by rewrite take_app_length.
  - case_decide; [done|]. destruct (from_utf8 (take _ _)) as [text|perr].
    + by destruct (push_str p text).
    + intros [= <- _]. by rewrite take_app_length.
Qed.

Lemma utf8_push_error_rolls_back_witness :
  let u := mkUtf8 tt [195]%N in
  (push_bytes u [40]%N).2 = Err (InvalidUtf8 0 1) ∧ (push_bytes u [40]%N).1 = u.
Proof.
  intros u. split; [vm_compute; reflexivity|].
  apply (utf8_push_error_rolls_back u (push_bytes u [40]%N).1 [40]%N (InvalidUtf8 0 1)).
  vm_compute. reflexivity.
Defined.
