(* ===== verification/HeadTailBuffer.v ===== *)
(** The capped output buffer of [core/src/unified_exec/head_tail_buffer.rs]:
    the first half of the capacity keeps the start of a process's output, the
    second half its end, and the middle is counted and dropped.  The theorems
    give the buffer's contents as a function of the output alone, however it
    arrives, and show that merging two buffers is the buffer of the
    concatenated outputs. *)

From stdpp Require Import pretty.
From S2P Require Import Prelude Text Utf8 Machine.

(** * The code *)

Record HeadTailBuffer := mkBuffer {
  max_bytes : nat;
  head_budget : nat;
  tail_budget : nat;
  head_bytes : list N;
  tail_bytes : list N;
  omitted_bytes : N
}.

(** [HeadTailBuffer::new] *)
Definition new_buffer (max : nat) : HeadTailBuffer :=
  let head_budget := max `div` 2 in
  mkBuffer max head_budget (max - head_budget) [] [] 0.

Definition set_head (h : list N) (b : HeadTailBuffer) : HeadTailBuffer :=
  mkBuffer (max_bytes b) (head_budget b) (tail_budget b) h (tail_bytes b) (omitted_bytes b).
Definition set_tail (t : list N) (o : N) (b : HeadTailBuffer) : HeadTailBuffer :=
  mkBuffer (max_bytes b) (head_budget b) (tail_budget b) (head_bytes b) t o.

Definition retained_bytes (b : HeadTailBuffer) : N :=
  usize_add (N.of_nat (length (head_bytes b))) (N.of_nat (length (tail_bytes b))).
Definition total_bytes (b : HeadTailBuffer) : N := usize_add (retained_bytes b) (omitted_bytes b).

Definition trim_tail_to_budget (b : HeadTailBuffer) : HeadTailBuffer :=
  let excess := length (tail_bytes b) - tail_budget b in
  if decide (0 < excess) then
    set_tail (drop excess (tail_bytes b)) (usize_add (omitted_bytes b) (N.of_nat excess)) b
  else b.

Definition push_to_tail (chunk : list N) (b : HeadTailBuffer) : HeadTailBuffer :=
  if is_nil chunk then b
  else if decide (tail_budget b = 0) then
    set_tail (tail_bytes b) (usize_add (omitted_bytes b) (N.of_nat (length chunk))) b
  else if decide (tail_budget b ≤ length chunk) then
    let kept := drop (length chunk - tail_budget b) chunk in
    let dropped := length chunk - length kept in
    set_tail kept
      (usize_add (usize_add (omitted_bytes b) (N.of_nat (length (tail_bytes b)))) (N.of_nat dropped)) b
  else trim_tail_to_budget (set_tail (tail_bytes b ++ chunk) (omitted_bytes b) b).

Definition push_chunk (b : HeadTailBuffer) (chunk : list N) : HeadTailBuffer :=
  if is_nil chunk then b
  else if decide (max_bytes b = 0) then
    set_tail (tail_bytes b) (usize_add (omitted_bytes b) (N.of_nat (length chunk))) b
  else
    let remaining_head := head_budget b - length (head_bytes b) in
    let head_len := remaining_head `min` length chunk in
    let b :=
      if decide (0 < head_len) then set_head (head_bytes b ++ take head_len chunk) b else b in
    push_to_tail (drop head_len chunk) b.

Definition snapshot_chunks (b : HeadTailBuffer) : list (list N) :=
  (if is_nil (head_bytes b) then [] else [head_bytes b])
  ++ (if is_nil (tail_bytes b) then [] else [tail_bytes b]).

Definition to_bytes (b : HeadTailBuffer) : list N := head_bytes b ++ tail_bytes b.

(** [format_output_omission_marker] *)
Definition format_output_omission_marker (omitted : N) : str :=
  lit "... " ++ lit (pretty omitted) ++ lit " bytes omitted ...".

Definition to_bytes_with_omission_marker (b : HeadTailBuffer) : list N :=
  if decide (omitted_bytes b = 0%N) then to_bytes b
  else head_bytes b ++ [nl] ++ into_bytes (format_output_omission_marker (omitted_bytes b)) ++ [nl]
         ++ tail_bytes b.

(** [drain]: the emptied buffer, and what it held. *)
Definition drain (b : HeadTailBuffer) : HeadTailBuffer * HeadTailBuffer :=
  (mkBuffer (max_bytes b) (head_budget b) (tail_budget b) [] [] 0, b).

Definition push_buffer (b buffer : HeadTailBuffer) : HeadTailBuffer :=
  let b := push_chunk (push_chunk b (head_bytes buffer)) (tail_bytes buffer) in
  set_tail (tail_bytes b) (usize_add (omitted_bytes b) (omitted_bytes buffer)) b.

(** * What the buffer holds *)

#[local] Arguments Nat.div : simpl never.

(** The last [n] elements. *)
Definition lastn (n : nat) (l : list N) : list N := drop (length l - n) l.

(** The buffer of capacity [max] that has seen the bytes [s]. *)
Definition observe (max : nat) (s : list N) : HeadTailBuffer :=
  let head_budget := max `div` 2 in
  let tail_budget := max - head_budget in
  mkBuffer max head_budget tail_budget (take head_budget s) (lastn tail_budget (drop head_budget s))
    (usize_sat (N.of_nat (length s - max))).

Lemma lastn_length n l : length (lastn n l) = n `min` length l.
Proof. unfold lastn. rewrite length_drop. lia. Qed.

Lemma lastn_all n l : length l ≤ n → lastn n l = l.
Proof. intros. unfold lastn. by replace (length l - n) with 0 by lia. Qed.

Lemma lastn_app_long n l k : n ≤ length k → lastn n (l ++ k) = lastn n k.
Proof.
  intros. unfold lastn. rewrite length_app, drop_app_ge by lia. f_equal. lia.
Qed.

Lemma lastn_lastn_app n l k : lastn n (lastn n l ++ k) = lastn n (l ++ k).
Proof.
  destruct (decide (n ≤ length k)); [by rewrite !lastn_app_long|].
  unfold lastn. rewrite !length_app, length_drop.
  destruct (decide (length l ≤ n)) as [Hl|Hl].
  - by replace (length l - n) with 0 by lia; rewrite drop_0; do 2 f_equal; lia.
  - rewrite !drop_app, drop_drop, length_drop. f_equal; f_equal; lia.
Qed.

Lemma new_buffer_observe max : new_buffer max = observe max [].
Proof.
  unfold observe, new_buffer, lastn. by rewrite take_nil, drop_nil.
Qed.

(** The tail keeps the end of the bytes [r] that did not fit the head. *)
Lemma push_to_tail_spec max hb tb h r c :
  push_to_tail c (mkBuffer max hb tb h (lastn tb r) (usize_sat (N.of_nat (length r - tb))))
  = mkBuffer max hb tb h (lastn tb (r ++ c)) (usize_sat (N.of_nat (length (r ++ c) - tb))).
Proof.
  unfold push_to_tail. simpl. rewrite length_app.
  destruct (is_nil c) eqn:Ec; [apply is_nil_true in Ec as ->; by rewrite app_nil_r, Nat.add_0_r|].
  apply is_nil_false, length_pos in Ec.
  repeat case_decide; unfold set_tail; simpl; f_equal;
    rewrite ?usize_add_sat_l, ?lastn_length, ?length_drop.
  - subst. unfold lastn. rewrite !Nat.sub_0_r, drop_all. by rewrite drop_all.
  - f_equal. lia.
  - by rewrite lastn_app_long.
  - f_equal. lia.
  - unfold trim_tail_to_budget. simpl. rewrite length_app, lastn_length.
    assert (lastn tb (r ++ c) = drop (tb `min` length r + length c - tb) (lastn tb r ++ c)) as ->.
    { rewrite <- lastn_lastn_app. unfold lastn at 1. by rewrite length_app, lastn_length. }
    case_decide as Hx; [|replace (tb `min` length r + length c - tb) with 0 by lia];
      unfold set_tail; simpl; rewrite ?usize_add_sat_l, ?drop_0; f_equal; f_equal; lia.
Qed.

Lemma push_chunk_observe max s c : push_chunk (observe max s) c = observe max (s ++ c).
Proof.
  unfold push_chunk. destruct (is_nil c) eqn:Ec; [apply is_nil_true in Ec as ->; by rewrite app_nil_r|].
  clear Ec. set (hb := max `div` 2) in *. assert (hb ≤ max) by (apply Nat.Div0.div_le_upper_bound; lia).
  case_decide as Hmax; simpl in Hmax.
  { subst max. unfold observe, set_tail, lastn. simpl. rewrite !drop_0, !Nat.sub_0_r, !drop_all.
    f_equal. rewrite length_app, usize_add_sat_l. f_equal. lia. }
  unfold observe at 1 2 3 4. simpl. fold hb. rewrite length_take.
  set (n := (hb - hb `min` length s) `min` length c).
  assert ((if decide (0 < n)
           then set_head (take hb s ++ take n c) (observe max s) else observe max s)
          = mkBuffer max hb (max - hb) (take hb (s ++ c)) (lastn (max - hb) (drop hb s))
              (usize_sat (N.of_nat (length (drop hb s) - (max - hb))))) as ->.
  { unfold observe, set_head. simpl. fold hb. rewrite length_drop, take_app.
    replace (length s - hb - (max - hb)) with (length s - max) by lia.
    case_decide; simpl; f_equal.
    - f_equal. unfold n in *. destruct (decide (hb - length s ≤ length c)).
      + f_equal. lia.
      + by rewrite !take_ge by lia.
    - replace (take (hb - length s) c) with (@nil N); [by rewrite app_nil_r|].
      symmetry. unfold n in *. destruct (decide (length c = 0)) as [->%nil_length_inv|]; [by rewrite take_nil|].
      by replace (hb - length s) with 0 by lia. }
  rewrite push_to_tail_spec. unfold observe. fold hb. f_equal.
  - rewrite drop_app. do 2 f_equal. unfold n. destruct (decide (hb - length s ≤ length c)).
    + f_equal. lia.
    + by rewrite !drop_ge by lia.
  - rewrite !length_app, !length_drop. do 2 f_equal. unfold n. lia.
Qed.

Lemma push_chunks_observe max s cs :
  foldl push_chunk (observe max s) cs = observe max (s ++ concat cs).
Proof.
  revert s. induction cs as [|c cs IH]; intros s; simpl; [by rewrite app_nil_r|].
  by rewrite push_chunk_observe, IH, app_assoc.
Qed.

(** Nothing is lost while the output fits. *)
Lemma observe_short max s :
  length s ≤ max → to_bytes (observe max s) = s ∧ omitted_bytes (observe max s) = 0%N.
Proof.
  intros. unfold observe, to_bytes. simpl.
  rewrite lastn_all by (rewrite length_drop; lia). rewrite take_drop.
  by replace (length s - max) with 0 by lia.
Qed.

Lemma observe_long max s :
  max < length s →
  head_bytes (observe max s) = take (max `div` 2) s
  ∧ tail_bytes (observe max s) = lastn (max - max `div` 2) s
  ∧ omitted_bytes (observe max s) = usize_sat (N.of_nat (length s - max)).
Proof.
  intros. assert (max `div` 2 ≤ max) by (apply Nat.Div0.div_le_upper_bound; lia).
  split_and!; [done| |done]. simpl. rewrite <- (take_drop (max `div` 2) s) at 2.
  by rewrite lastn_app_long by (rewrite length_drop; lia).
Qed.

(** The pieces of a full buffer stand for the whole output. *)
Lemma observe_pieces max s t :
  max < length t →
  let b := observe max (s ++ take (max `div` 2) t ++ lastn (max - max `div` 2) t) in
  set_tail (tail_bytes b)
    (usize_add (omitted_bytes b) (usize_sat (N.of_nat (length t - max)))) b
  = observe max (s ++ t).
Proof.
  intros Ht. simpl. assert (max `div` 2 ≤ max) by (apply Nat.Div0.div_le_upper_bound; lia).
  set (hb := max `div` 2) in *. unfold observe, set_tail. simpl. fold hb. f_equal.
  - rewrite !take_app, take_take, length_take. f_equal. rewrite Nat.min_l by lia.
    replace (hb - length s - hb `min` length t) with 0 by lia. by rewrite take_0, app_nil_r.
  - rewrite !drop_app, app_assoc, lastn_app_long; rewrite ?length_drop, ?lastn_length, ?length_take; [|lia].
    replace (hb - length s - hb `min` length t) with 0 by lia. rewrite drop_0.
    rewrite lastn_app_long by (rewrite length_drop; lia).
    rewrite lastn_all by (rewrite lastn_length; lia).
    rewrite <- (take_drop (hb - length s) t) at 1. by rewrite lastn_app_long by (rewrite length_drop; lia).
  - rewrite usize_add_sat, !length_app, length_take, lastn_length.
    f_equal. lia.
Qed.

Lemma push_buffer_observe max s t :
  push_buffer (observe max s) (observe max t) = observe max (s ++ t).
Proof.
  unfold push_buffer. rewrite !push_chunk_observe, <- app_assoc.
  destruct (decide (length t ≤ max)) as [Hl|Hl].
  - destruct (observe_short max t Hl) as [Hb Ho]. unfold to_bytes in Hb. rewrite Hb, Ho.
    unfold set_tail, observe. simpl. by rewrite usize_add_0_r.
  - destruct (observe_long max t) as (-> & -> & ->); [lia|]. apply observe_pieces. lia.
Qed.

(** * Properties *)

(** The buffer depends on the output only, not on the chunks it arrives
    in.  After any chunks the head is the first half of the capacity, the tail
    the end of what is left, and the count of omitted bytes is what is
    missing (saturating at [usize::MAX]).  So an output that fits is rendered
    as it is, and a longer one as its start, the marker with the count, and
    its end, which together are exactly as long as the capacity. *)
Theorem head_tail_buffer_spec max chunks :
  let s := concat chunks in
  let b := foldl push_chunk (new_buffer max) chunks in
  (length s ≤ max → to_bytes_with_omission_marker b = s ∧ omitted_bytes b = 0%N)
  ∧ (max < length s →
     to_bytes_with_omission_marker b
       = take (max `div` 2) s ++ [nl]
         ++ into_bytes (format_output_omission_marker (usize_sat (N.of_nat (length s - max))))
         ++ [nl] ++ lastn (max - max `div` 2) s
     ∧ length (to_bytes b) = max)
  ∧ total_bytes b = usize_sat (N.of_nat (length s))
  ∧ concat (snapshot_chunks b) = to_bytes b.
Proof.
  simpl. rewrite new_buffer_observe, push_chunks_observe, app_nil_l.
  set (s := concat chunks). assert (max `div` 2 ≤ max) by (apply Nat.Div0.div_le_upper_bound; lia).
  split_and!.
  - intros [Hb Ho]%observe_short. unfold to_bytes_with_omission_marker. by rewrite decide_True, Hb.
  - intros Hl. destruct (observe_long max s Hl) as (Hh & Ht & Ho).
    unfold to_bytes_with_omission_marker, to_bytes. rewrite decide_False, Hh, Ht, Ho.
    + split; [done|]. rewrite length_app, length_take, lastn_length. lia.
    + rewrite Ho, usize_sat_0. lia.
  - unfold total_bytes, retained_bytes, observe. simpl.
    rewrite length_take, lastn_length, length_drop. unfold usize_add at 2.
    rewrite usize_add_sat. f_equal. lia.
  - unfold snapshot_chunks, to_bytes. destruct (head_bytes _), (tail_bytes _); simpl; by rewrite ?app_nil_r.
Qed.

(** Collecting output in steps is the same as collecting it at once:
    draining a buffer that has seen [t] and merging it into one of the same
    capacity that has seen [s] gives the buffer that has seen [s] and then
    [t], its omissions included; and the drained buffer starts afresh. *)
Theorem push_buffer_drain max ss ts :
  let '(rest, drained) := drain (foldl push_chunk (new_buffer max) ts) in
  push_buffer (foldl push_chunk (new_buffer max) ss) drained
    = foldl push_chunk (new_buffer max) (ss ++ ts)
  ∧ rest = new_buffer max.
Proof.
  simpl. rewrite new_buffer_observe, !push_chunks_observe, !app_nil_l, push_buffer_observe.
  by rewrite concat_app, <- new_buffer_observe.
Qed.
