(* ===== verification/ResponseItems.v ===== *)
(** The items of a conversation ([protocol/src/models.rs]): messages, calls of
    tools and their outputs, with every field the source has.  JSON values are
    opaque to the code that is modelled: their type is the parameter [J]. *)

From S2P Require Import Prelude Text Machine.

Inductive ImageDetail := Auto | Low | High | Original.
Inductive MessagePhase := Commentary | FinalAnswer.
Inductive LocalShellStatus := Completed | InProgress | Incomplete.
Inductive InputModality := TextInput | ImageInput | AudioInput.

#[export] Instance InputModality_eq_dec : EqDecision InputModality.
Proof. solve_decision. Defined.

Record LocalShellExecAction := mkExecAction {
  command : list str;
  timeout_ms : option N;
  working_directory : option str;
  env : option (gmap str str);
  user : option str
}.
Inductive LocalShellAction := Exec (action : LocalShellExecAction).

Inductive ReasoningItemReasoningSummary := SummaryText (text : str).
Inductive ReasoningItemContent := ReasoningText (text : str) | ReasoningPlain (text : str).

Inductive WebSearchAction :=
| WebSearch (query : option str) (queries : option (list str))
| OpenPage (url : option str)
| FindInPage (url pattern : option str)
| OtherAction.

Record InternalChatMessageMetadataPassthrough := mkMetadata { turn_id : option str }.

(** [ContentItem] *)
Module Content.
Inductive t :=
| InputText (text : str)
| InputImage (image_url : str) (detail : option ImageDetail)
| InputAudio (audio_url : str)
| OutputText (text : str).
End Content.

Inductive AgentMessageInputContent :=
| AgentText (text : str)
| AgentEncrypted (encrypted_content : str).

(** [FunctionCallOutputContentItem] *)
Module OutputItem.
Inductive t :=
| InputText (text : str)
| InputImage (image_url : str) (detail : option ImageDetail)
| InputAudio (audio_url : str)
| EncryptedContent (encrypted_content : str).
End OutputItem.

(** [FunctionCallOutputBody] *)
Inductive FunctionCallOutputBody := Text (content : str) | ContentItems (items : list OutputItem.t).

Record FunctionCallOutputPayload := mkPayload {
  body : FunctionCallOutputBody;
  success : option bool
}.

(** [FunctionCallOutputPayload::from_text] *)
Definition from_text (content : str) : FunctionCallOutputPayload := mkPayload (Text content) None.

(** A [ResponseItemId] is its text. *)
#[local] Abbreviation ResponseItemId := str.
Abbreviation metadata := (option InternalChatMessageMetadataPassthrough).

Module Item.
Inductive ResponseItem (J : Type) :=
| AdditionalTools (id : option ResponseItemId) (role : str) (tools : list J)
| Message (id : option ResponseItemId) (role : str) (content : list Content.t)
    (phase : option MessagePhase) (meta : metadata)
| AgentMessage (id : option ResponseItemId) (author recipient : str)
    (content : list AgentMessageInputContent) (meta : metadata)
| Reasoning (id : option ResponseItemId) (summary : list ReasoningItemReasoningSummary)
    (content : option (list ReasoningItemContent)) (encrypted_content : option str)
    (meta : metadata)
| LocalShellCall (id : option ResponseItemId) (call_id : option str) (status : LocalShellStatus)
    (action : LocalShellAction) (meta : metadata)
| FunctionCall (id : option ResponseItemId) (name : str) (namespace : option str)
    (arguments : str) (call_id : str) (meta : metadata)
| ToolSearchCall (id : option ResponseItemId) (call_id : option str) (status : option str)
    (execution : str) (arguments : J) (meta : metadata)
| FunctionCallOutput (id : option ResponseItemId) (call_id : str)
    (output : FunctionCallOutputPayload) (meta : metadata)
| CustomToolCall (id : option ResponseItemId) (status : option str) (call_id : str) (name : str)
    (namespace : option str) (input : str) (meta : metadata)
| CustomToolCallOutput (id : option ResponseItemId) (call_id : str) (name : option str)
    (output : FunctionCallOutputPayload) (meta : metadata)
| ToolSearchOutput (id : option ResponseItemId) (call_id : option str) (status : str)
    (execution : str) (tools : list J) (meta : metadata)
| WebSearchCall (id : option ResponseItemId) (status : option str)
    (action : option WebSearchAction) (meta : metadata)
| ImageGenerationCall (id : option ResponseItemId) (status : str) (revised_prompt : option str)
    (result : str) (meta : metadata)
| Compaction (id : option ResponseItemId) (encrypted_content : str) (meta : metadata)
| CompactionTrigger
| ContextCompaction (id : option ResponseItemId) (encrypted_content : option str)
    (meta : metadata)
| Other.
Arguments AdditionalTools {J}.
Arguments Message {J}.
Arguments AgentMessage {J}.
Arguments Reasoning {J}.
Arguments LocalShellCall {J}.
Arguments FunctionCall {J}.
Arguments ToolSearchCall {J}.
Arguments FunctionCallOutput {J}.
Arguments CustomToolCall {J}.
Arguments CustomToolCallOutput {J}.
Arguments ToolSearchOutput {J}.
Arguments WebSearchCall {J}.
Arguments ImageGenerationCall {J}.
Arguments Compaction {J}.
Arguments CompactionTrigger {J}.
Arguments ContextCompaction {J}.
Arguments Other {J}.
End Item.
Export Item.
