(* ===== verification/Truncate.v ===== *)
(** Truncation of tool output: [utils/string/src/truncate.rs] (the text) and
    [utils/output-truncation/src/lib.rs] (lists of content items), with the
    policy of [protocol/src/protocol.rs].  Byte counts are [usize]s as [N];
    slicing a text at a byte offset that is not a character boundary panics,
    which is [None]. *)

From stdpp Require Import pretty.
From S2P Require Import Prelude Text Machine ResponseItems.

(** * The code *)

Definition APPROX_BYTES_PER_TOKEN : N := 4.

Definition approx_token_count (text : str) : N :=
  usize_add (byte_len text) (APPROX_BYTES_PER_TOKEN - 1) / APPROX_BYTES_PER_TOKEN.
Definition approx_bytes_for_tokens (tokens : N) : N := usize_mul tokens APPROX_BYTES_PER_TOKEN.
Definition approx_tokens_from_byte_count (bytes : N) : N :=
  usize_add bytes (APPROX_BYTES_PER_TOKEN - 1) / APPROX_BYTES_PER_TOKEN.

Definition split_budget (budget : N) : N * N := let half := (budget / 2)%N in (half, (budget - half)%N).

(** The variables of the loop of [split_string]. *)
Record split_state := mkSplit {
  prefix_end : N;
  suffix_start : N;
  removed_chars : N;
  suffix_started : bool
}.

(** The loop over [s.char_indices()], [idx] being the offset of the first character. *)
Fixpoint split_loop (s : str) (idx beginning_bytes tail_start_target : N) (st : split_state) :
    split_state :=
  match s with
  | [] => st
  | ch :: s =>
      let char_end := (idx + N.of_nat (len_utf8 ch))%N in
      let st :=
        if decide (char_end ≤ beginning_bytes)%N then
          mkSplit char_end (suffix_start st) (removed_chars st) (suffix_started st)
        else if decide (tail_start_target ≤ idx)%N then
          if negb (suffix_started st) then mkSplit (prefix_end st) idx (removed_chars st) true
          else st
        else mkSplit (prefix_end st) (suffix_start st) (usize_add (removed_chars st) 1)
               (suffix_started st) in
      split_loop s char_end beginning_bytes tail_start_target st
  end.

Definition split_string (s : str) (beginning_bytes end_bytes : N) : option (N * str * str) :=
  if is_nil s then Some (0%N, [], [])
  else
    let len := byte_len s in
    let st := split_loop s 0 beginning_bytes (len - end_bytes) (mkSplit 0 len 0 false) in
    let suffix_start :=
      if decide (suffix_start st < prefix_end st)%N then prefix_end st else suffix_start st in
    '(before, _) ← split_at_byte s (prefix_end st);
    '(_, after) ← split_at_byte s suffix_start;
    Some (removed_chars st, before, after).

(** [format!("…{removed_count} tokens truncated…")] *)
Definition format_truncation_marker (use_tokens : bool) (removed_count : N) : str :=
  [8230%N] ++ lit (pretty removed_count)
  ++ (if use_tokens then lit " tokens truncated" else lit " chars truncated") ++ [8230%N].

Definition removed_units (use_tokens : bool) (removed_bytes removed_chars : N) : N :=
  if use_tokens then approx_tokens_from_byte_count removed_bytes else removed_chars.

Definition assemble_truncated_output (prefix suffix marker : str) : str := prefix ++ marker ++ suffix.

Definition truncate_with_byte_estimate (s : str) (max_bytes : N) (use_tokens : bool) : option str :=
  if is_nil s then Some []
  else
    let total_chars := usize_sat (N.of_nat (length s)) in
    if decide (max_bytes = 0%N) then
      Some (format_truncation_marker use_tokens (removed_units use_tokens (byte_len s) total_chars))
    else if decide (byte_len s ≤ max_bytes)%N then Some s
    else
      let '(left_budget, right_budget) := split_budget max_bytes in
      '(removed_chars, before, after) ← split_string s left_budget right_budget;
      let marker :=
        format_truncation_marker use_tokens
          (removed_units use_tokens (byte_len s - max_bytes) removed_chars) in
      Some (assemble_truncated_output before after marker).

Definition truncate_middle_chars (s : str) (max_bytes : N) : option str :=
  truncate_with_byte_estimate s max_bytes false.

Definition truncate_middle_with_token_budget (s : str) (max_tokens : N) : option (str * option N) :=
  if is_nil s then Some ([], None)
  else if bool_decide (0 < max_tokens)%N && bool_decide (byte_len s ≤ approx_bytes_for_tokens max_tokens)%N
  then Some (s, None)
  else
    truncated ← truncate_with_byte_estimate s (approx_bytes_for_tokens max_tokens) true;
    if decide (truncated = s) then Some (truncated, None)
    else Some (truncated, Some (approx_token_count s)).

(** [TruncationPolicy] *)
Inductive TruncationPolicy := Bytes (bytes : N) | Tokens (tokens : N).

Definition token_budget (p : TruncationPolicy) : N :=
  match p with Bytes bytes => approx_tokens_from_byte_count bytes | Tokens tokens => tokens end.
Definition byte_budget (p : TruncationPolicy) : N :=
  match p with Bytes bytes => bytes | Tokens tokens => approx_bytes_for_tokens tokens end.

Definition truncate_text (content : str) (policy : TruncationPolicy) : option str :=
  match policy with
  | Bytes bytes => truncate_middle_chars content bytes
  | Tokens tokens => fst <$> truncate_middle_with_token_budget content tokens
  end.

Definition formatted_truncate_text (content : str) (policy : TruncationPolicy) : option str :=
  if decide (byte_len content ≤ byte_budget policy)%N then Some content
  else
    result ← truncate_text content policy;
    Some (lit "Warning: truncated output (original token count: "
          ++ lit (pretty (approx_token_count content)) ++ lit ")" ++ [nl]
          ++ lit "Total output lines: " ++ lit (pretty (N.of_nat (length (lines content)))) ++ [nl; nl]
          ++ result).

(** The texts of a list of items, joined by newlines: the loop that skips
    nothing but puts no newline before the first non-empty piece. *)
Definition push_segment (combined text : str) : str :=
  (if is_nil combined then [] else combined ++ [nl]) ++ text.
Definition text_of (item : OutputItem.t) : option str :=
  match item with OutputItem.InputText text => Some text | _ => None end.

Definition formatted_truncate_text_content_items_with_policy (items : list OutputItem.t)
    (policy : TruncationPolicy) : option (list OutputItem.t * option N) :=
  let text_segments := omap text_of items in
  if is_nil text_segments then Some (items, None)
  else
    let combined := foldl push_segment [] text_segments in
    if decide (byte_len combined ≤ byte_budget policy)%N then Some (items, None)
    else
      text ← formatted_truncate_text combined policy;
      Some (OutputItem.InputText text :: filter (λ item, text_of item = None) items,
            Some (approx_token_count combined)).

(** The variables of the loop over the items. *)
Record items_state := mkItems {
  out : list OutputItem.t;
  remaining_budget : N;
  omitted_text_items : N;
  omitted_audio_items : N
}.

Definition with_budget (policy : TruncationPolicy) (n : N) : TruncationPolicy :=
  match policy with Bytes _ => Bytes n | Tokens _ => Tokens n end.
Definition text_cost (policy : TruncationPolicy) (text : str) : N :=
  match policy with Bytes _ => byte_len text | Tokens _ => approx_token_count text end.
Definition audio_cost (policy : TruncationPolicy) (token_cost : N) : N :=
  match policy with Bytes _ => approx_bytes_for_tokens token_cost | Tokens _ => token_cost end.

Definition keep_item (item : OutputItem.t) (budget : N) (st : items_state) : items_state :=
  mkItems (out st ++ [item]) budget (omitted_text_items st) (omitted_audio_items st).

(** The body of the loop. *)
Definition truncate_item (policy : TruncationPolicy) (estimate_audio_token_count : str → N)
    (st : items_state) (item : OutputItem.t) : option items_state :=
  let budget := remaining_budget st in
  match item with
  | OutputItem.InputText text =>
      if decide (budget = 0%N) then
        Some (mkItems (out st) budget (omitted_text_items st + 1) (omitted_audio_items st))
      else
        let cost := text_cost policy text in
        if decide (cost ≤ budget)%N then Some (keep_item item (budget - cost) st)
        else
          snippet ← truncate_text text (with_budget policy budget);
          if is_nil snippet then
            Some (mkItems (out st) 0 (omitted_text_items st + 1) (omitted_audio_items st))
          else Some (keep_item (OutputItem.InputText snippet) 0 st)
  | OutputItem.InputImage _ _ | OutputItem.EncryptedContent _ => Some (keep_item item budget st)
  | OutputItem.InputAudio audio_url =>
      let cost := audio_cost policy (estimate_audio_token_count audio_url) in
      if decide (cost ≤ budget)%N then Some (keep_item item (budget - cost) st)
      else Some (mkItems (out st) budget (omitted_text_items st) (omitted_audio_items st + 1))
  end.

Fixpoint truncate_items (policy : TruncationPolicy) (estimate : str → N) (items : list OutputItem.t)
    (st : items_state) : option items_state :=
  match items with
  | [] => Some st
  | item :: items => st ← truncate_item policy estimate st item; truncate_items policy estimate items st
  end.

Definition omission_note (kind : string) (n : N) : list OutputItem.t :=
  if decide (0 < n)%N
  then [OutputItem.InputText (lit "[omitted " ++ lit (pretty n) ++ lit " " ++ lit kind ++ lit " items ...]")]
  else [].

Definition truncate_function_output_items_with_policy (items : list OutputItem.t)
    (policy : TruncationPolicy) (estimate : str → N) : option (list OutputItem.t) :=
  let budget := match policy with Bytes _ => byte_budget policy | Tokens _ => token_budget policy end in
  st ← truncate_items policy estimate items (mkItems [] budget 0 0);
  Some (out st ++ omission_note "text" (omitted_text_items st)
        ++ omission_note "audio" (omitted_audio_items st)).

(** [approx_tokens_from_byte_count_i64] *)
Definition approx_tokens_from_byte_count_i64 (bytes : Z) : Z :=
  if decide (bytes ≤ 0)%Z then 0%Z
  else i64_of_usize (approx_tokens_from_byte_count (Z.to_N bytes)).

(** * Cutting a text at byte offsets *)


Lemma split_loop_app s1 s2 idx L T st :
  split_loop (s1 ++ s2) idx L T st
  = split_loop s2 (idx + byte_len s1) L T (split_loop s1 idx L T st).
Proof.
  revert idx st. induction s1 as [|c s1 IH]; intros idx st; simpl.
  - by rewrite byte_len_nil, N.add_0_r.
  - rewrite IH, byte_len_cons. f_equal. lia.
Qed.

(** The characters that fit the beginning. *)
Lemma split_loop_prefix s idx L T st :
  (idx + byte_len s ≤ L)%N → prefix_end st = idx →
  split_loop s idx L T st
  = mkSplit (idx + byte_len s) (suffix_start st) (removed_chars st) (suffix_started st).
Proof.
  revert idx st. induction s as [|c s IH]; intros idx [pe ss rc st]; simpl; intros H ->.
  - by rewrite byte_len_nil, N.add_0_r.
  - rewrite byte_len_cons in *. rewrite decide_True by lia. rewrite IH; simpl; [|lia|done].
    f_equal. lia.
Qed.

(** The characters that are removed: past the beginning, before the end. *)
Lemma split_loop_removed s idx L T pe ss n st :
  (∀ c s', s = c :: s' → L < idx + N.of_nat (len_utf8 c))%N →
  (∀ s' c, s = s' ++ [c] → idx + byte_len s' < T)%N →
  split_loop s idx L T (mkSplit pe ss (usize_sat n) st)
  = mkSplit pe ss (usize_sat (n + N.of_nat (length s))) st.
Proof.
  revert idx n. induction s as [|c s IH]; intros idx n Hf Hl; simpl.
  - by rewrite N.add_0_r.
  - pose proof (len_utf8_N c). specialize (Hf c s eq_refl).
    assert (idx < T)%N.
    { destruct (last s) as [d|] eqn:Es.
      - apply last_Some in Es as [s' ->]. specialize (Hl (c :: s') d eq_refl). lia.
      - apply last_None in Es as ->. specialize (Hl [] c eq_refl). rewrite byte_len_nil in Hl. lia. }
    rewrite !decide_False by lia. simpl. rewrite usize_add_sat_l, IH.
    + do 2 f_equal. lia.
    + intros. lia.
    + intros s' d ->. specialize (Hl (c :: s') d eq_refl). rewrite byte_len_cons in Hl. lia.
Qed.

(** The characters of the end: the first of them is noted. *)
Lemma split_loop_suffix s idx L T pe ss n :
  (L ≤ idx)%N → (T ≤ idx)%N → ss = (idx + byte_len s)%N →
  split_loop s idx L T (mkSplit pe ss n false) = mkSplit pe idx n (negb (is_nil s)).
Proof.
  intros HL HT ->. destruct s as [|c s]; simpl; [by rewrite byte_len_nil, N.add_0_r|].
  pose proof (len_utf8_N c). rewrite decide_False, decide_True by lia.
  assert (∀ i st, (L ≤ i)%N → (T ≤ i)%N → suffix_started st = true → split_loop s i L T st = st) as Hs.
  { clear. induction s as [|d s IH]; intros i st ?? Hst; simpl; [done|].
    pose proof (len_utf8_N d). rewrite decide_False, decide_True, Hst by lia. apply IH; lia || done. }
  apply Hs; [lia..|done].
Qed.

(** [b] is the longest prefix of [b ++ r] of at most [n] bytes. *)
Definition cut_after (n : N) (b r : str) : Prop :=
  (byte_len b ≤ n)%N ∧ ∀ c r', r = c :: r' → (n < byte_len (b ++ [c]))%N.

(** [a] is the longest suffix of [r ++ a] of at most [n] bytes. *)
Definition cut_before (n : N) (r a : str) : Prop :=
  (byte_len a ≤ n)%N ∧ ∀ r' c, r = r' ++ [c] → (n < byte_len (c :: a))%N.

Lemma cut_after_exists n s : ∃ b r, s = b ++ r ∧ cut_after n b r.
Proof.
  revert n. induction s as [|c s IH]; intros n.
  - exists [], []. split; [done|]. split; [rewrite byte_len_nil; lia|done].
  - destruct (decide (N.of_nat (len_utf8 c) ≤ n)%N) as [Hc|Hc].
    + destruct (IH (n - N.of_nat (len_utf8 c))%N) as (b & r & -> & Hb & Hr).
      exists (c :: b), r. split; [done|]. split; [rewrite byte_len_cons; lia|].
      intros d r' Hd. specialize (Hr d r' Hd). simpl. rewrite byte_len_cons. lia.
    + exists [], (c :: s). split; [done|]. split; [rewrite byte_len_nil; lia|].
      intros d r' [= <- <-]. autorewrite with codex. simpl. autorewrite with codex. lia.
Qed.

Lemma cut_before_exists n s : ∃ r a, s = r ++ a ∧ cut_before n r a.
Proof.
  revert n. induction s as [|c s IH] using rev_ind; intros n.
  - exists [], []. split; [done|]. split; [rewrite byte_len_nil; lia|]. by intros [] ? ?.
  - destruct (decide (N.of_nat (len_utf8 c) ≤ n)%N) as [Hc|Hc].
    + destruct (IH (n - N.of_nat (len_utf8 c))%N) as (r & a & -> & Ha & Hr).
      exists r, (a ++ [c]). rewrite <- app_assoc. split; [done|].
      split; [autorewrite with codex; lia|].
      intros r' d Hd. specialize (Hr r' d Hd). autorewrite with codex in *. lia.
    + exists (s ++ [c]), []. rewrite app_nil_r. split; [done|]. split; [rewrite byte_len_nil; lia|].
      intros r' d [-> [= ->]]%app_inj_tail. autorewrite with codex. lia.
Qed.

(** The loop of [split_string] finds the three parts. *)
Lemma split_loop_parts b m a L R :
  (L + R < byte_len (b ++ m ++ a))%N → m ≠ [] →
  cut_after L b (m ++ a) → cut_before R m a →
  split_loop (b ++ m ++ a) 0 L (byte_len (b ++ m ++ a) - R)
    (mkSplit 0 (byte_len (b ++ m ++ a)) 0 false)
  = mkSplit (byte_len b) (byte_len (b ++ m)) (usize_sat (N.of_nat (length m))) (negb (is_nil a)).
Proof.
  intros Hlen Hne [Hb Hr] [Ha Hm].
  assert (L < byte_len (b ++ m))%N.
  { destruct m as [|c m]; [done|]. specialize (Hr c (m ++ a) eq_refl).
    autorewrite with codex in *. lia. }
  rewrite 2!split_loop_app, (split_loop_prefix b); [|lia|done]. simpl.
  rewrite (split_loop_removed m _ _ _ _ _ 0).
  - rewrite split_loop_suffix; autorewrite with codex in *; [done|lia..].
  - intros c m' ->. specialize (Hr c (m' ++ a) eq_refl). autorewrite with codex in *. lia.
  - intros m' c ->. specialize (Hm m' c eq_refl). autorewrite with codex in *. lia.
Qed.

(** [split_string] on a text that is longer than the two budgets. *)
Lemma split_string_spec s L R :
  (L + R < byte_len s)%N →
  ∃ before mid after, s = before ++ mid ++ after
    ∧ split_string s L R = Some (usize_sat (N.of_nat (length mid)), before, after)
    ∧ mid ≠ [] ∧ cut_after L before (mid ++ after) ∧ cut_before R (before ++ mid) after.
Proof.
  intros Hlen.
  destruct (cut_after_exists L s) as (b & r & -> & Hb).
  destruct (cut_before_exists R r) as (m & a & -> & Ha).
  assert (m ≠ []) as Hne.
  { intros ->. destruct Hb, Ha. autorewrite with codex in *. lia. }
  exists b, m, a. split_and!; [done| |done..|].
  - unfold split_string. destruct (is_nil _) eqn:E.
    { apply is_nil_true in E. by destruct b, m. }
    rewrite split_loop_parts by done. simpl.
    rewrite decide_False by (autorewrite with codex; lia). rewrite split_at_byte_app. simpl.
    by rewrite (app_assoc b), split_at_byte_app.
  - split; [apply Ha|]. intros r' c Hc. destruct (exists_last Hne) as (m' & z & ->).
    rewrite app_assoc in Hc. apply app_inj_tail in Hc as [_ ->]. by eapply Ha.
Qed.

(** What a truncated text is: both ends as long as their halves of the budget
    allow, and the marker for what is between them. *)
Definition truncated_to (max : N) (use_tokens : bool) (s out : str) : Prop :=
  ∃ before mid after, s = before ++ mid ++ after ∧ mid ≠ []
    ∧ cut_after (max / 2) before (mid ++ after) ∧ cut_before (max - max / 2) (before ++ mid) after
    ∧ out = before
            ++ format_truncation_marker use_tokens
                 (if use_tokens then approx_tokens_from_byte_count (byte_len s - max)
                  else usize_sat (N.of_nat (length mid)))
            ++ after.

Lemma truncate_estimate_spec s max use_tokens :
  ∃ out, truncate_with_byte_estimate s max use_tokens = Some out
    ∧ ((byte_len s ≤ max)%N → out = s)
    ∧ ((max < byte_len s)%N → truncated_to max use_tokens s out).
Proof.
  unfold truncate_with_byte_estimate. destruct (is_nil s) eqn:Es.
  { apply is_nil_true in Es as ->. exists []. rewrite byte_len_nil. split_and!; [done..|lia]. }
  apply is_nil_false in Es. case_decide as Hz; [subst max|case_decide].
  - eexists; split; [done|]. split.
    + intros. destruct Es. apply byte_len_0. lia.
    + intros _. exists [], s, []. rewrite app_nil_r. split_and!; [done..| | |].
      * change (0 / 2)%N with 0%N. split; [done|]. intros c r ->. pose proof (len_utf8_N c).
        simpl. autorewrite with codex. lia.
      * change (0 - 0 / 2)%N with 0%N. split; [done|]. intros r c Hc. pose proof (len_utf8_N c).
        autorewrite with codex. lia.
      * rewrite app_nil_r, N.sub_0_r. by destruct use_tokens.
  - exists s. split_and!; [done..|lia].
  - destruct (split_string_spec s (max / 2) (max - max / 2)) as (b & m & a & -> & Hs & Hm & Hb & Ha).
    { pose proof (N.Div0.mul_div_le max 2). lia. }
    cbn [split_budget]. rewrite Hs. eexists; split; [done|]. split; [lia|]. intros _.
    exists b, m, a. split_and!; [done..|]. unfold assemble_truncated_output. by destruct use_tokens.
Qed.

Lemma truncate_text_spec s policy :
  ∃ out, truncate_text s policy = Some out
    ∧ ((byte_len s ≤ byte_budget policy)%N → out = s)
    ∧ ((byte_budget policy < byte_len s)%N →
       truncated_to (byte_budget policy) (match policy with Bytes _ => false | Tokens _ => true end) s out).
Proof.
  destruct policy as [max|tokens]; [apply truncate_estimate_spec|]. simpl.
  unfold truncate_middle_with_token_budget. destruct (is_nil s) eqn:Es.
  { apply is_nil_true in Es as ->. exists []. rewrite byte_len_nil. split_and!; [done..|lia]. }
  case_bool_decide; case_bool_decide; simpl;
    try (exists s; split_and!; [done..|lia]);
    (destruct (truncate_estimate_spec s (approx_bytes_for_tokens tokens) true) as (out & -> & Ho);
     exists out; simpl; split; [by case_decide|done]).
Qed.

(** * Lists of content items *)

(** What becomes of an item. *)
Inductive verdict := Kept | Cut (snippet : str) | Omitted.

Definition shown (item : OutputItem.t) (v : verdict) : option OutputItem.t :=
  match v with
  | Kept => Some item
  | Cut snippet => Some (OutputItem.InputText snippet)
  | Omitted => None
  end.

Definition is_text (item : OutputItem.t) : bool :=
  match item with OutputItem.InputText _ => true | _ => false end.
Definition is_audio (item : OutputItem.t) : bool :=
  match item with OutputItem.InputAudio _ => true | _ => false end.

Definition item_cost (policy : TruncationPolicy) (estimate : str → N) (item : OutputItem.t) : N :=
  match item with
  | OutputItem.InputText text => text_cost policy text
  | OutputItem.InputAudio url => audio_cost policy (estimate url)
  | OutputItem.InputImage _ _ | OutputItem.EncryptedContent _ => 0
  end.

(** Images and encrypted contents are kept, audio is kept or left out, and only
    a text may be cut, to some budget within the whole one. *)
Definition fate (policy : TruncationPolicy) (budget : N) (item : OutputItem.t) (v : verdict) : Prop :=
  match item, v with
  | _, Kept => True
  | OutputItem.InputText text, Cut snippet =>
      ∃ n, (0 < n ≤ budget)%N ∧ (n < text_cost policy text)%N
           ∧ truncate_text text (with_budget policy n) = Some snippet
  | OutputItem.InputText _, Omitted | OutputItem.InputAudio _, Omitted => True
  | _, _ => False
  end.

Definition kept_cost (policy : TruncationPolicy) (estimate : str → N) (items : list OutputItem.t)
    (vs : list verdict) : N :=
  foldr (λ iv n, (if iv.2 is Kept then item_cost policy estimate iv.1 else 0) + n)%N 0%N (zip items vs).

Definition omitted (kind : OutputItem.t → bool) (items : list OutputItem.t) (vs : list verdict) : N :=
  foldr (λ iv n, (if iv.2 is Omitted then if kind iv.1 then 1 else 0 else 0) + n)%N 0%N (zip items vs).

Definition no_text (items : list OutputItem.t) (vs : list verdict) : Prop :=
  Forall2 (λ item v, is_text item = true → v = Omitted) items vs.

(** After a text that is cut or left out no text is shown. *)
Fixpoint texts_end (items : list OutputItem.t) (vs : list verdict) : Prop :=
  match items, vs with
  | item :: items, v :: vs => (is_text item = false ∨ v = Kept ∨ no_text items vs) ∧ texts_end items vs
  | _, _ => True
  end.

Definition total_cost (policy : TruncationPolicy) (estimate : str → N) (items : list OutputItem.t) : N :=
  foldr (λ item n, item_cost policy estimate item + n)%N 0%N items.

(** An empty text costs nothing, but is left out when nothing is left to spend. *)
Definition no_empty_text (items : list OutputItem.t) : Prop :=
  Forall (λ item, item ≠ OutputItem.InputText []) items.

Lemma fate_mono policy n n' item v : (n ≤ n')%N → fate policy n item v → fate policy n' item v.
Proof. intros Hn. destruct item, v; simpl; try done. intros (k & ? & ?). exists k. split; [lia|done]. Qed.

Lemma text_cost_pos policy text : text ≠ [] → (0 < text_cost policy text)%N.
Proof.
  intros Ht. assert (0 < byte_len text)%N.
  { destruct (decide (byte_len text = 0)%N) as [E|]; [|lia]. by apply byte_len_0 in E. }
  destruct policy; simpl; [done|]. unfold approx_token_count, APPROX_BYTES_PER_TOKEN, usize_add, usize_sat, usize_max.
  apply N.div_str_pos. lia.
Qed.

#[local] Ltac give v :=
  exists v; eexists; split; [done|]; simpl; split_and!; rewrite ?app_nil_r, ?N.add_0_r;
  try done; try lia; auto; try (intros; split; [done|lia]).

(** One item: its verdict and what is left of the budget. *)
Lemma truncate_item_spec policy estimate st item :
  ∃ v st', truncate_item policy estimate st item = Some st'
    ∧ out st' = out st ++ option_list (shown item v)
    ∧ omitted_text_items st' = (omitted_text_items st + (if v is Omitted then if is_text item then 1 else 0 else 0))%N
    ∧ omitted_audio_items st' = (omitted_audio_items st + (if v is Omitted then if is_audio item then 1 else 0 else 0))%N
    ∧ fate policy (remaining_budget st) item v
    ∧ ((if v is Kept then item_cost policy estimate item else 0) + remaining_budget st' ≤ remaining_budget st)%N
    ∧ (is_text item = true → v = Kept ∨ remaining_budget st' = 0%N)
    ∧ (remaining_budget st = 0%N → is_text item = true → v = Omitted)
    ∧ ((item_cost policy estimate item ≤ remaining_budget st)%N → item ≠ OutputItem.InputText [] →
       v = Kept ∧ remaining_budget st' = (remaining_budget st - item_cost policy estimate item)%N).
Proof.
  destruct st as [o budget ot oa]. destruct item as [text|url d|url|e]; simpl.
  - case_decide as Hz.
    { give Omitted. intros Hc Hne. assert (text ≠ []) as Ht%(text_cost_pos policy) by naive_solver. lia. }
    case_decide as Hc; [by give Kept|].
    destruct (truncate_text_spec text (with_budget policy budget)) as (snippet & Hs & _). rewrite Hs. simpl.
    destruct (is_nil snippet); [by give Omitted|]. give (Cut snippet).
    exists budget. split_and!; [lia..|done].
  - by give Kept.
  - case_decide as Hc; [by give Kept|by give Omitted].
  - by give Kept.
Qed.

Lemma truncate_items_spec policy estimate items st :
  ∃ vs st', truncate_items policy estimate items st = Some st'
    ∧ out st' = out st ++ omap id (zip_with shown items vs)
    ∧ omitted_text_items st' = (omitted_text_items st + omitted is_text items vs)%N
    ∧ omitted_audio_items st' = (omitted_audio_items st + omitted is_audio items vs)%N
    ∧ Forall2 (fate policy (remaining_budget st)) items vs
    ∧ (kept_cost policy estimate items vs ≤ remaining_budget st)%N
    ∧ (remaining_budget st = 0%N → no_text items vs)
    ∧ texts_end items vs
    ∧ ((total_cost policy estimate items ≤ remaining_budget st)%N → no_empty_text items →
       vs = replicate (length items) Kept).
Proof.
  revert st. induction items as [|item items IH]; intros st; simpl.
  { exists [], st. split_and!; try done; rewrite ?app_nil_r; try done; simpl; unfold omitted, kept_cost, no_text; simpl; try lia; by constructor. }
  destruct (truncate_item_spec policy estimate st item)
    as (v & st1 & -> & Ho & Ht & Ha & Hf & Hc & Hcut & Hz & Hk). simpl.
  destruct (IH st1) as (vs & st2 & -> & Ho2 & Ht2 & Ha2 & Hf2 & Hc2 & Hz2 & He2 & Hk2).
  exists (v :: vs), st2. split_and!; [done| | | | | | | |done|].
  - rewrite Ho2, Ho, <- app_assoc. f_equal. by destruct (shown item v).
  - rewrite Ht2, Ht. unfold omitted. simpl. lia.
  - rewrite Ha2, Ha. unfold omitted. simpl. lia.
  - constructor; [done|]. eapply Forall2_impl; [done|]. intros i w. apply fate_mono. lia.
  - unfold kept_cost in *. simpl. lia.
  - intros Hz0. constructor; [by auto|]. apply Hz2. lia.
  - destruct (is_text item) eqn:Ei; [right|by left].
    destruct (Hcut eq_refl); auto.
  - intros Hle [Hi Hne]%Forall_cons. destruct Hk as [-> Hr]; [lia|done|]. f_equal. apply Hk2; [lia|done].
Qed.

(** What the whole list becomes. *)
Definition items_truncated (policy : TruncationPolicy) (estimate : str → N)
    (items : list OutputItem.t) (vs : list verdict) (result : list OutputItem.t) : Prop :=
  let budget := match policy with Bytes n => n | Tokens n => n end in
  result = omap id (zip_with shown items vs)
           ++ omission_note "text" (omitted is_text items vs)
           ++ omission_note "audio" (omitted is_audio items vs)
  ∧ Forall2 (fate policy budget) items vs
  ∧ (kept_cost policy estimate items vs ≤ budget)%N
  ∧ texts_end items vs
  ∧ ((total_cost policy estimate items ≤ budget)%N → no_empty_text items → result = items).

Lemma truncate_function_output_items_spec items policy estimate :
  ∃ vs result, truncate_function_output_items_with_policy items policy estimate = Some result
    ∧ items_truncated policy estimate items vs result.
Proof.
  unfold truncate_function_output_items_with_policy.
  destruct (truncate_items_spec policy estimate items
    (mkItems [] (match policy with Bytes _ => byte_budget policy | Tokens _ => token_budget policy end) 0 0))
    as (vs & st & -> & Ho & Ht & Ha & Hf & Hc & _ & He & Hk). simpl in *.
  eexists vs, _. split; [done|]. unfold items_truncated. rewrite Ho, Ht, Ha, !N.add_0_l.
  split_and!; [done|by destruct policy|by destruct policy|done|].
  intros Hle Hne. rewrite Hk by (by destruct policy).
  assert (∀ k, omitted k items (replicate (length items) Kept) = 0%N
               ∧ omap id (zip_with shown items (replicate (length items) Kept)) = items) as Hall.
  { clear. intros k. induction items as [|i items [IH1 IH2]]; [done|]. unfold omitted in *. simpl. split; [done|]. f_equal. exact IH2. }
  destruct (Hall is_text) as [-> ->]. destruct (Hall is_audio) as [-> _]. by rewrite !app_nil_r.
Qed.

(** C21: truncating a list of tool output items never panics and keeps to the
    budget.  Every item is kept, cut or left out: images and encrypted
    contents are always kept, only texts are cut, the items kept unchanged
    cost no more than the budget together, and after a text that was cut or
    left out no text is shown.  The order is kept, the notes at the end count
    the omitted texts and audios exactly, and if everything fits (and no text
    is empty) nothing is changed. *)
Theorem truncate_items_within_budget items policy estimate :
  ∃ vs result, truncate_function_output_items_with_policy items policy estimate = Some result
    ∧ items_truncated policy estimate items vs result.
Proof. apply truncate_function_output_items_spec. Qed.

(** Truncation keeps both ends and never panics: under a policy, a text
    within the budget is unchanged; a longer one becomes the longest prefix
    that fits half of the budget, a marker, and the longest suffix that fits
    the other half.  The cuts are on character boundaries, something is always
    removed, and the marker counts the removed characters exactly (under a
    byte policy) or the tokens over budget, four bytes each (under a token
    policy). *)
Theorem truncate_text_keeps_both_ends s policy :
  ∃ out, truncate_text s policy = Some out
    ∧ ((byte_len s ≤ byte_budget policy)%N → out = s)
    ∧ ((byte_budget policy < byte_len s)%N →
       truncated_to (byte_budget policy) (match policy with Bytes _ => false | Tokens _ => true end) s out).
Proof. apply truncate_text_spec. Qed.
