(* ===== verification/HistoryNormalize.v ===== *)
(** Normalisation of the conversation before it is sent to the model
    ([core/src/context_manager/normalize.rs]): every call of a tool gets an
    output, every output has its call, and contents the model cannot read are
    replaced.  [error_or_panic] panics in a debug build and logs in a release
    build: the definitions are for both, with [None] for the panic. *)

From S2P Require Import Prelude Text ResponseItems.

(** * The code *)

Definition IMAGE_CONTENT_OMITTED_PLACEHOLDER : str :=
  lit "image content omitted because you do not support image input".
Definition AUDIO_CONTENT_OMITTED_PLACEHOLDER : str :=
  lit "audio content omitted because you do not support audio input".

Section code.
Context {J : Type}.
(** [cfg!(debug_assertions)], and [Uuid::new_v5] in the namespace of the module. *)
Variables (debug : bool) (uuid_v5 : str → str).
Implicit Types (item : ResponseItem J) (items : list (ResponseItem J)).

(** The ids of the outputs, by kind. *)
Definition function_output_id item : option str :=
  match item with FunctionCallOutput _ call_id _ _ => Some call_id | _ => None end.
Definition tool_search_output_id item : option str :=
  match item with ToolSearchOutput _ call_id _ _ _ _ => call_id | _ => None end.
Definition custom_tool_output_id item : option str :=
  match item with CustomToolCallOutput _ call_id _ _ _ => Some call_id | _ => None end.

(** The ids of the calls, by kind. *)
Definition function_call_id item : option str :=
  match item with FunctionCall _ _ _ _ call_id _ => Some call_id | _ => None end.
Definition tool_search_call_id item : option str :=
  match item with ToolSearchCall _ call_id _ _ _ _ => call_id | _ => None end.
Definition local_shell_call_id item : option str :=
  match item with LocalShellCall _ call_id _ _ _ => call_id | _ => None end.
Definition custom_tool_call_id item : option str :=
  match item with CustomToolCall _ _ call_id _ _ _ _ => Some call_id | _ => None end.

(** The [HashSet] of the ids that [f] finds. *)
Definition ids_of (f : ResponseItem J → option str) items : gset str := list_to_set (omap f items).

Definition synthetic_output_id (prefix : str) (item_id : option str) : option str :=
  match item_id with
  | Some source_id =>
      if is_nil source_id then None
      else Some (prefix ++ lit "_" ++ uuid_v5 (prefix ++ lit ":" ++ source_id))
  | None => None
  end.

(** [error_or_panic(..); k] *)
Definition error_or_panic {A} (k : A) : option A := if debug then None else Some k.

Definition aborted_output (id : option str) (call_id : str) : ResponseItem J :=
  FunctionCallOutput (synthetic_output_id (lit "fco") id) call_id (from_text (lit "aborted")) None.

(** The output an item is missing, if any. *)
Definition missing_output (functions searches customs : gset str) item : option (option (ResponseItem J)) :=
  match item with
  | FunctionCall id _ _ _ call_id _ =>
      Some (if decide (call_id ∈ functions) then None else Some (aborted_output id call_id))
  | ToolSearchCall id (Some call_id) _ _ _ _ =>
      Some (if decide (call_id ∈ searches) then None
            else Some (ToolSearchOutput (synthetic_output_id (lit "tso") id) (Some call_id)
                         (lit "completed") (lit "client") [] None))
  | CustomToolCall id _ call_id _ _ _ _ =>
      if decide (call_id ∈ customs) then Some None
      else error_or_panic
             (Some (CustomToolCallOutput (synthetic_output_id (lit "ctco") id) call_id None
                      (from_text (lit "aborted")) None))
  | LocalShellCall id (Some call_id) _ _ _ =>
      if decide (call_id ∈ functions) then Some None
      else error_or_panic (Some (aborted_output id call_id))
  | _ => Some None
  end.

(** The loop that collects the missing outputs with the position of their call. *)
Fixpoint missing_outputs (functions searches customs : gset str) (idx : nat) items :
    option (list (nat * ResponseItem J)) :=
  match items with
  | [] => Some []
  | item :: items =>
      o ← missing_output functions searches customs item;
      rest ← missing_outputs functions searches customs (S idx) items;
      Some (match o with Some output => (idx, output) :: rest | None => rest end)
  end.

(** The insertions, from the last one to the first. *)
Fixpoint insert_outputs (missing : list (nat * ResponseItem J)) items : option (list (ResponseItem J)) :=
  match missing with
  | [] => Some items
  | (idx, output) :: missing => insert_outputs missing items ≫= vec_insert (idx + 1) output
  end.

Definition ensure_call_outputs_present items : option (list (ResponseItem J)) :=
  missing ← missing_outputs (ids_of function_output_id items) (ids_of tool_search_output_id items)
              (ids_of custom_tool_output_id items) 0 items;
  insert_outputs missing items.

(** Whether [retain] keeps an item of the whole history [items]. *)
Definition has_match items item : bool :=
  match item with
  | FunctionCallOutput _ call_id _ _ =>
      bool_decide (call_id ∈ ids_of function_call_id items)
      || bool_decide (call_id ∈ ids_of local_shell_call_id items)
  | CustomToolCallOutput _ call_id _ _ _ => bool_decide (call_id ∈ ids_of custom_tool_call_id items)
  | ToolSearchOutput _ (Some call_id) _ execution _ _ =>
      bool_decide (execution = lit "server") || bool_decide (call_id ∈ ids_of tool_search_call_id items)
  | _ => true
  end.

Fixpoint retain_matched items (todo : list (ResponseItem J)) : option (list (ResponseItem J)) :=
  match todo with
  | [] => Some []
  | item :: todo =>
      if has_match items item then rest ← retain_matched items todo; Some (item :: rest)
      else _ ← error_or_panic (); retain_matched items todo
  end.

Definition remove_orphan_outputs items : option (list (ResponseItem J)) := retain_matched items items.

(** [remove_first_matching] *)
Fixpoint remove_first_matching (p : ResponseItem J → bool) items : list (ResponseItem J) :=
  match items with
  | [] => []
  | item :: items => if p item then items else item :: remove_first_matching p items
  end.

Definition has_id (f : ResponseItem J → option str) (id : str) item : bool :=
  bool_decide (f item = Some id).

Definition remove_corresponding_for items item : list (ResponseItem J) :=
  match item with
  | FunctionCall _ _ _ _ call_id _ => remove_first_matching (has_id function_output_id call_id) items
  | FunctionCallOutput _ call_id _ _ =>
      if existsb (has_id function_call_id call_id) items
      then remove_first_matching (has_id function_call_id call_id) items
      else if existsb (has_id local_shell_call_id call_id) items
      then remove_first_matching (has_id local_shell_call_id call_id) items
      else items
  | ToolSearchCall _ (Some call_id) _ _ _ _ =>
      remove_first_matching (has_id tool_search_output_id call_id) items
  | ToolSearchOutput _ (Some call_id) _ _ _ _ =>
      remove_first_matching (has_id tool_search_call_id call_id) items
  | CustomToolCall _ _ call_id _ _ _ _ =>
      remove_first_matching (has_id custom_tool_output_id call_id) items
  | CustomToolCallOutput _ call_id _ _ _ =>
      remove_first_matching (has_id custom_tool_call_id call_id) items
  | LocalShellCall _ (Some call_id) _ _ _ =>
      remove_first_matching (has_id function_output_id call_id) items
  | _ => items
  end.

Definition strip_image (c : Content.t) : Content.t :=
  match c with
  | Content.InputImage _ _ => Content.InputText IMAGE_CONTENT_OMITTED_PLACEHOLDER
  | c => c
  end.
Definition strip_output_image (c : OutputItem.t) : OutputItem.t :=
  match c with
  | OutputItem.InputImage _ _ => OutputItem.InputText IMAGE_CONTENT_OMITTED_PLACEHOLDER
  | c => c
  end.
Definition strip_audio (c : Content.t) : Content.t :=
  match c with
  | Content.InputAudio _ => Content.InputText AUDIO_CONTENT_OMITTED_PLACEHOLDER
  | c => c
  end.
Definition strip_output_audio (c : OutputItem.t) : OutputItem.t :=
  match c with
  | OutputItem.InputAudio _ => OutputItem.InputText AUDIO_CONTENT_OMITTED_PLACEHOLDER
  | c => c
  end.

(** [content_items_mut]: texts are left alone. *)
Definition map_content_items (f : OutputItem.t → OutputItem.t) (p : FunctionCallOutputPayload) :
    FunctionCallOutputPayload :=
  match body p with
  | Text _ => p
  | ContentItems contents => mkPayload (ContentItems (f <$> contents)) (success p)
  end.

Definition strip_item_images item : ResponseItem J :=
  match item with
  | Message id role content phase meta => Message id role (strip_image <$> content) phase meta
  | FunctionCallOutput id call_id output meta =>
      FunctionCallOutput id call_id (map_content_items strip_output_image output) meta
  | CustomToolCallOutput id call_id name output meta =>
      CustomToolCallOutput id call_id name (map_content_items strip_output_image output) meta
  | ImageGenerationCall id status revised_prompt _ meta =>
      ImageGenerationCall id status revised_prompt [] meta
  | item => item
  end.
Definition strip_item_audio item : ResponseItem J :=
  match item with
  | Message id role content phase meta => Message id role (strip_audio <$> content) phase meta
  | FunctionCallOutput id call_id output meta =>
      FunctionCallOutput id call_id (map_content_items strip_output_audio output) meta
  | CustomToolCallOutput id call_id name output meta =>
      CustomToolCallOutput id call_id name (map_content_items strip_output_audio output) meta
  | item => item
  end.

Definition strip_images_when_unsupported (input_modalities : list InputModality) items :
    list (ResponseItem J) :=
  if decide (ImageInput ∈ input_modalities) then items else strip_item_images <$> items.
Definition strip_audio_when_unsupported (input_modalities : list InputModality) items :
    list (ResponseItem J) :=
  if decide (AudioInput ∈ input_modalities) then items else strip_item_audio <$> items.

(** [ContextManager::normalize_history] on the items. *)
Definition normalize_history (input_modalities : list InputModality) items : option (list (ResponseItem J)) :=
  items ← ensure_call_outputs_present items;
  items ← remove_orphan_outputs items;
  Some (strip_audio_when_unsupported input_modalities (strip_images_when_unsupported input_modalities items)).
End code.

(** * Calls and outputs *)

(** A call and its output carry the same key; a local shell call is answered
    by the output of a function call. *)
Inductive tool_kind := FunctionTool | SearchTool | CustomTool.

#[export] Instance tool_kind_eq_dec : EqDecision tool_kind.
Proof. solve_decision. Defined.

Section pairing.
Context {J : Type}.
Implicit Types (item c o : ResponseItem J) (items : list (ResponseItem J)) (k : tool_kind * str).

Definition call_key item : option (tool_kind * str) :=
  match item with
  | FunctionCall _ _ _ _ call_id _ => Some (FunctionTool, call_id)
  | LocalShellCall _ call_id _ _ _ => pair FunctionTool <$> call_id
  | ToolSearchCall _ call_id _ _ _ _ => pair SearchTool <$> call_id
  | CustomToolCall _ _ call_id _ _ _ _ => Some (CustomTool, call_id)
  | _ => None
  end.

Definition output_key item : option (tool_kind * str) :=
  match item with
  | FunctionCallOutput _ call_id _ _ => Some (FunctionTool, call_id)
  | ToolSearchOutput _ call_id _ _ _ _ => pair SearchTool <$> call_id
  | CustomToolCallOutput _ call_id _ _ _ => Some (CustomTool, call_id)
  | _ => None
  end.

(** Outputs of searches the server ran need no call. *)
Definition server_output item : bool :=
  match item with ToolSearchOutput _ _ _ execution _ _ => bool_decide (execution = lit "server") | _ => false end.

(** A call without any output, and an output without any call. *)
Definition unanswered items item : bool :=
  match call_key item with Some k => negb (bool_decide (k ∈ omap output_key items)) | None => false end.
Definition orphan items item : bool :=
  match output_key item with
  | Some k => negb (server_output item) && negb (bool_decide (k ∈ omap call_key items))
  | None => false
  end.

Definition paired items : Prop :=
  Forall (λ item, unanswered items item = false) items ∧ Forall (λ item, orphan items item = false) items.

(** In a debug build these calls may not lack their output. *)
Definition strict_call item : bool :=
  match item with CustomToolCall _ _ _ _ _ _ _ | LocalShellCall _ _ _ _ _ => true | _ => false end.

Lemma elem_of_ids_of (f : ResponseItem J → option str) items id :
  id ∈ ids_of f items ↔ ∃ item, item ∈ items ∧ f item = Some id.
Proof. unfold ids_of. by rewrite elem_of_list_to_set, list_elem_of_omap. Qed.

Lemma function_outputs items id :
  id ∈ ids_of function_output_id items ↔ (FunctionTool, id) ∈ omap output_key items.
Proof.
  rewrite elem_of_ids_of, list_elem_of_omap. f_equiv. intros item.
  destruct item as [| | | | | | | | | |? [?|]| | | | | |]; simpl; naive_solver.
Qed.
Lemma search_outputs items id :
  id ∈ ids_of tool_search_output_id items ↔ (SearchTool, id) ∈ omap output_key items.
Proof.
  rewrite elem_of_ids_of, list_elem_of_omap. f_equiv. intros item.
  destruct item as [| | | | | | | | | |? [?|]| | | | | |]; simpl; naive_solver.
Qed.
Lemma custom_outputs items id :
  id ∈ ids_of custom_tool_output_id items ↔ (CustomTool, id) ∈ omap output_key items.
Proof.
  rewrite elem_of_ids_of, list_elem_of_omap. f_equiv. intros item.
  destruct item as [| | | | | | | | | |? [?|]| | | | | |]; simpl; naive_solver.
Qed.
Lemma function_calls items id :
  (id ∈ ids_of function_call_id items ∨ id ∈ ids_of local_shell_call_id items)
  ↔ (FunctionTool, id) ∈ omap call_key items.
Proof.
  rewrite !elem_of_ids_of, list_elem_of_omap. split.
  - intros [(i & Hi & E)|(i & Hi & E)]; exists i; (split; [done|]);
      destruct i as [| | | |? [?|]| | | | | | | | | | | |]; naive_solver.
  - intros (i & Hi & E). destruct i as [| | | |? [?|]| |? [?|]| | | | | | | | | |]; simplify_eq/=;
      [right|left]; by eexists.
Qed.
Lemma search_calls items id :
  id ∈ ids_of tool_search_call_id items ↔ (SearchTool, id) ∈ omap call_key items.
Proof.
  rewrite elem_of_ids_of, list_elem_of_omap. f_equiv. intros item.
  destruct item as [| | | |? [?|]| |? [?|]| | | | | | | | | |]; simpl; naive_solver.
Qed.
Lemma custom_calls items id :
  id ∈ ids_of custom_tool_call_id items ↔ (CustomTool, id) ∈ omap call_key items.
Proof.
  rewrite elem_of_ids_of, list_elem_of_omap. f_equiv. intros item.
  destruct item as [| | | |? [?|]| |? [?|]| | | | | | | | | |]; simpl; naive_solver.
Qed.

(** [retain] removes exactly the orphans. *)
Lemma has_match_orphan items item : has_match items item = negb (orphan items item).
Proof.
  destruct item as [| | | | | | |? id| |? id|? [id|]| | | | | |]; simpl; try done; unfold orphan; simpl.
  - rewrite <- bool_decide_or. rewrite (bool_decide_ext _ _ (function_calls items id)).
    by destruct (bool_decide _).
  - rewrite (bool_decide_ext _ _ (custom_calls items id)). by destruct (bool_decide _).
  - rewrite (bool_decide_ext _ _ (search_calls items id)). by do 2 destruct (bool_decide _).
Qed.

Section ensure.
Variables (debug : bool) (uuid_v5 : str → str).

(** [missing_output] with the ids of the outputs of [items]. *)
Definition missing items item : option (option (ResponseItem J)) :=
  missing_output debug uuid_v5 (ids_of function_output_id items)
    (ids_of tool_search_output_id items) (ids_of custom_tool_output_id items) item.

(** The output the code makes up for a call. *)
Definition answer items item : option (ResponseItem J) :=
  match missing items item with Some o => o | None => None end.

Lemma missing_spec items item :
  (unanswered items item = false → missing items item = Some None)
  ∧ (unanswered items item = true →
     if debug && strict_call item then missing items item = None
     else ∃ o, missing items item = Some (Some o) ∧ output_key o = call_key item
               ∧ call_key o = None ∧ server_output o = false).
Proof.
  unfold unanswered, missing, missing_output, error_or_panic.
  destruct item as [| | | |? [id|]|????id| ? [id|]| |??id| | | | | | | |]; simpl; try (by split);
    (case_decide as Hd; [apply function_outputs in Hd || apply search_outputs in Hd || apply custom_outputs in Hd
                        |rewrite function_outputs in Hd || rewrite search_outputs in Hd || rewrite custom_outputs in Hd]);
    rewrite ?bool_decide_true, ?bool_decide_false by done; simpl; (split; [done|]); try done; intros _;
    destruct debug; simpl; by eauto.
Qed.

Lemma missing_outputs_spec items todo idx :
  match missing_outputs debug uuid_v5 (ids_of function_output_id items) (ids_of tool_search_output_id items)
          (ids_of custom_tool_output_id items) idx todo with
  | Some ms => Forall (λ item, missing items item ≠ None) todo
      ∧ ∀ pre, length pre = idx →
          insert_outputs ms (pre ++ todo) = Some (pre ++ (todo ≫= λ item, item :: option_list (answer items item)))
  | None => Exists (λ item, missing items item = None) todo
  end.
Proof.
  revert idx. induction todo as [|item todo IH]; intros idx; simpl.
  { split; [done|]. by intros pre _. }
  fold (missing items item). specialize (IH (S idx)).
  destruct (missing items item) as [o|] eqn:Em; simpl; [|by left].
  destruct (missing_outputs _ _ _ _ _ _ _) as [ms|]; simpl; [|by right].
  destruct IH as [IH1 IH2]. split; [by constructor; [rewrite Em|]|]. intros pre <-.
  assert (answer items item = o) as Ha by (unfold answer; by rewrite Em). rewrite Ha.
  specialize (IH2 (pre ++ [item])). rewrite <- !app_assoc in IH2. simpl in IH2.
  rewrite length_app in IH2. simpl in IH2. specialize (IH2 ltac:(lia)).
  destruct o as [o|]; simpl; [|done]. rewrite IH2. simpl.
  unfold vec_insert. rewrite length_app. simpl. rewrite decide_True by lia.
  rewrite take_app_add, drop_app_add. simpl. by rewrite <- app_assoc.
Qed.

(** The history with the missing outputs put in. *)
Definition completed items : list (ResponseItem J) := items ≫= λ item, item :: option_list (answer items item).

Lemma ensure_spec items :
  match ensure_call_outputs_present debug uuid_v5 items with
  | Some items' => Forall (λ item, missing items item ≠ None) items ∧ items' = completed items
  | None => Exists (λ item, missing items item = None) items
  end.
Proof.
  unfold ensure_call_outputs_present. pose proof (missing_outputs_spec items items 0) as Hm.
  destruct (missing_outputs _ _ _ _ _ _ _) as [ms|]; [|done]. simpl.
  destruct Hm as [Hf Hm]. specialize (Hm [] eq_refl). simpl in Hm. by rewrite Hm.
Qed.

Lemma retain_spec items todo :
  match retain_matched debug items todo with
  | Some items' => items' = filter (λ item, orphan items item = false) todo
      ∧ (debug = true → Forall (λ item, orphan items item = false) todo)
  | None => debug = true ∧ Exists (λ item, orphan items item = true) todo
  end.
Proof.
  induction todo as [|item todo IH]; simpl; [by split|].
  rewrite has_match_orphan, filter_cons. destruct (orphan items item) eqn:Eo; simpl.
  - unfold error_or_panic. destruct debug; simpl; [split; [done|by left]|].
    destruct (retain_matched _ _ _); [|naive_solver]. by destruct IH as [-> _].
  - destruct (retain_matched _ _ _); simpl.
    + destruct IH as [-> IH]. split; [done|]. intros ?. constructor; auto.
    + destruct IH. split; [done|]. by right.
Qed.

Lemma answer_spec items item :
  missing items item ≠ None →
  match answer items item with
  | Some o => unanswered items item = true ∧ output_key o = call_key item
              ∧ call_key o = None ∧ server_output o = false
  | None => unanswered items item = false
  end.
Proof.
  intros Hm. destruct (missing_spec items item) as [H1 H2]. unfold answer.
  destruct (unanswered items item); [|by rewrite H1].
  destruct (debug && strict_call item); [by rewrite H2 in Hm|].
  by destruct H2 as (o & -> & ?).
Qed.

(** ** The completed history *)

Lemma elem_of_completed items item :
  item ∈ completed items ↔ item ∈ items ∨ ∃ c, c ∈ items ∧ answer items c = Some item.
Proof.
  unfold completed. rewrite list_elem_of_bind. setoid_rewrite elem_of_cons.
  setoid_rewrite elem_of_option_list. naive_solver.
Qed.

Lemma completed_call_keys items k :
  Forall (λ item, missing items item ≠ None) items →
  k ∈ omap call_key (completed items) ↔ k ∈ omap call_key items.
Proof.
  intros Hm. rewrite !list_elem_of_omap. setoid_rewrite elem_of_completed. split.
  - intros (c & [?|(c' & Hc' & Ha)] & Hk); [by eauto|].
    rewrite Forall_forall in Hm. specialize (Hm c' Hc'). apply answer_spec in Hm.
    rewrite Ha in Hm. destruct Hm as (_ & _ & Hn & _). congruence.
  - naive_solver.
Qed.

Lemma completed_output_keys items k :
  Forall (λ item, missing items item ≠ None) items →
  k ∈ omap call_key items → k ∈ omap output_key (completed items).
Proof.
  intros Hm Hk. rewrite Forall_forall in Hm. apply list_elem_of_omap in Hk as (c & Hc & Hk).
  specialize (Hm c Hc). apply answer_spec in Hm. apply list_elem_of_omap.
  setoid_rewrite elem_of_completed. destruct (answer items c) as [o|] eqn:Ea.
  - exists o. split; [by eauto|]. destruct Hm as (_ & -> & _). done.
  - unfold unanswered in Hm. rewrite Hk in Hm. apply negb_false_iff, bool_decide_eq_true in Hm.
    apply list_elem_of_omap in Hm as (o & ? & ?). by eauto.
Qed.

Lemma completed_orphan items item :
  Forall (λ item, missing items item ≠ None) items → orphan (completed items) item = orphan items item.
Proof.
  intros Hm. unfold orphan. destruct (output_key item) as [k|]; [|done].
  by rewrite (bool_decide_ext _ _ (completed_call_keys items k Hm)).
Qed.

(** Without orphans the completed history is paired. *)
Lemma completed_paired items :
  Forall (λ item, missing items item ≠ None) items →
  paired (filter (λ item, orphan items item = false) (completed items)).
Proof.
  intros Hm. set (l := filter _ _).
  assert (∀ k, k ∈ omap call_key l ↔ k ∈ omap call_key items) as Hcalls.
  { intros k. rewrite <- (completed_call_keys items k Hm), !list_elem_of_omap. unfold l.
    setoid_rewrite list_elem_of_filter. split; [naive_solver|]. intros (c & Hc & Hk). exists c.
    split; [|done]. split; [|done]. unfold orphan.
    by destruct c as [| | | |? [?|]| |? [?|]| | | | | | | | | |]. }
  split; apply Forall_forall; intros item [Ho Hi]%list_elem_of_filter.
  - unfold unanswered. destruct (call_key item) as [k|] eqn:Ek; [|done].
    apply negb_false_iff, bool_decide_eq_true.
    assert (k ∈ omap call_key items) as Hk.
    { apply (completed_call_keys items k Hm), list_elem_of_omap. by eauto. }
    pose proof (completed_output_keys items k Hm Hk) as (o & Hc & Hok)%list_elem_of_omap.
    apply list_elem_of_omap. exists o. split; [|done]. unfold l. apply list_elem_of_filter.
    split; [|done]. unfold orphan. rewrite Hok, bool_decide_true by done. by rewrite andb_false_r.
  - unfold orphan in *. destruct (output_key item) as [k|]; [|done].
    by rewrite (bool_decide_ext _ _ (Hcalls k)).
Qed.

Lemma paired_missing items :
  paired items → Forall (λ item, missing items item = Some None) items.
Proof. intros [Hu _]. eapply Forall_impl; [done|]. intros item. apply missing_spec. Qed.

Lemma paired_completed items : paired items → completed items = items.
Proof.
  intros Hp%paired_missing. unfold completed.
  assert (∀ todo, Forall (λ item, missing items item = Some None) todo →
    todo ≫= (λ item, item :: option_list (answer items item)) = todo) as H; [|by apply H].
  intros todo. induction 1 as [|i todo Hi _ IH]; [done|]. simpl. unfold answer. rewrite Hi. simpl.
  f_equal. exact IH.
Qed.

Lemma filter_all_false items todo :
  Forall (λ item, orphan items item = false) todo → filter (λ item, orphan items item = false) todo = todo.
Proof. induction 1 as [|i todo Hi _ IH]; [done|]. by rewrite filter_cons_True, IH. Qed.
End ensure.
End pairing.

(** * Contents the model cannot read *)

Definition is_image (c : Content.t) : bool := match c with Content.InputImage _ _ => true | _ => false end.
Definition is_output_image (c : OutputItem.t) : bool :=
  match c with OutputItem.InputImage _ _ => true | _ => false end.
Definition is_audio_content (c : Content.t) : bool :=
  match c with Content.InputAudio _ => true | _ => false end.
Definition is_output_audio (c : OutputItem.t) : bool :=
  match c with OutputItem.InputAudio _ => true | _ => false end.

Definition some_content (p : OutputItem.t → bool) (payload : FunctionCallOutputPayload) : bool :=
  match body payload with Text _ => false | ContentItems contents => existsb p contents end.

Section contents.
Context {J : Type}.
Implicit Types (item : ResponseItem J) (items : list (ResponseItem J)).

Definition shows_image item : bool :=
  match item with
  | Message _ _ content _ _ => existsb is_image content
  | FunctionCallOutput _ _ output _ | CustomToolCallOutput _ _ _ output _ => some_content is_output_image output
  | ImageGenerationCall _ _ _ result _ => negb (is_nil result)
  | _ => false
  end.
Definition plays_audio item : bool :=
  match item with
  | Message _ _ content _ _ => existsb is_audio_content content
  | FunctionCallOutput _ _ output _ | CustomToolCallOutput _ _ _ output _ => some_content is_output_audio output
  | _ => false
  end.

(** What is left of an item for a model with the given modalities. *)
Definition readable (mods : list InputModality) item : ResponseItem J :=
  let item := if decide (ImageInput ∈ mods) then item else strip_item_images item in
  if decide (AudioInput ∈ mods) then item else strip_item_audio item.

Lemma strip_is_readable mods items :
  strip_audio_when_unsupported mods (strip_images_when_unsupported mods items) = readable mods <$> items.
Proof.
  unfold strip_audio_when_unsupported, strip_images_when_unsupported, readable.
  repeat case_decide; rewrite <- ?list_fmap_compose; try done; by rewrite list_fmap_id.
Qed.

Lemma map_content_items_id f g p :
  (∀ c, f (g c) = g c) → map_content_items f (map_content_items g p) = map_content_items g p.
Proof.
  intros Hf. destruct p as [[t|cs] s]; [done|]. unfold map_content_items. simpl. do 2 f_equal.
  induction cs as [|c cs IH]; [done|]. csimpl. by rewrite Hf, IH.
Qed.

Lemma map_contents_id (f g : Content.t → Content.t) (cs : list Content.t) : (∀ c, f (g c) = g c) → f <$> (g <$> cs) = g <$> cs.
Proof. intros Hf. induction cs as [|c cs IH]; [done|]. csimpl. by rewrite Hf, IH. Qed.

Lemma map_contents_comm (f g : Content.t → Content.t) (cs : list Content.t) :
  (∀ c, f (g c) = g (f c)) → f <$> (g <$> cs) = g <$> (f <$> cs).
Proof. intros Hf. induction cs as [|c cs IH]; [done|]. csimpl. by rewrite Hf, IH. Qed.

Lemma map_content_items_comm f g p :
  (∀ c, f (g c) = g (f c)) → map_content_items f (map_content_items g p) = map_content_items g (map_content_items f p).
Proof.
  intros Hf. destruct p as [[t|cs] s]; [done|]. unfold map_content_items. simpl. do 2 f_equal.
  induction cs as [|c cs IH]; [done|]. csimpl. by rewrite Hf, IH.
Qed.

Lemma strip_images_idem item : strip_item_images (strip_item_images item) = strip_item_images item.
Proof. destruct item; simpl; try done; f_equal; (apply map_contents_id || apply map_content_items_id); by intros []. Qed.
Lemma strip_audio_idem item : strip_item_audio (strip_item_audio item) = strip_item_audio item.
Proof. destruct item; simpl; try done; f_equal; (apply map_contents_id || apply map_content_items_id); by intros []. Qed.
Lemma strip_comm item : strip_item_images (strip_item_audio item) = strip_item_audio (strip_item_images item).
Proof. destruct item; simpl; try done; f_equal; (apply map_contents_comm || apply map_content_items_comm); by intros []. Qed.

Lemma readable_idem mods item : readable mods (readable mods item) = readable mods item.
Proof.
  unfold readable. repeat case_decide; try done.
  - apply strip_images_idem.
  - apply strip_audio_idem.
  - by rewrite strip_comm, strip_images_idem, strip_audio_idem.
Qed.

Lemma readable_no_image mods item : ImageInput ∉ mods → shows_image (readable mods item) = false.
Proof.
  intros Hm. unfold readable. rewrite (decide_False (P := ImageInput ∈ mods)) by done.
  assert (∀ item, shows_image (strip_item_images item) = false) as Hs.
  { clear. intros item. destruct item as [| |  | | | | |? ? [[]]| |? ? ? [[]]| | | | | | |]; simpl; try done;
      apply not_true_iff_false; intros (c & Hc & Hi)%existsb_exists; apply in_map_iff in Hc as (? & <- & _); by destruct x. }
  case_decide; [done|]. rewrite <- strip_comm. apply Hs.
Qed.

Lemma readable_no_audio mods item : AudioInput ∉ mods → plays_audio (readable mods item) = false.
Proof.
  intros Hm. unfold readable. rewrite (decide_False (P := AudioInput ∈ mods)) by done.
  generalize (if decide (ImageInput ∈ mods) then item else strip_item_images item). clear item. intros item.
  destruct item as [| |  | | | | |? ? [[]]| |? ? ? [[]]| | | | | | |]; simpl; try done;
    apply not_true_iff_false; intros (c & Hc & Hi)%existsb_exists; apply in_map_iff in Hc as (? & <- & _); by destruct x.
Qed.

Lemma readable_keys mods item :
  call_key (readable mods item) = call_key item ∧ output_key (readable mods item) = output_key item
  ∧ server_output (readable mods item) = server_output item.
Proof. unfold readable. repeat case_decide; by destruct item. Qed.

Lemma omap_readable mods items :
  omap call_key (readable mods <$> items) = omap call_key items
  ∧ omap output_key (readable mods <$> items) = omap output_key items.
Proof.
  induction items as [|i items [IH1 IH2]]; [done|]. csimpl.
  destruct (readable_keys mods i) as (-> & -> & _). by rewrite IH1, IH2.
Qed.

Lemma readable_paired mods items : paired items → paired (readable mods <$> items).
Proof.
  intros [Hu Ho].
  split; apply Forall_fmap; [apply (Forall_impl _ _ _ Hu)|apply (Forall_impl _ _ _ Ho)]; intros i; simpl;
    unfold unanswered, orphan; destruct (omap_readable mods items) as [E1 E2];
    destruct (readable_keys mods i) as (K1 & K2 & K3); by rewrite ?E1, ?E2, ?K1, ?K2, ?K3.
Qed.
End contents.

(** * Properties *)

Section properties.
Context {J : Type} (uuid_v5 : str → str).
Implicit Types (items out : list (ResponseItem J)).

(** An answer is no orphan. *)
Lemma orphan_not_added debug items item :
  Forall (λ item, missing debug uuid_v5 items item ≠ None) items →
  item ∈ completed debug uuid_v5 items → orphan items item = true → item ∈ items.
Proof.
  intros Hm Hi Ho. apply elem_of_completed in Hi as [?|(c & Hc & Ha)]; [done|].
  rewrite Forall_forall in Hm. pose proof (answer_spec _ _ _ _ (Hm c Hc)) as Hs. rewrite Ha in Hs.
  destruct Hs as (Hu & Hk & _). unfold unanswered, orphan in *. rewrite Hk in Ho.
  destruct (call_key c) as [k|] eqn:Ek; [|done]. rewrite bool_decide_true in Ho; [by rewrite andb_false_r in Ho|].
  apply list_elem_of_omap. by exists c.
Qed.

(** Normalising, step by step. *)
Lemma normalize_cases debug mods items :
  match normalize_history debug uuid_v5 mods items with
  | Some out =>
      Forall (λ item, missing debug uuid_v5 items item ≠ None) items
      ∧ (debug = true → Forall (λ item, orphan items item = false) items)
      ∧ out = readable mods <$> filter (λ item, orphan items item = false) (completed debug uuid_v5 items)
  | None =>
      Exists (λ item, missing debug uuid_v5 items item = None) items
      ∨ debug = true ∧ Exists (λ item, orphan items item = true) items
  end.
Proof.
  unfold normalize_history, remove_orphan_outputs. pose proof (ensure_spec debug uuid_v5 items) as He.
  destruct (ensure_call_outputs_present _ _ items) as [items'|]; simpl; [|by left]. destruct He as [Hm ->].
  set (l := completed debug uuid_v5 items). pose proof (retain_spec debug l l) as Hr.
  assert (∀ i, orphan l i = orphan items i) as Ho by (intros; by apply completed_orphan).
  destruct (retain_matched _ _ _) as [kept|]; simpl.
  - destruct Hr as [-> Hd]. split_and!; [done| |].
    + intros Hdebug. apply Forall_forall. intros i Hi. rewrite <- Ho. specialize (Hd Hdebug).
      rewrite Forall_forall in Hd. apply Hd, elem_of_completed. by left.
    + rewrite strip_is_readable. f_equal. apply list_filter_iff. intros i. by rewrite Ho.
  - right. destruct Hr as [? (i & Hi & Hor)%Exists_exists]. split; [done|]. rewrite Ho in Hor.
    apply Exists_exists. exists i. split; [|done]. by eapply orphan_not_added.
Qed.

Lemma normalize_paired debug mods items :
  paired items → normalize_history debug uuid_v5 mods items = Some (readable mods <$> items).
Proof.
  intros Hp. pose proof (normalize_cases debug mods items) as Hc.
  pose proof (paired_missing debug uuid_v5 _ Hp) as Hm.
  destruct (normalize_history _ _ _ _) as [out|].
  - destruct Hc as (_ & _ & ->). rewrite paired_completed, filter_all_false by apply Hp. done.
  - exfalso. destruct Hc as [(i & Hi & Hn)%Exists_exists|[_ (i & Hi & Hn)%Exists_exists]].
    + rewrite Forall_forall in Hm. by rewrite Hm in Hn.
    + destruct Hp as [_ Hp]. rewrite Forall_forall in Hp. by rewrite Hp in Hn.
Qed.

(** In a release build no call stops the code, and in a debug build a call that
    does not stop it gets the same answer. *)
Lemma missing_release items item : missing false uuid_v5 items item ≠ None.
Proof.
  destruct (missing_spec false uuid_v5 items item) as [H1 H2].
  destruct (unanswered items item); [|by rewrite H1]. simpl in H2. by destruct H2 as (o & -> & _).
Qed.

Lemma missing_debug items item :
  missing true uuid_v5 items item
  = if strict_call item && unanswered items item then None else missing false uuid_v5 items item.
Proof.
  destruct (missing_spec true uuid_v5 items item) as [H1 H2], (missing_spec false uuid_v5 items item) as [H3 _].
  destruct (unanswered items item); [|by rewrite andb_false_r, H1, H3].
  rewrite andb_true_r. specialize (H2 eq_refl). simpl in H2. destruct (strict_call item) eqn:E; [done|].
  by destruct item as [| | | |? [?|]| |? [?|]| | | | | | | | | |].
Qed.

(** An answer is no orphan, and an orphan gets no answer. *)
Lemma filter_completed items todo :
  todo ⊆ items →
  filter (λ item, orphan items item = false)
    (todo ≫= λ item, item :: option_list (answer false uuid_v5 items item))
  = todo ≫= λ item, if orphan items item then [] else item :: option_list (answer false uuid_v5 items item).
Proof.
  induction todo as [|c todo IH]; [done|]. intros Hsub. rewrite !bind_cons, filter_app, IH by set_solver. f_equal.
  pose proof (answer_spec false uuid_v5 items c (missing_release items c)) as Ha.
  destruct (answer false uuid_v5 items c) as [o|]; simpl.
  - destruct Ha as (Hu & Ho & _). unfold unanswered in Hu. destruct (call_key c) as [k|] eqn:Ek; [|done].
    assert (orphan items c = false) as Hc.
    { unfold orphan. by destruct c as [| | | |? [?|]| |? [?|]| | | | | | | | | |]. }
    assert (orphan items o = false) as Hoo.
    { unfold orphan. rewrite Ho, bool_decide_true; [by rewrite andb_false_r|].
      apply list_elem_of_omap. exists c. split; [|done]. set_solver. }
    by rewrite Hc, !filter_cons_True.
  - rewrite filter_cons. case_decide as Hd; [by rewrite Hd|]. by destruct (orphan items c).
Qed.

(** The whole of [normalize_history]. *)
Lemma normalize_release mods items :
  normalize_history false uuid_v5 mods items
  = Some (readable mods <$> (items ≫= λ item,
      if orphan items item then [] else item :: option_list (answer false uuid_v5 items item))).
Proof.
  pose proof (normalize_cases false mods items) as Hc.
  destruct (normalize_history false uuid_v5 mods items) as [out|].
  - destruct Hc as (_ & _ & ->). unfold completed. by rewrite filter_completed.
  - destruct Hc as [(i & _ & Hn)%Exists_exists|[? _]]; [|done]. by apply missing_release in Hn.
Qed.

Lemma completed_debug items :
  Forall (λ item, missing true uuid_v5 items item ≠ None) items →
  completed true uuid_v5 items = completed false uuid_v5 items.
Proof.
  intros Hm. unfold completed. apply bind_ext_in. intros i Hi. rewrite Forall_forall in Hm.
  specialize (Hm i Hi). unfold answer. rewrite missing_debug in *. by destruct (_ && _).
Qed.

(** Where a debug build stops. *)
Definition stops items item : bool := (strict_call item && unanswered items item) || orphan items item.

Lemma normalize_debug mods items :
  normalize_history true uuid_v5 mods items
  = if existsb (stops items) items then None else normalize_history false uuid_v5 mods items.
Proof.
  pose proof (normalize_cases true mods items) as Hc. rewrite normalize_release.
  destruct (existsb (stops items) items) eqn:Es.
  - apply existsb_exists in Es as (i & Hi%list_elem_of_In & Hs). unfold stops in Hs.
    destruct (normalize_history true _ _ _) as [out|]; [exfalso|done]. destruct Hc as (Hm & Ho & _).
    rewrite Forall_forall in Hm. specialize (Hm i Hi). rewrite missing_debug in Hm.
    destruct (strict_call i && unanswered items i); [done|]. specialize (Ho eq_refl).
    rewrite Forall_forall in Ho. by rewrite Ho in Hs.
  - assert (∀ i, i ∈ items → stops items i = false) as Hns.
    { intros i Hi. apply not_true_iff_false. intros Hs. apply not_true_iff_false in Es. apply Es.
      apply existsb_exists. exists i. by rewrite <- list_elem_of_In. }
    destruct (normalize_history true _ _ _) as [out|].
    + destruct Hc as (Hm & _ & ->). rewrite completed_debug by done. unfold completed.
      by rewrite filter_completed.
    + exfalso. destruct Hc as [(i & Hi & Hn)%Exists_exists|[_ (i & Hi & Hn)%Exists_exists]];
        specialize (Hns i Hi); unfold stops in Hns; apply orb_false_iff in Hns as [Hs Ho].
      * rewrite missing_debug, Hs in Hn. by apply missing_release in Hn.
      * congruence.
Qed.
End properties.

(** C6: what is sent to the model is well formed: in a normalised history
    every call of a function, tool or local shell has an output with its id,
    every output (but those of searches the server ran, and of searches
    without an id) has a call, a model
    that takes no images or no audio gets none, and normalising again changes
    nothing, whatever the build. *)
Theorem normalized_history_is_paired {J} debug uuid_v5 mods (items out : list (ResponseItem J)) :
  normalize_history debug uuid_v5 mods items = Some out →
  paired out
  ∧ (ImageInput ∉ mods → Forall (λ item, shows_image item = false) out)
  ∧ (AudioInput ∉ mods → Forall (λ item, plays_audio item = false) out)
  ∧ ∀ debug' uuid', normalize_history debug' uuid' mods out = Some out.
Proof.
  intros Hn. pose proof (normalize_cases uuid_v5 debug mods items) as Hc. rewrite Hn in Hc.
  destruct Hc as (Hm & _ & ->). set (l := filter _ _).
  assert (paired (readable mods <$> l)) as Hp by (by apply readable_paired, completed_paired).
  split_and!; [done| | |].
  - intros Hi. apply Forall_fmap, Forall_true. intros i. by apply readable_no_image.
  - intros Hi. apply Forall_fmap, Forall_true. intros i. by apply readable_no_audio.
  - intros debug' uuid'. rewrite normalize_paired by done. f_equal. rewrite <- list_fmap_compose.
    apply list_fmap_ext. intros ? i _. apply readable_idem.
Qed.

(** A history with a call that was never answered and an output nobody asked for. *)
Definition demo_history : list (ResponseItem ()) :=
  [FunctionCall None (lit "shell") None (lit "{}") (lit "a") None;
   FunctionCallOutput None (lit "b") (from_text (lit "late")) None].

Lemma normalized_history_is_paired_witness :
  let out := [FunctionCall None (lit "shell") None (lit "{}") (lit "a") None;
              FunctionCallOutput None (lit "a") (from_text (lit "aborted")) None] in
  normalize_history false id [TextInput] demo_history = Some out
  ∧ paired out
  ∧ (ImageInput ∉ [TextInput] → Forall (λ item, shows_image item = false) out)
  ∧ (AudioInput ∉ [TextInput] → Forall (λ item, plays_audio item = false) out)
  ∧ ∀ debug' uuid', normalize_history debug' uuid' [TextInput] out = Some out.
Proof.
  intros out. split; [by vm_compute|].
  apply (normalized_history_is_paired false id [TextInput] demo_history out). by vm_compute.
Defined.

(** What normalisation changes, and when it stops.  Every item stays in
    its place, except that an output without a call is dropped and a call
    without an output is followed at once by a made-up output with its id;
    then contents the model cannot read are replaced.  A release build always
    gets there; a debug build panics exactly when an output is dropped or a
    custom tool call or local shell call had no output, and otherwise gives
    the same result. *)
Theorem normalize_history_changes {J} debug uuid_v5 mods (items : list (ResponseItem J)) :
  ∃ answer : ResponseItem J → option (ResponseItem J),
    (∀ item, match answer item with
             | Some o => unanswered items item = true ∧ output_key o = call_key item
             | None => unanswered items item = false
             end)
    ∧ normalize_history debug uuid_v5 mods items
      = if debug && existsb (stops items) items then None
        else Some (readable mods <$> (items ≫= λ item,
               if orphan items item then [] else item :: option_list (answer item))).
Proof.
  exists (answer false uuid_v5 items). split.
  - intros item. pose proof (answer_spec false uuid_v5 items item (missing_release uuid_v5 items item)) as Ha.
    destruct (answer _ _ _ _); naive_solver.
  - destruct debug; simpl; [rewrite normalize_debug|]; by rewrite normalize_release.
Qed.

(** * Removing an item with its counterpart *)

Section removal.
Context {J : Type}.
Implicit Types (item : ResponseItem J) (items rest : list (ResponseItem J)).

(** Every id is used by at most one call and one output. *)
Definition unique_ids items : Prop := NoDup (omap call_key items) ∧ NoDup (omap output_key items).

(** [items] without the call, or without the output, of a key. *)
Definition without (key : ResponseItem J → option (tool_kind * str)) k items :=
  filter (λ item, key item ≠ Some k) items.

Lemma remove_first_without (p : ResponseItem J → bool) key k items :
  (∀ item, item ∈ items → p item = bool_decide (key item = Some k)) → NoDup (omap key items) →
  remove_first_matching p items = without key k items.
Proof.
  unfold without. induction items as [|i items IH]; intros Hp Hn; simpl; [done|].
  rewrite Hp by set_solver. rewrite filter_cons. simpl in Hn. case_bool_decide as Hk.
  - rewrite decide_False by naive_solver. rewrite Hk in Hn. apply NoDup_cons in Hn as [Hn _].
    symmetry. clear IH Hp. induction items as [|j items IH]; [done|]. rewrite filter_cons_True.
    + f_equal. apply IH. intros Hx. apply Hn. simpl. destruct (key j); set_solver.
    + intros Hj. apply Hn. simpl. rewrite Hj. set_solver.
  - rewrite decide_True by done. f_equal. apply IH; [set_solver|].
    destruct (key i); [by apply NoDup_cons in Hn as [_ ?]|done].
Qed.

Lemma without_absent key k items : k ∉ omap key items → without key k items = items.
Proof.
  unfold without. induction items as [|i items IH]; [done|]. simpl. intros Hk. rewrite filter_cons_True.
  - f_equal. apply IH. destruct (key i); set_solver.
  - intros Hi. rewrite Hi in Hk. set_solver.
Qed.

Lemma not_both item k : call_key item = Some k → output_key item = None.
Proof. by destruct item as [| | | |? [?|]| |? [?|]| | | | | | | | | |]. Qed.

Lemma has_id_output f kind id items :
  (∀ item, f item = Some id ↔ output_key item = Some (kind, id)) →
  NoDup (omap output_key items) →
  remove_first_matching (has_id f id) items = without output_key (kind, id) items.
Proof. intros Hf. apply remove_first_without. intros i _. unfold has_id. apply bool_decide_ext, Hf. Qed.

Lemma has_id_call f kind id items :
  (∀ item, item ∈ items → f item = Some id ↔ call_key item = Some (kind, id)) →
  NoDup (omap call_key items) →
  remove_first_matching (has_id f id) items = without call_key (kind, id) items.
Proof. intros Hf. apply remove_first_without. intros i Hi. unfold has_id. by apply bool_decide_ext, Hf. Qed.

Lemma existsb_has_id f id items :
  existsb (has_id f id) items = true ↔ id ∈ ids_of f items.
Proof.
  rewrite existsb_exists, elem_of_ids_of. unfold has_id. setoid_rewrite bool_decide_eq_true.
  by setoid_rewrite list_elem_of_In.
Qed.

(** With unique ids the counterpart is the item with the same key. *)
Lemma remove_corresponding_spec items item :
  unique_ids items →
  remove_corresponding_for items item
  = match call_key item, output_key item with
    | Some k, _ => without output_key k items
    | None, Some k => without call_key k items
    | None, None => items
    end.
Proof.
  intros [Hc Ho].
  destruct item as [| | | |? [id|]|????id|? [id|]|? id|??id|? id|? [id|]| | | | | |]; simpl; try done;
    try (apply has_id_output; [|done]; intros [| | | | | | | | | |? [?|]| | | | | |]; naive_solver);
    try (apply has_id_call; [|done]; intros [| | | |? [?|]| |? [?|]| | | | | | | | | |] _; naive_solver).
  pose proof (function_calls items id) as Hf.
  destruct (existsb (has_id function_call_id id) items) eqn:E1;
    [|destruct (existsb (has_id local_shell_call_id id) items) eqn:E2].
  - apply existsb_has_id, elem_of_ids_of in E1 as (c & Hin & Hcid).
    apply has_id_call; [|done]. intros i Hi. split; [destruct i; naive_solver|]. intros Hk.
    rewrite (NoDup_omap_eq call_key items i c (FunctionTool, id)); [done..|]. by destruct c; naive_solver.
  - apply has_id_call; [|done]. intros i Hi.
    destruct i as [| | | |? [?|]|????id'| ? [?|]| | | | | | | | | |]; simpl; try naive_solver.
    split; [done|]. intros [= ->]. apply not_true_iff_false in E1. destruct E1.
    apply existsb_has_id, elem_of_ids_of. by eexists.
  - symmetry. apply without_absent. rewrite <- Hf. rewrite <- !existsb_has_id, E1, E2. by intros [].
Qed.

Lemma elem_of_without key k items item : item ∈ without key k items ↔ key item ≠ Some k ∧ item ∈ items.
Proof. unfold without. by rewrite list_elem_of_filter. Qed.

Lemma without_unique key k items : unique_ids items → unique_ids (without key k items).
Proof.
  intros [Hc Ho]. assert (∀ f : ResponseItem J → option (tool_kind * str),
    sublist (omap f (without key k items)) (omap f items)) as Hs.
  { intros f. unfold without. induction items as [|i items IH]; [done|]. simpl in Hc, Ho.
    rewrite filter_cons. assert (sublist (omap f (filter (λ item, key item ≠ Some k) items)) (omap f items)) as IH'.
    { apply IH; [destruct (call_key i); [by apply NoDup_cons in Hc as [_ ?]|done]
                |destruct (output_key i); [by apply NoDup_cons in Ho as [_ ?]|done]]. }
    case_decide; simpl; destruct (f i); try done; by constructor. }
  split; (eapply sublist_NoDup; [|apply Hs]; done).
Qed.

Lemma paired_spec items :
  paired items ↔
  (∀ c k, c ∈ items → call_key c = Some k → ∃ o, o ∈ items ∧ output_key o = Some k)
  ∧ (∀ o k, o ∈ items → output_key o = Some k → server_output o = false →
      ∃ c, c ∈ items ∧ call_key c = Some k).
Proof.
  unfold paired. rewrite !Forall_forall. unfold unanswered, orphan. f_equiv.
  - split.
    + intros H c k Hc Hk. specialize (H c Hc). rewrite Hk in H.
      by apply negb_false_iff, bool_decide_eq_true, list_elem_of_omap in H.
    + intros H c Hc. destruct (call_key c) as [k|] eqn:Hk; [|done].
      apply negb_false_iff, bool_decide_eq_true, list_elem_of_omap. by eapply H.
  - split.
    + intros H o k Ho Hk Hs. specialize (H o Ho). rewrite Hk, Hs in H. simpl in H.
      by apply negb_false_iff, bool_decide_eq_true, list_elem_of_omap in H.
    + intros H o Ho. destruct (output_key o) as [k|] eqn:Hk; [|done].
      destruct (server_output o) eqn:Hs; [done|].
      apply negb_false_iff, bool_decide_eq_true, list_elem_of_omap. by eapply H.
Qed.

(** Removing the oldest item with its counterpart keeps calls and outputs paired. *)
Lemma remove_corresponding_paired item rest :
  unique_ids (item :: rest) → paired (item :: rest) →
  unique_ids (remove_corresponding_for rest item) ∧ paired (remove_corresponding_for rest item).
Proof.
  intros Hu Hp. assert (unique_ids rest) as Hr.
  { destruct Hu as [Hc Ho]. simpl in Hc, Ho. split.
    - destruct (call_key item); [by apply NoDup_cons in Hc as [_ ?]|done].
    - destruct (output_key item); [by apply NoDup_cons in Ho as [_ ?]|done]. }
  rewrite remove_corresponding_spec by done. rewrite paired_spec in Hp |- *. destruct Hp as [Hp1 Hp2].
  destruct Hu as [Hnc Hno].
  assert (∀ i k, i ∈ rest → call_key item = Some k → call_key i ≠ Some k) as Hdc.
  { intros i k Hi Hk Hk'. simpl in Hnc. rewrite Hk in Hnc. apply NoDup_cons in Hnc as [Hn _].
    apply Hn, list_elem_of_omap. by exists i. }
  assert (∀ i k, i ∈ rest → output_key item = Some k → output_key i ≠ Some k) as Hdo.
  { intros i k Hi Hk Hk'. simpl in Hno. rewrite Hk in Hno. apply NoDup_cons in Hno as [Hn _].
    apply Hn, list_elem_of_omap. by exists i. }
  setoid_rewrite elem_of_cons in Hp1. setoid_rewrite elem_of_cons in Hp2.
  destruct (call_key item) as [k|] eqn:Ek; [|destruct (output_key item) as [k|] eqn:Eo].
  - pose proof (not_both item k Ek) as Eo. split; [by apply without_unique|].
    setoid_rewrite elem_of_without. split.
    + intros c k' [_ Hc] Hk'. destruct (Hp1 c k') as (o & [->|Ho] & Hok); [by right|done|congruence|].
      exists o. split; [|done]. split; [|done]. rewrite Hok. intros [= ->]. exact (Hdc c _ Hc eq_refl Hk').
    + intros o k' [Hne Ho] Hk' Hs. destruct (Hp2 o k') as (c & [->|Hc] & Hck); [by right|done|done|congruence|].
      exists c. split; [|done]. split; [|done]. by rewrite (not_both c k').
  - split; [by apply without_unique|]. setoid_rewrite elem_of_without. split.
    + intros c k' [Hne Hc] Hk'. destruct (Hp1 c k') as (o & [->|Ho] & Hok); [by right|done|congruence|].
      exists o. split; [|done]. split; [|done]. intros Hck. by rewrite (not_both o k) in Hok.
    + intros o k' [_ Ho] Hk' Hs. destruct (Hp2 o k') as (c & [->|Hc] & Hck); [by right|done|done|congruence|].
      exists c. split; [|done]. split; [|done]. rewrite Hck. intros [= ->]. exact (Hdo o _ Ho eq_refl Hk').
  - split; [done|]. split.
    + intros c k' Hc Hk'. destruct (Hp1 c k') as (o & [->|Ho] & Hok); [by right|done|congruence|by exists o].
    + intros o k' Ho Hk' Hs. destruct (Hp2 o k') as (c & [->|Hc] & Hck); [by right|done|done|congruence|by exists c].
Qed.
End removal.
