(* ===== verification/ContextFragments.v ===== *)
(** Which messages carry context rather than instructions
    ([context-fragments/src], the fragment types of [core/src/context] and
    [core/src/event_mapping.rs]).  Context is injected into the conversation as
    text between markers and recognised again by those markers; a rollback, the
    turn boundaries and the token estimates depend on the recognition.

    The XML reader of hook prompts and the JSON reader of messages between
    agents are library code: the class [HistoryTexts]. *)

From S2P Require Import Prelude Text Machine ResponseItems Truncate.

(** [quick_xml] on a hook prompt (its text and the id of its run), and whether
    a text is the JSON of an [InterAgentCommunication]. *)
Class HistoryTexts := {
  from_xml_hook_prompt : str → option (str * str);
  inter_agent_text : str → bool
}.

(** [s.get(..prefix.len()).is_some_and(|c| c.eq_ignore_ascii_case(prefix))] *)
Definition starts_with_ignore_case (s prefix : str) : bool :=
  is_some_and (λ '(candidate, _), eq_ignore_ascii_case candidate prefix) (split_at_byte s (byte_len prefix)).

(** [s.get(s.len().saturating_sub(suffix.len())..).is_some_and(..)] *)
Definition ends_with_ignore_case (s suffix : str) : bool :=
  is_some_and (λ '(_, candidate), eq_ignore_ascii_case candidate suffix)
    (split_at_byte s (byte_len s - byte_len suffix)).

(** [s.split_once(needle)] *)
Fixpoint split_once_str (needle s : str) : option (str * str) :=
  match strip_prefix needle s with
  | Some rest => Some ([], rest)
  | None =>
      match s with
      | [] => None
      | c :: s' => '(a, b) ← split_once_str needle s'; Some (c :: a, b)
      end
  end.

(** * Contextual user fragments *)

(** The types registered in [contextual_user_message.rs]. *)
Inductive FragmentType :=
  | UserInstructions | EnvironmentsState | AdditionalContextUserFragment | SkillInstructions
  | UserShellCommand | TurnAborted | SubagentNotification | InternalModelContextFragment
  | RecommendedPluginsInstructions | LegacyUnifiedExecProcessLimitWarning
  | LegacyApplyPatchExecCommandWarning | LegacyModelMismatchWarning.

Definition CONTEXTUAL_USER_FRAGMENTS : list FragmentType :=
  [UserInstructions; EnvironmentsState; AdditionalContextUserFragment; SkillInstructions;
   UserShellCommand; TurnAborted; SubagentNotification; InternalModelContextFragment;
   RecommendedPluginsInstructions; LegacyUnifiedExecProcessLimitWarning;
   LegacyApplyPatchExecCommandWarning; LegacyModelMismatchWarning].

Definition ADDITIONAL_CONTEXT_START_MARKER_PREFIX : str := lit "<external_".
Definition ADDITIONAL_CONTEXT_END_MARKER_SUFFIX : str := lit ">".
Definition MAX_ADDITIONAL_CONTEXT_VALUE_TOKENS : N := 1000.

Definition CONTEXT_START_MARKER : str := lit "<codex_internal_context".
Definition CONTEXT_END_MARKER : str := lit "</codex_internal_context>".
Definition LEGACY_GOAL_CONTEXT_START_MARKER : str := lit "<goal_context>".
Definition LEGACY_GOAL_CONTEXT_END_MARKER : str := lit "</goal_context>".
(** The double quote of the attribute is character 34. *)
Definition SOURCE_ATTR_START : str := lit " source=" ++ [34%N].
Definition SOURCE_ATTR_END : str := 34%N :: lit ">".

Definition user_instructions_markers : str * str := (lit "# AGENTS.md instructions", lit "</INSTRUCTIONS>").
Definition environment_context_markers : str * str :=
  (lit "<environment_context>", lit "</environment_context>").
Definition skill_instructions_markers : str * str := (lit "<skill>", lit "</skill>").
Definition user_shell_command_markers : str * str :=
  (lit "<user_shell_command>", lit "</user_shell_command>").
Definition turn_aborted_markers : str * str := (lit "<turn_aborted>", lit "</turn_aborted>").
Definition subagent_notification_markers : str * str :=
  (lit "<subagent_notification>", lit "</subagent_notification>").
Definition recommended_plugins_markers : str * str :=
  (lit "<recommended_plugins>", lit "</recommended_plugins>").

(** [T::type_markers()] of each type. *)
Definition type_markers (t : FragmentType) : str * str :=
  match t with
  | UserInstructions => user_instructions_markers
  | EnvironmentsState => environment_context_markers
  | AdditionalContextUserFragment =>
      (ADDITIONAL_CONTEXT_START_MARKER_PREFIX, ADDITIONAL_CONTEXT_END_MARKER_SUFFIX)
  | SkillInstructions => skill_instructions_markers
  | UserShellCommand => user_shell_command_markers
  | TurnAborted => turn_aborted_markers
  | SubagentNotification => subagent_notification_markers
  | InternalModelContextFragment => (CONTEXT_START_MARKER, CONTEXT_END_MARKER)
  | RecommendedPluginsInstructions => recommended_plugins_markers
  | LegacyUnifiedExecProcessLimitWarning | LegacyApplyPatchExecCommandWarning
  | LegacyModelMismatchWarning => ([], [])
  end.

(** [render] of a fragment with these markers and this body. *)
Definition render (t : FragmentType) (body : str) : str :=
  let '(start_marker, end_marker) := type_markers t in
  if is_nil start_marker && is_nil end_marker then body else start_marker ++ body ++ end_marker.

Definition matches_marked_text (start_marker end_marker text : str) : bool :=
  if is_nil start_marker || is_nil end_marker then false
  else
    let trimmed := trim_start text in
    let starts_with_marker := starts_with_ignore_case trimmed start_marker in
    let trimmed := trim_end trimmed in
    starts_with_marker && ends_with_ignore_case trimmed end_marker.

(** ** The types that look at their text themselves *)

Definition additional_context_matches_text (text : str) : bool :=
  is_some_and id
    (rest ← strip_prefix ADDITIONAL_CONTEXT_START_MARKER_PREFIX (trim text);
     '(key, value_and_close) ← split_once_str ADDITIONAL_CONTEXT_END_MARKER_SUFFIX rest;
     Some (ends_with value_and_close (lit "</external_" ++ key ++ lit ">"))).

(** [None] would be a panic while truncating. *)
Definition additional_context_body (key value : str) : option str :=
  '(value, _) ← truncate_middle_with_token_budget value MAX_ADDITIONAL_CONTEXT_VALUE_TOKENS;
  Some (key ++ lit ">" ++ value ++ lit "</external_" ++ key).

Definition is_ascii_lowercase (c : N) : bool := bool_decide (97 ≤ c ≤ 122)%N.
Definition is_ascii_digit (c : N) : bool := bool_decide (48 ≤ c ≤ 57)%N.

Definition is_valid_source (source : str) : bool :=
  match source with
  | [] => false
  | first :: chars =>
      is_ascii_lowercase first
      && forallb (λ ch, is_ascii_lowercase ch || is_ascii_digit ch || bool_decide (ch = 95%N)) chars
  end.

Definition matches_legacy_goal_context (text : str) : bool :=
  starts_with text LEGACY_GOAL_CONTEXT_START_MARKER && ends_with text LEGACY_GOAL_CONTEXT_END_MARKER.

Definition internal_context_matches_text (text : str) : bool :=
  let trimmed := trim text in
  matches_legacy_goal_context trimmed
  || is_some_and id
       (rest ← strip_prefix CONTEXT_START_MARKER trimmed;
        rest ← strip_prefix SOURCE_ATTR_START rest;
        '(source, body_and_close) ← split_once_str SOURCE_ATTR_END rest;
        Some (is_valid_source source && ends_with body_and_close CONTEXT_END_MARKER)).

Definition internal_context_body (source body : str) : str :=
  SOURCE_ATTR_START ++ source ++ SOURCE_ATTR_END ++ [nl] ++ body ++ [nl].

Definition process_limit_matches_text (text : str) : bool :=
  starts_with (trim text) (lit "Warning: The maximum number of unified exec processes you can keep open is").
Definition apply_patch_warning_matches_text (text : str) : bool :=
  let trimmed := trim text in
  starts_with trimmed (lit "Warning: apply_patch was requested via ")
  && ends_with trimmed (lit "Use the apply_patch tool instead of exec_command.").
Definition model_mismatch_matches_text (text : str) : bool :=
  starts_with (trim text) (lit "Warning: Your account was flagged for potentially high-risk cyber activity").

(** [T::matches_text]: the default of the trait, or the type's own. *)
Definition matches_text (t : FragmentType) (text : str) : bool :=
  match t with
  | AdditionalContextUserFragment => additional_context_matches_text text
  | InternalModelContextFragment => internal_context_matches_text text
  | LegacyUnifiedExecProcessLimitWarning => process_limit_matches_text text
  | LegacyApplyPatchExecCommandWarning => apply_patch_warning_matches_text text
  | LegacyModelMismatchWarning => model_mismatch_matches_text text
  | _ => let '(start_marker, end_marker) := type_markers t in matches_marked_text start_marker end_marker text
  end.

Definition is_standard_contextual_user_text (text : str) : bool :=
  existsb (λ t, matches_text t text) CONTEXTUAL_USER_FRAGMENTS.

Definition parse_hook_prompt_fragment `{HistoryTexts} (text : str) : option (str * str) :=
  '(text, hook_run_id) ← from_xml_hook_prompt (trim text);
  if is_nil (trim hook_run_id) then None else Some (text, hook_run_id).

Definition is_contextual_user_fragment `{HistoryTexts} (c : Content.t) : bool :=
  match c with
  | Content.InputText text =>
      bool_decide (is_Some (parse_hook_prompt_fragment text)) || is_standard_contextual_user_text text
  | _ => false
  end.
Definition is_contextual_user_message_content `{HistoryTexts} (message : list Content.t) : bool :=
  existsb is_contextual_user_fragment message.

(** * Contextual developer messages, messages between agents *)

Definition CONTEXTUAL_DEVELOPER_PREFIXES : list str :=
  [lit "<permissions instructions>"; lit "<model_switch>"; lit "<apps_instructions>";
   lit "<collaboration_mode>"; lit "<multi_agent_mode>"; lit "<environments_instructions>";
   lit "<git_attribution>"; lit "<plugins_instructions>"; lit "<realtime_conversation>";
   lit "<skills_instructions>"; lit "<personality_spec>"; lit "<token_budget>";
   lit "<context_window>"; lit "<context_window_guidance>"; lit "<rollout_budget>"].

Definition is_contextual_dev_fragment (c : Content.t) : bool :=
  match c with
  | Content.InputText text => existsb (starts_with_ignore_case (trim_start text)) CONTEXTUAL_DEVELOPER_PREFIXES
  | _ => false
  end.
Definition is_contextual_dev_message_content (message : list Content.t) : bool :=
  existsb is_contextual_dev_fragment message.
Definition has_non_contextual_dev_message_content (message : list Content.t) : bool :=
  existsb (λ c, negb (is_contextual_dev_fragment c)) message.

Definition is_inter_agent_instruction_content `{HistoryTexts} (content : list Content.t) : bool :=
  match content with
  | [Content.InputText text] | [Content.OutputText text] => inter_agent_text text
  | _ => false
  end.

(** * Recognition *)

(** The types that are recognised by their markers only. *)
Definition marked (t : FragmentType) : bool :=
  match t with
  | UserInstructions | EnvironmentsState | SkillInstructions | UserShellCommand | TurnAborted
  | SubagentNotification | RecommendedPluginsInstructions => true
  | _ => false
  end.

Lemma starts_with_ignore_case_app p s : starts_with_ignore_case (p ++ s) p = true.
Proof.
  unfold starts_with_ignore_case. rewrite split_at_byte_app. simpl.
  unfold eq_ignore_ascii_case. by rewrite bool_decide_true.
Qed.

Lemma ends_with_ignore_case_app s p : ends_with_ignore_case (s ++ p) p = true.
Proof.
  unfold ends_with_ignore_case. rewrite byte_len_app, N.add_sub, split_at_byte_app. simpl.
  unfold eq_ignore_ascii_case. by rewrite bool_decide_true.
Qed.

Lemma ends_with_app s p : ends_with (s ++ p) p = true.
Proof. apply ends_with_true. by exists s. Qed.

(** A text between two characters that are not white space has nothing to
    trim. *)
Lemma trim_between c d s :
  is_whitespace c = false → is_whitespace d = false → trim (c :: s ++ [d]) = c :: s ++ [d].
Proof.
  intros Hc Hd. apply trim_fixed; [done|]. change (c :: s ++ [d]) with ((c :: s) ++ [d]).
  by apply trim_end_snoc.
Qed.

Lemma split_once_char d a b : d ∉ a → split_once_str [d] (a ++ d :: b) = Some (a, b).
Proof.
  induction a as [|c a IH]; intros Hd; simpl; [by rewrite decide_True|].
  rewrite decide_False by set_solver. by rewrite IH by set_solver.
Qed.

Lemma split_once_str_app d p a b : d ∉ a → split_once_str (d :: p) (a ++ d :: p ++ b) = Some (a, b).
Proof.
  induction a as [|c a IH]; intros Hd; simpl.
  - by rewrite decide_True, strip_prefix_app.
  - rewrite decide_False by set_solver. by rewrite IH by set_solver.
Qed.

Lemma matches_marked_render c s e d body :
  is_whitespace c = false → is_whitespace d = false →
  matches_marked_text (c :: s) (e ++ [d]) ((c :: s) ++ body ++ e ++ [d]) = true.
Proof.
  intros Hc Hd. unfold matches_marked_text. rewrite (proj2 (is_nil_false (e ++ [d]))) by (by destruct e).
  cbn [is_nil orb]. rewrite <- app_comm_cons, trim_start_nonws by done.
  rewrite app_comm_cons, starts_with_ignore_case_app.
  rewrite (app_assoc body), (app_assoc (c :: s)), trim_end_snoc by done.
  by rewrite <- !app_assoc, (app_assoc (c :: s)), ends_with_ignore_case_app.
Qed.

Lemma marked_recognised t body : marked t = true → matches_text t (render t body) = true.
Proof.
  assert (∀ s e, (∃ c s', s = c :: s' ∧ is_whitespace c = false) →
    (∃ e' d, e = e' ++ [d] ∧ is_whitespace d = false) →
    matches_marked_text s e (s ++ body ++ e) = true) as Hm.
  { intros s e (c & s' & -> & Hc) (e' & d & -> & Hd). by apply matches_marked_render. }
  destruct t; try done; intros _; apply Hm;
    (by eexists _, _) || (eexists (init _), _; split; [by apply last_init|done]).
Qed.

(** Truncating a text to a budget of tokens never panics. *)
Lemma truncate_middle_total s n : ∃ r, truncate_middle_with_token_budget s n = Some r.
Proof.
  destruct (truncate_text_spec s (Tokens n)) as (out & Hout & _). simpl in Hout.
  apply fmap_Some in Hout as (r & ? & _). by exists r.
Qed.

Lemma additional_context_recognised key value :
  62%N ∉ key →
  ∃ body, additional_context_body key value = Some body
    ∧ matches_text AdditionalContextUserFragment (render AdditionalContextUserFragment body) = true.
Proof.
  intros Hkey. unfold additional_context_body.
  destruct (truncate_middle_total value MAX_ADDITIONAL_CONTEXT_VALUE_TOKENS) as [[v n] ->].
  eexists. split; [done|]. simpl. unfold additional_context_matches_text, render.
  cbn [type_markers is_nil]. change ADDITIONAL_CONTEXT_END_MARKER_SUFFIX with [62%N].
  change (lit ">") with [62%N]. set (o := lit "</external_").
  change ADDITIONAL_CONTEXT_START_MARKER_PREFIX with (60%N :: lit "external_").
  cbn [is_nil andb]. rewrite <- app_comm_cons, app_assoc, trim_between by done.
  rewrite <- app_assoc, app_comm_cons, strip_prefix_app. simpl. rewrite <- app_assoc. simpl.
  rewrite split_once_char by done. simpl. rewrite <- !app_assoc. apply ends_with_app.
Qed.

(** A valid source has no double quote. *)
Lemma valid_source_no_quote source : is_valid_source source = true → 34%N ∉ source.
Proof.
  destruct source as [|c s]; [done|]. simpl. unfold is_ascii_lowercase, is_ascii_digit.
  intros [Hc Hs]%andb_prop [E|Hin]%elem_of_cons; [subst c; by apply bool_decide_eq_true in Hc as []|].
  rewrite forallb_forall in Hs. specialize (Hs 34%N (proj1 (list_elem_of_In _ _) Hin)).
  by vm_compute in Hs.
Qed.

Lemma internal_context_recognised source body :
  is_valid_source source = true →
  matches_text InternalModelContextFragment
    (render InternalModelContextFragment (internal_context_body source body)) = true.
Proof.
  intros Hs. pose proof (valid_source_no_quote _ Hs) as Hq.
  set (text := render _ _). assert (trim text = CONTEXT_START_MARKER ++ SOURCE_ATTR_START
    ++ source ++ 34%N :: lit ">" ++ ([nl] ++ body ++ [nl]) ++ CONTEXT_END_MARKER) as Ht.
  { assert (text = 60%N :: (lit "codex_internal_context" ++ internal_context_body source body
                            ++ lit "</codex_internal_context") ++ [62%N]) as ->.
    { subst text. unfold render. rewrite <- !app_assoc. simpl. rewrite <- ?app_assoc. done. }
    rewrite trim_between by done. unfold internal_context_body, SOURCE_ATTR_END. simpl.
    rewrite <- !app_assoc. simpl. by rewrite <- !app_assoc. }
  simpl. unfold internal_context_matches_text. rewrite Ht. clear Ht text.
  apply orb_true_intro. right. rewrite strip_prefix_app. cbn [mbind option_bind].
  rewrite strip_prefix_app. cbn [mbind option_bind].
  unfold SOURCE_ATTR_END. rewrite (split_once_str_app 34%N (lit ">")) by done. cbn [mbind option_bind].
  by rewrite Hs, ends_with_app.
Qed.

(** Context that was injected is recognised.  A fragment written between
    the markers of its type is taken for context whatever its body is; so are
    additional context, provided its key has no closing bracket, whose value
    may be anything and is truncated without panic, and internal context with
    a valid source.  A message with such a part does not start a turn. *)
Theorem injected_context_is_recognised `{HistoryTexts} :
  (∀ t body, marked t = true → is_contextual_user_fragment (Content.InputText (render t body)) = true)
  ∧ (∀ key value, 62%N ∉ key →
      ∃ body, additional_context_body key value = Some body
        ∧ is_contextual_user_fragment (Content.InputText (render AdditionalContextUserFragment body)) = true)
  ∧ (∀ source body, is_valid_source source = true →
      is_contextual_user_fragment (Content.InputText
        (render InternalModelContextFragment (internal_context_body source body))) = true).
Proof.
  assert (∀ t text, matches_text t text = true → is_contextual_user_fragment (Content.InputText text) = true)
    as Hr.
  { intros t text Ht. simpl. apply orb_true_intro. right. apply existsb_exists. exists t.
    split; [|done]. destruct t; simpl; tauto. }
  split_and!.
  - intros t body Ht. by eapply Hr, marked_recognised.
  - intros key value Hkey. destruct (additional_context_recognised key value Hkey) as (body & ? & ?).
    exists body. split; [done|]. by eapply Hr.
  - intros source body Hs. by eapply Hr, internal_context_recognised.
Qed.

Module Demo.
#[global] Instance texts : HistoryTexts := {
  from_xml_hook_prompt _ := None;
  inter_agent_text _ := false
}.
End Demo.

Lemma injected_context_is_recognised_witness :
  is_contextual_user_fragment (Content.InputText (render TurnAborted (lit "stopped"))) = true
  ∧ is_contextual_user_fragment (Content.InputText
      (render InternalModelContextFragment (internal_context_body (lit "goal_1") (lit "go on")))) = true.
Proof.
  split; [by apply injected_context_is_recognised|].
  by apply (injected_context_is_recognised (H := Demo.texts)).
Defined.

(** A key with a closing bracket makes additional context unrecognisable: the
    key is read up to that bracket. *)
Example additional_context_key_with_bracket :
  (is_standard_contextual_user_text ∘ render AdditionalContextUserFragment)
    <$> additional_context_body (lit "a>b") (lit "v") = Some false.
Proof. vm_compute. reflexivity. Qed.
