(* ===== verification/History.v ===== *)
(** The transcript of a thread ([core/src/context_manager/history.rs]): what
    is recorded and how it is truncated, rollback of turns, removal of the
    oldest item, and the estimate of the tokens the history takes.  Which
    texts are contextual fragments or inter-agent messages is the class
    [HistoryTexts]; the types of the token usage, of the reference context and
    of the world state are parameters, as the code only stores them. *)

From stdpp Require Import sorting.
From Stdlib Require Import SpecFloat.
From S2P Require Import Prelude Text Machine ResponseItems Truncate HistoryNormalize ContextFragments.

(** * The history *)

Record ContextManager (J TI TC WS : Type) := mkHistory {
  items : list (ResponseItem J);
  history_version : N;
  token_info : option TI;
  reference_context_item : option TC;
  world_state_baseline : option WS
}.
Arguments mkHistory {J TI TC WS}.
Arguments items {J TI TC WS}.
Arguments history_version {J TI TC WS}.
Arguments token_info {J TI TC WS}.
Arguments reference_context_item {J TI TC WS}.
Arguments world_state_baseline {J TI TC WS}.

Section code.
Context {J TI TC WS : Type} `{HistoryTexts}.
Implicit Types (item : ResponseItem J) (h : ContextManager J TI TC WS).

Definition is_user_turn_boundary item : bool :=
  match item with
  | AgentMessage _ _ _ _ _ => true
  | Message _ role content _ _ =>
      (bool_decide (role = lit "user") && negb (is_contextual_user_message_content content))
      || (bool_decide (role = lit "assistant") && is_inter_agent_instruction_content content)
  | _ => false
  end.

(** The loop of [user_message_positions], from position [idx]. *)
Fixpoint positions_from (idx : nat) (l : list (ResponseItem J)) : list nat :=
  match l with
  | [] => []
  | item :: l => if is_user_turn_boundary item then idx :: positions_from (S idx) l else positions_from (S idx) l
  end.
Definition user_message_positions (l : list (ResponseItem J)) : list nat := positions_from 0 l.

Definition is_api_message item : bool :=
  match item with
  | Message _ role _ _ _ => negb (bool_decide (role = lit "system"))
  | CompactionTrigger | Other => false
  | _ => true
  end.

Definition is_model_generated_item item : bool :=
  match item with
  | Message _ role _ _ _ => bool_decide (role = lit "assistant")
  | Reasoning _ _ _ _ _ | FunctionCall _ _ _ _ _ _ | ToolSearchCall _ _ _ _ _ _ | WebSearchCall _ _ _ _
  | ImageGenerationCall _ _ _ _ _ | CustomToolCall _ _ _ _ _ _ _ | LocalShellCall _ _ _ _ _
  | Compaction _ _ _ | ContextCompaction _ _ _ => true
  | CompactionTrigger | AdditionalTools _ _ _ | FunctionCallOutput _ _ _ _ | ToolSearchOutput _ _ _ _ _ _
  | CustomToolCallOutput _ _ _ _ _ | AgentMessage _ _ _ _ _ | Other => false
  end.

(** [ContextManager::replace] *)
Definition replace (l : list (ResponseItem J)) h : ContextManager J TI TC WS :=
  mkHistory l (usize_add (history_version h) 1) (token_info h) (reference_context_item h) None.

Definition remove_first_item h : ContextManager J TI TC WS :=
  match items h with
  | [] => h
  | removed :: rest =>
      mkHistory (remove_corresponding_for rest removed) (history_version h) (token_info h)
        (reference_context_item h) None
  end.

(** Whether the item above the cut is a context update, and whether trimming it
    loses persistent developer text. *)
Definition trimmable (item : ResponseItem J) : bool :=
  match item with
  | Message _ role content _ _ =>
      (bool_decide (role = lit "developer") && is_contextual_dev_message_content content)
      || (bool_decide (role = lit "user") && is_contextual_user_message_content content)
  | _ => false
  end.
Definition mixed_bundle (item : ResponseItem J) : bool :=
  match item with
  | Message _ role content _ _ =>
      bool_decide (role = lit "developer") && is_contextual_dev_message_content content
      && has_non_contextual_dev_message_content content
  | _ => false
  end.

(** [trim_pre_turn_context_updates]: the new cut and the new reference context.
    The loop steps down from [cut_idx], so it is recursion on it; [snapshot] is
    only indexed below its length. *)
Fixpoint trim_pre_turn_context_updates (snapshot : list (ResponseItem J)) (first_idx cut_idx : nat)
    (reference : option TC) : nat * option TC :=
  match cut_idx with
  | O => (O, reference)
  | S above =>
      if decide (first_idx < cut_idx) then
        match snapshot !! above with
        | Some item =>
            if trimmable item
            then trim_pre_turn_context_updates snapshot first_idx above (if mixed_bundle item then None else reference)
            else (cut_idx, reference)
        | None => (cut_idx, reference)
        end
      else (cut_idx, reference)
  end.

Definition drop_last_n_user_turns (num_turns : nat) h : ContextManager J TI TC WS :=
  if decide (num_turns = 0) then h
  else
    let snapshot := items h in
    let user_positions := user_message_positions snapshot in
    match user_positions with
    | [] => replace snapshot h
    | first_instruction_turn_idx :: _ =>
        let cut_idx :=
          if decide (length user_positions ≤ num_turns) then first_instruction_turn_idx
          else default 0 (user_positions !! (length user_positions - num_turns)) in
        let '(cut_idx, reference) :=
          trim_pre_turn_context_updates snapshot first_instruction_turn_idx cut_idx (reference_context_item h) in
        replace (take cut_idx snapshot)
          (mkHistory snapshot (history_version h) (token_info h) reference (world_state_baseline h))
    end.

(** ** Recording *)

(** [estimate_audio_token_count], which decodes the audio. *)
Variable estimate_audio_token_count : str → N.

(** [policy * multiplier] *)
Definition scale_policy (policy : TruncationPolicy) (multiplier : spec_float) : TruncationPolicy :=
  match policy with
  | Bytes bytes => Bytes (f64_ceil_as_usize (f64_mul (f64_of_usize bytes) multiplier))
  | Tokens tokens => Tokens (f64_ceil_as_usize (f64_mul (f64_of_usize tokens) multiplier))
  end.

(** The [f64] nearest to 1.2. *)
Definition f64_1_2 : spec_float := S754_finite false 5404319552844595 (-52).

Definition truncate_function_output_payload (output : FunctionCallOutputPayload) (policy : TruncationPolicy) :
    option FunctionCallOutputPayload :=
  body ← match body output with
         | Text content => Text <$> truncate_text content policy
         | ContentItems contents =>
             ContentItems <$> truncate_function_output_items_with_policy contents policy estimate_audio_token_count
         end;
  Some (mkPayload body (success output)).

Definition process_item item (policy : TruncationPolicy) : option (ResponseItem J) :=
  let policy := scale_policy policy f64_1_2 in
  match item with
  | FunctionCallOutput id call_id output meta =>
      output ← truncate_function_output_payload output policy;
      Some (FunctionCallOutput id call_id output meta)
  | CustomToolCallOutput id call_id name output meta =>
      output ← truncate_function_output_payload output policy;
      Some (CustomToolCallOutput id call_id name output meta)
  | item => Some item
  end.

(** [record_items]; [None] would be a panic while truncating. *)
Fixpoint record_items (l : list (ResponseItem J)) (policy : TruncationPolicy) h :
    option (ContextManager J TI TC WS) :=
  match l with
  | [] => Some h
  | item :: l =>
      if negb (is_api_message item) then record_items l policy h
      else
        processed ← process_item item policy;
        record_items l policy
          (mkHistory (items h ++ [processed]) (history_version h) (token_info h)
             (reference_context_item h) (world_state_baseline h))
  end.

(** [for_prompt] *)
Definition for_prompt (debug : bool) (uuid_v5 : str → str) (mods : list InputModality) h :
    option (list (ResponseItem J)) := normalize_history debug uuid_v5 mods (items h).
End code.

Example scale_policy_rounds_up :
  scale_policy (Bytes 10000) f64_1_2 = Bytes 12000 ∧ scale_policy (Tokens 1) f64_1_2 = Tokens 2
  ∧ scale_policy (Bytes usize_max) f64_1_2 = Bytes usize_max.
Proof. vm_compute. done. Qed.

(** * Recording *)

(** A payload as it is recorded: a text loses its middle, a list of contents
    is cut to the budget. *)
Definition payload_truncated (policy : TruncationPolicy) (estimate : str → N)
    (output output' : FunctionCallOutputPayload) : Prop :=
  success output' = success output ∧
  match body output, body output' with
  | Text content, Text content' =>
      ((byte_len content ≤ byte_budget policy)%N → content' = content)
      ∧ ((byte_budget policy < byte_len content)%N →
         truncated_to (byte_budget policy) (match policy with Bytes _ => false | Tokens _ => true end)
           content content')
  | ContentItems contents, ContentItems contents' =>
      ∃ vs, items_truncated policy estimate contents vs contents'
  | _, _ => False
  end.

(** An item as it is recorded: only the payload of a tool output changes. *)
Definition recorded {J} (policy : TruncationPolicy) (estimate : str → N) (item item' : ResponseItem J) : Prop :=
  match item with
  | FunctionCallOutput id call_id output meta =>
      ∃ output', item' = FunctionCallOutput id call_id output' meta ∧ payload_truncated policy estimate output output'
  | CustomToolCallOutput id call_id name output meta =>
      ∃ output', item' = CustomToolCallOutput id call_id name output' meta
                 ∧ payload_truncated policy estimate output output'
  | _ => item' = item
  end.

Lemma truncate_payload_spec policy estimate output :
  ∃ output', truncate_function_output_payload estimate output policy = Some output'
    ∧ payload_truncated policy estimate output output'.
Proof.
  unfold truncate_function_output_payload, payload_truncated. destruct output as [[content|contents] ok]; simpl.
  - destruct (truncate_text_spec content policy) as (out & -> & ?). simpl. by eexists.
  - destruct (truncate_function_output_items_spec contents policy estimate) as (vs & r & -> & ?). simpl.
    eexists. split; [done|]. split; [done|]. by exists vs.
Qed.

Lemma process_item_spec {J} policy estimate (item : ResponseItem J) :
  ∃ item', process_item estimate item policy = Some item'
    ∧ recorded (scale_policy policy f64_1_2) estimate item item'.
Proof.
  destruct item; simpl; try (by eexists);
    edestruct truncate_payload_spec as (out & -> & ?); simpl; by eauto.
Qed.

(** * Turns *)

Section turns.
Context {J TI TC WS : Type} `{HistoryTexts}.
Implicit Types (item : ResponseItem J) (l : list (ResponseItem J)) (h : ContextManager J TI TC WS).

Lemma elem_of_positions_from k l i :
  i ∈ positions_from k l ↔ ∃ j item, i = k + j ∧ l !! j = Some item ∧ is_user_turn_boundary item = true.
Proof.
  revert k. induction l as [|x l IH]; intros k; simpl.
  { rewrite elem_of_nil. split; [done|]. by intros (j & item & _ & Hl & _); rewrite lookup_nil in Hl. }
  assert (i ∈ positions_from (S k) l ↔
    ∃ j item, i = k + S j ∧ (x :: l) !! S j = Some item ∧ is_user_turn_boundary item = true) as Hrest.
  { rewrite IH. simpl. setoid_rewrite Nat.add_succ_r. done. }
  destruct (is_user_turn_boundary x) eqn:E; rewrite ?elem_of_cons, Hrest; split.
  - intros [->|(j & item & ? & ? & ?)]; [exists 0, x; simpl; split_and!; [lia|done..]|by eauto 10].
  - intros ([|j] & item & -> & Hl & ?); simplify_eq/=; [left; lia|right; by eauto 10].
  - intros (j & item & ? & ? & ?). by eauto 10.
  - intros ([|j] & item & -> & Hl & ?); [simplify_eq/=; congruence|by eauto 10].
Qed.

Lemma positions_sorted k l : StronglySorted lt (positions_from k l).
Proof.
  revert k. induction l as [|x l IH]; intros k; simpl; [constructor|].
  destruct (is_user_turn_boundary x); [|done]. constructor; [done|].
  apply Forall_forall. intros i (j & ? & -> & _)%elem_of_positions_from. lia.
Qed.

Lemma positions_take k c l :
  positions_from k (take c l) = filter (λ i, i < k + c) (positions_from k l).
Proof.
  revert k c. induction l as [|x l IH]; intros k c; simpl; [by rewrite take_nil|].
  destruct c as [|c]; simpl.
  - symmetry. apply filter_none. intros i Hi.
    assert (i ∈ positions_from k (x :: l)) as (j & ? & -> & _)%elem_of_positions_from by done. lia.
  - assert (filter (λ i, i < k + S c) (positions_from (S k) l) = positions_from (S k) (take c l)) as <-.
    { rewrite IH. apply list_filter_iff. lia. }
    destruct (is_user_turn_boundary x); [|done]. rewrite filter_cons_True by lia. done.
Qed.

(** In an increasing list the elements below a cut are a prefix. *)
Lemma filter_below_cut (ps : list nat) n b cut :
  StronglySorted lt ps → ps !! n = Some b → cut ≤ b → (∀ i, i ∈ ps → i < b → i < cut) →
  filter (λ i, i < cut) ps = take n ps.
Proof.
  intros Hs. revert n. induction Hs as [|p ps Hs IH Hp]; intros n Hb Hc Hall; [done|].
  destruct n as [|n]; simplify_eq/=.
  - apply filter_none. intros i [->|Hi]%elem_of_cons; [lia|].
    rewrite Forall_forall in Hp. specialize (Hp i Hi). lia.
  - rewrite Forall_forall in Hp. pose proof (Hp b ltac:(by eapply list_elem_of_lookup_2)).
    rewrite filter_cons_True by (apply Hall; [set_solver|done]). f_equal. apply IH; [done..|set_solver].
Qed.

Lemma trimmable_not_boundary item : trimmable item = true → is_user_turn_boundary item = false.
Proof.
  destruct item as [|? role content| | | | | | | | | | | | | | |]; simpl; try done.
  repeat case_bool_decide; simplify_eq; simpl; try done.
  destruct (is_contextual_user_message_content content); done.
Qed.

(** The loop trims the context updates above the cut, and nothing else. *)
Lemma trim_spec l first cut (r : option TC) cut' r' :
  trim_pre_turn_context_updates l first cut r = (cut', r') → first ≤ cut ≤ length l →
  first ≤ cut' ≤ cut
  ∧ (∀ i item, cut' ≤ i < cut → l !! i = Some item → trimmable item = true)
  ∧ (first < cut' → ∀ item, l !! (cut' - 1) = Some item → trimmable item = false)
  ∧ r' = if existsb mixed_bundle (take (cut - cut') (drop cut' l)) then None else r.
Proof.
  revert r. induction cut as [|above IH]; intros r; cbn [trim_pre_turn_context_updates].
  { intros [= <- <-] ?. split_and!; [lia..| |by rewrite take_0]. lia. }
  intros Ht Hf. destruct (l !! above) as [item|] eqn:El; [|apply lookup_ge_None in El; lia].
  assert (∀ r0, (S above, r0) = (cut', r') → (first < S above → trimmable item = false) →
    first ≤ cut' ≤ S above
    ∧ (∀ i item, cut' ≤ i < S above → l !! i = Some item → trimmable item = true)
    ∧ (first < cut' → ∀ item, l !! (cut' - 1) = Some item → trimmable item = false)
    ∧ r' = if existsb mixed_bundle (take (S above - cut') (drop cut' l)) then None else r0) as Hstop.
  { intros r0 [= <- <-] Hi. split_and!; [lia..| |by rewrite Nat.sub_diag, take_0].
    intros Hlt item'. rewrite Nat.sub_succ, Nat.sub_0_r, El. intros [= <-]. auto. }
  case_decide; [|by apply Hstop; [|lia]]. destruct (trimmable item) eqn:Etr; [|by apply Hstop].
  clear Hstop. apply IH in Ht as (? & Htrim & Hmax & Hr); [|lia]. split_and!; [lia..| |done|].
  - intros i item' Hi Hl. destruct (decide (i = above)) as [->|]; [congruence|]. apply (Htrim i); [lia|done].
  - rewrite Hr. replace (S above - cut') with ((above - cut') + 1) by lia.
    rewrite <- take_take_drop, existsb_app, drop_drop. replace (cut' + (above - cut')) with above by lia.
    rewrite (drop_S _ _ _ El). simpl. rewrite orb_false_r.
    destruct (existsb mixed_bundle _), (mixed_bundle item); done.
Qed.
End turns.

(** * Properties *)

(** What is recorded.  Recording never panics and only appends: every item
    except system messages, compaction triggers and unknown items, in order,
    each as it is but for the payload of a tool output, which is truncated to
    the policy's limit times 1.2 as that product rounds in floating point.
    Nothing else of the history changes. *)
Theorem record_items_appends {J TI TC WS} (l : list (ResponseItem J)) policy estimate
    (h : ContextManager J TI TC WS) :
  ∃ new, record_items estimate l policy h
           = Some (mkHistory (items h ++ new) (history_version h) (token_info h)
                     (reference_context_item h) (world_state_baseline h))
    ∧ Forall2 (recorded (scale_policy policy f64_1_2) estimate) (filter is_api_message l) new.
Proof.
  revert h. induction l as [|item l IH]; intros h; simpl.
  { exists []. rewrite app_nil_r. by destruct h. }
  destruct (is_api_message item) eqn:E; simpl.
  - destruct (process_item_spec policy estimate item) as (item' & -> & Hr). simpl.
    edestruct IH as (new & -> & Hn). simpl. exists (item' :: new). rewrite <- app_assoc. split; [done|].
    rewrite filter_cons_True; [by constructor|by rewrite E].
  - destruct (IH h) as (new & -> & Hn). exists new. split; [done|].
    rewrite filter_cons_False; [done|]. intros Hi. by rewrite E in Hi.
Qed.

(** C22: rolling back turns.  Dropping [n] turns keeps a prefix of the history
    whose turns are all but the last [n] (none, if there are no more than
    [n]).  The cut is at the boundary [b] of the first dropped turn, moved up
    over the context updates right above it and nothing else, but never above
    the first turn.  The history is marked as rewritten, the world state is
    forgotten, and the reference context is forgotten exactly when a message
    that mixes context with other instructions was trimmed. *)
Theorem rollback_drops_whole_turns {J TI TC WS} `{HistoryTexts} (h : ContextManager J TI TC WS) n first rest :
  0 < n → user_message_positions (items h) = first :: rest →
  let h' := drop_last_n_user_turns n h in
  let keep := length (first :: rest) - n in
  ∃ b cut, (first :: rest) !! keep = Some b ∧ first ≤ cut ≤ b
    ∧ items h' = take cut (items h)
    ∧ user_message_positions (items h') = take keep (first :: rest)
    ∧ (∀ i item, cut ≤ i < b → items h !! i = Some item → trimmable item = true)
    ∧ (first < cut → ∀ item, items h !! (cut - 1) = Some item → trimmable item = false)
    ∧ reference_context_item h'
      = (if existsb mixed_bundle (take (b - cut) (drop cut (items h))) then None else reference_context_item h)
    ∧ history_version h' = usize_add (history_version h) 1 ∧ world_state_baseline h' = None.
Proof.
  intros Hn Hps h' keep.
  destruct ((first :: rest) !! keep) as [b|] eqn:Eb;
    [|apply lookup_ge_None in Eb; unfold keep in Eb; simpl in *; lia].
  assert (b ∈ user_message_positions (items h)) as Hb.
  { rewrite Hps. by eapply list_elem_of_lookup_2. }
  apply elem_of_positions_from in Hb as (b' & item & -> & Hlb & _). simpl in Eb.
  pose proof (positions_sorted 0 (items h)) as Hs. unfold user_message_positions in Hps. rewrite Hps in Hs.
  assert (first ≤ b').
  { destruct keep as [|k]; [simplify_eq/=; lia|]. apply StronglySorted_inv in Hs as [_ Hs].
    rewrite Forall_forall in Hs. specialize (Hs b' ltac:(by eapply list_elem_of_lookup_2)). lia. }
  apply lookup_lt_Some in Hlb.
  destruct (trim_pre_turn_context_updates (items h) first b' (reference_context_item h)) as [cut r] eqn:Et.
  pose proof (trim_spec _ _ _ _ _ _ Et) as (Hcut & Htrim & Hmax & Hr); [lia|].
  assert (h' = replace (take cut (items h)) (mkHistory (items h) (history_version h) (token_info h) r
                 (world_state_baseline h))) as Hh'.
  { unfold h', drop_last_n_user_turns, user_message_positions. rewrite decide_False, Hps by lia.
    replace (if decide (length (first :: rest) ≤ n) then first
             else default 0 ((first :: rest) !! (length (first :: rest) - n))) with b'; [by rewrite Et|].
    fold keep. rewrite Eb. case_decide; [|done].
    unfold keep in Eb. replace (length (first :: rest) - n) with 0 in Eb by lia. by simplify_eq/=. }
  exists b', cut. rewrite Hh'. split_and!; [done|lia..|done| |done|done|done|done|done].
  simpl. unfold user_message_positions. rewrite positions_take, Hps. simpl.
  apply (filter_below_cut _ _ b'); [done..|lia|].
  intros i Hi Hlt. rewrite <- Hps in Hi. apply elem_of_positions_from in Hi as (j & it & -> & Hj & Hbd).
  destruct (decide (j < cut)); [done|]. simpl in *. exfalso.
  rewrite trimmable_not_boundary in Hbd; [done|]. apply (Htrim j); [lia|done].
Qed.

(** The oldest items can be dropped one by one to make room without
    breaking the pairing of calls and outputs: if ids are not reused and the
    history is paired, it is paired after any number of removals (each takes
    the counterpart along), so normalisation has nothing left to repair. *)
Theorem remove_first_item_keeps_pairs {J TI TC WS} (h : ContextManager J TI TC WS) n :
  unique_ids (items h) → paired (items h) →
  paired (items (Nat.iter n remove_first_item h)).
Proof.
  intros Hu Hp.
  assert (unique_ids (items (Nat.iter n remove_first_item h))
          ∧ paired (items (Nat.iter n remove_first_item h))) as [_ ?]; [|done].
  induction n as [|n [IHu IHp]]; [done|]. simpl. unfold remove_first_item at 1 3.
  destruct (items (Nat.iter n remove_first_item h)) as [|removed rest] eqn:E; [by rewrite E|].
  by apply remove_corresponding_paired.
Qed.

(** Two turns; the second is announced by a contextual developer message. *)
Module Demo.
Definition says (role text : string) : ResponseItem () :=
  Message None (lit role) [Content.InputText (lit text)] None None.
Definition history : ContextManager () () () () :=
  mkHistory [says "developer" "be brief"; says "user" "hello"; says "assistant" "hi";
             says "developer" "<model_switch> m"; says "user" "more"; says "assistant" "no"]
    7 None (Some tt) (Some tt).
Definition calls : ContextManager () () () () :=
  mkHistory [FunctionCall None (lit "shell") None (lit "{}") (lit "a") None;
             FunctionCallOutput None (lit "a") (from_text (lit "ok")) None; says "user" "bye"]
    0 None None None.
End Demo.

Lemma rollback_drops_whole_turns_witness :
  let h' := drop_last_n_user_turns 1 Demo.history in
  ∃ b cut, [1; 4] !! 1 = Some b ∧ 1 ≤ cut ≤ b
    ∧ items h' = take cut (items Demo.history)
    ∧ user_message_positions (items h') = take 1 [1; 4]
    ∧ (∀ i item, cut ≤ i < b → items Demo.history !! i = Some item → trimmable item = true)
    ∧ (1 < cut → ∀ item, items Demo.history !! (cut - 1) = Some item → trimmable item = false)
    ∧ reference_context_item h'
      = (if existsb mixed_bundle (take (b - cut) (drop cut (items Demo.history))) then None
         else reference_context_item Demo.history)
    ∧ history_version h' = usize_add (history_version Demo.history) 1 ∧ world_state_baseline h' = None.
Proof.
  apply (rollback_drops_whole_turns Demo.history 1 1 [4]); [lia|by vm_compute].
Defined.

Lemma remove_first_item_keeps_pairs_witness :
  paired (items (Nat.iter 1 remove_first_item Demo.calls))
  ∧ items (Nat.iter 1 remove_first_item Demo.calls) = [Demo.says "user" "bye"].
Proof.
  split; [|by vm_compute]. apply (remove_first_item_keeps_pairs Demo.calls 1).
  - split; vm_compute; repeat constructor; rewrite ?elem_of_nil; tauto.
  - split; by repeat constructor.
Defined.
