(* ===== verification/TokenEstimate.v ===== *)
(** The estimate of the tokens a history takes (the second half of
    [core/src/context_manager/history.rs]): bytes of the serialised items,
    with inline images, audio and encrypted contents counted by estimates of
    their own, four bytes to a token, all in saturating [i64] arithmetic.  The
    JSON length of an item, the size of a decoded image and the length of an
    audio are parameters; the caches in front of the decoders do not change
    results and are left out. *)

From S2P Require Import Prelude Text Machine ResponseItems Truncate ContextFragments History.

(** * The code *)

Definition RESIZED_IMAGE_BYTES_ESTIMATE : Z := 7373.
Definition ORIGINAL_IMAGE_PATCH_SIZE : Z := 32.
Definition ORIGINAL_IMAGE_MAX_PATCHES : N := 10000.

(** [saturating_sub] of [N] is its subtraction. *)
Definition estimate_reasoning_length (encoded_len : N) : N := usize_mul encoded_len 3 / 4 - 650.
Definition estimate_encrypted_function_output_length (encoded_len : N) : N :=
  (usize_mul encoded_len 9 + 15) / 16.

(** [parse_base64_data_url]; the first five bytes are the characters [data:],
    so the metadata after them starts at the sixth character. *)
Definition parse_base64_data_url (url media_type_prefix : str) : option str :=
  if negb (starts_with_ignore_case url (lit "data:")) then None
  else
    '(metadata, payload) ← split_once 44 url;
    match split_on 59 (drop 5 metadata) with
    | [] => None
    | mime_type :: metadata_parts =>
        let has_base64_marker := existsb (λ part, eq_ignore_ascii_case part (lit "base64")) metadata_parts in
        if negb (starts_with_ignore_case mime_type media_type_prefix) then None
        else if negb has_base64_marker then None else Some payload
    end.
Definition parse_base64_image_data_url (url : str) : option str := parse_base64_data_url url (lit "image/").
Definition parse_base64_audio_data_url (url : str) : option str := parse_base64_data_url url (lit "audio/").

Section code.
Context {J TI TC WS : Type} `{HistoryTexts}.
(** [serde_json::to_string(item)] (its length; [None] for an error), width and
    height of the image a payload decodes to, [estimate_audio_token_count],
    and [last_token_usage.total_tokens]. *)
Variables (json_len : ResponseItem J → option N) (image_size : str → option (Z * Z))
  (estimate_audio_token_count : str → N) (last_total_tokens : TI → Z).
Implicit Types (item : ResponseItem J) (h : ContextManager J TI TC WS).

Definition estimate_original_image_bytes (image_url : str) : option Z :=
  payload ← parse_base64_image_data_url image_url;
  '(width, height) ← image_size payload;
  let patches x := (i64_add x (ORIGINAL_IMAGE_PATCH_SIZE - 1) `quot` ORIGINAL_IMAGE_PATCH_SIZE)%Z in
  let patch_count := i64_sat (patches width * patches height) in
  let patch_count := if decide (patch_count < 0)%Z then usize_max else Z.to_N patch_count in
  let patch_count := N.min patch_count ORIGINAL_IMAGE_MAX_PATCHES in
  Some (i64_of_usize (approx_bytes_for_tokens patch_count)).

(** The closures [accumulate] of the adjustments: payload and replacement bytes. *)
Definition accumulate_image (acc : Z * Z) (image : str * option ImageDetail) : Z * Z :=
  let '(image_url, detail) := image in
  match parse_base64_image_data_url image_url with
  | Some payload =>
      (i64_add acc.1 (i64_of_usize (byte_len payload)),
       i64_add acc.2
         (match detail with
          | Some Original => default RESIZED_IMAGE_BYTES_ESTIMATE (estimate_original_image_bytes image_url)
          | _ => RESIZED_IMAGE_BYTES_ESTIMATE
          end))
  | None => acc
  end.
Definition accumulate_audio (acc : Z * Z) (audio_url : str) : Z * Z :=
  match parse_base64_audio_data_url audio_url with
  | Some payload =>
      (i64_add acc.1 (i64_of_usize (byte_len payload)),
       i64_add acc.2 (i64_of_usize (approx_bytes_for_tokens (estimate_audio_token_count audio_url))))
  | None => acc
  end.

Definition output_contents (p : FunctionCallOutputPayload) : list OutputItem.t :=
  match body p with Text _ => [] | ContentItems contents => contents end.

(** The images and the audios of an item, in order. *)
Definition images_of item : list (str * option ImageDetail) :=
  match item with
  | Message _ _ content _ _ =>
      omap (λ c, match c with Content.InputImage url detail => Some (url, detail) | _ => None end) content
  | FunctionCallOutput _ _ output _ | CustomToolCallOutput _ _ _ output _ =>
      omap (λ c, match c with OutputItem.InputImage url detail => Some (url, detail) | _ => None end)
        (output_contents output)
  | _ => []
  end.
Definition audios_of item : list str :=
  match item with
  | Message _ _ content _ _ =>
      omap (λ c, match c with Content.InputAudio url => Some url | _ => None end) content
  | FunctionCallOutput _ _ output _ | CustomToolCallOutput _ _ _ output _ =>
      omap (λ c, match c with OutputItem.InputAudio url => Some url | _ => None end) (output_contents output)
  | _ => []
  end.

Definition image_data_url_estimate_adjustment item : Z * Z := foldl accumulate_image (0, 0)%Z (images_of item).
Definition audio_data_url_estimate_adjustment item : Z * Z := foldl accumulate_audio (0, 0)%Z (audios_of item).

Definition encrypted_function_output_estimate_adjustment item : Z * Z :=
  match item with
  | FunctionCallOutput _ _ output _ =>
      foldl (λ acc c,
        match c with
        | OutputItem.EncryptedContent encrypted_content =>
            (i64_add acc.1 (i64_of_usize (byte_len encrypted_content)),
             i64_add acc.2 (i64_of_usize (estimate_encrypted_function_output_length (byte_len encrypted_content))))
        | _ => acc
        end) (0, 0)%Z (output_contents output)
  | _ => (0, 0)%Z
  end.

Definition estimate_response_item_model_visible_bytes item : Z :=
  match item with
  | Reasoning _ _ _ (Some content) _ | Compaction _ content _ | ContextCompaction _ (Some content) _ =>
      i64_of_usize (estimate_reasoning_length (byte_len content))
  | item =>
      let raw := default 0%Z (i64_of_usize <$> json_len item) in
      let '(image_payload_bytes, image_replacement_bytes) := image_data_url_estimate_adjustment item in
      let '(audio_payload_bytes, audio_replacement_bytes) := audio_data_url_estimate_adjustment item in
      let '(encrypted_payload_bytes, encrypted_replacement_bytes) :=
        encrypted_function_output_estimate_adjustment item in
      let raw := i64_add (i64_sub (i64_add (i64_sub raw image_payload_bytes) image_replacement_bytes)
                            audio_payload_bytes) audio_replacement_bytes in
      i64_add (i64_sub raw encrypted_payload_bytes) encrypted_replacement_bytes
  end.

Definition estimate_item_token_count item : Z :=
  approx_tokens_from_byte_count_i64 (estimate_response_item_model_visible_bytes item).

(** [.map(estimate_item_token_count).fold(0i64, i64::saturating_add)] *)
Definition sum_tokens (l : list (ResponseItem J)) : Z := foldl i64_add 0%Z (estimate_item_token_count <$> l).

Definition estimate_token_count_with_base_instructions (base_instructions : str) h : option Z :=
  Some (i64_add (i64_of_usize (approx_token_count base_instructions)) (sum_tokens (items h))).

(** [iter().rposition(p)] *)
Fixpoint rposition (p : ResponseItem J → bool) (l : list (ResponseItem J)) : option nat :=
  match l with
  | [] => None
  | item :: l =>
      match rposition p l with
      | Some i => Some (S i)
      | None => if p item then Some 0 else None
      end
  end.

Definition encrypted_reasoning item : bool :=
  match item with Reasoning _ _ _ (Some _) _ => true | _ => false end.

Definition get_non_last_reasoning_items_tokens h : Z :=
  match rposition is_user_turn_boundary (items h) with
  | None => 0
  | Some last_user_index =>
      sum_tokens (filter (λ item, encrypted_reasoning item = true) (take last_user_index (items h)))
  end.

Definition items_after_last_model_generated_item h : list (ResponseItem J) :=
  drop (match rposition is_model_generated_item (items h) with
        | Some index => S index
        | None => length (items h)
        end) (items h).

Definition estimated_tokens_after_last_model_generated_item h : Z :=
  sum_tokens (items_after_last_model_generated_item h).

Definition get_total_token_usage (server_reasoning_included : bool) h : Z :=
  let last_tokens := default 0%Z (last_total_tokens <$> token_info h) in
  let after := sum_tokens (items_after_last_model_generated_item h) in
  if server_reasoning_included then i64_add last_tokens after
  else i64_add (i64_add last_tokens (get_non_last_reasoning_items_tokens h)) after.
End code.

(** * Sums of estimates *)

Section sums.
Context {J TI TC WS : Type} `{HistoryTexts}.
Variables (json_len : ResponseItem J → option N) (image_size : str → option (Z * Z))
  (audio_tokens : str → N).
Implicit Types (item : ResponseItem J) (l : list (ResponseItem J)) (h : ContextManager J TI TC WS).

Definition item_tokens item : Z := estimate_item_token_count json_len image_size audio_tokens item.
Definition exact_sum l : Z := foldr (λ item n, item_tokens item + n)%Z 0%Z l.

Lemma item_tokens_bounds item : (0 ≤ item_tokens item ≤ i64_max)%Z.
Proof.
  unfold item_tokens, estimate_item_token_count, approx_tokens_from_byte_count_i64, i64_of_usize.
  case_decide; unfold i64_max; lia.
Qed.

Lemma exact_sum_nonneg l : (0 ≤ exact_sum l)%Z.
Proof. induction l as [|i l IH]; simpl; [lia|]. pose proof (item_tokens_bounds i). lia. Qed.

Lemma exact_sum_app l k : exact_sum (l ++ k) = (exact_sum l + exact_sum k)%Z.
Proof. induction l as [|i l IH]; simpl; [done|]. rewrite IH. lia. Qed.

Lemma foldl_i64_add l n :
  (0 ≤ n)%Z →
  foldl i64_add (Z.min n i64_max) (item_tokens <$> l) = Z.min (n + exact_sum l) i64_max.
Proof.
  revert n. induction l as [|i l IH]; intros n Hn; csimpl; [by rewrite Z.add_0_r|].
  pose proof (item_tokens_bounds i).
  replace (i64_add (Z.min n i64_max) (item_tokens i)) with (Z.min (n + item_tokens i) i64_max).
  - rewrite IH by lia. f_equal. lia.
  - unfold i64_add, i64_sat, i64_min, i64_max in *. lia.
Qed.

Lemma sum_tokens_spec l :
  sum_tokens json_len image_size audio_tokens l = Z.min (exact_sum l) i64_max.
Proof. exact (foldl_i64_add l 0 (Z.le_refl 0)). Qed.

Lemma rposition_Some (p : ResponseItem J → bool) l i :
  rposition p l = Some i →
  ∃ before item after, l = before ++ item :: after ∧ length before = i ∧ p item = true
    ∧ Forall (λ item, p item = false) after.
Proof.
  revert i. induction l as [|x l IH]; intros i; simpl; [done|].
  destruct (rposition p l) as [j|] eqn:E.
  - intros [= <-]. destruct (IH j eq_refl) as (b & it & a & -> & <- & Hp & Ha). by exists (x :: b), it, a.
  - destruct (p x) eqn:Ex; [|done]. intros [= <-]. exists [], x, l. split_and!; [done..|].
    clear IH. induction l as [|y l IH]; [done|]. simpl in E. destruct (rposition p l); [done|].
    destruct (p y) eqn:Ey; [done|]. constructor; auto.
Qed.

Lemma rposition_None (p : ResponseItem J → bool) l : rposition p l = None → Forall (λ item, p item = false) l.
Proof.
  induction l as [|y l IH]; simpl; [done|]. destruct (rposition p l); [done|].
  destruct (p y) eqn:Ey; [done|]. constructor; auto.
Qed.
End sums.

(** * Properties *)

(** The token estimate is an honest sum.  It is between 0 and [i64::MAX],
    it is the sum of the estimates of the instructions and of every item, none
    of them negative, cut off at [i64::MAX] once however the saturating
    additions are nested; so recording more items never lowers it.  And the
    items counted on top of what the server reported are exactly those after
    the last item the model produced (none, if it produced none). *)
Theorem token_estimate_is_a_saturated_sum {J TI TC WS} `{HistoryTexts} json_len image_size audio_tokens
    (h h' : ContextManager J TI TC WS) (more : list (ResponseItem J)) base :
  items h' = items h ++ more →
  ∃ n n', estimate_token_count_with_base_instructions json_len image_size audio_tokens base h = Some n
    ∧ estimate_token_count_with_base_instructions json_len image_size audio_tokens base h' = Some n'
    ∧ n = Z.min (Z.of_N (approx_token_count base) + exact_sum json_len image_size audio_tokens (items h)) i64_max
    ∧ (0 ≤ n ≤ n')%Z ∧ (n' ≤ i64_max)%Z
    ∧ (estimated_tokens_after_last_model_generated_item json_len image_size audio_tokens h
       = Z.min (exact_sum json_len image_size audio_tokens (items_after_last_model_generated_item h)) i64_max)%Z
    ∧ Forall (λ item, is_model_generated_item item = false) (items_after_last_model_generated_item h)
    ∧ ((∃ before item, items h = before ++ item :: items_after_last_model_generated_item h
                       ∧ is_model_generated_item item = true)
       ∨ (Forall (λ item, is_model_generated_item item = false) (items h)
          ∧ items_after_last_model_generated_item h = [])).
Proof.
  intros Hi. unfold estimate_token_count_with_base_instructions, estimated_tokens_after_last_model_generated_item.
  rewrite !sum_tokens_spec, Hi, exact_sum_app.
  pose proof (exact_sum_nonneg json_len image_size audio_tokens (items h)).
  pose proof (exact_sum_nonneg json_len image_size audio_tokens more).
  unfold i64_of_usize. rewrite !i64_add_nonneg by lia.
  eexists _, _. split; [done|]. split; [done|]. split; [done|]. split; [unfold i64_max; lia|].
  split; [lia|]. split; [done|].
  unfold items_after_last_model_generated_item.
  destruct (rposition is_model_generated_item (items h)) as [i|] eqn:Er.
  - apply rposition_Some in Er as (b & it & a & Hl & <- & Hp & Ha). rewrite Hl.
    replace (S (length b)) with (length b + 1) by lia. rewrite drop_app_add. simpl. rewrite drop_0.
    split; [done|]. left. by exists b, it.
  - apply rposition_None in Er. rewrite drop_all. split; [done|]. by right.
Qed.

Lemma token_estimate_is_a_saturated_sum_witness :
  let h := Demo.history in
  let h' := mkHistory (items h ++ [Demo.says "user" "bye"]) 7 None None None : ContextManager () () () () in
  let len := λ _ : ResponseItem (), Some 40%N in
  ∃ n n', estimate_token_count_with_base_instructions len (λ _, None) (λ _, 0%N) (lit "be brief") h = Some n
    ∧ estimate_token_count_with_base_instructions len (λ _, None) (λ _, 0%N) (lit "be brief") h' = Some n'
    ∧ n = Z.min (Z.of_N (approx_token_count (lit "be brief")) + exact_sum len (λ _, None) (λ _, 0%N) (items h)) i64_max
    ∧ (0 ≤ n ≤ n')%Z ∧ (n' ≤ i64_max)%Z
    ∧ (estimated_tokens_after_last_model_generated_item len (λ _, None) (λ _, 0%N) h
       = Z.min (exact_sum len (λ _, None) (λ _, 0%N) (items_after_last_model_generated_item h)) i64_max)%Z
    ∧ Forall (λ item, is_model_generated_item item = false) (items_after_last_model_generated_item h)
    ∧ ((∃ before item, items h = before ++ item :: items_after_last_model_generated_item h
                       ∧ is_model_generated_item item = true)
       ∨ (Forall (λ item, is_model_generated_item item = false) (items h)
          ∧ items_after_last_model_generated_item h = [])).
Proof.
  intros h h' len.
  apply (token_estimate_is_a_saturated_sum len (λ _, None) (λ _, 0%N) h h' [Demo.says "user" "bye"]). done.
Defined.
