(* ===== verification/ShellSyntax.v ===== *)
(** Reading shell commands ([shell-command/src/bash.rs] and
    [shell_detect.rs]).  The bash grammar is a tree-sitter library: parsing is a
    parameter, and what is modelled is what the code does with the syntax tree:
    which scripts are plain sequences of commands, and which words of a script
    are literal.  A node carries its kind, whether it is named, its byte range
    in the source and its children. *)

From S2P Require Import Prelude Text.

Inductive Node := mkNode {
  kind : str;
  is_named : bool;
  start_byte : N;
  end_byte : N;
  children : list Node
}.

(** [has_error] is [root_node().has_error()]. *)
Record Tree := mkTree { root_node : Node; has_error : bool }.

Definition named_children (n : Node) : list Node := filter is_named (children n).
Definition named_child (n : Node) (i : nat) : option Node := named_children n !! i.

(** [node.utf8_text(src.as_bytes()).ok()] *)
Definition utf8_text (n : Node) (src : str) : option str :=
  '(_, rest) ← split_at_byte src (start_byte n);
  '(text, _) ← split_at_byte rest (end_byte n - start_byte n);
  Some text.

(** * Walking a tree *)

Fixpoint node_size (n : Node) : nat := S (sum_list_with node_size (children n)).

(** The loop of every walk: a stack of nodes, the top first; the children of a
    popped node are pushed from the first to the last.  The result is the nodes
    in the order they are popped. *)
Fixpoint walk (fuel : nat) (next : Node → list Node) (stack : list Node) : list Node :=
  match fuel, stack with
  | S fuel, node :: stack => node :: walk fuel next (reverse (next node) ++ stack)
  | _, _ => []
  end.

(** The walk from the root: every iteration pops a node of the tree, so the
    size of the tree is fuel enough. *)
Definition visited (next : Node → list Node) (root : Node) : list Node := walk (node_size root) next [root].

Definition is_kind (k : string) (n : Node) : bool := bool_decide (kind n = lit k).

Arguments is_kind _ _ : simpl never.

Definition has_named_descendant_kind (node : Node) (k : string) : bool :=
  existsb (is_kind k) (visited named_children node).

Definition find_single_command_node (root : Node) : option Node :=
  match filter (is_kind "command") (visited named_children root) with
  | [node] => Some node
  | _ => None
  end.

(** * Words *)

Definition dquote : N := 34.
Definition squote : N := 39.

Definition parse_double_quoted_string (node : Node) (src : str) : option str :=
  if negb (is_kind "string" node) then None
  else if existsb (λ part, negb (is_kind "string_content" part)) (named_children node) then None
  else raw ← utf8_text node src; text ← strip_prefix [dquote] raw; strip_suffix [dquote] text.

Definition parse_raw_string (node : Node) (src : str) : option str :=
  if negb (is_kind "raw_string" node) then None
  else raw ← utf8_text node src; text ← strip_prefix [squote] raw; strip_suffix [squote] text.

Definition is_literal_word_or_number (node : Node) : bool :=
  (is_kind "word" node || is_kind "number" node) && is_nil (named_children node).

(** A part of a concatenated argument. *)
Definition plain_part (part : Node) (src : str) : option str :=
  if is_kind "word" part || is_kind "number" part then utf8_text part src
  else if is_kind "string" part then parse_double_quoted_string part src
  else if is_kind "raw_string" part then parse_raw_string part src
  else None.

(** The word of a child of a plain command. *)
Definition plain_word (child : Node) (src : str) : option str :=
  if is_kind "command_name" child then
    word_node ← named_child child 0;
    if is_kind "word" word_node then utf8_text word_node src else None
  else if is_kind "concatenation" child then
    parts ← mapM (λ part, plain_part part src) (named_children child);
    let concatenated := concat parts in
    if is_nil concatenated then None else Some concatenated
  else plain_part child src.

Definition parse_plain_command_from_node (cmd : Node) (src : str) : option (list str) :=
  if negb (is_kind "command" cmd) then None
  else mapM (λ child, plain_word child src) (named_children cmd).

(** [parse_literal_shell_word]; a concatenation may hold concatenations. *)
Fixpoint parse_literal_shell_word (node : Node) (src : str) : option str :=
  if is_kind "word" node || is_kind "number" node then
    if is_literal_word_or_number node then utf8_text node src else None
  else if is_kind "string" node then parse_double_quoted_string node src
  else if is_kind "raw_string" node then parse_raw_string node src
  else if is_kind "concatenation" node then
    concatenated ←
      (fix go (parts : list Node) : option str :=
         match parts with
         | [] => Some []
         | part :: parts =>
             if is_named part then
               word ← parse_literal_shell_word part src; rest ← go parts; Some (word ++ rest)
             else go parts
         end) (children node);
    if is_nil concatenated then None else Some concatenated
  else None.

(** The loop of [parse_literal_command_from_node]: words before the name are
    skipped, and so are arguments that are not literal. *)
Fixpoint literal_words (found_command_name : bool) (l : list Node) (src : str) : option (bool * list str) :=
  match l with
  | [] => Some (found_command_name, [])
  | child :: l =>
      if is_kind "command_name" child then
        word_node ← named_child child 0;
        command_name ← parse_literal_shell_word word_node src;
        '(found, words) ← literal_words true l src;
        Some (found, command_name :: words)
      else
        '(found, words) ← literal_words found_command_name l src;
        match (if found_command_name then parse_literal_shell_word child src else None) with
        | Some word => Some (found, word :: words)
        | None => Some (found, words)
        end
  end.

Definition parse_literal_command_from_node (cmd : Node) (src : str) : option (list str) :=
  if negb (is_kind "command" cmd) then None
  else
    match literal_words false (named_children cmd) src with
    | Some (true, words) => Some words
    | _ => None
    end.

Definition is_allowed_heredoc_attachment_kind (k : str) : bool :=
  bool_decide (k ∈ [lit "heredoc_body"; lit "simple_heredoc_body"; lit "heredoc_redirect";
                    lit "herestring_redirect"; lit "redirected_statement"]).

(** One child of the command of a here-document: a word, or nothing. *)
Definition heredoc_word (child : Node) (src : str) : option (option str) :=
  if is_kind "command_name" child then
    word_node ← named_child child 0;
    if is_literal_word_or_number word_node then Some <$> utf8_text word_node src else None
  else if is_kind "word" child || is_kind "number" child then
    if is_literal_word_or_number child then Some <$> utf8_text child src else None
  else if is_kind "comment" child || is_allowed_heredoc_attachment_kind (kind child) then Some None
  else None.

Definition parse_heredoc_command_words (cmd : Node) (src : str) : option (list str) :=
  if negb (is_kind "command" cmd) then None
  else
    words ← mapM (λ child, heredoc_word child src) (named_children cmd);
    let words := omap id words in
    if is_nil words then None else Some words.

(** * Scripts of plain commands *)

Definition ALLOWED_KINDS : list str :=
  [lit "program"; lit "list"; lit "pipeline"; lit "command"; lit "command_name"; lit "word"; lit "string";
   lit "string_content"; lit "raw_string"; lit "number"; lit "concatenation"].

Definition ALLOWED_PUNCT_TOKENS : list str :=
  [lit "&&"; lit "||"; lit ";"; lit "|"; [dquote]; [squote]].

(** The checks of the loop on one node. *)
Definition allowed_node (node : Node) : bool :=
  if is_named node then bool_decide (kind node ∈ ALLOWED_KINDS)
  else if existsb (λ c, bool_decide (c ∈ lit "&;|")) (kind node)
          && negb (bool_decide (kind node ∈ ALLOWED_PUNCT_TOKENS)) then false
  else bool_decide (kind node ∈ ALLOWED_PUNCT_TOKENS) || is_nil (trim (kind node)).

(** [sort_by_key(Node::start_byte)]: stable. *)
Fixpoint insert_by_start (node : Node) (l : list Node) : list Node :=
  match l with
  | [] => [node]
  | n :: l' => if decide (start_byte node ≤ start_byte n)%N then node :: l else n :: insert_by_start node l'
  end.
Definition sort_by_start_byte (l : list Node) : list Node := foldr insert_by_start [] l.

Definition try_parse_word_only_commands_sequence (tree : Tree) (src : str) : option (list (list str)) :=
  if has_error tree then None
  else
    let nodes := visited children (root_node tree) in
    if negb (forallb allowed_node nodes) then None
    else
      let command_nodes := filter (λ node, is_named node && is_kind "command" node) nodes in
      mapM (λ node, parse_plain_command_from_node node src) (sort_by_start_byte command_nodes).

(** * Shells *)

(** [Path::components] of a Unix path, without the parts that comparison and
    [file_name] ignore: a leading [/] or [.] and the names. *)
Definition components (path : str) : list str :=
  let pieces := split_on 47 path in
  let names := filter (λ p, p ≠ [] ∧ p ≠ lit ".") pieces in
  match pieces with
  | [] :: _ :: _ => lit "/" :: names
  | p :: _ => if decide (p = lit ".") then p :: names else names
  | [] => names
  end.

(** [Path::new(path).file_name()] *)
Definition file_name (path : str) : option str :=
  name ← last (components path);
  if decide (name ∈ [lit "/"; lit "."; lit ".."]) then None else Some name.

(** [path.file_stem()] *)
Definition file_stem (path : str) : option str :=
  name ← file_name path;
  Some (match rsplit_once 46 name with
        | Some (before, _) => if is_nil before then name else before
        | None => name
        end).

Inductive ShellType := Zsh | Bash | PowerShell | Sh | Cmd.

#[export] Instance ShellType_eq_dec : EqDecision ShellType.
Proof. solve_decision. Defined.

Definition shell_named (path : str) : option ShellType :=
  if decide (path = lit "zsh") then Some Zsh
  else if decide (path = lit "sh") then Some Sh
  else if decide (path = lit "cmd") then Some Cmd
  else if decide (path = lit "bash") then Some Bash
  else if decide (path = lit "pwsh") then Some PowerShell
  else if decide (path = lit "powershell") then Some PowerShell
  else None.

Fixpoint detect_loop (fuel : nat) (shell_path : str) : option ShellType :=
  match fuel with
  | 0 => None
  | S fuel =>
      match shell_named shell_path with
      | Some t => Some t
      | None =>
          shell_name ← file_stem shell_path;
          if decide (components shell_name = components shell_path) then None
          else detect_loop fuel shell_name
      end
  end.

(** [detect_shell_type]: every call is on a shorter text. *)
Definition detect_shell_type (shell_path : str) : option ShellType :=
  detect_loop (S (length shell_path)) shell_path.

Definition extract_bash_command (command : list str) : option (str * str) :=
  match command with
  | [shell; flag; script] =>
      if decide (flag ∈ [lit "-lc"; lit "-c"]) then
        match detect_shell_type shell with
        | Some (Zsh | Bash | Sh) => Some (shell, script)
        | _ => None
        end
      else None
  | _ => None
  end.

Section code.
(** [try_parse_shell] *)
Variable try_parse_shell : str → option Tree.

Definition parse_shell_script_into_commands (script : str) : option (list (list str)) :=
  tree ← try_parse_shell script;
  try_parse_word_only_commands_sequence tree script.

Definition parse_shell_lc_plain_commands (command : list str) : option (list (list str)) :=
  '(_, script) ← extract_bash_command command;
  parse_shell_script_into_commands script.

Definition parse_shell_lc_literal_commands (command : list str) : option (list (list str)) :=
  '(_, script) ← extract_bash_command command;
  tree ← try_parse_shell script;
  if has_error tree then None
  else Some (omap (λ node, parse_literal_command_from_node node script)
               (visited named_children (root_node tree))).

Definition parse_shell_lc_single_command_prefix (command : list str) : option (list str) :=
  '(_, script) ← extract_bash_command command;
  tree ← try_parse_shell script;
  let root := root_node tree in
  if has_error tree then None
  else if negb (has_named_descendant_kind root "heredoc_redirect") then None
  else if has_named_descendant_kind root "file_redirect" then None
  else command_node ← find_single_command_node root; parse_heredoc_command_words command_node script.
End code.

(** * Lemmas on walks *)

(** Nodes contain lists of nodes: induction has the hypothesis for each child. *)
Lemma Node_ind' (P : Node → Prop) :
  (∀ k n s e cs, Forall P cs → P (mkNode k n s e cs)) → ∀ node, P node.
Proof.
  intros HP. fix IH 1. intros [k n s e cs]. apply HP.
  induction cs as [|c cs IHcs]; constructor; [apply IH|exact IHcs].
Qed.

Section walks.
Context (next : Node → list Node) (Hnext : ∀ n, sublist (next n) (children n)).

Definition child (n m : Node) : Prop := m ∈ next n.

Lemma sum_sizes_app l k : sum_list_with node_size (l ++ k) = sum_list_with node_size l + sum_list_with node_size k.
Proof. apply sum_list_with_app. Qed.

Lemma sum_sizes_sublist l k : sublist l k → sum_list_with node_size l ≤ sum_list_with node_size k.
Proof. induction 1; simpl; lia. Qed.

Lemma next_size n : S (sum_list_with node_size (next n)) ≤ node_size n.
Proof. destruct n as [k nm s e cs]. pose proof (sum_sizes_sublist _ _ (Hnext (mkNode k nm s e cs))). simpl in *. lia. Qed.

Lemma walk_complete fuel stack x :
  sum_list_with node_size stack ≤ fuel →
  x ∈ walk fuel next stack ↔ ∃ n, n ∈ stack ∧ rtc child n x.
Proof.
  revert stack. induction fuel as [|fuel IH]; intros stack Hf.
  - destruct stack as [|[] stack]; simpl in *; [|lia]. set_solver.
  - destruct stack as [|n stack]; simpl; [set_solver|].
    pose proof (next_size n) as Hn. simpl in Hf.
    rewrite elem_of_cons, IH by (rewrite sum_sizes_app, sum_list_with_reverse; lia). split.
    + intros [->|(m & Hm & Hr)]; [exists n; split; [left|done]|].
      apply elem_of_app in Hm as [Hm|Hm]; [rewrite elem_of_reverse in Hm|exists m; split; [by right|done]].
      exists n. split; [left|]. by eapply rtc_l.
    + intros (m & Hm & Hr). apply elem_of_cons in Hm as [->|Hm].
      * apply rtc_inv in Hr as [->|(c & Hc & Hr)]; [by left|right]. exists c. split; [|done].
        apply elem_of_app. left. by rewrite elem_of_reverse.
      * right. exists m. split; [|done]. apply elem_of_app. by right.
Qed.

(** The walk pops exactly the nodes of the tree it walks over. *)
Lemma visited_spec root x : x ∈ visited next root ↔ rtc child root x.
Proof.
  unfold visited. rewrite walk_complete by (simpl; lia). split.
  - by intros (n & ->%list_elem_of_singleton & ?).
  - intros. exists root. split; [by left|done].
Qed.
End walks.

Lemma named_children_sublist n : sublist (named_children n) (children n).
Proof. apply sublist_filter. Qed.

(** What is visited over named children is visited over all of them. *)
Lemma visited_named root x : x ∈ visited named_children root → x ∈ visited children root.
Proof.
  rewrite !visited_spec by (try done; apply named_children_sublist).
  induction 1 as [|x y z Hc _ IH]; [done|]. eapply rtc_l; [|done]. unfold child in *.
  by apply list_elem_of_filter in Hc as [_ ?].
Qed.

Lemma visited_child next root n m :
  (∀ n, sublist (next n) (children n)) → n ∈ visited next root → m ∈ next n → m ∈ visited next root.
Proof. intros Hn. rewrite !visited_spec by done. intros. by eapply rtc_r. Qed.

Lemma elem_of_insert_by_start n l x : x ∈ insert_by_start n l ↔ x = n ∨ x ∈ l.
Proof.
  induction l as [|y l IH]; simpl; [set_solver|]. case_decide; rewrite ?elem_of_cons, ?IH, ?elem_of_cons; tauto.
Qed.

Lemma elem_of_sort_by_start l x : x ∈ sort_by_start_byte l ↔ x ∈ l.
Proof.
  induction l as [|n l IH]; simpl; [done|]. by rewrite elem_of_insert_by_start, IH, elem_of_cons.
Qed.

(** * What the grammar promises *)

Definition before_command_name : list str :=
  [lit "variable_assignment"; lit "file_redirect"; lit "herestring_redirect"; lit "heredoc_redirect"; lit "comment"].

(** In the bash grammar a [command] is assignments and redirections, then its
    name, then arguments. *)
Definition command_shape (node : Node) : Prop :=
  ∃ pre name args, named_children node = pre ++ name :: args
    ∧ is_kind "command_name" name = true
    ∧ Forall (λ n, kind n ∈ before_command_name) pre
    ∧ Forall (λ n, is_kind "command_name" n = false) args.

Class BashGrammar (try_parse_shell : str → option Tree) :=
  bash_commands : ∀ src tree node,
    try_parse_shell src = Some tree → has_error tree = false →
    node ∈ visited children (root_node tree) → is_kind "command" node = true → command_shape node.

Lemma not_before_name n : allowed_node n = true → is_named n = true → kind n ∉ before_command_name.
Proof.
  unfold allowed_node. intros Ha Hn Hin. rewrite Hn in Ha. apply bool_decide_eq_true in Ha. revert Ha.
  assert (Forall (λ k, k ∉ ALLOWED_KINDS) before_command_name) as Hf by (apply (bool_decide_unpack _); by vm_compute).
  rewrite Forall_forall in Hf. by apply Hf.
Qed.

(** The two readings of a command of a plain script agree on its first word. *)
Lemma plain_and_literal_head node src words literal :
  command_shape node → (∀ n, n ∈ children node → allowed_node n = true) →
  parse_plain_command_from_node node src = Some words →
  parse_literal_command_from_node node src = Some literal →
  ∃ w, head words = Some w ∧ head literal = Some w.
Proof.
  intros (pre & name & args & Hc & Hname & Hpre & _) Hall.
  unfold parse_plain_command_from_node, parse_literal_command_from_node.
  destruct (is_kind "command" node); [|done]. simpl. rewrite Hc.
  assert (pre = []) as ->.
  { destruct pre as [|n pre]; [done|]. apply Forall_cons in Hpre as [Hn _].
    assert (n ∈ named_children node) as [Hnm Hin]%list_elem_of_filter by (rewrite Hc; left).
    exfalso. eapply not_before_name; [|by apply Is_true_true|done]. auto. }
  simpl. unfold plain_word. rewrite !Hname.
  destruct (named_child name 0) as [wn|]; [|done]. simpl.
  destruct (is_kind "word" wn) eqn:Ew; [|done].
  destruct wn as [k nm s e cs]. unfold parse_literal_shell_word. fold parse_literal_shell_word.
  rewrite Ew. cbn [orb]. destruct (utf8_text _ src) as [w|]; [|done]. simpl.
  destruct (mapM _ args) as [ws|]; [|done]. intros [= <-]. simpl.
  destruct (is_literal_word_or_number _); [|done]. simpl. destruct (literal_words true args src) as [[[] ls]|]; [|done..].
  intros [= <-]. by exists w.
Qed.

(** * Words are made of the source *)

Lemma split_at_byte_Some s n l r : split_at_byte s n = Some (l, r) → s = l ++ r.
Proof.
  revert n l. induction s as [|c s IH]; intros n l; simpl; case_decide; try (by intros [= <- <-]); try done.
  case_decide; [|done]. destruct (split_at_byte s _) as [[l' r']|] eqn:E; [|done].
  intros [= <- <-]. simpl. by rewrite (IH _ _ E).
Qed.

Lemma utf8_text_chars n src t c : utf8_text n src = Some t → c ∈ t → c ∈ src.
Proof.
  unfold utf8_text. intros ([l rest] & Hl%split_at_byte_Some & H)%bind_Some.
  apply bind_Some in H as ([t' r] & Ht%split_at_byte_Some & [= <-]). subst. set_solver.
Qed.

Lemma strip_chars a s t c :
  (t0 ← strip_prefix [a] s; strip_suffix [a] t0) = Some t → c ∈ t → c ∈ s.
Proof. intros (t0 & ->%strip_prefix_Some & ->%strip_suffix_Some)%bind_Some. set_solver. Qed.

Lemma double_quoted_chars n src t c : parse_double_quoted_string n src = Some t → c ∈ t → c ∈ src.
Proof.
  unfold parse_double_quoted_string. repeat (case_match; [done|]).
  intros (raw & Hr & Ht)%bind_Some Hc. eapply utf8_text_chars; [done|]. by eapply strip_chars.
Qed.

Lemma raw_string_chars n src t c : parse_raw_string n src = Some t → c ∈ t → c ∈ src.
Proof.
  unfold parse_raw_string. case_match; [done|].
  intros (raw & Hr & Ht)%bind_Some Hc. eapply utf8_text_chars; [done|]. by eapply strip_chars.
Qed.

Lemma literal_word_chars n src t c : parse_literal_shell_word n src = Some t → c ∈ t → c ∈ src.
Proof.
  revert t. induction n as [k nm s e cs IH] using Node_ind'; intros t. cbn [parse_literal_shell_word].
  destruct (_ || _); [case_match; [apply utf8_text_chars|done]|].
  destruct (is_kind "string" _); [apply double_quoted_chars|].
  destruct (is_kind "raw_string" _); [apply raw_string_chars|].
  destruct (is_kind "concatenation" _); [|done]. simpl.
  intros (ws & Hws & Ht)%bind_Some. destruct (is_nil ws); [done|]. injection Ht as <-. revert ws Hws.
  induction IH as [|part parts Hp _ IHps]; intros ws; [intros [= <-]; set_solver|].
  destruct (is_named part); [|apply IHps].
  intros (w & Hw & (rest & Hr & [= <-])%bind_Some)%bind_Some [?|?]%elem_of_app; eauto.
Qed.

Lemma literal_words_chars found l src found' words w c :
  literal_words found l src = Some (found', words) → w ∈ words → c ∈ w → c ∈ src.
Proof.
  revert found found' words. induction l as [|n l IH]; intros found found' words; simpl.
  { intros [= <- <-]. set_solver. }
  destruct (is_kind "command_name" n).
  - intros (wn & _ & (name & Hn & ([f ws] & Hw & [= <- <-])%bind_Some)%bind_Some)%bind_Some.
    intros [->|?]%elem_of_cons; [by eapply literal_word_chars|by eapply IH].
  - intros ([f ws] & Hw & Hm)%bind_Some.
    destruct (if found then parse_literal_shell_word n src else None) as [word|] eqn:E; simplify_eq; [|by eapply IH].
    destruct found; [|done]. intros [->|?]%elem_of_cons; [by eapply literal_word_chars|by eapply IH].
Qed.

Lemma literal_command_chars n src words w c :
  parse_literal_command_from_node n src = Some words → w ∈ words → c ∈ w → c ∈ src.
Proof.
  unfold parse_literal_command_from_node. case_match; [done|].
  destruct (literal_words _ _ _) as [[[] ws]|] eqn:E; [|done..]. intros [= <-]. by eapply literal_words_chars.
Qed.

(** * Which shell *)

Lemma file_stem_name p n : file_name p = Some n → file_stem n = Some n → file_name n = Some n →
  file_stem p = Some n.
Proof. unfold file_stem. intros -> Hs Hn. rewrite Hn in Hs. done. Qed.

(** A program whose name has no extension and is not a shell's is no shell. *)
Lemma detect_not_shell p n :
  file_name p = Some n → file_stem n = Some n → file_name n = Some n → shell_named n = None →
  detect_shell_type p = None.
Proof.
  intros Hp Hs Hn Hsh. unfold detect_shell_type. cbn [detect_loop].
  destruct (shell_named p) as [t|] eqn:E.
  { exfalso. assert (file_name p = Some p) as Hpp.
    { unfold shell_named in E. repeat (case_decide; [subst; by vm_compute|]). done. }
    congruence. }
  rewrite (file_stem_name p n) by done. simpl. case_decide; [done|].
  destruct (length p) as [|f]; [done|]. simpl. rewrite Hsh, Hs. simpl. by rewrite decide_True.
Qed.

(** ** The search for the shell ends *)

Lemma split_on_piece d s p : p ∈ split_on d s → length p ≤ length s ∧ (length p = length s → p = s).
Proof.
  revert p. induction s as [|c s IH]; intros p; simpl; [intros ->%list_elem_of_singleton; done|].
  case_decide as Hc.
  - intros [->|Hp]%elem_of_cons; simpl; [lia|]. apply IH in Hp as [??]. lia.
  - pose proof (split_on_nonempty d s). destruct (split_on d s) as [|l ls] eqn:E; [done|].
    intros [->|Hp]%elem_of_cons; simpl.
    + destruct (IH l) as [? Heq]; [left|]. split; [lia|]. intros. f_equal. apply Heq. lia.
    + destruct (IH p) as [??]; [by right|]. lia.
Qed.

Lemma split_on_chars d s p : p ∈ split_on d s → ∀ c, c ∈ p → c ∈ s.
Proof.
  revert p. induction s as [|a s IH]; intros p; simpl; [intros ->%list_elem_of_singleton; set_solver|].
  case_decide.
  - intros [->|Hp]%elem_of_cons c Hc; [set_solver|right; by eapply IH].
  - destruct (split_on d s) as [|l ls]; [intros ->%list_elem_of_singleton; set_solver|].
    intros [->|Hp]%elem_of_cons c Hc.
    + apply elem_of_cons in Hc as [->|Hc]; [left|right]. eapply IH; [left|done].
    + right. eapply IH; [right|]; done.
Qed.

Lemma elem_of_components p x : x ∈ components p → x = lit "/" ∨ x = lit "." ∨ x ∈ split_on 47 p.
Proof.
  assert (x ∈ filter (λ q, q ≠ [] ∧ q ≠ lit ".") (split_on 47 p) → x ∈ split_on 47 p) as Hn
    by (by intros [_ ?]%list_elem_of_filter).
  unfold components. revert Hn. generalize (filter (λ q, q ≠ [] ∧ q ≠ lit ".") (split_on 47 p)).
  intros names Hn Hx. cut (x = lit "/" ∨ x = lit "." ∨ x ∈ names); [tauto|]. clear Hn.
  destruct (split_on 47 p) as [|[|a q] [|r ps]]; try case_decide as E; rewrite ?E in Hx;
    rewrite ?elem_of_cons in Hx; tauto.
Qed.

Lemma file_stem_shrinks p n : file_stem p = Some n → length n ≤ length p ∧ (length n = length p → n = p).
Proof.
  unfold file_stem, file_name, components. intros (name & (l & Hl & Hn)%bind_Some & [= <-])%bind_Some.
  case_decide as Hx; [done|]. injection Hn as ->. apply last_Some_elem_of in Hl.
  assert (name ∈ split_on 47 p) as Hp%split_on_piece by (apply elem_of_components in Hl as [->|[->|?]]; set_solver).
  destruct (rsplit_once 46 name) as [[b a]|] eqn:E; [|done]. apply rsplit_once_Some in E as ->.
  destruct (is_nil b); [done|]. rewrite length_app in *. simpl in *. lia.
Qed.

(** [detect_shell_type] is the recursive function of the source: the fuel is
    never used up. *)
Lemma detect_shell_type_eq shell_path :
  detect_shell_type shell_path =
    match shell_named shell_path with
    | Some t => Some t
    | None =>
        shell_name ← file_stem shell_path;
        if decide (components shell_name = components shell_path) then None
        else detect_shell_type shell_name
    end.
Proof.
  assert (∀ f g p, length p < f → length p < g → detect_loop f p = detect_loop g p) as Hfuel.
  { induction f as [|f IH]; intros [|g] p ??; try lia. simpl. destruct (shell_named p); [done|].
    destruct (file_stem p) as [n|] eqn:E; [|done]. simpl. case_decide as Hc; [done|].
    apply file_stem_shrinks in E as [Hle Heq].
    assert (length n ≠ length p) by (intros He; destruct Hc; by rewrite Heq). apply IH; lia. }
  unfold detect_shell_type at 1. simpl. destruct (shell_named shell_path); [done|].
  destruct (file_stem shell_path) as [n|] eqn:E; [|done]. simpl. case_decide as Hc; [done|].
  apply file_stem_shrinks in E as [Hle Heq].
  assert (length n ≠ length shell_path) by (intros He; destruct Hc; by rewrite Heq). apply Hfuel; lia.
Qed.
