(* ===== verification/ShellSafety.v ===== *)
(** Which commands run without asking, and which are dangerous
    ([shell-command/src/command_safety/is_safe_command.rs] and
    [is_dangerous_command.rs]), as they are compiled outside Windows. *)

From S2P Require Import Prelude Text ShellSyntax.

(** [executable_name_lookup_key] *)
Definition executable_name_lookup_key (raw : str) : option str := file_name raw.

(** * Git *)

Definition is_git_global_option_with_value (arg : str) : bool :=
  bool_decide (arg ∈ [lit "-C"; lit "-c"; lit "--config-env"; lit "--exec-path"; lit "--git-dir";
                      lit "--namespace"; lit "--super-prefix"; lit "--work-tree"]).

Definition is_git_global_option_with_inline_value (arg : str) : bool :=
  existsb (starts_with arg)
    [lit "--config-env="; lit "--exec-path="; lit "--git-dir="; lit "--namespace="; lit "--super-prefix=";
     lit "--work-tree="]
  || ((starts_with arg (lit "-C") || starts_with arg (lit "-c")) && bool_decide (2 < byte_len arg)%N).

(** The loop of [find_git_subcommand] from position [idx]. *)
Fixpoint find_subcommand_from (subcommands : list str) (idx : nat) (skip_next : bool) (l : list str) :
    option (nat * str) :=
  match l with
  | [] => None
  | arg :: l =>
      if skip_next then find_subcommand_from subcommands (S idx) false l
      else if is_git_global_option_with_inline_value arg then find_subcommand_from subcommands (S idx) false l
      else if is_git_global_option_with_value arg then find_subcommand_from subcommands (S idx) true l
      else if bool_decide (arg = lit "--") || starts_with arg (lit "-") then
        find_subcommand_from subcommands (S idx) false l
      else if decide (arg ∈ subcommands) then Some (idx, arg)
      else None
  end.

Definition find_git_subcommand (command subcommands : list str) : option (nat * str) :=
  cmd0 ← head command;
  if decide (executable_name_lookup_key cmd0 = Some (lit "git"))
  then find_subcommand_from subcommands 1 false (tail command)
  else None.

Inductive GitOptionPattern := Exact (option : str) | ShortWithInlineValue (option : str) | Prefix (prefix : str).

Definition UNSAFE_GIT_GLOBAL_OPTIONS : list GitOptionPattern :=
  [Exact (lit "-C"); ShortWithInlineValue (lit "-C"); Exact (lit "-c"); ShortWithInlineValue (lit "-c");
   Exact (lit "-p"); Exact (lit "--config-env"); Prefix (lit "--config-env=");
   Exact (lit "--exec-path"); Prefix (lit "--exec-path="); Exact (lit "--git-dir"); Prefix (lit "--git-dir=");
   Exact (lit "--namespace"); Prefix (lit "--namespace="); Exact (lit "--paginate");
   Exact (lit "--super-prefix"); Prefix (lit "--super-prefix=");
   Exact (lit "--work-tree"); Prefix (lit "--work-tree=")].

Definition UNSAFE_GIT_SUBCOMMAND_OPTIONS : list GitOptionPattern :=
  [Exact (lit "--output"); Prefix (lit "--output="); Exact (lit "--ext-diff"); Exact (lit "--textconv");
   Exact (lit "--exec"); Prefix (lit "--exec=")].

Definition pattern_matches (pattern : GitOptionPattern) (arg : str) : bool :=
  match pattern with
  | Exact option => bool_decide (arg = option)
  | ShortWithInlineValue option => starts_with arg option && bool_decide (byte_len option < byte_len arg)%N
  | Prefix prefix => starts_with arg prefix
  end.

Definition git_matches_option_pattern (arg : str) (patterns : list GitOptionPattern) : bool :=
  existsb (λ pattern, pattern_matches pattern arg) patterns.

Arguments git_matches_option_pattern _ _ : simpl never.

Definition git_has_unsafe_global_option (global_args : list str) : bool :=
  existsb (λ arg, git_matches_option_pattern arg UNSAFE_GIT_GLOBAL_OPTIONS) global_args.

Definition git_subcommand_args_are_read_only (args : list str) : bool :=
  negb (existsb (λ arg, git_matches_option_pattern arg UNSAFE_GIT_SUBCOMMAND_OPTIONS) args).

Definition is_read_only_branch_flag (arg : str) : bool :=
  bool_decide (arg ∈ [lit "--list"; lit "-l"; lit "--show-current"; lit "-a"; lit "--all"; lit "-r";
                      lit "--remotes"; lit "-v"; lit "-vv"; lit "--verbose"])
  || starts_with arg (lit "--format=").

(** The loop: it ends with whether a flag was seen. *)
Fixpoint branch_flags (saw_read_only_flag : bool) (branch_args : list str) : bool :=
  match branch_args with
  | [] => saw_read_only_flag
  | arg :: branch_args => if is_read_only_branch_flag arg then branch_flags true branch_args else false
  end.

Definition git_branch_is_read_only (branch_args : list str) : bool :=
  if is_nil branch_args then true else branch_flags false branch_args.

Definition safe_git_subcommands : list str :=
  [lit "status"; lit "log"; lit "diff"; lit "show"; lit "branch"].

Definition is_safe_git_command (command : list str) : bool :=
  match find_git_subcommand command safe_git_subcommands with
  | None => false
  | Some (subcommand_idx, subcommand) =>
      let global_args := drop 1 (take subcommand_idx command) in
      if git_has_unsafe_global_option global_args then false
      else
        let subcommand_args := drop (subcommand_idx + 1) command in
        if decide (subcommand ∈ [lit "status"; lit "log"; lit "diff"; lit "show"])
        then git_subcommand_args_are_read_only subcommand_args
        else if decide (subcommand = lit "branch")
        then git_subcommand_args_are_read_only subcommand_args && git_branch_is_read_only subcommand_args
        else false
  end.

(** * Other commands *)

(** Matches [^(\d+,)?\d+p$]. *)
Definition is_digits (s : str) : bool :=
  negb (is_nil s) && forallb (λ c, bool_decide (48 ≤ c ≤ 57)%N) s.
Definition is_valid_sed_n_arg (arg : option str) : bool :=
  match arg ≫= strip_suffix (lit "p") with
  | None => false
  | Some core =>
      match split_on 44 core with
      | [num] => is_digits num
      | [a; b] => is_digits a && is_digits b
      | _ => false
      end
  end.

Definition UNSAFE_BASE64_OPTIONS : list str := [lit "-o"; lit "--output"].
Definition UNSAFE_FIND_OPTIONS : list str :=
  [lit "-exec"; lit "-execdir"; lit "-ok"; lit "-okdir"; lit "-delete"; lit "-fls"; lit "-fprint";
   lit "-fprint0"; lit "-fprintf"].
Definition UNSAFE_RIPGREP_OPTIONS_WITH_ARGS : list str := [lit "--pre"; lit "--hostname-bin"].
Definition UNSAFE_RIPGREP_OPTIONS_WITHOUT_ARGS : list str := [lit "--search-zip"; lit "-z"].

Definition linux_safe_commands : list str := [lit "numfmt"; lit "tac"].
Definition safe_commands : list str :=
  [lit "cat"; lit "cd"; lit "cut"; lit "echo"; lit "expr"; lit "false"; lit "grep"; lit "head"; lit "id";
   lit "ls"; lit "nl"; lit "paste"; lit "pwd"; lit "rev"; lit "seq"; lit "stat"; lit "tail"; lit "tr";
   lit "true"; lit "uname"; lit "uniq"; lit "wc"; lit "which"; lit "whoami"].

Definition unsafe_base64_arg (arg : str) : bool :=
  bool_decide (arg ∈ UNSAFE_BASE64_OPTIONS) || starts_with arg (lit "--output=")
  || (starts_with arg (lit "-o") && negb (bool_decide (arg = lit "-o"))).
Definition unsafe_rg_arg (arg : str) : bool :=
  bool_decide (arg ∈ UNSAFE_RIPGREP_OPTIONS_WITHOUT_ARGS)
  || existsb (λ opt, bool_decide (arg = opt) || starts_with arg (opt ++ lit "="))
       UNSAFE_RIPGREP_OPTIONS_WITH_ARGS.

Inductive DangerousCommandMatch := ForcedRm | Other.

Section code.
(** [cfg!(target_os = "linux")], and the bash parser. *)
Variables (linux : bool) (try_parse_shell : str → option Tree).

Definition is_safe_to_call_with_exec (command : list str) : bool :=
  match head command ≫= executable_name_lookup_key with
  | None => false
  | Some cmd =>
      if linux && bool_decide (cmd ∈ linux_safe_commands) then true
      else if decide (cmd ∈ safe_commands) then true
      else if decide (cmd = lit "base64") then negb (existsb unsafe_base64_arg (drop 1 command))
      else if decide (cmd = lit "find") then
        negb (existsb (λ arg, bool_decide (arg ∈ UNSAFE_FIND_OPTIONS)) command)
      else if decide (cmd = lit "rg") then negb (existsb unsafe_rg_arg command)
      else if decide (cmd = lit "git") then is_safe_git_command command
      else if decide (cmd = lit "sed") then
        bool_decide (length command ≤ 4) && bool_decide (command !! 1 = Some (lit "-n"))
        && is_valid_sed_n_arg (command !! 2)
      else false
  end.

Definition zsh_to_bash (s : str) : str := if decide (s = lit "zsh") then lit "bash" else s.

Definition is_known_safe_command (command : list str) : bool :=
  let command := zsh_to_bash <$> command in
  if is_safe_to_call_with_exec command then true
  else
    match parse_shell_lc_plain_commands try_parse_shell command with
    | Some all_commands => negb (is_nil all_commands) && forallb is_safe_to_call_with_exec all_commands
    | None => false
    end.

(** * Dangerous commands *)

Definition MAX_DANGEROUS_COMMAND_WRAPPER_DEPTH : nat := 8.

(** The arguments before [--]. *)
Fixpoint before_dashes (args : list str) : list str :=
  match args with
  | [] => []
  | arg :: args => if decide (arg = lit "--") then [] else arg :: before_dashes args
  end.

Definition is_force_option (arg : str) : bool :=
  bool_decide (arg = lit "--force")
  || match strip_prefix (lit "-") arg with
     | Some flags => negb (starts_with flags (lit "-")) && bool_decide (102%N ∈ flags)
     | None => false
     end.

Definition rm_args_include_force_option (args : list str) : bool :=
  existsb is_force_option (before_dashes args).

Definition is_assignment (argument : str) : bool :=
  match split_once 61 argument with
  | Some (name, _) => negb (is_nil name) && negb (starts_with name (lit "-"))
  | None => false
  end.

(** The command that [env] runs: the loop over its arguments. *)
Fixpoint env_command (args : list str) : list str :=
  match args with
  | [] => []
  | argument :: rest =>
      if decide (argument = lit "--") then rest
      else if bool_decide (argument ∈ [lit "-i"; lit "--ignore-environment"]) || is_assignment argument
      then env_command rest
      else args
  end.

(** The action of a [trap]. *)
Definition trap_action (command : list str) : option str :=
  let action_index := if decide (command !! 1 = Some (lit "--")) then 2 else 1 in
  action ← command !! action_index;
  if starts_with action (lit "-") then None else Some action.

(** [dangerous_command_match_for_exec]; [recurse] is the call at the next
    depth. *)
Definition dangerous_command_match_for_exec (recurse : list str → option DangerousCommandMatch)
    (command : list str) : option DangerousCommandMatch :=
  match head command ≫= executable_name_lookup_key with
  | None => None
  | Some cmd0 =>
      if bool_decide (cmd0 = lit "rm") && rm_args_include_force_option (drop 1 command) then Some ForcedRm
      else if decide (cmd0 = lit "sudo") then recurse (drop 1 command)
      else if decide (cmd0 = lit "env") then recurse (env_command (drop 1 command))
      else if decide (cmd0 = lit "trap") then
        action ← trap_action command; recurse [lit "sh"; lit "-c"; action]
      else None
  end.

(** [levels] is what is left of the depth: [wrapper_depth] is
    [MAX_DANGEROUS_COMMAND_WRAPPER_DEPTH + 1 - levels]. *)
Fixpoint dangerous_command_match_with_depth (levels : nat) (command : list str) :
    option DangerousCommandMatch :=
  match levels with
  | 0 => None
  | S levels =>
      let recurse := dangerous_command_match_with_depth levels in
      match dangerous_command_match_for_exec recurse command with
      | Some dangerous_match => Some dangerous_match
      | None =>
          commands ← parse_shell_lc_literal_commands try_parse_shell command;
          head (omap recurse commands)
      end
  end.

Definition dangerous_command_match (command : list str) : option DangerousCommandMatch :=
  dangerous_command_match_with_depth (S MAX_DANGEROUS_COMMAND_WRAPPER_DEPTH) command.
End code.

(** * Approved git commands *)

Definition unsafe_global (arg : str) : bool := git_matches_option_pattern arg UNSAFE_GIT_GLOBAL_OPTIONS.
Definition writes_or_executes (arg : str) : bool :=
  git_matches_option_pattern arg UNSAFE_GIT_SUBCOMMAND_OPTIONS.

(** The shape of an approved git command. *)
Definition read_only_git (command : list str) : Prop :=
  ∃ git globals subcommand args, command = git :: globals ++ subcommand :: args
    ∧ executable_name_lookup_key git = Some (lit "git")
    ∧ subcommand ∈ safe_git_subcommands
    ∧ Forall (λ arg, starts_with arg (lit "-") = true ∧ unsafe_global arg = false) globals
    ∧ Forall (λ arg, writes_or_executes arg = false) args
    ∧ (subcommand = lit "branch" → Forall (λ arg, is_read_only_branch_flag arg = true) args).

Lemma existsb_false {A} (f : A → bool) l : existsb f l = false ↔ Forall (λ x, f x = false) l.
Proof.
  induction l as [|x l IH]; simpl; [by split; [constructor|]|].
  by rewrite orb_false_iff, Forall_cons, IH.
Qed.

(** Options that take their value from the next word are never approved. *)
Lemma with_value_unsafe arg : is_git_global_option_with_value arg = true → unsafe_global arg = true.
Proof.
  intros Ha%bool_decide_eq_true. revert arg Ha. apply Forall_forall.
  apply (bool_decide_unpack _). by vm_compute.
Qed.

Lemma dashed arg p : starts_with arg (45%N :: p) = true → starts_with arg (lit "-") = true.
Proof. rewrite !starts_with_true. intros [r ->]. by exists (p ++ r). Qed.

Lemma inline_value_dashed arg :
  is_git_global_option_with_inline_value arg = true → starts_with arg (lit "-") = true.
Proof.
  unfold is_git_global_option_with_inline_value. simpl.
  intros H. repeat (apply orb_prop in H as [H|H]); try done;
    try (apply andb_prop in H as [H _]; apply orb_prop in H as [H|H]); by apply dashed in H.
Qed.

Lemma find_subcommand_spec subs idx l i s :
  find_subcommand_from subs idx false l = Some (i, s) →
  Forall (λ arg, unsafe_global arg = false) (take (i - idx) l) →
  idx ≤ i ∧ s ∈ subs ∧ l = take (i - idx) l ++ s :: drop (S (i - idx)) l
  ∧ Forall (λ arg, starts_with arg (lit "-") = true) (take (i - idx) l).
Proof.
  assert (∀ l idx sk, find_subcommand_from subs idx sk l = Some (i, s) → idx ≤ i) as Hle.
  { clear. induction l as [|arg l IH]; intros idx sk; simpl; [done|].
    repeat case_match; try done; intros Hf; try (apply IH in Hf; lia). simplify_eq. lia. }
  revert idx. induction l as [|arg l IH]; intros idx; simpl; [done|]. intros Hf Hu.
  assert (∀ sk, find_subcommand_from subs (S idx) sk l = Some (i, s) → unsafe_global arg = false) as Harg.
  { intros sk Hs. apply Hle in Hs. destruct (i - idx) eqn:E; [lia|]. by inversion Hu. }
  assert (find_subcommand_from subs (S idx) false l = Some (i, s) → starts_with arg (lit "-") = true →
    idx ≤ i ∧ s ∈ subs ∧ arg :: l = take (i - idx) (arg :: l) ++ s :: drop (S (i - idx)) (arg :: l)
    ∧ Forall (λ arg, starts_with arg (lit "-") = true) (take (i - idx) (arg :: l))) as Hstep.
  { intros Hs Hd. pose proof (Hle _ _ _ Hs). replace (i - idx) with (S (i - S idx)) in * by lia. simpl in *.
    apply Forall_cons in Hu as [_ Hu]. destruct (IH _ Hs Hu) as (? & ? & Heq & ?).
    split_and!; [lia|done|by rewrite <- Heq|by constructor]. }
  destruct (is_git_global_option_with_inline_value arg) eqn:Ei; [by apply Hstep, inline_value_dashed|].
  destruct (is_git_global_option_with_value arg) eqn:Ev.
  { apply with_value_unsafe in Ev. apply Harg in Hf. congruence. }
  destruct (bool_decide (arg = lit "--")) eqn:Ed; simpl in Hf.
  { apply bool_decide_eq_true in Ed. apply Hstep; [done|]. subst. by vm_compute. }
  destruct (starts_with arg (lit "-")) eqn:Es; [by apply Hstep|].
  case_decide; [|done]. simplify_eq. rewrite Nat.sub_diag. simpl. rewrite drop_0. split_and!; auto.
Qed.

Lemma find_subcommand_found subs idx globals s args :
  s ∈ subs → Forall (λ arg, starts_with arg (lit "-") = false ∧ is_git_global_option_with_inline_value arg = false
                            ∧ is_git_global_option_with_value arg = false) subs →
  Forall (λ arg, starts_with arg (lit "-") = true ∧ unsafe_global arg = false) globals →
  find_subcommand_from subs idx false (globals ++ s :: args) = Some (idx + length globals, s).
Proof.
  intros Hs Hsubs Hg. revert idx. induction Hg as [|g globals [Hd Hu] _ IH]; intros idx; simpl.
  - rewrite Forall_forall in Hsubs. destruct (Hsubs s Hs) as (Hd & -> & ->). rewrite Hd.
    rewrite bool_decide_false by (intros ->; by vm_compute in Hd). simpl. rewrite decide_True by done.
    by rewrite Nat.add_0_r.
  - rewrite IH, Hd, orb_true_r. replace (idx + S (length globals)) with (S idx + length globals) by lia.
    destruct (is_git_global_option_with_value g) eqn:Ev; [by apply with_value_unsafe in Ev; congruence|].
    by destruct (is_git_global_option_with_inline_value g).
Qed.

Lemma branch_flags_spec saw args :
  branch_flags saw args = true ↔ Forall (λ arg, is_read_only_branch_flag arg = true) args ∧ (saw = true ∨ args ≠ []).
Proof.
  revert saw. induction args as [|arg args IH]; intros saw; simpl.
  - naive_solver.
  - rewrite Forall_cons. destruct (is_read_only_branch_flag arg); [rewrite IH|]; naive_solver.
Qed.

Lemma git_branch_read_only_spec args :
  git_branch_is_read_only args = true ↔ Forall (λ arg, is_read_only_branch_flag arg = true) args.
Proof.
  unfold git_branch_is_read_only. destruct args as [|arg args]; [by split|]. cbn [is_nil].
  rewrite branch_flags_spec. naive_solver.
Qed.

(** Git commands that run without asking: exactly those whose first word
    after the global options is one of the read-only subcommands, whose global
    options all begin with a dash and redirect neither the repository, nor the
    configuration, nor the programs git runs, and whose arguments neither write
    a file nor run a program; for [branch] every argument is a listing flag.  No
    option that takes the next word as its value can hide a subcommand. *)
Theorem safe_git_commands_are_read_only command : is_safe_git_command command = true ↔ read_only_git command.
Proof.
  unfold is_safe_git_command, find_git_subcommand, git_has_unsafe_global_option,
    git_subcommand_args_are_read_only. split.
  - destruct command as [|git l]; [done|]. simpl. case_decide as Hgit; [|done].
    destruct (find_subcommand_from _ 1 false l) as [[i s]|] eqn:Hf; [|done].
    destruct (existsb _ _) eqn:Hg; [done|]. rewrite existsb_false in Hg.
    destruct i as [|i]; [simpl in *|].
    { exfalso. revert Hf. generalize false. assert (0 < 1) as H1 by lia. revert H1. generalize 1.
      clear. induction l as [|a l IH]; intros n Hn sk; simpl; [done|].
      repeat case_match; try done; try (apply IH; lia). intros [= -> _]. lia. }
    simpl in Hg. rewrite ?drop_0 in Hg.
    apply find_subcommand_spec in Hf as (_ & Hs & Hl & Hd); [|by rewrite Nat.sub_succ, Nat.sub_0_r].
    rewrite Nat.sub_succ, Nat.sub_0_r in *. rewrite Nat.add_1_r.
    intros Hargs. exists git, (take i l), s, (drop (S i) l). rewrite <- Hl.
    assert (existsb (λ arg, git_matches_option_pattern arg UNSAFE_GIT_SUBCOMMAND_OPTIONS) (drop (S i) l) = false
            ∧ (s = lit "branch" → git_branch_is_read_only (drop (S i) l) = true)) as [Ha Hb].
    { case_decide as Hx; [apply negb_true_iff in Hargs; split; [done|intros ->; exfalso; revert Hx; apply (bool_decide_unpack _); by vm_compute]|].
      case_decide; [|done]. by apply andb_prop in Hargs as [Hargs%negb_true_iff ?]. }
    split_and!; [done..| | |].
    + rewrite Forall_forall in *. intros x Hx. split; [by apply Hd|by apply Hg].
    + by apply existsb_false.
    + intros. by apply git_branch_read_only_spec, Hb.
  - intros (git & globals & s & args & -> & Hgit & Hs & Hg & Ha & Hb). simpl.
    rewrite decide_True by done. rewrite find_subcommand_found; [|done|apply (bool_decide_unpack _); by vm_compute|done].
    simpl. rewrite drop_0, take_app_length.
    rewrite (proj2 (existsb_false _ globals)) by (eapply Forall_impl; [done|]; naive_solver).
    replace (drop (length globals + 1) (globals ++ s :: args)) with args
      by (rewrite drop_app_ge by lia; by replace (length globals + 1 - length globals) with 1 by lia).
    rewrite (proj2 (existsb_false _ args)) by done. simpl. case_decide as Hx; [done|]. case_decide as Hy.
    + by apply git_branch_read_only_spec, Hb.
    + exfalso. clear -Hs Hx Hy. unfold safe_git_subcommands in *. set_solver.
Qed.

(** * Dangerous commands *)

(** An option that forces: [--force], or a group of letters with an [f]. *)
Definition forces (arg : str) : Prop :=
  arg = lit "--force"
  ∨ ∃ flags, arg = lit "-" ++ flags ∧ ¬ lit "-" `prefix_of` flags ∧ 102%N ∈ flags.

(** [rm] with an option that forces, before any [--]. *)
Definition forced_rm (command : list str) : Prop :=
  ∃ rm before arg after, command = rm :: before ++ arg :: after
    ∧ executable_name_lookup_key rm = Some (lit "rm")
    ∧ lit "--" ∉ before ∧ arg ≠ lit "--" ∧ forces arg.

(** What [env] reads before its command: an option to forget the environment,
    or an assignment to a name. *)
Definition env_setting (arg : str) : Prop :=
  arg = lit "-i" ∨ arg = lit "--ignore-environment"
  ∨ ∃ name value, arg = name ++ lit "=" ++ value ∧ name ≠ [] ∧ 61%N ∉ name ∧ ¬ lit "-" `prefix_of` name.

Inductive env_runs : list str → list str → Prop :=
  | env_dashes settings command :
      Forall env_setting settings → env_runs (settings ++ lit "--" :: command) command
  | env_plain settings command :
      Forall env_setting settings →
      (∀ word, head command = Some word → ¬ env_setting word ∧ word ≠ lit "--") →
      env_runs (settings ++ command) command.

(** The action that [trap] runs: its first word, or the one behind [--], if it
    is no option. *)
Inductive trap_runs : list str → str → Prop :=
  | trap_first action rest :
      action ≠ lit "--" → ¬ lit "-" `prefix_of` action → trap_runs (action :: rest) action
  | trap_dashes action rest :
      ¬ lit "-" `prefix_of` action → trap_runs (lit "--" :: action :: rest) action.

Lemma starts_with_prefix s p : starts_with s p = true ↔ p `prefix_of` s.
Proof. apply starts_with_true. Qed.

Lemma is_force_option_spec arg : is_force_option arg = true ↔ forces arg.
Proof.
  unfold is_force_option, forces. rewrite orb_true_iff, bool_decide_eq_true.
  assert (match strip_prefix (lit "-") arg with
          | Some flags => negb (starts_with flags (lit "-")) && bool_decide (102%N ∈ flags)
          | None => false
          end = true ↔ ∃ flags, arg = lit "-" ++ flags ∧ ¬ lit "-" `prefix_of` flags ∧ 102%N ∈ flags) as ->;
    [|done].
  split.
  - destruct (strip_prefix _ arg) as [flags|] eqn:E; [|done]. apply strip_prefix_Some in E as ->.
    rewrite andb_true_iff, negb_true_iff, bool_decide_eq_true, <- not_true_iff_false, starts_with_prefix.
    intros [? ?]. by exists flags.
  - intros (flags & -> & Hn & Hf). rewrite strip_prefix_app.
    by rewrite andb_true_iff, negb_true_iff, bool_decide_eq_true, <- not_true_iff_false, starts_with_prefix.
Qed.

Lemma before_dashes_spec args arg :
  arg ∈ before_dashes args ↔
  ∃ before after, args = before ++ arg :: after ∧ lit "--" ∉ before ∧ arg ≠ lit "--".
Proof.
  induction args as [|x args IH]; simpl.
  { rewrite elem_of_nil. split; [done|]. by intros ([] & ? & ? & _). }
  case_decide as Hx.
  - rewrite elem_of_nil. split; [done|]. intros ([|y before] & after & Heq & Hb & Hn).
    + by injection Heq as <- _.
    + injection Heq as <- _. destruct Hb. rewrite Hx. constructor.
  - rewrite elem_of_cons, IH. split.
    + intros [->|(before & after & -> & ? & ?)]; [exists [], args; split_and!; [done|apply not_elem_of_nil|done]|].
      exists (x :: before), after. split_and!; [done| |done]. by apply not_elem_of_cons.
    + intros ([|y before] & after & Heq & Hb & Hn); injection Heq as <- ->; [by left|right].
      apply not_elem_of_cons in Hb as [_ ?]. by exists before, after.
Qed.

Lemma rm_force_spec args :
  rm_args_include_force_option args = true ↔
  ∃ before arg after, args = before ++ arg :: after ∧ lit "--" ∉ before ∧ arg ≠ lit "--" ∧ forces arg.
Proof.
  unfold rm_args_include_force_option. rewrite existsb_elem. split.
  - intros (arg & (before & after & ? & ? & ?)%before_dashes_spec & Hf%is_force_option_spec).
    by exists before, arg, after.
  - intros (before & arg & after & ? & ? & ? & ?). exists arg.
    split; [apply before_dashes_spec; by exists before, after|by apply is_force_option_spec].
Qed.

Lemma split_once_app d a b : d ∉ a → split_once d (a ++ d :: b) = Some (a, b).
Proof.
  induction a as [|x a IH]; simpl; [by rewrite decide_True|]. intros [Hx Ha]%not_elem_of_cons.
  rewrite decide_False by done. by rewrite IH.
Qed.

Lemma split_once_before d s a b : split_once d s = Some (a, b) → d ∉ a.
Proof.
  revert a. induction s as [|x s IH]; intros a; simpl; [done|]. case_decide as Hx.
  - intros [= <- _]. apply not_elem_of_nil.
  - destruct (split_once d s) as [[a' b']|]; [|done]. intros [= <- ->]. apply not_elem_of_cons. auto.
Qed.

Lemma env_setting_spec arg :
  bool_decide (arg ∈ [lit "-i"; lit "--ignore-environment"]) || is_assignment arg = true ↔ env_setting arg.
Proof.
  unfold env_setting. rewrite orb_true_iff, bool_decide_eq_true, !elem_of_cons, elem_of_nil.
  assert (is_assignment arg = true ↔
    ∃ name value, arg = name ++ lit "=" ++ value ∧ name ≠ [] ∧ 61%N ∉ name ∧ ¬ lit "-" `prefix_of` name) as ->;
    [|tauto].
  unfold is_assignment. split.
  - destruct (split_once 61 arg) as [[name value]|] eqn:E; [|done].
    rewrite andb_true_iff, !negb_true_iff, is_nil_false, <- not_true_iff_false, starts_with_prefix.
    intros [Hn Hp]. exists name, value. split_and!; [by apply split_once_Some in E|done| |done].
    by eapply split_once_before.
  - intros (name & value & -> & Hn & Hd & Hp). simpl. rewrite split_once_app by done.
    by rewrite andb_true_iff, !negb_true_iff, is_nil_false, <- not_true_iff_false, starts_with_prefix.
Qed.

Lemma dashes_no_setting : ¬ env_setting (lit "--").
Proof. rewrite <- env_setting_spec. vm_compute. done. Qed.

Lemma env_command_runs args : env_runs args (env_command args).
Proof.
  induction args as [|x args IH]; simpl; [by apply (env_plain [])|].
  case_decide as Hx; [subst; by apply (env_dashes [])|].
  destruct (_ || _) eqn:Hs.
  - apply env_setting_spec in Hs. destruct IH as [settings command Hf|settings command Hf Hh].
    + apply (env_dashes (x :: settings)). by constructor.
    + apply (env_plain (x :: settings)); [by constructor|done].
  - apply (env_plain []); [constructor|]. intros word [= <-]. split; [|done].
    rewrite <- env_setting_spec. by rewrite Hs.
Qed.

Lemma env_runs_command args command : env_runs args command → env_command args = command.
Proof.
  assert (∀ settings rest, Forall env_setting settings → env_command (settings ++ rest) = env_command rest)
    as Hskip.
  { intros settings rest Hf. induction Hf as [|x settings Hx _ IH]; [done|]. simpl.
    rewrite decide_False by (intros ->; by apply dashes_no_setting).
    apply env_setting_spec in Hx as ->. done. }
  intros [settings c Hf|settings c Hf Hh]; rewrite Hskip by done; [done|].
  destruct c as [|word c]; [done|]. destruct (Hh word eq_refl) as [Hn Hd]. simpl.
  rewrite decide_False by done. rewrite <- env_setting_spec in Hn. by destruct (_ || _).
Qed.

Lemma trap_action_spec trap args action :
  trap_action (trap :: args) = Some action ↔ trap_runs args action.
Proof.
  assert (∀ a, (if starts_with a (lit "-") then None else Some a) = Some action
               ↔ a = action ∧ ¬ lit "-" `prefix_of` action) as Hopt.
  { intros a. destruct (starts_with a (lit "-")) eqn:E.
    - apply starts_with_prefix in E. split; [done|]. by intros [-> ?].
    - apply not_true_iff_false in E. rewrite starts_with_prefix in E. naive_solver. }
  unfold trap_action. destruct args as [|x args]; simpl.
  { split; [done|]. inversion 1. }
  case_decide as Hx; simpl.
  - injection Hx as ->. destruct args as [|y args]; simpl.
    + split; [done|]. inversion 1; done.
    + rewrite Hopt. split; [intros [-> ?]; by constructor|]. inversion 1; by subst.
  - rewrite Hopt. split.
    + intros [-> ?]. constructor; [congruence|done].
    + inversion 1; subst; [done|]. congruence.
Qed.

Section danger.
Context (try_parse_shell : str → option Tree).

(** One wrapper taken off: what [sudo], [env], [trap] or a shell runs. *)
Inductive unwraps : list str → list str → Prop :=
  | unwrap_sudo sudo command :
      executable_name_lookup_key sudo = Some (lit "sudo") → unwraps (sudo :: command) command
  | unwrap_env env args command :
      executable_name_lookup_key env = Some (lit "env") → env_runs args command →
      unwraps (env :: args) command
  | unwrap_trap trap args action :
      executable_name_lookup_key trap = Some (lit "trap") → trap_runs args action →
      unwraps (trap :: args) [lit "sh"; lit "-c"; action]
  | unwrap_shell command commands literal :
      parse_shell_lc_literal_commands try_parse_shell command = Some commands → literal ∈ commands →
      unwraps command literal.

Lemma for_exec_spec recurse command :
  (∀ c m, recurse c = Some m → m = ForcedRm) →
  (∀ m, dangerous_command_match_for_exec recurse command = Some m → m = ForcedRm)
  ∧ (dangerous_command_match_for_exec recurse command = Some ForcedRm →
      forced_rm command ∨ ∃ c, unwraps command c ∧ recurse c = Some ForcedRm)
  ∧ (forced_rm command → dangerous_command_match_for_exec recurse command = Some ForcedRm).
Proof.
  intros Hr. unfold dangerous_command_match_for_exec.
  destruct command as [|cmd args]; simpl; [split_and!; [done..|by intros (?&?&?&?&?&_)]|]. rewrite !drop_0.
  destruct (executable_name_lookup_key cmd) as [key|] eqn:Ek.
  2: { split_and!; [done..|]. intros (? & ? & ? & ? & [= <- _] & ? & _). congruence. }
  split_and!.
  - intros m. repeat case_match; try done; try apply Hr; [congruence|].
    intros (action & _ & ?)%bind_Some. by eapply Hr.
  - case_match eqn:E.
    { intros _. left. apply andb_prop in E as [->%bool_decide_eq_true Hf].
      apply rm_force_spec in Hf as (before & arg & after & -> & ? & ? & ?). by exists cmd, before, arg, after. }
    clear E. repeat case_decide; subst; try done.
    + intros. right. exists args. split; [by constructor|done].
    + intros. right. eexists. split; [apply unwrap_env; [done|apply env_command_runs]|done].
    + intros (action & Ha & ?)%bind_Some. apply trap_action_spec in Ha.
      right. eexists. split; [by apply unwrap_trap|done].
  - intros (rm & before & arg & after & [= <- ->] & Hk & Hf). rewrite Ek in Hk. injection Hk as ->.
    by rewrite (proj2 (rm_force_spec _)) by (by exists before, arg, after).
Qed.

(** The exec rules follow every wrapper that is not a shell. *)
Lemma for_exec_unwraps recurse command c :
  unwraps command c → recurse c = Some ForcedRm → (∀ c m, recurse c = Some m → m = ForcedRm) →
  dangerous_command_match_for_exec recurse command = Some ForcedRm
  ∨ (∃ commands, parse_shell_lc_literal_commands try_parse_shell command = Some commands ∧ c ∈ commands).
Proof.
  intros Hu Hc Hr. unfold dangerous_command_match_for_exec.
  destruct Hu as [cmd args Hk|cmd args command Hk He|cmd args action Hk Ha|]; [left..|by right; eauto];
    simpl; rewrite Hk; simpl.
  - by rewrite drop_0.
  - by rewrite drop_0, (env_runs_command _ _ He).
  - by rewrite (proj2 (trap_action_spec cmd args action) Ha).
Qed.

Lemma dangerous_only_rm levels command m :
  dangerous_command_match_with_depth try_parse_shell levels command = Some m → m = ForcedRm.
Proof.
  revert command m. induction levels as [|levels IH]; intros command m; simpl; [done|].
  destruct (dangerous_command_match_for_exec _ command) as [m'|] eqn:E.
  - intros [= <-]. by apply (for_exec_spec _ command IH).
  - intros (commands & _ & (c & _ & Hc)%head_omap_Some)%bind_Some. by eapply IH.
Qed.

Lemma dangerous_with_depth_spec levels command :
  dangerous_command_match_with_depth try_parse_shell levels command = Some ForcedRm
  ↔ ∃ n c, n < levels ∧ nsteps unwraps n command c ∧ forced_rm c.
Proof.
  revert command. induction levels as [|levels IH]; intros command; simpl.
  { split; [done|]. intros (n & c & ? & _). lia. }
  set (recurse := dangerous_command_match_with_depth try_parse_shell levels).
  assert (∀ c m, recurse c = Some m → m = ForcedRm) as Hr by apply dangerous_only_rm.
  destruct (for_exec_spec recurse command Hr) as (Honly & Hex & Hrm). split.
  - assert (∀ c, unwraps command c → recurse c = Some ForcedRm →
      ∃ n c', n < S levels ∧ nsteps unwraps n command c' ∧ forced_rm c') as Hstep.
    { intros c Hu (n & c' & ? & ? & ?)%IH. exists (S n), c'. split_and!; [lia|by econstructor|done]. }
    destruct (dangerous_command_match_for_exec recurse command) as [m|] eqn:E.
    + intros [= ->]. destruct (Hex eq_refl) as [?|(c & ? & ?)]; [|by eapply Hstep].
      exists 0, command. split_and!; [lia|constructor|done].
    + intros (commands & Hp & (c & ? & ?)%head_omap_Some)%bind_Some. apply (Hstep c); [by econstructor|done].
  - intros (n & c & Hn & Hs & Hf). destruct n as [|n].
    { inversion Hs; subst. by rewrite Hrm. }
    inversion Hs as [|? ? c' ? Hu Hs']; subst.
    assert (recurse c' = Some ForcedRm) as Hc' by (apply IH; exists n, c; split_and!; [lia|done..]).
    destruct (for_exec_unwraps recurse command c' Hu Hc' Hr) as [->|(commands & Hp & Hin)]; [done|].
    destruct (dangerous_command_match_for_exec recurse command) as [m|]; [by rewrite (Honly m)|].
    rewrite Hp. simpl. destruct (head_omap_exists recurse commands c' _ Hin Hc') as [m Hm].
    rewrite Hm. apply head_omap_Some in Hm as (x & _ & Hx). by rewrite (Hr x m).
Qed.
End danger.

(** C14: a command is dangerous exactly when at most eight wrappers ([sudo],
    [env] with its assignments, [trap], the literal commands of a shell
    script), taken off one after another, lead to an [rm] with a force option;
    nothing else is reported. *)
Theorem dangerous_iff_unwraps_to_forced_rm try_parse_shell command :
  (∀ m, dangerous_command_match try_parse_shell command = Some m → m = ForcedRm)
  ∧ (dangerous_command_match try_parse_shell command = Some ForcedRm
     ↔ ∃ n c, n ≤ MAX_DANGEROUS_COMMAND_WRAPPER_DEPTH
              ∧ nsteps (unwraps try_parse_shell) n command c ∧ forced_rm c).
Proof.
  split; [intros m; apply dangerous_only_rm|]. unfold dangerous_command_match.
  rewrite dangerous_with_depth_spec. by setoid_rewrite Nat.lt_succ_r.
Qed.

(** * Safe commands are not dangerous *)

Definition executables : list str :=
  linux_safe_commands ++ safe_commands ++ [lit "base64"; lit "find"; lit "rg"; lit "git"; lit "sed"].
Definition wrappers : list str := [lit "rm"; lit "sudo"; lit "env"; lit "trap"].

Definition plain_name (n : str) : Prop :=
  file_stem n = Some n ∧ file_name n = Some n ∧ shell_named n = None.

Lemma executables_plain n : n ∈ executables ++ wrappers → plain_name n.
Proof. revert n. apply Forall_forall. apply (bool_decide_unpack _). by vm_compute. Qed.

Lemma executables_not_wrappers n : n ∈ executables → n ∉ wrappers.
Proof. revert n. apply Forall_forall. apply (bool_decide_unpack _). by vm_compute. Qed.

Lemma safe_exec_head linux command :
  is_safe_to_call_with_exec linux command = true →
  ∃ w n, head command = Some w ∧ file_name w = Some n ∧ n ∈ executables.
Proof.
  unfold is_safe_to_call_with_exec. destruct (head command) as [w|]; [|done]. simpl.
  unfold executable_name_lookup_key. destruct (file_name w) as [n|] eqn:Hn; [|done]. intros Hs.
  exists w, n. split_and!; [done..|]. unfold executables.
  destruct (linux && _) eqn:El.
  { apply andb_prop in El as [_ El%bool_decide_eq_true]. set_solver. }
  repeat (case_decide; [set_solver|]). done.
Qed.

Section quiet.
Context (try_parse_shell : str → option Tree).

(** A command whose head is no wrapper, and of which a shell would run nothing
    dangerous. *)
Lemma quiet_command levels command w n :
  head command = Some w → file_name w = Some n → n ∉ wrappers →
  (∀ commands, parse_shell_lc_literal_commands try_parse_shell command = Some commands →
     ∀ levels c, c ∈ commands → dangerous_command_match_with_depth try_parse_shell levels c = None) →
  dangerous_command_match_with_depth try_parse_shell levels command = None.
Proof.
  intros Hw Hn Hnw Hq. destruct levels as [|levels]; [done|]. simpl.
  assert (∀ r, dangerous_command_match_for_exec r command = None) as ->.
  { intros r. unfold dangerous_command_match_for_exec, executable_name_lookup_key. rewrite Hw. simpl. rewrite Hn.
    unfold wrappers in Hnw. rewrite !decide_False, bool_decide_false by set_solver. done. }
  destruct (parse_shell_lc_literal_commands _ _) as [commands|]; [|done]. simpl.
  destruct (head (omap _ _)) as [m|] eqn:E; [|done]. apply head_omap_Some in E as (c & Hc & E).
  by rewrite (Hq commands eq_refl levels c Hc) in E.
Qed.

Lemma not_a_shell command w n :
  head command = Some w → file_name w = Some n → plain_name n →
  parse_shell_lc_literal_commands try_parse_shell command = None.
Proof.
  intros Hw Hn (Hs & Hf & Hsh). unfold parse_shell_lc_literal_commands, extract_bash_command.
  destruct command as [|w' [|flag [|script []]]]; try done. injection Hw as ->.
  case_decide; [|done]. by rewrite (detect_not_shell w n).
Qed.

Lemma quiet_executable levels command w n :
  head command = Some w → file_name w = Some n → n ∈ executables →
  dangerous_command_match_with_depth try_parse_shell levels command = None.
Proof.
  intros Hw Hn Hex. eapply quiet_command; [done..|by apply executables_not_wrappers|].
  rewrite (not_a_shell command w n) by (try done; apply executables_plain; set_solver). done.
Qed.

(** No wrapper is a shell. *)
Lemma shell_not_wrapper shell t n :
  detect_shell_type shell = Some t → file_name shell = Some n → n ∉ wrappers.
Proof.
  intros Ht Hn Hw. destruct (executables_plain n) as (? & ? & ?); [set_solver|].
  by rewrite (detect_not_shell shell n) in Ht.
Qed.

Lemma zsh_to_bash_shell shell t : detect_shell_type (zsh_to_bash shell) = Some t → ∃ t', detect_shell_type shell = Some t'.
Proof. unfold zsh_to_bash. case_decide; [intros; subst; by eexists|eauto]. Qed.

Lemma shell_has_name shell t : detect_shell_type shell = Some t → is_Some (file_name shell).
Proof.
  unfold detect_shell_type. simpl. destruct (shell_named shell) eqn:E.
  - intros _. unfold shell_named in E. repeat (case_decide; [subst; by eexists|]). done.
  - unfold file_stem. destruct (file_name shell); [by eexists|done].
Qed.

(** Nothing dangerous can be written with the letters of [zsh]. *)
Lemma quiet_zsh levels command :
  Forall (λ w, ∀ c, c ∈ w → c ∈ lit "zsh") command →
  dangerous_command_match_with_depth try_parse_shell levels command = None.
Proof.
  intros Hall. destruct (head command) as [w|] eqn:Hw.
  2: { destruct levels, command; try done. }
  assert (∀ s : str, (∃ c, c ∈ s ∧ c ∉ lit "zsh") → (∀ c, c ∈ s → c ∈ w) → False) as Hno.
  { intros s (c & Hc & Hz) Hs. destruct command as [|w' command]; simplify_eq/=.
    apply Forall_cons in Hall as [Hw _]. naive_solver. }
  destruct (file_name w) as [n|] eqn:Hn.
  2: { destruct levels; [done|]. simpl. unfold dangerous_command_match_for_exec, executable_name_lookup_key.
       rewrite Hw. simpl. rewrite Hn. unfold parse_shell_lc_literal_commands, extract_bash_command.
       destruct command as [|w' [|flag [|script []]]]; try done. simplify_eq/=. case_decide; [|done].
       destruct (detect_shell_type w) eqn:E; [|done]. apply shell_has_name in E as [? ?]. congruence. }
  eapply quiet_command; [done..| |].
  - intros Hin. apply (Hno n).
    + apply Exists_exists. clear -Hin. revert n Hin. apply Forall_forall. apply (bool_decide_unpack _). by vm_compute.
    + unfold file_name in Hn. apply bind_Some in Hn as (x & Hx%last_Some_elem_of & Hd).
      case_decide as Hd'; [done|]. injection Hd as ->.
      apply elem_of_components in Hx as [->|[->|Hx]]; [set_solver..|]. by eapply split_on_chars.
  - unfold parse_shell_lc_literal_commands, extract_bash_command.
    destruct command as [|w' [|flag [|script []]]]; try done. case_decide as Hf; [|done].
    exfalso. apply Forall_cons in Hall as [_ [Hflag _]%Forall_cons].
    assert (45%N ∈ flag) by (clear -Hf; apply elem_of_cons in Hf as [Hf|Hf%list_elem_of_singleton]; rewrite Hf; left).
    specialize (Hflag 45%N ltac:(done)). revert Hflag. apply (bool_decide_unpack _). by vm_compute.
Qed.
End quiet.

(** The commands of a plain script that are all approved: what a reader of
    literal commands finds in the same script is not dangerous. *)
Lemma plain_script_quiet `{BashGrammar try_parse_shell} linux src tree all node literal levels :
  try_parse_shell src = Some tree → try_parse_word_only_commands_sequence tree src = Some all →
  Forall (λ c, is_safe_to_call_with_exec linux c = true) all →
  node ∈ visited named_children (root_node tree) →
  parse_literal_command_from_node node src = Some literal →
  dangerous_command_match_with_depth try_parse_shell levels literal = None.
Proof.
  intros Hsrc Hall Hsafe Hnode%visited_named Hlit. unfold try_parse_word_only_commands_sequence in Hall.
  destruct (has_error tree) eqn:Herr; [done|]. destruct (forallb _ _) eqn:Hf; [|done]. simpl in Hall.
  assert (∀ n, n ∈ visited children (root_node tree) → allowed_node n = true) as Hok.
  { intros n Hn. rewrite forallb_forall in Hf. by apply Hf, list_elem_of_In. }
  assert (is_kind "command" node = true) as Hk.
  { unfold parse_literal_command_from_node in Hlit. by destruct (is_kind "command" node). }
  assert (is_named node = true) as Hnamed.
  { pose proof (Hok node Hnode) as Ha. unfold allowed_node in Ha. destruct (is_named node); [done|].
    unfold is_kind in Hk. apply bool_decide_eq_true in Hk. rewrite Hk in Ha. by vm_compute in Ha. }
  set (nodes := filter _ _) in Hall.
  assert (node ∈ sort_by_start_byte nodes) as Hin.
  { apply elem_of_sort_by_start, list_elem_of_filter. by rewrite Hnamed, Hk. }
  apply mapM_Some in Hall. apply list_elem_of_lookup in Hin as [i Hi].
  destruct (Forall2_lookup_l _ _ _ _ _ Hall Hi) as (words & Hw & Hplain).
  assert (is_safe_to_call_with_exec linux words = true) as Hs.
  { rewrite Forall_forall in Hsafe. by eapply Hsafe, list_elem_of_lookup_2. }
  assert (∃ w, head words = Some w ∧ head literal = Some w) as (w & Hwords & Hliteral).
  { eapply plain_and_literal_head; [by eapply bash_commands| |done..].
    intros n Hn. apply Hok. by eapply visited_child. }
  apply safe_exec_head in Hs as (w' & n & Hw' & Hn & Hex). assert (w' = w) as -> by congruence.
  by eapply quiet_executable.
Qed.

#[local] Arguments dangerous_command_match_with_depth : simpl never.

Lemma safe_not_dangerous `{BashGrammar try_parse_shell} linux command :
  is_known_safe_command linux try_parse_shell command = true →
  dangerous_command_match try_parse_shell command = None.
Proof.
  unfold is_known_safe_command, dangerous_command_match.
  destruct (is_safe_to_call_with_exec linux (zsh_to_bash <$> command)) eqn:Hexec.
  { intros _. apply safe_exec_head in Hexec as (w & n & Hw & Hn & Hex).
    destruct command as [|w0 command]; [done|]. injection Hw as <-. unfold zsh_to_bash in Hn.
    case_decide as Hz; [|by eapply quiet_executable].
    exfalso. vm_compute in Hn. injection Hn as <-. revert Hex. apply (bool_decide_unpack _). by vm_compute. }
  unfold parse_shell_lc_plain_commands, extract_bash_command. clear Hexec.
  destruct command as [|shell [|flag [|script []]]]; simpl; try done.
  case_decide as Hflag; [|done]. destruct (detect_shell_type (zsh_to_bash shell)) as [t|] eqn:Ht; [|done].
  apply zsh_to_bash_shell in Ht as [t' Ht']. intros Hsafe.
  destruct (shell_has_name _ _ Ht') as [n Hn].
  eapply (quiet_command _ _ _ shell n); [done|done|by eapply shell_not_wrapper|].
  unfold parse_shell_lc_literal_commands. intros commands Hc levels c Hin.
  apply bind_Some in Hc as ([sh src] & Hx & Hc). apply bind_Some in Hc as (tree & Htree & Hc).
  assert (src = script) as -> by (clear -Hx; unfold extract_bash_command in Hx; repeat case_match; by simplify_eq).
  destruct (has_error tree) eqn:Herr; [done|]. injection Hc as <-.
  apply list_elem_of_omap in Hin as (node & Hnode & Hlit).
  destruct (decide (script = lit "zsh")) as [->|Hz].
  { apply quiet_zsh, Forall_forall. intros w Hw ch Hch. by eapply literal_command_chars. }
  assert (zsh_to_bash script = script) as Hzs by (unfold zsh_to_bash; by rewrite decide_False).
  rewrite Hzs in Hsafe. unfold parse_shell_script_into_commands in Hsafe.
  assert (∃ all, try_parse_word_only_commands_sequence tree script = Some all
                 ∧ Forall (λ c, is_safe_to_call_with_exec linux c = true) all) as (all & Hall & Hf).
  { destruct t; simpl in Hsafe; try done; rewrite Htree in Hsafe; simpl in Hsafe;
      (destruct (try_parse_word_only_commands_sequence tree script) as [all|]; [|done]; exists all;
       split; [done|]; apply andb_prop in Hsafe as [_ Hsafe]; rewrite forallb_forall in Hsafe;
       apply Forall_forall; intros; by apply Hsafe, list_elem_of_In). }
  by eapply plain_script_quiet.
Qed.

(** A command that is approved without asking is never one that would be
    reported as dangerous: neither by itself, nor through the scripts of
    shells, whatever wrappers the dangerous commands are sought behind.  The
    parser may be any that reads a command as assignments and redirections, a
    name, and arguments. *)
Theorem safe_commands_are_not_dangerous `{BashGrammar try_parse_shell} linux command :
  is_known_safe_command linux try_parse_shell command = true →
  dangerous_command_match try_parse_shell command = None.
Proof. apply safe_not_dangerous. Qed.

(** A parser that knows one script. *)
Module Demo.
Definition script : str := lit "ls -l".
Definition leaf (k : string) (s e : N) (cs : list Node) : Node := mkNode (lit k) true s e cs.
Definition tree : Tree :=
  mkTree (leaf "program" 0 5
    [leaf "command" 0 5 [leaf "command_name" 0 2 [leaf "word" 0 2 []]; leaf "word" 3 5 []]]) false.
Definition parse (src : str) : option Tree := if decide (src = script) then Some tree else None.
#[global] Instance grammar : BashGrammar parse.
Proof.
  intros src t node Hp _ Hn Hk. unfold parse in Hp. case_decide; [|done]. injection Hp as <-.
  vm_compute in Hn.
  do 5 (apply elem_of_cons in Hn as [->|Hn];
    [try (by vm_compute in Hk);
     by exists [], (leaf "command_name" 0 2 [leaf "word" 0 2 []]), [leaf "word" 3 5 []]; split_and!; repeat constructor|]).
  by apply elem_of_nil in Hn.
Qed.
End Demo.

Lemma safe_commands_are_not_dangerous_witness :
  is_known_safe_command true Demo.parse [lit "zsh"; lit "-lc"; Demo.script] = true
  ∧ dangerous_command_match Demo.parse [lit "zsh"; lit "-lc"; Demo.script] = None.
Proof.
  assert (is_known_safe_command true Demo.parse [lit "zsh"; lit "-lc"; Demo.script] = true) as H
    by (vm_compute; reflexivity).
  split; [exact H|]. by apply (safe_commands_are_not_dangerous true).
Defined.

Example dangerous_examples :
  dangerous_command_match Demo.parse [lit "sudo"; lit "env"; lit "A=b"; lit "/bin/rm"; lit "-rf"; lit "/"]
    = Some ForcedRm
  ∧ dangerous_command_match Demo.parse [lit "rm"; lit "--"; lit "-f"] = None
  ∧ dangerous_command_match Demo.parse (replicate 8 (lit "sudo") ++ [lit "rm"; lit "-f"]) = Some ForcedRm
  ∧ dangerous_command_match Demo.parse (replicate 9 (lit "sudo") ++ [lit "rm"; lit "-f"]) = None.
Proof. vm_compute. done. Qed.

Example git_examples :
  is_safe_git_command [lit "git"; lit "log"; lit "-p"] = true
  ∧ is_safe_git_command [lit "git"; lit "-C."; lit "status"] = false
  ∧ is_safe_git_command [lit "git"; lit "branch"; lit "-d"; lit "x"] = false.
Proof. vm_compute. done. Qed.
