(* ===== verification/Paths.v ===== *)
(** Paths of a Unix host.  [std::path] compares, hashes and strips paths by
    their components, so a [Path] or [PathBuf] is here the list of its
    components; [path_new] reads a text and [path_text] writes one.  On top of
    them are [normalize_path] and its callers
    ([utils/absolute-path/src/absolutize.rs]) and [AbsolutePathBuf]
    ([utils/absolute-path/src/lib.rs]).  What the code asks of the host is the
    class [Host]. *)

From S2P Require Import Prelude Text.

(** * [std::path] *)

(** [Component] without the prefixes of Windows. *)
Inductive Component := RootDir | CurDir | ParentDir | Normal (name : str).

#[export] Instance Component_eq_dec : EqDecision Component.
Proof. solve_decision. Defined.

Abbreviation Path := (list Component).

Definition slash : N := 47.

Definition name_component (name : str) : Component :=
  if decide (name = lit "..") then ParentDir else Normal name.

(** [Path::new(s).components()]: empty names and dots are skipped, but for a
    leading dot of a relative path. *)
Definition path_new (s : str) : Path :=
  let pieces := split_on slash s in
  let names := name_component <$> filter (λ name, name ≠ [] ∧ name ≠ lit ".") pieces in
  if decide (head s = Some slash) then RootDir :: names
  else if decide (head pieces = Some (lit ".")) then CurDir :: names
  else names.

Definition component_text (c : Component) : str :=
  match c with RootDir => [slash] | CurDir => lit "." | ParentDir => lit ".." | Normal name => name end.

(** The text of a buffer that was built by pushing components. *)
Definition path_text (p : Path) : str :=
  match p with
  | RootDir :: names => slash :: join [slash] (component_text <$> names)
  | names => join [slash] (component_text <$> names)
  end.

(** [Path::is_absolute] *)
Definition is_absolute (p : Path) : bool := bool_decide (head p = Some RootDir).

(** [PathBuf::push] and [Path::join]: an absolute path replaces the buffer. *)
Definition path_join (base p : Path) : Path :=
  if is_absolute p then p
  else match base with [] => p | _ => base ++ filter (λ c, c ≠ CurDir) p end.

(** [Path::parent]: not of the root, nor of the empty path. *)
Definition parent (p : Path) : option Path :=
  match last p with None | Some RootDir => None | Some _ => Some (init p) end.

(** [PathBuf::pop] *)
Definition path_pop (p : Path) : Path := default p (parent p).

(** [Path::ancestors]: the path and its parents, the longest first. *)
Definition ancestors (p : Path) : list Path :=
  (λ n, take n p) <$> reverse (seq (if is_absolute p then 1 else 0)
                                 (length p + (if is_absolute p then 0 else 1))).

(** [Path::strip_prefix] and [Path::starts_with] *)
Fixpoint strip_path_prefix (p base : Path) : option Path :=
  match base, p with
  | [], _ => Some p
  | b :: base, c :: p => if decide (b = c) then strip_path_prefix p base else None
  | _, [] => None
  end.
Definition path_starts_with (p base : Path) : bool := bool_decide (is_Some (strip_path_prefix p base)).

(** * The host *)

(** What the code asks of the process and of the file system: the home
    directory, [std::env::current_dir] ([None] when it fails), the variable
    TMPDIR, the kind and contents of a file, [symlink_metadata] (whether the
    path is a symbolic link; [None] when it fails), [dunce::canonicalize]
    and [Path::canonicalize] ([None] when they fail). *)
Class Host := {
  home_dir : option Path;
  current_dir : option Path;
  tmpdir_var : option str;
  is_dir : Path → bool;
  is_file : Path → bool;
  path_exists : Path → bool;
  read_file : Path → option str;
  symlink_metadata : Path → option bool;
  canonicalize : Path → option Path
}.

(** The current directory is an absolute path. *)
Class HostLaws `{Host} : Prop := {
  current_dir_absolute : ∀ d, current_dir = Some d → is_absolute d = true
}.

(** * Normalisation *)

Definition push_component (acc : Path) (c : Component) : Path :=
  match c with
  | CurDir => acc
  | ParentDir => path_pop acc
  | RootDir => [RootDir]
  | Normal _ => acc ++ [c]
  end.

(** [normalize_path] *)
Definition normalize_path (p : Path) : Path :=
  match foldl push_component [] p with [] => [CurDir] | normalized => normalized end.

(** [path_with_base], [absolutize_from] and [absolutize] *)
Definition path_with_base (p base : Path) : Path :=
  if is_absolute p then p else path_join base p.
Definition absolutize_from (p base : Path) : Path := normalize_path (path_with_base p base).
Definition absolutize `{Host} (p : Path) : option Path :=
  if is_absolute p then Some (normalize_path p)
  else cwd ← current_dir; Some (absolutize_from p cwd).

(** * [AbsolutePathBuf] *)

Abbreviation AbsolutePathBuf := (list Component).

Definition tilde : str := lit "~".

(** [maybe_expand_home_directory]: only a first component that is a tilde
    and nothing else. *)
Definition maybe_expand_home_directory `{Host} (p : Path) : Path :=
  match home_dir, p with
  | Some home, Normal name :: rest =>
      if decide (name = tilde) then path_join home rest else p
  | _, _ => p
  end.

Definition resolve_path_against_base `{Host} (p base : Path) : AbsolutePathBuf :=
  absolutize_from (maybe_expand_home_directory p) base.

Definition from_absolute_path `{Host} (p : Path) : option AbsolutePathBuf :=
  absolutize (maybe_expand_home_directory p).

(** [AbsolutePathBuf::join] *)
Definition abs_join `{Host} (self : AbsolutePathBuf) (p : Path) : AbsolutePathBuf :=
  resolve_path_against_base p self.

(** [should_preserve_logical_path]: a component below the first level is a
    symbolic link. *)
Definition should_preserve_logical_path `{Host} (logical : Path) : bool :=
  existsb (λ ancestor,
    match symlink_metadata ancestor with
    | None => false
    | Some is_symlink => is_symlink && bool_decide (is_Some (parent ancestor ≫= parent))
    end) (ancestors logical).

Definition canonicalize_preserving_symlinks `{Host} (p : Path) : option Path :=
  logical ← from_absolute_path p;
  Some (match canonicalize p with
        | Some canonical =>
            if should_preserve_logical_path logical && negb (bool_decide (canonical = logical))
            then logical else canonical
        | None => logical
        end).

(** * Prefixes *)

Lemma strip_path_prefix_Some p base rest : strip_path_prefix p base = Some rest ↔ p = base ++ rest.
Proof.
  revert p. induction base as [|b base IH]; intros [|c p]; simpl.
  1,2,3: clear IH || idtac; naive_solver.
  case_decide as E; [rewrite IH; subst; naive_solver|]. clear IH. naive_solver.
Qed.

Lemma path_starts_with_true p base : path_starts_with p base = true ↔ base `prefix_of` p.
Proof.
  unfold path_starts_with. rewrite bool_decide_eq_true. unfold is_Some, prefix.
  split; intros [rest H]; exists rest; by apply strip_path_prefix_Some.
Qed.

(** Two prefixes of one path are prefixes of each other, by their length. *)
Lemma prefix_of_longer {A} (a b p : list A) :
  a `prefix_of` p → b `prefix_of` p → length a ≤ length b → a `prefix_of` b.
Proof.
  intros [ka ->] [kb Hk] Hl. exists (take (length b - length a) ka).
  apply (f_equal (take (length b))) in Hk.
  rewrite take_app_length, take_app_ge in Hk by lia. done.
Qed.

Lemma prefix_of_same_length {A} (a b p : list A) :
  a `prefix_of` p → b `prefix_of` p → length a = length b → a = b.
Proof.
  intros Ha Hb Hl. apply (prefix_of_longer a b p) in Ha; [|done|lia].
  apply prefix_length_eq; [done|lia].
Qed.

(** * Absolute, normalised paths *)

Definition is_name (c : Component) : Prop := match c with Normal _ => True | _ => False end.

(** The root and names below it. *)
Definition normal (p : Path) : Prop := ∃ rest, p = RootDir :: rest ∧ Forall is_name rest.

#[export] Instance is_name_dec c : Decision (is_name c).
Proof. destruct c; simpl; apply _. Defined.

#[export] Instance normal_dec p : Decision (normal p).
Proof.
  destruct p as [|[] rest]; [right; intros (? & ? & _); done| |right; intros (? & ? & _); done..].
  destruct (decide (Forall is_name rest)) as [Hr|Hr]; [left; by exists rest|right].
  intros (? & [= <-] & ?). done.
Defined.

Lemma normal_is_absolute p : normal p → is_absolute p = true.
Proof. by intros (rest & -> & _). Qed.

Lemma normal_root : normal [RootDir].
Proof. by exists []. Qed.

Lemma normal_app p q : normal p → Forall is_name q → normal (p ++ q).
Proof. intros (rest & -> & Hr) Hq. exists (rest ++ q). split; [done|]. by apply Forall_app. Qed.

Lemma normal_pop p : normal p → normal (path_pop p).
Proof.
  intros (rest & -> & Hr). unfold path_pop, parent.
  destruct rest as [|c rest _] using rev_ind; [by exists []|].
  rewrite app_comm_cons, last_snoc, init_snoc. apply Forall_snoc in Hr as [Hr Hc].
  destruct c; try done. by exists rest.
Qed.

Lemma normal_push acc c : normal acc → normal (push_component acc c).
Proof.
  intros Ha. destruct c; simpl; [apply normal_root|done|by apply normal_pop|].
  apply normal_app; [done|]. by constructor.
Qed.

Lemma normal_foldl p acc : normal acc → normal (foldl push_component acc p).
Proof. revert acc. induction p as [|c p IH]; intros acc Ha; [done|]. by apply IH, normal_push. Qed.

Lemma normalize_path_normal p : is_absolute p = true → normal (normalize_path p).
Proof.
  unfold is_absolute. intros Ha%bool_decide_eq_true. destruct p as [|c p]; [done|].
  simpl in Ha. injection Ha as ->. unfold normalize_path. simpl.
  destruct (normal_foldl p [RootDir] normal_root) as (rest & -> & Hr). by exists rest.
Qed.

Lemma foldl_push_names acc p : Forall is_name p → foldl push_component acc p = acc ++ p.
Proof.
  revert acc. induction p as [|c p IH]; intros acc Hp; [by rewrite app_nil_r|].
  apply Forall_cons in Hp as [Hc Hp]. destruct c; try done. simpl.
  rewrite IH by done. by rewrite <- app_assoc.
Qed.

Lemma normalize_path_id p : normal p → normalize_path p = p.
Proof.
  intros (rest & -> & Hr). unfold normalize_path. simpl. by rewrite foldl_push_names.
Qed.

Lemma is_absolute_join base p : is_absolute base = true → is_absolute (path_join base p) = true.
Proof.
  unfold path_join. intros Hb. destruct (is_absolute p) eqn:Hp; [done|].
  destruct base as [|c base]; [done|]. done.
Qed.

Section host.
Context `{HostLaws}.

Lemma from_absolute_path_normal p q : from_absolute_path p = Some q → normal q.
Proof.
  unfold from_absolute_path, absolutize. destruct (is_absolute _) eqn:Ha.
  - intros [= <-]. by apply normalize_path_normal.
  - destruct current_dir as [d|] eqn:Hd; [|done]. intros [= <-].
    unfold absolutize_from, path_with_base. rewrite Ha.
    apply normalize_path_normal, is_absolute_join. by eapply current_dir_absolute.
Qed.
End host.

Section host_any.
Context `{Host}.

Lemma expand_absolute p : is_absolute p = true → maybe_expand_home_directory p = p.
Proof.
  unfold maybe_expand_home_directory. intros Ha%bool_decide_eq_true.
  destruct home_dir; [|done]. destruct p as [|[]]; done.
Qed.

Lemma from_absolute_path_id p : normal p → from_absolute_path p = Some p.
Proof.
  intros Hp. pose proof (normal_is_absolute _ Hp) as Ha. unfold from_absolute_path, absolutize.
  rewrite expand_absolute, Ha by done. by rewrite normalize_path_id.
Qed.

Lemma resolve_against_base_normal p base :
  is_absolute base = true → normal (resolve_path_against_base p base).
Proof.
  intros Hb. unfold resolve_path_against_base, absolutize_from, path_with_base.
  apply normalize_path_normal. destruct (is_absolute (maybe_expand_home_directory p)) eqn:Hp; [done|].
  by apply is_absolute_join.
Qed.

Lemma abs_join_normal self p : normal self → normal (abs_join self p).
Proof. intros Hs. by apply resolve_against_base_normal, normal_is_absolute. Qed.

(** Joining one name that is not a tilde appends it. *)
Lemma abs_join_name self name :
  normal self → name ≠ tilde → abs_join self [Normal name] = self ++ [Normal name].
Proof.
  intros Hs Hn. unfold abs_join, resolve_path_against_base, maybe_expand_home_directory.
  assert (match home_dir with
          | Some home => if decide (name = tilde) then path_join home [] else [Normal name]
          | None => [Normal name]
          end = [Normal name]) as ->.
  { destruct home_dir; [|done]. by rewrite decide_False. }
  unfold absolutize_from, path_with_base, path_join. simpl.
  destruct Hs as (rest & -> & Hr). simpl.
  assert (filter (λ c, c ≠ CurDir) [Normal name] = [Normal name]) as -> by done.
  apply normalize_path_id. exists (rest ++ [Normal name]). split; [done|].
  apply Forall_snoc. done.
Qed.
End host_any.

#[export] Hint Resolve normal_root normal_is_absolute abs_join_normal : codex.

(** Texts of the host's paths. *)
Example path_new_examples :
  path_new (lit "/a//./b/..") = [RootDir; Normal (lit "a"); Normal (lit "b"); ParentDir]
  ∧ path_new (lit "./a") = [CurDir; Normal (lit "a")]
  ∧ path_text (normalize_path (path_new (lit "/path/to/./123/../456"))) = lit "/path/to/456"
  ∧ normalize_path (path_new (lit "/../..")) = [RootDir].
Proof. repeat split; vm_compute; reflexivity. Qed.
