(* ===== verification/Permissions.v ===== *)
(** Sandbox policies for the file system ([protocol/src/permissions.rs]): what
    an entry names on a host, which access a policy gives to a path, the
    protection of workspace metadata, and the operations that extend a policy.
    Paths and the host are those of [Paths]. *)

From S2P Require Import Prelude Text Paths.

(** * Data *)

(** [PROTECTED_METADATA_PATH_NAMES] *)
Definition PROTECTED_METADATA_PATH_NAMES : list str := [lit ".git"; lit ".agents"; lit ".codex"].

(** [FileSystemAccessMode]; the derived order puts a denial last. *)
Inductive FileSystemAccessMode := Read | Write | Deny.

#[export] Instance FileSystemAccessMode_eq_dec : EqDecision FileSystemAccessMode.
Proof. solve_decision. Defined.

Definition access_rank (a : FileSystemAccessMode) : nat :=
  match a with Read => 0 | Write => 1 | Deny => 2 end.

Definition can_read (a : FileSystemAccessMode) : bool := negb (bool_decide (a = Deny)).
Definition can_write (a : FileSystemAccessMode) : bool := bool_decide (a = Write).

(** [FileSystemSpecialPath] *)
Module FileSystemSpecialPath.
Inductive t :=
| Root
| Minimal
| ProjectRoots (subpath : option str)
| Tmpdir
| SlashTmp
| Unknown (path : str) (subpath : option str).

#[export] Instance eq_dec : EqDecision t.
Proof. solve_decision. Defined.
End FileSystemSpecialPath.
Export (hints) FileSystemSpecialPath.

(** [FileSystemPath] *)
Module FileSystemPath.
Inductive t :=
| Path (path : AbsolutePathBuf)
| GlobPattern (pattern : str)
| Special (value : FileSystemSpecialPath.t).

#[export] Instance eq_dec : EqDecision t.
Proof. solve_decision. Defined.
End FileSystemPath.
Export (hints) FileSystemPath.

(** [FileSystemSandboxEntry]; [FileSystemSandboxEntryMissingPathBehavior] has one value. *)
Inductive MissingPathBehavior := Skip.

#[export] Instance MissingPathBehavior_eq_dec : EqDecision MissingPathBehavior.
Proof. solve_decision. Defined.

Record FileSystemSandboxEntry := mkEntry {
  entry_path : FileSystemPath.t;
  entry_access : FileSystemAccessMode;
  missing_path_behavior : option MissingPathBehavior
}.

#[export] Instance FileSystemSandboxEntry_eq_dec : EqDecision FileSystemSandboxEntry.
Proof. solve_decision. Defined.

(** [FileSystemSandboxEntry::new], [::skip_missing_path], [::skips_missing_path] *)
Definition new_entry (path : FileSystemPath.t) (access : FileSystemAccessMode) : FileSystemSandboxEntry :=
  mkEntry path access None.
Definition skip_missing_path (path : FileSystemPath.t) (access : FileSystemAccessMode) :
    FileSystemSandboxEntry := mkEntry path access (Some Skip).
Definition skips_missing_path (e : FileSystemSandboxEntry) : bool :=
  bool_decide (missing_path_behavior e = Some Skip).

(** [FileSystemSandboxKind] and [FileSystemSandboxPolicy] *)
Inductive FileSystemSandboxKind := Restricted | Unrestricted | ExternalSandbox.

#[export] Instance FileSystemSandboxKind_eq_dec : EqDecision FileSystemSandboxKind.
Proof. solve_decision. Defined.

Record FileSystemSandboxPolicy := mkPolicy {
  kind : FileSystemSandboxKind;
  glob_scan_max_depth : option N;
  entries : list FileSystemSandboxEntry
}.

Definition is_restricted (p : FileSystemSandboxPolicy) : bool := bool_decide (kind p = Restricted).
Definition set_entries (es : list FileSystemSandboxEntry) (p : FileSystemSandboxPolicy) :
    FileSystemSandboxPolicy := mkPolicy (kind p) (glob_scan_max_depth p) es.

(** [ResolvedFileSystemEntry] *)
Record ResolvedFileSystemEntry := mkResolved {
  resolved_path : AbsolutePathBuf;
  resolved_access : FileSystemAccessMode
}.

(** [FileSystemSandboxPolicy::{restricted, read_only, unrestricted, external_sandbox}] *)
Definition restricted (es : list FileSystemSandboxEntry) : FileSystemSandboxPolicy :=
  mkPolicy Restricted None es.
Definition read_only_file_system_entries : list FileSystemSandboxEntry :=
  [new_entry (FileSystemPath.Special FileSystemSpecialPath.Root) Read].
Definition read_only : FileSystemSandboxPolicy := restricted read_only_file_system_entries.
Definition unrestricted : FileSystemSandboxPolicy := mkPolicy Unrestricted None [].
Definition external_sandbox : FileSystemSandboxPolicy := mkPolicy ExternalSandbox None [].

(** [remove_skip_missing_path_entries] *)
Definition remove_skip_missing_path_entries (p : FileSystemSandboxPolicy) : FileSystemSandboxPolicy :=
  set_entries (filter (λ e, skips_missing_path e = false) (entries p)) p.

(** * What an entry names *)

Section resolve.
Context `{Host}.

(** [resolve_file_system_special_path]; TMPDIR that is set but empty names nothing. *)
Definition resolve_file_system_special_path (value : FileSystemSpecialPath.t)
    (cwd : option AbsolutePathBuf) : option AbsolutePathBuf :=
  match value with
  | FileSystemSpecialPath.Root | FileSystemSpecialPath.Minimal
  | FileSystemSpecialPath.Unknown _ _ => None
  | FileSystemSpecialPath.ProjectRoots subpath =>
      cwd ← cwd;
      match subpath with
      | Some subpath => Some (resolve_path_against_base (path_new subpath) cwd)
      | None => Some cwd
      end
  | FileSystemSpecialPath.Tmpdir =>
      tmpdir ← tmpdir_var;
      if is_nil tmpdir then None else from_absolute_path (path_new tmpdir)
  | FileSystemSpecialPath.SlashTmp =>
      slash_tmp ← from_absolute_path (path_new (lit "/tmp"));
      if is_dir slash_tmp then Some slash_tmp else None
  end.

(** [resolve_file_system_path] *)
Definition resolve_file_system_path (path : FileSystemPath.t) (cwd : option AbsolutePathBuf) :
    option AbsolutePathBuf :=
  match path with
  | FileSystemPath.Path path => Some path
  | FileSystemPath.GlobPattern _ => None
  | FileSystemPath.Special value => resolve_file_system_special_path value cwd
  end.

(** [absolute_root_path_for_cwd]: the last of the ancestors; [None] is a
    panic, and is not reached for an absolute path ([absolute_root_normal]). *)
Definition absolute_root_path_for_cwd (cwd : AbsolutePathBuf) : option AbsolutePathBuf :=
  root ← last (ancestors cwd); from_absolute_path root.

(** [resolve_entry_path] *)
Definition resolve_entry_path (path : FileSystemPath.t) (cwd : option AbsolutePathBuf) :
    option AbsolutePathBuf :=
  match path with
  | FileSystemPath.Special FileSystemSpecialPath.Root => cwd ≫= absolute_root_path_for_cwd
  | _ => resolve_file_system_path path cwd
  end.

(** [resolve_candidate_path] *)
Definition resolve_candidate_path (path cwd : Path) : option AbsolutePathBuf :=
  if is_absolute path then from_absolute_path path
  else cwd ← from_absolute_path cwd; Some (abs_join cwd path).

(** [resolved_entries_with_cwd] *)
Definition resolve_entry (cwd : option AbsolutePathBuf) (e : FileSystemSandboxEntry) :
    option ResolvedFileSystemEntry :=
  (λ path, mkResolved path (entry_access e)) <$> resolve_entry_path (entry_path e) cwd.
Definition resolved_entries_with_cwd (p : FileSystemSandboxPolicy) (cwd : Path) :
    list ResolvedFileSystemEntry :=
  omap (resolve_entry (from_absolute_path cwd)) (entries p).

(** [has_explicit_non_write_entry_for_path_with_cwd] *)
Definition has_explicit_non_write_entry_for_path_with_cwd (p : FileSystemSandboxPolicy)
    (path cwd : Path) : bool :=
  match resolve_candidate_path path cwd with
  | None => false
  | Some path =>
      existsb (λ e,
        negb (skips_missing_path e) && negb (can_write (entry_access e))
        && bool_decide (resolve_entry_path (entry_path e) (from_absolute_path cwd) = Some path))
        (entries p)
  end.

(** [resolved_entry_precedence]: the number of components, then the access. *)
Definition resolved_entry_precedence (e : ResolvedFileSystemEntry) : nat * nat :=
  (length (resolved_path e), access_rank (resolved_access e)).
Definition precedence_gt (x y : ResolvedFileSystemEntry) : bool :=
  let '(nx, ax) := resolved_entry_precedence x in
  let '(ny, ay) := resolved_entry_precedence y in
  bool_decide (ny < nx) || bool_decide (nx = ny ∧ ay < ax).

(** [resolve_access_with_cwd] and [can_read_path_with_cwd] *)
Definition resolve_access_with_cwd (p : FileSystemSandboxPolicy) (path cwd : Path) :
    FileSystemAccessMode :=
  match kind p with
  | Unrestricted | ExternalSandbox => Write
  | Restricted =>
      match resolve_candidate_path path cwd with
      | None => Deny
      | Some path =>
          default Deny (resolved_access <$>
            max_by precedence_gt
              (filter (λ e, path_starts_with path (resolved_path e) = true)
                 (resolved_entries_with_cwd p cwd)))
      end
  end.
Definition can_read_path_with_cwd (p : FileSystemSandboxPolicy) (path cwd : Path) : bool :=
  can_read (resolve_access_with_cwd p path cwd).
End resolve.

(** * Flags of a policy *)

(** [special_paths_share_target], [special_path_matches_absolute_path] and
    [file_system_paths_share_target]: two entries name the same target
    whatever the current directory is. *)
Definition special_paths_share_target (l r : FileSystemSpecialPath.t) : bool :=
  match l, r with
  | FileSystemSpecialPath.Root, FileSystemSpecialPath.Root
  | FileSystemSpecialPath.Minimal, FileSystemSpecialPath.Minimal
  | FileSystemSpecialPath.Tmpdir, FileSystemSpecialPath.Tmpdir
  | FileSystemSpecialPath.SlashTmp, FileSystemSpecialPath.SlashTmp => true
  | FileSystemSpecialPath.ProjectRoots l, FileSystemSpecialPath.ProjectRoots r =>
      bool_decide (l = r)
  | FileSystemSpecialPath.Unknown l l_subpath,
    FileSystemSpecialPath.Unknown r r_subpath =>
      bool_decide (l = r) && bool_decide (l_subpath = r_subpath)
  | _, _ => false
  end.
Definition special_path_matches_absolute_path (value : FileSystemSpecialPath.t)
    (path : AbsolutePathBuf) : bool :=
  match value with
  | FileSystemSpecialPath.Root => bool_decide (parent path = None)
  | FileSystemSpecialPath.SlashTmp => bool_decide (path = path_new (lit "/tmp"))
  | _ => false
  end.
Definition file_system_paths_share_target (l r : FileSystemPath.t) : bool :=
  match l, r with
  | FileSystemPath.Path l, FileSystemPath.Path r => bool_decide (l = r)
  | FileSystemPath.Special l, FileSystemPath.Special r => special_paths_share_target l r
  | FileSystemPath.Path path, FileSystemPath.Special value
  | FileSystemPath.Special value, FileSystemPath.Path path =>
      special_path_matches_absolute_path value path
  | FileSystemPath.GlobPattern l, FileSystemPath.GlobPattern r => bool_decide (l = r)
  | FileSystemPath.GlobPattern _, _ | _, FileSystemPath.GlobPattern _ => false
  end.

(** [has_root_access] *)
Definition has_root_access (predicate : FileSystemAccessMode → bool) (p : FileSystemSandboxPolicy) : bool :=
  is_restricted p &&
  existsb (λ e,
    match entry_path e with
    | FileSystemPath.Special FileSystemSpecialPath.Root => predicate (entry_access e)
    | _ => false
    end) (entries p).

(** [has_denied_read_restrictions] *)
Definition is_deny (e : FileSystemSandboxEntry) : bool := bool_decide (entry_access e = Deny).
Definition has_denied_read_restrictions (p : FileSystemSandboxPolicy) : bool :=
  is_restricted p && existsb is_deny (entries p).

(** [has_same_target_write_override] and [has_write_narrowing_entries] *)
Definition has_same_target_write_override (p : FileSystemSandboxPolicy) (e : FileSystemSandboxEntry) : bool :=
  existsb (λ candidate,
    can_write (entry_access candidate)
    && bool_decide (access_rank (entry_access e) < access_rank (entry_access candidate))
    && file_system_paths_share_target (entry_path candidate) (entry_path e)) (entries p).

Definition narrows_write (p : FileSystemSandboxPolicy) (e : FileSystemSandboxEntry) : bool :=
  if can_write (entry_access e) then false
  else match entry_path e with
       | FileSystemPath.Path _ => negb (has_same_target_write_override p e)
       | FileSystemPath.GlobPattern _ => true
       | FileSystemPath.Special value =>
           match value with
           | FileSystemSpecialPath.Root => is_deny e
           | FileSystemSpecialPath.Minimal | FileSystemSpecialPath.Unknown _ _ => false
           | _ => negb (has_same_target_write_override p e)
           end
       end.
Definition has_write_narrowing_entries (p : FileSystemSandboxPolicy) : bool :=
  is_restricted p && existsb (narrows_write p) (entries p).

(** [has_full_disk_read_access], [has_full_disk_write_access], [include_platform_defaults] *)
Definition has_full_disk_read_access (p : FileSystemSandboxPolicy) : bool :=
  match kind p with
  | Unrestricted | ExternalSandbox => true
  | Restricted => has_root_access can_read p && negb (has_denied_read_restrictions p)
  end.
Definition has_full_disk_write_access (p : FileSystemSandboxPolicy) : bool :=
  match kind p with
  | Unrestricted | ExternalSandbox => true
  | Restricted => has_root_access can_write p && negb (has_write_narrowing_entries p)
  end.
Definition include_platform_defaults (p : FileSystemSandboxPolicy) : bool :=
  negb (has_full_disk_read_access p) && is_restricted p
  && existsb (λ e,
       match entry_path e with
       | FileSystemPath.Special FileSystemSpecialPath.Minimal => can_read (entry_access e)
       | _ => false
       end) (entries p).

(** * Workspace metadata *)

(** [is_protected_metadata_name] and [metadata_path_name] *)
Definition is_protected_metadata_name (name : str) : bool :=
  existsb (λ metadata_name, bool_decide (name = metadata_name)) PROTECTED_METADATA_PATH_NAMES.
Definition metadata_path_name (name : str) : option str :=
  head (filter (λ metadata_name, name = metadata_name) PROTECTED_METADATA_PATH_NAMES).

Section metadata.
Context `{Host}.

(** [metadata_child_of_writable_root]: the first entry that can be written and
    has the target below a metadata name. *)
Definition metadata_child_of_entry (target : Path) (e : ResolvedFileSystemEntry) :
    option (AbsolutePathBuf * str) :=
  relative_path ← strip_path_prefix target (resolved_path e);
  first_component ← head relative_path;
  metadata_name ← metadata_path_name (component_text first_component);
  Some (abs_join (resolved_path e) (path_new metadata_name), metadata_name).
Definition metadata_child_of_writable_root (p : FileSystemSandboxPolicy) (target cwd : Path) :
    option (AbsolutePathBuf * str) :=
  head (omap (metadata_child_of_entry target)
          (filter (λ e, can_write (resolved_access e) = true) (resolved_entries_with_cwd p cwd))).

(** [has_explicit_write_entry_for_metadata_path] *)
Definition has_explicit_write_entry_for_metadata_path (p : FileSystemSandboxPolicy)
    (protected_metadata_path : AbsolutePathBuf) (target cwd : Path) : bool :=
  existsb (λ e,
    can_write (resolved_access e) && path_starts_with target (resolved_path e)
    && path_starts_with (resolved_path e) protected_metadata_path)
    (resolved_entries_with_cwd p cwd).

(** [is_metadata_write_denied] and [can_write_path_with_cwd] *)
Definition is_metadata_write_denied (p : FileSystemSandboxPolicy) (path cwd : Path) : bool :=
  if negb (is_restricted p) then false
  else match resolve_candidate_path path cwd with
       | None => true
       | Some target =>
           match metadata_child_of_writable_root p target cwd with
           | None => false
           | Some (protected_metadata_path, _) =>
               negb (has_explicit_write_entry_for_metadata_path p protected_metadata_path target cwd)
           end
       end.
Definition can_write_path_with_cwd (p : FileSystemSandboxPolicy) (path cwd : Path) : bool :=
  if negb (can_write (resolve_access_with_cwd p path cwd)) then false
  else if has_full_disk_write_access p then true
  else negb (is_metadata_write_denied p path cwd).

(** [forbidden_agent_metadata_write] *)
Definition forbidden_agent_metadata_write (path cwd : Path) (p : FileSystemSandboxPolicy) : option str :=
  if negb (is_restricted p) then None
  else
    target ← resolve_candidate_path path cwd;
    '(protected_metadata_path, metadata_name) ← metadata_child_of_writable_root p target cwd;
    if has_explicit_write_entry_for_metadata_path p protected_metadata_path target cwd then None
    else if negb (can_write_path_with_cwd p target cwd) then Some metadata_name
    else None.
End metadata.

(** * Operations *)

Definition deny_entries (p : FileSystemSandboxPolicy) : list FileSystemSandboxEntry :=
  filter (λ e, entry_access e = Deny) (entries p).

(** [preserve_deny_read_restrictions_from] *)
Definition preserve_deny_read_restrictions_from (existing p : FileSystemSandboxPolicy) :
    FileSystemSandboxPolicy :=
  let has_deny_read_entries := existsb is_deny (entries existing) in
  let p :=
    if bool_decide (kind p = Unrestricted) && has_deny_read_entries
    then restricted [new_entry (FileSystemPath.Special FileSystemSpecialPath.Root) Write]
    else p in
  if negb (is_restricted p) then p
  else mkPolicy (kind p)
         (match glob_scan_max_depth p with None => glob_scan_max_depth existing | depth => depth end)
         (foldl push_absent (entries p) (deny_entries existing)).

(** [parse_project_roots_glob_pattern], [resolve_project_roots_glob_pattern]
    and [project_roots_glob_pattern] *)
Definition PROJECT_ROOTS_GLOB_PATTERN_PREFIX : str := lit "codex-project-roots://".
Definition parse_project_roots_glob_pattern (pattern : str) : option Path :=
  path_new <$> strip_prefix PROJECT_ROOTS_GLOB_PATTERN_PREFIX pattern.
Definition project_roots_glob_pattern (subpath : Path) : str :=
  PROJECT_ROOTS_GLOB_PATTERN_PREFIX ++ path_text subpath.

Section operations.
Context `{Host}.

Definition resolve_project_roots_glob_pattern (subpath root : Path) : str :=
  path_text (resolve_path_against_base subpath root).

(** [materialize_project_roots_with_cwd] *)
Definition materialize_path (cwd : option AbsolutePathBuf) (path : FileSystemPath.t) : FileSystemPath.t :=
  match path with
  | FileSystemPath.Special (FileSystemSpecialPath.ProjectRoots _) =>
      match resolve_file_system_path path cwd with
      | Some path => FileSystemPath.Path path
      | None => path
      end
  | FileSystemPath.GlobPattern pattern =>
      match cwd, parse_project_roots_glob_pattern pattern with
      | Some cwd, Some subpath =>
          FileSystemPath.GlobPattern (resolve_project_roots_glob_pattern subpath cwd)
      | _, _ => path
      end
  | FileSystemPath.Special _ | FileSystemPath.Path _ => path
  end.
Definition materialize_project_roots_with_cwd (cwd : Path) (p : FileSystemSandboxPolicy) :
    FileSystemSandboxPolicy :=
  let cwd := from_absolute_path cwd in
  set_entries ((λ e, mkEntry (materialize_path cwd (entry_path e)) (entry_access e)
                       (missing_path_behavior e)) <$> entries p) p.

(** [materialize_project_roots_with_workspace_roots] and
    [with_materialized_project_roots_for_workspace_roots] *)
Definition workspace_paths (workspace_roots : list AbsolutePathBuf) (path : FileSystemPath.t) :
    list FileSystemPath.t :=
  match path with
  | FileSystemPath.Special (FileSystemSpecialPath.ProjectRoots subpath) =>
      (λ root, FileSystemPath.Path
         (match subpath with
          | Some subpath => resolve_path_against_base (path_new subpath) root
          | None => root
          end)) <$> workspace_roots
  | FileSystemPath.GlobPattern pattern =>
      match parse_project_roots_glob_pattern pattern with
      | Some subpath =>
          (λ root, FileSystemPath.GlobPattern (resolve_project_roots_glob_pattern subpath root))
          <$> workspace_roots
      | None => [path]
      end
  | FileSystemPath.Path _ | FileSystemPath.Special _ => [path]
  end.
Definition materialize_project_roots_with_workspace_roots (workspace_roots : list AbsolutePathBuf)
    (p : FileSystemSandboxPolicy) : FileSystemSandboxPolicy :=
  set_entries
    (entries p ≫= λ e,
       (λ path, mkEntry path (entry_access e) (missing_path_behavior e))
       <$> workspace_paths workspace_roots (entry_path e)) p.
Definition with_materialized_project_roots_for_workspace_roots (workspace_roots : list AbsolutePathBuf)
    (p : FileSystemSandboxPolicy) : FileSystemSandboxPolicy :=
  set_entries
    (foldl push_absent (entries p)
       (entries (materialize_project_roots_with_workspace_roots workspace_roots p))) p.

(** [with_additional_readable_roots] *)
Definition push_entry (e : FileSystemSandboxEntry) (p : FileSystemSandboxPolicy) : FileSystemSandboxPolicy :=
  set_entries (entries p ++ [e]) p.
Definition add_readable_root (cwd : Path) (p : FileSystemSandboxPolicy) (path : AbsolutePathBuf) :
    FileSystemSandboxPolicy :=
  if can_read_path_with_cwd p path cwd then p
  else push_entry (new_entry (FileSystemPath.Path path) Read) p.
Definition with_additional_readable_roots (cwd : Path) (roots : list AbsolutePathBuf)
    (p : FileSystemSandboxPolicy) : FileSystemSandboxPolicy :=
  if has_full_disk_read_access p then p else foldl (add_readable_root cwd) p roots.

(** [with_additional_writable_roots] *)
Definition add_writable_root (cwd : Path) (p : FileSystemSandboxPolicy) (path : AbsolutePathBuf) :
    FileSystemSandboxPolicy :=
  if can_write_path_with_cwd p path cwd then p
  else push_entry (new_entry (FileSystemPath.Path path) Write) p.
Definition with_additional_writable_roots (cwd : Path) (roots : list AbsolutePathBuf)
    (p : FileSystemSandboxPolicy) : FileSystemSandboxPolicy :=
  foldl (add_writable_root cwd) p roots.

(** [get_unreadable_globs_with_cwd]: sorted, and without repetitions. *)
Fixpoint insert_sorted (x : str) (l : list str) : list str :=
  match l with
  | [] => [x]
  | y :: l => if str_leb x y then x :: y :: l else y :: insert_sorted x l
  end.
Fixpoint dedup (l : list str) : list str :=
  match l with
  | x :: (y :: _) as l' => if decide (x = y) then dedup l' else x :: dedup l'
  | l => l
  end.
Definition deny_glob (cwd : Path) (e : FileSystemSandboxEntry) : option str :=
  match entry_path e with
  | FileSystemPath.GlobPattern pattern =>
      Some (path_text (resolve_path_against_base (path_new pattern) cwd))
  | FileSystemPath.Path _ | FileSystemPath.Special _ => None
  end.
Definition get_unreadable_globs_with_cwd (p : FileSystemSandboxPolicy) (cwd : Path) : list str :=
  if negb (is_restricted p) then []
  else dedup (foldr insert_sorted [] (omap (deny_glob cwd) (deny_entries p))).
End operations.

(** * Well-formed policies *)

(** An [AbsolutePathBuf] is absolute and normalised. *)
Definition wf_path (path : FileSystemPath.t) : Prop :=
  match path with FileSystemPath.Path path => normal path | _ => True end.
Definition wf_entries (es : list FileSystemSandboxEntry) : Prop := Forall (λ e, wf_path (entry_path e)) es.
Definition wf_policy (p : FileSystemSandboxPolicy) : Prop := wf_entries (entries p).

Section facts.
Context `{HostLaws}.
Implicit Types (p : FileSystemSandboxPolicy) (e : FileSystemSandboxEntry) (r : ResolvedFileSystemEntry).

Lemma absolute_root_normal cwd : normal cwd → absolute_root_path_for_cwd cwd = Some [RootDir].
Proof.
  intros (rest & -> & Hr). unfold absolute_root_path_for_cwd, ancestors. simpl.
  rewrite reverse_cons, fmap_last, last_snoc. simpl.
  by rewrite take_0, from_absolute_path_id by apply normal_root.
Qed.

Lemma resolve_candidate_normal path cwd target :
  resolve_candidate_path path cwd = Some target → normal target.
Proof.
  unfold resolve_candidate_path. destruct (is_absolute path); [by apply from_absolute_path_normal|].
  destruct (from_absolute_path cwd) as [c|] eqn:Hc; [|done]. intros [= <-].
  eauto using from_absolute_path_normal, abs_join_normal.
Qed.

Lemma resolve_candidate_id path cwd : normal path → resolve_candidate_path path cwd = Some path.
Proof.
  intros Hp. unfold resolve_candidate_path. rewrite normal_is_absolute by done.
  by apply from_absolute_path_id.
Qed.

Lemma slash_tmp_path : from_absolute_path (path_new (lit "/tmp")) = Some (path_new (lit "/tmp")).
Proof. apply from_absolute_path_id. apply (bool_decide_unpack _). vm_compute. done. Qed.

Lemma resolve_special_normal value cwd path :
  (∀ c, cwd = Some c → normal c) → resolve_file_system_special_path value cwd = Some path → normal path.
Proof.
  intros Hc. destruct value; simpl; try done.
  - destruct cwd as [c|]; [|done]. specialize (Hc c eq_refl).
    destruct subpath; intros [= <-]; [|done].
    by apply resolve_against_base_normal, normal_is_absolute.
  - destruct tmpdir_var; [|done]. simpl. case_match; [done|]. by apply from_absolute_path_normal.
  - rewrite slash_tmp_path. simpl. case_match; [|done]. intros [= <-].
    eapply from_absolute_path_normal, slash_tmp_path.
Qed.

Lemma resolve_entry_path_normal path cwd target :
  wf_path path → (∀ c, cwd = Some c → normal c) → resolve_entry_path path cwd = Some target →
  normal target.
Proof.
  intros Hp Hc. destruct path as [q|g|value]; [by intros [= <-]|done|].
  destruct value as [| |subpath| | |name subpath].
  2: apply (resolve_special_normal FileSystemSpecialPath.Minimal cwd target Hc).
  2: apply (resolve_special_normal (FileSystemSpecialPath.ProjectRoots subpath) cwd target Hc).
  2: apply (resolve_special_normal FileSystemSpecialPath.Tmpdir cwd target Hc).
  2: apply (resolve_special_normal FileSystemSpecialPath.SlashTmp cwd target Hc).
  2: apply (resolve_special_normal (FileSystemSpecialPath.Unknown name subpath) cwd target Hc).
  destruct cwd as [c|]; [|done]. simpl. rewrite absolute_root_normal by by apply Hc.
  intros [= <-]. apply normal_root.
Qed.

Lemma elem_of_resolved p cwd r :
  r ∈ resolved_entries_with_cwd p cwd ↔
  ∃ e, e ∈ entries p ∧ resolve_entry_path (entry_path e) (from_absolute_path cwd) = Some (resolved_path r)
       ∧ entry_access e = resolved_access r.
Proof.
  unfold resolved_entries_with_cwd. rewrite list_elem_of_omap. unfold resolve_entry.
  split; intros (e & He & Hr); exists e.
  - destruct (resolve_entry_path _ _); simpl in Hr; simplify_eq. done.
  - destruct Hr as [-> ->]. split; [done|]. by destruct r.
Qed.

Lemma resolved_normal p cwd r :
  wf_policy p → r ∈ resolved_entries_with_cwd p cwd → normal (resolved_path r).
Proof.
  intros Hp (e & He & Hr & _)%elem_of_resolved.
  unfold wf_policy, wf_entries in Hp. rewrite Forall_forall in Hp. specialize (Hp e He).
  eapply resolve_entry_path_normal; [done| |done]. apply from_absolute_path_normal.
Qed.

(** ** The entry that decides *)

(** The entries of a list whose path contains the target. *)
Definition covers (rs : list ResolvedFileSystemEntry) (target : Path) r : Prop :=
  r ∈ rs ∧ resolved_path r `prefix_of` target.

(** The entry with the longest path; of several for one path, the one whose
    access restricts most. *)
Definition decides (rs : list ResolvedFileSystemEntry) (target : Path) r : Prop :=
  covers rs target r ∧
  ∀ r', covers rs target r' →
    resolved_path r' `prefix_of` resolved_path r ∧
    (resolved_path r' = resolved_path r → access_rank (resolved_access r') ≤ access_rank (resolved_access r)).

Definition deciding (rs : list ResolvedFileSystemEntry) (target : Path) : option ResolvedFileSystemEntry :=
  max_by precedence_gt (filter (λ r, path_starts_with target (resolved_path r) = true) rs).

Lemma precedence_gt_true x y :
  precedence_gt x y = true ↔
  length (resolved_path y) < length (resolved_path x) ∨
  length (resolved_path x) = length (resolved_path y)
  ∧ access_rank (resolved_access y) < access_rank (resolved_access x).
Proof. unfold precedence_gt. simpl. rewrite orb_true_iff, !bool_decide_eq_true. done. Qed.

Lemma precedence_gt_false x y :
  precedence_gt x y = false ↔
  length (resolved_path x) < length (resolved_path y) ∨
  length (resolved_path x) = length (resolved_path y)
  ∧ access_rank (resolved_access x) ≤ access_rank (resolved_access y).
Proof. rewrite <- not_true_iff_false, precedence_gt_true. lia. Qed.

Lemma access_rank_inj a b : access_rank a = access_rank b → a = b.
Proof. by destruct a, b. Qed.

Lemma deciding_decides rs target r : deciding rs target = Some r → decides rs target r.
Proof.
  intros Hm. apply max_by_spec in Hm as [Hin Hall].
  - apply list_elem_of_filter in Hin as [Hr Hin].
    apply path_starts_with_true in Hr. split; [by split|]. intros r' [Hin' Hr'].
    specialize (Hall r'). rewrite precedence_gt_false, list_elem_of_filter, path_starts_with_true in Hall.
    specialize (Hall (conj Hr' Hin')). split; [eapply prefix_of_longer; [done..|lia]|].
    intros He. rewrite He in Hall. lia.
  - intros x y. rewrite precedence_gt_true, precedence_gt_false. lia.
  - intros x y z. rewrite !precedence_gt_false. lia.
Qed.

Lemma deciding_None rs target : deciding rs target = None ↔ ∀ r, ¬ covers rs target r.
Proof.
  unfold deciding, covers. rewrite max_by_None. split.
  - intros Hf r [Hin Hr]. assert (r ∈ @nil ResolvedFileSystemEntry) as []%elem_of_nil.
    rewrite <- Hf. apply list_elem_of_filter. by rewrite path_starts_with_true.
  - intros Hn. apply filter_none. intros r Hin Hr%path_starts_with_true. by apply (Hn r).
Qed.

Lemma decides_unique rs target r r' :
  decides rs target r → decides rs target r' →
  resolved_path r = resolved_path r' ∧ resolved_access r = resolved_access r'.
Proof.
  intros [Hc Hall] [Hc' Hall']. destruct (Hall r' Hc') as [Hp Ha], (Hall' r Hc) as [Hp' Ha'].
  assert (resolved_path r = resolved_path r') as He.
  { apply prefix_length in Hp as Hl. by apply prefix_length_eq. }
  split; [done|]. apply access_rank_inj. specialize (Ha (eq_sym He)). specialize (Ha' He). lia.
Qed.

Lemma deciding_of_decides rs target r :
  decides rs target r → ∃ r', deciding rs target = Some r' ∧ resolved_path r' = resolved_path r
                              ∧ resolved_access r' = resolved_access r.
Proof.
  intros Hd. destruct (deciding rs target) as [r'|] eqn:E.
  - exists r'. split; [done|]. by apply (decides_unique rs target), Hd; apply deciding_decides.
  - exfalso. by eapply deciding_None, Hd.
Qed.

Lemma resolve_access_deciding p path cwd target :
  is_restricted p = true → resolve_candidate_path path cwd = Some target →
  resolve_access_with_cwd p path cwd
  = default Deny (resolved_access <$> deciding (resolved_entries_with_cwd p cwd) target).
Proof.
  unfold is_restricted, resolve_access_with_cwd. intros ->%bool_decide_eq_true ->. done.
Qed.
End facts.
