(* ===== verification/PermissionsSpec.v ===== *)
(** What the sandbox policies of [Permissions] promise: the entry that decides,
    the flags of full access, the protection of workspace metadata, denials
    that are carried over, and extensions that only widen. *)

From S2P Require Import Prelude Text Paths Permissions.

(** A host without symbolic links, for examples: the home is [/home/u], the
    process runs in [/repo], TMPDIR is [/var/tmp] and [/tmp] is a directory. *)
Module Demo.
#[export] Instance host : Host := {
  home_dir := Some (path_new (lit "/home/u"));
  current_dir := Some (path_new (lit "/repo"));
  tmpdir_var := Some (lit "/var/tmp");
  is_dir p := bool_decide (p = path_new (lit "/tmp")) || bool_decide (p = path_new (lit "/repo/.codex"));
  is_file p := bool_decide (p = path_new (lit "/repo/.git"));
  path_exists p := bool_decide (p = path_new (lit "/work/main/.git/worktrees/repo"));
  read_file p := Some (lit "gitdir: /work/main/.git/worktrees/repo
");
  symlink_metadata p := Some false;
  canonicalize p := Some p
}.

#[export] Instance laws : HostLaws.
Proof. constructor. by intros d [= <-]. Qed.

Definition cwd : Path := path_new (lit "/repo").
Definition file (s : string) : Path := path_new (lit s).
Definition special (value : FileSystemSpecialPath.t) : FileSystemPath.t := FileSystemPath.Special value.

(** The workspace can be written, but for a private directory; the disk can be read. *)
Definition workspace : FileSystemSandboxPolicy :=
  restricted [new_entry (special FileSystemSpecialPath.Root) Read;
              new_entry (special (FileSystemSpecialPath.ProjectRoots None)) Write;
              new_entry (FileSystemPath.Path (file "/repo/private")) Deny].
End Demo.

Section spec.
Context `{HostLaws}.
Implicit Types (p : FileSystemSandboxPolicy) (r : ResolvedFileSystemEntry).

(** C4: under a restricted policy the access to a path is that of the entry
    that names the longest path containing it; of several entries for that
    path a denial beats a grant to write, and that beats a grant to read; and
    a path no entry contains is denied. *)
Theorem most_specific_entry_decides p path cwd target a :
  is_restricted p = true → resolve_candidate_path path cwd = Some target →
  resolve_access_with_cwd p path cwd = a ↔
  (∃ r, decides (resolved_entries_with_cwd p cwd) target r ∧ resolved_access r = a)
  ∨ (a = Deny ∧ ∀ r, ¬ covers (resolved_entries_with_cwd p cwd) target r).
Proof.
  intros Hp Ht. rewrite (resolve_access_deciding _ _ _ _ Hp Ht).
  destruct (deciding _ _) as [r|] eqn:E; simpl.
  - apply deciding_decides in E as Hd. split; [intros <-; left; by exists r|].
    intros [(r' & Hd' & <-)|[_ Hn]]; [by eapply decides_unique|]. exfalso. by eapply Hn, Hd.
  - pose proof (proj1 (deciding_None _ _) E) as Hn. split; [intros <-; by right|].
    intros [(r' & Hd' & <-)|[-> _]]; [|done]. exfalso. by eapply Hn, Hd'.
Qed.

(** ** Full access to the disk *)

Lemma restricted_cases p : is_restricted p = true ∨ ∀ path cwd, resolve_access_with_cwd p path cwd = Write.
Proof.
  unfold is_restricted, resolve_access_with_cwd. destruct (kind p); [by left|by right..].
Qed.

Lemma root_entry_covers p cwd cwd_abs target e :
  from_absolute_path cwd = Some cwd_abs → normal target → e ∈ entries p →
  entry_path e = FileSystemPath.Special FileSystemSpecialPath.Root →
  covers (resolved_entries_with_cwd p cwd) target (mkResolved [RootDir] (entry_access e)).
Proof.
  intros Hc (rest & -> & _) He Hroot. split; [|by exists rest].
  apply elem_of_resolved. exists e. split_and!; [done| |done]. simpl.
  rewrite Hroot, Hc. simpl. apply from_absolute_path_normal in Hc. by apply absolute_root_normal.
Qed.

Lemma has_root_access_elem f p :
  has_root_access f p = true →
  ∃ e, e ∈ entries p ∧ entry_path e = FileSystemPath.Special FileSystemSpecialPath.Root
       ∧ f (entry_access e) = true.
Proof.
  unfold has_root_access. intros [_ (e & He & Hm)%existsb_elem]%andb_true_iff.
  exists e. destruct (entry_path e) as [| |[]]; done.
Qed.

(** The access of a path that an entry of the policy covers is that of the deciding entry. *)
Lemma covered_access p path cwd target r :
  is_restricted p = true → resolve_candidate_path path cwd = Some target →
  covers (resolved_entries_with_cwd p cwd) target r →
  ∃ d, decides (resolved_entries_with_cwd p cwd) target d
       ∧ resolve_access_with_cwd p path cwd = resolved_access d.
Proof.
  intros Hp Ht Hr. rewrite (resolve_access_deciding _ _ _ _ Hp Ht).
  destruct (deciding _ _) as [d|] eqn:E; [exists d; eauto using deciding_decides|].
  exfalso. by eapply deciding_None.
Qed.

Lemma full_read_reads p path cwd cwd_abs target :
  has_full_disk_read_access p = true → from_absolute_path cwd = Some cwd_abs →
  resolve_candidate_path path cwd = Some target → can_read_path_with_cwd p path cwd = true.
Proof.
  intros Hf Hc Ht. unfold can_read_path_with_cwd.
  destruct (restricted_cases p) as [Hr|Hw]; [|by rewrite Hw].
  unfold has_full_disk_read_access in Hf. unfold is_restricted in Hr.
  apply bool_decide_eq_true in Hr as Hk. rewrite Hk in Hf.
  apply andb_true_iff in Hf as [(e & He & Hroot & Hread)%has_root_access_elem Hd].
  destruct (covered_access p path cwd target (mkResolved [RootDir] (entry_access e)))
    as (d & [[Hin _] _] & ->); [done|done|eapply root_entry_covers; [done|by eapply resolve_candidate_normal|done..]|].
  apply elem_of_resolved in Hin as (f & Hf & _ & Ha).
  unfold can_read. rewrite bool_decide_eq_false_2; [done|]. intros Hdeny.
  apply negb_true_iff in Hd. unfold has_denied_read_restrictions, is_restricted in Hd.
  rewrite Hk, bool_decide_eq_true_2 in Hd by done. simpl in Hd.
  apply (existsb_false_elem is_deny _ f) in Hd; [|done].
  unfold is_deny in Hd. rewrite Ha, Hdeny in Hd. done.
Qed.

(** An entry another entry overrides resolves to the path of that entry, where
    the other restricts more. *)
Lemma override_resolves p cwd e target :
  is_dir (path_new (lit "/tmp")) = true → wf_policy p → e ∈ entries p →
  is_Some (from_absolute_path cwd) →
  resolve_entry_path (entry_path e) (from_absolute_path cwd) = Some target →
  has_same_target_write_override p e = true →
  mkResolved target Write ∈ resolved_entries_with_cwd p cwd ∧ entry_access e = Read.
Proof.
  intros Htmp Hwf He [c Hc] Hr (o & Ho & Hs)%existsb_elem.
  apply andb_true_iff in Hs as [[Hw Hlt]%andb_true_iff Hs].
  apply bool_decide_eq_true in Hw, Hlt. rewrite Hw in Hlt.
  split; [|destruct (entry_access e); simpl in Hlt; [done|lia..]].
  apply elem_of_resolved. exists o. split_and!; [done| |done]. simpl. rewrite <- Hr.
  unfold wf_policy, wf_entries in Hwf. rewrite Forall_forall in Hwf.
  pose proof (Hwf _ He) as Hne. pose proof (Hwf _ Ho) as Hno.
  assert (∀ q, normal q → parent q = None → q = [RootDir]) as Hroot.
  { intros q (rest & -> & Hn). unfold parent. destruct rest as [|x rest _] using rev_ind; [done|].
    rewrite app_comm_cons, last_snoc. apply Forall_snoc in Hn as [_ Hx]. by destruct x. }
  destruct (entry_path o) as [q|g|[| |s| | |u s]], (entry_path e) as [q'|g'|[| |s'| | |u' s']];
    simpl in Hs, Hne, Hno; try done; rewrite Hc; simpl.
  all: try (apply bool_decide_eq_true in Hs; subst; try done).
  all: rewrite ?slash_tmp_path; simpl; rewrite ?Htmp; try done.
  all: rewrite absolute_root_normal by (by eapply from_absolute_path_normal).
  all: by rewrite (Hroot _ ltac:(eassumption) Hs).
Qed.

Lemma full_write_access p path cwd cwd_abs target :
  is_dir (path_new (lit "/tmp")) = true → wf_policy p → has_full_disk_write_access p = true →
  from_absolute_path cwd = Some cwd_abs → resolve_candidate_path path cwd = Some target →
  resolve_access_with_cwd p path cwd = Write.
Proof.
  intros Htmp Hwf Hf Hc Ht. destruct (restricted_cases p) as [Hr|Hw]; [|done].
  apply bool_decide_eq_true in Hr as Hk. unfold has_full_disk_write_access in Hf. rewrite Hk in Hf.
  apply andb_true_iff in Hf as [(e & He & Hroot & Hwrite)%has_root_access_elem Hn].
  apply bool_decide_eq_true in Hwrite. apply negb_true_iff in Hn.
  unfold has_write_narrowing_entries in Hn. rewrite Hr in Hn. simpl in Hn.
  pose proof (root_entry_covers p cwd cwd_abs target e Hc
                ltac:(by eapply resolve_candidate_normal) He Hroot) as Hcov.
  rewrite Hwrite in Hcov.
  destruct (covered_access p path cwd target _ Hr Ht Hcov) as (d & [[Hin Hpre] Hmax] & ->).
  apply elem_of_resolved in Hin as Hin'. destruct Hin' as (f & Hfe & Hfr & Hfa).
  destruct (decide (resolved_access d = Write)) as [|Hnw]; [done|exfalso].
  assert (∀ d', covers (resolved_entries_with_cwd p cwd) target d' →
            resolved_path d' = resolved_path d → resolved_access d' = Write →
            entry_access f = Read → False) as Hbeaten.
  { intros d' Hd' Hp' Ha' Hread. destruct (Hmax d' Hd') as [_ Hle]. specialize (Hle Hp').
    rewrite Ha', <- Hfa, Hread in Hle. simpl in Hle. lia. }
  pose proof (existsb_false_elem _ _ f Hn Hfe) as Hnf. unfold narrows_write in Hnf.
  unfold can_write in Hnf. rewrite bool_decide_eq_false_2 in Hnf by congruence.
  assert (has_same_target_write_override p f = true → False) as Hover.
  { intros Hov. destruct (override_resolves p cwd f (resolved_path d)) as [Ho Hread]; try done.
    apply (Hbeaten (mkResolved (resolved_path d) Write)); by try split. }
  destruct (entry_path f) as [q|g|[| |s| | |u s]] eqn:Hfp; simpl in Hnf; try done.
  all: try (apply negb_false_iff in Hnf; by apply Hover).
  apply (Hbeaten (mkResolved [RootDir] Write)); [done| |done|].
  - simpl in Hfr. rewrite Hc in Hfr. simpl in Hfr.
    rewrite absolute_root_normal in Hfr by (by eapply from_absolute_path_normal). simpl. congruence.
  - unfold is_deny in Hnf. apply bool_decide_eq_false in Hnf. rewrite Hfa in *. by destruct (resolved_access d).
Qed.

(** A policy that claims to read or write the whole disk does: every path
    that can be resolved can be read, or written. *)
Theorem full_disk_access_is_complete p path cwd cwd_abs target :
  from_absolute_path cwd = Some cwd_abs → resolve_candidate_path path cwd = Some target →
  (has_full_disk_read_access p = true → can_read_path_with_cwd p path cwd = true)
  ∧ (wf_policy p → is_dir (path_new (lit "/tmp")) = true → has_full_disk_write_access p = true →
     can_write_path_with_cwd p path cwd = true).
Proof.
  intros Hc Ht. split; [intros Hf; by eapply full_read_reads|]. intros Hwf Htmp Hf.
  unfold can_write_path_with_cwd. by rewrite (full_write_access _ _ _ _ _ Htmp Hwf Hf Hc Ht), Hf.
Qed.

(** ** Denials that are carried over *)

Lemma deciding_snoc rs r target :
  deciding (rs ++ [r]) target =
  if path_starts_with target (resolved_path r) then
    match deciding rs target with
    | Some m => if precedence_gt m r then Some m else Some r
    | None => Some r
    end
  else deciding rs target.
Proof.
  unfold deciding, max_by. rewrite filter_app, filter_cons. case_decide as Hr.
  - by rewrite Hr, filter_nil, foldl_snoc.
  - apply not_true_iff_false in Hr. by rewrite Hr, filter_nil, app_nil_r.
Qed.

Lemma resolved_entries_app p cwd es :
  resolved_entries_with_cwd (set_entries (entries p ++ es) p) cwd
  = resolved_entries_with_cwd p cwd ++ omap (resolve_entry (from_absolute_path cwd)) es.
Proof. unfold resolved_entries_with_cwd. simpl. by rewrite omap_app. Qed.

(** Denials that are added take the access away or leave it. *)
Lemma deciding_app_deny rs ds target :
  Forall (λ r, resolved_access r = Deny) ds →
  resolved_access <$> deciding (rs ++ ds) target = resolved_access <$> deciding rs target
  ∨ resolved_access <$> deciding (rs ++ ds) target = Some Deny.
Proof.
  induction ds as [|d ds IH] using rev_ind; intros Hd; [left; by rewrite app_nil_r|].
  apply Forall_snoc in Hd as [Hds Hd]. rewrite app_assoc, deciding_snoc.
  destruct (path_starts_with _ _); [|by apply IH].
  destruct (deciding (rs ++ ds) target); [|right; simpl; by rewrite Hd].
  destruct (precedence_gt _ _); [by apply IH|right; simpl; by rewrite Hd].
Qed.

Lemma resolved_denials cwd es :
  Forall (λ e, entry_access e = Deny) es →
  Forall (λ r, resolved_access r = Deny) (omap (resolve_entry cwd) es).
Proof.
  rewrite !Forall_forall. intros Hes r (e & He & Hr)%list_elem_of_omap.
  unfold resolve_entry in Hr. destruct (resolve_entry_path _ _); simplify_eq/=. by apply Hes.
Qed.

(** The policy the denials are added to. *)
Definition deniable (existing p : FileSystemSandboxPolicy) : FileSystemSandboxPolicy :=
  if bool_decide (kind p = Unrestricted) && existsb is_deny (entries existing)
  then restricted [new_entry (FileSystemPath.Special FileSystemSpecialPath.Root) Write] else p.

Lemma deny_entries_denied existing : Forall (λ e, entry_access e = Deny) (deny_entries existing).
Proof. apply Forall_forall. by intros e [? _]%list_elem_of_filter. Qed.

Lemma preserve_spec existing p :
  is_restricted (deniable existing p) = true →
  ∃ ds, entries (preserve_deny_read_restrictions_from existing p) = entries (deniable existing p) ++ ds
        ∧ kind (preserve_deny_read_restrictions_from existing p) = Restricted
        ∧ Forall (λ e, entry_access e = Deny) ds
        ∧ ∀ e, e ∈ deny_entries existing →
            e ∈ entries (preserve_deny_read_restrictions_from existing p).
Proof.
  unfold preserve_deny_read_restrictions_from. fold (deniable existing p). intros Hr. rewrite Hr.
  simpl. destruct (foldl_push_absent_app (entries (deniable existing p)) (deny_entries existing))
    as (ds & Hds & Hsub). exists ds. split_and!; [done|by apply bool_decide_eq_true in Hr| |].
  - apply Forall_forall. intros e He. pose proof (deny_entries_denied existing) as Hd.
    rewrite Forall_forall in Hd. apply Hd. eapply elem_of_submseteq; [done|]. by apply sublist_submseteq.
  - intros e He. apply elem_of_foldl_push_absent. by right.
Qed.

Lemma access_of_entries p p' cwd path ds :
  kind p = Restricted → kind p' = Restricted → entries p' = entries p ++ ds →
  Forall (λ e, entry_access e = Deny) ds →
  resolve_access_with_cwd p' path cwd = resolve_access_with_cwd p path cwd
  ∨ resolve_access_with_cwd p' path cwd = Deny.
Proof.
  intros Hk Hk' He Hd. unfold resolve_access_with_cwd. rewrite Hk, Hk'.
  destruct (resolve_candidate_path path cwd) as [target|]; [|by left].
  fold (deciding (resolved_entries_with_cwd p' cwd) target).
  fold (deciding (resolved_entries_with_cwd p cwd) target).
  unfold resolved_entries_with_cwd. rewrite He, omap_app.
  destruct (deciding_app_deny (omap (resolve_entry (from_absolute_path cwd)) (entries p)) _ target
              (resolved_denials (from_absolute_path cwd) ds Hd)) as [->| ->]; [by left|by right].
Qed.

Lemma preserve_never_grants existing p path cwd :
  resolve_access_with_cwd (preserve_deny_read_restrictions_from existing p) path cwd
  = resolve_access_with_cwd p path cwd
  ∨ resolve_access_with_cwd (preserve_deny_read_restrictions_from existing p) path cwd = Deny.
Proof.
  destruct (is_restricted (deniable existing p)) eqn:Hr.
  - destruct (preserve_spec existing p Hr) as (ds & He & Hk' & Hd & _).
    apply bool_decide_eq_true in Hr as Hk.
    destruct (access_of_entries (deniable existing p) _ cwd path ds Hk Hk' He Hd) as [->|?]; [|by right].
    unfold deniable. destruct (bool_decide (kind p = Unrestricted) && _) eqn:Hu; [|by left].
    apply andb_true_iff in Hu as [Hu%bool_decide_eq_true _].
    assert (resolve_access_with_cwd p path cwd = Write) as ->
      by (unfold resolve_access_with_cwd; by rewrite Hu).
    destruct (resolve_candidate_path path cwd) as [target|] eqn:Ht; [|right; by unfold resolve_access_with_cwd; rewrite Ht].
    erewrite resolve_access_deciding by done.
    destruct (deciding _ _) as [r|] eqn:E; [left|by right]. simpl.
    apply deciding_decides in E as [[Hin _] _]. apply elem_of_resolved in Hin as (e & He' & _ & <-).
    by apply list_elem_of_singleton in He' as ->.
  - left. unfold preserve_deny_read_restrictions_from. fold (deniable existing p). rewrite Hr. simpl.
    unfold deniable in *. by destruct (_ && _).
Qed.

(** Carrying the denials of an existing policy over never grants anything,
    and unless the sandbox is external every path that one of these denials
    contains is denied, except below an entry of the policy that names a
    longer path. *)
Theorem preserved_denials_hold existing p path cwd :
  let p' := preserve_deny_read_restrictions_from existing p in
  (resolve_access_with_cwd p' path cwd = resolve_access_with_cwd p path cwd
   ∨ resolve_access_with_cwd p' path cwd = Deny)
  ∧ (kind p ≠ ExternalSandbox → ∀ target d r,
       resolve_candidate_path path cwd = Some target → d ∈ deny_entries existing →
       resolve_entry (from_absolute_path cwd) d = Some r → resolved_path r `prefix_of` target →
       resolve_access_with_cwd p' path cwd = Deny
       ∨ ∃ r', covers (resolved_entries_with_cwd p' cwd) target r'
               ∧ length (resolved_path r) < length (resolved_path r') ∧ resolved_access r' ≠ Deny).
Proof.
  intros p'. split; [by apply preserve_never_grants|].
  - intros Hk target d r Ht Hd Hr Hpre.
    assert (is_restricted (deniable existing p) = true) as Hrest.
    { unfold deniable, is_restricted. assert (existsb is_deny (entries existing) = true) as ->.
      { apply list_elem_of_filter in Hd as [Hd Hin]. apply existsb_elem. exists d.
        split; [done|]. unfold is_deny. by apply bool_decide_eq_true. }
      rewrite andb_true_r. destruct (kind p) eqn:Hkp; simpl; [by rewrite Hkp|done|done]. }
    destruct (preserve_spec existing p Hrest) as (ds & He & Hk' & Hds & Hall).
    assert (covers (resolved_entries_with_cwd p' cwd) target r) as Hcov.
    { split; [|done]. unfold resolved_entries_with_cwd. apply list_elem_of_omap.
      exists d. split; [by apply Hall|done]. }
    destruct (covered_access p' path cwd target r) as (m & [Hm Hmax] & ->);
      [by apply bool_decide_eq_true|done|done|].
    destruct (decide (resolved_access m = Deny)) as [|Hnd]; [by left|right].
    exists m. split_and!; [done| |done]. destruct (Hmax r Hcov) as [Hp Hrank].
    pose proof (prefix_length _ _ Hp). destruct (decide (length (resolved_path r) = length (resolved_path m)))
      as [Hl|]; [|lia]. apply prefix_length_eq in Hp; [|lia]. specialize (Hrank Hp).
    assert (resolved_access r = Deny) as Hra.
    { unfold resolve_entry in Hr. destruct (resolve_entry_path _ _); simplify_eq/=.
      by apply list_elem_of_filter in Hd as [? _]. }
    rewrite Hra in Hrank. destruct (resolved_access m); simpl in Hrank; [lia|lia|done].
Qed.

(** ** Extensions that only widen *)

Lemma deciding_below p cwd t u m :
  deciding (resolved_entries_with_cwd p cwd) t = Some m →
  u `prefix_of` t → resolved_path m `prefix_of` u →
  ∃ m', deciding (resolved_entries_with_cwd p cwd) u = Some m'
        ∧ resolved_access m' = resolved_access m.
Proof.
  intros Hm%deciding_decides Hu Hmu.
  destruct (deciding_of_decides (resolved_entries_with_cwd p cwd) u m) as (m' & ? & _ & ?); [|by exists m'].
  destruct Hm as [[Hin _] Hmax]. split; [by split|]. intros r [Hr Hru].
  apply Hmax. split; [done|]. by etrans.
Qed.

Lemma resolved_push_path p cwd path access :
  resolved_entries_with_cwd (push_entry (new_entry (FileSystemPath.Path path) access) p) cwd
  = resolved_entries_with_cwd p cwd ++ [mkResolved path access].
Proof. unfold push_entry. by rewrite resolved_entries_app. Qed.

(** A path entry that is pushed either leaves the access to a path, or decides
    it, and then the access to the path was that to the entry's own path. *)
Lemma push_path_access p cwd root access path :
  normal root → is_restricted p = true →
  let p' := push_entry (new_entry (FileSystemPath.Path root) access) p in
  resolve_access_with_cwd p' path cwd = resolve_access_with_cwd p path cwd
  ∨ resolve_access_with_cwd p' path cwd = access
    ∧ resolve_access_with_cwd p path cwd = resolve_access_with_cwd p root cwd.
Proof.
  intros Hn Hr p'. destruct (resolve_candidate_path path cwd) as [t|] eqn:Ht.
  2:{ left. unfold resolve_access_with_cwd, p'. simpl. by rewrite Ht. }
  rewrite (resolve_access_deciding p' path cwd t) by done.
  rewrite (resolve_access_deciding p path cwd t) by done.
  rewrite (resolve_access_deciding p root cwd root) by (done || by apply resolve_candidate_id).
  unfold p'. rewrite resolved_push_path, deciding_snoc.
  destruct (path_starts_with t _) eqn:Hpre; [|by left].
  apply path_starts_with_true in Hpre. simpl in Hpre.
  destruct (deciding (resolved_entries_with_cwd p cwd) t) as [m|] eqn:Hm.
  - destruct (precedence_gt m _) eqn:Hg; [by left|]. right.
    apply precedence_gt_false in Hg. simpl in Hg.
    pose proof (deciding_decides _ _ _ Hm) as [[_ Hmt] _].
    destruct (deciding_below p cwd t root m Hm Hpre) as (m' & -> & Hm').
    { eapply prefix_of_longer; [done..|lia]. }
    simpl. by rewrite Hm'.
  - right. simpl. split; [done|].
    destruct (deciding (resolved_entries_with_cwd p cwd) root) as [m'|] eqn:Hm'; [|done].
    apply deciding_decides in Hm' as [[Hin Hpre'] _]. exfalso.
    apply (proj1 (deciding_None _ _) Hm m'). split; [done|]. by etrans.
Qed.

(** The entry of the root's own path decides for it, unless an entry for the
    same path restricts more. *)
Lemma push_path_own p cwd root access :
  normal root → is_restricted p = true →
  resolve_access_with_cwd (push_entry (new_entry (FileSystemPath.Path root) access) p) root cwd = access
  ∨ ∃ a, access_rank access < access_rank a ∧ resolve_access_with_cwd p root cwd = a
         ∧ mkResolved root a ∈ resolved_entries_with_cwd p cwd
         ∧ resolve_access_with_cwd (push_entry (new_entry (FileSystemPath.Path root) access) p) root cwd = a.
Proof.
  intros Hn Hr. rewrite !(resolve_access_deciding _ root cwd root) by (done || by apply resolve_candidate_id).
  rewrite resolved_push_path, deciding_snoc. simpl.
  rewrite (proj2 (path_starts_with_true root root)) by done.
  destruct (deciding _ _) as [m|] eqn:Hm; [|by left]. destruct (precedence_gt m _) eqn:Hg; [|by left].
  right. apply deciding_decides in Hm as [[Hin Hpre] _]. apply precedence_gt_true in Hg. simpl in Hg.
  pose proof (prefix_length _ _ Hpre). exists (resolved_access m).
  assert (resolved_path m = root) as Hp by (apply prefix_length_eq; [done|lia]).
  split_and!; [lia|done| |done]. rewrite <- Hp. by destruct m.
Qed.

Definition widens (a b : FileSystemAccessMode) : Prop := a = b ∨ a = Deny ∧ b = Read.

Lemma add_readable_root_widens cwd p root path :
  normal root →
  widens (resolve_access_with_cwd p path cwd)
    (resolve_access_with_cwd (add_readable_root cwd p root) path cwd).
Proof.
  intros Hn. unfold add_readable_root. destruct (can_read_path_with_cwd p root cwd) eqn:Hc; [by left|].
  unfold can_read_path_with_cwd, can_read in Hc. apply negb_false_iff, bool_decide_eq_true in Hc.
  destruct (restricted_cases p) as [Hr|Hw]; [|by rewrite Hw in Hc].
  destruct (push_path_access p cwd root Read path Hn Hr) as [->|[-> ->]]; [by left|by right].
Qed.

Lemma add_readable_root_reads cwd p root :
  normal root →
  can_read_path_with_cwd (add_readable_root cwd p root) root cwd = true
  ∨ mkResolved root Deny ∈ resolved_entries_with_cwd p cwd.
Proof.
  intros Hn. unfold add_readable_root. destruct (can_read_path_with_cwd p root cwd) eqn:Hc; [by left|].
  destruct (restricted_cases p) as [Hr|Hw]; [|unfold can_read_path_with_cwd in Hc; by rewrite Hw in Hc].
  unfold can_read_path_with_cwd. destruct (push_path_own p cwd root Read Hn Hr) as [->|(a & Hl & Ha & Hin & ->)];
    [by left|]. unfold can_read_path_with_cwd in Hc. rewrite Ha in Hc. destruct a; [done|done|by right].
Qed.

Lemma denied_entry_of_push p cwd root access q :
  access ≠ Deny →
  mkResolved q Deny ∈ resolved_entries_with_cwd (push_entry (new_entry (FileSystemPath.Path root) access) p) cwd →
  mkResolved q Deny ∈ resolved_entries_with_cwd p cwd.
Proof.
  rewrite resolved_push_path. intros Hd [?|[= _ Ha]%list_elem_of_singleton]%elem_of_app; congruence.
Qed.

(** Adding readable roots changes no access but from denied to read, and
    afterwards every root can be read unless a denial names exactly its path. *)
Theorem additional_readable_roots_widen cwd roots p :
  Forall normal roots →
  let p' := with_additional_readable_roots cwd roots p in
  (∀ path, widens (resolve_access_with_cwd p path cwd) (resolve_access_with_cwd p' path cwd))
  ∧ (has_full_disk_read_access p = false → ∀ root, root ∈ roots →
       can_read_path_with_cwd p' root cwd = true
       ∨ mkResolved root Deny ∈ resolved_entries_with_cwd p cwd).
Proof.
  intros Hn. unfold with_additional_readable_roots.
  destruct (has_full_disk_read_access p); [split; [by left|done]|]. cbn zeta.
  assert ((∀ path, widens (resolve_access_with_cwd p path cwd)
                     (resolve_access_with_cwd (foldl (add_readable_root cwd) p roots) path cwd))
          ∧ ∀ root, root ∈ roots →
              can_read_path_with_cwd (foldl (add_readable_root cwd) p roots) root cwd = true
              ∨ mkResolved root Deny ∈ resolved_entries_with_cwd p cwd) as [? ?]; [|done].
  revert p. induction roots as [|root roots IH]; intros p; simpl; [split; [by left|by intros ? ?%elem_of_nil]|].
  apply Forall_cons in Hn as [Hroot Hn]. destruct (IH Hn (add_readable_root cwd p root)) as [Hw Hr].
  assert (∀ path, widens (resolve_access_with_cwd p path cwd)
            (resolve_access_with_cwd (foldl (add_readable_root cwd) (add_readable_root cwd p root) roots) path cwd))
    as Hall.
  { intros path. specialize (Hw path). pose proof (add_readable_root_widens cwd p root path Hroot) as Hs.
    unfold widens in *. intuition congruence. }
  split; [done|]. intros q [->|Hq]%elem_of_cons.
  - destruct (add_readable_root_reads cwd p root Hroot) as [Hc|?]; [left|by right].
    specialize (Hw root). unfold can_read_path_with_cwd in *. destruct Hw as [<-|[Hd _]]; [done|].
    by rewrite Hd in Hc.
  - destruct (Hr q Hq) as [?|Hd]; [by left|right].
    unfold add_readable_root in Hd. case_match; [done|]. by apply denied_entry_of_push in Hd.
Qed.

(** ** Workspace metadata *)

Lemma metadata_path_name_Some name n :
  metadata_path_name name = Some n ↔ name = n ∧ n ∈ PROTECTED_METADATA_PATH_NAMES.
Proof.
  unfold metadata_path_name. split.
  - intros Hh. apply head_Some_elem_of in Hh. apply list_elem_of_filter in Hh. done.
  - intros [-> Hn]. unfold PROTECTED_METADATA_PATH_NAMES in *.
    repeat (apply elem_of_cons in Hn as [->|Hn]; [by vm_compute|]). by apply elem_of_nil in Hn.
Qed.

Lemma protected_name_path n :
  n ∈ PROTECTED_METADATA_PATH_NAMES → path_new n = [Normal n] ∧ n ≠ tilde.
Proof.
  intros Hn. unfold PROTECTED_METADATA_PATH_NAMES in Hn.
  repeat (apply elem_of_cons in Hn as [->|Hn]; [split; [by vm_compute|done]|]). by apply elem_of_nil in Hn.
Qed.

Lemma metadata_child_of_entry_Some target r prot n :
  normal (resolved_path r) → normal target →
  metadata_child_of_entry target r = Some (prot, n) ↔
  n ∈ PROTECTED_METADATA_PATH_NAMES ∧ prot = resolved_path r ++ [Normal n] ∧ prot `prefix_of` target.
Proof.
  intros Hr Ht. unfold metadata_child_of_entry. split.
  - destruct (strip_path_prefix _ _) as [rel|] eqn:Hs; [|done]. simpl.
    apply strip_path_prefix_Some in Hs. destruct rel as [|c rel]; [done|]. simpl.
    destruct (metadata_path_name _) as [n'|] eqn:Hm; [|done]. simpl. intros [= <- <-].
    apply metadata_path_name_Some in Hm as [Hc Hn].
    destruct (protected_name_path n' Hn) as [-> Hne]. rewrite abs_join_name by done.
    split_and!; [done..|]. exists rel. rewrite <- app_assoc. simpl. rewrite Hs. do 2 f_equal.
    destruct Ht as (rest & -> & Hnames), Hr as (rest' & Hrp & _). rewrite Hrp in Hs. simplify_eq/=.
    apply Forall_app in Hnames as [_ Hnames]. apply Forall_cons in Hnames as [Hcn _]. by destruct c.
  - intros (Hn & -> & [rel Hrel]). assert (strip_path_prefix target (resolved_path r) = Some (Normal n :: rel)) as ->.
    { apply strip_path_prefix_Some. rewrite Hrel, <- app_assoc. done. }
    simpl. rewrite (proj2 (metadata_path_name_Some n n)) by done. simpl.
    destruct (protected_name_path n Hn) as [-> Hne]. by rewrite abs_join_name.
Qed.

(** The directories of workspace metadata below a writable root of the policy. *)
Definition metadata_dir p cwd (prot : AbsolutePathBuf) (n : str) : Prop :=
  ∃ w, w ∈ resolved_entries_with_cwd p cwd ∧ resolved_access w = Write
       ∧ n ∈ PROTECTED_METADATA_PATH_NAMES ∧ prot = resolved_path w ++ [Normal n].

Lemma metadata_child_Some p cwd target prot n :
  wf_policy p → normal target → metadata_child_of_writable_root p target cwd = Some (prot, n) →
  metadata_dir p cwd prot n ∧ prot `prefix_of` target.
Proof.
  intros Hp Ht (w & Hw & Hm)%head_omap_Some. apply list_elem_of_filter in Hw as [Ha Hw].
  apply metadata_child_of_entry_Some in Hm as (Hn & Hprot & Hpre); [|by eapply resolved_normal|done].
  apply bool_decide_eq_true in Ha. split; [|done]. by exists w.
Qed.

Lemma metadata_child_None p cwd target :
  wf_policy p → normal target →
  metadata_child_of_writable_root p target cwd = None ↔
  ∀ prot n, metadata_dir p cwd prot n → ¬ prot `prefix_of` target.
Proof.
  intros Hp Ht. unfold metadata_child_of_writable_root. rewrite head_omap_None. split.
  - intros Hn prot n (w & Hw & Ha & Hin & ->) Hpre.
    specialize (Hn w). rewrite list_elem_of_filter in Hn. unfold can_write in Hn.
    rewrite bool_decide_eq_true in Hn. specialize (Hn (conj Ha Hw)).
    assert (metadata_child_of_entry target w = Some (resolved_path w ++ [Normal n], n)); [|congruence].
    apply metadata_child_of_entry_Some; [by eapply resolved_normal|done..].
  - intros Hall w [Ha Hw]%list_elem_of_filter. apply bool_decide_eq_true in Ha.
    destruct (metadata_child_of_entry target w) as [[prot n]|] eqn:E; [|done]. exfalso.
    apply metadata_child_of_entry_Some in E as (Hn & -> & Hpre); [|by eapply resolved_normal|done].
    eapply Hall; [|done]. by exists w.
Qed.

Lemma explicit_write_entry p prot target cwd :
  has_explicit_write_entry_for_metadata_path p prot target cwd = true ↔
  ∃ r, covers (resolved_entries_with_cwd p cwd) target r ∧ resolved_access r = Write
       ∧ prot `prefix_of` resolved_path r.
Proof.
  unfold has_explicit_write_entry_for_metadata_path. rewrite existsb_elem. unfold covers.
  split; intros (r & Hr); exists r; rewrite !andb_true_iff, !path_starts_with_true in *;
    unfold can_write in *; rewrite bool_decide_eq_true in *; tauto.
Qed.

Lemma can_write_spec p path cwd target :
  is_restricted p = true → resolve_candidate_path path cwd = Some target →
  can_write_path_with_cwd p path cwd = true ↔
  resolve_access_with_cwd p path cwd = Write ∧
  (has_full_disk_write_access p = true ∨
   match metadata_child_of_writable_root p target cwd with
   | None => True
   | Some (prot, _) => has_explicit_write_entry_for_metadata_path p prot target cwd = true
   end).
Proof.
  intros Hr Ht. unfold can_write_path_with_cwd, is_metadata_write_denied, can_write. rewrite Hr, Ht. simpl.
  destruct (bool_decide _) eqn:Ha; simpl.
  2:{ apply bool_decide_eq_false in Ha. split; [done|]. by intros [? _]. }
  apply bool_decide_eq_true in Ha. destruct (has_full_disk_write_access p); [naive_solver|].
  destruct (metadata_child_of_writable_root p target cwd) as [[prot n]|]; simpl; [|naive_solver].
  rewrite negb_involutive. naive_solver.
Qed.

(** Below a metadata directory ([.git], [.agents] or [.codex]) of a
    writable root nothing can be written, unless the policy grants full access
    or has a write entry at or below such a directory that contains the path;
    and a write that is refused for want of such an entry is reported with
    the name of the directory. *)
Theorem metadata_needs_a_write_entry p path cwd target prot n :
  wf_policy p → is_restricted p = true → has_full_disk_write_access p = false →
  resolve_candidate_path path cwd = Some target →
  metadata_dir p cwd prot n → prot `prefix_of` target →
  (can_write_path_with_cwd p path cwd = true →
   ∃ prot' n' r, metadata_dir p cwd prot' n' ∧ prot' `prefix_of` resolved_path r
                 ∧ covers (resolved_entries_with_cwd p cwd) target r ∧ resolved_access r = Write)
  ∧ ((∀ r, covers (resolved_entries_with_cwd p cwd) target r → resolved_access r = Write →
       ∀ prot' n', metadata_dir p cwd prot' n' → ¬ prot' `prefix_of` resolved_path r) →
     ∃ prot' n', metadata_dir p cwd prot' n' ∧ prot' `prefix_of` target
                 ∧ forbidden_agent_metadata_write path cwd p = Some n').
Proof.
  intros Hp Hr Hf Ht Hdir Hpre. pose proof (resolve_candidate_normal _ _ _ Ht) as Hn.
  destruct (metadata_child_of_writable_root p target cwd) as [[prot' n']|] eqn:Hm.
  2:{ exfalso. by eapply (proj1 (metadata_child_None p cwd target Hp Hn) Hm). }
  destruct (metadata_child_Some _ _ _ _ _ Hp Hn Hm) as [Hdir' Hpre']. split.
  - intros Hw. apply (can_write_spec p path cwd target Hr Ht) in Hw as [_ Hw]. rewrite Hm in Hw.
    destruct Hw as [Hw|(r & Hc & Ha & Hpr)%explicit_write_entry]; [congruence|].
    by exists prot', n', r.
  - intros Hnone. exists prot', n'. split_and!; [done..|].
    unfold forbidden_agent_metadata_write. rewrite Hr. simpl. rewrite Ht. simpl. rewrite Hm. simpl.
    destruct (has_explicit_write_entry_for_metadata_path p prot' target cwd) eqn:He.
    { apply explicit_write_entry in He as (r & Hc & Ha & Hpr). exfalso. by eapply Hnone. }
    destruct (can_write_path_with_cwd p target cwd) eqn:Hw; [|done]. exfalso.
    apply (can_write_spec p target cwd target Hr) in Hw as [_ Hw]; [|by apply resolve_candidate_id].
    rewrite Hm, He in Hw. naive_solver congruence.
Qed.

(** ** Writable roots *)

Lemma full_write_push p root :
  has_full_disk_write_access p = true →
  has_full_disk_write_access (push_entry (new_entry (FileSystemPath.Path root) Write) p) = true.
Proof.
  unfold has_full_disk_write_access. simpl. destruct (kind p) eqn:Hk; [|done..].
  rewrite !andb_true_iff, !negb_true_iff. intros [Hroot Hn]. split.
  - unfold has_root_access, is_restricted in *. simpl. rewrite Hk in *. simpl in *.
    by rewrite existsb_app, Hroot.
  - unfold has_write_narrowing_entries, is_restricted in *. simpl. rewrite Hk in *. simpl in *.
    apply not_true_iff_false. intros (e & He & Hne)%existsb_elem.
    apply elem_of_app in He as [He| ->%list_elem_of_singleton]; [|done].
    pose proof (existsb_false_elem _ _ e Hn He) as Hold. unfold narrows_write in *.
    assert (has_same_target_write_override p e = true →
            has_same_target_write_override (push_entry (new_entry (FileSystemPath.Path root) Write) p) e = true)
      as Hmono.
    { unfold has_same_target_write_override. simpl. rewrite existsb_app. by intros ->. }
    destruct (can_write _); [done|]. destruct (entry_path e) as [| |[]]; simpl in *; try done.
    all: try congruence; apply negb_false_iff in Hold; apply Hmono in Hold; by rewrite Hold in Hne.
Qed.

Lemma wf_push_path p root access :
  wf_policy p → normal root → wf_policy (push_entry (new_entry (FileSystemPath.Path root) access) p).
Proof. intros Hp Hn. unfold wf_policy, wf_entries. simpl. by apply Forall_snoc. Qed.

Lemma metadata_dir_push p cwd root access prot n :
  metadata_dir p cwd prot n →
  metadata_dir (push_entry (new_entry (FileSystemPath.Path root) access) p) cwd prot n.
Proof.
  intros (w & Hw & Ha & Hn & ->). exists w. split_and!; [|done..].
  rewrite resolved_push_path. set_solver.
Qed.

(** A root that is not writable although its access is to write lies below workspace metadata. *)
Lemma unwritable_root_is_metadata p cwd root :
  wf_policy p → normal root → is_restricted p = true → can_write_path_with_cwd p root cwd = false →
  resolve_access_with_cwd p root cwd = Write →
  ∃ prot n, metadata_dir p cwd prot n ∧ prot `prefix_of` root.
Proof.
  intros Hp Hn Hr Hw Ha. pose proof (resolve_candidate_id root cwd Hn) as Ht.
  destruct (metadata_child_of_writable_root p root cwd) as [[prot n]|] eqn:Hm.
  - exists prot, n. by apply metadata_child_Some.
  - apply not_true_iff_false in Hw. exfalso. apply Hw.
    apply (can_write_spec p root cwd root Hr Ht). rewrite Hm. tauto.
Qed.

Lemma metadata_child_push p cwd root t prot n :
  normal root → normal t →
  metadata_child_of_writable_root (push_entry (new_entry (FileSystemPath.Path root) Write) p) t cwd
  = Some (prot, n) →
  metadata_child_of_writable_root p t cwd = Some (prot, n)
  ∨ metadata_child_of_writable_root p t cwd = None
    ∧ prot = root ++ [Normal n] ∧ prot `prefix_of` t.
Proof.
  intros Hn Ht. unfold metadata_child_of_writable_root. rewrite resolved_push_path, filter_app, omap_app.
  destruct (omap _ (filter _ (resolved_entries_with_cwd p cwd))); simpl; [|by left].
  destruct (metadata_child_of_entry t (mkResolved root Write)) as [[q k]|] eqn:Hm; simpl; [|done].
  intros [= -> ->]. right. apply metadata_child_of_entry_Some in Hm as (? & ? & ?); done.
Qed.

(** If a path had the access of the root it lies below, and no metadata
    directory contains it, the root's entry makes none of its parents one that
    lacks a write entry. *)
Lemma push_writable_keeps p cwd root path :
  wf_policy p → normal root → is_restricted p = true →
  can_write_path_with_cwd p root cwd = false → can_write_path_with_cwd p path cwd = true →
  can_write_path_with_cwd (push_entry (new_entry (FileSystemPath.Path root) Write) p) path cwd = true.
Proof.
  intros Hp Hn Hr Hw Hpath. set (p' := push_entry _ p).
  assert (wf_policy p') as Hp' by by apply wf_push_path.
  destruct (resolve_candidate_path path cwd) as [t|] eqn:Ht.
  2:{ exfalso. unfold can_write_path_with_cwd, resolve_access_with_cwd in Hpath.
      apply bool_decide_eq_true in Hr. by rewrite Hr, Ht in Hpath. }
  pose proof (resolve_candidate_normal _ _ _ Ht) as Htn.
  apply (can_write_spec p path cwd t Hr Ht) in Hpath as [Ha Hmeta].
  apply (can_write_spec p' path cwd t Hr Ht). split.
  { pose proof (push_path_access p cwd root Write path Hn Hr) as Hs. fold p' in Hs.
    destruct Hs as [->|[-> _]]; done. }
  destruct Hmeta as [Hf|Hmeta]; [left; by apply full_write_push|right].
  destruct (metadata_child_of_writable_root p' t cwd) as [[prot n]|] eqn:Hm'; [|done].
  apply explicit_write_entry.
  assert (∀ q, has_explicit_write_entry_for_metadata_path p q t cwd = true →
            ∃ r, covers (resolved_entries_with_cwd p' cwd) t r ∧ resolved_access r = Write
                 ∧ q `prefix_of` resolved_path r) as Hkeep.
  { intros q (r & [Hin ?] & ? & ?)%explicit_write_entry. exists r. split_and!; [|done..].
    split; [|done]. unfold p'. rewrite resolved_push_path. set_solver. }
  destruct (metadata_child_push p cwd root t prot n Hn Htn Hm') as [Hm|(Hnone & -> & Hpre)].
  { apply Hkeep. by rewrite Hm in Hmeta. }
  apply Hkeep, explicit_write_entry.
  assert (root `prefix_of` t) as Hrt by (etrans; [|done]; by exists [Normal n]).
  rewrite (resolve_access_deciding p path cwd t Hr Ht) in Ha.
  destruct (deciding _ t) as [m|] eqn:Hm; [|done]. simpl in Ha.
  pose proof (deciding_decides _ _ _ Hm) as [[Hmin Hmt] _]. exists m. split_and!; [by split|done|].
  destruct (decide (length (resolved_path m) ≤ length root)) as [Hl|Hl].
  - exfalso. destruct (deciding_below p cwd t root m Hm Hrt) as (m' & Hm2 & Ha2).
    { by eapply prefix_of_longer. }
    destruct (unwritable_root_is_metadata p cwd root Hp Hn Hr Hw) as (q & n' & Hq & Hqr).
    { rewrite (resolve_access_deciding p root cwd root Hr) by by apply resolve_candidate_id.
      rewrite Hm2. simpl. congruence. }
    apply (proj1 (metadata_child_None p cwd t Hp Htn) Hnone q n' Hq). by etrans.
  - eapply prefix_of_longer; [done..|]. rewrite length_app. simpl. lia.
Qed.

Lemma unrestricted_writes p path cwd :
  is_restricted p = false → can_write_path_with_cwd p path cwd = true.
Proof.
  unfold is_restricted, can_write_path_with_cwd, resolve_access_with_cwd, has_full_disk_write_access.
  by destruct (kind p).
Qed.

Lemma add_writable_root_keeps cwd p root path :
  wf_policy p → normal root →
  can_write_path_with_cwd p path cwd = true →
  can_write_path_with_cwd (add_writable_root cwd p root) path cwd = true.
Proof.
  intros Hp Hn Hw. unfold add_writable_root. destruct (can_write_path_with_cwd p root cwd) eqn:Hc; [done|].
  destruct (is_restricted p) eqn:Hr; [by apply push_writable_keeps|].
  by rewrite unrestricted_writes in Hc.
Qed.

Lemma add_writable_root_reads cwd p root path :
  normal root →
  can_read_path_with_cwd p path cwd = true →
  can_read_path_with_cwd (add_writable_root cwd p root) path cwd = true.
Proof.
  intros Hn Hw. unfold add_writable_root. destruct (can_write_path_with_cwd p root cwd) eqn:Hc; [done|].
  destruct (is_restricted p) eqn:Hr; [|by rewrite unrestricted_writes in Hc].
  unfold can_read_path_with_cwd in *. by destruct (push_path_access p cwd root Write path Hn Hr) as [->|[-> _]].
Qed.

Lemma add_writable_root_writes cwd p root :
  wf_policy p → normal root →
  can_write_path_with_cwd (add_writable_root cwd p root) root cwd = true
  ∨ mkResolved root Deny ∈ resolved_entries_with_cwd p cwd.
Proof.
  intros Hp Hn. unfold add_writable_root. destruct (can_write_path_with_cwd p root cwd) eqn:Hc; [by left|].
  destruct (is_restricted p) eqn:Hr; [|by rewrite unrestricted_writes in Hc].
  set (p' := push_entry _ p). pose proof (wf_push_path p root Write Hp Hn) as Hp'. fold p' in Hp'.
  destruct (push_path_own p cwd root Write Hn Hr) as [Ha|(a & Hl & _ & Hin & _)].
  2:{ right. destruct a; simpl in Hl; [lia|lia|done]. }
  left. apply (can_write_spec p' root cwd root); [done|by apply resolve_candidate_id|].
  split; [done|right]. destruct (metadata_child_of_writable_root p' root cwd) as [[prot n]|] eqn:Hm; [|done].
  destruct (metadata_child_Some _ _ _ _ _ Hp' Hn Hm) as [_ Hpre].
  apply explicit_write_entry. exists (mkResolved root Write). split_and!; [split; [|done]|done|done].
  unfold p'. rewrite resolved_push_path. set_solver.
Qed.

(** Adding writable roots takes no access away (what could be read or
    written still can), and afterwards every root can be written, also one
    inside workspace metadata, unless a denial names exactly its path. *)
Theorem additional_writable_roots_widen cwd roots p :
  wf_policy p → Forall normal roots →
  let p' := with_additional_writable_roots cwd roots p in
  (∀ path, can_read_path_with_cwd p path cwd = true → can_read_path_with_cwd p' path cwd = true)
  ∧ (∀ path, can_write_path_with_cwd p path cwd = true → can_write_path_with_cwd p' path cwd = true)
  ∧ ∀ root, root ∈ roots →
      can_write_path_with_cwd p' root cwd = true
      ∨ mkResolved root Deny ∈ resolved_entries_with_cwd p cwd.
Proof.
  unfold with_additional_writable_roots. cbn zeta. intros Hp Hn. revert p Hp.
  induction roots as [|root roots IH]; intros p Hp; simpl; [split_and!; [done|done|by intros ? ?%elem_of_nil]|].
  apply Forall_cons in Hn as [Hroot Hn].
  assert (wf_policy (add_writable_root cwd p root)) as Hp'.
  { unfold add_writable_root. case_match; [done|by apply wf_push_path]. }
  destruct (IH Hn (add_writable_root cwd p root) Hp') as (Hread & Hwrite & Hr). split_and!.
  - intros path Hc. by apply Hread, add_writable_root_reads.
  - intros path Hc. by apply Hwrite, add_writable_root_keeps.
  - intros q [->|Hq]%elem_of_cons.
    + destruct (add_writable_root_writes cwd p root Hp Hroot) as [?|?]; [left; by apply Hwrite|by right].
    + destruct (Hr q Hq) as [?|Hd]; [by left|right].
      unfold add_writable_root in Hd. case_match; [done|]. by apply denied_entry_of_push in Hd.
Qed.

(** ** Project roots *)

Lemma resolve_materialized cwd c c' path :
  from_absolute_path cwd = Some c → normal c' →
  resolve_entry_path (materialize_path (Some c) path) (Some c') = resolve_entry_path path (Some c).
Proof.
  intros Hc Hc'. apply from_absolute_path_normal in Hc.
  destruct path as [q|g|[| |s| | |u s]]; simpl; try done.
  - by destruct (parse_project_roots_glob_pattern g).
  - by rewrite !absolute_root_normal.
  - by destruct s.
Qed.

(** A policy whose project roots were made absolute for one directory
    gives every absolute path the access the policy gave it there, whatever
    the current directory is later. *)
Theorem materialized_policy_is_fixed p path cwd cwd' :
  is_Some (from_absolute_path cwd) → is_Some (from_absolute_path cwd') → is_absolute path = true →
  resolve_access_with_cwd (materialize_project_roots_with_cwd cwd p) path cwd'
  = resolve_access_with_cwd p path cwd.
Proof.
  intros [c Hc] [c' Hc'] Hpath. unfold resolve_access_with_cwd, resolve_candidate_path. simpl. rewrite Hpath.
  destruct (kind p); [|done..]. destruct (from_absolute_path path) as [t|]; [|done].
  do 3 f_equal. unfold resolved_entries_with_cwd. simpl. rewrite Hc, Hc'.
  apply from_absolute_path_normal in Hc' as Hn'. f_equal.
  induction (entries p) as [|e es IH]; [done|]. csimpl. rewrite IH.
  unfold resolve_entry at 1 3. simpl. by rewrite (resolve_materialized cwd c c').
Qed.
End spec.

(** * Instances *)

#[local] Existing Instances Demo.host Demo.laws.

Lemma most_specific_entry_decides_witness :
  resolve_access_with_cwd Demo.workspace (Demo.file "private/./key") Demo.cwd = Deny.
Proof.
  apply (most_specific_entry_decides Demo.workspace _ _ (Demo.file "/repo/private/key")); [done|done|left].
  exists (mkResolved (Demo.file "/repo/private") Deny). split; [|done].
  apply deciding_decides. vm_compute. reflexivity.
Defined.

Lemma full_disk_access_is_complete_witness :
  can_read_path_with_cwd (restricted [new_entry (Demo.special FileSystemSpecialPath.Root) Write])
    (Demo.file "/etc/passwd") Demo.cwd = true
  ∧ can_write_path_with_cwd (restricted [new_entry (Demo.special FileSystemSpecialPath.Root) Write])
      (Demo.file "/etc/passwd") Demo.cwd = true.
Proof.
  destruct (full_disk_access_is_complete
    (restricted [new_entry (Demo.special FileSystemSpecialPath.Root) Write])
    (Demo.file "/etc/passwd") Demo.cwd Demo.cwd (Demo.file "/etc/passwd")) as [Hr Hw]; [done|done|].
  split; [by apply Hr|]. apply Hw; [by repeat constructor|done|done].
Defined.

Lemma preserved_denials_hold_witness :
  resolve_access_with_cwd (preserve_deny_read_restrictions_from Demo.workspace unrestricted)
    (Demo.file "/repo/private/key") Demo.cwd = Deny.
Proof.
  destruct (preserved_denials_hold Demo.workspace unrestricted (Demo.file "/repo/private/key") Demo.cwd)
    as [_ Hd].
  destruct (Hd ltac:(done) (Demo.file "/repo/private/key")
              (new_entry (FileSystemPath.Path (Demo.file "/repo/private")) Deny)
              (mkResolved (Demo.file "/repo/private") Deny)) as [He|(r & [Hr _] & Hl & _)]; [done| |done| |done|].
  - vm_compute. constructor.
  - by eexists [_].
  - vm_compute in Hr. repeat (apply elem_of_cons in Hr as [->|Hr]; [vm_compute in Hl; lia|]).
    by apply elem_of_nil in Hr.
Defined.

Lemma additional_readable_roots_widen_witness :
  can_read_path_with_cwd
    (with_additional_readable_roots Demo.cwd [Demo.file "/etc"]
       (restricted [new_entry (Demo.special (FileSystemSpecialPath.ProjectRoots None)) Write]))
    (Demo.file "/etc") Demo.cwd = true.
Proof.
  destruct (additional_readable_roots_widen Demo.cwd [Demo.file "/etc"]
    (restricted [new_entry (Demo.special (FileSystemSpecialPath.ProjectRoots None)) Write])) as [_ Hr].
  { constructor; [|done]. apply (bool_decide_unpack _). vm_compute. done. }
  destruct (Hr ltac:(done) (Demo.file "/etc")) as [?|Hd]; [by constructor|done|].
  exfalso. vm_compute in Hd. apply list_elem_of_singleton in Hd. done.
Defined.

Lemma additional_writable_roots_widen_witness :
  can_write_path_with_cwd
    (with_additional_writable_roots Demo.cwd [Demo.file "/repo/.git/info"] Demo.workspace)
    (Demo.file "/repo/.git/info") Demo.cwd = true.
Proof.
  destruct (additional_writable_roots_widen Demo.cwd [Demo.file "/repo/.git/info"] Demo.workspace)
    as (_ & _ & Hr).
  { repeat constructor. apply (bool_decide_unpack (normal (Demo.file "/repo/private"))). vm_compute. done. }
  { constructor; [|done]. apply (bool_decide_unpack _). vm_compute. done. }
  destruct (Hr (Demo.file "/repo/.git/info")) as [?|Hd]; [by constructor|done|].
  exfalso. vm_compute in Hd. repeat (apply elem_of_cons in Hd as [?|Hd]; [done|]).
  by apply elem_of_nil in Hd.
Defined.

Lemma metadata_needs_a_write_entry_witness :
  ∃ prot' n', metadata_dir Demo.workspace Demo.cwd prot' n'
    ∧ forbidden_agent_metadata_write (Demo.file ".git/config") Demo.cwd Demo.workspace = Some n'.
Proof.
  destruct (metadata_needs_a_write_entry Demo.workspace (Demo.file ".git/config") Demo.cwd
              (Demo.file "/repo/.git/config") (Demo.file "/repo/.git") (lit ".git")) as [_ Hf]; try done.
  - repeat constructor. apply (bool_decide_unpack (normal (Demo.file "/repo/private"))). vm_compute. done.
  - exists (mkResolved (Demo.file "/repo") Write). split_and!; [|done| |done].
    + vm_compute. do 2 constructor.
    + vm_compute. constructor.
  - by eexists [_].
  - destruct Hf as (prot' & n' & ? & _ & ?); [|by exists prot', n'].
    intros r [Hin _] Ha prot' n' (w & Hw & Hwa & Hn & ->) Hpre. apply prefix_length in Hpre.
    rewrite length_app in Hpre. simpl in Hpre.
    assert (∀ x, x ∈ resolved_entries_with_cwd Demo.workspace Demo.cwd → resolved_access x = Write →
                 resolved_path x = Demo.file "/repo") as Honly.
    { intros x Hx Hxa. vm_compute in Hx.
      repeat (apply elem_of_cons in Hx as [->|Hx]; [done|]). by apply elem_of_nil in Hx. }
    rewrite (Honly r Hin Ha), (Honly w Hw Hwa) in Hpre. lia.
Defined.

Lemma materialized_policy_is_fixed_witness :
  resolve_access_with_cwd (materialize_project_roots_with_cwd Demo.cwd Demo.workspace)
    (Demo.file "/repo/src/main.rs") (Demo.file "/elsewhere") = Write.
Proof.
  rewrite (materialized_policy_is_fixed Demo.workspace (Demo.file "/repo/src/main.rs") Demo.cwd).
  - vm_compute. reflexivity.
  - by eexists.
  - by eexists.
  - done.
Defined.

(** Which metadata directory must have a write entry is that of the first
    writable root in the list, so two policies with the same entries in another
    order can disagree. *)
Example metadata_protection_depends_on_order :
  let grant s := new_entry (FileSystemPath.Path (Demo.file s)) Write in
  can_write_path_with_cwd (restricted [grant "/a"; grant "/a/.git"]) (Demo.file "/a/.git/.git/x") Demo.cwd = true
  ∧ can_write_path_with_cwd (restricted [grant "/a/.git"; grant "/a"]) (Demo.file "/a/.git/.git/x") Demo.cwd
    = false.
Proof. split; vm_compute; reflexivity. Qed.
