(* ===== verification/SandboxRoots.v ===== *)
(** From sandbox policies to what a sandbox enforces: readable, writable and
    unreadable roots with their carve-outs, the matcher of denied reads, the
    legacy policies and the conversions between both forms
    ([protocol/src/permissions.rs], [SandboxPolicy] and [WritableRoot] of
    [protocol/src/protocol.rs]), and permission profiles
    ([protocol/src/models.rs]). *)

From S2P Require Import Prelude Text Paths Permissions.

(** * Legacy policies *)

Module NetworkAccess.
Inductive t := Restricted | Enabled.
Definition is_enabled (a : t) : bool := match a with Enabled => true | Restricted => false end.
End NetworkAccess.

Module NetworkSandboxPolicy.
Inductive t := Restricted | Enabled.
Definition is_enabled (a : t) : bool := match a with Enabled => true | Restricted => false end.
End NetworkSandboxPolicy.

Module SandboxPolicy.
Inductive t :=
| DangerFullAccess
| ReadOnly (network_access : bool)
| ExternalSandbox (network_access : NetworkAccess.t)
| WorkspaceWrite (writable_roots : list AbsolutePathBuf)
    (network_access exclude_tmpdir_env_var exclude_slash_tmp : bool).

Definition has_full_disk_write_access (p : t) : bool :=
  match p with
  | DangerFullAccess | ExternalSandbox _ => true
  | ReadOnly _ | WorkspaceWrite _ _ _ _ => false
  end.

Definition has_full_network_access (p : t) : bool :=
  match p with
  | DangerFullAccess => true
  | ExternalSandbox network_access => NetworkAccess.is_enabled network_access
  | ReadOnly network_access | WorkspaceWrite _ network_access _ _ => network_access
  end.
End SandboxPolicy.

(** [impl From<&SandboxPolicy> for NetworkSandboxPolicy] *)
Definition network_of_sandbox_policy (p : SandboxPolicy.t) : NetworkSandboxPolicy.t :=
  if SandboxPolicy.has_full_network_access p then NetworkSandboxPolicy.Enabled
  else NetworkSandboxPolicy.Restricted.

(** [WritableRoot] *)
Record WritableRoot := mkWritableRoot {
  root : AbsolutePathBuf;
  read_only_subpaths : list AbsolutePathBuf;
  protected_metadata_names : list str
}.

#[export] Instance WritableRoot_eq_dec : EqDecision WritableRoot.
Proof. solve_decision. Defined.

(** [WritableRoot::path_contains_protected_metadata_name] and [::is_path_writable] *)
Definition path_contains_protected_metadata_name (w : WritableRoot) (path : Path) : bool :=
  match strip_path_prefix path (root w) with
  | Some (first_component :: _) =>
      existsb (λ name, bool_decide (component_text first_component = name)) (protected_metadata_names w)
  | _ => false
  end.
Definition is_path_writable (w : WritableRoot) (path : Path) : bool :=
  if negb (path_starts_with path (root w)) then false
  else if existsb (path_starts_with path) (read_only_subpaths w) then false
  else negb (path_contains_protected_metadata_name w path).

(** * Lists of paths *)

Section roots.
Context `{Host}.

(** [normalize_effective_absolute_path]: the first ancestor that exists and
    can be made canonical gives the path. *)
Definition normalize_effective_absolute_path (path : AbsolutePathBuf) : AbsolutePathBuf :=
  let through ancestor :=
    match symlink_metadata ancestor with
    | None => None
    | Some _ =>
        normalized_ancestor ← canonicalize_preserving_symlinks ancestor;
        suffix ← strip_path_prefix path ancestor;
        from_absolute_path (path_join normalized_ancestor suffix)
    end in
  default path (head (omap through (ancestors path))).

(** [dedup_absolute_paths] *)
Definition dedup_absolute_paths (paths : list AbsolutePathBuf) (normalize_effective_paths : bool) :
    list AbsolutePathBuf :=
  foldl (λ deduped path,
    push_absent deduped (if normalize_effective_paths then normalize_effective_absolute_path path else path))
    [] paths.

(** ** Defaults under a writable root *)

(** [is_git_pointer_file] *)
Definition is_git_pointer_file (path : AbsolutePathBuf) : bool :=
  is_file path && bool_decide (last path = Some (Normal (lit ".git"))).

(** [resolve_gitdir_from_file] *)
Definition resolve_gitdir_from_file (dot_git : AbsolutePathBuf) : option AbsolutePathBuf :=
  contents ← read_file dot_git;
  '(prefix, gitdir_raw) ← split_once 58 (trim contents);
  if negb (bool_decide (trim prefix = lit "gitdir")) then None
  else
    let gitdir_raw := trim gitdir_raw in
    if is_nil gitdir_raw then None
    else
      base ← parent dot_git;
      let gitdir_path := resolve_path_against_base (path_new gitdir_raw) base in
      if path_exists gitdir_path then Some gitdir_path else None.

(** [default_read_only_subpaths_for_writable_root] *)
Definition default_read_only_subpaths_for_writable_root (writable_root : AbsolutePathBuf)
    (protect_missing_dot_codex : bool) : list AbsolutePathBuf :=
  let top_level_git := abs_join writable_root (path_new (lit ".git")) in
  let top_level_git_is_file := is_file top_level_git in
  let top_level_git_is_dir := is_dir top_level_git in
  let git :=
    if top_level_git_is_dir || top_level_git_is_file then
      (if top_level_git_is_file && is_git_pointer_file top_level_git
       then option_list (resolve_gitdir_from_file top_level_git) else [])
      ++ [top_level_git]
    else [] in
  let top_level_agents := abs_join writable_root (path_new (lit ".agents")) in
  let agents := if is_dir top_level_agents then [top_level_agents] else [] in
  let top_level_codex := abs_join writable_root (path_new (lit ".codex")) in
  let codex := if protect_missing_dot_codex || is_dir top_level_codex then [top_level_codex] else [] in
  dedup_absolute_paths (git ++ agents ++ codex) false.
End roots.

(** [append_default_read_only_entry_if_no_explicit_rule] and its two callers *)
Definition append_default_read_only_entry_if_no_explicit_rule (es : list FileSystemSandboxEntry)
    (path : FileSystemPath.t) : list FileSystemSandboxEntry :=
  if existsb (λ e, file_system_paths_share_target (entry_path e) path) es then es
  else es ++ [skip_missing_path path Read].
Definition append_default_read_only_project_root_subpath_if_no_explicit_rule
    (es : list FileSystemSandboxEntry) (subpath : str) : list FileSystemSandboxEntry :=
  append_default_read_only_entry_if_no_explicit_rule es
    (FileSystemPath.Special (FileSystemSpecialPath.ProjectRoots (Some subpath))).
Definition append_default_read_only_path_if_no_explicit_rule
    (es : list FileSystemSandboxEntry) (path : AbsolutePathBuf) : list FileSystemSandboxEntry :=
  append_default_read_only_entry_if_no_explicit_rule es (FileSystemPath.Path path).

(** * Conversions *)

Section conversions.
Context `{Host}.

Definition special_entry (value : FileSystemSpecialPath.t) (access : FileSystemAccessMode) :
    FileSystemSandboxEntry := new_entry (FileSystemPath.Special value) access.

(** The read-only defaults of a list of writable roots, none for a missing [.codex]. *)
Definition append_defaults_of_roots (es : list FileSystemSandboxEntry)
    (writable_roots : list AbsolutePathBuf) : list FileSystemSandboxEntry :=
  foldl append_default_read_only_path_if_no_explicit_rule es
    (writable_roots ≫= λ writable_root, default_read_only_subpaths_for_writable_root writable_root false).

(** The grants of [workspace_write] and of the legacy runtime. *)
Definition workspace_entries (writable_roots : list AbsolutePathBuf)
    (exclude_tmpdir_env_var exclude_slash_tmp : bool) : list FileSystemSandboxEntry :=
  [special_entry FileSystemSpecialPath.Root Read;
   special_entry (FileSystemSpecialPath.ProjectRoots None) Write]
  ++ (if exclude_slash_tmp then [] else [special_entry FileSystemSpecialPath.SlashTmp Write])
  ++ (if exclude_tmpdir_env_var then [] else [special_entry FileSystemSpecialPath.Tmpdir Write])
  ++ ((λ path, new_entry (FileSystemPath.Path path) Write) <$> writable_roots).

(** [FileSystemSandboxPolicy::workspace_write] *)
Definition workspace_write (writable_roots : list AbsolutePathBuf)
    (exclude_tmpdir_env_var exclude_slash_tmp : bool) : FileSystemSandboxPolicy :=
  let es := workspace_entries writable_roots exclude_tmpdir_env_var exclude_slash_tmp in
  let es := foldl append_default_read_only_project_root_subpath_if_no_explicit_rule es
              [lit ".git"; lit ".agents"; lit ".codex"] in
  restricted (append_defaults_of_roots es writable_roots).

(** [impl From<&SandboxPolicy> for FileSystemSandboxPolicy] *)
Definition from_sandbox_policy (p : SandboxPolicy.t) : FileSystemSandboxPolicy :=
  match p with
  | SandboxPolicy.DangerFullAccess => unrestricted
  | SandboxPolicy.ExternalSandbox _ => external_sandbox
  | SandboxPolicy.ReadOnly _ => restricted [special_entry FileSystemSpecialPath.Root Read]
  | SandboxPolicy.WorkspaceWrite writable_roots _ exclude_tmpdir_env_var exclude_slash_tmp =>
      workspace_write writable_roots exclude_tmpdir_env_var exclude_slash_tmp
  end.

(** The read-only defaults of the current directory, also for a missing [.codex]. *)
Definition append_defaults_of_cwd (es : list FileSystemSandboxEntry) (cwd : Path) :
    list FileSystemSandboxEntry :=
  match from_absolute_path cwd with
  | Some cwd_root =>
      foldl append_default_read_only_path_if_no_explicit_rule es
        (default_read_only_subpaths_for_writable_root cwd_root true)
  | None => es
  end.

(** [from_legacy_sandbox_policy_for_cwd] *)
Definition from_legacy_sandbox_policy_for_cwd (p : SandboxPolicy.t) (cwd : Path) :
    FileSystemSandboxPolicy :=
  let file_system_policy := from_sandbox_policy p in
  match p with
  | SandboxPolicy.WorkspaceWrite writable_roots _ _ _ =>
      set_entries
        (append_defaults_of_roots (append_defaults_of_cwd (entries file_system_policy) cwd) writable_roots)
        file_system_policy
  | _ => file_system_policy
  end.

(** [from_legacy_sandbox_policy_preserving_deny_entries] *)
Definition from_legacy_sandbox_policy_preserving_deny_entries (p : SandboxPolicy.t) (cwd : Path)
    (existing : FileSystemSandboxPolicy) : FileSystemSandboxPolicy :=
  let rebuilt := from_legacy_sandbox_policy_for_cwd p cwd in
  if negb (is_restricted rebuilt) then rebuilt
  else mkPolicy (kind rebuilt) (glob_scan_max_depth existing)
         (foldl push_absent (entries rebuilt) (deny_entries existing)).

(** [legacy_runtime_file_system_policy_for_cwd] *)
Definition legacy_runtime_file_system_policy_for_cwd (p : SandboxPolicy.t) (cwd : Path) :
    FileSystemSandboxPolicy :=
  match p with
  | SandboxPolicy.WorkspaceWrite writable_roots _ exclude_tmpdir_env_var exclude_slash_tmp =>
      restricted
        (append_defaults_of_roots
           (append_defaults_of_cwd
              (workspace_entries writable_roots exclude_tmpdir_env_var exclude_slash_tmp) cwd)
           writable_roots)
  | _ => from_sandbox_policy p
  end.

(** [with_additional_legacy_workspace_writable_roots] *)
Definition add_legacy_root (es : list FileSystemSandboxEntry) (path : AbsolutePathBuf) :
    list FileSystemSandboxEntry :=
  let es :=
    if existsb (λ e, can_write (entry_access e) && bool_decide (entry_path e = FileSystemPath.Path path)) es
    then es else es ++ [new_entry (FileSystemPath.Path path) Write] in
  foldl append_default_read_only_path_if_no_explicit_rule es
    (default_read_only_subpaths_for_writable_root path false).
Definition with_additional_legacy_workspace_writable_roots (roots : list AbsolutePathBuf)
    (p : FileSystemSandboxPolicy) : FileSystemSandboxPolicy :=
  if negb (is_restricted p) then p else set_entries (foldl add_legacy_root (entries p) roots) p.

(** ** To a legacy policy *)

(** The accumulators of the loop of [to_legacy_sandbox_policy]. *)
Record bridge := mkBridge {
  workspace_root_writable : bool;
  bridged_roots : list AbsolutePathBuf;
  tmpdir_writable : bool;
  slash_tmp_writable : bool;
  unbridgeable_root_write : bool
}.

Definition set_workspace (b : bridge) : bridge :=
  mkBridge true (bridged_roots b) (tmpdir_writable b) (slash_tmp_writable b) (unbridgeable_root_write b).
Definition push_root (path : AbsolutePathBuf) (b : bridge) : bridge :=
  mkBridge (workspace_root_writable b) (bridged_roots b ++ [path]) (tmpdir_writable b)
    (slash_tmp_writable b) (unbridgeable_root_write b).

Definition bridge_entry (cwd_absolute : option AbsolutePathBuf) (b : bridge) (e : FileSystemSandboxEntry) :
    bridge :=
  match entry_path e with
  | FileSystemPath.GlobPattern _ => b
  | FileSystemPath.Path path =>
      if can_write (entry_access e) then
        if bool_decide (cwd_absolute = Some path) then set_workspace b else push_root path b
      else b
  | FileSystemPath.Special value =>
      match value with
      | FileSystemSpecialPath.Root =>
          match entry_access e with
          | Deny | Read => b
          | Write => mkBridge (workspace_root_writable b) (bridged_roots b) (tmpdir_writable b)
                       (slash_tmp_writable b) true
          end
      | FileSystemSpecialPath.Minimal | FileSystemSpecialPath.Unknown _ _ => b
      | FileSystemSpecialPath.ProjectRoots subpath =>
          if bool_decide (subpath = None) && can_write (entry_access e) then set_workspace b
          else match resolve_file_system_special_path value cwd_absolute with
               | Some path => if can_write (entry_access e) then push_root path b else b
               | None => b
               end
      | FileSystemSpecialPath.Tmpdir =>
          if can_write (entry_access e)
          then mkBridge (workspace_root_writable b) (bridged_roots b) true (slash_tmp_writable b)
                 (unbridgeable_root_write b)
          else b
      | FileSystemSpecialPath.SlashTmp =>
          if can_write (entry_access e)
          then mkBridge (workspace_root_writable b) (bridged_roots b) (tmpdir_writable b) true
                 (unbridgeable_root_write b)
          else b
      end
  end.

Definition msg_unbridgeable : str :=
  lit "permissions profile requests filesystem writes outside the workspace root, which is not supported until the runtime enforces FileSystemSandboxPolicy directly".

(** Full access to the disk, with the network or without it. *)
Definition full_access (network_policy : NetworkSandboxPolicy.t) : SandboxPolicy.t :=
  if NetworkSandboxPolicy.is_enabled network_policy then SandboxPolicy.DangerFullAccess
  else SandboxPolicy.ExternalSandbox NetworkAccess.Restricted.

(** [to_legacy_sandbox_policy] *)
Definition to_legacy_sandbox_policy (p : FileSystemSandboxPolicy)
    (network_policy : NetworkSandboxPolicy.t) (cwd : Path) : result str SandboxPolicy.t :=
  match kind p with
  | ExternalSandbox =>
      Ok (SandboxPolicy.ExternalSandbox
            (if NetworkSandboxPolicy.is_enabled network_policy then NetworkAccess.Enabled
             else NetworkAccess.Restricted))
  | Unrestricted => Ok (full_access network_policy)
  | Restricted =>
      let cwd_absolute := from_absolute_path cwd in
      let b := foldl (bridge_entry cwd_absolute) (mkBridge false [] false false false) (entries p) in
      if has_full_disk_write_access p then Ok (full_access network_policy)
      else if workspace_root_writable b then
        Ok (SandboxPolicy.WorkspaceWrite (dedup_absolute_paths (bridged_roots b) false)
              (NetworkSandboxPolicy.is_enabled network_policy)
              (negb (tmpdir_writable b)) (negb (slash_tmp_writable b)))
      else if unbridgeable_root_write b || negb (is_nil (bridged_roots b))
              || tmpdir_writable b || slash_tmp_writable b then
        Err msg_unbridgeable
      else Ok (SandboxPolicy.ReadOnly (NetworkSandboxPolicy.is_enabled network_policy))
  end.
End conversions.

(** * Roots *)

Section enforced.
Context `{Host}.
Implicit Types (p : FileSystemSandboxPolicy).

(** [get_readable_roots_with_cwd] *)
Definition get_readable_roots_with_cwd p (cwd : Path) : list AbsolutePathBuf :=
  if has_full_disk_read_access p then []
  else dedup_absolute_paths
         (resolved_path <$>
            filter (λ r, can_read (resolved_access r) = true
                         ∧ can_read_path_with_cwd p (resolved_path r) cwd = true)
              (resolved_entries_with_cwd p cwd)) true.

(** [get_unreadable_roots_with_cwd] *)
Definition get_unreadable_roots_with_cwd p (cwd : Path) : list AbsolutePathBuf :=
  if negb (is_restricted p) then []
  else
    let fs_root := from_absolute_path cwd ≫= absolute_root_path_for_cwd in
    dedup_absolute_paths
      (resolved_path <$>
         filter (λ r, resolved_access r = Deny
                      ∧ can_read_path_with_cwd p (resolved_path r) cwd = false
                      ∧ fs_root ≠ Some (resolved_path r))
           (resolved_entries_with_cwd p cwd)) true.

(** [has_explicit_resolved_path_entry] *)
Definition has_explicit_resolved_path_entry (rs : list ResolvedFileSystemEntry) (path : AbsolutePathBuf) :
    bool := existsb (λ r, bool_decide (resolved_path r = path)) rs.

(** [protected_metadata_names_for_writable_root] *)
Definition protected_metadata_names_for_writable_root p (w : AbsolutePathBuf)
    (raw_writable_roots : list AbsolutePathBuf) (cwd : Path) : list str :=
  filter (λ metadata_name,
    forallb (λ metadata_path, negb (can_write_path_with_cwd p metadata_path cwd))
      ((λ r, abs_join r (path_new metadata_name)) <$> w :: raw_writable_roots) = true)
    PROTECTED_METADATA_PATH_NAMES.

(** The carve-out an entry that cannot be written makes below a writable root,
    as the code spells it: literally where it lies below the root or below one
    of the raw spellings of the root, else by its effective path. *)
Definition raw_carveout_path (w : AbsolutePathBuf) (raw_writable_roots : list AbsolutePathBuf)
    (path : AbsolutePathBuf) : option AbsolutePathBuf :=
  match parent w with
  | None => None
  | Some _ =>
      if bool_decide (path = w) then None
      else if path_starts_with path w then Some path
      else head (omap (λ raw_root,
                   suffix ← strip_path_prefix path raw_root;
                   if is_nil suffix then None else Some (abs_join w suffix)) raw_writable_roots)
  end.
Definition carveout (w : AbsolutePathBuf) (raw_writable_roots : list AbsolutePathBuf)
    (path : AbsolutePathBuf) : option AbsolutePathBuf :=
  let effective_path := normalize_effective_absolute_path path in
  match raw_carveout_path w raw_writable_roots path with
  | Some raw => Some raw
  | None =>
      if bool_decide (effective_path = w) || negb (path_starts_with effective_path w) then None
      else Some effective_path
  end.

(** [get_writable_roots_with_cwd] *)
Definition writable_entry_paths p (cwd : Path) : list AbsolutePathBuf :=
  resolved_path <$>
    filter (λ r, can_write (resolved_access r) = true
                 ∧ can_write_path_with_cwd p (resolved_path r) cwd = true)
      (resolved_entries_with_cwd p cwd).
Definition writable_root_of p (cwd : Path) (w : AbsolutePathBuf) : WritableRoot :=
  let resolved_entries := resolved_entries_with_cwd p cwd in
  let raw_writable_roots :=
    filter (λ path, normalize_effective_absolute_path path = w) (writable_entry_paths p cwd) in
  let protect_missing_dot_codex :=
    bool_decide (normalize_effective_absolute_path <$> from_absolute_path cwd = Some w) in
  let defaults :=
    filter (λ path, has_explicit_resolved_path_entry resolved_entries path = false)
      (default_read_only_subpaths_for_writable_root w protect_missing_dot_codex) in
  let carved :=
    omap (λ r, carveout w raw_writable_roots (resolved_path r))
      (filter (λ r, can_write (resolved_access r) = false
                    ∧ can_write_path_with_cwd p (resolved_path r) cwd = false) resolved_entries) in
  mkWritableRoot w (dedup_absolute_paths (defaults ++ carved) false)
    (protected_metadata_names_for_writable_root p w raw_writable_roots cwd).
Definition get_writable_roots_with_cwd p (cwd : Path) : list WritableRoot :=
  if has_full_disk_write_access p then []
  else writable_root_of p cwd <$> dedup_absolute_paths (writable_entry_paths p cwd) true.

(** [SandboxPolicy::get_writable_roots_with_cwd], on Unix *)
Definition legacy_writable_roots_with_cwd (sp : SandboxPolicy.t) (cwd : Path) : list WritableRoot :=
  match sp with
  | SandboxPolicy.WorkspaceWrite writable_roots _ exclude_tmpdir_env_var exclude_slash_tmp =>
      let cwd_root := from_absolute_path cwd in
      let slash_tmp :=
        if exclude_slash_tmp then []
        else match from_absolute_path (path_new (lit "/tmp")) with
             | Some slash_tmp => if is_dir slash_tmp then [slash_tmp] else []
             | None => []
             end in
      let tmpdir :=
        if exclude_tmpdir_env_var then []
        else match tmpdir_var with
             | Some tmpdir => if is_nil tmpdir then [] else option_list (from_absolute_path (path_new tmpdir))
             | None => []
             end in
      (λ w, mkWritableRoot w
              (default_read_only_subpaths_for_writable_root w (bool_decide (cwd_root = Some w))) [])
      <$> (writable_roots ++ option_list cwd_root ++ slash_tmp ++ tmpdir)
  | _ => []
  end.

(** ** Comparing policies *)

(** The order of [Path], component by component; names by their text. *)
Definition component_rank (c : Component) : nat :=
  match c with RootDir => 0 | CurDir => 1 | ParentDir => 2 | Normal _ => 3 end.
Definition component_leb (a b : Component) : bool :=
  match a, b with
  | Normal s, Normal t => str_leb s t
  | _, _ => bool_decide (component_rank a ≤ component_rank b)
  end.
Fixpoint path_leb (a b : Path) : bool :=
  match a, b with
  | [], _ => true
  | _, [] => false
  | x :: a, y :: b => if decide (x = y) then path_leb a b else component_leb x y
  end.

(** [sorted_absolute_paths] and [sorted_writable_roots] *)
Definition sorted_absolute_paths (paths : list AbsolutePathBuf) : list AbsolutePathBuf := sort_by path_leb paths.
Definition sorted_writable_roots (roots : list WritableRoot) : list WritableRoot :=
  sort_by (λ l r, path_leb (root l) (root r))
    ((λ w, mkWritableRoot (root w) (sorted_absolute_paths (read_only_subpaths w))
             (dedup (sort_by str_leb (protected_metadata_names w)))) <$> roots).

(** [FileSystemSemanticSignature] *)
Record FileSystemSemanticSignature := mkSignature {
  sig_full_disk_read_access : bool;
  sig_full_disk_write_access : bool;
  sig_include_platform_defaults : bool;
  sig_readable_roots : list AbsolutePathBuf;
  sig_writable_roots : list WritableRoot;
  sig_unreadable_roots : list AbsolutePathBuf;
  sig_unreadable_globs : list str
}.

#[export] Instance FileSystemSemanticSignature_eq_dec : EqDecision FileSystemSemanticSignature.
Proof. solve_decision. Defined.

(** [semantic_signature] and [is_semantically_equivalent_to] *)
Definition semantic_signature p (cwd : Path) : FileSystemSemanticSignature :=
  mkSignature (has_full_disk_read_access p) (has_full_disk_write_access p) (include_platform_defaults p)
    (sorted_absolute_paths (get_readable_roots_with_cwd p cwd))
    (sorted_writable_roots (get_writable_roots_with_cwd p cwd))
    (sorted_absolute_paths (get_unreadable_roots_with_cwd p cwd))
    (get_unreadable_globs_with_cwd p cwd).
Definition is_semantically_equivalent_to p (other : FileSystemSandboxPolicy) (cwd : Path) : bool :=
  bool_decide (semantic_signature p cwd = semantic_signature other cwd).

(** [protected_metadata_names_need_direct_runtime_enforcement] *)
Definition protected_metadata_names_need_direct_runtime_enforcement p (legacy : SandboxPolicy.t)
    (cwd : Path) : bool :=
  let legacy_roots := legacy_writable_roots_with_cwd legacy cwd in
  existsb (λ w,
    match head (filter (λ candidate, root candidate = root w) legacy_roots) with
    | None => negb (is_nil (protected_metadata_names w))
    | Some legacy_root =>
        existsb (λ metadata_name,
          negb (existsb (λ subpath, bool_decide (subpath = abs_join (root w) (path_new metadata_name)))
                  (read_only_subpaths legacy_root)))
          (protected_metadata_names w)
    end) (get_writable_roots_with_cwd p cwd).

(** [needs_direct_runtime_enforcement] *)
Definition needs_direct_runtime_enforcement p (network_policy : NetworkSandboxPolicy.t) (cwd : Path) : bool :=
  if negb (is_restricted p) then false
  else match to_legacy_sandbox_policy p network_policy cwd with
       | Err _ => true
       | Ok legacy =>
           if protected_metadata_names_need_direct_runtime_enforcement p legacy cwd then true
           else negb (is_semantically_equivalent_to p (legacy_runtime_file_system_policy_for_cwd legacy cwd) cwd)
       end.
End enforced.

(** * Denied reads *)

(** [globset]: a pattern is compiled to a predicate on paths, or rejected. *)
Class Globs := { build_glob_matcher : str → result str (Path → bool) }.

Record ReadDenyMatcher := mkMatcher {
  denied_candidates : list (list Path);
  deny_read_matchers : list (Path → bool);
  invalid_pattern : bool
}.

Inductive InvalidDenyReadGlobBehavior := FailClosed | ReturnError.

Section matcher.
Context `{Host, Globs}.

(** [normalized_and_canonical_candidates] *)
Definition normalized_and_canonical_candidates (path : Path) : list Path :=
  let candidates := [default path (from_absolute_path path)] in
  match canonicalize path ≫= from_absolute_path with
  | Some canonical => push_absent candidates canonical
  | None => candidates
  end.

(** The loop over the patterns in [ReadDenyMatcher::build]. *)
Definition msg_invalid_glob (pattern err : str) : str :=
  lit "invalid deny-read glob pattern `" ++ pattern ++ lit "`: " ++ err.
Fixpoint build_matchers (patterns : list str) (behavior : InvalidDenyReadGlobBehavior)
    (matchers : list (Path → bool)) (invalid : bool) : result str (list (Path → bool) * bool) :=
  match patterns with
  | [] => Ok (matchers, invalid)
  | pattern :: patterns =>
      match build_glob_matcher pattern with
      | Ok matcher => build_matchers patterns behavior (matchers ++ [matcher]) invalid
      | Err err =>
          match behavior with
          | FailClosed => build_matchers patterns behavior matchers true
          | ReturnError => Err (msg_invalid_glob pattern err)
          end
      end
  end.

(** [ReadDenyMatcher::build], [::try_new] and [::new]; in [new] an error is
    unreachable ([read_deny_matcher_new_total]). *)
Definition build (p : FileSystemSandboxPolicy) (cwd : Path) (behavior : InvalidDenyReadGlobBehavior) :
    result str (option ReadDenyMatcher) :=
  if negb (has_denied_read_restrictions p) then Ok None
  else
    let denied := normalized_and_canonical_candidates <$> get_unreadable_roots_with_cwd p cwd in
    let? (matchers, invalid) := build_matchers (get_unreadable_globs_with_cwd p cwd) behavior [] false in
    Ok (Some (mkMatcher denied matchers invalid)).
Definition try_new (p : FileSystemSandboxPolicy) (cwd : Path) : result str (option ReadDenyMatcher) :=
  build p cwd ReturnError.
Definition new (p : FileSystemSandboxPolicy) (cwd : Path) : result str (option ReadDenyMatcher) :=
  build p cwd FailClosed.

(** [ReadDenyMatcher::is_read_denied] *)
Definition is_read_denied (m : ReadDenyMatcher) (path : Path) : bool :=
  if invalid_pattern m then true
  else
    let path_candidates := normalized_and_canonical_candidates path in
    if existsb (λ denied_candidates,
         existsb (λ candidate,
           existsb (λ denied_candidate,
             bool_decide (candidate = denied_candidate) || path_starts_with candidate denied_candidate)
             denied_candidates) path_candidates) (denied_candidates m)
    then true
    else existsb (λ matcher, existsb matcher path_candidates) (deny_read_matchers m).
End matcher.

(** * Permission profiles *)

Inductive SandboxEnforcement := EnforceManaged | EnforceDisabled | EnforceExternal.

#[export] Instance SandboxEnforcement_eq_dec : EqDecision SandboxEnforcement.
Proof. solve_decision. Defined.

(** [SandboxEnforcement::from_legacy_sandbox_policy] *)
Definition enforcement_of_legacy (p : SandboxPolicy.t) : SandboxEnforcement :=
  match p with
  | SandboxPolicy.DangerFullAccess => EnforceDisabled
  | SandboxPolicy.ExternalSandbox _ => EnforceExternal
  | SandboxPolicy.ReadOnly _ | SandboxPolicy.WorkspaceWrite _ _ _ _ => EnforceManaged
  end.

(** [ManagedFileSystemPermissions]; a [NonZeroUsize] is a number that is not 0. *)
Module ManagedFileSystemPermissions.
Inductive t :=
| Restricted (entries : list FileSystemSandboxEntry) (glob_scan_max_depth : option positive)
| Unrestricted.

(** [from_sandbox_policy]; [None] is the [unreachable!]. *)
Definition from_sandbox_policy (p : FileSystemSandboxPolicy) : option t :=
  match kind p with
  | Permissions.Restricted =>
      Some (Restricted (entries p)
              (glob_scan_max_depth p ≫= λ depth, match depth with N0 => None | Npos d => Some d end))
  | Permissions.Unrestricted => Some Unrestricted
  | ExternalSandbox => None
  end.

(** [to_sandbox_policy] *)
Definition to_sandbox_policy (m : t) : FileSystemSandboxPolicy :=
  match m with
  | Restricted es depth => mkPolicy Permissions.Restricted (Npos <$> depth) es
  | Unrestricted => unrestricted
  end.
End ManagedFileSystemPermissions.

(** [PermissionProfile] *)
Module PermissionProfile.
Inductive t :=
| Managed (file_system : ManagedFileSystemPermissions.t) (network : NetworkSandboxPolicy.t)
| Disabled
| External (network : NetworkSandboxPolicy.t).

Definition enforcement (p : t) : SandboxEnforcement :=
  match p with
  | Managed _ _ => EnforceManaged | Disabled => EnforceDisabled | External _ => EnforceExternal
  end.

Definition file_system_sandbox_policy (p : t) : FileSystemSandboxPolicy :=
  match p with
  | Managed file_system _ => ManagedFileSystemPermissions.to_sandbox_policy file_system
  | Disabled => unrestricted
  | External _ => external_sandbox
  end.

Definition network_sandbox_policy (p : t) : NetworkSandboxPolicy.t :=
  match p with
  | Managed _ network | External network => network
  | Disabled => NetworkSandboxPolicy.Enabled
  end.

Definition to_runtime_permissions (p : t) : FileSystemSandboxPolicy * NetworkSandboxPolicy.t :=
  (file_system_sandbox_policy p, network_sandbox_policy p).

(** [from_runtime_permissions_with_enforcement] *)
Definition from_runtime_permissions_with_enforcement (enforcement : SandboxEnforcement)
    (fs : FileSystemSandboxPolicy) (network : NetworkSandboxPolicy.t) : option t :=
  match kind fs with
  | ExternalSandbox => Some (External network)
  | kind =>
      if bool_decide (kind = Unrestricted ∧ enforcement = EnforceDisabled) then Some Disabled
      else file_system ← ManagedFileSystemPermissions.from_sandbox_policy fs; Some (Managed file_system network)
  end.

(** [from_runtime_permissions] *)
Definition from_runtime_permissions (fs : FileSystemSandboxPolicy) (network : NetworkSandboxPolicy.t) :
    option t :=
  from_runtime_permissions_with_enforcement
    (match kind fs with
     | Permissions.Restricted | Unrestricted => EnforceManaged
     | ExternalSandbox => EnforceExternal
     end) fs network.

Section legacy.
Context `{Host}.

(** [from_legacy_sandbox_policy] and [from_legacy_sandbox_policy_for_cwd] *)
Definition from_legacy_sandbox_policy (p : SandboxPolicy.t) : option t :=
  from_runtime_permissions_with_enforcement (enforcement_of_legacy p) (SandboxRoots.from_sandbox_policy p)
    (network_of_sandbox_policy p).
Definition profile_of_legacy_for_cwd (p : SandboxPolicy.t) (cwd : Path) : option t :=
  from_runtime_permissions_with_enforcement (enforcement_of_legacy p)
    (from_legacy_sandbox_policy_for_cwd p cwd) (network_of_sandbox_policy p).

(** [PermissionProfile::to_legacy_sandbox_policy] *)
Definition to_legacy_sandbox_policy (p : t) (cwd : Path) : result str SandboxPolicy.t :=
  match p with
  | Managed file_system network =>
      SandboxRoots.to_legacy_sandbox_policy
        (ManagedFileSystemPermissions.to_sandbox_policy file_system) network cwd
  | Disabled => Ok SandboxPolicy.DangerFullAccess
  | External network =>
      Ok (SandboxPolicy.ExternalSandbox
            (if NetworkSandboxPolicy.is_enabled network then NetworkAccess.Enabled else NetworkAccess.Restricted))
  end.
End legacy.
End PermissionProfile.
