(* ===== verification/SandboxRootsSpec.v ===== *)
(** What the conversions of [SandboxRoots] promise: legacy policies survive a
    round trip through permission profiles, writable roots grant no more than
    the policy they come from, and denied reads are matched. *)

From S2P Require Import Prelude Text Paths Permissions PermissionsSpec SandboxRoots.

Section spec.
Context `{HostLaws}.
Implicit Types (p : FileSystemSandboxPolicy) (r : ResolvedFileSystemEntry).

(** ** Legacy policies *)

(** Entries that grant no write. *)
Definition grants_no_write (es : list FileSystemSandboxEntry) : Prop :=
  Forall (λ e, entry_access e = Read) es.

Lemma append_default_app es path :
  ∃ es', append_default_read_only_entry_if_no_explicit_rule es path = es ++ es' ∧ grants_no_write es'.
Proof.
  unfold append_default_read_only_entry_if_no_explicit_rule. case_match.
  - exists []. rewrite app_nil_r. split; [done|]. by constructor.
  - eexists [_]. split; [done|]. by repeat constructor.
Qed.

Lemma append_defaults_app {A} (f : list FileSystemSandboxEntry → A → list FileSystemSandboxEntry) paths es :
  (∀ es path, ∃ es', f es path = es ++ es' ∧ grants_no_write es') →
  ∃ es', foldl f es paths = es ++ es' ∧ grants_no_write es'.
Proof.
  intros Hf. revert es. induction paths as [|path paths IH]; intros es; simpl.
  { exists []. rewrite app_nil_r. split; [done|by constructor]. }
  destruct (Hf es path) as (es1 & -> & H1), (IH (es ++ es1)) as (es2 & -> & H2).
  exists (es1 ++ es2). rewrite <- app_assoc. split; [done|]. by apply Forall_app.
Qed.

Lemma workspace_write_entries roots t s :
  ∃ es, entries (workspace_write roots t s) = workspace_entries roots t s ++ es ∧ grants_no_write es.
Proof.
  unfold workspace_write, append_defaults_of_roots, restricted. cbn [entries].
  destruct (append_defaults_app append_default_read_only_project_root_subpath_if_no_explicit_rule
              [lit ".git"; lit ".agents"; lit ".codex"] (workspace_entries roots t s)) as (es1 & -> & H1).
  { intros. apply append_default_app. }
  destruct (append_defaults_app append_default_read_only_path_if_no_explicit_rule
              (roots ≫= λ w, default_read_only_subpaths_for_writable_root w false)
              (workspace_entries roots t s ++ es1)) as (es2 & -> & H2).
  { intros. apply append_default_app. }
  exists (es1 ++ es2). rewrite <- app_assoc. split; [done|]. by apply Forall_app.
Qed.

Lemma workspace_for_cwd_entries roots na t s cwd :
  ∃ es, entries (from_legacy_sandbox_policy_for_cwd (SandboxPolicy.WorkspaceWrite roots na t s) cwd)
        = workspace_entries roots t s ++ es ∧ grants_no_write es.
Proof.
  unfold from_legacy_sandbox_policy_for_cwd. cbn [from_sandbox_policy set_entries entries].
  unfold append_defaults_of_roots at 1, append_defaults_of_cwd.
  destruct (workspace_write_entries roots t s) as (es & -> & He).
  assert (∃ es1, match from_absolute_path cwd with
    | Some c => foldl append_default_read_only_path_if_no_explicit_rule (workspace_entries roots t s ++ es)
        (default_read_only_subpaths_for_writable_root c true)
    | None => workspace_entries roots t s ++ es
    end = workspace_entries roots t s ++ es ++ es1 ∧ grants_no_write es1) as (es1 & -> & H1).
  { destruct (from_absolute_path cwd) as [c|].
    - destruct (append_defaults_app append_default_read_only_path_if_no_explicit_rule
        (default_read_only_subpaths_for_writable_root c true) (workspace_entries roots t s ++ es))
        as (es1 & -> & H1); [intros; apply append_default_app|].
      exists es1. by rewrite <- app_assoc.
    - exists []. rewrite app_nil_r. split; [done|by constructor]. }
  destruct (append_defaults_app append_default_read_only_path_if_no_explicit_rule
    (roots ≫= λ w, default_read_only_subpaths_for_writable_root w false)
    (workspace_entries roots t s ++ es ++ es1)) as (es2 & -> & H2); [intros; apply append_default_app|].
  exists (es ++ es1 ++ es2). rewrite <- !app_assoc. split; [done|]. by repeat apply Forall_app_2.
Qed.

Lemma bridge_no_write cwd b es : grants_no_write es → foldl (bridge_entry cwd) b es = b.
Proof.
  intros Hes. revert b. induction Hes as [|e es He _ IH]; intros b; [done|]. simpl.
  assert (bridge_entry cwd b e = b) as ->; [|apply IH]. unfold bridge_entry. rewrite He. simpl.
  destruct (entry_path e) as [| |[]]; try done. rewrite andb_false_r. by case_match.
Qed.

(** The roots of a legacy policy the way a round trip gives them back: once
    each, and without the current directory. *)
Definition canonical_legacy (cwd : Path) (sp : SandboxPolicy.t) : SandboxPolicy.t :=
  match sp with
  | SandboxPolicy.WorkspaceWrite roots na t s =>
      SandboxPolicy.WorkspaceWrite
        (foldl push_absent [] (filter (λ path, from_absolute_path cwd ≠ Some path) roots)) na t s
  | _ => sp
  end.

Lemma bridge_workspace cwd roots t s :
  foldl (bridge_entry (from_absolute_path cwd)) (mkBridge false [] false false false)
    (workspace_entries roots t s)
  = mkBridge true (filter (λ path, from_absolute_path cwd ≠ Some path) roots) (negb t) (negb s) false.
Proof.
  unfold workspace_entries. rewrite !foldl_app.
  assert (∀ b, workspace_root_writable b = true →
    foldl (bridge_entry (from_absolute_path cwd)) b ((λ path, new_entry (FileSystemPath.Path path) Write) <$> roots)
    = mkBridge true (bridged_roots b ++ filter (λ path, from_absolute_path cwd ≠ Some path) roots)
        (tmpdir_writable b) (slash_tmp_writable b) (unbridgeable_root_write b)) as Hroots.
  { induction roots as [|path roots IH]; intros b Hb.
    { rewrite filter_nil, app_nil_r. simpl. rewrite <- Hb. by destruct b. }
    rewrite fmap_cons. simpl. unfold bridge_entry at 2. simpl. rewrite filter_cons.
    case_bool_decide as Hc; rewrite IH by done.
    - by rewrite decide_False by tauto.
    - rewrite decide_True by done. simpl. by rewrite <- app_assoc. }
  rewrite Hroots; by destruct t, s.
Qed.

Lemma no_root_write roots t s es :
  grants_no_write es →
  existsb (λ e, match entry_path e with
                | FileSystemPath.Special FileSystemSpecialPath.Root => can_write (entry_access e)
                | _ => false
                end) (workspace_entries roots t s ++ es) = false.
Proof.
  intros Hes. apply not_true_iff_false. intros (e & He & Hw)%existsb_elem.
  apply elem_of_app in He as [He|He].
  - unfold workspace_entries in He. rewrite !elem_of_app, list_elem_of_fmap in He.
    destruct He as [He|[He|[He|(q & -> & _)]]]; [| | |done].
    + apply elem_of_cons in He as [->|He]; [done|]. by apply list_elem_of_singleton in He as ->.
    + destruct s; [by apply elem_of_nil in He|]. by apply list_elem_of_singleton in He as ->.
    + destruct t; [by apply elem_of_nil in He|]. by apply list_elem_of_singleton in He as ->.
  - unfold grants_no_write in Hes. rewrite Forall_forall in Hes. rewrite (Hes e He) in Hw.
    by destruct (entry_path e) as [| |[]].
Qed.

Lemma to_legacy_workspace p roots t s es network cwd :
  kind p = Restricted → entries p = workspace_entries roots t s ++ es → grants_no_write es →
  to_legacy_sandbox_policy p network cwd
  = Ok (canonical_legacy cwd
          (SandboxPolicy.WorkspaceWrite roots (NetworkSandboxPolicy.is_enabled network) t s)).
Proof.
  intros Hk He Hes. unfold to_legacy_sandbox_policy. rewrite Hk, He.
  rewrite foldl_app, bridge_workspace, bridge_no_write by done.
  assert (has_full_disk_write_access p = false) as ->.
  { unfold has_full_disk_write_access, has_root_access, is_restricted. rewrite Hk, He.
    by rewrite no_root_write by done. }
  simpl. by rewrite !negb_involutive.
Qed.

(** A legacy policy that is made a permission profile, symbolic or for the
    current directory, and turned back is the policy again, with its writable
    roots listed once and without the current directory. *)
Theorem legacy_policy_roundtrip sp cwd :
  (∃ profile, PermissionProfile.from_legacy_sandbox_policy sp = Some profile
     ∧ PermissionProfile.to_legacy_sandbox_policy profile cwd = Ok (canonical_legacy cwd sp))
  ∧ ∃ profile, PermissionProfile.profile_of_legacy_for_cwd sp cwd = Some profile
     ∧ PermissionProfile.to_legacy_sandbox_policy profile cwd = Ok (canonical_legacy cwd sp).
Proof.
  destruct sp as [|na|na|roots na t s].
  1,2,3: split; eexists; (split; [reflexivity|by destruct na || reflexivity]).
  split; eexists; (split; [reflexivity|]); simpl.
  - destruct (workspace_write_entries roots t s) as (es & He & Hes).
    rewrite (to_legacy_workspace _ roots t s es) by done. by destruct na.
  - destruct (workspace_for_cwd_entries roots na t s cwd) as (es & He & Hes).
    rewrite (to_legacy_workspace _ roots t s es) by done. by destruct na.
Qed.

(** ** Writable roots *)

Lemma elem_of_dedup paths b path :
  path ∈ dedup_absolute_paths paths b ↔
  ∃ q, q ∈ paths ∧ path = if b then normalize_effective_absolute_path q else q.
Proof.
  unfold dedup_absolute_paths.
  assert (∀ acc, path ∈ foldl (λ deduped q,
            push_absent deduped (if b then normalize_effective_absolute_path q else q)) acc paths
          ↔ path ∈ acc ∨ ∃ q, q ∈ paths ∧ path = if b then normalize_effective_absolute_path q else q)
    as Hacc.
  { induction paths as [|q paths IH]; intros acc; simpl.
    - split; [by left|]. intros [?|(? & ?%elem_of_nil & _)]; done.
    - rewrite IH, elem_of_push_absent. split.
      + intros [[?| ->]|(q' & ? & ?)]; [by left|right; exists q|right; exists q'];
          by rewrite elem_of_cons; auto.
      + intros [?|(q' & [->|?]%elem_of_cons & ->)]; [by left; left|by left; right|right; by exists q']. }
  rewrite Hacc. split; [intros [?%elem_of_nil|?]; done|by right].
Qed.

(** No entry of the policy is renamed by the code, which follows links right below
    the root directory and keeps the names of links further down. *)
Definition effective p cwd : Prop :=
  ∀ r, r ∈ resolved_entries_with_cwd p cwd →
       normalize_effective_absolute_path (resolved_path r) = resolved_path r.

Lemma elem_of_writable_entry_paths p cwd w :
  w ∈ writable_entry_paths p cwd ↔
  ∃ r, r ∈ resolved_entries_with_cwd p cwd ∧ resolved_path r = w ∧ resolved_access r = Write
       ∧ can_write_path_with_cwd p w cwd = true.
Proof.
  unfold writable_entry_paths. rewrite list_elem_of_fmap.
  split; intros (r & Hr); exists r; rewrite list_elem_of_filter in *; unfold can_write in *;
    rewrite bool_decide_eq_true in *; naive_solver.
Qed.

Lemma can_write_access p path cwd :
  can_write_path_with_cwd p path cwd = true → resolve_access_with_cwd p path cwd = Write.
Proof.
  unfold can_write_path_with_cwd, can_write. destruct (bool_decide _) eqn:E; [|done].
  by apply bool_decide_eq_true in E.
Qed.

(** The deciding entry of a path decides for its own path too. *)
Lemma access_of_deciding p cwd t m :
  is_restricted p = true → normal (resolved_path m) →
  deciding (resolved_entries_with_cwd p cwd) t = Some m →
  resolve_access_with_cwd p (resolved_path m) cwd = resolved_access m.
Proof.
  intros Hr Hn Hm. pose proof (deciding_decides _ _ _ Hm) as [[_ Hpre] _].
  destruct (deciding_below p cwd t (resolved_path m) m Hm Hpre) as (m' & Hm' & Ha); [done|].
  rewrite (resolve_access_deciding p _ cwd (resolved_path m)); [|done|by apply resolve_candidate_id].
  rewrite Hm'. simpl. done.
Qed.

Lemma carveout_below w raws path :
  normalize_effective_absolute_path path = path → path ≠ w → w `prefix_of` path →
  carveout w raws path = Some path.
Proof.
  intros He Hne Hpre. unfold carveout, raw_carveout_path.
  rewrite He, (bool_decide_eq_false_2 (path = w)), (proj2 (path_starts_with_true path w)) by done.
  by destruct (parent w).
Qed.

(** The carve-outs of a root that is an entry keep the entries that narrow it. *)
Lemma granted_access p cwd r0 path :
  wf_policy p → is_restricted p = true → effective p cwd → normal path →
  r0 ∈ resolved_entries_with_cwd p cwd → can_write_path_with_cwd p (resolved_path r0) cwd = true →
  resolved_path r0 `prefix_of` path →
  (∀ s, s ∈ read_only_subpaths (writable_root_of p cwd (resolved_path r0)) →
        resolved_path r0 `prefix_of` s → ¬ s `prefix_of` path) →
  resolve_access_with_cwd p path cwd = Write.
Proof.
  intros Hp Hr He Hn Hin Hcw Hpre Hro. pose proof (resolve_candidate_id path cwd Hn) as Ht.
  rewrite (resolve_access_deciding p path cwd path Hr Ht).
  destruct (deciding (resolved_entries_with_cwd p cwd) path) as [m|] eqn:Hm.
  2:{ exfalso. by apply (proj1 (deciding_None _ _) Hm r0). }
  simpl. pose proof (deciding_decides _ _ _ Hm) as [[Hmin Hmpre] Hmax].
  destruct (Hmax r0) as [Hrm _]; [by split|].
  pose proof (access_of_deciding p cwd path m Hr (resolved_normal _ _ _ Hp Hmin) Hm) as Hma.
  destruct (decide (resolved_access m = Write)) as [|Hnw]; [done|exfalso].
  assert (resolved_path m ≠ resolved_path r0) as Hne.
  { intros Heq. rewrite Heq, (can_write_access _ _ _ Hcw) in Hma. done. }
  assert (can_write_path_with_cwd p (resolved_path m) cwd = false) as Hmw.
  { apply not_true_iff_false. intros Hc%can_write_access. congruence. }
  apply (Hro (resolved_path m)); [|by apply Hrm|done].
  apply elem_of_dedup. exists (resolved_path m). split; [|done].
  apply elem_of_app. right. apply list_elem_of_omap. exists m. split.
  - apply list_elem_of_filter. split; [|done]. unfold can_write. by rewrite bool_decide_eq_false_2.
  - apply carveout_below; [by apply He|done|by apply Hrm].
Qed.

(** A metadata name is listed for a root unless the policy lets it be written. *)
Lemma protected_name_listed p cwd r0 n :
  wf_policy p → effective p cwd → r0 ∈ resolved_entries_with_cwd p cwd → n ∈ PROTECTED_METADATA_PATH_NAMES →
  can_write_path_with_cwd p (resolved_path r0 ++ [Normal n]) cwd = false →
  n ∈ protected_metadata_names (writable_root_of p cwd (resolved_path r0)).
Proof.
  intros Hp He Hin Hnp Hc. pose proof (resolved_normal p cwd r0 Hp Hin) as Hn0.
  apply list_elem_of_filter. split; [|done]. apply forallb_forall. intros q Hq.
  apply list_elem_of_In, list_elem_of_fmap in Hq as (raw & -> & Hraw).
  assert (raw = resolved_path r0) as ->.
  { apply elem_of_cons in Hraw as [->|Hraw]; [done|].
    apply list_elem_of_filter in Hraw as [Heff (r' & Hin' & <- & _)%elem_of_writable_entry_paths].
    by rewrite <- Heff, (He r' Hin'). }
  destruct (protected_name_path n Hnp) as [-> Hne]. by rewrite abs_join_name, Hc by done.
Qed.

Lemma granted_metadata p cwd r0 n path :
  wf_policy p → effective p cwd → r0 ∈ resolved_entries_with_cwd p cwd →
  path_contains_protected_metadata_name (writable_root_of p cwd (resolved_path r0)) path = false →
  n ∈ PROTECTED_METADATA_PATH_NAMES → resolved_path r0 ++ [Normal n] `prefix_of` path →
  can_write_path_with_cwd p (resolved_path r0 ++ [Normal n]) cwd = true.
Proof.
  intros Hp He Hin Hwrite Hnp [rest ->]. unfold path_contains_protected_metadata_name in Hwrite.
  change (root (writable_root_of p cwd (resolved_path r0))) with (resolved_path r0) in Hwrite.
  rewrite <- app_assoc, (proj2 (strip_path_prefix_Some _ _ (Normal n :: rest))) in Hwrite by done.
  destruct (can_write_path_with_cwd p (resolved_path r0 ++ [Normal n]) cwd) eqn:Hc; [done|exfalso].
  assert (bool_decide (component_text (Normal n) = n) = false) as Hbad; [|by apply bool_decide_eq_false in Hbad].
  by apply (existsb_false_elem _ _ n Hwrite), protected_name_listed.
Qed.

(** Where no entry is renamed for a link above it, a path a writable root
    grants is one the policy grants to write, and it does not lie below a
    metadata directory of the root that the policy protects. *)
Theorem writable_roots_grant_no_more p cwd w path :
  wf_policy p → is_restricted p = true → effective p cwd → normal path →
  w ∈ get_writable_roots_with_cwd p cwd → is_path_writable w path = true →
  resolve_access_with_cwd p path cwd = Write
  ∧ ∀ n, n ∈ PROTECTED_METADATA_PATH_NAMES → root w ++ [Normal n] `prefix_of` path →
         can_write_path_with_cwd p (root w ++ [Normal n]) cwd = true.
Proof.
  intros Hp Hr He Hn Hw Hwrite. unfold get_writable_roots_with_cwd in Hw.
  destruct (has_full_disk_write_access p); [by apply elem_of_nil in Hw|].
  apply list_elem_of_fmap in Hw as (wr & -> & (q & Hq & ->)%elem_of_dedup).
  apply elem_of_writable_entry_paths in Hq as (r0 & Hin & <- & Ha & Hcw).
  rewrite (He r0 Hin) in *. unfold is_path_writable in Hwrite.
  change (root (writable_root_of p cwd (resolved_path r0))) with (resolved_path r0) in *.
  destruct (path_starts_with path (resolved_path r0)) eqn:Hpre; [|done]. simpl in Hwrite.
  destruct (existsb _ _) eqn:Hro; [done|]. apply negb_true_iff in Hwrite.
  apply path_starts_with_true in Hpre. split.
  { eapply granted_access; [done..|]. intros s Hs _ Hsp%path_starts_with_true.
    by rewrite (existsb_false_elem _ _ _ Hro Hs) in Hsp. }
  intros n Hnp Hpn. by eapply granted_metadata.
Qed.

(** ** Denied reads *)

Lemma build_matchers_fail_closed `{Globs} patterns matchers invalid :
  ∃ res, build_matchers patterns FailClosed matchers invalid = Ok res.
Proof.
  revert matchers invalid. induction patterns as [|pat patterns IH]; intros matchers invalid; simpl.
  - by eexists.
  - destruct (build_glob_matcher pat); apply IH.
Qed.

(** The matcher of denied reads can always be built for reading,
    and where a denial other than one of the whole disk decides about a path,
    and its own path goes through no symbolic link, the matcher denies the read. *)
Theorem denied_reads_are_matched `{Globs} p cwd cwd_abs path target r :
  wf_policy p → is_restricted p = true → from_absolute_path cwd = Some cwd_abs →
  from_absolute_path path = Some target →
  decides (resolved_entries_with_cwd p cwd) target r → resolved_access r = Deny →
  resolved_path r ≠ [RootDir] → normalize_effective_absolute_path (resolved_path r) = resolved_path r →
  ∃ m, new p cwd = Ok (Some m) ∧ is_read_denied m path = true.
Proof.
  intros Hp Hr Hc Ht Hd Ha Hroot Heff. pose proof Hd as [[Hin Hpre] _].
  assert (has_denied_read_restrictions p = true) as Hdeny.
  { unfold has_denied_read_restrictions. rewrite Hr. simpl. apply existsb_elem.
    apply elem_of_resolved in Hin as (e & He & _ & Hea). exists e. split; [done|].
    apply bool_decide_eq_true. congruence. }
  unfold new, build. rewrite Hdeny. simpl.
  destruct (build_matchers_fail_closed (get_unreadable_globs_with_cwd p cwd) [] false) as [[ms inv] ->].
  eexists. split; [reflexivity|]. unfold is_read_denied. simpl. destruct inv; [done|].
  pose proof (resolved_normal p cwd r Hp Hin) as Hn.
  assert (resolved_path r ∈ get_unreadable_roots_with_cwd p cwd) as Hun.
  { unfold get_unreadable_roots_with_cwd. rewrite Hr. simpl. apply elem_of_dedup.
    exists (resolved_path r). split; [|done]. apply list_elem_of_fmap. exists r. split; [done|].
    apply list_elem_of_filter. split_and!; [done| | |done].
    - unfold can_read_path_with_cwd.
      destruct (deciding_of_decides _ _ _ Hd) as (r' & Hdr & Hpr & Har).
      rewrite <- Hpr, (access_of_deciding p cwd target r' Hr) by (by rewrite ?Hpr). by rewrite Har, Ha.
    - rewrite Hc. simpl. rewrite absolute_root_normal by (by eapply from_absolute_path_normal). congruence. }
  match goal with |- (if ?b then _ else _) = _ => assert (b = true) as ->; [|done] end.
  apply existsb_elem. exists (normalized_and_canonical_candidates (resolved_path r)).
  split; [by apply list_elem_of_fmap_2|].
  assert (∀ q t, from_absolute_path q = Some t → t ∈ normalized_and_canonical_candidates q) as Hcand.
  { intros q t Hq. unfold normalized_and_canonical_candidates. rewrite Hq. simpl.
    case_match; [apply elem_of_push_absent; left|]; by constructor. }
  apply existsb_elem. exists target. split; [by apply Hcand|].
  apply existsb_elem. exists (resolved_path r). split; [by apply Hcand, from_absolute_path_id|].
  apply orb_true_iff. right. by apply path_starts_with_true.
Qed.
End spec.

(** * Instances *)

#[local] Existing Instances Demo.host Demo.laws.

(** Patterns whose matcher looks for a component, and brackets that do not close are rejected. *)
Module Globs_demo.
#[export] Instance globs : Globs := {
  build_glob_matcher pattern :=
    if contains pattern (lit "[") then Err (lit "unclosed")
    else Ok (λ path, existsb (λ c, bool_decide (component_text c = lit ".env")) path)
}.
End Globs_demo.
#[local] Existing Instance Globs_demo.globs.

Lemma workspace_wf : wf_policy Demo.workspace.
Proof.
  repeat constructor. apply (bool_decide_unpack (normal (Demo.file "/repo/private"))). vm_compute. done.
Defined.

Lemma writable_roots_grant_no_more_witness :
  resolve_access_with_cwd Demo.workspace (Demo.file "/repo/src/main.rs") Demo.cwd = Write.
Proof.
  apply (writable_roots_grant_no_more Demo.workspace Demo.cwd
           (writable_root_of Demo.workspace Demo.cwd (Demo.file "/repo")) (Demo.file "/repo/src/main.rs")).
  - apply workspace_wf.
  - done.
  - intros r Hr. vm_compute in Hr.
    repeat (apply elem_of_cons in Hr as [->|Hr]; [vm_compute; reflexivity|]). by apply elem_of_nil in Hr.
  - apply (bool_decide_unpack _). vm_compute. done.
  - vm_compute. constructor.
  - vm_compute. reflexivity.
Defined.

Lemma denied_reads_are_matched_witness :
  ∃ m, new Demo.workspace Demo.cwd = Ok (Some m) ∧ is_read_denied m (Demo.file "/repo/private/key") = true.
Proof.
  apply (denied_reads_are_matched Demo.workspace Demo.cwd Demo.cwd (Demo.file "/repo/private/key")
           (Demo.file "/repo/private/key") (mkResolved (Demo.file "/repo/private") Deny)).
  - apply workspace_wf.
  - done.
  - done.
  - done.
  - apply deciding_decides. vm_compute. reflexivity.
  - done.
  - vm_compute. done.
  - vm_compute. reflexivity.
Defined.

(** A host on which [/var] is a link to [/private/var]. *)
Module Aliased.
Definition host : Host := {|
  home_dir := None;
  current_dir := Some (Demo.file "/repo");
  tmpdir_var := None;
  is_dir _ := true;
  is_file _ := false;
  path_exists _ := true;
  read_file _ := None;
  symlink_metadata p := Some (bool_decide (p = Demo.file "/var"));
  canonicalize p :=
    if bool_decide (p = Demo.file "/var/secret/new") then None
    else Some (match strip_path_prefix p (Demo.file "/var") with
               | Some rest => Demo.file "/private/var" ++ rest
               | None => p
               end)
|}.
End Aliased.

(** There a path below a denied directory that does not exist yet is not
    matched: the denied root is only known by its canonical path, and the path
    only by its text. *)
Example missing_path_below_alias_is_not_matched :
  let p := restricted [new_entry (Demo.special FileSystemSpecialPath.Root) Read;
                       new_entry (FileSystemPath.Path (Demo.file "/var/secret")) Deny] in
  @resolve_access_with_cwd Aliased.host p (Demo.file "/var/secret/new") Demo.cwd = Deny
  ∧ (match @new Aliased.host _ p Demo.cwd with
     | Ok (Some m) => @is_read_denied Aliased.host m (Demo.file "/var/secret/new") = false
                      ∧ @is_read_denied Aliased.host m (Demo.file "/var/secret/old") = true
     | _ => False
     end).
Proof. split; [|split]; vm_compute; reflexivity. Qed.

(** A git worktree: its pointer file and the directory it names are read-only. *)
Example worktree_metadata_is_read_only :
  default_read_only_subpaths_for_writable_root Demo.cwd false
  = Demo.file <$> ["/work/main/.git/worktrees/repo"; "/repo/.git"; "/repo/.codex"].
Proof. vm_compute. reflexivity. Qed.

Example legacy_policy_roundtrip_example :
  canonical_legacy Demo.cwd
    (SandboxPolicy.WorkspaceWrite [Demo.file "/a"; Demo.cwd; Demo.file "/a"] true false true)
  = SandboxPolicy.WorkspaceWrite [Demo.file "/a"] true false true.
Proof. vm_compute. reflexivity. Qed.
