(* ===== verification/LinuxBwrap.v ===== *)
(** Mounts of the Linux sandbox ([linux-sandbox/src/bwrap.rs]): the arguments
    with which bubblewrap builds the file system a command sees, from a policy
    of [Permissions] and the roots of [SandboxRoots]. What is asked of the host
    beyond [Paths.Host] (links, file metadata, directories, [rg]) is the class
    [LinuxHost]. *)

From stdpp Require Import pretty.
From S2P Require Import Prelude Text Paths Permissions SandboxRoots.
Open Scope rust_scope.

(** * The host *)

(** [fs::Metadata], as far as it is looked at. *)
Inductive FileType := RegularFile | Directory | Symlink | OtherFile.
Record Metadata := mkMetadata { file_type : FileType; len : N; dev : N; ino : N }.

#[export] Instance FileType_eq_dec : EqDecision FileType.
Proof. solve_decision. Defined.

Definition is_symlink (m : Metadata) : bool := bool_decide (file_type m = Symlink).

Inductive LstatError := NotFound | OtherError.

(** What [fs::read_dir] finds in a directory, links not followed: the entries, or
    the error of reading it. *)
Inductive DirTree :=
| Entry (t : FileType)
| Tree (listing : result str (list (str * DirTree))).

(** The process [rg]: it is not installed, cannot be run, or exits. *)
Inductive RgOutput := RgMissing | RgFailed (err : str) | RgExit (code : option Z) (stdout stderr : str).

Class LinuxHost `{Host} := {
  lstat : Path → result LstatError Metadata;
  dir_tree : Path → DirTree;
  run_rg : list str → RgOutput;
  open_dev_null : result str N;
  build_glob_set : list (Path → bool) → result str (Path → bool)
}.

(** What holds of a file system at one moment: what is above a path that can be
    seen can be seen; a path that exists has a canonical one, which is normal, exists
    and goes through no link; a path without links that exists is its own; and a path
    below another leads where it does below what the other leads to. *)
Class LinuxHostLaws `{LinuxHost} : Prop := {
  lstat_symlink : ∀ path,
    symlink_metadata path = match lstat path with Ok m => Some (is_symlink m) | Err _ => None end;
  lstat_prefix : ∀ path q, is_ok (lstat path) = true → q `prefix_of` path → q ≠ [] → is_ok (lstat q) = true;
  exists_lstat : ∀ path, path_exists path = true → is_ok (lstat path) = true;
  exists_prefix : ∀ path q, path_exists path = true → q `prefix_of` path → q ≠ [] → path_exists q = true;
  canonical_path : ∀ path t, canonicalize path = Some t →
    normal t ∧ path_exists path = true ∧ path_exists t = true
    ∧ ∀ q m, q `prefix_of` t → lstat q = Ok m → is_symlink m = false;
  exists_canonical : ∀ path, path_exists path = true → is_Some (canonicalize path);
  canonicalize_plain : ∀ path, normal path → path_exists path = true →
    (∀ q m, q `prefix_of` path → lstat q = Ok m → is_symlink m = false) → canonicalize path = Some path;
  canonicalize_below : ∀ path t rest, canonicalize path = Some t → Forall is_name rest →
    canonicalize (path ++ rest) = canonicalize (t ++ rest)
}.

(** * Data *)

(** [LINUX_PLATFORM_DEFAULT_READ_ROOTS] and [MAX_UNREADABLE_GLOB_MATCHES] *)
Definition LINUX_PLATFORM_DEFAULT_READ_ROOTS : list str :=
  [lit "/bin"; lit "/sbin"; lit "/usr"; lit "/etc"; lit "/lib"; lit "/lib64"; lit "/nix/store";
   lit "/run/current-system/sw"].
Definition MAX_UNREADABLE_GLOB_MATCHES : nat := 8192.

(** [BwrapNetworkMode], [BwrapOptions] and their methods *)
Inductive BwrapNetworkMode := FullAccess | Isolated | ProxyOnly.
Definition should_unshare_network (m : BwrapNetworkMode) : bool :=
  match m with FullAccess => false | _ => true end.

Record BwrapOptions := mkOptions {
  mount_proc : bool;
  network_mode : BwrapNetworkMode;
  max_depth_option : option N
}.
Definition default_options : BwrapOptions := mkOptions true FullAccess None.

(** [FileIdentity], [SyntheticMountTarget], [ProtectedCreateTarget] *)
Record FileIdentity := mkIdentity { identity_dev : N; identity_ino : N }.

#[export] Instance FileIdentity_eq_dec : EqDecision FileIdentity.
Proof. solve_decision. Defined.

Definition from_metadata (m : Metadata) : FileIdentity := mkIdentity (dev m) (ino m).

Inductive SyntheticMountTargetKind := EmptyFile | EmptyDirectory.
Record SyntheticMountTarget := mkSynthetic {
  synthetic_path : Path;
  synthetic_kind : SyntheticMountTargetKind;
  pre_existing_path : option FileIdentity
}.
Definition missing (path : Path) : SyntheticMountTarget := mkSynthetic path EmptyFile None.
Definition missing_empty_directory (path : Path) : SyntheticMountTarget := mkSynthetic path EmptyDirectory None.
Definition existing_empty_file (path : Path) (m : Metadata) : SyntheticMountTarget :=
  mkSynthetic path EmptyFile (Some (from_metadata m)).
Definition existing_empty_directory (path : Path) (m : Metadata) : SyntheticMountTarget :=
  mkSynthetic path EmptyDirectory (Some (from_metadata m)).

(** [SyntheticMountTarget::should_remove_after_bwrap] *)
Definition should_remove_after_bwrap (t : SyntheticMountTarget) (m : Metadata) : bool :=
  let as_left :=
    match synthetic_kind t with
    | EmptyFile => bool_decide (file_type m = RegularFile) && bool_decide (len m = 0%N)
    | EmptyDirectory => bool_decide (file_type m = Directory)
    end in
  if negb as_left then false
  else match pre_existing_path t with
       | Some identity => negb (bool_decide (identity = from_metadata m))
       | None => true
       end.

(** [BwrapArgs]; a file that is kept open is its descriptor. *)
Record BwrapArgs := mkArgs {
  args : list str;
  preserved_files : list N;
  synthetic_mount_targets : list SyntheticMountTarget;
  protected_create_targets : list Path
}.
Definition push_args (xs : list str) (b : BwrapArgs) : BwrapArgs :=
  mkArgs (args b ++ xs) (preserved_files b) (synthetic_mount_targets b) (protected_create_targets b).
Definition push_file (fd : N) (b : BwrapArgs) : BwrapArgs :=
  mkArgs (args b) (preserved_files b ++ [fd]) (synthetic_mount_targets b) (protected_create_targets b).
Definition push_synthetic (t : SyntheticMountTarget) (b : BwrapArgs) : BwrapArgs :=
  mkArgs (args b) (preserved_files b) (synthetic_mount_targets b ++ [t]) (protected_create_targets b).
Definition push_create_target (path : Path) (b : BwrapArgs) : BwrapArgs :=
  mkArgs (args b) (preserved_files b) (synthetic_mount_targets b) (protected_create_targets b ++ [path]).

(** [CodexErr], as far as it occurs here. *)
Inductive CodexErr := Fatal (message : str) | Io (err : str).

(** * Paths *)

Definition path_to_string (path : Path) : str := path_text path.
Definition path_depth (path : Path) : nat := length path.
Definition by_depth (a b : Path) : bool := bool_decide (path_depth a ≤ path_depth b).

(** [Path::file_name] *)
Definition file_name (path : Path) : option str :=
  match last path with Some (Normal name) => Some name | _ => None end.

(** [AbsolutePathBuf::from_absolute_path_checked] *)
Definition from_absolute_path_checked `{Host} (path : Path) : result CodexErr AbsolutePathBuf :=
  let expanded := maybe_expand_home_directory path in
  if is_absolute expanded then Ok (absolutize_from expanded [RootDir])
  else Err (Io (lit "path is not absolute: " ++ path_to_string path)).

(** The walk along the components of a path that three functions share: [visit]
    sees each path that ends in a name, and may end the walk with a result. *)
Fixpoint walk {A} (visit : Path → option (option A)) (current : Path) (components : Path) : option A :=
  match components with
  | [] => None
  | c :: components =>
      let current := push_component current c in
      match c with
      | Normal _ =>
          match visit current with
          | Some result => result
          | None => walk visit current components
          end
      | _ => walk visit current components
      end
  end.

Section bwrap.
Context `{LinuxHost, Globs}.

(** [canonical_target_if_symlinked_path] *)
Definition canonical_target_if_symlinked_path (path : Path) : option Path :=
  walk (λ current,
    match lstat current with
    | Err _ => Some None
    | Ok metadata =>
        if is_symlink metadata
        then Some (target ← canonicalize path; if bool_decide (target = path) then None else Some target)
        else None
    end) [] path.

(** [is_within_allowed_write_paths] *)
Definition is_within_allowed_write_paths (path : Path) (allowed_write_paths : list Path) : bool :=
  existsb (path_starts_with path) allowed_write_paths.

(** [first_writable_symlink_component_in_path] *)
Definition first_writable_symlink_component_in_path (target_path : Path) (allowed_write_paths : list Path) :
    option Path :=
  walk (λ current,
    match lstat current with
    | Err _ => Some None
    | Ok metadata =>
        if is_symlink metadata && is_within_allowed_write_paths current allowed_write_paths
        then Some (Some current) else None
    end) [] target_path.

(** [find_first_non_existent_component] *)
Definition find_first_non_existent_component (target_path : Path) : option Path :=
  walk (λ current, if path_exists current then None else Some (Some current)) [] target_path.

(** [remap_paths_for_symlink_target] and [normalize_command_cwd_for_bwrap] *)
Definition remap_paths_for_symlink_target (paths : list Path) (root target : Path) : list Path :=
  (λ path, match strip_path_prefix path root with
           | Some relative => path_join target relative
           | None => path
           end) <$> paths.
Definition normalize_command_cwd_for_bwrap (command_cwd : Path) : Path :=
  default command_cwd (canonicalize command_cwd).

(** * Unreadable globs *)

(** [escape_unclosed_glob_classes]: [class] is what was read since an opener; the
    rest of a class that is not closed is copied as it is. *)
Fixpoint escape_from (class : option str) (glob : str) : str :=
  match class, glob with
  | None, [] => []
  | None, ch :: chars =>
      if bool_decide (ch = 91%N) then escape_from (Some []) chars else ch :: escape_from None chars
  | Some class, [] => lit "\[" ++ class
  | Some class, ch :: chars =>
      if bool_decide (ch = 93%N) then 91%N :: class ++ 93%N :: escape_from None chars
      else escape_from (Some (class ++ [ch])) chars
  end.
Definition escape_unclosed_glob_classes (glob : str) : str := escape_from None glob.

(** [split_pattern_for_ripgrep] *)
Definition is_glob_metacharacter (ch : N) : Prop :=
  ch = 42%N ∨ ch = 63%N ∨ ch = 91%N ∨ ch = 93%N.
#[local] Instance is_glob_metacharacter_dec ch : Decision (is_glob_metacharacter ch).
Proof. unfold is_glob_metacharacter. apply _. Defined.

Definition split_pattern_for_ripgrep (pattern : str) (cwd : Path) : option (AbsolutePathBuf * str) :=
  let pattern := path_to_string (resolve_path_against_base (path_new pattern) cwd) in
  '(first_glob_index, _) ← list_find is_glob_metacharacter pattern;
  let static_prefix := take first_glob_index pattern in
  if is_nil static_prefix || bool_decide (static_prefix = lit "/") then None
  else
    let search_root_end :=
      if ends_with static_prefix (lit "/") then length static_prefix - 1
      else match rsplit_once slash static_prefix with Some (before, _) => length before | None => 0 end in
    let search_root :=
      if bool_decide (search_root_end = 0) then path_new (lit "/")
      else path_new (take search_root_end pattern) in
    match from_absolute_path_checked search_root with
    | Err _ => None
    | Ok search_root =>
        let glob := escape_unclosed_glob_classes (drop (search_root_end + 1) pattern) in
        if is_nil glob then None else Some (search_root, glob)
    end.

(** [collect_glob_files]: regular files and links, in the order they are listed. *)
Fixpoint collect_glob_files (search_root : Path) (dir : Path) (tree : DirTree) (glob_set : Path → bool)
    (remaining_depth : option N) (paths : list AbsolutePathBuf) : result CodexErr (list AbsolutePathBuf) :=
  match tree with
  | Entry _ => Err (Io (lit "not a directory"))
  | Tree (Err err) => Err (Io err)
  | Tree (Ok listing) =>
      (fix collect (listing : list (str * DirTree)) paths :=
         match listing with
         | [] => Ok paths
         | (name, entry) :: listing =>
             let path := path_join dir [Normal name] in
             let relative := default path (strip_path_prefix path search_root) in
             let? paths :=
               match entry with
               | Entry (RegularFile | Symlink) =>
                   if glob_set relative
                   then let? path := from_absolute_path_checked path in Ok (paths ++ [path])
                   else Ok paths
               | _ => Ok paths
               end in
             let? paths :=
               match entry, remaining_depth with
               | Entry _, _ => Ok paths
               | Tree _, Some (0%N | 1%N) => Ok paths
               | Tree _, _ =>
                   collect_glob_files search_root path entry glob_set ((λ d, d - 1)%N <$> remaining_depth) paths
               end in
             collect listing paths
         end) listing paths
  end.

(** [glob_files] *)
Definition glob_files (search_root : Path) (globs : list str) (max_depth : option N) :
    result CodexErr (list AbsolutePathBuf) :=
  let? matchers := try_map (λ glob,
    result_map_err (λ err, Fatal (lit "unreadable glob pattern is invalid for " ++ path_to_string search_root
                                  ++ lit ": " ++ err)) (build_glob_matcher glob)) globs in
  let? glob_set :=
    result_map_err (λ err, Fatal (lit "unreadable glob matcher failed for " ++ path_to_string search_root
                                  ++ lit ": " ++ err)) (build_glob_set matchers) in
  collect_glob_files search_root search_root (dir_tree search_root) glob_set max_depth [].

(** [ripgrep_files] *)
Definition rg_args (search_root : Path) (globs : list str) (max_depth : option N) : list str :=
  [lit "--files"; lit "--hidden"; lit "--no-ignore"; lit "--null"]
  ++ match max_depth with Some depth => [lit "--max-depth"; lit (pretty depth)] | None => [] end
  ++ (globs ≫= λ glob, [lit "--glob"; glob])
  ++ [lit "--"; path_to_string search_root].
Definition ripgrep_files (search_root : Path) (globs : list str) (max_depth : option N) :
    result CodexErr (list AbsolutePathBuf) :=
  match run_rg (rg_args search_root globs max_depth) with
  | RgMissing => glob_files search_root globs max_depth
  | RgFailed err => Err (Io err)
  | RgExit code stdout stderr =>
      if negb (bool_decide (code = Some 0%Z)) then
        if bool_decide (code = Some 1%Z) && is_nil stderr then Ok []
        else Err (Fatal (lit "ripgrep unreadable glob scan failed for " ++ path_to_string search_root
                         ++ lit ": " ++ stderr))
      else
        try_map from_absolute_path_checked
          ((λ text, let path := path_new text in
                    if is_absolute path then path else path_join search_root path)
           <$> filter (λ text, text ≠ []) (split_on 0 stdout))
  end.

(** [BTreeSet::insert] and [BTreeMap::entry(k).or_default().push(v)], by the order of paths *)
Fixpoint set_insert (path : Path) (l : list Path) : list Path :=
  match l with
  | [] => [path]
  | q :: l' => if decide (path = q) then l
               else if path_leb path q then path :: l else q :: set_insert path l'
  end.
Fixpoint push_glob (root : Path) (glob : str) (m : list (Path * list str)) : list (Path * list str) :=
  match m with
  | [] => [(root, [glob])]
  | (q, globs) :: m' =>
      if decide (root = q) then (q, globs ++ [glob]) :: m'
      else if path_leb root q then (root, [glob]) :: m else (q, globs) :: push_glob root glob m'
  end.

(** [expand_unreadable_globs_with_ripgrep] *)
Definition patterns_by_search_root (patterns : list str) (cwd : Path) : list (Path * list str) :=
  foldl (λ m pattern,
    match split_pattern_for_ripgrep pattern cwd with
    | Some (search_root, glob) => if is_dir search_root then push_glob search_root glob m else m
    | None => m
    end) [] patterns.
Definition add_match (search_root : Path) (expanded_paths : list Path) (path : Path) :
    result CodexErr (list Path) :=
  let? expanded_paths :=
    match canonical_target_if_symlinked_path path with
    | Some target => let? target := from_absolute_path_checked target in Ok (set_insert target expanded_paths)
    | None => Ok expanded_paths
    end in
  let expanded_paths := set_insert path expanded_paths in
  if bool_decide (MAX_UNREADABLE_GLOB_MATCHES < length expanded_paths)
  then Err (Fatal (lit "unreadable glob expansion for " ++ path_to_string search_root ++ lit " matched more than "
                   ++ lit (pretty MAX_UNREADABLE_GLOB_MATCHES) ++ lit " paths"))
  else Ok expanded_paths.
Definition expand_unreadable_globs_with_ripgrep (patterns : list str) (cwd : Path) (max_depth : option N) :
    result CodexErr (list AbsolutePathBuf) :=
  if is_nil patterns || bool_decide (max_depth = Some 0%N) then Ok []
  else
    try_foldl (λ expanded_paths '(search_root, globs),
      let? paths := ripgrep_files search_root globs max_depth in
      try_foldl (add_match search_root) expanded_paths paths) [] (patterns_by_search_root patterns cwd).

(** * Arguments for one path *)

(** [append_mount_target_parent_dir_args] *)
Fixpoint take_until (anchor : Path) (paths : list Path) : list Path :=
  match paths with
  | [] => []
  | path :: paths => if decide (path = anchor) then [] else path :: take_until anchor paths
  end.
Definition mount_target_parent_dir_args (mount_target anchor : Path) : list str :=
  match (if is_dir mount_target then Some mount_target else parent mount_target) with
  | None => []
  | Some mount_target_dir =>
      reverse (take_until anchor (ancestors mount_target_dir)) ≫= λ dir, [lit "--dir"; path_to_string dir]
  end.
Definition append_mount_target_parent_dir_args (b : BwrapArgs) (mount_target anchor : Path) : BwrapArgs :=
  push_args (mount_target_parent_dir_args mount_target anchor) b.

(** [append_empty_file_bind_data_args] and [append_empty_directory_args] *)
Definition append_empty_file_bind_data_args (b : BwrapArgs) (path : Path) : result CodexErr BwrapArgs :=
  let? b := if is_nil (preserved_files b)
            then match open_dev_null with Ok fd => Ok (push_file fd b) | Err err => Err (Io err) end
            else Ok b in
  let null_fd := lit (pretty (default 0%N (head (preserved_files b)))) in
  Ok (push_args [lit "--ro-bind-data"; null_fd; path_to_string path] b).
Definition append_empty_directory_args (b : BwrapArgs) (path : Path) : BwrapArgs :=
  push_args [lit "--perms"; lit "555"; lit "--tmpfs"; path_to_string path; lit "--remount-ro"; path_to_string path] b.

(** [append_missing_empty_file_bind_data_args], [append_missing_read_only_subpath_args]
    and the two functions for metadata that exists and is empty *)
Definition append_missing_empty_file_bind_data_args (b : BwrapArgs) (path : Path) : result CodexErr BwrapArgs :=
  let? b := append_empty_file_bind_data_args b path in
  Ok (push_synthetic (missing path) b).
Definition is_metadata_path (path : Path) : bool := is_some_and is_protected_metadata_name (file_name path).
Definition append_missing_read_only_subpath_args (b : BwrapArgs) (path : Path) : result CodexErr BwrapArgs :=
  if is_metadata_path path
  then Ok (push_synthetic (missing_empty_directory path) (append_empty_directory_args b path))
  else append_missing_empty_file_bind_data_args b path.
Definition append_existing_empty_file_bind_data_args (b : BwrapArgs) (path : Path) (m : Metadata) :
    result CodexErr BwrapArgs :=
  let? b := append_empty_file_bind_data_args b path in
  Ok (push_synthetic (existing_empty_file path m) b).
Definition append_existing_empty_directory_args (b : BwrapArgs) (path : Path) (m : Metadata) : BwrapArgs :=
  push_synthetic (existing_empty_directory path m) (append_empty_directory_args b path).

(** [transient_empty_metadata_path] *)
Inductive EmptyProtectedMetadataPath := EmptyMetadataFile (m : Metadata) | EmptyMetadataDirectory (m : Metadata).
Definition directory_is_empty (path : Path) : bool :=
  match dir_tree path with Tree (Ok listing) => is_nil listing | _ => false end.
Definition transient_empty_metadata_path (path : Path) : option EmptyProtectedMetadataPath :=
  if negb (is_metadata_path path) then None
  else match lstat path with
       | Err _ => None
       | Ok m =>
           if bool_decide (file_type m = RegularFile) && bool_decide (len m = 0%N)
           then Some (EmptyMetadataFile m)
           else if bool_decide (file_type m = Directory) && directory_is_empty path
           then Some (EmptyMetadataDirectory m)
           else None
       end.

(** [append_read_only_subpath_args] *)
Definition msg_crosses (what : str) (path symlink : Path) : str :=
  lit "cannot enforce sandbox " ++ what ++ lit " path " ++ path_to_string path
  ++ lit " because it crosses writable symlink " ++ path_to_string symlink.
Definition append_read_only_subpath_args (b : BwrapArgs) (subpath : Path) (allowed_write_paths : list Path) :
    result CodexErr BwrapArgs :=
  match first_writable_symlink_component_in_path subpath allowed_write_paths with
  | Some symlink => Err (Fatal (msg_crosses (lit "read-only") subpath symlink))
  | None =>
      match transient_empty_metadata_path subpath, is_within_allowed_write_paths subpath allowed_write_paths with
      | Some (EmptyMetadataFile m), true => append_existing_empty_file_bind_data_args b subpath m
      | Some (EmptyMetadataDirectory m), true => Ok (append_existing_empty_directory_args b subpath m)
      | _, within =>
          if negb (path_exists subpath) then
            match find_first_non_existent_component subpath with
            | Some first_missing_component =>
                if is_within_allowed_write_paths first_missing_component allowed_write_paths
                then append_missing_read_only_subpath_args b first_missing_component
                else Ok b
            | None => Ok b
            end
          else if within
          then Ok (push_args [lit "--ro-bind"; path_to_string subpath; path_to_string subpath] b)
          else Ok b
      end
  end.

(** [append_existing_unreadable_path_args] *)
Definition append_existing_unreadable_path_args (b : BwrapArgs) (unreadable_root : Path)
    (allowed_write_paths : list Path) : result CodexErr BwrapArgs :=
  if is_dir unreadable_root then
    let writable_descendants :=
      filter (λ path, path ≠ unreadable_root ∧ path_starts_with path unreadable_root = true) allowed_write_paths in
    let b := push_args [lit "--perms"; if is_nil writable_descendants then lit "000" else lit "111";
                        lit "--tmpfs"; path_to_string unreadable_root] b in
    let b := foldl (λ b writable_descendant,
               append_mount_target_parent_dir_args b writable_descendant unreadable_root)
               b (sort_by by_depth writable_descendants) in
    Ok (push_args [lit "--remount-ro"; path_to_string unreadable_root] b)
  else append_empty_file_bind_data_args (push_args [lit "--perms"; lit "000"] b) unreadable_root.

(** [append_unreadable_root_args] *)
Definition append_unreadable_root_args (b : BwrapArgs) (unreadable_root : Path) (allowed_write_paths : list Path) :
    result CodexErr BwrapArgs :=
  match first_writable_symlink_component_in_path unreadable_root allowed_write_paths with
  | Some symlink => Err (Fatal (msg_crosses (lit "deny-read") unreadable_root symlink))
  | None =>
      if negb (path_exists unreadable_root) then
        match find_first_non_existent_component unreadable_root with
        | Some first_missing_component =>
            if is_within_allowed_write_paths first_missing_component allowed_write_paths
            then append_missing_empty_file_bind_data_args b first_missing_component
            else Ok b
        | None => Ok b
        end
      else append_existing_unreadable_path_args b unreadable_root allowed_write_paths
  end.

(** * Metadata of a writable root *)

(** [ancestor_has_git_metadata] and [should_leave_missing_git_for_parent_repo_discovery] *)
Definition ancestor_has_git_metadata (ancestor : Path) : bool :=
  let git_path := path_join ancestor (path_new (lit ".git")) in
  match lstat git_path with
  | Err _ => false
  | Ok m =>
      if bool_decide (file_type m = Directory) then is_ok (lstat (path_join git_path (path_new (lit "HEAD"))))
      else if bool_decide (file_type m = RegularFile) then
        match read_file git_path with
        | Some contents => starts_with (trim_start contents) (lit "gitdir:")
        | None => false
        end
      else false
  end.
Definition should_leave_missing_git_for_parent_repo_discovery (mount_root : Path) (name : str) : bool :=
  bool_decide (name = lit ".git")
  && match lstat (path_join mount_root (path_new name)) with Err NotFound => true | _ => false end
  && existsb ancestor_has_git_metadata (drop 1 (ancestors mount_root)).

(** [append_metadata_path_masks_for_writable_root] *)
Definition append_metadata_path_masks_for_writable_root (read_only_subpaths : list Path) (root mount_root : Path)
    (protected_metadata_names : list str) : list Path :=
  foldl (λ read_only_subpaths name,
    if should_leave_missing_git_for_parent_repo_discovery mount_root name then read_only_subpaths
    else push_absent read_only_subpaths (path_join root (path_new name)))
    read_only_subpaths protected_metadata_names.

(** [append_protected_create_targets_for_writable_root] *)
Definition append_protected_create_targets_for_writable_root (b : BwrapArgs) (protected_metadata_names : list str)
    (root : Path) (symlink_target : option Path) (read_only_subpaths : list Path) : BwrapArgs :=
  foldl (λ b name,
    let path := path_join root (path_new name) in
    let path :=
      match symlink_target, strip_path_prefix path root with
      | Some target, Some relative_path => path_join target relative_path
      | _, _ => path
      end in
    if bool_decide (path ∈ read_only_subpaths) || path_exists path then b else push_create_target path b)
    b protected_metadata_names.

(** * All mounts *)

(** [Vec::dedup] *)
Fixpoint dedup_paths (l : list Path) : list Path :=
  match l with
  | x :: (y :: _) as l' => if decide (x = y) then dedup_paths l' else x :: dedup_paths l'
  | l => l
  end.

(** The steps of [create_filesystem_args]: the writable roots that exist, *)
Definition existing_writable_roots (p : FileSystemSandboxPolicy) (cwd : Path) : result CodexErr (list WritableRoot) :=
  let writable_roots := filter (λ w, path_exists (root w) = true) (get_writable_roots_with_cwd p cwd) in
  if is_nil writable_roots && has_full_disk_write_access p && negb (is_nil (get_unreadable_globs_with_cwd p cwd))
  then match from_absolute_path (path_new (lit "/")) with
       | Some path => Ok [mkWritableRoot path [] []]
       | None => Err (Io (lit "current directory"))
       end
  else Ok writable_roots.

(** the metadata that is missing in the project roots, *)
Definition missing_metadata_subpath (cwd : Path) (e : FileSystemSandboxEntry) : option Path :=
  if negb (bool_decide (entry_access e = Read)) then None
  else match entry_path e with
       | FileSystemPath.Special (FileSystemSpecialPath.ProjectRoots (Some subpath)) =>
           if negb (existsb (λ name, bool_decide (path_new subpath = path_new name))
                      [lit ".git"; lit ".agents"; lit ".codex"]) then None
           else let resolved := resolve_path_against_base (path_new subpath) cwd in
                if path_exists resolved then None else Some resolved
       | _ => None
       end.
Definition missing_auto_metadata_read_only_project_root_subpaths (p : FileSystemSandboxPolicy) (cwd : Path) :
    list Path := omap (missing_metadata_subpath cwd) (entries p).

(** the paths to hide, *)
Definition unreadable_roots_to_mask (p : FileSystemSandboxPolicy) (cwd : Path) (glob_scan_max_depth : option N) :
    result CodexErr (list Path) :=
  let? expanded := expand_unreadable_globs_with_ripgrep (get_unreadable_globs_with_cwd p cwd) cwd glob_scan_max_depth in
  Ok (dedup_paths (sort_by path_leb (get_unreadable_roots_with_cwd p cwd ++ expanded))).

(** the mounts everything else is put on, *)
Definition root_args (kind : str) : list str := [kind; lit "/"; lit "/"; lit "--dev"; lit "/dev"].
Definition readable_mount_root (writable_roots : list WritableRoot) (path : Path) : Path :=
  if existsb (λ w, path_starts_with path (root w)) writable_roots
  then default path (canonical_target_if_symlinked_path path)
  else path.
Definition platform_default_read_roots (p : FileSystemSandboxPolicy) : list Path :=
  if include_platform_defaults p
  then filter (λ path, path_exists path = true) (path_new <$> LINUX_PLATFORM_DEFAULT_READ_ROOTS)
  else [].
Definition base_args (p : FileSystemSandboxPolicy) (cwd : Path) (writable_roots : list WritableRoot) : list str :=
  if has_full_disk_read_access p then root_args (lit "--ro-bind")
  else
    let readable_roots :=
      foldl (λ s path, set_insert path s) []
        (get_readable_roots_with_cwd p cwd ++ platform_default_read_roots p) in
    if existsb (λ path, bool_decide (path = path_new (lit "/"))) readable_roots then root_args (lit "--ro-bind")
    else
      [lit "--tmpfs"; lit "/"; lit "--dev"; lit "/dev"]
      ++ (filter (λ path, path_exists path = true) readable_roots ≫= λ path,
            let mount_root := readable_mount_root writable_roots path in
            [lit "--ro-bind"; path_to_string mount_root; path_to_string mount_root]).

(** what can be written, links resolved as well, *)
Definition allowed_write_paths_of (writable_roots : list WritableRoot) : list Path :=
  writable_roots ≫= λ w, root w :: option_list (canonical_target_if_symlinked_path (root w)).

(** the hidden paths above writable roots, and those apart from them, *)
Definition is_above (allowed_write_paths : list Path) (unreadable_root : Path) : bool :=
  existsb (λ path, path_starts_with path unreadable_root) allowed_write_paths.
Definition unreadable_ancestors (unreadable_roots allowed_write_paths : list Path) : list Path :=
  sort_by by_depth (filter (λ path, is_within_allowed_write_paths path allowed_write_paths = false
                                    ∧ is_above allowed_write_paths path = true) unreadable_roots).
Definition rootless_unreadable_roots (unreadable_roots allowed_write_paths : list Path) : list Path :=
  sort_by by_depth (filter (λ path, is_within_allowed_write_paths path allowed_write_paths = false
                                    ∧ is_above allowed_write_paths path = false) unreadable_roots).

(** and the mounts of one writable root. *)
Definition read_only_subpaths_to_mount (unreadable_roots missing_metadata : list Path) (w : WritableRoot) :
    list Path :=
  let symlink_target := canonical_target_if_symlinked_path (root w) in
  let read_only_subpaths :=
    append_metadata_path_masks_for_writable_root
      (filter (λ path, path ∉ unreadable_roots ∧ path ∉ missing_metadata) (read_only_subpaths w))
      (root w) (default (root w) symlink_target) (protected_metadata_names w) in
  match symlink_target with
  | Some target => remap_paths_for_symlink_target read_only_subpaths (root w) target
  | None => read_only_subpaths
  end.
Definition nested_unreadable_roots (unreadable_roots : list Path) (w : WritableRoot) : list Path :=
  let nested := filter (λ path, path_starts_with path (root w) = true) unreadable_roots in
  match canonical_target_if_symlinked_path (root w) with
  | Some target => remap_paths_for_symlink_target nested (root w) target
  | None => nested
  end.
Definition append_writable_root (unreadable_roots missing_metadata allowed_write_paths : list Path) (b : BwrapArgs)
    (w : WritableRoot) : result CodexErr BwrapArgs :=
  let symlink_target := canonical_target_if_symlinked_path (root w) in
  let masking_root :=
    max_by (λ x y, bool_decide (path_depth y < path_depth x))
      (filter (λ unreadable_root, path_starts_with (root w) unreadable_root = true) unreadable_roots) in
  let b := match masking_root with
           | Some masking_root => append_mount_target_parent_dir_args b (root w) masking_root
           | None => b
           end in
  let mount_root := default (root w) symlink_target in
  let b := push_args [lit "--bind"; path_to_string mount_root; path_to_string mount_root] b in
  let read_only_subpaths := read_only_subpaths_to_mount unreadable_roots missing_metadata w in
  let b := append_protected_create_targets_for_writable_root b (protected_metadata_names w) (root w)
             symlink_target read_only_subpaths in
  let? b := try_foldl (λ b subpath, append_read_only_subpath_args b subpath allowed_write_paths) b
              (sort_by by_depth read_only_subpaths) in
  try_foldl (λ b path, append_unreadable_root_args b path allowed_write_paths) b
    (sort_by by_depth (nested_unreadable_roots unreadable_roots w)).

(** [create_filesystem_args] *)
Definition create_filesystem_args (p : FileSystemSandboxPolicy) (cwd : Path) (glob_scan_max_depth : option N) :
    result CodexErr BwrapArgs :=
  let? writable_roots := existing_writable_roots p cwd in
  let missing_metadata := missing_auto_metadata_read_only_project_root_subpaths p cwd in
  let? unreadable_roots := unreadable_roots_to_mask p cwd glob_scan_max_depth in
  let b := mkArgs (base_args p cwd writable_roots) [] [] [] in
  let allowed_write_paths := allowed_write_paths_of writable_roots in
  let mask b path := append_unreadable_root_args b path allowed_write_paths in
  let? b := try_foldl mask b (unreadable_ancestors unreadable_roots allowed_write_paths) in
  let? b := try_foldl (append_writable_root unreadable_roots missing_metadata allowed_write_paths) b
              (sort_by (λ v w, by_depth (root v) (root w)) writable_roots) in
  try_foldl mask b (rootless_unreadable_roots unreadable_roots allowed_write_paths).

(** * The command line *)

(** [create_bwrap_flags_full_filesystem] *)
Definition namespace_args (options : BwrapOptions) : list str :=
  [lit "--unshare-user"; lit "--unshare-pid"]
  ++ (if should_unshare_network (network_mode options) then [lit "--unshare-net"] else [])
  ++ (if mount_proc options then [lit "--proc"; lit "/proc"] else []).
Definition create_bwrap_flags_full_filesystem (command : list str) (options : BwrapOptions) : BwrapArgs :=
  mkArgs ([lit "--new-session"; lit "--die-with-parent"; lit "--bind"; lit "/"; lit "/"]
          ++ namespace_args options ++ [lit "--"] ++ command) [] [] [].

(** [create_bwrap_flags] *)
Definition create_bwrap_flags (command : list str) (p : FileSystemSandboxPolicy) (sandbox_policy_cwd command_cwd : Path)
    (options : BwrapOptions) : result CodexErr BwrapArgs :=
  let? b := create_filesystem_args p sandbox_policy_cwd
              (match max_depth_option options with Some depth => Some depth | None => glob_scan_max_depth p end) in
  let normalized_command_cwd := normalize_command_cwd_for_bwrap command_cwd in
  Ok (mkArgs ([lit "--new-session"; lit "--die-with-parent"] ++ args b ++ namespace_args options
              ++ (if bool_decide (normalized_command_cwd = command_cwd) then []
                  else [lit "--chdir"; path_to_string normalized_command_cwd])
              ++ [lit "--"] ++ command)
        (preserved_files b) (synthetic_mount_targets b) (protected_create_targets b)).

(** [create_bwrap_command_args] *)
Definition create_bwrap_command_args (command : list str) (p : FileSystemSandboxPolicy)
    (sandbox_policy_cwd command_cwd : Path) (options : BwrapOptions) : result CodexErr BwrapArgs :=
  let unreadable_globs := get_unreadable_globs_with_cwd p sandbox_policy_cwd in
  if has_full_disk_write_access p && is_nil unreadable_globs
  then match network_mode options with
       | FullAccess => Ok (mkArgs command [] [] [])
       | _ => Ok (create_bwrap_flags_full_filesystem command options)
       end
  else create_bwrap_flags command p sandbox_policy_cwd command_cwd options.
End bwrap.
