(* ===== verification/LinuxBwrapSpec.v ===== *)
(** What the mounts of [LinuxBwrap] let a command see: paths of the host that
    can be written or read through them are ones the policy grants, whatever
    the order of the roots, also where roots are links and are mounted at the places
    they lead to; paths that are denied are masked, and no link on the way to a path
    that is protected can be replaced by the command. *)

From stdpp Require Import pretty.
From S2P Require Import Prelude Text Paths Permissions PermissionsSpec SandboxRoots SandboxRootsSpec LinuxBwrap.

(** * Arguments as mounts *)

(** What the file system arguments of bubblewrap ask for, in their order: a path
    of the host on itself, an empty directory, an empty file (from a descriptor),
    the devices; a mount that is made read-only; a directory in what is mounted. *)
Inductive Mount :=
| HostMount (writable : bool) (path : Path)
| TmpfsMount (perms : option str) (path : Path)
| DataMount (perms : option str) (fd : str) (path : Path)
| DevMount (path : Path)
| RemountRo (path : Path)
| MakeDir (path : Path).

Definition perms_args (perms : option str) : list str :=
  match perms with Some mode => [lit "--perms"; mode] | None => [] end.
Definition render (m : Mount) : list str :=
  match m with
  | HostMount writable path =>
      [if writable then lit "--bind" else lit "--ro-bind"; path_to_string path; path_to_string path]
  | TmpfsMount perms path => perms_args perms ++ [lit "--tmpfs"; path_to_string path]
  | DataMount perms fd path => perms_args perms ++ [lit "--ro-bind-data"; fd; path_to_string path]
  | DevMount path => [lit "--dev"; path_to_string path]
  | RemountRo path => [lit "--remount-ro"; path_to_string path]
  | MakeDir path => [lit "--dir"; path_to_string path]
  end.

(** Where a mount lies, and the mount a path is on: mounts are made in order, so
    it is the last one at the path or above it. *)
Definition mount_point (m : Mount) : option Path :=
  match m with
  | HostMount _ path | TmpfsMount _ path | DataMount _ _ path | DevMount path => Some path
  | RemountRo _ | MakeDir _ => None
  end.
Definition lies_above (path : Path) (m : Mount) : bool := is_some_and (path_starts_with path) (mount_point m).
Definition mount_of (ms : list Mount) (path : Path) : option Mount :=
  last (filter (λ m, lies_above path m = true) ms).

(** Mounts that show files of the host. *)
Definition is_host (m : Mount) : bool := match m with HostMount _ _ => true | _ => false end.

(** Some mount of a list lies at a path or above it. *)
Definition masks (ms : list Mount) (path : Path) : Prop :=
  ∃ m q, m ∈ ms ∧ mount_point m = Some q ∧ q `prefix_of` path.

Lemma mount_of_app ms ks path :
  mount_of (ms ++ ks) path = match mount_of ks path with Some m => Some m | None => mount_of ms path end.
Proof. unfold mount_of. rewrite filter_app, last_app. done. Qed.

Lemma mount_of_Some ms path m :
  mount_of ms path = Some m → m ∈ ms ∧ ∃ q, mount_point m = Some q ∧ q `prefix_of` path.
Proof.
  intros Hm%last_Some_elem_of. apply list_elem_of_filter in Hm as [Ha Hm]. split; [done|].
  unfold lies_above in Ha. destruct (mount_point m) as [q|]; [|done]. exists q. split; [done|].
  by apply path_starts_with_true.
Qed.

Lemma mount_of_None ms path : mount_of ms path = None ↔ ¬ masks ms path.
Proof.
  unfold mount_of. rewrite last_None. split.
  - intros Hf (m & q & Hm & Hq & Hp). assert (m ∈ @nil Mount) as []%elem_of_nil.
    rewrite <- Hf. apply list_elem_of_filter. split; [|done]. unfold lies_above. rewrite Hq.
    by apply path_starts_with_true.
  - intros Hn. apply filter_none. intros m Hm Ha. apply Hn. unfold lies_above in Ha.
    destruct (mount_point m) as [q|] eqn:Hq; [|done]. exists m, q. by rewrite <- path_starts_with_true.
Qed.

Lemma masks_below ms q path : masks ms q → q `prefix_of` path → masks ms path.
Proof. intros (m & r & ? & ? & ?) ?. exists m, r. split_and!; [done..|]. by etrans. Qed.

Lemma masks_app ms ks path : masks (ms ++ ks) path ↔ masks ms path ∨ masks ks path.
Proof. unfold masks. setoid_rewrite elem_of_app. naive_solver. Qed.

Lemma masks_one m q path : mount_point m = Some q → q `prefix_of` path → masks [m] path.
Proof. intros. exists m, q. by rewrite list_elem_of_singleton. Qed.

(** * Walks *)

Lemma normal_prefix p q : normal p → q `prefix_of` p → q ≠ [] → normal q.
Proof.
  intros (rest & -> & Hr) [k Hk] Hq. destruct q as [|c q]; [done|]. injection Hk as <- ->.
  apply Forall_app in Hr as [Hr _]. by exists q.
Qed.

Lemma walk_Some {A} (visit : Path → option (option A)) names current a :
  Forall is_name names → walk visit current names = Some a →
  ∃ q, q `prefix_of` names ∧ visit (current ++ q) = Some (Some a).
Proof.
  revert current. induction names as [|c names IH]; intros current Hn; simpl; [done|].
  apply Forall_cons in Hn as [Hc Hn]. destruct c as [| | |name]; try done. simpl.
  destruct (visit (current ++ [Normal name])) as [r|] eqn:E.
  - intros ->. exists [Normal name]. split; [by exists names|done].
  - intros (q & [k ->] & Hq)%IH; [|done]. exists (Normal name :: q). split; [by exists k|].
    by rewrite <- app_assoc in Hq.
Qed.

(** A walk without result that no visit ended has seen the whole path. *)
Lemma walk_None {A} (visit : Path → option (option A)) names current :
  Forall is_name names → names ≠ [] → (∀ q, visit q ≠ Some None) → walk visit current names = None →
  visit (current ++ names) = None.
Proof.
  revert current. induction names as [|c names IH]; intros current Hn Hne Hv; simpl; [done|].
  apply Forall_cons in Hn as [Hc Hn]. destruct c as [| | |name]; try done. simpl.
  destruct (visit (current ++ [Normal name])) as [[a|]|] eqn:E; [done|by apply Hv in E|].
  destruct names as [|d names]; [done|]. intros Hw. apply IH in Hw; [|done..].
  by rewrite <- app_assoc in Hw.
Qed.

(** A walk without result was not given one by any visit it came to. *)
Lemma walk_None_prefix {A} (visit : Path → option (option A)) names current q :
  Forall is_name names → walk visit current names = None → q `prefix_of` names → q ≠ [] →
  (∀ r, r `prefix_of` q → r ≠ [] → visit (current ++ r) ≠ Some None) → visit (current ++ q) = None.
Proof.
  revert current q. induction names as [|c names IH]; intros current q Hn Hw Hq Hne Hv; [by apply prefix_nil_inv in Hq|].
  apply Forall_cons in Hn as [Hc Hn]. destruct c as [| | |name]; try done. simpl in Hw.
  destruct q as [|x q]; [done|]. apply prefix_cons_inv_1 in Hq as Hx. apply prefix_cons_inv_2 in Hq. subst x.
  destruct (visit (current ++ [Normal name])) as [[a|]|] eqn:E; [done| |].
  - exfalso. eapply (Hv [Normal name]); [by exists q|done|done].
  - destruct q as [|y q]; [done|]. rewrite cons_middle, app_assoc. apply IH; [done..|].
    intros r Hr Hrne. rewrite <- app_assoc. apply Hv; [|done]. by apply prefix_cons.
Qed.

Section spec.
Context `{Hlaws : LinuxHostLaws} `{!HostLaws} `{Globs}.
Implicit Types (p : FileSystemSandboxPolicy) (b : BwrapArgs) (w : WritableRoot).

(** ** Links *)

Definition is_link (path : Path) : Prop := ∃ m, lstat path = Ok m ∧ is_symlink m = true.
(** A path goes through a link below the root directory. *)
Definition through_link (path : Path) : Prop :=
  ∃ names, names ≠ [] ∧ RootDir :: names `prefix_of` path ∧ is_link (RootDir :: names).

Lemma through_link_below path k : through_link path → path `prefix_of` k → through_link k.
Proof. intros (ns & ? & ? & ?) ?. exists ns. split_and!; [done|by etrans|done]. Qed.

Lemma above_link l names : is_link l → RootDir :: names `prefix_of` l → ∃ m, lstat (RootDir :: names) = Ok m.
Proof.
  intros (m & Hm & _) Hp. assert (is_ok (lstat (RootDir :: names)) = true) as Hok.
  { eapply lstat_prefix; [|exact Hp|done]. by rewrite Hm. }
  destruct (lstat (RootDir :: names)) as [m'|]; [by exists m'|done].
Qed.

(** The guard finds every link of a path that lies in what can be written. *)
Lemma no_writable_link path allowed l :
  normal path → first_writable_symlink_component_in_path path allowed = None →
  l ≠ [] → RootDir :: l `prefix_of` path → is_link (RootDir :: l) →
  is_within_allowed_write_paths (RootDir :: l) allowed = false.
Proof.
  intros (names & -> & Hn) Hw Hne Hl%prefix_cons_inv_2 Hlink. unfold first_writable_symlink_component_in_path in Hw.
  simpl in Hw. eapply (walk_None_prefix _ names [RootDir] l) in Hw; [|done..|].
  - simpl in Hw. destruct Hlink as (m & Hm & Hs). rewrite Hm, Hs in Hw. simpl in Hw.
    by destruct (is_within_allowed_write_paths _ _).
  - intros r Hr _. destruct (above_link (RootDir :: l) r Hlink) as [m Hm]; [by apply prefix_cons|].
    simpl. rewrite Hm. by case_match.
Qed.

Definition target_of (path : Path) : option Path :=
  target ← canonicalize path; if bool_decide (target = path) then None else Some target.

Lemma target_walk path done names t :
  Forall is_name names →
  walk (λ current, match lstat current with
                   | Ok metadata => if is_symlink metadata then Some (target_of path) else None
                   | Err _ => Some None end) ([RootDir] ++ done) names = Some t →
  (∃ q, q ≠ [] ∧ q `prefix_of` done ++ names ∧ is_link (RootDir :: q)) ∧ target_of path = Some t.
Proof.
  revert done. induction names as [|c names IH]; intros done Hn Hw; [discriminate Hw|].
  apply Forall_cons in Hn as [Hc Hn]. destruct c as [| | |name]; try done. cbn [walk] in Hw.
  change (push_component ([RootDir] ++ done) (Normal name)) with (([RootDir] ++ done) ++ [Normal name]) in Hw.
  rewrite <- app_assoc in Hw. destruct (lstat ([RootDir] ++ done ++ [Normal name])) as [m|] eqn:Em; [|done].
  destruct (is_symlink m) eqn:Es.
  - split; [|done]. exists (done ++ [Normal name]). split_and!; [by destruct done| |by exists m].
    exists names. by rewrite <- app_assoc.
  - destruct (IH (done ++ [Normal name]) Hn Hw) as [(q & ? & Hq & ?) ?]. split; [|done]. exists q.
    split_and!; [done| |done]. by rewrite <- app_assoc in Hq.
Qed.

(** The canonical target of a path is where it leads, if it goes through a link. *)
Lemma canonical_target_Some path t :
  normal path → canonical_target_if_symlinked_path path = Some t →
  canonicalize path = Some t ∧ t ≠ path ∧ through_link path.
Proof.
  intros (names & -> & Hn) Ht. unfold canonical_target_if_symlinked_path in Ht. simpl in Ht.
  destruct (target_walk (RootDir :: names) [] names t Hn Ht) as [(q & Hne & Hq & Hlink) Hc]. unfold target_of in Hc.
  destruct (canonicalize (RootDir :: names)) as [t'|]; [|done]. simpl in Hc.
  case_bool_decide; [done|]. injection Hc as ->. split_and!; [done..|].
  exists q. split_and!; [done|by apply prefix_cons|done].
Qed.

Lemma walk_one_result {A} (visit : Path → option (option A)) names current q a :
  Forall is_name names → q `prefix_of` names → q ≠ [] → visit (current ++ q) = Some a →
  (∀ r, r `prefix_of` q → r ≠ [] → visit (current ++ r) = None ∨ visit (current ++ r) = Some a) →
  walk visit current names = a.
Proof.
  revert current q. induction names as [|c names IH]; intros current q Hn Hq Hne Hv Hr; [by apply prefix_nil_inv in Hq|].
  apply Forall_cons in Hn as [Hc Hn]. destruct c as [| | |name]; try done. simpl.
  destruct q as [|x q]; [done|]. apply prefix_cons_inv_1 in Hq as Hx. apply prefix_cons_inv_2 in Hq. subst x.
  destruct (Hr [Normal name]) as [E|E]; [by exists q|done| |by rewrite E]. rewrite E.
  destruct q as [|y q]; [by rewrite E in Hv|]. apply (IH _ (y :: q)); [done..| |].
  - by rewrite <- app_assoc.
  - intros r Hrq Hrne. rewrite <- app_assoc. apply Hr; [|done]. by apply prefix_cons.
Qed.

Lemma canonical_target_link path t :
  normal path → through_link path → canonicalize path = Some t → t ≠ path →
  canonical_target_if_symlinked_path path = Some t.
Proof.
  intros (names & -> & Hn) (l & Hne & Hl%prefix_cons_inv_2 & Hlink) Hc Ht.
  unfold canonical_target_if_symlinked_path. simpl. apply (walk_one_result _ names [RootDir] l); [done..| |].
  - destruct Hlink as (m & Hm & Hs). simpl. rewrite Hm, Hs, Hc. simpl. by rewrite bool_decide_eq_false_2.
  - intros r Hr _. destruct (above_link (RootDir :: l) r Hlink) as [m Hm]; [by apply prefix_cons|].
    simpl. rewrite Hm, Hc. simpl. rewrite bool_decide_eq_false_2 by done. by destruct (is_symlink m); [right|left].
Qed.

Lemma no_target path : normal path → ¬ through_link path → canonical_target_if_symlinked_path path = None.
Proof.
  intros Hn Hl. destruct (canonical_target_if_symlinked_path path) as [t|] eqn:E; [|done].
  exfalso. by apply Hl, (canonical_target_Some path t).
Qed.


(** What can be written: the writable roots and where they lead. *)
Lemma elem_of_allowed ws a :
  a ∈ allowed_write_paths_of ws ↔
  ∃ w, w ∈ ws ∧ (a = root w ∨ canonical_target_if_symlinked_path (root w) = Some a).
Proof.
  unfold allowed_write_paths_of. rewrite list_elem_of_bind. setoid_rewrite elem_of_cons.
  apply exist_proper. intros w. destruct (canonical_target_if_symlinked_path (root w)) as [t|]; simpl;
    rewrite ?list_elem_of_singleton, ?elem_of_nil; naive_solver.
Qed.

(** * What the append functions add *)

(** Arguments for some mounts are appended; no protected path is forgotten. *)
Definition adds b b' (ms : list Mount) : Prop :=
  args b' = args b ++ (ms ≫= render)
  ∧ protected_create_targets b `prefix_of` protected_create_targets b'.

Lemma adds_nil b b' :
  args b' = args b → protected_create_targets b `prefix_of` protected_create_targets b' → adds b b' [].
Proof. intros Ha Ht. split; [|done]. simpl. by rewrite app_nil_r. Qed.

Lemma adds_trans b b1 b2 ms ks : adds b b1 ms → adds b1 b2 ks → adds b b2 (ms ++ ks).
Proof.
  intros [Ha Ht] [Ha' Ht']. split; [|by etrans]. by rewrite Ha', Ha, bind_app, app_assoc.
Qed.

Lemma adds_push xs ms b : xs = ms ≫= render → adds b (push_args xs b) ms.
Proof. intros ->. split; done. Qed.

Lemma adds_synthetic t b b' ms : adds b b' ms → adds b (push_synthetic t b') ms.
Proof. done. Qed.

(** The path that is missing first lies below every path above that exists. *)
Lemma first_missing path root :
  normal path → path_exists path = false → path_exists root = true → root `prefix_of` path → root ≠ [] →
  ∃ c, find_first_non_existent_component path = Some c ∧ c `prefix_of` path ∧ root `prefix_of` c.
Proof.
  intros (names & -> & Hn) Hm Hr Hpre Hne. unfold find_first_non_existent_component. simpl.
  set (visit := λ current, if path_exists current then None else Some (Some current)).
  destruct (walk visit [RootDir] names) as [c|] eqn:E.
  - exists c. split; [done|]. apply walk_Some in E as (q & [k Hk] & Hv); [|done]. subst names.
    unfold visit in Hv. destruct (path_exists ([RootDir] ++ q)) eqn:Ec; [done|]. injection Hv as <-.
    assert ([RootDir] ++ q `prefix_of` RootDir :: q ++ k) as Hc by (by exists k). split; [done|].
    destruct (prefix_weak_total _ _ _ Hpre Hc) as [?|Hcr]; [done|].
    rewrite (exists_prefix _ _ Hr Hcr) in Ec; done.
  - exfalso. destruct names as [|c names].
    { destruct Hpre as [k Hk]. destruct root as [|d root]; [done|]. injection Hk as <- Hk.
      apply eq_sym, app_eq_nil in Hk as [-> _]. congruence. }
    apply walk_None in E; [|done..|]. { unfold visit in E. simpl in E. by rewrite Hm in E. }
    unfold visit. intros q. by destruct (path_exists q).
Qed.

(** Under a root that exists: a path of [allowed] above [path]. *)
Definition under_allowed (allowed : list Path) (path : Path) : Prop :=
  ∃ root, root ∈ allowed ∧ root ≠ [] ∧ path_exists root = true ∧ root `prefix_of` path.

Lemma within_allowed path root allowed :
  root ∈ allowed → root `prefix_of` path → is_within_allowed_write_paths path allowed = true.
Proof.
  intros Hr Hp. unfold is_within_allowed_write_paths. apply existsb_elem. exists root. split; [done|].
  by apply path_starts_with_true.
Qed.

Lemma empty_file_adds b path b' :
  append_empty_file_bind_data_args b path = Ok b' → ∃ fd, adds b b' [DataMount None fd path].
Proof.
  unfold append_empty_file_bind_data_args. destruct (is_nil (preserved_files b)).
  - destruct open_dev_null as [fd|]; [|done]. intros [= <-]. eexists.
    by apply (adds_push _ _ (push_file fd b)).
  - intros [= <-]. eexists. by apply adds_push.
Qed.

Lemma empty_directory_adds b path :
  adds b (append_empty_directory_args b path) [TmpfsMount (Some (lit "555")) path; RemountRo path].
Proof. by apply adds_push. Qed.

(** Mounts that hide: none shows files of the host. *)
Abbreviation hiding := (Forall (λ m, is_host m = false)).

Lemma missing_file_adds b path b' :
  append_missing_empty_file_bind_data_args b path = Ok b' →
  ∃ ms, adds b b' ms ∧ hiding ms ∧ masks ms path.
Proof.
  unfold append_missing_empty_file_bind_data_args.
  destruct (append_empty_file_bind_data_args b path) as [b1|] eqn:E; [|done]. intros [= <-].
  apply empty_file_adds in E as [fd E]. exists [DataMount None fd path].
  split_and!; [done|by repeat constructor|by apply (masks_one _ path)].
Qed.

Lemma missing_read_only_adds b path b' :
  append_missing_read_only_subpath_args b path = Ok b' →
  ∃ ms, adds b b' ms ∧ hiding ms ∧ masks ms path.
Proof.
  unfold append_missing_read_only_subpath_args. destruct (is_metadata_path path); [|apply missing_file_adds].
  intros [= <-]. exists [TmpfsMount (Some (lit "555")) path; RemountRo path].
  split_and!; [apply empty_directory_adds|by repeat constructor|].
  eexists _, path. split_and!; [apply list_elem_of_here|done..].
Qed.

Lemma parent_dirs_adds b target anchor :
  ∃ ms, adds b (append_mount_target_parent_dir_args b target anchor) ms
        ∧ Forall (λ m, mount_point m = None) ms.
Proof.
  unfold append_mount_target_parent_dir_args, mount_target_parent_dir_args.
  destruct (if is_dir target then _ else _) as [dir|].
  - exists (MakeDir <$> reverse (take_until anchor (ancestors dir))). split.
    + apply adds_push. by rewrite list_fmap_bind.
    + apply Forall_fmap, Forall_true. done.
  - exists []. split; [by apply adds_push|constructor].
Qed.

(** Directories that are made hide nothing and show nothing. *)
Lemma no_point_hiding ms : Forall (λ m, mount_point m = None) ms → hiding ms.
Proof. intros Hm. eapply Forall_impl; [exact Hm|]. by intros []. Qed.

Lemma no_point_masks ms path : Forall (λ m, mount_point m = None) ms → ¬ masks ms path.
Proof. rewrite Forall_forall. intros Hm (m & q & Hin & Hq & _). by rewrite (Hm m Hin) in Hq. Qed.

(** A read-only path shows at most itself of the host, and is covered where it
    lies under something that can be written. *)
Lemma read_only_adds b s allowed b' :
  append_read_only_subpath_args b s allowed = Ok b' →
  ∃ ms, adds b b' ms ∧ (∀ m, m ∈ ms → is_host m = true → m = HostMount false s)
        ∧ (normal s → under_allowed allowed s → masks ms s).
Proof.
  assert (∀ ms, hiding ms → ∀ m, m ∈ ms → is_host m = true → m = HostMount false s) as Hhide.
  { intros ms Hm m Hin Hh. rewrite Forall_forall in Hm. by rewrite (Hm m Hin) in Hh. }
  unfold append_read_only_subpath_args. destruct (first_writable_symlink_component_in_path _ _); [done|].
  assert ((if negb (path_exists s) then
             match find_first_non_existent_component s with
             | Some c => if is_within_allowed_write_paths c allowed
                         then append_missing_read_only_subpath_args b c else Ok b
             | None => Ok b
             end
           else if is_within_allowed_write_paths s allowed
           then Ok (push_args [lit "--ro-bind"; path_to_string s; path_to_string s] b)
           else Ok b) = Ok b' →
    ∃ ms, adds b b' ms ∧ (∀ m, m ∈ ms → is_host m = true → m = HostMount false s)
          ∧ (normal s → under_allowed allowed s → masks ms s)) as Hplain.
  { destruct (path_exists s) eqn:Hex; simpl.
    - destruct (is_within_allowed_write_paths s allowed) eqn:Hw; intros [= <-].
      + exists [HostMount false s]. split_and!; [by apply adds_push| |].
        * intros m Hm%list_elem_of_singleton. done.
        * intros _ _. by apply (masks_one _ s).
      + exists []. split_and!; [by apply adds_nil|by intros m Hm%elem_of_nil|].
        intros _ (root & Hr & _ & _ & Hp). by rewrite (within_allowed _ _ _ Hr Hp) in Hw.
    - assert (∀ root, root ∈ allowed → root ≠ [] → path_exists root = true → root `prefix_of` s → normal s →
               ∃ c, find_first_non_existent_component s = Some c ∧ c `prefix_of` s
                    ∧ is_within_allowed_write_paths c allowed = true) as Hc.
      { intros root Hr Hne Hre Hp Hn. destruct (first_missing s root) as (c & ? & ? & ?); [done..|].
        exists c. split_and!; [done..|]. by eapply within_allowed. }
      destruct (find_first_non_existent_component s) as [c|].
      + destruct (is_within_allowed_write_paths c allowed) eqn:Hw.
        * intros (ms & ? & ? & Hmask)%missing_read_only_adds. exists ms. split_and!; [done|by apply Hhide|].
          intros Hn (root & ? & ? & ? & ?). destruct (Hc root) as (c' & [= <-] & Hcs & _); [done..|].
          by eapply masks_below.
        * intros [= <-]. exists []. split_and!; [by apply adds_nil|by intros m Hm%elem_of_nil|].
          intros Hn (root & ? & ? & ? & ?). destruct (Hc root) as (c' & [= <-] & _ & ?); [done..|]. congruence.
      + intros [= <-]. exists []. split_and!; [by apply adds_nil|by intros m Hm%elem_of_nil|].
        intros Hn (root & ? & ? & ? & ?). by destruct (Hc root) as (? & ? & _). }
  destruct (transient_empty_metadata_path s) as [[m|m]|]; [..|done];
    (destruct (is_within_allowed_write_paths s allowed); [|done]).
  - unfold append_existing_empty_file_bind_data_args.
    destruct (append_empty_file_bind_data_args b s) as [b1|] eqn:E; [|done]. intros [= <-].
    apply empty_file_adds in E as [fd E]. eexists. split_and!; [by apply adds_synthetic| |].
    + apply Hhide. by repeat constructor.
    + intros _ _. by apply (masks_one _ s).
  - intros [= <-]. eexists. split_and!; [apply adds_synthetic, empty_directory_adds| |].
    + apply Hhide. by repeat constructor.
    + intros _ _. eexists _, s. split_and!; [apply list_elem_of_here|done..].
Qed.

Lemma existing_unreadable_adds b u allowed b' :
  append_existing_unreadable_path_args b u allowed = Ok b' → ∃ ms, adds b b' ms ∧ hiding ms ∧ masks ms u.
Proof.
  unfold append_existing_unreadable_path_args. destruct (is_dir u).
  - intros [= <-]. set (descendants := filter _ allowed). set (perms := if is_nil descendants then _ else _).
    assert (∀ l b, ∃ ms, adds b (foldl (λ b d, append_mount_target_parent_dir_args b d u) b l) ms
                         ∧ Forall (λ m, mount_point m = None) ms) as Hdirs.
    { induction l as [|d l IH]; intros b0; simpl; [exists []; split; [by apply adds_nil|constructor]|].
      destruct (parent_dirs_adds b0 d u) as (ms & Ha & Hm). edestruct IH as (ks & Ha' & Hk).
      exists (ms ++ ks). split; [by eapply adds_trans|]. by apply Forall_app. }
    edestruct Hdirs as (ms & Ha & Hm). exists (TmpfsMount (Some perms) u :: ms ++ [RemountRo u]).
    split_and!.
    + apply (adds_trans _ (push_args [lit "--perms"; perms; lit "--tmpfs"; path_to_string u] b) _ [_]);
        [by apply adds_push|]. eapply adds_trans; [exact Ha|]. by apply adds_push.
    + constructor; [done|]. apply Forall_app. split; [by apply no_point_hiding|by repeat constructor].
    + eexists _, u. split_and!; [apply list_elem_of_here|done..].
  - unfold append_empty_file_bind_data_args. cbn [preserved_files push_args].
    destruct (is_nil (preserved_files b)).
    + destruct open_dev_null as [fd|]; [|done]. intros [= <-].
      exists [DataMount (Some (lit "000")) (lit (pretty (default 0%N (head (preserved_files b ++ [fd]))))) u].
      split_and!; [|by repeat constructor|by apply (masks_one _ u)].
      split; [|done]. cbn [args push_args push_file]. by rewrite <- app_assoc.
    + intros [= <-]. exists [DataMount (Some (lit "000")) (lit (pretty (default 0%N (head (preserved_files b))))) u].
      split_and!; [|by repeat constructor|by apply (masks_one _ u)].
      split; [|done]. cbn [args push_args push_file]. by rewrite <- app_assoc.
Qed.

(** A path that may not be read is hidden: where it exists, and where it could
    be created. *)
Lemma unreadable_adds b u allowed b' :
  append_unreadable_root_args b u allowed = Ok b' →
  ∃ ms, adds b b' ms ∧ hiding ms
        ∧ (path_exists u = true ∨ normal u ∧ under_allowed allowed u → masks ms u).
Proof.
  unfold append_unreadable_root_args. destruct (first_writable_symlink_component_in_path _ _); [done|].
  destruct (path_exists u) eqn:Hex; simpl.
  { intros (ms & ? & ? & ?)%existing_unreadable_adds. by exists ms. }
  assert (normal u ∧ under_allowed allowed u →
          ∃ c, find_first_non_existent_component u = Some c ∧ c `prefix_of` u
               ∧ is_within_allowed_write_paths c allowed = true) as Hc.
  { intros (Hn & root & ? & ? & ? & ?). destruct (first_missing u root) as (c & ? & ? & ?); [done..|].
    exists c. split_and!; [done..|]. by eapply within_allowed. }
  destruct (find_first_non_existent_component u) as [c|].
  - destruct (is_within_allowed_write_paths c allowed) eqn:Hw.
    + intros (ms & ? & ? & Hmask)%missing_file_adds. exists ms. split_and!; [done..|].
      intros [?|Hu]; [done|]. destruct (Hc Hu) as (c' & [= <-] & ? & _). by eapply masks_below.
    + intros [= <-]. exists []. split_and!; [by apply adds_nil|constructor|].
      intros [?|Hu]; [done|]. destruct (Hc Hu) as (c' & [= <-] & _ & ?). congruence.
  - intros [= <-]. exists []. split_and!; [by apply adds_nil|constructor|].
    intros [?|Hu]; [done|]. by destruct (Hc Hu) as (? & ? & _).
Qed.

(** A list of them. *)
Lemma all_unreadable_adds b us allowed b' :
  try_foldl (λ b u, append_unreadable_root_args b u allowed) b us = Ok b' →
  ∃ ms, adds b b' ms ∧ hiding ms
        ∧ ∀ u, u ∈ us → path_exists u = true ∨ normal u ∧ under_allowed allowed u → masks ms u.
Proof.
  revert b. induction us as [|u us IH]; intros b; simpl.
  { intros [= <-]. exists []. split_and!; [by apply adds_nil|constructor|by intros u Hu%elem_of_nil]. }
  destruct (append_unreadable_root_args b u allowed) as [b1|] eqn:E; [|done].
  apply unreadable_adds in E as (ms & Ha & Hm & Hu). intros (ks & Ha' & Hk & Hus)%IH.
  exists (ms ++ ks). split_and!; [by eapply adds_trans|by apply Forall_app|].
  intros v [->|Hv]%elem_of_cons Hc; apply masks_app; [left; by apply Hu|right; by apply Hus].
Qed.

Lemma all_read_only_adds b ss allowed b' :
  try_foldl (λ b s, append_read_only_subpath_args b s allowed) b ss = Ok b' →
  ∃ ms, adds b b' ms ∧ (∀ m, m ∈ ms → is_host m = true → ∃ s, s ∈ ss ∧ m = HostMount false s)
        ∧ ∀ s, s ∈ ss → normal s → under_allowed allowed s → masks ms s.
Proof.
  revert b. induction ss as [|s ss IH]; intros b; simpl.
  { intros [= <-]. exists []. split_and!; [by apply adds_nil|by intros m Hm%elem_of_nil|].
    by intros s Hs%elem_of_nil. }
  destruct (append_read_only_subpath_args b s allowed) as [b1|] eqn:E; [|done].
  apply read_only_adds in E as (ms & Ha & Hm & Hs). intros (ks & Ha' & Hk & Hss)%IH.
  exists (ms ++ ks). split_and!; [by eapply adds_trans| |].
  - intros m [Hin|Hin]%elem_of_app Hh; [exists s|destruct (Hk m Hin Hh) as (t & ? & ?); exists t].
    + split; [apply list_elem_of_here|by apply Hm].
    + split; [by apply list_elem_of_further|done].
  - intros t [->|Ht]%elem_of_cons Hn Hc; apply masks_app; [left; by apply Hs|right; by apply Hss].
Qed.

(** * Orders and sets *)

Lemma elem_of_dedup_paths x l : x ∈ dedup_paths l ↔ x ∈ l.
Proof.
  induction l as [|y [|z l] IH]; [done..|]. cbn [dedup_paths].
  destruct (decide (y = z)) as [->|]; rewrite ?elem_of_cons, ?IH, ?elem_of_cons; naive_solver.
Qed.

Lemma elem_of_set_insert x y l : x ∈ set_insert y l ↔ x = y ∨ x ∈ l.
Proof.
  induction l as [|z l IH]; simpl; [by rewrite list_elem_of_singleton, elem_of_nil; naive_solver|].
  case_decide; [subst; rewrite !elem_of_cons; naive_solver|].
  destruct (path_leb y z); rewrite !elem_of_cons, ?IH; naive_solver.
Qed.

Lemma elem_of_set_of x l k : x ∈ foldl (λ s path, set_insert path s) k l ↔ x ∈ l ∨ x ∈ k.
Proof.
  revert k. induction l as [|y l IH]; intros k; simpl; [by rewrite elem_of_nil; naive_solver|].
  rewrite IH, elem_of_set_insert, elem_of_cons. naive_solver.
Qed.

(** * The mounts of one writable root *)

(** Where a writable root is mounted, and where a path inside it is then. *)
Definition mount_root w : Path := default (root w) (canonical_target_if_symlinked_path (root w)).
Definition moved w (s : Path) : Path :=
  match canonical_target_if_symlinked_path (root w) with
  | Some target => match strip_path_prefix s (root w) with Some relative => path_join target relative | None => s end
  | None => s
  end.

Lemma names_relative rest : Forall is_name rest → is_absolute rest = false ∧ filter (λ c, c ≠ CurDir) rest = rest.
Proof.
  induction rest as [|c rest IH]; [done|]. intros [Hc Hr]%Forall_cons. destruct (IH Hr) as [_ Hf].
  destruct c; [done..|]. split; [done|]. by rewrite filter_cons_True, Hf.
Qed.

Lemma moved_below w rest :
  normal (mount_root w) → Forall is_name rest → moved w (root w ++ rest) = mount_root w ++ rest.
Proof.
  unfold moved, mount_root. intros Hm Hr. destruct (canonical_target_if_symlinked_path (root w)) as [t|]; [|done].
  rewrite (proj2 (strip_path_prefix_Some _ _ rest) eq_refl). simpl in Hm. simpl.
  destruct Hm as (names & -> & _). unfold path_join.
  by destruct (names_relative rest Hr) as [-> ->].
Qed.

(** What is added for a root: itself, then read-only paths of the list, then the
    hidden paths below it; a protected name that is not covered is left to be
    watched. *)
Definition root_mounts (unreadable missing_metadata allowed : list Path) w (ms : list Mount) b' : Prop :=
  ∃ dirs ro hidden,
    ms = dirs ++ HostMount true (mount_root w) :: ro ++ hidden
    ∧ Forall (λ m, mount_point m = None) dirs
    ∧ (∀ m, m ∈ ro → is_host m = true →
         ∃ s, s ∈ read_only_subpaths_to_mount unreadable missing_metadata w ∧ m = HostMount false s)
    ∧ hiding hidden
    ∧ (∀ s, s ∈ read_only_subpaths_to_mount unreadable missing_metadata w → normal s →
            under_allowed allowed s → masks ro s)
    ∧ (∀ u, u ∈ unreadable → root w `prefix_of` u →
            path_exists (moved w u) = true ∨ normal (moved w u) ∧ under_allowed allowed (moved w u) →
            masks hidden (moved w u))
    ∧ (∀ n, n ∈ protected_metadata_names w →
         let path := moved w (path_join (root w) (path_new n)) in
         path ∈ read_only_subpaths_to_mount unreadable missing_metadata w
         ∨ path_exists path = true ∨ path ∈ protected_create_targets b').

Lemma create_targets_adds names w ro b :
  let b' := append_protected_create_targets_for_writable_root b names (root w)
              (canonical_target_if_symlinked_path (root w)) ro in
  adds b b' [] ∧ ∀ n, n ∈ names → let path := moved w (path_join (root w) (path_new n)) in
    path ∈ ro ∨ path_exists path = true ∨ path ∈ protected_create_targets b'.
Proof.
  unfold append_protected_create_targets_for_writable_root. revert b.
  induction names as [|n names IH]; intros b; simpl.
  { split; [by apply adds_nil|]. by intros n Hn%elem_of_nil. }
  assert (match canonical_target_if_symlinked_path (root w), strip_path_prefix (path_join (root w) (path_new n)) (root w) with
          | Some target, Some relative_path => path_join target relative_path
          | _, _ => path_join (root w) (path_new n)
          end = moved w (path_join (root w) (path_new n))) as ->.
  { unfold moved. destruct (canonical_target_if_symlinked_path (root w)); [|done].
    by destruct (strip_path_prefix (path_join (root w) (path_new n)) (root w)). }
  set (path := moved w (path_join (root w) (path_new n))).
  set (b1 := if bool_decide (path ∈ ro) || path_exists path then b else push_create_target path b).
  destruct (IH b1) as [Ha Hn].
  assert (adds b b1 [] ∧ (path ∈ ro ∨ path_exists path = true ∨ path ∈ protected_create_targets b1)) as [Hb1 Hp].
  { unfold b1. destruct (bool_decide (path ∈ ro)) eqn:E1; simpl.
    - apply bool_decide_eq_true in E1. split; [by apply adds_nil|by left].
    - destruct (path_exists path) eqn:E2; [split; [by apply adds_nil|by right; left]|].
      split; [apply adds_nil; [done|by eexists]|]. right; right. simpl. set_solver. }
  split; [exact (adds_trans _ _ _ [] [] Hb1 Ha)|].
  intros m [->|Hm]%elem_of_cons; [|by apply Hn].
  destruct Hp as [?|[?|Ht]]; [by left|by right; left|]. right; right.
  destruct Ha as [_ [k Hk]]. rewrite Hk. apply elem_of_app. by left.
Qed.

Lemma root_mounts_later unreadable missing_metadata allowed w ms b b' :
  root_mounts unreadable missing_metadata allowed w ms b →
  protected_create_targets b `prefix_of` protected_create_targets b' →
  root_mounts unreadable missing_metadata allowed w ms b'.
Proof.
  intros (dirs & ro & hidden & ? & ? & ? & ? & ? & ? & Hn) [k Hk]. exists dirs, ro, hidden. split_and!; [done..|].
  intros n Hin. destruct (Hn n Hin) as [?|[?|?]]; [by left|by right; left|right; right].
  rewrite Hk. apply elem_of_app. by left.
Qed.

Lemma elem_of_nested us w u :
  u ∈ us → root w `prefix_of` u → moved w u ∈ nested_unreadable_roots us w.
Proof.
  intros Hu Hp. unfold nested_unreadable_roots, moved.
  assert (u ∈ filter (λ path, path_starts_with path (root w) = true) us) as Hin.
  { apply list_elem_of_filter. split; [by apply path_starts_with_true|done]. }
  destruct (canonical_target_if_symlinked_path (root w)) as [t|]; [|done].
  unfold remap_paths_for_symlink_target. apply list_elem_of_fmap. by exists u.
Qed.

Lemma writable_root_adds unreadable missing_metadata allowed b w b' :
  append_writable_root unreadable missing_metadata allowed b w = Ok b' →
  ∃ ms, adds b b' ms ∧ root_mounts unreadable missing_metadata allowed w ms b'.
Proof.
  unfold append_writable_root. fold (mount_root w).
  set (b1 := match max_by _ _ with Some m => _ | None => b end).
  assert (∃ dirs, adds b b1 dirs ∧ Forall (λ m, mount_point m = None) dirs) as (dirs & Ha1 & Hdirs).
  { unfold b1. destruct (max_by _ _) as [m|]; [apply parent_dirs_adds|].
    exists []. split; [by apply adds_nil|constructor]. }
  set (b2 := push_args _ b1). set (ss := read_only_subpaths_to_mount _ _ w).
  assert (adds b1 b2 [HostMount true (mount_root w)]) as Ha2 by by apply adds_push.
  destruct (create_targets_adds (protected_metadata_names w) w ss b2) as [Ha3 Hn].
  set (b3 := append_protected_create_targets_for_writable_root _ _ _ _ _) in *.
  destruct (try_foldl _ b3 _) as [b4|] eqn:E4; [|done]. intros E5.
  apply all_read_only_adds in E4 as (ro & Ha4 & Hro & Hcov).
  apply all_unreadable_adds in E5 as (hidden & Ha5 & Hhid & Hucov).
  exists (dirs ++ [HostMount true (mount_root w)] ++ [] ++ ro ++ hidden). split.
  { eapply adds_trans; [exact Ha1|]. eapply adds_trans; [exact Ha2|]. eapply adds_trans; [exact Ha3|].
    by eapply adds_trans. }
  exists dirs, ro, hidden. split_and!; [done|done| |done| | |].
  - intros m Hm Hh. destruct (Hro m Hm Hh) as (s & Hs & ->). exists s. by rewrite <- (elem_of_sort_by by_depth).
  - intros s Hs. apply Hcov. by apply elem_of_sort_by.
  - intros u Hu Hpre. by apply Hucov, elem_of_sort_by, elem_of_nested.
  - intros n Hin. destruct (Hn n Hin) as [?|[?|Ht]]; [by left|by right; left|right; right].
    destruct Ha4 as [_ [k4 Hk4]], Ha5 as [_ [k5 Hk5]]. rewrite Hk5, Hk4, !elem_of_app. by left; left.
Qed.

Lemma writable_roots_add unreadable missing_metadata allowed ws b b' :
  try_foldl (append_writable_root unreadable missing_metadata allowed) b ws = Ok b' →
  ∃ mss, adds b b' (concat mss) ∧ Forall2 (λ w ms, root_mounts unreadable missing_metadata allowed w ms b') ws mss.
Proof.
  revert b. induction ws as [|w ws IH]; intros b; simpl.
  { intros [= <-]. exists []. split; [by apply adds_nil|constructor]. }
  destruct (append_writable_root unreadable missing_metadata allowed b w) as [b1|] eqn:E; [|done].
  apply writable_root_adds in E as (ms & Ha & Hm). intros (mss & Ha' & Hms)%IH.
  exists (ms :: mss). split; [by eapply adds_trans|]. constructor; [|done].
  by eapply root_mounts_later; [|apply Ha'].
Qed.

(** * All mounts *)

(** A policy that grants writing the whole disk denies no glob: a glob that is
    denied narrows what can be written. *)
Lemma full_write_no_globs p cwd :
  has_full_disk_write_access p = true → get_unreadable_globs_with_cwd p cwd = [].
Proof.
  unfold has_full_disk_write_access, get_unreadable_globs_with_cwd, is_restricted.
  destruct (kind p) eqn:Hk; [|done..]. rewrite bool_decide_eq_true_2 by done. simpl.
  intros [_ Hn]%andb_true_iff. apply negb_true_iff in Hn. unfold has_write_narrowing_entries in Hn.
  unfold is_restricted in Hn. rewrite bool_decide_eq_true_2 in Hn by done. simpl in Hn.
  assert (omap (deny_glob cwd) (deny_entries p) = []) as ->; [|done].
  destruct (omap (deny_glob cwd) (deny_entries p)) as [|g l] eqn:E; [done|exfalso].
  assert (g ∈ omap (deny_glob cwd) (deny_entries p)) as Hg by (rewrite E; apply list_elem_of_here).
  apply list_elem_of_omap in Hg as (e & He & Hg). unfold deny_entries in He.
  apply list_elem_of_filter in He as [Ha He]. apply (existsb_false_elem _ _ e Hn) in He. revert He.
  unfold narrows_write, can_write. unfold deny_glob in Hg.
  assert (entry_access e = Deny) as -> by (try (unfold is_deny in Ha; by apply bool_decide_eq_true in Ha); done).
  by destruct (entry_path e).
Qed.

Lemma existing_roots p cwd ws :
  existing_writable_roots p cwd = Ok ws →
  ∀ w, w ∈ ws ↔ w ∈ get_writable_roots_with_cwd p cwd ∧ path_exists (root w) = true.
Proof.
  unfold existing_writable_roots. destruct (is_nil _ && has_full_disk_write_access p) eqn:E; simpl.
  - apply andb_true_iff in E as [_ Hf]. rewrite (full_write_no_globs p cwd Hf). simpl. intros [= <-] w.
    rewrite list_elem_of_filter. naive_solver.
  - intros [= <-] w. rewrite list_elem_of_filter. naive_solver.
Qed.

(** Effective paths, the roots and their read-only paths are normal. *)
Lemma effective_normal path : normal path → normal (normalize_effective_absolute_path path).
Proof.
  intros Hn. unfold normalize_effective_absolute_path. destruct (head _) as [q|] eqn:Hq; [simpl|done].
  apply head_Some_elem_of, list_elem_of_omap in Hq as (a & _ & Hq). destruct (symlink_metadata a); [|done].
  apply bind_Some in Hq as (na & _ & Hq). apply bind_Some in Hq as (suffix & _ & Hq). by eapply from_absolute_path_normal.
Qed.

Lemma writable_root_normal p cwd w : wf_policy p → w ∈ get_writable_roots_with_cwd p cwd → normal (root w).
Proof.
  intros Hp. unfold get_writable_roots_with_cwd. destruct (has_full_disk_write_access p); [by intros ?%elem_of_nil|].
  intros (q & -> & (q' & Hq & ->)%elem_of_dedup)%list_elem_of_fmap.
  apply elem_of_writable_entry_paths in Hq as (r & Hr & <- & _). by apply effective_normal, (resolved_normal p cwd).
Qed.

Lemma default_subpath_normal root protect s :
  normal root → s ∈ default_read_only_subpaths_for_writable_root root protect → normal s.
Proof.
  intros Hn (q & Hq & ->)%elem_of_dedup. rewrite !elem_of_app in Hq.
  assert (∀ x, normal (abs_join root x)) as Hj by (intros x; by apply abs_join_normal).
  destruct Hq as [Hq|[Hq|Hq]]; case_match; rewrite ?list_elem_of_singleton in Hq;
    try (by apply elem_of_nil in Hq); try (by rewrite Hq).
  apply elem_of_app in Hq as [Hq| ->%list_elem_of_singleton]; [|done]. case_match; [|by apply elem_of_nil in Hq].
  destruct (resolve_gitdir_from_file _) as [g|] eqn:Hg; [|by apply elem_of_nil in Hq].
  apply list_elem_of_singleton in Hq as ->. unfold resolve_gitdir_from_file in Hg.
  apply bind_Some in Hg as (contents & _ & Hg). apply bind_Some in Hg as ([prefix raw] & _ & Hg).
  case_match; [done|]. case_match; [done|]. apply bind_Some in Hg as (base & Hbase & Hg). case_match; [|done].
  injection Hg as <-. apply resolve_against_base_normal, normal_is_absolute.
  pose proof (normal_pop _ (Hj (path_new (lit ".git")))) as Hpop. unfold path_pop in Hpop. by rewrite Hbase in Hpop.
Qed.

Lemma read_only_subpath_normal p cwd q s :
  wf_policy p → normal q → s ∈ read_only_subpaths (writable_root_of p cwd q) → normal s.
Proof.
  intros Hp Hn (s' & Hs & ->)%elem_of_dedup. apply elem_of_app in Hs as [[_ Hs]%list_elem_of_filter|Hs].
  { by eapply default_subpath_normal. }
  apply list_elem_of_omap in Hs as (r & [_ Hr]%list_elem_of_filter & Hc). pose proof (resolved_normal p cwd r Hp Hr) as Hrn.
  unfold carveout in Hc. destruct (raw_carveout_path _ _ _) as [raw|] eqn:E.
  - injection Hc as <-. unfold raw_carveout_path in E. destruct (parent q); [|done]. case_match; [done|].
    case_match; [by injection E as <-|]. apply head_Some_elem_of, list_elem_of_omap in E as (raw_root & _ & E).
    apply bind_Some in E as (suffix & _ & E). case_match; [done|]. injection E as <-. by apply abs_join_normal.
  - case_match; [done|]. injection Hc as <-. by apply effective_normal.
Qed.

(** No entry of the policy goes through a link. *)
Definition no_links p cwd : Prop :=
  ∀ r, r ∈ resolved_entries_with_cwd p cwd → canonical_target_if_symlinked_path (resolved_path r) = None.

(** The writable root of an entry. *)
Lemma writable_root_entry p cwd w :
  effective p cwd → w ∈ get_writable_roots_with_cwd p cwd →
  ∃ r, r ∈ resolved_entries_with_cwd p cwd ∧ w = writable_root_of p cwd (resolved_path r)
       ∧ resolved_access r = Write ∧ can_write_path_with_cwd p (resolved_path r) cwd = true.
Proof.
  intros He. unfold get_writable_roots_with_cwd.
  destruct (has_full_disk_write_access p); [by intros ?%elem_of_nil|].
  intros (q & -> & (q' & Hq & ->)%elem_of_dedup)%list_elem_of_fmap.
  apply elem_of_writable_entry_paths in Hq as (r & Hr & <- & Ha & Hc). exists r. by rewrite (He r Hr).
Qed.

(** What the mounts everything else is put on show of the host: the whole disk, a
    readable path (the place it leads to, inside a writable root), a platform default. *)
Definition shown_from p cwd (ws : list WritableRoot) (q : Path) : Prop :=
  q = [RootDir] ∧ has_full_disk_read_access p = true
  ∨ (∃ r, r ∈ resolved_entries_with_cwd p cwd ∧ can_read (resolved_access r) = true
          ∧ can_read_path_with_cwd p (resolved_path r) cwd = true
          ∧ (q = resolved_path r
             ∨ (∃ w, w ∈ ws ∧ root w `prefix_of` resolved_path r)
               ∧ canonical_target_if_symlinked_path (resolved_path r) = Some q))
  ∨ (∃ d, d ∈ platform_default_read_roots p
          ∧ (q = d ∨ canonical_target_if_symlinked_path d = Some q)).

Lemma readable_root_entry p cwd q :
  effective p cwd → q ∈ get_readable_roots_with_cwd p cwd →
  ∃ r, r ∈ resolved_entries_with_cwd p cwd ∧ resolved_path r = q ∧ can_read (resolved_access r) = true
       ∧ can_read_path_with_cwd p q cwd = true.
Proof.
  intros He. unfold get_readable_roots_with_cwd. destruct (has_full_disk_read_access p); [by intros ?%elem_of_nil|].
  intros (q' & (r & -> & [[Ha Hc] Hr]%list_elem_of_filter)%list_elem_of_fmap & ->)%elem_of_dedup.
  exists r. by rewrite (He r Hr).
Qed.

Lemma platform_roots_below d p : d ∈ platform_default_read_roots p → d ≠ [RootDir].
Proof.
  unfold platform_default_read_roots. destruct (include_platform_defaults p); [|by intros ?%elem_of_nil].
  intros [_ Hd]%list_elem_of_filter. assert (Forall (λ q, q ≠ [RootDir]) (path_new <$> LINUX_PLATFORM_DEFAULT_READ_ROOTS)) as Hf.
  { by apply (bool_decide_unpack _); vm_compute. }
  rewrite Forall_forall in Hf. by apply Hf.
Qed.

Lemma base_mounts p cwd ws :
  effective p cwd →
  ∃ base, base_args p cwd ws = base ≫= render
          ∧ ∀ m, m ∈ base → is_host m = true → ∃ q, m = HostMount false q ∧ shown_from p cwd ws q.
Proof.
  intros He. unfold base_args.
  assert (∃ base, root_args (lit "--ro-bind") = base ≫= render
            ∧ ∀ m, m ∈ base → is_host m = true → m = HostMount false [RootDir]) as (full & Hfull & Hone).
  { exists [HostMount false [RootDir]; DevMount [RootDir; Normal (lit "dev")]]. split; [done|].
    intros m. rewrite !elem_of_cons, elem_of_nil. by intros [->|[->|[]]]. }
  destruct (has_full_disk_read_access p) eqn:Hf.
  { exists full. split; [done|]. intros m Hm Hh. exists [RootDir]. split; [by apply Hone|by left]. }
  set (roots := foldl _ [] _).
  assert (∀ q, q ∈ roots → q ∈ get_readable_roots_with_cwd p cwd ∨ q ∈ platform_default_read_roots p) as Hroots.
  { intros q [Hq|?%elem_of_nil]%elem_of_set_of; [|done]. by apply elem_of_app. }
  destruct (existsb _ roots) eqn:Hroot.
  { exists full. split; [done|]. intros m Hm Hh. exists [RootDir]. split; [by apply Hone|right; left].
    apply existsb_elem in Hroot as (q & Hq & Heq%bool_decide_eq_true).
    change (path_new (lit "/")) with [RootDir] in Heq. subst q.
    destruct (Hroots _ Hq) as [Hr|Hd]; [|by apply platform_roots_below in Hd].
    apply readable_root_entry in Hr as (r & Hr & Hq' & ? & ?); [|done]. exists r. rewrite Hq'. split_and!; [done..|by left]. }
  set (l := filter _ roots).
  exists ([TmpfsMount None [RootDir]; DevMount [RootDir; Normal (lit "dev")]]
          ++ (HostMount false ∘ readable_mount_root ws <$> l)). split.
  { rewrite bind_app, list_fmap_bind. done. }
  intros m [Hm|Hm]%elem_of_app Hh.
  { rewrite !elem_of_cons, elem_of_nil in Hm. by destruct Hm as [->|[->|[]]]. }
  apply list_elem_of_fmap in Hm as (q & -> & [_ Hq]%list_elem_of_filter). simpl.
  exists (readable_mount_root ws q). split; [done|]. unfold readable_mount_root.
  destruct (Hroots q Hq) as [Hr|Hd].
  - apply readable_root_entry in Hr as (r & Hr & <- & ? & ?); [|done]. right; left. exists r. split_and!; [done..|].
    destruct (existsb _ ws) eqn:Hw; [|by left].
    destruct (canonical_target_if_symlinked_path (resolved_path r)) as [q|]; [right|by left].
    split; [|done]. apply existsb_elem in Hw as (w & ? & ?%path_starts_with_true). by exists w.
  - right; right. exists q. split; [done|]. case_match; [|by left].
    destruct (canonical_target_if_symlinked_path q) as [t|]; [by right|by left].
Qed.
(** When the arguments are built, the guard has passed every read-only path and
    every path to hide. *)
Lemma masked_paths_guarded p cwd depth b ws us :
  existing_writable_roots p cwd = Ok ws → unreadable_roots_to_mask p cwd depth = Ok us →
  create_filesystem_args p cwd depth = Ok b →
  let allowed := allowed_write_paths_of ws in
  (∀ w s, w ∈ ws →
     s ∈ read_only_subpaths_to_mount us (missing_auto_metadata_read_only_project_root_subpaths p cwd) w
         ++ nested_unreadable_roots us w →
     first_writable_symlink_component_in_path s allowed = None)
  ∧ ∀ u, u ∈ us → is_within_allowed_write_paths u allowed = false →
         first_writable_symlink_component_in_path u allowed = None.
Proof.
  intros Hws Hus Hb allowed. unfold create_filesystem_args in Hb. rewrite Hws, Hus in Hb. fold allowed in Hb.
  assert (∀ l b b', try_foldl (λ b u, append_unreadable_root_args b u allowed) b l = Ok b' →
            ∀ u, u ∈ l → first_writable_symlink_component_in_path u allowed = None) as Hmask.
  { induction l as [|v l IH]; intros b1 b2; simpl; [by intros _ u ?%elem_of_nil|].
    destruct (append_unreadable_root_args b1 v allowed) as [b3|] eqn:E; [|done].
    intros Hl u [->|Hu]%elem_of_cons; [|by eapply IH]. unfold append_unreadable_root_args in E.
    by destruct (first_writable_symlink_component_in_path v allowed). }
  assert (∀ l b b', try_foldl (λ b s, append_read_only_subpath_args b s allowed) b l = Ok b' →
            ∀ s, s ∈ l → first_writable_symlink_component_in_path s allowed = None) as Hro.
  { induction l as [|v l IH]; intros b1 b2; simpl; [by intros _ u ?%elem_of_nil|].
    destruct (append_read_only_subpath_args b1 v allowed) as [b3|] eqn:E; [|done].
    intros Hl u [->|Hu]%elem_of_cons; [|by eapply IH]. unfold append_read_only_subpath_args in E.
    by destruct (first_writable_symlink_component_in_path v allowed). }
  destruct (try_foldl _ (mkArgs _ _ _ _) _) as [b1|] eqn:E1; [|done].
  destruct (try_foldl _ b1 _) as [b2|] eqn:E2; [|done]. split.
  - intros w s Hw Hs. apply (elem_of_sort_by (λ v w, by_depth (root v) (root w))) in Hw. revert E2 Hw.
    clear -Hs Hmask Hro. set (l := sort_by _ ws). clearbody l. revert b1.
    induction l as [|v l IH]; intros b1; simpl; [by intros _ ?%elem_of_nil|].
    destruct (append_writable_root _ _ _ b1 v) as [b3|] eqn:E; [|done]. intros Hl [->|Hw]%elem_of_cons; [|by eapply IH].
    unfold append_writable_root in E. destruct (try_foldl _ _ _) as [b4|] eqn:E4 in E; [|done].
    apply elem_of_app in Hs as [Hs|Hs]; [eapply Hro|eapply Hmask]; try eassumption; by apply elem_of_sort_by.
  - intros u Hu Hw. destruct (is_above allowed u) eqn:Ha; [eapply (Hmask _ _ _ E1)|eapply (Hmask _ _ _ Hb)];
      by apply elem_of_sort_by, list_elem_of_filter.
Qed.

(** Where a root that exists is mounted: at a place that exists, is reached through
    no link, and can be written. *)
Lemma mount_root_there w :
  normal (root w) → path_exists (root w) = true → normal (mount_root w) ∧ path_exists (mount_root w) = true.
Proof.
  intros Hn Hex. unfold mount_root. destruct (canonical_target_if_symlinked_path (root w)) as [t|] eqn:E; [|done].
  apply canonical_target_Some in E as (Hc & _); [|done]. by destruct (canonical_path _ _ Hc) as (? & _ & ? & _).
Qed.




(** The mounts of a policy: what everything is put on, the hidden paths above
    writable roots, each writable root, and the hidden paths apart from them. *)
Lemma filesystem_mounts p cwd depth b :
  effective p cwd → create_filesystem_args p cwd depth = Ok b →
  ∃ ws us base above mss rest,
    existing_writable_roots p cwd = Ok ws ∧ unreadable_roots_to_mask p cwd depth = Ok us
    ∧ args b = (base ++ above ++ concat mss ++ rest) ≫= render
    ∧ (∀ m, m ∈ base → is_host m = true → ∃ q, m = HostMount false q ∧ shown_from p cwd ws q)
    ∧ hiding above ∧ hiding rest
    ∧ (∀ u, u ∈ us → path_exists u = true →
         (∃ w, w ∈ ws ∧ (root w `prefix_of` u ∨ mount_root w `prefix_of` u)) ∨ masks above u ∨ masks rest u)
    ∧ (∀ w, w ∈ ws → masks (concat mss) (mount_root w))
    ∧ (∀ ms, ms ∈ mss → ∃ w, w ∈ ws
         ∧ root_mounts us (missing_auto_metadata_read_only_project_root_subpaths p cwd)
             (allowed_write_paths_of ws) w ms b).
Proof.
  intros He. unfold create_filesystem_args.
  destruct (existing_writable_roots p cwd) as [ws|] eqn:Hws; [|done].
  destruct (unreadable_roots_to_mask p cwd depth) as [us|] eqn:Hus; [|done].
  set (allowed := allowed_write_paths_of ws). destruct (base_mounts p cwd ws He) as (base & Hbase & Hb).
  destruct (try_foldl _ (mkArgs _ _ _ _) _) as [b1|] eqn:E1; [|done].
  destruct (try_foldl _ b1 _) as [b2|] eqn:E2; [|done]. intros E3.
  apply all_unreadable_adds in E1 as (above & [A1 T1] & Ha1 & Hm1).
  apply writable_roots_add in E2 as (mss & [A2 T2] & Hms).
  apply all_unreadable_adds in E3 as (rest & [A3 T3] & Ha3 & Hm3).
  exists ws, us, base, above, mss, rest. split_and!; try done.
  - rewrite A3, A2, A1. cbn [args]. rewrite Hbase, !bind_app, !app_assoc. done.
  - intros u Hu Hex. destruct (is_within_allowed_write_paths u allowed) eqn:Hw.
    { left. apply existsb_elem in Hw as (q & Hq & Hp%path_starts_with_true).
      apply elem_of_allowed in Hq as (w & Hw & Hq). exists w. split; [done|]. unfold mount_root.
      destruct Hq as [->|Hq]; [by left|right]. by rewrite Hq. }
    right. destruct (is_above allowed u) eqn:Hab; [left; apply Hm1|right; apply Hm3]; try (by left);
      unfold unreadable_ancestors, rootless_unreadable_roots; by apply elem_of_sort_by, list_elem_of_filter.
  - intros w Hw. apply (elem_of_sort_by (λ v w, by_depth (root v) (root w))) in Hw.
    apply list_elem_of_lookup in Hw as [i Hi]. eapply Forall2_lookup_l in Hms as (ms & Hi' & Hm); [|done].
    destruct Hm as (dirs & ro & hidden & -> & _). exists (HostMount true (mount_root w)), (mount_root w).
    split_and!; [|done..]. apply list_elem_of_In, in_concat. eexists. split.
    + apply list_elem_of_In. by eapply list_elem_of_lookup_2.
    + apply list_elem_of_In. set_solver.
  - intros ms Hin. apply list_elem_of_lookup in Hin as [i Hi].
    eapply Forall2_lookup_r in Hms as (w & Hi' & Hm); [|done]. exists w.
    split; [by eapply elem_of_sort_by, list_elem_of_lookup_2|]. by eapply root_mounts_later.
Qed.

(** Where a path lies, among the mounts of a policy. *)
Lemma mount_of_concat mss path m :
  mount_of (concat mss) path = Some m → ∃ ms, ms ∈ mss ∧ mount_of ms path = Some m.
Proof.
  induction mss as [|ms mss IH]; cbn [concat]; [done|]. rewrite mount_of_app.
  destruct (mount_of (concat mss) path) as [m'|]; [|intros Hm; exists ms; split; [apply list_elem_of_here|done]].
  intros [= ->]. destruct (IH eq_refl) as (ks & ? & ?). exists ks. split; [by apply list_elem_of_further|done].
Qed.

Lemma hiding_mount ms path m : hiding ms → mount_of ms path = Some m → is_host m = false.
Proof. intros Hh [Hm _]%mount_of_Some. rewrite Forall_forall in Hh. by apply Hh. Qed.
(** ** Writing *)

Lemma metadata_path r n :
  normal r → n ∈ PROTECTED_METADATA_PATH_NAMES → path_join r (path_new n) = r ++ [Normal n].
Proof.
  intros Hr Hn. destruct (protected_name_path n Hn) as [-> _]. destruct Hr as (rest & -> & _). done.
Qed.

Lemma elem_of_metadata_masks ro r mount_root names s :
  s ∈ append_metadata_path_masks_for_writable_root ro r mount_root names ↔
  s ∈ ro ∨ ∃ n, n ∈ names ∧ should_leave_missing_git_for_parent_repo_discovery mount_root n = false
                ∧ s = path_join r (path_new n).
Proof.
  unfold append_metadata_path_masks_for_writable_root. revert ro.
  induction names as [|n names IH]; intros ro; simpl.
  { split; [by left|]. by intros [?|(? & ?%elem_of_nil & _)]. }
  assert (∀ P : str → Prop, (∃ m, m ∈ n :: names ∧ P m) ↔ P n ∨ ∃ m, m ∈ names ∧ P m) as Hex.
  { intros P. setoid_rewrite elem_of_cons. clear. naive_solver. }
  rewrite Hex, IH. clear IH Hex.
  destruct (should_leave_missing_git_for_parent_repo_discovery mount_root n) eqn:E;
    rewrite ?elem_of_push_absent; intuition congruence.
Qed.

Lemma elem_of_read_only_to_mount us missing_metadata w s :
  s ∈ read_only_subpaths_to_mount us missing_metadata w ↔
  ∃ s0, s = moved w s0
        ∧ (s0 ∈ read_only_subpaths w ∧ s0 ∉ us ∧ s0 ∉ missing_metadata
           ∨ ∃ n, n ∈ protected_metadata_names w
                  ∧ should_leave_missing_git_for_parent_repo_discovery (mount_root w) n = false
                  ∧ s0 = path_join (root w) (path_new n)).
Proof.
  unfold read_only_subpaths_to_mount. fold (mount_root w).
  set (masks := append_metadata_path_masks_for_writable_root _ _ _ _).
  assert (s ∈ match canonical_target_if_symlinked_path (root w) with
              | Some target => remap_paths_for_symlink_target masks (root w) target
              | None => masks
              end ↔ ∃ s0, s = moved w s0 ∧ s0 ∈ masks) as ->.
  { unfold moved. destruct (canonical_target_if_symlinked_path (root w)); [apply list_elem_of_fmap|naive_solver]. }
  apply exist_proper. intros s0. unfold masks. rewrite elem_of_metadata_masks, list_elem_of_filter. naive_solver.
Qed.

(** A path on a mount of a writable root that shows the host: nothing hides it,
    and it is on the root itself, with no read-only path above, or on one of the
    read-only paths. *)
Lemma root_mounts_host us missing_metadata allowed w ms b path m :
  root_mounts us missing_metadata allowed w ms b → mount_of ms path = Some m → is_host m = true →
  (∀ u, u ∈ us → root w `prefix_of` u → moved w u `prefix_of` path →
        ¬ (path_exists (moved w u) = true ∨ normal (moved w u) ∧ under_allowed allowed (moved w u)))
  ∧ ((m = HostMount true (mount_root w) ∧ mount_root w `prefix_of` path
      ∧ ∀ s, s ∈ read_only_subpaths_to_mount us missing_metadata w → normal s → under_allowed allowed s →
             ¬ s `prefix_of` path)
     ∨ ∃ s, s ∈ read_only_subpaths_to_mount us missing_metadata w ∧ m = HostMount false s ∧ s `prefix_of` path).
Proof.
  intros (dirs & ro & hidden & -> & Hdirs & Hro & Hhid & Hrc & Huc & _) Hm Hh. revert Hm.
  rewrite mount_of_app, (app_assoc [_] ro hidden : HostMount true (mount_root w) :: ro ++ hidden = _), !mount_of_app.
  destruct (mount_of hidden path) as [m'|] eqn:Eh.
  { intros [= ->]. by rewrite (hiding_mount _ _ _ Hhid Eh) in Hh. }
  apply mount_of_None in Eh. intros Hm. split.
  { intros u Hu Hpre Hup Hc. by eapply Eh, masks_below; [apply Huc|]. }
  destruct (mount_of ro path) as [m'|] eqn:Er.
  - injection Hm as ->. right. apply mount_of_Some in Er as [Hin (q & Hq & Hqp)].
    destruct (Hro m Hin Hh) as (s & Hs & ->). exists s. by injection Hq as ->.
  - apply mount_of_None in Er. left. destruct (mount_of [HostMount true (mount_root w)] path) as [m'|] eqn:Eb.
    + injection Hm as ->. apply mount_of_Some in Eb as [->%list_elem_of_singleton (q & [= <-] & Hq)].
      split_and!; [done..|]. intros s Hs Hn Hal Hsp. by eapply Er, masks_below; [apply Hrc|].
    + exfalso. apply mount_of_Some in Hm as [Hin (q & Hq & _)]. rewrite Forall_forall in Hdirs.
      by rewrite (Hdirs m Hin) in Hq.
Qed.

Lemma mount_of_segments p cwd ws base above mss rest path m :
  (∀ m, m ∈ base → is_host m = true → ∃ q, m = HostMount false q ∧ shown_from p cwd ws q) →
  hiding above → hiding rest → is_host m = true →
  mount_of (base ++ above ++ concat mss ++ rest) path = Some m →
  ¬ masks rest path
  ∧ ((∃ ms, ms ∈ mss ∧ mount_of ms path = Some m)
     ∨ ¬ masks (concat mss) path ∧ ¬ masks above path
       ∧ ∃ q, m = HostMount false q ∧ q `prefix_of` path ∧ shown_from p cwd ws q).
Proof.
  intros Hbase Ha Hr Hh. rewrite !mount_of_app.
  destruct (mount_of rest path) as [m'|] eqn:Er.
  { intros [= ->]. by rewrite (hiding_mount _ _ _ Hr Er) in Hh. }
  apply mount_of_None in Er.
  destruct (mount_of (concat mss) path) as [m'|] eqn:Ec.
  { intros [= ->]. split; [done|]. left. by apply mount_of_concat. }
  apply mount_of_None in Ec. destruct (mount_of above path) as [m'|] eqn:Ea.
  { intros [= ->]. by rewrite (hiding_mount _ _ _ Ha Ea) in Hh. }
  apply mount_of_None in Ea. intros [Hm (q & Hq & Hqp)]%mount_of_Some. split; [done|]. right.
  split_and!; [done..|]. destruct (Hbase m Hm Hh) as (q' & -> & Hs). exists q'. by injection Hq as ->.
Qed.

Lemma existing_root_there p cwd ws w :
  wf_policy p → effective p cwd → existing_writable_roots p cwd = Ok ws → w ∈ ws →
  ∃ r, r ∈ resolved_entries_with_cwd p cwd ∧ w = writable_root_of p cwd (resolved_path r) ∧ resolved_access r = Write
       ∧ can_write_path_with_cwd p (resolved_path r) cwd = true ∧ normal (root w) ∧ path_exists (root w) = true.
Proof.
  intros Hp He Hws Hw. apply (existing_roots p cwd ws Hws) in Hw as [Hw Hex].
  destruct (writable_root_entry p cwd w He Hw) as (r & Hr & -> & Ha & Hc). exists r.
  split_and!; [done..| |done]. by apply (resolved_normal p cwd).
Qed.

Lemma normal_rest path q rest : normal path → q ≠ [] → path = q ++ rest → Forall is_name rest.
Proof.
  intros (names & -> & Hn) Hq Hrest. destruct q as [|c q]; [done|]. injection Hrest as _ ->.
  by apply Forall_app in Hn as [_ ?].
Qed.

Lemma normal_not_nil path : normal path → path ≠ [].
Proof. by intros (names & -> & _). Qed.

(** ** Reading *)





(** Every read-only path of a writable root lies inside it. *)
Definition carve_outs_inside p cwd : Prop :=
  ∀ w s, w ∈ get_writable_roots_with_cwd p cwd → s ∈ read_only_subpaths w → root w `prefix_of` s.

(** What the mounts of a root show lies below the place where the root is mounted, and
    no path to hide covers it. *)
Lemma root_shows p cwd ws us missing_metadata w ms b path m :
  wf_policy p → effective p cwd → carve_outs_inside p cwd → existing_writable_roots p cwd = Ok ws → w ∈ ws →
  root_mounts us missing_metadata (allowed_write_paths_of ws) w ms b →
  normal path → mount_of ms path = Some m → is_host m = true →
  ∃ k, path = mount_root w ++ k ∧ Forall is_name k
       ∧ ∀ j, j `prefix_of` k → path_exists (mount_root w ++ j) = true → root w ++ j ∉ us.
Proof.
  intros Hp He Hself Hws Hw Hroot Hn Hm Hh.
  destruct (existing_root_there p cwd ws w Hp He Hws Hw) as (r & Hr & Heqw & _ & _ & Hrn & Hex).
  destruct (mount_root_there w Hrn Hex) as [Hmn _]. assert (w ∈ get_writable_roots_with_cwd p cwd) as Hwr.
  { by apply (existing_roots p cwd ws Hws). }
  destruct (root_mounts_host _ _ _ _ _ _ _ _ Hroot Hm Hh) as [Hhid Hwhere].
  assert (mount_root w `prefix_of` path) as [k ->].
  { destruct Hwhere as [(_ & ? & _)|(s & (s0 & -> & Hs)%elem_of_read_only_to_mount & _ & Hsp)]; [done|].
    etrans; [|exact Hsp]. assert (∃ j, Forall is_name j ∧ s0 = root w ++ j) as (j & Hj & ->).
    { destruct Hs as [(Hs & _)|(n & Hnn & _ & ->)].
      - destruct (Hself w s0 Hwr Hs) as [j ->]. exists j. split; [|done].
        apply (normal_rest (root w ++ j) (root w)); [|by apply normal_not_nil|done].
        rewrite Heqw in Hs |- *. eapply read_only_subpath_normal; [done| |exact Hs]. by apply (resolved_normal p cwd).
      - exists [Normal n]. split; [by repeat constructor|]. rewrite Heqw in Hnn. apply list_elem_of_filter in Hnn as [_ Hnn].
        by rewrite metadata_path. }
    rewrite moved_below by done. by eexists. }
  pose proof (normal_rest _ _ _ Hn (normal_not_nil _ Hmn) eq_refl) as Hk. exists k. split_and!; [done..|].
  intros j Hj Hje Hu. assert (Forall is_name j) as Hjn by (destruct Hj as [i ->]; by apply Forall_app in Hk as [? _]).
  eapply (Hhid (root w ++ j)); [done|by eexists|..]; rewrite moved_below by done; [by apply prefix_app|by left].
Qed.




(** ** Globs *)

Lemma masked_matches p cwd depth us ex u :
  unreadable_roots_to_mask p cwd depth = Ok us →
  expand_unreadable_globs_with_ripgrep (get_unreadable_globs_with_cwd p cwd) cwd depth = Ok ex → u ∈ ex → u ∈ us.
Proof.
  unfold unreadable_roots_to_mask. intros Hus Hex Hu. rewrite Hex in Hus. injection Hus as <-.
  rewrite elem_of_dedup_paths, elem_of_sort_by, elem_of_app. by right.
Qed.

(** The matches of denied globs are hidden: of what the scan of the disk found,
    nothing is seen through the mounts, at it or below it, unless a writable root
    below the match contains it; provided that no path of the policy leads through a
    link and no read-only path of a writable root lies outside of it. *)
Theorem glob_matches_are_hidden p cwd depth b ex :
  wf_policy p → effective p cwd → no_links p cwd → carve_outs_inside p cwd →
  expand_unreadable_globs_with_ripgrep (get_unreadable_globs_with_cwd p cwd) cwd depth = Ok ex →
  create_filesystem_args p cwd depth = Ok b →
  ∃ ms, args b = ms ≫= render ∧ ∀ u path, u ∈ ex → normal path → path_exists u = true → u `prefix_of` path →
    (∀ w, w ∈ get_writable_roots_with_cwd p cwd → root w `prefix_of` path → root w `prefix_of` u) →
    ∀ m, mount_of ms path = Some m → is_host m = false.
Proof.
  intros Hp He Hl Hself Hexp Hb.
  destruct (filesystem_mounts p cwd depth b He Hb) as
    (ws & us & base & above & mss & rest & Hws & Hus & Hargs & Hbase & Ha & Hrest & Hcov & Hbinds & Hmss).
  assert (∀ w, w ∈ ws → w ∈ get_writable_roots_with_cwd p cwd ∧ mount_root w = root w) as Hplain.
  { intros w Hw. destruct (existing_root_there p cwd ws w Hp He Hws Hw) as (r & Hr & Heqw & _).
    split; [by apply (existing_roots p cwd ws Hws)|]. unfold mount_root. rewrite Heqw at 2. simpl. by rewrite (Hl r Hr), Heqw. }
  exists (base ++ above ++ concat mss ++ rest). split; [done|]. intros u path Hu Hn Hex Hup Hdeep m Hm.
  assert (u ∈ us) as Huus by by eapply masked_matches.
  destruct (is_host m) eqn:Hh; [exfalso|done]. apply (mount_of_segments p cwd ws) in Hm; [|done..].
  destruct Hm as [Hnr [(ms & Hin & Hm)|(Hnc & Hna & _)]].
  - destruct (Hmss ms Hin) as (w & Hw & Hroot). destruct (Hplain w Hw) as [Hwr Hmr].
    destruct (root_shows p cwd ws us (missing_auto_metadata_read_only_project_root_subpaths p cwd) w ms b path m)
      as (k & -> & _ & Hhid); [done..|]. rewrite Hmr in *.
    destruct (Hdeep w Hwr) as [j ->]; [by eexists|]. by apply (Hhid j); [apply prefix_app_inv in Hup|..].
  - destruct (Hcov u) as [(w & Hw & Hwu)|[Hm|Hm]]; [done..| |by eapply Hna, masks_below|by eapply Hnr, masks_below].
    destruct (Hplain w Hw) as [_ Hmr]. apply Hnc. eapply masks_below; [by apply (Hbinds w)|]. rewrite Hmr in *.
    transitivity u; [by destruct Hwu|done].
Qed.

(** ** Links *)

(** Where a writable root can be written: at its path, and where that leads. *)
Definition writable_at w (a : Path) : Prop :=
  a = root w ∨ through_link (root w) ∧ canonicalize (root w) = Some a.

Lemma allowed_writable_at ws a :
  (∀ w, w ∈ ws → normal (root w)) →
  a ∈ allowed_write_paths_of ws ↔ ∃ w, w ∈ ws ∧ writable_at w a.
Proof.
  intros Hn. rewrite elem_of_allowed. split; intros (w & Hw & Ha); exists w; (split; [done|]).
  - destruct Ha as [->|Ha]; [by left|right]. by destruct (canonical_target_Some _ _ (Hn w Hw) Ha) as (? & _ & ?).
  - destruct Ha as [->|[Hl Hc]]; [by left|]. destruct (decide (a = root w)) as [->|Hne]; [by left|right].
    by apply canonical_target_link; [apply Hn|..].
Qed.

(** C39: The command cannot move what the mounts protect.  When the arguments are
    built for a policy with normal paths, take any normal path that is to be mounted
    read-only or hidden in a writable root, or hidden apart from them (where neither a
    writable root nor the place it leads to contains it).  No link on the way to it,
    below the root directory, lies in a writable root or in the place one leads to
    through links. *)
Theorem masked_paths_cross_no_writable_link p cwd depth b ws us :
  wf_policy p →
  existing_writable_roots p cwd = Ok ws → unreadable_roots_to_mask p cwd depth = Ok us →
  create_filesystem_args p cwd depth = Ok b →
  ∀ s, (∃ w, w ∈ ws ∧
          s ∈ read_only_subpaths_to_mount us (missing_auto_metadata_read_only_project_root_subpaths p cwd) w
              ++ nested_unreadable_roots us w)
       ∨ s ∈ us ∧ (∀ w a, w ∈ ws → writable_at w a → ¬ a `prefix_of` s) →
  normal s → ∀ l, l ≠ [] → RootDir :: l `prefix_of` s → is_link (RootDir :: l) →
  ∀ w a, w ∈ ws → writable_at w a → ¬ a `prefix_of` RootDir :: l.
Proof.
  intros Hp Hws Hus Hb s Hs Hn l Hne Hl Hlink w a Hw Ha Hal.
  assert (∀ w, w ∈ ws → normal (root w)) as Hroots.
  { intros v [Hv _]%(existing_roots p cwd ws Hws). by eapply writable_root_normal. }
  destruct (masked_paths_guarded p cwd depth b ws us Hws Hus Hb) as [Hin Hout].
  assert (first_writable_symlink_component_in_path s (allowed_write_paths_of ws) = None) as Hg.
  { destruct Hs as [(v & Hv & Hs)|[Hs Hapart]]; [by apply (Hin v)|]. apply Hout; [done|].
    apply not_true_is_false. intros (q & Hq & Hqs%path_starts_with_true)%existsb_elem.
    apply allowed_writable_at in Hq as (v & Hv & Hvq); [|done]. by apply (Hapart v q). }
  pose proof (no_writable_link s _ l Hn Hg Hne Hl Hlink) as Hwl.
  rewrite (within_allowed (RootDir :: l) a) in Hwl; [done| |exact Hal].
  apply allowed_writable_at; [done|]. by exists w.
Qed.
End spec.
