(* ===== verification/LinuxBwrapExamples.v ===== *)
(** Concrete disks under the mounts of [LinuxBwrap]: witnesses of the theorems,
    and the policies whose mounts do not enforce them. *)

From S2P Require Import Prelude Text Paths Permissions PermissionsSpec SandboxRoots SandboxRootsSpec LinuxBwrap LinuxBwrapSpec.

(** * A disk with at most one link *)

(** Directories and files by their canonical paths, what [rg] finds, and a link. *)
Record Disk := mkDisk {
  directories : list Path; files : list (Path * str); matches : list str; link : option (Path * Path) }.

Definition contents_of (d : Disk) (path : Path) : option str :=
  snd <$> head (filter (λ f, f.1 = path) (files d)).
Definition on_disk (d : Disk) (path : Path) : bool :=
  bool_decide (path ∈ directories d) || bool_decide (is_Some (contents_of d path)).
Definition stat_of (d : Disk) (path : Path) : result LstatError Metadata :=
  if bool_decide (path ∈ directories d) then Ok (mkMetadata Directory 0 0 0)
  else match contents_of d path with
       | Some contents => Ok (mkMetadata RegularFile (N.of_nat (length contents)) 0 0)
       | None => Err NotFound
       end.

(** Where a path leads. *)
Definition follow (d : Disk) (path : Path) : Path :=
  match link d with
  | Some (l, t) => match strip_path_prefix path l with Some rest => t ++ rest | None => path end
  | None => path
  end.
Definition lstat_of (d : Disk) (path : Path) : result LstatError Metadata :=
  if bool_decide (fst <$> link d = Some path) then Ok (mkMetadata Symlink 0 0 0) else stat_of d (follow d path).

Definition disk_host (d : Disk) : Host := {|
  home_dir := None;
  current_dir := Some [RootDir];
  tmpdir_var := None;
  is_dir path := bool_decide (follow d path ∈ directories d);
  is_file path := bool_decide (is_Some (contents_of d (follow d path)));
  path_exists path := on_disk d (follow d path);
  read_file path := contents_of d (follow d path);
  symlink_metadata path := match lstat_of d path with Ok m => Some (is_symlink m) | Err _ => None end;
  canonicalize path := if on_disk d (follow d path) then Some (follow d path) else None
|}.

(** [rg] finds what the disk lists as matches. *)
Definition disk_linux (d : Disk) : @LinuxHost (disk_host d) := {|
  lstat := lstat_of d;
  dir_tree path :=
    if bool_decide (follow d path ∈ directories d)
    then Tree (Ok ((λ q, (path_text q, Entry RegularFile))
                   <$> filter (λ q, parent q = Some (follow d path)) (directories d ++ (files d).*1)))
    else Entry RegularFile;
  run_rg _ := RgExit (Some 0%Z) (join [0%N] (matches d)) [];
  open_dev_null := Ok 3%N;
  build_glob_set matchers := Ok (λ path, existsb (λ matcher, matcher path) matchers)
|}.

(** What is above something on the disk or above the link is there; nothing lies below
    the link itself, and it is apart from where it leads. *)
Definition all_paths (d : Disk) : list Path := directories d ++ (files d).*1.
Definition closed (d : Disk) : bool :=
  forallb (λ path, bool_decide (normal path) && forallb (λ n, on_disk d (take n path)) (seq 1 (length path))) (all_paths d)
  && match link d with
     | None => true
     | Some (l, t) =>
         forallb (λ n, on_disk d (take n l)) (seq 1 (length l - 1))
         && forallb (λ path, negb (path_starts_with path l)) (all_paths d)
         && negb (path_starts_with t l) && negb (path_starts_with l t)
     end.

Lemma on_disk_elem d path : on_disk d path = true ↔ path ∈ all_paths d.
Proof.
  unfold on_disk, all_paths. rewrite orb_true_iff, !bool_decide_eq_true, elem_of_app. apply or_iff_compat_l.
  unfold contents_of. rewrite fmap_is_Some. split.
  - intros [f Hf]. apply list_elem_of_fmap. exists f.
    assert (f ∈ filter (λ f, f.1 = path) (files d)) as Hin.
    { destruct (filter _ _); [done|]. injection Hf as ->. apply list_elem_of_here. }
    apply list_elem_of_filter in Hin as [<- Hin]. done.
  - intros (f & -> & Hf)%list_elem_of_fmap.
    assert (f ∈ filter (λ g, g.1 = f.1) (files d)) as Hin by by apply list_elem_of_filter.
    destruct (filter _ _); [by apply elem_of_nil in Hin|]. by eexists.
Qed.

Section disk.
Context (d : Disk) (Hclosed : closed d = true).

Lemma disk_paths path :
  on_disk d path = true → normal path ∧ ∀ q, q `prefix_of` path → q ≠ [] → on_disk d q = true.
Proof.
  intros Hp%on_disk_elem. unfold closed in Hclosed. apply andb_true_iff in Hclosed as [Hc _].
  rewrite forallb_forall in Hc. apply list_elem_of_In in Hp. specialize (Hc _ Hp).
  apply andb_true_iff in Hc as [Hn Hc]. split; [by apply bool_decide_eq_true in Hn|]. intros q [k ->] Hq.
  rewrite forallb_forall in Hc. specialize (Hc (length q)). rewrite take_app_length in Hc. apply Hc, in_seq.
  rewrite length_app. destruct q; simpl; [done|lia].
Qed.

Lemma disk_link l t :
  link d = Some (l, t) →
  (∀ q, q `prefix_of` l → q ≠ l → q ≠ [] → on_disk d q = true)
  ∧ (∀ path, on_disk d path = true → ¬ l `prefix_of` path) ∧ ¬ l `prefix_of` t ∧ ¬ t `prefix_of` l.
Proof.
  intros Hl. unfold closed in Hclosed. rewrite Hl, !andb_true_iff, !negb_true_iff, !forallb_forall in Hclosed.
  destruct Hclosed as (_ & ((Hab & Hno) & Htl) & Hlt).
  assert (∀ a b, path_starts_with a b = false → ¬ b `prefix_of` a) as Hnot.
  { intros a b Hf Hp%path_starts_with_true. congruence. }
  split_and!; [| |by apply Hnot..].
  - intros q [k Hk] Hne Hq. subst l. specialize (Hab (length q)). rewrite take_app_length in Hab. apply Hab, in_seq.
    destruct k; [by rewrite app_nil_r in Hne|]. rewrite length_app. destruct q; simpl; [done|lia].
  - intros path Hp%on_disk_elem. apply Hnot, negb_true_iff, Hno. by apply list_elem_of_In.
Qed.

Lemma follow_on_disk path : on_disk d path = true → follow d path = path.
Proof.
  intros Hp. unfold follow. destruct (link d) as [[l t]|] eqn:Hl; [|done].
  destruct (strip_path_prefix path l) as [rest|] eqn:E; [|done]. exfalso. apply strip_path_prefix_Some in E.
  destruct (disk_link l t Hl) as (_ & Hno & _). apply (Hno path Hp). by exists rest.
Qed.

(** What is above a path leads to the disk, too. *)
Lemma follow_prefix path q :
  on_disk d (follow d path) = true → q `prefix_of` path → q ≠ [] → on_disk d (follow d q) = true.
Proof.
  unfold follow. destruct (link d) as [[l t]|] eqn:Hl; [|intros ? ?; by eapply disk_paths].
  destruct (disk_link l t Hl) as (Hab & _ & _ & Htl).
  destruct (strip_path_prefix path l) as [rest|] eqn:E.
  - apply strip_path_prefix_Some in E as ->. intros Hon Hq Hne.
    destruct (prefix_weak_total l q (l ++ rest)) as [[k ->]|Hql]; [by eexists|done| |].
    + rewrite (proj2 (strip_path_prefix_Some _ _ k) eq_refl). eapply disk_paths; [exact Hon| |].
      * apply prefix_app. by apply prefix_app_inv in Hq.
      * intros [-> _]%app_eq_nil. apply Htl, prefix_nil.
    + destruct (decide (q = l)) as [->|Hlq].
      * rewrite (proj2 (strip_path_prefix_Some l l []) (eq_sym (app_nil_r l))), app_nil_r.
        eapply disk_paths; [exact Hon|by eexists|]. intros ->. apply Htl, prefix_nil.
      * destruct (strip_path_prefix q l) as [k|] eqn:Ek; [|by apply Hab].
        apply strip_path_prefix_Some in Ek. exfalso. apply Hlq. apply (anti_symm prefix); [done|by exists k].
  - intros Hon Hq Hne. destruct (strip_path_prefix q l) as [k|] eqn:Ek; [|by eapply disk_paths].
    apply strip_path_prefix_Some in Ek as ->. destruct Hq as [j ->]. exfalso.
    assert (strip_path_prefix ((l ++ k) ++ j) l = Some (k ++ j)) by (apply strip_path_prefix_Some; by rewrite app_assoc).
    congruence.
Qed.

Lemma lstat_on_disk path : on_disk d (follow d path) = true → is_ok (lstat_of d path) = true.
Proof.
  unfold lstat_of. case_bool_decide; [done|]. unfold on_disk, stat_of.
  destruct (bool_decide (_ ∈ _)); [done|]. simpl. intros [c Hc]%bool_decide_eq_true. by rewrite Hc.
Qed.

Lemma lstat_of_ok path : is_ok (lstat_of d path) = true → on_disk d (follow d path) = true ∨ fst <$> link d = Some path.
Proof.
  unfold lstat_of. case_bool_decide; [by right|]. unfold on_disk, stat_of. left.
  destruct (bool_decide (_ ∈ _)); [done|]. destruct (contents_of _ _); [|done]. by apply bool_decide_eq_true.
Qed.

Lemma lstat_of_link path m : lstat_of d path = Ok m → is_symlink m = true → fst <$> link d = Some path.
Proof.
  unfold lstat_of. case_bool_decide; [done|]. unfold stat_of.
  destruct (bool_decide _); [by intros [= <-]|]. by destruct (contents_of _ _); [intros [= <-]|].
Qed.

Lemma disk_laws : @LinuxHostLaws (disk_host d) (disk_linux d).
Proof.
  constructor; simpl.
  - done.
  - intros path q Hp Hq Hne. apply lstat_of_ok in Hp as [Hp|Hp]; [by apply lstat_on_disk, (follow_prefix path)|].
    destruct (link d) as [[l t]|] eqn:Hl; [|done]. injection Hp as ->. destruct (decide (q = path)) as [->|Hqp].
    + unfold lstat_of. by rewrite Hl, bool_decide_eq_true_2.
    + apply lstat_on_disk. destruct (disk_link path t Hl) as [Hab _].
      assert (on_disk d q = true) as Hon by by apply Hab. by rewrite follow_on_disk.
  - apply lstat_on_disk.
  - intros path q. apply follow_prefix.
  - intros path q Hq. destruct (on_disk d (follow d path)) eqn:Hon; [|done]. injection Hq as <-.
    split_and!; [by apply disk_paths|done|by rewrite follow_on_disk|]. intros l m Hl Hm. apply not_true_is_false.
    intros Hs. apply (lstat_of_link _ _ Hm) in Hs. destruct (link d) as [[l' t]|] eqn:E; [|done]. injection Hs as ->.
    by apply (disk_link l t E) in Hon.
  - intros path ->. by eexists.
  - intros path _ Hon Hno. rewrite Hon. f_equal. unfold follow. destruct (link d) as [[l t]|] eqn:E; [|done].
    destruct (strip_path_prefix path l) as [rest|] eqn:Es; [|done]. apply strip_path_prefix_Some in Es. exfalso.
    assert (lstat_of d l = Ok (mkMetadata Symlink 0 0 0)) as Hl by (unfold lstat_of; by rewrite E, bool_decide_eq_true_2).
    by specialize (Hno l _ (ex_intro _ rest Es) Hl).
  - intros path q rest Hq _. destruct (on_disk d (follow d path)) eqn:Hon; [|done]. injection Hq as <-.
    assert (follow d (path ++ rest) = follow d (follow d path ++ rest)) as ->; [|done].
    unfold follow at 1 2 3. destruct (link d) as [[l t]|] eqn:E; [|done].
    destruct (strip_path_prefix path l) as [k|] eqn:Ek; [|done]. apply strip_path_prefix_Some in Ek as ->.
    rewrite <- app_assoc, (proj2 (strip_path_prefix_Some _ _ (k ++ rest)) eq_refl), app_assoc.
    destruct (strip_path_prefix ((t ++ k) ++ rest) l) as [j|] eqn:Ej; [|done]. exfalso.
    apply strip_path_prefix_Some in Ej. destruct (disk_link l t E) as (_ & _ & Hlt & Htl).
    destruct (prefix_weak_total t l ((t ++ k) ++ rest)) as [?|?]; [rewrite <- app_assoc; by eexists|by exists j|done..].
Qed.
End disk.

Lemma disk_host_laws d : @HostLaws (disk_host d).
Proof. constructor. by intros ? [= <-]. Qed.

#[local] Instance no_globs : Globs := { build_glob_matcher _ := Ok (λ _, false) }.

Definition at_path (s : string) : Path := path_new (lit s).
Definition path_entry (s : string) (a : FileSystemAccessMode) : FileSystemSandboxEntry :=
  new_entry (FileSystemPath.Path (at_path s)) a.

Lemma normal_entries p :
  forallb (λ e, match entry_path e with FileSystemPath.Path q => bool_decide (normal q) | _ => true end) (entries p) = true →
  wf_policy p.
Proof.
  rewrite forallb_forall. intros Hf. apply Forall_forall. intros e He. specialize (Hf e (proj1 (list_elem_of_In _ _) He)).
  destruct (entry_path e); [by apply bool_decide_eq_true in Hf|done..].
Qed.

(** Whether a path is shown on a mount of the host, and whether it can be written
    there, by the arguments for a policy. *)
Definition args_of (d : Disk) p cwd : list str :=
  match @create_filesystem_args (disk_host d) (disk_linux d) no_globs p cwd None with Ok b => args b | Err _ => [] end.

(** * Witnesses *)

(** A project with a private directory inside, a repository, and notes that some
    glob denies. *)
Definition project : Disk :=
  mkDisk (at_path <$> ["/"; "/w"; "/w/.git"; "/w/private"]%string)
    [(at_path "/w/.git/HEAD", lit "ref"); (at_path "/w/private/key", lit "k"); (at_path "/w/a.secret", lit "s")]
    [lit "/w/a.secret"] None.
Definition project_policy : FileSystemSandboxPolicy :=
  restricted [new_entry (FileSystemPath.Special FileSystemSpecialPath.Root) Read;
              new_entry (FileSystemPath.Special (FileSystemSpecialPath.ProjectRoots None)) Write;
              path_entry "/w/private" Deny;
              new_entry (FileSystemPath.GlobPattern (lit "/w/*.secret")) Deny].

Example project_mounts :
  args_of project project_policy (at_path "/w")
  = lit <$> ["--ro-bind"; "/"; "/"; "--dev"; "/dev"; "--bind"; "/w"; "/w";
             "--ro-bind"; "/w/.git"; "/w/.git"; "--perms"; "555"; "--tmpfs"; "/w/.codex"; "--remount-ro"; "/w/.codex";
             "--perms"; "555"; "--tmpfs"; "/w/.agents"; "--remount-ro"; "/w/.agents";
             "--perms"; "000"; "--ro-bind-data"; "3"; "/w/a.secret";
             "--perms"; "000"; "--tmpfs"; "/w/private"; "--remount-ro"; "/w/private"]%string.
Proof. vm_compute. reflexivity. Qed.

Section project.
#[local] Existing Instance no_globs.
#[local] Instance host : Host := disk_host project.
#[local] Instance linux : LinuxHost := disk_linux project.
#[local] Instance linux_laws : LinuxHostLaws.
Proof. apply disk_laws. vm_compute. done. Defined.
#[local] Instance host_laws : HostLaws := disk_host_laws project.

Lemma project_wf : wf_policy project_policy.
Proof. apply normal_entries. vm_compute. done. Defined.

Lemma project_effective : effective project_policy (at_path "/w").
Proof.
  intros r Hr. apply (Forall_forall (λ r, normalize_effective_absolute_path (resolved_path r) = resolved_path r)
    (resolved_entries_with_cwd project_policy (at_path "/w"))); [|done].
  apply (bool_decide_unpack _). vm_compute. done.
Defined.

Lemma project_no_links : no_links project_policy (at_path "/w").
Proof.
  intros r Hr. apply (Forall_forall (λ r, canonical_target_if_symlinked_path (resolved_path r) = None)
    (resolved_entries_with_cwd project_policy (at_path "/w"))); [|done].
  apply (bool_decide_unpack _). vm_compute. done.
Defined.

Lemma project_roots : carve_outs_inside project_policy (at_path "/w").
Proof.
  intros w s Hw Hs. apply path_starts_with_true.
  assert (Forall (λ w, Forall (λ s, path_starts_with s (root w) = true) (read_only_subpaths w))
            (get_writable_roots_with_cwd project_policy (at_path "/w"))) as Hf.
  { apply (bool_decide_unpack _). vm_compute. done. }
  rewrite Forall_forall in Hf. specialize (Hf w Hw). rewrite Forall_forall in Hf. by apply Hf.
Defined.

Lemma glob_matches_are_hidden_witness :
  ∃ b ms, create_filesystem_args project_policy (at_path "/w") None = Ok b ∧ args b = ms ≫= render
  ∧ ∀ m, mount_of ms (at_path "/w/a.secret") = Some m → is_host m = false.
Proof.
  destruct (create_filesystem_args project_policy (at_path "/w") None) as [b|e] eqn:Hb;
    [|vm_compute in Hb; discriminate Hb].
  destruct (glob_matches_are_hidden project_policy (at_path "/w") None b [at_path "/w/a.secret"]) as (ms & Hms & Hh);
    [apply project_wf|apply project_effective|apply project_no_links|apply project_roots
    |vm_compute; reflexivity|exact Hb|].
  exists b, ms. split; [reflexivity|]. split; [exact Hms|]. intros m Hm.
  apply (Hh (at_path "/w/a.secret") (at_path "/w/a.secret")) with (m := m);
    [apply list_elem_of_here|apply (bool_decide_unpack _); vm_compute; reflexivity|vm_compute; reflexivity|reflexivity| |exact Hm].
  intros w Hw Hpre. exact Hpre.
Defined.

End project.

(** A project reached through a link, with a private directory, documentation that
    may only be read, and a repository; reading is restricted. *)
Definition linked : Disk :=
  mkDisk (at_path <$> ["/"; "/home"; "/opt"; "/real"; "/real/.git"; "/real/private"; "/real/docs"]%string)
    [(at_path "/real/.git/HEAD", lit "ref"); (at_path "/real/private/key", lit "k")] []
    (Some (at_path "/home/link", at_path "/real")).
Definition linked_policy : FileSystemSandboxPolicy :=
  restricted [path_entry "/opt" Read; path_entry "/home/link" Write; path_entry "/home/link/private" Deny;
              path_entry "/home/link/docs" Read].

Example linked_mounts :
  args_of linked linked_policy (at_path "/home/link")
  = lit <$> ["--tmpfs"; "/"; "--dev"; "/dev"; "--ro-bind"; "/real"; "/real"; "--ro-bind"; "/real/docs"; "/real/docs";
             "--ro-bind"; "/opt"; "/opt"; "--bind"; "/real"; "/real";
             "--ro-bind"; "/real/.git"; "/real/.git"; "--perms"; "555"; "--tmpfs"; "/real/.codex"; "--remount-ro"; "/real/.codex";
             "--ro-bind"; "/real/docs"; "/real/docs"; "--perms"; "555"; "--tmpfs"; "/real/.agents"; "--remount-ro"; "/real/.agents";
             "--perms"; "000"; "--tmpfs"; "/real/private"; "--remount-ro"; "/real/private"]%string.
Proof. vm_compute. reflexivity. Qed.

Section linked.
#[local] Existing Instance no_globs.
#[local] Instance linked_host : Host := disk_host linked.
#[local] Instance linked_linux : LinuxHost := disk_linux linked.
#[local] Instance linked_linux_laws : LinuxHostLaws.
Proof. apply disk_laws. vm_compute. done. Defined.
#[local] Instance linked_host_laws : HostLaws := disk_host_laws linked.





End linked.

(** A hidden path behind a link that is not writable: the link cannot be moved. *)
Definition linked_elsewhere : FileSystemSandboxPolicy :=
  restricted [new_entry (FileSystemPath.Special FileSystemSpecialPath.Root) Read; path_entry "/opt" Write;
              path_entry "/home/link/private" Deny].

Section elsewhere.
#[local] Existing Instances no_globs linked_host linked_linux linked_linux_laws linked_host_laws.

Lemma masked_paths_cross_no_writable_link_witness :
  is_link (at_path "/home/link") ∧ ¬ at_path "/opt" `prefix_of` at_path "/home/link".
Proof.
  split; [by eexists; split; vm_compute|].
  destruct (existing_writable_roots linked_elsewhere (at_path "/opt")) as [ws|e] eqn:Hws; [|vm_compute in Hws; discriminate Hws].
  destruct (unreadable_roots_to_mask linked_elsewhere (at_path "/opt") None) as [us|e] eqn:Hus; [|vm_compute in Hus; discriminate Hus].
  destruct (create_filesystem_args linked_elsewhere (at_path "/opt") None) as [b|e] eqn:Hb; [|vm_compute in Hb; discriminate Hb].
  assert (wf_policy linked_elsewhere) as Hp by (apply normal_entries; vm_compute; done).
  eapply (masked_paths_cross_no_writable_link linked_elsewhere (at_path "/opt") None b ws us Hp Hws Hus Hb
            (at_path "/home/link/private")) with (l := [Normal (lit "home"); Normal (lit "link")]);
    [right; split|apply (bool_decide_unpack _); vm_compute; reflexivity|intros [=]
    |apply path_starts_with_true; vm_compute; reflexivity|eexists; split; vm_compute; reflexivity| |].
  - vm_compute in Hus. injection Hus as <-. apply list_elem_of_here.
  - intros w a Hw Ha Hpre. vm_compute in Hws. injection Hws as <-. apply list_elem_of_singleton in Hw as ->.
    destruct Ha as [->|[_ Ha]]; [|vm_compute in Ha; injection Ha as <-]; apply path_starts_with_true in Hpre;
      vm_compute in Hpre; discriminate Hpre.
  - vm_compute in Hws. injection Hws as <-. apply list_elem_of_here.
  - left. reflexivity.
Defined.
End elsewhere.


(** * Where the mounts do not enforce the policy *)

Definition metadata_masks (dir : string) (names : list string) : list Mount :=
  names ≫= λ n, let q := at_path dir ++ [Normal (lit n)] in [TmpfsMount (Some (lit "555")) q; RemountRo q].

(** Metadata of a project that lies inside a wider writable root: the policy says
    read, but the missing directory is neither covered nor reported. *)
Definition nested_project : Disk := mkDisk (at_path <$> ["/"; "/home"; "/home/p"]%string) [] [] None.
Definition nested_policy : FileSystemSandboxPolicy :=
  restricted [new_entry (FileSystemPath.Special FileSystemSpecialPath.Root) Read;
              path_entry "/home" Write;
              new_entry (FileSystemPath.Special (FileSystemSpecialPath.ProjectRoots (Some (lit ".git")))) Read].
Example missing_project_metadata_can_be_written :
  @resolve_access_with_cwd (disk_host nested_project) nested_policy (at_path "/home/p/.git/hooks") (at_path "/home/p") = Read
  ∧ ∃ ms b, @create_filesystem_args (disk_host nested_project) (disk_linux nested_project) no_globs
              nested_policy (at_path "/home/p") None = Ok b
            ∧ args b = ms ≫= render
            ∧ mount_of ms (at_path "/home/p/.git/hooks") = Some (HostMount true (at_path "/home"))
            ∧ at_path "/home/p/.git" ∉ protected_create_targets b.
Proof.
  split; [vm_compute; reflexivity|].
  exists ([HostMount false (at_path "/"); DevMount (at_path "/dev"); HostMount true (at_path "/home")]
          ++ metadata_masks "/home" [".git"; ".agents"; ".codex"]%string).
  eexists. split; [vm_compute; reflexivity|]. split; [vm_compute; reflexivity|]. split; [vm_compute; reflexivity|].
  apply (bool_decide_unpack _). vm_compute. done.
Qed.

(** A worktree whose [.git] file points into another writable root: the directory
    it points to is mounted again after what it contains was hidden. *)
Definition worktree : Disk :=
  mkDisk (at_path <$> ["/"; "/srv"; "/srv/git"; "/srv/git/keys"; "/home"; "/home/p"]%string)
    [(at_path "/home/p/.git", lit "gitdir: /srv/git")] [] None.
Definition worktree_policy : FileSystemSandboxPolicy :=
  restricted [new_entry (FileSystemPath.Special FileSystemSpecialPath.Root) Read;
              path_entry "/srv" Write; path_entry "/srv/git/keys" Deny; path_entry "/home/p" Write].
Example hidden_path_is_mounted_again :
  @resolve_access_with_cwd (disk_host worktree) worktree_policy (at_path "/srv/git/keys") (at_path "/home/p") = Deny
  ∧ ∃ ms b, @create_filesystem_args (disk_host worktree) (disk_linux worktree) no_globs
              worktree_policy (at_path "/home/p") None = Ok b
            ∧ args b = ms ≫= render
            ∧ mount_of ms (at_path "/srv/git/keys") = Some (HostMount false (at_path "/srv/git")).
Proof.
  split; [vm_compute; reflexivity|].
  exists ([HostMount false (at_path "/"); DevMount (at_path "/dev"); HostMount true (at_path "/srv")]
          ++ metadata_masks "/srv" [".git"; ".agents"; ".codex"]%string
          ++ [TmpfsMount (Some (lit "000")) (at_path "/srv/git/keys"); RemountRo (at_path "/srv/git/keys");
              HostMount true (at_path "/home/p"); HostMount false (at_path "/srv/git");
              HostMount false (at_path "/home/p/.git")]
          ++ metadata_masks "/home/p" [".codex"; ".agents"]%string).
  eexists. split; [vm_compute; reflexivity|]. split; vm_compute; reflexivity.
Qed.

(** Patterns of names right below the root directory are scanned from the root. *)
Example root_level_scan :
  @split_pattern_for_ripgrep (disk_host nested_project) (lit "/data*") (at_path "/home/p") = Some (at_path "/", lit "data*").
Proof. vm_compute. reflexivity. Qed.

(** A second opener in a class that is not closed stays an opener. *)
Example second_opener_is_not_escaped : escape_unclosed_glob_classes (lit "a[b[c") = lit "a\[b[c".
Proof. vm_compute. reflexivity. Qed.

(** A link inside a writable root on the way to a hidden path: no arguments are built. *)
Example writable_link_is_refused :
  let p := restricted [new_entry (FileSystemPath.Special FileSystemSpecialPath.Root) Read; path_entry "/home" Write;
                       path_entry "/home/link/private" Deny] in
  @create_filesystem_args (disk_host linked) (disk_linux linked) no_globs p (at_path "/home") None
  = Err (Fatal (msg_crosses (lit "deny-read") (at_path "/home/link/private") (at_path "/home/link"))).
Proof. vm_compute. reflexivity. Qed.

(** A path that is denied by the place a linked root leads to is never hidden: it
    counts as inside of what can be written, and not as below the root. *)
Definition denied_by_target : FileSystemSandboxPolicy :=
  restricted [new_entry (FileSystemPath.Special FileSystemSpecialPath.Root) Read; path_entry "/home/link" Write;
              path_entry "/real/private" Deny].
Example denied_target_can_be_written :
  @resolve_access_with_cwd (disk_host linked) denied_by_target (at_path "/real/private/key") (at_path "/opt") = Deny
  ∧ ∃ ms b, @create_filesystem_args (disk_host linked) (disk_linux linked) no_globs denied_by_target (at_path "/opt") None = Ok b
            ∧ args b = ms ≫= render
            ∧ mount_of ms (at_path "/real/private/key") = Some (HostMount true (at_path "/real")).
Proof.
  split; [vm_compute; reflexivity|].
  exists ([HostMount false (at_path "/"); DevMount (at_path "/dev"); HostMount true (at_path "/real");
           HostMount false (at_path "/real/.git")]
          ++ metadata_masks "/real" [".agents"; ".codex"]%string).
  eexists. split; [vm_compute; reflexivity|]. split; vm_compute; reflexivity.
Qed.
