(* ===== verification/ExecApproval.v ===== *)
(** Whether a command runs, asks or is refused ([core/src/exec_policy.rs] and
    [core/src/tools/sandboxing.rs], as compiled for Unix): the execution policy
    of [ExecPolicy] is asked about every command of a shell script, the lists
    of [ShellSafety] decide what no rule decides, and the sandbox policy of
    [Permissions] says whether the command may leave the sandbox. *)

From S2P Require Import Prelude Text Paths ShellSyntax ShellSafety Permissions SandboxRoots ExecPolicy.

(** * Requests *)

(** [GranularApprovalConfig] and [AskForApproval] ([protocol/src/protocol.rs]) *)
Record GranularApprovalConfig := mkGranular {
  allows_sandbox_approval : bool;
  allows_rules_approval : bool;
  allows_skill_approval : bool;
  allows_request_permissions : bool;
  allows_mcp_elicitations : bool
}.

#[export] Instance GranularApprovalConfig_eq_dec : EqDecision GranularApprovalConfig.
Proof. solve_decision. Defined.

Module AskForApproval.
Inductive t := UnlessTrusted | OnRequest | Granular (config : GranularApprovalConfig) | Never.
#[export] Instance eq_dec : EqDecision t.
Proof. solve_decision. Defined.
End AskForApproval.
Export (hints) AskForApproval.

(** [SandboxPermissions] ([protocol/src/models.rs]) and its methods *)
Inductive SandboxPermissions := UseDefault | RequireEscalated | WithAdditionalPermissions.

#[export] Instance SandboxPermissions_eq_dec : EqDecision SandboxPermissions.
Proof. solve_decision. Defined.

Definition requires_escalated_permissions (s : SandboxPermissions) : bool :=
  bool_decide (s = RequireEscalated).
Definition requests_sandbox_override (s : SandboxPermissions) : bool := negb (bool_decide (s = UseDefault)).
Definition uses_additional_permissions (s : SandboxPermissions) : bool :=
  bool_decide (s = WithAdditionalPermissions).

(** [WindowsSandboxLevel]; [cfg!(windows)] is false. *)
Inductive WindowsSandboxLevel := WindowsDisabled | RestrictedToken | Elevated.

#[export] Instance WindowsSandboxLevel_eq_dec : EqDecision WindowsSandboxLevel.
Proof. solve_decision. Defined.

Definition cfg_windows : bool := false.

(** [ExecPolicyCommandOrigin]: its other value exists on Windows only. *)
Inductive ExecPolicyCommandOrigin := Generic.

(** [ExecPolicyCommands] and [UnmatchedCommandContext] *)
Record ExecPolicyCommands := mkCommands {
  commands : list (list str);
  used_complex_parsing : bool;
  command_origin : ExecPolicyCommandOrigin
}.

Record UnmatchedCommandContext := mkContext {
  context_approval_policy : AskForApproval.t;
  context_permission_profile : PermissionProfile.t;
  context_windows_sandbox_level : WindowsSandboxLevel;
  context_sandbox_permissions : SandboxPermissions;
  context_used_complex_parsing : bool;
  context_command_origin : ExecPolicyCommandOrigin
}.

(** [ExecApprovalRequest] *)
Record ExecApprovalRequest := mkRequest {
  command : list str;
  approval_policy : AskForApproval.t;
  permission_profile : PermissionProfile.t;
  windows_sandbox_level : WindowsSandboxLevel;
  sandbox_permissions : SandboxPermissions;
  requested_prefix_rule : option (list str)
}.

(** [ExecPolicyAmendment] ([protocol/src/approvals.rs]) *)
Record ExecPolicyAmendment := mkAmendment { amendment_command : list str }.

(** [ExecApprovalRequirement] *)
Module Requirement.
Inductive t :=
| Skip (bypass_sandbox : bool) (proposed_execpolicy_amendment : option ExecPolicyAmendment)
| NeedsApproval (reason : option str) (proposed_execpolicy_amendment : option ExecPolicyAmendment)
| Forbidden (reason : str).

(** [ExecApprovalRequirement::proposed_execpolicy_amendment] *)
Definition proposed_execpolicy_amendment (r : t) : option ExecPolicyAmendment :=
  match r with
  | NeedsApproval _ (Some prefix) | Skip _ (Some prefix) => Some prefix
  | _ => None
  end.
End Requirement.

(** * Reasons *)

Definition PROMPT_CONFLICT_REASON : str :=
  lit "approval required by policy, but AskForApproval is set to Never".
Definition REJECT_SANDBOX_APPROVAL_REASON : str :=
  lit "approval required by policy, but AskForApproval::Granular.sandbox_approval is false".
Definition REJECT_RULES_APPROVAL_REASON : str :=
  lit "approval required by policy rule, but AskForApproval::Granular.rules is false".

(** [is_policy_match] *)
Definition is_policy_match (m : RuleMatch) : bool :=
  match m with PrefixRuleMatch _ _ _ _ => true | HeuristicsRuleMatch _ _ => false end.

(** [prompt_is_rejected_by_policy] *)
Definition prompt_is_rejected_by_policy (approval_policy : AskForApproval.t) (prompt_is_rule : bool) :
    option str :=
  match approval_policy with
  | AskForApproval.Never => Some PROMPT_CONFLICT_REASON
  | AskForApproval.OnRequest | AskForApproval.UnlessTrusted => None
  | AskForApproval.Granular granular_config =>
      if prompt_is_rule then
        if negb (allows_rules_approval granular_config) then Some REJECT_RULES_APPROVAL_REASON else None
      else if negb (allows_sandbox_approval granular_config) then Some REJECT_SANDBOX_APPROVAL_REASON
      else None
  end.

(** [dangerous_command_rejection_reason] and [derive_rejected_prompt_reason] *)
Definition dangerous_command_rejection_reason (m : DangerousCommandMatch) : str :=
  match m with
  | ForcedRm => lit "rm -f style commands are not permitted. Use a safer approach"
  | Other => lit "blocked by policy"
  end.
Definition derive_rejected_prompt_reason (fallback_reason : str) (m : option DangerousCommandMatch) : str :=
  match m with
  | Some ForcedRm => dangerous_command_rejection_reason ForcedRm
  | Some Other | None => fallback_reason
  end.

(** * Suggested prefixes *)

(** [BANNED_PREFIX_SUGGESTIONS], by the program and what may follow it. *)
Definition banned (program : string) (args : list string) : list (list str) :=
  [lit program] :: ((λ arg, [lit program; lit arg]) <$> args).
Definition BANNED_PREFIX_SUGGESTIONS : list (list str) :=
  banned "/bin/bash" ["-c"; "-lc"] ++ banned "/bin/sh" ["-c"; "-lc"] ++ banned "/bin/zsh" ["-c"; "-lc"]
  ++ banned "Rscript" [] ++ banned "bash" ["-c"; "-lc"] ++ banned "bun" ["-e"; "run"]
  ++ banned "cmd" ["/c"; "/k"] ++ banned "cmd.exe" ["/c"; "/k"] ++ banned "dash" ["-c"]
  ++ banned "deno" ["eval"] ++ banned "env" [] ++ banned "fish" ["-c"] ++ banned "git" []
  ++ banned "julia" ["-e"] ++ banned "ksh" ["-c"] ++ banned "lua" ["-e"] ++ banned "node" ["-e"]
  ++ banned "nodejs" ["-e"] ++ [[lit "npm"; lit "run"]] ++ banned "osascript" []
  ++ banned "perl" ["-e"] ++ banned "php" ["-r"] ++ [[lit "pnpm"; lit "run"]]
  ++ banned "powershell" ["-Command"; "-EncodedCommand"; "-File"; "-c"]
  ++ banned "powershell.exe" ["-Command"; "-EncodedCommand"; "-File"; "-c"]
  ++ banned "pwsh" ["-Command"; "-EncodedCommand"; "-File"; "-c"; "-e"; "-ec"; "-f"]
  ++ banned "py" ["-3"] ++ banned "pypy" [] ++ banned "pypy3" [] ++ banned "python" ["-"; "-c"]
  ++ banned "python3" ["-"; "-c"] ++ banned "pythonw" [] ++ banned "pyw" [] ++ banned "rm" []
  ++ banned "ruby" ["-e"] ++ banned "sh" ["-c"; "-lc"] ++ banned "sudo" []
  ++ [[lit "yarn"; lit "run"]] ++ banned "zsh" ["-c"; "-lc"].

(** [try_derive_execpolicy_amendment_for_prompt_rules] and [.._for_allow_rules] *)
Definition heuristics_command (d : Decision) (m : RuleMatch) : option ExecPolicyAmendment :=
  match m with
  | HeuristicsRuleMatch command decision =>
      if decide (decision = d) then Some (mkAmendment command) else None
  | PrefixRuleMatch _ _ _ _ => None
  end.
Definition try_derive_execpolicy_amendment_for_prompt_rules (ms : list RuleMatch) :
    option ExecPolicyAmendment :=
  if existsb (λ m, is_policy_match m && bool_decide (match_decision m = Prompt)) ms then None
  else head (omap (heuristics_command Prompt) ms).
Definition try_derive_execpolicy_amendment_for_allow_rules (ms : list RuleMatch) :
    option ExecPolicyAmendment :=
  if existsb is_policy_match ms then None else head (omap (heuristics_command Allow) ms).

Section approval.
(** [cfg!(target_os = "linux")], the bash parser, and [shlex::try_join]. *)
Context `{HostPaths} (linux : bool) (try_parse_shell : str → option Tree)
        (shlex_try_join : list str → option str).

(** [prefix_rule_would_approve_all_commands]; a panic of the evaluation does
    not happen ([check_with_options_total]). *)
Definition prefix_rule_would_approve_all_commands (policy : Policy) (prefix_rule : list str)
    (commands : list (list str)) (fallback : list str → Decision) (options : MatchOptions) : bool :=
  match add_prefix_rule prefix_rule Allow policy with
  | (_, Err _) => false
  | (policy_with_prefix_rule, Ok _) =>
      forallb (λ command,
        bool_decide (evaluation_decision <$> check_with_options policy_with_prefix_rule command fallback options
                     = Some Allow)) commands
  end.

(** [derive_requested_execpolicy_amendment_from_prefix_rule] *)
Definition derive_requested_execpolicy_amendment_from_prefix_rule (prefix_rule : option (list str))
    (ms : list RuleMatch) (policy : Policy) (commands : list (list str))
    (fallback : list str → Decision) (options : MatchOptions) : option ExecPolicyAmendment :=
  prefix_rule ← prefix_rule;
  if is_nil prefix_rule then None
  else if bool_decide (prefix_rule ∈ BANNED_PREFIX_SUGGESTIONS) then None
  else if existsb is_policy_match ms then None
  else if prefix_rule_would_approve_all_commands policy prefix_rule commands fallback options
  then Some (mkAmendment prefix_rule) else None.

(** [render_shlex_command] *)
Definition render_shlex_command (args : list str) : str :=
  match shlex_try_join args with Some s => s | None => join (lit " ") args end.

(** The matches of policy rules with one decision; [max_by_key] on the length
    of the prefix. *)
Definition rule_matches_with (d : Decision) (m : RuleMatch) : option (list str * option str) :=
  match m with
  | PrefixRuleMatch matched_prefix decision _ justification =>
      if decide (decision = d) then Some (matched_prefix, justification) else None
  | HeuristicsRuleMatch _ _ => None
  end.
Definition most_specific (d : Decision) (ms : list RuleMatch) : option (list str * option str) :=
  max_by (λ x y, bool_decide (length y.1 < length x.1)) (omap (rule_matches_with d) ms).

(** [derive_prompt_reason] *)
Definition derive_prompt_reason (command_args : list str) (e : Evaluation) : option str :=
  let command := render_shlex_command command_args in
  match most_specific Prompt (matched_rules e) with
  | Some (_, Some justification) =>
      Some (lit "`" ++ command ++ lit "` requires approval: " ++ justification)
  | Some (_, None) => Some (lit "`" ++ command ++ lit "` requires approval by policy")
  | None => None
  end.

(** [derive_forbidden_reason] *)
Definition derive_forbidden_reason (command_args : list str) (e : Evaluation)
    (m : option DangerousCommandMatch) : str :=
  let command := render_shlex_command command_args in
  match most_specific Forbidden (matched_rules e) with
  | Some (_, Some justification) => lit "`" ++ command ++ lit "` rejected: " ++ justification
  | Some (matched_prefix, None) =>
      lit "`" ++ command ++ lit "` rejected: policy forbids commands starting with `"
      ++ render_shlex_command matched_prefix ++ lit "`"
  | None =>
      match m with
      | Some m => lit "`" ++ command ++ lit "` rejected: " ++ dangerous_command_rejection_reason m
      | None => lit "`" ++ command ++ lit "` rejected: blocked by policy"
      end
  end.

(** * Commands no rule decides *)

(** [dangerous_command_match_for_origin] and [.._for_heuristics] *)
Definition dangerous_command_match_for_origin (command : list str) (origin : ExecPolicyCommandOrigin) :
    option DangerousCommandMatch :=
  match origin with Generic => dangerous_command_match try_parse_shell command end.
Definition dangerous_command_match_for_heuristics (e : Evaluation) (decision : Decision)
    (origin : ExecPolicyCommandOrigin) : option DangerousCommandMatch :=
  head (omap (λ m,
    match m with
    | HeuristicsRuleMatch command matched_decision =>
        if decide (matched_decision = decision) then dangerous_command_match_for_origin command origin
        else None
    | PrefixRuleMatch _ _ _ _ => None
    end) (matched_rules e)).

(** [profile_has_managed_filesystem_restrictions] *)
Definition profile_has_managed_filesystem_restrictions (profile : PermissionProfile.t) : bool :=
  let fs := PermissionProfile.file_system_sandbox_policy profile in
  match profile with PermissionProfile.Managed _ _ => true | _ => false end
  && is_restricted fs && negb (has_full_disk_write_access fs).

(** [render_decision_for_unmatched_command] *)
Definition render_decision_for_unmatched_command (command : list str) (context : UnmatchedCommandContext) :
    Decision :=
  let dangerous := dangerous_command_match_for_origin command (context_command_origin context) in
  let approval_policy := context_approval_policy context in
  let fs := PermissionProfile.file_system_sandbox_policy (context_permission_profile context) in
  let is_known_safe :=
    match context_command_origin context with
    | Generic => is_known_safe_command linux try_parse_shell command
    end in
  let windows_managed_fs_restrictions_without_sandbox_backend :=
    cfg_windows && bool_decide (context_windows_sandbox_level context = WindowsDisabled)
    && profile_has_managed_filesystem_restrictions (context_permission_profile context) in
  let by_sandbox :=
    match kind fs with
    | Unrestricted | ExternalSandbox => Allow
    | Restricted =>
        if requests_sandbox_override (context_sandbox_permissions context) then Prompt else Allow
    end in
  if is_known_safe && negb (context_used_complex_parsing context)
     && (bool_decide (approval_policy = AskForApproval.UnlessTrusted)
         || windows_managed_fs_restrictions_without_sandbox_backend)
  then Allow
  else if bool_decide (is_Some dangerous) || windows_managed_fs_restrictions_without_sandbox_backend then
    match approval_policy with AskForApproval.Never => Forbidden | _ => Prompt end
  else
    match approval_policy with
    | AskForApproval.Never => Allow
    | AskForApproval.UnlessTrusted => Prompt
    | AskForApproval.OnRequest => by_sandbox
    | AskForApproval.Granular _ => by_sandbox
    end.

(** [commands_for_exec_policy] *)
Definition commands_for_exec_policy (command : list str) : ExecPolicyCommands :=
  match parse_shell_lc_plain_commands try_parse_shell command ≫= (λ cs, if is_nil cs then None else Some cs) with
  | Some commands => mkCommands commands false Generic
  | None =>
      match parse_shell_lc_single_command_prefix try_parse_shell command with
      | Some single_command => mkCommands [single_command] true Generic
      | None => mkCommands [command] false Generic
      end
  end.

(** * The requirement *)

Definition match_options : MatchOptions := mkOptions true.

(** The fallback of [create_exec_approval_requirement_for_command]. *)
Definition exec_policy_fallback (req : ExecApprovalRequest) (cs : ExecPolicyCommands) (cmd : list str) :
    Decision :=
  render_decision_for_unmatched_command cmd
    (mkContext (approval_policy req) (permission_profile req) (windows_sandbox_level req)
       (sandbox_permissions req) (used_complex_parsing cs) (command_origin cs)).

(** [ExecPolicyManager::create_exec_approval_requirement_for_command] for the
    current policy; [None] would be a panic. *)
Definition create_exec_approval_requirement_for_command (exec_policy : Policy) (req : ExecApprovalRequest) :
    option Requirement.t :=
  let cs := commands_for_exec_policy (command req) in
  let auto_amendment_allowed := negb (used_complex_parsing cs) in
  let fallback := exec_policy_fallback req cs in
  evaluation ← check_multiple_with_options exec_policy (commands cs) fallback match_options;
  let requested_amendment :=
    if auto_amendment_allowed
    then derive_requested_execpolicy_amendment_from_prefix_rule (requested_prefix_rule req)
           (matched_rules evaluation) exec_policy (commands cs) fallback match_options
    else None in
  Some
    match evaluation_decision evaluation with
    | Forbidden =>
        Requirement.Forbidden
          (derive_forbidden_reason (command req) evaluation
             (dangerous_command_match_for_heuristics evaluation Forbidden (command_origin cs)))
    | Prompt =>
        let prompt_is_rule :=
          existsb (λ m, is_policy_match m && bool_decide (match_decision m = Prompt))
            (matched_rules evaluation) in
        match prompt_is_rejected_by_policy (approval_policy req) prompt_is_rule with
        | Some reason =>
            if prompt_is_rule then Requirement.Forbidden reason
            else Requirement.Forbidden
                   (derive_rejected_prompt_reason reason
                      (dangerous_command_match_for_heuristics evaluation Prompt (command_origin cs)))
        | None =>
            Requirement.NeedsApproval (derive_prompt_reason (command req) evaluation)
              (match requested_amendment with
               | Some amendment => Some amendment
               | None =>
                   if auto_amendment_allowed
                   then try_derive_execpolicy_amendment_for_prompt_rules (matched_rules evaluation)
                   else None
               end)
        end
    | Allow =>
        Requirement.Skip
          (forallb (λ command,
             existsb (λ m, is_policy_match m && bool_decide (match_decision m = Allow))
               (matches_for_command_with_options exec_policy command None match_options)) (commands cs))
          (if auto_amendment_allowed
           then try_derive_execpolicy_amendment_for_allow_rules (matched_rules evaluation)
           else None)
    end.

(** [ExecPolicyManager::append_amendment_and_update]; [appended] is the outcome
    of writing the rule to the policy file. *)
Inductive ExecPolicyUpdateError {E : Type} := AppendRule (source : E) | AddRule (source : Error).
Arguments ExecPolicyUpdateError : clear implicits.

Definition already_allowed (policy : Policy) (amendment : ExecPolicyAmendment) : bool :=
  match check_multiple_with_options policy [amendment_command amendment] (λ _, Forbidden) match_options with
  | Some e =>
      bool_decide (evaluation_decision e = Allow)
      && existsb (λ m, is_policy_match m && bool_decide (match_decision m = Allow)) (matched_rules e)
  | None => false
  end.
Definition append_amendment_and_update {E} (appended : result E ()) (amendment : ExecPolicyAmendment)
    (policy : Policy) : Policy * result (ExecPolicyUpdateError E) () :=
  match appended with
  | Err source => (policy, Err (AppendRule source))
  | Ok _ =>
      if already_allowed policy amendment then (policy, Ok tt)
      else match add_prefix_rule (amendment_command amendment) Allow policy with
           | (_, Err source) => (policy, Err (AddRule source))
           | (updated_policy, Ok _) => (updated_policy, Ok tt)
           end
  end.
End approval.

(** * Leaving the sandbox *)

(** [default_exec_approval_requirement] *)
Definition default_exec_approval_requirement (policy : AskForApproval.t) (fs : FileSystemSandboxPolicy) :
    Requirement.t :=
  let needs_approval :=
    match policy with
    | AskForApproval.Never => false
    | AskForApproval.OnRequest | AskForApproval.Granular _ => is_restricted fs
    | AskForApproval.UnlessTrusted => true
    end in
  if needs_approval
     && match policy with
        | AskForApproval.Granular granular_config => negb (allows_sandbox_approval granular_config)
        | _ => false
        end
  then Requirement.Forbidden (lit "approval policy disallowed sandbox approval prompt")
  else if needs_approval then Requirement.NeedsApproval None None
  else Requirement.Skip false None.

Inductive SandboxOverride := NoOverride | BypassSandboxFirstAttempt.

(** [unsandboxed_execution_allowed] *)
Definition unsandboxed_execution_allowed (fs : FileSystemSandboxPolicy) : bool :=
  negb (has_denied_read_restrictions fs).

(** [sandbox_override_for_first_attempt] *)
Definition sandbox_override_for_first_attempt (s : SandboxPermissions) (r : Requirement.t)
    (fs : FileSystemSandboxPolicy) : SandboxOverride :=
  if negb (unsandboxed_execution_allowed fs) then NoOverride
  else match r with
       | Requirement.Skip true _ => BypassSandboxFirstAttempt
       | _ => if requires_escalated_permissions s then BypassSandboxFirstAttempt else NoOverride
       end.

(** [sandbox_permissions_preserving_denied_reads] *)
Definition sandbox_permissions_preserving_denied_reads (s : SandboxPermissions)
    (fs : FileSystemSandboxPolicy) : SandboxPermissions :=
  if requires_escalated_permissions s && negb (unsandboxed_execution_allowed fs) then UseDefault else s.

(** [managed_network_for_sandbox_permissions], for any network proxy. *)
Definition managed_network_for_sandbox_permissions {N} (network : option N) (s : SandboxPermissions) : option N :=
  if requires_escalated_permissions s then None else network.
