(* ===== verification/ExecApprovalSpec.v ===== *)
(** What the approval of commands in [ExecApproval] promises: the strictest
    segment of a script decides, dangerous commands are never waved through,
    the sandbox is left only for commands the rules allow, and the amendments
    that are proposed do what they are proposed for. *)

From S2P Require Import Prelude Text Paths ShellSyntax ShellSafety Permissions SandboxRoots ExecPolicy ExecApproval.

(** * The rules that decide a command *)

Section rules.
Context `{HostPaths}.
Implicit Types (p : Policy) (c : list str) (f : list str → Decision).

(** The rules of the policy that match a command, by its exact name or by the
    file name of its path. *)
Definition ruled_by p c : list RuleMatch := matches_for_command_with_options p c None match_options.

Lemma host_match_policy p c m : m ∈ match_host_executable_rules p c → is_policy_match m = true.
Proof.
  unfold match_host_executable_rules. intros Hin.
  destruct c as [|x c]; [by apply elem_of_nil in Hin|].
  destruct (absolute_path x) as [prog|]; [|by apply elem_of_nil in Hin].
  destruct (executable_path_lookup_key prog) as [name|]; [|by apply elem_of_nil in Hin].
  destruct (rules_by_program p !! name) as [rules|]; [|by apply elem_of_nil in Hin].
  destruct (match host_executables_by_name p !! name with Some _ => _ | None => _ end);
    [by apply elem_of_nil in Hin|].
  apply list_elem_of_fmap in Hin as (m' & -> & (r & _ & Hr)%list_elem_of_omap).
  unfold rule_matches in Hr. by apply fmap_Some in Hr as (? & _ & ->).
Qed.

Lemma elem_of_non_empty (ms ms' : list RuleMatch) : non_empty ms = Some ms' → ms' = ms.
Proof. unfold non_empty. destruct (is_nil ms); [done|]. by intros [= ->]. Qed.

Lemma ruled_by_policy p c m : m ∈ ruled_by p c → is_policy_match m = true.
Proof.
  unfold ruled_by, matches_for_command_with_options. simpl. intros Hm.
  destruct (match_exact_rules p c ≫= non_empty) as [ms|] eqn:E.
  - apply bind_Some in E as (ms' & E & ->%elem_of_non_empty).
    assert (m ∈ default [] (match_exact_rules p c)) as Hin by (rewrite E; by destruct ms').
    destruct (exact_matches_stored p c m Hin) as (_ & _ & _ & _ & Hp). by destruct m.
  - destruct (non_empty (match_host_executable_rules p c)) as [ms|] eqn:En; [|by apply elem_of_nil in Hm].
    apply elem_of_non_empty in En as ->. apply (host_match_policy p c).
    by destruct (match_host_executable_rules p c).
Qed.

(** A command is judged by the rules that match it, or by the fallback when none does. *)
Lemma matches_ruled p c f :
  matches_for_command_with_options p c (Some f) match_options
  = if is_nil (ruled_by p c) then [HeuristicsRuleMatch c (f c)] else ruled_by p c.
Proof.
  unfold ruled_by, matches_for_command_with_options.
  destruct (match match_exact_rules p c ≫= non_empty with
            | Some ms => ms
            | None => match (if resolve_host_executables match_options
                             then Some (match_host_executable_rules p c) else None) ≫= non_empty with
                      | Some ms => ms | None => [] end
            end); done.
Qed.

(** The decision on one command. *)
Definition segment_decision p f c : Decision :=
  default Forbidden (evaluation_decision <$> check_with_options p c f match_options).

Lemma check_total p f c :
  ∃ e, check_with_options p c f match_options = Some e ∧ evaluation_decision e = segment_decision p f c
       ∧ matched_rules e = matches_for_command_with_options p c (Some f) match_options.
Proof.
  unfold segment_decision. destruct (check_with_options p c f match_options) as [e|] eqn:E.
  - exists e. split_and!; [done..|]. unfold check_with_options in E. by apply from_matches_spec in E as [-> _].
  - by apply from_matches_None, matches_nonempty in E.
Qed.

Lemma segment_decision_ruled p f c m :
  m ∈ ruled_by p c →
  severity (match_decision m) ≤ severity (segment_decision p f c)
  ∧ ∃ m', m' ∈ ruled_by p c ∧ match_decision m' = segment_decision p f c.
Proof.
  intros Hm. destruct (check_total p f c) as (e & He & <- & _).
  unfold check_with_options in He. rewrite matches_ruled in He.
  destruct (is_nil (ruled_by p c)) eqn:En; [apply is_nil_true in En; rewrite En in Hm; by apply elem_of_nil in Hm|].
  apply from_matches_spec in He as (_ & Hex & Hmax). split; [by apply Hmax|done].
Qed.

Lemma segment_decision_unruled p f c : ruled_by p c = [] → segment_decision p f c = f c.
Proof.
  intros Hn. destruct (check_total p f c) as (e & He & <- & _).
  unfold check_with_options in He. rewrite matches_ruled, Hn in He. by injection He as <-.
Qed.

(** The decision on several commands is that on the strictest of them. *)
Lemma check_multiple_segments p f cs :
  cs ≠ [] →
  ∃ e, check_multiple_with_options p cs f match_options = Some e
    ∧ matched_rules e = (cs ≫= λ c, matches_for_command_with_options p c (Some f) match_options)
    ∧ (∀ c, c ∈ cs → severity (segment_decision p f c) ≤ severity (evaluation_decision e))
    ∧ ∃ c, c ∈ cs ∧ segment_decision p f c = evaluation_decision e.
Proof.
  intros Hne. unfold check_multiple_with_options.
  destruct (from_matches _) as [e|] eqn:E.
  2:{ apply from_matches_None in E. destruct cs as [|c cs]; [done|]. simpl in E.
      by apply app_nil in E as [?%matches_nonempty _]. }
  apply from_matches_spec in E as (Hms & (m & Hm & Hd) & Hmax).
  assert (∀ c, c ∈ cs → severity (segment_decision p f c) ≤ severity (evaluation_decision e)) as Hle.
  { intros c Hc. destruct (check_total p f c) as (ec & Hec & <- & _).
    apply from_matches_spec in Hec as (_ & (m' & Hm' & <-) & _). apply Hmax, list_elem_of_bind. eauto. }
  exists e. split_and!; [done..|]. apply list_elem_of_bind in Hm as (c & Hm & Hc). exists c. split; [done|].
  apply severity_inj. specialize (Hle c Hc).
  destruct (check_total p f c) as (ec & Hec & Heq & _).
  apply from_matches_spec in Hec as (_ & _ & Hmaxc). specialize (Hmaxc m Hm). rewrite <- Heq in *.
  rewrite Hd in Hmaxc. lia.
Qed.
End rules.

(** * Requirements *)

Section approval.
Context `{HostPaths} (linux : bool) (try_parse_shell : str → option Tree)
        (shlex_try_join : list str → option str).
Implicit Types (p : Policy) (req : ExecApprovalRequest).

(** The commands of a request, and the decision on one of them. *)
Definition segments req : list (list str) := commands (commands_for_exec_policy try_parse_shell (command req)).
Definition unruled_decision req : list str → Decision :=
  exec_policy_fallback linux try_parse_shell req (commands_for_exec_policy try_parse_shell (command req)).
Definition decision_on p req (c : list str) : Decision := segment_decision p (unruled_decision req) c.

Notation create := (create_exec_approval_requirement_for_command linux try_parse_shell shlex_try_join).

Lemma segments_nonempty req : segments req ≠ [].
Proof.
  unfold segments, commands_for_exec_policy.
  destruct (parse_shell_lc_plain_commands _ _) as [cs|]; simpl; [destruct cs; simpl; [|done]|];
    by destruct (parse_shell_lc_single_command_prefix _ _).
Qed.

(** A rule that asks matches one of the commands. *)
Definition rule_asks p req : Prop :=
  ∃ c m, c ∈ segments req ∧ m ∈ ruled_by p c ∧ match_decision m = Prompt.

(** Whether the approval policy lets the user be asked. *)
Definition may_ask (a : AskForApproval.t) (by_rule : Prop) : Prop :=
  match a with
  | AskForApproval.Never => False
  | AskForApproval.OnRequest | AskForApproval.UnlessTrusted => True
  | AskForApproval.Granular g =>
      by_rule ∧ allows_rules_approval g = true ∨ ¬ by_rule ∧ allows_sandbox_approval g = true
  end.

Lemma elem_of_matched p req e m :
  check_multiple_with_options p (segments req) (unruled_decision req) match_options = Some e →
  m ∈ matched_rules e ↔
  ∃ c, c ∈ segments req ∧
    (m ∈ ruled_by p c ∨ ruled_by p c = [] ∧ m = HeuristicsRuleMatch c (unruled_decision req c)).
Proof.
  intros He. destruct (check_multiple_segments p (unruled_decision req) (segments req))
    as (e' & He' & Hms & _); [apply segments_nonempty|].
  rewrite He in He'. injection He' as <-. rewrite Hms.
  rewrite list_elem_of_bind. setoid_rewrite matches_ruled.
  split; intros (c & Hc); exists c.
  - destruct Hc as [Hm Hc]. split; [done|]. destruct (is_nil (ruled_by p c)) eqn:En; [right|by left].
    apply is_nil_true in En. split; [done|]. by apply list_elem_of_singleton in Hm.
  - destruct Hc as [Hc [Hm|[Hn ->]]]; (split; [|done]).
    + destruct (ruled_by p c); [by apply elem_of_nil in Hm|done].
    + rewrite Hn. simpl. by constructor.
Qed.

Lemma prompt_is_rule_spec p req e :
  check_multiple_with_options p (segments req) (unruled_decision req) match_options = Some e →
  existsb (λ m, is_policy_match m && bool_decide (match_decision m = Prompt)) (matched_rules e) = true
  ↔ rule_asks p req.
Proof.
  intros He. rewrite existsb_elem. split.
  - intros (m & Hm & Hp). apply andb_true_iff in Hp as [Hp Hd%bool_decide_eq_true].
    apply (elem_of_matched p req e m He) in Hm as (c & Hc & [Hm|[_ ->]]); [|done]. by exists c, m.
  - intros (c & m & Hc & Hm & Hd). exists m. split.
    + apply (elem_of_matched p req e m He). exists c. split; [done|by left].
    + rewrite (ruled_by_policy p c m Hm). simpl. by apply bool_decide_eq_true.
Qed.

Lemma prompt_rejected_spec a b (by_rule : Prop) :
  (b = true ↔ by_rule) → prompt_is_rejected_by_policy a b = None ↔ may_ask a by_rule.
Proof.
  intros Hb. destruct a as [| |g|]; simpl; try done. rewrite <- Hb.
  destruct b, (allows_rules_approval g), (allows_sandbox_approval g); simpl; split; try done; intuition done.
Qed.

(** Everything about a requirement that the strictest segment determines. *)
Lemma requirement_cases p req :
  ∃ r e, create p req = Some r
  ∧ check_multiple_with_options p (segments req) (unruled_decision req) match_options = Some e
  ∧ match r with
    | Requirement.Skip _ _ => evaluation_decision e = Allow
    | Requirement.NeedsApproval _ _ =>
        evaluation_decision e = Prompt ∧ may_ask (approval_policy req) (rule_asks p req)
    | Requirement.Forbidden _ =>
        evaluation_decision e = Forbidden
        ∨ evaluation_decision e = Prompt ∧ ¬ may_ask (approval_policy req) (rule_asks p req)
    end.
Proof.
  destruct (check_multiple_segments p (unruled_decision req) (segments req))
    as (e & He & _); [apply segments_nonempty|].
  unfold create_exec_approval_requirement_for_command. fold (segments req) (unruled_decision req).
  rewrite He. simpl. eexists _, e. split_and!; [reflexivity|done|].
  destruct (evaluation_decision e) eqn:Hd; [done| |by left].
  pose proof (prompt_rejected_spec (approval_policy req) _ _ (prompt_is_rule_spec p req e He)) as Hask.
  destruct (prompt_is_rejected_by_policy _ _) as [reason|].
  - assert (¬ may_ask (approval_policy req) (rule_asks p req)) by (intros Hm; by apply Hask in Hm).
    destruct (existsb _ (matched_rules e)); by right.
  - split; [done|]. by apply Hask.
Qed.

(** C16: a request is always answered, by the strictest decision on the commands
    of its script: it runs exactly if all are allowed, it is refused if one is
    forbidden, and otherwise the user is asked if the approval policy lets this
    kind of prompt through, and it is refused if not. *)
Theorem approval_follows_strictest_segment p req :
  ∃ r, create p req = Some r ∧
  match r with
  | Requirement.Skip _ _ => ∀ c, c ∈ segments req → decision_on p req c = Allow
  | Requirement.NeedsApproval _ _ =>
      (∀ c, c ∈ segments req → decision_on p req c ≠ Forbidden)
      ∧ (∃ c, c ∈ segments req ∧ decision_on p req c = Prompt)
      ∧ may_ask (approval_policy req) (rule_asks p req)
  | Requirement.Forbidden _ =>
      (∃ c, c ∈ segments req ∧ decision_on p req c = Forbidden)
      ∨ (∀ c, c ∈ segments req → decision_on p req c ≠ Forbidden)
        ∧ (∃ c, c ∈ segments req ∧ decision_on p req c = Prompt)
        ∧ ¬ may_ask (approval_policy req) (rule_asks p req)
  end.
Proof.
  destruct (requirement_cases p req) as (r & e & Hr & He & Hcase). exists r. split; [done|].
  destruct (check_multiple_segments p (unruled_decision req) (segments req))
    as (e' & He' & _ & Hle & Hex); [apply segments_nonempty|].
  rewrite He in He'. injection He' as <-. unfold decision_on.
  assert (evaluation_decision e = Prompt →
    (∀ c, c ∈ segments req → segment_decision p (unruled_decision req) c ≠ Forbidden)
    ∧ ∃ c, c ∈ segments req ∧ segment_decision p (unruled_decision req) c = Prompt) as Hprompt.
  { intros Hd. rewrite Hd in *. split; [|done]. intros c Hc Hf. specialize (Hle c Hc).
    rewrite Hf in Hle. simpl in Hle. lia. }
  destruct r as [b q|reason q|reason].
  - intros c Hc. specialize (Hle c Hc). rewrite Hcase in Hle. apply severity_inj. simpl in *. lia.
  - destruct Hcase as [Hd Hask]. destruct (Hprompt Hd) as [? ?]. done.
  - destruct Hcase as [Hd|[Hd Hask]]; [left; by rewrite Hd in Hex|right].
    destruct (Hprompt Hd) as [? ?]. done.
Qed.

(** C3: a script that contains a dangerous command (such as [rm -f], also
    behind [sudo] or in the script of a shell) which no rule of the policy
    decides never runs unasked, and is refused when the user is never asked. *)
Theorem dangerous_commands_are_not_skipped `{BashGrammar try_parse_shell} p req c :
  c ∈ segments req → is_Some (dangerous_command_match try_parse_shell c) → ruled_by p c = [] →
  ∃ r, create p req = Some r
  ∧ match r with
    | Requirement.Skip _ _ => False
    | Requirement.NeedsApproval _ _ => approval_policy req ≠ AskForApproval.Never
    | Requirement.Forbidden _ => True
    end.
Proof.
  intros Hc Hd Hn. destruct (requirement_cases p req) as (r & e & Hr & He & Hcase). exists r. split; [done|].
  destruct (check_multiple_segments p (unruled_decision req) (segments req))
    as (e' & He' & _ & Hle & _); [apply segments_nonempty|].
  rewrite He in He'. injection He' as <-. specialize (Hle c Hc).
  rewrite segment_decision_unruled in Hle by done.
  assert (unruled_decision req c ≠ Allow) as Hna.
  { unfold unruled_decision, exec_policy_fallback, render_decision_for_unmatched_command. simpl.
    unfold dangerous_command_match_for_origin.
    destruct (is_known_safe_command linux try_parse_shell c) eqn:Hs.
    { apply safe_not_dangerous in Hs. rewrite Hs in Hd. by destruct Hd. }
    destruct (command_origin _). rewrite (bool_decide_eq_true_2 _ Hd). simpl.
    by destruct (approval_policy req). }
  destruct r as [b q|reason q|reason]; [|destruct Hcase as [_ Hm]; by intros Heq; rewrite Heq in Hm|done].
  rewrite Hcase in Hle. apply Hna, severity_inj. simpl in *. lia.
Qed.

(** A requirement in terms of the evaluation it was derived from. *)
Lemma skip_inv p req b q :
  create p req = Some (Requirement.Skip b q) →
  ∃ e, check_multiple_with_options p (segments req) (unruled_decision req) match_options = Some e
  ∧ evaluation_decision e = Allow
  ∧ b = forallb (λ c, existsb (λ m, is_policy_match m && bool_decide (match_decision m = Allow)) (ruled_by p c))
          (segments req)
  ∧ q = (if used_complex_parsing (commands_for_exec_policy try_parse_shell (command req)) then None
         else try_derive_execpolicy_amendment_for_allow_rules (matched_rules e)).
Proof.
  unfold create_exec_approval_requirement_for_command. fold (segments req) (unruled_decision req).
  destruct (check_multiple_with_options _ _ _ _) as [e|]; [|done]. simpl. intros Hr. exists e.
  destruct (evaluation_decision e); [|repeat case_match; done|done].
  injection Hr as <- <-. split_and!; [done..|]. by destruct (used_complex_parsing _).
Qed.

(** C7: the first attempt leaves the sandbox only if no read is denied, and
    then only because the command asked for it or because a rule of the policy
    allows every command of the script, with none that is stricter. *)
Theorem sandbox_bypass_is_earned p req r fs :
  create p req = Some r →
  sandbox_override_for_first_attempt (sandbox_permissions req) r fs = BypassSandboxFirstAttempt →
  has_denied_read_restrictions fs = false
  ∧ (sandbox_permissions req = RequireEscalated
     ∨ ∀ c, c ∈ segments req →
         ruled_by p c ≠ [] ∧ ∀ m, m ∈ ruled_by p c → match_decision m = Allow).
Proof.
  intros Hr. unfold sandbox_override_for_first_attempt, unsandboxed_execution_allowed.
  destruct (has_denied_read_restrictions fs); [done|]. simpl. intros Hs. split; [done|].
  unfold requires_escalated_permissions in Hs. case_bool_decide as He; [by left|right].
  destruct r as [[] q|?|?]; try done. intros c Hc.
  apply skip_inv in Hr as (e & Hch & Hd & Hb & _). symmetry in Hb. rewrite forallb_forall in Hb.
  specialize (Hb c (proj1 (list_elem_of_In _ _) Hc)). apply existsb_elem in Hb as (m & Hm & _).
  split; [intros Hn; rewrite Hn in Hm; by apply elem_of_nil in Hm|]. intros m' Hm'.
  destruct (check_multiple_segments p (unruled_decision req) (segments req))
    as (e' & He' & _ & Hle & _); [apply segments_nonempty|].
  rewrite Hch in He'. injection He' as <-. specialize (Hle c Hc).
  destruct (segment_decision_ruled p (unruled_decision req) c m' Hm') as [Hsev _].
  apply severity_inj. rewrite Hd in Hle. simpl in *. lia.
Qed.

(** ** Proposed amendments *)

(** The amendment the request itself names is good: it is not one of the
    banned prefixes, no rule matches the script, and with it every command is
    allowed. *)
Definition requested_amendment p req (a : ExecPolicyAmendment) : Prop :=
  requested_prefix_rule req = Some (amendment_command a)
  ∧ amendment_command a ∉ BANNED_PREFIX_SUGGESTIONS
  ∧ (∀ c, c ∈ segments req → ruled_by p c = [])
  ∧ ∃ p', add_prefix_rule (amendment_command a) Allow p = (p', Ok tt)
          ∧ ∀ c, c ∈ segments req → decision_on p' req c = Allow.

(** The amendment is a command of the script that no rule decides. *)
Definition derived_amendment p req (d : Decision) (a : ExecPolicyAmendment) : Prop :=
  amendment_command a ∈ segments req ∧ ruled_by p (amendment_command a) = []
  ∧ unruled_decision req (amendment_command a) = d.

Lemma no_policy_match p req e :
  check_multiple_with_options p (segments req) (unruled_decision req) match_options = Some e →
  existsb is_policy_match (matched_rules e) = false → ∀ c, c ∈ segments req → ruled_by p c = [].
Proof.
  intros He Hno c Hc. destruct (ruled_by p c) as [|m ms] eqn:Hr; [done|exfalso].
  assert (m ∈ ruled_by p c) as Hm by (rewrite Hr; constructor).
  assert (is_policy_match m = false) as Hf.
  { apply (existsb_false_elem _ _ _ Hno), (elem_of_matched p req e m He). exists c. split; [done|by left]. }
  by rewrite (ruled_by_policy p c m Hm) in Hf.
Qed.

Lemma derived_spec p req e d a :
  check_multiple_with_options p (segments req) (unruled_decision req) match_options = Some e →
  head (omap (heuristics_command d) (matched_rules e)) = Some a → derived_amendment p req d a.
Proof.
  intros He Hh. apply head_Some_elem_of, list_elem_of_omap in Hh as (m & Hm & Ha).
  unfold heuristics_command in Ha. destruct m as [|c d']; [done|]. case_decide; [|done].
  injection Ha as <-. simplify_eq. apply (elem_of_matched p req e _ He) in Hm as (c' & Hc & [Hm|[Hn [= -> ->]]]).
  - by apply ruled_by_policy in Hm.
  - done.
Qed.

Lemma requested_spec p req e a :
  check_multiple_with_options p (segments req) (unruled_decision req) match_options = Some e →
  derive_requested_execpolicy_amendment_from_prefix_rule (requested_prefix_rule req) (matched_rules e) p
    (segments req) (unruled_decision req) match_options = Some a →
  requested_amendment p req a.
Proof.
  intros He. unfold derive_requested_execpolicy_amendment_from_prefix_rule.
  destruct (requested_prefix_rule req) as [prefix|] eqn:Hp; [|done]. simpl.
  destruct (is_nil prefix); [done|]. case_bool_decide as Hb; [done|].
  destruct (existsb is_policy_match (matched_rules e)) eqn:Hno; [done|].
  destruct (prefix_rule_would_approve_all_commands _ _ _ _ _) eqn:Hw; [|done]. intros [= <-].
  unfold prefix_rule_would_approve_all_commands in Hw.
  destruct (add_prefix_rule prefix Allow p) as [p' [[]|]] eqn:Hadd; [|done].
  split_and!; [done|done|by eapply no_policy_match|]. exists p'. split; [done|]. intros c Hc.
  rewrite forallb_forall in Hw. specialize (Hw c (proj1 (list_elem_of_In _ _) Hc)).
  apply bool_decide_eq_true in Hw. unfold decision_on, segment_decision. by rewrite Hw.
Qed.

Lemma amendment_sound p req r a :
  create p req = Some r → Requirement.proposed_execpolicy_amendment r = Some a →
  used_complex_parsing (commands_for_exec_policy try_parse_shell (command req)) = false
  ∧ match r with
    | Requirement.NeedsApproval _ _ =>
        requested_amendment p req a ∨ derived_amendment p req Prompt a ∧ ¬ rule_asks p req
    | Requirement.Skip bypass _ =>
        derived_amendment p req Allow a ∧ bypass = false ∧ ∀ c, c ∈ segments req → ruled_by p c = []
    | Requirement.Forbidden _ => False
    end.
Proof.
  intros Hr Ha. destruct r as [b q|reason q|reason]; simpl in Ha; [| |done].
  - destruct q as [a'|]; [|done]. injection Ha as ->.
    apply skip_inv in Hr as (e & He & _ & Hb & Hq).
    destruct (used_complex_parsing _); [done|]. split; [done|].
    unfold try_derive_execpolicy_amendment_for_allow_rules in Hq.
    destruct (existsb is_policy_match (matched_rules e)) eqn:Hno; [done|].
    pose proof (no_policy_match p req e He Hno) as Hnone. split_and!; [by eapply derived_spec| |done].
    rewrite Hb. pose proof (segments_nonempty req). destruct (segments req) as [|c cs]; [done|].
    simpl. rewrite (Hnone c) by constructor. done.
  - destruct q as [a'|]; [|done]. injection Ha as ->. revert Hr.
    unfold create_exec_approval_requirement_for_command. fold (segments req) (unruled_decision req).
    destruct (check_multiple_with_options _ _ _ _) as [e|] eqn:He; [|done]. simpl. intros Hr.
    destruct (evaluation_decision e); [done| |done].
    destruct (prompt_is_rejected_by_policy _ _); [by destruct (existsb _ (matched_rules e))|].
    injection Hr as _ Hq. destruct (used_complex_parsing _); [done|]. split; [done|]. simpl in Hq.
    destruct (derive_requested_execpolicy_amendment_from_prefix_rule _ _ _ _ _ _) as [a'|] eqn:Hreq.
    + injection Hq as ->. left. by eapply requested_spec.
    + right. unfold try_derive_execpolicy_amendment_for_prompt_rules in Hq.
      destruct (existsb _ (matched_rules e)) eqn:Hno; [done|]. split; [by eapply derived_spec|].
      intros Hask%(prompt_is_rule_spec p req e He). congruence.
Qed.

(** An amendment is proposed only for a script that was parsed in full, and
    it is either the prefix the request names, which is not banned, conflicts
    with no rule and would allow every command of the script, or a command of
    the script that no rule decides, which the user is being asked about or
    which is run in the sandbox. *)
Theorem proposed_amendments_are_sound p req r a :
  create p req = Some r → Requirement.proposed_execpolicy_amendment r = Some a →
  used_complex_parsing (commands_for_exec_policy try_parse_shell (command req)) = false
  ∧ match r with
    | Requirement.NeedsApproval _ _ =>
        requested_amendment p req a ∨ derived_amendment p req Prompt a ∧ ¬ rule_asks p req
    | Requirement.Skip bypass _ =>
        derived_amendment p req Allow a ∧ bypass = false ∧ ∀ c, c ∈ segments req → ruled_by p c = []
    | Requirement.Forbidden _ => False
    end.
Proof. apply amendment_sound. Qed.

(** A rule that was added for a command no rule decided allows it. *)
Lemma added_rule_allows p p' c f :
  add_prefix_rule c Allow p = (p', Ok tt) → ruled_by p c = [] → segment_decision p' f c = Allow.
Proof.
  intros Hadd Hn. destruct c as [|x args]; [done|]. injection Hadd as <-.
  set (r := mkRule (mkPattern x (Single <$> args)) Allow None). set (p' := mkPolicy _ _ _).
  assert (applies r (x :: args)) as Happ.
  { exists args, []. rewrite app_nil_r. split; [done|]. simpl. apply Forall2_fmap_l, Forall_Forall2_diag.
    apply Forall_forall. simpl. set_solver. }
  assert (stored p' r) as Hr.
  { eexists. simpl. unfold multimap_insert. rewrite lookup_insert_eq. split; [done|]. set_solver. }
  destruct (check_total p' f (x :: args)) as (e & He & <- & _).
  apply check_exact in He as (_ & (r' & (rules & Hl & Hin) & Ha' & <-) & _); [|by eapply applies_exact].
  destruct Ha' as (tokens & args' & Hcmd & Htok). injection Hcmd as Hprog Hargs.
  rewrite <- Hprog in Hl. simpl in Hl. unfold multimap_insert in Hl. rewrite lookup_insert_eq in Hl.
  injection Hl as <-. apply elem_of_app in Hin as [Hin|Hin]; [exfalso|by apply list_elem_of_singleton in Hin as ->].
  assert (applies r' (x :: args)) as Happ' by (exists tokens, args'; by rewrite Hprog, Hargs).
  assert (stored p r') as Hst.
  { apply stored_default. rewrite <- Hprog. by destruct (rules_by_program p !! x). }
  pose proof (applies_exact p _ r' Hst Happ') as Hne.
  unfold ruled_by in Hn. rewrite matches_exact in Hn by done. done.
Qed.

(** What no rule decides is not allowed already. *)
Lemma unruled_not_allowed p (a : ExecPolicyAmendment) :
  ruled_by p (amendment_command a) = [] → already_allowed p a = false.
Proof.
  intros Hn. unfold already_allowed, check_multiple_with_options. simpl.
  by rewrite app_nil_r, matches_ruled, Hn.
Qed.

(** A command of the script that is proposed is not decided by a rule. *)
Lemma proposed_command_unruled p req reason a :
  create p req = Some (Requirement.NeedsApproval reason (Some a)) →
  amendment_command a ∈ segments req → ruled_by p (amendment_command a) = [].
Proof.
  intros Hr Hin. apply amendment_sound with (a := a) in Hr as [_ Hs]; [|done]. simpl in Hs.
  destruct Hs as [(_ & _ & Hn & _)|[(_ & Hn & _) _]]; [by apply Hn|done].
Qed.

(** The policy after an amendment that was not allowed already. *)
Lemma amended_policy {E} p p' a :
  already_allowed p a = false → append_amendment_and_update (E := E) (Ok tt) a p = (p', Ok tt) →
  add_prefix_rule (amendment_command a) Allow p = (p', Ok tt).
Proof.
  intros Hnew. unfold append_amendment_and_update. rewrite Hnew.
  destruct (add_prefix_rule _ _ _) as [p1 [[]|]]; [|done]. by intros [= ->].
Qed.

(** A script whose commands are all allowed runs unasked. *)
Lemma all_allowed_skips p req :
  (∀ c, c ∈ segments req → decision_on p req c = Allow) →
  ∃ bypass q, create p req = Some (Requirement.Skip bypass q).
Proof.
  intros Hall. destruct (requirement_cases p req) as (r & e & -> & He & Hcase).
  destruct (check_multiple_segments p (unruled_decision req) (segments req))
    as (e' & He' & _ & _ & c & Hc & Hd); [apply segments_nonempty|].
  rewrite He in He'. injection He' as <-. specialize (Hall c Hc). unfold decision_on in Hall.
  rewrite Hall in Hd. rewrite <- Hd in Hcase.
  destruct r; [by eexists _, _|by destruct Hcase|by destruct Hcase as [|[? _]]].
Qed.

(** C37: Asking once is enough.  After the user accepts the amendment that was
    proposed, the command it is for, if it is one of the script, is allowed, and the
    same request runs unasked when that is the only command of the script, or when the
    amendment is none of its commands (a prefix the request named, then) and no rule
    allowed it before. *)
Theorem accepted_amendment_settles {E} p p' req reason a :
  create p req = Some (Requirement.NeedsApproval reason (Some a)) →
  append_amendment_and_update (E := E) (Ok tt) a p = (p', Ok tt) →
  (amendment_command a ∈ segments req → decision_on p' req (amendment_command a) = Allow)
  ∧ (segments req = [amendment_command a]
     ∨ amendment_command a ∉ segments req ∧ already_allowed p a = false →
     ∃ bypass q, create p' req = Some (Requirement.Skip bypass q)).
Proof.
  intros Hr Hup.
  assert (amendment_command a ∈ segments req → decision_on p' req (amendment_command a) = Allow) as Hone.
  { intros Hin. pose proof (proposed_command_unruled p req reason a Hr Hin) as Hn.
    eapply added_rule_allows, Hn. by apply (amended_policy (E := E) p p' a); [apply unruled_not_allowed|]. }
  split; [done|]. intros [Hs|[Hout Hnew]]; apply all_allowed_skips; intros c Hc.
  - rewrite Hs in Hc, Hone. apply list_elem_of_singleton in Hc as ->. apply Hone. by constructor.
  - apply amended_policy in Hup; [|done].
    apply amendment_sound with (a := a) in Hr as [_ Hs]; [|done]. simpl in Hs.
    destruct Hs as [(_ & _ & _ & p2 & Hadd & Hall)|[[Hin _] _]]; [|done].
    rewrite Hup in Hadd. injection Hadd as <-. by apply Hall.
Qed.
End approval.

(** * Instances *)

#[local] Existing Instance demo_paths.

Module Requests.
(** A request under the read-only profile. *)
Definition request (command : list str) (approval : AskForApproval.t) (s : SandboxPermissions) :
    ExecApprovalRequest :=
  mkRequest command approval
    (PermissionProfile.Managed
       (ManagedFileSystemPermissions.Restricted read_only_file_system_entries None)
       NetworkSandboxPolicy.Restricted)
    WindowsDisabled s (Some [lit "npm"; lit "install"]).
Definition remove : ExecApprovalRequest :=
  request [lit "sudo"; lit "rm"; lit "-rf"; lit "/"] AskForApproval.Never UseDefault.
Definition list_files : ExecApprovalRequest :=
  request [lit "bash"; lit "-lc"; Demo.script] AskForApproval.OnRequest UseDefault.
Definition install : ExecApprovalRequest :=
  request [lit "npm"; lit "install"; lit "x"] AskForApproval.OnRequest RequireEscalated.
Definition ls_allowed : Policy := (add_prefix_rule [lit "ls"] Allow empty_policy).1.
Definition join_words (args : list str) : option str := Some (join (lit " ") args).
End Requests.

Lemma dangerous_commands_are_not_skipped_witness :
  ∃ r, create_exec_approval_requirement_for_command true Demo.parse Requests.join_words empty_policy
         Requests.remove = Some r
  ∧ match r with
    | Requirement.Skip _ _ => False
    | Requirement.NeedsApproval _ _ => approval_policy Requests.remove ≠ AskForApproval.Never
    | Requirement.Forbidden _ => True
    end.
Proof.
  apply (dangerous_commands_are_not_skipped true Demo.parse Requests.join_words empty_policy Requests.remove
           (command Requests.remove)).
  - vm_compute. constructor.
  - exists ForcedRm. vm_compute. reflexivity.
  - vm_compute. reflexivity.
Defined.

Lemma sandbox_bypass_is_earned_witness :
  has_denied_read_restrictions read_only = false
  ∧ ∀ c, c ∈ segments Demo.parse Requests.list_files →
      ruled_by Requests.ls_allowed c ≠ []
      ∧ ∀ m, m ∈ ruled_by Requests.ls_allowed c → match_decision m = Allow.
Proof.
  split; [reflexivity|].
  destruct (sandbox_bypass_is_earned true Demo.parse Requests.join_words Requests.ls_allowed
              Requests.list_files (Requirement.Skip true None) read_only) as [_ [He|Hall]].
  - vm_compute. reflexivity.
  - reflexivity.
  - discriminate He.
  - exact Hall.
Defined.

Definition npm_install : ExecPolicyAmendment := mkAmendment [lit "npm"; lit "install"].

Lemma proposed_amendments_are_sound_witness :
  requested_amendment true Demo.parse empty_policy Requests.install npm_install
  ∨ derived_amendment true Demo.parse empty_policy Requests.install Prompt npm_install
    ∧ ¬ rule_asks Demo.parse empty_policy Requests.install.
Proof.
  apply (proposed_amendments_are_sound true Demo.parse Requests.join_words empty_policy Requests.install
           (Requirement.NeedsApproval None (Some npm_install)) npm_install).
  - vm_compute. reflexivity.
  - reflexivity.
Defined.

Lemma accepted_amendment_settles_witness :
  ∃ bypass q,
    create_exec_approval_requirement_for_command true Demo.parse Requests.join_words
      (append_amendment_and_update (E := str) (Ok tt) npm_install empty_policy).1 Requests.install
    = Some (Requirement.Skip bypass q).
Proof.
  apply (accepted_amendment_settles (E := str) true Demo.parse Requests.join_words empty_policy _
           Requests.install None npm_install).
  - vm_compute. reflexivity.
  - reflexivity.
  - right. split.
    + intros Hc. vm_compute in Hc. apply list_elem_of_singleton in Hc. discriminate Hc.
    + vm_compute. reflexivity.
Defined.
