(* ===== verification/PermissionTransforms.v ===== *)
(** Permissions of one command or of a session on top of a sandbox policy
    ([sandboxing/src/policy_transforms.rs], with [FileSystemPermissions],
    [NetworkPermissions] and [AdditionalPermissionProfile] of
    [protocol/src/models.rs]): they are normalised, merged, cut down to what was
    requested, and applied to a policy. *)

From S2P Require Import Prelude Text Paths Permissions SandboxRoots.

(** * Data *)

(** [FileSystemPermissions] *)
Module FileSystemPermissions.
Record t := mk {
  entries : list FileSystemSandboxEntry;
  glob_scan_max_depth : option positive
}.

#[export] Instance eq_dec : EqDecision t.
Proof. solve_decision. Defined.

(** [is_empty] and the derived default *)
Definition is_empty (p : t) : bool := is_nil (entries p).
Definition default : t := mk [] None.

(** [LegacyReadWriteRoots] *)
Record LegacyReadWriteRoots := mkLegacy {
  read : option (list AbsolutePathBuf);
  write : option (list AbsolutePathBuf)
}.

(** [from_read_write_roots] *)
Definition root_entries (access : FileSystemAccessMode) (roots : option (list AbsolutePathBuf)) :
    list FileSystemSandboxEntry :=
  match roots with
  | Some roots => (λ path, new_entry (FileSystemPath.Path path) access) <$> roots
  | None => []
  end.
Definition from_read_write_roots (read write : option (list AbsolutePathBuf)) : t :=
  mk (root_entries Read read ++ root_entries Write write) None.

(** [as_legacy_permissions] *)
Fixpoint legacy_roots (es : list FileSystemSandboxEntry) (read write : list AbsolutePathBuf) :
    option (list AbsolutePathBuf * list AbsolutePathBuf) :=
  match es with
  | [] => Some (read, write)
  | e :: es =>
      match entry_path e with
      | FileSystemPath.Path path =>
          match entry_access e with
          | Read => legacy_roots es (read ++ [path]) write
          | Write => legacy_roots es read (write ++ [path])
          | Deny => None
          end
      | FileSystemPath.GlobPattern _ | FileSystemPath.Special _ => None
      end
  end.
Definition non_empty (roots : list AbsolutePathBuf) : option (list AbsolutePathBuf) :=
  if is_nil roots then None else Some roots.
Definition as_legacy_permissions (p : t) : option LegacyReadWriteRoots :=
  match glob_scan_max_depth p with
  | Some _ => None
  | None =>
      '(read, write) ← legacy_roots (entries p) [] [];
      Some (mkLegacy (non_empty read) (non_empty write))
  end.

(** [Serialize] and [Deserialize] up to JSON: the legacy form where there is
    one, else the fields. *)
Inductive Serialized :=
| Canonical (entries : list FileSystemSandboxEntry) (glob_scan_max_depth : option positive)
| Legacy (roots : LegacyReadWriteRoots).
Definition serialize (p : t) : Serialized :=
  match as_legacy_permissions p with
  | Some legacy => Legacy legacy
  | None => Canonical (entries p) (glob_scan_max_depth p)
  end.
Definition deserialize (s : Serialized) : t :=
  match s with
  | Canonical entries depth => mk entries depth
  | Legacy roots => from_read_write_roots (read roots) (write roots)
  end.
End FileSystemPermissions.
Export (hints) FileSystemPermissions.

(** [NetworkPermissions] *)
Record NetworkPermissions := mkNetwork { enabled : option bool }.

#[export] Instance NetworkPermissions_eq_dec : EqDecision NetworkPermissions.
Proof. solve_decision. Defined.

Definition network_is_empty (n : NetworkPermissions) : bool := bool_decide (enabled n = None).

(** [AdditionalPermissionProfile] *)
Record AdditionalPermissionProfile := mkProfile {
  network : option NetworkPermissions;
  file_system : option FileSystemPermissions.t
}.

#[export] Instance AdditionalPermissionProfile_eq_dec : EqDecision AdditionalPermissionProfile.
Proof. solve_decision. Defined.

Definition profile_is_empty (p : AdditionalPermissionProfile) : bool :=
  bool_decide (network p = None) && bool_decide (file_system p = None).

(** [Option::filter] *)
Definition opt_filter {A} (f : A → bool) (o : option A) : option A :=
  match o with Some x => if f x then Some x else None | None => None end.

(** * Normalising *)

Definition is_glob (path : FileSystemPath.t) : bool :=
  match path with FileSystemPath.GlobPattern _ => true | _ => false end.

Definition msg_glob_permissions : str :=
  lit "glob file system permissions only support deny-read entries".

Section normalize.
Context `{Host}.

Definition normalize_permission_path (path : FileSystemPath.t) : FileSystemPath.t :=
  match path with
  | FileSystemPath.Path path =>
      FileSystemPath.Path (default path (canonicalize_preserving_symlinks path ≫= from_absolute_path))
  | FileSystemPath.GlobPattern pattern => FileSystemPath.GlobPattern pattern
  | FileSystemPath.Special value => FileSystemPath.Special value
  end.

Definition normalize_entry (e : FileSystemSandboxEntry) : FileSystemSandboxEntry :=
  mkEntry (normalize_permission_path (entry_path e)) (entry_access e) (missing_path_behavior e).

(** The loop of [normalize_additional_permissions]. *)
Fixpoint normalize_entries (es acc : list FileSystemSandboxEntry) :
    result str (list FileSystemSandboxEntry) :=
  match es with
  | [] => Ok acc
  | e :: es =>
      if is_glob (entry_path e) && negb (bool_decide (entry_access e = Deny)) then Err msg_glob_permissions
      else
        normalize_entries es (push_absent acc (normalize_entry e))
  end.

(** [normalize_additional_permissions] *)
Definition normalize_additional_permissions (additional : AdditionalPermissionProfile) :
    result str AdditionalPermissionProfile :=
  let network := opt_filter (λ n, negb (network_is_empty n)) (network additional) in
  let? file_system :=
    match file_system additional with
    | Some fs =>
        let? es := normalize_entries (FileSystemPermissions.entries fs) [] in
        Ok (opt_filter (λ fs, negb (FileSystemPermissions.is_empty fs))
              (Some (FileSystemPermissions.mk es (FileSystemPermissions.glob_scan_max_depth fs))))
    | None => Ok None
    end in
  Ok (mkProfile network file_system).
End normalize.

(** * Merging *)

(** [GlobScanDepth] *)
Inductive GlobScanDepth := Bounded (depth : N) | Unbounded.

(** [effective_glob_scan_depth]: no depth where no glob is denied. *)
Definition effective_glob_scan_depth (es : list FileSystemSandboxEntry) (depth : option N) :
    option GlobScanDepth :=
  if existsb (λ e, is_deny e && is_glob (entry_path e)) es then
    Some (match depth with Some depth => Bounded depth | None => Unbounded end)
  else None.

(** [merge_glob_scan_max_depth] *)
Definition merge_glob_scan_max_depth (left_entries : list FileSystemSandboxEntry) (left_depth : option N)
    (right_entries : list FileSystemSandboxEntry) (right_depth : option N) : option N :=
  match effective_glob_scan_depth left_entries left_depth,
        effective_glob_scan_depth right_entries right_depth with
  | Some Unbounded, _ | _, Some Unbounded => None
  | Some (Bounded l), Some (Bounded r) => Some (N.max l r)
  | Some (Bounded depth), None | None, Some (Bounded depth) => Some depth
  | None, None => None
  end.

(** [depth.map(usize::from)] and [depth.and_then(NonZeroUsize::new)] *)
Definition depth_of_non_zero (depth : option positive) : option N := Npos <$> depth.
Definition non_zero_depth (depth : option N) : option positive :=
  depth ≫= λ depth, match depth with N0 => None | Npos d => Some d end.

(** [merge_permission_entries] *)
Definition merge_permission_entries (base permissions : list FileSystemSandboxEntry) :
    list FileSystemSandboxEntry := foldl push_absent [] (base ++ permissions).

Definition network_enabled (n : option NetworkPermissions) : bool := bool_decide (n = Some (mkNetwork (Some true))).

(** [merge_permission_profiles] *)
Definition merge_file_system_permissions (base permissions : FileSystemPermissions.t) :
    FileSystemPermissions.t :=
  FileSystemPermissions.mk
    (merge_permission_entries (FileSystemPermissions.entries base) (FileSystemPermissions.entries permissions))
    (non_zero_depth
       (merge_glob_scan_max_depth
          (FileSystemPermissions.entries base)
          (depth_of_non_zero (FileSystemPermissions.glob_scan_max_depth base))
          (FileSystemPermissions.entries permissions)
          (depth_of_non_zero (FileSystemPermissions.glob_scan_max_depth permissions)))).
Definition merge_permission_profiles (base permissions : option AdditionalPermissionProfile) :
    option AdditionalPermissionProfile :=
  match permissions with
  | None => base
  | Some permissions =>
      match base with
      | Some base =>
          let network :=
            if network_enabled (network base) || network_enabled (network permissions)
            then Some (mkNetwork (Some true)) else None in
          let file_system :=
            match file_system base, file_system permissions with
            | Some base, Some permissions =>
                opt_filter (λ fs, negb (FileSystemPermissions.is_empty fs))
                  (Some (merge_file_system_permissions base permissions))
            | Some base, None => Some base
            | None, Some permissions => Some permissions
            | None, None => None
            end in
          opt_filter (λ p, negb (profile_is_empty p)) (Some (mkProfile network file_system))
      | None => opt_filter (λ p, negb (profile_is_empty p)) (Some permissions)
      end
  end.

(** * Grants within a request *)

(** [access_covers] *)
Definition access_covers (requested granted : FileSystemAccessMode) : bool :=
  match granted with Read => can_read requested | Write => can_write requested | Deny => false end.

(** [paths_overlap] *)
Definition paths_overlap (l r : Path) : bool := path_starts_with l r || path_starts_with r l.

Section grants.
Context `{Host}.

(** [resolve_permission_path] *)
Definition resolve_permission_path (path : FileSystemPath.t) (cwd : Path) : option AbsolutePathBuf :=
  match path with
  | FileSystemPath.Path path => Some path
  | FileSystemPath.GlobPattern _ => None
  | FileSystemPath.Special value =>
      match value with
      | FileSystemSpecialPath.Root => root ← last (ancestors cwd); from_absolute_path root
      | FileSystemSpecialPath.ProjectRoots subpath =>
          cwd ← from_absolute_path cwd;
          Some (match subpath with
                | Some subpath => resolve_path_against_base (path_new subpath) cwd
                | None => cwd
                end)
      | FileSystemSpecialPath.Tmpdir =>
          tmpdir ← tmpdir_var;
          if is_nil tmpdir then None else from_absolute_path (path_new tmpdir)
      | FileSystemSpecialPath.SlashTmp =>
          opt_filter is_dir (from_absolute_path (path_new (lit "/tmp")))
      | FileSystemSpecialPath.Minimal | FileSystemSpecialPath.Unknown _ _ => None
      end
  end.

(** [materialize_cwd_dependent_entry] *)
Definition materialize_cwd_dependent_path (path : FileSystemPath.t) (cwd : Path) : FileSystemPath.t :=
  match path with
  | FileSystemPath.Special (FileSystemSpecialPath.ProjectRoots _) =>
      match resolve_permission_path path cwd with
      | Some path => FileSystemPath.Path path
      | None => path
      end
  | FileSystemPath.GlobPattern pattern =>
      FileSystemPath.GlobPattern (path_text (resolve_path_against_base (path_new pattern) cwd))
  | FileSystemPath.Path _ | FileSystemPath.Special _ => path
  end.
Definition materialize_cwd_dependent_entry (e : FileSystemSandboxEntry) (cwd : Path) :
    FileSystemSandboxEntry :=
  mkEntry (materialize_cwd_dependent_path (entry_path e) cwd) (entry_access e) (missing_path_behavior e).

(** [glob_static_prefix_path]: the directory before the first glob character;
    the separators are the slash and the backslash. *)
Definition is_glob_char (c : N) : Prop := c ∈ [42; 63; 91; 93]%N.
#[local] Instance is_glob_char_dec c : Decision (is_glob_char c).
Proof. unfold is_glob_char. apply _. Defined.
Definition glob_static_prefix_path (pattern : str) (cwd : Path) : option AbsolutePathBuf :=
  let resolved_pattern := path_text (resolve_path_against_base (path_new pattern) cwd) in
  prefix ←
    match list_find is_glob_char resolved_pattern with
    | Some (0, _) => None
    | Some (index, _) =>
        let prefix := take index resolved_pattern in
        if bool_decide (last prefix = Some 47%N ∨ last prefix = Some 92%N) then Some (path_new prefix)
        else parent (path_new prefix)
    | None => Some (path_new resolved_pattern)
    end;
  from_absolute_path prefix.

(** [deny_entry_constrains_accepted_grant] *)
Definition deny_entry_constrains_accepted_grant (deny_entry : FileSystemSandboxEntry)
    (accepted_entries : list FileSystemSandboxEntry) (cwd : Path) : bool :=
  existsb (λ e,
    match resolve_permission_path (entry_path e) cwd with
    | None => false
    | Some grant_path =>
        match
          match entry_path deny_entry with
          | FileSystemPath.GlobPattern pattern => glob_static_prefix_path pattern cwd
          | path => resolve_permission_path path cwd
          end
        with
        | Some deny_path => paths_overlap deny_path grant_path
        | None => false
        end
    end) (filter (λ e, can_read (entry_access e) = true) accepted_entries).

(** [retain_constraining_deny_entries]: the retained entries, and the output
    with those it lacked. *)
Definition constraining_deny_entries (source_entries accepted_entries : list FileSystemSandboxEntry)
    (cwd : Path) : list FileSystemSandboxEntry :=
  (λ e, materialize_cwd_dependent_entry e cwd) <$>
    filter (λ e, deny_entry_constrains_accepted_grant e accepted_entries cwd = true)
      (filter (λ e, entry_access e = Deny) source_entries).
Definition retain_constraining_deny_entries (source_entries accepted_entries : list FileSystemSandboxEntry)
    (cwd : Path) (output_entries : list FileSystemSandboxEntry) :
    list FileSystemSandboxEntry * list FileSystemSandboxEntry :=
  let retained := constraining_deny_entries source_entries accepted_entries cwd in
  (retained, foldl push_absent output_entries retained).

Context `{Globs}.

(** [granted_file_system_entry_within_request] *)
Definition granted_file_system_entry_within_request (requested : FileSystemPermissions.t)
    (requested_policy : FileSystemSandboxPolicy) (requested_read_deny_matcher : option ReadDenyMatcher)
    (granted_entry : FileSystemSandboxEntry) (cwd : Path) : bool :=
  if negb (can_read (entry_access granted_entry)) then false
  else match resolve_permission_path (entry_path granted_entry) cwd with
       | Some path =>
           if match requested_read_deny_matcher with
              | Some matcher => is_read_denied matcher path
              | None => false
              end then false
           else access_covers (resolve_access_with_cwd requested_policy path cwd) (entry_access granted_entry)
       | None =>
           existsb (λ requested_entry,
             access_covers (entry_access requested_entry) (entry_access granted_entry)
             && bool_decide (entry_path requested_entry = entry_path granted_entry))
             (FileSystemPermissions.entries requested)
       end.

(** [intersect_permission_profiles]; building the matcher for reading cannot fail. *)
Definition read_deny_matcher (p : FileSystemSandboxPolicy) (cwd : Path) : option ReadDenyMatcher :=
  match SandboxRoots.new p cwd with Ok matcher => matcher | Err _ => None end.
Definition accepted_grants (requested granted : FileSystemPermissions.t) (cwd : Path) :
    list FileSystemSandboxEntry :=
  let requested_policy := restricted (FileSystemPermissions.entries requested) in
  let matcher := read_deny_matcher requested_policy cwd in
  foldl push_absent []
    ((λ e, materialize_cwd_dependent_entry e cwd) <$>
       filter (λ e, granted_file_system_entry_within_request requested requested_policy matcher e cwd = true)
         (FileSystemPermissions.entries granted)).
Definition intersect_file_system (requested granted : FileSystemPermissions.t) (cwd : Path) :
    FileSystemPermissions.t :=
  let accepted_entries := accepted_grants requested granted cwd in
  let '(requested_retained, entries) :=
    retain_constraining_deny_entries (FileSystemPermissions.entries requested) accepted_entries cwd
      accepted_entries in
  let '(granted_retained, entries) :=
    retain_constraining_deny_entries (FileSystemPermissions.entries granted) accepted_entries cwd entries in
  FileSystemPermissions.mk entries
    (non_zero_depth
       (merge_glob_scan_max_depth
          requested_retained (depth_of_non_zero (FileSystemPermissions.glob_scan_max_depth requested))
          granted_retained (depth_of_non_zero (FileSystemPermissions.glob_scan_max_depth granted)))).
Definition intersect_permission_profiles (requested granted : AdditionalPermissionProfile) (cwd : Path) :
    AdditionalPermissionProfile :=
  let file_system :=
    opt_filter (λ fs, negb (FileSystemPermissions.is_empty fs))
      ((λ requested_fs,
          intersect_file_system requested_fs (default FileSystemPermissions.default (file_system granted)) cwd)
       <$> file_system requested) in
  let network :=
    if network_enabled (network requested) && network_enabled (network granted)
    then Some (mkNetwork (Some true)) else None in
  mkProfile network file_system.
End grants.

(** * On top of a policy *)

(** [merge_file_system_policy_with_additional_permissions] *)
Definition merge_file_system_policy_with_additional_permissions (p : FileSystemSandboxPolicy)
    (additional : FileSystemPermissions.t) : FileSystemSandboxPolicy :=
  match kind p with
  | Restricted =>
      mkPolicy Restricted
        (merge_glob_scan_max_depth (entries p) (glob_scan_max_depth p)
           (FileSystemPermissions.entries additional)
           (depth_of_non_zero (FileSystemPermissions.glob_scan_max_depth additional)))
        (foldl push_absent (entries p) (FileSystemPermissions.entries additional))
  | Unrestricted | ExternalSandbox => p
  end.

(** [effective_file_system_sandbox_policy] *)
Definition effective_file_system_sandbox_policy (p : FileSystemSandboxPolicy)
    (additional : option AdditionalPermissionProfile) : FileSystemSandboxPolicy :=
  match additional ≫= file_system with
  | None => p
  | Some fs =>
      if FileSystemPermissions.is_empty fs then p
      else merge_file_system_policy_with_additional_permissions p fs
  end.

(** [merge_network_access] and [effective_network_sandbox_policy] *)
Definition merge_network_access (base_network_access : bool) (additional : AdditionalPermissionProfile) : bool :=
  base_network_access || default false (network additional ≫= enabled).
Definition effective_network_sandbox_policy (policy : NetworkSandboxPolicy.t)
    (additional : option AdditionalPermissionProfile) : NetworkSandboxPolicy.t :=
  match additional with
  | Some additional =>
      if merge_network_access (NetworkSandboxPolicy.is_enabled policy) additional
      then NetworkSandboxPolicy.Enabled else NetworkSandboxPolicy.Restricted
  | None => policy
  end.

(** [effective_permission_profile]; [None] is the [unreachable!] of the conversion. *)
Definition effective_permission_profile (profile : PermissionProfile.t)
    (additional : option AdditionalPermissionProfile) : option PermissionProfile.t :=
  let '(fs, network) := PermissionProfile.to_runtime_permissions profile in
  PermissionProfile.from_runtime_permissions_with_enforcement (PermissionProfile.enforcement profile)
    (effective_file_system_sandbox_policy fs additional)
    (effective_network_sandbox_policy network additional).

(** [should_require_platform_sandbox] *)
Definition should_require_platform_sandbox (p : FileSystemSandboxPolicy) (network : NetworkSandboxPolicy.t)
    (has_managed_network_requirements : bool) : bool :=
  if has_managed_network_requirements then true
  else if negb (NetworkSandboxPolicy.is_enabled network) then negb (bool_decide (kind p = ExternalSandbox))
  else match kind p with
       | Restricted => negb (has_full_disk_write_access p)
       | Unrestricted | ExternalSandbox => false
       end.
