(* ===== verification/PermissionGlobsSpec.v ===== *)
(** The patterns of denied reads in [PermissionTransforms]: the text of a path
    is read back as the path, and the fixed part of a pattern that
    [glob_static_prefix_path] finds lies above every path the pattern matches. *)

From S2P Require Import Prelude Text Paths Permissions PermissionsSpec SandboxRoots PermissionTransforms.

(** * Paths and their text *)

(** A component as [std::path] has them: a name is not empty, not a dot or two,
    and has no separator. *)
Definition proper (c : Component) : Prop :=
  match c with Normal name => name ≠ [] ∧ name ≠ lit "." ∧ name ≠ lit ".." ∧ slash ∉ name | _ => True end.
#[export] Instance proper_dec c : Decision (proper c).
Proof. destruct c; simpl; apply _. Defined.
Definition proper_path (p : Path) : Prop := Forall proper p.

Definition names_of (ts : list str) : Path :=
  name_component <$> filter (λ name, name ≠ [] ∧ name ≠ lit ".") ts.

Lemma path_new_join ts :
  ts ≠ [] → Forall (λ t, slash ∉ t) ts → path_new (slash :: join [slash] ts) = RootDir :: names_of ts.
Proof.
  intros Hne Hts. unfold path_new. rewrite decide_True by done. f_equal.
  change (slash :: join [slash] ts) with ([] ++ slash :: join [slash] ts).
  rewrite split_on_app by apply not_elem_of_nil. by rewrite split_join.
Qed.

Lemma names_of_proper (names : Path) : Forall is_name names → proper_path names → names_of (component_text <$> names) = names.
Proof.
  unfold names_of. induction names as [|c names IH]; intros Hn Hp; [done|].
  apply Forall_cons in Hn as [Hc Hn], Hp as [Hpc Hp]. destruct c as [| | |n]; try done.
  destruct Hpc as (? & ? & Hdd & _). csimpl. rewrite filter_cons_True by done. csimpl. rewrite IH by done.
  unfold name_component. by rewrite decide_False.
Qed.

Lemma proper_no_slash (names : Path) : Forall is_name names → proper_path names → Forall (λ t, slash ∉ t) (component_text <$> names).
Proof.
  intros Hn Hp. apply Forall_fmap, Forall_forall. intros c Hc.
  rewrite Forall_forall in Hn. unfold proper_path in Hp. rewrite Forall_forall in Hp.
  specialize (Hn c Hc). specialize (Hp c Hc). destruct c; [done..|]. by destruct Hp as (_ & _ & _ & ?).
Qed.

(** The text of a normal path is read back as the path. *)
Lemma path_new_text p : normal p → proper_path p → path_new (path_text p) = p.
Proof.
  intros (names & -> & Hn) [_ Hp]%Forall_cons. simpl. destruct names as [|c names]; [done|].
  rewrite path_new_join by (done || by apply proper_no_slash). by rewrite names_of_proper.
Qed.

Lemma path_new_proper s : proper_path (path_new s).
Proof.
  assert (proper_path (names_of (split_on slash s))) as Hn.
  { unfold names_of. apply Forall_fmap, Forall_forall. intros n [[Hne Hd] Hin]%list_elem_of_filter.
    simpl. unfold name_component. case_decide; [done|]. simpl. split_and!; [done..|].
    pose proof (split_on_Forall slash s) as Hs. rewrite Forall_forall in Hs. by apply Hs. }
  unfold path_new. repeat case_decide; [constructor..|]; done.
Qed.

Lemma proper_pop p : proper_path p → proper_path (path_pop p).
Proof.
  intros Hp. unfold path_pop, parent. destruct p as [|c p _] using rev_ind; [done|].
  rewrite last_snoc, init_snoc. apply Forall_app in Hp as [Hp Hc]. destruct c; simpl; [by apply Forall_app|done..].
Qed.

Lemma proper_foldl p acc : proper_path acc → proper_path p → proper_path (foldl push_component acc p).
Proof.
  revert acc. induction p as [|c p IH]; intros acc Ha Hp; [done|]. apply Forall_cons in Hp as [Hc Hp].
  simpl. apply IH; [|done]. destruct c; simpl; [|done|by apply proper_pop|].
  - by apply Forall_singleton.
  - apply Forall_app. split; [done|]. by apply Forall_singleton.
Qed.

Section paths.
Context `{Host}.

(** Resolving a text against a base keeps the components proper. *)
Lemma resolve_proper s base :
  proper_path base → (∀ h, home_dir = Some h → proper_path h) → proper_path (resolve_path_against_base (path_new s) base).
Proof.
  intros Hb Hh. unfold resolve_path_against_base, absolutize_from, normalize_path.
  assert (∀ p q, proper_path p → proper_path q → proper_path (path_join p q)) as Hjoin.
  { intros p q Hp Hq. unfold path_join. destruct (is_absolute q); [done|]. destruct p; [done|].
    apply Forall_app. split; [done|]. apply Forall_forall. intros x [_ Hx]%list_elem_of_filter.
    unfold proper_path in Hq. rewrite Forall_forall in Hq. by apply Hq. }
  assert (proper_path (maybe_expand_home_directory (path_new s))) as He.
  { unfold maybe_expand_home_directory. pose proof (path_new_proper s) as Hp.
    destruct home_dir as [h|]; [|by destruct (path_new s) as [|[]]]. destruct (path_new s) as [|[| | |n] rest]; try done.
    case_decide; [|done]. apply Hjoin; [by apply Hh|]. by apply Forall_cons in Hp as []. }
  assert (proper_path (foldl push_component [] (path_with_base (maybe_expand_home_directory (path_new s)) base))) as Hf.
  { apply proper_foldl; [constructor|]. unfold path_with_base. destruct (is_absolute _); [done|]. by apply Hjoin. }
  destruct (foldl _ _ _); [by repeat constructor|done].
Qed.

Lemma resolve_normal p base : normal p → resolve_path_against_base p base = p.
Proof.
  intros Hp. unfold resolve_path_against_base. rewrite expand_absolute by auto with codex.
  unfold absolutize_from, path_with_base. rewrite normal_is_absolute by done. by rewrite normalize_path_id.
Qed.

(** A resolved pattern resolves to itself. *)
Lemma resolve_resolved s base :
  is_absolute base = true → proper_path base → (∀ h, home_dir = Some h → proper_path h) →
  resolve_path_against_base (path_new (path_text (resolve_path_against_base (path_new s) base))) base
  = resolve_path_against_base (path_new s) base.
Proof.
  intros Ha Hb Hh. pose proof (resolve_against_base_normal (path_new s) base Ha) as Hn.
  rewrite path_new_text; [by apply resolve_normal|done|by apply resolve_proper].
Qed.
End paths.

(** * The fixed part of a pattern *)

(** Characters of a pattern that stand for themselves, and the components made of them. *)
Definition literal_char (c : N) : Prop := c ∉ lit "*?[]{}\".
#[export] Instance literal_char_dec c : Decision (literal_char c).
Proof. unfold literal_char. apply _. Defined.
Definition literal_component (c : Component) : Prop := Forall literal_char (component_text c).

(** What a glob of [globset] with [literal_separator] matches: the components
    before its first metacharacter match only themselves. *)
Class GlobLaws `{Globs} : Prop := {
  glob_fixed_part q rest m t :
    normal (q ++ rest) → proper_path (q ++ rest) → Forall literal_component q → build_glob_matcher (path_text (q ++ rest)) = Ok m →
    m t = true → q `prefix_of` t
}.

(** A pattern without alternatives and escapes. *)
Definition unescaped (c : N) : Prop := c ∉ lit "{}\".
#[export] Instance unescaped_dec c : Decision (unescaped c).
Proof. unfold unescaped. apply _. Defined.

Lemma literal_of_unescaped x : unescaped x → ¬ is_glob_char x → literal_char x.
Proof.
  unfold unescaped, literal_char, is_glob_char. change (lit "*?[]{}\") with ([42; 63; 91; 93] ++ lit "{}\")%N.
  rewrite elem_of_app. tauto.
Qed.

(** A text cut in the middle of its pieces. *)
Lemma join_cut d ts j :
  ts ≠ [] → j ≤ length (join [d] ts) →
  ∃ ts1 u v ts2, ts = ts1 ++ (u ++ v) :: ts2 ∧ take j (join [d] ts) = join [d] (ts1 ++ [u]).
Proof.
  revert j. induction ts as [|t ts IH]; intros j Hne Hj; [done|].
  assert (j ≤ length t → ∃ ts1 u v ts2, t :: ts = ts1 ++ (u ++ v) :: ts2
            ∧ take j (join [d] (t :: ts)) = join [d] (ts1 ++ [u])) as Hshort.
  { intros Hl. exists [], (take j t), (drop j t), ts. split; [by rewrite take_drop|]. simpl.
    destruct ts; [done|]. by rewrite take_app_le. }
  destruct (decide (j ≤ length t)) as [|Hl]; [by apply Hshort|].
  destruct ts as [|t' ts]; [simpl in *; lia|].
  rewrite join_cons, !length_app in Hj by done. simpl in Hj.
  destruct (IH (j - S (length t))) as (ts1 & u & v & ts2 & Hts & Ht); [done|simpl; lia|].
  exists (t :: ts1), u, v, ts2. split; [by rewrite Hts|]. rewrite join_cons by done.
  rewrite take_app_ge by lia. replace (j - length t) with (S (j - S (length t))) by lia.
  change (take (S ?n) ([d] ++ ?l)) with (d :: take n l). rewrite Ht. cbn [app].
  by rewrite join_cons by (by destruct ts1).
Qed.

Lemma elem_of_join d ts t x : t ∈ ts → x ∈ t → x ∈ join [d] ts.
Proof.
  induction ts as [|t' ts IH]; intros Ht Hx; [by apply elem_of_nil in Ht|].
  destruct ts as [|t'' ts]; [by apply list_elem_of_singleton in Ht as ->|].
  rewrite join_cons, !elem_of_app by done. apply elem_of_cons in Ht as [->|Ht]; [by left|]. right. right. by apply IH.
Qed.

Lemma fmap_cut (names : Path) ts1 t ts2 :
  component_text <$> names = ts1 ++ t :: ts2 →
  ∃ names1 c names2, names = names1 ++ c :: names2 ∧ component_text <$> names1 = ts1 ∧ component_text c = t.
Proof.
  intros (names1 & rest & -> & Hr & ->)%fmap_app_inv.
  destruct rest as [|c names2]; [done|]. injection Hr as -> ->. by exists names1, c, names2.
Qed.

Lemma names_of_app ts ts' : names_of (ts ++ ts') = names_of ts ++ names_of ts'.
Proof. unfold names_of. by rewrite filter_app, fmap_app. Qed.

Section fixed.
Context `{HostLaws}.

(** The parent of what is before the first metacharacter. *)
Lemma parent_of_cut (a : Path) u sp :
  normal a → u ≠ [] → parent (a ++ names_of [u]) ≫= from_absolute_path = Some sp → sp `prefix_of` a.
Proof.
  intros Ha Hu. destruct (decide (u = lit ".")) as [->|Hd].
  - change (names_of [lit "."]) with (@nil Component). rewrite app_nil_r.
    destruct Ha as (names & -> & Hn). destruct names as [|c names _] using rev_ind; [by intros ?|].
    unfold parent. rewrite app_comm_cons, last_snoc, init_snoc. apply Forall_app in Hn as [Hn Hc].
    rewrite Forall_singleton in Hc. destruct c as [| | |n]; [done..|].
    change (from_absolute_path (RootDir :: names) = Some sp → sp `prefix_of` (RootDir :: names) ++ [Normal n]).
    rewrite from_absolute_path_id by by exists names. intros [= <-]. by exists [Normal n].
  - unfold names_of. rewrite filter_cons_True by done. change (filter _ []) with (@nil str). csimpl.
    unfold parent. rewrite last_snoc, init_snoc.
    assert (name_component u ≠ RootDir) as Hnr by (unfold name_component; by case_decide).
    destruct (name_component u); [done|..]; change (Some a ≫= from_absolute_path) with (from_absolute_path a);
      rewrite from_absolute_path_id by done; by intros [= <-].
Qed.

(** The fixed part of a pattern is a prefix of it, without metacharacters. *)
Lemma static_prefix_spec pattern cwd q sp :
  resolve_path_against_base (path_new pattern) cwd = q → normal q → proper_path q → Forall unescaped (path_text q) →
  glob_static_prefix_path pattern cwd = Some sp →
  sp `prefix_of` q ∧ Forall literal_component sp.
Proof.
  intros Hq Hn Hp Hu. unfold glob_static_prefix_path. rewrite Hq.
  assert (∀ a, normal a → (∀ x, x ∈ path_text a → x ∈ path_text q ∧ ¬ is_glob_char x) → Forall literal_component a) as Hlit.
  { intros a (ns & -> & Hns) Hx. apply Forall_forall. intros c Hc. apply Forall_forall. intros x Hxc.
    assert (x ∈ path_text (RootDir :: ns)) as Hin.
    { simpl. apply elem_of_cons in Hc as [->|Hc]; [apply list_elem_of_singleton in Hxc as ->; by left|].
      right. eapply elem_of_join, Hxc. by apply list_elem_of_fmap_2. }
    destruct (Hx x Hin) as [Hin' Hg]. rewrite Forall_forall in Hu. apply literal_of_unescaped; auto. }
  destruct (list_find _ (path_text q)) as [[i g]|] eqn:Hf.
  2:{ simpl. rewrite path_new_text, from_absolute_path_id by done. intros [= <-]. split; [done|].
      apply Hlit; [done|]. intros x Hx. split; [done|]. rewrite list_find_None, Forall_forall in Hf. by apply Hf. }
  apply list_find_Some in Hf as (Hi & _ & Hbefore). destruct i as [|i]; [done|].
  pose proof Hn as (names & -> & Hns). apply Forall_cons in Hp as [_ Hp]. simpl path_text in *.
  pose proof (lookup_lt_Some _ _ _ Hi) as Hlen. simpl in Hlen.
  destruct (join_cut slash (component_text <$> names) i) as (ts1 & u & v & ts2 & Hts & Htake); [|lia|].
  { intros E. rewrite E in Hi. by destruct i. }
  apply fmap_cut in Hts as (names1 & c & names2 & -> & <- & Hc).
  apply Forall_app in Hns as [Hns1 [Hcn _]%Forall_cons]. apply Forall_app in Hp as [Hp1 [Hcp _]%Forall_cons].
  assert (normal (RootDir :: names1)) as Ha by by exists names1.
  cbn [take]. rewrite Htake.
  assert (Forall (λ t, slash ∉ t) ((component_text <$> names1) ++ [u])) as Hslash.
  { apply Forall_app. split; [by apply proper_no_slash|]. apply Forall_singleton.
    destruct c; [done..|]. destruct Hcp as (_ & _ & _ & Hcp). simpl in Hc. subst. set_solver. }
  rewrite path_new_join by (by destruct names1 || done). rewrite names_of_app, names_of_proper by done.
  assert (Forall literal_component (RootDir :: names1)) as Hl.
  { apply Hlit; [done|]. intros x Hx. simpl in Hx.
    assert (x ∈ take (S i) (slash :: join [slash] (component_text <$> names1 ++ c :: names2))) as Hxt.
    { simpl. rewrite Htake. apply elem_of_cons in Hx as [->|Hx]; [by left|right].
      destruct names1 as [|n1 names1]; [by apply elem_of_nil in Hx|].
      rewrite join_snoc by done. rewrite elem_of_app. by left. }
    apply elem_of_take in Hxt as (k & Hk & Hlt). split; [by eapply list_elem_of_lookup_2|by eapply Hbefore]. }
  assert (RootDir :: names1 `prefix_of` RootDir :: names1 ++ c :: names2) as Hpre by (by exists (c :: names2)).
  assert (sp `prefix_of` RootDir :: names1 → sp `prefix_of` RootDir :: names1 ++ c :: names2
            ∧ Forall literal_component sp) as Hdone.
  { intros Hs. split; [by etrans|]. destruct Hs as [k Hk]. rewrite Hk in Hl. by apply Forall_app in Hl as [? _]. }
  destruct (decide (u = [])) as [->|Hne].
  - change (names_of [[]]) with (@nil Component). rewrite app_nil_r, bool_decide_eq_true_2.
    2:{ left. destruct names1 as [|n1 names1]; [done|]. rewrite join_snoc by done. rewrite app_nil_r.
        by rewrite app_comm_cons, last_snoc. }
    change (Some (RootDir :: names1) ≫= from_absolute_path = Some sp → sp `prefix_of` RootDir :: names1 ++ c :: names2
              ∧ Forall literal_component sp).
    cbn [mbind option_bind]. rewrite from_absolute_path_id by done. intros [= <-]. by apply Hdone.
  - rewrite bool_decide_eq_false_2.
    2:{ assert (last (slash :: join [slash] ((component_text <$> names1) ++ [u])) = last u) as Hlast.
        { destruct (last u) as [x|] eqn:E; [|by apply last_None in E].
          apply last_Some in E as [u' ->]. destruct names1 as [|n1 names1]; [simpl; by rewrite app_comm_cons, last_snoc|].
          rewrite join_snoc by done. by rewrite !app_assoc, app_comm_cons, last_snoc. }
        rewrite Hlast. intros Hx. assert (∃ x, last u = Some x ∧ x ∈ u) as (x & Hlx & Hxu).
        { destruct (last u) as [x|] eqn:E; [|by apply last_None in E]. exists x. split; [done|].
          apply last_Some in E as [u' ->]. set_solver. }
        rewrite Hlx in Hx. apply Forall_app in Hslash as [_ Hsl]. rewrite Forall_singleton in Hsl.
        destruct Hx as [[= ->]|[= ->]]; [done|].
        rewrite Forall_forall in Hu. assert (unescaped 92%N) as Hesc; [|by apply Hesc; right; right; left].
        apply Hu. right. eapply (elem_of_join _ _ (component_text c)); [|rewrite Hc, elem_of_app; by left].
        apply list_elem_of_fmap_2. rewrite elem_of_app. right. by left. }
    intros Hsp. apply Hdone. eapply parent_of_cut; [done..|]. exact Hsp.
Qed.

(** What a pattern matches lies below its fixed part. *)
Lemma static_prefix_above `{GlobLaws} pattern cwd sp m t :
  is_absolute cwd = true → proper_path cwd → (∀ h, home_dir = Some h → proper_path h) →
  Forall unescaped (path_text (resolve_path_against_base (path_new pattern) cwd)) →
  glob_static_prefix_path pattern cwd = Some sp →
  build_glob_matcher (path_text (resolve_path_against_base (path_new pattern) cwd)) = Ok m → m t = true →
  sp `prefix_of` t.
Proof.
  intros Ha Hp Hh Hu Hsp Hm Hmt. pose proof (resolve_against_base_normal (path_new pattern) cwd Ha) as Hn.
  pose proof (resolve_proper pattern cwd Hp Hh) as Hpr.
  destruct (static_prefix_spec pattern cwd _ sp eq_refl Hn) as [[rest Hq] Hl]; [done..|].
  rewrite Hq in Hn, Hm, Hpr. by eapply glob_fixed_part.
Qed.
End fixed.

(** * Patterns of whole components *)

(** A matcher for patterns in which a star stands for one component; brackets are
    rejected. *)
Module WholeComponents.
Fixpoint matches (pattern path : Path) : bool :=
  match pattern, path with
  | [], [] => true
  | c :: pattern, x :: path => (bool_decide (c = Normal (lit "*")) || bool_decide (c = x)) && matches pattern path
  | _, _ => false
  end.
#[export] Instance globs : Globs := {
  build_glob_matcher pattern :=
    if contains pattern (lit "[") then Err (lit "brackets") else Ok (matches (path_new pattern))
}.

#[export] Instance laws : GlobLaws.
Proof.
  constructor. intros q rest m t Hn Hp Hl Hm Hmt. simpl in Hm. destruct (contains _ _); [done|]. injection Hm as <-.
  rewrite path_new_text in Hmt by done. clear Hn Hp. revert t Hmt. induction q as [|c q IH]; intros t Hmt; [apply prefix_nil|].
  apply Forall_cons in Hl as [Hc Hl]. destruct t as [|x t]; [done|]. simpl in Hmt.
  apply andb_true_iff in Hmt as [Hcx Hmt]. apply orb_true_iff in Hcx as [Hs|Hx].
  - apply bool_decide_eq_true in Hs as ->. exfalso. unfold literal_component in Hc. apply Forall_cons in Hc as [Hc _].
    apply Hc. left.
  - apply bool_decide_eq_true in Hx as ->. apply prefix_cons. by apply IH.
Qed.
End WholeComponents.
