(* ===== verification/PermissionTransformsSpec.v ===== *)
(** What the transforms of [PermissionTransforms] promise: what is granted
    stays within what was requested, permissions on top of a policy decide like
    the more specific of both, and the forms permissions are stored in. *)

From S2P Require Import Prelude Text Paths Permissions PermissionsSpec SandboxRoots PermissionTransforms.
From S2P Require Import SandboxRootsSpec PermissionGlobsSpec.

Section spec.
Context `{HostLaws, Globs}.
Implicit Types (p : FileSystemSandboxPolicy) (r : ResolvedFileSystemEntry) (e : FileSystemSandboxEntry).
Implicit Types (fs requested granted : FileSystemPermissions.t).

Notation fs_policy fs := (restricted (FileSystemPermissions.entries fs)).

(** ** Resolution agrees with that of a policy *)

Lemma from_absolute cwd : is_absolute cwd = true → from_absolute_path cwd = Some (normalize_path cwd).
Proof.
  intros Ha. unfold from_absolute_path, absolutize. by rewrite expand_absolute, Ha by done.
Qed.

Lemma ancestors_last cwd : is_absolute cwd = true → last (ancestors cwd) = Some [RootDir].
Proof.
  intros Ha. unfold ancestors. rewrite Ha. unfold is_absolute in Ha. apply bool_decide_eq_true in Ha.
  destruct cwd as [|c cwd]; [done|]. injection Ha as ->. simpl. rewrite Nat.add_0_r.
  rewrite fmap_last, reverse_cons, last_snoc. simpl. by rewrite take_0.
Qed.

Lemma resolve_permission_path_eq path cwd :
  is_absolute cwd = true →
  resolve_permission_path path cwd = resolve_entry_path path (from_absolute_path cwd).
Proof.
  intros Ha. pose proof (from_absolute cwd Ha) as Hc.
  destruct path as [q|g|[| |subpath| | |u s]]; simpl; try done.
  - rewrite ancestors_last, Hc by done. simpl.
    rewrite absolute_root_normal by (by eapply from_absolute_path_normal).
    apply from_absolute_path_id, normal_root.
  - rewrite Hc. simpl. by destruct subpath.
Qed.

(** An entry made independent of the current directory names the same path. *)
Lemma resolve_materialized_entry e cwd :
  is_absolute cwd = true →
  resolve_entry_path (entry_path (materialize_cwd_dependent_entry e cwd)) (from_absolute_path cwd)
  = resolve_entry_path (entry_path e) (from_absolute_path cwd).
Proof.
  intros Ha. pose proof (from_absolute cwd Ha) as Hc. destruct e as [path a b]. simpl.
  destruct path as [q|g|[| |s| | |u s]]; simpl; try done.
  rewrite Hc. simpl. by destruct s.
Qed.

Lemma elem_of_policy es cwd r :
  r ∈ resolved_entries_with_cwd (restricted es) cwd ↔
  ∃ e, e ∈ es ∧ resolve_entry_path (entry_path e) (from_absolute_path cwd) = Some (resolved_path r)
       ∧ entry_access e = resolved_access r.
Proof. apply elem_of_resolved. Qed.

(** ** The entries of an intersection *)

Lemma elem_of_intersection requested granted cwd e :
  e ∈ FileSystemPermissions.entries (intersect_file_system requested granted cwd) ↔
  e ∈ accepted_grants requested granted cwd
  ∨ e ∈ constraining_deny_entries (FileSystemPermissions.entries requested)
          (accepted_grants requested granted cwd) cwd
  ∨ e ∈ constraining_deny_entries (FileSystemPermissions.entries granted)
          (accepted_grants requested granted cwd) cwd.
Proof.
  unfold intersect_file_system, retain_constraining_deny_entries. simpl.
  rewrite !elem_of_foldl_push_absent. tauto.
Qed.

Lemma elem_of_accepted requested granted cwd e :
  e ∈ accepted_grants requested granted cwd ↔
  ∃ g, g ∈ FileSystemPermissions.entries granted ∧ e = materialize_cwd_dependent_entry g cwd
       ∧ granted_file_system_entry_within_request requested (fs_policy requested)
           (read_deny_matcher (fs_policy requested) cwd) g cwd = true.
Proof.
  unfold accepted_grants. rewrite elem_of_foldl_push_absent, elem_of_nil, list_elem_of_fmap.
  setoid_rewrite list_elem_of_filter. naive_solver.
Qed.

Lemma elem_of_constraining source accepted cwd e :
  e ∈ constraining_deny_entries source accepted cwd ↔
  ∃ d, d ∈ source ∧ entry_access d = Deny ∧ e = materialize_cwd_dependent_entry d cwd
       ∧ deny_entry_constrains_accepted_grant d accepted cwd = true.
Proof.
  unfold constraining_deny_entries. rewrite list_elem_of_fmap.
  setoid_rewrite list_elem_of_filter. setoid_rewrite list_elem_of_filter. naive_solver.
Qed.

(** Nothing is granted where no permissions are. *)
Lemma intersect_default requested cwd :
  FileSystemPermissions.is_empty (intersect_file_system requested FileSystemPermissions.default cwd) = true.
Proof.
  apply is_nil_true. assert (∀ e, e ∉ accepted_grants requested FileSystemPermissions.default cwd) as Hnone.
  { intros e (g & Hg & _)%elem_of_accepted. by apply elem_of_nil in Hg. }
  apply elem_of_nil_inv. intros e [He|[He|He]]%elem_of_intersection.
  - by apply (Hnone e).
  - apply elem_of_constraining in He as (d & _ & _ & _ & (x & Hx & _)%existsb_elem).
    apply list_elem_of_filter in Hx as [_ Hx]. by apply (Hnone x).
  - apply elem_of_constraining in He as (d & Hd & _). by apply elem_of_nil in Hd.
Qed.

(** A denial on a path that an accepted grant shares a branch with is retained. *)
Lemma constrains_overlap d accepted cwd g t rd rg :
  is_absolute cwd = true → g ∈ accepted → can_read (entry_access g) = true →
  resolve_entry_path (entry_path d) (from_absolute_path cwd) = Some rd →
  resolve_entry_path (entry_path g) (from_absolute_path cwd) = Some rg →
  rd `prefix_of` t → rg `prefix_of` t →
  deny_entry_constrains_accepted_grant d accepted cwd = true.
Proof.
  intros Ha Hg Hr Hd Hgp Hdt Hgt. apply existsb_elem. exists g. split.
  { by apply list_elem_of_filter. }
  rewrite <- resolve_permission_path_eq in Hd, Hgp by done. rewrite Hgp.
  assert (match entry_path d with
          | FileSystemPath.GlobPattern pattern => glob_static_prefix_path pattern cwd
          | path => resolve_permission_path path cwd
          end = Some rd) as -> by (by destruct (entry_path d)).
  unfold paths_overlap. apply orb_true_iff. rewrite !path_starts_with_true.
  destruct (decide (length rg ≤ length rd)); [left|right]; eapply prefix_of_longer; eauto; lia.
Qed.

(** ** The entry that decides about a path of an intersection *)

Section intersection.
Context (requested granted : FileSystemPermissions.t) (cwd : Path).
Hypothesis Habs : is_absolute cwd = true.

Let out := fs_policy (intersect_file_system requested granted cwd).
Let resolved fs := resolved_entries_with_cwd (fs_policy fs) cwd.

(** A readable entry of the intersection is a grant within the request. *)
Lemma readable_is_granted r :
  r ∈ resolved_entries_with_cwd out cwd → resolved_access r ≠ Deny →
  r ∈ resolved granted
  ∧ access_covers (resolve_access_with_cwd (fs_policy requested) (resolved_path r) cwd) (resolved_access r) = true
  ∧ ∃ e, e ∈ accepted_grants requested granted cwd ∧ can_read (entry_access e) = true
         ∧ resolve_entry_path (entry_path e) (from_absolute_path cwd) = Some (resolved_path r).
Proof.
  intros (e & He & Hp & Hacc)%elem_of_policy Hnd.
  apply elem_of_intersection in He as [He|[He|He]].
  2,3: apply elem_of_constraining in He as (d & _ & Hd & -> & _); simpl in Hacc; congruence.
  pose proof He as Hin. apply elem_of_accepted in He as (g & Hg & -> & Hw).
  rewrite resolve_materialized_entry in Hp by done. simpl in Hacc. split_and!.
  - apply elem_of_policy. by exists g.
  - unfold granted_file_system_entry_within_request in Hw.
    destruct (can_read (entry_access g)); [|done]. simpl in Hw.
    rewrite resolve_permission_path_eq, Hp in Hw by done.
    rewrite <- Hacc. by destruct (match read_deny_matcher _ _ with Some _ => _ | None => _ end).
  - exists (materialize_cwd_dependent_entry g cwd). rewrite resolve_materialized_entry by done.
    split_and!; [done| |done]. simpl. unfold can_read. rewrite Hacc. by apply negb_true_iff, bool_decide_eq_false.
Qed.

(** No denial of either side lies between a deciding grant and the path. *)
Lemma no_denial_below side t m d :
  side = requested ∨ side = granted →
  decides (resolved_entries_with_cwd out cwd) t m → resolved_access m ≠ Deny →
  covers (resolved side) t d → resolved_access d = Deny →
  length (resolved_path d) < length (resolved_path m).
Proof.
  intros Hside [[Hmin Hmt] Hmax] Hm [Hd Hdt] Hda.
  destruct (readable_is_granted m Hmin Hm) as (_ & _ & e & He & Hread & Hep).
  apply elem_of_policy in Hd as (de & Hde & Hdp & Hdacc).
  assert (covers (resolved_entries_with_cwd out cwd) t d) as Hcov.
  { split; [|done]. apply elem_of_policy. exists (materialize_cwd_dependent_entry de cwd).
    rewrite resolve_materialized_entry by done. split_and!; [|done|done].
    apply elem_of_intersection. right.
    assert (materialize_cwd_dependent_entry de cwd
              ∈ constraining_deny_entries (FileSystemPermissions.entries side)
                  (accepted_grants requested granted cwd) cwd).
    { apply elem_of_constraining. exists de. split_and!; [done|congruence|done|].
      by eapply constrains_overlap. }
    destruct Hside; subst side; [by left|by right]. }
  destruct (Hmax d Hcov) as [Hp Hrank]. apply prefix_length in Hp as Hl.
  destruct (decide (length (resolved_path d) = length (resolved_path m))) as [Heq|]; [|lia].
  apply prefix_length_eq in Hp; [|lia]. specialize (Hrank Hp). rewrite Hda in Hrank.
  destruct (resolved_access m); simpl in Hrank; [lia|lia|done].
Qed.

Lemma read_at_least_decides side t m n :
  side = requested ∨ side = granted →
  decides (resolved_entries_with_cwd out cwd) t m → resolved_access m ≠ Deny →
  decides (resolved side) (resolved_path m) n → resolved_access n ≠ Deny →
  ∃ n', decides (resolved side) t n' ∧ resolved_access n' ≠ Deny
        ∧ resolved_path n `prefix_of` resolved_path n'.
Proof.
  intros Hside Hdm Hm [[Hn Hnm] Hnmax] Hna. pose proof Hdm as [[_ Hmt] _].
  assert (covers (resolved side) t n) as Hcn by (split; [done|by etrans]).
  destruct (deciding (resolved side) t) as [n'|] eqn:Hn'.
  2:{ exfalso. by apply (proj1 (deciding_None _ _) Hn' n). }
  apply deciding_decides in Hn' as Hdn'. exists n'. pose proof Hdn' as [[Hin' Hn't] Hmax'].
  destruct (Hmax' n Hcn) as [Hpre _]. split_and!; [done| |done]. intros Hdeny.
  assert (length (resolved_path n') < length (resolved_path m)) as Hl by by eapply no_denial_below.
  destruct (Hnmax n') as [Hp' Hrank].
  { split; [done|]. eapply prefix_of_longer; [done..|lia]. }
  assert (resolved_path n' = resolved_path n) as Heq.
  { apply prefix_length in Hpre as ?. by apply prefix_length_eq. }
  specialize (Hrank Heq). rewrite Hdeny in Hrank. destruct (resolved_access n); simpl in Hrank; [lia|lia|done].
Qed.

(** What decides about a readable path of the intersection, in both sides. *)
Lemma readable_within path t :
  wf_entries (FileSystemPermissions.entries granted) → resolve_candidate_path path cwd = Some t →
  can_read_path_with_cwd out path cwd = true →
  ∃ m nr ng, decides (resolved_entries_with_cwd out cwd) t m
    ∧ resolved_access m = resolve_access_with_cwd out path cwd
    ∧ m ∈ resolved granted
    ∧ access_covers (resolve_access_with_cwd (fs_policy requested) (resolved_path m) cwd) (resolved_access m) = true
    ∧ decides (resolved requested) t nr ∧ resolved_access nr ≠ Deny
    ∧ decides (resolved granted) t ng ∧ resolved_access ng ≠ Deny.
Proof.
  intros Hwf Ht Hread. unfold can_read_path_with_cwd in Hread.
  rewrite (resolve_access_deciding out path cwd t eq_refl Ht) in *.
  destruct (deciding (resolved_entries_with_cwd out cwd) t) as [m|] eqn:Hm; [|done]. simpl in *.
  apply deciding_decides in Hm as Hdm. pose proof Hdm as [[Hmin Hmt] _].
  assert (resolved_access m ≠ Deny) as Hma by by intros Heq; rewrite Heq in Hread.
  destruct (readable_is_granted m Hmin Hma) as (Hg & Hcov & _).
  pose proof (resolve_candidate_id (resolved_path m) cwd (resolved_normal (fs_policy granted) cwd m Hwf Hg)) as Hmc.
  assert (∃ n, decides (resolved requested) (resolved_path m) n ∧ resolved_access n ≠ Deny) as (nr0 & Hr0 & Hra0).
  { rewrite (resolve_access_deciding (fs_policy requested) _ _ _ eq_refl Hmc) in Hcov.
    destruct (deciding _ (resolved_path m)) as [n|] eqn:E; simpl in Hcov; [|by destruct (resolved_access m)].
    exists n. split; [by apply deciding_decides|]. intros Hd. rewrite Hd in Hcov. by destruct (resolved_access m). }
  assert (∃ n, decides (resolved granted) (resolved_path m) n ∧ resolved_access n ≠ Deny) as (ng0 & Hg0 & Hga0).
  { destruct (deciding (resolved granted) (resolved_path m)) as [n|] eqn:E.
    2:{ exfalso. by apply (proj1 (deciding_None _ _) E m). }
    apply deciding_decides in E as Hd. exists n. split; [done|]. intros Hdeny. destruct Hd as [[Hn Hnm] Hmax].
    assert (length (resolved_path n) < length (resolved_path m)).
    { eapply (no_denial_below granted t m n); [by right|done..|split; [done|by etrans]|done]. }
    destruct (Hmax m) as [Hp%prefix_length _]; [done|]. lia. }
  destruct (read_at_least_decides requested t m nr0) as (nr & ? & ? & _); [by left|done..|].
  destruct (read_at_least_decides granted t m ng0) as (ng & ? & ? & _); [by right|done..|].
  exists m, nr, ng. split_and!; done.
Qed.
End intersection.

Lemma access_of_decides p path cwd t n :
  is_restricted p = true → resolve_candidate_path path cwd = Some t →
  decides (resolved_entries_with_cwd p cwd) t n →
  resolve_access_with_cwd p path cwd = resolved_access n.
Proof.
  intros Hr Ht Hd. rewrite (resolve_access_deciding _ _ _ _ Hr Ht).
  by destruct (deciding_of_decides _ _ _ Hd) as (n' & -> & _ & <-).
Qed.

(** ** The patterns and the scan depth of an intersection *)

Lemma elem_of_insert_sorted x y l : x ∈ insert_sorted y l ↔ x = y ∨ x ∈ l.
Proof. induction l as [|z l IH]; simpl; [set_solver|]. case_match; rewrite ?elem_of_cons, ?IH; tauto. Qed.
Lemma elem_of_dedup_sorted x l : x ∈ dedup l ↔ x ∈ l.
Proof.
  induction l as [|y l IH]; [done|]. destruct l as [|z l]; [done|]. cbn [dedup] in *.
  case_decide as E; rewrite ?elem_of_cons in *; rewrite ?IH; subst; rewrite ?elem_of_cons; tauto.
Qed.

Lemma elem_of_globs fs cwd pattern :
  pattern ∈ get_unreadable_globs_with_cwd (fs_policy fs) cwd ↔
  ∃ e, e ∈ FileSystemPermissions.entries fs ∧ entry_access e = Deny ∧ deny_glob cwd e = Some pattern.
Proof.
  unfold get_unreadable_globs_with_cwd. simpl. rewrite elem_of_dedup_sorted.
  assert (∀ l, pattern ∈ foldr insert_sorted [] l ↔ pattern ∈ l) as Hs.
  { induction l as [|y l IH]; [done|]. simpl. rewrite elem_of_insert_sorted, elem_of_cons, IH. done. }
  rewrite Hs, list_elem_of_omap. unfold deny_entries. simpl. setoid_rewrite list_elem_of_filter.
  naive_solver.
Qed.

(** A pattern whose fixed part the code finds: no alternatives, no escapes, and a
    directory before its first metacharacter. *)
Definition plain_pattern (cwd : Path) e : Prop :=
  match entry_path e with
  | FileSystemPath.GlobPattern pattern =>
      Forall unescaped (path_text (resolve_path_against_base (path_new pattern) cwd))
      ∧ is_Some (glob_static_prefix_path pattern cwd)
  | _ => True
  end.

(** A scan that goes to one depth goes at least to the other; no depth is no limit. *)
Definition scans_as_deep (depth other : option positive) : Prop :=
  match depth with None => True | Some d => ∃ d', other = Some d' ∧ (d' ≤ d)%positive end.

Lemma merged_depth left_entries left_depth right_entries right_depth e :
  e ∈ left_entries ∨ e ∈ right_entries → is_deny e = true → is_glob (entry_path e) = true →
  let merged := non_zero_depth (merge_glob_scan_max_depth left_entries (depth_of_non_zero left_depth)
                                  right_entries (depth_of_non_zero right_depth)) in
  (e ∈ left_entries → scans_as_deep merged left_depth) ∧ (e ∈ right_entries → scans_as_deep merged right_depth).
Proof.
  intros _ Hd Hg merged.
  assert (∀ es depth, e ∈ es → effective_glob_scan_depth es depth
            = Some (match depth with Some depth => Bounded depth | None => Unbounded end)) as Heff.
  { intros es depth He. unfold effective_glob_scan_depth.
    assert (existsb (λ e, is_deny e && is_glob (entry_path e)) es = true) as ->; [|done].
    apply existsb_elem. exists e. by rewrite Hd, Hg. }
  unfold merged, merge_glob_scan_max_depth. split; intros He; rewrite (Heff _ _ He).
  - destruct left_depth as [l|]; simpl; [|done].
    destruct (effective_glob_scan_depth right_entries _) as [[r|]|]; simpl; [|done|].
    + destruct (N.max (Npos l) r) as [|d] eqn:E; simpl; [done|]. exists l. split; [done|]. lia.
    + exists l. split; [done|]. lia.
  - destruct right_depth as [r|]; simpl.
    + destruct (effective_glob_scan_depth left_entries _) as [[l|]|]; simpl; [|done|].
      * destruct (N.max l (Npos r)) as [|d] eqn:E; simpl; [done|]. exists r. split; [done|]. lia.
      * exists r. split; [done|]. lia.
    + by destruct (effective_glob_scan_depth left_entries _) as [[l|]|].
Qed.

Section patterns.
Context `{!GlobLaws} (requested granted : FileSystemPermissions.t) (cwd : Path).
Hypothesis Habs : is_absolute cwd = true.
Hypothesis Hcwd : proper_path cwd.
Hypothesis Hhome : ∀ h, home_dir = Some h → proper_path h.

(** The denial of a pattern that matches below an accepted grant constrains it. *)
Lemma pattern_constrains d accepted g pattern m t rg :
  plain_pattern cwd d → g ∈ accepted → can_read (entry_access g) = true →
  deny_glob cwd d = Some pattern → build_glob_matcher pattern = Ok m → m t = true →
  resolve_entry_path (entry_path g) (from_absolute_path cwd) = Some rg → rg `prefix_of` t →
  deny_entry_constrains_accepted_grant d accepted cwd = true.
Proof.
  intros Hplain Hg Hr Hd Hm Hmt Hgp Hgt. apply existsb_elem. exists g. split; [by apply list_elem_of_filter|].
  rewrite <- resolve_permission_path_eq in Hgp by done. rewrite Hgp.
  unfold deny_glob in Hd. unfold plain_pattern in Hplain.
  destruct (entry_path d) as [q|text|s]; [done| |done]. injection Hd as <-. destruct Hplain as [Hu [sp Hsp]].
  rewrite Hsp. pose proof (static_prefix_above text cwd sp m t Habs Hcwd Hhome Hu Hsp Hm Hmt) as Hst.
  unfold paths_overlap. apply orb_true_iff. rewrite !path_starts_with_true.
  destruct (decide (length rg ≤ length sp)); [left|right]; eapply prefix_of_longer; eauto; lia.
Qed.

(** A pattern of one side that matches a path the grants reach is a pattern of the
    intersection, which scans as deep for it. *)
Lemma pattern_is_retained side e pattern m t g rg :
  side = requested ∨ side = granted →
  e ∈ FileSystemPermissions.entries side → entry_access e = Deny → plain_pattern cwd e →
  deny_glob cwd e = Some pattern → build_glob_matcher pattern = Ok m → m t = true →
  g ∈ accepted_grants requested granted cwd → can_read (entry_access g) = true →
  resolve_entry_path (entry_path g) (from_absolute_path cwd) = Some rg → rg `prefix_of` t →
  let both := intersect_file_system requested granted cwd in
  pattern ∈ get_unreadable_globs_with_cwd (fs_policy both) cwd
  ∧ scans_as_deep (FileSystemPermissions.glob_scan_max_depth both) (FileSystemPermissions.glob_scan_max_depth side).
Proof.
  intros Hside He Ha Hplain Hd Hm Hmt Hg Hr Hrg Hgt both.
  assert (materialize_cwd_dependent_entry e cwd
            ∈ constraining_deny_entries (FileSystemPermissions.entries side) (accepted_grants requested granted cwd) cwd)
    as Hin.
  { apply elem_of_constraining. exists e. split_and!; [done..|]. by eapply pattern_constrains. }
  assert (deny_glob cwd (materialize_cwd_dependent_entry e cwd) = Some pattern
          ∧ is_glob (entry_path (materialize_cwd_dependent_entry e cwd)) = true) as [Hd' Hglob].
  { unfold deny_glob in *. simpl. destruct (entry_path e) as [q|text|s]; [done| |done]. injection Hd as <-.
    simpl. by rewrite resolve_resolved. }
  split.
  - apply elem_of_globs. exists (materialize_cwd_dependent_entry e cwd). split_and!; [|done|done].
    apply elem_of_intersection. destruct Hside; subst side; auto.
  - destruct (merged_depth
      (constraining_deny_entries (FileSystemPermissions.entries requested) (accepted_grants requested granted cwd) cwd)
      (FileSystemPermissions.glob_scan_max_depth requested)
      (constraining_deny_entries (FileSystemPermissions.entries granted) (accepted_grants requested granted cwd) cwd)
      (FileSystemPermissions.glob_scan_max_depth granted) (materialize_cwd_dependent_entry e cwd)) as [Hl Hrr].
    + destruct Hside; subst side; auto.
    + unfold is_deny. simpl. by apply bool_decide_eq_true.
    + done.
    + destruct Hside; subst side; [by apply Hl|by apply Hrr].
Qed.
End patterns.

(** The matcher of the request, if it has one, does not deny a path. *)
Definition not_read_denied (fs : FileSystemPermissions.t) (cwd q : Path) : Prop :=
  match read_deny_matcher (fs_policy fs) cwd with Some matcher => is_read_denied matcher q = false | None => True end.

Lemma build_matchers_valid patterns ms inv ms' :
  build_matchers patterns FailClosed ms inv = Ok (ms', false) →
  ∀ pattern, pattern ∈ patterns → ∃ m, build_glob_matcher pattern = Ok m.
Proof.
  revert ms inv. induction patterns as [|x patterns IH]; intros ms inv Hb pattern Hin; [by apply elem_of_nil in Hin|].
  simpl in Hb. destruct (build_glob_matcher x) as [m|] eqn:Hx.
  - apply elem_of_cons in Hin as [->|Hin]; [by exists m|]. by eapply IH.
  - exfalso. assert (∀ l ms, build_matchers l FailClosed ms true ≠ Ok (ms', false)) as Ht; [|by eapply Ht].
    clear. induction l as [|y l IH]; intros ms; simpl; [done|]. by case_match.
Qed.

(** Where a matcher denies nothing, every pattern compiles. *)
Lemma not_denied_compiles fs cwd q pattern :
  not_read_denied fs cwd q → pattern ∈ get_unreadable_globs_with_cwd (fs_policy fs) cwd →
  ∃ m, build_glob_matcher pattern = Ok m.
Proof.
  unfold not_read_denied, read_deny_matcher, SandboxRoots.new, build. intros Hq Hin.
  assert (has_denied_read_restrictions (fs_policy fs) = true) as Hd.
  { apply elem_of_globs in Hin as (e & He & Ha & _). unfold has_denied_read_restrictions. simpl.
    apply existsb_elem. exists e. split; [done|]. by apply bool_decide_eq_true. }
  rewrite Hd in Hq. simpl in Hq.
  destruct (build_matchers _ _ _ _) as [[ms inv]|] eqn:Hb; simpl in Hq.
  - destruct inv; [done|]. by eapply build_matchers_valid.
  - exfalso. revert Hb. generalize (get_unreadable_globs_with_cwd (fs_policy fs) cwd), (@nil (Path → bool)), false. clear.
    intros l. induction l as [|x l IH]; intros ms inv; simpl; [done|]. destruct (build_glob_matcher x); apply IH.
Qed.

Lemma accepted_not_denied requested granted cwd e q :
  is_absolute cwd = true → e ∈ accepted_grants requested granted cwd →
  resolve_entry_path (entry_path e) (from_absolute_path cwd) = Some q → not_read_denied requested cwd q.
Proof.
  intros Ha (g & _ & -> & Hw)%elem_of_accepted Hq. rewrite resolve_materialized_entry in Hq by done.
  unfold granted_file_system_entry_within_request in Hw. destruct (negb _); [done|].
  rewrite resolve_permission_path_eq, Hq in Hw by done. unfold not_read_denied.
  destruct (read_deny_matcher _ _) as [matcher|]; [|done]. by destruct (is_read_denied matcher q).
Qed.

(** A path can be read: an entry lets it be read, every pattern compiles, and none
    matches it as it is written. *)
Definition can_read_unmatched (fs : FileSystemPermissions.t) (cwd path t : Path) : Prop :=
  can_read_path_with_cwd (fs_policy fs) path cwd = true
  ∧ ∀ pattern, pattern ∈ get_unreadable_globs_with_cwd (fs_policy fs) cwd →
      ∃ m, build_glob_matcher pattern = Ok m ∧ m t = false.

(** The deciding entry of a readable path, as an accepted grant. *)
Lemma readable_by_grant requested granted cwd path t :
  is_absolute cwd = true → resolve_candidate_path path cwd = Some t →
  can_read_path_with_cwd (fs_policy (intersect_file_system requested granted cwd)) path cwd = true →
  ∃ r e, r ∈ resolved_entries_with_cwd (fs_policy granted) cwd ∧ resolved_path r `prefix_of` t
    ∧ e ∈ accepted_grants requested granted cwd ∧ can_read (entry_access e) = true
    ∧ resolve_entry_path (entry_path e) (from_absolute_path cwd) = Some (resolved_path r).
Proof.
  intros Ha Ht Hread. unfold can_read_path_with_cwd in Hread.
  rewrite (resolve_access_deciding (fs_policy (intersect_file_system requested granted cwd)) path cwd t eq_refl Ht) in Hread.
  destruct (deciding _ t) as [r|] eqn:Hr; [|done]. simpl in Hread.
  apply deciding_decides in Hr as [[Hin Hpre] _].
  destruct (readable_is_granted requested granted cwd Ha r Hin) as (Hg & _ & e & He & Hre & Hp).
  { intros Heq. by rewrite Heq in Hread. }
  by exists r, e.
Qed.

(** C34: A grant cut down to a request stays within both: the network only where
    both enable it; and, for permissions whose denied patterns are plain (no
    alternatives or escapes, and a fixed directory that the code finds) and for paths
    as they are written, with no link followed:
    - a path can be read (an entry lets it, and no denied pattern matches it or fails
      to compile) only where the request lets it be read and where the grant, of whose
      patterns only those that compile count, does too, below a path of the grant that
      the matcher of the request's denials does not deny;
    - a pattern of either side that matches a path the entries let be read is kept, and
      the depth of the scan for patterns is at least that of this side;
    - a path can be written only below the path of a write entry of the grant that the
      request lets be written. *)
Theorem intersection_within_both `{!GlobLaws} (requested granted : AdditionalPermissionProfile) cwd :
  is_absolute cwd = true → proper_path cwd → (∀ h, home_dir = Some h → proper_path h) →
  (∀ fs, file_system granted = Some fs → wf_entries (FileSystemPermissions.entries fs)) →
  (∀ fs e, file_system requested = Some fs ∨ file_system granted = Some fs →
     e ∈ FileSystemPermissions.entries fs → entry_access e = Deny → plain_pattern cwd e) →
  let both := intersect_permission_profiles requested granted cwd in
  (network both = Some (mkNetwork (Some true)) ↔
     network requested = Some (mkNetwork (Some true)) ∧ network granted = Some (mkNetwork (Some true)))
  ∧ ∀ fs, file_system both = Some fs → ∃ rfs gfs,
      file_system requested = Some rfs ∧ file_system granted = Some gfs
      ∧ ∀ path t, resolve_candidate_path path cwd = Some t →
      (can_read_unmatched fs cwd path t →
         can_read_unmatched rfs cwd path t
         ∧ can_read_path_with_cwd (fs_policy gfs) path cwd = true
         ∧ (∀ pattern m, pattern ∈ get_unreadable_globs_with_cwd (fs_policy gfs) cwd →
              build_glob_matcher pattern = Ok m → m t = false)
         ∧ ∃ r, r ∈ resolved_entries_with_cwd (fs_policy gfs) cwd ∧ resolved_path r `prefix_of` t
                ∧ not_read_denied rfs cwd (resolved_path r))
      ∧ (∀ side pattern m, side = rfs ∨ side = gfs →
           can_read_path_with_cwd (fs_policy fs) path cwd = true →
           pattern ∈ get_unreadable_globs_with_cwd (fs_policy side) cwd → build_glob_matcher pattern = Ok m → m t = true →
           pattern ∈ get_unreadable_globs_with_cwd (fs_policy fs) cwd
           ∧ scans_as_deep (FileSystemPermissions.glob_scan_max_depth fs) (FileSystemPermissions.glob_scan_max_depth side))
      ∧ (resolve_access_with_cwd (fs_policy fs) path cwd = Write →
           ∃ q, q `prefix_of` t ∧ mkResolved q Write ∈ resolved_entries_with_cwd (fs_policy gfs) cwd
                ∧ resolve_access_with_cwd (fs_policy rfs) q cwd = Write).
Proof.
  intros Habs Hcwd Hhome Hwf Hplain both. split.
  { unfold both, intersect_permission_profiles, network_enabled. simpl.
    do 2 case_bool_decide; simpl; naive_solver. }
  intros fs Hfs. unfold both, intersect_permission_profiles in Hfs. simpl in Hfs.
  destruct (file_system requested) as [rfs|]; [|done]. simpl in Hfs.
  destruct (file_system granted) as [gfs|].
  2:{ cbn [default from_option id] in Hfs. by rewrite intersect_default in Hfs. }
  cbn [default from_option id] in Hfs. destruct (FileSystemPermissions.is_empty _); [done|]. injection Hfs as <-.
  specialize (Hwf gfs eq_refl). exists rfs, gfs. split_and!; [done..|]. intros path t Ht.
  assert (∀ side pattern m, side = rfs ∨ side = gfs →
    can_read_path_with_cwd (fs_policy (intersect_file_system rfs gfs cwd)) path cwd = true →
    pattern ∈ get_unreadable_globs_with_cwd (fs_policy side) cwd → build_glob_matcher pattern = Ok m → m t = true →
    pattern ∈ get_unreadable_globs_with_cwd (fs_policy (intersect_file_system rfs gfs cwd)) cwd
    ∧ scans_as_deep (FileSystemPermissions.glob_scan_max_depth (intersect_file_system rfs gfs cwd))
        (FileSystemPermissions.glob_scan_max_depth side)) as Hkept.
  { intros side pattern m Hside Hread (e & He & Ha & Hd)%elem_of_globs Hm Hmt.
    destruct (readable_by_grant rfs gfs cwd path t Habs Ht Hread) as (r & g & _ & Hrt & Hg & Hgr & Hgp).
    eapply (pattern_is_retained rfs gfs cwd Habs Hcwd Hhome side e); try done.
    eapply Hplain; [|done..]. destruct Hside as [->| ->]; auto. }
  split_and!; [|done|].
  - intros [Hread Hunmatched].
    destruct (readable_by_grant rfs gfs cwd path t Habs Ht Hread) as (r & g & Hrg & Hrt & Hg & Hgr & Hgp).
    pose proof (accepted_not_denied _ _ _ _ _ Habs Hg Hgp) as Hnd.
    assert (∀ side pattern m, side = rfs ∨ side = gfs → pattern ∈ get_unreadable_globs_with_cwd (fs_policy side) cwd →
              build_glob_matcher pattern = Ok m → m t = false) as Hno.
    { intros side pattern m Hside Hp Hm. destruct (m t) eqn:Hmt; [|done].
      destruct (Hkept side pattern m Hside Hread Hp Hm Hmt) as [Hin _].
      destruct (Hunmatched pattern Hin) as (m' & Hm' & Hf). congruence. }
    destruct (readable_within rfs gfs cwd Habs path t Hwf Ht Hread) as (m & nr & ng & _ & _ & _ & _ & Hr & ? & Hgd & ?).
    unfold can_read_unmatched, can_read_path_with_cwd.
    rewrite (access_of_decides (fs_policy rfs) _ _ _ _ eq_refl Ht Hr), (access_of_decides (fs_policy gfs) _ _ _ _ eq_refl Ht Hgd).
    unfold can_read. rewrite !bool_decide_eq_false_2 by done. split_and!; [done| |done| |by exists r].
    + intros pattern Hp. destruct (not_denied_compiles _ _ _ _ Hnd Hp) as [m' Hm']. exists m'. eauto.
    + intros pattern m'. apply Hno. by right.
  - intros Hw.
    destruct (readable_within rfs gfs cwd Habs path t Hwf Ht) as (m & nr & ng & [[_ Hmt] _] & Ha & Hmg & Hcov & _).
    { unfold can_read_path_with_cwd. by rewrite Hw. }
    rewrite Hw in Ha. exists (resolved_path m). split_and!; [done| |].
    + by destruct m as [q a]; simpl in *; subst a.
    + rewrite Ha in Hcov. unfold access_covers, can_write in Hcov. by apply bool_decide_eq_true in Hcov.
Qed.

(** ** Merging *)

(** Of what decides in two lists, the more specific. *)
Definition more_specific (m n : option ResolvedFileSystemEntry) : option ResolvedFileSystemEntry :=
  match m, n with
  | Some x, Some y => if precedence_gt x y then m else n
  | Some _, None => m
  | None, _ => n
  end.

Lemma decides_precedence rs t r :
  decides rs t r ↔ covers rs t r ∧ ∀ r', covers rs t r' → precedence_gt r' r = false.
Proof.
  unfold decides. split; intros [Hr Hall]; (split; [done|]); intros r' Hr'; specialize (Hall r' Hr').
  - destruct Hall as [Hp Hrank]. apply precedence_gt_false. apply prefix_length in Hp as Hl.
    destruct (decide (length (resolved_path r') = length (resolved_path r))) as [Heq|]; [right|left; lia].
    split; [done|]. apply Hrank, prefix_length_eq; [done|lia].
  - apply precedence_gt_false in Hall. destruct Hr as [_ Hr], Hr' as [_ Hr']. split.
    + eapply prefix_of_longer; [done..|lia].
    + intros Heq. rewrite Heq in Hall. lia.
Qed.

Lemma deciding_union rs rs1 rs2 t :
  (∀ r, r ∈ rs ↔ r ∈ rs1 ∨ r ∈ rs2) →
  resolved_access <$> deciding rs t = resolved_access <$> more_specific (deciding rs1 t) (deciding rs2 t).
Proof.
  intros Hu. destruct (more_specific _ _) as [w|] eqn:Hw.
  - assert (decides rs t w) as Hd.
    { apply decides_precedence. unfold covers. setoid_rewrite Hu. unfold more_specific in Hw.
      destruct (deciding rs1 t) as [x|] eqn:Hx, (deciding rs2 t) as [y|] eqn:Hy; simplify_eq;
        try (apply deciding_decides, decides_precedence in Hx as [[? ?] Hx]);
        try (apply deciding_decides, decides_precedence in Hy as [[? ?] Hy]);
        try (pose proof (proj1 (deciding_None _ _) Hx) as Hx'); try (pose proof (proj1 (deciding_None _ _) Hy) as Hy').
      - destruct (precedence_gt x y) eqn:Hxy; simplify_eq; (split; [by auto|]);
          intros r' [[Hr'|Hr'] Hpre];
          [by apply Hx|specialize (Hy r' (conj Hr' Hpre))|specialize (Hx r' (conj Hr' Hpre))|by apply Hy];
          revert Hxy; rewrite ?precedence_gt_true, ?precedence_gt_false in *; lia.
      - split; [by auto|]. intros r' [[Hr'|Hr'] Hpre]; [by apply Hx|]. by destruct (Hy' r').
      - split; [by auto|]. intros r' [[Hr'|Hr'] Hpre]; [by destruct (Hx' r')|by apply Hy]. }
    by destruct (deciding_of_decides _ _ _ Hd) as (w' & -> & _ & Ha); simpl; rewrite Ha.
  - assert (deciding rs t = None) as ->; [|done]. apply deciding_None. intros r [Hr Hpre].
    unfold more_specific in Hw.
    destruct (deciding rs1 t) eqn:Hx, (deciding rs2 t) eqn:Hy; try done; [by destruct (precedence_gt _ _)|].
    apply Hu in Hr as [Hr|Hr]; [by apply (proj1 (deciding_None _ _) Hx r)|by apply (proj1 (deciding_None _ _) Hy r)].
Qed.

Lemma resolved_union es es1 es2 cwd :
  (∀ e, e ∈ es ↔ e ∈ es1 ∨ e ∈ es2) →
  ∀ r, r ∈ resolved_entries_with_cwd (restricted es) cwd ↔
       r ∈ resolved_entries_with_cwd (restricted es1) cwd ∨ r ∈ resolved_entries_with_cwd (restricted es2) cwd.
Proof. intros Hu r. rewrite !elem_of_policy. setoid_rewrite Hu. naive_solver. Qed.

(** Permissions on top of a restricted policy decide with it: the access
    to a path is that of the more specific entry of both, the grant or denial of
    the policy included; on a policy that is not restricted they change
    nothing; and merging two sets of permissions is the same union. *)
Theorem effective_policy_is_more_specific p additional fs cwd path t :
  file_system additional = Some fs → resolve_candidate_path path cwd = Some t →
  let p' := effective_file_system_sandbox_policy p (Some additional) in
  let decided q := deciding (resolved_entries_with_cwd q cwd) t in
  (is_restricted p = false → p' = p)
  ∧ (is_restricted p = true →
     resolve_access_with_cwd p' path cwd
     = default Deny (resolved_access <$> more_specific (decided p) (decided (fs_policy fs))))
  ∧ ∀ base, resolve_access_with_cwd (fs_policy (merge_file_system_permissions base fs)) path cwd
            = default Deny (resolved_access <$> more_specific (decided (fs_policy base)) (decided (fs_policy fs))).
Proof.
  intros Hfs Ht p' decided. unfold p', effective_file_system_sandbox_policy. simpl. rewrite Hfs. simpl.
  split_and!.
  - unfold is_restricted. intros Hk%bool_decide_eq_false.
    unfold merge_file_system_policy_with_additional_permissions. by destruct (kind p), (FileSystemPermissions.is_empty fs).
  - intros Hr. pose proof Hr as Hk. unfold is_restricted in Hk. apply bool_decide_eq_true in Hk.
    destruct (FileSystemPermissions.is_empty fs) eqn:He.
    + rewrite (resolve_access_deciding _ _ _ _ Hr Ht). apply is_nil_true in He.
      unfold decided, resolved_entries_with_cwd at 3. simpl. rewrite He. simpl.
      fold (decided p). by destruct (decided p).
    + unfold merge_file_system_policy_with_additional_permissions. rewrite Hk.
      rewrite (resolve_access_deciding (mkPolicy Restricted _ _) path cwd t) by done.
      f_equal. apply deciding_union. intros r.
      apply (resolved_union _ (entries p) (FileSystemPermissions.entries fs)). apply elem_of_foldl_push_absent.
  - intros base. rewrite (resolve_access_deciding (restricted _) _ _ _ eq_refl Ht). f_equal. apply deciding_union, resolved_union.
    intros e. unfold merge_file_system_permissions, merge_permission_entries. simpl.
    rewrite elem_of_foldl_push_absent, elem_of_app, elem_of_nil. tauto.
Qed.
End spec.

(** ** Stored forms *)

Section stored.
Import FileSystemPermissions.
Implicit Types (es : list FileSystemSandboxEntry).

(** An entry without what the legacy form does not keep. *)
Definition granted_access (e : FileSystemSandboxEntry) : FileSystemPath.t * FileSystemAccessMode :=
  (entry_path e, entry_access e).
Definition root_access (access : FileSystemAccessMode) (path : AbsolutePathBuf) :
    FileSystemPath.t * FileSystemAccessMode := (FileSystemPath.Path path, access).

Lemma legacy_roots_spec es read write read' write' :
  legacy_roots es read write = Some (read', write') →
  ∃ rs ws, read' = read ++ rs ∧ write' = write ++ ws
           ∧ granted_access <$> es ≡ₚ (root_access Read <$> rs) ++ (root_access Write <$> ws).
Proof.
  revert read write. induction es as [|e es IH]; intros read write; simpl.
  { intros [= <- <-]. exists [], []. by rewrite !app_nil_r. }
  destruct (entry_path e) as [path| |] eqn:Hp; [|done..].
  destruct (entry_access e) eqn:Ha; [| |done]; intros (rs & ws & -> & -> & Hes)%IH;
    unfold granted_access at 1; rewrite Hp, Ha.
  - exists (path :: rs), ws. rewrite <- app_assoc. split_and!; [done..|]. by constructor.
  - exists rs, (path :: ws). rewrite <- app_assoc. split_and!; [done..|].
    rewrite fmap_cons, <- Permutation_middle. by constructor.
Qed.

Lemma legacy_roots_of_roots rs ws read write :
  legacy_roots (root_entries Read (Some rs) ++ root_entries Write (Some ws)) read write
  = Some (read ++ rs, write ++ ws).
Proof.
  revert read. induction rs as [|path rs IH]; intros read; simpl.
  - rewrite app_nil_r. revert write. induction ws as [|path ws IH]; intros write; simpl; [by rewrite app_nil_r|].
    rewrite IH. by rewrite <- app_assoc.
  - rewrite IH. by rewrite <- app_assoc.
Qed.

Lemma root_entries_non_empty access roots : root_entries access (non_empty roots) = root_entries access (Some roots).
Proof. by destruct roots. Qed.

Lemma granted_root_entries access roots :
  granted_access <$> root_entries access (Some roots) = root_access access <$> roots.
Proof. simpl. rewrite <- list_fmap_compose. done. Qed.

Lemma granted_unflagged es es' :
  Forall (λ e, missing_path_behavior e = None) es → Forall (λ e, missing_path_behavior e = None) es' →
  granted_access <$> es ≡ₚ granted_access <$> es' → es ≡ₚ es'.
Proof.
  intros Hes Hes' Hp.
  assert (∀ l, Forall (λ e, missing_path_behavior e = None) l →
            l = (λ x, mkEntry x.1 x.2 None) <$> (granted_access <$> l)) as Hback.
  { intros l Hl. rewrite <- list_fmap_compose. induction Hl as [|[q a b] l Hb Hl IH]; [done|].
    simpl in *. subst b. f_equal. exact IH. }
  rewrite (Hback es Hes), (Hback es' Hes'). by rewrite Hp.
Qed.

(** Stored permissions come back as the same grants: the scan depth is kept,
    and every entry keeps its path and access; the entries themselves come back,
    up to their order, where none has a flag for missing paths, and always
    where there is no legacy form. Lists of roots come back as they were. *)
Theorem stored_permissions_roundtrip (fs : FileSystemPermissions.t) :
  let fs' := deserialize (serialize fs) in
  FileSystemPermissions.glob_scan_max_depth fs' = FileSystemPermissions.glob_scan_max_depth fs
  ∧ granted_access <$> FileSystemPermissions.entries fs' ≡ₚ granted_access <$> FileSystemPermissions.entries fs
  ∧ (Forall (λ e, missing_path_behavior e = None) (FileSystemPermissions.entries fs) →
     FileSystemPermissions.entries fs' ≡ₚ FileSystemPermissions.entries fs)
  ∧ (as_legacy_permissions fs = None → fs' = fs)
  ∧ ∀ rs ws, as_legacy_permissions (from_read_write_roots (Some rs) (Some ws))
             = Some (mkLegacy (non_empty rs) (non_empty ws)).
Proof.
  intros fs'.
  assert (∀ rs ws, as_legacy_permissions (from_read_write_roots (Some rs) (Some ws))
                   = Some (mkLegacy (non_empty rs) (non_empty ws))) as Hroots.
  { intros rs ws. unfold as_legacy_permissions, from_read_write_roots. cbn [FileSystemPermissions.entries FileSystemPermissions.glob_scan_max_depth].
    by rewrite legacy_roots_of_roots. }
  destruct (as_legacy_permissions fs) as [legacy|] eqn:Hl.
  2:{ assert (fs' = fs) as ->; [|by split_and!].
      unfold fs', serialize. rewrite Hl. by destruct fs. }
  assert (fs' = from_read_write_roots (read legacy) (write legacy)) as ->.
  { unfold fs', serialize. by rewrite Hl. }
  unfold as_legacy_permissions in Hl. destruct fs as [es [|]]; [done|].
  cbn [FileSystemPermissions.entries FileSystemPermissions.glob_scan_max_depth] in *.
  destruct (legacy_roots es [] []) as [[rs ws]|] eqn:Hr; [|done]. injection Hl as <-.
  apply legacy_roots_spec in Hr as (rs' & ws' & -> & -> & Hes). rewrite !app_nil_l in *.
  unfold from_read_write_roots. cbn [FileSystemPermissions.entries FileSystemPermissions.glob_scan_max_depth read write].
  rewrite !root_entries_non_empty.
  assert (granted_access <$> root_entries Read (Some rs') ++ root_entries Write (Some ws')
          ≡ₚ granted_access <$> es) as Hp.
  { by rewrite fmap_app, !granted_root_entries, Hes. }
  split_and!; [done|done| |done|done]. intros Hflags.
  apply granted_unflagged; [|done|done].
  apply Forall_app. split; apply Forall_fmap, Forall_true; done.
Qed.
End stored.

(** ** Normalised permissions *)

Section normalised.
Context `{Host}.
Implicit Types (es acc : list FileSystemSandboxEntry) (e : FileSystemSandboxEntry).

(** A pattern can only deny. *)
Definition glob_denies e : Prop := is_glob (entry_path e) = true → entry_access e = Deny.

Lemma normalize_is_glob path : is_glob (normalize_permission_path path) = is_glob path.
Proof. by destruct path. Qed.

Lemma NoDup_push_absent {A} `{EqDecision A} (l : list A) x : NoDup l → NoDup (push_absent l x).
Proof.
  intros Hl. unfold push_absent. case_decide; [done|]. apply NoDup_app.
  split_and!; [done|set_solver|apply NoDup_singleton].
Qed.

Lemma normalize_entries_spec es acc :
  NoDup acc →
  match normalize_entries es acc with
  | Ok es' => Forall glob_denies es ∧ NoDup es' ∧ ∀ e', e' ∈ es' ↔ e' ∈ acc ∨ e' ∈ normalize_entry <$> es
  | Err msg => msg = msg_glob_permissions ∧ ¬ Forall glob_denies es
  end.
Proof.
  revert acc. induction es as [|e es IH]; intros acc Hacc; simpl; [set_solver|].
  destruct (is_glob (entry_path e) && _) eqn:Hg.
  { apply andb_true_iff in Hg as [Hg Ha%negb_true_iff]. apply bool_decide_eq_false in Ha.
    split; [done|]. intros Hall%Forall_cons_1. by apply Ha, Hall. }
  assert (glob_denies e) as He.
  { intros Hglob. rewrite Hglob in Hg. simpl in Hg. by apply negb_false_iff, bool_decide_eq_true in Hg. }
  specialize (IH _ (NoDup_push_absent acc (normalize_entry e) Hacc)).
  destruct (normalize_entries _ _) as [es'|msg].
  - destruct IH as (Hes & Hnd & Hin). split_and!; [by constructor|done|].
    intros e'. rewrite Hin, elem_of_push_absent, elem_of_cons. tauto.
  - destruct IH as [-> Hes]. split; [done|]. by intros [_ ?]%Forall_cons_1.
Qed.

(** Permissions are rejected only for a pattern that does not deny; else
    they keep their scan depth and the normalised entries, each once, and lose
    the parts that are empty. *)
Theorem normalize_additional_permissions_spec (additional : AdditionalPermissionProfile) :
  let given := default [] (FileSystemPermissions.entries <$> file_system additional) in
  match normalize_additional_permissions additional with
  | Ok normalized =>
      Forall glob_denies given
      ∧ (file_system normalized = None ↔ given = [])
      ∧ (∀ fs, file_system normalized = Some fs →
           NoDup (FileSystemPermissions.entries fs)
           ∧ (∀ e, e ∈ FileSystemPermissions.entries fs ↔ e ∈ normalize_entry <$> given)
           ∧ Some (FileSystemPermissions.glob_scan_max_depth fs)
             = FileSystemPermissions.glob_scan_max_depth <$> file_system additional)
      ∧ ∀ b, network normalized ≫= enabled = Some b ↔ network additional ≫= enabled = Some b
  | Err msg => msg = msg_glob_permissions ∧ ¬ Forall glob_denies given
  end.
Proof.
  destruct additional as [net [[es depth]|]]; unfold normalize_additional_permissions; simpl.
  - pose proof (normalize_entries_spec es [] (NoDup_nil_2)) as Hes.
    destruct (normalize_entries es []) as [es'|msg]; simpl; [|done].
    destruct Hes as (Hglob & Hnd & Hin). split_and!; [done| | |].
    + unfold FileSystemPermissions.is_empty. simpl. destruct es' as [|e' es']; simpl.
      * split; [intros _|done]. destruct es as [|e es]; [done|].
        exfalso. apply (not_elem_of_nil (normalize_entry e)), Hin. right. by left.
      * split; [done|]. intros ->. by destruct (proj1 (Hin e') (list_elem_of_here e' es')) as [[]%elem_of_nil|[]%elem_of_nil].
    + intros fs. destruct (FileSystemPermissions.is_empty _); simpl; [done|].
      intros [= <-]. simpl. split_and!; [done| |done]. intros e. rewrite Hin, elem_of_nil. tauto.
    + intros b. destruct net as [[[n|]]|]; done.
  - split_and!; [by constructor|done|done|]. intros b. destruct net as [[[n|]]|]; done.
Qed.
End normalised.

(** ** Examples *)

#[local] Existing Instances Demo.host Demo.laws.

#[local] Existing Instances WholeComponents.globs WholeComponents.laws.

Module Asked.
Definition at_path (s : string) (access : FileSystemAccessMode) : FileSystemSandboxEntry :=
  new_entry (FileSystemPath.Path (Demo.file s)) access.
Definition profile (es : list FileSystemSandboxEntry) : AdditionalPermissionProfile :=
  mkProfile (Some (mkNetwork (Some true))) (Some (FileSystemPermissions.mk es None)).

Definition matching (pattern : string) : FileSystemSandboxEntry :=
  new_entry (FileSystemPath.GlobPattern (lit pattern)) Deny.

(** All of [/data] may be written, but for a secret and every [key] one directory
    further down; of that the user grants a part. *)
Definition requested := profile [at_path "/data" Write; at_path "/data/secret" Deny; matching "/data/*/key"].
Definition granted := profile [at_path "/data" Write; at_path "/home" Read].
Definition both := profile [at_path "/data" Write; at_path "/data/secret" Deny; matching "/data/*/key"].
End Asked.

Example asked_intersection :
  intersect_permission_profiles Asked.requested Asked.granted Demo.cwd = Asked.both.
Proof. vm_compute. reflexivity. Qed.

Lemma asked_wf : wf_entries [Asked.at_path "/data" Write; Asked.at_path "/home" Read].
Proof. repeat constructor; apply (bool_decide_unpack (normal _)); vm_compute; done. Qed.

Lemma intersection_within_both_witness :
  can_read_unmatched (FileSystemPermissions.mk
      [Asked.at_path "/data" Write; Asked.at_path "/data/secret" Deny; Asked.matching "/data/*/key"] None)
    Demo.cwd (Demo.file "/data/a/x") (Demo.file "/data/a/x").
Proof.
  destruct (intersection_within_both Asked.requested Asked.granted Demo.cwd) as [_ Hfs].
  - reflexivity.
  - unfold proper_path. apply (bool_decide_unpack _). vm_compute. done.
  - intros h Hh. vm_compute in Hh. injection Hh as <-. unfold proper_path. apply (bool_decide_unpack _). vm_compute. done.
  - intros fs Hfs. injection Hfs as <-. apply asked_wf.
  - intros fs e Hfs He Hd. assert (e = Asked.at_path "/data/secret" Deny ∨ e = Asked.matching "/data/*/key") as [->| ->].
    { destruct Hfs as [Hfs|Hfs]; injection Hfs as <-; cbn in He; repeat (apply elem_of_cons in He as [->|He]);
        try discriminate Hd; auto; by apply elem_of_nil in He. }
    + exact I.
    + split; [apply (bool_decide_unpack _); vm_compute; done|]. eexists. vm_compute. reflexivity.
  - rewrite asked_intersection in Hfs. destruct (Hfs _ eq_refl) as (rfs & gfs & Hr & Hg & Hpath).
    injection Hr as <-. destruct (Hpath (Demo.file "/data/a/x") (Demo.file "/data/a/x") eq_refl) as [Hread _].
    apply Hread. split; [vm_compute; reflexivity|]. intros pattern Hp. vm_compute in Hp.
    apply list_elem_of_singleton in Hp as ->. eexists. split; vm_compute; reflexivity.
Defined.

Lemma effective_policy_is_more_specific_witness :
  resolve_access_with_cwd
    (effective_file_system_sandbox_policy read_only (Some Asked.requested)) (Demo.file "/data/secret/k") Demo.cwd
  = Deny.
Proof.
  destruct (effective_policy_is_more_specific read_only Asked.requested
              (FileSystemPermissions.mk
                 [Asked.at_path "/data" Write; Asked.at_path "/data/secret" Deny; Asked.matching "/data/*/key"] None)
              Demo.cwd (Demo.file "/data/secret/k") (Demo.file "/data/secret/k")) as (_ & Heff & _).
  - reflexivity.
  - vm_compute. reflexivity.
  - rewrite Heff by reflexivity. vm_compute. reflexivity.
Defined.

(** A read-only part of the request is not kept: what was asked as a read comes
    out as a write where the grant covers it with a write. *)
Example request_carve_out_is_lost :
  let requested := [Asked.at_path "/data" Write; Asked.at_path "/data/keep" Read] in
  let granted := Asked.profile [Asked.at_path "/data" Write] in
  let keep := Demo.file "/data/keep/file" in
  resolve_access_with_cwd (restricted requested) keep Demo.cwd = Read
  ∧ match file_system (intersect_permission_profiles (Asked.profile requested) granted Demo.cwd) with
    | Some fs => resolve_access_with_cwd (restricted (FileSystemPermissions.entries fs)) keep Demo.cwd = Write
    | None => False
    end.
Proof. vm_compute. split; reflexivity. Qed.

(** The legacy form does not keep the flag for missing paths. *)
Example missing_path_flag_is_lost :
  let fs := FileSystemPermissions.mk [skip_missing_path (FileSystemPath.Path (Demo.file "/data")) Read] None in
  FileSystemPermissions.deserialize (FileSystemPermissions.serialize fs) ≠ fs.
Proof. vm_compute. intros [=]. Qed.

(** Denied patterns that are not kept although they match below the grant: the
    fixed part of a pattern is looked for without regard to alternatives, ... *)
Module Dropped.
Definition one_file (text path : string) : Globs :=
  {| build_glob_matcher pattern := Ok (λ p, bool_decide (pattern = lit text ∧ p = Demo.file path)) |}.
Definition cut (G : Globs) (dir pattern : string) : option FileSystemPermissions.t :=
  file_system (@intersect_permission_profiles Demo.host G
    (Asked.profile [Asked.at_path dir Read; Asked.matching pattern]) (Asked.profile [Asked.at_path dir Read]) Demo.cwd).
Definition denies (G : Globs) (dir pattern path : string) : bool :=
  match @new Demo.host G (restricted [Asked.at_path dir Read; Asked.matching pattern]) Demo.cwd with
  | Ok (Some m) => @is_read_denied Demo.host m (Demo.file path)
  | _ => false
  end.
End Dropped.

Example alternatives_are_dropped :
  let G := Dropped.one_file "/srv/{a,b}/key?" "/srv/a/key1" in
  Dropped.denies G "/srv/a" "/srv/{a,b}/key?" "/srv/a/key1" = true
  ∧ Dropped.cut G "/srv/a" "/srv/{a,b}/key?" = Some (FileSystemPermissions.mk [Asked.at_path "/srv/a" Read] None).
Proof. vm_compute. split; reflexivity. Qed.

(** ... a pattern for hidden files of the root has no fixed part at all, ... *)
Example hidden_files_of_the_root_are_dropped :
  let G := Dropped.one_file "/.e*" "/.env" in
  Dropped.denies G "/" "/.e*" "/.env" = true ∧ Dropped.cut G "/" "/.e*" ≠ Some (FileSystemPermissions.mk [Asked.at_path "/" Read] None)
  ∧ let G := Dropped.one_file "/.*" "/.env" in
    Dropped.denies G "/" "/.*" "/.env" = true
    ∧ Dropped.cut G "/" "/.*" = Some (FileSystemPermissions.mk [Asked.at_path "/" Read] None).
Proof. vm_compute. split_and!; congruence. Qed.

(** ... and a pattern is compared with the path of the grant as it is written, while
    the matcher of the request also looks at where links lead. *)
Example pattern_behind_a_link_is_dropped :
  let requested := [Asked.at_path "/var" Read; Asked.matching "/private/var/*"] in
  (match @new Aliased.host _ (restricted requested) Demo.cwd with
   | Ok (Some m) => @is_read_denied Aliased.host m (Demo.file "/var/key") = true
   | _ => False
   end)
  ∧ file_system (@intersect_permission_profiles Aliased.host _ (Asked.profile requested)
                   (Asked.profile [Asked.at_path "/var" Read]) Demo.cwd)
    = Some (FileSystemPermissions.mk [Asked.at_path "/var" Read] None).
Proof. vm_compute. split; reflexivity. Qed.
