(* ===== verification/TableDetect.v ===== *)
(** Pipe tables and fenced code in markdown source
    ([tui/src/table_detect.rs]), and the scanner that finds, line by line, where
    the source of a stream stops being stable because a table may be growing
    ([tui/src/streaming/table_holdback.rs]). Offsets into the source are counted in
    characters; the code counts bytes and only compares them and cuts with them. *)

From S2P Require Import Prelude Text.

(** * Tables *)

Definition pipe : N := 124.
Definition backslash : N := 92.

(** [split_unescaped_pipe]: the character after a backslash does not separate;
    [seg] is the segment read so far. *)
Fixpoint split_pipe_from (seg content : str) : list str :=
  match content with
  | [] => [seg]
  | c :: content =>
      if decide (c = backslash) then
        match content with
        | [] => [seg ++ [c]]
        | d :: content => split_pipe_from (seg ++ [c; d]) content
        end
      else if decide (c = pipe) then seg :: split_pipe_from [] content
      else split_pipe_from (seg ++ [c]) content
  end.
Definition split_unescaped_pipe (content : str) : list str := split_pipe_from [] content.

(** [parse_table_segments] *)
Definition parse_table_segments (line : str) : option (list str) :=
  let trimmed := trim line in
  if is_nil trimmed then None
  else
    let has_outer_pipe := starts_with trimmed [pipe] || ends_with trimmed [pipe] in
    let content := default trimmed (strip_prefix [pipe] trimmed) in
    let content := default content (strip_suffix [pipe] content) in
    let raw_segments := split_unescaped_pipe content in
    if negb has_outer_pipe && bool_decide (length raw_segments ≤ 1) then None
    else
      let segments := trim <$> raw_segments in
      if is_nil segments then None else Some segments.

(** [is_table_header_line] *)
Definition is_table_header_line (line : str) : bool :=
  match parse_table_segments line with
  | Some segments => existsb (λ s, negb (is_nil s)) segments
  | None => false
  end.

(** [is_table_delimiter_segment] and [is_table_delimiter_line] *)
Definition is_table_delimiter_segment (segment : str) : bool :=
  let trimmed := trim segment in
  if is_nil trimmed then false
  else
    let without_leading := default trimmed (strip_prefix (lit ":") trimmed) in
    let without_ends := default without_leading (strip_suffix (lit ":") without_leading) in
    bool_decide (3 ≤ str_len without_ends) && forallb (λ c, bool_decide (c = 45%N)) without_ends.
Definition is_table_delimiter_line (line : str) : bool :=
  match parse_table_segments line with
  | Some segments => forallb is_table_delimiter_segment segments
  | None => false
  end.

(** * Fences *)

(** [FenceKind] *)
Inductive FenceKind := Outside | Markdown | Other.

#[export] Instance FenceKind_eq_dec : EqDecision FenceKind.
Proof. solve_decision. Defined.

(** [FenceTracker]: the marker, the length and the kind of the open fence. *)
Record FenceTracker := mkTracker { fence_state : option (N * nat * FenceKind) }.
Definition new_tracker : FenceTracker := mkTracker None.

(** [strip_blockquote_prefix]; every round takes a character. *)
Fixpoint strip_blockquote (fuel : nat) (rest : str) : str :=
  match strip_prefix (lit ">") rest with
  | None => rest
  | Some stripped =>
      match fuel with
      | 0 => rest
      | S fuel => strip_blockquote fuel (trim_start (default stripped (strip_prefix (lit " ") stripped)))
      end
  end.
Definition strip_blockquote_prefix (line : str) : str :=
  let rest := trim_start line in strip_blockquote (length rest) rest.

(** The length of the longest prefix of one character. *)
Fixpoint run_length (d : N) (s : str) : nat :=
  match s with c :: s => if decide (c = d) then S (run_length d s) else 0 | [] => 0 end.

(** [parse_fence_marker] *)
Definition parse_fence_marker (line : str) : option (N * nat) :=
  first ← head line;
  if negb (bool_decide (first = 96%N)) && negb (bool_decide (first = 126%N)) then None
  else
    let len := run_length first line in
    if bool_decide (len < 3) then None else Some (first, len).

(** [is_markdown_fence_info]: the first word after the marker. *)
Fixpoint first_word (s : str) : str :=
  match s with c :: s => if is_whitespace c then [] else c :: first_word s | [] => [] end.
Definition is_markdown_fence_info (trimmed_line : str) (marker_len : nat) : bool :=
  let info := first_word (trim_start (drop marker_len trimmed_line)) in
  eq_ignore_ascii_case info (lit "md") || eq_ignore_ascii_case info (lit "markdown").

(** [FenceTracker::advance] and [::kind] *)
Definition advance (tracker : FenceTracker) (raw_line : str) : FenceTracker :=
  let leading_spaces := run_length 32 raw_line in
  if bool_decide (3 < leading_spaces) then tracker
  else
    let fence_scan_text := strip_blockquote_prefix (drop leading_spaces raw_line) in
    match parse_fence_marker fence_scan_text with
    | None => tracker
    | Some (marker, len) =>
        match fence_state tracker with
        | Some (open_char, open_len, _) =>
            if bool_decide (marker = open_char) && bool_decide (open_len ≤ len)
               && is_nil (trim (drop len fence_scan_text))
            then mkTracker None else tracker
        | None =>
            mkTracker (Some (marker, len,
              if is_markdown_fence_info fence_scan_text len then Markdown else Other))
        end
    end.
Definition tracker_kind (tracker : FenceTracker) : FenceKind :=
  match fence_state tracker with Some (_, _, k) => k | None => Outside end.

(** * Holding tables back *)

Module TableHoldbackState.
Inductive t := None_ | PendingHeader (header_start : nat) | Confirmed (table_start : nat).
End TableHoldbackState.

(** [PreviousLineState] *)
Record PreviousLineState := mkPrevious {
  previous_start : nat;
  previous_fence : FenceKind;
  previous_is_header : bool
}.

(** [TableHoldbackScanner] *)
Record TableHoldbackScanner := mkScanner {
  source_offset : nat;
  fence_tracker : FenceTracker;
  previous_line : option PreviousLineState;
  pending_header_start : option nat;
  confirmed_table_start : option nat
}.
Definition new_scanner : TableHoldbackScanner := mkScanner 0 new_tracker None None None.

(** [state] *)
Definition holdback_state (s : TableHoldbackScanner) : TableHoldbackState.t :=
  match confirmed_table_start s, pending_header_start s with
  | Some table_start, _ => TableHoldbackState.Confirmed table_start
  | None, Some header_start => TableHoldbackState.PendingHeader header_start
  | None, None => TableHoldbackState.None_
  end.

(** [table_candidate_text] *)
Definition table_candidate_text (line : str) : option str :=
  let stripped := trim (strip_blockquote_prefix line) in
  match parse_table_segments stripped with Some _ => Some stripped | None => None end.

Definition is_other (k : FenceKind) : bool := bool_decide (k = Other).

(** [push_line] *)
Definition push_line (s : TableHoldbackScanner) (source_line : str) : TableHoldbackScanner :=
  let line := default source_line (strip_suffix [nl] source_line) in
  let source_start := source_offset s in
  let fence_kind := tracker_kind (fence_tracker s) in
  let candidate_text := if is_other fence_kind then None else table_candidate_text line in
  let is_header := is_some_and is_table_header_line candidate_text in
  let is_delimiter := is_some_and is_table_delimiter_line candidate_text in
  let '(confirmed, pending) :=
    match confirmed_table_start s, previous_line s with
    | None, Some p =>
        if negb (is_other (previous_fence p)) && negb (is_other fence_kind)
           && previous_is_header p && is_delimiter
        then (Some (previous_start p), None)
        else (None, pending_header_start s)
    | confirmed, _ => (confirmed, pending_header_start s)
    end in
  let pending :=
    match confirmed with
    | None =>
        if negb (is_nil (trim line)) then
          (if negb (is_other fence_kind) && is_header then Some source_start else None)
        else pending
    | Some _ => pending
    end in
  mkScanner (source_offset s + length source_line) (advance (fence_tracker s) line)
    (Some (mkPrevious source_start fence_kind is_header)) pending confirmed.

(** [str::split_inclusive('\n')] *)
Fixpoint split_inclusive (s : str) : list str :=
  match s with
  | [] => []
  | c :: s =>
      if decide (c = nl) then [c] :: split_inclusive s
      else match split_inclusive s with [] => [[c]] | l :: ls => (c :: l) :: ls end
  end.

(** [push_source_chunk] *)
Definition push_source_chunk (s : TableHoldbackScanner) (source_chunk : str) : TableHoldbackScanner :=
  foldl push_line s (split_inclusive source_chunk).

(** ** The scan of a whole source *)

(** [ParsedLine], [parse_lines_with_fence_state] and [table_holdback_state],
    the definition the tests of the scanner compare it with. *)
Record ParsedLine := mkParsed { text : str; fence_context : FenceKind; source_start : nat }.

Fixpoint parse_lines (tracker : FenceTracker) (start : nat) (raw_lines : list str) : list ParsedLine :=
  match raw_lines with
  | [] => []
  | raw_line :: raw_lines =>
      mkParsed raw_line (tracker_kind tracker) start
      :: parse_lines (advance tracker raw_line) (start + length raw_line + 1) raw_lines
  end.
Definition parse_lines_with_fence_state (source : str) : list ParsedLine :=
  parse_lines new_tracker 0 (split_on nl source).

Definition table_of_pair (pair : ParsedLine * ParsedLine) : option nat :=
  let '(header_line, delimiter_line) := pair in
  if is_other (fence_context header_line) || is_other (fence_context delimiter_line) then None
  else
    header_text ← table_candidate_text (text header_line);
    delimiter_text ← table_candidate_text (text delimiter_line);
    if is_table_header_line header_text && is_table_delimiter_line delimiter_text
    then Some (source_start header_line) else None.
Definition confirmed_table (ls : list ParsedLine) : option nat :=
  head (omap table_of_pair (zip ls (tail ls))).
Definition pending_header (ls : list ParsedLine) : option nat :=
  line ← last (filter (λ line, trim (text line) ≠ []) ls);
  if negb (is_other (fence_context line))
     && is_some_and is_table_header_line (table_candidate_text (text line))
  then Some (source_start line) else None.
Definition table_holdback_state (source : str) : TableHoldbackState.t :=
  let lines := parse_lines_with_fence_state source in
  match confirmed_table lines, pending_header lines with
  | Some table_start, _ => TableHoldbackState.Confirmed table_start
  | None, Some header_start => TableHoldbackState.PendingHeader header_start
  | None, None => TableHoldbackState.None_
  end.

(** Pieces of source that end at lines. *)
Definition whole_lines (chunk : str) : Prop := chunk = [] ∨ last chunk = Some nl.

(** * The scanner agrees with the scan of the whole source *)

(** ** Blockquotes *)

Lemma peel_shorter t u :
  strip_prefix (lit ">") t = Some u →
  length (trim_start (default u (strip_prefix (lit " ") u))) < length t.
Proof.
  intros ->%strip_prefix_Some. rewrite length_app. change (length (lit ">")) with 1.
  pose proof (suffix_length _ _ (trim_start_suffix (default u (strip_prefix (lit " ") u)))) as Hl.
  assert (length (default u (strip_prefix (lit " ") u)) ≤ length u); [|lia].
  destruct (strip_prefix (lit " ") u) as [v|] eqn:E; [|done].
  apply strip_prefix_Some in E as ->. rewrite length_app. cbn [default from_option id]. lia.
Qed.

(** The loop ends: what is left starts with no marker. *)
Lemma strip_blockquote_prefix_done line : strip_prefix (lit ">") (strip_blockquote_prefix line) = None.
Proof.
  unfold strip_blockquote_prefix. generalize (trim_start line) as rest. intros rest.
  remember (length rest) as n eqn:Hn. assert (length rest ≤ n) as Hle by lia. clear Hn.
  revert rest Hle. induction n as [|n IH]; intros rest Hle.
  - by destruct rest; [|simpl in Hle; lia].
  - cbn [strip_blockquote]. destruct (strip_prefix (lit ">") rest) as [u|] eqn:E; [|done]. apply IH.
    apply peel_shorter in E. lia.
Qed.

(** ** Lines *)

Lemma split_inclusive_line l s : no_nl l → split_inclusive (l ++ nl :: s) = (l ++ [nl]) :: split_inclusive s.
Proof.
  induction l as [|c l IH]; intros Hl; simpl; [done|].
  apply not_elem_of_cons in Hl as [Hc Hl]. rewrite decide_False by done. by rewrite IH.
Qed.

Lemma split_inclusive_last l : no_nl l → split_inclusive l = if decide (l = []) then [] else [l].
Proof.
  induction l as [|c l IH]; intros Hl; [done|]. simpl.
  apply not_elem_of_cons in Hl as [Hc Hl]. rewrite decide_False by done. rewrite IH by done.
  destruct (decide (l = [])) as [->|]; done.
Qed.

Lemma split_inclusive_nonempty s : s ≠ [] → split_inclusive s ≠ [].
Proof. destruct s as [|c s]; [done|]. simpl. case_decide; [done|]. by destruct (split_inclusive s). Qed.

Lemma split_inclusive_app a b : whole_lines a → split_inclusive (a ++ b) = split_inclusive a ++ split_inclusive b.
Proof.
  intros [->|Ha]; [done|]. apply last_Some in Ha as [a' ->]. rewrite <- app_assoc. simpl.
  induction a' as [|c a' IH]; simpl; [done|]. rewrite IH.
  case_decide; [done|]. destruct (split_inclusive (a' ++ [nl])) as [|l ls] eqn:E; [|done].
  exfalso. revert E. apply split_inclusive_nonempty. by destruct a'.
Qed.

(** ** The invariant of the scanner *)

Definition previous_of (l : ParsedLine) : PreviousLineState :=
  mkPrevious (source_start l) (fence_context l)
    (is_some_and is_table_header_line
       (if is_other (fence_context l) then None else table_candidate_text (text l))).

Definition reference_state (ls : list ParsedLine) : TableHoldbackState.t :=
  match confirmed_table ls, pending_header ls with
  | Some table_start, _ => TableHoldbackState.Confirmed table_start
  | None, Some header_start => TableHoldbackState.PendingHeader header_start
  | None, None => TableHoldbackState.None_
  end.

(** The scanner after the lines [ls]. *)
Definition scanned (ls : list ParsedLine) (s : TableHoldbackScanner) : Prop :=
  confirmed_table_start s = confirmed_table ls
  ∧ (confirmed_table ls = None → pending_header_start s = pending_header ls)
  ∧ previous_line s = previous_of <$> last ls.

Lemma scanned_state ls s : scanned ls s → holdback_state s = reference_state ls.
Proof.
  intros (Hc & Hp & _). unfold holdback_state, reference_state. rewrite Hc.
  destruct (confirmed_table ls); [done|]. by rewrite Hp.
Qed.

Lemma zip_tail_snoc {A} (l : list A) x y : zip (l ++ [x; y]) (tail (l ++ [x; y])) = zip (l ++ [x]) (tail (l ++ [x])) ++ [(x, y)].
Proof.
  induction l as [|z l IH]; [done|]. destruct l as [|w l]; [done|]. simpl in *. by rewrite IH.
Qed.

Lemma confirmed_table_snoc ls y :
  confirmed_table (ls ++ [y]) =
  match confirmed_table ls with
  | Some start => Some start
  | None => x ← last ls; table_of_pair (x, y)
  end.
Proof.
  destruct ls as [|x ls _] using rev_ind; [done|]. unfold confirmed_table.
  rewrite <- app_assoc. cbn [app]. rewrite zip_tail_snoc, omap_app, last_snoc, head_app.
  destruct (head (omap table_of_pair (zip _ _))); [done|]. cbn [mbind option_bind].
  change (omap table_of_pair [(x, y)]) with (match table_of_pair (x, y) with Some z => [z] | None => [] end).
  by destruct (table_of_pair (x, y)).
Qed.

Lemma pending_header_snoc ls y :
  pending_header (ls ++ [y]) =
  if is_nil (trim (text y)) then pending_header ls
  else if negb (is_other (fence_context y)) && is_some_and is_table_header_line (table_candidate_text (text y))
       then Some (source_start y) else None.
Proof.
  unfold pending_header. rewrite filter_app. simpl.
  destruct (is_nil (trim (text y))) eqn:E.
  - apply is_nil_true in E. rewrite filter_cons, decide_False by (intros Hne; by apply Hne). by rewrite filter_nil, app_nil_r.
  - apply is_nil_false in E. rewrite filter_cons, decide_True by done. by rewrite filter_nil, last_snoc.
Qed.

(** A pair of lines as the scanner sees it. *)
Lemma table_of_pair_eq x y :
  table_of_pair (x, y) =
  if negb (is_other (fence_context x)) && negb (is_other (fence_context y))
     && previous_is_header (previous_of x)
     && is_some_and is_table_delimiter_line
          (if is_other (fence_context y) then None else table_candidate_text (text y))
  then Some (source_start x) else None.
Proof.
  unfold table_of_pair, previous_of. cbn [previous_is_header].
  destruct (is_other (fence_context x)), (is_other (fence_context y)); try done.
  destruct (table_candidate_text (text x)) as [h|]; [|done].
  destruct (table_candidate_text (text y)) as [d|]; simpl; [done|by rewrite andb_false_r].
Qed.

(** A line that is pushed is the next line of the scan. *)
Lemma push_line_scanned ls s source_line line :
  scanned ls s → source_line = line ∨ source_line = line ++ [nl] → no_nl line →
  scanned (ls ++ [mkParsed line (tracker_kind (fence_tracker s)) (source_offset s)]) (push_line s source_line)
  ∧ fence_tracker (push_line s source_line) = advance (fence_tracker s) line
  ∧ source_offset (push_line s source_line) = source_offset s + length source_line.
Proof.
  intros (Hc & Hp & Hprev) Hline Hnl. unfold push_line.
  assert (default source_line (strip_suffix [nl] source_line) = line) as ->.
  { destruct Hline as [->|Hline].
    - destruct (strip_suffix [nl] line) as [l|] eqn:E; [|done]. apply strip_suffix_Some in E as ->.
      exfalso. apply Hnl. set_solver.
    - by rewrite (proj2 (strip_suffix_Some _ _ line) Hline). }
  set (y := mkParsed line (tracker_kind (fence_tracker s)) (source_offset s)).
  assert (match confirmed_table_start s, previous_line s with
          | None, Some p =>
              if negb (is_other (previous_fence p)) && negb (is_other (tracker_kind (fence_tracker s)))
                 && previous_is_header p
                 && is_some_and is_table_delimiter_line
                      (if is_other (tracker_kind (fence_tracker s)) then None else table_candidate_text line)
              then (Some (previous_start p), None) else (None, pending_header_start s)
          | confirmed, _ => (confirmed, pending_header_start s)
          end
          = (confirmed_table (ls ++ [y]),
             match confirmed_table (ls ++ [y]), confirmed_table ls with
             | Some _, None => None | _, _ => pending_header_start s end)) as ->.
  { rewrite confirmed_table_snoc, Hc, Hprev. destruct (confirmed_table ls); [done|].
    destruct (last ls) as [x|]; [|done]. cbn [mbind option_bind fmap option_fmap option_map].
    rewrite table_of_pair_eq. cbn [previous_of previous_fence previous_start fence_context text y].
    by destruct (negb _ && _ && _ && _). }
  split; [|done]. unfold scanned. cbn [confirmed_table_start pending_header_start previous_line].
  rewrite last_snoc. split_and!; [done| |done]. intros Hnone. rewrite Hnone.
  assert (confirmed_table ls = None) as Hls.
  { rewrite confirmed_table_snoc in Hnone. by destruct (confirmed_table ls). }
  rewrite pending_header_snoc, (Hp Hls). cbn [text fence_context source_start y].
  destruct (is_nil (trim line)); simpl; [done|]. by destruct (is_other _).
Qed.

(** ** Whole sources *)

(** What is left of a source after the lines [ls]. *)
Lemma scan_rest raw_lines ls s :
  raw_lines ≠ [] → Forall no_nl raw_lines → scanned ls s →
  holdback_state (push_source_chunk s (join [nl] raw_lines))
  = reference_state (ls ++ parse_lines (fence_tracker s) (source_offset s) raw_lines).
Proof.
  intros Hne Hnl. revert ls s Hne. induction Hnl as [|l raw_lines Hl Hnl IH]; intros ls s Hne Hs; [done|].
  destruct raw_lines as [|l' raw_lines].
  - simpl. unfold push_source_chunk. rewrite split_inclusive_last by done.
    case_decide as E.
    + subst l. simpl. rewrite (scanned_state _ _ Hs). unfold reference_state.
      rewrite confirmed_table_snoc, pending_header_snoc. cbn [text trim trim_start trim_end is_nil].
      destruct (confirmed_table ls); [done|]. destruct (last ls) as [x|]; [|done].
      cbn [mbind option_bind]. rewrite table_of_pair_eq. cbn [text].
      assert (table_candidate_text [] = None) as -> by done.
      destruct (is_other _), (is_other _); simpl; by rewrite ?andb_false_r.
    + by destruct (push_line_scanned ls s l l Hs) as [Hs' _]; [by left|done|]; apply scanned_state in Hs'.
  - rewrite join_cons by done. unfold push_source_chunk.
    change (l ++ [nl] ++ join [nl] (l' :: raw_lines)) with (l ++ nl :: join [nl] (l' :: raw_lines)).
    rewrite split_inclusive_line by done. cbn [foldl].
    destruct (push_line_scanned ls s (l ++ [nl]) l Hs) as (Hs' & Ht & Ho); [by right|done|].
    fold (push_source_chunk (push_line s (l ++ [nl])) (join [nl] (l' :: raw_lines))).
    rewrite (IH _ _ ltac:(done) Hs'), Ht, Ho, length_app, <- app_assoc. simpl. by rewrite Nat.add_assoc.
Qed.

Lemma push_chunks_concat s chunks :
  Forall whole_lines chunks → foldl push_source_chunk s chunks = push_source_chunk s (concat chunks).
Proof.
  intros Hc. revert s. induction Hc as [|chunk chunks Hc Hcs IH]; intros s; [done|]. simpl.
  rewrite IH. unfold push_source_chunk. by rewrite split_inclusive_app, foldl_app.
Qed.

(** However the source of a stream is cut at its lines, the scanner that
    reads it once holds back exactly what the scan of the whole source says: from
    the first header with a delimiter below it, or from a header that ends the
    source, none of them in a fence of code. *)
Theorem holdback_scanner_matches_reference chunks rest :
  Forall whole_lines chunks →
  holdback_state (push_source_chunk (foldl push_source_chunk new_scanner chunks) rest)
  = table_holdback_state (concat chunks ++ rest).
Proof.
  intros Hc. rewrite push_chunks_concat by done. unfold push_source_chunk at 1 2.
  assert (whole_lines (concat chunks)) as Hw.
  { induction Hc as [|chunk chunks Hchunk Hc IH]; [by left|]. simpl.
    destruct Hchunk as [->|Hl]; [done|]. destruct IH as [->|IH]; [rewrite app_nil_r; by right|].
    right. by rewrite last_app, IH. }
  rewrite <- foldl_app, <- split_inclusive_app by done. change (foldl push_line new_scanner (split_inclusive ?s))
    with (push_source_chunk new_scanner s).
  rewrite <- (join_split nl (concat chunks ++ rest)) at 1.
  rewrite (scan_rest _ []); [done|apply split_on_nonempty|apply split_on_Forall|done].
Qed.

Lemma holdback_scanner_matches_reference_witness :
  holdback_state (push_source_chunk (foldl push_source_chunk new_scanner
    [lit "text" ++ [nl]; lit "| a | b |" ++ [nl] ++ lit "| --- | --- |" ++ [nl]]) (lit "| 1 | 2"))
  = TableHoldbackState.Confirmed 5.
Proof.
  rewrite holdback_scanner_matches_reference; [vm_compute; reflexivity|].
  repeat constructor; right; reflexivity.
Defined.
