(* ===== verification/StreamController.v ===== *)
(** Streams of markdown on their way to the terminal: the source collected at
    newlines ([tui/src/markdown_stream.rs]), its incremental rendering
    ([tui/src/streaming/render.rs]), the queue of lines
    ([tui/src/streaming/mod.rs]), and the controllers that split what is rendered
    into stable lines, which are queued and emitted one after another, and a
    tail that may still change ([tui/src/streaming/controller.rs]). The renderer
    of markdown is an interface; an instant is a number of nanoseconds; offsets
    into the source are counted in characters. An operation returns [None]
    where the code would panic on a range of lines. *)

From S2P Require Import Prelude Text TableDetect.

(** * The renderer *)

(** [StreamingMarkdownRender] *)
Record StreamingMarkdownRender (Line : Type) := mkStreaming {
  streaming_lines : list Line;
  streaming_has_reference_link_definition : bool;
  last_top_level_block_start : option nat;
  first_top_level_block_is_html : bool
}.
Arguments streaming_lines {Line} _.
Arguments streaming_has_reference_link_definition {Line} _.
Arguments last_top_level_block_start {Line} _.
Arguments first_top_level_block_is_html {Line} _.

(** What the streams ask of the rendering of lines. [Env] holds the current
    directory and the context of inline visualizations, which may be missing. *)
Class Renderer (Line Env : Type) := {
  plain_line : str → Line;
  blank_line : Line;
  space_line : Line;
  plan_header_line : Line;
  style_plan_lines : list Line → list Line;
  has_visualization_context : Env → bool;
  render_markdown : Env → str → option N → list Line;
  render_streaming_markdown : Env → str → option N → StreamingMarkdownRender Line
}.

(** [HistoryRenderMode] *)
Inductive HistoryRenderMode := Rich | Raw.

#[export] Instance HistoryRenderMode_eq_dec : EqDecision HistoryRenderMode.
Proof. solve_decision. Defined.

(** [DIRECTIVE_PREFIX] *)
Definition DIRECTIVE_PREFIX : str := lit "::codex-inline-vis{".

(** * The source *)

(** [MarkdownStreamCollector] *)
Record MarkdownStreamCollector := mkCollector {
  buffer : str;
  committed_source_len : nat;
  collector_width : option N
}.

(** [buffer.rfind('\n').map(|idx| idx + 1)] *)
Definition last_line_end (s : str) : option nat :=
  (λ '(i, _), length s - i) <$> list_find (λ c, c = nl) (reverse s).

Definition new_collector (width : option N) : MarkdownStreamCollector := mkCollector [] 0 width.
Definition collector_set_width (width : option N) (c : MarkdownStreamCollector) : MarkdownStreamCollector :=
  mkCollector (buffer c) (committed_source_len c) width.
Definition collector_clear (c : MarkdownStreamCollector) : MarkdownStreamCollector :=
  mkCollector [] 0 (collector_width c).
Definition collector_push_delta (delta : str) (c : MarkdownStreamCollector) : MarkdownStreamCollector :=
  mkCollector (buffer c ++ delta) (committed_source_len c) (collector_width c).

(** [commit_complete_source]: the range that is newly complete. *)
Definition commit_complete_source (c : MarkdownStreamCollector) :
    MarkdownStreamCollector * option (nat * nat) :=
  match last_line_end (buffer c) with
  | None => (c, None)
  | Some commit_end =>
      let commit_start := committed_source_len c in
      if bool_decide (commit_end ≤ commit_start) then (c, None)
      else (mkCollector (buffer c) commit_end (collector_width c), Some (commit_start, commit_end))
  end.

(** [committed_source] and [finalize_and_take_source] *)
Definition committed_source (c : MarkdownStreamCollector) : str := take (committed_source_len c) (buffer c).
Definition newline_terminated (s : str) : str :=
  if is_nil s || bool_decide (last s = Some nl) then s else s ++ [nl].
Definition finalize_and_take_source (c : MarkdownStreamCollector) : MarkdownStreamCollector * str :=
  (collector_clear c, newline_terminated (buffer c)).

(** * Rendering *)

Section streams.
Context {Line Env : Type} `{Renderer Line Env}.

(** [raw_lines_from_source], as plain lines *)
Definition raw_lines_from_source (source : str) : list str :=
  if is_nil source then []
  else
    let parts := split_on nl source in
    if bool_decide (last source = Some nl) then init parts else parts.
Definition raw_lines (source : str) : list Line := plain_line <$> raw_lines_from_source source.

(** [render_source] *)
Definition render_source (env : Env) (source : str) (width : option N) (mode : HistoryRenderMode) :
    list Line :=
  match mode with
  | Rich => render_markdown env source width
  | Raw => raw_lines source
  end.

(** [StreamingRender] *)
Record StreamingRender := mkRender {
  lines : list Line;
  stable_source_len : nat;
  stable_rendered_len : nat;
  has_reference_link_definition : bool;
  has_inline_visualization_directive : bool
}.
Definition new_render : StreamingRender := mkRender [] 0 0 false false.

(** [recompute] *)
Definition recompute (source : str) (width : option N) (env : Env) (mode : HistoryRenderMode) :
    StreamingRender :=
  let directive := contains source DIRECTIVE_PREFIX in
  if bool_decide (mode = Rich) && negb (has_visualization_context env) && negb directive then
    let rendered := render_streaming_markdown env source width in
    mkRender (streaming_lines rendered) 0 0 (streaming_has_reference_link_definition rendered) directive
  else mkRender (render_source env source width mode) 0 0 false directive.

(** [append] *)
Definition append (raw_source committed : str) (width : option N) (env : Env) (mode : HistoryRenderMode)
    (r : StreamingRender) : StreamingRender :=
  if bool_decide (mode = Raw) then
    mkRender (lines r ++ raw_lines committed) (stable_source_len r) (stable_rendered_len r)
      (has_reference_link_definition r) (has_inline_visualization_directive r)
  else if has_inline_visualization_directive r || contains committed DIRECTIVE_PREFIX then
    recompute raw_source width env mode
  else if has_reference_link_definition r then recompute raw_source width env mode
  else
    let pending_source := drop (stable_source_len r) raw_source in
    let pending := render_streaming_markdown env pending_source width in
    if streaming_has_reference_link_definition pending then recompute raw_source width env mode
    else
      let newly_stable :=
        (λ boundary, (boundary, length (render_source env (take boundary pending_source) width mode)))
        <$> last_top_level_block_start pending in
      let kept := take (stable_rendered_len r) (lines r) in
      let kept :=
        if negb (is_nil kept)
           && (negb (is_nil (streaming_lines pending)) || negb (is_nil (trim pending_source)))
           && negb (first_top_level_block_is_html pending)
        then kept ++ [blank_line] else kept in
      mkRender (kept ++ streaming_lines pending)
        (match newly_stable with
         | Some (boundary, _) => stable_source_len r + boundary | None => stable_source_len r end)
        (match newly_stable with
         | Some (_, len) => length kept + len | None => stable_rendered_len r end)
        false false.

(** * The queue *)

(** [QueuedLine] and [StreamState] *)
Record QueuedLine := mkQueued { line : Line; enqueued_at : N }.
Record StreamState := mkState {
  collector : MarkdownStreamCollector;
  queued_lines : list QueuedLine;
  has_seen_delta : bool
}.

Definition new_state (width : option N) : StreamState := mkState (new_collector width) [] false.
Definition state_clear (s : StreamState) : StreamState := mkState (collector_clear (collector s)) [] false.
Definition set_queue (q : list QueuedLine) (s : StreamState) : StreamState :=
  mkState (collector s) q (has_seen_delta s).
Definition set_collector (c : MarkdownStreamCollector) (s : StreamState) : StreamState :=
  mkState c (queued_lines s) (has_seen_delta s).

(** [step], [drain_n], [clear_queue], [enqueue] and the accessors *)
Definition step (s : StreamState) : StreamState * list Line :=
  match queued_lines s with
  | q :: queue => (set_queue queue s, [line q])
  | [] => (s, [])
  end.
Definition drain_n (max_lines : nat) (s : StreamState) : StreamState * list Line :=
  let end_ := min max_lines (length (queued_lines s)) in
  (set_queue (drop end_ (queued_lines s)) s, line <$> take end_ (queued_lines s)).
Definition clear_queue (s : StreamState) : StreamState := set_queue [] s.
Definition enqueue (now : N) (ls : list Line) (s : StreamState) : StreamState :=
  set_queue (queued_lines s ++ ((λ l, mkQueued l now) <$> ls)) s.
Definition is_idle (s : StreamState) : bool := is_nil (queued_lines s).
Definition queued_len (s : StreamState) : nat := length (queued_lines s).
Definition oldest_queued_age (now : N) (s : StreamState) : option N :=
  (λ q, now - enqueued_at q)%N <$> head (queued_lines s).

(** * The core of a stream *)

(** [StablePrefixLenCache] *)
Record StablePrefixLenCache := mkCache {
  cache_source_start : nat;
  cache_width : option N;
  stable_prefix_len : nat
}.

(** [StreamCore] *)
Record StreamCore := mkCore {
  state : StreamState;
  width : option N;
  render : StreamingRender;
  enqueued_stable_len : nat;
  emitted_stable_len : nat;
  env : Env;
  render_mode : HistoryRenderMode;
  stable_prefix_len_cache : option StablePrefixLenCache;
  holdback_scanner : TableHoldbackScanner
}.

Definition new_core (width : option N) (env : Env) (mode : HistoryRenderMode) : StreamCore :=
  mkCore (new_state width) width new_render 0 0 env mode None new_scanner.

Definition set_state (s : StreamState) (c : StreamCore) : StreamCore :=
  mkCore s (width c) (render c) (enqueued_stable_len c) (emitted_stable_len c) (env c) (render_mode c)
    (stable_prefix_len_cache c) (holdback_scanner c).
Definition set_render (r : StreamingRender) (c : StreamCore) : StreamCore :=
  mkCore (state c) (width c) r (enqueued_stable_len c) (emitted_stable_len c) (env c) (render_mode c)
    (stable_prefix_len_cache c) (holdback_scanner c).
Definition set_enqueued (n : nat) (c : StreamCore) : StreamCore :=
  mkCore (state c) (width c) (render c) n (emitted_stable_len c) (env c) (render_mode c)
    (stable_prefix_len_cache c) (holdback_scanner c).
Definition set_emitted (n : nat) (c : StreamCore) : StreamCore :=
  mkCore (state c) (width c) (render c) (enqueued_stable_len c) n (env c) (render_mode c)
    (stable_prefix_len_cache c) (holdback_scanner c).
Definition set_cache (cache : option StablePrefixLenCache) (c : StreamCore) : StreamCore :=
  mkCore (state c) (width c) (render c) (enqueued_stable_len c) (emitted_stable_len c) (env c) (render_mode c)
    cache (holdback_scanner c).
Definition set_scanner (s : TableHoldbackScanner) (c : StreamCore) : StreamCore :=
  mkCore (state c) (width c) (render c) (enqueued_stable_len c) (emitted_stable_len c) (env c) (render_mode c)
    (stable_prefix_len_cache c) s.
Definition set_core_width (w : option N) (c : StreamCore) : StreamCore :=
  mkCore (state c) w (render c) (enqueued_stable_len c) (emitted_stable_len c) (env c) (render_mode c)
    (stable_prefix_len_cache c) (holdback_scanner c).
Definition set_core_mode (m : HistoryRenderMode) (c : StreamCore) : StreamCore :=
  mkCore (state c) (width c) (render c) (enqueued_stable_len c) (emitted_stable_len c) (env c) m
    (stable_prefix_len_cache c) (holdback_scanner c).

Definition source_of (c : StreamCore) : str := committed_source (collector (state c)).

(** [stable_prefix_len_for_source_start] *)
Definition stable_prefix_len_for_source_start (source_start : nat) (c : StreamCore) : StreamCore * nat :=
  let fresh :=
    let len := length (render_markdown (env c) (take (min source_start (length (source_of c))) (source_of c))
                         (width c)) in
    (set_cache (Some (mkCache source_start (width c) len)) c, len) in
  match stable_prefix_len_cache c with
  | Some cache =>
      if bool_decide (cache_source_start cache = source_start) && bool_decide (cache_width cache = width c)
      then (c, stable_prefix_len cache) else fresh
  | None => fresh
  end.

(** [tail_budget_from_source_start] *)
Definition tail_budget_from_source_start (source_start : nat) (c : StreamCore) : StreamCore * nat :=
  if bool_decide (source_start = 0) then (c, length (lines (render c)))
  else
    let source_start := min source_start (length (source_of c)) in
    let '(c, stable_prefix_len) := stable_prefix_len_for_source_start source_start c in
    (c, length (lines (render c)) - stable_prefix_len).

(** [active_tail_budget_lines] *)
Definition active_tail_budget_lines (c : StreamCore) : StreamCore * nat :=
  if bool_decide (render_mode c = Raw) then (c, 0)
  else match holdback_state (holdback_scanner c) with
       | TableHoldbackState.Confirmed start | TableHoldbackState.PendingHeader start =>
           tail_budget_from_source_start start c
       | TableHoldbackState.None_ => (c, 0)
       end.

(** [compute_target_stable_len] *)
Definition compute_target_stable_len (c : StreamCore) : StreamCore * nat :=
  let '(c, tail_budget) := active_tail_budget_lines c in
  (c, max (length (lines (render c)) - tail_budget) (emitted_stable_len c)).

(** [&lines[from..to]]: a panic unless the range lies within the lines. *)
Definition line_range (from to : nat) (ls : list Line) : option (list Line) :=
  if bool_decide (from ≤ to ≤ length ls) then Some (take (to - from) (drop from ls)) else None.

Definition enqueue_range (now : N) (from to : nat) (c : StreamCore) : option StreamCore :=
  ls ← line_range from to (lines (render c));
  Some (set_state (enqueue now ls (state c)) c).

(** [rebuild_stable_queue_from_render] *)
Definition rebuild_stable_queue_from_render (now : N) (c : StreamCore) : option StreamCore :=
  let '(c, target) := compute_target_stable_len c in
  let c := set_state (clear_queue (state c)) c in
  c ← (if bool_decide (emitted_stable_len c < target)
       then enqueue_range now (emitted_stable_len c) target c else Some c);
  Some (set_enqueued target c).

(** [sync_stable_queue] *)
Definition sync_stable_queue (now : N) (c : StreamCore) : option (StreamCore * bool) :=
  let '(c, target) := compute_target_stable_len c in
  if bool_decide (target < enqueued_stable_len c) then
    let c := set_state (clear_queue (state c)) c in
    c ← (if bool_decide (emitted_stable_len c < target)
         then enqueue_range now (emitted_stable_len c) target c else Some c);
    let c := set_enqueued target c in
    Some (c, bool_decide (0 < queued_len (state c)))
  else if bool_decide (target = enqueued_stable_len c) then Some (c, false)
  else
    c ← enqueue_range now (enqueued_stable_len c) target c;
    Some (set_enqueued target c, true).

(** [push_delta] *)
Definition push_delta (now : N) (delta : str) (c : StreamCore) : option (StreamCore * bool) :=
  let s := state c in
  let s := mkState (collector_push_delta delta (collector s)) (queued_lines s)
             (has_seen_delta s || negb (is_nil delta)) in
  if negb (bool_decide (nl ∈ delta)) then Some (set_state s c, false)
  else
    let '(col, range) := commit_complete_source (collector s) in
    let c := set_state (set_collector col s) c in
    match range with
    | None => Some (c, false)
    | Some (from, to) =>
        let source := committed_source col in
        let committed := take (to - from) (drop from source) in
        let c := set_scanner (push_source_chunk (holdback_scanner c) committed) c in
        let c := set_render (append source committed (width c) (env c) (render_mode c) (render c)) c in
        sync_stable_queue now c
    end.

(** [finalize_remaining] *)
Definition finalize_remaining (c : StreamCore) : StreamCore * list Line * str :=
  let '(col, source) := finalize_and_take_source (collector (state c)) in
  let c := set_state (set_collector col (state c)) c in
  let rendered := render_source (env c) source (width c) (render_mode c) in
  (c, drop (min (emitted_stable_len c) (length rendered)) rendered, source).

(** [tick] and [tick_batch] *)
Definition tick (c : StreamCore) : StreamCore * list Line :=
  let '(s, out) := step (state c) in
  (set_emitted (emitted_stable_len c + length out) (set_state s c), out).
Definition tick_batch (max_lines : nat) (c : StreamCore) : StreamCore * list Line :=
  if bool_decide (max_lines = 0) then (c, [])
  else
    let '(s, out) := drain_n max_lines (state c) in
    let c := set_state s c in
    if is_nil out then (c, out) else (set_emitted (emitted_stable_len c + length out) c, out).

(** [current_tail_lines] and [has_tail] *)
Definition current_tail_lines (c : StreamCore) : list Line :=
  drop (min (enqueued_stable_len c) (length (lines (render c)))) (lines (render c)).
Definition has_tail (c : StreamCore) : bool :=
  bool_decide (enqueued_stable_len c < length (lines (render c))).

(** [reset] *)
Definition reset (c : StreamCore) : StreamCore :=
  mkCore (state_clear (state c)) (width c) new_render 0 0 (env c) (render_mode c) None new_scanner.

(** What [set_width] and [set_render_mode] do once the new layout is set: [had]
    tells whether lines were queued and whether there was a tail. *)
Definition relayout (now : N) (had_pending_queue had_live_tail : bool) (c : StreamCore) :
    option StreamCore :=
  if is_nil (source_of c) then Some c
  else
    let c := set_render (recompute (source_of c) (width c) (env c) (render_mode c)) c in
    let len := length (lines (render c)) in
    let emitted := min (emitted_stable_len c) len in
    let emitted :=
      if had_pending_queue && bool_decide (emitted = len) && bool_decide (0 < emitted)
      then emitted - 1 else emitted in
    let c := set_emitted emitted (set_state (clear_queue (state c)) c) in
    if bool_decide (0 < emitted) && negb had_pending_queue && negb had_live_tail
    then Some (set_enqueued len c)
    else rebuild_stable_queue_from_render now c.
Definition set_width (now : N) (w : option N) (c : StreamCore) : option StreamCore :=
  if bool_decide (width c = w) then Some c
  else
    let had_pending_queue := bool_decide (0 < queued_len (state c)) in
    let had_live_tail := has_tail c in
    let c := set_core_width w c in
    let c := set_state (set_collector (collector_set_width w (collector (state c))) (state c)) c in
    relayout now had_pending_queue had_live_tail c.
Definition set_render_mode (now : N) (m : HistoryRenderMode) (c : StreamCore) : option StreamCore :=
  if bool_decide (render_mode c = m) then Some c
  else
    let had_pending_queue := bool_decide (0 < queued_len (state c)) in
    let had_live_tail := has_tail c in
    relayout now had_pending_queue had_live_tail (set_core_mode m c).

(** [clear_queue] of both controllers *)
Definition core_clear_queue (c : StreamCore) : StreamCore :=
  set_enqueued (emitted_stable_len c) (set_state (clear_queue (state c)) c).
End streams.
