(* ===== verification/StreamPacing.v ===== *)
(** The controllers of agent messages and of proposed plans over the core of
    [StreamController], the policy that decides how fast queued lines are shown
    ([tui/src/streaming/chunking.rs]), and the tick that applies it
    ([tui/src/streaming/commit_tick.rs]). *)

From S2P Require Import Prelude Text TableDetect StreamController.

(** * Controllers *)

(** [StreamController] and [PlanStreamController] share the core. *)
Record MessageController (Line Env : Type) := mkMessage {
  core : @StreamCore Line Env;
  header_emitted : bool
}.
Arguments mkMessage {Line Env} _ _.
Arguments core {Line Env} _.
Arguments header_emitted {Line Env} _.

Record PlanController (Line Env : Type) := mkPlan {
  plan_core : @StreamCore Line Env;
  plan_header_emitted : bool;
  top_padding_emitted : bool
}.
Arguments mkPlan {Line Env} _ _ _.
Arguments plan_core {Line Env} _.
Arguments plan_header_emitted {Line Env} _.
Arguments top_padding_emitted {Line Env} _.

(** The cells of the transcript: lines of an agent message, the first with its
    header, and lines of a plan, styled. *)
Inductive Cell (Line : Type) :=
| AgentMessageCell (cell_lines : list Line) (is_first : bool)
| ProposedPlanStreamCell (cell_lines : list Line) (is_stream_continuation : bool).
Arguments AgentMessageCell {Line} _ _.
Arguments ProposedPlanStreamCell {Line} _ _.

Section controllers.
Context {Line Env : Type} `{Renderer Line Env}.

(** ** [StreamController] *)

Definition new_message (width : option N) (env : Env) (mode : HistoryRenderMode) : MessageController Line Env :=
  mkMessage (new_core width env mode) false.

Definition emit (c : MessageController Line Env) (ls : list Line) :
    MessageController Line Env * option (Cell Line) :=
  if is_nil ls then (c, None)
  else (mkMessage (core c) true, Some (AgentMessageCell ls (negb (header_emitted c)))).

Definition push (now : N) (delta : str) (c : MessageController Line Env) :
    option (MessageController Line Env * bool) :=
  '(k, enqueued) ← push_delta now delta (core c); Some (mkMessage k (header_emitted c), enqueued).

Definition finalize (c : MessageController Line Env) :
    MessageController Line Env * option (Cell Line) * option str :=
  let '(k, remaining, source) := finalize_remaining (core c) in
  if is_nil source then (mkMessage (reset k) (header_emitted c), None, None)
  else
    let '(c, out) := emit (mkMessage k (header_emitted c)) remaining in
    (mkMessage (reset (core c)) (header_emitted c), out, Some source).

Definition on_commit_tick (c : MessageController Line Env) :
    MessageController Line Env * (option (Cell Line) * bool) :=
  let '(k, out) := tick (core c) in
  let '(c, cell) := emit (mkMessage k (header_emitted c)) out in
  (c, (cell, is_idle (state (core c)))).
Definition on_commit_tick_batch (max_lines : nat) (c : MessageController Line Env) :
    MessageController Line Env * (option (Cell Line) * bool) :=
  let '(k, out) := tick_batch max_lines (core c) in
  let '(c, cell) := emit (mkMessage k (header_emitted c)) out in
  (c, (cell, is_idle (state (core c)))).

Definition tail_starts_stream (c : MessageController Line Env) : bool :=
  negb (header_emitted c) && bool_decide (enqueued_stable_len (core c) = 0).

(** ** [PlanStreamController] *)

Definition new_plan (width : option N) (env : Env) (mode : HistoryRenderMode) : PlanController Line Env :=
  mkPlan (new_core width env mode) false false.

Definition render_display_lines (c : PlanController Line Env) (ls : list Line) (include_bottom_padding : bool) :
    list Line :=
  (if plan_header_emitted c then [] else [plan_header_line; space_line])
  ++ style_plan_lines
       ((if top_padding_emitted c then [] else [space_line]) ++ ls
        ++ (if include_bottom_padding then [space_line] else [])).

Definition emit_plan (c : PlanController Line Env) (ls : list Line) (include_bottom_padding : bool) :
    PlanController Line Env * option (Cell Line) :=
  if is_nil ls && negb include_bottom_padding then (c, None)
  else (mkPlan (plan_core c) true true,
        Some (ProposedPlanStreamCell (render_display_lines c ls include_bottom_padding) (plan_header_emitted c))).

Definition set_plan_core (k : StreamCore) (c : PlanController Line Env) : PlanController Line Env :=
  mkPlan k (plan_header_emitted c) (top_padding_emitted c).

Definition push_plan (now : N) (delta : str) (c : PlanController Line Env) :
    option (PlanController Line Env * bool) :=
  '(k, enqueued) ← push_delta now delta (plan_core c); Some (set_plan_core k c, enqueued).

Definition finalize_plan (c : PlanController Line Env) :
    PlanController Line Env * option (Cell Line) * option str :=
  let '(k, remaining, source) := finalize_remaining (plan_core c) in
  if is_nil source then (set_plan_core (reset k) c, None, None)
  else
    let '(c, out) := emit_plan (set_plan_core k c) remaining true in
    (set_plan_core (reset (plan_core c)) c, out, Some source).

Definition on_plan_commit_tick (c : PlanController Line Env) :
    PlanController Line Env * (option (Cell Line) * bool) :=
  let '(k, out) := tick (plan_core c) in
  let '(c, cell) := emit_plan (set_plan_core k c) out false in
  (c, (cell, is_idle (state (plan_core c)))).
Definition on_plan_commit_tick_batch (max_lines : nat) (c : PlanController Line Env) :
    PlanController Line Env * (option (Cell Line) * bool) :=
  let '(k, out) := tick_batch max_lines (plan_core c) in
  let '(c, cell) := emit_plan (set_plan_core k c) out false in
  (c, (cell, is_idle (state (plan_core c)))).

Definition current_tail_display_lines (c : PlanController Line Env) : list Line :=
  let ls := current_tail_lines (plan_core c) in
  if is_nil ls then [] else render_display_lines c ls false.
End controllers.

(** * Pacing *)

(** Durations are in nanoseconds. *)
Definition from_millis (n : N) : N := (n * 1000000)%N.

Definition ENTER_QUEUE_DEPTH_LINES : nat := 8.
Definition ENTER_OLDEST_AGE : N := from_millis 120.
Definition EXIT_QUEUE_DEPTH_LINES : nat := 2.
Definition EXIT_OLDEST_AGE : N := from_millis 40.
Definition EXIT_HOLD : N := from_millis 250.
Definition REENTER_CATCH_UP_HOLD : N := from_millis 250.
Definition SEVERE_QUEUE_DEPTH_LINES : nat := 64.
Definition SEVERE_OLDEST_AGE : N := from_millis 300.

(** [ChunkingMode], [QueueSnapshot], [DrainPlan], [ChunkingDecision] *)
Inductive ChunkingMode := Smooth | CatchUp.

#[export] Instance ChunkingMode_eq_dec : EqDecision ChunkingMode.
Proof. solve_decision. Defined.

Record QueueSnapshot := mkSnapshot { snapshot_queued_lines : nat; oldest_age : option N }.

Inductive DrainPlan := Single | Batch (max_lines : nat).

Record ChunkingDecision := mkDecision {
  decision_mode : ChunkingMode;
  entered_catch_up : bool;
  drain_plan : DrainPlan
}.

(** [AdaptiveChunkingPolicy] *)
Record AdaptiveChunkingPolicy := mkPolicy {
  mode : ChunkingMode;
  below_exit_threshold_since : option N;
  last_catch_up_exit_at : option N
}.
Definition default_policy : AdaptiveChunkingPolicy := mkPolicy Smooth None None.

Definition policy_reset (p : AdaptiveChunkingPolicy) : AdaptiveChunkingPolicy := mkPolicy Smooth None None.

(** [should_enter_catch_up], [should_exit_catch_up], [is_severe_backlog] *)
Definition should_enter_catch_up (s : QueueSnapshot) : bool :=
  bool_decide (ENTER_QUEUE_DEPTH_LINES ≤ snapshot_queued_lines s)
  || is_some_and (λ oldest, bool_decide (ENTER_OLDEST_AGE ≤ oldest)%N) (oldest_age s).
Definition should_exit_catch_up (s : QueueSnapshot) : bool :=
  bool_decide (snapshot_queued_lines s ≤ EXIT_QUEUE_DEPTH_LINES)
  && is_some_and (λ oldest, bool_decide (oldest ≤ EXIT_OLDEST_AGE)%N) (oldest_age s).
Definition is_severe_backlog (s : QueueSnapshot) : bool :=
  bool_decide (SEVERE_QUEUE_DEPTH_LINES ≤ snapshot_queued_lines s)
  || is_some_and (λ oldest, bool_decide (SEVERE_OLDEST_AGE ≤ oldest)%N) (oldest_age s).

(** [note_catch_up_exit] and [reentry_hold_active] *)
Definition note_catch_up_exit (now : N) (p : AdaptiveChunkingPolicy) : AdaptiveChunkingPolicy :=
  if bool_decide (mode p = CatchUp) then mkPolicy (mode p) (below_exit_threshold_since p) (Some now) else p.
Definition reentry_hold_active (now : N) (p : AdaptiveChunkingPolicy) : bool :=
  is_some_and (λ exit, bool_decide (now - exit < REENTER_CATCH_UP_HOLD)%N) (last_catch_up_exit_at p).

(** [maybe_enter_catch_up] and [maybe_exit_catch_up] *)
Definition maybe_enter_catch_up (s : QueueSnapshot) (now : N) (p : AdaptiveChunkingPolicy) :
    AdaptiveChunkingPolicy * bool :=
  if negb (should_enter_catch_up s) then (p, false)
  else if reentry_hold_active now p && negb (is_severe_backlog s) then (p, false)
  else (mkPolicy CatchUp None None, true).
Definition maybe_exit_catch_up (s : QueueSnapshot) (now : N) (p : AdaptiveChunkingPolicy) :
    AdaptiveChunkingPolicy :=
  if negb (should_exit_catch_up s) then mkPolicy (mode p) None (last_catch_up_exit_at p)
  else match below_exit_threshold_since p with
       | Some since =>
           if bool_decide (EXIT_HOLD ≤ now - since)%N then mkPolicy Smooth None (Some now) else p
       | None => mkPolicy (mode p) (Some now) (last_catch_up_exit_at p)
       end.

(** [decide] *)
Definition decide_drain (p : AdaptiveChunkingPolicy) (s : QueueSnapshot) (now : N) :
    AdaptiveChunkingPolicy * ChunkingDecision :=
  if bool_decide (snapshot_queued_lines s = 0) then
    let p := note_catch_up_exit now p in
    (mkPolicy Smooth None (last_catch_up_exit_at p), mkDecision Smooth false Single)
  else
    let '(p, entered) :=
      match mode p with
      | Smooth => maybe_enter_catch_up s now p
      | CatchUp => (maybe_exit_catch_up s now p, false)
      end in
    let plan :=
      match mode p with Smooth => Single | CatchUp => Batch (max (snapshot_queued_lines s) 1) end in
    (p, mkDecision (mode p) entered plan).

(** * The commit tick *)

Inductive CommitTickScope := AnyMode | CatchUpOnly.

#[export] Instance CommitTickScope_eq_dec : EqDecision CommitTickScope.
Proof. solve_decision. Defined.

(** [CommitTickOutput] *)
Record CommitTickOutput (Line : Type) := mkOutput {
  cells : list (Cell Line);
  has_controller : bool;
  all_idle : bool
}.
Arguments mkOutput {Line} _ _ _.
Arguments cells {Line} _.
Arguments has_controller {Line} _.
Arguments all_idle {Line} _.
Definition default_output {Line} : CommitTickOutput Line := mkOutput [] false true.

Section ticks.
Context {Line Env : Type} `{Renderer Line Env}.

(** [max_duration] *)
Definition max_duration (lhs rhs : option N) : option N :=
  match lhs, rhs with
  | Some l, Some r => Some (N.max l r)
  | Some l, None => Some l
  | None, Some r => Some r
  | None, None => None
  end.

(** [stream_queue_snapshot] *)
Definition observe (k : option (@StreamCore Line Env)) (now : N) (s : QueueSnapshot) : QueueSnapshot :=
  match k with
  | Some k => mkSnapshot (snapshot_queued_lines s + queued_len (state k))
                (max_duration (oldest_age s) (oldest_queued_age now (state k)))
  | None => s
  end.
Definition stream_queue_snapshot (c : option (MessageController Line Env)) (p : option (PlanController Line Env))
    (now : N) : QueueSnapshot :=
  observe (plan_core <$> p) now (observe (core <$> c) now (mkSnapshot 0 None)).

(** [drain_stream_controller] and [drain_plan_stream_controller] *)
Definition drain_stream_controller (plan : DrainPlan) (c : MessageController Line Env) :
    MessageController Line Env * (option (Cell Line) * bool) :=
  match plan with
  | Single => on_commit_tick c
  | Batch max_lines => on_commit_tick_batch max_lines c
  end.
Definition drain_plan_stream_controller (plan : DrainPlan) (c : PlanController Line Env) :
    PlanController Line Env * (option (Cell Line) * bool) :=
  match plan with
  | Single => on_plan_commit_tick c
  | Batch max_lines => on_plan_commit_tick_batch max_lines c
  end.

(** One controller of [apply_commit_tick_plan]. *)
Definition drained {C} (result : option (C * (option (Cell Line) * bool))) (out : CommitTickOutput Line) :
    option C * CommitTickOutput Line :=
  match result with
  | Some (c, (cell, idle)) => (Some c, mkOutput (cells out ++ option_list cell) true (all_idle out && idle))
  | None => (None, out)
  end.
Definition apply_commit_tick_plan (plan : DrainPlan) (c : option (MessageController Line Env))
    (p : option (PlanController Line Env)) :
    option (MessageController Line Env) * option (PlanController Line Env) * CommitTickOutput Line :=
  let '(c, out) := drained (drain_stream_controller plan <$> c) default_output in
  let '(p, out) := drained (drain_plan_stream_controller plan <$> p) out in
  (c, p, out).

(** [resolve_chunking_plan], whose logging is left out, and [run_commit_tick] *)
Definition run_commit_tick (policy : AdaptiveChunkingPolicy) (c : option (MessageController Line Env))
    (p : option (PlanController Line Env)) (scope : CommitTickScope) (now : N) :
    AdaptiveChunkingPolicy * option (MessageController Line Env) * option (PlanController Line Env)
    * CommitTickOutput Line :=
  let snapshot := stream_queue_snapshot c p now in
  let '(policy, decision) := decide_drain policy snapshot now in
  if bool_decide (scope = CatchUpOnly) && negb (bool_decide (decision_mode decision = CatchUp))
  then (policy, c, p, default_output)
  else
    let '(c, p, out) := apply_commit_tick_plan (drain_plan decision) c p in
    (policy, c, p, out).
End ticks.
