(* ===== verification/StreamSpec.v ===== *)
(** What the streams of [StreamController] and [StreamPacing] promise: no range
    of lines is ever out of bounds, what is emitted with what remains is the
    render of the source, the pace changes with hysteresis, and ticks drain what
    is queued, in order. *)

From S2P Require Import Prelude Text TableDetect StreamController StreamPacing.

Section core.
Context {Line Env : Type} `{Renderer Line Env}.
Implicit Types (c : @StreamCore Line Env) (ls em : list Line).

(** ** Runs *)

(** What happens to the core of a stream before it is finalized. *)
Inductive Event :=
| Push (now : N) (delta : str)
| Tick
| TickBatch (max_lines : nat)
| SetWidth (now : N) (w : option N)
| SetRenderMode (now : N) (m : HistoryRenderMode)
| ClearQueue.

Definition apply_event (e : Event) c : option (StreamCore * list Line) :=
  match e with
  | Push now delta => '(c, _) ← push_delta now delta c; Some (c, [])
  | Tick => Some (tick c)
  | TickBatch n => Some (tick_batch n c)
  | SetWidth now w => c ← set_width now w c; Some (c, [])
  | SetRenderMode now m => c ← set_render_mode now m c; Some (c, [])
  | ClearQueue => Some (core_clear_queue c, [])
  end.

(** The core after the events, and the lines emitted on the way. *)
Fixpoint run (events : list Event) c em : option (StreamCore * list Line) :=
  match events with
  | [] => Some (c, em)
  | e :: events => '(c, out) ← apply_event e c; run events c (em ++ out)
  end.

(** ** No range is out of bounds *)

Definition in_bounds c : Prop := emitted_stable_len c + queued_len (state c) ≤ enqueued_stable_len c.

Lemma set_cache_id c : set_cache (stable_prefix_len_cache c) c = c.
Proof. by destruct c. Qed.

Lemma compute_target_spec c :
  ∃ cache k, compute_target_stable_len c = (set_cache cache c, max (length (lines (render c)) - k) (emitted_stable_len c)).
Proof.
  assert (∃ cache k, active_tail_budget_lines c = (set_cache cache c, k)) as (cache & k & Hk).
  { unfold active_tail_budget_lines. case_bool_decide; [exists (stable_prefix_len_cache c), 0; by rewrite set_cache_id|].
    assert (∀ start, ∃ cache k, tail_budget_from_source_start start c = (set_cache cache c, k)) as Hb.
    { intros start. unfold tail_budget_from_source_start.
      case_bool_decide; [eexists (stable_prefix_len_cache c), _; by rewrite set_cache_id|].
      unfold stable_prefix_len_for_source_start.
      destruct (stable_prefix_len_cache c) as [cache|] eqn:Hc; [|eexists _, _; reflexivity].
      destruct (_ && _); [|eexists _, _; reflexivity].
      eexists (stable_prefix_len_cache c), _. by rewrite set_cache_id. }
    destruct (holdback_state _); [|apply Hb..]. exists (stable_prefix_len_cache c), 0. by rewrite set_cache_id. }
  exists cache, k. unfold compute_target_stable_len. by rewrite Hk.
Qed.

Lemma line_range_in from to ls : from ≤ to → to ≤ length ls → line_range from to ls = Some (take (to - from) (drop from ls)).
Proof. intros. unfold line_range. by rewrite bool_decide_eq_true_2. Qed.

Lemma enqueue_range_in now from to c :
  from ≤ to → to ≤ length (lines (render c)) →
  enqueue_range now from to c
  = Some (set_state (enqueue now (take (to - from) (drop from (lines (render c)))) (state c)) c).
Proof. intros. unfold enqueue_range. by rewrite line_range_in. Qed.

(** What the queue and the counts are after the queue was rebuilt or extended. *)
Record synced c c' (target : nat) : Prop := mkSynced {
  synced_render : render c' = render c;
  synced_emitted : emitted_stable_len c' = emitted_stable_len c;
  synced_enqueued : enqueued_stable_len c' = target;
  synced_target : emitted_stable_len c ≤ target;
  synced_lines : target ≤ max (length (lines (render c))) (emitted_stable_len c);
  synced_same : collector (state c') = collector (state c) ∧ render_mode c' = render_mode c
                ∧ width c' = width c ∧ env c' = env c
}.

Lemma rebuild_spec now c :
  ∃ c' target, rebuild_stable_queue_from_render now c = Some c' ∧ synced c c' target
    ∧ line <$> queued_lines (state c')
      = take (target - emitted_stable_len c) (drop (emitted_stable_len c) (lines (render c))).
Proof.
  unfold rebuild_stable_queue_from_render. destruct (compute_target_spec c) as (cache & k & ->).
  set (target := max _ _). case_bool_decide as Ht; cbn [emitted_stable_len set_state set_cache] in Ht.
  - rewrite enqueue_range_in by (cbn; unfold target in *; lia). eexists _, target. split; [reflexivity|].
    split; [constructor; cbn; unfold target; try done; lia|]. cbn. rewrite <- list_fmap_compose.
    by apply list_fmap_id.
  - eexists _, target. split; [reflexivity|]. split; [constructor; cbn; unfold target; try done; lia|].
    cbn. replace (target - emitted_stable_len c) with 0 by lia. done.
Qed.

Lemma sync_spec now c :
  in_bounds c →
  ∃ c' b target, sync_stable_queue now c = Some (c', b) ∧ synced c c' target
    ∧ (line <$> queued_lines (state c')
       = take (target - emitted_stable_len c) (drop (emitted_stable_len c) (lines (render c)))
       ∨ enqueued_stable_len c ≤ target ∧ line <$> queued_lines (state c')
         = (line <$> queued_lines (state c))
           ++ take (target - enqueued_stable_len c) (drop (enqueued_stable_len c) (lines (render c)))).
Proof.
  intros Hin. unfold in_bounds in Hin. unfold sync_stable_queue. destruct (compute_target_spec c) as (cache & k & ->).
  set (target := max _ _). cbn [enqueued_stable_len set_cache].
  case_bool_decide as Hlt; [|case_bool_decide as Heq].
  - cbn [emitted_stable_len set_state set_cache]. case_bool_decide as Ht.
    + rewrite enqueue_range_in by (cbn; unfold target in *; lia). eexists _, _, target.
      split; [reflexivity|]. split; [constructor; cbn; unfold target; try done; lia|]. left. cbn.
      rewrite <- list_fmap_compose. by apply list_fmap_id.
    + eexists _, _, target. split; [reflexivity|]. split; [constructor; cbn; unfold target; try done; lia|]. left.
      cbn. replace (target - emitted_stable_len c) with 0 by lia. done.
  - eexists _, _, target. split; [reflexivity|].
    split; [constructor; cbn; unfold target; try done; lia|]. right. split; [lia|]. cbn.
    rewrite Heq, Nat.sub_diag, take_0, app_nil_r. done.
  - rewrite enqueue_range_in by (cbn; unfold target in *; lia). eexists _, _, target.
    split; [reflexivity|]. split; [constructor; cbn; unfold target; try done; lia|]. right. split; [lia|].
    cbn. rewrite fmap_app, <- list_fmap_compose. f_equal. by apply list_fmap_id.
Qed.

Lemma synced_in_bounds c c' target q :
  synced c c' target → line <$> queued_lines (state c') = q → emitted_stable_len c + length q ≤ target →
  in_bounds c'.
Proof.
  intros Hs Hq Hl. unfold in_bounds, queued_len. rewrite (synced_emitted _ _ _ Hs), (synced_enqueued _ _ _ Hs).
  apply (f_equal length) in Hq. rewrite length_fmap in Hq. lia.
Qed.

Lemma rebuild_in_bounds now c : ∃ c', rebuild_stable_queue_from_render now c = Some c' ∧ in_bounds c'.
Proof.
  destruct (rebuild_spec now c) as (c' & target & -> & Hs & Hq). exists c'. split; [done|].
  eapply synced_in_bounds; [done..|]. pose proof (synced_target _ _ _ Hs).
  rewrite length_take. lia.
Qed.

Lemma sync_in_bounds now c : in_bounds c → ∃ c' b, sync_stable_queue now c = Some (c', b) ∧ in_bounds c'.
Proof.
  intros Hin. destruct (sync_spec now c Hin) as (c' & b & target & -> & Hs & Hq). exists c', b. split; [done|].
  pose proof (synced_target _ _ _ Hs). destruct Hq as [Hq|[Hle Hq]]; (eapply synced_in_bounds; [done..|]).
  - rewrite length_take. lia.
  - unfold in_bounds, queued_len in Hin. rewrite length_app, length_take, length_fmap. lia.
Qed.

Lemma push_in_bounds now delta c : in_bounds c → ∃ c' b, push_delta now delta c = Some (c', b) ∧ in_bounds c'.
Proof.
  intros Hin. unfold push_delta. destruct (negb _); [by eexists _, _|].
  destruct (commit_complete_source _) as [col [[from to]|]]; [|by eexists _, _].
  by apply sync_in_bounds.
Qed.

Lemma relayout_in_bounds now had tail c :
  in_bounds c → ∃ c', relayout now had tail c = Some c' ∧ in_bounds c'.
Proof.
  intros Hin. unfold relayout. destruct (is_nil _); [by eexists|].
  destruct (bool_decide _ && _ && _); [|by apply rebuild_in_bounds]. eexists. split; [reflexivity|].
  unfold in_bounds. cbn. destruct (_ && _); lia.
Qed.

Lemma event_in_bounds e c :
  in_bounds c → ∃ c' out, apply_event e c = Some (c', out) ∧ in_bounds c'.
Proof.
  intros Hin. destruct e as [now delta| |n|now w|now m|]; simpl.
  - destruct (push_in_bounds now delta c Hin) as (c' & b & -> & ?). by eexists _, _.
  - unfold tick, step. destruct c as [[col [|q queue] seen] ? ? ? ? ? ? ? ?]; eexists _, _; (split; [reflexivity|]);
      unfold in_bounds in *; cbn in *; lia.
  - unfold tick_batch. case_bool_decide; [by eexists _, _|]. unfold drain_n.
    set (k := min _ _). destruct (is_nil _) eqn:E; eexists _, _; (split; [reflexivity|]);
      unfold in_bounds, queued_len in *; cbn; rewrite length_drop; [lia|].
    rewrite length_fmap, length_take. lia.
  - unfold set_width. case_bool_decide; [by eexists _, _|].
    edestruct relayout_in_bounds as (c' & -> & ?); [|by eexists _, _]. done.
  - unfold set_render_mode. case_bool_decide; [by eexists _, _|].
    edestruct relayout_in_bounds as (c' & -> & ?); [|by eexists _, _]. done.
  - eexists _, _. split; [reflexivity|]. unfold in_bounds. cbn. lia.
Qed.

Lemma run_in_bounds events c em : in_bounds c → ∃ c' em', run events c em = Some (c', em') ∧ in_bounds c'.
Proof.
  revert c em. induction events as [|e events IH]; intros c em Hin; simpl; [by eexists _, _|].
  destruct (event_in_bounds e c Hin) as (c' & out & -> & Hc'). by apply IH.
Qed.

(** Whatever is pushed, drawn, resized or cleared, in whatever order, no
    range of rendered lines is out of bounds, and the lines that were emitted
    and those that wait never exceed what was enqueued. *)
Theorem stream_core_never_panics events w e m em :
  ∃ c em', run events (new_core w e m) em = Some (c, em')
           ∧ emitted_stable_len c + queued_len (state c) ≤ enqueued_stable_len c.
Proof. apply run_in_bounds. unfold in_bounds, queued_len. simpl. lia. Qed.

(** ** What is emitted is what is rendered *)

(** The lines emitted so far and those in the queue are the lines of the
    render that were enqueued. *)
Record mirrors em c : Prop := mkMirrors {
  mirrors_lines : em ++ (line <$> queued_lines (state c)) = take (enqueued_stable_len c) (lines (render c));
  mirrors_emitted : length em = emitted_stable_len c;
  mirrors_enqueued : enqueued_stable_len c ≤ length (lines (render c))
}.

Lemma mirrors_in_bounds em c : mirrors em c → in_bounds c.
Proof.
  intros [Hl He Hn]. apply (f_equal length) in Hl. rewrite length_app, length_fmap, length_take in Hl.
  unfold in_bounds, queued_len. lia.
Qed.

Lemma mirrors_emitted_prefix em c : mirrors em c → em = take (emitted_stable_len c) (lines (render c)).
Proof.
  intros Hm. pose proof (mirrors_in_bounds _ _ Hm) as Hin. destruct Hm as [Hl He Hn].
  unfold in_bounds in Hin. apply (f_equal (take (emitted_stable_len c))) in Hl.
  rewrite take_take, Nat.min_l, <- He, take_app_length in Hl by lia. by rewrite <- He.
Qed.

Lemma tick_mirrors em c : mirrors em c → mirrors (em ++ (tick c).2) (tick c).1.
Proof.
  intros [Hl He Hn]. unfold tick, step. destruct c as [[col [|q queue] seen] ? ? ? ? ? ? ? ?]; cbn in *.
  - rewrite app_nil_r. constructor; cbn; [done|lia|done].
  - constructor; cbn; [by rewrite <- app_assoc|rewrite length_app; simpl; lia|done].
Qed.

Lemma tick_batch_mirrors n em c : mirrors em c → mirrors (em ++ (tick_batch n c).2) (tick_batch n c).1.
Proof.
  intros [Hl He Hn]. unfold tick_batch. case_bool_decide; [by rewrite app_nil_r|]. unfold drain_n.
  set (k := min _ _). destruct (is_nil (line <$> take k (queued_lines (state c)))) eqn:E.
  - apply is_nil_true in E. assert (take k (queued_lines (state c)) = []) as Hk by by destruct (take k _).
    cbn. rewrite E, app_nil_r. constructor; cbn; [|done|done].
    rewrite <- Hl. pose proof (take_drop k (queued_lines (state c))) as Hq. rewrite Hk in Hq. simpl in Hq.
    by rewrite Hq.
  - constructor; cbn; [|rewrite length_app; lia|done].
    by rewrite <- app_assoc, <- fmap_app, take_drop.
Qed.

(** The next render keeps the lines that were enqueued. *)
Definition keeps_lines c (ls : list Line) : Prop :=
  take (enqueued_stable_len c) ls = take (enqueued_stable_len c) (lines (render c))
  ∧ enqueued_stable_len c ≤ length ls.

Lemma sync_mirrors now em c :
  mirrors em c → ∃ c' b target, sync_stable_queue now c = Some (c', b) ∧ mirrors em c' ∧ synced c c' target.
Proof.
  intros Hm. pose proof (mirrors_in_bounds _ _ Hm) as Hin.
  destruct (sync_spec now c Hin) as (c' & b & target & -> & Hs & Hq). exists c', b, target.
  split_and!; [done| |done]. pose proof (mirrors_emitted_prefix _ _ Hm) as Hem. destruct Hm as [Hl He Hn].
  pose proof (synced_target _ _ _ Hs). pose proof (synced_lines _ _ _ Hs). unfold in_bounds in Hin.
  constructor.
  - rewrite (synced_enqueued _ _ _ Hs), (synced_render _ _ _ Hs). destruct Hq as [->|[Hle ->]].
    + rewrite Hem at 1. by rewrite take_take_drop, Nat.add_comm, Nat.sub_add.
    + by rewrite app_assoc, Hl, take_take_drop, Nat.add_comm, Nat.sub_add.
  - by rewrite (synced_emitted _ _ _ Hs).
  - rewrite (synced_enqueued _ _ _ Hs), (synced_render _ _ _ Hs). lia.
Qed.

(** What the next push renders, if it completes a line. *)
Definition push_render (delta : str) c : option (MarkdownStreamCollector * StreamingRender) :=
  if negb (bool_decide (nl ∈ delta)) then None
  else
    let '(col, range) := commit_complete_source (collector_push_delta delta (collector (state c))) in
    '(from, to) ← range;
    Some (col, append (committed_source col) (take (to - from) (drop from (committed_source col)))
                 (width c) (env c) (render_mode c) (render c)).

Definition push_keeps (delta : str) c : Prop :=
  match push_render delta c with Some (_, r) => keeps_lines c (lines r) | None => True end.

Lemma push_delta_spec now delta c :
  match push_render delta c with
  | Some (col, r) => ∃ scanner,
      push_delta now delta c
      = sync_stable_queue now
          (set_render r (set_scanner scanner
             (set_state (mkState col (queued_lines (state c)) (has_seen_delta (state c) || negb (is_nil delta))) c)))
  | None => ∃ seen b, push_delta now delta c
      = Some (set_state (mkState (collector_push_delta delta (collector (state c))) (queued_lines (state c)) seen) c, b)
  end.
Proof.
  unfold push_render, push_delta. destruct (negb _); [by eexists _, _|].
  cbn [collector]. unfold commit_complete_source.
  destruct (last_line_end _) as [to|]; [|by eexists _, _]. case_bool_decide; [by eexists _, _|].
  cbn [mbind option_bind]. by eexists.
Qed.

Lemma push_mirrors now delta em c :
  mirrors em c → push_keeps delta c →
  ∃ c' b, push_delta now delta c = Some (c', b) ∧ mirrors em c'
    ∧ match push_render delta c with
      | Some (col, r) => render c' = r ∧ collector (state c') = col
      | None => render c' = render c
                ∧ collector (state c') = collector_push_delta delta (collector (state c))
      end
    ∧ render_mode c' = render_mode c ∧ env c' = env c ∧ width c' = width c.
Proof.
  intros Hm Hk. pose proof (push_delta_spec now delta c) as Hp. unfold push_keeps in Hk.
  destruct (push_render delta c) as [[col r]|].
  - destruct Hp as [scanner ->]. destruct Hk as [Hk Hlen], Hm as [Hl He Hn].
    edestruct (sync_mirrors now em) as (c' & b & target & -> & Hm' & Hs).
    { constructor; cbn; [by rewrite Hl, Hk|done|done]. }
    exists c', b. pose proof (synced_render _ _ _ Hs). destruct (synced_same _ _ _ Hs) as (? & ? & ? & ?).
    by split_and!.
  - destruct Hp as (seen & b & ->). eexists _, _. split; [reflexivity|]. destruct Hm as [Hl He Hn].
    by split_and!; try done; constructor.
Qed.

(** Pushes that keep what was enqueued, and ticks. *)
Fixpoint stable_run (events : list Event) c : Prop :=
  match events with
  | [] => True
  | e :: events =>
      match e with Push _ delta => push_keeps delta c | Tick | TickBatch _ => True | _ => False end
      ∧ match apply_event e c with Some (c', _) => stable_run events c' | None => False end
  end.

Lemma run_mirrors events c em :
  mirrors em c → stable_run events c → ∃ c' em', run events c em = Some (c', em') ∧ mirrors em' c'.
Proof.
  revert c em. induction events as [|e events IH]; intros c em Hm; simpl; [by eexists _, _|].
  destruct e as [now delta| |n|now w|now m|]; simpl; try (by intros [[] _]).
  - intros [Hk Hr]. destruct (push_mirrors now delta em c Hm Hk) as (c' & b & Hp & Hm' & _).
    rewrite Hp in *. simpl in *. rewrite app_nil_r. by apply IH.
  - intros [_ Hr]. pose proof (tick_mirrors _ _ Hm) as Hm'. destruct (tick c) as [c' out]. simpl in *. by apply IH.
  - intros [_ Hr]. pose proof (tick_batch_mirrors n _ _ Hm) as Hm'. destruct (tick_batch n c) as [c' out].
    simpl in *. by apply IH.
Qed.

Lemma mirrors_new w e m : mirrors [] (new_core w e m).
Proof. by constructor. Qed.

(** C35: as long as no push rewrites a line that was enqueued, the lines that
    were emitted, those in the queue and the live tail are together the current
    render, none lost, repeated or out of order; and if the last render of the
    whole source keeps the emitted lines, finishing the stream completes it. *)
Theorem emitted_lines_are_the_render events w e m :
  stable_run events (new_core w e m) →
  ∃ c em, run events (new_core w e m) [] = Some (c, em)
    ∧ em ++ (line <$> queued_lines (state c)) ++ current_tail_lines c = lines (render c)
    ∧ let '(_, remaining, source) := finalize_remaining c in
      let final := render_source (env c) source (width c) (render_mode c) in
      em `prefix_of` final → em ++ remaining = final.
Proof.
  intros Hs. destruct (run_mirrors events _ [] (mirrors_new w e m) Hs) as (c & em & Hr & Hm).
  exists c, em. split_and!; [done| |].
  - rewrite app_assoc. destruct Hm as [-> _ Hn]. unfold current_tail_lines. rewrite Nat.min_l by done.
    apply take_drop.
  - unfold finalize_remaining. cbn. intros [rest Hrest]. rewrite Hrest, length_app.
    destruct Hm as [_ <- _]. rewrite Nat.min_l by lia. by rewrite drop_app_length.
Qed.

(** ** Plain text loses nothing *)

Lemma last_line_end_Some (s : str) n :
  last_line_end s = Some n → 0 < n ≤ length s ∧ last (take n s) = Some nl.
Proof.
  unfold last_line_end. intros ([i c] & (Hi & -> & _)%list_find_Some & ->)%fmap_Some.
  pose proof (lookup_lt_Some _ _ _ Hi) as Hl. rewrite length_reverse in Hl.
  rewrite reverse_lookup in Hi by done. split; [lia|].
  rewrite last_lookup, length_take, Nat.min_l, lookup_take_lt by lia. rewrite <- Hi. f_equal. lia.
Qed.

Lemma raw_lines_app a b : whole_lines a → raw_lines_from_source (a ++ b) = raw_lines_from_source a ++ raw_lines_from_source b.
Proof.
  intros [->|Ha]; [done|]. apply last_Some in Ha as [a' ->]. unfold raw_lines_from_source.
  rewrite last_app. rewrite <- app_assoc. cbn [app]. rewrite split_on_app_sep, split_on_snoc, last_snoc, init_snoc.
  assert (∀ t : str, is_nil (a' ++ nl :: t) = false) as Hne by (by destruct a'). rewrite !Hne.
  rewrite (bool_decide_eq_true_2 (Some nl = Some nl)) by done.
  destruct b as [|x b] using rev_ind; simpl; [by rewrite init_snoc, app_nil_r|].
  rewrite last_snoc. cbn match. assert (is_nil (b ++ [x]) = false) as -> by (by destruct b).
  destruct (decide (x = nl)) as [->|Hx].
  - rewrite !bool_decide_eq_true_2 by done. by rewrite split_on_snoc, app_assoc, !init_snoc.
  - rewrite !bool_decide_eq_false_2 by congruence. done.
Qed.

(** The collector has committed whole lines of what was pushed. *)
Definition collected (source : str) (col : MarkdownStreamCollector) : Prop :=
  buffer col = source ∧ committed_source_len col ≤ length source ∧ whole_lines (committed_source col).

Lemma commit_collected source col :
  collected source col →
  match commit_complete_source col with
  | (col', Some (from, to)) =>
      collected source col'
      ∧ committed_source col' = committed_source col ++ take (to - from) (drop from (committed_source col'))
  | (col', None) => col' = col
  end.
Proof.
  intros (Hb & Hl & Hw). unfold commit_complete_source.
  destruct (last_line_end (buffer col)) as [to|] eqn:E; [|done]. case_bool_decide as Hto; [done|].
  apply last_line_end_Some in E as [Hn Hlast]. unfold collected, committed_source.
  cbn [buffer committed_source_len]. rewrite Hb in *. split_and!; [done|lia|by right|].
  rewrite (take_ge (drop _ _)) by (rewrite length_drop, length_take; lia).
  rewrite <- (take_drop (committed_source_len col) (take to source)) at 1. f_equal.
  rewrite take_take. f_equal. lia.
Qed.

Record raw_mirrors (source : str) em c : Prop := mkRawMirrors {
  raw_mirrored : mirrors em c;
  raw_mode : render_mode c = Raw;
  raw_collected : collected source (collector (state c));
  raw_rendered : lines (render c) = raw_lines (source_of c)
}.

Lemma raw_push now delta source em c :
  raw_mirrors source em c →
  ∃ c' b, push_delta now delta c = Some (c', b) ∧ raw_mirrors (source ++ delta) em c'.
Proof.
  intros [Hm Hraw Hcol Hren].
  assert (collected (source ++ delta) (collector_push_delta delta (collector (state c)))
          ∧ committed_source (collector_push_delta delta (collector (state c))) = source_of c) as [Hcol' Hsame].
  { destruct Hcol as (Hb & Hl & Hw). unfold source_of, collected, committed_source in *. cbn. rewrite Hb in *.
    rewrite take_app_le by done. rewrite length_app. split_and!; [done|lia|done|done]. }
  assert (match push_render delta c with
          | Some (col, r) => collected (source ++ delta) col ∧ lines r = raw_lines (committed_source col)
              ∧ ∃ more, lines r = lines (render c) ++ more
          | None => True end) as Hnext.
  { unfold push_render. destruct (negb _); [done|].
    pose proof (commit_collected _ _ Hcol') as Hc.
    destruct (commit_complete_source _) as [col [[from to]|]]; [|done]. cbn [mbind option_bind].
    destruct Hc as [Hcc Hsrc]. rewrite Hsame in Hsrc. unfold append. rewrite Hraw. simpl.
    split_and!; [done| |by eexists]. rewrite Hren. set (chunk := take _ _) in *. rewrite Hsrc. unfold raw_lines.
    rewrite <- fmap_app, raw_lines_app; [done|]. by destruct Hcol as (_ & _ & ?). }
  destruct (push_mirrors now delta em c Hm) as (c' & b & Hp & Hm' & Hr & Hmode & _).
  { unfold push_keeps. destruct (push_render delta c) as [[col r]|]; [|done].
    destruct Hnext as (_ & _ & more & Hmore), Hm as [_ _ Hn]. unfold keeps_lines. rewrite Hmore, length_app.
    split; [by rewrite take_app_le|lia]. }
  exists c', b. split; [done|]. unfold source_of in *.
  destruct (push_render delta c) as [[col r]|]; destruct Hr as [Hr Hc'].
  - destruct Hnext as (? & ? & _). constructor; [done|by rewrite Hmode|by rewrite Hc'|].
    unfold source_of. by rewrite Hr, Hc'.
  - constructor; [done|by rewrite Hmode|by rewrite Hc'|]. unfold source_of. by rewrite Hr, Hc', Hsame.
Qed.

(** What the pushes of a run bring. *)
Definition pushed (events : list Event) : str :=
  events ≫= λ e, match e with Push _ delta => delta | _ => [] end.
Definition pushes_and_ticks (events : list Event) : Prop :=
  Forall (λ e, match e with Push _ _ | Tick | TickBatch _ => True | _ => False end) events.

Lemma raw_run events source em c :
  pushes_and_ticks events → raw_mirrors source em c →
  ∃ c' em', run events c em = Some (c', em') ∧ raw_mirrors (source ++ pushed events) em' c'.
Proof.
  intros He. revert source em c. induction He as [|e events He Hes IH]; intros source em c Hm; simpl.
  { eexists _, _. by rewrite app_nil_r. }
  destruct e as [now delta| |n| | |]; try done; simpl.
  - destruct (raw_push now delta source em c Hm) as (c' & b & -> & Hm'). simpl.
    rewrite app_nil_r, app_assoc. by apply IH.
  - pose proof Hm as [Hm' ? ? ?]. apply tick_mirrors in Hm'. destruct (tick c) as [c' out] eqn:E. simpl in *.
    apply IH. unfold tick, step in E. destruct (queued_lines (state c)); injection E as <- <-; by constructor.
  - pose proof Hm as [Hm' ? ? ?]. apply (tick_batch_mirrors n) in Hm'. destruct (tick_batch n c) as [c' out] eqn:E.
    simpl in *. apply IH. unfold tick_batch, drain_n in E. case_bool_decide; [by injection E as <- <-|].
    destruct (is_nil _); injection E as <- <-; by constructor.
Qed.

(** A stream of plain text, pushed in any pieces and drawn at any pace, emits
    the lines of its source, each once and in order; a last line without newline
    comes with the end of the stream. *)
Theorem raw_stream_emits_its_source events w e :
  pushes_and_ticks events →
  ∃ c em, run events (new_core w e Raw) [] = Some (c, em)
    ∧ let '(_, remaining, source) := finalize_remaining c in
      source = newline_terminated (pushed events) ∧ em ++ remaining = raw_lines source.
Proof.
  intros He. destruct (raw_run events [] [] (new_core w e Raw) He) as (c & em & Hr & Hm).
  { constructor; [apply mirrors_new|done| |done]. unfold collected, whole_lines. simpl. split_and!; auto. }
  exists c, em. split; [done|]. destruct Hm as [Hm Hmode (Hb & Hl & Hw) Hren]. simpl in Hb, Hl.
  unfold finalize_remaining. cbn. rewrite Hb, Hmode. split; [done|]. cbn.
  rewrite (mirrors_emitted_prefix _ _ Hm), Hren. unfold source_of.
  assert (∃ rest, newline_terminated (pushed events) = committed_source (collector (state c)) ++ rest) as [rest ->].
  { unfold committed_source. rewrite Hb. unfold newline_terminated.
    destruct (_ || _); eexists; [by rewrite take_drop|].
    by rewrite <- (take_drop (committed_source_len (collector (state c))) (pushed events)) at 1; rewrite <- app_assoc. }
  unfold raw_lines. rewrite raw_lines_app, fmap_app by done.
  pose proof (mirrors_in_bounds _ _ Hm) as Hin. destruct Hm as [_ _ Hn]. rewrite Hren in Hn. unfold source_of, raw_lines in Hn.
  unfold in_bounds in Hin. rewrite length_app, Nat.min_l by lia.
  rewrite <- (take_app_le _ (plain_line <$> raw_lines_from_source rest)) by lia. apply take_drop.
Qed.
End core.

(** ** Pace *)

Section pace.
Implicit Types (p : AdaptiveChunkingPolicy) (s : QueueSnapshot) (h : list (QueueSnapshot * N)).

(** The policy after the snapshots [h], the last one last. *)
Definition policy_after h : AdaptiveChunkingPolicy :=
  foldl (λ p '(s, now), (decide_drain p s now).1) default_policy h.

Lemma policy_after_snoc h s now : policy_after (h ++ [(s, now)]) = (decide_drain (policy_after h) s now).1.
Proof. unfold policy_after. by rewrite foldl_app. Qed.

(** Since [t0], pressure was low at every snapshot. *)
Definition low_since h (t0 : N) : Prop :=
  ∃ h1 s0 h2, h = h1 ++ (s0, t0) :: h2 ∧ Forall (λ '(s, _), should_exit_catch_up s = true) ((s0, t0) :: h2).

Lemma decide_policy p s now :
  (decide_drain p s now).1 =
  if bool_decide (snapshot_queued_lines s = 0)
  then mkPolicy Smooth None (last_catch_up_exit_at (note_catch_up_exit now p))
  else match mode p with
       | Smooth => (maybe_enter_catch_up s now p).1
       | CatchUp => maybe_exit_catch_up s now p
       end.
Proof.
  unfold decide_drain. case_bool_decide; [done|]. destruct (mode p); [|done].
  by destruct (maybe_enter_catch_up s now p).
Qed.

(** The mark of low pressure is set only while catching up, and since then
    pressure was low. *)
Lemma exit_mark_low h t0 :
  below_exit_threshold_since (policy_after h) = Some t0 → mode (policy_after h) = CatchUp ∧ low_since h t0.
Proof.
  revert t0. induction h as [|[s now] h IH] using rev_ind; intros t0; [done|].
  rewrite policy_after_snoc, decide_policy. case_bool_decide; [done|].
  destruct (mode (policy_after h)) eqn:Hm.
  - unfold maybe_enter_catch_up. destruct (negb (should_enter_catch_up s)); [by intros [Hc _]%IH|].
    destruct (_ && _); simpl; [by intros [Hc _]%IH|done].
  - unfold maybe_exit_catch_up. destruct (should_exit_catch_up s) eqn:Hs; simpl; [|done].
    destruct (below_exit_threshold_since (policy_after h)) as [since|] eqn:Hb.
    + case_bool_decide; [done|]. rewrite Hb. intros [= <-].
      destruct (IH _ eq_refl) as (_ & h1 & s0 & h2 & -> & Hlow). split; [done|].
      exists h1, s0, (h2 ++ [(s, now)]). rewrite <- app_assoc. split; [done|].
      rewrite app_comm_cons. apply Forall_app. by split; [|constructor].
    + simpl. intros [= <-]. split; [done|]. exists h, s, []. split; [done|]. by constructor.
Qed.

(** The last exit from catching up is remembered as long as the pace is smooth. *)
Lemma exit_remembered h1 s0 t0 h2 :
  mode (policy_after h1) = CatchUp → mode (policy_after (h1 ++ [(s0, t0)])) = Smooth →
  (∀ h2', h2' `prefix_of` h2 → mode (policy_after (h1 ++ (s0, t0) :: h2')) = Smooth) →
  last_catch_up_exit_at (policy_after (h1 ++ (s0, t0) :: h2)) = Some t0.
Proof.
  intros Hc Hs. induction h2 as [|[s now] h2 IH] using rev_ind; intros Hall.
  - rewrite policy_after_snoc, decide_policy in *. rewrite Hc in *.
    case_bool_decide; [unfold note_catch_up_exit; by rewrite Hc|]. unfold maybe_exit_catch_up in *.
    destruct (should_exit_catch_up s0); simpl in *; [|congruence].
    destruct (below_exit_threshold_since _); simpl in *; [|congruence].
    case_bool_decide; simpl in *; congruence.
  - assert (mode (policy_after (h1 ++ (s0, t0) :: h2)) = Smooth) as Hm by (apply Hall; by eexists).
    pose proof (Hall _ (reflexivity _)) as Hlast. rewrite app_comm_cons, app_assoc in Hlast |- *.
    rewrite policy_after_snoc, decide_policy, Hm in Hlast |- *.
    assert (last_catch_up_exit_at (policy_after (h1 ++ (s0, t0) :: h2)) = Some t0) as IH'.
    { apply IH. intros h2' Hp. apply Hall. by apply prefix_app_r. }
    destruct (bool_decide (snapshot_queued_lines s = 0)); [by unfold note_catch_up_exit; rewrite Hm|].
    unfold maybe_enter_catch_up in Hlast |- *. destruct (negb (should_enter_catch_up s)); [done|].
    by destruct (reentry_hold_active _ _ && _).
Qed.

(** The pace has hysteresis: catching up ends with lines in the queue only
    when at every snapshot of at least the last 250 ms the queue was short and
    young; and once it has ended, it starts again within 250 ms only for a severe
    backlog. *)
Theorem pace_has_hysteresis h s now :
  snapshot_queued_lines s ≠ 0 →
  (mode (policy_after h) = CatchUp → decision_mode (decide_drain (policy_after h) s now).2 = Smooth →
     should_exit_catch_up s = true ∧ ∃ t0, low_since h t0 ∧ (EXIT_HOLD ≤ now - t0)%N)
  ∧ ∀ h1 s0 t0 h2, h = h1 ++ (s0, t0) :: h2 →
      mode (policy_after h1) = CatchUp →
      (∀ h2', h2' `prefix_of` h2 → mode (policy_after (h1 ++ (s0, t0) :: h2')) = Smooth) →
      entered_catch_up (decide_drain (policy_after h) s now).2 = true →
      (now - t0 < REENTER_CATCH_UP_HOLD)%N → is_severe_backlog s = true.
Proof.
  intros Hq. unfold decide_drain. rewrite (bool_decide_eq_false_2 _ Hq). split.
  - intros Hc. rewrite Hc. simpl. unfold maybe_exit_catch_up.
    destruct (should_exit_catch_up s) eqn:Hs; simpl; [|congruence].
    destruct (below_exit_threshold_since (policy_after h)) as [t0|] eqn:Hb; [|simpl; congruence].
    case_bool_decide; [|congruence]. intros _. split; [done|]. exists t0. split; [|done].
    by apply exit_mark_low.
  - intros h1 s0 t0 h2 -> Hc Hall Hent Hhold.
    assert (mode (policy_after (h1 ++ (s0, t0) :: h2)) = Smooth) as Hm by (by apply Hall).
    rewrite Hm in Hent. unfold maybe_enter_catch_up in Hent.
    destruct (negb (should_enter_catch_up s)); [done|]. unfold reentry_hold_active in Hent.
    rewrite (exit_remembered h1 s0 t0 h2 Hc) in Hent; [|apply (Hall []), prefix_nil|done].
    simpl in Hent. rewrite bool_decide_eq_true_2 in Hent by done. simpl in Hent.
    by destruct (is_severe_backlog s).
Qed.
End pace.

(** ** Ticks *)

Section ticks.
Context {Line Env : Type} `{Renderer Line Env}.
Implicit Types (c : MessageController Line Env) (p : PlanController Line Env).

Definition message_queue c : list Line := line <$> queued_lines (state (core c)).
Definition plan_queue p : list Line := line <$> queued_lines (state (plan_core p)).

(** The lines of agent messages among the cells of a tick. *)
Definition message_lines (cs : list (Cell Line)) : list Line :=
  cs ≫= λ cell, match cell with AgentMessageCell ls _ => ls | _ => [] end.

Definition drained_count (plan : DrainPlan) : nat := match plan with Single => 1 | Batch n => n end.

Lemma tick_take (k : @StreamCore Line Env) :
  line <$> queued_lines (state (tick k).1) = drop 1 (line <$> queued_lines (state k))
  ∧ (tick k).2 = take 1 (line <$> queued_lines (state k)).
Proof. unfold tick, step. by destruct (queued_lines (state k)) as [|q queue] eqn:E; cbn; rewrite ?E. Qed.

Lemma tick_batch_take n (k : @StreamCore Line Env) :
  line <$> queued_lines (state (tick_batch n k).1) = drop n (line <$> queued_lines (state k))
  ∧ (tick_batch n k).2 = take n (line <$> queued_lines (state k)).
Proof.
  unfold tick_batch. case_bool_decide as Hn; [by subst n|]. unfold drain_n.
  assert (∀ (l : list (@QueuedLine Line)), line <$> drop (min n (length l)) l = drop n (line <$> l)
            ∧ line <$> take (min n (length l)) l = take n (line <$> l)) as Hl.
  { intros l. rewrite fmap_drop, fmap_take. destruct (decide (n ≤ length l)).
    - by rewrite Nat.min_l.
    - rewrite Nat.min_r by lia. rewrite !drop_ge, !take_ge by (rewrite length_fmap; lia). done. }
  destruct (is_nil _); cbn; apply Hl.
Qed.

Lemma drain_message plan c :
  let '(c', (cell, idle)) := drain_stream_controller plan c in
  message_queue c' = drop (drained_count plan) (message_queue c)
  ∧ message_lines (option_list cell) = take (drained_count plan) (message_queue c)
  ∧ idle = is_nil (message_queue c').
Proof.
  assert (∀ (k : @StreamCore Line Env) out b, let '(c', cell) := emit (mkMessage k b) out in
              core c' = k ∧ message_lines (option_list cell) = out) as Hemit.
  { intros k out b. unfold emit. destruct (is_nil out) eqn:E; simpl.
    - apply is_nil_true in E. by subst.
    - unfold message_lines. simpl. by rewrite app_nil_r. }
  assert (∀ (k : @StreamCore Line Env), is_idle (state k) = is_nil (line <$> queued_lines (state k))) as Hidle.
  { intros k. unfold is_idle. by destruct (queued_lines (state k)). }
  destruct plan as [|n]; simpl; [unfold on_commit_tick; pose proof (tick_take (core c)) as [Hq Ho]
                                |unfold on_commit_tick_batch; pose proof (tick_batch_take n (core c)) as [Hq Ho]].
  1: destruct (tick (core c)) as [k out]. 2: destruct (tick_batch n (core c)) as [k out].
  all: simpl in *; specialize (Hemit k out (header_emitted c));
    destruct (emit _ _) as [c' cell]; destruct Hemit as [Hk Hm]; unfold message_queue;
    rewrite Hidle, Hk, Hm; by subst.
Qed.

Lemma drain_plan_queue plan p :
  let '(p', (cell, idle)) := drain_plan_stream_controller plan p in
  plan_queue p' = drop (drained_count plan) (plan_queue p)
  ∧ message_lines (option_list cell) = []
  ∧ idle = is_nil (plan_queue p').
Proof.
  assert (∀ (k : @StreamCore Line Env) out, let '(p', cell) := emit_plan (set_plan_core k p) out false in
              plan_core p' = k ∧ message_lines (option_list cell) = []) as Hemit.
  { intros k out. unfold emit_plan. by destruct (_ && _). }
  assert (∀ (k : @StreamCore Line Env), is_idle (state k) = is_nil (line <$> queued_lines (state k))) as Hidle.
  { intros k. unfold is_idle. by destruct (queued_lines (state k)). }
  destruct plan as [|n]; simpl; [unfold on_plan_commit_tick; pose proof (tick_take (plan_core p)) as [Hq Ho]
                                |unfold on_plan_commit_tick_batch; pose proof (tick_batch_take n (plan_core p)) as [Hq Ho]].
  1: destruct (tick (plan_core p)) as [k out]. 2: destruct (tick_batch n (plan_core p)) as [k out].
  all: simpl in *; specialize (Hemit k out); destruct (emit_plan _ _ _) as [p' cell];
    destruct Hemit as [Hk Hm]; unfold plan_queue; rewrite Hidle, Hk, Hm; by subst.
Qed.

Definition message_queue_of (oc : option (MessageController Line Env)) : list Line := from_option message_queue [] oc.
Definition plan_queue_of (op : option (PlanController Line Env)) : list Line := from_option plan_queue [] op.

Lemma snapshot_counts oc op now :
  snapshot_queued_lines (stream_queue_snapshot oc op now)
  = length (message_queue_of oc) + length (plan_queue_of op).
Proof.
  unfold stream_queue_snapshot, observe. destruct oc as [c|], op as [p|]; simpl;
    unfold message_queue, plan_queue, queued_len; rewrite ?length_fmap; lia.
Qed.

(** A severe backlog is drawn whole, whatever the pace was. *)
Lemma severe_drains s now policy :
  is_severe_backlog s = true → snapshot_queued_lines s ≤ drained_count (drain_plan (decide_drain policy s now).2).
Proof.
  intros Hs. unfold decide_drain. case_bool_decide; [simpl; lia|].
  assert (should_enter_catch_up s = true ∧ should_exit_catch_up s = false) as [Hin Hout].
  { revert Hs. unfold is_severe_backlog, should_enter_catch_up, should_exit_catch_up,
      SEVERE_QUEUE_DEPTH_LINES, ENTER_QUEUE_DEPTH_LINES, EXIT_QUEUE_DEPTH_LINES.
    destruct (oldest_age s) as [age|]; simpl; unfold SEVERE_OLDEST_AGE, ENTER_OLDEST_AGE, EXIT_OLDEST_AGE, from_millis;
      repeat case_bool_decide; simpl; intros; try done; lia. }
  destruct (mode policy) eqn:Hm.
  - unfold maybe_enter_catch_up. rewrite Hin, Hs, andb_false_r. simpl. lia.
  - unfold maybe_exit_catch_up. rewrite Hout. simpl. rewrite Hm. simpl. lia.
Qed.

Lemma decided_count s now policy : 1 ≤ drained_count (drain_plan (decide_drain policy s now).2).
Proof.
  unfold decide_drain. case_bool_decide; [done|].
  destruct (match mode policy with Smooth => _ | CatchUp => _ end) as [p' b]. destruct (mode p'); simpl; lia.
Qed.

Lemma commit_tick_spec policy oc op now :
  let n := drained_count (drain_plan (decide_drain policy (stream_queue_snapshot oc op now) now).2) in
  let '(_, oc', op', out) := run_commit_tick policy oc op AnyMode now in
  message_queue_of oc' = drop n (message_queue_of oc) ∧ plan_queue_of op' = drop n (plan_queue_of op)
  ∧ message_lines (cells out) = take n (message_queue_of oc)
  ∧ all_idle out = is_nil (message_queue_of oc') && is_nil (plan_queue_of op').
Proof.
  intros n. unfold run_commit_tick. destruct (decide_drain _ _ _) as [policy' decision]. simpl in *.
  unfold apply_commit_tick_plan, drained.
  destruct oc as [c|]; simpl; [pose proof (drain_message (drain_plan decision) c) as Hc;
    destruct (drain_stream_controller _ c) as (c' & cell & idle); destruct Hc as (Hq & Ho & ->)|];
  (destruct op as [p|]; simpl; [pose proof (drain_plan_queue (drain_plan decision) p) as Hp;
    destruct (drain_plan_stream_controller _ p) as (p' & pcell & pidle); destruct Hp as (Hpq & Hpo & ->)|]);
  unfold message_lines, message_queue_of, plan_queue_of, n in *; cbn [cells all_idle from_option];
  rewrite ?bind_app, ?Ho, ?Hpo, ?Hq, ?Hpq, ?app_nil_r, ?drop_nil, ?take_nil; by rewrite ?andb_true_r.
Qed.

(** Ticks at some instants, with no push in between. *)
Fixpoint commit_ticks (policy : AdaptiveChunkingPolicy) (oc : option (MessageController Line Env))
    (op : option (PlanController Line Env)) (instants : list N) :
    option (MessageController Line Env) * option (PlanController Line Env) * list (Cell Line) :=
  match instants with
  | [] => (oc, op, [])
  | now :: instants =>
      let '(policy, oc, op, out) := run_commit_tick policy oc op AnyMode now in
      let '(oc, op, cs) := commit_ticks policy oc op instants in
      (oc, op, cells out ++ cs)
  end.

Lemma commit_ticks_drain policy oc op instants :
  length (message_queue_of oc) ≤ length instants → length (plan_queue_of op) ≤ length instants →
  let '(oc', op', cs) := commit_ticks policy oc op instants in
  message_queue_of oc' = [] ∧ plan_queue_of op' = [] ∧ message_lines cs = message_queue_of oc.
Proof.
  revert policy oc op. induction instants as [|now instants IH]; intros policy oc op Hc Hp; simpl in *.
  { destruct (message_queue_of oc), (plan_queue_of op); simpl in *; try lia; done. }
  pose proof (decided_count (stream_queue_snapshot oc op now) now policy) as Hn.
  pose proof (commit_tick_spec policy oc op now) as Ht. cbv zeta in Ht.
  destruct (run_commit_tick policy oc op AnyMode now) as [[[policy' oc'] op'] out].
  destruct Ht as (Hcq & Hpq & Hout & _). specialize (IH policy' oc' op').
  rewrite Hcq, Hpq, !length_drop in IH. specialize (IH ltac:(lia) ltac:(lia)).
  destruct (commit_ticks policy' oc' op' instants) as [[oc'' op''] cs]. destruct IH as (? & ? & Hcs).
  split_and!; [done..|]. unfold message_lines in *. rewrite bind_app, Hout, Hcs. apply take_drop.
Qed.

(** C36: once nothing more is pushed, as many ticks as there are lines in the
    longer queue empty both queues, at whatever instants they come and whatever
    the pace was, and they show the lines of the message in their order; and a
    single tick does so when the backlog is severe. *)
Theorem ticks_drain_the_queues policy oc op :
  (∀ instants,
     length (message_queue_of oc) ≤ length instants → length (plan_queue_of op) ≤ length instants →
     let '(oc', op', cs) := commit_ticks policy oc op instants in
     message_queue_of oc' = [] ∧ plan_queue_of op' = [] ∧ message_lines cs = message_queue_of oc)
  ∧ ∀ now, is_severe_backlog (stream_queue_snapshot oc op now) = true →
      let '(_, oc', op', out) := run_commit_tick policy oc op AnyMode now in
      message_queue_of oc' = [] ∧ plan_queue_of op' = []
      ∧ message_lines (cells out) = message_queue_of oc ∧ all_idle out = true.
Proof.
  split; [apply commit_ticks_drain|]. intros now Hs.
  pose proof (severe_drains _ now policy Hs) as Hn. rewrite snapshot_counts in Hn.
  pose proof (commit_tick_spec policy oc op now) as Ht. cbv zeta in Ht.
  destruct (run_commit_tick policy oc op AnyMode now) as [[[policy' oc'] op'] out].
  destruct Ht as (Hcq & Hpq & Hout & Hidle).
  rewrite drop_ge in Hcq, Hpq by lia. rewrite take_ge in Hout by lia. by rewrite Hidle, Hcq, Hpq.
Qed.
End ticks.

(** ** Examples *)

(** A renderer that breaks each line at the width, and sees no blocks. *)
Module Wrapping.
Fixpoint wrap (fuel : nat) (w : nat) (l : str) : list str :=
  match fuel with
  | S fuel => if bool_decide (length l ≤ w) then [l] else take w l :: wrap fuel w (drop w l)
  | 0 => [l]
  end.
Definition render_lines (source : str) (width : option N) : list str :=
  raw_lines_from_source source ≫= λ l,
    match width with Some w => wrap (length l) (N.to_nat w) l | None => [l] end.

#[export] Instance renderer : Renderer str unit := {
  plain_line l := l;
  blank_line := [];
  space_line := lit " ";
  plan_header_line := lit "Proposed Plan";
  style_plan_lines ls := (app (lit "  ")) <$> ls;
  has_visualization_context _ := false;
  render_markdown _ source width := render_lines source width;
  render_streaming_markdown _ source width := mkStreaming _ (render_lines source width) false None false
}.

Definition text (s : string) : str := lit s ++ [nl].
Definition table : list Event :=
  [Push 0 (text "intro"); Tick; Push 1 (text "| a | b |"); Push 2 (text "| --- | --- |"); TickBatch 5].
End Wrapping.
#[local] Existing Instance Wrapping.renderer.

(** The table is held back: only the line before it is emitted. *)
Example table_is_held_back :
  match run Wrapping.table (new_core (Some 80%N) tt Rich) [] with
  | Some (c, em) => em = [lit "intro"] ∧ current_tail_lines c = [lit "| a | b |"; lit "| --- | --- |"]
  | None => False
  end.
Proof. vm_compute. done. Qed.

Lemma emitted_lines_are_the_render_witness :
  ∃ c em, run Wrapping.table (new_core (Some 80%N) tt Rich) [] = Some (c, em)
    ∧ em ++ (line <$> queued_lines (state c)) ++ current_tail_lines c = lines (render c).
Proof.
  destruct (emitted_lines_are_the_render Wrapping.table (Some 80%N) tt Rich) as (c & em & Hr & Hl & _).
  - vm_compute. repeat split; reflexivity || lia.
  - exists c, em. by split.
Defined.

Lemma raw_stream_emits_its_source_witness :
  ∃ c em, run [Push 0 (lit "one"); Push 1 ([nl] ++ lit "two"); Tick] (new_core None tt Raw) [] = Some (c, em)
    ∧ let '(_, remaining, _) := finalize_remaining c in em ++ remaining = [lit "one"; lit "two"].
Proof.
  destruct (raw_stream_emits_its_source [Push 0 (lit "one"); Push 1 ([nl] ++ lit "two"); Tick] None tt)
    as (c & em & Hr & Hf); [by repeat constructor|].
  exists c, em. split; [done|]. destruct (finalize_remaining c) as [[c' remaining] source].
  destruct Hf as [-> ->]. vm_compute. reflexivity.
Defined.

Lemma pace_has_hysteresis_witness :
  is_severe_backlog (mkSnapshot 64 None) = true.
Proof.
  destruct (pace_has_hysteresis
              [(mkSnapshot 8 (Some 0%N), 0%N); (mkSnapshot 0 None, from_millis 10)]
              (mkSnapshot 64 None) (from_millis 20)) as [_ Hre]; [done|].
  apply (Hre [(mkSnapshot 8 (Some 0%N), 0%N)] (mkSnapshot 0 None) (from_millis 10) []).
  - reflexivity.
  - vm_compute. reflexivity.
  - intros h2' ->%prefix_nil_inv. vm_compute. reflexivity.
  - vm_compute. reflexivity.
  - vm_compute. reflexivity.
Defined.

(** A stream that was drawn whole and then narrowed counts the lines of the old
    width: what is finished after that repeats a part of what was emitted. *)
Example narrowed_stream_repeats_lines :
  match run [Push 0 (Wrapping.text "one two three"); TickBatch 9; SetWidth 1 (Some 4%N)]
          (new_core (Some 80%N) tt Rich) [] with
  | Some (c, em) =>
      em = [lit "one two three"]
      ∧ let '(_, remaining, _) := finalize_remaining c in remaining = [lit "two "; lit "thre"; lit "e"]
  | None => False
  end.
Proof. vm_compute. done. Qed.
