(* ===== verification/PasteBurst.v ===== *)
(** Detection of pastes that arrive as single keys
    ([tui/src/bottom_pane/paste_burst.rs]): the state machine that decides from the
    time between keys whether they are typed or pasted, and the contract its
    caller keeps. Instants and durations are in nanoseconds; positions in the
    text are counted in characters. *)

From S2P Require Import Prelude Text StreamPacing.

(** * The state machine *)

Definition PASTE_BURST_MIN_CHARS : N := 3.
Definition PASTE_ENTER_SUPPRESS_WINDOW : N := from_millis 120.
Definition PASTE_BURST_CHAR_INTERVAL : N := from_millis 8.
(** Outside Windows. *)
Definition PASTE_BURST_ACTIVE_IDLE_TIMEOUT : N := from_millis 8.

(** [PasteBurst]; the count is a 16-bit number. *)
Record PasteBurst := mkBurst {
  last_plain_char_time : option N;
  consecutive_plain_char_burst : N;
  burst_window_until : option N;
  burst_buffer : str;
  active : bool;
  pending_first_char : option (N * N)
}.
Definition new_burst : PasteBurst := mkBurst None 0 None [] false None.

Definition set_last (t : option N) (b : PasteBurst) : PasteBurst :=
  mkBurst t (consecutive_plain_char_burst b) (burst_window_until b) (burst_buffer b) (active b) (pending_first_char b).
Definition set_count (n : N) (b : PasteBurst) : PasteBurst :=
  mkBurst (last_plain_char_time b) n (burst_window_until b) (burst_buffer b) (active b) (pending_first_char b).
Definition set_window (t : option N) (b : PasteBurst) : PasteBurst :=
  mkBurst (last_plain_char_time b) (consecutive_plain_char_burst b) t (burst_buffer b) (active b) (pending_first_char b).
Definition set_buffer (s : str) (b : PasteBurst) : PasteBurst :=
  mkBurst (last_plain_char_time b) (consecutive_plain_char_burst b) (burst_window_until b) s (active b) (pending_first_char b).
Definition set_active (a : bool) (b : PasteBurst) : PasteBurst :=
  mkBurst (last_plain_char_time b) (consecutive_plain_char_burst b) (burst_window_until b) (burst_buffer b) a (pending_first_char b).
Definition set_pending (p : option (N * N)) (b : PasteBurst) : PasteBurst :=
  mkBurst (last_plain_char_time b) (consecutive_plain_char_burst b) (burst_window_until b) (burst_buffer b) (active b) p.

(** [CharDecision], [RetroGrab], [FlushResult] *)
Inductive CharDecision :=
| BeginBuffer (retro_chars : N)
| BufferAppend
| RetainFirstChar
| BeginBufferFromPending.

Record RetroGrab := mkGrab { start_index : nat; grabbed : str }.

Inductive FlushResult := Paste (pasted : str) | Typed (ch : N) | NoFlush.

(** [recommended_flush_delay] *)
Definition recommended_flush_delay : N := (PASTE_BURST_CHAR_INTERVAL + from_millis 1)%N.

(** [is_active_internal] and [is_active] *)
Definition is_active_internal (b : PasteBurst) : bool := active b || negb (is_nil (burst_buffer b)).
Definition is_active (b : PasteBurst) : bool :=
  is_active_internal b || bool_decide (is_Some (pending_first_char b)).

Definition u16_max : N := 65535.

(** [note_plain_char] *)
Definition note_plain_char (now : N) (b : PasteBurst) : PasteBurst :=
  let burst :=
    match last_plain_char_time b with
    | Some prev =>
        if bool_decide (now - prev ≤ PASTE_BURST_CHAR_INTERVAL)%N
        then N.min (consecutive_plain_char_burst b + 1) u16_max else 1%N
    | None => 1%N
    end in
  set_last (Some now) (set_count burst b).

Definition suppress_enter (now : N) (b : PasteBurst) : PasteBurst :=
  set_window (Some (now + PASTE_ENTER_SUPPRESS_WINDOW)%N) b.

(** [on_plain_char] *)
Definition on_plain_char (ch now : N) (b : PasteBurst) : PasteBurst * CharDecision :=
  let b := note_plain_char now b in
  if active b then (suppress_enter now b, BufferAppend)
  else
    match
      match pending_first_char b with
      | Some (held, held_at) =>
          if bool_decide (now - held_at ≤ PASTE_BURST_CHAR_INTERVAL)%N then Some held else None
      | None => None
      end
    with
    | Some held =>
        (suppress_enter now (set_buffer (burst_buffer b ++ [held]) (set_pending None (set_active true b))),
         BeginBufferFromPending)
    | None =>
        if bool_decide (PASTE_BURST_MIN_CHARS ≤ consecutive_plain_char_burst b)%N
        then (b, BeginBuffer (consecutive_plain_char_burst b - 1))
        else (set_pending (Some (ch, now)) b, RetainFirstChar)
    end.

(** [on_plain_char_no_hold] *)
Definition on_plain_char_no_hold (now : N) (b : PasteBurst) : PasteBurst * option CharDecision :=
  let b := note_plain_char now b in
  if active b then (suppress_enter now b, Some BufferAppend)
  else if bool_decide (PASTE_BURST_MIN_CHARS ≤ consecutive_plain_char_burst b)%N
  then (b, Some (BeginBuffer (consecutive_plain_char_burst b - 1)))
  else (b, None).

(** [flush_if_due] *)
Definition flush_if_due (now : N) (b : PasteBurst) : PasteBurst * FlushResult :=
  let timeout :=
    if is_active_internal b then PASTE_BURST_ACTIVE_IDLE_TIMEOUT else PASTE_BURST_CHAR_INTERVAL in
  let timed_out :=
    is_some_and (λ t, bool_decide (timeout < now - t)%N) (last_plain_char_time b) in
  if timed_out && is_active_internal b then (set_buffer [] (set_active false b), Paste (burst_buffer b))
  else if timed_out then
    match pending_first_char b with
    | Some (ch, _) => (set_pending None b, Typed ch)
    | None => (b, NoFlush)
    end
  else (b, NoFlush).

(** [append_newline_if_active] *)
Definition append_newline_if_active (now : N) (b : PasteBurst) : PasteBurst * bool :=
  if is_active b then (suppress_enter now (set_buffer (burst_buffer b ++ [nl]) b), true) else (b, false).

(** [newline_should_insert_instead_of_submit] and [direct_insert_newline_should_insert] *)
Definition newline_should_insert_instead_of_submit (now : N) (b : PasteBurst) : bool :=
  let in_burst_window := is_some_and (λ until, bool_decide (now ≤ until)%N) (burst_window_until b) in
  is_active b || in_burst_window.
Definition direct_insert_newline_should_insert (now : N) (b : PasteBurst) : bool :=
  newline_should_insert_instead_of_submit now b
  || is_some_and (λ t, bool_decide (now - t ≤ PASTE_BURST_CHAR_INTERVAL)%N) (last_plain_char_time b).

(** [extend_window] *)
Definition extend_window (now : N) (b : PasteBurst) : PasteBurst := suppress_enter now b.

(** [begin_with_retro_grabbed] and [append_char_to_buffer] *)
Definition begin_with_retro_grabbed (grabbed : str) (now : N) (b : PasteBurst) : PasteBurst :=
  let b := if negb (is_nil grabbed) then set_buffer (burst_buffer b ++ grabbed) b else b in
  suppress_enter now (set_active true b).
Definition append_char_to_buffer (ch now : N) (b : PasteBurst) : PasteBurst :=
  suppress_enter now (set_buffer (burst_buffer b ++ [ch]) b).

(** [try_append_char_if_active] *)
Definition try_append_char_if_active (ch now : N) (b : PasteBurst) : PasteBurst * bool :=
  if is_active_internal b then (append_char_to_buffer ch now b, true) else (b, false).

(** [retro_start_index] *)
Definition retro_start_index (before : str) (retro_chars : nat) : nat :=
  if bool_decide (retro_chars = 0) then length before
  else if bool_decide (retro_chars - 1 < length before) then length before - retro_chars
  else 0.

(** [decide_begin_buffer] *)
Definition decide_begin_buffer (now : N) (before : str) (retro_chars : nat) (b : PasteBurst) :
    PasteBurst * option RetroGrab :=
  let start := retro_start_index before retro_chars in
  let grabbed := drop start before in
  let looks_pastey := existsb is_whitespace grabbed || bool_decide (16 ≤ length grabbed) in
  if looks_pastey then (begin_with_retro_grabbed grabbed now b, Some (mkGrab start grabbed)) else (b, None).

(** [flush_before_modified_input] *)
Definition flush_before_modified_input (b : PasteBurst) : PasteBurst * option str :=
  if negb (is_active b) then (b, None)
  else
    let out := burst_buffer b in
    let b := set_buffer [] (set_active false b) in
    match pending_first_char b with
    | Some (ch, _) => (set_pending None b, Some (out ++ [ch]))
    | None => (b, Some out)
    end.

(** [clear_window_after_non_char] and [clear_after_explicit_paste] *)
Definition clear_window_after_non_char (b : PasteBurst) : PasteBurst :=
  mkBurst None 0 None (burst_buffer b) false None.
Definition clear_after_explicit_paste (b : PasteBurst) : PasteBurst := mkBurst None 0 None [] false None.

(** * The contract with the caller *)

(** The caller holds the text before its cursor; a paste is put there and ends
    the burst. *)
Record Client := mkClient { client_text : str; client_burst : PasteBurst }.

Definition put (s : str) (c : Client) : Client := mkClient (client_text c ++ s) (client_burst c).
Definition put_paste (pasted : str) (c : Client) : Client :=
  mkClient (client_text c ++ pasted) (clear_after_explicit_paste (client_burst c)).
Definition with_burst (b : PasteBurst) (c : Client) : Client := mkClient (client_text c) b.

(** Due text is flushed before every input and at every tick. *)
Definition client_flush (now : N) (c : Client) : Client :=
  match flush_if_due now (client_burst c) with
  | (b, Paste pasted) => put_paste pasted (with_burst b c)
  | (b, Typed ch) => put [ch] (with_burst b c)
  | (b, NoFlush) => with_burst b c
  end.
Definition client_flush_now (c : Client) : Client :=
  match flush_before_modified_input (client_burst c) with
  | (b, Some pasted) => put_paste pasted (with_burst b c)
  | (b, None) => with_burst b c
  end.

(** A character that may begin a buffer takes what was inserted before it; else
    it is inserted. *)
Definition client_begin (ch now : N) (retro_chars : N) (c : Client) : Client :=
  match decide_begin_buffer now (client_text c) (N.to_nat retro_chars) (client_burst c) with
  | (b, Some grab) => mkClient (take (start_index grab) (client_text c)) (append_char_to_buffer ch now b)
  | (b, None) => put [ch] (client_flush_now (with_burst b c))
  end.

Inductive Key :=
| Ascii (ch : N)
| NonAscii (ch : N)
| Enter
| Tick
| OtherKey.

(** What the caller does with a key, once what is due has been flushed. An Enter
    that is neither buffered nor inserted submits the text, which takes it away. *)
Definition key_on_flushed (key : Key) (now : N) (c : Client) : Client :=
  match key with
  | Tick => c
  | Ascii ch =>
      match on_plain_char ch now (client_burst c) with
      | (b, BufferAppend) | (b, BeginBufferFromPending) => with_burst (append_char_to_buffer ch now b) c
      | (b, BeginBuffer retro_chars) => client_begin ch now retro_chars (with_burst b c)
      | (b, RetainFirstChar) => with_burst b c
      end
  | NonAscii ch =>
      match try_append_char_if_active ch now (client_burst c) with
      | (b, true) => with_burst b c
      | (b, false) =>
          let c := client_flush_now (with_burst b c) in
          match on_plain_char_no_hold now (client_burst c) with
          | (b, Some BufferAppend) => with_burst (append_char_to_buffer ch now b) c
          | (b, Some (BeginBuffer retro_chars)) => client_begin ch now retro_chars (with_burst b c)
          | (b, _) => put [ch] (client_flush_now (with_burst b c))
          end
      end
  | Enter =>
      match append_newline_if_active now (client_burst c) with
      | (b, true) => with_burst b c
      | (b, false) =>
          if newline_should_insert_instead_of_submit now b
          then put [nl] (with_burst (extend_window now b) c)
          else mkClient [] b
      end
  | OtherKey => let c := client_flush_now c in with_burst (clear_window_after_non_char (client_burst c)) c
  end.

Definition client_key (key : Key) (now : N) (c : Client) : Client := key_on_flushed key now (client_flush now c).

Fixpoint client_run (keys : list (Key * N)) (c : Client) : Client :=
  match keys with [] => c | (key, now) :: keys => client_run keys (client_key key now c) end.

(** * No key is lost *)

(** What the caller shows and what the burst still holds. *)
Definition pending_text (b : PasteBurst) : str :=
  match pending_first_char b with Some (ch, _) => [ch] | None => [] end.
Definition held_text (c : Client) : str :=
  client_text c ++ burst_buffer (client_burst c) ++ pending_text (client_burst c).

(** More than 8 ms have passed since the last character. *)
Definition flush_due (now : N) (c : Client) : Prop :=
  is_some_and (λ t, bool_decide (PASTE_BURST_CHAR_INTERVAL < now - t)%N) (last_plain_char_time (client_burst c)) = true.

(** A character is held only when nothing is buffered, since the last key. *)
Record burst_ok (b : PasteBurst) : Prop := mkBurstOk {
  buffer_active : active b = false → burst_buffer b = [];
  pending_alone : ∀ ch at_, pending_first_char b = Some (ch, at_) →
    active b = false ∧ last_plain_char_time b = Some at_
}.

Lemma new_burst_ok : burst_ok new_burst.
Proof. by constructor. Qed.

Lemma cleared_ok b : burst_ok (clear_after_explicit_paste b).
Proof. by constructor. Qed.

Lemma client_flush_keeps now c :
  burst_ok (client_burst c) →
  burst_ok (client_burst (client_flush now c)) ∧ held_text (client_flush now c) = held_text c
  ∧ ∀ ch at_, pending_first_char (client_burst (client_flush now c)) = Some (ch, at_) →
      (now - at_ ≤ PASTE_BURST_CHAR_INTERVAL)%N.
Proof.
  destruct c as [t [last count window buf act pend]]. intros [Hb Hp]. simpl in *.
  unfold client_flush, flush_if_due, is_active_internal. simpl.
  destruct act; simpl.
  - assert (pend = None) as -> by (destruct pend as [[ch at_]|]; [by destruct (Hp _ _ eq_refl)|done]).
    destruct (is_some_and _ last); simpl; (split_and!; [by constructor| |done]); unfold held_text; simpl;
      by rewrite ?app_nil_r.
  - rewrite Hb by done. simpl. destruct pend as [[ch at_]|]; simpl.
    + destruct (Hp _ _ eq_refl) as [_ ->]. simpl. case_bool_decide as Ht; simpl.
      * split_and!; [by constructor| |done]. unfold held_text. simpl. by rewrite app_nil_r.
      * split_and!; [by constructor|done|]. intros ? ? [= <- <-]. lia.
    + destruct (is_some_and _ last); simpl; (split_and!; [by constructor|done|done]).
Qed.

Lemma client_flush_due now c :
  burst_ok (client_burst c) → flush_due now c → client_text (client_flush now c) = held_text c.
Proof.
  unfold flush_due, client_flush, flush_if_due, held_text, is_active_internal.
  destruct c as [t [last count window buf act pend]]. intros [Hb Hp] Hdue. simpl in *. destruct act; simpl.
  - change PASTE_BURST_ACTIVE_IDLE_TIMEOUT with PASTE_BURST_CHAR_INTERVAL. rewrite Hdue. simpl.
    destruct pend as [[ch at_]|]; [by destruct (Hp _ _ eq_refl)|]. by rewrite app_nil_r.
  - rewrite Hb by done. simpl. rewrite Hdue. simpl. destruct pend as [[ch at_]|]; simpl; by rewrite ?app_nil_r.
Qed.

Lemma client_flush_now_keeps c :
  burst_ok (client_burst c) →
  burst_ok (client_burst (client_flush_now c)) ∧ held_text (client_flush_now c) = held_text c
  ∧ active (client_burst (client_flush_now c)) = false ∧ pending_first_char (client_burst (client_flush_now c)) = None.
Proof.
  destruct c as [t [last count window buf act pend]]. intros [Hb Hp]. simpl in *.
  unfold client_flush_now, flush_before_modified_input, is_active, is_active_internal. simpl.
  destruct act, pend as [[ch at_]|]; simpl in *; try (by destruct (Hp _ _ eq_refl)).
  - split_and!; try done. unfold held_text. simpl. by rewrite !app_nil_r.
  - rewrite Hb by done. simpl. split_and!; try done. unfold held_text. simpl. by rewrite !app_nil_r.
  - by rewrite Hb.
Qed.

Lemma note_keeps now b : burst_buffer (note_plain_char now b) = burst_buffer b
  ∧ active (note_plain_char now b) = active b ∧ pending_first_char (note_plain_char now b) = pending_first_char b.
Proof. done. Qed.

Lemma client_begin_keeps ch now n c :
  active (client_burst c) = false → burst_buffer (client_burst c) = [] → pending_first_char (client_burst c) = None →
  burst_ok (client_burst (client_begin ch now n c)) ∧ held_text (client_begin ch now n c) = held_text c ++ [ch].
Proof.
  destruct c as [t [last count window buf act pend]]. simpl. intros -> -> ->.
  unfold client_begin, decide_begin_buffer. simpl.
  destruct (_ || _); simpl.
  - unfold begin_with_retro_grabbed. split; [by destruct (negb _)|]. unfold held_text. simpl.
    set (start := retro_start_index _ _). rewrite !app_nil_r.
    destruct (drop start t) as [|d s] eqn:E; simpl; rewrite <- (take_drop start t) at 2; rewrite E.
    + by rewrite app_nil_r.
    + by rewrite <- !app_assoc.
  - split; [done|]. unfold held_text. simpl. by rewrite !app_nil_r.
Qed.

(** What a key types. *)
Definition typed (key : Key) : str :=
  match key with Ascii ch | NonAscii ch => [ch] | Enter => [nl] | Tick | OtherKey => [] end.

(** An Enter that joins the text: no single character is held, and it is not the
    one that submits. *)
Definition key_joins (key : Key) (now : N) (c : Client) : Prop :=
  match key with
  | Enter =>
      let b := client_burst (client_flush now c) in
      pending_first_char b = None ∧ newline_should_insert_instead_of_submit now b = true
  | _ => True
  end.

(** The three kinds of key that add text, after what is due has been flushed. *)
Definition recent (now : N) (b : PasteBurst) : Prop :=
  ∀ ch at_, pending_first_char b = Some (ch, at_) → (now - at_ ≤ PASTE_BURST_CHAR_INTERVAL)%N.

Lemma ascii_keeps ch now c :
  burst_ok (client_burst c) → recent now (client_burst c) →
  burst_ok (client_burst (key_on_flushed (Ascii ch) now c))
  ∧ held_text (key_on_flushed (Ascii ch) now c) = held_text c ++ [ch].
Proof.
  destruct c as [t [last count window buf act pend]]. intros [Hb Hp] Hrecent. unfold recent in Hrecent. simpl in *.
  unfold on_plain_char. simpl. destruct act; simpl.
  - destruct pend as [[held at_]|]; [by destruct (Hp _ _ eq_refl)|]. split; [done|].
    unfold held_text. simpl. by rewrite !app_nil_r, <- app_assoc.
  - rewrite Hb in * by done. destruct pend as [[held at_]|]; simpl.
    + rewrite bool_decide_eq_true_2 by (by eapply Hrecent). simpl. split; [done|]. unfold held_text. simpl.
      by rewrite <- app_assoc.
    + case_bool_decide.
      * match goal with |- context [client_begin ch now ?n ?c'] =>
          destruct (client_begin_keeps ch now n c') as [? ->] end; done.
      * split; [constructor; simpl; [done|]|].
        -- intros ? ? [= <- <-]. done.
        -- unfold held_text. simpl. by rewrite app_nil_r.
Qed.

Lemma non_ascii_keeps ch now c :
  burst_ok (client_burst c) →
  burst_ok (client_burst (key_on_flushed (NonAscii ch) now c))
  ∧ held_text (key_on_flushed (NonAscii ch) now c) = held_text c ++ [ch].
Proof.
  intros Hok. unfold key_on_flushed, try_append_char_if_active.
  destruct (is_active_internal (client_burst c)) eqn:Hact.
  - unfold is_active_internal in Hact. destruct c as [t [last count window buf act pend]], Hok as [Hb Hp].
    simpl in *. destruct act; [|by rewrite Hb in Hact].
    destruct pend as [[held at_]|]; [by destruct (Hp _ _ eq_refl)|]. split; [done|].
    unfold held_text. simpl. by rewrite !app_nil_r, <- app_assoc.
  - destruct (client_flush_now_keeps (with_burst (client_burst c) c)) as (Hok' & Hheld & Ha & Hpn); [done|].
    change (held_text c) with (held_text (with_burst (client_burst c) c)). rewrite <- Hheld.
    destruct (client_flush_now _) as [t' b']. simpl in *. clear c Hok Hact Hheld.
    unfold on_plain_char_no_hold. destruct b' as [last count window buf act pend], Hok' as [Hb _]. simpl in *. subst.
    rewrite Hb by done. simpl. case_bool_decide.
    + match goal with |- context [client_begin ch now ?n ?c'] =>
        destruct (client_begin_keeps ch now n c') as [? ->] end; done.
    + split; [done|]. unfold held_text. simpl. by rewrite !app_nil_r.
Qed.

Lemma enter_keeps now c :
  burst_ok (client_burst c) → pending_first_char (client_burst c) = None →
  newline_should_insert_instead_of_submit now (client_burst c) = true →
  burst_ok (client_burst (key_on_flushed Enter now c)) ∧ held_text (key_on_flushed Enter now c) = held_text c ++ [nl].
Proof.
  destruct c as [t b]. simpl. intros Hok Hpn Hins.
  unfold append_newline_if_active, newline_should_insert_instead_of_submit in *.
  destruct (is_active b) eqn:Hact; unfold is_active, is_active_internal in Hact;
    destruct b as [last count window buf act pend], Hok as [Hb Hp]; simpl in *; subst pend.
  - destruct act; [|by rewrite Hb in Hact]. split; [done|].
    unfold held_text. simpl. by rewrite !app_nil_r, <- app_assoc.
  - unfold is_active, is_active_internal. simpl. rewrite Hins, orb_true_r. simpl.
    destruct act; [done|]. rewrite Hb by done. split; [done|]. unfold held_text. simpl. by rewrite !app_nil_r.
Qed.

Lemma other_key_keeps now c :
  burst_ok (client_burst c) →
  burst_ok (client_burst (key_on_flushed OtherKey now c)) ∧ held_text (key_on_flushed OtherKey now c) = held_text c.
Proof.
  intros Hok. simpl. destruct (client_flush_now_keeps c Hok) as (Hok' & <- & Ha & Hpn).
  destruct (client_flush_now c) as [t' [last count window buf act pend]], Hok' as [Hb _]. simpl in *. subst.
  split; [by constructor|]. unfold held_text. simpl. by rewrite Hb, !app_nil_r.
Qed.

Lemma key_keeps key now c :
  burst_ok (client_burst c) → key_joins key now c →
  burst_ok (client_burst (client_key key now c)) ∧ held_text (client_key key now c) = held_text c ++ typed key.
Proof.
  intros Hok Hj. unfold client_key. destruct (client_flush_keeps now c Hok) as (Hok' & <- & Hrecent).
  destruct key as [ch|ch| | |].
  - by apply ascii_keeps.
  - by apply non_ascii_keeps.
  - destruct Hj. by apply enter_keeps.
  - simpl. by rewrite app_nil_r.
  - cbn [typed]. rewrite app_nil_r. by apply other_key_keeps.
Qed.

(** Every Enter of the run joins the text. *)
Fixpoint keys_join (keys : list (Key * N)) (c : Client) : Prop :=
  match keys with
  | [] => True
  | (key, now) :: keys => key_joins key now c ∧ keys_join keys (client_key key now c)
  end.

Lemma run_keeps keys c :
  burst_ok (client_burst c) → keys_join keys c →
  burst_ok (client_burst (client_run keys c)) ∧ held_text (client_run keys c) = held_text c ++ (keys ≫= typed ∘ fst).
Proof.
  revert c. induction keys as [|[key now] keys IH]; intros c Hok Hk; simpl; [by rewrite app_nil_r|].
  destruct Hk as [Hj Hk]. destruct (key_keeps key now c Hok Hj) as [Hok' Hheld].
  destruct (IH _ Hok' Hk) as [Hok'' ->]. by rewrite Hheld, <- app_assoc.
Qed.

(** Whatever is typed or pasted, as single keys at any pace, is in the text
    and in what the burst holds, complete and in order, as long as no Enter comes
    while a single character is held; and a tick more than 8 ms after the last
    character puts it all in the text. *)
Theorem no_key_is_lost keys now :
  keys_join keys (mkClient [] new_burst) →
  let c := client_run keys (mkClient [] new_burst) in
  held_text c = keys ≫= typed ∘ fst
  ∧ (flush_due now c → client_text (client_key Tick now c) = keys ≫= typed ∘ fst).
Proof.
  intros Hk c. destruct (run_keeps keys (mkClient [] new_burst) new_burst_ok Hk) as [Hok Hheld].
  split; [done|]. intros Hdue. cbn [client_key key_on_flushed]. by rewrite (client_flush_due now c Hok Hdue).
Qed.

Definition keys_of (s : string) (start gap : N) : list (Key * N) :=
  imap (λ i ch, (if bool_decide (ch < 128)%N then Ascii ch else NonAscii ch, (start + gap * N.of_nat i)%N)) (lit s).

Lemma no_key_is_lost_witness :
  client_text (client_key Tick (from_millis 100)
    (client_run (keys_of "fast" 0 1000 ++ [(Enter, 5000%N)] ++ keys_of "x" (from_millis 50) 1) (mkClient [] new_burst)))
  = lit "fast" ++ [nl] ++ lit "x".
Proof.
  apply (no_key_is_lost (keys_of "fast" 0 1000 ++ [(Enter, 5000%N)] ++ keys_of "x" (from_millis 50) 1) (from_millis 100)).
  - vm_compute. repeat split.
  - vm_compute. reflexivity.
Defined.

(** An Enter while the first character is held goes before it, and when the
    burst is flushed as a paste the character is dropped. *)
Example enter_drops_the_held_character :
  client_text (client_run [(Ascii 97, 0%N); (Enter, from_millis 3); (Tick, from_millis 20); (Tick, from_millis 40)]
                 (mkClient [] new_burst)) = [nl].
Proof. vm_compute. reflexivity. Qed.

Example enter_overtakes_the_held_character :
  client_text (client_run [(Ascii 97, 0%N); (Enter, from_millis 3); (Ascii 98, from_millis 5); (Tick, from_millis 40)]
                 (mkClient [] new_burst)) = [nl] ++ lit "ab".
Proof. vm_compute. reflexivity. Qed.
