(* ===== verification/ThreadItems.v ===== *)
(** The items of a thread as clients see them ([ThreadItem] of
    [app-server-protocol/src/protocol/v2/item.rs]), the core's items they are
    made from ([TurnItem] of [protocol/src/items.rs]) with the conversion
    between the two, and the builders of [item_builders.rs] that make an item
    from the older events.  A type of [codex_protocol] that the server copies
    has its conversion as a function; where the sources import the core's type
    under an alias, the module here has the alias as its name. *)

From S2P Require Import Prelude Text Machine Paths Permissions ResponseItems.

(** * Small types of the core *)

(** A [ThreadId] is represented by its text, an [AgentPath] by the text it wraps. *)
Abbreviation ThreadId := str (only parsing).

Record Duration := mkDuration { secs : N; subsec_nanos : N }.

(** [Duration::as_millis] *)
Definition as_millis (d : Duration) : N := (secs d * 1000 + subsec_nanos d / 1000000)%N.

(** [i64::try_from(n).ok()] *)
Definition i64_try_from (n : N) : option Z :=
  if bool_decide (Z.of_N n ≤ i64_max)%Z then Some (Z.of_N n) else None.

Record ByteRange := mkByteRange { range_start : N; range_end : N }.
Record TextElement := mkTextElement { byte_range : ByteRange; placeholder : option str }.

Module CoreUserInput.
Inductive t :=
| Text (text : str) (text_elements : list TextElement)
| Image (image_url : str) (detail : option ImageDetail)
| LocalImage (path : str) (detail : option ImageDetail)
| Audio (audio_url : str)
| LocalAudio (path : str)
| Skill (name path : str)
| Mention (name path : str).
End CoreUserInput.

Record HookPromptFragment := mkFragment { fragment_text : str; hook_run_id : str }.
Record HookPromptItem := mkHookPrompt { hook_prompt_id : str; hook_prompt_fragments : list HookPromptFragment }.

Record CoreMemoryCitationEntry := mkCoreCitationEntry {
  core_path : str; core_line_start : N; core_line_end : N; core_note : str
}.
Record CoreMemoryCitation := mkCoreCitation {
  core_entries : list CoreMemoryCitationEntry; rollout_ids : list str
}.

Inductive ParsedCommand :=
| ParsedRead (cmd name path : str)
| ParsedListFiles (cmd : str) (path : option str)
| ParsedSearch (cmd : str) (query path : option str)
| ParsedUnknown (cmd : str).

Module FileChange.
Inductive t :=
| Add (content : str)
| Delete (content : str)
| Update (unified_diff : str) (move_path : option str).
End FileChange.

Inductive ExecCommandSource := Agent | UserShell | UnifiedExecStartup | UnifiedExecInteraction.

Module CoreExecCommandStatus.
Inductive t := Completed | Failed | Declined.
End CoreExecCommandStatus.

Module CoreCommandExecutionStatus.
Inductive t := InProgress | Completed | Failed | Declined.
End CoreCommandExecutionStatus.

Module CorePatchApplyStatus.
Inductive t := Completed | Failed | Declined.
End CorePatchApplyStatus.

(** The core's [McpToolCallStatus], [DynamicToolCallStatus] and
    [CollabAgentToolCallStatus] have the same three values, and so do the copies
    of [v2]; each keeps its own name. *)
Module CoreMcpToolCallStatus.
Inductive t := InProgress | Completed | Failed.
End CoreMcpToolCallStatus.

Module CoreDynamicToolCallStatus.
Inductive t := InProgress | Completed | Failed.
End CoreDynamicToolCallStatus.

Module CoreCollabAgentToolCallStatus.
Inductive t := InProgress | Completed | Failed.
End CoreCollabAgentToolCallStatus.

Module CoreCollabAgentTool.
Inductive t := SpawnAgent | SendInput | ResumeAgent | Wait | CloseAgent.
End CoreCollabAgentTool.

Module CoreSubAgentActivityKind.
Inductive t := Started | Interacted | Interrupted.
End CoreSubAgentActivityKind.

Module AgentStatus.
Inductive t :=
| PendingInit | Running | Interrupted
| Completed (message : option str)
| Errored (message : str)
| Shutdown | NotFound.
End AgentStatus.

Inductive ReasoningEffort := EffortNone | Minimal | LowEffort | Medium | HighEffort | XHigh | Max | Ultra
| Custom (value : str).

Module CoreDynamicToolCallOutputContentItem.
Inductive t := InputText (text : str) | InputImage (image_url : str) | InputAudio (audio_url : str).
End CoreDynamicToolCallOutputContentItem.

Inductive GuardianCommandSource := Shell | UnifiedExec.

(** * What is outside of the model

    The opaque values of the messages, and the functions the conversions call
    outside of the modelled files: JSON values, the [PathUri] of
    [utils/path-uri], the path text shown to older clients, floats, the profile
    of a permission request; [shlex::try_join], [parse_command] and
    the ids of [Uuid::now_v7], the [n]-th of which is
    [new_uuid n]. *)

Inductive PathConvention := Posix | Windows.

Class Outside := {
  Json : Type;
  json_null : Json;
  is_null : Json → bool;
  f32 : Type;
  RequestPermissionProfile : Type;
  PathUri : Type;
  infer_path_convention : PathUri → option PathConvention;
  native_convention : PathConvention;
  to_abs_path : PathUri → option AbsolutePathBuf;
  LegacyAppPathString : Type;
  legacy_of_path_uri : PathUri → LegacyAppPathString;
  legacy_of_abs_path : AbsolutePathBuf → LegacyAppPathString;
  outside_host :: Host;
  shlex_try_join : list str → option str;
  parse_command : list str → list ParsedCommand;
  new_uuid : nat → str
}.

(** * Items of the core *)

Record ReviewLineRange := mkLineRange { line_first : N; line_last : N }.
Record ReviewCodeLocation := mkLocation { absolute_file_path : Path; line_range : ReviewLineRange }.
Record ReviewFinding {O : Outside} := mkFinding {
  title : str; body : str; confidence_score : f32; priority : Z; code_location : ReviewCodeLocation
}.
Arguments mkFinding {O}.
Record ReviewOutputEvent {O : Outside} := mkReviewOutput {
  findings : list ReviewFinding; overall_correctness : str; overall_explanation : str;
  overall_confidence_score : f32
}.
Arguments mkReviewOutput {O}.

Inductive ReviewTarget :=
| UncommittedChanges
| BaseBranch (branch : str)
| Commit (sha : str) (commit_title : option str)
| CustomReview (instructions : str).

Record CallToolResult {O : Outside} := mkCallToolResult {
  content : list Json; structured_content : option Json; is_error : option bool; meta : option Json
}.
Arguments mkCallToolResult {O}.

(** The items an extension owns ([ext/items/src]); the web search item is also
    the one of [v2], with the action of [v2]. *)
Module WebSearchAction.
Inductive t :=
| Search (query : option str) (queries : option (list str))
| OpenPage (url : option str)
| FindInPage (url pattern : option str)
| Other.
End WebSearchAction.

Record WebSearchItem {O : Outside} := mkWebSearch {
  search_id : str; search_query : str; search_action : option WebSearchAction.t;
  search_results : option (list Json)
}.
Arguments mkWebSearch {O}.
Record SleepItem := mkSleep { sleep_id : str; sleep_duration_ms : N }.
Record ImageGenerationItem := mkImageGeneration {
  image_id : str; image_status : str; image_revised_prompt : option str; image_result : str;
  image_saved_path : option AbsolutePathBuf
}.
Inductive ExtensionItem {O : Outside} :=
| ImageGenerationExtension (item : ImageGenerationItem)
| SleepExtension (item : SleepItem)
| WebSearchExtension (item : WebSearchItem).

Record AgentMessageItem := mkAgentMessage {
  agent_message_id : str;
  (** [AgentMessageContent] has one variant, [Text]. *)
  agent_message_content : list str;
  agent_message_phase : option MessagePhase; agent_message_citation : option CoreMemoryCitation
}.

Record CommandExecutionItem {O : Outside} := mkCommandExecution {
  command_id : str; command_process_id : option str; command_words : list str; command_cwd : PathUri;
  command_parsed : list ParsedCommand; command_source : ExecCommandSource;
  command_interaction_input : option str; command_status : CoreCommandExecutionStatus.t;
  command_stdout : option str; command_stderr : option str; command_aggregated_output : option str;
  command_exit_code : option Z; command_duration : option Duration;
  command_formatted_output : option str
}.
Arguments mkCommandExecution {O}.

Record DynamicToolCallItem {O : Outside} := mkDynamicToolCall {
  dynamic_id : str; dynamic_namespace : option str; dynamic_tool : str; dynamic_arguments : Json;
  dynamic_status : CoreDynamicToolCallStatus.t;
  dynamic_content_items : option (list CoreDynamicToolCallOutputContentItem.t);
  dynamic_success : option bool; dynamic_error : option str; dynamic_duration : option Duration
}.
Arguments mkDynamicToolCall {O}.

Record CollabAgentRef := mkAgentRef {
  ref_thread_id : ThreadId; ref_agent_nickname : option str; ref_agent_role : option str
}.
Record CollabAgentToolCallItem := mkCollabAgentToolCall {
  collab_id : str; collab_tool : CoreCollabAgentTool.t; collab_status : CoreCollabAgentToolCallStatus.t;
  collab_sender_thread_id : ThreadId; collab_receiver_thread_ids : list ThreadId;
  collab_receiver_agents : list CollabAgentRef; collab_prompt : option str; collab_model : option str;
  collab_reasoning_effort : option ReasoningEffort; collab_agents_states : gmap ThreadId AgentStatus.t
}.

Record McpToolCallItem {O : Outside} := mkMcpToolCall {
  mcp_id : str; mcp_server : str; mcp_tool : str; mcp_arguments : Json; mcp_connector_id : option str;
  mcp_resource_uri : option str; mcp_link_id : option str; mcp_app_name : option str;
  mcp_action_name : option str; mcp_plugin_id : option str; mcp_status : CoreMcpToolCallStatus.t;
  mcp_result : option CallToolResult; mcp_error : option str; mcp_duration : option Duration
}.
Arguments mkMcpToolCall {O}.

(** The core's [TurnItem]; the records of few fields are written out. *)
Module TurnItem.
Inductive t {O : Outside} :=
| UserMessage (id : str) (client_id : option str) (content : list CoreUserInput.t)
| HookPrompt (item : HookPromptItem)
| AgentMessage (item : AgentMessageItem)
| Plan (id text : str)
| Reasoning (id : str) (summary_text raw_content : list str)
| CommandExecution (item : CommandExecutionItem)
| DynamicToolCall (item : DynamicToolCallItem)
| CollabAgentToolCall (item : CollabAgentToolCallItem)
| SubAgentActivity (id : str) (kind : CoreSubAgentActivityKind.t) (agent_thread_id : ThreadId) (agent_path : str)
| WebSearch (id query : str) (action : WebSearchAction) (results : option (list Json))
| ImageView (id : str) (path : PathUri)
| Extension (item : ExtensionItem)
| ImageGeneration (item : ImageGenerationItem)
| EnteredReviewMode (id : str) (target : ReviewTarget) (user_facing_hint : str)
| ExitedReviewMode (id : str) (review_output : option ReviewOutputEvent)
| FileChange (id : str) (changes : gmap str FileChange.t) (status : option CorePatchApplyStatus.t)
    (auto_approved : option bool) (stdout stderr : option str)
| McpToolCall (item : McpToolCallItem)
| ContextCompaction (id : str).
End TurnItem.

(** * The clients' copies and their conversions *)

Record MemoryCitationEntry := mkCitationEntry {
  citation_path : str; line_start : N; line_end : N; note : str
}.
Record MemoryCitation := mkCitation { entries : list MemoryCitationEntry; thread_ids : list str }.

Definition memory_citation_entry (value : CoreMemoryCitationEntry) : MemoryCitationEntry :=
  mkCitationEntry (core_path value) (core_line_start value) (core_line_end value) (core_note value).
Definition memory_citation (value : CoreMemoryCitation) : MemoryCitation :=
  mkCitation (memory_citation_entry <$> core_entries value) (rollout_ids value).

(** The [v2] [ByteRange], [TextElement] and [HookPromptFragment] have the fields
    of the core's, and their conversions copy them. *)
Module UserInput.
Inductive t :=
| Text (text : str) (text_elements : list TextElement)
| Image (detail : option ImageDetail) (url : str)
| LocalImage (detail : option ImageDetail) (path : str)
| Audio (url : str)
| LocalAudio (path : str)
| Skill (name path : str)
| Mention (name path : str).
End UserInput.

Definition user_input (value : CoreUserInput.t) : UserInput.t :=
  match value with
  | CoreUserInput.Text text text_elements => UserInput.Text text text_elements
  | CoreUserInput.Image image_url detail => UserInput.Image detail image_url
  | CoreUserInput.LocalImage path detail => UserInput.LocalImage detail path
  | CoreUserInput.Audio audio_url => UserInput.Audio audio_url
  | CoreUserInput.LocalAudio path => UserInput.LocalAudio path
  | CoreUserInput.Skill name path => UserInput.Skill name path
  | CoreUserInput.Mention name path => UserInput.Mention name path
  end.

Module CommandExecutionStatus.
Inductive t := InProgress | Completed | Failed | Declined.
End CommandExecutionStatus.

Definition command_status_of_core (value : CoreCommandExecutionStatus.t) : CommandExecutionStatus.t :=
  match value with
  | CoreCommandExecutionStatus.InProgress => CommandExecutionStatus.InProgress
  | CoreCommandExecutionStatus.Completed => CommandExecutionStatus.Completed
  | CoreCommandExecutionStatus.Failed => CommandExecutionStatus.Failed
  | CoreCommandExecutionStatus.Declined => CommandExecutionStatus.Declined
  end.
Definition command_status_of_exec (value : CoreExecCommandStatus.t) : CommandExecutionStatus.t :=
  match value with
  | CoreExecCommandStatus.Completed => CommandExecutionStatus.Completed
  | CoreExecCommandStatus.Failed => CommandExecutionStatus.Failed
  | CoreExecCommandStatus.Declined => CommandExecutionStatus.Declined
  end.

Module CommandExecutionSource.
Inductive t := Agent | UserShell | UnifiedExecStartup | UnifiedExecInteraction.
End CommandExecutionSource.

Definition command_source_of_core (value : ExecCommandSource) : CommandExecutionSource.t :=
  match value with
  | Agent => CommandExecutionSource.Agent
  | UserShell => CommandExecutionSource.UserShell
  | UnifiedExecStartup => CommandExecutionSource.UnifiedExecStartup
  | UnifiedExecInteraction => CommandExecutionSource.UnifiedExecInteraction
  end.

Module CommandAction.
Inductive t :=
| Read (command name : str) (path : AbsolutePathBuf)
| ListFiles (command : str) (path : option str)
| Search (command : str) (query path : option str)
| Unknown (command : str).
End CommandAction.

Definition from_core_with_cwd `{Outside} (value : ParsedCommand) (cwd : AbsolutePathBuf) : CommandAction.t :=
  match value with
  | ParsedRead cmd name path => CommandAction.Read cmd name (abs_join cwd (path_new path))
  | ParsedListFiles cmd path => CommandAction.ListFiles cmd path
  | ParsedSearch cmd query path => CommandAction.Search cmd query path
  | ParsedUnknown cmd => CommandAction.Unknown cmd
  end.

Inductive PatchChangeKind := AddKind | DeleteKind | UpdateKind (move_path : option str).
Record FileUpdateChange := mkFileUpdate { update_path : str; kind : PatchChangeKind; diff : str }.

Module PatchApplyStatus.
Inductive t := InProgress | Completed | Failed | Declined.
End PatchApplyStatus.

Definition patch_apply_status (value : CorePatchApplyStatus.t) : PatchApplyStatus.t :=
  match value with
  | CorePatchApplyStatus.Completed => PatchApplyStatus.Completed
  | CorePatchApplyStatus.Failed => PatchApplyStatus.Failed
  | CorePatchApplyStatus.Declined => PatchApplyStatus.Declined
  end.

Module McpToolCallStatus.
Inductive t := InProgress | Completed | Failed.
End McpToolCallStatus.

Definition mcp_tool_call_status (value : CoreMcpToolCallStatus.t) : McpToolCallStatus.t :=
  match value with
  | CoreMcpToolCallStatus.InProgress => McpToolCallStatus.InProgress
  | CoreMcpToolCallStatus.Completed => McpToolCallStatus.Completed
  | CoreMcpToolCallStatus.Failed => McpToolCallStatus.Failed
  end.

Module DynamicToolCallStatus.
Inductive t := InProgress | Completed | Failed.
End DynamicToolCallStatus.

Definition dynamic_tool_call_status (value : CoreDynamicToolCallStatus.t) : DynamicToolCallStatus.t :=
  match value with
  | CoreDynamicToolCallStatus.InProgress => DynamicToolCallStatus.InProgress
  | CoreDynamicToolCallStatus.Completed => DynamicToolCallStatus.Completed
  | CoreDynamicToolCallStatus.Failed => DynamicToolCallStatus.Failed
  end.

Module DynamicToolCallOutputContentItem.
Inductive t := InputText (text : str) | InputImage (image_url : str) | InputAudio (audio_url : str).
End DynamicToolCallOutputContentItem.

Definition dynamic_content_item (item : CoreDynamicToolCallOutputContentItem.t) : DynamicToolCallOutputContentItem.t :=
  match item with
  | CoreDynamicToolCallOutputContentItem.InputText text => DynamicToolCallOutputContentItem.InputText text
  | CoreDynamicToolCallOutputContentItem.InputImage image_url => DynamicToolCallOutputContentItem.InputImage image_url
  | CoreDynamicToolCallOutputContentItem.InputAudio audio_url => DynamicToolCallOutputContentItem.InputAudio audio_url
  end.

Module CollabAgentTool.
Inductive t := SpawnAgent | SendInput | ResumeAgent | Wait | CloseAgent.
End CollabAgentTool.

Definition collab_agent_tool (value : CoreCollabAgentTool.t) : CollabAgentTool.t :=
  match value with
  | CoreCollabAgentTool.SpawnAgent => CollabAgentTool.SpawnAgent
  | CoreCollabAgentTool.SendInput => CollabAgentTool.SendInput
  | CoreCollabAgentTool.ResumeAgent => CollabAgentTool.ResumeAgent
  | CoreCollabAgentTool.Wait => CollabAgentTool.Wait
  | CoreCollabAgentTool.CloseAgent => CollabAgentTool.CloseAgent
  end.

Module CollabAgentToolCallStatus.
Inductive t := InProgress | Completed | Failed.
End CollabAgentToolCallStatus.

Definition collab_agent_tool_call_status (value : CoreCollabAgentToolCallStatus.t) : CollabAgentToolCallStatus.t :=
  match value with
  | CoreCollabAgentToolCallStatus.InProgress => CollabAgentToolCallStatus.InProgress
  | CoreCollabAgentToolCallStatus.Completed => CollabAgentToolCallStatus.Completed
  | CoreCollabAgentToolCallStatus.Failed => CollabAgentToolCallStatus.Failed
  end.

Module CollabAgentStatus.
Inductive t := PendingInit | Running | Interrupted | Completed | Errored | Shutdown | NotFound.
End CollabAgentStatus.
Record CollabAgentState := mkAgentState { agent_status : CollabAgentStatus.t; agent_message : option str }.

Definition collab_agent_state (value : AgentStatus.t) : CollabAgentState :=
  match value with
  | AgentStatus.PendingInit => mkAgentState CollabAgentStatus.PendingInit None
  | AgentStatus.Running => mkAgentState CollabAgentStatus.Running None
  | AgentStatus.Interrupted => mkAgentState CollabAgentStatus.Interrupted None
  | AgentStatus.Completed message => mkAgentState CollabAgentStatus.Completed message
  | AgentStatus.Errored message => mkAgentState CollabAgentStatus.Errored (Some message)
  | AgentStatus.Shutdown => mkAgentState CollabAgentStatus.Shutdown None
  | AgentStatus.NotFound => mkAgentState CollabAgentStatus.NotFound None
  end.

Module SubAgentActivityKind.
Inductive t := Started | Interacted | Interrupted.
End SubAgentActivityKind.

Definition sub_agent_activity_kind (value : CoreSubAgentActivityKind.t) : SubAgentActivityKind.t :=
  match value with
  | CoreSubAgentActivityKind.Started => SubAgentActivityKind.Started
  | CoreSubAgentActivityKind.Interacted => SubAgentActivityKind.Interacted
  | CoreSubAgentActivityKind.Interrupted => SubAgentActivityKind.Interrupted
  end.

Definition web_search_action_from_core (value : WebSearchAction) : WebSearchAction.t :=
  match value with
  | ResponseItems.WebSearch query queries => WebSearchAction.Search query queries
  | ResponseItems.OpenPage url => WebSearchAction.OpenPage url
  | ResponseItems.FindInPage url pattern => WebSearchAction.FindInPage url pattern
  | ResponseItems.OtherAction => WebSearchAction.Other
  end.

Record McpToolCallAppContext := mkAppContext {
  connector_id : str; link_id : option str; resource_uri : option str;
  app_name : option str; action_name : option str
}.
Record McpToolCallResult {O : Outside} := mkMcpResult {
  result_content : list Json; result_structured_content : option Json; result_meta : option Json
}.
Arguments mkMcpResult {O}.
Definition mcp_tool_call_result `{Outside} (result : CallToolResult) : McpToolCallResult :=
  mkMcpResult (content result) (structured_content result) (meta result).

(** [McpToolCallError] wraps its message. *)
Abbreviation McpToolCallError := str (only parsing).

(** [ThreadItem] *)
Module ThreadItem.
Inductive t {O : Outside} :=
| UserMessage (id : str) (client_id : option str) (content : list UserInput.t)
| HookPrompt (id : str) (fragments : list HookPromptFragment)
| AgentMessage (id text : str) (phase : option MessagePhase) (memory_citation : option MemoryCitation)
| Plan (id text : str)
| Reasoning (id : str) (summary content : list str)
| CommandExecution (id command : str) (cwd : LegacyAppPathString) (process_id : option str)
    (source : CommandExecutionSource.t) (status : CommandExecutionStatus.t)
    (command_actions : list CommandAction.t) (aggregated_output : option str)
    (exit_code : option Z) (duration_ms : option Z)
| FileChange (id : str) (changes : list FileUpdateChange) (status : PatchApplyStatus.t)
| McpToolCall (id server tool : str) (status : McpToolCallStatus.t) (arguments : Json)
    (app_context : option McpToolCallAppContext) (mcp_app_resource_uri plugin_id : option str)
    (result : option McpToolCallResult) (error : option McpToolCallError) (duration_ms : option Z)
| DynamicToolCall (id : str) (namespace : option str) (tool : str) (arguments : Json)
    (status : DynamicToolCallStatus.t)
    (content_items : option (list DynamicToolCallOutputContentItem.t)) (success : option bool)
    (duration_ms : option Z)
| CollabAgentToolCall (id : str) (tool : CollabAgentTool.t) (status : CollabAgentToolCallStatus.t)
    (sender_thread_id : str) (receiver_thread_ids : list str) (prompt model : option str)
    (reasoning_effort : option ReasoningEffort) (agents_states : gmap str CollabAgentState)
| SubAgentActivity (id : str) (kind : SubAgentActivityKind.t) (agent_thread_id agent_path : str)
| WebSearch (item : WebSearchItem)
| ImageView (id : str) (path : LegacyAppPathString)
| Sleep (item : SleepItem)
| ImageGeneration (item : ImageGenerationItem)
| EnteredReviewMode (id review : str)
| ExitedReviewMode (id review : str)
| ContextCompaction (id : str).
End ThreadItem.

(** [ThreadItem::id] *)
Definition item_id `{Outside} (item : ThreadItem.t) : str :=
  match item with
  | ThreadItem.UserMessage id _ _
  | ThreadItem.HookPrompt id _
  | ThreadItem.AgentMessage id _ _ _
  | ThreadItem.Plan id _
  | ThreadItem.Reasoning id _ _
  | ThreadItem.CommandExecution id _ _ _ _ _ _ _ _ _
  | ThreadItem.FileChange id _ _
  | ThreadItem.McpToolCall id _ _ _ _ _ _ _ _ _ _
  | ThreadItem.DynamicToolCall id _ _ _ _ _ _ _
  | ThreadItem.CollabAgentToolCall id _ _ _ _ _ _ _ _
  | ThreadItem.SubAgentActivity id _ _ _
  | ThreadItem.ImageView id _
  | ThreadItem.EnteredReviewMode id _
  | ThreadItem.ExitedReviewMode id _
  | ThreadItem.ContextCompaction id => id
  | ThreadItem.WebSearch item => search_id item
  | ThreadItem.Sleep item => sleep_id item
  | ThreadItem.ImageGeneration item => image_id item
  end.

(** * Text of a review ([protocol/src/review_format.rs]) *)

Definition REVIEW_FALLBACK_MESSAGE : str := lit "Reviewer failed to output a response.".

Definition format_location `{Outside} (item : ReviewFinding) : str :=
  path_text (absolute_file_path (code_location item)) ++ lit ":"
    ++ decimal_N (line_first (line_range (code_location item))) ++ lit "-"
    ++ decimal_N (line_last (line_range (code_location item))).

(** The em dash of a bullet. *)
Definition em_dash : str := [8212%N].

(** One finding of [format_review_findings_block]; [flags] says whether it is selected. *)
Definition format_finding `{Outside} (selection : option (list bool)) (idx : nat) (item : ReviewFinding) : list str :=
  let heading :=
    match selection with
    | Some flags =>
        let marker := if default true (flags !! idx) then lit "[x]" else lit "[ ]" in
        lit "- " ++ marker ++ lit " " ++ title item ++ lit " " ++ em_dash ++ lit " " ++ format_location item
    | None => lit "- " ++ title item ++ lit " " ++ em_dash ++ lit " " ++ format_location item
    end in
  [] :: heading :: ((lit "  " ++.) <$> lines (body item)).

Definition format_review_findings_block `{Outside} (findings : list ReviewFinding)
    (selection : option (list bool)) : str :=
  let header := if bool_decide (1 < length findings) then lit "Full review comments:" else lit "Review comment:" in
  join [nl] ([] :: header :: concat (imap (format_finding selection) findings)).

Definition render_review_output_text `{Outside} (output : ReviewOutputEvent) : str :=
  let explanation := trim (overall_explanation output) in
  let trimmed := trim (format_review_findings_block (findings output) None) in
  let sections :=
    (if is_nil explanation then [] else [explanation]) ++
    (if is_nil (findings output) || is_nil trimmed then [] else [trimmed]) in
  if is_nil sections then REVIEW_FALLBACK_MESSAGE else join [nl; nl] sections.

Definition review_output_text `{Outside} (output : option ReviewOutputEvent) : str :=
  match output with Some output => render_review_output_text output | None => REVIEW_FALLBACK_MESSAGE end.

(** * Builders ([item_builders.rs]) *)

(** [shlex_join] of [shell-command/src/parse_command.rs] *)
Definition shlex_join `{Outside} (tokens : list str) : str :=
  default (lit "<command included NUL byte>") (shlex_try_join tokens).

Definition map_patch_change_kind (change : FileChange.t) : PatchChangeKind :=
  match change with
  | FileChange.Add _ => AddKind
  | FileChange.Delete _ => DeleteKind
  | FileChange.Update _ move_path => UpdateKind move_path
  end.

Definition format_file_change_diff (change : FileChange.t) : str :=
  match change with
  | FileChange.Add content => content
  | FileChange.Delete content => content
  | FileChange.Update unified_diff (Some path) => unified_diff ++ [nl; nl] ++ lit "Moved to: " ++ path
  | FileChange.Update unified_diff None => unified_diff
  end.

(** The map is listed in an order of its own before the sort. *)
Definition convert_patch_changes (changes : gmap str FileChange.t) : list FileUpdateChange :=
  sort_by (λ a b, str_leb (update_path a) (update_path b))
    ((λ '(path, change), mkFileUpdate path (map_patch_change_kind change) (format_file_change_diff change))
       <$> map_to_list changes).

#[export] Instance PathConvention_eq_dec : EqDecision PathConvention.
Proof. solve_decision. Defined.

(** [command_actions_for_path_uri] without its warning *)
Definition command_actions_for_path_uri `{Outside} (parsed_cmd : list ParsedCommand) (cwd : PathUri)
    : list CommandAction.t :=
  let native_cwd :=
    if decide (infer_path_convention cwd = Some native_convention) then to_abs_path cwd else None in
  omap (λ parsed,
    match parsed with
    | ParsedRead cmd name path =>
        native_cwd ← native_cwd; Some (CommandAction.Read cmd name (abs_join native_cwd (path_new path)))
    | ParsedListFiles cmd path => Some (CommandAction.ListFiles cmd path)
    | ParsedSearch cmd query path => Some (CommandAction.Search cmd query path)
    | ParsedUnknown cmd => Some (CommandAction.Unknown cmd)
    end) parsed_cmd.

(** * [ThreadItem::from] a [TurnItem] *)

Definition thread_image_generation (image : ImageGenerationItem) : ImageGenerationItem :=
  mkImageGeneration (image_id image) (image_status image) (image_revised_prompt image)
    (image_result image) (image_saved_path image).

Definition thread_extension_item `{Outside} (extension : ExtensionItem) : ThreadItem.t :=
  match extension with
  | ImageGenerationExtension item => ThreadItem.ImageGeneration item
  | SleepExtension item => ThreadItem.Sleep item
  | WebSearchExtension item => ThreadItem.WebSearch item
  end.

Definition thread_command_execution `{Outside} (command : CommandExecutionItem) : ThreadItem.t :=
  ThreadItem.CommandExecution (command_id command) (shlex_join (command_words command))
    (legacy_of_path_uri (command_cwd command)) (command_process_id command)
    (command_source_of_core (command_source command)) (command_status_of_core (command_status command))
    (command_actions_for_path_uri (command_parsed command) (command_cwd command))
    (command_aggregated_output command ≫= λ output, if is_nil output then None else Some output)
    (command_exit_code command) (command_duration command ≫= λ duration, i64_try_from (as_millis duration)).

Definition thread_dynamic_tool_call `{Outside} (call : DynamicToolCallItem) : ThreadItem.t :=
  ThreadItem.DynamicToolCall (dynamic_id call) (dynamic_namespace call) (dynamic_tool call)
    (dynamic_arguments call) (dynamic_tool_call_status (dynamic_status call))
    ((λ items : list _, dynamic_content_item <$> items) <$> dynamic_content_items call) (dynamic_success call)
    (dynamic_duration call ≫= λ duration, i64_try_from (as_millis duration)).

Definition thread_collab_agent_tool_call `{Outside} (call : CollabAgentToolCallItem) : ThreadItem.t :=
  ThreadItem.CollabAgentToolCall (collab_id call) (collab_agent_tool (collab_tool call))
    (collab_agent_tool_call_status (collab_status call)) (collab_sender_thread_id call)
    (collab_receiver_thread_ids call) (collab_prompt call) (collab_model call)
    (collab_reasoning_effort call) (collab_agent_state <$> collab_agents_states call).

Definition thread_mcp_tool_call `{Outside} (mcp : McpToolCallItem) : ThreadItem.t :=
  ThreadItem.McpToolCall (mcp_id mcp) (mcp_server mcp) (mcp_tool mcp)
    (mcp_tool_call_status (mcp_status mcp)) (mcp_arguments mcp)
    ((λ connector_id, mkAppContext connector_id (mcp_link_id mcp) (mcp_resource_uri mcp)
                        (mcp_app_name mcp) (mcp_action_name mcp)) <$> mcp_connector_id mcp)
    (mcp_resource_uri mcp) (mcp_plugin_id mcp) (mcp_tool_call_result <$> mcp_result mcp) (mcp_error mcp)
    (mcp_duration mcp ≫= λ duration, i64_try_from (as_millis duration)).

Definition thread_item `{Outside} (value : TurnItem.t) : ThreadItem.t :=
  match value with
  | TurnItem.UserMessage id client_id content => ThreadItem.UserMessage id client_id (user_input <$> content)
  | TurnItem.HookPrompt hook_prompt =>
      ThreadItem.HookPrompt (hook_prompt_id hook_prompt) (hook_prompt_fragments hook_prompt)
  | TurnItem.AgentMessage agent =>
      ThreadItem.AgentMessage (agent_message_id agent) (concat (agent_message_content agent))
        (agent_message_phase agent) (memory_citation <$> agent_message_citation agent)
  | TurnItem.Plan id text => ThreadItem.Plan id text
  | TurnItem.Reasoning id summary_text raw_content => ThreadItem.Reasoning id summary_text raw_content
  | TurnItem.CommandExecution command => thread_command_execution command
  | TurnItem.DynamicToolCall call => thread_dynamic_tool_call call
  | TurnItem.CollabAgentToolCall call => thread_collab_agent_tool_call call
  | TurnItem.SubAgentActivity id kind agent_thread_id agent_path =>
      ThreadItem.SubAgentActivity id (sub_agent_activity_kind kind) agent_thread_id agent_path
  | TurnItem.WebSearch id query action results =>
      ThreadItem.WebSearch (mkWebSearch id query (Some (web_search_action_from_core action)) results)
  | TurnItem.ImageView id path => ThreadItem.ImageView id (legacy_of_path_uri path)
  | TurnItem.Extension extension => thread_extension_item extension
  | TurnItem.ImageGeneration image => ThreadItem.ImageGeneration (thread_image_generation image)
  | TurnItem.EnteredReviewMode id _ user_facing_hint => ThreadItem.EnteredReviewMode id user_facing_hint
  | TurnItem.ExitedReviewMode id review_output => ThreadItem.ExitedReviewMode id (review_output_text review_output)
  | TurnItem.FileChange id changes status _ _ _ =>
      ThreadItem.FileChange id (convert_patch_changes changes)
        (match status with Some status => patch_apply_status status | None => PatchApplyStatus.InProgress end)
  | TurnItem.McpToolCall mcp => thread_mcp_tool_call mcp
  | TurnItem.ContextCompaction id => ThreadItem.ContextCompaction id
  end.
