(* ===== verification/ThreadEvents.v ===== *)
(** The events a thread is rebuilt from: the payloads of [EventMsg] and the
    variants of [RolloutItem] ([protocol/src/protocol.rs], [approvals.rs],
    [dynamic_tools.rs]) that [ThreadHistoryBuilder] reads, and the builders of
    [item_builders.rs] that take an event.  [EventMsg] has one constructor more,
    [OtherEvent], for the variants the history ignores. *)

From S2P Require Import Prelude Text Machine Paths ResponseItems ThreadItems.

(** * Errors *)

Inductive NonSteerableTurnKind := ReviewTurn | CompactTurn.

(** The core's [CodexErrorInfo] and its copy in [v2] have the same variants. *)
Module CodexErrorInfo.
Inductive t :=
| ContextWindowExceeded | SessionBudgetExceeded | UsageLimitExceeded | ServerOverloaded | CyberPolicy
| HttpConnectionFailed (http_status_code : option N)
| ResponseStreamConnectionFailed (http_status_code : option N)
| InternalServerError | Unauthorized | BadRequest | ThreadRollbackFailed | SandboxError
| ResponseStreamDisconnected (http_status_code : option N)
| ResponseTooManyFailedAttempts (http_status_code : option N)
| ActiveTurnNotSteerable (turn_kind : NonSteerableTurnKind)
| Other.
End CodexErrorInfo.

(** [CodexErrorInfo::affects_turn_status] *)
Definition info_affects_turn_status (info : CodexErrorInfo.t) : bool :=
  match info with
  | CodexErrorInfo.ThreadRollbackFailed | CodexErrorInfo.ActiveTurnNotSteerable _ => false
  | _ => true
  end.

Module ErrorEvent.
Record t := mk { message : str; codex_error_info : option CodexErrorInfo.t }.
End ErrorEvent.

(** [ErrorEvent::affects_turn_status] *)
Definition affects_turn_status (event : ErrorEvent.t) : bool :=
  match ErrorEvent.codex_error_info event with
  | Some info => info_affects_turn_status info
  | None => true
  end.

(** * Messages *)

Module UserMessageEvent.
Record t := mk {
  client_id : option str; message : str; images : option (list str);
  image_details : list (option ImageDetail); local_images : list str;
  local_image_details : list (option ImageDetail); audio : option (list str);
  local_audio : list str; text_elements : list TextElement
}.
End UserMessageEvent.

Module AgentMessageEvent.
Record t := mk { message : str; phase : option MessagePhase; memory_citation : option CoreMemoryCitation }.
End AgentMessageEvent.

(** * Calls of tools *)

Module WebSearchEndEvent.
Record t {O : Outside} := mk { call_id : str; query : str; action : WebSearchAction; results : option (list Json) }.
Arguments mk {O}.
End WebSearchEndEvent.

Module ExecCommandBeginEvent.
Record t {O : Outside} := mk {
  call_id : str; process_id : option str; turn_id : str; started_at_ms : Z; command : list str;
  cwd : PathUri; parsed_cmd : list ParsedCommand; source : ExecCommandSource;
  interaction_input : option str
}.
Arguments mk {O}.
End ExecCommandBeginEvent.

Module ExecCommandEndEvent.
Record t {O : Outside} := mk {
  call_id : str; process_id : option str; turn_id : str; completed_at_ms : Z; command : list str;
  cwd : PathUri; parsed_cmd : list ParsedCommand; source : ExecCommandSource;
  interaction_input : option str; stdout : str; stderr : str; aggregated_output : str; exit_code : Z;
  duration : Duration; formatted_output : str; status : CoreExecCommandStatus.t
}.
Arguments mk {O}.
End ExecCommandEndEvent.

Inductive GuardianAssessmentStatus := GuardianInProgress | Approved | Denied | TimedOut | Aborted.
Inductive NetworkApprovalProtocol := Http | Https | Socks5Tcp | Socks5Udp.

Module GuardianAssessmentAction.
Inductive t {O : Outside} :=
| Command (source : GuardianCommandSource) (command : str) (cwd : AbsolutePathBuf)
| Execve (source : GuardianCommandSource) (program : str) (argv : list str) (cwd : AbsolutePathBuf)
| ApplyPatch (cwd : AbsolutePathBuf) (files : list AbsolutePathBuf)
| NetworkAccess (target host : str) (protocol : NetworkApprovalProtocol) (port : N)
| McpToolCall (server tool_name : str) (connector_id connector_name tool_title : option str)
| RequestPermissions (reason : option str) (permissions : RequestPermissionProfile).
End GuardianAssessmentAction.

Inductive GuardianRiskLevel := LowRisk | MediumRisk | HighRisk | CriticalRisk.
Inductive GuardianUserAuthorization := UnknownAuthorization | LowAuthorization | MediumAuthorization | HighAuthorization.

Module GuardianAssessmentEvent.
Record t {O : Outside} := mk {
  id : str; target_item_id : option str; turn_id : str; started_at_ms : Z; completed_at_ms : option Z;
  status : GuardianAssessmentStatus; risk_level : option GuardianRiskLevel;
  user_authorization : option GuardianUserAuthorization; rationale : option str;
  (** whether a decision has a source; [GuardianAssessmentDecisionSource] has one variant *)
  decision_source : option unit; action : GuardianAssessmentAction.t
}.
Arguments mk {O}.
End GuardianAssessmentEvent.

Module ApplyPatchApprovalRequestEvent.
Record t := mk {
  call_id : str; turn_id : str; started_at_ms : Z; changes : gmap str FileChange.t;
  reason : option str; grant_root : option str
}.
End ApplyPatchApprovalRequestEvent.

Module PatchApplyBeginEvent.
Record t := mk { call_id : str; turn_id : str; auto_approved : bool; changes : gmap str FileChange.t }.
End PatchApplyBeginEvent.

Module PatchApplyEndEvent.
Record t := mk {
  call_id : str; turn_id : str; stdout : str; stderr : str; success : bool;
  changes : gmap str FileChange.t; status : CorePatchApplyStatus.t
}.
End PatchApplyEndEvent.

Module DynamicToolCallRequest.
Record t {O : Outside} := mk {
  call_id : str; turn_id : str; started_at_ms : Z; namespace : option str; tool : str; arguments : Json
}.
Arguments mk {O}.
End DynamicToolCallRequest.

Module DynamicToolCallResponseEvent.
Record t {O : Outside} := mk {
  call_id : str; turn_id : str; completed_at_ms : Z; namespace : option str; tool : str;
  arguments : Json; content_items : list CoreDynamicToolCallOutputContentItem.t; success : bool;
  error : option str; duration : Duration
}.
Arguments mk {O}.
End DynamicToolCallResponseEvent.

Module McpInvocation.
Record t {O : Outside} := mk { server : str; tool : str; arguments : option Json }.
Arguments mk {O}.
End McpInvocation.

Module McpToolCallBeginEvent.
Record t {O : Outside} := mk {
  call_id : str; invocation : McpInvocation.t; connector_id : option str;
  mcp_app_resource_uri : option str; link_id : option str; app_name : option str;
  action_name : option str; plugin_id : option str
}.
Arguments mk {O}.
End McpToolCallBeginEvent.

Module McpToolCallEndEvent.
Record t {O : Outside} := mk {
  call_id : str; invocation : McpInvocation.t; connector_id : option str;
  mcp_app_resource_uri : option str; link_id : option str; app_name : option str;
  action_name : option str; plugin_id : option str; duration : Duration;
  result : Prelude.result str CallToolResult
}.
Arguments mk {O}.
End McpToolCallEndEvent.

Module ImageGenerationEndEvent.
Record t := mk {
  call_id : str; status : str; revised_prompt : option str; result : str; saved_path : option AbsolutePathBuf
}.
End ImageGenerationEndEvent.

(** [McpToolCallEndEvent::is_success] *)
Definition is_success `{Outside} (event : McpToolCallEndEvent.t) : bool :=
  match McpToolCallEndEvent.result event with
  | Ok result => negb (default false (is_error result))
  | Err _ => false
  end.

(** * Agents *)

Module CollabAgentSpawnBeginEvent.
Record t := mk {
  call_id : str; started_at_ms : Z; sender_thread_id : ThreadId; prompt : str; model : str;
  reasoning_effort : ReasoningEffort
}.
End CollabAgentSpawnBeginEvent.

Module CollabAgentSpawnEndEvent.
Record t := mk {
  call_id : str; completed_at_ms : Z; sender_thread_id : ThreadId; new_thread_id : option ThreadId;
  new_agent_nickname : option str; new_agent_role : option str; prompt : str; model : str;
  reasoning_effort : ReasoningEffort; status : AgentStatus.t
}.
End CollabAgentSpawnEndEvent.

Module CollabAgentInteractionBeginEvent.
Record t := mk {
  call_id : str; started_at_ms : Z; sender_thread_id : ThreadId; receiver_thread_id : ThreadId; prompt : str
}.
End CollabAgentInteractionBeginEvent.

Module CollabAgentInteractionEndEvent.
Record t := mk {
  call_id : str; completed_at_ms : Z; sender_thread_id : ThreadId; receiver_thread_id : ThreadId;
  receiver_agent_nickname : option str; receiver_agent_role : option str; prompt : str;
  status : AgentStatus.t
}.
End CollabAgentInteractionEndEvent.

Module SubAgentActivityEvent.
Record t := mk {
  event_id : str; occurred_at_ms : Z; agent_thread_id : ThreadId; agent_path : str;
  kind : CoreSubAgentActivityKind.t
}.
End SubAgentActivityEvent.

Module CollabWaitingBeginEvent.
Record t := mk {
  started_at_ms : Z; sender_thread_id : ThreadId; receiver_thread_ids : list ThreadId;
  receiver_agents : list CollabAgentRef; call_id : str
}.
End CollabWaitingBeginEvent.

Record CollabAgentStatusEntry := mkStatusEntry {
  entry_thread_id : ThreadId; entry_agent_nickname : option str; entry_agent_role : option str;
  entry_status : AgentStatus.t
}.

Module CollabWaitingEndEvent.
Record t := mk {
  sender_thread_id : ThreadId; call_id : str; completed_at_ms : Z;
  agent_statuses : list CollabAgentStatusEntry; statuses : gmap ThreadId AgentStatus.t
}.
End CollabWaitingEndEvent.

(** [CollabCloseBeginEvent]; [CollabResumeBeginEvent] has a nickname and a role more. *)
Module CollabCloseBeginEvent.
Record t := mk {
  call_id : str; started_at_ms : Z; sender_thread_id : ThreadId; receiver_thread_id : ThreadId
}.
End CollabCloseBeginEvent.

Module CollabCloseEndEvent.
Record t := mk {
  call_id : str; completed_at_ms : Z; sender_thread_id : ThreadId; receiver_thread_id : ThreadId;
  receiver_agent_nickname : option str; receiver_agent_role : option str; status : AgentStatus.t
}.
End CollabCloseEndEvent.

Module CollabResumeBeginEvent.
Record t := mk {
  call_id : str; started_at_ms : Z; sender_thread_id : ThreadId; receiver_thread_id : ThreadId;
  receiver_agent_nickname : option str; receiver_agent_role : option str
}.
End CollabResumeBeginEvent.

Module CollabResumeEndEvent.
Record t := mk {
  call_id : str; completed_at_ms : Z; sender_thread_id : ThreadId; receiver_thread_id : ThreadId;
  receiver_agent_nickname : option str; receiver_agent_role : option str; status : AgentStatus.t
}.
End CollabResumeEndEvent.

(** * Reviews, items and turns *)

Module EnteredReviewModeEvent.
Record t := mk {
  target : ReviewTarget; user_facing_hint : option str; turn_id : option str; item_id : option str
}.
End EnteredReviewModeEvent.

Module ExitedReviewModeEvent.
Record t {O : Outside} := mk {
  turn_id : option str; item_id : option str; review_output : option ReviewOutputEvent
}.
Arguments mk {O}.
End ExitedReviewModeEvent.

Module ItemStartedEvent.
Record t {O : Outside} := mk {
  thread_id : ThreadId; turn_id : str; item : TurnItem.t; started_at_ms : Z
}.
Arguments mk {O}.
End ItemStartedEvent.

Module ItemCompletedEvent.
Record t {O : Outside} := mk {
  thread_id : ThreadId; turn_id : str; item : TurnItem.t; completed_at_ms : Z
}.
Arguments mk {O}.
End ItemCompletedEvent.

Inductive TurnAbortReason := InterruptedByUser | Replaced | ReviewEnded | BudgetLimited.
Inductive ModeKind := PlanMode | DefaultMode | PairProgramming | ExecuteMode.

Module TurnAbortedEvent.
Record t := mk {
  turn_id : option str; reason : TurnAbortReason; started_at : option Z; completed_at : option Z;
  duration_ms : option Z
}.
End TurnAbortedEvent.

Module TurnStartedEvent.
Record t := mk {
  turn_id : str; trace_id : option str; started_at : option Z; model_context_window : option Z;
  collaboration_mode_kind : ModeKind
}.
End TurnStartedEvent.

Module TurnCompleteEvent.
Record t := mk {
  turn_id : str; last_agent_message : option str; error : option ErrorEvent.t; started_at : option Z;
  completed_at : option Z; duration_ms : option Z; time_to_first_token_ms : option Z
}.
End TurnCompleteEvent.

Module CompactedItem.
Record t {O : Outside} := mk {
  message : str; replacement_history : option (list (ResponseItem Json)); window_number : option N;
  first_window_id : option str; previous_window_id : option str; window_id : option str
}.
Arguments mk {O}.
End CompactedItem.

(** [EventMsg]; a payload of one field is that field. *)
Module EventMsg.
Inductive t {O : Outside} :=
| UserMessage (payload : UserMessageEvent.t)
| AgentMessage (payload : AgentMessageEvent.t)
| AgentReasoning (text : str)
| AgentReasoningRawContent (text : str)
| WebSearchBegin (call_id : str)
| WebSearchEnd (payload : WebSearchEndEvent.t)
| ExecCommandBegin (payload : ExecCommandBeginEvent.t)
| ExecCommandEnd (payload : ExecCommandEndEvent.t)
| GuardianAssessment (payload : GuardianAssessmentEvent.t)
| ApplyPatchApprovalRequest (payload : ApplyPatchApprovalRequestEvent.t)
| PatchApplyBegin (payload : PatchApplyBeginEvent.t)
| PatchApplyEnd (payload : PatchApplyEndEvent.t)
| DynamicToolCallRequest (payload : DynamicToolCallRequest.t)
| DynamicToolCallResponse (payload : DynamicToolCallResponseEvent.t)
| McpToolCallBegin (payload : McpToolCallBeginEvent.t)
| McpToolCallEnd (payload : McpToolCallEndEvent.t)
| ViewImageToolCall (call_id : str) (path : PathUri)
| ImageGenerationBegin (call_id : str)
| ImageGenerationEnd (payload : ImageGenerationEndEvent.t)
| CollabAgentSpawnBegin (payload : CollabAgentSpawnBeginEvent.t)
| CollabAgentSpawnEnd (payload : CollabAgentSpawnEndEvent.t)
| CollabAgentInteractionBegin (payload : CollabAgentInteractionBeginEvent.t)
| CollabAgentInteractionEnd (payload : CollabAgentInteractionEndEvent.t)
| SubAgentActivity (payload : SubAgentActivityEvent.t)
| CollabWaitingBegin (payload : CollabWaitingBeginEvent.t)
| CollabWaitingEnd (payload : CollabWaitingEndEvent.t)
| CollabCloseBegin (payload : CollabCloseBeginEvent.t)
| CollabCloseEnd (payload : CollabCloseEndEvent.t)
| CollabResumeBegin (payload : CollabResumeBeginEvent.t)
| CollabResumeEnd (payload : CollabResumeEndEvent.t)
| ContextCompacted
| EnteredReviewMode (payload : EnteredReviewModeEvent.t)
| ExitedReviewMode (payload : ExitedReviewModeEvent.t)
| ItemStarted (payload : ItemStartedEvent.t)
| ItemCompleted (payload : ItemCompletedEvent.t)
| Error (payload : ErrorEvent.t)
| ThreadRolledBack (num_turns : N)
| TurnAborted (payload : TurnAbortedEvent.t)
| TurnStarted (payload : TurnStartedEvent.t)
| TurnComplete (payload : TurnCompleteEvent.t)
| OtherEvent.
End EventMsg.

(** [RolloutItem]; the session's metadata, the context of a turn and the state
    of the world are not read by what is modelled. *)
Module RolloutItem.
Inductive t {O : Outside} :=
| SessionMeta
| ResponseItem (item : Item.ResponseItem Json)
| InterAgentCommunication (trigger_turn : bool)
| InterAgentCommunicationMetadata (trigger_turn : bool)
| Compacted (payload : CompactedItem.t)
| TurnContext
| WorldState
| EventMsg (event : ThreadEvents.EventMsg.t).
End RolloutItem.

(** * Builders of items from events ([item_builders.rs]) *)

Section builders.
Context {O : Outside}.

Definition build_file_change_approval_request_item (payload : ApplyPatchApprovalRequestEvent.t) : ThreadItem.t :=
  ThreadItem.FileChange (ApplyPatchApprovalRequestEvent.call_id payload)
    (convert_patch_changes (ApplyPatchApprovalRequestEvent.changes payload)) PatchApplyStatus.InProgress.

Definition build_file_change_begin_item (payload : PatchApplyBeginEvent.t) : ThreadItem.t :=
  ThreadItem.FileChange (PatchApplyBeginEvent.call_id payload)
    (convert_patch_changes (PatchApplyBeginEvent.changes payload)) PatchApplyStatus.InProgress.

Definition build_file_change_end_item (payload : PatchApplyEndEvent.t) : ThreadItem.t :=
  ThreadItem.FileChange (PatchApplyEndEvent.call_id payload)
    (convert_patch_changes (PatchApplyEndEvent.changes payload))
    (patch_apply_status (PatchApplyEndEvent.status payload)).

Definition build_command_execution_begin_item (payload : ExecCommandBeginEvent.t) : ThreadItem.t :=
  ThreadItem.CommandExecution (ExecCommandBeginEvent.call_id payload)
    (shlex_join (ExecCommandBeginEvent.command payload))
    (legacy_of_path_uri (ExecCommandBeginEvent.cwd payload)) (ExecCommandBeginEvent.process_id payload)
    (command_source_of_core (ExecCommandBeginEvent.source payload)) CommandExecutionStatus.InProgress
    (command_actions_for_path_uri (ExecCommandBeginEvent.parsed_cmd payload) (ExecCommandBeginEvent.cwd payload))
    None None None.

(** [i64::try_from(..).unwrap_or(i64::MAX)] *)
Definition build_command_execution_end_item (payload : ExecCommandEndEvent.t) : ThreadItem.t :=
  let aggregated_output :=
    if is_nil (ExecCommandEndEvent.aggregated_output payload) then None
    else Some (ExecCommandEndEvent.aggregated_output payload) in
  let duration_ms := default i64_max (i64_try_from (as_millis (ExecCommandEndEvent.duration payload))) in
  ThreadItem.CommandExecution (ExecCommandEndEvent.call_id payload)
    (shlex_join (ExecCommandEndEvent.command payload))
    (legacy_of_path_uri (ExecCommandEndEvent.cwd payload)) (ExecCommandEndEvent.process_id payload)
    (command_source_of_core (ExecCommandEndEvent.source payload))
    (command_status_of_exec (ExecCommandEndEvent.status payload))
    (command_actions_for_path_uri (ExecCommandEndEvent.parsed_cmd payload) (ExecCommandEndEvent.cwd payload))
    aggregated_output (Some (ExecCommandEndEvent.exit_code payload)) (Some duration_ms).

(** The words of an [Execve]: the program in place of the first argument. *)
Definition execve_words (program : str) (argv : list str) : list str :=
  if is_nil argv then [program] else program :: drop 1 argv.

Definition build_item_from_guardian_event (assessment : GuardianAssessmentEvent.t)
    (status : CommandExecutionStatus.t) : option ThreadItem.t :=
  match GuardianAssessmentEvent.action assessment with
  | GuardianAssessmentAction.Command _ command cwd =>
      id ← GuardianAssessmentEvent.target_item_id assessment;
      Some (ThreadItem.CommandExecution id command (legacy_of_abs_path cwd) None
              CommandExecutionSource.Agent status [CommandAction.Unknown command] None None None)
  | GuardianAssessmentAction.Execve _ program argv cwd =>
      id ← GuardianAssessmentEvent.target_item_id assessment;
      let argv := execve_words program argv in
      let command := shlex_join argv in
      let parsed_cmd := parse_command argv in
      let command_actions :=
        if is_nil parsed_cmd then [CommandAction.Unknown command]
        else (λ parsed, from_core_with_cwd parsed cwd) <$> parsed_cmd in
      Some (ThreadItem.CommandExecution id command (legacy_of_abs_path cwd) None
              CommandExecutionSource.Agent status command_actions None None None)
  | GuardianAssessmentAction.ApplyPatch _ _
  | GuardianAssessmentAction.NetworkAccess _ _ _ _
  | GuardianAssessmentAction.McpToolCall _ _ _ _ _
  | GuardianAssessmentAction.RequestPermissions _ _ => None
  end.

End builders.
