(* ===== verification/ThreadHistory.v ===== *)
(** The history of a thread as turns of items, rebuilt from the events of a
    rollout ([ThreadHistoryBuilder] of
    [app-server-protocol/src/protocol/thread_history.rs]): the state of the
    builder, the operations on turns and items, one handler per event, the
    change set a tracked handler returns, and the accumulator that merges the
    change sets of a batch.  A handler takes and returns the builder; the
    indexes the source counts stay far below the limits of their types and are
    unbounded here. *)

From S2P Require Import Prelude Text Machine ResponseItems ContextFragments ThreadItems ThreadEvents.

(** * Turns *)

Inductive TurnStatus := Completed | Interrupted | Failed | InProgress.
#[export] Instance TurnStatus_eq_dec : EqDecision TurnStatus.
Proof. solve_decision. Defined.

Record TurnError := mkTurnError {
  error_message : str; error_codex_error_info : option CodexErrorInfo.t;
  additional_details : option str
}.

Inductive TurnItemsView := NotLoaded | Summary | Full.

(** What a turn has besides its items: [ThreadHistoryTurnChange]. *)
Record ThreadHistoryTurnChange := mkTurnChange {
  change_turn_id : str; change_status : TurnStatus; change_error : option TurnError;
  change_started_at : option Z; change_completed_at : option Z; change_duration_ms : option Z
}.

Section model.
Context {O : Outside} {HT : HistoryTexts}.

(** [Turn] *)
Record Turn := mkTurn {
  turn_id : str; turn_items : list ThreadItem.t; items_view : TurnItemsView; turn_status : TurnStatus;
  turn_error : option TurnError; turn_started_at : option Z; turn_completed_at : option Z;
  turn_duration_ms : option Z
}.

Record PendingTurn := mkPending {
  id : str; items : list ThreadItem.t; error : option TurnError; status : TurnStatus;
  started_at : option Z; completed_at : option Z; duration_ms : option Z;
  opened_explicitly : bool; saw_compaction : bool; rollout_start_index : N
}.

Definition set_items (items : list ThreadItem.t) (t : PendingTurn) : PendingTurn :=
  mkPending (id t) items (error t) (status t) (started_at t) (completed_at t) (duration_ms t)
    (opened_explicitly t) (saw_compaction t) (rollout_start_index t).
Definition set_error (error : option TurnError) (t : PendingTurn) : PendingTurn :=
  mkPending (id t) (items t) error (status t) (started_at t) (completed_at t) (duration_ms t)
    (opened_explicitly t) (saw_compaction t) (rollout_start_index t).
(** [PendingTurn::with_status], [with_started_at] and [opened_explicitly] *)
Definition with_status (status : TurnStatus) (t : PendingTurn) : PendingTurn :=
  mkPending (id t) (items t) (error t) status (started_at t) (completed_at t) (duration_ms t)
    (opened_explicitly t) (saw_compaction t) (rollout_start_index t).
Definition with_started_at (started_at : option Z) (t : PendingTurn) : PendingTurn :=
  mkPending (id t) (items t) (error t) (status t) started_at (completed_at t) (duration_ms t)
    (opened_explicitly t) (saw_compaction t) (rollout_start_index t).
Definition mark_opened_explicitly (t : PendingTurn) : PendingTurn :=
  mkPending (id t) (items t) (error t) (status t) (started_at t) (completed_at t) (duration_ms t)
    true (saw_compaction t) (rollout_start_index t).
Definition set_times (completed_at duration_ms : option Z) (t : PendingTurn) : PendingTurn :=
  mkPending (id t) (items t) (error t) (status t) (started_at t) completed_at duration_ms
    (opened_explicitly t) (saw_compaction t) (rollout_start_index t).
Definition mark_compaction (t : PendingTurn) : PendingTurn :=
  mkPending (id t) (items t) (error t) (status t) (started_at t) (completed_at t) (duration_ms t)
    (opened_explicitly t) true (rollout_start_index t).

(** [Turn::from] a [PendingTurn], owned or borrowed *)
Definition turn_from (value : PendingTurn) : Turn :=
  mkTurn (id value) (items value) Full (status value) (error value) (started_at value)
    (completed_at value) (duration_ms value).

Definition set_turn_items (items : list ThreadItem.t) (t : Turn) : Turn :=
  mkTurn (turn_id t) items (items_view t) (turn_status t) (turn_error t) (turn_started_at t)
    (turn_completed_at t) (turn_duration_ms t).
(** The assignments of [handle_turn_aborted] and [handle_turn_complete] to a finished turn. *)
Definition set_turn_end (status : TurnStatus) (completed_at duration_ms : option Z) (t : Turn) : Turn :=
  mkTurn (turn_id t) (turn_items t) (items_view t) status (turn_error t) (turn_started_at t)
    completed_at duration_ms.

Definition from_pending_turn (turn : PendingTurn) : ThreadHistoryTurnChange :=
  mkTurnChange (id turn) (status turn) (error turn) (started_at turn) (completed_at turn) (duration_ms turn).
Definition change_from_turn (turn : Turn) : ThreadHistoryTurnChange :=
  mkTurnChange (turn_id turn) (turn_status turn) (turn_error turn) (turn_started_at turn)
    (turn_completed_at turn) (turn_duration_ms turn).

(** * Changes *)

Record ThreadHistoryItemChange := mkItemChange { item_turn_id : str; changed_item : ThreadItem.t }.

Record ThreadHistoryChangeSet := mkChangeSet {
  changed_items : list ThreadHistoryItemChange;
  changed_turns : list ThreadHistoryTurnChange;
  removed_turn_ids : list str
}.
Definition empty_changes : ThreadHistoryChangeSet := mkChangeSet [] [] [].

(** [ThreadHistoryChangeSet::is_empty] *)
Definition is_empty (c : ThreadHistoryChangeSet) : bool :=
  is_nil (changed_items c) && is_nil (changed_turns c) && is_nil (removed_turn_ids c).

(** * The builder *)

(** [uuids] counts the ids drawn from [Uuid::now_v7]. *)
Record ThreadHistoryBuilder := mkBuilder {
  turns : list Turn; current_turn : option PendingTurn; next_item_index : Z;
  current_rollout_index : N; next_rollout_index : N;
  active_change_set : option ThreadHistoryChangeSet; uuids : nat
}.
Implicit Types (b : ThreadHistoryBuilder).

(** [ThreadHistoryBuilder::new]; the host has drawn [uuids] ids so far. *)
Definition new (uuids : nat) : ThreadHistoryBuilder := mkBuilder [] None 1 0 0 None uuids.
Definition reset b : ThreadHistoryBuilder := new (uuids b).

Definition set_turns (turns : list Turn) b : ThreadHistoryBuilder :=
  mkBuilder turns (current_turn b) (next_item_index b) (current_rollout_index b)
    (next_rollout_index b) (active_change_set b) (uuids b).
Definition set_current_turn (turn : option PendingTurn) b : ThreadHistoryBuilder :=
  mkBuilder (turns b) turn (next_item_index b) (current_rollout_index b)
    (next_rollout_index b) (active_change_set b) (uuids b).
Definition set_next_item_index (index : Z) b : ThreadHistoryBuilder :=
  mkBuilder (turns b) (current_turn b) index (current_rollout_index b)
    (next_rollout_index b) (active_change_set b) (uuids b).
Definition set_active_change_set (changes : option ThreadHistoryChangeSet) b : ThreadHistoryBuilder :=
  mkBuilder (turns b) (current_turn b) (next_item_index b) (current_rollout_index b)
    (next_rollout_index b) changes (uuids b).
Definition draw_uuid b : str * ThreadHistoryBuilder :=
  (new_uuid (uuids b),
   mkBuilder (turns b) (current_turn b) (next_item_index b) (current_rollout_index b)
     (next_rollout_index b) (active_change_set b) (S (uuids b))).

(** ** Recording changes *)

Definition is_tracking_changes b : bool := bool_decide (is_Some (active_change_set b)).

Definition record_changed_item (turn_id : str) (item : ThreadItem.t) b : ThreadHistoryBuilder :=
  match active_change_set b with
  | Some c => set_active_change_set (Some (mkChangeSet (changed_items c ++ [mkItemChange turn_id item])
                                             (changed_turns c) (removed_turn_ids c))) b
  | None => b
  end.
Definition record_changed_turn (turn : ThreadHistoryTurnChange) b : ThreadHistoryBuilder :=
  match active_change_set b with
  | Some c => set_active_change_set (Some (mkChangeSet (changed_items c) (changed_turns c ++ [turn])
                                             (removed_turn_ids c))) b
  | None => b
  end.
Definition record_changed_pending_turn (turn : PendingTurn) b : ThreadHistoryBuilder :=
  if is_tracking_changes b then record_changed_turn (from_pending_turn turn) b else b.
Definition record_removed_turn_ids (ids : list str) b : ThreadHistoryBuilder :=
  match active_change_set b with
  | Some c => set_active_change_set (Some (mkChangeSet (changed_items c) (changed_turns c)
                                             (removed_turn_ids c ++ ids))) b
  | None => b
  end.

(** ** Turns *)

Definition finish_current_turn b : ThreadHistoryBuilder :=
  match current_turn b with
  | Some turn =>
      let b := set_current_turn None b in
      if is_nil (items turn) && negb (opened_explicitly turn) && negb (saw_compaction turn) then b
      else set_turns (turns b ++ [turn_from turn]) b
  | None => b
  end.

(** [ThreadHistoryBuilder::finish] *)
Definition finish b : list Turn := turns (finish_current_turn b).

Definition new_turn (turn_id : option str) b : PendingTurn * ThreadHistoryBuilder :=
  let '(turn_id, b) :=
    match turn_id with
    | Some turn_id => (turn_id, b)
    | None =>
        if decide (next_rollout_index b = 0%N) then draw_uuid b
        else (lit "rollout-" ++ decimal_N (current_rollout_index b), b)
    end in
  (mkPending turn_id [] None Completed None None None false false (current_rollout_index b), b).

(** The turn, which is the current one of the returned builder. *)
Definition ensure_turn b : PendingTurn * ThreadHistoryBuilder :=
  match current_turn b with
  | Some turn => (turn, b)
  | None =>
      let '(turn, b) := new_turn None b in
      (turn, set_current_turn (Some turn) (record_changed_pending_turn turn b))
  end.

Definition next_item_id b : str * ThreadHistoryBuilder :=
  (lit "item-" ++ decimal_Z (next_item_index b), set_next_item_index (next_item_index b + 1) b).

(** [iter().find(|turn| turn.id == turn_id)], with the position *)
Definition find_turn (key : str) (ts : list Turn) : option (nat * Turn) :=
  list_find (λ turn, turn_id turn = key) ts.

(** The items after [upsert_turn_item]; it returns a reference to [item]. *)
Definition upsert_turn_item (items : list ThreadItem.t) (item : ThreadItem.t) : list ThreadItem.t :=
  match list_find (λ existing_item, item_id existing_item = item_id item) items with
  | Some (existing_item_index, _) => <[existing_item_index := item]> items
  | None => items ++ [item]
  end.

Definition push_item_in_current_turn (item : ThreadItem.t) b : ThreadHistoryBuilder :=
  let '(turn, b) := ensure_turn b in
  record_changed_item (id turn) item
    (set_current_turn (Some (set_items (items turn ++ [item]) turn)) b).

Definition upsert_item_in_current_turn (item : ThreadItem.t) b : ThreadHistoryBuilder :=
  let '(turn, b) := ensure_turn b in
  record_changed_item (id turn) item
    (set_current_turn (Some (set_items (upsert_turn_item (items turn) item) turn)) b).

(** A turn that is not known drops the item; the warning is left out. *)
Definition upsert_item_in_finished_turn (key : str) (item : ThreadItem.t) b : ThreadHistoryBuilder :=
  match find_turn key (turns b) with
  | Some (i, turn) =>
      record_changed_item (turn_id turn) item
        (set_turns (<[i := set_turn_items (upsert_turn_item (turn_items turn) item) turn]> (turns b)) b)
  | None => b
  end.
Definition upsert_item_in_turn_id (key : str) (item : ThreadItem.t) b : ThreadHistoryBuilder :=
  match current_turn b with
  | Some turn =>
      if decide (id turn = key) then
        record_changed_item (id turn) item
          (set_current_turn (Some (set_items (upsert_turn_item (items turn) item) turn)) b)
      else upsert_item_in_finished_turn key item b
  | None => upsert_item_in_finished_turn key item b
  end.

(** The choice several handlers make: an event without a turn is of the current one. *)
Definition upsert_item_of_event (key : str) (item : ThreadItem.t) b : ThreadHistoryBuilder :=
  if is_nil key then upsert_item_in_current_turn item b else upsert_item_in_turn_id key item b.

Definition upsert_review_mode_item (key : option str) (item : ThreadItem.t) b : ThreadHistoryBuilder :=
  match key with
  | None => upsert_item_in_current_turn item b
  | Some key =>
      let current_turn_matches := is_some_and (λ turn, bool_decide (id turn = key)) (current_turn b) in
      let b :=
        if negb current_turn_matches && negb (existsb (λ turn, bool_decide (turn_id turn = key)) (turns b)) then
          let b := finish_current_turn b in
          let '(turn, b) := new_turn (Some key) b in
          set_current_turn (Some turn) (record_changed_pending_turn turn b)
        else b in
      upsert_item_in_turn_id key item b
  end.

(** * Handlers of messages *)

Definition next_item_id_or (item_id : option str) b : str * ThreadHistoryBuilder :=
  match item_id with Some item_id => (item_id, b) | None => next_item_id b end.

(** [parse_hook_prompt_message] of [protocol/src/items.rs], with [HookPromptItem::from_fragments]:
    a message without an id draws one. *)
Definition parse_hook_prompt_content (content_item : Content.t) : option HookPromptFragment :=
  match content_item with
  | Content.InputText text => '(text, hook_run_id) ← parse_hook_prompt_fragment text; Some (mkFragment text hook_run_id)
  | _ => None
  end.
Definition parse_hook_prompt_message (message_id : option str) (content : list Content.t) b :
    option HookPromptItem * ThreadHistoryBuilder :=
  match mapM parse_hook_prompt_content content with
  | None | Some [] => (None, b)
  | Some fragments =>
      let '(prompt_id, b) := match message_id with Some message_id => (message_id, b) | None => draw_uuid b end in
      (Some (mkHookPrompt prompt_id fragments), b)
  end.

Definition handle_response_item (item : ResponseItem Json) b : ThreadHistoryBuilder :=
  match item with
  | Message message_id role content _ _ =>
      if decide (role ≠ lit "user") then b
      else match parse_hook_prompt_message message_id content b with
           | (None, b) => b
           | (Some hook_prompt, b) =>
               push_item_in_current_turn
                 (ThreadItem.HookPrompt (hook_prompt_id hook_prompt) (hook_prompt_fragments hook_prompt)) b
           end
  | _ => b
  end.

Definition build_user_inputs (payload : UserMessageEvent.t) : list UserInput.t :=
  (if is_nil (trim (UserMessageEvent.message payload)) then []
   else [UserInput.Text (UserMessageEvent.message payload) (UserMessageEvent.text_elements payload)]) ++
  imap (λ idx image, UserInput.Image (mjoin (UserMessageEvent.image_details payload !! idx)) image)
    (default [] (UserMessageEvent.images payload)) ++
  imap (λ idx path, UserInput.LocalImage (mjoin (UserMessageEvent.local_image_details payload !! idx)) path)
    (UserMessageEvent.local_images payload) ++
  (UserInput.Audio <$> default [] (UserMessageEvent.audio payload)) ++
  (UserInput.LocalAudio <$> UserMessageEvent.local_audio payload).

(** An implicit turn ends at the next message, unless a compaction is all it has. *)
Definition closes_before_user_message (turn : PendingTurn) : bool :=
  negb (opened_explicitly turn) && negb (saw_compaction turn && is_nil (items turn)).

Definition handle_user_message (payload : UserMessageEvent.t) b : ThreadHistoryBuilder :=
  let b := if is_some_and closes_before_user_message (current_turn b) then finish_current_turn b else b in
  let '(message_id, b) := next_item_id b in
  push_item_in_current_turn
    (ThreadItem.UserMessage message_id (UserMessageEvent.client_id payload) (build_user_inputs payload)) b.

Definition handle_agent_message (text : str) (phase : option MessagePhase)
    (memory_citation : option MemoryCitation) b : ThreadHistoryBuilder :=
  if is_nil text then b
  else let '(message_id, b) := next_item_id b in
       push_item_in_current_turn (ThreadItem.AgentMessage message_id text phase memory_citation) b.

(** [handle_agent_reasoning] and [handle_agent_reasoning_raw_content]: a text is
    added to a reasoning item at the end of the turn, or is a new item. *)
Definition add_summary (text : str) (item : ThreadItem.t) : option ThreadItem.t :=
  match item with
  | ThreadItem.Reasoning id summary content => Some (ThreadItem.Reasoning id (summary ++ [text]) content)
  | _ => None
  end.
Definition add_raw_content (text : str) (item : ThreadItem.t) : option ThreadItem.t :=
  match item with
  | ThreadItem.Reasoning id summary content => Some (ThreadItem.Reasoning id summary (content ++ [text]))
  | _ => None
  end.

Definition handle_agent_reasoning (text : str) b : ThreadHistoryBuilder :=
  if is_nil text then b
  else
    let '(turn, b) := ensure_turn b in
    match last (items turn) ≫= add_summary text with
    | Some item =>
        record_changed_item (id turn) item
          (set_current_turn (Some (set_items (update_last (λ _, item) (items turn)) turn)) b)
    | None =>
        let '(reasoning_id, b) := next_item_id b in
        push_item_in_current_turn (ThreadItem.Reasoning reasoning_id [text] []) b
    end.

Definition handle_agent_reasoning_raw_content (text : str) b : ThreadHistoryBuilder :=
  if is_nil text then b
  else
    let '(turn, b) := ensure_turn b in
    match last (items turn) ≫= add_raw_content text with
    | Some item =>
        record_changed_item (id turn) item
          (set_current_turn (Some (set_items (update_last (λ _, item) (items turn)) turn)) b)
    | None =>
        let '(reasoning_id, b) := next_item_id b in
        push_item_in_current_turn (ThreadItem.Reasoning reasoning_id [] [text]) b
    end.

Definition handle_context_compacted b : ThreadHistoryBuilder :=
  let '(compaction_id, b) := next_item_id b in
  push_item_in_current_turn (ThreadItem.ContextCompaction compaction_id) b.

(** [handle_compacted] *)
Definition handle_compacted (payload : CompactedItem.t) b : ThreadHistoryBuilder :=
  let '(turn, b) := ensure_turn b in set_current_turn (Some (mark_compaction turn)) b.

(** * Handlers of items *)

Definition should_upsert (item : TurnItem.t) : bool :=
  match item with
  | TurnItem.Plan _ text => negb (is_nil text)
  | TurnItem.HookPrompt _ | TurnItem.CommandExecution _ | TurnItem.DynamicToolCall _
  | TurnItem.CollabAgentToolCall _ | TurnItem.SubAgentActivity _ _ _ _ | TurnItem.Extension _
  | TurnItem.EnteredReviewMode _ _ _ | TurnItem.ExitedReviewMode _ _ => true
  | TurnItem.UserMessage _ _ _ | TurnItem.AgentMessage _ | TurnItem.Reasoning _ _ _
  | TurnItem.WebSearch _ _ _ _ | TurnItem.ImageView _ _ | TurnItem.ImageGeneration _
  | TurnItem.FileChange _ _ _ _ _ _ | TurnItem.McpToolCall _ | TurnItem.ContextCompaction _ => false
  end.

Definition is_review_mode_item (item : TurnItem.t) : bool :=
  match item with TurnItem.EnteredReviewMode _ _ _ | TurnItem.ExitedReviewMode _ _ => true | _ => false end.

Definition handle_materialized_item_lifecycle (key : str) (item : TurnItem.t) b : ThreadHistoryBuilder :=
  if should_upsert item then
    if is_review_mode_item item then upsert_review_mode_item (Some key) (thread_item item) b
    else upsert_item_in_turn_id key (thread_item item) b
  else b.

Definition handle_item_started (payload : ItemStartedEvent.t) b : ThreadHistoryBuilder :=
  handle_materialized_item_lifecycle (ItemStartedEvent.turn_id payload) (ItemStartedEvent.item payload) b.
Definition handle_item_completed (payload : ItemCompletedEvent.t) b : ThreadHistoryBuilder :=
  handle_materialized_item_lifecycle (ItemCompletedEvent.turn_id payload) (ItemCompletedEvent.item payload) b.

Definition handle_entered_review_mode (payload : EnteredReviewModeEvent.t) b : ThreadHistoryBuilder :=
  let review := default (lit "Review requested.") (EnteredReviewModeEvent.user_facing_hint payload) in
  let '(review_id, b) := next_item_id_or (EnteredReviewModeEvent.item_id payload) b in
  upsert_review_mode_item (EnteredReviewModeEvent.turn_id payload) (ThreadItem.EnteredReviewMode review_id review) b.

Definition handle_exited_review_mode (payload : ExitedReviewModeEvent.t) b : ThreadHistoryBuilder :=
  let review := review_output_text (ExitedReviewModeEvent.review_output payload) in
  let '(review_id, b) := next_item_id_or (ExitedReviewModeEvent.item_id payload) b in
  upsert_review_mode_item (ExitedReviewModeEvent.turn_id payload) (ThreadItem.ExitedReviewMode review_id review) b.

(** * Handlers of tool calls *)

Definition handle_web_search_begin (call_id : str) b : ThreadHistoryBuilder :=
  upsert_item_in_current_turn (ThreadItem.WebSearch (mkWebSearch call_id [] None None)) b.
Definition handle_web_search_end (payload : WebSearchEndEvent.t) b : ThreadHistoryBuilder :=
  upsert_item_in_current_turn
    (ThreadItem.WebSearch
       (mkWebSearch (WebSearchEndEvent.call_id payload) (WebSearchEndEvent.query payload)
          (Some (web_search_action_from_core (WebSearchEndEvent.action payload)))
          (WebSearchEndEvent.results payload))) b.

Definition handle_exec_command_begin (payload : ExecCommandBeginEvent.t) b : ThreadHistoryBuilder :=
  upsert_item_in_turn_id (ExecCommandBeginEvent.turn_id payload) (build_command_execution_begin_item payload) b.
Definition handle_exec_command_end (payload : ExecCommandEndEvent.t) b : ThreadHistoryBuilder :=
  upsert_item_in_turn_id (ExecCommandEndEvent.turn_id payload) (build_command_execution_end_item payload) b.

Definition guardian_command_status (status : GuardianAssessmentStatus) : option CommandExecutionStatus.t :=
  match status with
  | GuardianInProgress => Some CommandExecutionStatus.InProgress
  | Denied | Aborted => Some CommandExecutionStatus.Declined
  | TimedOut => Some CommandExecutionStatus.Failed
  | Approved => None
  end.
Definition handle_guardian_assessment (payload : GuardianAssessmentEvent.t) b : ThreadHistoryBuilder :=
  match guardian_command_status (GuardianAssessmentEvent.status payload)
          ≫= build_item_from_guardian_event payload with
  | Some item => upsert_item_of_event (GuardianAssessmentEvent.turn_id payload) item b
  | None => b
  end.

Definition handle_apply_patch_approval_request (payload : ApplyPatchApprovalRequestEvent.t) b : ThreadHistoryBuilder :=
  upsert_item_of_event (ApplyPatchApprovalRequestEvent.turn_id payload)
    (build_file_change_approval_request_item payload) b.
Definition handle_patch_apply_begin (payload : PatchApplyBeginEvent.t) b : ThreadHistoryBuilder :=
  upsert_item_of_event (PatchApplyBeginEvent.turn_id payload) (build_file_change_begin_item payload) b.
Definition handle_patch_apply_end (payload : PatchApplyEndEvent.t) b : ThreadHistoryBuilder :=
  upsert_item_of_event (PatchApplyEndEvent.turn_id payload) (build_file_change_end_item payload) b.

Definition handle_dynamic_tool_call_request (payload : DynamicToolCallRequest.t) b : ThreadHistoryBuilder :=
  upsert_item_of_event (DynamicToolCallRequest.turn_id payload)
    (ThreadItem.DynamicToolCall (DynamicToolCallRequest.call_id payload)
       (DynamicToolCallRequest.namespace payload) (DynamicToolCallRequest.tool payload)
       (DynamicToolCallRequest.arguments payload) DynamicToolCallStatus.InProgress None None None) b.

(** [convert_dynamic_tool_content_items] *)
Definition convert_dynamic_tool_content_items (items : list CoreDynamicToolCallOutputContentItem.t) :
    list DynamicToolCallOutputContentItem.t := dynamic_content_item <$> items.

Definition handle_dynamic_tool_call_response (payload : DynamicToolCallResponseEvent.t) b : ThreadHistoryBuilder :=
  let status :=
    if DynamicToolCallResponseEvent.success payload then DynamicToolCallStatus.Completed
    else DynamicToolCallStatus.Failed in
  upsert_item_of_event (DynamicToolCallResponseEvent.turn_id payload)
    (ThreadItem.DynamicToolCall (DynamicToolCallResponseEvent.call_id payload)
       (DynamicToolCallResponseEvent.namespace payload) (DynamicToolCallResponseEvent.tool payload)
       (DynamicToolCallResponseEvent.arguments payload) status
       (Some (convert_dynamic_tool_content_items (DynamicToolCallResponseEvent.content_items payload)))
       (Some (DynamicToolCallResponseEvent.success payload))
       (i64_try_from (as_millis (DynamicToolCallResponseEvent.duration payload)))) b.

(** The context both handlers of an MCP call build, and the arguments with JSON's
    [null] for none. *)
Definition mcp_app_context (connector_id link_id resource_uri app_name action_name : option str) :
    option McpToolCallAppContext :=
  (λ connector_id, mkAppContext connector_id link_id resource_uri app_name action_name) <$> connector_id.
Definition invocation_arguments (invocation : McpInvocation.t) : Json :=
  default json_null (McpInvocation.arguments invocation).

Definition handle_mcp_tool_call_begin (payload : McpToolCallBeginEvent.t) b : ThreadHistoryBuilder :=
  let invocation := McpToolCallBeginEvent.invocation payload in
  let resource_uri := McpToolCallBeginEvent.mcp_app_resource_uri payload in
  upsert_item_in_current_turn
    (ThreadItem.McpToolCall (McpToolCallBeginEvent.call_id payload) (McpInvocation.server invocation)
       (McpInvocation.tool invocation) McpToolCallStatus.InProgress (invocation_arguments invocation)
       (mcp_app_context (McpToolCallBeginEvent.connector_id payload) (McpToolCallBeginEvent.link_id payload)
          resource_uri (McpToolCallBeginEvent.app_name payload) (McpToolCallBeginEvent.action_name payload))
       resource_uri (McpToolCallBeginEvent.plugin_id payload) None None None) b.

Definition handle_mcp_tool_call_end (payload : McpToolCallEndEvent.t) b : ThreadHistoryBuilder :=
  let invocation := McpToolCallEndEvent.invocation payload in
  let resource_uri := McpToolCallEndEvent.mcp_app_resource_uri payload in
  let status := if is_success payload then McpToolCallStatus.Completed else McpToolCallStatus.Failed in
  let '(result, error) :=
    match McpToolCallEndEvent.result payload with
    | Ok value => (Some (mkMcpResult (content value) (structured_content value) (meta value)), None)
    | Err message => (None, Some message)
    end in
  upsert_item_in_current_turn
    (ThreadItem.McpToolCall (McpToolCallEndEvent.call_id payload) (McpInvocation.server invocation)
       (McpInvocation.tool invocation) status (invocation_arguments invocation)
       (mcp_app_context (McpToolCallEndEvent.connector_id payload) (McpToolCallEndEvent.link_id payload)
          resource_uri (McpToolCallEndEvent.app_name payload) (McpToolCallEndEvent.action_name payload))
       resource_uri (McpToolCallEndEvent.plugin_id payload) result error
       (i64_try_from (as_millis (McpToolCallEndEvent.duration payload)))) b.

Definition handle_view_image_tool_call (call_id : str) (path : PathUri) b : ThreadHistoryBuilder :=
  upsert_item_in_current_turn (ThreadItem.ImageView call_id (legacy_of_path_uri path)) b.
Definition handle_image_generation_begin (call_id : str) b : ThreadHistoryBuilder :=
  upsert_item_in_current_turn (ThreadItem.ImageGeneration (mkImageGeneration call_id [] None [] None)) b.
Definition handle_image_generation_end (payload : ImageGenerationEndEvent.t) b : ThreadHistoryBuilder :=
  upsert_item_in_current_turn
    (ThreadItem.ImageGeneration
       (mkImageGeneration (ImageGenerationEndEvent.call_id payload) (ImageGenerationEndEvent.status payload)
          (ImageGenerationEndEvent.revised_prompt payload) (ImageGenerationEndEvent.result payload)
          (ImageGenerationEndEvent.saved_path payload))) b.

(** * Handlers of calls to agents *)

(** The status of a call of which an agent's status is known. *)
Definition is_failure (status : AgentStatus.t) : bool :=
  match status with AgentStatus.Errored _ | AgentStatus.NotFound => true | _ => false end.
Definition collab_call_status (status : AgentStatus.t) : CollabAgentToolCallStatus.t :=
  if is_failure status then CollabAgentToolCallStatus.Failed else CollabAgentToolCallStatus.Completed.

Definition handle_collab_agent_spawn_begin (payload : CollabAgentSpawnBeginEvent.t) b : ThreadHistoryBuilder :=
  upsert_item_in_current_turn
    (ThreadItem.CollabAgentToolCall (CollabAgentSpawnBeginEvent.call_id payload) CollabAgentTool.SpawnAgent
       CollabAgentToolCallStatus.InProgress (CollabAgentSpawnBeginEvent.sender_thread_id payload) []
       (Some (CollabAgentSpawnBeginEvent.prompt payload)) (Some (CollabAgentSpawnBeginEvent.model payload))
       (Some (CollabAgentSpawnBeginEvent.reasoning_effort payload)) ∅) b.

Definition handle_collab_agent_spawn_end (payload : CollabAgentSpawnEndEvent.t) b : ThreadHistoryBuilder :=
  let agent_status := CollabAgentSpawnEndEvent.status payload in
  let has_receiver := bool_decide (is_Some (CollabAgentSpawnEndEvent.new_thread_id payload)) in
  let status :=
    if is_failure agent_status then CollabAgentToolCallStatus.Failed
    else if has_receiver then CollabAgentToolCallStatus.Completed
    else CollabAgentToolCallStatus.Failed in
  let '(receiver_thread_ids, agents_states) :=
    match CollabAgentSpawnEndEvent.new_thread_id payload with
    | Some receiver_id => ([receiver_id], {[ receiver_id := collab_agent_state agent_status ]})
    | None => ([], ∅)
    end in
  upsert_item_in_current_turn
    (ThreadItem.CollabAgentToolCall (CollabAgentSpawnEndEvent.call_id payload) CollabAgentTool.SpawnAgent
       status (CollabAgentSpawnEndEvent.sender_thread_id payload) receiver_thread_ids
       (Some (CollabAgentSpawnEndEvent.prompt payload)) (Some (CollabAgentSpawnEndEvent.model payload))
       (Some (CollabAgentSpawnEndEvent.reasoning_effort payload)) agents_states) b.

Definition handle_collab_agent_interaction_begin (payload : CollabAgentInteractionBeginEvent.t) b : ThreadHistoryBuilder :=
  upsert_item_in_current_turn
    (ThreadItem.CollabAgentToolCall (CollabAgentInteractionBeginEvent.call_id payload) CollabAgentTool.SendInput
       CollabAgentToolCallStatus.InProgress (CollabAgentInteractionBeginEvent.sender_thread_id payload)
       [CollabAgentInteractionBeginEvent.receiver_thread_id payload]
       (Some (CollabAgentInteractionBeginEvent.prompt payload)) None None ∅) b.

Definition handle_collab_agent_interaction_end (payload : CollabAgentInteractionEndEvent.t) b : ThreadHistoryBuilder :=
  let receiver_id := CollabAgentInteractionEndEvent.receiver_thread_id payload in
  let agent_status := CollabAgentInteractionEndEvent.status payload in
  upsert_item_in_current_turn
    (ThreadItem.CollabAgentToolCall (CollabAgentInteractionEndEvent.call_id payload) CollabAgentTool.SendInput
       (collab_call_status agent_status) (CollabAgentInteractionEndEvent.sender_thread_id payload)
       [receiver_id] (Some (CollabAgentInteractionEndEvent.prompt payload)) None None
       {[ receiver_id := collab_agent_state agent_status ]}) b.

Definition handle_sub_agent_activity (payload : SubAgentActivityEvent.t) b : ThreadHistoryBuilder :=
  upsert_item_in_current_turn
    (ThreadItem.SubAgentActivity (SubAgentActivityEvent.event_id payload)
       (sub_agent_activity_kind (SubAgentActivityEvent.kind payload))
       (SubAgentActivityEvent.agent_thread_id payload) (SubAgentActivityEvent.agent_path payload)) b.

Definition handle_collab_waiting_begin (payload : CollabWaitingBeginEvent.t) b : ThreadHistoryBuilder :=
  upsert_item_in_current_turn
    (ThreadItem.CollabAgentToolCall (CollabWaitingBeginEvent.call_id payload) CollabAgentTool.Wait
       CollabAgentToolCallStatus.InProgress (CollabWaitingBeginEvent.sender_thread_id payload)
       (CollabWaitingBeginEvent.receiver_thread_ids payload) None None None ∅) b.

Definition handle_collab_waiting_end (payload : CollabWaitingEndEvent.t) b : ThreadHistoryBuilder :=
  let statuses := CollabWaitingEndEvent.statuses payload in
  let status :=
    if existsb (λ '(_, status), is_failure status) (map_to_list statuses)
    then CollabAgentToolCallStatus.Failed else CollabAgentToolCallStatus.Completed in
  let receiver_thread_ids := sort_by str_leb (map_to_list statuses).*1 in
  upsert_item_in_current_turn
    (ThreadItem.CollabAgentToolCall (CollabWaitingEndEvent.call_id payload) CollabAgentTool.Wait status
       (CollabWaitingEndEvent.sender_thread_id payload) receiver_thread_ids None None None
       (collab_agent_state <$> statuses)) b.

Definition handle_collab_close_begin (payload : CollabCloseBeginEvent.t) b : ThreadHistoryBuilder :=
  upsert_item_in_current_turn
    (ThreadItem.CollabAgentToolCall (CollabCloseBeginEvent.call_id payload) CollabAgentTool.CloseAgent
       CollabAgentToolCallStatus.InProgress (CollabCloseBeginEvent.sender_thread_id payload)
       [CollabCloseBeginEvent.receiver_thread_id payload] None None None ∅) b.

Definition handle_collab_close_end (payload : CollabCloseEndEvent.t) b : ThreadHistoryBuilder :=
  let receiver_id := CollabCloseEndEvent.receiver_thread_id payload in
  let agent_status := CollabCloseEndEvent.status payload in
  upsert_item_in_current_turn
    (ThreadItem.CollabAgentToolCall (CollabCloseEndEvent.call_id payload) CollabAgentTool.CloseAgent
       (collab_call_status agent_status) (CollabCloseEndEvent.sender_thread_id payload)
       [receiver_id] None None None {[ receiver_id := collab_agent_state agent_status ]}) b.

Definition handle_collab_resume_begin (payload : CollabResumeBeginEvent.t) b : ThreadHistoryBuilder :=
  upsert_item_in_current_turn
    (ThreadItem.CollabAgentToolCall (CollabResumeBeginEvent.call_id payload) CollabAgentTool.ResumeAgent
       CollabAgentToolCallStatus.InProgress (CollabResumeBeginEvent.sender_thread_id payload)
       [CollabResumeBeginEvent.receiver_thread_id payload] None None None ∅) b.

Definition handle_collab_resume_end (payload : CollabResumeEndEvent.t) b : ThreadHistoryBuilder :=
  let receiver_id := CollabResumeEndEvent.receiver_thread_id payload in
  let agent_status := CollabResumeEndEvent.status payload in
  upsert_item_in_current_turn
    (ThreadItem.CollabAgentToolCall (CollabResumeEndEvent.call_id payload) CollabAgentTool.ResumeAgent
       (collab_call_status agent_status) (CollabResumeEndEvent.sender_thread_id payload)
       [receiver_id] None None None {[ receiver_id := collab_agent_state agent_status ]}) b.

(** * Handlers of the life of a turn *)

(** [V2TurnError] of an event; the two [CodexErrorInfo]s are one type here. *)
Definition turn_error_of (payload : ErrorEvent.t) : TurnError :=
  mkTurnError (ErrorEvent.message payload) (ErrorEvent.codex_error_info payload) None.

(** A change of the current turn that is recorded. *)
Definition change_current_turn (change : PendingTurn → PendingTurn) (turn : PendingTurn) b : ThreadHistoryBuilder :=
  record_changed_turn (from_pending_turn (change turn)) (set_current_turn (Some (change turn)) b).

Definition handle_error (payload : ErrorEvent.t) b : ThreadHistoryBuilder :=
  if negb (affects_turn_status payload) then b
  else match current_turn b with
       | Some turn =>
           change_current_turn (λ turn, set_error (Some (turn_error_of payload)) (with_status Failed turn)) turn b
       | None => b
       end.

Definition apply_abort (payload : TurnAbortedEvent.t) (turn : PendingTurn) : PendingTurn :=
  set_times (TurnAbortedEvent.completed_at payload) (TurnAbortedEvent.duration_ms payload)
    (with_status Interrupted turn).

(** The last resort: the active turn. *)
Definition abort_active_turn (payload : TurnAbortedEvent.t) b : ThreadHistoryBuilder :=
  match current_turn b with
  | Some turn => change_current_turn (apply_abort payload) turn b
  | None => b
  end.

Definition handle_turn_aborted (payload : TurnAbortedEvent.t) b : ThreadHistoryBuilder :=
  match TurnAbortedEvent.turn_id payload with
  | Some key =>
      if is_some_and (λ turn, bool_decide (id turn = key)) (current_turn b) then abort_active_turn payload b
      else match find_turn key (turns b) with
           | Some (i, turn) =>
               let turn := set_turn_end Interrupted (TurnAbortedEvent.completed_at payload)
                             (TurnAbortedEvent.duration_ms payload) turn in
               record_changed_turn (change_from_turn turn) (set_turns (<[i := turn]> (turns b)) b)
           | None => abort_active_turn payload b
           end
  | None => abort_active_turn payload b
  end.

Definition handle_turn_started (payload : TurnStartedEvent.t) b : ThreadHistoryBuilder :=
  let b := finish_current_turn b in
  let '(turn, b) := new_turn (Some (TurnStartedEvent.turn_id payload)) b in
  let turn := mark_opened_explicitly
                (with_started_at (TurnStartedEvent.started_at payload) (with_status InProgress turn)) in
  set_current_turn (Some turn) (record_changed_pending_turn turn b).

(** A failed or interrupted turn keeps its status. *)
Definition completed_status (status : TurnStatus) : TurnStatus :=
  match status with Completed | InProgress => Completed | status => status end.
Definition mark_completed (payload : TurnCompleteEvent.t) (turn : PendingTurn) : PendingTurn :=
  set_times (TurnCompleteEvent.completed_at payload) (TurnCompleteEvent.duration_ms payload)
    (with_status (completed_status (status turn)) turn).

Definition complete_active_turn (payload : TurnCompleteEvent.t) b : ThreadHistoryBuilder :=
  match current_turn b with
  | Some turn => finish_current_turn (change_current_turn (mark_completed payload) turn b)
  | None => b
  end.

Definition handle_turn_complete (payload : TurnCompleteEvent.t) b : ThreadHistoryBuilder :=
  let key := TurnCompleteEvent.turn_id payload in
  if is_some_and (λ turn, bool_decide (id turn = key)) (current_turn b) then complete_active_turn payload b
  else match find_turn key (turns b) with
       | Some (i, turn) =>
           let turn := set_turn_end (completed_status (turn_status turn))
                         (TurnCompleteEvent.completed_at payload) (TurnCompleteEvent.duration_ms payload) turn in
           record_changed_turn (change_from_turn turn) (set_turns (<[i := turn]> (turns b)) b)
       | None => complete_active_turn payload b
       end.

(** A number of turns is a [u32], which a [usize] holds. *)
Definition handle_thread_rollback (num_turns : N) b : ThreadHistoryBuilder :=
  let b := finish_current_turn b in
  let n := N.to_nat num_turns in
  let ids :=
    if bool_decide (length (turns b) ≤ n) then turn_id <$> turns b
    else if decide (n = 0) then []
    else turn_id <$> drop (length (turns b) - n) (turns b) in
  let b := record_removed_turn_ids ids b in
  let kept := if bool_decide (length (turns b) ≤ n) then [] else take (length (turns b) - n) (turns b) in
  let item_count := sum_list (length ∘ turn_items <$> kept) in
  set_next_item_index (i64_of_usize (usize_add (N.of_nat item_count) 1)) (set_turns kept b).

(** * The reducer *)

Definition handle_event (event : EventMsg.t) b : ThreadHistoryBuilder :=
  match event with
  | EventMsg.UserMessage payload => handle_user_message payload b
  | EventMsg.AgentMessage payload =>
      handle_agent_message (AgentMessageEvent.message payload) (AgentMessageEvent.phase payload)
        (memory_citation <$> AgentMessageEvent.memory_citation payload) b
  | EventMsg.AgentReasoning text => handle_agent_reasoning text b
  | EventMsg.AgentReasoningRawContent text => handle_agent_reasoning_raw_content text b
  | EventMsg.WebSearchBegin call_id => handle_web_search_begin call_id b
  | EventMsg.WebSearchEnd payload => handle_web_search_end payload b
  | EventMsg.ExecCommandBegin payload => handle_exec_command_begin payload b
  | EventMsg.ExecCommandEnd payload => handle_exec_command_end payload b
  | EventMsg.GuardianAssessment payload => handle_guardian_assessment payload b
  | EventMsg.ApplyPatchApprovalRequest payload => handle_apply_patch_approval_request payload b
  | EventMsg.PatchApplyBegin payload => handle_patch_apply_begin payload b
  | EventMsg.PatchApplyEnd payload => handle_patch_apply_end payload b
  | EventMsg.DynamicToolCallRequest payload => handle_dynamic_tool_call_request payload b
  | EventMsg.DynamicToolCallResponse payload => handle_dynamic_tool_call_response payload b
  | EventMsg.McpToolCallBegin payload => handle_mcp_tool_call_begin payload b
  | EventMsg.McpToolCallEnd payload => handle_mcp_tool_call_end payload b
  | EventMsg.ViewImageToolCall call_id path => handle_view_image_tool_call call_id path b
  | EventMsg.ImageGenerationBegin call_id => handle_image_generation_begin call_id b
  | EventMsg.ImageGenerationEnd payload => handle_image_generation_end payload b
  | EventMsg.CollabAgentSpawnBegin payload => handle_collab_agent_spawn_begin payload b
  | EventMsg.CollabAgentSpawnEnd payload => handle_collab_agent_spawn_end payload b
  | EventMsg.CollabAgentInteractionBegin payload => handle_collab_agent_interaction_begin payload b
  | EventMsg.CollabAgentInteractionEnd payload => handle_collab_agent_interaction_end payload b
  | EventMsg.SubAgentActivity payload => handle_sub_agent_activity payload b
  | EventMsg.CollabWaitingBegin payload => handle_collab_waiting_begin payload b
  | EventMsg.CollabWaitingEnd payload => handle_collab_waiting_end payload b
  | EventMsg.CollabCloseBegin payload => handle_collab_close_begin payload b
  | EventMsg.CollabCloseEnd payload => handle_collab_close_end payload b
  | EventMsg.CollabResumeBegin payload => handle_collab_resume_begin payload b
  | EventMsg.CollabResumeEnd payload => handle_collab_resume_end payload b
  | EventMsg.ContextCompacted => handle_context_compacted b
  | EventMsg.EnteredReviewMode payload => handle_entered_review_mode payload b
  | EventMsg.ExitedReviewMode payload => handle_exited_review_mode payload b
  | EventMsg.ItemStarted payload => handle_item_started payload b
  | EventMsg.ItemCompleted payload => handle_item_completed payload b
  | EventMsg.Error payload => handle_error payload b
  | EventMsg.ThreadRolledBack num_turns => handle_thread_rollback num_turns b
  | EventMsg.TurnAborted payload => handle_turn_aborted payload b
  | EventMsg.TurnStarted payload => handle_turn_started payload b
  | EventMsg.TurnComplete payload => handle_turn_complete payload b
  | EventMsg.OtherEvent => b
  end.

Definition next_rollout b : ThreadHistoryBuilder :=
  mkBuilder (turns b) (current_turn b) (next_item_index b) (next_rollout_index b)
    (next_rollout_index b + 1) (active_change_set b) (uuids b).

Definition handle_rollout_item (item : RolloutItem.t) b : ThreadHistoryBuilder :=
  let b := next_rollout b in
  match item with
  | RolloutItem.EventMsg event => handle_event event b
  | RolloutItem.Compacted payload => handle_compacted payload b
  | RolloutItem.ResponseItem item => handle_response_item item b
  | RolloutItem.InterAgentCommunication _ | RolloutItem.InterAgentCommunicationMetadata _
  | RolloutItem.TurnContext | RolloutItem.WorldState | RolloutItem.SessionMeta => b
  end.

(** [build_turns_from_rollout_items] *)
Definition replay (items : list RolloutItem.t) b : ThreadHistoryBuilder :=
  foldl (λ b item, handle_rollout_item item b) b items.
Definition build_turns_from_rollout_items (uuids : nat) (items : list RolloutItem.t) : list Turn :=
  finish (replay items (new uuids)).

(** ** Handlers that return what they changed *)

(** The debug assertion that nothing is tracked yet is left out. *)
Definition collect_changes (handle : ThreadHistoryBuilder → ThreadHistoryBuilder) b :
    ThreadHistoryBuilder * ThreadHistoryChangeSet :=
  let b := handle (set_active_change_set (Some empty_changes) b) in
  (set_active_change_set None b, default empty_changes (active_change_set b)).

Definition handle_event_with_changes (event : EventMsg.t) b : ThreadHistoryBuilder * ThreadHistoryChangeSet :=
  collect_changes (handle_event event) b.
Definition handle_rollout_item_with_changes (item : RolloutItem.t) b :
    ThreadHistoryBuilder * ThreadHistoryChangeSet :=
  collect_changes (handle_rollout_item item) b.

(** ** Snapshots *)

Definition active_turn_snapshot b : option Turn :=
  match current_turn b with Some turn => Some (turn_from turn) | None => last (turns b) end.
Definition active_turn_id b : option str :=
  match current_turn b with Some turn => Some (id turn) | None => turn_id <$> last (turns b) end.
Definition turn_snapshot (key : str) b : option Turn :=
  match current_turn b with
  | Some turn => if decide (id turn = key) then Some (turn_from turn) else snd <$> find_turn key (turns b)
  | None => snd <$> find_turn key (turns b)
  end.
Definition active_turn_position b : option nat :=
  if bool_decide (is_Some (current_turn b)) then Some (length (turns b))
  else if is_nil (turns b) then None else Some (length (turns b) - 1).
Definition has_active_turn b : bool := bool_decide (is_Some (current_turn b)).
Definition active_turn_id_if_explicit b : option str :=
  turn ← current_turn b; if opened_explicitly turn then Some (id turn) else None.
Definition active_turn_start_index b : option N := rollout_start_index <$> current_turn b.

(** * The accumulator of a batch

    [ThreadHistoryChangeAccumulator]: the lists keep the order of the first
    changes, [None] where a rollback took the change out again, and the maps say
    where a change is.  An index out of range panics: [None]. *)

Record ThreadHistoryChangeAccumulator := mkAccumulator {
  acc_changed_items : list (option ThreadHistoryItemChange);
  acc_changed_item_indexes : gmap (str * str) nat;
  acc_changed_turns : list (option ThreadHistoryTurnChange);
  acc_changed_turn_indexes : gmap str nat;
  acc_removed_turn_ids : list str;
  acc_removed_turn_indexes : gmap str nat
}.
Implicit Types (acc : ThreadHistoryChangeAccumulator).

Definition empty_accumulator : ThreadHistoryChangeAccumulator := mkAccumulator [] ∅ [] ∅ [] ∅.

Definition set_acc_items (changes : list (option ThreadHistoryItemChange)) (indexes : gmap (str * str) nat) acc :
    ThreadHistoryChangeAccumulator :=
  mkAccumulator changes indexes (acc_changed_turns acc) (acc_changed_turn_indexes acc)
    (acc_removed_turn_ids acc) (acc_removed_turn_indexes acc).
Definition set_acc_turns (changes : list (option ThreadHistoryTurnChange)) (indexes : gmap str nat) acc :
    ThreadHistoryChangeAccumulator :=
  mkAccumulator (acc_changed_items acc) (acc_changed_item_indexes acc) changes indexes
    (acc_removed_turn_ids acc) (acc_removed_turn_indexes acc).
Definition set_acc_removed (ids : list str) (indexes : gmap str nat) acc : ThreadHistoryChangeAccumulator :=
  mkAccumulator (acc_changed_items acc) (acc_changed_item_indexes acc) (acc_changed_turns acc)
    (acc_changed_turn_indexes acc) ids indexes.

Definition item_change_key (change : ThreadHistoryItemChange) : str * str :=
  (item_turn_id change, item_id (changed_item change)).

Definition push_item_change acc (change : ThreadHistoryItemChange) : option ThreadHistoryChangeAccumulator :=
  let key := item_change_key change in
  match acc_changed_item_indexes acc !! key with
  | Some index =>
      changes ← vec_set index (Some change) (acc_changed_items acc);
      Some (set_acc_items changes (acc_changed_item_indexes acc) acc)
  | None =>
      Some (set_acc_items (acc_changed_items acc ++ [Some change])
              (<[key := length (acc_changed_items acc)]> (acc_changed_item_indexes acc)) acc)
  end.

Definition push_turn_change acc (change : ThreadHistoryTurnChange) : option ThreadHistoryChangeAccumulator :=
  let key := change_turn_id change in
  match acc_changed_turn_indexes acc !! key with
  | Some index =>
      changes ← vec_set index (Some change) (acc_changed_turns acc);
      Some (set_acc_turns changes (acc_changed_turn_indexes acc) acc)
  | None =>
      Some (set_acc_turns (acc_changed_turns acc ++ [Some change])
              (<[key := length (acc_changed_turns acc)]> (acc_changed_turn_indexes acc)) acc)
  end.

(** One of the loops of [push_removed_turn_id], over the keys of the turn's items. *)
Definition remove_item_key acc (key : str * str) : option ThreadHistoryChangeAccumulator :=
  match acc_changed_item_indexes acc !! key with
  | Some index =>
      changes ← vec_set index None (acc_changed_items acc);
      Some (set_acc_items changes (delete key (acc_changed_item_indexes acc)) acc)
  | None => Some acc
  end.

Definition push_removed_turn_id acc (key : str) : option ThreadHistoryChangeAccumulator :=
  let acc :=
    match acc_removed_turn_indexes acc !! key with
    | Some _ => acc
    | None => set_acc_removed (acc_removed_turn_ids acc ++ [key])
                (<[key := length (acc_removed_turn_ids acc)]> (acc_removed_turn_indexes acc)) acc
    end in
  acc ← match acc_changed_turn_indexes acc !! key with
        | Some index =>
            changes ← vec_set index None (acc_changed_turns acc);
            Some (set_acc_turns changes (delete key (acc_changed_turn_indexes acc)) acc)
        | None => Some acc
        end;
  let removed_item_keys :=
    filter (λ item_key, item_key.1 = key) (map_to_list (acc_changed_item_indexes acc)).*1 in
  option_foldl remove_item_key acc removed_item_keys.

(** [ThreadHistoryChangeAccumulator::push] and [finish] *)
Definition acc_push acc (changes : ThreadHistoryChangeSet) : option ThreadHistoryChangeAccumulator :=
  acc ← option_foldl push_removed_turn_id acc (removed_turn_ids changes);
  acc ← option_foldl push_item_change acc (changed_items changes);
  option_foldl push_turn_change acc (changed_turns changes).
Definition acc_finish acc : ThreadHistoryChangeSet :=
  mkChangeSet (omap (λ change, change) (acc_changed_items acc)) (omap (λ change, change) (acc_changed_turns acc))
    (acc_removed_turn_ids acc).

(** The loop of [handle_rollout_items_with_changes] *)
Definition push_rollout_item (s : ThreadHistoryBuilder * ThreadHistoryChangeAccumulator) (item : RolloutItem.t) :
    option (ThreadHistoryBuilder * ThreadHistoryChangeAccumulator) :=
  let '(b, changes) := handle_rollout_item_with_changes item s.1 in
  acc ← acc_push s.2 changes; Some (b, acc).
Definition handle_rollout_items_with_changes (items : list RolloutItem.t) b :
    option (ThreadHistoryBuilder * ThreadHistoryChangeSet) :=
  '(b, acc) ← option_foldl push_rollout_item (b, empty_accumulator) items;
  Some (b, acc_finish acc).

End model.

Arguments mkTurn {O}.
Arguments mkPending {O}.
Arguments mkItemChange {O}.
Arguments mkChangeSet {O}.
Arguments mkBuilder {O}.
Arguments mkAccumulator {O}.
