(* ===== verification/ThreadHistorySpec.v ===== *)
(** What the builder of a thread's history promises.  A client that keeps the
    turns of a thread applies the change sets a tracked builder returns; the
    relation [step] says what one event can do to the turns and which change set
    goes with it, every handler is one such step, and a step applied as its
    change set gives the turns of the builder as long as no id is used twice. *)

From S2P Require Import Prelude Text Machine ResponseItems ContextFragments ThreadItems ThreadEvents ThreadHistory.

(** * The turns of a client *)

Section view.
Context {O : Outside} {HT : HistoryTexts}.
Implicit Types (b : ThreadHistoryBuilder) (v : list Turn) (t : Turn) (cs : ThreadHistoryChangeSet).

(** The finished turns and the one in progress. *)
Definition view b : list Turn := turns b ++ (turn_from <$> option_list (current_turn b)).

(** A client's update of the turns with an id. *)
Definition update_turns (key : str) (f : Turn → Turn) v : list Turn :=
  (λ t, if decide (turn_id t = key) then f t else t) <$> v.
Definition ids v : list str := turn_id <$> v.
Definition item_ids t : list str := item_id <$> turn_items t.

Definition set_meta (c : ThreadHistoryTurnChange) t : Turn :=
  mkTurn (turn_id t) (turn_items t) (items_view t) (change_status c) (change_error c)
    (change_started_at c) (change_completed_at c) (change_duration_ms c).
Definition turn_of_change (c : ThreadHistoryTurnChange) : Turn :=
  mkTurn (change_turn_id c) [] Full (change_status c) (change_error c) (change_started_at c)
    (change_completed_at c) (change_duration_ms c).
Definition put_item (item : ThreadItem.t) (items : list ThreadItem.t) : list ThreadItem.t :=
  if decide (item_id item ∈ item_id <$> items)
  then (λ old, if decide (item_id old = item_id item) then item else old) <$> items
  else items ++ [item].

Definition apply_turn_change v (c : ThreadHistoryTurnChange) : list Turn :=
  if decide (change_turn_id c ∈ ids v) then update_turns (change_turn_id c) (set_meta c) v
  else v ++ [turn_of_change c].
Definition apply_item_change v (c : ThreadHistoryItemChange) : list Turn :=
  update_turns (item_turn_id c) (λ t, set_turn_items (put_item (changed_item c) (turn_items t)) t) v.
Definition remove_turn v (key : str) : list Turn := filter (λ t, turn_id t ≠ key) v.

(** A change set: the turns that went, the turns that changed or came, then the items. *)
Definition apply_changes v cs : list Turn :=
  foldl apply_item_change
    (foldl apply_turn_change (foldl remove_turn v (removed_turn_ids cs)) (changed_turns cs))
    (changed_items cs).

(** No id is used twice: of turns, or of items within a turn. *)
Definition unique v : Prop := NoDup (ids v) ∧ Forall (λ t, NoDup (item_ids t)) v.
#[export] Instance unique_dec v : Decision (unique v).
Proof. apply _. Defined.

(** * What one event does *)

(** An item is added to a turn, or takes the place of the one with its id. *)
Inductive put (item : ThreadItem.t) : list ThreadItem.t → list ThreadItem.t → Prop :=
| put_new l : put item l (l ++ [item])
| put_over l old k : item_id old = item_id item → put item (l ++ old :: k) (l ++ item :: k).

Inductive step : list Turn → ThreadHistoryChangeSet → list Turn → Prop :=
| step_none v : step v empty_changes v
| step_open v c : step v (mkChangeSet [] [c] []) (v ++ [turn_of_change c])
| step_item v t w item items :
    put item (turn_items t) items →
    step (v ++ t :: w) (mkChangeSet [mkItemChange (turn_id t) item] [] [])
      (v ++ set_turn_items items t :: w)
| step_open_item v c item :
    step v (mkChangeSet [mkItemChange (change_turn_id c) item] [c] [])
      (v ++ [set_turn_items [item] (turn_of_change c)])
| step_meta v t w c :
    change_turn_id c = turn_id t →
    step (v ++ t :: w) (mkChangeSet [] [c] []) (v ++ set_meta c t :: w)
| step_rollback v n :
    step v (mkChangeSet [] [] (ids (drop n v))) (take n v).

(** ** A step is its change set *)

Lemma update_turns_absent key f v : key ∉ ids v → update_turns key f v = v.
Proof. intros. by apply fmap_at_absent. Qed.

Lemma update_turns_app key f v w : update_turns key f (v ++ w) = update_turns key f v ++ update_turns key f w.
Proof. apply fmap_app. Qed.

Lemma ids_app v w : ids (v ++ w) = ids v ++ ids w.
Proof. apply fmap_app. Qed.

Lemma update_turns_at key f v t w :
  turn_id t = key → key ∉ ids v → key ∉ ids w → update_turns key f (v ++ t :: w) = v ++ f t :: w.
Proof.
  intros Ht Hv Hw. change (t :: w) with ([t] ++ w).
  rewrite !update_turns_app, !update_turns_absent with (v := v), !update_turns_absent with (v := w) by done.
  unfold update_turns. simpl. by rewrite decide_True.
Qed.

Lemma unique_middle v t w :
  unique (v ++ t :: w) → turn_id t ∉ ids v ∧ turn_id t ∉ ids w ∧ NoDup (item_ids t).
Proof.
  intros [Hid Hit]. rewrite ids_app in Hid. simpl in Hid. apply NoDup_app in Hid as (_ & Hv & Hid).
  apply NoDup_cons in Hid as [Hw _]. apply Forall_app in Hit as [_ [Hit _]%Forall_cons].
  split; [intros Hin; by apply (Hv _ Hin), list_elem_of_here|done].
Qed.

Lemma put_item_over item l old k :
  item_id old = item_id item → NoDup (item_id <$> l ++ old :: k) →
  put_item item (l ++ old :: k) = l ++ item :: k.
Proof.
  intros Hold Hnd. rewrite fmap_app in Hnd. simpl in Hnd. unfold put_item.
  rewrite decide_True by (rewrite fmap_app, <- Hold; set_solver).
  apply NoDup_app in Hnd as (_ & Hl & [Hk _]%NoDup_cons). rewrite fmap_app. simpl.
  rewrite (decide_True _ _ Hold). f_equal; [|f_equal].
  - by apply fmap_at_absent; intros Hin; apply (Hl _ Hin); rewrite <- Hold; left.
  - by apply fmap_at_absent; rewrite <- Hold.
Qed.

Lemma put_item_spec item l l' : put item l l' → NoDup (item_id <$> l) → NoDup (item_id <$> l') → put_item item l = l'.
Proof.
  destruct 1 as [l|l old k Hold]; intros Hl Hl'; [|by apply put_item_over].
  unfold put_item. rewrite decide_False; [done|]. intros Hin.
  rewrite fmap_app in Hl'. apply NoDup_app in Hl' as (_ & Hl' & _). apply (Hl' _ Hin). by left.
Qed.

Lemma remove_turns v keys : foldl remove_turn v keys = filter (λ t, turn_id t ∉ keys) v.
Proof.
  revert v. induction keys as [|key keys IH]; intros v; simpl.
  - induction v as [|t v IHv]; [done|]. rewrite filter_cons_True by set_solver. by rewrite <- IHv.
  - rewrite IH. unfold remove_turn. rewrite list_filter_filter. apply list_filter_iff. set_solver.
Qed.

(** The change set of a step applied to the turns before gives the turns after. *)
Lemma step_applies v cs v' : step v cs v' → unique v → unique v' → apply_changes v cs = v'.
Proof.
  destruct 1 as [v|v c|v t w item items Hput|v c item|v t w c Hc|v n]; intros Hu Hu'; unfold apply_changes; simpl.
  - done.
  - unfold apply_turn_change. rewrite decide_False; [done|].
    apply unique_middle in Hu' as (Hu' & _). done.
  - unfold apply_item_change. simpl. pose proof (unique_middle _ _ _ Hu) as (Hv & Hw & Hn).
    pose proof (unique_middle _ _ _ Hu') as (_ & _ & Hn'). rewrite update_turns_at by done.
    by rewrite (put_item_spec _ _ items).
  - pose proof (unique_middle _ _ _ Hu') as (Hv & _). simpl in Hv.
    unfold apply_turn_change. rewrite decide_False by done. unfold apply_item_change. simpl.
    rewrite update_turns_at; [done|done|done|]. apply not_elem_of_nil.
  - pose proof (unique_middle _ _ _ Hu) as (Hv & Hw & _).
    unfold apply_turn_change. rewrite decide_True, Hc, update_turns_at; try done.
    rewrite Hc, ids_app. set_solver.
  - rewrite <- (take_drop n v) in Hu at 1. destruct Hu as [Hu _]. rewrite ids_app in Hu.
    apply NoDup_app in Hu as (_ & Hu & _). rewrite remove_turns.
    transitivity (filter (λ t, turn_id t ∉ ids (drop n v)) (take n v ++ drop n v)); [by rewrite take_drop|].
    rewrite filter_app, filter_all, filter_none, app_nil_r; [done|..].
    + intros t Ht Hn. by apply Hn, list_elem_of_fmap_2.
    + intros t Ht. by apply Hu, list_elem_of_fmap_2.
Qed.

(** * Handlers are steps *)

(** [finish_current_turn] drops a turn that nothing opened and that has nothing. *)
Definition droppable (t : PendingTurn) : bool :=
  is_nil (items t) && negb (opened_explicitly t) && negb (saw_compaction t).
Definition kept b : Prop := ∀ turn, current_turn b = Some turn → droppable turn = false.
Definition tracked b : Prop := active_change_set b = Some empty_changes.
Definition steps b b' : Prop :=
  kept b' ∧ ∃ cs, active_change_set b' = Some cs ∧ step (view b) cs (view b').

(** Nothing a client sees happened. *)
Definition silent b b' : Prop := view b' = view b ∧ active_change_set b' = active_change_set b ∧ kept b'.

Lemma silent_steps b b1 b' : silent b b1 → steps b1 b' → steps b b'.
Proof. intros (Hv & _ & _) (Hk & cs & Ha & Hs). rewrite Hv in Hs. split; [done|by exists cs]. Qed.

Lemma silent_tracked b b' : silent b b' → tracked b → tracked b'.
Proof. intros (_ & Ha & _) Hb. unfold tracked. by rewrite Ha. Qed.

Lemma steps_none b b' : silent b b' → tracked b → steps b b'.
Proof.
  intros (Hv & Ha & Hk) Hb. split; [done|]. exists empty_changes. rewrite Hv, Ha. by split; [|constructor].
Qed.

Lemma finish_silent b : kept b → silent b (finish_current_turn b).
Proof.
  intros Hk. unfold finish_current_turn. destruct (current_turn b) as [t|] eqn:Ht; [|done].
  specialize (Hk t Ht). unfold droppable in Hk. rewrite Hk.
  unfold silent, view. simpl. rewrite Ht. simpl. by rewrite app_nil_r.
Qed.

Lemma finish_current_none b : current_turn (finish_current_turn b) = None.
Proof. unfold finish_current_turn. destruct (current_turn b) eqn:E; [|done]. by destruct (_ && _). Qed.

Lemma next_item_id_silent b : kept b → silent b (next_item_id b).2.
Proof. done. Qed.

Lemma next_item_id_or_silent o b : kept b → silent b (next_item_id_or o b).2.
Proof. by destruct o. Qed.

Lemma upsert_put item l : put item l (upsert_turn_item l item).
Proof.
  unfold upsert_turn_item. destruct (list_find _ l) as [[i old]|] eqn:Hf; [|constructor].
  apply list_find_Some in Hf as (Hi & Hid & _).
  rewrite <- (take_drop_middle l i old) at 1 by done.
  rewrite insert_take_drop by (by eapply lookup_lt_Some). by constructor.
Qed.

Lemma put_not_nil item l l' : put item l l' → l' ≠ [].
Proof. destruct 1 as [l|l old k _]; by destruct l. Qed.

Lemma update_last_put (f : ThreadItem.t → option ThreadItem.t) l item :
  (∀ x y, f x = Some y → item_id x = item_id y) →
  last l ≫= f = Some item → put item l (update_last (λ _, item) l).
Proof.
  intros Hf Hl. destruct (last l) as [x|] eqn:Hx; [|done]. simpl in Hl.
  apply last_Some_snoc in Hx as [k ->]. rewrite update_last_snoc. apply put_over. by apply Hf.
Qed.

(** ** Items *)

Lemma record_item_at key item b cs :
  active_change_set b = Some cs →
  record_changed_item key item b =
    set_active_change_set (Some (mkChangeSet (changed_items cs ++ [mkItemChange key item])
                                   (changed_turns cs) (removed_turn_ids cs))) b.
Proof. unfold record_changed_item. by intros ->. Qed.

Lemma record_turn_at c b cs :
  active_change_set b = Some cs →
  record_changed_turn c b =
    set_active_change_set (Some (mkChangeSet (changed_items cs) (changed_turns cs ++ [c]) (removed_turn_ids cs))) b.
Proof. unfold record_changed_turn. by intros ->. Qed.

Lemma put_in_current b turn item items' :
  current_turn b = Some turn → tracked b → put item (items turn) items' →
  steps b (record_changed_item (id turn) item (set_current_turn (Some (set_items items' turn)) b)).
Proof.
  intros Ht Hb Hput. erewrite record_item_at by exact Hb. split.
  - intros t [= <-]. unfold droppable. simpl. apply put_not_nil in Hput. by destruct items'.
  - eexists. split; [done|]. unfold view. rewrite Ht. simpl. by apply (step_item (turns b) (turn_from turn) []).
Qed.

(** The turn [ensure_turn] opens is recorded, and has nothing yet. *)
Lemma ensure_turn_none b turn b' :
  current_turn b = None → ensure_turn b = (turn, b') →
  items turn = [] ∧ turns b' = turns b ∧ current_turn b' = Some turn ∧
  (tracked b → active_change_set b' = Some (mkChangeSet [] [from_pending_turn turn] [])).
Proof.
  intros Hc. unfold ensure_turn, new_turn. rewrite Hc. case_decide; intros [= <- <-]; simpl;
    unfold record_changed_pending_turn, record_changed_turn, is_tracking_changes; simpl; (split; [done|]);
    (destruct (active_change_set b) as [cs|] eqn:Ha; simpl; rewrite ?Ha; simpl;
     (split; [done|]); (split; [done|]); unfold tracked; rewrite Ha; by intros [= ->]).
Qed.

Lemma put_in_new b turn b' item :
  current_turn b = None → ensure_turn b = (turn, b') → tracked b →
  steps b (record_changed_item (id turn) item (set_current_turn (Some (set_items [item] turn)) b')).
Proof.
  intros Hc He Hb. destruct (ensure_turn_none _ _ _ Hc He) as (Hi & Ht & _ & Ha). specialize (Ha Hb).
  erewrite record_item_at by exact Ha. split; [by intros t [= <-]|].
  eexists. split; [done|]. unfold view. rewrite Hc. simpl. rewrite Ht, app_nil_r.
  apply (step_open_item _ (from_pending_turn turn)).
Qed.

Lemma push_item_steps item b : tracked b → steps b (push_item_in_current_turn item b).
Proof.
  intros Hb. unfold push_item_in_current_turn. destruct (ensure_turn b) as [turn b'] eqn:He.
  destruct (current_turn b) as [t|] eqn:Hc.
  - unfold ensure_turn in He. rewrite Hc in He. injection He as <- <-. apply put_in_current; [done..|constructor].
  - pose proof (ensure_turn_none _ _ _ Hc He) as (-> & _). by apply put_in_new.
Qed.

Lemma upsert_current_steps item b : tracked b → steps b (upsert_item_in_current_turn item b).
Proof.
  intros Hb. unfold upsert_item_in_current_turn. destruct (ensure_turn b) as [turn b'] eqn:He.
  destruct (current_turn b) as [t|] eqn:Hc.
  - unfold ensure_turn in He. rewrite Hc in He. injection He as <- <-. apply put_in_current; [done..|apply upsert_put].
  - pose proof (ensure_turn_none _ _ _ Hc He) as (-> & _). by apply put_in_new.
Qed.

Lemma upsert_finished_steps key item b : kept b → tracked b → steps b (upsert_item_in_finished_turn key item b).
Proof.
  intros Hk Hb. unfold upsert_item_in_finished_turn, find_turn.
  destruct (list_find _ (turns b)) as [[i t]|] eqn:Hf; [|by apply steps_none].
  apply list_find_Some in Hf as (Hi & Hid & _). erewrite record_item_at by exact Hb.
  split; [done|]. eexists. split; [done|]. unfold view. simpl.
  rewrite insert_take_drop by (by eapply lookup_lt_Some). rewrite <- (take_drop_middle (turns b) i t) at 1 by done.
  rewrite <- !app_assoc. simpl. apply step_item, upsert_put.
Qed.

Lemma upsert_turn_id_steps key item b : kept b → tracked b → steps b (upsert_item_in_turn_id key item b).
Proof.
  intros Hk Hb. unfold upsert_item_in_turn_id. destruct (current_turn b) as [turn|] eqn:Hc;
    [case_decide|]; try by apply upsert_finished_steps. apply put_in_current; [done..|apply upsert_put].
Qed.

Lemma upsert_of_event_steps key item b : kept b → tracked b → steps b (upsert_item_of_event key item b).
Proof.
  intros Hk Hb. unfold upsert_item_of_event. destruct (is_nil key);
    [by apply upsert_current_steps|by apply upsert_turn_id_steps].
Qed.

(** ** Turns *)

(** A turn that opens after the last one. *)
Lemma open_turn_steps turn b :
  current_turn b = None → items turn = [] → droppable turn = false → tracked b →
  steps b (set_current_turn (Some turn) (record_changed_pending_turn turn b)).
Proof.
  intros Hc Hi Hd Hb. unfold record_changed_pending_turn, is_tracking_changes.
  rewrite bool_decide_true by (rewrite Hb; by eexists). erewrite record_turn_at by exact Hb.
  split; [by intros t [= <-]|]. eexists. split; [done|]. unfold view. simpl. rewrite Hc. simpl.
  rewrite app_nil_r. unfold turn_from. rewrite Hi. apply (step_open _ (from_pending_turn turn)).
Qed.

Lemma change_current_steps change turn b :
  (id (change turn) = id turn ∧ items (change turn) = items turn ∧ droppable (change turn) = droppable turn) →
  current_turn b = Some turn → kept b → tracked b → steps b (change_current_turn change turn b).
Proof.
  intros (Hi & Hs & Hd) Hc Hk Hb. unfold change_current_turn. erewrite record_turn_at by exact Hb. split.
  - intros t [= <-]. rewrite Hd. by apply Hk.
  - eexists. split; [done|]. unfold view. rewrite Hc. simpl.
    replace (turn_from (change turn)) with (set_meta (from_pending_turn (change turn)) (turn_from turn))
      by (unfold turn_from, set_meta; simpl; by rewrite Hi, Hs).
    by apply step_meta.
Qed.

Lemma steps_silent b b' b2 : steps b b' → silent b' b2 → steps b b2.
Proof.
  intros (_ & cs & Ha & Hs) (Hv & Ha' & Hk). split; [done|]. exists cs. by rewrite Ha', Hv.
Qed.

Lemma change_finished_steps i t c b :
  turns b !! i = Some t → change_turn_id c = turn_id t → kept b → tracked b →
  steps b (record_changed_turn c (set_turns (<[i := set_meta c t]> (turns b)) b)).
Proof.
  intros Hi Hc Hk Hb. erewrite record_turn_at by exact Hb. split; [done|]. eexists. split; [done|].
  unfold view. simpl. rewrite insert_take_drop by (by eapply lookup_lt_Some).
  rewrite <- (take_drop_middle (turns b) i t) at 1 by done. rewrite <- !app_assoc. simpl. by apply step_meta.
Qed.

Lemma upsert_review_steps key item b : kept b → tracked b → steps b (upsert_review_mode_item key item b).
Proof.
  intros Hk Hb. destruct key as [key|]; [|by apply upsert_current_steps]. unfold upsert_review_mode_item.
  destruct (_ && _); [|by apply upsert_turn_id_steps].
  pose proof (finish_silent b Hk) as Hf. apply (silent_steps _ _ _ Hf).
  pose proof (silent_tracked _ _ Hf Hb) as Hb'. pose proof (finish_current_none b) as Hn.
  revert Hb' Hn. generalize (finish_current_turn b) as b1. clear. intros b Hb Hn.
  unfold new_turn. set (turn := mkPending key [] _ _ _ _ _ _ _ _).
  unfold record_changed_pending_turn, is_tracking_changes.
  rewrite bool_decide_true by (rewrite Hb; by eexists). erewrite record_turn_at by exact Hb.
  unfold upsert_item_in_turn_id. simpl. rewrite decide_True by done. split; [by intros t [= <-]|].
  eexists. split; [done|]. unfold view. simpl. rewrite Hn. simpl. rewrite app_nil_r.
  apply (step_open_item _ (from_pending_turn turn)).
Qed.

(** ** Messages *)

Lemma user_message_steps payload b : kept b → tracked b → steps b (handle_user_message payload b).
Proof.
  intros Hk Hb. unfold handle_user_message. destruct (is_some_and _ _).
  - pose proof (finish_silent b Hk) as Hf. apply (silent_steps _ _ _ Hf).
    apply (silent_steps _ _ _ (next_item_id_silent _ (proj2 (proj2 Hf)))), push_item_steps.
    exact (silent_tracked _ _ Hf Hb).
  - by apply (silent_steps _ _ _ (next_item_id_silent b Hk)), push_item_steps.
Qed.

Lemma agent_message_steps text phase citation b :
  kept b → tracked b → steps b (handle_agent_message text phase citation b).
Proof.
  intros Hk Hb. unfold handle_agent_message. destruct (is_nil text); [by apply steps_none|].
  by apply (silent_steps _ _ _ (next_item_id_silent b Hk)), push_item_steps.
Qed.

(** The common shape of the two handlers of reasoning. *)
Lemma reasoning_steps (add : ThreadItem.t → option ThreadItem.t) (make : str → ThreadItem.t) b :
  (∀ x y, add x = Some y → item_id x = item_id y) → kept b → tracked b →
  steps b (let '(turn, b) := ensure_turn b in
           match last (items turn) ≫= add with
           | Some item =>
               record_changed_item (id turn) item
                 (set_current_turn (Some (set_items (update_last (λ _, item) (items turn)) turn)) b)
           | None => let '(reasoning_id, b) := next_item_id b in push_item_in_current_turn (make reasoning_id) b
           end).
Proof.
  intros Hadd Hk Hb. destruct (ensure_turn b) as [turn b'] eqn:He. destruct (current_turn b) as [t|] eqn:Hc.
  - unfold ensure_turn in He. rewrite Hc in He. injection He as <- <-.
    destruct (last (items t) ≫= add) as [item|] eqn:Hl.
    + apply put_in_current; [done..|]. by apply update_last_put in Hl.
    + by apply (silent_steps _ _ _ (next_item_id_silent b Hk)), push_item_steps.
  - destruct (ensure_turn_none _ _ _ Hc He) as (Hi & Ht & Hc' & Ha). specialize (Ha Hb). rewrite Hi. simpl.
    unfold push_item_in_current_turn, ensure_turn. simpl. rewrite Hc', Hi. simpl.
    erewrite record_item_at by exact Ha. split; [by intros u [= <-]|]. eexists. split; [done|].
    unfold view. rewrite Hc. simpl. rewrite Ht, app_nil_r. apply (step_open_item _ (from_pending_turn turn)).
Qed.

Lemma agent_reasoning_steps text b : kept b → tracked b → steps b (handle_agent_reasoning text b).
Proof.
  intros Hk Hb. unfold handle_agent_reasoning. destruct (is_nil text); [by apply steps_none|].
  apply (reasoning_steps _ (λ reasoning_id, ThreadItem.Reasoning reasoning_id [text] [])); [|done..].
  by intros [] y [= <-].
Qed.

Lemma agent_reasoning_raw_steps text b : kept b → tracked b → steps b (handle_agent_reasoning_raw_content text b).
Proof.
  intros Hk Hb. unfold handle_agent_reasoning_raw_content. destruct (is_nil text); [by apply steps_none|].
  apply (reasoning_steps _ (λ reasoning_id, ThreadItem.Reasoning reasoning_id [] [text])); [|done..].
  by intros [] y [= <-].
Qed.

Lemma context_compacted_steps b : kept b → tracked b → steps b (handle_context_compacted b).
Proof. intros Hk Hb. by apply (silent_steps _ _ _ (next_item_id_silent b Hk)), push_item_steps. Qed.

Lemma compacted_steps payload b : kept b → tracked b → steps b (handle_compacted payload b).
Proof.
  intros Hk Hb. unfold handle_compacted. destruct (ensure_turn b) as [turn b'] eqn:He.
  destruct (current_turn b) as [t|] eqn:Hc.
  - unfold ensure_turn in He. rewrite Hc in He. injection He as <- <-. apply steps_none; [|done].
    unfold silent, view. rewrite Hc. split; [done|]. split; [done|]. intros turn [= <-].
    unfold droppable. simpl. by rewrite andb_false_r.
  - destruct (ensure_turn_none _ _ _ Hc He) as (Hi & Ht & _ & Ha). specialize (Ha Hb). split.
    + intros u [= <-]. unfold droppable. simpl. by rewrite andb_false_r.
    + eexists. split; [exact Ha|]. unfold view. rewrite Hc. simpl. rewrite Ht, app_nil_r.
      unfold turn_from. simpl. rewrite Hi. apply (step_open _ (from_pending_turn turn)).
Qed.

Lemma response_item_steps item b : kept b → tracked b → steps b (handle_response_item item b).
Proof.
  intros Hk Hb. destruct item; try by apply steps_none. unfold handle_response_item.
  case_decide; [by apply steps_none|]. unfold parse_hook_prompt_message.
  destruct (mapM parse_hook_prompt_content content) as [[|]|]; [by apply steps_none| |by apply steps_none].
  destruct id; [by apply push_item_steps|]. apply (silent_steps _ (draw_uuid b).2); [done|]. by apply push_item_steps.
Qed.

(** ** The life of a turn *)

Lemma error_steps payload b : kept b → tracked b → steps b (handle_error payload b).
Proof.
  intros Hk Hb. unfold handle_error. destruct (negb _); [by apply steps_none|].
  destruct (current_turn b) as [turn|] eqn:Hc; [|by apply steps_none]. by apply change_current_steps.
Qed.

Lemma abort_active_steps payload b : kept b → tracked b → steps b (abort_active_turn payload b).
Proof.
  intros Hk Hb. unfold abort_active_turn.
  destruct (current_turn b) as [turn|] eqn:Hc; [|by apply steps_none]. by apply change_current_steps.
Qed.

Lemma turn_aborted_steps payload b : kept b → tracked b → steps b (handle_turn_aborted payload b).
Proof.
  intros Hk Hb. unfold handle_turn_aborted. destruct (TurnAbortedEvent.turn_id payload) as [key|];
    [|by apply abort_active_steps]. destruct (is_some_and _ _); [by apply abort_active_steps|].
  unfold find_turn. destruct (list_find _ _) as [[i t]|] eqn:Hf; [|by apply abort_active_steps].
  apply list_find_Some in Hf as (Hi & _). by apply (change_finished_steps i t (change_from_turn (set_turn_end _ _ _ t))).
Qed.

Lemma complete_active_steps payload b : kept b → tracked b → steps b (complete_active_turn payload b).
Proof.
  intros Hk Hb. unfold complete_active_turn.
  destruct (current_turn b) as [turn|] eqn:Hc; [|by apply steps_none].
  assert (steps b (change_current_turn (mark_completed payload) turn b)) as Hs by by apply change_current_steps.
  apply (steps_silent _ _ _ Hs), finish_silent, Hs.
Qed.

Lemma turn_complete_steps payload b : kept b → tracked b → steps b (handle_turn_complete payload b).
Proof.
  intros Hk Hb. unfold handle_turn_complete. destruct (is_some_and _ _); [by apply complete_active_steps|].
  unfold find_turn. destruct (list_find _ _) as [[i t]|] eqn:Hf; [|by apply complete_active_steps].
  apply list_find_Some in Hf as (Hi & _). by apply (change_finished_steps i t (change_from_turn (set_turn_end _ _ _ t))).
Qed.

Lemma turn_started_steps payload b : kept b → tracked b → steps b (handle_turn_started payload b).
Proof.
  intros Hk Hb. pose proof (finish_silent b Hk) as Hf. apply (silent_steps _ _ _ Hf), open_turn_steps;
    [apply finish_current_none|done|done|apply (silent_tracked _ _ Hf Hb)].
Qed.

Lemma rollback_steps n b : kept b → tracked b → steps b (handle_thread_rollback n b).
Proof.
  intros Hk Hb. pose proof (finish_silent b Hk) as Hf. apply (silent_steps _ _ _ Hf).
  pose proof (silent_tracked _ _ Hf Hb) as Hb'. pose proof (finish_current_none b) as Hn.
  unfold handle_thread_rollback. revert Hb' Hn. generalize (finish_current_turn b) as b1. clear.
  intros b Hb Hn. unfold record_removed_turn_ids. rewrite Hb. split.
  - intros turn. simpl. by rewrite Hn.
  - eexists. split; [done|]. unfold view. simpl. rewrite Hn. simpl. rewrite !app_nil_r.
    set (m := N.to_nat n).
    assert ((if bool_decide (length (turns b) ≤ m) then turn_id <$> turns b
             else if decide (m = 0) then [] else turn_id <$> drop (length (turns b) - m) (turns b))
            = ids (drop (length (turns b) - m) (turns b))) as ->.
    { case_bool_decide; [by replace (length (turns b) - m) with 0 by lia|]. case_decide; [|done].
      by rewrite drop_ge by lia. }
    replace (if bool_decide (length (turns b) ≤ m) then [] else take (length (turns b) - m) (turns b))
      with (take (length (turns b) - m) (turns b)); [apply step_rollback|].
    case_bool_decide; [|done]. by replace (length (turns b) - m) with 0 by lia.
Qed.

(** ** The reducer *)

Lemma lifecycle_steps key item b : kept b → tracked b → steps b (handle_materialized_item_lifecycle key item b).
Proof.
  intros Hk Hb. unfold handle_materialized_item_lifecycle. destruct (should_upsert item); [|by apply steps_none].
  destruct (is_review_mode_item item); [by apply upsert_review_steps|by apply upsert_turn_id_steps].
Qed.

Lemma review_with_id_steps o (make : str → ThreadItem.t) key b :
  kept b → tracked b →
  steps b (let '(review_id, b) := next_item_id_or o b in upsert_review_mode_item key (make review_id) b).
Proof.
  intros Hk Hb. destruct o as [review_id|]; [by apply upsert_review_steps|].
  by apply (silent_steps _ _ _ (next_item_id_silent b Hk)), upsert_review_steps.
Qed.

Create HintDb thread_history.
#[local] Hint Resolve user_message_steps agent_message_steps agent_reasoning_steps agent_reasoning_raw_steps
  context_compacted_steps error_steps turn_aborted_steps turn_complete_steps turn_started_steps rollback_steps
  lifecycle_steps upsert_current_steps upsert_of_event_steps upsert_turn_id_steps : thread_history.

Lemma handle_event_steps event b : kept b → tracked b → steps b (handle_event event b).
Proof.
  intros Hk Hb. destruct event; simpl; try (by auto with thread_history); try (by apply upsert_current_steps).
  - by apply upsert_turn_id_steps.
  - by apply upsert_turn_id_steps.
  - unfold handle_guardian_assessment. destruct (_ ≫= _); [by apply upsert_of_event_steps|by apply steps_none].
  - by apply upsert_of_event_steps.
  - by apply upsert_of_event_steps.
  - by apply upsert_of_event_steps.
  - by apply upsert_of_event_steps.
  - by apply upsert_of_event_steps.
  - unfold handle_mcp_tool_call_end. destruct (McpToolCallEndEvent.result _); by apply upsert_current_steps.
  - unfold handle_collab_agent_spawn_end. destruct (CollabAgentSpawnEndEvent.new_thread_id _); by apply upsert_current_steps.
  - apply (review_with_id_steps _ (λ review_id, ThreadItem.EnteredReviewMode review_id _)); done.
  - apply (review_with_id_steps _ (λ review_id, ThreadItem.ExitedReviewMode review_id _)); done.
  - by apply lifecycle_steps.
  - by apply lifecycle_steps.
  - by apply steps_none.
Qed.

Lemma handle_rollout_item_steps item b : kept b → tracked b → steps b (handle_rollout_item item b).
Proof.
  intros Hk Hb. apply (silent_steps b (next_rollout b)); [done|].
  assert (kept (next_rollout b) ∧ tracked (next_rollout b)) as [Hk' Hb'] by done.
  unfold handle_rollout_item. destruct item; try by apply steps_none.
  - by apply response_item_steps.
  - by apply compacted_steps.
  - by apply handle_event_steps.
Qed.

(** * Tracking changes nothing else *)

Definition untracked b : ThreadHistoryBuilder := set_active_change_set None b.

Ltac untracked :=
  repeat match goal with
         | b : ThreadHistoryBuilder |- _ => destruct b as [? [?|] ? ? ? [?|] ?]
         end; cbn; repeat (case_match; cbn); simplify_eq/=; try reflexivity.

Lemma finish_untracked b : untracked (finish_current_turn b) = finish_current_turn (untracked b).
Proof. unfold finish_current_turn. untracked. Qed.

Lemma ensure_untracked b :
  ensure_turn (untracked b) = ((ensure_turn b).1, untracked (ensure_turn b).2).
Proof.
  unfold ensure_turn, new_turn, record_changed_pending_turn, record_changed_turn, is_tracking_changes, draw_uuid.
  untracked.
Qed.

Lemma record_item_untracked key item b : untracked (record_changed_item key item b) = untracked b.
Proof. unfold record_changed_item. untracked. Qed.

Lemma record_turn_untracked c b : untracked (record_changed_turn c b) = untracked b.
Proof. unfold record_changed_turn. untracked. Qed.

Lemma record_pending_untracked turn b : untracked (record_changed_pending_turn turn b) = untracked b.
Proof. unfold record_changed_pending_turn. destruct (is_tracking_changes b); [apply record_turn_untracked|done]. Qed.

Lemma record_removed_untracked keys b : untracked (record_removed_turn_ids keys b) = untracked b.
Proof. unfold record_removed_turn_ids. untracked. Qed.

Lemma push_untracked item b :
  untracked (push_item_in_current_turn item b) = push_item_in_current_turn item (untracked b).
Proof.
  unfold push_item_in_current_turn. rewrite ensure_untracked. destruct (ensure_turn b) as [turn b'].
  simpl. by rewrite record_item_untracked.
Qed.

Lemma upsert_current_untracked item b :
  untracked (upsert_item_in_current_turn item b) = upsert_item_in_current_turn item (untracked b).
Proof.
  unfold upsert_item_in_current_turn. rewrite ensure_untracked. destruct (ensure_turn b) as [turn b'].
  simpl. by rewrite record_item_untracked.
Qed.

Lemma upsert_turn_id_untracked key item b :
  untracked (upsert_item_in_turn_id key item b) = upsert_item_in_turn_id key item (untracked b).
Proof.
  unfold upsert_item_in_turn_id, upsert_item_in_finished_turn. simpl.
  repeat case_match; simplify_eq/=; try done; by rewrite record_item_untracked.
Qed.

Lemma upsert_of_event_untracked key item b :
  untracked (upsert_item_of_event key item b) = upsert_item_of_event key item (untracked b).
Proof. unfold upsert_item_of_event. destruct (is_nil key); [apply upsert_current_untracked|apply upsert_turn_id_untracked]. Qed.

Lemma upsert_review_untracked key item b :
  untracked (upsert_review_mode_item key item b) = upsert_review_mode_item key item (untracked b).
Proof.
  destruct key as [key|]; [|apply upsert_current_untracked]. unfold upsert_review_mode_item.
  rewrite upsert_turn_id_untracked. f_equal. simpl. destruct (_ && _); [|done].
  rewrite <- finish_untracked. unfold new_turn. simpl.
  set (turn := mkPending key [] _ _ _ _ _ _ _ _).
  change (untracked (set_current_turn (Some turn) (record_changed_pending_turn turn (finish_current_turn b))))
    with (set_current_turn (Some turn) (untracked (record_changed_pending_turn turn (finish_current_turn b)))).
  by rewrite record_pending_untracked.
Qed.

Lemma change_current_untracked change turn b :
  untracked (change_current_turn change turn b) = change_current_turn change turn (untracked b).
Proof. unfold change_current_turn. by rewrite record_turn_untracked. Qed.

Lemma next_item_id_untracked b :
  next_item_id (untracked b) = ((next_item_id b).1, untracked (next_item_id b).2).
Proof. done. Qed.

Lemma user_message_untracked payload b :
  untracked (handle_user_message payload b) = handle_user_message payload (untracked b).
Proof.
  unfold handle_user_message. simpl. rewrite push_untracked. f_equal; destruct (is_some_and _ _); try done;
    by rewrite <- finish_untracked.
Qed.

Lemma agent_message_untracked text phase citation b :
  untracked (handle_agent_message text phase citation b) = handle_agent_message text phase citation (untracked b).
Proof. unfold handle_agent_message. destruct (is_nil text); [done|]. simpl. by rewrite push_untracked. Qed.

Lemma reasoning_untracked (add : ThreadItem.t → option ThreadItem.t) (make : str → ThreadItem.t) b :
  let handle b :=
    let '(turn, b) := ensure_turn b in
    match last (items turn) ≫= add with
    | Some item =>
        record_changed_item (id turn) item
          (set_current_turn (Some (set_items (update_last (λ _, item) (items turn)) turn)) b)
    | None => let '(reasoning_id, b) := next_item_id b in push_item_in_current_turn (make reasoning_id) b
    end in
  untracked (handle b) = handle (untracked b).
Proof.
  cbv beta zeta. rewrite ensure_untracked. destruct (ensure_turn b) as [turn b']. simpl.
  destruct (last (items turn) ≫= add) as [item|]; [by rewrite record_item_untracked|].
  by rewrite push_untracked.
Qed.

Lemma agent_reasoning_untracked text b :
  untracked (handle_agent_reasoning text b) = handle_agent_reasoning text (untracked b).
Proof.
  unfold handle_agent_reasoning. destruct (is_nil text); [done|].
  apply (reasoning_untracked (add_summary text) (λ reasoning_id, ThreadItem.Reasoning reasoning_id [text] [])).
Qed.

Lemma agent_reasoning_raw_untracked text b :
  untracked (handle_agent_reasoning_raw_content text b) = handle_agent_reasoning_raw_content text (untracked b).
Proof.
  unfold handle_agent_reasoning_raw_content. destruct (is_nil text); [done|].
  apply (reasoning_untracked (add_raw_content text) (λ reasoning_id, ThreadItem.Reasoning reasoning_id [] [text])).
Qed.

Lemma context_compacted_untracked b :
  untracked (handle_context_compacted b) = handle_context_compacted (untracked b).
Proof. unfold handle_context_compacted. simpl. by rewrite push_untracked. Qed.

Lemma compacted_untracked payload b :
  untracked (handle_compacted payload b) = handle_compacted payload (untracked b).
Proof. unfold handle_compacted. rewrite ensure_untracked. by destruct (ensure_turn b). Qed.

Lemma response_item_untracked item b :
  untracked (handle_response_item item b) = handle_response_item item (untracked b).
Proof.
  destruct item; try done. unfold handle_response_item, parse_hook_prompt_message.
  case_decide; [done|]. destruct (mapM _ _) as [[|]|]; [done| |done]. destruct id; simpl; by rewrite push_untracked.
Qed.

Lemma error_untracked payload b : untracked (handle_error payload b) = handle_error payload (untracked b).
Proof.
  unfold handle_error. simpl. destruct (negb _); [done|]. destruct (current_turn b); [|done].
  by rewrite change_current_untracked.
Qed.

Lemma abort_active_untracked payload b :
  untracked (abort_active_turn payload b) = abort_active_turn payload (untracked b).
Proof. unfold abort_active_turn. simpl. destruct (current_turn b); [|done]. by rewrite change_current_untracked. Qed.

Lemma turn_aborted_untracked payload b :
  untracked (handle_turn_aborted payload b) = handle_turn_aborted payload (untracked b).
Proof.
  unfold handle_turn_aborted. simpl. destruct (TurnAbortedEvent.turn_id payload); [|apply abort_active_untracked].
  destruct (is_some_and _ _); [apply abort_active_untracked|].
  destruct (find_turn _ _) as [[i t]|]; [by rewrite record_turn_untracked|apply abort_active_untracked].
Qed.

Lemma complete_active_untracked payload b :
  untracked (complete_active_turn payload b) = complete_active_turn payload (untracked b).
Proof.
  unfold complete_active_turn. simpl. destruct (current_turn b); [|done].
  by rewrite finish_untracked, change_current_untracked.
Qed.

Lemma turn_complete_untracked payload b :
  untracked (handle_turn_complete payload b) = handle_turn_complete payload (untracked b).
Proof.
  unfold handle_turn_complete. simpl. destruct (is_some_and _ _); [apply complete_active_untracked|].
  destruct (find_turn _ _) as [[i t]|]; [by rewrite record_turn_untracked|apply complete_active_untracked].
Qed.

Lemma turn_started_untracked payload b :
  untracked (handle_turn_started payload b) = handle_turn_started payload (untracked b).
Proof.
  unfold handle_turn_started, new_turn. rewrite <- finish_untracked. simpl.
  match goal with |- context [record_changed_pending_turn ?t (finish_current_turn b)] => set (turn := t) end.
  change (untracked (set_current_turn (Some turn) (record_changed_pending_turn turn (finish_current_turn b))))
    with (set_current_turn (Some turn) (untracked (record_changed_pending_turn turn (finish_current_turn b)))).
  by rewrite record_pending_untracked.
Qed.

Lemma rollback_untracked n b : untracked (handle_thread_rollback n b) = handle_thread_rollback n (untracked b).
Proof.
  unfold handle_thread_rollback. rewrite <- finish_untracked. unfold record_removed_turn_ids. simpl.
  by destruct (active_change_set (finish_current_turn b)).
Qed.

Lemma lifecycle_untracked key item b :
  untracked (handle_materialized_item_lifecycle key item b) = handle_materialized_item_lifecycle key item (untracked b).
Proof.
  unfold handle_materialized_item_lifecycle. destruct (should_upsert item); [|done].
  destruct (is_review_mode_item item); [apply upsert_review_untracked|apply upsert_turn_id_untracked].
Qed.

Lemma handle_event_untracked event b : untracked (handle_event event b) = handle_event event (untracked b).
Proof.
  destruct event; simpl;
    first
      [ apply user_message_untracked | apply agent_message_untracked | apply agent_reasoning_untracked
      | apply agent_reasoning_raw_untracked | apply context_compacted_untracked | apply error_untracked
      | apply turn_aborted_untracked | apply turn_complete_untracked | apply turn_started_untracked
      | apply rollback_untracked | apply lifecycle_untracked | apply upsert_current_untracked
      | apply upsert_of_event_untracked | apply upsert_turn_id_untracked | idtac ]; try done.
  - unfold handle_guardian_assessment. destruct (_ ≫= _); [apply upsert_of_event_untracked|done].
  - unfold handle_mcp_tool_call_end. destruct (McpToolCallEndEvent.result _); apply upsert_current_untracked.
  - unfold handle_collab_agent_spawn_end.
    destruct (CollabAgentSpawnEndEvent.new_thread_id _); apply upsert_current_untracked.
  - unfold handle_entered_review_mode. destruct (EnteredReviewModeEvent.item_id _); apply upsert_review_untracked.
  - unfold handle_exited_review_mode. destruct (ExitedReviewModeEvent.item_id _); apply upsert_review_untracked.
Qed.

Lemma handle_rollout_item_untracked item b :
  untracked (handle_rollout_item item b) = handle_rollout_item item (untracked b).
Proof.
  destruct item; try done; unfold handle_rollout_item.
  - apply (response_item_untracked _ (next_rollout b)).
  - apply (compacted_untracked _ (next_rollout b)).
  - apply (handle_event_untracked _ (next_rollout b)).
Qed.

(** * Runs of the builder *)

Lemma handle_step item b :
  kept b → kept (handle_rollout_item item b) ∧ ∃ cs, step (view b) cs (view (handle_rollout_item item b)).
Proof.
  intros Hk. set (b1 := set_active_change_set (Some empty_changes) b).
  destruct (handle_rollout_item_steps item b1) as (Hk' & cs & _ & Hs); [done|done|].
  assert (untracked (handle_rollout_item item b) = untracked (handle_rollout_item item b1)) as He
    by (by rewrite !handle_rollout_item_untracked).
  split.
  - intros turn Ht. apply Hk'. change (current_turn (untracked (handle_rollout_item item b1)) = Some turn).
    by rewrite <- He.
  - exists cs. change (view (handle_rollout_item item b)) with (view (untracked (handle_rollout_item item b))).
    by rewrite He.
Qed.

(** A handler that returns its changes leaves the builder the plain handler leaves. *)
Lemma handle_with_changes_step item b :
  kept b → active_change_set b = None →
  ∃ cs, handle_rollout_item_with_changes item b = (handle_rollout_item item b, cs) ∧
        step (view b) cs (view (handle_rollout_item item b)).
Proof.
  intros Hk Ha. unfold handle_rollout_item_with_changes, collect_changes.
  set (b1 := set_active_change_set (Some empty_changes) b).
  destruct (handle_rollout_item_steps item b1) as (_ & cs & -> & Hs); [done|done|]. simpl. exists cs.
  assert (set_active_change_set None (handle_rollout_item item b1) = handle_rollout_item item b) as He.
  { change (set_active_change_set None (handle_rollout_item item b1)) with (untracked (handle_rollout_item item b1)).
    rewrite handle_rollout_item_untracked. f_equal. destruct b. simpl in *. by subst. }
  rewrite <- He. by split.
Qed.

Lemma untracked_none b : active_change_set b = None → untracked b = b.
Proof. destruct b. simpl. by intros ->. Qed.

Lemma handle_rollout_item_none item b :
  active_change_set b = None → active_change_set (handle_rollout_item item b) = None.
Proof.
  intros Ha. rewrite <- (untracked_none b Ha), <- handle_rollout_item_untracked. done.
Qed.

Lemma replay_snoc items item b : replay (items ++ [item]) b = handle_rollout_item item (replay items b).
Proof. unfold replay. by rewrite foldl_app. Qed.

Lemma replay_kept items b : kept b → kept (replay items b).
Proof.
  intros Hk. induction items as [|item items IH] using rev_ind; [done|]. rewrite replay_snoc. by apply handle_step.
Qed.

Lemma new_kept n : kept (new n).
Proof. done. Qed.

Lemma finish_view b : kept b → finish b = view b.
Proof.
  intros Hk. pose proof (finish_silent b Hk) as (Hv & _). rewrite <- Hv. unfold view.
  rewrite finish_current_none. simpl. by rewrite app_nil_r.
Qed.

(** C27: [finish] loses nothing: the turns of a rebuilt thread are the finished
    turns and the one in progress, however the rollout ends, so the case in
    which [finish_current_turn] drops a turn never happens.  What the builder
    calls the active turn is the turn of the result at the position it names,
    and it has the id it names; there is none only if there are no turns. *)
Theorem finish_keeps_every_turn n rollout :
  let b := replay rollout (new n) in
  build_turns_from_rollout_items n rollout = turns b ++ (turn_from <$> option_list (current_turn b)) ∧
  (active_turn_position b ≫= λ position, build_turns_from_rollout_items n rollout !! position)
    = active_turn_snapshot b ∧
  active_turn_id b = turn_id <$> active_turn_snapshot b ∧
  (active_turn_snapshot b = None ↔ build_turns_from_rollout_items n rollout = []).
Proof.
  intros b. unfold build_turns_from_rollout_items. fold b.
  assert (finish b = view b) as -> by apply finish_view, replay_kept, new_kept. split; [done|].
  unfold active_turn_position, active_turn_snapshot, active_turn_id, view.
  destruct (current_turn b) as [turn|]; simpl.
  - rewrite list_lookup_middle by done. split; [done|]. split; [done|]. by destruct (turns b).
  - rewrite app_nil_r. destruct (turns b) as [|t ts] using rev_ind; [done|]. clear IHts. simpl.
    rewrite last_snoc, (proj2 (is_nil_false _)) by by destruct ts. simpl. rewrite length_app. simpl.
    replace (length ts + 1 - 1) with (length ts) by lia. rewrite list_lookup_middle by done.
    split; [done|]. split; [done|]. by destruct ts.
Qed.

End view.
