(* ===== verification/ThreadHistoryChanges.v ===== *)
(** The change sets of a batch ([ThreadHistoryChangeAccumulator]): merging the
    change sets of several events and applying the result is applying them one
    after the other, and so a batch of rollout items reports changes that take a
    client from the turns before to the turns after. *)

From S2P Require Import Prelude Text ResponseItems ContextFragments ThreadItems ThreadEvents ThreadHistory ThreadHistorySpec.

(** * A list with holes and the index of its keys *)

Section indexed.
Context {C K : Type} `{Countable K} (key : C → K).
Implicit Types (l : list (option C)) (m : gmap K nat).

(** The index has the key of every change in the list, and nothing else. *)
Definition indexed l m : Prop := ∀ k i, m !! k = Some i ↔ ∃ c, l !! i = Some (Some c) ∧ key c = k.

Definition compact l : list C := omap (λ o, o) l.

Lemma indexed_nil : indexed [] ∅.
Proof. intros k i. rewrite lookup_empty. split; [done|]. by intros (c & Hc & _). Qed.

Lemma elem_of_compact l c : c ∈ compact l ↔ ∃ i, l !! i = Some (Some c).
Proof.
  unfold compact. rewrite list_elem_of_omap. split.
  - intros (o & Ho & ->). by apply list_elem_of_lookup in Ho.
  - intros [i Hi]. exists (Some c). split; [by eapply list_elem_of_lookup_2|done].
Qed.

Lemma compact_app l k : compact (l ++ k) = compact l ++ compact k.
Proof. apply omap_app. Qed.

Lemma indexed_absent l m k : indexed l m → m !! k = None → k ∉ key <$> compact l.
Proof.
  intros Hm Hk (c & -> & (i & Hi)%elem_of_compact)%list_elem_of_fmap.
  assert (m !! key c = Some i) by (apply Hm; by exists c). congruence.
Qed.

Lemma indexed_push l m c :
  indexed l m → m !! key c = None → indexed (l ++ [Some c]) (<[key c := length l]> m).
Proof.
  intros Hm Hc k i. destruct (decide (key c = k)) as [<-|Hne].
  - rewrite lookup_insert_eq. split.
    + intros [= <-]. exists c. by rewrite list_lookup_middle.
    + intros (c' & Hi & Hk). apply lookup_snoc_Some in Hi as [[Hi Hl]|[-> _]]; [|done].
      assert (m !! key c = Some i) by (apply Hm; by exists c'). congruence.
  - rewrite lookup_insert_ne by done. rewrite (Hm k i). split.
    + intros (c' & Hi & Hk). exists c'. split; [by apply lookup_app_l_Some|done].
    + intros (c' & Hi & Hk). exists c'. apply lookup_snoc_Some in Hi as [[_ Hl]|[_ [= <-]]]; done.
Qed.

(** An entry of the index points at the only change with its key. *)
Lemma indexed_split l m k i :
  indexed l m → m !! k = Some i →
  i < length l ∧ ∃ c, key c = k ∧ l !! i = Some (Some c) ∧
  compact l = compact (take i l) ++ c :: compact (drop (S i) l) ∧
  k ∉ key <$> compact (take i l) ∧ k ∉ key <$> compact (drop (S i) l) ∧
  ∀ o, compact (<[i := o]> l) = compact (take i l) ++ compact [o] ++ compact (drop (S i) l).
Proof.
  intros Hm Hk. pose proof Hk as (c & Hi & Hc)%Hm. pose proof (lookup_lt_Some _ _ _ Hi) as Hlt.
  split; [done|]. exists c. split; [done|]. split; [done|].
  assert (∀ j c', l !! j = Some (Some c') → key c' = k → j = i) as Hone.
  { intros j c' Hj Hc'. assert (m !! k = Some j) by (apply Hm; by exists c'). congruence. }
  repeat split.
  - rewrite <- (take_drop_middle l i (Some c)) at 1 by done. by rewrite compact_app.
  - intros (c' & Hc' & (j & Hj)%elem_of_compact)%list_elem_of_fmap.
    apply lookup_take_Some in Hj as [Hj Hlt']. specialize (Hone j c' Hj (eq_sym Hc')). lia.
  - intros (c' & Hc' & (j & Hj)%elem_of_compact)%list_elem_of_fmap.
    rewrite lookup_drop in Hj. specialize (Hone _ c' Hj (eq_sym Hc')). lia.
  - intros o. rewrite insert_take_drop, compact_app by done. by destruct o.
Qed.

Lemma indexed_replace l m c i :
  indexed l m → m !! key c = Some i → indexed (<[i := Some c]> l) m.
Proof.
  intros Hm Hi k j. pose proof Hi as (c0 & Hl & Hc0)%Hm. pose proof (lookup_lt_Some _ _ _ Hl) as Hlt.
  destruct (decide (j = i)) as [->|Hne].
  - rewrite list_lookup_insert_eq by done. split.
    + intros Hk. pose proof Hk as (c1 & Hl1 & Hc1)%Hm. exists c. split; [done|]. congruence.
    + intros (c1 & [= <-] & <-). done.
  - rewrite list_lookup_insert_ne by done. apply Hm.
Qed.

Lemma indexed_remove l m k i :
  indexed l m → m !! k = Some i → indexed (<[i := None]> l) (delete k m).
Proof.
  intros Hm Hi k' j. pose proof Hi as (c0 & Hl & Hc0)%Hm. pose proof (lookup_lt_Some _ _ _ Hl) as Hlt.
  rewrite lookup_delete_Some. rewrite (Hm k' j). destruct (decide (j = i)) as [->|Hne].
  - rewrite list_lookup_insert_eq by done. split; [|by intros (? & ? & _)].
    intros (Hne & c & Hc & <-). rewrite Hl in Hc. by injection Hc as <-.
  - rewrite list_lookup_insert_ne by done. split; [tauto|]. intros (c & Hc & Hk'). split; [|by exists c].
    intros <-. apply Hne. assert (m !! k = Some j) by (apply Hm; by exists c). congruence.
Qed.

Lemma compact_remove l m k i :
  indexed l m → m !! k = Some i → compact (<[i := None]> l) = filter (λ c, key c ≠ k) (compact l).
Proof.
  intros Hm Hi. destruct (indexed_split l m k i Hm Hi) as (_ & c & Hc & _ & -> & Ht & Hd & ->).
  rewrite filter_app, filter_cons_False by (by intros []). simpl. f_equal; symmetry; apply filter_all.
  - intros x Hx Hk. apply Ht. rewrite <- Hk. by apply list_elem_of_fmap_2.
  - intros x Hx Hk. apply Hd. rewrite <- Hk. by apply list_elem_of_fmap_2.
Qed.

Lemma indexed_NoDup l m : indexed l m → NoDup (key <$> compact l).
Proof.
  intros Hm. assert (∀ i j c c', l !! i = Some (Some c) → l !! j = Some (Some c') → key c = key c' → i = j) as Hl.
  { intros i j c c' Hi Hj Hk. assert (m !! key c = Some i) by (apply Hm; by exists c).
    assert (m !! key c = Some j) by (apply Hm; by exists c'). congruence. }
  clear Hm. induction l as [|o l IH]; [constructor|].
  assert (NoDup (key <$> compact l)) as Hnd.
  { apply IH. intros i j c c' Hi Hj Hk. by injection (Hl (S i) (S j) c c' Hi Hj Hk). }
  destruct o as [c|]; [|done]. simpl. constructor; [|done].
  intros (c' & Hk & (j & Hj)%elem_of_compact)%list_elem_of_fmap. by specialize (Hl 0 (S j) c c' eq_refl Hj Hk).
Qed.

End indexed.

(** * Changes of the turns that commute or absorb each other *)

Section changes.
Context {O : Outside} {HT : HistoryTexts}.
Implicit Types (b : ThreadHistoryBuilder) (v : list Turn) (t : Turn) (cs : ThreadHistoryChangeSet)
  (c : ThreadHistoryTurnChange) (i : ThreadHistoryItemChange).

Lemma ids_update key f v : (∀ t, turn_id (f t) = turn_id t) → ids (update_turns key f v) = ids v.
Proof.
  intros Hf. unfold ids, update_turns. rewrite <- list_fmap_compose. apply list_fmap_ext. intros j t _.
  simpl. by case_decide.
Qed.

Lemma update_update key f g v :
  (∀ t, turn_id (f t) = turn_id t) →
  update_turns key g (update_turns key f v) = update_turns key (g ∘ f) v.
Proof.
  intros Hf. unfold update_turns. rewrite <- list_fmap_compose. apply list_fmap_ext. intros j t _. simpl.
  destruct (decide (turn_id t = key)) as [He|Hne]; [|by rewrite decide_False].
  by rewrite Hf, decide_True.
Qed.

Lemma update_commute key f key' g v :
  (∀ t, turn_id (f t) = turn_id t) → (∀ t, turn_id (g t) = turn_id t) →
  (key = key' → ∀ t, t ∈ v → turn_id t = key → f (g t) = g (f t)) →
  update_turns key f (update_turns key' g v) = update_turns key' g (update_turns key f v).
Proof.
  intros Hf Hg Hfg. unfold update_turns. rewrite <- !list_fmap_compose. apply list_fmap_ext. intros j t Hj. simpl.
  apply list_elem_of_lookup_2 in Hj.
  destruct (decide (turn_id t = key)) as [Hk|Hk], (decide (turn_id t = key')) as [Hk'|Hk'];
    rewrite ?Hf, ?Hg; repeat first [rewrite decide_True by done | rewrite decide_False by done]; try done.
  apply Hfg; [congruence|done..].
Qed.

Lemma update_ext key f g v :
  (∀ t, t ∈ v → turn_id t = key → f t = g t) → update_turns key f v = update_turns key g v.
Proof.
  intros Hfg. unfold update_turns. apply list_fmap_ext. intros j t Hj. apply list_elem_of_lookup_2 in Hj.
  case_decide; [by apply Hfg|done].
Qed.

Lemma ids_turn_change v c x : x ∈ ids (apply_turn_change v c) ↔ x ∈ ids v ∨ x = change_turn_id c.
Proof.
  unfold apply_turn_change. case_decide; [rewrite ids_update by done; naive_solver|].
  rewrite ids_app. simpl. set_solver.
Qed.

Lemma ids_turn_changes v cl x :
  x ∈ ids (foldl apply_turn_change v cl) ↔ x ∈ ids v ∨ x ∈ change_turn_id <$> cl.
Proof.
  revert v. induction cl as [|c cl IH]; intros v; simpl; [set_solver|].
  rewrite IH, ids_turn_change. set_solver.
Qed.

Lemma ids_item_change v i : ids (apply_item_change v i) = ids v.
Proof. by apply ids_update. Qed.

Lemma ids_item_changes v il : ids (foldl apply_item_change v il) = ids v.
Proof. revert v. induction il as [|i il IH]; intros v; simpl; [done|]. by rewrite IH, ids_item_change. Qed.

(** ** Of the same turn *)

Lemma turn_change_present v c :
  change_turn_id c ∈ ids v → apply_turn_change v c = update_turns (change_turn_id c) (set_meta c) v.
Proof. intros Hin. unfold apply_turn_change. by rewrite decide_True. Qed.

Lemma turn_change_absorbs v c c' :
  change_turn_id c' = change_turn_id c → apply_turn_change (apply_turn_change v c') c = apply_turn_change v c.
Proof.
  intros He. rewrite (turn_change_present _ c) by (apply ids_turn_change; by right).
  unfold apply_turn_change. rewrite He. case_decide.
  - by rewrite update_update by done.
  - rewrite update_turns_app, update_turns_absent by done. f_equal. unfold update_turns. simpl.
    rewrite decide_True by done. unfold turn_of_change, set_meta. simpl. by rewrite He.
Qed.

Lemma turn_change_commutes v c c' :
  change_turn_id c ≠ change_turn_id c' → change_turn_id c ∈ ids v →
  apply_turn_change (apply_turn_change v c') c = apply_turn_change (apply_turn_change v c) c'.
Proof.
  intros Hne Hin. rewrite (turn_change_present v c) by done.
  rewrite (turn_change_present _ c) by (apply ids_turn_change; by left).
  unfold apply_turn_change. rewrite ids_update by done. case_decide.
  - by apply update_commute.
  - rewrite update_turns_app. f_equal. unfold update_turns. simpl. by rewrite decide_False by done.
Qed.

Lemma turn_change_commutes_all v c cl :
  change_turn_id c ∉ change_turn_id <$> cl → change_turn_id c ∈ ids v →
  apply_turn_change (foldl apply_turn_change v cl) c = foldl apply_turn_change (apply_turn_change v c) cl.
Proof.
  revert v. induction cl as [|c' cl IH]; intros v; simpl; [done|]. rewrite not_elem_of_cons. intros [Hne Hcl] Hin.
  rewrite IH; [by rewrite turn_change_commutes|done|]. apply ids_turn_change. by left.
Qed.

Lemma turn_change_replaces v c c' l k :
  change_turn_id c' = change_turn_id c → change_turn_id c ∉ change_turn_id <$> k →
  apply_turn_change (foldl apply_turn_change v (l ++ c' :: k)) c = foldl apply_turn_change v (l ++ c :: k).
Proof.
  intros He Hk. rewrite !foldl_app. simpl. rewrite turn_change_commutes_all; [by rewrite turn_change_absorbs|done|].
  apply ids_turn_change. by right.
Qed.

(** ** Of the same item *)

Lemma put_item_present item l :
  item_id item ∈ item_id <$> l →
  put_item item l = (λ old, if decide (item_id old = item_id item) then item else old) <$> l.
Proof. intros. unfold put_item. by rewrite decide_True. Qed.

Lemma put_item_absent item l : item_id item ∉ item_id <$> l → put_item item l = l ++ [item].
Proof. intros. unfold put_item. by rewrite decide_False. Qed.

Lemma put_item_ids item l x : x ∈ item_id <$> put_item item l ↔ x ∈ item_id <$> l ∨ x = item_id item.
Proof.
  unfold put_item. case_decide as Hin; [|rewrite fmap_app; set_solver].
  rewrite <- list_fmap_compose.
  replace ((item_id ∘ (λ old, if decide (item_id old = item_id item) then item else old)) <$> l) with (item_id <$> l);
    [naive_solver|]. apply list_fmap_ext. intros j old _. simpl. by case_decide.
Qed.

Lemma replace_commute (x y : ThreadItem.t) (l : list ThreadItem.t) :
  item_id x ≠ item_id y →
  (λ old, if decide (item_id old = item_id x) then x else old) <$>
    ((λ old, if decide (item_id old = item_id y) then y else old) <$> l) =
  (λ old, if decide (item_id old = item_id y) then y else old) <$>
    ((λ old, if decide (item_id old = item_id x) then x else old) <$> l).
Proof.
  intros Hne. rewrite <- !list_fmap_compose. apply list_fmap_ext. intros j old _. simpl.
  repeat case_decide; congruence.
Qed.

Lemma put_item_absorbs x y l : item_id y = item_id x → put_item x (put_item y l) = put_item x l.
Proof.
  intros He. rewrite (put_item_present x) by (apply put_item_ids; by right).
  unfold put_item. rewrite He. case_decide.
  - rewrite <- list_fmap_compose. apply list_fmap_ext. intros j old _. simpl.
    destruct (decide (item_id old = item_id x)); [by rewrite decide_True|by rewrite decide_False].
  - rewrite fmap_app, fmap_at_absent by done. simpl. by rewrite decide_True.
Qed.

Lemma put_item_commutes x y l :
  item_id x ≠ item_id y → item_id x ∈ item_id <$> l → put_item x (put_item y l) = put_item y (put_item x l).
Proof.
  intros Hne Hin. rewrite (put_item_present x (put_item y l)) by (apply put_item_ids; by left).
  destruct (decide (item_id y ∈ item_id <$> l)) as [Hy|Hy].
  - rewrite !put_item_present by (rewrite ?put_item_ids; naive_solver). by apply replace_commute.
  - assert (item_id y ∉ item_id <$> put_item x l) as Hy' by (rewrite put_item_ids; naive_solver).
    rewrite (put_item_absent y l), (put_item_absent y (put_item x l)), (put_item_present x l) by done.
    rewrite fmap_app. simpl. by rewrite decide_False.
Qed.

(** A turn with the change's id has an item with its id. *)
Definition has_item v i : Prop :=
  ∀ t, t ∈ v → turn_id t = item_turn_id i → item_id (changed_item i) ∈ item_ids t.

Lemma elem_of_item_change v i t :
  t ∈ apply_item_change v i →
  ∃ t0, t0 ∈ v ∧ turn_id t = turn_id t0 ∧
    turn_items t = if decide (turn_id t0 = item_turn_id i) then put_item (changed_item i) (turn_items t0) else turn_items t0.
Proof.
  intros (t0 & -> & Ht0)%list_elem_of_fmap. exists t0. split; [done|]. by case_decide.
Qed.

Lemma has_item_same v i i' : item_change_key i' = item_change_key i → has_item (apply_item_change v i') i.
Proof.
  intros [= Ht Hi] t (t0 & Ht0 & Hid & Hits)%elem_of_item_change He. unfold item_ids. rewrite Hits.
  rewrite decide_True by congruence. apply put_item_ids. by right.
Qed.

Lemma has_item_kept v i i' : has_item v i → has_item (apply_item_change v i') i.
Proof.
  intros Hv t (t0 & Ht0 & Hid & Hits)%elem_of_item_change He. unfold item_ids. rewrite Hits.
  assert (item_id (changed_item i) ∈ item_ids t0) by (apply Hv; congruence).
  case_decide; [apply put_item_ids; by left|done].
Qed.

Lemma item_change_absorbs v i i' :
  item_change_key i' = item_change_key i → apply_item_change (apply_item_change v i') i = apply_item_change v i.
Proof.
  intros [= Ht Hi]. unfold apply_item_change. rewrite Ht, update_update by done. apply update_ext.
  intros t _ _. unfold set_turn_items. simpl. by rewrite put_item_absorbs.
Qed.

Lemma item_change_commutes v i i' :
  item_change_key i ≠ item_change_key i' → has_item v i →
  apply_item_change (apply_item_change v i') i = apply_item_change (apply_item_change v i) i'.
Proof.
  intros Hne Hv. unfold apply_item_change. apply update_commute; [done..|].
  intros Ht t Hin Hid. unfold set_turn_items. simpl. f_equal. apply put_item_commutes; [|by apply Hv].
  intros Hi. apply Hne. unfold item_change_key. by rewrite Ht, Hi.
Qed.

Lemma item_change_commutes_all v i il :
  item_change_key i ∉ item_change_key <$> il → has_item v i →
  apply_item_change (foldl apply_item_change v il) i = foldl apply_item_change (apply_item_change v i) il.
Proof.
  revert v. induction il as [|i' il IH]; intros v; simpl; [done|]. rewrite not_elem_of_cons. intros [Hne Hil] Hv.
  rewrite IH; [by rewrite item_change_commutes|done|]. by apply has_item_kept.
Qed.

Lemma item_change_replaces v i i' l k :
  item_change_key i' = item_change_key i → item_change_key i ∉ item_change_key <$> k →
  apply_item_change (foldl apply_item_change v (l ++ i' :: k)) i = foldl apply_item_change v (l ++ i :: k).
Proof.
  intros He Hk. rewrite !foldl_app. simpl. rewrite item_change_commutes_all; [by rewrite item_change_absorbs|done|].
  by apply has_item_same.
Qed.

(** ** Of turns and their items *)

Lemma turn_item_commutes v c i :
  item_turn_id i ∈ ids v →
  apply_turn_change (apply_item_change v i) c = apply_item_change (apply_turn_change v c) i.
Proof.
  intros Hin. unfold apply_turn_change. rewrite ids_item_change. case_decide as Hc.
  - unfold apply_item_change. by apply update_commute.
  - unfold apply_item_change. rewrite update_turns_app. f_equal. unfold update_turns. simpl.
    rewrite decide_False; [done|]. intros He. apply Hc. by rewrite He.
Qed.

Lemma turn_items_commute v c il :
  Forall (λ i, item_turn_id i ∈ ids v) il →
  apply_turn_change (foldl apply_item_change v il) c = foldl apply_item_change (apply_turn_change v c) il.
Proof.
  revert v. induction il as [|i il IH]; intros v; simpl; [done|]. intros [Hi Hil]%Forall_cons.
  rewrite IH; [by rewrite turn_item_commutes|]. by rewrite ids_item_change.
Qed.

(** ** Of turns that go *)

Lemma remove_update v key key' f :
  (∀ t, turn_id (f t) = turn_id t) → key' ≠ key →
  remove_turn (update_turns key' f v) key = update_turns key' f (remove_turn v key).
Proof.
  intros Hf Hne. unfold remove_turn, update_turns. induction v as [|t v IH]; simpl; [done|].
  destruct (decide (turn_id t = key')) as [Ht|Ht].
  - rewrite !filter_cons_True by (rewrite ?Hf; congruence). simpl. rewrite decide_True by done. by f_equal.
  - destruct (decide (turn_id t = key)).
    + by rewrite !filter_cons_False by (intros Hn; by apply Hn).
    + rewrite !filter_cons_True by done. simpl. rewrite decide_False by done. by f_equal.
Qed.

Lemma remove_update_same v key f :
  (∀ t, turn_id (f t) = turn_id t) → remove_turn (update_turns key f v) key = remove_turn v key.
Proof.
  intros Hf. unfold remove_turn, update_turns. induction v as [|t v IH]; simpl; [done|].
  destruct (decide (turn_id t = key)) as [Ht|Ht].
  - by rewrite !filter_cons_False by (rewrite ?Hf; intros Hn; by apply Hn).
  - rewrite !filter_cons_True by done. by f_equal.
Qed.

Lemma remove_item_change v i key :
  remove_turn (apply_item_change v i) key =
    if decide (item_turn_id i = key) then remove_turn v key else apply_item_change (remove_turn v key) i.
Proof. unfold apply_item_change. case_decide as Hi; [rewrite Hi; by apply remove_update_same|by apply remove_update]. Qed.

Lemma remove_item_changes v il key :
  remove_turn (foldl apply_item_change v il) key =
    foldl apply_item_change (remove_turn v key) (filter (λ i, item_turn_id i ≠ key) il).
Proof.
  revert v. induction il as [|i il IH]; intros v; simpl; [done|]. rewrite IH, remove_item_change.
  destruct (decide (item_turn_id i = key)).
  - by rewrite filter_cons_False by (intros Hn; by apply Hn).
  - by rewrite filter_cons_True by done.
Qed.

Lemma elem_of_ids_remove v key x : x ∈ ids (remove_turn v key) ↔ x ∈ ids v ∧ x ≠ key.
Proof.
  unfold ids, remove_turn. rewrite !list_elem_of_fmap. setoid_rewrite list_elem_of_filter. naive_solver.
Qed.

Lemma remove_turn_change v c key :
  remove_turn (apply_turn_change v c) key =
    if decide (change_turn_id c = key) then remove_turn v key else apply_turn_change (remove_turn v key) c.
Proof.
  destruct (decide (change_turn_id c = key)) as [<-|Hne]; unfold apply_turn_change.
  - case_decide.
    + by apply remove_update_same.
    + unfold remove_turn. rewrite filter_app, filter_cons_False by (intros Hn; by apply Hn).
      by rewrite app_nil_r.
  - destruct (decide (change_turn_id c ∈ ids v)) as [Hin|Hin].
    + rewrite decide_True by (by apply elem_of_ids_remove). by apply remove_update.
    + rewrite decide_False by (by intros [? _]%elem_of_ids_remove).
      unfold remove_turn. by rewrite filter_app, filter_cons_True.
Qed.

Lemma remove_turn_changes v cl key :
  remove_turn (foldl apply_turn_change v cl) key =
    foldl apply_turn_change (remove_turn v key) (filter (λ c, change_turn_id c ≠ key) cl).
Proof.
  revert v. induction cl as [|c cl IH]; intros v; simpl; [done|]. rewrite IH, remove_turn_change.
  destruct (decide (change_turn_id c = key)).
  - by rewrite filter_cons_False by (intros Hn; by apply Hn).
  - by rewrite filter_cons_True by done.
Qed.

(** * The accumulator *)

Implicit Types (acc : ThreadHistoryChangeAccumulator).

Record acc_ok acc : Prop := {
  acc_items_indexed : indexed item_change_key (acc_changed_items acc) (acc_changed_item_indexes acc);
  acc_turns_indexed : indexed change_turn_id (acc_changed_turns acc) (acc_changed_turn_indexes acc);
  acc_removed_indexed : ∀ key, is_Some (acc_removed_turn_indexes acc !! key) ↔ key ∈ acc_removed_turn_ids acc
}.

(** The turns after the changes of turns, and after all changes. *)
Definition acc_base acc v : list Turn :=
  foldl apply_turn_change (foldl remove_turn v (acc_removed_turn_ids acc)) (compact (acc_changed_turns acc)).
Definition acc_view acc v : list Turn := foldl apply_item_change (acc_base acc v) (compact (acc_changed_items acc)).

(** Every item has its turn. *)
Definition acc_closed acc v : Prop := Forall (λ i, item_turn_id i ∈ ids (acc_base acc v)) (compact (acc_changed_items acc)).

Lemma acc_finish_view acc v : apply_changes v (acc_finish acc) = acc_view acc v.
Proof. done. Qed.

Lemma ids_acc_view acc v : ids (acc_view acc v) = ids (acc_base acc v).
Proof. apply ids_item_changes. Qed.

Lemma empty_accumulator_ok : acc_ok empty_accumulator.
Proof.
  split; [apply indexed_nil|apply indexed_nil|]. intros key. simpl. rewrite lookup_empty.
  split; [by intros []|by intros ?%not_elem_of_nil].
Qed.

Lemma push_item_spec acc v i :
  acc_ok acc → acc_closed acc v → item_turn_id i ∈ ids (acc_base acc v) →
  ∃ acc', push_item_change acc i = Some acc' ∧ acc_ok acc' ∧ acc_closed acc' v ∧
    acc_base acc' v = acc_base acc v ∧ acc_view acc' v = apply_item_change (acc_view acc v) i.
Proof.
  intros [Hi Ht Hr] Hc Hin. unfold push_item_change.
  destruct (acc_changed_item_indexes acc !! item_change_key i) as [j|] eqn:Hj.
  - destruct (indexed_split _ _ _ _ _ Hi Hj) as (Hlt & i0 & Hk & _ & Hl & _ & Hd & Hins).
    rewrite vec_set_Some by done. simpl. eexists. split; [done|].
    split; [split; [by apply indexed_replace|done..]|]. split.
    + unfold acc_closed in *. simpl. rewrite Hins. rewrite Hl in Hc. apply Forall_app in Hc as [? [_ ?]%Forall_cons].
      apply Forall_app. split; [done|]. by constructor.
    + split; [done|]. unfold acc_view. simpl. rewrite Hins, Hl. symmetry. by apply item_change_replaces.
  - eexists. split; [done|]. split; [split; [by apply indexed_push|done..]|]. split.
    + unfold acc_closed in *. simpl. rewrite compact_app. apply Forall_app. split; [done|]. by constructor.
    + split; [done|]. unfold acc_view. simpl. by rewrite compact_app, foldl_app.
Qed.

Lemma push_turn_spec acc v c :
  acc_ok acc → acc_closed acc v →
  ∃ acc', push_turn_change acc c = Some acc' ∧ acc_ok acc' ∧ acc_closed acc' v ∧
    acc_view acc' v = apply_turn_change (acc_view acc v) c.
Proof.
  intros [Hi Ht Hr] Hc. unfold push_turn_change.
  assert (∀ acc', compact (acc_changed_items acc') = compact (acc_changed_items acc) →
    acc_base acc' v = apply_turn_change (acc_base acc v) c →
    acc_closed acc' v ∧ acc_view acc' v = apply_turn_change (acc_view acc v) c) as Hgo.
  { intros acc' Hits Hb. split.
    - unfold acc_closed. rewrite Hits, Hb. eapply Forall_impl; [exact Hc|]. intros i Hii.
      apply ids_turn_change. by left.
    - unfold acc_view. rewrite Hits, Hb. by rewrite turn_items_commute. }
  destruct (acc_changed_turn_indexes acc !! change_turn_id c) as [j|] eqn:Hj.
  - destruct (indexed_split _ _ _ _ _ Ht Hj) as (Hlt & c0 & Hk & _ & Hl & _ & Hd & Hins).
    rewrite vec_set_Some by done. simpl. eexists. split; [done|].
    split; [split; [done|by apply indexed_replace|done]|]. apply Hgo; [done|].
    unfold acc_base. simpl. rewrite Hins, Hl. symmetry. by apply turn_change_replaces.
  - eexists. split; [done|]. split; [split; [done|by apply indexed_push|done]|]. apply Hgo; [done|].
    unfold acc_base. simpl. by rewrite compact_app, foldl_app.
Qed.

(** ** A turn that goes *)

Lemma remove_item_key_at acc key j :
  acc_ok acc → acc_changed_item_indexes acc !! key = Some j →
  remove_item_key acc key =
    Some (set_acc_items (<[j := None]> (acc_changed_items acc)) (delete key (acc_changed_item_indexes acc)) acc).
Proof.
  intros [Hi _ _] Hj. destruct (indexed_split _ _ _ _ _ Hi Hj) as (Hlt & _).
  unfold remove_item_key. by rewrite Hj, vec_set_Some.
Qed.

Lemma remove_item_key_absent acc key :
  acc_changed_item_indexes acc !! key = None → remove_item_key acc key = Some acc.
Proof. unfold remove_item_key. by intros ->. Qed.

Lemma remove_keys_spec acc keys :
  acc_ok acc →
  ∃ acc', option_foldl remove_item_key acc keys = Some acc' ∧ acc_ok acc' ∧
    acc_changed_turns acc' = acc_changed_turns acc ∧ acc_removed_turn_ids acc' = acc_removed_turn_ids acc ∧
    compact (acc_changed_items acc') = filter (λ i, item_change_key i ∉ keys) (compact (acc_changed_items acc)).
Proof.
  revert acc. induction keys as [|key keys IH]; intros acc Hok; simpl.
  - exists acc. repeat split; try apply Hok. symmetry. apply filter_all. intros i _. apply not_elem_of_nil.
  - destruct (acc_changed_item_indexes acc !! key) as [j|] eqn:Hj.
    + rewrite (remove_item_key_at _ _ _ Hok Hj). simpl. destruct Hok as [Hi Ht Hr].
      destruct (IH (set_acc_items (<[j:=None]> (acc_changed_items acc)) (delete key (acc_changed_item_indexes acc)) acc))
        as (acc' & -> & Hok' & Hts & Hrm & Hits); [split; [by apply indexed_remove|done..]|].
      exists acc'. split; [done|]. split; [done|]. split; [done|]. split; [done|]. rewrite Hits. simpl.
      rewrite (compact_remove item_change_key _ (acc_changed_item_indexes acc) key) by done.
      rewrite list_filter_filter. apply list_filter_iff. intros i. rewrite not_elem_of_cons. naive_solver.
    + rewrite (remove_item_key_absent _ _ Hj). simpl.
      destruct (IH acc Hok) as (acc' & -> & Hok' & Hts & Hrm & Hits).
      exists acc'. split; [done|]. split; [done|]. split; [done|]. split; [done|]. rewrite Hits.
      pose proof (indexed_absent _ _ _ _ (acc_items_indexed _ Hok) Hj) as Hno.
      apply filter_ext_in. intros i Hin. rewrite not_elem_of_cons. split; [|naive_solver].
      intros Hk. split; [|done]. intros He. apply Hno. rewrite <- He. by apply list_elem_of_fmap_2.
Qed.

(** Taking out the turn with [key]: the last part of [push_removed_turn_id]. *)
Lemma remove_turn_key_spec acc key :
  acc_ok acc →
  ∃ acc', match acc_changed_turn_indexes acc !! key with
          | Some index =>
              changes ← vec_set index None (acc_changed_turns acc);
              Some (set_acc_turns changes (delete key (acc_changed_turn_indexes acc)) acc)
          | None => Some acc
          end = Some acc' ∧ acc_ok acc' ∧
    acc_changed_items acc' = acc_changed_items acc ∧
    acc_changed_item_indexes acc' = acc_changed_item_indexes acc ∧
    acc_removed_turn_ids acc' = acc_removed_turn_ids acc ∧
    compact (acc_changed_turns acc') = filter (λ c, change_turn_id c ≠ key) (compact (acc_changed_turns acc)).
Proof.
  intros Hok. destruct (acc_changed_turn_indexes acc !! key) as [j|] eqn:Hj.
  - destruct Hok as [Hi Ht Hr]. destruct (indexed_split _ _ _ _ _ Ht Hj) as (Hlt & _).
    rewrite vec_set_Some by done. simpl. eexists. split; [done|]. simpl.
    split; [split; [done|by apply indexed_remove|done]|]. repeat (split; [done|]).
    by apply (compact_remove _ _ (acc_changed_turn_indexes acc)).
  - exists acc. repeat (split; [done|]). symmetry. apply filter_all. intros c Hc He.
    apply (indexed_absent _ _ _ _ (acc_turns_indexed _ Hok) Hj). rewrite <- He. by apply list_elem_of_fmap_2.
Qed.

Lemma push_removed_spec acc v key :
  acc_ok acc → acc_closed acc v →
  ∃ acc', push_removed_turn_id acc key = Some acc' ∧ acc_ok acc' ∧ acc_closed acc' v ∧
    acc_view acc' v = remove_turn (acc_view acc v) key.
Proof.
  intros Hok Hc. unfold push_removed_turn_id.
  set (acc1 := match acc_removed_turn_indexes acc !! key with Some _ => acc | None => _ end).
  assert (acc_ok acc1 ∧ acc_changed_items acc1 = acc_changed_items acc ∧
    acc_changed_turns acc1 = acc_changed_turns acc ∧
    ∀ v, foldl remove_turn v (acc_removed_turn_ids acc1) = remove_turn (foldl remove_turn v (acc_removed_turn_ids acc)) key)
    as (Hok1 & Hits1 & Hts1 & Hrm1).
  { unfold acc1. destruct (acc_removed_turn_indexes acc !! key) as [j|] eqn:Hj.
    - split; [done|]. split; [done|]. split; [done|]. intros w. rewrite remove_turns. unfold remove_turn.
      rewrite list_filter_filter. apply list_filter_iff. intros t. split; [|tauto]. intros Ht. split; [|done].
      intros He. apply Ht. rewrite He. apply (acc_removed_indexed _ Hok). by eexists.
    - split; [|split; [done|]; split; [done|]; intros w; simpl; by rewrite foldl_app].
      destruct Hok as [Hi Ht Hr]. split; [done|done|]. intros k. simpl.
      rewrite lookup_insert_is_Some', Hr, elem_of_app, list_elem_of_singleton. naive_solver. }
  clearbody acc1. destruct (remove_turn_key_spec acc1 key Hok1) as (acc2 & -> & Hok2 & Hits2 & Hidx2 & Hrm2 & Hts2).
  simpl. set (keys := filter _ _).
  destruct (remove_keys_spec acc2 keys Hok2) as (acc3 & -> & Hok3 & Hts3 & Hrm3 & Hits3).
  assert (∀ i, i ∈ compact (acc_changed_items acc2) → (item_change_key i ∉ keys ↔ item_turn_id i ≠ key)) as Hkeys.
  { intros i (j & Hj)%elem_of_compact. unfold keys. rewrite list_elem_of_filter. split; [|by intros Hne [? _]].
    intros Hno Heq. apply Hno. split; [done|]. apply list_elem_of_fmap. exists (item_change_key i, j).
    split; [done|]. apply elem_of_map_to_list, (acc_items_indexed _ Hok2). by exists i. }
  assert (compact (acc_changed_items acc3) = filter (λ i, item_turn_id i ≠ key) (compact (acc_changed_items acc))) as Hits.
  { rewrite Hits3, (filter_ext_in _ _ _ Hkeys). by rewrite Hits2, Hits1. }
  assert (acc_base acc3 v = remove_turn (acc_base acc v) key) as Hb.
  { unfold acc_base. by rewrite Hrm3, Hrm2, Hrm1, Hts3, Hts2, Hts1, remove_turn_changes. }
  exists acc3. split; [done|]. split; [done|]. split.
  - unfold acc_closed. rewrite Hits, Hb. apply Forall_forall. intros i (Hne & Hi)%list_elem_of_filter.
    apply elem_of_ids_remove. split; [|done]. by eapply Forall_forall in Hc.
  - unfold acc_view. by rewrite Hits, Hb, remove_item_changes.
Qed.

(** ** A change set *)

Lemma push_swap acc i c :
  (acc ← push_item_change acc i; push_turn_change acc c) =
  (acc ← push_turn_change acc c; push_item_change acc i).
Proof.
  unfold push_item_change, push_turn_change, vec_set.
  repeat (simpl; case_match); simplify_eq/=; try done; congruence.
Qed.

Lemma push_swap_all acc il cl :
  (acc ← option_foldl push_item_change acc il; option_foldl push_turn_change acc cl) =
  (acc ← option_foldl push_turn_change acc cl; option_foldl push_item_change acc il).
Proof.
  assert (∀ acc i, (acc ← push_item_change acc i; option_foldl push_turn_change acc cl) =
                   (acc ← option_foldl push_turn_change acc cl; push_item_change acc i)) as Hone.
  { clear acc. induction cl as [|c cl IH]; intros acc i; simpl; [by destruct (push_item_change acc i)|].
    pose proof (push_swap acc i c) as Hs.
    destruct (push_item_change acc i) as [acc1|] eqn:H1, (push_turn_change acc c) as [acc2|] eqn:H2; simpl in *.
    - rewrite Hs, <- IH. by destruct (push_item_change acc2 i).
    - by rewrite Hs.
    - rewrite <- IH, <- Hs. done.
    - done. }
  revert acc. induction il as [|i il IH]; intros acc; simpl; [by destruct (option_foldl push_turn_change acc cl)|].
  specialize (Hone acc i). destruct (push_item_change acc i) as [acc1|] eqn:H1; simpl in *.
  - rewrite IH, Hone. by destruct (option_foldl push_turn_change acc cl).
  - destruct (option_foldl push_turn_change acc cl); simpl in *; [by rewrite <- Hone|done].
Qed.

(** The items of a change set are of turns that are there once its turns are. *)
Definition changes_closed v cs : Prop :=
  Forall (λ i, item_turn_id i ∈
            ids (foldl apply_turn_change (foldl remove_turn v (removed_turn_ids cs)) (changed_turns cs)))
    (changed_items cs).

Lemma acc_push_spec acc v cs :
  acc_ok acc → acc_closed acc v → changes_closed (acc_view acc v) cs →
  ∃ acc', acc_push acc cs = Some acc' ∧ acc_ok acc' ∧ acc_closed acc' v ∧
    acc_view acc' v = apply_changes (acc_view acc v) cs.
Proof.
  intros Hok Hc Hcs. unfold acc_push, apply_changes, changes_closed in *.
  assert (∃ acc1, option_foldl push_removed_turn_id acc (removed_turn_ids cs) = Some acc1 ∧ acc_ok acc1 ∧
    acc_closed acc1 v ∧ acc_view acc1 v = foldl remove_turn (acc_view acc v) (removed_turn_ids cs))
    as (acc1 & -> & Hok1 & Hc1 & Hv1).
  { clear Hcs. revert acc Hok Hc. induction (removed_turn_ids cs) as [|key keys IH]; intros acc Hok Hc; simpl;
      [by exists acc|].
    destruct (push_removed_spec acc v key Hok Hc) as (acc1 & -> & Hok1 & Hc1 & <-). simpl. by apply IH. }
  simpl. rewrite push_swap_all. rewrite <- Hv1 in Hcs |- *. clear acc Hok Hc Hv1.
  assert (∃ acc2, option_foldl push_turn_change acc1 (changed_turns cs) = Some acc2 ∧ acc_ok acc2 ∧
    acc_closed acc2 v ∧ acc_view acc2 v = foldl apply_turn_change (acc_view acc1 v) (changed_turns cs))
    as (acc2 & -> & Hok2 & Hc2 & Hv2).
  { clear Hcs. revert acc1 Hok1 Hc1. induction (changed_turns cs) as [|c cl IH]; intros acc Hok Hc; simpl;
      [by exists acc|].
    destruct (push_turn_spec acc v c Hok Hc) as (acc1 & -> & Hok1 & Hc1 & <-). simpl. by apply IH. }
  simpl. rewrite <- Hv2 in Hcs |- *. clear acc1 Hok1 Hc1 Hv2. rewrite ids_acc_view in Hcs.
  revert acc2 Hok2 Hc2 Hcs. induction (changed_items cs) as [|i il IH]; intros acc Hok Hc Hcs; simpl; [by exists acc|].
  apply Forall_cons in Hcs as [Hi Hil].
  destruct (push_item_spec acc v i Hok Hc Hi) as (acc1 & -> & Hok1 & Hc1 & Hb & <-). simpl.
  apply IH; [done|done|]. by rewrite Hb.
Qed.

(** * A batch of rollout items *)

Lemma step_closed v cs v' : step v cs v' → changes_closed v cs.
Proof.
  destruct 1; unfold changes_closed; simpl; try done; (constructor; [|done]).
  - simpl. rewrite ids_app. simpl. set_solver.
  - simpl. apply ids_turn_change. by right.
Qed.

Lemma push_rollout_item_at item b acc b' cs :
  handle_rollout_item_with_changes item b = (b', cs) →
  push_rollout_item (b, acc) item = (acc ← acc_push acc cs; Some (b', acc)).
Proof. intros He. unfold push_rollout_item. cbn [fst snd]. by rewrite He. Qed.

Lemma push_rollout_items_spec items b acc v :
  kept b → active_change_set b = None → acc_ok acc → acc_closed acc v → acc_view acc v = view b →
  (∀ k, unique (view (replay (take k items) b))) →
  ∃ acc', option_foldl push_rollout_item (b, acc) items = Some (replay items b, acc') ∧
    acc_ok acc' ∧ acc_view acc' v = view (replay items b).
Proof.
  revert b acc. induction items as [|item items IH]; intros b acc Hk Ha Hok Hc Hv Hu; [by exists acc|]. simpl.
  destruct (handle_with_changes_step item b Hk Ha) as (cs & Hcs & Hs). rewrite (push_rollout_item_at _ _ _ _ _ Hcs).
  pose proof (Hu 0) as Hu0. pose proof (Hu 1) as Hu1. simpl in Hu0, Hu1.
  destruct (acc_push_spec acc v cs Hok Hc) as (acc1 & -> & Hok1 & Hc1 & Hv1); [rewrite Hv; by eapply step_closed|].
  simpl. apply IH; [by apply handle_step|by apply handle_rollout_item_none|done|done| |].
  - rewrite Hv1, Hv. by apply step_applies.
  - intros k. apply (Hu (S k)).
Qed.

(** C12: The change set of a batch is what happened to the thread.  Take a builder
    that has read the rollout [before] and hand it the rollout items [items] as
    one tracked batch, which coalesces the changes of the single items: no index
    of the accumulator is out of range; the builder ends where it ends without
    tracking; no turn and no item of a turn is reported twice; and the turns
    rebuilt from [before], with the removed turns taken out, the changed turns
    updated or appended and then the changed items put into their turns, are the
    turns rebuilt from [before] and [items] together.  The only condition is that
    no turn id is used twice, and no item id within a turn, at any point of the
    batch. *)
Theorem batch_changes_replay n before items :
  (∀ k, unique (build_turns_from_rollout_items n (before ++ take k items))) →
  ∃ cs,
    handle_rollout_items_with_changes items (replay before (new n)) = Some (replay (before ++ items) (new n), cs) ∧
    apply_changes (build_turns_from_rollout_items n before) cs = build_turns_from_rollout_items n (before ++ items) ∧
    NoDup (change_turn_id <$> changed_turns cs) ∧
    NoDup (item_change_key <$> changed_items cs).
Proof.
  assert (∀ rollout, build_turns_from_rollout_items n rollout = view (replay rollout (new n))) as Hview
    by (intros rollout; apply finish_view, replay_kept, new_kept).
  assert (∀ k, replay (before ++ k) (new n) = replay k (replay before (new n))) as Happ
    by (intros k; apply foldl_app).
  intros Hu. setoid_rewrite Hview in Hu. setoid_rewrite Happ in Hu. rewrite !Hview, Happ.
  destruct (push_rollout_items_spec items (replay before (new n)) empty_accumulator (view (replay before (new n))))
    as (acc & He & Hok & Hv); try done.
  - apply replay_kept, new_kept.
  - clear. induction before as [|item before IH] using rev_ind; [done|]. rewrite replay_snoc.
    by apply handle_rollout_item_none.
  - apply empty_accumulator_ok.
  - apply Forall_nil_2.
  - exists (acc_finish acc). unfold handle_rollout_items_with_changes. rewrite He. simpl.
    split; [done|]. split; [done|]. destruct Hok as [Hi Ht _].
    split; [by eapply indexed_NoDup|by eapply indexed_NoDup].
Qed.

End changes.
