(* ===== verification/LegacyEvents.v ===== *)
(** The older events the core still sends for its items
    ([protocol/src/legacy_events.rs], with the message functions of
    [UserMessageItem] of [protocol/src/items.rs]), and what the history makes of
    them: the events of a completed item build the very item a client is shown
    for it, and the event of a user message the inputs of the message. *)

From S2P Require Import Prelude Text Machine ResponseItems ContextFragments ThreadItems ThreadEvents ThreadHistory.

(** * User messages *)

(** [text.get(start..end)] of the range of an element *)
Definition text_range (text : str) (range : ByteRange) : option str :=
  if bool_decide (range_start range ≤ range_end range)%N then
    '(_, rest) ← split_at_byte text (range_start range);
    '(found, _) ← split_at_byte rest (range_end range - range_start range);
    Some found
  else None.

(** [TextElement::placeholder] *)
Definition element_placeholder (element : TextElement) (text : str) : option str :=
  match placeholder element with
  | Some placeholder => Some placeholder
  | None => text_range text (byte_range element)
  end.

(** [UserMessageItem::message] *)
Definition input_text (c : CoreUserInput.t) : str :=
  match c with CoreUserInput.Text text _ => text | _ => [] end.
Definition message (content : list CoreUserInput.t) : str := concat (input_text <$> content).

(** [UserMessageItem::text_elements]; the elements of one text are moved by the
    length of the texts before it. *)
Definition rebase (offset : N) (text : str) (elem : TextElement) : TextElement :=
  mkTextElement
    (mkByteRange (offset + range_start (byte_range elem)) (offset + range_end (byte_range elem)))
    (element_placeholder elem text).
Fixpoint text_elements_from (offset : N) (content : list CoreUserInput.t) : list TextElement :=
  match content with
  | [] => []
  | CoreUserInput.Text text text_elements :: content =>
      (rebase offset text <$> text_elements) ++ text_elements_from (offset + byte_len text) content
  | _ :: content => text_elements_from offset content
  end.
Definition text_elements (content : list CoreUserInput.t) : list TextElement := text_elements_from 0 content.

Definition image_urls (content : list CoreUserInput.t) : list str :=
  omap (λ c, match c with CoreUserInput.Image image_url _ => Some image_url | _ => None end) content.

(** [trim_trailing_default_image_details]: the loop pops from the end. *)
Fixpoint drop_default (details : list (option ImageDetail)) : list (option ImageDetail) :=
  match details with None :: details => drop_default details | details => details end.
Definition trim_trailing_default_image_details (details : list (option ImageDetail)) : list (option ImageDetail) :=
  reverse (drop_default (reverse details)).

Definition image_details (content : list CoreUserInput.t) : list (option ImageDetail) :=
  trim_trailing_default_image_details
    (omap (λ c, match c with CoreUserInput.Image _ detail => Some detail | _ => None end) content).
Definition local_image_paths (content : list CoreUserInput.t) : list str :=
  omap (λ c, match c with CoreUserInput.LocalImage path _ => Some path | _ => None end) content.
Definition local_image_details (content : list CoreUserInput.t) : list (option ImageDetail) :=
  trim_trailing_default_image_details
    (omap (λ c, match c with CoreUserInput.LocalImage _ detail => Some detail | _ => None end) content).
Definition audio_urls (content : list CoreUserInput.t) : list str :=
  omap (λ c, match c with CoreUserInput.Audio audio_url => Some audio_url | _ => None end) content.
Definition local_audio_paths (content : list CoreUserInput.t) : list str :=
  omap (λ c, match c with CoreUserInput.LocalAudio path => Some path | _ => None end) content.

Definition as_legacy_user_message_event (client_id : option str) (content : list CoreUserInput.t) : UserMessageEvent.t :=
  UserMessageEvent.mk client_id (message content) (Some (image_urls content)) (image_details content)
    (local_image_paths content) (local_image_details content) (Some (audio_urls content))
    (local_audio_paths content) (text_elements content).

(** * The events of an item *)

Section events.
Context {O : Outside} {HT : HistoryTexts}.

(** [Duration::default] and [AgentStatus::NotFound] stand for what is missing;
    the default effort is [Medium]. *)
Definition zero_duration : Duration := mkDuration 0 0.

Definition agent_message_legacy_events (item : AgentMessageItem) : list EventMsg.t :=
  (λ text, EventMsg.AgentMessage
     (AgentMessageEvent.mk text (agent_message_phase item) (agent_message_citation item))) <$> agent_message_content item.

Definition reasoning_legacy_events (summary_text raw_content : list str) (show_raw_agent_reasoning : bool) : list EventMsg.t :=
  (EventMsg.AgentReasoning <$> summary_text) ++
  (if show_raw_agent_reasoning then EventMsg.AgentReasoningRawContent <$> raw_content else []).

Definition command_legacy_begin_event (c : CommandExecutionItem) (turn_id : str) (started_at_ms : Z) : EventMsg.t :=
  EventMsg.ExecCommandBegin
    (ExecCommandBeginEvent.mk (command_id c) (command_process_id c) turn_id started_at_ms (command_words c)
       (command_cwd c) (command_parsed c) (command_source c) (command_interaction_input c)).

Definition exec_command_status (status : CoreCommandExecutionStatus.t) : option CoreExecCommandStatus.t :=
  match status with
  | CoreCommandExecutionStatus.InProgress => None
  | CoreCommandExecutionStatus.Completed => Some CoreExecCommandStatus.Completed
  | CoreCommandExecutionStatus.Failed => Some CoreExecCommandStatus.Failed
  | CoreCommandExecutionStatus.Declined => Some CoreExecCommandStatus.Declined
  end.
Definition command_legacy_end_event (c : CommandExecutionItem) (turn_id : str) (completed_at_ms : Z) : option EventMsg.t :=
  status ← exec_command_status (command_status c);
  Some (EventMsg.ExecCommandEnd
    (ExecCommandEndEvent.mk (command_id c) (command_process_id c) turn_id completed_at_ms (command_words c)
       (command_cwd c) (command_parsed c) (command_source c) (command_interaction_input c)
       (default [] (command_stdout c)) (default [] (command_stderr c)) (default [] (command_aggregated_output c))
       (default 0%Z (command_exit_code c)) (default zero_duration (command_duration c))
       (default [] (command_formatted_output c)) status)).

Definition dynamic_legacy_request_event (c : DynamicToolCallItem) (turn_id : str) (started_at_ms : Z) : EventMsg.t :=
  EventMsg.DynamicToolCallRequest
    (DynamicToolCallRequest.mk (dynamic_id c) turn_id started_at_ms (dynamic_namespace c) (dynamic_tool c)
       (dynamic_arguments c)).
Definition dynamic_legacy_response_event (c : DynamicToolCallItem) (turn_id : str) (completed_at_ms : Z) : option EventMsg.t :=
  match dynamic_status c with
  | CoreDynamicToolCallStatus.InProgress => None
  | _ =>
      Some (EventMsg.DynamicToolCallResponse
        (DynamicToolCallResponseEvent.mk (dynamic_id c) turn_id completed_at_ms (dynamic_namespace c)
           (dynamic_tool c) (dynamic_arguments c) (default [] (dynamic_content_items c))
           (default false (dynamic_success c)) (dynamic_error c) (default zero_duration (dynamic_duration c))))
  end.

(** [receiver_agent_identity] and [agent_status] *)
Definition receiver_agent_identity (c : CollabAgentToolCallItem) (thread_id : ThreadId) : option str * option str :=
  let receiver_agent := snd <$> list_find (λ agent, ref_thread_id agent = thread_id) (collab_receiver_agents c) in
  (receiver_agent ≫= ref_agent_nickname, receiver_agent ≫= ref_agent_role).
Definition agent_status_of (c : CollabAgentToolCallItem) (thread_id : ThreadId) : AgentStatus.t :=
  default AgentStatus.NotFound (collab_agents_states c !! thread_id).

Definition collab_legacy_begin_event (c : CollabAgentToolCallItem) (started_at_ms : Z) : option EventMsg.t :=
  let receiver_thread_id := head (collab_receiver_thread_ids c) in
  match collab_tool c with
  | CoreCollabAgentTool.SpawnAgent =>
      Some (EventMsg.CollabAgentSpawnBegin
        (CollabAgentSpawnBeginEvent.mk (collab_id c) started_at_ms (collab_sender_thread_id c)
           (default [] (collab_prompt c)) (default [] (collab_model c)) (default Medium (collab_reasoning_effort c))))
  | CoreCollabAgentTool.SendInput =>
      receiver ← receiver_thread_id;
      Some (EventMsg.CollabAgentInteractionBegin
        (CollabAgentInteractionBeginEvent.mk (collab_id c) started_at_ms (collab_sender_thread_id c) receiver
           (default [] (collab_prompt c))))
  | CoreCollabAgentTool.ResumeAgent =>
      receiver ← receiver_thread_id;
      let '(nickname, role) := receiver_agent_identity c receiver in
      Some (EventMsg.CollabResumeBegin
        (CollabResumeBeginEvent.mk (collab_id c) started_at_ms (collab_sender_thread_id c) receiver nickname role))
  | CoreCollabAgentTool.Wait =>
      Some (EventMsg.CollabWaitingBegin
        (CollabWaitingBeginEvent.mk started_at_ms (collab_sender_thread_id c) (collab_receiver_thread_ids c)
           (collab_receiver_agents c) (collab_id c)))
  | CoreCollabAgentTool.CloseAgent =>
      receiver ← receiver_thread_id;
      Some (EventMsg.CollabCloseBegin
        (CollabCloseBeginEvent.mk (collab_id c) started_at_ms (collab_sender_thread_id c) receiver))
  end.

Definition status_entry (c : CollabAgentToolCallItem) (agent : CollabAgentRef) : CollabAgentStatusEntry :=
  mkStatusEntry (ref_thread_id agent) (ref_agent_nickname agent) (ref_agent_role agent)
    (agent_status_of c (ref_thread_id agent)).

Definition collab_legacy_end_event (c : CollabAgentToolCallItem) (completed_at_ms : Z) : option EventMsg.t :=
  let receiver_thread_id := head (collab_receiver_thread_ids c) in
  match collab_status c with
  | CoreCollabAgentToolCallStatus.InProgress => None
  | _ =>
      match collab_tool c with
      | CoreCollabAgentTool.SpawnAgent =>
          let '(nickname, role) := default (None, None) (receiver_agent_identity c <$> receiver_thread_id) in
          Some (EventMsg.CollabAgentSpawnEnd
            (CollabAgentSpawnEndEvent.mk (collab_id c) completed_at_ms (collab_sender_thread_id c)
               receiver_thread_id nickname role (default [] (collab_prompt c)) (default [] (collab_model c))
               (default Medium (collab_reasoning_effort c))
               (default AgentStatus.NotFound (agent_status_of c <$> receiver_thread_id))))
      | CoreCollabAgentTool.SendInput =>
          receiver ← receiver_thread_id;
          let '(nickname, role) := receiver_agent_identity c receiver in
          Some (EventMsg.CollabAgentInteractionEnd
            (CollabAgentInteractionEndEvent.mk (collab_id c) completed_at_ms (collab_sender_thread_id c) receiver
               nickname role (default [] (collab_prompt c)) (agent_status_of c receiver)))
      | CoreCollabAgentTool.ResumeAgent =>
          receiver ← receiver_thread_id;
          let '(nickname, role) := receiver_agent_identity c receiver in
          Some (EventMsg.CollabResumeEnd
            (CollabResumeEndEvent.mk (collab_id c) completed_at_ms (collab_sender_thread_id c) receiver
               nickname role (agent_status_of c receiver)))
      | CoreCollabAgentTool.Wait =>
          Some (EventMsg.CollabWaitingEnd
            (CollabWaitingEndEvent.mk (collab_sender_thread_id c) (collab_id c) completed_at_ms
               (status_entry c <$> collab_receiver_agents c) (collab_agents_states c)))
      | CoreCollabAgentTool.CloseAgent =>
          receiver ← receiver_thread_id;
          let '(nickname, role) := receiver_agent_identity c receiver in
          Some (EventMsg.CollabCloseEnd
            (CollabCloseEndEvent.mk (collab_id c) completed_at_ms (collab_sender_thread_id c) receiver
               nickname role (agent_status_of c receiver)))
      end
  end.

Definition file_change_legacy_begin_event (id : str) (changes : gmap str FileChange.t) (auto_approved : option bool)
    (turn_id : str) : EventMsg.t :=
  EventMsg.PatchApplyBegin (PatchApplyBeginEvent.mk id turn_id (default false auto_approved) changes).

Definition is_completed (status : CorePatchApplyStatus.t) : bool :=
  match status with CorePatchApplyStatus.Completed => true | _ => false end.
Definition file_change_legacy_end_event (id : str) (changes : gmap str FileChange.t)
    (status : option CorePatchApplyStatus.t) (stdout stderr : option str) (turn_id : str) : option EventMsg.t :=
  status ← status;
  Some (EventMsg.PatchApplyEnd
    (PatchApplyEndEvent.mk id turn_id (default [] stdout) (default [] stderr) (is_completed status) changes status)).

(** [(!arguments.is_null()).then(..)] *)
Definition mcp_invocation (c : McpToolCallItem) : McpInvocation.t :=
  McpInvocation.mk (mcp_server c) (mcp_tool c) (if is_null (mcp_arguments c) then None else Some (mcp_arguments c)).
Definition mcp_legacy_begin_event (c : McpToolCallItem) : EventMsg.t :=
  EventMsg.McpToolCallBegin
    (McpToolCallBeginEvent.mk (mcp_id c) (mcp_invocation c) (mcp_connector_id c) (mcp_resource_uri c)
       (mcp_link_id c) (mcp_app_name c) (mcp_action_name c) (mcp_plugin_id c)).
Definition mcp_legacy_end_event (c : McpToolCallItem) : option EventMsg.t :=
  result ← match mcp_result c, mcp_error c with
           | Some result, _ => Some (Ok result)
           | None, Some error => Some (Err error)
           | None, None => None
           end;
  duration ← mcp_duration c;
  Some (EventMsg.McpToolCallEnd
    (McpToolCallEndEvent.mk (mcp_id c) (mcp_invocation c) (mcp_connector_id c) (mcp_resource_uri c)
       (mcp_link_id c) (mcp_app_name c) (mcp_action_name c) (mcp_plugin_id c) duration result)).

(** [TurnItem::as_legacy_events] *)
Definition turn_item_legacy_events (item : TurnItem.t) (show_raw_agent_reasoning : bool) : list EventMsg.t :=
  match item with
  | TurnItem.UserMessage _ client_id content => [EventMsg.UserMessage (as_legacy_user_message_event client_id content)]
  | TurnItem.HookPrompt _ => []
  | TurnItem.AgentMessage item => agent_message_legacy_events item
  | TurnItem.Plan _ _ => []
  | TurnItem.CommandExecution _ | TurnItem.DynamicToolCall _ | TurnItem.CollabAgentToolCall _ => []
  | TurnItem.SubAgentActivity _ _ _ _ => []
  | TurnItem.WebSearch id query action results =>
      [EventMsg.WebSearchEnd (WebSearchEndEvent.mk id query action results)]
  | TurnItem.ImageView id path => [EventMsg.ViewImageToolCall id path]
  | TurnItem.Extension _ => []
  | TurnItem.ImageGeneration item =>
      [EventMsg.ImageGenerationEnd
         (ImageGenerationEndEvent.mk (image_id item) (image_status item) (image_revised_prompt item)
            (image_result item) (image_saved_path item))]
  | TurnItem.EnteredReviewMode _ _ _ | TurnItem.ExitedReviewMode _ _ => []
  | TurnItem.FileChange id changes status _ stdout stderr =>
      option_list (file_change_legacy_end_event id changes status stdout stderr [])
  | TurnItem.McpToolCall item => option_list (mcp_legacy_end_event item)
  | TurnItem.Reasoning _ summary_text raw_content =>
      reasoning_legacy_events summary_text raw_content show_raw_agent_reasoning
  | TurnItem.ContextCompaction _ => [EventMsg.ContextCompacted]
  end.

(** [HasLegacyEvent] for [ItemStartedEvent] and [ItemCompletedEvent] *)
Definition started_legacy_events (event : ItemStartedEvent.t) : list EventMsg.t :=
  let turn_id := ItemStartedEvent.turn_id event in
  let started_at_ms := ItemStartedEvent.started_at_ms event in
  match ItemStartedEvent.item event with
  | TurnItem.WebSearch id _ _ _ => [EventMsg.WebSearchBegin id]
  | TurnItem.ImageView _ _ => []
  | TurnItem.ImageGeneration item => [EventMsg.ImageGenerationBegin (image_id item)]
  | TurnItem.FileChange id changes _ auto_approved _ _ =>
      [file_change_legacy_begin_event id changes auto_approved turn_id]
  | TurnItem.McpToolCall item => [mcp_legacy_begin_event item]
  | TurnItem.CommandExecution item => [command_legacy_begin_event item turn_id started_at_ms]
  | TurnItem.DynamicToolCall item => [dynamic_legacy_request_event item turn_id started_at_ms]
  | TurnItem.CollabAgentToolCall item => option_list (collab_legacy_begin_event item started_at_ms)
  | _ => []
  end.

Definition completed_legacy_events (event : ItemCompletedEvent.t) (show_raw_agent_reasoning : bool) : list EventMsg.t :=
  let turn_id := ItemCompletedEvent.turn_id event in
  let completed_at_ms := ItemCompletedEvent.completed_at_ms event in
  match ItemCompletedEvent.item event with
  | TurnItem.FileChange id changes status _ stdout stderr =>
      option_list (file_change_legacy_end_event id changes status stdout stderr turn_id)
  | TurnItem.CommandExecution item => option_list (command_legacy_end_event item turn_id completed_at_ms)
  | TurnItem.DynamicToolCall item => option_list (dynamic_legacy_response_event item turn_id completed_at_ms)
  | TurnItem.CollabAgentToolCall item => option_list (collab_legacy_end_event item completed_at_ms)
  | TurnItem.SubAgentActivity id kind agent_thread_id agent_path =>
      [EventMsg.SubAgentActivity (SubAgentActivityEvent.mk id completed_at_ms agent_thread_id agent_path kind)]
  | TurnItem.EnteredReviewMode id target user_facing_hint =>
      [EventMsg.EnteredReviewMode (EnteredReviewModeEvent.mk target (Some user_facing_hint) (Some turn_id) (Some id))]
  | TurnItem.ExitedReviewMode id review_output =>
      [EventMsg.ExitedReviewMode (ExitedReviewModeEvent.mk (Some turn_id) (Some id) review_output)]
  | item => turn_item_legacy_events item show_raw_agent_reasoning
  end.

(** [HasLegacyEvent] for [EventMsg] *)
Definition as_legacy_events (event : EventMsg.t) (show_raw_agent_reasoning : bool) : list EventMsg.t :=
  match event with
  | EventMsg.ItemStarted event => started_legacy_events event
  | EventMsg.ItemCompleted event => completed_legacy_events event show_raw_agent_reasoning
  | _ => []
  end.

End events.
