(* ===== verification/LegacyEventsSpec.v ===== *)
(** What the older events of an item carry.  A completed item whose data an
    older event has a place for is built again from that event: the history puts
    the same item at the same place, so a rollout that holds the item and its
    older event shows it once.  The event of a user message keeps its texts, the
    spans of its text elements, its images with their details, and its audio. *)

From S2P Require Import Prelude Text Machine ResponseItems ContextFragments ThreadItems ThreadEvents ThreadHistory ThreadHistorySpec LegacyEvents.

(** * Text elements of a message *)

Lemma split_at_byte_inv s n l r : split_at_byte s n = Some (l, r) → s = l ++ r ∧ n = byte_len l.
Proof.
  revert n l r. induction s as [|c s IH]; intros n l r; cbn [split_at_byte]; case_decide; try congruence.
  - by intros [= <- <-].
  - by intros [= <- <-].
  - case_decide; [|done]. intros Hs. apply bind_Some in Hs as ([l' r'] & Hs & [= <- <-]).
    apply IH in Hs as [-> Hn]. split; [done|]. rewrite byte_len_cons. lia.
Qed.

(** A range of a text is a span with what is before and after it. *)
Lemma text_range_Some text range found :
  text_range text range = Some found ↔
  ∃ before after, text = before ++ found ++ after
    ∧ range_start range = byte_len before ∧ range_end range = (byte_len before + byte_len found)%N.
Proof.
  unfold text_range. split.
  - case_bool_decide as Hle; [|done]. intros H.
    apply bind_Some in H as ([before rest] & [-> Hb]%split_at_byte_inv & H).
    apply bind_Some in H as ([f after] & [-> Hf]%split_at_byte_inv & [= <-]).
    exists before, after. rewrite <- Hb. split_and!; [done..|lia].
  - intros (before & after & -> & Hs & He). rewrite bool_decide_true by lia.
    rewrite Hs, split_at_byte_app. simpl.
    replace (range_end range - byte_len before)%N with (byte_len found) by lia. by rewrite split_at_byte_app.
Qed.

(** The elements of the texts of a message, with the text each belongs to. *)
Definition content_elements (content : list CoreUserInput.t) : list (str * TextElement) :=
  content ≫= λ c, match c with CoreUserInput.Text text elements => (λ e, (text, e)) <$> elements | _ => [] end.

(** What an element of a text says of its text, the element of the message says
    of the whole message. *)
Definition same_span (whole : str) (old : str * TextElement) (new : TextElement) : Prop :=
  ∀ found, text_range old.1 (byte_range old.2) = Some found →
    text_range whole (byte_range new) = Some found
    ∧ element_placeholder new whole = element_placeholder old.2 old.1.

Lemma message_cons c content : message (c :: content) = input_text c ++ message content.
Proof. done. Qed.

Lemma rebase_span before text after elem :
  same_span (before ++ text ++ after) (text, elem) (rebase (byte_len before) text elem).
Proof.
  intros found Hf. simpl in Hf.
  assert (text_range (before ++ text ++ after) (byte_range (rebase (byte_len before) text elem)) = Some found) as Hr.
  { apply text_range_Some in Hf as (l & r & -> & Hs & He). apply text_range_Some.
    exists (before ++ l), (r ++ after). simpl. rewrite byte_len_app.
    split_and!; [by rewrite <- !app_assoc|lia..]. }
  split; [exact Hr|]. unfold element_placeholder at 1. rewrite Hr. unfold rebase. simpl.
  unfold element_placeholder. destruct (placeholder elem); [done|]. by rewrite Hf.
Qed.

Lemma text_elements_from_spans before content :
  Forall2 (same_span (before ++ message content)) (content_elements content)
    (text_elements_from (byte_len before) content).
Proof.
  revert before. induction content as [|c content IH]; intros before; [constructor|].
  destruct c as [text elements| | | | | |]; try exact (IH before).
  unfold content_elements. simpl. apply Forall2_app.
  - apply Forall2_fmap, Forall_Forall2_diag, Forall_forall. intros e _. rewrite message_cons. apply rebase_span.
  - specialize (IH (before ++ text)). rewrite byte_len_app in IH. by rewrite message_cons, app_assoc.
Qed.

(** * Details of images *)

Lemma drop_default_split details : ∃ n, details = replicate n None ++ drop_default details.
Proof.
  induction details as [|[d|] details [n IH]]; [by exists 0|by exists 0|]. exists (S n). simpl. by f_equal.
Qed.

(** The details that are dropped from the end are the default. *)
Lemma trim_details_lookup details i :
  mjoin (trim_trailing_default_image_details details !! i) = mjoin (details !! i).
Proof.
  unfold trim_trailing_default_image_details.
  destruct (drop_default_split (reverse details)) as [n Hn].
  assert (details = reverse (drop_default (reverse details)) ++ replicate n None) as Hd.
  { rewrite <- (reverse_involutive details) at 1. rewrite Hn at 1. rewrite reverse_app. f_equal.
    by rewrite reverse_replicate. }
  rewrite Hd at 2. destruct (decide (i < length (reverse (drop_default (reverse details))))) as [Hi|Hi].
  - by rewrite lookup_app_l.
  - rewrite lookup_app_r, (lookup_ge_None_2 _ i) by lia.
    destruct (_ !! _) as [x|] eqn:Hx; [|done]. by apply lookup_replicate in Hx as [-> _].
Qed.

(** The images of a message with the details of the event are the images of its inputs. *)
Definition of_kind (P : CoreUserInput.t → bool) (content : list CoreUserInput.t) : list UserInput.t :=
  user_input <$> filter (λ c, P c) content.
Definition is_image (c : CoreUserInput.t) : bool := match c with CoreUserInput.Image _ _ => true | _ => false end.
Definition is_local_image (c : CoreUserInput.t) : bool :=
  match c with CoreUserInput.LocalImage _ _ => true | _ => false end.
Definition is_audio (c : CoreUserInput.t) : bool := match c with CoreUserInput.Audio _ => true | _ => false end.
Definition is_local_audio (c : CoreUserInput.t) : bool :=
  match c with CoreUserInput.LocalAudio _ => true | _ => false end.

(** Values read back by their index from two lists made of one. *)
Lemma imap_detail {A} (make : option ImageDetail → str → A) (details : list (option ImageDetail)) (urls : list str)
    (entries : list (str * option ImageDetail)) :
  urls = entries.*1 → (∀ i, mjoin (details !! i) = mjoin (entries.*2 !! i)) →
  imap (λ i url, make (mjoin (details !! i)) url) urls = (λ '(url, detail), make detail url) <$> entries.
Proof.
  intros -> Hd. apply list_eq. intros i. rewrite list_lookup_imap, !list_lookup_fmap, Hd, list_lookup_fmap.
  by destruct (entries !! i) as [[url detail]|].
Qed.

Definition image_entry (c : CoreUserInput.t) : option (str * option ImageDetail) :=
  match c with CoreUserInput.Image url detail => Some (url, detail) | _ => None end.
Definition local_image_entry (c : CoreUserInput.t) : option (str * option ImageDetail) :=
  match c with CoreUserInput.LocalImage path detail => Some (path, detail) | _ => None end.

(** Two lists that take the same inputs of a message. *)
Ltac per_input content := induction content as [|[] content IH]; first [done | exact IH | simpl; f_equal; exact IH].

Lemma images_built content :
  imap (λ i url, UserInput.Image (mjoin (image_details content !! i)) url) (image_urls content) =
    of_kind is_image content.
Proof.
  rewrite (imap_detail UserInput.Image _ _ (omap image_entry content)).
  - unfold of_kind. per_input content.
  - unfold image_urls. per_input content.
  - intros i. unfold image_details. rewrite trim_details_lookup. do 2 f_equal.
    per_input content.
Qed.

Lemma local_images_built content :
  imap (λ i path, UserInput.LocalImage (mjoin (local_image_details content !! i)) path) (local_image_paths content) =
    of_kind is_local_image content.
Proof.
  rewrite (imap_detail UserInput.LocalImage _ _ (omap local_image_entry content)).
  - unfold of_kind. per_input content.
  - unfold local_image_paths. per_input content.
  - intros i. unfold local_image_details. rewrite trim_details_lookup. do 2 f_equal.
    per_input content.
Qed.

Lemma audio_built content :
  UserInput.Audio <$> audio_urls content = of_kind is_audio content
  ∧ UserInput.LocalAudio <$> local_audio_paths content = of_kind is_local_audio content.
Proof.
  unfold of_kind, audio_urls, local_audio_paths.
  split; per_input content.
Qed.

(** C29: The event of a user message is enough to build the message again.  The
    inputs a client is shown for the event are the texts of the message joined to
    one text (unless that is blank), then its images, local images, audio and
    local audio, each in the order of the message and with the detail it had,
    although the list of details in the event stops at the last that is not the
    default; and every text element that names a part of its text names, moved to
    the joined text, the same part with the same placeholder. *)
Theorem user_message_event_keeps_inputs client_id content :
  let event := as_legacy_user_message_event client_id content in
  build_user_inputs event =
    (if is_nil (trim (message content)) then [] else [UserInput.Text (message content) (text_elements content)])
    ++ of_kind is_image content ++ of_kind is_local_image content
    ++ of_kind is_audio content ++ of_kind is_local_audio content
  ∧ Forall2 (same_span (message content)) (content_elements content) (UserMessageEvent.text_elements event).
Proof.
  simpl. split; [|apply (text_elements_from_spans [] content)].
  unfold build_user_inputs. simpl. destruct (audio_built content) as [-> ->].
  by rewrite images_built, local_images_built.
Qed.

(** * The item of an event *)

Section rebuild.
Context {O : Outside} {HT : HistoryTexts}.
Implicit Types (b : ThreadHistoryBuilder).

(** What an older event has a place for.  A call that has ended says how: the
    events have no place for a missing exit code, duration or result, and the
    status of some calls is computed again from the rest of the event. *)
Definition one_receiver (c : CollabAgentToolCallItem) : Prop :=
  ∃ receiver status, collab_receiver_thread_ids c = [receiver] ∧ collab_agents_states c = {[ receiver := status ]}
    ∧ collab_agent_tool_call_status (collab_status c) = collab_call_status status.
Definition no_receiver (c : CollabAgentToolCallItem) : Prop :=
  collab_receiver_thread_ids c = [] ∧ collab_agents_states c = ∅
    ∧ collab_status c = CoreCollabAgentToolCallStatus.Failed.
Definition says_no_more (c : CollabAgentToolCallItem) : Prop :=
  collab_model c = None ∧ collab_reasoning_effort c = None.

(** The receivers of a wait are the agents it has states of, in order. *)
Definition collab_carried (c : CollabAgentToolCallItem) : Prop :=
  match collab_tool c with
  | CoreCollabAgentTool.SpawnAgent =>
      is_Some (collab_prompt c) ∧ is_Some (collab_model c) ∧ is_Some (collab_reasoning_effort c)
        ∧ (one_receiver c ∨ no_receiver c)
  | CoreCollabAgentTool.SendInput => is_Some (collab_prompt c) ∧ says_no_more c ∧ one_receiver c
  | CoreCollabAgentTool.ResumeAgent | CoreCollabAgentTool.CloseAgent =>
      collab_prompt c = None ∧ says_no_more c ∧ one_receiver c
  | CoreCollabAgentTool.Wait =>
      collab_prompt c = None ∧ says_no_more c
        ∧ collab_receiver_thread_ids c = sort_by str_leb (map_to_list (collab_agents_states c)).*1
        ∧ collab_status c =
            (if existsb (λ '(_, status), is_failure status) (map_to_list (collab_agents_states c))
             then CoreCollabAgentToolCallStatus.Failed else CoreCollabAgentToolCallStatus.Completed)
  end.

Definition command_carried (c : CommandExecutionItem) : Prop :=
  command_status c ≠ CoreCommandExecutionStatus.InProgress ∧ is_Some (command_exit_code c)
    ∧ ∃ duration, command_duration c = Some duration ∧ (Z.of_N (as_millis duration) ≤ i64_max)%Z.

Definition dynamic_carried (c : DynamicToolCallItem) : Prop :=
  is_Some (dynamic_content_items c) ∧ is_Some (dynamic_duration c)
    ∧ ∃ success, dynamic_success c = Some success
        ∧ dynamic_status c = (if success then CoreDynamicToolCallStatus.Completed
                              else CoreDynamicToolCallStatus.Failed).

Definition mcp_carried (c : McpToolCallItem) : Prop :=
  is_Some (mcp_duration c)
    ∧ ((∃ result, mcp_result c = Some result ∧ mcp_error c = None
          ∧ mcp_status c = (if default false (is_error result) then CoreMcpToolCallStatus.Failed
                            else CoreMcpToolCallStatus.Completed))
       ∨ (is_Some (mcp_error c) ∧ mcp_result c = None ∧ mcp_status c = CoreMcpToolCallStatus.Failed)).

Definition carried (item : TurnItem.t) : Prop :=
  match item with
  | TurnItem.CommandExecution c => command_carried c
  | TurnItem.DynamicToolCall c => dynamic_carried c
  | TurnItem.CollabAgentToolCall c => collab_carried c
  | TurnItem.FileChange _ _ status _ _ _ => is_Some status
  | TurnItem.McpToolCall c => mcp_carried c
  | TurnItem.SubAgentActivity _ _ _ _ | TurnItem.WebSearch _ _ _ _ | TurnItem.ImageView _ _
  | TurnItem.ImageGeneration _ | TurnItem.EnteredReviewMode _ _ _ | TurnItem.ExitedReviewMode _ _ => True
  | TurnItem.UserMessage _ _ _ | TurnItem.HookPrompt _ | TurnItem.AgentMessage _ | TurnItem.Plan _ _
  | TurnItem.Reasoning _ _ _ | TurnItem.Extension _ | TurnItem.ContextCompaction _ => False
  end.

(** Where the history puts the item of an older event: those that name a turn
    have it put there, and a review may open the turn. *)
Definition place (key : str) (item : TurnItem.t) b : ThreadHistoryBuilder :=
  match item with
  | TurnItem.CommandExecution _ => upsert_item_in_turn_id key (thread_item item) b
  | TurnItem.FileChange _ _ _ _ _ _ | TurnItem.DynamicToolCall _ => upsert_item_of_event key (thread_item item) b
  | TurnItem.EnteredReviewMode _ _ _ | TurnItem.ExitedReviewMode _ _ =>
      upsert_review_mode_item (Some key) (thread_item item) b
  | _ => upsert_item_in_current_turn (thread_item item) b
  end.

(** The builder is given [item] by the one event of the list. *)
Definition rebuilds (key : str) (item : TurnItem.t) (events : list EventMsg.t) b : Prop :=
  ∃ event, events = [event] ∧ handle_event event b = place key item b.

Lemma i64_try_from_fits n : (Z.of_N n ≤ i64_max)%Z → i64_try_from n = Some (Z.of_N n).
Proof. unfold i64_try_from. intros Hn. by rewrite bool_decide_true. Qed.

Lemma command_rebuilt key c ms b :
  command_carried c →
  rebuilds key (TurnItem.CommandExecution c) (option_list (command_legacy_end_event c key ms)) b.
Proof.
  intros (Hs & [code Hc] & d & Hd & Hfit). unfold rebuilds, command_legacy_end_event.
  assert (∃ status, exec_command_status (command_status c) = Some status
            ∧ command_status_of_exec status = command_status_of_core (command_status c)) as (status & -> & Hst).
  { destruct (command_status c); [done|eexists; split; reflexivity..]. }
  simpl. eexists. split; [done|]. simpl. unfold handle_exec_command_end, build_command_execution_end_item. simpl.
  unfold place, thread_item, thread_command_execution. rewrite Hst, Hc, Hd. simpl.
  rewrite i64_try_from_fits by done. simpl. by destruct (command_aggregated_output c) as [[|? ?]|].
Qed.

Lemma dynamic_rebuilt key c ms b :
  dynamic_carried c →
  rebuilds key (TurnItem.DynamicToolCall c) (option_list (dynamic_legacy_response_event c key ms)) b.
Proof.
  intros ([content Hc] & [d Hd] & success & Hs & Hst). unfold rebuilds, dynamic_legacy_response_event.
  rewrite Hst, Hc, Hs, Hd. unfold place, thread_item, thread_dynamic_tool_call. rewrite Hst, Hc, Hs, Hd.
  destruct success; simpl; by eexists.
Qed.

Lemma mcp_rebuilt key c b :
  (∀ j, is_null j = true → j = json_null) → mcp_carried c →
  rebuilds key (TurnItem.McpToolCall c) (option_list (mcp_legacy_end_event c)) b.
Proof.
  intros Hnull ([d Hd] & Hres). unfold rebuilds, mcp_legacy_end_event, place, thread_item, thread_mcp_tool_call.
  assert (invocation_arguments (mcp_invocation c) = mcp_arguments c) as Hargs.
  { unfold invocation_arguments, mcp_invocation. simpl. destruct (is_null _) eqn:E; [|done].
    by apply Hnull in E as ->. }
  destruct Hres as [(r & Hr & He & ->)|([e He] & Hr & ->)]; rewrite Hr, He, Hd; simpl; eexists; (split; [done|]);
    simpl; unfold handle_mcp_tool_call_end, is_success; simpl; rewrite Hargs; [|done].
  by destruct (default false (is_error r)).
Qed.

Lemma agent_state_of_receiver c receiver status :
  collab_agents_states c = {[ receiver := status ]} → agent_status_of c receiver = status.
Proof. unfold agent_status_of. intros ->. by rewrite lookup_singleton_eq. Qed.

Lemma call_ended {A} (status : CoreCollabAgentToolCallStatus.t) agent (x y : A) :
  collab_agent_tool_call_status status = collab_call_status agent →
  match status with CoreCollabAgentToolCallStatus.InProgress => x | _ => y end = y.
Proof. unfold collab_call_status. destruct status, (is_failure agent); done. Qed.

(** The cases of a call, with its data put in. *)
Ltac rebuild_call c :=
  destruct c; unfold one_receiver, no_receiver, says_no_more in *; simpl in *;
  destruct_and?; repeat match goal with H : is_Some _ |- _ => destruct H end; destruct_or?; destruct_and?;
  repeat match goal with H : ∃ _, _ |- _ => destruct H; destruct_and? end; simplify_eq.

Lemma collab_rebuilt key c ms b :
  collab_carried c →
  rebuilds key (TurnItem.CollabAgentToolCall c) (option_list (collab_legacy_end_event c ms)) b.
Proof.
  unfold rebuilds, collab_legacy_end_event, collab_carried, place, thread_item, thread_collab_agent_tool_call.
  intros Hc. destruct (collab_tool c) eqn:Ht; rebuild_call c.
  all: try (erewrite call_ended by eassumption); simpl.
  all: try destruct (existsb _ _) eqn:Hf; simpl.
  all: eexists; (split; [reflexivity|]); simpl.
  all: unfold handle_collab_agent_spawn_end, handle_collab_agent_interaction_end, handle_collab_close_end,
    handle_collab_resume_end, handle_collab_waiting_end, collab_call_status, agent_status_of in *; simpl.
  all: rewrite ?lookup_singleton_eq, ?map_fmap_singleton, ?fmap_empty, ?Hf; simpl.
  all: congruence.
Qed.

Lemma completed_rebuilt thread key item ms show b :
  (∀ j, is_null j = true → j = json_null) → carried item →
  rebuilds key item (completed_legacy_events (ItemCompletedEvent.mk thread key item ms) show) b.
Proof.
  intros Hnull Hc. unfold completed_legacy_events. simpl.
  destruct item as [| | | | |c|c|c|id kind agent path|id query action results|id path| |image
                   |id target hint|id output|id changes status auto stdout stderr|c|]; try done; simpl in Hc.
  - by apply command_rebuilt.
  - by apply dynamic_rebuilt.
  - by apply collab_rebuilt.
  - by eexists.
  - by eexists.
  - by eexists.
  - by eexists.
  - by eexists.
  - by eexists.
  - destruct Hc as [st ->]. by eexists.
  - by apply mcp_rebuilt.
Qed.

(** In the turn of the event there is one place for an item. *)
Lemma upsert_twice item items : upsert_turn_item (upsert_turn_item items item) item = upsert_turn_item items item.
Proof.
  unfold upsert_turn_item at 2 3. destruct (list_find _ items) as [[i old]|] eqn:Hf.
  - apply list_find_Some in Hf as (Hi & Hid & Hbefore). unfold upsert_turn_item.
    assert (list_find (λ x, item_id x = item_id item) (<[i:=item]> items) = Some (i, item)) as ->.
    { apply list_find_Some. split_and!; [|done|].
      - apply list_lookup_insert_eq. by eapply lookup_lt_Some.
      - intros j y Hj Hlt. rewrite list_lookup_insert_ne in Hj by lia. by eapply Hbefore. }
    by rewrite list_insert_insert_eq.
  - unfold upsert_turn_item. rewrite list_find_app_r by done. simpl. rewrite decide_True by done. simpl.
    rewrite insert_app_r_alt by lia. by replace (_ - length items) with 0 by lia.
Qed.

Lemma upsert_current_twice item b :
  untracked (upsert_item_in_current_turn item (upsert_item_in_current_turn item b)) =
  untracked (upsert_item_in_current_turn item b).
Proof.
  rewrite !upsert_current_untracked. unfold upsert_item_in_current_turn at 2 3. rewrite ensure_untracked.
  destruct (ensure_turn b) as [turn b']. unfold upsert_item_in_current_turn. simpl. by rewrite upsert_twice.
Qed.

Lemma upsert_turn_id_current item turn b :
  current_turn b = Some turn →
  upsert_item_in_turn_id (id turn) item b = upsert_item_in_current_turn item b.
Proof.
  intros Ht. unfold upsert_item_in_turn_id, upsert_item_in_current_turn, ensure_turn. rewrite Ht.
  by rewrite decide_True.
Qed.

Lemma upsert_of_event_current item turn b :
  current_turn b = Some turn → upsert_item_of_event (id turn) item b = upsert_item_in_current_turn item b.
Proof. intros Ht. unfold upsert_item_of_event. destruct (is_nil _); [done|]. by apply upsert_turn_id_current. Qed.

Lemma upsert_review_current item turn b :
  current_turn b = Some turn →
  upsert_review_mode_item (Some (id turn)) item b = upsert_item_in_current_turn item b.
Proof.
  intros Ht. unfold upsert_review_mode_item. rewrite Ht. simpl. rewrite bool_decide_true by done. simpl.
  by apply upsert_turn_id_current.
Qed.

Lemma place_current item turn b :
  current_turn b = Some turn → place (id turn) item b = upsert_item_in_current_turn (thread_item item) b.
Proof.
  intros Ht. destruct item; unfold place; try done;
    by eauto using upsert_turn_id_current, upsert_of_event_current, upsert_review_current.
Qed.

Lemma lifecycle_current item turn b :
  current_turn b = Some turn → should_upsert item = true →
  handle_materialized_item_lifecycle (id turn) item b = upsert_item_in_current_turn (thread_item item) b.
Proof.
  intros Ht Hu. unfold handle_materialized_item_lifecycle. rewrite Hu.
  destruct (is_review_mode_item item); [by apply upsert_review_current|by apply upsert_turn_id_current].
Qed.

Lemma upsert_current_id item turn b :
  current_turn b = Some turn →
  ∃ turn', current_turn (upsert_item_in_current_turn item b) = Some turn' ∧ id turn' = id turn.
Proof.
  intros Ht. unfold upsert_item_in_current_turn, ensure_turn. rewrite Ht. unfold record_changed_item. simpl.
  destruct (active_change_set b); by eexists.
Qed.

(** C26: The older event of an item that has ended is the item.  For every kind of
    item an older event has a place for, and data of it that fits, the end of the
    item is sent as exactly one older event, and the history given that event puts
    the item, with every field the client is shown, where the event says.  When the
    item belongs to the turn in progress and is also kept as an item, the two are
    interchangeable: handling the item's end or the older event gives the same
    builder, and handling both changes nothing more, so the item is shown once. *)
Theorem older_event_is_the_item thread key item ms show :
  (∀ j, is_null j = true → j = json_null) → carried item →
  let payload := ItemCompletedEvent.mk thread key item ms in
  ∃ event, completed_legacy_events payload show = [event]
    ∧ (∀ b, handle_event event b = place key item b)
    ∧ (∀ b turn, current_turn b = Some turn → id turn = key → should_upsert item = true →
         handle_event event b = handle_item_completed payload b
         ∧ untracked (handle_event event (handle_item_completed payload b)) =
           untracked (handle_item_completed payload b)).
Proof.
  intros Hnull Hc payload.
  assert (∀ b, rebuilds key item (completed_legacy_events payload show) b) as Hr by (intros; by apply completed_rebuilt).
  destruct (Hr (new 0)) as (event & He & _). exists event. split; [done|].
  assert (∀ b, handle_event event b = place key item b) as Hplace.
  { intros b. destruct (Hr b) as (event0 & He0 & Hb). rewrite He in He0. by injection He0 as <-. }
  split; [exact Hplace|]. intros b turn Ht <- Hu. unfold handle_item_completed. simpl.
  rewrite (lifecycle_current item turn) by done. rewrite !Hplace. split; [by apply place_current|].
  destruct (upsert_current_id (thread_item item) turn b Ht) as (turn' & Ht' & <-).
  rewrite (place_current item turn') by done. apply upsert_current_twice.
Qed.

End rebuild.
