(* ===== verification/ThreadHistoryExamples.v ===== *)
(** A small host for the history of threads, a rollout with two turns, late
    output, a rollback and a message without a turn, and the theorems about the
    history at that rollout. *)

From S2P Require Import Prelude Text Machine Paths ResponseItems ContextFragments ThreadItems ThreadEvents ThreadHistory ThreadHistorySpec ThreadHistoryChanges LegacyEvents LegacyEventsSpec.

(** * The host *)

#[local] Instance demo_host : Host := {|
  home_dir := None; current_dir := None; tmpdir_var := None;
  is_dir _ := false; is_file _ := false; path_exists _ := false; read_file _ := None;
  symlink_metadata _ := None; canonicalize _ := None
|}.

(** JSON is text, and a [PathUri] is a path of this host. *)
Definition demo : Outside := {|
  Json := str; json_null := lit "null"; is_null j := bool_decide (j = lit "null");
  f32 := unit; RequestPermissionProfile := unit; PathUri := str;
  infer_path_convention _ := Some Posix; native_convention := Posix;
  to_abs_path p := from_absolute_path (path_new p);
  LegacyAppPathString := str; legacy_of_path_uri p := p; legacy_of_abs_path := path_text;
  outside_host := demo_host;
  shlex_try_join words := Some (join (lit " ") words); parse_command _ := [];
  new_uuid n := lit "uuid-" ++ decimal_N (N.of_nat n)
|}.
#[local] Existing Instance demo.

(** A hook prompt is a text that begins with a question mark. *)
#[local] Instance demo_texts : HistoryTexts := {
  from_xml_hook_prompt text := match text with 63%N :: text => Some (text, lit "hook") | _ => None end;
  inter_agent_text _ := false
}.

(** * A rollout *)

Definition user_message (text : str) : RolloutItem.t :=
  RolloutItem.EventMsg (EventMsg.UserMessage (UserMessageEvent.mk None text None [] [] [] None [] [])).
Definition turn_started (turn_id : str) : RolloutItem.t :=
  RolloutItem.EventMsg (EventMsg.TurnStarted (TurnStartedEvent.mk turn_id None (Some 100%Z) None DefaultMode)).
Definition turn_complete (turn_id : str) : RolloutItem.t :=
  RolloutItem.EventMsg
    (EventMsg.TurnComplete (TurnCompleteEvent.mk turn_id None None (Some 100%Z) (Some 107%Z) (Some 7000%Z) None)).
Definition command_end (turn_id call_id : str) : RolloutItem.t :=
  RolloutItem.EventMsg (EventMsg.ExecCommandEnd
    (ExecCommandEndEvent.mk call_id None turn_id 0 [lit "ls"; lit "-l"] (lit "/work")
       [ParsedListFiles (lit "ls -l") None] Agent None [] [] (lit "total 0") 0 (mkDuration 2 5000000) []
       CoreExecCommandStatus.Completed)).
Definition command_begin (turn_id call_id : str) : RolloutItem.t :=
  RolloutItem.EventMsg (EventMsg.ExecCommandBegin
    (ExecCommandBeginEvent.mk call_id None turn_id 0 [lit "ls"; lit "-l"] (lit "/work")
       [ParsedListFiles (lit "ls -l") None] Agent None)).
Definition reasoning (text : str) : RolloutItem.t := RolloutItem.EventMsg (EventMsg.AgentReasoning text).
Definition rolled_back (n : N) : RolloutItem.t := RolloutItem.EventMsg (EventMsg.ThreadRolledBack n).
Definition failure (text : str) : RolloutItem.t := RolloutItem.EventMsg (EventMsg.Error (ErrorEvent.mk text None)).

(** A turn that starts a command, and a second turn. *)
Definition demo_before : list RolloutItem.t :=
  [RolloutItem.SessionMeta; turn_started (lit "t1"); user_message (lit "list the files");
   command_begin (lit "t1") (lit "call"); turn_complete (lit "t1");
   turn_started (lit "t2"); user_message (lit "and now?")].

(** The command of the first turn ends during the second, which is rolled back
    after a failure; the next message has no turn of its own. *)
Definition demo_batch : list RolloutItem.t :=
  [reasoning (lit "look"); reasoning (lit "closely"); command_end (lit "t1") (lit "call");
   failure (lit "no"); rolled_back 1; user_message (lit "again")].

(** The turns as a client would list them: id, status and ids of the items. *)
Definition outline (ts : list Turn) : list (str * TurnStatus * list str) :=
  (λ t, (turn_id t, turn_status t, item_ids t)) <$> ts.

Example demo_turns :
  outline (build_turns_from_rollout_items 0 demo_before) =
    [(lit "t1", Completed, [lit "item-1"; lit "call"]); (lit "t2", InProgress, [lit "item-2"])] ∧
  outline (build_turns_from_rollout_items 0 (demo_before ++ take 4 demo_batch)) =
    [(lit "t1", Completed, [lit "item-1"; lit "call"]);
     (lit "t2", Failed, [lit "item-2"; lit "item-3"])] ∧
  outline (build_turns_from_rollout_items 0 (demo_before ++ demo_batch)) =
    [(lit "t1", Completed, [lit "item-1"; lit "call"]); (lit "rollout-12", Completed, [lit "item-3"])].
Proof. vm_compute. auto. Qed.

(** All prefixes of a list, by checking the ones there are. *)
Lemma all_prefixes {A} (P : list A → Prop) l :
  Forall (λ k, P (take k l)) (seq 0 (S (length l))) → ∀ k, P (take k l).
Proof.
  intros Hl k. rewrite Forall_forall in Hl. destruct (decide (k ≤ length l)) as [Hk|Hk].
  - apply Hl, elem_of_seq. lia.
  - rewrite take_ge by lia. rewrite <- (take_ge l (length l)) by lia. apply Hl, elem_of_seq. lia.
Qed.

Lemma batch_changes_replay_witness :
  (∀ k, unique (build_turns_from_rollout_items 0 (demo_before ++ take k demo_batch))) ∧
  ∃ cs,
    handle_rollout_items_with_changes demo_batch (replay demo_before (new 0)) =
      Some (replay (demo_before ++ demo_batch) (new 0), cs) ∧
    apply_changes (build_turns_from_rollout_items 0 demo_before) cs =
      build_turns_from_rollout_items 0 (demo_before ++ demo_batch) ∧
    NoDup (change_turn_id <$> changed_turns cs) ∧ NoDup (item_change_key <$> changed_items cs).
Proof.
  assert (∀ k, unique (build_turns_from_rollout_items 0 (demo_before ++ take k demo_batch))) as Hu.
  { apply (all_prefixes (λ l, unique (build_turns_from_rollout_items 0 (demo_before ++ l)))).
    apply (bool_decide_unpack (Forall (λ k, unique _) _)). vm_compute. exact I. }
  split; [exact Hu|]. apply (batch_changes_replay 0 demo_before demo_batch Hu).
Defined.

(** * Older events *)

Definition demo_command : TurnItem.t :=
  TurnItem.CommandExecution
    (mkCommandExecution (lit "call") None [lit "ls"] (lit "/work") [ParsedListFiles (lit "ls") None] Agent None
       CoreCommandExecutionStatus.Failed (Some []) (Some []) (Some (lit "no such file")) (Some 2%Z)
       (Some (mkDuration 1 250000000)) (Some [])).

Lemma older_event_is_the_item_witness :
  carried demo_command ∧
  ∃ event, completed_legacy_events (ItemCompletedEvent.mk (lit "thread") (lit "t1") demo_command 0) false = [event]
    ∧ (∀ b, handle_event event b = place (lit "t1") demo_command b)
    ∧ (∀ b turn, current_turn b = Some turn → id turn = lit "t1" → should_upsert demo_command = true →
         handle_event event b = handle_item_completed (ItemCompletedEvent.mk (lit "thread") (lit "t1") demo_command 0) b
         ∧ untracked (handle_event event
               (handle_item_completed (ItemCompletedEvent.mk (lit "thread") (lit "t1") demo_command 0) b)) =
           untracked (handle_item_completed (ItemCompletedEvent.mk (lit "thread") (lit "t1") demo_command 0) b)).
Proof.
  assert (carried demo_command) as Hc.
  { split; [discriminate|]. split; [by eexists|]. eexists. split; [reflexivity|]. apply Z.leb_le. reflexivity. }
  split; [exact Hc|].
  refine (older_event_is_the_item (lit "thread") (lit "t1") demo_command 0 false _ Hc).
  intros j Hj. exact (bool_decide_eq_true_1 _ Hj).
Defined.
