(* ===== verification/EventMapping.v ===== *)
(** The items a client sees in the items of a conversation
    ([core/src/event_mapping.rs], with [parse_visible_hook_prompt_message] of
    [core/src/context/contextual_user_message.rs], the labels around media of
    [protocol/src/models.rs] and [core/src/web_search.rs]), and the text of the
    last assistant message ([core/src/stream_events_utils.rs],
    [core/src/session/turn.rs]).  An item that has no id gets a fresh one, the
    argument [new_id]. *)

From S2P Require Import Prelude Text Machine ResponseItems ContextFragments StreamText AssistantText ThreadItems LegacyEvents.

(** * Labels of media *)

Definition IMAGE_OPEN_TAG : str := lit "<image>".
Definition IMAGE_CLOSE_TAG : str := lit "</image>".
Definition LOCAL_IMAGE_OPEN_TAG_PREFIX : str := lit "<image name=".
Definition LOCAL_IMAGE_OPEN_TAG_SUFFIX : str := lit ">".
Definition AUDIO_OPEN_TAG : str := lit "<audio>".
Definition AUDIO_CLOSE_TAG : str := lit "</audio>".
Definition LOCAL_AUDIO_OPEN_TAG_PREFIX : str := lit "<audio name=".
Definition LOCAL_AUDIO_OPEN_TAG_SUFFIX : str := lit ">".

Definition is_image_open_tag_text (text : str) : bool := bool_decide (text = IMAGE_OPEN_TAG).
Definition is_image_close_tag_text (text : str) : bool := bool_decide (text = IMAGE_CLOSE_TAG).
Definition is_local_image_open_tag_text (text : str) : bool :=
  is_some_and (λ rest, ends_with rest LOCAL_IMAGE_OPEN_TAG_SUFFIX) (strip_prefix LOCAL_IMAGE_OPEN_TAG_PREFIX text).
Definition is_local_image_close_tag_text (text : str) : bool := is_image_close_tag_text text.
Definition is_audio_open_tag_text (text : str) : bool := bool_decide (text = AUDIO_OPEN_TAG).
Definition is_audio_close_tag_text (text : str) : bool := bool_decide (text = AUDIO_CLOSE_TAG).
Definition is_local_audio_open_tag_text (text : str) : bool :=
  is_some_and (λ rest, ends_with rest LOCAL_AUDIO_OPEN_TAG_SUFFIX) (strip_prefix LOCAL_AUDIO_OPEN_TAG_PREFIX text).
Definition is_local_audio_close_tag_text (text : str) : bool := is_audio_close_tag_text text.

(** [matches!(item, Some(ContentItem::InputImage { .. }))], and of audio *)
Definition some_image (item : option Content.t) : bool :=
  match item with Some (Content.InputImage _ _) => true | _ => false end.
Definition some_audio (item : option Content.t) : bool :=
  match item with Some (Content.InputAudio _) => true | _ => false end.

Definition is_image_label (message : list Content.t) (idx : nat) (text : str) : bool :=
  ((is_local_image_open_tag_text text || is_image_open_tag_text text) && some_image (message !! (idx + 1)))
  || (bool_decide (0 < idx) && (is_local_image_close_tag_text text || is_image_close_tag_text text)
      && some_image (message !! (idx - 1))).
Definition is_audio_label (message : list Content.t) (idx : nat) (text : str) : bool :=
  ((is_local_audio_open_tag_text text || is_audio_open_tag_text text) && some_audio (message !! (idx + 1)))
  || (bool_decide (0 < idx) && (is_local_audio_close_tag_text text || is_audio_close_tag_text text)
      && some_audio (message !! (idx - 1))).

(** * Messages of the user *)

(** The loop over [message.iter().enumerate()]; [todo] is what is left of it from [idx] on. *)
Fixpoint user_inputs (message : list Content.t) (idx : nat) (todo : list Content.t) : list CoreUserInput.t :=
  match todo with
  | [] => []
  | content_item :: todo =>
      let content := user_inputs message (S idx) todo in
      match content_item with
      | Content.InputText text =>
          if is_image_label message idx text || is_audio_label message idx text then content
          else CoreUserInput.Text text [] :: content
      | Content.InputImage image_url detail => CoreUserInput.Image image_url detail :: content
      | Content.InputAudio audio_url => CoreUserInput.Audio audio_url :: content
      | Content.OutputText _ => content
      end
  end.

(** [parse_user_message]: the contents of the item *)
Definition parse_user_message `{HistoryTexts} (message : list Content.t) : option (list CoreUserInput.t) :=
  if is_contextual_user_message_content message then None else Some (user_inputs message 0 message).

(** The loop of [parse_visible_hook_prompt_message]. *)
Fixpoint visible_fragments `{HistoryTexts} (content : list Content.t) : option (list HookPromptFragment) :=
  match content with
  | [] => Some []
  | Content.InputText text :: content =>
      match parse_hook_prompt_fragment text with
      | Some (text, hook_run_id) => cons (mkFragment text hook_run_id) <$> visible_fragments content
      | None => if is_standard_contextual_user_text text then visible_fragments content else None
      end
  | _ :: _ => None
  end.
Definition parse_visible_hook_prompt_message `{HistoryTexts} (new_id : str) (id : option str)
    (content : list Content.t) : option HookPromptItem :=
  fragments ← visible_fragments content;
  if is_nil fragments then None else Some (mkHookPrompt (default new_id id) fragments).

Definition agent_text (c : Content.t) : option str :=
  match c with Content.InputText text | Content.OutputText text => Some text | _ => None end.
Definition parse_agent_message (new_id : str) (id : option str) (message : list Content.t)
    (phase : option MessagePhase) : AgentMessageItem :=
  mkAgentMessage (default new_id id) (omap agent_text message) phase None.

(** * Other items *)

Definition search_action_detail (query : option str) (queries : option (list str)) : str :=
  match query with
  | Some ((_ :: _) as q) => q
  | _ =>
      let first := default [] (queries ≫= head) in
      if is_some_and (λ queries, bool_decide (1 < length queries)) queries && negb (is_nil first)
      then first ++ lit " ..." else first
  end.
(** The quote of the format strings is character 39. *)
Definition web_search_action_detail (action : WebSearchAction) : str :=
  match action with
  | WebSearch query queries => search_action_detail query queries
  | OpenPage url => default [] url
  | FindInPage url pattern =>
      match pattern, url with
      | Some pattern, Some url => [39%N] ++ pattern ++ lit "' in " ++ url
      | Some pattern, None => [39%N] ++ pattern ++ [39%N]
      | None, Some url => url
      | None, None => []
      end
  | OtherAction => []
  end.

Definition parse_turn_item {J} `{Outside} `{HistoryTexts} (new_id : str) (item : ResponseItem J) :
    option TurnItem.t :=
  match item with
  | Message id role content phase _ =>
      if bool_decide (role = lit "user") then
        match parse_visible_hook_prompt_message new_id id content with
        | Some prompt => Some (TurnItem.HookPrompt prompt)
        | None => TurnItem.UserMessage new_id None <$> parse_user_message content
        end
      else if bool_decide (role = lit "assistant") then
        Some (TurnItem.AgentMessage (parse_agent_message new_id id content phase))
      else None
  | Reasoning id summary content _ _ =>
      Some (TurnItem.Reasoning (default [] id)
        ((λ '(SummaryText text), text) <$> summary)
        ((λ entry, match entry with ReasoningText text | ReasoningPlain text => text end) <$> default [] content))
  | WebSearchCall id _ action _ =>
      let '(action, query) :=
        match action with
        | Some action => (action, web_search_action_detail action)
        | None => (OtherAction, [])
        end in
      Some (TurnItem.WebSearch (default [] id) query action None)
  | ImageGenerationCall id status revised_prompt result _ =>
      id ← id; Some (TurnItem.ImageGeneration (mkImageGeneration id status revised_prompt result None))
  | _ => None
  end.

(** * The last message of the assistant *)

Definition raw_assistant_output_text_from_item {J} (item : ResponseItem J) : option str :=
  match item with
  | Message _ role content _ _ =>
      if bool_decide (role = lit "assistant") then
        Some (concat (omap (λ c, match c with Content.OutputText text => Some text | _ => None end) content))
      else None
  | _ => None
  end.

Definition strip_hidden_assistant_markup (text : str) (plan_mode : bool) : str :=
  let '(without_citations, _) := Citation.strip_citations text in
  if plan_mode then Plan.strip_proposed_plan_blocks without_citations else without_citations.

Definition last_assistant_message_from_item {J} (item : ResponseItem J) (plan_mode : bool) : option str :=
  combined ← raw_assistant_output_text_from_item item;
  if is_nil combined then None
  else
    let stripped := strip_hidden_assistant_markup combined plan_mode in
    if is_nil (trim stripped) then None else Some stripped.

(** The loop over the items from the last one; [responses] is the reversed list. *)
Fixpoint find_last_assistant_message {J} (responses : list (ResponseItem J)) : option str :=
  match responses with
  | [] => None
  | item :: responses =>
      match last_assistant_message_from_item item false with
      | Some message => Some message
      | None => find_last_assistant_message responses
      end
  end.
Definition get_last_assistant_message_from_turn {J} (responses : list (ResponseItem J)) : option str :=
  find_last_assistant_message (reverse responses).

(** * Messages that stand for themselves *)

(** A text that is not context: neither a hook prompt nor a fragment. *)
Definition plain_text `{HistoryTexts} (text : str) : bool := negb (is_contextual_user_fragment (Content.InputText text)).

(** A message of the user with one plain text is that text: there is no
    medium beside it for which it could be a label. *)
Lemma parse_single_text {J} `{Outside} `{HistoryTexts} new_id id text phase meta :
  plain_text text = true →
  parse_turn_item (J := J) new_id (Message id (lit "user") [Content.InputText text] phase meta)
  = Some (TurnItem.UserMessage new_id None [CoreUserInput.Text text []]).
Proof.
  unfold plain_text. intros Hp%negb_true_iff. unfold parse_turn_item. rewrite bool_decide_true by done.
  assert (parse_visible_hook_prompt_message new_id id [Content.InputText text] = None) as ->.
  { unfold parse_visible_hook_prompt_message. simpl in *. apply orb_false_elim in Hp as [Hh Hs].
    destruct (parse_hook_prompt_fragment text); [by rewrite bool_decide_true in Hh|]. by rewrite Hs. }
  unfold parse_user_message, is_contextual_user_message_content. cbn [existsb]. rewrite Hp. simpl.
  unfold is_image_label, is_audio_label. simpl. by rewrite !andb_false_r.
Qed.

(** Whatever a message with one text is taken for, as a message of the user it
    has that text. *)
Lemma parse_single_user {J} `{Outside} `{HistoryTexts} new_id id text phase meta i c content :
  parse_turn_item (J := J) new_id (Message id (lit "user") [Content.InputText text] phase meta)
  = Some (TurnItem.UserMessage i c content) → message content = text.
Proof.
  destruct (plain_text text) eqn:Hp.
  { rewrite parse_single_text by done. intros [= <- <- <-]. unfold message. simpl. by rewrite app_nil_r. }
  unfold plain_text in Hp. apply negb_false_iff in Hp. unfold parse_turn_item. rewrite bool_decide_true by done.
  destruct (parse_visible_hook_prompt_message _ _ _); [done|].
  unfold parse_user_message, is_contextual_user_message_content. cbn [existsb]. by rewrite Hp.
Qed.
