(* ===== verification/Compaction.v ===== *)
(** Compaction of the history by a summary ([core/src/compact.rs]): the loop
    that asks for the summary and makes room for the request, the user messages
    that are carried over within a budget of tokens, the summary behind them,
    and the place of the initial context.  The request to the model is the
    argument [drain_to_completed]; the session the items of the summary are
    recorded in is represented by its items after the request. *)

From S2P Require Import Prelude Text Machine ResponseItems Truncate HistoryNormalize ContextFragments History TokenEstimate StreamText AssistantText ThreadItems LegacyEvents EventMapping.

(** * The code *)

Definition COMPACT_USER_MESSAGE_MAX_TOKENS : N := 20000.

(** The text of [prompts/templates/compact/summary_prefix.md]. *)
Definition SUMMARY_PREFIX : str :=
  lit "Another language model started to solve this problem and produced a summary of its thinking process. You also have access to the state of the tools that were used by that language model. Use this to build on the work that has already been done and avoid duplicating work. Here is the summary produced by the other language model, use the information in this summary to assist with your own analysis:".

Definition text_piece (item : Content.t) : option str :=
  match item with
  | Content.InputText text | Content.OutputText text => if is_nil text then None else Some text
  | Content.InputImage _ _ | Content.InputAudio _ => None
  end.
Definition content_items_to_text (content : list Content.t) : option str :=
  let pieces := omap text_piece content in
  if is_nil pieces then None else Some (join [nl] pieces).

Record CompactedUserMessage := mkCompacted {
  compacted_message : str;
  compacted_metadata : metadata
}.

Definition is_summary_message (message : str) : bool := starts_with message (SUMMARY_PREFIX ++ [nl]).

(** ** The turn id of an item ([ResponseItem::set_turn_id_if_missing]) *)

Definition set_metadata_turn_id_if_missing (id : str) (meta : metadata) : metadata :=
  if is_nil id || is_some_and (λ id, negb (is_nil id)) (meta ≫= turn_id) then meta else Some (mkMetadata (Some id)).

Definition update_metadata {J} (f : metadata → metadata) (item : ResponseItem J) : ResponseItem J :=
  match item with
  | Message id role content phase meta => Message id role content phase (f meta)
  | AgentMessage id author recipient content meta => AgentMessage id author recipient content (f meta)
  | Reasoning id summary content encrypted meta => Reasoning id summary content encrypted (f meta)
  | LocalShellCall id call_id status action meta => LocalShellCall id call_id status action (f meta)
  | FunctionCall id name namespace arguments call_id meta => FunctionCall id name namespace arguments call_id (f meta)
  | ToolSearchCall id call_id status execution arguments meta =>
      ToolSearchCall id call_id status execution arguments (f meta)
  | FunctionCallOutput id call_id output meta => FunctionCallOutput id call_id output (f meta)
  | CustomToolCall id status call_id name namespace input meta =>
      CustomToolCall id status call_id name namespace input (f meta)
  | CustomToolCallOutput id call_id name output meta => CustomToolCallOutput id call_id name output (f meta)
  | ToolSearchOutput id call_id status execution tools meta =>
      ToolSearchOutput id call_id status execution tools (f meta)
  | WebSearchCall id status action meta => WebSearchCall id status action (f meta)
  | ImageGenerationCall id status prompt result meta => ImageGenerationCall id status prompt result (f meta)
  | Item.Compaction id content meta => Item.Compaction id content (f meta)
  | ContextCompaction id content meta => ContextCompaction id content (f meta)
  | CompactionTrigger => CompactionTrigger
  | AdditionalTools id role tools => AdditionalTools id role tools
  | Other => Other
  end.
Definition set_turn_id_if_missing {J} (id : str) (item : ResponseItem J) : ResponseItem J :=
  update_metadata (set_metadata_turn_id_if_missing id) item.

Section code.
Context {J : Type} `{Outside} `{HistoryTexts}.
Implicit Types (item : ResponseItem J).

(** The contents of [parse_turn_item(item)] when it is a message of the user.
    Its id is not looked at, so any fresh id will do. *)
Definition user_message_of item : option (list CoreUserInput.t) :=
  match parse_turn_item (new_uuid 0) item with
  | Some (TurnItem.UserMessage _ _ content) => Some content
  | _ => None
  end.

(** ** Collecting the messages *)

Definition collect_user_message item : option CompactedUserMessage :=
  user ← user_message_of item;
  if is_summary_message (message user) then None
  else
    Some (mkCompacted (message user) (match item with Message _ _ _ _ meta => meta | _ => None end)).
Definition collect_user_messages (l : list (ResponseItem J)) : list CompactedUserMessage :=
  omap collect_user_message l.

(** ** Placing the initial context *)

(** The loop over the positions below [i], from the last one: the last
    user-like position found so far, and the last real one. *)
Fixpoint scan_back (l : list (ResponseItem J)) (i : nat) (last_user_or_summary : option nat) :
    option nat * option nat :=
  match i with
  | O => (last_user_or_summary, None)
  | S i =>
      match l !! i ≫= user_message_of with
      | None => scan_back l i last_user_or_summary
      | Some user =>
          let last_user_or_summary := Some (default i last_user_or_summary) in
          if negb (is_summary_message (message user)) then (last_user_or_summary, Some i)
          else scan_back l i last_user_or_summary
      end
  end.

Definition is_compaction_item item : bool :=
  match item with Item.Compaction _ _ _ | ContextCompaction _ _ _ => true | _ => false end.

(** [a.or(b)] *)
Definition option_or {A} (a b : option A) : option A := match a with Some a => Some a | None => b end.

Definition insert_initial_context_before_last_real_user_or_summary
    (compacted_history initial_context : list (ResponseItem J)) : list (ResponseItem J) :=
  let '(last_user_or_summary_index, last_real_user_index) :=
    scan_back compacted_history (length compacted_history) None in
  let last_compaction_index := rposition is_compaction_item compacted_history in
  match option_or (option_or last_real_user_index last_user_or_summary_index) last_compaction_index with
  | Some insertion_index =>
      take insertion_index compacted_history ++ initial_context ++ drop insertion_index compacted_history
  | None => compacted_history ++ initial_context
  end.

(** ** Building the replacement *)

(** The loop over the messages from the newest; [None] would be a panic while
    truncating. *)
Fixpoint select_newest (remaining : N) (user_messages : list CompactedUserMessage) :
    option (list CompactedUserMessage) :=
  match user_messages with
  | [] => Some []
  | message :: user_messages =>
      if decide (remaining = 0%N) then Some []
      else
        let tokens := approx_token_count (compacted_message message) in
        if decide (tokens ≤ remaining)%N then
          cons message <$> select_newest (remaining - tokens) user_messages
        else
          truncated ← truncate_text (compacted_message message) (Tokens remaining);
          Some [mkCompacted truncated (compacted_metadata message)]
  end.

Definition user_text_item (text : str) (meta : metadata) : ResponseItem J :=
  Message None (lit "user") [Content.InputText text] None meta.
Definition message_item (message : CompactedUserMessage) : ResponseItem J :=
  user_text_item (compacted_message message) (compacted_metadata message).
Definition summary_item (summary_text : str) : ResponseItem J :=
  user_text_item (if is_nil summary_text then lit "(no summary available)" else summary_text) None.

Definition build_compacted_history_with_limit (history : list (ResponseItem J))
    (user_messages : list CompactedUserMessage) (summary_text : str) (max_tokens : N) :
    option (list (ResponseItem J)) :=
  selected_messages ←
    (if decide (0 < max_tokens)%N then reverse <$> select_newest max_tokens (reverse user_messages) else Some []);
  Some (history ++ (message_item <$> selected_messages) ++ [summary_item summary_text]).

Definition build_compacted_history (initial_context : list (ResponseItem J))
    (user_messages : list CompactedUserMessage) (summary_text : str) : option (list (ResponseItem J)) :=
  build_compacted_history_with_limit initial_context user_messages summary_text COMPACT_USER_MESSAGE_MAX_TOKENS.

(** [run_compact_task_inner_impl] from the snapshot of the history on: the
    history that replaces it.  [initial_context] is empty unless the
    compaction happens in the middle of a turn. *)
Definition replacement_history (history_items : list (ResponseItem J)) (sub_id : str)
    (initial_context : list (ResponseItem J)) : option (list (ResponseItem J)) :=
  let summary_suffix := default [] (get_last_assistant_message_from_turn history_items) in
  let summary_text := SUMMARY_PREFIX ++ [nl] ++ summary_suffix in
  let user_messages := collect_user_messages history_items in
  new_history ← build_compacted_history [] user_messages summary_text;
  let new_history := update_last (set_turn_id_if_missing sub_id) new_history in
  Some (if is_nil initial_context then new_history
        else insert_initial_context_before_last_real_user_or_summary new_history initial_context).
End code.

(** ** Asking for the summary *)

(** [CodexErr]; an error of another library or type that one wraps is its text. *)
Module CodexErr.
Inductive t :=
| TurnAborted
| SessionBudgetExceeded
| Stream (message : str) (requested_delay : option Duration)
| ContextWindowExceeded
| ThreadNotFound (thread_id : str)
| AgentLimitReached (max_threads : N)
| SessionConfiguredNotFirstEvent
| Timeout
| RequestTimeout
| Spawn
| Interrupted
| UnexpectedStatus (error : str)
| InvalidRequest (message : str)
| InvalidImageRequest
| UsageLimitReached (error : str)
| ServerOverloaded
| CyberPolicy (message : str)
| ResponseStreamFailed (error : str)
| ConnectionFailed (error : str)
| QuotaExceeded
| UsageNotIncluded
| InternalServerError
| RetryLimit (error : str)
| InternalAgentDied
| Sandbox (error : str)
| LandlockSandboxExecutableNotProvided
| UnsupportedOperation (message : str)
| RefreshTokenFailed (error : str)
| Fatal (message : str)
| Io (error : str)
| Json (error : str)
| LandlockRuleset (error : str)
| LandlockPathFd (error : str)
| TokioJoin (error : str)
| EnvVar (error : str).
End CodexErr.

(** [CompactionStatus], and [compaction_status_from_result] *)
Module CompactionStatus.
Inductive t := Completed | Failed | Interrupted.
End CompactionStatus.
Definition compaction_status_from_result {A} (r : result CodexErr.t A) : CompactionStatus.t :=
  match r with
  | Ok _ => CompactionStatus.Completed
  | Err (CodexErr.Interrupted | CodexErr.TurnAborted) => CompactionStatus.Interrupted
  | Err _ => CompactionStatus.Failed
  end.

(** How the loop ends, and what the session is told on the way. *)
Inductive LoopEnd := Drained | Failed (e : CodexErr.t) | Panicked.
Inductive LoopEvent :=
| TrackTurnError (e : CodexErr.t)
| SendError (e : CodexErr.t)
| SetTotalTokensFull
| NotifyStreamError (retries max_retries : N) (e : CodexErr.t).

Section attempts.
Context {J TI TC WS : Type} `{HistoryTexts}.
(** The arguments of [for_prompt], the retries of the provider, and what the
    [n]-th request with a prompt comes to. *)
Variables (debug : bool) (uuid_v5 : str → str) (mods : list InputModality) (max_retries : N)
  (drain_to_completed : nat → list (ResponseItem J) → result CodexErr.t ()).
Implicit Types (h : ContextManager J TI TC WS).

(** The loop of [run_compact_task_inner_impl], from [retries] and the number of
    requests made: how it ends, the events and the number of requests.  [None]
    is a lack of fuel. *)
Fixpoint attempts (fuel : nat) (retries : N) (calls : nat) h : option (LoopEnd * list LoopEvent * nat) :=
  match fuel with
  | O => None
  | S fuel =>
      match for_prompt debug uuid_v5 mods h with
      | None => Some (Panicked, [], calls)
      | Some turn_input =>
          match drain_to_completed calls turn_input with
          | Ok _ => Some (Drained, [], S calls)
          | Err ((CodexErr.Interrupted | CodexErr.TurnAborted) as err) => Some (Failed err, [], S calls)
          | Err (CodexErr.SessionBudgetExceeded as e) => Some (Failed e, [TrackTurnError e; SendError e], S calls)
          | Err (CodexErr.ContextWindowExceeded as e) =>
              if decide (1 < length turn_input) then attempts fuel 0 (S calls) (remove_first_item h)
              else Some (Failed e, [SetTotalTokensFull; TrackTurnError e; SendError e], S calls)
          | Err e =>
              if decide (retries < max_retries)%N then
                '(result, events, calls) ← attempts fuel (retries + 1) (S calls) h;
                Some (result, NotifyStreamError (retries + 1) max_retries e :: events, calls)
              else Some (Failed e, [TrackTurnError e; SendError e], S calls)
          end
      end
  end.
End attempts.
