(* ===== verification/CompactionSpec.v ===== *)
(** What compaction keeps: the newest messages of the user within the budget,
    over any number of compactions; where the initial context goes; and that
    asking for the summary comes to an end. *)

From S2P Require Import Prelude Text Machine ResponseItems Truncate HistoryNormalize ContextFragments History TokenEstimate ThreadItems LegacyEvents EventMapping Compaction.

(** * The messages that are kept *)

Definition tokens_of (messages : list CompactedUserMessage) : N :=
  foldr (λ m n, (approx_token_count (compacted_message m) + n)%N) 0%N messages.

Lemma tokens_of_app k l : tokens_of (k ++ l) = (tokens_of k + tokens_of l)%N.
Proof. induction k as [|m k IH]; simpl; [done|]. rewrite IH. lia. Qed.

Lemma tokens_of_reverse l : tokens_of (reverse l) = tokens_of l.
Proof. induction l as [|m l IH]; [done|]. rewrite reverse_cons, tokens_of_app, IH. simpl. lia. Qed.

(** A text of more than [n] tokens has more bytes than the budget of [n] tokens. *)
Lemma more_tokens_more_bytes n text :
  (n < approx_token_count text)%N → (byte_budget (Tokens n) < byte_len text)%N.
Proof.
  unfold approx_token_count, byte_budget, approx_bytes_for_tokens, APPROX_BYTES_PER_TOKEN, usize_add, usize_mul.
  intros Hn. pose proof (N.Div0.mul_div_le (usize_sat (byte_len text + (4 - 1))) 4).
  unfold usize_sat in *. lia.
Qed.

(** What is kept of [messages] with [max] tokens: the newest ones whole, as
    many as fit, and of the one before them, when there is budget left, both
    ends. *)
Definition kept_within (max : N) (messages kept : list CompactedUserMessage) : Prop :=
  ∃ older newer, messages = older ++ newer ∧ (tokens_of newer ≤ max)%N ∧
    ((kept = newer ∧ (older = [] ∨ tokens_of newer = max))
     ∨ ∃ older' m text, older = older' ++ [m]
        ∧ (tokens_of newer < max < tokens_of newer + approx_token_count (compacted_message m))%N
        ∧ truncated_to (byte_budget (Tokens (max - tokens_of newer))) true (compacted_message m) text
        ∧ kept = mkCompacted text (compacted_metadata m) :: newer).

Lemma select_newest_spec max messages :
  ∃ kept, select_newest max (reverse messages) = Some kept ∧ kept_within max messages (reverse kept).
Proof.
  revert max. induction messages as [|m messages IH] using rev_ind; intros max.
  { exists []. split; [done|]. exists [], []. split_and!; [done|simpl; lia|by left; auto]. }
  rewrite reverse_snoc. cbn [select_newest]. case_decide as Hmax.
  { exists []. split; [done|]. exists (messages ++ [m]), []. rewrite app_nil_r.
    split_and!; [done|simpl; lia|left; by auto]. }
  case_decide as Hm.
  - destruct (IH (max - approx_token_count (compacted_message m))%N)
      as (kept & -> & older & newer & -> & Hle & Hcase).
    exists (m :: kept). split; [done|]. rewrite reverse_cons. exists older, (newer ++ [m]).
    assert (tokens_of (newer ++ [m]) = tokens_of newer + approx_token_count (compacted_message m))%N as Hsum
      by (rewrite tokens_of_app; simpl; lia).
    split_and!; [by rewrite app_assoc|lia|]. destruct Hcase as [[-> Ho]|(older' & o & text & -> & Hb & Ht & ->)].
    + left. split; [done|]. destruct Ho as [->|Ho]; [by left|right; lia].
    + right. exists older', o, text. rewrite Hsum. split_and!; [done|lia|lia| |done].
      replace (max - (tokens_of newer + approx_token_count (compacted_message m)))%N
        with (max - approx_token_count (compacted_message m) - tokens_of newer)%N by lia. done.
  - destruct (truncate_text_spec (compacted_message m) (Tokens max)) as (text & -> & _ & Hcut).
    eexists. split; [done|]. exists (messages ++ [m]), []. rewrite app_nil_r. split_and!; [done|simpl; lia|].
    right. exists messages, m, text. simpl. rewrite N.sub_0_r.
    split_and!; [done|lia|lia|apply Hcut, more_tokens_more_bytes; lia|done].
Qed.

Lemma kept_all max messages kept : (tokens_of messages < max)%N → kept_within max messages kept → kept = messages.
Proof.
  intros Hle (older & newer & -> & _ & [[-> Ho]|(older' & m & text & -> & Hb & _)]).
  - rewrite tokens_of_app in Hle. destruct Ho as [->|Ho]; [done|lia].
  - rewrite !tokens_of_app in Hle. simpl in Hle. lia.
Qed.

Section build.
Context {J : Type} `{Outside} `{HistoryTexts}.
Implicit Types (item : ResponseItem J) (l : list (ResponseItem J)).

Lemma build_spec (context : list (ResponseItem J)) messages summary max :
  ∃ kept, kept_within max messages kept
    ∧ build_compacted_history_with_limit context messages summary max
      = Some (context ++ (message_item <$> kept) ++ [summary_item summary]).
Proof.
  unfold build_compacted_history_with_limit. case_decide as Hmax.
  - destruct (select_newest_spec max messages) as (kept & Hk & Hw). exists (reverse kept).
    split; [done|]. by rewrite Hk.
  - exists []. split; [|done]. exists messages, []. rewrite app_nil_r.
    split_and!; [done|simpl; lia|left]. split; [done|]. right. simpl. lia.
Qed.

(** * Reading the replacement again *)

Lemma user_message_of_plain text meta :
  plain_text text = true → user_message_of (J := J) (user_text_item text meta) = Some [CoreUserInput.Text text []].
Proof. intros Hp. unfold user_message_of, user_text_item. by rewrite parse_single_text. Qed.

Lemma user_message_of_text text meta content :
  user_message_of (J := J) (user_text_item text meta) = Some content → message content = text.
Proof.
  unfold user_message_of, user_text_item. destruct (parse_turn_item _ _) as [[]|] eqn:E; try done.
  intros [= <-]. by eapply parse_single_user.
Qed.

(** A summary is not a message of the user, whatever it is taken for. *)
Lemma summary_not_collected suffix meta :
  collect_user_message (J := J) (user_text_item (SUMMARY_PREFIX ++ [nl] ++ suffix) meta) = None.
Proof.
  unfold collect_user_message. destruct (user_message_of _) as [content|] eqn:E; [|done]. simpl.
  apply user_message_of_text in E as ->. unfold is_summary_message. by rewrite app_assoc, starts_with_app.
Qed.

Lemma message_collected m :
  plain_text (compacted_message m) = true → is_summary_message (compacted_message m) = false →
  collect_user_message (J := J) (message_item m) = Some m.
Proof.
  intros Hp Hs. unfold collect_user_message, message_item. rewrite user_message_of_plain by done.
  simpl. unfold message. simpl. rewrite app_nil_r, Hs. by destruct m.
Qed.

Definition recognised (m : CompactedUserMessage) : Prop :=
  plain_text (compacted_message m) = true ∧ is_summary_message (compacted_message m) = false.

Lemma messages_collected messages :
  Forall recognised messages → collect_user_messages (J := J) (message_item <$> messages) = messages.
Proof.
  induction 1 as [|m messages [Hp Hs] _ IH]; [done|]. unfold collect_user_messages in *. csimpl.
  by rewrite message_collected, IH.
Qed.

Lemma collected_not_summary l m : m ∈ collect_user_messages l → is_summary_message (compacted_message m) = false.
Proof.
  unfold collect_user_messages. intros (item & _ & Hc)%list_elem_of_omap. unfold collect_user_message in Hc.
  destruct (user_message_of item); [|done]. simpl in Hc. destruct (is_summary_message _) eqn:E; [done|].
  by injection Hc as <-.
Qed.

Lemma collect_app l k :
  collect_user_messages (l ++ k) = collect_user_messages l ++ collect_user_messages (J := J) k.
Proof. apply omap_app. Qed.
End build.

(** * The place of the initial context *)

Lemma rposition_snoc {J} (p : ResponseItem J → bool) l x :
  rposition p (l ++ [x]) = if p x then Some (length l) else rposition p l.
Proof.
  induction l as [|y l IH]; simpl; [by destruct (p x)|]. rewrite IH. by destruct (p x).
Qed.

Section place.
Context {J : Type} `{Outside} `{HistoryTexts}.
Implicit Types (item : ResponseItem J) (l ctx : list (ResponseItem J)).

(** Messages of the user, summaries among them; and without summaries. *)
Definition user_like item : bool := bool_decide (is_Some (user_message_of item)).
Definition real_user item : bool :=
  is_some_and (λ user, negb (is_summary_message (message user))) (user_message_of item).

Lemma scan_back_spec l i last :
  i ≤ length l →
  scan_back l i last = (option_or last (rposition user_like (take i l)), rposition real_user (take i l)).
Proof.
  revert last. induction i as [|i IH]; intros last Hi; [by destruct last|]. cbn [scan_back].
  destruct (lookup_lt_is_Some_2 l i) as [item Hl]; [lia|]. rewrite Hl. cbn [mbind option_bind].
  rewrite (take_S_r _ _ _ Hl), !rposition_snoc, length_take_le by lia.
  assert (user_like item = bool_decide (is_Some (user_message_of item))) as -> by done.
  assert (real_user item = is_some_and (λ user, negb (is_summary_message (message user))) (user_message_of item))
    as -> by done.
  destruct (user_message_of item) as [user|]; simpl; [|by apply IH; lia].
  destruct (is_summary_message (message user)); simpl.
  - rewrite IH by lia. by destruct last.
  - by destruct last.
Qed.

(** The position in front of which the context is put. *)
Definition context_position l : option nat :=
  option_or (option_or (rposition real_user l) (rposition user_like l)) (rposition is_compaction_item l).

Lemma insert_spec l ctx :
  insert_initial_context_before_last_real_user_or_summary l ctx
  = match context_position l with Some i => take i l ++ ctx ++ drop i l | None => l ++ ctx end.
Proof.
  unfold insert_initial_context_before_last_real_user_or_summary, context_position.
  rewrite scan_back_spec, firstn_all by done. done.
Qed.

Lemma insert_parts l ctx :
  ∃ before after, l = before ++ after
    ∧ insert_initial_context_before_last_real_user_or_summary l ctx = before ++ ctx ++ after.
Proof.
  rewrite insert_spec. destruct (context_position l) as [i|].
  - exists (take i l), (drop i l). by rewrite take_drop.
  - exists l, []. by rewrite !app_nil_r.
Qed.

Lemma insert_keeps_messages l ctx :
  collect_user_messages ctx = [] →
  collect_user_messages (insert_initial_context_before_last_real_user_or_summary l ctx) = collect_user_messages l.
Proof.
  intros Hc. destruct (insert_parts l ctx) as (before & after & -> & ->). by rewrite !collect_app, Hc.
Qed.

Lemma rposition_before (p : ResponseItem J → bool) l item after :
  p item = true → Forall (λ item, p item = false) after → rposition p (l ++ item :: after) = Some (length l).
Proof.
  intros Hp Ha. induction after as [|x after IH] using rev_ind.
  { by rewrite rposition_snoc, Hp. }
  apply Forall_snoc in Ha as [Ha Hx]. rewrite app_comm_cons, app_assoc, rposition_snoc, Hx. by apply IH.
Qed.

Lemma rposition_none (p : ResponseItem J → bool) l : Forall (λ item, p item = false) l → rposition p l = None.
Proof.
  induction l as [|x l IH] using rev_ind; [done|]. intros [Hl Hx]%Forall_snoc.
  rewrite rposition_snoc, Hx. by apply IH.
Qed.
End place.

(** * The replacement *)

Section replacement.
Context {J : Type} `{Outside} `{HistoryTexts}.
Implicit Types (items ctx : list (ResponseItem J)).

Definition summary_of items : str :=
  SUMMARY_PREFIX ++ [nl] ++ default [] (get_last_assistant_message_from_turn items).

(** The summary as it is stored, with the turn it was made in. *)
Definition stored_summary items (sub_id : str) : ResponseItem J :=
  user_text_item (summary_of items) (set_metadata_turn_id_if_missing sub_id None).

Lemma replacement_spec items sub_id ctx :
  ∃ kept, kept_within COMPACT_USER_MESSAGE_MAX_TOKENS (collect_user_messages items) kept
    ∧ replacement_history items sub_id ctx
      = Some (let l := (message_item <$> kept) ++ [stored_summary items sub_id] in
              if is_nil ctx then l else insert_initial_context_before_last_real_user_or_summary l ctx).
Proof.
  unfold replacement_history, build_compacted_history.
  edestruct (build_spec (J := J) [] (collect_user_messages items)) as (kept & Hk & ->).
  exists kept. split; [done|]. cbn [mbind option_bind app]. by rewrite update_last_snoc.
Qed.

Lemma stored_summary_not_collected items sub_id : collect_user_message (stored_summary items sub_id) = None.
Proof. apply summary_not_collected. Qed.

Lemma stored_summary_not_real items sub_id : real_user (stored_summary items sub_id) = false.
Proof.
  pose proof (stored_summary_not_collected items sub_id) as Hc. unfold collect_user_message, real_user in *.
  destruct (user_message_of _) as [user|]; [|done]. simpl in *. by destruct (is_summary_message _).
Qed.

Lemma recognised_real m : recognised m → real_user (J := J) (message_item m) = true.
Proof.
  intros [Hp Hs]. unfold real_user, message_item. rewrite user_message_of_plain by done. simpl.
  unfold message. simpl. by rewrite app_nil_r, Hs.
Qed.

Lemma insert_before_newest items sub_id ctx older newest :
  recognised newest →
  insert_initial_context_before_last_real_user_or_summary
    ((message_item <$> older ++ [newest]) ++ [stored_summary items sub_id]) ctx
  = (message_item <$> older) ++ ctx ++ [message_item newest; stored_summary items sub_id].
Proof.
  intros Hr. rewrite fmap_app, <- app_assoc. simpl. rewrite insert_spec. unfold context_position.
  rewrite (rposition_before real_user) by (by apply recognised_real || (repeat constructor; apply stored_summary_not_real)).
  simpl. by rewrite take_app_length, drop_app_length.
Qed.

Lemma insert_before_summary items sub_id ctx :
  plain_text (summary_of items) = true →
  insert_initial_context_before_last_real_user_or_summary [stored_summary items sub_id] ctx
  = ctx ++ [stored_summary items sub_id].
Proof.
  intros Hp. rewrite insert_spec. unfold context_position.
  rewrite rposition_none by (repeat constructor; apply stored_summary_not_real). simpl.
  unfold user_like, stored_summary. by rewrite user_message_of_plain, bool_decide_true.
Qed.

(** A history, what is recorded after it, the turn of the compaction that
    follows and the context it puts in: compactions one after the other. *)
Fixpoint compaction_rounds (history : list (ResponseItem J))
    (rounds : list (list (ResponseItem J) * str * list (ResponseItem J))) : option (list (ResponseItem J)) :=
  match rounds with
  | [] => Some history
  | (new, sub_id, ctx) :: rounds =>
      history ← replacement_history (history ++ new) sub_id ctx; compaction_rounds history rounds
  end.

Lemma replacement_keeps_all items sub_id ctx :
  collect_user_messages ctx = [] →
  Forall (λ m, plain_text (compacted_message m) = true) (collect_user_messages items) →
  (tokens_of (collect_user_messages items) < COMPACT_USER_MESSAGE_MAX_TOKENS)%N →
  ∃ items', replacement_history items sub_id ctx = Some items'
    ∧ collect_user_messages items' = collect_user_messages items.
Proof.
  intros Hctx Hp Hb. destruct (replacement_spec items sub_id ctx) as (kept & Hk & ->).
  apply kept_all in Hk as ->; [|done]. eexists. split; [done|].
  assert (collect_user_messages ((message_item <$> collect_user_messages items) ++ [stored_summary items sub_id])
          = collect_user_messages items) as Hc.
  { rewrite collect_app, messages_collected.
    - unfold collect_user_messages at 2. cbn [omap list_omap]. by rewrite stored_summary_not_collected, app_nil_r.
    - apply Forall_forall. intros m Hm. split; [by eapply Forall_forall in Hp|by eapply collected_not_summary]. }
  simpl. destruct (is_nil ctx); [done|]. by rewrite insert_keeps_messages.
Qed.
End replacement.

(** C17: Compaction keeps the newest messages and ends with the summary.  Of
    the messages of the user, the newest that fit in the budget of 20000
    tokens together are kept whole and in their order; of the one before them,
    when budget is left, both ends are kept around a marker; nothing older is
    kept, and truncating never panics.  Behind them comes the summary, stamped
    with the turn.  Initial context, when there is some, goes in front of the
    newest message if that is still taken for one, and in front of the summary
    when no message is left. *)
Theorem replacement_keeps_newest_messages {J} `{Outside} `{HistoryTexts} (items : list (ResponseItem J)) sub_id ctx :
  let summary := stored_summary items sub_id in
  ∃ kept, kept_within COMPACT_USER_MESSAGE_MAX_TOKENS (collect_user_messages items) kept
    ∧ (ctx = [] → replacement_history items sub_id ctx = Some ((message_item <$> kept) ++ [summary]))
    ∧ (∀ older newest, ctx ≠ [] → kept = older ++ [newest] → recognised newest →
        replacement_history items sub_id ctx
        = Some ((message_item <$> older) ++ ctx ++ [message_item newest; summary]))
    ∧ (ctx ≠ [] → kept = [] → plain_text (summary_of items) = true →
        replacement_history items sub_id ctx = Some (ctx ++ [summary])).
Proof.
  intros summary. destruct (replacement_spec items sub_id ctx) as (kept & Hk & ->). exists kept.
  split; [done|]. split_and!.
  - by intros ->.
  - intros older newest Hc%is_nil_false -> Hr. simpl. by rewrite Hc, insert_before_newest.
  - intros Hc%is_nil_false -> Hp. simpl. by rewrite Hc, insert_before_summary.
Qed.

(** C18: Messages survive any number of compactions.  As long as all messages
    of the user together stay below the budget, and none of them reads as
    context, then however often the history is compacted, with new items in
    between and context put in that holds no message, the messages collected
    at the end are those that were sent, with their metadata and in their
    order: no summary is ever taken for a message. *)
Theorem messages_survive_compactions {J} `{Outside} `{HistoryTexts} (history : list (ResponseItem J)) rounds :
  let sent := collect_user_messages (history ++ concat ((λ r, r.1.1) <$> rounds)) in
  Forall (λ r, collect_user_messages r.2 = []) rounds →
  Forall (λ m, plain_text (compacted_message m) = true) sent →
  (tokens_of sent < COMPACT_USER_MESSAGE_MAX_TOKENS)%N →
  ∃ history', compaction_rounds history rounds = Some history' ∧ collect_user_messages history' = sent.
Proof.
  cbv zeta. revert history. induction rounds as [|[[new sub_id] ctx] rounds IH]; intros history Hctx Hp Hb.
  { exists history. by rewrite app_nil_r. }
  apply Forall_cons in Hctx as [Hc Hctx]. csimpl in *. rewrite app_assoc, collect_app in Hp, Hb |- *.
  destruct (replacement_keeps_all (history ++ new) sub_id ctx) as (h' & -> & Hh'); [done| | |].
  { by apply Forall_app in Hp as [? _]. }
  { rewrite tokens_of_app in Hb. lia. }
  simpl. rewrite <- Hh', <- collect_app in Hp, Hb |- *. by apply IH.
Qed.

(** * Asking for the summary *)

Lemma remove_first_matching_length {J} (p : ResponseItem J → bool) l : length (remove_first_matching p l) ≤ length l.
Proof. induction l as [|x l IH]; simpl; [done|]. destruct (p x); simpl; lia. Qed.

Lemma remove_corresponding_length {J} (l : list (ResponseItem J)) item :
  length (remove_corresponding_for l item) ≤ length l.
Proof. destruct item; simpl; repeat case_match; try lia; apply remove_first_matching_length. Qed.

Lemma remove_first_item_length {J TI TC WS} (h : ContextManager J TI TC WS) :
  items h ≠ [] → length (items (remove_first_item h)) < length (items h).
Proof.
  intros Hh. unfold remove_first_item. destruct (items h) as [|item rest] eqn:E; [done|]. simpl.
  pose proof (remove_corresponding_length rest item). lia.
Qed.

Section ending.
Context {J TI TC WS : Type}.
Variables (debug : bool) (uuid_v5 : str → str) (mods : list InputModality) (max_retries : N)
  (drain : nat → list (ResponseItem J) → result CodexErr.t ()).
Implicit Types (h : ContextManager J TI TC WS).
Abbreviation attempts := (attempts debug uuid_v5 mods max_retries drain).
Abbreviation prompt_of := (for_prompt debug uuid_v5 mods).

Definition transient (e : CodexErr.t) : Prop :=
  match e with
  | CodexErr.Interrupted | CodexErr.TurnAborted | CodexErr.SessionBudgetExceeded | CodexErr.ContextWindowExceeded => False
  | _ => True
  end.

(** The last [n] of [calls] requests were made with this history, and each of
    them failed for a transient reason. *)
Definition failed_last (h : ContextManager J TI TC WS) (calls : nat) (n : N) : Prop :=
  (n ≤ N.of_nat calls)%N ∧
  ∀ j prompt, (N.of_nat j < n)%N → prompt_of h = Some prompt →
    ∃ e, drain (calls - 1 - j) prompt = Err e ∧ transient e.

(** What the end of the loop means for the last request and its prompt. *)
Definition end_justified (h : ContextManager J TI TC WS) (calls : nat) (out : LoopEnd) : Prop :=
  match out with
  | Panicked => prompt_of h = None
  | Drained => ∃ prompt, prompt_of h = Some prompt ∧ 0 < calls ∧ drain (calls - 1) prompt = Ok ()
  | Failed e =>
      ∃ prompt, prompt_of h = Some prompt ∧ 0 < calls ∧ drain (calls - 1) prompt = Err e
        ∧ (e = CodexErr.ContextWindowExceeded → length prompt ≤ 1)
        ∧ (transient e → failed_last h calls (max_retries + 1))
  end.

(** Enough fuel: each removal allows all the retries again. *)
Definition attempts_fuel (n : nat) (retries : N) : nat :=
  n * S (N.to_nat max_retries) + S (N.to_nat (max_retries - retries)).

Lemma prompt_nonempty h prompt : prompt_of h = Some prompt → 1 < length prompt → items h ≠ [].
Proof.
  unfold for_prompt. intros Hp Hl E. rewrite E in Hp.
  assert (normalize_history debug uuid_v5 mods ([] : list (ResponseItem J)) = Some []) as E0.
  { unfold normalize_history. cbn. unfold strip_audio_when_unsupported, strip_images_when_unsupported.
    by repeat case_match. }
  rewrite E0 in Hp. injection Hp as <-. simpl in Hl. lia.
Qed.

Lemma failed_last_0 h calls : failed_last h calls 0.
Proof. split; [lia|]. intros j prompt Hj. lia. Qed.

Lemma failed_last_S h calls n prompt e :
  prompt_of h = Some prompt → drain calls prompt = Err e → transient e →
  failed_last h calls n → failed_last h (S calls) (n + 1).
Proof.
  intros Hp Hd He [Hle Hf]. split; [lia|]. intros j prompt' Hj Hp'. rewrite Hp in Hp'. injection Hp' as <-.
  destruct j as [|j]; [exists e; by rewrite Nat.sub_0_r, Nat.sub_1_r|].
  destruct (Hf j prompt) as (e' & ? & ?); [lia|done|]. exists e'.
  by replace (S calls - 1 - S j) with (calls - 1 - j) by lia.
Qed.

Lemma attempts_spec fuel retries calls h :
  attempts_fuel (length (items h)) retries ≤ fuel → (retries ≤ max_retries)%N → failed_last h calls retries →
  ∃ out events calls' k, attempts fuel retries calls h = Some (out, events, calls')
    ∧ calls' ≤ calls + attempts_fuel (length (items h)) retries
    ∧ end_justified (Nat.iter k remove_first_item h) calls' out.
Proof.
  revert retries calls h. induction fuel as [|fuel IH]; intros retries calls h Hfuel Hr Hf;
    unfold attempts_fuel in *; [lia|]. cbn [Compaction.attempts].
  destruct (prompt_of h) as [prompt|] eqn:Hp.
  2:{ eexists _, _, _, 0. split; [done|]. split; [lia|done]. }
  destruct (drain calls prompt) as [[]|e] eqn:Hd.
  { eexists _, _, _, 0. split; [done|]. split; [lia|]. exists prompt. rewrite Nat.sub_1_r. by auto with lia. }
  assert (∀ events : list LoopEvent, (e = CodexErr.ContextWindowExceeded → length prompt ≤ 1) →
    (transient e → retries = max_retries) →
    ∃ out ev calls' k, Some (Failed e, events, S calls) = Some (out, ev, calls')
      ∧ calls' ≤ calls + (length (items h) * S (N.to_nat max_retries) + S (N.to_nat (max_retries - retries)))
      ∧ end_justified (Nat.iter k remove_first_item h) calls' out) as Hend.
  { intros events Hc Ht. eexists _, _, _, 0. split; [done|]. split; [lia|]. exists prompt.
    rewrite Nat.sub_1_r. split_and!; [done|lia|done|done|]. intros He. rewrite <- (Ht He).
    by eapply failed_last_S. }
  destruct e; try by apply Hend.
  2: { case_decide as Hl; [|apply Hend; [lia|done]].
    pose proof (remove_first_item_length h (prompt_nonempty _ _ Hp Hl)).
    destruct (IH 0%N (S calls) (remove_first_item h)) as (out & ev & calls' & k & -> & Hc & Hj);
      [nia|lia|apply failed_last_0|].
    exists out, ev, calls', (S k). split; [done|]. split; [nia|]. by rewrite Nat.iter_succ_r. }
  all: case_decide as Hlt; [|apply Hend; [done|lia]];
    destruct (IH (retries + 1)%N (S calls) h) as (out & ev & calls' & k & -> & Hc & Hj);
      [lia|lia|by eapply failed_last_S|];
    eexists out, _, calls', k; split; [done|]; split; [lia|done].
Qed.
End ending.

(** C19: Asking for the summary comes to an end.  Whatever the model answers,
    the loop stops after at most one request more than it may retry for every
    length the history can have: a request too long for the model drops the
    oldest item, and the other errors are counted.  It stops because the last
    request succeeded, or with the very error of that request, whose prompt is
    that of the history less its oldest items; it gives up on the size of the
    prompt only when one item is left of it, and on transient errors only when
    as many requests with this history failed as are allowed.  Preparing the
    prompt does not panic in a release build. *)
Theorem summary_request_ends {J TI TC WS} debug uuid_v5 mods max_retries drain (h : ContextManager J TI TC WS) fuel :
  S (length (items h)) * S (N.to_nat max_retries) ≤ fuel →
  ∃ out events calls k,
    attempts debug uuid_v5 mods max_retries drain fuel 0 0 h = Some (out, events, calls)
    ∧ calls ≤ S (length (items h)) * S (N.to_nat max_retries)
    ∧ end_justified debug uuid_v5 mods max_retries drain (Nat.iter k remove_first_item h) calls out
    ∧ (debug = false → out ≠ Panicked).
Proof.
  intros Hfuel. assert (attempts_fuel max_retries (length (items h)) 0
    = S (length (items h)) * S (N.to_nat max_retries)) as Ef by (unfold attempts_fuel; rewrite N.sub_0_r; lia).
  destruct (attempts_spec debug uuid_v5 mods max_retries drain fuel 0 0 h) as (out & ev & calls & k & Ha & Hc & Hj);
    [lia|lia|apply failed_last_0|].
  exists out, ev, calls, k. split_and!; [done|lia|done|]. intros -> ->. simpl in Hj.
  unfold for_prompt in Hj. by rewrite normalize_release in Hj.
Qed.
