(* ===== verification/RemoteCompaction.v ===== *)
(** Compaction of the history by the server ([core/src/compact_remote.rs] and
    [core/src/compact_remote_v2.rs]): tool outputs at the end of the history
    give way until it fits the context window, of what the server sends back
    the stale instructions are dropped, and in the second version the client
    keeps the newest messages itself and takes one compaction item from the
    stream.  The streams and requests themselves are outside of the model. *)

From S2P Require Import Prelude Text Machine ResponseItems Truncate HistoryNormalize ContextFragments History TokenEstimate ThreadItems LegacyEvents EventMapping Compaction CompactionSpec.

Definition i128_max : Z := 170141183460469231731687303715884105727.
Definition i128_min : Z := -170141183460469231731687303715884105728.
(** [i128::saturating_add] and [i128::saturating_sub], and [i64::try_from(n).unwrap_or(i64::MAX)]. *)
Definition i128_sat (z : Z) : Z := Z.max i128_min (Z.min z i128_max).
Definition i128_add (a b : Z) : Z := i128_sat (a + b).
Definition i128_sub (a b : Z) : Z := i128_sat (a - b).
Definition i64_of_i128 (n : Z) : Z := if bool_decide (i64_min ≤ n ≤ i64_max)%Z then n else i64_max.

(** * Making room for the request *)

Definition CONTEXT_WINDOW_TRUNCATED_OUTPUT_MESSAGE : str :=
  lit "Output exceeded the available model context and was truncated".

Definition truncated_output_payload (output : FunctionCallOutputPayload) : FunctionCallOutputPayload :=
  mkPayload (Text CONTEXT_WINDOW_TRUNCATED_OUTPUT_MESSAGE) (success output).

Definition rewritten_output_for_context_window {J} (item : ResponseItem J) : option (ResponseItem J) :=
  match item with
  | FunctionCallOutput id call_id output meta =>
      Some (FunctionCallOutput id call_id (truncated_output_payload output) meta)
  | CustomToolCallOutput id call_id name output meta =>
      Some (CustomToolCallOutput id call_id name (truncated_output_payload output) meta)
  | ToolSearchOutput id call_id status execution _ meta =>
      Some (ToolSearchOutput id call_id status execution [] meta)
  | _ => None
  end.

Section trim.
Context {J TI TC WS : Type}.
Variables (json_len : ResponseItem J → option N) (image_size : str → option (Z * Z)) (audio_tokens : str → N).
Implicit Types (h : ContextManager J TI TC WS).
Abbreviation estimate := (estimate_item_token_count json_len image_size audio_tokens).

(** The loop over the items and their estimates from the last one: the
    rewritten items, the last first, and the estimate of the whole. *)
Fixpoint rewrite_from_end (context_window : Z) (todo : list (ResponseItem J * Z)) (estimated_tokens : Z) :
    list (ResponseItem J) * Z :=
  match todo with
  | [] => ([], estimated_tokens)
  | (item, item_tokens) :: todo =>
      if decide (i64_of_i128 estimated_tokens ≤ context_window)%Z then ([], estimated_tokens)
      else
        match rewritten_output_for_context_window item with
        | None => ([], estimated_tokens)
        | Some rewritten_item =>
            let estimated_tokens :=
              i128_add (i128_sub estimated_tokens item_tokens) (estimate rewritten_item) in
            let '(rewritten_items, estimated_tokens) := rewrite_from_end context_window todo estimated_tokens in
            (rewritten_item :: rewritten_items, estimated_tokens)
        end
  end.

(** [trim_function_call_history_to_fit_context_window]: the history, the number
    of outputs that were rewritten and the tokens this saved. *)
Definition trim_function_call_history_to_fit_context_window (model_context_window : option Z)
    (base_instructions : str) h : ContextManager J TI TC WS * (nat * Z) :=
  match model_context_window with
  | None => (h, (0, 0%Z))
  | Some context_window =>
      let base_tokens := Z.of_N (approx_token_count base_instructions) in
      let original_items := items h in
      let item_token_estimates := estimate <$> original_items in
      let estimated_tokens := foldl i128_add base_tokens item_token_estimates in
      let initial_estimated_tokens := i64_of_i128 estimated_tokens in
      let '(rewritten_items, estimated_tokens) :=
        rewrite_from_end context_window (reverse (zip original_items item_token_estimates)) estimated_tokens in
      let rewritten_outputs := length rewritten_items in
      let h :=
        if decide (0 < rewritten_outputs) then
          replace (take (length original_items - rewritten_outputs) original_items ++ reverse rewritten_items) h
        else h in
      (h, (rewritten_outputs, i64_sub initial_estimated_tokens (i64_of_i128 estimated_tokens)))
  end.
End trim.

(** * What the server sends back *)

Section server.
Context {J : Type} `{Outside} `{HistoryTexts}.
Implicit Types (item : ResponseItem J).

Definition should_keep_compacted_history_item item : bool :=
  match item with
  | Message _ role _ _ _ =>
      if bool_decide (role = lit "developer") then false
      else if bool_decide (role = lit "user") then
        match parse_turn_item (new_uuid 0) item with
        | Some (TurnItem.UserMessage _ _ _) | Some (TurnItem.HookPrompt _) => true
        | _ => false
        end
      else bool_decide (role = lit "assistant")
  | AgentMessage _ _ _ _ _ => true
  | Item.Compaction _ _ _ | ContextCompaction _ _ _ => true
  | CompactionTrigger => false
  | AdditionalTools _ _ _ | Reasoning _ _ _ _ _ | LocalShellCall _ _ _ _ _ | FunctionCall _ _ _ _ _ _
  | ToolSearchCall _ _ _ _ _ _ | FunctionCallOutput _ _ _ _ | ToolSearchOutput _ _ _ _ _ _
  | CustomToolCall _ _ _ _ _ _ _ | CustomToolCallOutput _ _ _ _ _ | WebSearchCall _ _ _ _
  | ImageGenerationCall _ _ _ _ _ | Other => false
  end.

(** [process_compacted_history], with the initial context it has built *)
Definition process_compacted_history (compacted_history initial_context : list (ResponseItem J)) :
    list (ResponseItem J) :=
  insert_initial_context_before_last_real_user_or_summary
    (filter (λ item, should_keep_compacted_history_item item) compacted_history) initial_context.

(** * The second version: messages the client keeps *)

Definition RETAINED_MESSAGE_TOKEN_BUDGET : N := 64000.

Definition is_retained_for_remote_compaction_v2 item : bool :=
  match item with
  | Message _ role _ _ _ =>
      bool_decide (role = lit "user") || bool_decide (role = lit "developer") || bool_decide (role = lit "system")
  | _ => false
  end.

Definition is_input_image (c : Content.t) : bool := match c with Content.InputImage _ _ => true | _ => false end.
Definition retained_input_image_count item : nat :=
  match item with
  | Message _ _ content _ _ => length (filter (λ c, is_input_image c) content)
  | _ => 0
  end.

Definition content_tokens (c : Content.t) : N :=
  match c with
  | Content.InputText text | Content.OutputText text => approx_token_count text
  | Content.InputImage _ _ | Content.InputAudio _ => 0
  end.
(** The sum is over texts that are in memory together. *)
Definition contents_tokens (content : list Content.t) : N := foldr (λ c n, (content_tokens c + n)%N) 0%N content.
Definition message_text_token_count item : N :=
  match item with Message _ _ content _ _ => contents_tokens content | _ => 0 end.

(** [if !text.is_empty() { truncated_content.push(content_item) }] *)
Definition push_text (c : Content.t) (text : str) (rest : list Content.t) : list Content.t :=
  if is_nil text then rest else c :: rest.

(** The loop of [truncate_message_text_to_token_budget]; [None] would be a
    panic while truncating.  [make] puts a text back in its item. *)
Definition keep_text (make : str → Content.t) (text : str) (remaining : N)
    (continue : N → option (list Content.t)) : option (list Content.t) :=
  if decide (remaining = 0%N) then continue remaining
  else
    let token_count := approx_token_count text in
    if decide (token_count ≤ remaining)%N then
      push_text (make text) text <$> continue (remaining - token_count)%N
    else
      text ← truncate_text text (Tokens remaining);
      push_text (make text) text <$> continue 0%N.
Fixpoint truncate_contents (remaining : N) (content : list Content.t) : option (list Content.t) :=
  match content with
  | [] => Some []
  | content_item :: content =>
      match content_item with
      | Content.InputText text => keep_text Content.InputText text remaining (λ n, truncate_contents n content)
      | Content.OutputText text => keep_text Content.OutputText text remaining (λ n, truncate_contents n content)
      | Content.InputImage _ _ | Content.InputAudio _ => cons content_item <$> truncate_contents remaining content
      end
  end.

(** The outer option is a panic, the inner one the result of the function. *)
Definition truncate_message_text_to_token_budget item (max_tokens : N) : option (option (ResponseItem J)) :=
  match item with
  | Message id role content phase meta =>
      truncated_content ← truncate_contents max_tokens content;
      Some (if is_nil truncated_content then None else Some (Message id role truncated_content phase meta))
  | _ => Some (Some item)
  end.

(** The loop over the items from the newest. *)
Fixpoint truncate_from_newest (remaining : N) (l : list (ResponseItem J)) : option (list (ResponseItem J)) :=
  match l with
  | [] => Some []
  | item :: l =>
      if decide (remaining = 0%N) then truncate_from_newest remaining l
      else
        let token_count := N.max (message_text_token_count item) 1 in
        if decide (token_count ≤ remaining)%N then
          cons item <$> truncate_from_newest (remaining - token_count) l
        else
          truncated ← truncate_message_text_to_token_budget item remaining;
          match truncated with
          | Some truncated_item => cons truncated_item <$> truncate_from_newest 0 l
          | None => truncate_from_newest remaining l
          end
  end.
Definition truncate_retained_messages_for_remote_compaction (l : list (ResponseItem J)) (max_tokens : N) :
    option (list (ResponseItem J)) := reverse <$> truncate_from_newest max_tokens (reverse l).

Definition build_v2_compacted_history (prompt_input : list (ResponseItem J)) (compaction_output : ResponseItem J) :
    option (list (ResponseItem J) * nat) :=
  let retained :=
    filter (λ item, should_keep_compacted_history_item item)
      (filter (λ item, is_retained_for_remote_compaction_v2 item) prompt_input) in
  retained ← truncate_retained_messages_for_remote_compaction retained RETAINED_MESSAGE_TOKEN_BUDGET;
  let retained_image_count := foldr (λ item n, retained_input_image_count item + n) 0 retained in
  Some (retained ++ [compaction_output], retained_image_count).
End server.

(** * The second version: the item of the stream *)

(** What some events carry; the code of compaction only passes it on. *)
Class StreamPayloads := {
  SafetyBuffering : Type;
  ModelVerification : Type;
  TurnModerationMetadataEvent : Type;
  RateLimitSnapshot : Type;
  TokenUsage : Type
}.

Inductive ResponseEvent {P : StreamPayloads} (J : Type) :=
| Created
| SafetyBufferingEvent (buffering : SafetyBuffering)
| OutputItemDone (item : ResponseItem J)
| OutputItemAdded (item : ResponseItem J)
| ServerModel (model : str)
| ModelVerifications (verifications : list ModelVerification)
| TurnModerationMetadata (event : TurnModerationMetadataEvent)
| ServerReasoningIncluded (included : bool)
| Completed (response_id : str) (token_usage : option TokenUsage) (end_turn : option bool)
| OutputTextDelta (delta : str)
| ToolCallInputDelta (item_id : str) (call_id : option str) (delta : str)
| ReasoningSummaryDelta (delta : str) (summary_index : Z)
| ReasoningSummaryDone (item_id text : str) (summary_index : Z)
| ReasoningContentDelta (delta : str) (content_index : Z)
| ReasoningSummaryPartAdded (summary_index : Z)
| RateLimits (snapshot : RateLimitSnapshot)
| ModelsEtag (etag : str).
Arguments Created {P J}.
Arguments SafetyBufferingEvent {P J}.
Arguments OutputItemDone {P J}.
Arguments OutputItemAdded {P J}.
Arguments ServerModel {P J}.
Arguments ModelVerifications {P J}.
Arguments TurnModerationMetadata {P J}.
Arguments ServerReasoningIncluded {P J}.
Arguments Completed {P J}.
Arguments OutputTextDelta {P J}.
Arguments ToolCallInputDelta {P J}.
Arguments ReasoningSummaryDelta {P J}.
Arguments ReasoningSummaryDone {P J}.
Arguments ReasoningContentDelta {P J}.
Arguments ReasoningSummaryPartAdded {P J}.
Arguments RateLimits {P J}.
Arguments ModelsEtag {P J}.

Record RemoteCompactionV2Output {P : StreamPayloads} (J : Type) := mkOutput {
  compaction_output : ResponseItem J;
  response_id : str;
  token_usage : option TokenUsage
}.
Arguments mkOutput {P J}.
Arguments compaction_output {P J}.
Arguments response_id {P J}.
Arguments token_usage {P J}.

(** The variables of the loop; [completed] is [saw_completed] with the id and the usage. *)
Record collect_state {P : StreamPayloads} (J : Type) := mkCollect {
  output_item_count : nat;
  compaction_count : nat;
  first_compaction : option (ResponseItem J);
  completed : option (str * option TokenUsage)
}.
Arguments mkCollect {P J}.
Arguments output_item_count {P J}.
Arguments compaction_count {P J}.
Arguments first_compaction {P J}.
Arguments completed {P J}.

Section stream.
Context {P : StreamPayloads} {J : Type}.

Definition item_done (item : ResponseItem J) (st : collect_state J) : collect_state J :=
  match item with
  | Item.Compaction _ _ _ =>
      mkCollect (S (output_item_count st)) (S (compaction_count st))
        (Some (default item (first_compaction st))) (completed st)
  | _ => mkCollect (S (output_item_count st)) (compaction_count st) (first_compaction st) (completed st)
  end.

Fixpoint collect_events (stream : list (result CodexErr.t (ResponseEvent J))) (st : collect_state J) :
    result CodexErr.t (collect_state J) :=
  match stream with
  | [] => Ok st
  | event :: stream =>
      let? event := event in
      match event with
      | OutputItemDone item => collect_events stream (item_done item st)
      | Completed response_id token_usage _ =>
          Ok (mkCollect (output_item_count st) (compaction_count st) (first_compaction st)
                (Some (response_id, token_usage)))
      | _ => collect_events stream st
      end
  end.

(** [collect_compaction_output]; [None] would be one of its [unreachable!]. *)
Definition collect_compaction_output (stream : list (result CodexErr.t (ResponseEvent J))) :
    option (result CodexErr.t (RemoteCompactionV2Output J)) :=
  match collect_events stream (mkCollect 0 0 None None) with
  | Err e => Some (Err e)
  | Ok st =>
      match completed st with
      | None => Some (Err (CodexErr.Stream (lit "remote compaction v2 stream closed before response.completed") None))
      | Some (response_id, token_usage) =>
          if bool_decide (compaction_count st ≠ 1) then
            Some (Err (CodexErr.Fatal
              (lit "remote compaction v2 expected exactly one compaction output item, got "
               ++ decimal_N (N.of_nat (compaction_count st)) ++ lit " from "
               ++ decimal_N (N.of_nat (output_item_count st)) ++ lit " output items")))
          else
            compaction_output ← first_compaction st;
            Some (Ok (mkOutput compaction_output response_id token_usage))
      end
  end.
End stream.

(** ** Another model *)

Definition should_retry_with_current_model (error : CodexErr.t) : bool :=
  match error with
  | CodexErr.InvalidRequest _ | CodexErr.UnexpectedStatus _ | CodexErr.ContextWindowExceeded
  | CodexErr.UsageLimitReached _ | CodexErr.ServerOverloaded | CodexErr.InternalServerError
  | CodexErr.RetryLimit _ => true
  | _ => false
  end.

(** The choice of the attempt in [run_remote_compact_task_inner_impl]: the
    result with the step of the turn, and the result with the other step, when
    there is one. *)
Definition attempt_with_fallback {A} (attempt : result CodexErr.t A) (fallback : option (result CodexErr.t A)) :
    result CodexErr.t A :=
  match attempt with
  | Ok attempt => Ok attempt
  | Err error =>
      match fallback with
      | None => Err error
      | Some fallback_result =>
          if negb (should_retry_with_current_model error) then Err error
          else match fallback_result with Ok attempt => Ok attempt | Err _ => Err error end
      end
  end.
