(* ===== verification/RemoteCompactionSpec.v ===== *)
(** What compaction by the server guarantees: outputs give way from the end
    and no more than needed, the messages the client keeps are the newest
    within the budget, stale instructions are gone, and exactly one compaction
    item is taken from the stream. *)

From S2P Require Import Prelude Text Machine ResponseItems Truncate HistoryNormalize ContextFragments History TokenEstimate ThreadItems LegacyEvents EventMapping Compaction CompactionSpec RemoteCompaction.

(** * Making room *)

(** An item and its rewriting are paired with the same items. *)
Definition same_keys {J} (item item' : ResponseItem J) : Prop :=
  call_key item' = call_key item ∧ output_key item' = output_key item ∧ server_output item' = server_output item.

Lemma omap_Forall2 {A B} (f : A → option B) (R : A → A → Prop) l l' :
  (∀ x y, R x y → f y = f x) → Forall2 R l l' → omap f l' = omap f l.
Proof. intros Hf. induction 1 as [|x y l l' Hxy _ IH]; [done|]. csimpl. by rewrite (Hf _ _ Hxy), IH. Qed.

Lemma paired_same_keys {J} (l l' : list (ResponseItem J)) : Forall2 same_keys l l' → paired l → paired l'.
Proof.
  intros Hs [Hu Ho].
  assert (omap call_key l' = omap call_key l) as Ec by (eapply omap_Forall2, Hs; by intros ?? [? _]).
  assert (omap output_key l' = omap output_key l) as Eo by (eapply omap_Forall2, Hs; by intros ?? (_ & ? & _)).
  split; (eapply Forall2_Forall_r; [exact Hs|]); [apply (Forall_impl _ _ _ Hu)|apply (Forall_impl _ _ _ Ho)];
    intros x Hx y (K1 & K2 & K3); unfold unanswered, orphan in *; by rewrite ?Ec, ?Eo, ?K1, ?K2, ?K3.
Qed.

Definition rewritten {J} (item item' : ResponseItem J) : Prop :=
  rewritten_output_for_context_window item = Some item'.

Lemma rewritten_same_keys {J} (item item' : ResponseItem J) : rewritten item item' → same_keys item item'.
Proof. unfold rewritten. destruct item; simpl; try done; by intros [= <-]. Qed.

Lemma rewritten_paired {J} (kept outs outs' : list (ResponseItem J)) :
  Forall2 rewritten outs outs' → paired (kept ++ outs) → paired (kept ++ outs').
Proof.
  intros Hr. apply paired_same_keys, Forall2_app.
  - by apply Forall_Forall2_diag, Forall_true.
  - eapply Forall2_impl, rewritten_same_keys. done.
Qed.

Section trim.
Context {J TI TC WS : Type}.
Variables (json_len : ResponseItem J → option N) (image_size : str → option (Z * Z)) (audio_tokens : str → N).
Implicit Types (item : ResponseItem J) (l kept outs : list (ResponseItem J)) (h : ContextManager J TI TC WS).
Abbreviation tokens := (item_tokens json_len image_size audio_tokens).
Abbreviation sum := (exact_sum json_len image_size audio_tokens).

Lemma sum_bound l : (0 ≤ sum l ≤ Z.of_nat (length l) * i64_max)%Z.
Proof.
  induction l as [|item l IH]; simpl; [lia|].
  pose proof (item_tokens_bounds json_len image_size audio_tokens item). lia.
Qed.

Lemma foldl_i128_add l n :
  (0 ≤ n)%Z → (n + sum l ≤ i128_max)%Z → foldl i128_add n (tokens <$> l) = (n + sum l)%Z.
Proof.
  revert n. induction l as [|item l IH]; intros n Hn Hs; csimpl in *; [lia|].
  pose proof (item_tokens_bounds json_len image_size audio_tokens item). pose proof (sum_bound l).
  assert (i128_add n (tokens item) = n + tokens item)%Z as ->
    by (unfold i128_add, i128_sat, i128_min, i128_max in *; lia).
  rewrite IH; lia.
Qed.

Lemma i64_of_i128_nonneg z : (0 ≤ z)%Z → i64_of_i128 z = Z.min z i64_max.
Proof. unfold i64_of_i128, i64_min. case_bool_decide; lia. Qed.

Lemma rewrite_from_end_spec window l E :
  (sum l ≤ E)%Z → (E + Z.of_nat (length l) * i64_max ≤ i128_max)%Z →
  ∃ kept outs outs',
    rewrite_from_end json_len image_size audio_tokens window (reverse ((λ x, (x, tokens x)) <$> l)) E
    = (reverse outs', E - sum outs + sum outs')%Z
    ∧ l = kept ++ outs ∧ Forall2 rewritten outs outs'
    ∧ (Z.min (E - sum outs + sum outs') i64_max ≤ window ∨
       ∀ item, last kept = Some item → rewritten_output_for_context_window item = None)%Z
    ∧ ∀ i, i < length outs → (window < Z.min (E - sum (drop (S i) outs) + sum (drop (S i) outs')) i64_max)%Z.
Proof.
  revert E. induction l as [|item l IH] using rev_ind; intros E Hs Hb.
  { exists [], [], []. split_and!; [f_equal; simpl; lia|done|constructor|by right|simpl; lia]. }
  rewrite exact_sum_app, length_app in *. cbn [length exact_sum foldr] in Hs, Hb.
  pose proof (item_tokens_bounds json_len image_size audio_tokens item) as Hi. pose proof (sum_bound l) as Hl.
  assert (0 ≤ Z.of_nat (length l) * i64_max)%Z as Hl' by (unfold i64_max; lia).
  rewrite fmap_app, reverse_app. cbn [fmap list_fmap reverse rev_append app rewrite_from_end].
  rewrite (i64_of_i128_nonneg E) by lia.
  case_decide as Hw; [|destruct (rewritten_output_for_context_window item) as [item'|] eqn:Er].
  - exists (l ++ [item]), [], []. rewrite app_nil_r. simpl. rewrite Z.sub_0_r, Z.add_0_r.
    split_and!; [done|done|constructor|by left|lia].
  - pose proof (item_tokens_bounds json_len image_size audio_tokens item') as Hi'.
    set (E' := (E - tokens item + tokens item')%Z).
    assert (i128_add (i128_sub E (tokens item)) (estimate_item_token_count json_len image_size audio_tokens item')
            = E') as ->.
    { unfold i128_add, i128_sub, i128_sat, i128_min, i128_max, E' in *. unfold item_tokens in *. lia. }
    destruct (IH E') as (kept & outs & outs' & -> & -> & Hr & Hstop & Hneed); [unfold E'; lia..|].
    exists kept, (outs ++ [item]), (outs' ++ [item']). rewrite !exact_sum_app, reverse_app, <- app_assoc. simpl.
    assert (E - (sum outs + (tokens item + 0)) + (sum outs' + (tokens item' + 0)) = E' - sum outs + sum outs')%Z
      as -> by (unfold E'; lia).
    split_and!; [done|done|by apply Forall2_app; [|constructor]|done|].
    intros i Hlen. rewrite length_app in Hlen. simpl in Hlen.
    pose proof (Forall2_length _ _ _ Hr) as Hlo.
    destruct (decide (S i ≤ length outs)) as [Hi1|Hi1].
    + rewrite !drop_app_le, !exact_sum_app by lia. simpl. specialize (Hneed i ltac:(lia)). unfold E' in Hneed. lia.
    + rewrite !drop_ge by (rewrite length_app; simpl; lia). simpl. lia.
  - exists (l ++ [item]), [], []. rewrite app_nil_r. simpl. rewrite Z.sub_0_r, Z.add_0_r.
    split_and!; [done|done|constructor| |lia]. right. rewrite last_snoc. by intros ? [= <-].
Qed.
End trim.

Lemma zip_with_map {A B} (f : A → B) (l : list A) : zip l (f <$> l) = (λ x, (x, f x)) <$> l.
Proof. induction l as [|x l IH]; [done|]. csimpl. by rewrite IH. Qed.

Lemma approx_token_count_bound text : (approx_token_count text ≤ usize_max)%N.
Proof.
  unfold approx_token_count, usize_add, APPROX_BYTES_PER_TOKEN.
  transitivity (usize_sat (byte_len text + (4 - 1))); [apply N.Div0.div_le_upper_bound; lia|unfold usize_sat; lia].
Qed.

(** The longest history that is considered, of 4 EiB of items. *)
Definition most_items : Z := 4611686018427387904.

(** C20: Tool outputs give way from the end, and no more than needed.  Before
    the request the outputs at the end of the history are replaced by a notice,
    the last one first: as many as it takes until the estimate of the
    instructions and the items fits the context window, or until an item that
    is no output is reached.  Before each replacement the estimate was above
    the window; the estimate the loop carries along is that of the new history,
    with no overflow hidden (for a history of at most 2^62 items); and calls stay
    paired with their outputs. *)
Theorem outputs_give_way_from_the_end {J TI TC WS} json_len image_size audio_tokens
    (h : ContextManager J TI TC WS) window base :
  (Z.of_nat (length (items h)) ≤ most_items)%Z →
  let total l := Z.min (Z.of_N (approx_token_count base) + exact_sum json_len image_size audio_tokens l) i64_max in
  ∃ kept outs outs' h',
    items h = kept ++ outs ∧ items h' = kept ++ outs' ∧ Forall2 rewritten outs outs'
    ∧ trim_function_call_history_to_fit_context_window json_len image_size audio_tokens (Some window) base h
      = (h', (length outs, i64_sub (total (items h)) (total (items h'))))
    ∧ ((total (items h') ≤ window)%Z
       ∨ ∀ item, last kept = Some item → rewritten_output_for_context_window item = None)
    ∧ (∀ i, i < length outs → (window < total (kept ++ take (S i) outs ++ drop (S i) outs'))%Z)
    ∧ (paired (items h) → paired (items h')).
Proof.
  intros Hlen total. pose proof (approx_token_count_bound base) as Hbase. unfold usize_max in Hbase.
  pose proof (sum_bound json_len image_size audio_tokens (items h)) as Hsum.
  set (b := Z.of_N (approx_token_count base)) in *. set (sum := exact_sum json_len image_size audio_tokens) in *.
  assert (Z.of_nat (length (items h)) * i64_max ≤ most_items * i64_max)%Z as Hmost
    by (apply Z.mul_le_mono_nonneg_r; [unfold i64_max; lia|done]).
  assert (b + sum (items h) + Z.of_nat (length (items h)) * i64_max ≤ i128_max)%Z as Hb
    by (unfold most_items, i64_max, i128_max in *; lia).
  destruct (rewrite_from_end_spec json_len image_size audio_tokens window (items h) (b + sum (items h)))
    as (kept & outs & outs' & Hrw & Hk & Hr & Hstop & Hneed); [fold sum; unfold b; lia|done|].
  fold sum in Hrw, Hstop, Hneed.
  assert (∀ k, i64_of_i128 (b + sum k) = total k) as Hclamp.
  { intros k. pose proof (sum_bound json_len image_size audio_tokens k). apply i64_of_i128_nonneg.
    fold sum in H. unfold b. lia. }
  assert (∀ k k' k'', items h = k ++ k' → b + sum (items h) - sum k' + sum k'' = b + sum (k ++ k''))%Z as Hsplit.
  { intros k k' k'' ->. unfold sum. rewrite !exact_sum_app. lia. }
  exists kept, outs, outs', (if decide (0 < length outs) then replace (kept ++ outs') h else h).
  pose proof (Forall2_length _ _ _ Hr) as Hlo.
  assert (items (if decide (0 < length outs) then replace (kept ++ outs') h else h) = kept ++ outs') as Hi.
  { case_decide as Hpos; [done|]. rewrite Hk. by destruct Hr; [|simpl in Hpos; lia]. }
  rewrite !Hi. split_and!; [done|done|done| | | |].
  - unfold trim_function_call_history_to_fit_context_window.
    rewrite zip_with_map. fold b. rewrite (foldl_i128_add json_len image_size audio_tokens) by (fold sum; unfold b; lia).
    fold sum. unfold item_tokens in Hrw. rewrite Hrw, reverse_involutive, length_reverse, <- Hlo.
    rewrite (Hsplit kept outs outs' Hk), !Hclamp. do 2 f_equal. case_decide; [|done].
    rewrite Hk, length_app, Nat.add_sub. by rewrite take_app_length.
  - rewrite (Hsplit kept outs outs' Hk) in Hstop. exact Hstop.
  - intros i Hi'. rewrite app_assoc. specialize (Hneed i Hi').
    rewrite (Hsplit (kept ++ take (S i) outs)) in Hneed; [exact Hneed|]. by rewrite <- app_assoc, take_drop.
  - rewrite Hk. by apply rewritten_paired.
Qed.

(** * The messages the client keeps *)

Definition content_text (c : Content.t) : option str :=
  match c with Content.InputText text | Content.OutputText text => Some text | _ => None end.
Definition set_text (c : Content.t) (text : str) : Content.t :=
  match c with
  | Content.InputText _ => Content.InputText text
  | Content.OutputText _ => Content.OutputText text
  | c => c
  end.
Definition not_empty (c : Content.t) : bool := negb (bool_decide (content_text c = Some [])).
Definition is_media (c : Content.t) : bool := bool_decide (content_text c = None).

(** Contents cut to [n] tokens: those that fit are whole, of the text that does
    not fit both ends are kept when budget is left, and what comes after it
    keeps its images and audios only.  Empty texts are left out. *)
Definition contents_cut (n : N) (content content' : list Content.t) : Prop :=
  ∃ whole c text rest cut, content = whole ++ c :: rest ∧ content_text c = Some text
    ∧ (contents_tokens whole ≤ n < contents_tokens whole + approx_token_count text)%N
    ∧ content' = filter (λ c, not_empty c) whole ++ cut ++ filter (λ c, is_media c) rest
    ∧ ((contents_tokens whole = n ∧ cut = [])
       ∨ ∃ snippet, (contents_tokens whole < n)%N ∧ cut = [set_text c snippet]
         ∧ truncated_to (byte_budget (Tokens (n - contents_tokens whole))) true text snippet).

Lemma filter_media_0 content : truncate_contents 0 content = Some (filter (λ c, is_media c) content).
Proof.
  induction content as [|c content IH]; [done|].
  destruct c; cbn [truncate_contents]; unfold keep_text; try rewrite decide_True by done; by rewrite IH.
Qed.

Lemma truncate_contents_text n c text content :
  content_text c = Some text →
  truncate_contents n (c :: content) = keep_text (set_text c) text n (λ n, truncate_contents n content).
Proof. destruct c; simpl; try done; by intros [= ->]. Qed.

Lemma truncate_contents_media n c content :
  content_text c = None → truncate_contents n (c :: content) = cons c <$> truncate_contents n content.
Proof. by destruct c. Qed.

Lemma content_tokens_text c text : content_text c = Some text → content_tokens c = approx_token_count text.
Proof. destruct c; simpl; try done; by intros [= ->]. Qed.
Lemma content_tokens_media c : content_text c = None → content_tokens c = 0%N.
Proof. by destruct c. Qed.

Lemma truncated_not_empty max s out : truncated_to max true s out → out ≠ [].
Proof. intros (before & mid & after & _ & _ & _ & _ & ->). by destruct before. Qed.

Lemma filter_not_empty_cons c content :
  filter (λ c, not_empty c) (c :: content)
  = (if bool_decide (content_text c = Some []) then [] else [c]) ++ filter (λ c, not_empty c) content.
Proof.
  rewrite filter_cons. unfold not_empty. by case_bool_decide.
Qed.

(** A content that fits goes in front. *)
Lemma contents_cut_cons c n content content' :
  contents_cut n content content' →
  contents_cut (content_tokens c + n) (c :: content)
    ((if bool_decide (content_text c = Some []) then [] else [c]) ++ content').
Proof.
  intros (whole & d & text & rest & cut & -> & Ed & Hb & -> & Hcut). exists (c :: whole), d, text, rest, cut.
  rewrite filter_not_empty_cons, <- !app_assoc. cbn [contents_tokens foldr]. fold (contents_tokens whole).
  replace (content_tokens c + n - (content_tokens c + contents_tokens whole))%N with (n - contents_tokens whole)%N by lia.
  split_and!; [done|done|lia|lia|done|]. destruct Hcut as [[? ->]|(snippet & ? & -> & ?)]; [left; split; [lia|done]|right].
  exists snippet. split_and!; [lia|done|done].
Qed.

Lemma no_tokens_empty text : approx_token_count text = 0%N → text = [].
Proof.
  intros Ht. destruct (decide (text = [])) as [|Hne]; [done|].
  pose proof (text_cost_pos (Tokens 0) text Hne) as Hpos. simpl in Hpos. lia.
Qed.

Lemma truncate_contents_spec n content :
  (n < contents_tokens content)%N → ∃ content', truncate_contents n content = Some content' ∧ contents_cut n content content'.
Proof.
  revert n. induction content as [|c content IH]; intros n Hn; [simpl in Hn; lia|].
  cbn [contents_tokens foldr] in Hn. fold (contents_tokens content) in Hn.
  assert (∀ m content', n = (content_tokens c + m)%N → contents_cut m content content' →
    contents_cut n (c :: content) ((if bool_decide (content_text c = Some []) then [] else [c]) ++ content')) as Hcons.
  { intros m content' ->. apply contents_cut_cons. }
  destruct (content_text c) as [text|] eqn:Ec.
  2:{ rewrite (content_tokens_media c Ec) in Hn, Hcons. rewrite (truncate_contents_media n c content Ec).
      destruct (IH n) as (content' & -> & Hcut); [lia|]. eexists. split; [done|]. by apply (Hcons n). }
  rewrite (content_tokens_text c text Ec) in Hn, Hcons. rewrite (truncate_contents_text n c text content Ec).
  unfold keep_text. destruct (decide (n = 0%N)) as [Hz|Hz]; [|destruct (decide (approx_token_count text ≤ n)%N) as [Hle|Hle]].
  - subst n. rewrite filter_media_0. eexists. split; [done|].
    destruct (decide (approx_token_count text = 0%N)) as [Ht|Ht].
    + destruct (IH 0%N) as (content' & E & Hcut); [lia|]. rewrite filter_media_0 in E. injection E as ->.
      apply no_tokens_empty in Ht as ->. by apply (Hcons 0%N).
    + exists [], c, text, content, []. split_and!; [done|done|simpl; lia|simpl; lia|done|by left].
  - destruct (IH (n - approx_token_count text)%N) as (content' & -> & Hcut); [lia|].
    eexists. split; [done|]. eapply eq_ind; [eapply (Hcons _ _ _ Hcut)|]. Unshelve. 2: lia.
    unfold push_text. destruct text as [|x text]; [done|]. simpl. f_equal. by destruct c; simplify_eq/=.
  - destruct (truncate_text_spec text (Tokens n)) as (snippet & -> & _ & Hcut).
    specialize (Hcut (more_tokens_more_bytes n text ltac:(lia))). simpl. rewrite filter_media_0. simpl.
    eexists. split; [done|]. exists [], c, text, content, [set_text c snippet].
    unfold push_text. rewrite (proj2 (is_nil_false snippet)) by (by eapply truncated_not_empty).
    split_and!; [done|done|simpl; lia|simpl; lia|done|]. right. exists snippet. simpl. rewrite N.sub_0_r.
    split_and!; [lia|done|done].
Qed.

Lemma contents_tokens_not_empty content :
  (0 < contents_tokens content)%N → filter (λ c, not_empty c) content ≠ [].
Proof.
  induction content as [|c content IH]; simpl; [lia|]. intros Hpos. rewrite filter_not_empty_cons.
  case_bool_decide as He; [|done]. simpl. apply IH. by rewrite (content_tokens_text c [] He) in Hpos.
Qed.

Lemma contents_cut_not_empty n content content' : (0 < n)%N → contents_cut n content content' → content' ≠ [].
Proof.
  intros Hn (whole & c & text & rest & cut & _ & _ & _ & -> & Hcut) [Hw [Hc _]%app_eq_nil]%app_eq_nil.
  destruct Hcut as [[Hz _]|(snippet & _ & -> & _)]; [|done].
  apply (contents_tokens_not_empty whole); [lia|done].
Qed.

Section retained.
Context {J : Type} `{Outside} `{HistoryTexts}.
Implicit Types (item : ResponseItem J) (l kept : list (ResponseItem J)).

Definition item_cost item : N := N.max (message_text_token_count item) 1.
Definition items_cost l : N := foldr (λ item n, (item_cost item + n)%N) 0%N l.

Lemma items_cost_app l k : items_cost (l ++ k) = (items_cost l + items_cost k)%N.
Proof. induction l as [|item l IH]; simpl; [done|]. rewrite IH. lia. Qed.

(** A message cut to [n] tokens. *)
Definition message_cut (n : N) item item' : Prop :=
  ∃ id role content content' phase meta,
    item = Message id role content phase meta ∧ item' = Message id role content' phase meta
    ∧ contents_cut n content content'.

(** What is kept of a list of messages: the newest ones, each at its cost of at
    least one token, and the one before them cut to the rest of the budget. *)
Definition retained_within (max : N) l kept : Prop :=
  ∃ older newer, l = older ++ newer ∧ (items_cost newer ≤ max)%N ∧
    ((kept = newer ∧ (older = [] ∨ items_cost newer = max))
     ∨ ∃ older' m m', older = older' ++ [m]
        ∧ (items_cost newer < max < items_cost newer + message_text_token_count m)%N
        ∧ message_cut (max - items_cost newer) m m' ∧ kept = m' :: newer).

Lemma truncate_from_newest_0 l : truncate_from_newest 0 l = Some [].
Proof. by induction l. Qed.

Lemma truncate_message_spec n item :
  (0 < n < message_text_token_count item)%N →
  ∃ item', truncate_message_text_to_token_budget item n = Some (Some item') ∧ message_cut n item item'.
Proof.
  intros Hn. destruct item as [|id role content phase meta| | | | | | | | | | | | | | |]; simpl in *; try lia.
  destruct (truncate_contents_spec n content) as (content' & -> & Hc); [lia|]. simpl.
  rewrite (proj2 (is_nil_false content')) by (eapply contents_cut_not_empty, Hc; lia).
  eexists. split; [done|]. by exists id, role, content, content', phase, meta.
Qed.

Lemma truncate_from_newest_spec max l :
  ∃ kept, truncate_from_newest max (reverse l) = Some kept ∧ retained_within max l (reverse kept).
Proof.
  revert max. induction l as [|m l IH] using rev_ind; intros max.
  { exists []. split; [done|]. exists [], []. split_and!; [done|simpl; lia|by left; auto]. }
  rewrite reverse_snoc. cbn [truncate_from_newest]. case_decide as Hmax.
  { subst max. rewrite truncate_from_newest_0. exists []. split; [done|]. exists (l ++ [m]), []. rewrite app_nil_r.
    split_and!; [done|simpl; lia|left; by auto]. }
  fold (item_cost m). case_decide as Hm.
  - destruct (IH (max - item_cost m)%N) as (kept & -> & older & newer & -> & Hle & Hcase).
    exists (m :: kept). split; [done|]. rewrite reverse_cons. exists older, (newer ++ [m]).
    assert (items_cost (newer ++ [m]) = items_cost newer + item_cost m)%N as Hsum
      by (rewrite items_cost_app; simpl; lia).
    split_and!; [by rewrite app_assoc|lia|]. destruct Hcase as [[-> Ho]|(older' & o & o' & -> & Hb & Ht & ->)].
    + left. split; [done|]. destruct Ho as [->|Ho]; [by left|right; lia].
    + right. exists older', o, o'. rewrite Hsum. split_and!; [done|lia|lia| |done].
      by replace (max - (items_cost newer + item_cost m))%N with (max - item_cost m - items_cost newer)%N by lia.
  - assert (max < message_text_token_count m)%N as Hlt by (unfold item_cost in Hm; lia).
    destruct (truncate_message_spec max m) as (m' & -> & Hcut); [lia|]. simpl. rewrite truncate_from_newest_0.
    eexists. split; [done|]. exists (l ++ [m]), []. rewrite app_nil_r. split_and!; [done|simpl; lia|].
    right. exists l, m, m'. simpl. rewrite N.sub_0_r. by auto with lia.
Qed.

(** The messages that may be kept. *)
Definition candidates l : list (ResponseItem J) :=
  filter (λ item, should_keep_compacted_history_item item) (filter (λ item, is_retained_for_remote_compaction_v2 item) l).

Definition from_user item : Prop :=
  match item with Message _ role _ _ _ => role = lit "user" | _ => False end.

Lemma candidates_from_user l : Forall from_user (candidates l).
Proof.
  apply Forall_forall. intros item [Hk [Hr _]%list_elem_of_filter]%list_elem_of_filter.
  destruct item; simpl in *; try done. case_bool_decide as Hd; [done|]. case_bool_decide as Hu; [done|].
  apply Is_true_true, bool_decide_eq_true in Hk as ->. by vm_compute in Hr.
Qed.

Lemma retained_from_user max l kept : Forall from_user l → retained_within max l kept → Forall from_user kept.
Proof.
  intros Hl (older & newer & -> & _ & Hcase). apply Forall_app in Hl as [Ho Hn].
  destruct Hcase as [[-> _]|(older' & m & m' & -> & _ & (? & ? & ? & ? & ? & ? & -> & -> & _) & ->)]; [done|].
  apply Forall_snoc in Ho as [_ Ho]. by constructor.
Qed.
End retained.

(** The client keeps the newest messages within the budget.  In the second
    version, what goes in front of the compaction item are messages of the
    user only: the newest of them within 64000 tokens, each counting for one
    at least and taken whole, and before them, when budget is left, one more
    whose texts are cut to the rest of it and whose images and audios stay.
    Cutting never panics and never leaves a message empty. *)
Theorem client_keeps_newest_messages {J} `{Outside} `{HistoryTexts} (prompt_input : list (ResponseItem J)) output :
  ∃ retained images, build_v2_compacted_history prompt_input output = Some (retained ++ [output], images)
    ∧ retained_within RETAINED_MESSAGE_TOKEN_BUDGET (candidates prompt_input) retained
    ∧ Forall from_user retained.
Proof.
  unfold build_v2_compacted_history, truncate_retained_messages_for_remote_compaction. fold (candidates prompt_input).
  destruct (truncate_from_newest_spec RETAINED_MESSAGE_TOKEN_BUDGET (candidates prompt_input)) as (kept & -> & Hk).
  eexists _, _. split; [done|]. split; [done|]. eapply retained_from_user, Hk. apply candidates_from_user.
Qed.

(** * Stale instructions *)

(** Items of the server that carry instructions or context of an older time. *)
Definition instructs {J} `{Outside} `{HistoryTexts} (item : ResponseItem J) : bool :=
  match item with
  | Message id role content phase meta =>
      negb (bool_decide (role = lit "user")) && negb (bool_decide (role = lit "assistant"))
      || bool_decide (role = lit "user") && negb (bool_decide (is_Some (parse_turn_item (new_uuid 0) item)))
  | _ => false
  end.

(** Stale instructions do not survive compaction by the server.  Of what
    the server sends back the order is kept; every message with instructions,
    and every message of the user that is only context, is dropped, so all
    such items of the new history are those of the initial context, which is
    put in as one block; and when the items that are kept hold no message of
    the user but a compaction item last, that item stays last. *)
Theorem stale_instructions_are_dropped {J} `{Outside} `{HistoryTexts} (l ctx : list (ResponseItem J)) :
  ∃ before after,
    process_compacted_history l ctx = before ++ ctx ++ after
    ∧ before ++ after = filter (λ item, should_keep_compacted_history_item item) l
    ∧ Forall (λ item, instructs item = false) (before ++ after)
    ∧ (∀ kept item, before ++ after = kept ++ [item] → is_compaction_item item = true →
        Forall (λ item, user_like item = false) (before ++ after) → after = [item]).
Proof.
  set (f := filter (λ item, should_keep_compacted_history_item item) l).
  assert (Forall (λ item, instructs item = false) f) as Hf.
  { apply Forall_forall. intros item [Hk _]%list_elem_of_filter. destruct item; try done.
    apply Is_true_true in Hk. unfold instructs. cbn [should_keep_compacted_history_item] in Hk.
    case_bool_decide; [done|]. case_bool_decide; [|by rewrite Hk].
    destruct (parse_turn_item _ _); [|done]. rewrite (bool_decide_true (is_Some _)) by by eexists. by rewrite andb_false_r. }
  unfold process_compacted_history. fold f. rewrite insert_spec. unfold context_position.
  destruct (option_or _ _) as [i|] eqn:Ei.
  - exists (take i f), (drop i f). rewrite take_drop. split_and!; [done..|]. intros kept item Hk Hc Hu.
    assert (∀ item : ResponseItem J, user_like item = false → real_user item = false) as Hreal.
    { intros x. unfold user_like, real_user. by destruct (user_message_of x). }
    rewrite (rposition_none real_user), (rposition_none user_like), Hk in Ei by (done || by eapply Forall_impl).
    rewrite (rposition_before is_compaction_item kept item []) in Ei by done.
    injection Ei as <-. by rewrite Hk, drop_app_length.
  - exists f, []. rewrite !app_nil_r. split_and!; [done..|]. intros kept item Hk Hc _.
    destruct (option_or (rposition real_user f) _); [done|]. simpl in Ei.
    by rewrite Hk, (rposition_before is_compaction_item kept item []) in Ei.
Qed.

(** * The item of the stream *)

Section stream.
Context {P : StreamPayloads} {J : Type}.
Implicit Types (st : collect_state J) (before : list (ResponseEvent J)).

Definition not_completed (event : ResponseEvent J) : bool :=
  match event with Completed _ _ _ => false | _ => true end.
Definition compaction_of (event : ResponseEvent J) : option (ResponseItem J) :=
  match event with OutputItemDone ((Item.Compaction _ _ _) as item) => Some item | _ => None end.
Definition event_items (event : ResponseEvent J) : option (ResponseItem J) :=
  match event with OutputItemDone item => Some item | _ => None end.

(** The state after these events. *)
Definition after_events st before : collect_state J :=
  mkCollect (output_item_count st + length (omap event_items before))
    (compaction_count st + length (omap compaction_of before))
    (option_or (first_compaction st) (head (omap compaction_of before))) (completed st).

Lemma after_events_nil st : after_events st [] = st.
Proof. destruct st as [? ? []]; unfold after_events; simpl; by rewrite !Nat.add_0_r. Qed.

Lemma after_events_item st item before :
  after_events (item_done item st) before = after_events st (OutputItemDone item :: before).
Proof.
  destruct st as [n m [|] ?]; destruct item; unfold after_events; simpl; by rewrite ?Nat.add_succ_r.
Qed.

Lemma collect_events_app before stream st :
  Forall (λ event, not_completed event = true) before →
  collect_events ((Ok <$> before) ++ stream) st = collect_events stream (after_events st before).
Proof.
  intros Hb. revert st. induction Hb as [|event before Hn _ IH]; intros st; [by rewrite after_events_nil|].
  destruct event; csimpl; try done; rewrite IH; try done. by rewrite after_events_item.
Qed.

Lemma collect_events_inv stream st st' :
  completed st = None → collect_events stream st = Ok st' →
  (∃ before, stream = Ok <$> before ∧ Forall (λ event, not_completed event = true) before ∧ completed st' = None)
  ∨ ∃ before id usage ended rest, stream = (Ok <$> before) ++ Ok (Completed id usage ended) :: rest
      ∧ Forall (λ event, not_completed event = true) before
      ∧ st' = let st := after_events st before in
              mkCollect (output_item_count st) (compaction_count st) (first_compaction st) (Some (id, usage)).
Proof.
  revert st. induction stream as [|event stream IH]; intros st Hst; simpl.
  { intros [= <-]. left. by exists []. }
  destruct event as [event|e]; [|done].
  assert (∀ st0, completed st0 = None → (∀ before, after_events st0 before = after_events st (event :: before)) →
    not_completed event = true → collect_events stream st0 = Ok st' →
    (∃ before, Ok event :: stream = Ok <$> before ∧ Forall (λ event, not_completed event = true) before
               ∧ completed st' = None)
    ∨ ∃ before id usage ended rest, Ok event :: stream = (Ok <$> before) ++ Ok (Completed id usage ended) :: rest
        ∧ Forall (λ event, not_completed event = true) before
        ∧ st' = let st := after_events st before in
                mkCollect (output_item_count st) (compaction_count st) (first_compaction st) (Some (id, usage)))
    as Hstep.
  { intros st0 Hst0 Ha Hn Hc. destruct (IH st0 Hst0 Hc)
      as [(before & -> & Hb & ?)|(before & id & usage & ended & rest & -> & Hb & ->)]; [left|right];
      exists (event :: before).
    - by split_and!; [done|constructor|].
    - exists id, usage, ended, rest. rewrite Ha. by split_and!; [done|constructor|]. }
  destruct event as [| |item| | | | | |id usage ended| | | | | | | |]; try by apply Hstep.
  - apply Hstep; [by destruct item|apply after_events_item|done].
  - intros [= <-]. right. exists [], id, usage, ended, stream. split_and!; [done|constructor|].
    simpl. rewrite !Nat.add_0_r. by destruct (first_compaction st).
Qed.
End stream.

(** Exactly one compaction item is taken from the stream.  A result is
    returned precisely when the stream reports completion and, among the items
    before that, exactly one is a compaction item: that item is the result, with
    the id and the usage of the completion, and what follows is not read.  In
    every other case, the stream ending or failing early included, there is an
    error, and the branches the code holds to be unreachable are. *)
Theorem exactly_one_compaction_item `{StreamPayloads} {J} (stream : list (result CodexErr.t (ResponseEvent J))) :
  collect_compaction_output stream ≠ None
  ∧ ∀ out, collect_compaction_output stream = Some (Ok out) ↔
      ∃ before ended rest,
        stream = (Ok <$> before) ++ Ok (Completed (response_id out) (token_usage out) ended) :: rest
        ∧ Forall (λ event, not_completed event = true) before
        ∧ omap compaction_of before = [compaction_output out].
Proof.
  unfold collect_compaction_output. split.
  - destruct (collect_events _ _) as [st|e] eqn:E; [|done].
    apply collect_events_inv in E as [(? & _ & _ & ->)|(before & id & usage & ended & rest & -> & Hb & ->)]; [done| |done].
    simpl. case_bool_decide as Hc; [done|]. by destruct (omap compaction_of before).
  - intros out. split.
    + destruct (collect_events _ _) as [st|e] eqn:E; [|done].
      apply collect_events_inv in E as [(? & _ & _ & ->)|(before & id & usage & ended & rest & -> & Hb & ->)]; [done| |done].
      simpl. case_bool_decide as Hc; [done|].
      destruct (omap compaction_of before) as [|item [|]] eqn:Eo; try done.
      intros [= <-]. by exists before, ended, rest.
    + intros (before & ended & rest & -> & Hb & Ho). rewrite collect_events_app by done. simpl. rewrite Ho. simpl.
      by destruct out.
Qed.

(** The fallback is asked only when the first failure may be the model's, and
    what is reported then is the first failure. *)
Lemma fallback_reports_first_error {A} (attempt : result CodexErr.t A) fallback :
  (∀ e, attempt_with_fallback attempt fallback = Err e → attempt = Err e)
  ∧ (∀ a, attempt_with_fallback attempt fallback = Ok a →
      attempt = Ok a
      ∨ ∃ e, attempt = Err e ∧ should_retry_with_current_model e = true ∧ fallback = Some (Ok a)).
Proof.
  destruct attempt as [a|e]; [naive_solver|]. simpl.
  destruct fallback as [[a|]|]; [|destruct (should_retry_with_current_model e)|]; simpl; try naive_solver.
  destruct (should_retry_with_current_model e) eqn:E; simpl; naive_solver.
Qed.
