(* ===== verification/CompactionExamples.v ===== *)
(** Histories that are compacted: two messages with an answer, a request that
    is too long, a message whose parts read as context once they are joined;
    and for the server, outputs that give way and a stream with its item. *)

From S2P Require Import Prelude Text Machine ResponseItems Truncate HistoryNormalize ContextFragments History ThreadItems ThreadHistoryExamples LegacyEvents EventMapping TokenEstimate Compaction CompactionSpec RemoteCompaction RemoteCompactionSpec.

#[local] Existing Instance demo.

(** A hook prompt is a text that begins with a question mark. *)
#[local] Instance compaction_texts : HistoryTexts := {
  from_xml_hook_prompt text := match text with 63%N :: text => Some (text, lit "hook") | _ => None end;
  inter_agent_text _ := false
}.

Definition says (role : string) (parts : list str) : ResponseItem () :=
  Message None (lit role) (Content.InputText <$> parts) None None.
Definition answers (text : string) : ResponseItem () :=
  Message None (lit "assistant") [Content.OutputText (lit text)] None None.
Definition compaction_history : list (ResponseItem ()) :=
  [says "user" [lit "<environment_context>here</environment_context>"]; says "user" [lit "first"];
   answers "done"; says "user" [lit "second"]; answers "that too"].
Definition compaction_context : list (ResponseItem ()) :=
  [says "developer" [lit "be brief"]; says "user" [lit "<environment_context>there</environment_context>"]].

Example compaction_of_the_history :
  replacement_history compaction_history (lit "t") compaction_context
  = Some ([says "user" [lit "first"]] ++ compaction_context
          ++ [says "user" [lit "second"];
              user_text_item (SUMMARY_PREFIX ++ [nl] ++ lit "that too") (Some (mkMetadata (Some (lit "t"))))]).
Proof. vm_compute. reflexivity. Qed.

Lemma replacement_keeps_newest_messages_witness :
  ∃ kept, kept_within COMPACT_USER_MESSAGE_MAX_TOKENS (collect_user_messages compaction_history) kept
    ∧ replacement_history compaction_history (lit "t") []
      = Some ((message_item <$> kept) ++ [stored_summary compaction_history (lit "t")]).
Proof.
  destruct (replacement_keeps_newest_messages compaction_history (lit "t") []) as (kept & Hk & Hn & _).
  exists kept. split; [done|]. by apply Hn.
Defined.

(** Two compactions, with a message in between. *)
Definition rounds : list (list (ResponseItem ()) * str * list (ResponseItem ())) :=
  [([], lit "t", compaction_context); ([says "user" [lit "third"]; answers "yes"], lit "u", [])].

Lemma messages_survive_compactions_witness :
  ∃ history', compaction_rounds compaction_history rounds = Some history'
    ∧ collect_user_messages history'
      = [mkCompacted (lit "first") None; mkCompacted (lit "second") None; mkCompacted (lit "third") None].
Proof.
  assert (collect_user_messages (compaction_history ++ concat ((λ r, r.1.1) <$> rounds))
    = [mkCompacted (lit "first") None; mkCompacted (lit "second") None; mkCompacted (lit "third") None]) as Hsent
    by (vm_compute; reflexivity).
  rewrite <- Hsent. apply (messages_survive_compactions compaction_history rounds).
  - by repeat (apply Forall_cons; split; [by vm_compute|]).
  - rewrite Hsent. by repeat (apply Forall_cons; split; [by vm_compute|]).
  - rewrite Hsent. by vm_compute.
Defined.

(** The first request is too long, the second fails on the way, the third succeeds. *)
Definition answered (n : nat) (_ : list (ResponseItem ())) : result CodexErr.t () :=
  match n with
  | 0 => Err CodexErr.ContextWindowExceeded
  | 1 => Err (CodexErr.Stream (lit "closed") None)
  | _ => Ok ()
  end.
Definition asking : ContextManager () () () () := mkHistory compaction_history 0 None None None.

Example the_third_request_succeeds :
  attempts false id [TextInput] 1 answered 12 0 0 asking
  = Some (Drained, [NotifyStreamError 1 1 (CodexErr.Stream (lit "closed") None)], 3).
Proof. vm_compute. reflexivity. Qed.

Lemma summary_request_ends_witness :
  ∃ out events calls k,
    attempts false id [TextInput] 1 answered 12 0 0 asking = Some (out, events, calls)
    ∧ calls ≤ 12
    ∧ end_justified false id [TextInput] 1 answered (Nat.iter k remove_first_item asking) calls out
    ∧ (false = false → out ≠ Panicked).
Proof. apply (summary_request_ends false id [TextInput] 1 answered asking 12). vm_compute. lia. Defined.

(** The parts of a message are joined when it is carried over.  Joined they can
    read as context though none of them does: the message is then not found
    when the history is compacted again. *)
Example joined_parts_are_lost :
  let history := [says "user" [lit "<skill>"; lit "review</skill>"]] in
  collect_user_messages history = [mkCompacted (lit "<skill>review</skill>") None]
  ∧ (collect_user_messages <$> replacement_history history (lit "t") []) = Some [].
Proof. vm_compute. done. Qed.

(** * Compaction by the server *)

Definition output (call_id text : string) : ResponseItem () :=
  FunctionCallOutput None (lit call_id) (from_text (lit text)) None.
Definition call (call_id : string) : ResponseItem () :=
  FunctionCall None (lit "shell") None (lit "{}") (lit call_id) None.

(** The length of the JSON of an item, near enough: what is around a text and the text. *)
Definition demo_json_len (item : ResponseItem ()) : option N :=
  match item with
  | FunctionCallOutput _ _ out _ => match ResponseItems.body out with Text text => Some (60 + byte_len text)%N | _ => None end
  | _ => Some 60%N
  end.
Definition long_output : string :=
  "one two three four five six seven eight nine ten eleven twelve thirteen fourteen fifteen sixteen seventeen eighteen".
Definition calling : ContextManager () () () () :=
  mkHistory [says "user" [lit "go"]; call "a"; output "a" long_output; call "b"; output "b" long_output] 0 None None None.
Definition trimmed (window : Z) (h : ContextManager () () () ()) :=
  trim_function_call_history_to_fit_context_window demo_json_len (λ _, None) (λ _, 0%N) (Some window) [] h.

(** Of two long outputs the last gives way, and the call before it stops the rest. *)
Example the_last_output_gives_way :
  items (trimmed 125 calling).1
  = [says "user" [lit "go"]; call "a"; output "a" long_output; call "b";
     FunctionCallOutput None (lit "b") (from_text CONTEXT_WINDOW_TRUNCATED_OUTPUT_MESSAGE) None]
  ∧ (trimmed 125 calling).2 = (1, 13%Z) ∧ (trimmed 140 calling).2 = (0, 0%Z).
Proof. vm_compute. done. Qed.

Lemma outputs_give_way_from_the_end_witness :
  let total l := Z.min (0 + exact_sum demo_json_len (λ _, None) (λ _, 0%N) l) i64_max in
  ∃ kept outs outs' h',
    items calling = kept ++ outs ∧ items h' = kept ++ outs' ∧ Forall2 rewritten outs outs'
    ∧ trimmed 125 calling = (h', (length outs, i64_sub (total (items calling)) (total (items h'))))
    ∧ ((total (items h') ≤ 125)%Z
       ∨ ∀ item, last kept = Some item → rewritten_output_for_context_window item = None)
    ∧ (∀ i, i < length outs → (125 < total (kept ++ take (S i) outs ++ drop (S i) outs'))%Z)
    ∧ (paired (items calling) → paired (items h')).
Proof.
  apply (outputs_give_way_from_the_end demo_json_len (λ _, None) (λ _, 0%N) calling 125 []). vm_compute. congruence.
Defined.

(** An output shorter than the notice gives way too, and the history grows. *)
Example short_output_grows :
  (trimmed 50 (mkHistory [says "user" [lit "go"]; call "b"; output "b" "ok"] 0 None None None)).2 = (0, 0%Z)
  ∧ (trimmed 45 (mkHistory [says "user" [lit "go"]; call "b"; output "b" "ok"] 0 None None None)).2 = (1, (-15)%Z).
Proof. vm_compute. done. Qed.

#[local] Instance demo_payloads : StreamPayloads := {|
  SafetyBuffering := (); ModelVerification := (); TurnModerationMetadataEvent := (); RateLimitSnapshot := ();
  TokenUsage := ()
|}.
Definition compaction : ResponseItem () := Item.Compaction None (lit "sealed") None.

(** What the client keeps of a history, with the images it counts. *)
Example client_keeps_messages_of_the_user :
  build_v2_compacted_history
    [says "developer" [lit "dev"]; says "system" [lit "sys"]; says "user" [lit "user"]; answers "final"; call "a";
     Message None (lit "user") [Content.InputText (lit "look"); Content.InputImage (lit "data:") None] None None]
    compaction
  = Some ([says "user" [lit "user"];
           Message None (lit "user") [Content.InputText (lit "look"); Content.InputImage (lit "data:") None] None None;
           compaction], 1).
Proof. vm_compute. reflexivity. Qed.

(** With a budget of two tokens the older message is cut to what the newer leaves. *)
Example the_older_message_is_cut :
  truncate_retained_messages_for_remote_compaction
    [says "user" [lit "older"]; says "user" [lit "123456789"; lit "gone"]; says "user" [lit "new"]] 2
  = Some [says "user" [lit "12" ++ [8230%N] ++ lit "2 tokens truncated" ++ [8230%N] ++ lit "89"]; says "user" [lit "new"]].
Proof. vm_compute. reflexivity. Qed.

Lemma stale_instructions_are_dropped_witness :
  ∃ before after,
    process_compacted_history [says "developer" [lit "stale"]; compaction] compaction_context
    = before ++ compaction_context ++ after ∧ after = [compaction].
Proof.
  destruct (stale_instructions_are_dropped [says "developer" [lit "stale"]; compaction] compaction_context)
    as (before & after & Hp & Hf & _ & Hl).
  exists before, after. split; [done|].
  assert (before ++ after = [compaction]) as E by (rewrite Hf; vm_compute; reflexivity).
  apply (Hl [] compaction); [done|done|]. rewrite E. by repeat constructor.
Defined.

Example one_item_of_the_stream :
  collect_compaction_output
    [Ok Created; Ok (OutputItemDone (answers "hm")); Ok (OutputItemDone compaction);
     Ok (Completed (lit "resp") None (Some true)); Err CodexErr.TurnAborted]
  = Some (Ok (mkOutput compaction (lit "resp") None))
  ∧ collect_compaction_output [Ok (OutputItemDone compaction)]
    = Some (Err (CodexErr.Stream (lit "remote compaction v2 stream closed before response.completed") None)).
Proof. vm_compute. done. Qed.
