(* ===== verification/IpAddr.v ===== *)
(** IP addresses as the standard library has them ([std::net]): reading one
    from text, and the classes of addresses the network proxy asks about. An
    address is its number; an octet or a group is a field of that number. *)

From S2P Require Import Prelude Text.

Inductive IpAddr := V4 (bits : N) | V6 (bits : N).
#[export] Instance IpAddr_eq_dec : EqDecision IpAddr.
Proof. solve_decision. Defined.

Definition ipv4_max : N := 2 ^ 32 - 1.
Definition ipv6_max : N := 2 ^ 128 - 1.
Definition valid_ip (ip : IpAddr) : Prop :=
  match ip with V4 a => (a ≤ ipv4_max)%N | V6 a => (a ≤ ipv6_max)%N end.

(** * Reading *)

(** A reader that fails leaves its input to the next one. *)
Abbreviation reader A := (str → option (A * str)).

Definition to_digit (radix c : N) : option N :=
  if bool_decide (48 ≤ c ≤ 57)%N then Some (c - 48)%N
  else if bool_decide (radix = 16%N) then
    if bool_decide (97 ≤ c ≤ 102)%N then Some (c - 87)%N
    else if bool_decide (65 ≤ c ≤ 70)%N then Some (c - 55)%N else None
  else None.

(** The digits of a number of at most [max_digits] digits and at most [limit]. *)
Fixpoint read_digits (radix limit : N) (max_digits count : nat) (acc : N) (s : str) : option (N * nat * str) :=
  match s with
  | [] => Some (acc, count, s)
  | c :: s' =>
      match to_digit radix c with
      | None => Some (acc, count, s)
      | Some d =>
          if bool_decide (limit < acc * radix + d)%N || bool_decide (max_digits < S count) then None
          else read_digits radix limit max_digits (S count) (acc * radix + d)%N s'
      end
  end.

Definition read_number (radix limit : N) (max_digits : nat) (allow_zero_prefix : bool) : reader N := λ s,
  '(v, count, rest) ← read_digits radix limit max_digits 0 0 s;
  if bool_decide (count = 0) then None
  else if negb allow_zero_prefix && bool_decide (head s = Some 48%N) && bool_decide (1 < count) then None
  else Some (v, rest).

Definition read_separator {A} (sep : N) (index : nat) (inner : reader A) : reader A := λ s,
  match index, s with
  | 0, _ => inner s
  | S _, c :: s' => if bool_decide (c = sep) then inner s' else None
  | S _, [] => None
  end.

Fixpoint read_octets (index n : nat) (acc : N) (s : str) : option (N * str) :=
  match n with
  | 0 => Some (acc, s)
  | S n =>
      '(octet, s) ← read_separator 46 index (read_number 10 255 3 false) s;
      read_octets (S index) n (acc * 256 + octet)%N s
  end.
Definition read_ipv4_addr : reader N := read_octets 0 4 0.

(** Up to [n] groups, with an IPv4 address for the last two; whether there was
    one. *)
Fixpoint read_groups (index n : nat) (s : str) : list N * bool * str :=
  match n with
  | 0 => ([], false, s)
  | S n' =>
      match (if bool_decide (1 < n) then read_separator 58 index read_ipv4_addr s else None) with
      | Some (a, s) => ([(a / 65536)%N; (a mod 65536)%N], true, s)
      | None =>
          match read_separator 58 index (read_number 16 65535 4 true) s with
          | Some (g, s) => let '(gs, v4, s) := read_groups (S index) n' s in (g :: gs, v4, s)
          | None => ([], false, s)
          end
      end
  end.

Definition of_groups (gs : list N) : N := foldl (λ acc g, acc * 65536 + g)%N 0%N gs.

Definition read_ipv6_addr : reader N := λ s,
  let '(head, head_ipv4, s) := read_groups 0 8 s in
  if bool_decide (length head = 8) then Some (of_groups head, s)
  else if head_ipv4 then None
  else
    match s with
    | 58 :: 58 :: s =>
        let '(tail, _, s) := read_groups 0 (7 - length head) s in
        Some (of_groups (head ++ replicate (8 - length head - length tail) 0%N ++ tail), s)
    | _ => None
    end%N.

(** [str::parse::<IpAddr>] *)
Definition parse_ip (s : str) : option IpAddr :=
  '(ip, rest) ← (match read_ipv4_addr s with
                 | Some (a, rest) => Some (V4 a, rest)
                 | None => match read_ipv6_addr s with Some (a, rest) => Some (V6 a, rest) | None => None end
                 end);
  if is_nil rest then Some ip else None.

(** * Classes *)

Definition octet (i : N) (a : N) : N := N.land (N.shiftr a (24 - 8 * i)) 255.
Definition segment (i : N) (a : N) : N := N.land (N.shiftr a (112 - 16 * i)) 65535.

Module Ipv4Addr.
Definition is_loopback (a : N) : bool := bool_decide (octet 0 a = 127%N).
Definition is_private (a : N) : bool :=
  bool_decide (octet 0 a = 10%N)
  || bool_decide (octet 0 a = 172%N) && bool_decide (16 ≤ octet 1 a ≤ 31)%N
  || bool_decide (octet 0 a = 192%N) && bool_decide (octet 1 a = 168%N).
Definition is_link_local (a : N) : bool := bool_decide (octet 0 a = 169%N) && bool_decide (octet 1 a = 254%N).
Definition is_unspecified (a : N) : bool := bool_decide (a = 0%N).
Definition is_multicast (a : N) : bool := bool_decide (224 ≤ octet 0 a ≤ 239)%N.
Definition is_broadcast (a : N) : bool := bool_decide (a = ipv4_max).
End Ipv4Addr.

Module Ipv6Addr.
Definition is_loopback (a : N) : bool := bool_decide (a = 1%N).
Definition is_unspecified (a : N) : bool := bool_decide (a = 0%N).
Definition is_multicast (a : N) : bool := bool_decide (N.land (segment 0 a) 0xff00 = 0xff00%N).
Definition is_unique_local (a : N) : bool := bool_decide (N.land (segment 0 a) 0xfe00 = 0xfc00%N).
Definition is_unicast_link_local (a : N) : bool := bool_decide (N.land (segment 0 a) 0xffc0 = 0xfe80%N).
(** The IPv4-compatible and the IPv4-mapped addresses. *)
Definition to_ipv4 (a : N) : option N :=
  if forallb (λ i, bool_decide (segment i a = 0%N)) [0; 1; 2; 3; 4]%N
     && (bool_decide (segment 5 a = 0%N) || bool_decide (segment 5 a = 0xffff%N))
  then Some (segment 6 a * 65536 + segment 7 a)%N else None.
End Ipv6Addr.

Definition is_loopback (ip : IpAddr) : bool :=
  match ip with V4 a => Ipv4Addr.is_loopback a | V6 a => Ipv6Addr.is_loopback a end.

Example parse_ip_examples :
  parse_ip (lit "127.0.0.1") = Some (V4 0x7f000001)
  ∧ parse_ip (lit "01.2.3.4") = None ∧ parse_ip (lit "256.1.1.1") = None ∧ parse_ip (lit "1.2.3") = None
  ∧ parse_ip (lit "::1") = Some (V6 1) ∧ parse_ip (lit "::") = Some (V6 0)
  ∧ parse_ip (lit "fe80::1:2") = Some (V6 0xfe800000000000000000000000010002)
  ∧ parse_ip (lit "::ffff:10.0.0.1") = Some (V6 0xffff0a000001)
  ∧ parse_ip (lit "1:2:3:4:5:6:7:8") = Some (V6 0x00010002000300040005000600070008)
  ∧ parse_ip (lit "1:2:3:4:5:6:1.2.3.4") = Some (V6 0x00010002000300040005000601020304)
  ∧ parse_ip (lit "1::2::3") = None ∧ parse_ip (lit "[::1]") = None ∧ parse_ip (lit "example.com") = None.
Proof. vm_compute. done. Qed.
