(* ===== verification/NetworkHosts.v ===== *)
(** Hosts and domain patterns of the network proxy
    ([network-proxy/src/policy.rs]): normalisation of hosts, addresses that are
    not public, patterns and the sets of patterns hosts are matched against.
    The glob engine and the host parser of [url] are interfaces. *)

From S2P Require Import Prelude Text IpAddr.

(** * Interfaces *)

(** [globset], ignoring ASCII case, and [url::Host::parse] followed by
    [to_string]. *)
Class HostLibs := {
  Glob : Type;
  glob_new : str → result str Glob;
  glob_match : Glob → str → bool;
  glob_set : list Glob → result str (str → bool);
  url_host : str → option str
}.

Definition dot : N := 46.
Definition colon : N := 58.
Definition percent : N := 37.

(** Characters that stand for themselves in a pattern. *)
Definition plain_char (c : N) : Prop := c ∉ lit "?*[]{}\/".
#[export] Instance plain_char_dec c : Decision (plain_char c).
Proof. unfold plain_char. apply _. Defined.
Definition plain (s : str) : Prop := Forall plain_char s.

Class HostLibsLaws `{HostLibs} : Prop := {
  glob_set_any gs m : glob_set gs = Ok m → ∀ s, m s = existsb (λ g, glob_match g s) gs;
  glob_literal p g : plain p → glob_new p = Ok g → ∀ s, glob_match g s = eq_ignore_ascii_case s p;
  glob_subdomain d g : plain d → glob_new (lit "?*." ++ d) = Ok g → ∀ s,
    glob_match g s = true ↔
      ∃ label, label ≠ [] ∧ to_ascii_lowercase s = label ++ [dot] ++ to_ascii_lowercase d
}.

(** * Hosts *)

(** [s.split_once(delimiter)] *)
Fixpoint split_once_str (delimiter s : str) : option (str * str) :=
  match strip_prefix delimiter s with
  | Some rest => Some ([], rest)
  | None =>
      match s with
      | [] => None
      | c :: s => '(a, b) ← split_once_str delimiter s; Some (c :: a, b)
      end
  end.

(** [unscoped_ip_literal] *)
Definition unscoped_ip_literal (host : str) : option str :=
  '(ip, _) ← split_once percent host;
  _ ← parse_ip ip;
  Some ip.

(** [normalize_ip_literal] *)
Definition scoped_ip (delimiter host : str) : option str :=
  '(ip, scope) ← split_once_str delimiter host;
  _ ← parse_ip ip;
  Some (ip ++ [percent] ++ scope).
Definition normalize_ip_literal (host : str) : option str :=
  match parse_ip host with
  | Some _ => Some host
  | None => match scoped_ip (lit "%25") host with Some s => Some s | None => scoped_ip (lit "%") host end
  end.

(** [normalize_dns_host_or_ip_literal] *)
Definition normalize_dns_host_or_ip_literal (host : str) : str :=
  let host := trim_end_matches dot (to_ascii_lowercase host) in
  default host (normalize_ip_literal host).

(** [normalize_host] *)
Definition before_bracket (host : str) : option str :=
  match host with
  | 91%N :: rest => '(inner, _) ← split_once 93 rest; Some inner
  | _ => None
  end.
Definition normalize_host (host : str) : str :=
  let host := trim host in
  match before_bracket host with
  | Some inner => normalize_dns_host_or_ip_literal inner
  | None =>
      if bool_decide (length (filter (eq colon) host) = 1)
      then normalize_dns_host_or_ip_literal (default [] (head (split_on colon host)))
      else normalize_dns_host_or_ip_literal host
  end.

(** [Host::parse]; a host is its normalised text. *)
Definition host_parse (input : str) : result str str :=
  let normalized := normalize_host input in
  if is_nil normalized then Err (lit "host is empty") else Ok normalized.

(** [is_loopback_host] *)
Definition is_loopback_host (host : str) : bool :=
  let host := default host (unscoped_ip_literal host) in
  if bool_decide (host = lit "localhost") then true
  else match parse_ip host with Some ip => is_loopback ip | None => false end.

(** * Addresses that are not public *)

(** A 32-bit shift to the left loses the bits that leave the word. *)
Definition shl32 (a n : N) : N := N.land (N.shiftl a n) ipv4_max.
Definition ipv4_of_octets (a b c d : N) : N := (((a * 256 + b) * 256 + c) * 256 + d)%N.

(** [ipv4_in_cidr] *)
Definition ipv4_in_cidr (ip base : N) (prefix : N) : bool :=
  let mask := if bool_decide (prefix = 0%N) then 0%N else shl32 ipv4_max (32 - prefix) in
  bool_decide (N.land ip mask = N.land base mask).

(** [is_non_public_ipv4] *)
Definition is_non_public_ipv4 (ip : N) : bool :=
  Ipv4Addr.is_loopback ip || Ipv4Addr.is_private ip || Ipv4Addr.is_link_local ip
  || Ipv4Addr.is_unspecified ip || Ipv4Addr.is_multicast ip || Ipv4Addr.is_broadcast ip
  || ipv4_in_cidr ip (ipv4_of_octets 0 0 0 0) 8
  || ipv4_in_cidr ip (ipv4_of_octets 100 64 0 0) 10
  || ipv4_in_cidr ip (ipv4_of_octets 192 0 0 0) 24
  || ipv4_in_cidr ip (ipv4_of_octets 192 0 2 0) 24
  || ipv4_in_cidr ip (ipv4_of_octets 198 18 0 0) 15
  || ipv4_in_cidr ip (ipv4_of_octets 198 51 100 0) 24
  || ipv4_in_cidr ip (ipv4_of_octets 203 0 113 0) 24
  || ipv4_in_cidr ip (ipv4_of_octets 240 0 0 0) 4.

(** [is_non_public_ipv6] and [is_non_public_ip] *)
Definition is_non_public_ipv6 (ip : N) : bool :=
  match Ipv6Addr.to_ipv4 ip with
  | Some v4 => is_non_public_ipv4 v4 || Ipv6Addr.is_loopback ip
  | None =>
      Ipv6Addr.is_loopback ip || Ipv6Addr.is_unspecified ip || Ipv6Addr.is_multicast ip
      || Ipv6Addr.is_unique_local ip || Ipv6Addr.is_unicast_link_local ip
  end.
Definition is_non_public_ip (ip : IpAddr) : bool :=
  match ip with V4 a => is_non_public_ipv4 a | V6 a => is_non_public_ipv6 a end.

(** * Patterns *)

Definition star : str := lit "*".

(** [normalize_pattern] *)
Definition normalize_pattern (pattern : str) : str :=
  let pattern := trim pattern in
  if bool_decide (pattern = star) then star
  else match strip_prefix (lit "**.") pattern with
       | Some domain => lit "**." ++ normalize_host domain
       | None =>
           match strip_prefix (lit "*.") pattern with
           | Some domain => lit "*." ++ normalize_host domain
           | None => normalize_host pattern
           end
       end.

(** [DomainPattern] *)
Module DomainPattern.
Inductive t :=
| ApexAndSubdomains (domain : str)
| SubdomainsOnly (domain : str)
| Exact (domain : str).

Definition parse_domain (domain : str) (build : str → t) : t :=
  let domain := trim domain in if is_nil domain then Exact [] else build domain.
Definition parse (input : str) : t :=
  let input := trim input in
  if is_nil input then Exact []
  else match strip_prefix (lit "**.") input with
       | Some domain => parse_domain domain ApexAndSubdomains
       | None =>
           match strip_prefix (lit "*.") input with
           | Some domain => parse_domain domain SubdomainsOnly
           | None => Exact input
           end
       end.
End DomainPattern.

(** [expand_domain_pattern] *)
Definition expand_domain_pattern (pattern : str) : list str :=
  match DomainPattern.parse pattern with
  | DomainPattern.Exact domain => [domain]
  | DomainPattern.SubdomainsOnly domain => [lit "?*." ++ domain]
  | DomainPattern.ApexAndSubdomains domain => [domain; lit "?*." ++ domain]
  end.

(** [is_global_wildcard_domain_pattern] *)
Definition is_global_wildcard_domain_pattern (pattern : str) : bool :=
  existsb (λ candidate, bool_decide (candidate = star)) (expand_domain_pattern (normalize_pattern pattern)).

(** [normalize_domain], [domain_eq], [is_subdomain_or_equal], [is_strict_subdomain] *)
Definition normalize_domain (domain : str) : str := to_ascii_lowercase (trim_end_matches dot domain).
Definition domain_eq (left right : str) : bool := bool_decide (normalize_domain left = normalize_domain right).
Definition is_subdomain_or_equal (child parent : str) : bool :=
  let child := normalize_domain child in
  let parent := normalize_domain parent in
  bool_decide (child = parent) || ends_with child ([dot] ++ parent).
Definition is_strict_subdomain (child parent : str) : bool :=
  let child := normalize_domain child in
  let parent := normalize_domain parent in
  negb (bool_decide (child = parent)) && ends_with child ([dot] ++ parent).

(** [DomainPattern::allows] *)
Definition allows (self candidate : DomainPattern.t) : bool :=
  match self, candidate with
  | DomainPattern.Exact domain, DomainPattern.Exact candidate => domain_eq candidate domain
  | DomainPattern.Exact _, _ => false
  | DomainPattern.SubdomainsOnly domain, DomainPattern.Exact candidate => is_strict_subdomain candidate domain
  | DomainPattern.SubdomainsOnly domain, DomainPattern.SubdomainsOnly candidate =>
      is_subdomain_or_equal candidate domain
  | DomainPattern.SubdomainsOnly domain, DomainPattern.ApexAndSubdomains candidate =>
      is_strict_subdomain candidate domain
  | DomainPattern.ApexAndSubdomains domain,
    (DomainPattern.Exact candidate | DomainPattern.SubdomainsOnly candidate
     | DomainPattern.ApexAndSubdomains candidate) => is_subdomain_or_equal candidate domain
  end.

Section globs.
Context `{HostLibs}.

(** [parse_domain_for_constraints] *)
Definition unbracketed (domain : str) : str :=
  match domain with
  | 91%N :: rest => if ends_with domain [93%N] then init rest else domain
  | _ => domain
  end.
Definition parse_domain_for_constraints (domain : str) : str :=
  let domain := trim_end_matches dot (trim domain) in
  if is_nil domain then []
  else
    let host := unbracketed domain in
    if contains host (lit "*") || contains host (lit "?") || contains host (lit "%") then domain
    else default [] (url_host host).

(** [DomainPattern::parse_for_constraints] *)
Definition parse_for_constraints (input : str) : DomainPattern.t :=
  let input := trim input in
  if is_nil input then DomainPattern.Exact []
  else match strip_prefix (lit "**.") input with
       | Some domain => DomainPattern.ApexAndSubdomains (parse_domain_for_constraints domain)
       | None =>
           match strip_prefix (lit "*.") input with
           | Some domain => DomainPattern.SubdomainsOnly (parse_domain_for_constraints domain)
           | None => DomainPattern.Exact (parse_domain_for_constraints input)
           end
       end.

Inductive GlobalWildcard := Allow | Reject.
#[export] Instance GlobalWildcard_eq_dec : EqDecision GlobalWildcard.
Proof. solve_decision. Defined.

Definition msg_global_wildcard : str :=
  lit "unsupported global wildcard domain pattern " ++ [34%N] ++ star ++ [34%N]
  ++ lit "; use exact hosts or scoped wildcards like *.example.com or **.example.com".

(** [compile_globset_with_policy]: the candidates seen and the globs built from
    them, then the set. *)
Fixpoint add_candidates (candidates : list str) (seen : list str) (globs : list Glob) :
    result str (list str * list Glob) :=
  match candidates with
  | [] => Ok (seen, globs)
  | candidate :: candidates =>
      if bool_decide (candidate ∈ seen) then add_candidates candidates seen globs
      else let? glob := result_map_err (λ _, lit "invalid glob pattern: " ++ candidate) (glob_new candidate) in
           add_candidates candidates (seen ++ [candidate]) (globs ++ [glob])
  end.
Fixpoint add_patterns (global_wildcard : GlobalWildcard) (patterns : list str) (seen : list str) (globs : list Glob) :
    result str (list str * list Glob) :=
  match patterns with
  | [] => Ok (seen, globs)
  | pattern :: patterns =>
      if bool_decide (global_wildcard = Reject) && is_global_wildcard_domain_pattern pattern
      then Err msg_global_wildcard
      else let? (seen, globs) := add_candidates (expand_domain_pattern (normalize_pattern pattern)) seen globs in
           add_patterns global_wildcard patterns seen globs
  end.
Definition compile_globset_with_policy (patterns : list str) (global_wildcard : GlobalWildcard) :
    result str (str → bool) :=
  let? (_, globs) := add_patterns global_wildcard patterns [] [] in glob_set globs.

Definition compile_allowlist_globset (patterns : list str) := compile_globset_with_policy patterns Allow.
Definition compile_denylist_globset (patterns : list str) := compile_globset_with_policy patterns Reject.
End globs.
