(* ===== verification/NetworkHostsSpec.v ===== *)
(** What the hosts and patterns of the network proxy mean: the addresses that
    are not public, as ranges; the hosts a compiled pattern stands for; and
    what it says that one pattern allows another. *)

From Stdlib Require Import Btauto.
From S2P Require Import Prelude Text IpAddr NetworkHosts.

(** * Addresses that are not public *)

(** Masks that keep the high bits of a word. *)
Lemma land_high w k x :
  (k ≤ w)%N → (x < 2 ^ w)%N → N.land x (N.shiftl (N.ones (w - k)) k) = (x / 2 ^ k * 2 ^ k)%N.
Proof.
  intros Hk Hx. rewrite <- N.shiftr_div_pow2, <- N.shiftl_mul_pow2. apply N.bits_inj. intros i.
  rewrite N.land_spec. destruct (N.lt_ge_cases i k) as [Hi|Hi].
  - rewrite !N.shiftl_spec_low by done. by rewrite andb_false_r.
  - rewrite !N.shiftl_spec_high' by done. rewrite N.shiftr_spec'. replace (i - k + k)%N with i by lia.
    destruct (N.lt_ge_cases (i - k) (w - k)) as [Hw|Hw].
    + rewrite N.ones_spec_low by done. by rewrite andb_true_r.
    + rewrite N.ones_spec_high by done. rewrite andb_false_r.
      destruct (decide (x = 0%N)) as [->|Hn]; [by rewrite N.bits_0|].
      symmetry. apply N.bits_above_log2, N.lt_le_trans with w; [|lia]. by apply N.log2_lt_pow2; lia.
Qed.

Lemma land_high_eq w k x c :
  (k ≤ w)%N → (x < 2 ^ w)%N → N.land x (N.shiftl (N.ones (w - k)) k) = (c * 2 ^ k)%N ↔ (x / 2 ^ k = c)%N.
Proof.
  intros Hk Hx. rewrite land_high by done. assert (2 ^ k ≠ 0)%N by (by apply N.pow_nonzero).
  rewrite N.mul_cancel_r by done. done.
Qed.

Lemma octet_div i a : octet i a = (a / 2 ^ (24 - 8 * i) mod 256)%N.
Proof. unfold octet. rewrite N.shiftr_div_pow2. change 255%N with (N.ones 8). by rewrite N.land_ones. Qed.
Lemma segment_div i a : segment i a = (a / 2 ^ (112 - 16 * i) mod 65536)%N.
Proof. unfold segment. rewrite N.shiftr_div_pow2. change 65535%N with (N.ones 16). by rewrite N.land_ones. Qed.

Ltac nlia := zify; Z.to_euclidean_division_equations; lia.

(** A range of addresses, with its ends. *)
Definition in_range (a : N) (r : N * N) : bool := bool_decide (r.1 ≤ a ≤ r.2)%N.
Definition block (a b c d : N) (prefix : N) : N * N :=
  let base := ipv4_of_octets a b c d in (base, base + 2 ^ (32 - prefix) - 1)%N.

Lemma ipv4_in_cidr_range ip base p :
  (0 < p ≤ 32)%N → shl32 ipv4_max (32 - p) = N.shiftl (N.ones (32 - (32 - p))) (32 - p) →
  (ip ≤ ipv4_max)%N → (base ≤ ipv4_max)%N →
  ipv4_in_cidr ip base p =
    in_range ip (base / 2 ^ (32 - p) * 2 ^ (32 - p), base / 2 ^ (32 - p) * 2 ^ (32 - p) + 2 ^ (32 - p) - 1)%N.
Proof.
  unfold ipv4_in_cidr, in_range. intros Hp Hm Hip Hb. rewrite (bool_decide_eq_false_2 (p = 0%N)) by lia. rewrite Hm.
  assert (2 ^ 32 = ipv4_max + 1)%N as H32 by reflexivity.
  rewrite (land_high 32 (32 - p) base) by lia. apply bool_decide_ext.
  rewrite land_high_eq by lia. cbn [fst snd]. assert (2 ^ (32 - p) ≠ 0)%N as Hz by (by apply N.pow_nonzero).
  generalize (base / 2 ^ (32 - p))%N. revert Hz. generalize (2 ^ (32 - p))%N. intros q Hz c.
  split; intros H.
  - pose proof (N.div_mod ip q Hz) as Hd. pose proof (N.mod_lt ip q Hz) as Hm'. rewrite H in Hd.
    revert Hd Hm'. generalize (ip mod q)%N. clear. intros r -> Hr. lia.
  - symmetry. apply (N.div_unique ip q c (ip - c * q))%N; lia.
Qed.

(** RFC 6890 and its successors, in IPv4. *)
Definition non_public_blocks : list (N * N) :=
  [block 0 0 0 0 8; block 10 0 0 0 8; block 100 64 0 0 10; block 127 0 0 0 8; block 169 254 0 0 16;
   block 172 16 0 0 12; block 192 0 0 0 24; block 192 0 2 0 24; block 192 168 0 0 16; block 198 18 0 0 15;
   block 198 51 100 0 24; block 203 0 113 0 24; block 224 0 0 0 3].

Lemma octets_of_range a :
  (a ≤ ipv4_max)%N →
  Ipv4Addr.is_loopback a = in_range a (block 127 0 0 0 8)
  ∧ Ipv4Addr.is_private a
    = in_range a (block 10 0 0 0 8) || in_range a (block 172 16 0 0 12) || in_range a (block 192 168 0 0 16)
  ∧ Ipv4Addr.is_link_local a = in_range a (block 169 254 0 0 16)
  ∧ Ipv4Addr.is_multicast a = in_range a (block 224 0 0 0 4).
Proof.
  intros Ha. unfold Ipv4Addr.is_loopback, Ipv4Addr.is_private, Ipv4Addr.is_link_local, Ipv4Addr.is_multicast, in_range.
  rewrite !octet_div. unfold ipv4_max in Ha.
  change (24 - 8 * 0)%N with 24%N. change (24 - 8 * 1)%N with 16%N. rewrite <- !bool_decide_and, <- !bool_decide_or.
  change (2 ^ 24)%N with 16777216%N. change (2 ^ 16)%N with 65536%N. change (2 ^ 32)%N with 4294967296%N in Ha.
  cbn [fst snd block].
  repeat match goal with |- context [ipv4_of_octets ?a ?b ?c ?d] =>
    let v := eval vm_compute in (ipv4_of_octets a b c d) in change (ipv4_of_octets a b c d) with v end.
  repeat match goal with |- context [(2 ^ (32 - ?p))%N] =>
    let v := eval vm_compute in (2 ^ (32 - p))%N in change (2 ^ (32 - p))%N with v end.
  split_and!; apply bool_decide_ext; nlia.
Qed.

Lemma cidr_block ip a b c d p :
  (0 < p ≤ 32)%N → shl32 ipv4_max (32 - p) = N.shiftl (N.ones (32 - (32 - p))) (32 - p) →
  (ip ≤ ipv4_max)%N → (ipv4_of_octets a b c d ≤ ipv4_max)%N →
  (ipv4_of_octets a b c d mod 2 ^ (32 - p) = 0)%N →
  ipv4_in_cidr ip (ipv4_of_octets a b c d) p = in_range ip (block a b c d p).
Proof.
  intros Hp Hm Hip Hb Hz. rewrite ipv4_in_cidr_range by done. unfold block. repeat f_equal.
  - rewrite N.mul_comm. symmetry. apply N.div_exact; [by apply N.pow_nonzero|done].
  - rewrite N.mul_comm. symmetry. apply N.div_exact; [by apply N.pow_nonzero|done].
Qed.

(** The special addresses lie in the blocks. *)
Lemma special_blocks a :
  (a ≤ ipv4_max)%N →
  in_range a (block 0 0 0 0 8) = Ipv4Addr.is_unspecified a || in_range a (block 0 0 0 0 8)
  ∧ in_range a (block 224 0 0 0 3)
    = Ipv4Addr.is_broadcast a || in_range a (block 224 0 0 0 4) || in_range a (block 240 0 0 0 4).
Proof.
  intros Ha. unfold Ipv4Addr.is_unspecified, Ipv4Addr.is_broadcast, in_range, ipv4_max in *.
  change (block 0 0 0 0 8) with (0, 16777215)%N. change (block 224 0 0 0 3) with (3758096384, 4294967295)%N.
  change (block 224 0 0 0 4) with (3758096384, 4026531839)%N. change (block 240 0 0 0 4) with (4026531840, 4294967295)%N.
  change (2 ^ 32 - 1)%N with 4294967295%N in *. rewrite <- !bool_decide_or. cbn [fst snd].
  split; apply bool_decide_ext; lia.
Qed.

Lemma is_non_public_ipv4_blocks a : (a ≤ ipv4_max)%N → is_non_public_ipv4 a = existsb (in_range a) non_public_blocks.
Proof.
  intros Ha. unfold is_non_public_ipv4. destruct (octets_of_range a Ha) as (-> & -> & -> & ->).
  rewrite !cidr_block by (done || (vm_compute; done) || reflexivity). cbn [existsb non_public_blocks].
  destruct (special_blocks a Ha) as [E0 ->]. rewrite E0 at 2. btauto.
Qed.

(** IPv6 blocks: the unique-local, link-local and multicast addresses, and the
    IPv4 addresses in their two embeddings. *)
Definition non_public_v6_blocks : list (N * N) :=
  non_public_blocks
  ++ ((λ r, (0xffff00000000 + r.1, 0xffff00000000 + r.2)%N) <$> non_public_blocks)
  ++ [(0xfc000000000000000000000000000000, 0xfdffffffffffffffffffffffffffffff)%N;
      (0xfe800000000000000000000000000000, 0xfebfffffffffffffffffffffffffffff)%N;
      (0xff000000000000000000000000000000, 0xffffffffffffffffffffffffffffffff)%N].

(** A number is zero when its low field and what is above it are. *)
Lemma zero_fields a p q : (q = p * 65536)%N → (p ≠ 0)%N →
  (a / q = 0 ∧ a / p mod 65536 = 0)%N ↔ (a / p = 0)%N.
Proof.
  intros -> Hp. rewrite <- N.Div0.div_div. generalize (a / p)%N. intros r. nlia.
Qed.

Lemma high_segments_zero a :
  (a ≤ ipv6_max)%N →
  forallb (λ i, bool_decide (segment i a = 0%N)) [0; 1; 2; 3; 4]%N = bool_decide (a < 0x1000000000000)%N.
Proof.
  intros Ha. cbn [forallb]. rewrite !segment_div, andb_true_r, <- !bool_decide_and. apply bool_decide_ext.
  assert (a / 2 ^ 128 = 0)%N as Hz by (apply N.div_small; unfold ipv6_max in Ha; lia).
  pose proof (zero_fields a (2 ^ 112) (2 ^ 128) eq_refl ltac:(done)) as H0.
  pose proof (zero_fields a (2 ^ 96) (2 ^ 112) eq_refl ltac:(done)) as H1.
  pose proof (zero_fields a (2 ^ 80) (2 ^ 96) eq_refl ltac:(done)) as H2.
  pose proof (zero_fields a (2 ^ 64) (2 ^ 80) eq_refl ltac:(done)) as H3.
  pose proof (zero_fields a (2 ^ 48) (2 ^ 64) eq_refl ltac:(done)) as H4.
  assert (a / 2 ^ 48 = 0 ↔ a < 0x1000000000000)%N as <- by (apply N.div_small_iff; done).
  change (112 - 16 * 0)%N with 112%N. change (112 - 16 * 1)%N with 96%N. change (112 - 16 * 2)%N with 80%N.
  change (112 - 16 * 3)%N with 64%N. change (112 - 16 * 4)%N with 48%N. tauto.
Qed.

Lemma to_ipv4_range a :
  (a ≤ ipv6_max)%N →
  Ipv6Addr.to_ipv4 a =
    if in_range a (0, ipv4_max)%N then Some a
    else if in_range a (0xffff00000000, 0xffffffffffff)%N then Some (a - 0xffff00000000)%N else None.
Proof.
  intros Ha. unfold Ipv6Addr.to_ipv4, in_range, ipv4_max. rewrite high_segments_zero by done.
  rewrite !segment_div. cbn [fst snd].
  change (2 ^ (112 - 16 * 5))%N with 4294967296%N. change (2 ^ (112 - 16 * 6))%N with 65536%N.
  change (2 ^ (112 - 16 * 7))%N with 1%N. rewrite N.div_1_r.
  change (2 ^ 32 - 1)%N with 4294967295%N. rewrite <- bool_decide_or, <- bool_decide_and.
  repeat case_bool_decide; try (f_equal; nlia); exfalso; nlia.
Qed.

Lemma high_mask_range a mask c p w lo hi :
  (a ≤ ipv6_max)%N → mask = N.shiftl (N.ones (w - p)) p → (p ≤ w)%N → w = 16%N →
  (c = lo / 2 ^ (112 + p) * 2 ^ p)%N → (lo = lo / 2 ^ (112 + p) * 2 ^ (112 + p))%N →
  (hi = lo + 2 ^ (112 + p) - 1)%N →
  bool_decide (N.land (segment 0 a) mask = c) = in_range a (lo, hi).
Proof.
  intros Ha -> Hp -> -> Hlo ->. unfold in_range. apply bool_decide_ext. cbn [fst snd].
  assert (segment 0 a = a / 2 ^ 112)%N as ->.
  { rewrite segment_div. apply N.mod_small. apply N.Div0.div_lt_upper_bound. unfold ipv6_max in Ha. lia. }
  rewrite land_high_eq; [|done|apply N.Div0.div_lt_upper_bound; unfold ipv6_max in Ha; lia].
  rewrite N.Div0.div_div, <- N.pow_add_r.
  revert Hlo. generalize (lo / 2 ^ (112 + p))%N. assert (2 ^ (112 + p) ≠ 0)%N as Hz by (by apply N.pow_nonzero).
  revert Hz. generalize (2 ^ (112 + p))%N. clear Hp Ha. intros q Hz c ->. split; intros H.
  - pose proof (N.div_mod a q Hz) as Hd. pose proof (N.mod_lt a q Hz) as Hm. rewrite H in Hd.
    revert Hd Hm. generalize (a mod q)%N. clear. intros r -> Hr. lia.
  - symmetry. apply (N.div_unique a q c (a - c * q))%N; lia.
Qed.

Lemma existsb_fmap {A B} (f : A → B) (p : B → bool) l : existsb p (f <$> l) = existsb (λ x, p (f x)) l.
Proof. induction l as [|x l IH]; csimpl; [done|]. by rewrite IH. Qed.

Lemma existsb_ext_in {A} (p q : A → bool) l : (∀ x, x ∈ l → p x = q x) → existsb p l = existsb q l.
Proof.
  induction l as [|x l IH]; intros Hpq; simpl; [done|].
  rewrite (Hpq x), IH; [done| |by left]. intros y Hy. apply Hpq. by right.
Qed.

(** The blocks are blocks of IPv4 addresses. *)
Lemma blocks_valid r : r ∈ non_public_blocks → (r.1 ≤ r.2 ≤ ipv4_max)%N.
Proof.
  assert (Forall (λ r, r.1 ≤ r.2 ≤ ipv4_max)%N non_public_blocks) as Hf
    by (repeat constructor; vm_compute; done).
  rewrite Forall_forall in Hf. apply Hf.
Qed.

Lemma above_blocks a : (ipv4_max < a)%N → existsb (in_range a) non_public_blocks = false.
Proof.
  intros Ha. apply not_true_iff_false. rewrite existsb_elem. intros (r & Hr & Hin).
  apply blocks_valid in Hr. apply bool_decide_eq_true in Hin. lia.
Qed.

Lemma v6_blocks_split a :
  existsb (in_range a) non_public_v6_blocks =
    existsb (in_range a) non_public_blocks
    || existsb (λ r, in_range a (0xffff00000000 + r.1, 0xffff00000000 + r.2)%N) non_public_blocks
    || (in_range a (0xfc00 * 2 ^ 112, 0xfe00 * 2 ^ 112 - 1)%N || in_range a (0xfe80 * 2 ^ 112, 0xfec0 * 2 ^ 112 - 1)%N
        || in_range a (0xff00 * 2 ^ 112, ipv6_max)%N).
Proof.
  unfold non_public_v6_blocks. rewrite !existsb_app, existsb_fmap, <- orb_assoc. f_equal. f_equal.
  cbn [existsb]. by rewrite orb_false_r, orb_assoc.
Qed.

Lemma mapped_blocks a :
  existsb (λ r, in_range a (0xffff00000000 + r.1, 0xffff00000000 + r.2)%N) non_public_blocks =
    in_range a (0xffff00000000, 0xffffffffffff)%N && existsb (in_range (a - 0xffff00000000)%N) non_public_blocks.
Proof.
  destruct (in_range a (0xffff00000000, 0xffffffffffff)%N) eqn:E; [rewrite andb_true_l|rewrite andb_false_l].
  - apply bool_decide_eq_true in E. cbn [fst snd] in E. apply existsb_ext_in. intros r Hr.
    unfold in_range. apply bool_decide_ext. cbn [fst snd]. lia.
  - apply not_true_iff_false. rewrite existsb_elem. intros (r & Hr & Hin).
    apply blocks_valid in Hr. apply bool_decide_eq_true in Hin. apply bool_decide_eq_false in E.
    unfold ipv4_max in Hr. cbn [fst snd] in *. lia.
Qed.

Lemma is_non_public_ipv6_blocks a : (a ≤ ipv6_max)%N → is_non_public_ipv6 a = existsb (in_range a) non_public_v6_blocks.
Proof.
  intros Ha. unfold is_non_public_ipv6. rewrite v6_blocks_split, mapped_blocks, to_ipv4_range by done.
  unfold Ipv6Addr.is_multicast, Ipv6Addr.is_unique_local, Ipv6Addr.is_unicast_link_local.
  rewrite (high_mask_range a 0xff00 0xff00 8 16 (0xff00 * 2 ^ 112) ipv6_max),
    (high_mask_range a 0xfe00 0xfc00 9 16 (0xfc00 * 2 ^ 112) (0xfe00 * 2 ^ 112 - 1)),
    (high_mask_range a 0xffc0 0xfe80 6 16 (0xfe80 * 2 ^ 112) (0xfec0 * 2 ^ 112 - 1)) by (done || (vm_compute; done)).
  assert ((a ≤ 0xffffffffffff)%N →
    in_range a (0xfc00 * 2 ^ 112, 0xfe00 * 2 ^ 112 - 1)%N || in_range a (0xfe80 * 2 ^ 112, 0xfec0 * 2 ^ 112 - 1)%N
    || in_range a (0xff00 * 2 ^ 112, ipv6_max)%N = false) as Hlow.
  { intros Hl. unfold in_range. cbn [fst snd]. rewrite !bool_decide_eq_false_2 by lia. done. }
  destruct (in_range a (0, ipv4_max)%N) eqn:E4; [apply bool_decide_eq_true in E4|apply bool_decide_eq_false in E4];
    cbn [fst snd] in E4.
  - rewrite is_non_public_ipv4_blocks, Hlow by (lia || (unfold ipv4_max in E4; lia)).
    assert (in_range a (0xffff00000000, 0xffffffffffff)%N = false) as ->
      by (apply bool_decide_eq_false; cbn [fst snd]; unfold ipv4_max in E4; lia).
    rewrite !orb_false_r. unfold Ipv6Addr.is_loopback. case_bool_decide; [by subst|by rewrite orb_false_r].
  - rewrite above_blocks by lia. destruct (in_range a (0xffff00000000, 0xffffffffffff)%N) eqn:Em.
    + apply bool_decide_eq_true in Em. cbn [fst snd] in Em. rewrite Hlow by lia.
      rewrite is_non_public_ipv4_blocks by (unfold ipv4_max; lia). unfold Ipv6Addr.is_loopback.
      rewrite bool_decide_eq_false_2 by lia. by rewrite !orb_false_r.
    + unfold Ipv6Addr.is_loopback, Ipv6Addr.is_unspecified, ipv4_max in *.
      rewrite !bool_decide_eq_false_2 by lia. btauto.
Qed.

(** An address is refused as not public exactly when it lies in one of the
    reserved blocks: in IPv4 the private, loopback, link-local, shared, test,
    benchmark, multicast and reserved ones, in IPv6 those in both embeddings and
    the unique-local, link-local and multicast addresses. *)
Theorem non_public_addresses_are_the_reserved_blocks ip :
  valid_ip ip →
  is_non_public_ip ip =
    match ip with
    | V4 a => existsb (in_range a) non_public_blocks
    | V6 a => existsb (in_range a) non_public_v6_blocks
    end.
Proof. destruct ip; [apply is_non_public_ipv4_blocks|apply is_non_public_ipv6_blocks]. Qed.

Lemma non_public_addresses_are_the_reserved_blocks_witness :
  is_non_public_ip (V6 0xffff0a000001) = true ∧ is_non_public_ip (V4 0x08080808) = false.
Proof.
  rewrite (non_public_addresses_are_the_reserved_blocks (V6 0xffff0a000001)) by (vm_compute; done).
  rewrite (non_public_addresses_are_the_reserved_blocks (V4 0x08080808)) by (vm_compute; done).
  by vm_compute.
Defined.

(** * What patterns stand for *)

(** The patterns the documentation shows: a domain of letters, digits, hyphens
    and dots in lower case, alone or below one of the two wildcards. *)
Definition domain_char (c : N) : bool :=
  bool_decide (97 ≤ c ≤ 122)%N || bool_decide (48 ≤ c ≤ 57)%N || bool_decide (c = 45%N) || bool_decide (c = dot).

Definition pattern_text (p : DomainPattern.t) : str :=
  match p with
  | DomainPattern.Exact d => d
  | DomainPattern.SubdomainsOnly d => lit "*." ++ d
  | DomainPattern.ApexAndSubdomains d => lit "**." ++ d
  end.
Definition pattern_domain (p : DomainPattern.t) : str :=
  match p with
  | DomainPattern.Exact d | DomainPattern.SubdomainsOnly d | DomainPattern.ApexAndSubdomains d => d
  end.

(** The hosts of a pattern. *)
Definition below (d h : str) : Prop := ∃ label, label ≠ [] ∧ h = label ++ [dot] ++ d.
Definition stands_for (p : DomainPattern.t) (h : str) : Prop :=
  match p with
  | DomainPattern.Exact d => h = d
  | DomainPattern.SubdomainsOnly d => below d h
  | DomainPattern.ApexAndSubdomains d => h = d ∨ below d h
  end.

Record domain_text (d : str) : Prop := mkDomainText {
  domain_nonempty : d ≠ [];
  domain_chars : Forall (λ c, domain_char c = true) d;
  domain_head : head d ≠ Some dot;
  domain_last : last d ≠ Some dot
}.

Ltac domain_char_tac :=
  unfold domain_char in *; rewrite ?orb_true_iff, ?bool_decide_eq_true in *; unfold dot in *; lia.

Lemma to_ascii_lowercase_id s : Forall (λ c, ¬ (65 ≤ c ≤ 90)%N) s → to_ascii_lowercase s = s.
Proof.
  induction 1 as [|c s Hc _ IH]; [done|]. unfold to_ascii_lowercase in *. csimpl. rewrite IH. by case_decide.
Qed.
Lemma trim_end_matches_id d s : last s ≠ Some d → trim_end_matches d s = s.
Proof.
  induction s as [|c s IH]; intros Hl; [done|]. simpl. destruct s as [|c' s].
  - simpl. rewrite decide_False; [done|]. by intros ->.
  - rewrite IH by done. done.
Qed.
Lemma trim_id s : Forall (λ c, is_whitespace c = false) s → trim s = s.
Proof.
  intros Hf. unfold trim. destruct s as [|c s]; [done|]. pose proof Hf as [Hc Hs]%Forall_cons.
  rewrite trim_start_nonws by done. destruct (exists_last (l := c :: s)) as (s' & x & E); [done|]. rewrite E in *.
  apply trim_end_snoc. by apply Forall_snoc in Hf as [_ ?].
Qed.

Section domains.
Context (d : str) (Hd : domain_text d).

Lemma domain_lower : to_ascii_lowercase d = d.
Proof. apply to_ascii_lowercase_id. eapply Forall_impl; [apply Hd|]. intros c Hc. domain_char_tac. Qed.
Lemma domain_trim : trim d = d.
Proof.
  apply trim_id. eapply Forall_impl; [apply Hd|]. intros c Hc. unfold is_whitespace.
  rewrite !bool_decide_eq_false_2 by domain_char_tac. done.
Qed.
Lemma domain_no_char c : domain_char c = false → c ∉ d.
Proof. intros Hc Hin. pose proof (domain_chars d Hd) as Hf. rewrite Forall_forall in Hf. apply Hf in Hin. congruence. Qed.
Lemma domain_normalized : normalize_domain d = d.
Proof. unfold normalize_domain. rewrite trim_end_matches_id by apply Hd. apply domain_lower. Qed.
Lemma domain_plain : plain d.
Proof.
  eapply Forall_impl; [apply Hd|]. intros c Hc. unfold plain_char. intros Hin.
  assert (Forall (λ c, domain_char c = false) (lit "?*[]{}\/")) as Hf by (repeat constructor).
  rewrite Forall_forall in Hf. apply Hf in Hin. congruence.
Qed.

Lemma split_once_str_none p s c : head p = Some c → c ∉ s → split_once_str p s = None.
Proof.
  destruct p as [|c' p]; intros [= ->]. induction s as [|x s IH]; intros Hin; simpl; [done|].
  rewrite not_elem_of_cons in Hin. rewrite decide_False by (intros ->; tauto). by rewrite IH by tauto.
Qed.

Lemma domain_normalize_dns : normalize_dns_host_or_ip_literal d = d.
Proof.
  unfold normalize_dns_host_or_ip_literal. rewrite domain_lower, trim_end_matches_id by apply Hd.
  unfold normalize_ip_literal, scoped_ip. destruct (parse_ip d); [done|].
  by rewrite !(split_once_str_none _ d percent) by (done || by apply domain_no_char).
Qed.

Lemma domain_normalize_host : normalize_host d = d.
Proof.
  unfold normalize_host. rewrite domain_trim. destruct (before_bracket d) eqn:Hb.
  - exfalso. assert (91%N ∉ d) as Hn by by apply domain_no_char. destruct d as [|c s]; [done|]. unfold before_bracket in Hb.
    rewrite not_elem_of_cons in Hn. destruct Hn as [Hn _]. by repeat (case_match; try done).
  - rewrite filter_none; [apply domain_normalize_dns|]. intros x Hx <-. by apply (domain_no_char colon) in Hx.
Qed.

Lemma domain_starless s : head s = Some 42%N → strip_prefix s d = None.
Proof.
  intros Hs. destruct (strip_prefix s d) eqn:E; [|done]. apply strip_prefix_Some in E. exfalso.
  apply (domain_no_char 42%N); [done|]. rewrite E. destruct s; [done|]. injection Hs as ->. left.
Qed.
End domains.

Definition clean_pattern (p : DomainPattern.t) : Prop := domain_text (pattern_domain p).

Lemma pattern_text_trim p : clean_pattern p → trim (pattern_text p) = pattern_text p.
Proof.
  intros Hp. apply trim_id. assert (Forall (λ c, is_whitespace c = false) (pattern_domain p)) as Hd.
  { eapply Forall_impl; [apply (domain_chars _ Hp)|]. intros c Hc. unfold is_whitespace.
    rewrite !bool_decide_eq_false_2 by domain_char_tac. done. }
  destruct p; simpl; repeat constructor; done.
Qed.

Lemma pattern_text_cons p : clean_pattern p → ∃ c s, pattern_text p = c :: s.
Proof.
  intros Hp. pose proof (domain_nonempty _ Hp) as Hn. destruct p; simpl in *; [by eauto..|].
  destruct domain; [done|by eauto].
Qed.

Lemma pattern_text_not_star p : clean_pattern p → pattern_text p ≠ star.
Proof.
  intros Hp He. destruct p; try discriminate He. simpl in He. subst.
  apply (domain_no_char _ Hp 42%N); [done|]. left.
Qed.

Lemma normalize_pattern_clean p : clean_pattern p → normalize_pattern (pattern_text p) = pattern_text p.
Proof.
  intros Hp. unfold normalize_pattern. rewrite pattern_text_trim, bool_decide_eq_false_2
    by (done || by apply pattern_text_not_star).
  destruct p as [d|d|d]; unfold clean_pattern in Hp; cbn [pattern_domain pattern_text] in *.
  - rewrite strip_prefix_app. by rewrite domain_normalize_host.
  - change (strip_prefix (lit "**.") (lit "*." ++ d)) with (@None str). rewrite strip_prefix_app.
    by rewrite domain_normalize_host.
  - rewrite !domain_starless by done. by apply domain_normalize_host.
Qed.

Lemma parse_clean p : clean_pattern p → DomainPattern.parse (pattern_text p) = p.
Proof.
  intros Hp. unfold DomainPattern.parse. rewrite pattern_text_trim by done.
  destruct (pattern_text_cons p Hp) as (c & s & E). rewrite E. cbn [is_nil]. rewrite <- E. clear c s E.
  assert (∀ build, DomainPattern.parse_domain (pattern_domain p) build = build (pattern_domain p)) as Hb.
  { intros build. unfold DomainPattern.parse_domain. rewrite domain_trim by done.
    pose proof (domain_nonempty _ Hp). by destruct (pattern_domain p). }
  destruct p as [d|d|d]; unfold clean_pattern in Hp; cbn [pattern_domain pattern_text] in *.
  - by rewrite strip_prefix_app, Hb.
  - change (strip_prefix (lit "**.") (lit "*." ++ d)) with (@None str). by rewrite strip_prefix_app, Hb.
  - by rewrite !domain_starless by done.
Qed.

Lemma not_global_wildcard_clean p : clean_pattern p → is_global_wildcard_domain_pattern (pattern_text p) = false.
Proof.
  intros Hp. unfold is_global_wildcard_domain_pattern, expand_domain_pattern.
  rewrite normalize_pattern_clean, parse_clean by done. pose proof (pattern_text_not_star (DomainPattern.Exact (pattern_domain p)) Hp) as Hs.
  destruct p; cbn [existsb pattern_domain pattern_text] in *; by rewrite ?(bool_decide_eq_false_2 _ Hs).
Qed.

(** * One pattern allows another *)

Lemma ends_with_below d c : domain_text c → ends_with c ([dot] ++ d) = true ↔ below d c.
Proof.
  intros Hc. rewrite ends_with_true. unfold below. split; [|naive_solver].
  intros [label ->]. exists label. split; [|done]. intros ->. by apply (domain_head _ Hc).
Qed.

Lemma below_shorter d h : below d h → length d < length h.
Proof. intros (label & Hl & ->). rewrite !length_app. simpl. destruct label; [done|simpl; lia]. Qed.

Lemma below_trans d c h : below d c → below c h → below d h.
Proof. intros (l1 & H1 & ->) (l2 & H2 & ->). exists (l2 ++ [dot] ++ l1). split; [by destruct l2|]. by rewrite <- !app_assoc. Qed.

Lemma is_strict_subdomain_below c d : domain_text c → domain_text d → is_strict_subdomain c d = true ↔ below d c.
Proof.
  intros Hc Hd. unfold is_strict_subdomain. rewrite !domain_normalized by done.
  rewrite andb_true_iff, ends_with_below, negb_true_iff, bool_decide_eq_false by done.
  split; [tauto|]. intros Hb. split; [|done]. intros ->. apply below_shorter in Hb. lia.
Qed.

Lemma is_subdomain_or_equal_below c d :
  domain_text c → domain_text d → is_subdomain_or_equal c d = true ↔ c = d ∨ below d c.
Proof.
  intros Hc Hd. unfold is_subdomain_or_equal. rewrite !domain_normalized by done.
  by rewrite orb_true_iff, ends_with_below, bool_decide_eq_true by done.
Qed.

(** Labels in front of a domain. *)
Definition sub (label c : str) : str := label ++ [dot] ++ c.
Lemma sub_below label c : label ≠ [] → below c (sub label c).
Proof. by exists label. Qed.

Lemma below_sub label c d : domain_text c → dot ∉ label → below d (sub label c) → c = d ∨ below d c.
Proof.
  intros Hc Hdot (l & Hl & E). unfold sub in E. apply app_eq_inv in E as [(k & -> & E)|(k & -> & E)].
  - destruct k as [|x k]; [injection E as ->; by left|]. injection E as <- E. exfalso. apply Hdot.
    rewrite elem_of_app. right. left.
  - destruct k as [|x k]; injection E; [by left|]. intros E' <-. subst c. right.
    destruct k as [|y k]; [by destruct (domain_head _ Hc)|]. by exists (y :: k).
Qed.

Lemma sub_length label c : length (sub label c) = length label + 1 + length c.
Proof. unfold sub. rewrite !length_app. simpl. lia. Qed.

(** Two labels of different length give different hosts: what stands for both
    stands for the domain below them. *)
Lemma both_subs c d :
  domain_text c → (∀ h, below c h → h = d ∨ below d h) → c = d ∨ below d c.
Proof.
  intros Hc Hh. assert (dot ∉ lit "a" ∧ dot ∉ lit "aa") as [Ha Haa] by (split; apply (bool_decide_unpack _); done).
  destruct (Hh (sub (lit "a") c)) as [H1|H1]; [by apply sub_below|..]; [|by apply (below_sub (lit "a"))].
  destruct (Hh (sub (lit "aa") c)) as [H2|H2]; [by apply sub_below|..]; [|by apply (below_sub (lit "aa"))].
  rewrite <- H1 in H2. apply (f_equal length) in H2. rewrite !sub_length in H2. simpl in H2. lia.
Qed.

Lemma allows_included p q h :
  clean_pattern p → clean_pattern q → allows p q = true → stands_for q h → stands_for p h.
Proof.
  destruct p as [d|d|d], q as [c|c|c]; unfold clean_pattern; cbn [pattern_domain allows stands_for]; intros Hd Hc;
    rewrite ?is_subdomain_or_equal_below, ?is_strict_subdomain_below by done; try done.
  - intros [<-|Hb]; [done|]. intros [->|Hh]; right; [done|by eapply below_trans].
  - intros [<-|Hb] Hh; right; [done|by eapply below_trans].
  - by intros Hb ->.
  - intros Hb [->|Hh]; [done|by eapply below_trans].
  - intros [<-|Hb] Hh; [done|by eapply below_trans].
  - by intros Hb ->.
  - unfold domain_eq. rewrite !domain_normalized, bool_decide_eq_true by done. by intros ->.
Qed.

Lemma included_allows p q :
  clean_pattern p → clean_pattern q → (∀ h, stands_for q h → stands_for p h) → allows p q = true.
Proof.
  destruct p as [d|d|d], q as [c|c|c]; unfold clean_pattern; cbn [pattern_domain allows stands_for]; intros Hd Hc Hh;
    rewrite ?is_subdomain_or_equal_below, ?is_strict_subdomain_below by done.
  - apply Hh. by left.
  - by apply both_subs.
  - by apply Hh.
  - apply Hh. by left.
  - apply both_subs; [done|]. intros h Hb. right. by apply Hh.
  - by apply Hh.
  - pose proof (Hh (sub (lit "a") c)) as Ha. rewrite <- (Hh c) in Ha by by left.
    apply (f_equal length) in Ha; [|by right; apply sub_below]. rewrite sub_length in Ha. lia.
  - pose proof (Hh (sub (lit "a") c)) as Ha.
    rewrite <- (Hh (sub (lit "aa") c)) in Ha by by apply sub_below.
    apply (f_equal length) in Ha; [|by apply sub_below]. rewrite !sub_length in Ha. simpl in Ha. lia.
  - unfold domain_eq. rewrite !domain_normalized, bool_decide_eq_true by done. by apply Hh.
Qed.

(** A pattern allows another exactly when every host the other stands for is
    one it stands for itself. *)
Theorem allows_is_inclusion p q :
  clean_pattern p → clean_pattern q →
  allows p q = true ↔ ∀ h, stands_for q h → stands_for p h.
Proof. intros Hp Hq. split; [|by apply included_allows]. intros Ha h. by apply allows_included. Qed.

Lemma allows_is_inclusion_witness :
  allows (DomainPattern.SubdomainsOnly (lit "example.com")) (DomainPattern.ApexAndSubdomains (lit "api.example.com")) = true
  ∧ stands_for (DomainPattern.SubdomainsOnly (lit "example.com")) (lit "v1.api.example.com").
Proof.
  assert (∀ h, stands_for (DomainPattern.ApexAndSubdomains (lit "api.example.com")) h →
    stands_for (DomainPattern.SubdomainsOnly (lit "example.com")) h) as Hi.
  { apply (allows_is_inclusion (DomainPattern.SubdomainsOnly (lit "example.com"))
             (DomainPattern.ApexAndSubdomains (lit "api.example.com"))).
    - constructor; [done|repeat constructor|done|done].
    - constructor; [done|repeat constructor|done|done].
    - vm_compute. reflexivity. }
  split; [by vm_compute|]. apply Hi. right. by exists (lit "v1").
Defined.

(** * Compiled sets of patterns *)

Section compiled.
Context `{HostLibsLaws}.

(** What a candidate glob matches. *)
Definition candidate_hosts (p : DomainPattern.t) (candidate : str) (h : str) : Prop :=
  candidate = pattern_domain p ∧ h = pattern_domain p
  ∨ candidate = lit "?*." ++ pattern_domain p ∧ below (pattern_domain p) h.

Lemma candidate_glob p candidate g h :
  clean_pattern p → candidate ∈ expand_domain_pattern (pattern_text p) → glob_new candidate = Ok g →
  to_ascii_lowercase h = h → glob_match g h = true ↔ candidate_hosts p candidate h.
Proof.
  intros Hp Hin Hg Hh. unfold expand_domain_pattern in Hin. rewrite parse_clean in Hin by done.
  assert (candidate = pattern_domain p ∨ candidate = lit "?*." ++ pattern_domain p) as [->| ->].
  { destruct p; cbn [pattern_domain] in *; set_solver. }
  - rewrite (glob_literal _ _ (domain_plain _ Hp) Hg). unfold eq_ignore_ascii_case, candidate_hosts.
    rewrite Hh, (domain_lower _ Hp), bool_decide_eq_true. split; [by left|]. intros [[_ ?]|[E _]]; [done|].
    exfalso. apply (f_equal length) in E. rewrite length_app in E. simpl in E. lia.
  - rewrite (glob_subdomain _ _ (domain_plain _ Hp) Hg), Hh, (domain_lower _ Hp). unfold candidate_hosts, below.
    split; [by right|]. intros [[E _]|[_ ?]]; [|done].
    exfalso. apply (f_equal length) in E. rewrite length_app in E. simpl in E. lia.
Qed.

Lemma stands_for_candidate p h :
  clean_pattern p →
  stands_for p h ↔ ∃ candidate, candidate ∈ expand_domain_pattern (pattern_text p) ∧ candidate_hosts p candidate h.
Proof.
  intros Hp. unfold expand_domain_pattern, candidate_hosts. rewrite parse_clean by done.
  assert (lit "?*." ++ pattern_domain p ≠ pattern_domain p) as Hn.
  { intros E. apply (f_equal length) in E. rewrite length_app in E. simpl in E. lia. }
  destruct p as [d|d|d]; cbn [stands_for pattern_domain] in *; split.
  - intros [->|Hb]; [exists d|exists (lit "?*." ++ d)]; set_solver.
  - intros (candidate & Hin & Hc). naive_solver.
  - intros Hb. exists (lit "?*." ++ d). set_solver.
  - intros (candidate & Hin & Hc). rewrite list_elem_of_singleton in Hin. subst. naive_solver.
  - intros ->. exists d. set_solver.
  - intros (candidate & Hin & Hc). rewrite list_elem_of_singleton in Hin. subst. naive_solver.
Qed.

(** The candidates seen and the globs built from them go together. *)
Definition built : list str → list Glob → Prop := Forall2 (λ candidate g, glob_new candidate = Ok g).

Lemma add_candidates_built candidates seen globs seen' globs' :
  add_candidates candidates seen globs = Ok (seen', globs') → built seen globs →
  built seen' globs' ∧ ∀ x, x ∈ seen' ↔ x ∈ seen ∨ x ∈ candidates.
Proof.
  revert seen globs. induction candidates as [|c cs IH]; intros seen globs; simpl.
  - intros [= -> ->] Hb. split; [done|]. set_solver.
  - case_bool_decide as Hc; [intros Ha Hb; destruct (IH _ _ Ha Hb) as [? Hx]; split; [done|]; set_solver|].
    destruct (glob_new c) as [g|] eqn:Hg; [|done]. simpl. intros Ha Hb.
    destruct (IH _ _ Ha) as [? Hx]; [by apply Forall2_app; [|repeat constructor]|].
    split; [done|]. set_solver.
Qed.

Lemma add_patterns_built w patterns seen globs seen' globs' :
  add_patterns w patterns seen globs = Ok (seen', globs') → built seen globs →
  built seen' globs' ∧
  ∀ x, x ∈ seen' ↔ x ∈ seen ∨ ∃ p, p ∈ patterns ∧ x ∈ expand_domain_pattern (normalize_pattern p).
Proof.
  revert seen globs. induction patterns as [|p ps IH]; intros seen globs; simpl.
  - intros [= -> ->] Hb. split; [done|]. set_solver.
  - destruct (_ && _); [done|]. destruct (add_candidates _ _ _) as [[seen1 globs1]|] eqn:Hc; [|done].
    intros Ha Hb. destruct (add_candidates_built _ _ _ _ _ Hc Hb) as [Hb1 Hx1].
    destruct (IH _ _ Ha Hb1) as [Hb' Hx]. split; [done|]. intros x. rewrite Hx, Hx1. set_solver.
Qed.

(** What a compiled set matches, one of its patterns matches. *)
Lemma compile_matched ps w m h :
  compile_globset_with_policy ps w = Ok m → m h = true →
  ∃ p candidate g, p ∈ ps ∧ candidate ∈ expand_domain_pattern (normalize_pattern p)
    ∧ glob_new candidate = Ok g ∧ glob_match g h = true.
Proof.
  unfold compile_globset_with_policy. destruct (add_patterns w _ [] []) as [[seen globs]|] eqn:Ha; [|done].
  intros Hm. destruct (add_patterns_built _ _ _ _ _ _ Ha) as [Hb Hx]; [constructor|].
  rewrite (glob_set_any _ _ Hm h), existsb_elem. intros (g & Hg & Hgh). apply list_elem_of_lookup in Hg as [i Hg].
  destruct (Forall2_lookup_r _ _ _ _ _ Hb Hg) as (candidate & Hc & Hnew).
  apply list_elem_of_lookup_2, Hx in Hc as [Hc|(p & Hp & Hc)]; [by apply elem_of_nil in Hc|].
  by exists p, candidate, g.
Qed.

(** A clean pattern matches only hosts it stands for. *)
Lemma clean_candidate_stands p candidate g h :
  clean_pattern p → candidate ∈ expand_domain_pattern (normalize_pattern (pattern_text p)) → glob_new candidate = Ok g →
  to_ascii_lowercase h = h → glob_match g h = true → stands_for p h.
Proof.
  intros Hp Hc Hg Hh Hm. rewrite normalize_pattern_clean in Hc by done.
  apply stands_for_candidate; [done|]. exists candidate. split; [done|]. by apply (candidate_glob p candidate g h).
Qed.

(** The set compiled from clean patterns matches the hosts they stand for. *)
Lemma compile_matches ps w m h :
  compile_globset_with_policy (pattern_text <$> ps) w = Ok m → Forall clean_pattern ps → to_ascii_lowercase h = h →
  m h = true ↔ ∃ p, p ∈ ps ∧ stands_for p h.
Proof.
  unfold compile_globset_with_policy. destruct (add_patterns w _ [] []) as [[seen globs]|] eqn:Ha; [|done].
  intros Hm Hps Hh. rewrite Forall_forall in Hps.
  destruct (add_patterns_built _ _ _ _ _ _ Ha) as [Hb Hx]; [constructor|].
  split.
  - intros Hmh. assert (compile_globset_with_policy (pattern_text <$> ps) w = Ok m) as Hcomp
      by (unfold compile_globset_with_policy; by rewrite Ha).
    destruct (compile_matched _ _ _ _ Hcomp Hmh) as (t & candidate & g & Ht & Hc & Hg & Hgh).
    apply list_elem_of_fmap in Ht as (p & -> & Hp). exists p. split; [done|].
    eapply clean_candidate_stands; eauto.
  - rewrite (glob_set_any _ _ Hm h), existsb_elem. intros (p & Hp & Hs). pose proof (Hps p Hp) as Hclean.
    apply stands_for_candidate in Hs as (candidate & Hc & Hs); [|done].
    assert (candidate ∈ seen) as Hin.
    { apply Hx. right. exists (pattern_text p). rewrite normalize_pattern_clean by done.
      split; [apply list_elem_of_fmap; by exists p|done]. }
    apply list_elem_of_lookup in Hin as [i Hi]. destruct (Forall2_lookup_l _ _ _ _ _ Hb Hi) as (g & Hg & Hnew).
    exists g. split; [by eapply list_elem_of_lookup_2|]. by apply (candidate_glob p candidate g h).
Qed.
End compiled.
