(* ===== verification/NetworkConfig.v ===== *)
(** Configuration of the network proxy ([network-proxy/src/config.rs] and the
    data of [network-proxy/src/mitm_hook.rs]): domain and socket permissions,
    the modes, and the addresses the proxy listens on. URLs are parsed by an
    interface. An [anyhow] error is its chain of messages, outermost first. *)

From stdpp Require pretty.
From S2P Require Import Prelude Text Paths Permissions IpAddr.

Abbreviation anyhow := (list str).

(** * Permissions *)

Inductive NetworkDomainPermission := NoPermission | Allow | Deny.
#[export] Instance NetworkDomainPermission_eq_dec : EqDecision NetworkDomainPermission.
Proof. solve_decision. Defined.

(** The order of the variants. *)
Definition permission_rank (p : NetworkDomainPermission) : nat :=
  match p with NoPermission => 0 | Allow => 1 | Deny => 2 end.

Record NetworkDomainPermissionEntry := mkEntry { pattern : str; permission : NetworkDomainPermission }.
#[export] Instance NetworkDomainPermissionEntry_eq_dec : EqDecision NetworkDomainPermissionEntry.
Proof. solve_decision. Defined.
Abbreviation NetworkDomainPermissions := (list NetworkDomainPermissionEntry).

(** [effective_entries]: the patterns in the order of their first entries, each
    with the strongest permission it is given. *)
Definition note_entry (acc : list str * gmap str NetworkDomainPermission) (e : NetworkDomainPermissionEntry) :
    list str * gmap str NetworkDomainPermission :=
  let '(order, effective) := acc in
  match effective !! pattern e with
  | None => (order ++ [pattern e], <[pattern e := permission e]> effective)
  | Some p =>
      (order, if bool_decide (permission_rank p < permission_rank (permission e))
              then <[pattern e := permission e]> effective else effective)
  end.
Definition effective_entries (entries : NetworkDomainPermissions) : NetworkDomainPermissions :=
  let '(order, effective) := foldl note_entry ([], ∅) entries in
  omap (λ pattern, mkEntry pattern <$> effective !! pattern) order.

Inductive NetworkUnixSocketPermission := AllowSocket | DenySocket.
#[export] Instance NetworkUnixSocketPermission_eq_dec : EqDecision NetworkUnixSocketPermission.
Proof. solve_decision. Defined.

(** A [BTreeMap]: its entries by ascending key. *)
Abbreviation btree A := (list (str * A)).
Fixpoint btree_insert {A} (k : str) (v : A) (m : btree A) : btree A :=
  match m with
  | [] => [(k, v)]
  | (k', v') :: m' =>
      if bool_decide (k = k') then (k, v) :: m'
      else if str_leb k k' then (k, v) :: m else (k', v') :: btree_insert k v m'
  end.

(** [NetworkMode] *)
Inductive NetworkMode := Limited | Full.
#[export] Instance NetworkMode_eq_dec : EqDecision NetworkMode.
Proof. solve_decision. Defined.

Definition allows_method (self : NetworkMode) (method : str) : bool :=
  match self with
  | Full => true
  | Limited => bool_decide (method ∈ [lit "GET"; lit "HEAD"; lit "OPTIONS"])
  end.

(** * Hooks *)

(** A JSON value of the body matcher, which is not supported yet, is its text. *)
Record MitmHookMatchConfig := mkHookMatch {
  methods : list str;
  path_prefixes : list str;
  query : btree (list str);
  headers : btree (list str);
  body : option str
}.
Record InjectedHeaderConfig := mkInjected {
  name : str;
  secret_env_var : option str;
  secret_file : option str;
  prefix : option str
}.
Record MitmHookActionsConfig := mkHookActions {
  strip_request_headers : list str;
  inject_request_headers : list InjectedHeaderConfig
}.
Record MitmHookConfig := mkHook {
  hook_host : str;
  matcher : MitmHookMatchConfig;
  actions : MitmHookActionsConfig
}.
#[export] Instance MitmHookMatchConfig_eq_dec : EqDecision MitmHookMatchConfig.
Proof. solve_decision. Defined.
#[export] Instance InjectedHeaderConfig_eq_dec : EqDecision InjectedHeaderConfig.
Proof. solve_decision. Defined.
#[export] Instance MitmHookActionsConfig_eq_dec : EqDecision MitmHookActionsConfig.
Proof. solve_decision. Defined.
#[export] Instance MitmHookConfig_eq_dec : EqDecision MitmHookConfig.
Proof. solve_decision. Defined.

(** * The configuration *)

Record NetworkProxyConfig := mkConfig {
  enabled : bool;
  proxy_url : str;
  enable_socks5 : bool;
  socks_url : str;
  enable_socks5_udp : bool;
  allow_upstream_proxy : bool;
  dangerously_allow_non_loopback_proxy : bool;
  dangerously_allow_all_unix_sockets : bool;
  mode : NetworkMode;
  domains : option NetworkDomainPermissions;
  unix_sockets : option (btree NetworkUnixSocketPermission);
  allow_local_binding : bool;
  mitm : bool;
  credential_broker : bool;
  dangerously_allow_plaintext_credential_injection : bool;
  mitm_hooks : list MitmHookConfig
}.
#[export] Instance NetworkProxyConfig_eq_dec : EqDecision NetworkProxyConfig.
Proof. solve_decision. Defined.

Definition default_proxy_url : str := lit "http://127.0.0.1:3128".
Definition default_socks_url : str := lit "http://127.0.0.1:8081".
Definition default_config : NetworkProxyConfig :=
  mkConfig false default_proxy_url true default_socks_url true true false false Full None None false false false false [].

Definition set_mode (m : NetworkMode) (c : NetworkProxyConfig) : NetworkProxyConfig :=
  mkConfig (enabled c) (proxy_url c) (enable_socks5 c) (socks_url c) (enable_socks5_udp c) (allow_upstream_proxy c)
    (dangerously_allow_non_loopback_proxy c) (dangerously_allow_all_unix_sockets c) m (domains c) (unix_sockets c)
    (allow_local_binding c) (mitm c) (credential_broker c) (dangerously_allow_plaintext_credential_injection c)
    (mitm_hooks c).
Definition set_domains (d : option NetworkDomainPermissions) (c : NetworkProxyConfig) : NetworkProxyConfig :=
  mkConfig (enabled c) (proxy_url c) (enable_socks5 c) (socks_url c) (enable_socks5_udp c) (allow_upstream_proxy c)
    (dangerously_allow_non_loopback_proxy c) (dangerously_allow_all_unix_sockets c) (mode c) d (unix_sockets c)
    (allow_local_binding c) (mitm c) (credential_broker c) (dangerously_allow_plaintext_credential_injection c)
    (mitm_hooks c).
Definition set_unix_sockets (u : option (btree NetworkUnixSocketPermission)) (c : NetworkProxyConfig) :
    NetworkProxyConfig :=
  mkConfig (enabled c) (proxy_url c) (enable_socks5 c) (socks_url c) (enable_socks5_udp c) (allow_upstream_proxy c)
    (dangerously_allow_non_loopback_proxy c) (dangerously_allow_all_unix_sockets c) (mode c) (domains c) u
    (allow_local_binding c) (mitm c) (credential_broker c) (dangerously_allow_plaintext_credential_injection c)
    (mitm_hooks c).
Definition set_broker (b m : bool) (c : NetworkProxyConfig) : NetworkProxyConfig :=
  mkConfig (enabled c) (proxy_url c) (enable_socks5 c) (socks_url c) (enable_socks5_udp c) (allow_upstream_proxy c)
    (dangerously_allow_non_loopback_proxy c) (dangerously_allow_all_unix_sockets c) (mode c) (domains c)
    (unix_sockets c) (allow_local_binding c) m b (dangerously_allow_plaintext_credential_injection c) (mitm_hooks c).

(** [set_credential_broker_enabled] *)
Definition set_credential_broker_enabled (b : bool) (c : NetworkProxyConfig) : NetworkProxyConfig :=
  set_broker b (mitm c || b) c.

Definition some_if_non_empty {A} (l : list A) : option (list A) := if is_nil l then None else Some l.

(** [domain_entries], [allowed_domains], [denied_domains] *)
Definition domain_entries (c : NetworkProxyConfig) (p : NetworkDomainPermission) : option (list str) :=
  domains ← domains c;
  some_if_non_empty (pattern <$> filter (λ e, permission e = p) (effective_entries domains)).
Definition allowed_domains (c : NetworkProxyConfig) : option (list str) := domain_entries c Allow.
Definition denied_domains (c : NetworkProxyConfig) : option (list str) := domain_entries c Deny.

(** [allow_unix_sockets] *)
Definition allow_unix_sockets (c : NetworkProxyConfig) : list str :=
  match unix_sockets c with
  | Some sockets => (filter (λ e, e.2 = AllowSocket) sockets).*1
  | None => []
  end.

(** [upsert_domain_permission] *)
Definition upsert_domain_permission (host : str) (p : NetworkDomainPermission) (normalize : str → str)
    (c : NetworkProxyConfig) : NetworkProxyConfig :=
  let entries := filter (λ e, normalize (pattern e) ≠ normalize host) (default [] (domains c)) in
  set_domains (some_if_non_empty (entries ++ [mkEntry host p])) c.

(** [set_domain_entries], [set_allowed_domains], [set_denied_domains] *)
Definition push_entry (p : NetworkDomainPermission) (entries : NetworkDomainPermissions) (entry : str) :
    NetworkDomainPermissions :=
  if existsb (λ existing, bool_decide (pattern existing = entry) && bool_decide (permission existing = p)) entries
  then entries else entries ++ [mkEntry entry p].
Definition set_domain_entries (patterns : list str) (p : NetworkDomainPermission) (c : NetworkProxyConfig) :
    NetworkProxyConfig :=
  let entries := filter (λ e, permission e ≠ p) (default [] (domains c)) in
  set_domains (some_if_non_empty (foldl (push_entry p) entries patterns)) c.
Definition set_allowed_domains (patterns : list str) := set_domain_entries patterns Allow.
Definition set_denied_domains (patterns : list str) := set_domain_entries patterns Deny.

(** [set_unix_socket_entries], [set_allow_unix_sockets] *)
Definition set_unix_socket_entries (paths : list str) (p : NetworkUnixSocketPermission) (c : NetworkProxyConfig) :
    NetworkProxyConfig :=
  let entries := filter (λ e, e.2 ≠ p) (default [] (unix_sockets c)) in
  set_unix_sockets (some_if_non_empty (foldl (λ m path, btree_insert path p m) entries paths)) c.
Definition set_allow_unix_sockets (paths : list str) := set_unix_socket_entries paths AllowSocket.

(** * Addresses the proxy listens on *)

Record SocketAddr := mkAddr { addr_ip : IpAddr; addr_port : N }.
#[export] Instance SocketAddr_eq_dec : EqDecision SocketAddr.
Proof. solve_decision. Defined.
Definition localhost (port : N) : SocketAddr := mkAddr (V4 0x7f000001) port.

(** [clamp_non_loopback] and [clamp_bind_addrs]; warnings are left out. *)
Definition clamp_non_loopback (addr : SocketAddr) (allow_non_loopback : bool) : SocketAddr :=
  if is_loopback (addr_ip addr) then addr
  else if allow_non_loopback then addr
  else localhost (addr_port addr).
Definition clamp_bind_addrs (http_addr socks_addr : SocketAddr) (c : NetworkProxyConfig) : SocketAddr * SocketAddr :=
  let http_addr := clamp_non_loopback http_addr (dangerously_allow_non_loopback_proxy c) in
  let socks_addr := clamp_non_loopback socks_addr (dangerously_allow_non_loopback_proxy c) in
  if is_nil (allow_unix_sockets c) && negb (dangerously_allow_all_unix_sockets c) then (http_addr, socks_addr)
  else (localhost (addr_port http_addr), localhost (addr_port socks_addr)).

(** [ValidatedUnixSocketPath::parse] on Unix, where a path that begins with a
    slash is absolute. *)
Definition quoted (s : str) : str := [34%N] ++ s ++ [34%N].
Definition parse_socket_path `{Host} (socket_path : str) : result anyhow AbsolutePathBuf :=
  let path := path_new socket_path in
  if is_absolute path then
    ok_of_option [lit "failed to normalize unix socket path " ++ quoted socket_path] (from_absolute_path path)
  else Err [lit "expected an absolute path, got " ++ quoted socket_path].

(** [validate_unix_socket_allowlist_paths]; an index is written in decimal. *)
Definition decimal (n : nat) : str := lit (pretty.pretty n).
Fixpoint validate_socket_paths `{Host} (index : nat) (paths : list str) : result anyhow () :=
  match paths with
  | [] => Ok ()
  | path :: paths =>
      let? _ := result_map_err (cons (lit "invalid network.allow_unix_sockets[" ++ decimal index ++ lit "]"))
                  (parse_socket_path path) in
      validate_socket_paths (S index) paths
  end.
Definition validate_unix_socket_allowlist_paths `{Host} (c : NetworkProxyConfig) : result anyhow () :=
  validate_socket_paths 0 (allow_unix_sockets c).

(** [url::Url]: the host and the port of a URL, if it is one. *)
Class Urls := { url_parse : str → option (option str * option N) }.

(** [str::parse::<u16>] *)
Fixpoint digits_value (acc : N) (s : str) : option N :=
  match s with
  | [] => Some acc
  | c :: s =>
      d ← to_digit 10 c;
      if bool_decide (65535 < acc * 10 + d)%N then None else digits_value (acc * 10 + d)%N s
  end.
Definition parse_u16 (s : str) : option N :=
  let digits := match s with 43%N :: s => s | _ => s end in
  if is_nil digits then None else digits_value 0 digits.

Record SocketAddressParts := mkParts { part_host : str; part_port : N }.

Definition missing_host (input : str) : anyhow := [lit "missing host in network proxy address: " ++ input].

(** [s.trim_matches(|c| c == '[' || c == ']')] *)
Fixpoint trim_brackets_start (s : str) : str :=
  match s with
  | c :: s' => if bool_decide (c = 91%N) || bool_decide (c = 93%N) then trim_brackets_start s' else s
  | [] => []
  end.
Definition trim_brackets (s : str) : str := reverse (trim_brackets_start (reverse (trim_brackets_start s))).

(** [parse_host_port_fallback] *)
Definition split_scheme (s : str) : str :=
  let fix go s' := match strip_prefix (lit "://") s' with
                   | Some rest => Some rest
                   | None => match s' with [] => None | _ :: s' => go s' end
                   end in
  default s (go s).
Definition parse_host_port_fallback (input : str) (default_port : N) : result anyhow SocketAddressParts :=
  let without_scheme := split_scheme input in
  let host_port := default without_scheme (head (split_on slash without_scheme)) in
  let host_port := match rsplit_once 64 host_port with Some (_, rest) => rest | None => host_port end in
  match (match host_port with 91%N :: rest => split_once 93 rest | _ => None end) with
  | Some (host, after) =>
      let port := default default_port (rest ← strip_prefix [58%N] after; parse_u16 rest) in
      if is_nil host then Err (missing_host input) else Ok (mkParts host port)
  | None =>
      match (if bool_decide (length (filter (eq 58%N) host_port) = 1) then rsplit_once 58 host_port else None) with
      | Some (host, port) =>
          if is_nil host then Err (missing_host input)
          else Ok (mkParts host (default default_port (parse_u16 port)))
      | None =>
          if is_nil host_port then Err (missing_host input) else Ok (mkParts host_port default_port)
      end
  end.

Section addresses.
Context `{Urls}.

(** [parse_host_port] *)
Definition is_ipv6_literal (s : str) : bool :=
  match parse_ip s with Some (V6 _) => true | _ => false end.
Definition parse_host_port (url : str) (default_port : N) : result anyhow SocketAddressParts :=
  let trimmed := trim url in
  if is_nil trimmed then Err (missing_host url)
  else if is_ipv6_literal trimmed && negb (starts_with trimmed [91%N]) then Ok (mkParts trimmed default_port)
  else
    let candidate := if contains trimmed (lit "://") then trimmed else lit "http://" ++ trimmed in
    match url_parse candidate with
    | Some (Some host, port) =>
        let host := trim_brackets host in
        if is_nil host then Err (missing_host url) else Ok (mkParts host (default default_port port))
    | _ => parse_host_port_fallback trimmed default_port
    end.

(** [resolve_addr] *)
Definition resolve_addr (url : str) (default_port : N) : result anyhow SocketAddr :=
  let? parts := parse_host_port url default_port in
  let host := if eq_ignore_ascii_case (part_host parts) (lit "localhost") then lit "127.0.0.1" else part_host parts in
  match parse_ip host with
  | Some ip => Ok (mkAddr ip (part_port parts))
  | None => Ok (localhost (part_port parts))
  end.

(** [resolve_runtime]: the addresses of the HTTP and of the SOCKS proxy. *)
Definition resolve_runtime `{Host} (c : NetworkProxyConfig) : result anyhow (SocketAddr * SocketAddr) :=
  let? _ := validate_unix_socket_allowlist_paths c in
  let? http_addr :=
    result_map_err (cons (lit "invalid network.proxy_url: " ++ proxy_url c)) (resolve_addr (proxy_url c) 3128) in
  let? socks_addr :=
    result_map_err (cons (lit "invalid network.socks_url: " ++ socks_url c)) (resolve_addr (socks_url c) 8081) in
  Ok (clamp_bind_addrs http_addr socks_addr c).

(** [managed_proxy_ports] *)
Definition msg_fixed_port (field : str) : anyhow :=
  [lit "network." ++ field ++ lit " must use a fixed non-zero port for managed proxy provisioning"].
Definition managed_proxy_ports `{Host} (c : NetworkProxyConfig) : result anyhow (list N) :=
  let? (http_addr, socks_addr) := resolve_runtime c in
  if bool_decide (addr_port http_addr = 0%N) then Err (msg_fixed_port (lit "proxy_url"))
  else
    let http := addr_port http_addr in
    let socks := addr_port socks_addr in
    if enable_socks5 c then
      if bool_decide (socks = 0%N) then Err (msg_fixed_port (lit "socks_url"))
      else Ok (if bool_decide (http = socks) then [http]
               else if bool_decide (http < socks)%N then [http; socks] else [socks; http])
    else Ok [http].

(** [format_host_and_port] and [host_and_port_from_network_addr] *)
Definition format_host_and_port (host : str) (port : N) : str :=
  if contains host [58%N] then [91%N] ++ host ++ [93; 58]%N ++ lit (pretty.pretty port)
  else host ++ [58%N] ++ lit (pretty.pretty port).
Definition host_and_port_from_network_addr (value : str) (default_port : N) : str :=
  let trimmed := trim value in
  if is_nil trimmed then lit "<missing>"
  else match parse_host_port trimmed default_port with
       | Ok parts => format_host_and_port (part_host parts) (part_port parts)
       | Err _ => format_host_and_port trimmed default_port
       end.
End addresses.
