(* ===== verification/MitmHooks.v ===== *)
(** Hooks of the intercepting proxy ([network-proxy/src/mitm_hook.rs]): how a
    configuration is validated and compiled, and which hook a request meets.
    Header syntax, globs and form decoding are interfaces; the environment and
    the files secrets are read from are parameters. *)

From S2P Require Import Prelude Text Paths Permissions IpAddr NetworkHosts NetworkConfig.

(** [rama_http::HeaderName] (its lower-case text) and [HeaderValue], [globset]
    with or without the separator as a literal, [url::form_urlencoded]. *)
Class HttpLibs := {
  header_name : str → result str str;
  header_value : str → option str;
  value_glob : bool → str → result str (str → bool);
  form_urlencoded_parse : str → list (str * str)
}.

(** What a hook asks of a request; a header value that is not visible ASCII has
    no text. *)
Record Request := mkRequest {
  req_method : str;
  req_path : str;
  req_query : option str;
  req_headers : list (str * option str)
}.

(** [s.to_ascii_uppercase()] *)
Definition to_ascii_uppercase (s : str) : str :=
  (λ c, if bool_decide (97 ≤ c ≤ 122)%N then (c - 32)%N else c) <$> s.

(** [CompiledGlobMatcher], [PathMatcher], [ValueMatcher] and [MatcherPattern] *)
Record CompiledGlobMatcher := mkGlob { glob_pattern : str; glob_is_match : str → bool }.
Module PathMatcher.
Inductive t := Prefix (p : str) | Glob (g : CompiledGlobMatcher).
Definition matches (self : t) (candidate : str) : bool :=
  match self with Prefix p => starts_with candidate p | Glob g => glob_is_match g candidate end.
End PathMatcher.
Module ValueMatcher.
Inductive t := Exact (v : str) | Glob (g : CompiledGlobMatcher).
Definition matches (self : t) (candidate : str) : bool :=
  match self with Exact v => bool_decide (v = candidate) | Glob g => glob_is_match g candidate end.
End ValueMatcher.
Module MatcherPattern.
Inductive t := Literal (s : str) | Glob (s : str).
End MatcherPattern.

Record QueryConstraint := mkQuery { query_name : str; query_values : list ValueMatcher.t }.
Record HeaderConstraint := mkHeader { constraint_name : str; header_values : list ValueMatcher.t }.
Inductive SecretSource := EnvVar (name : str) | File (path : AbsolutePathBuf).
Record ResolvedInjectedHeader := mkResolved { injected_name : str; injected_value : str; source : SecretSource }.
Record MitmHookActions := mkActions {
  strip_headers : list str;
  inject_headers : list ResolvedInjectedHeader
}.
Record MitmHookMatcher := mkMatcher {
  allowed_methods : list str;
  paths : list PathMatcher.t;
  queries : list QueryConstraint;
  header_constraints : list HeaderConstraint
}.
Record MitmHook := mkMitmHook { host_of_hook : str; matcher_of_hook : MitmHookMatcher; actions_of_hook : MitmHookActions }.
Abbreviation MitmHooksByHost := (btree (list MitmHook)).

Inductive HookEvaluation :=
| NoHooksForHost
| Matched (hook_actions : MitmHookActions)
| HookedHostNoMatch.

(** * Matching *)

(** [query_matches]: the values of each name. *)
Definition query_matches (constraints : list QueryConstraint) (pairs : list (str * str)) : bool :=
  is_nil constraints
  || forallb (λ constraint,
       existsb (λ '(name, candidate),
         bool_decide (name = query_name constraint)
         && existsb (λ allowed, ValueMatcher.matches allowed candidate) (query_values constraint)) pairs) constraints.

(** [headers_match]: the header is there, and if values are listed one of its
    values matches. *)
Definition headers_match (constraints : list HeaderConstraint) (hs : list (str * option str)) : bool :=
  forallb (λ constraint,
    let actual := filter (λ h, h.1 = constraint_name constraint) hs in
    if is_nil actual then false
    else if is_nil (header_values constraint) then true
    else existsb (λ h, match h.2 with
                       | Some candidate => existsb (λ allowed, ValueMatcher.matches allowed candidate)
                                             (header_values constraint)
                       | None => false
                       end) actual) constraints.

(** [path_matches] *)
Definition path_matches (ps : list PathMatcher.t) (path : str) : bool :=
  existsb (λ m, PathMatcher.matches m path) ps.

Definition PATTERN_PREFIX : str := lit "pattern:".
Definition LITERAL_PREFIX : str := lit "literal:".

(** [parse_matcher_pattern] *)
Definition parse_matcher_pattern (p : str) : result anyhow MatcherPattern.t :=
  match strip_prefix LITERAL_PREFIX p with
  | Some literal => Ok (MatcherPattern.Literal literal)
  | None =>
      match strip_prefix PATTERN_PREFIX p with
      | None => Ok (MatcherPattern.Literal p)
      | Some glob => if is_nil glob then Err [lit "glob pattern must not be empty"] else Ok (MatcherPattern.Glob glob)
      end
  end.

(** [normalize_hook_host], [normalize_methods], [normalize_query_name] *)
Definition normalize_hook_host (host : str) : result anyhow str :=
  let normalized := normalize_host host in
  if is_nil normalized then Err [lit "host must not be empty"]
  else if contains normalized star
  then Err [lit "MITM hook hosts must be exact hosts and cannot contain wildcards"]
  else Ok normalized.
Definition normalize_method (method : str) : result anyhow str :=
  let normalized := to_ascii_uppercase (trim method) in
  if is_nil normalized then Err [lit "methods must not contain empty entries"] else Ok normalized.
Definition normalize_methods (ms : list str) : result anyhow (list str) := try_map normalize_method ms.
Definition normalize_query_name (name : str) : result anyhow str :=
  if is_nil name then Err [lit "query keys must not be empty"] else Ok name.

(** [parse_secret_file] *)
Definition parse_secret_file `{Host} (path : str) : result anyhow AbsolutePathBuf :=
  if is_nil (trim path) then Err [lit "secret_file must not be empty"]
  else
    let p := path_new path in
    let message := [lit "secret_file must be an absolute path: " ++ quoted path] in
    if negb (is_absolute p) then Err message else ok_of_option message (from_absolute_path p).

Section hooks.
Context `{HttpLibs, Host}.

(** [hook_matches] *)
Definition hook_matches (hook : MitmHook) (req : Request) : bool :=
  let m := matcher_of_hook hook in
  if negb (bool_decide (to_ascii_uppercase (req_method req) ∈ allowed_methods m)) then false
  else if negb (path_matches (paths m) (req_path req)) then false
  else if negb (query_matches (queries m) (form_urlencoded_parse (default [] (req_query req)))) then false
  else headers_match (header_constraints m) (req_headers req).

Definition btree_get {A} (k : str) (m : btree A) : option A :=
  snd <$> head (filter (λ e, e.1 = k) m).

(** [evaluate_mitm_hooks] *)
Definition evaluate_mitm_hooks (hooks_by_host : MitmHooksByHost) (host : str) (req : Request) : HookEvaluation :=
  match btree_get (normalize_host host) hooks_by_host with
  | None => NoHooksForHost
  | Some hooks =>
      match head (filter (λ hook, hook_matches hook req = true) hooks) with
      | Some hook => Matched (actions_of_hook hook)
      | None => HookedHostNoMatch
      end
  end.

(** [compile_glob_matcher], [compile_path_matchers], [compile_value_matchers],
    [parse_header_name] *)
Definition compile_glob_matcher (p : str) (literal_separator : bool) : result anyhow CompiledGlobMatcher :=
  match value_glob literal_separator p with
  | Ok m => Ok (mkGlob p m)
  | Err e => Err [lit "invalid glob pattern " ++ quoted p ++ lit ": " ++ e]
  end.
Definition compile_path_matcher (p : str) : result anyhow PathMatcher.t :=
  let? parsed := parse_matcher_pattern p in
  match parsed with
  | MatcherPattern.Literal literal =>
      if is_nil literal then Err [lit "path_prefixes must not contain empty entries"]
      else Ok (PathMatcher.Prefix literal)
  | MatcherPattern.Glob glob => result_map PathMatcher.Glob (compile_glob_matcher glob true)
  end.
Definition compile_path_matchers (ps : list str) : result anyhow (list PathMatcher.t) :=
  try_map compile_path_matcher ps.
Definition compile_value_matcher (v : str) : result anyhow ValueMatcher.t :=
  let? parsed := parse_matcher_pattern v in
  match parsed with
  | MatcherPattern.Literal literal => Ok (ValueMatcher.Exact literal)
  | MatcherPattern.Glob glob => result_map ValueMatcher.Glob (compile_glob_matcher glob false)
  end.
Definition compile_value_matchers (vs : list str) : result anyhow (list ValueMatcher.t) :=
  try_map compile_value_matcher vs.
Definition parse_header_name (name : str) : result anyhow str :=
  match header_name name with
  | Ok n => Ok n
  | Err e => Err [lit "invalid header name " ++ quoted name ++ lit ": " ++ e]
  end.

(** [validate_query_constraints], [validate_header_constraints],
    [validate_strip_request_headers], [validate_injected_headers] *)
Definition validate_query (e : str * list str) : result anyhow () :=
  let '(name, values) := e in
  let? normalized := normalize_query_name name in
  if is_nil normalized then Err [lit "query keys must not be empty"]
  else if is_nil values then Err [lit "query key " ++ quoted name ++ lit " must list at least one allowed value"]
  else let? _ := result_map_err (cons (lit "invalid matcher for query key " ++ quoted name)) (compile_value_matchers values) in
       Ok ().
Definition validate_header (e : str * list str) : result anyhow () :=
  let '(name, values) := e in
  let? _ := parse_header_name name in
  let? _ := result_map_err (cons (lit "invalid matcher for header " ++ quoted name)) (compile_value_matchers values) in
  Ok ().
Definition validate_injected_header (h : InjectedHeaderConfig) : result anyhow () :=
  let? _ := parse_header_name (name h) in
  match secret_env_var h, secret_file h with
  | Some env_var, None => if is_nil (trim env_var) then Err [lit "secret_env_var must not be empty"] else Ok ()
  | None, Some file => let? _ := parse_secret_file file in Ok ()
  | _, _ => Err [lit "expected exactly one of secret_env_var or secret_file"]
  end.
Definition validate_all {A} (f : A → result anyhow ()) (l : list A) : result anyhow () :=
  let? _ := try_map f l in Ok ().
Definition validate_query_constraints (q : btree (list str)) := validate_all validate_query q.
Definition validate_header_constraints (hs : btree (list str)) := validate_all validate_header hs.
Definition validate_strip_request_headers (names : list str) := validate_all (λ n, let? _ := parse_header_name n in Ok ()) names.
Definition validate_injected_headers (hs : list InjectedHeaderConfig) := validate_all validate_injected_header hs.

(** [validate_mitm_hook_config] *)
Definition hook_field (index : nat) (field : str) : str :=
  lit "network.mitm_hooks[" ++ decimal index ++ lit "]." ++ field.
Definition in_hook {A} (index : nat) (field : str) (r : result anyhow A) : result anyhow A :=
  result_map_err (cons (lit "invalid " ++ hook_field index field)) r.
Definition validate_hook (index : nat) (hook : MitmHookConfig) : result anyhow () :=
  let m := matcher hook in
  let? host := in_hook index (lit "host") (normalize_hook_host (hook_host hook)) in
  let? ms := in_hook index (lit "match.methods") (normalize_methods (methods m)) in
  if is_nil ms then Err [hook_field index (lit "match.methods must not be empty")]
  else
    let? ps := in_hook index (lit "match.path_prefixes") (compile_path_matchers (path_prefixes m)) in
    if is_nil ps then Err [hook_field index (lit "match.path_prefixes must not be empty")]
    else if bool_decide (is_Some (body m))
    then Err [hook_field index (lit "match.body is reserved for a future release and is not yet supported")]
    else
      let? _ := in_hook index (lit "match.query") (validate_query_constraints (query m)) in
      let? _ := in_hook index (lit "match.headers") (validate_header_constraints (headers m)) in
      let? _ := in_hook index (lit "actions.strip_request_headers")
                  (validate_strip_request_headers (strip_request_headers (actions hook))) in
      let? _ := in_hook index (lit "actions.inject_request_headers")
                  (validate_injected_headers (inject_request_headers (actions hook))) in
      if is_nil host then Err [hook_field index (lit "host must not be empty")] else Ok ().
Fixpoint validate_hooks (index : nat) (hooks : list MitmHookConfig) : result anyhow () :=
  match hooks with
  | [] => Ok ()
  | hook :: hooks => let? _ := validate_hook index hook in validate_hooks (S index) hooks
  end.
Definition validate_mitm_hook_config (c : NetworkProxyConfig) : result anyhow () :=
  if is_nil (mitm_hooks c) then Ok ()
  else if negb (mitm c) then Err [lit "network.mitm_hooks requires network.mitm = true"]
  else validate_hooks 0 (mitm_hooks c).

(** [compile_injected_header] *)
Definition compile_injected_header (resolve_env_var : str → option str)
    (read_secret_file : AbsolutePathBuf → result anyhow str) (h : InjectedHeaderConfig) :
    result anyhow ResolvedInjectedHeader :=
  let? n := parse_header_name (name h) in
  let? (secret, src) :=
    match secret_env_var h, secret_file h with
    | Some env_var, None =>
        let? v := ok_of_option [lit "missing required environment variable " ++ env_var] (resolve_env_var env_var) in
        Ok (v, EnvVar env_var)
    | None, Some file =>
        let? path := parse_secret_file file in
        let? v := read_secret_file path in
        Ok (v, File path)
    | _, _ => Err [lit "expected exactly one of secret_env_var or secret_file"]
    end in
  let? v := ok_of_option [lit "invalid value for injected header " ++ name h]
              (header_value (default [] (prefix h) ++ secret)) in
  Ok (mkResolved n v src).

(** [compile_mitm_hooks_with_resolvers] *)
Definition compile_query (e : str * list str) : result anyhow QueryConstraint :=
  let? n := normalize_query_name e.1 in
  let? vs := compile_value_matchers e.2 in
  Ok (mkQuery n vs).
Definition compile_header (e : str * list str) : result anyhow HeaderConstraint :=
  let? n := parse_header_name e.1 in
  let? vs := compile_value_matchers e.2 in
  Ok (mkHeader n vs).
Definition compile_hook (resolve_env_var : str → option str) (read_secret_file : AbsolutePathBuf → result anyhow str)
    (hook : MitmHookConfig) : result anyhow MitmHook :=
  let m := matcher hook in
  let? host := normalize_hook_host (hook_host hook) in
  let? ms := normalize_methods (methods m) in
  let? ps := compile_path_matchers (path_prefixes m) in
  let? qs := try_map compile_query (query m) in
  let? hs := try_map compile_header (headers m) in
  let? strip := try_map parse_header_name (strip_request_headers (actions hook)) in
  let? inject :=
    try_map (λ h, result_map_err (cons (lit "failed to compile injected header " ++ name h))
                        (compile_injected_header resolve_env_var read_secret_file h))
      (inject_request_headers (actions hook)) in
  Ok (mkMitmHook host (mkMatcher ms ps qs hs) (mkActions strip inject)).
Definition push_hook (m : MitmHooksByHost) (hook : MitmHook) : MitmHooksByHost :=
  let host := host_of_hook hook in
  btree_insert host (default [] (btree_get host m) ++ [hook]) m.
Definition compile_mitm_hooks_with_resolvers (resolve_env_var : str → option str)
    (read_secret_file : AbsolutePathBuf → result anyhow str) (c : NetworkProxyConfig) : result anyhow MitmHooksByHost :=
  let? _ := validate_mitm_hook_config c in
  let? hooks := try_map (compile_hook resolve_env_var read_secret_file) (mitm_hooks c) in
  Ok (foldl push_hook [] hooks).

(** [compile_mitm_hooks]: a secret file is read as text and trimmed. *)
Definition read_secret (path : AbsolutePathBuf) : result anyhow str :=
  result_map trim (ok_of_option [lit "failed to read secret file " ++ path_text path] (read_file path)).
Definition compile_mitm_hooks (env : str → option str) (c : NetworkProxyConfig) : result anyhow MitmHooksByHost :=
  compile_mitm_hooks_with_resolvers env read_secret c.
End hooks.

(** * What the hooks of a request are *)

Lemma btree_get_insert {A} k j (v : A) m :
  btree_get k (btree_insert j v m) = if bool_decide (k = j) then Some v else btree_get k m.
Proof.
  unfold btree_get. induction m as [|[k' v'] m IH]; simpl.
  - rewrite filter_cons. simpl. repeat case_decide; case_bool_decide; simplify_eq; done.
  - destruct (decide (j = k')) as [->|Hj];
      [rewrite (bool_decide_eq_true_2 (k' = k')) by done
      |rewrite (bool_decide_eq_false_2 (j = k')) by done; destruct (str_leb j k')];
      rewrite !filter_cons; cbn [fst].
    + repeat case_decide; case_bool_decide; simplify_eq; done.
    + repeat case_decide; case_bool_decide; simplify_eq; done.
    + destruct (decide (k' = k)) as [->|]; [|exact IH]. rewrite bool_decide_eq_false_2 by congruence. done.
Qed.

Lemma btree_get_push_hooks k m hooks :
  btree_get k (foldl push_hook m hooks) =
    let mine := filter (λ hook, host_of_hook hook = k) hooks in
    if is_nil mine then btree_get k m else Some (default [] (btree_get k m) ++ mine).
Proof.
  revert m. induction hooks as [|hook hooks IH]; intros m; [done|]. cbn [foldl]. rewrite IH. clear IH. cbn zeta.
  unfold push_hook. rewrite btree_get_insert, filter_cons. case_bool_decide as Hk.
  - rewrite decide_True by done. subst. cbn [is_nil default]. destruct (filter _ hooks); simpl; [done|].
    by rewrite <- app_assoc.
  - rewrite decide_False by done. done.
Qed.

(** A hook asks for a method, for a path and for a value of each query name. *)
Record hook_ok (hook : MitmHook) : Prop := mkHookOk {
  asks_method : allowed_methods (matcher_of_hook hook) ≠ [];
  asks_path : paths (matcher_of_hook hook) ≠ [];
  asks_query : Forall (λ q, query_values q ≠ []) (queries (matcher_of_hook hook))
}.

Section evaluation.
Context `{HttpLibs, Host}.

Lemma validate_all_Ok {A} (f : A → result anyhow ()) l u x : validate_all f l = Ok u → x ∈ l → f x = Ok ().
Proof.
  unfold validate_all. destruct (try_map f l) as [us|] eqn:Hc; [|done]. intros _ Hx.
  apply try_map_Forall2 in Hc. apply list_elem_of_lookup in Hx as [i Hx].
  by destruct (Forall2_lookup_l _ _ _ _ _ Hc Hx) as ([] & _ & ?).
Qed.

Lemma validate_hooks_each index hooks hook : validate_hooks index hooks = Ok () → hook ∈ hooks → ∃ i, validate_hook i hook = Ok ().
Proof.
  intros Hv Hin. revert index Hv. induction Hin as [hook hooks|hook hook' hooks _ IH]; intros index; simpl.
  - destruct (validate_hook index hook) as [[]|] eqn:E; [by eauto|done].
  - destruct (validate_hook index hook') as [[]|]; [|done]. apply IH.
Qed.

Lemma compile_hook_ok index env read config hook :
  validate_hook index config = Ok () → compile_hook env read config = Ok hook → hook_ok hook.
Proof.
  unfold validate_hook, compile_hook, in_hook. destruct (normalize_hook_host _); [|done]. simpl.
  destruct (normalize_methods _) as [ms|]; [|done]. simpl. destruct ms as [|m ms]; [done|]. simpl.
  destruct (compile_path_matchers _) as [[|p ps]|]; [done| |done]. simpl. destruct (body _); [done|]. simpl.
  destruct (validate_query_constraints _) as [[]|] eqn:Hq; [|done]. intros _.
  destruct (try_map compile_query _) as [qs|] eqn:Hc; [|done].
  repeat (case_match; try done). intros [= <-]. constructor; simpl; [done|done|].
  apply try_map_Forall2 in Hc. apply Forall_forall. intros q Hin. apply list_elem_of_lookup in Hin as [i Hin].
  destruct (Forall2_lookup_r _ _ _ _ _ Hc Hin) as ([qname values] & Hl & Hf).
  apply list_elem_of_lookup_2 in Hl. apply (validate_all_Ok _ _ _ _ Hq) in Hl. simpl in Hl.
  destruct (normalize_query_name qname); [|done]. simpl in Hl.
  unfold compile_query in Hf. simpl in Hf. destruct (normalize_query_name qname); [|done].
  destruct (compile_value_matchers values) as [vs|] eqn:Hv; [|done]. injection Hf as <-. simpl.
  apply try_map_Forall2, Forall2_length in Hv. intros ->. destruct values; [|done].
  by destruct (is_nil _).
Qed.

(** When a configuration compiles, a request is judged by its hooks one by
    one in the order they are written: a host without hooks passes, else the
    first hook of the host that matches gives the actions, else the request is
    refused; and every hook asks for a method, a path and a value of each of its
    query names. *)
Theorem hooks_are_tried_in_order env read c m :
  compile_mitm_hooks_with_resolvers env read c = Ok m →
  ∃ hooks, Forall2 (λ config hook, compile_hook env read config = Ok hook) (mitm_hooks c) hooks
    ∧ Forall hook_ok hooks
    ∧ ∀ host req,
        evaluate_mitm_hooks m host req =
          let mine := filter (λ hook, host_of_hook hook = normalize_host host) hooks in
          if is_nil mine then NoHooksForHost
          else match head (filter (λ hook, hook_matches hook req = true) mine) with
               | Some hook => Matched (actions_of_hook hook)
               | None => HookedHostNoMatch
               end.
Proof.
  unfold compile_mitm_hooks_with_resolvers. destruct (validate_mitm_hook_config c) as [[]|] eqn:Hv; [|done].
  destruct (try_map _ _) as [hooks|] eqn:Hc; [|done]. intros [= <-]. apply try_map_Forall2 in Hc.
  exists hooks. split_and!; [done| |].
  - apply Forall_forall. intros hook Hin. apply list_elem_of_lookup in Hin as [i Hin].
    destruct (Forall2_lookup_r _ _ _ _ _ Hc Hin) as (config & Hl & Hf). apply list_elem_of_lookup_2 in Hl.
    unfold validate_mitm_hook_config in Hv. destruct (mitm_hooks c) as [|h hs]; [by apply elem_of_nil in Hl|].
    simpl is_nil in Hv. destruct (mitm c); [|done]. destruct (validate_hooks_each _ _ _ Hv Hl) as [j Hj].
    by eapply compile_hook_ok.
  - intros host req. unfold evaluate_mitm_hooks. rewrite btree_get_push_hooks. cbn zeta.
    by destruct (filter (λ hook, host_of_hook hook = _) hooks).
Qed.
End evaluation.

Module HookDemo.
#[export] Instance libs : HttpLibs := {
  header_name n := if is_nil n then Err (lit "invalid HTTP header name") else Ok (to_ascii_lowercase n);
  header_value v := Some v;
  value_glob _ p := Ok (λ s, bool_decide (s = p));
  form_urlencoded_parse s := []
}.
#[export] Instance host : Host := {
  home_dir := None; current_dir := None; tmpdir_var := None; is_dir _ := false; is_file _ := false;
  path_exists _ := false; read_file _ := None; symlink_metadata _ := None; canonicalize _ := None
}.
Definition hook (host method path token : string) : MitmHookConfig :=
  mkHook (lit host) (mkHookMatch [lit method] [lit path] [] [] None)
    (mkHookActions [lit "Authorization"] [mkInjected (lit "Authorization") (Some (lit token)) None (Some (lit "Bearer "))]).
Definition config : NetworkProxyConfig :=
  mkConfig true [] false [] false false false false Limited None None false true false false
    [hook "api.example.com" "post" "/v1/" "ADMIN"; hook "API.example.com:443" "get" "/" "READER"].
Definition env (n : str) : option str := Some (to_ascii_lowercase n).
End HookDemo.
#[local] Existing Instances HookDemo.libs HookDemo.host.

Lemma hooks_are_tried_in_order_witness :
  match compile_mitm_hooks HookDemo.env HookDemo.config with
  | Ok m =>
      evaluate_mitm_hooks m (lit "api.example.com") (mkRequest (lit "GET") (lit "/v1/x") None [])
      = Matched (mkActions [lit "authorization"]
                   [mkResolved (lit "authorization") (lit "Bearer reader") (EnvVar (lit "READER"))])
      ∧ evaluate_mitm_hooks m (lit "api.example.com") (mkRequest (lit "PUT") (lit "/v1/x") None []) = HookedHostNoMatch
  | Err _ => False
  end.
Proof.
  destruct (compile_mitm_hooks HookDemo.env HookDemo.config) as [m|] eqn:Hm; [|by vm_compute in Hm].
  destruct (hooks_are_tried_in_order _ _ _ _ Hm) as (hooks & Hf & _ & He).
  apply try_map_Forall2 in Hf. vm_compute in Hf. injection Hf as <-. rewrite !He. by vm_compute.
Defined.
