(* ===== verification/NetworkState.v ===== *)
(** The state of the network proxy: the constraints a managed configuration
    puts on it ([network-proxy/src/state.rs]), its decisions about hosts,
    sockets and connections, and the operations that change it
    ([network-proxy/src/runtime.rs], [network-proxy/src/connect_policy.rs],
    [network-proxy/src/network_policy.rs]). The resolver, the certificate
    authority and the environment are interfaces. *)

From S2P Require Import Prelude Text Machine Paths IpAddr NetworkHosts NetworkConfig MitmHooks.

(** * Constraints *)

Module NetworkProxyConstraints.
Record t := mk {
  enabled : option bool;
  mode : option NetworkMode;
  allow_upstream_proxy : option bool;
  dangerously_allow_non_loopback_proxy : option bool;
  dangerously_allow_all_unix_sockets : option bool;
  allowed_domains : option (list str);
  allowlist_expansion_enabled : option bool;
  denied_domains : option (list str);
  denylist_expansion_enabled : option bool;
  allow_unix_sockets : option (list str);
  allow_local_binding : option bool
}.
#[export] Instance eq_dec : EqDecision t.
Proof. solve_decision. Defined.
Definition none : t := mk None None None None None None None None None None None.
End NetworkProxyConstraints.
Abbreviation Constraints := NetworkProxyConstraints.t.

(** [NetworkProxyConstraintError].  What the source prints with [{:?}] is kept as
    the list that is printed; the order in which it lists a [HashSet] is not
    specified, here it is that of the managed list. *)
Inductive shown := Text (s : str) | Debug (l : list str).
Inductive NetworkProxyConstraintError := InvalidValue (field_name : str) (candidate allowed : shown).
(** The message is cut after the name of the field. *)
Definition into_anyhow (e : NetworkProxyConstraintError) : anyhow :=
  match e with InvalidValue field _ _ => [lit "invalid value for " ++ field] end.

(** [network_mode_rank] *)
Definition network_mode_rank (m : NetworkMode) : nat := match m with Limited => 0 | Full => 1 end.

(** [validate_non_global_wildcard_domain_patterns] *)
Definition validate_non_global_wildcard_domain_patterns (field : str) (patterns : list str) :
    result NetworkProxyConstraintError () :=
  match head (filter (λ p, is_global_wildcard_domain_pattern p = true) patterns) with
  | Some p => Err (InvalidValue field (Text (trim p))
                     (Text (lit "exact hosts or scoped wildcards like *.example.com or **.example.com")))
  | None => Ok ()
  end.

Definition reject_if (b : bool) (field : str) (candidate allowed : shown) : result NetworkProxyConstraintError () :=
  if b then Err (InvalidValue field candidate allowed) else Ok ().

Definition same_set (l k : list str) : bool :=
  forallb (λ x, bool_decide (x ∈ k)) l && forallb (λ x, bool_decide (x ∈ l)) k.

(** A flag may be set only where the constraint does not forbid it. *)
Definition validate_flag (field : str) (candidate : bool) (max : option bool) : result NetworkProxyConstraintError () :=
  reject_if (candidate && negb (default true max)) field (Text (lit "true"))
    (Text (lit "false (disabled by managed config)")).

Section validation.
Context `{HostLibs, HttpLibs, Host}.

(** The parts of [validate_policy_against_constraints] for domains and sockets. *)
Definition validate_allowed_domains (c : NetworkProxyConfig) (k : Constraints) : result NetworkProxyConstraintError () :=
  let field := lit "network.allowed_domains" in
  let candidate := default [] (allowed_domains c) in
  let overrides := to_ascii_lowercase <$> default [] (denied_domains c) in
  match NetworkProxyConstraints.allowed_domains k with
  | None => Ok ()
  | Some managed =>
      let? _ := validate_non_global_wildcard_domain_patterns field managed in
      let required := to_ascii_lowercase <$> managed in
      let given := to_ascii_lowercase <$> candidate in
      match NetworkProxyConstraints.allowlist_expansion_enabled k with
      | Some true =>
          let missing := filter (λ entry, entry ∉ given ∧ entry ∉ overrides) required in
          reject_if (negb (is_nil missing)) field (Text (lit "missing managed allowed_domains entries")) (Debug missing)
      | Some false =>
          reject_if (negb (same_set given (filter (λ entry, entry ∉ overrides) required))) field (Debug candidate)
            (Text (lit "must match managed allowed_domains"))
      | None =>
          let managed_patterns := parse_for_constraints <$> managed in
          let invalid := filter (λ entry,
            existsb (λ m, allows m (parse_for_constraints entry)) managed_patterns = false) candidate in
          reject_if (negb (is_nil invalid)) field (Debug invalid) (Text (lit "subset of managed allowed_domains"))
      end
  end.

Definition validate_denied_domains (c : NetworkProxyConfig) (k : Constraints) : result NetworkProxyConstraintError () :=
  let field := lit "network.denied_domains" in
  let candidate := default [] (denied_domains c) in
  match NetworkProxyConstraints.denied_domains k with
  | None => Ok ()
  | Some managed =>
      let? _ := validate_non_global_wildcard_domain_patterns field managed in
      let required := to_ascii_lowercase <$> managed in
      let given := to_ascii_lowercase <$> candidate in
      match NetworkProxyConstraints.denylist_expansion_enabled k with
      | Some false =>
          reject_if (negb (same_set given required)) field (Debug candidate)
            (Text (lit "must match managed denied_domains"))
      | Some true | None =>
          let missing := filter (λ entry, entry ∉ given) required in
          reject_if (negb (is_nil missing)) field (Text (lit "missing managed denied_domains entries")) (Debug missing)
      end
  end.

Definition validate_unix_sockets (c : NetworkProxyConfig) (k : Constraints) : result NetworkProxyConstraintError () :=
  match NetworkProxyConstraints.allow_unix_sockets k with
  | None => Ok ()
  | Some managed =>
      let invalid := filter (λ entry, to_ascii_lowercase entry ∉ to_ascii_lowercase <$> managed) (allow_unix_sockets c) in
      reject_if (negb (is_nil invalid)) (lit "network.allow_unix_sockets") (Debug invalid)
        (Text (lit "subset of managed allow_unix_sockets"))
  end.

Definition mode_name (m : NetworkMode) : str := match m with Limited => lit "Limited" | Full => lit "Full" end.
Definition validate_mode (m : NetworkMode) (k : Constraints) : result NetworkProxyConstraintError () :=
  match NetworkProxyConstraints.mode k with
  | Some max_mode =>
      reject_if (bool_decide (network_mode_rank max_mode < network_mode_rank m)) (lit "network.mode")
        (Text (mode_name m)) (Text (mode_name max_mode ++ lit " or more restrictive"))
  | None => Ok ()
  end.

(** [validate_policy_against_constraints] *)
Definition validate_policy_against_constraints (c : NetworkProxyConfig) (k : Constraints) :
    result NetworkProxyConstraintError () :=
  let? _ := result_map_err (λ e, InvalidValue (lit "network.mitm_hooks") (Text (concat (take 1 e)))
                             (Text (lit "valid MITM hook configuration"))) (validate_mitm_hook_config c) in
  let? _ := validate_non_global_wildcard_domain_patterns (lit "network.denied_domains") (default [] (denied_domains c)) in
  let? _ := validate_flag (lit "network.enabled") (enabled c) (NetworkProxyConstraints.enabled k) in
  let? _ := validate_mode (mode c) k in
  let? _ := validate_flag (lit "network.allow_upstream_proxy") (allow_upstream_proxy c)
              (NetworkProxyConstraints.allow_upstream_proxy k) in
  let? _ := validate_flag (lit "network.dangerously_allow_non_loopback_proxy") (dangerously_allow_non_loopback_proxy c)
              (NetworkProxyConstraints.dangerously_allow_non_loopback_proxy k) in
  let? _ := validate_flag (lit "network.dangerously_allow_all_unix_sockets") (dangerously_allow_all_unix_sockets c)
              (Some (default (bool_decide (NetworkProxyConstraints.allow_unix_sockets k = None))
                       (NetworkProxyConstraints.dangerously_allow_all_unix_sockets k))) in
  let? _ := validate_flag (lit "network.allow_local_binding") (allow_local_binding c)
              (NetworkProxyConstraints.allow_local_binding k) in
  let? _ := validate_allowed_domains c k in
  let? _ := validate_denied_domains c k in
  validate_unix_sockets c k.
End validation.

(** * State *)

(** [BlockedRequest] *)
Record BlockedRequest := mkBlocked {
  blocked_host : str;
  blocked_reason : str;
  client : option str;
  method : option str;
  blocked_mode : option NetworkMode;
  protocol : str;
  execution_id : option str;
  decision : option str;
  source : option str;
  port : option N;
  timestamp : Z
}.

(** [ConfigState]: a compiled set is the test it performs; of the interception
    state only whether there is one. *)
Record ConfigState := mkState {
  config : NetworkProxyConfig;
  allow_set : str → bool;
  deny_set : str → bool;
  mitm_state : bool;
  hooks : MitmHooksByHost;
  constraints : Constraints;
  blocked : list BlockedRequest;
  blocked_total : N
}.

Definition set_config (c : NetworkProxyConfig) (s : ConfigState) : ConfigState :=
  mkState c (allow_set s) (deny_set s) (mitm_state s) (hooks s) (constraints s) (blocked s) (blocked_total s).
Definition set_blocked (b : list BlockedRequest) (s : ConfigState) : ConfigState :=
  mkState (config s) (allow_set s) (deny_set s) (mitm_state s) (hooks s) (constraints s) b (blocked_total s).
Definition set_total (n : N) (s : ConfigState) : ConfigState :=
  mkState (config s) (allow_set s) (deny_set s) (mitm_state s) (hooks s) (constraints s) (blocked s) n.

Definition MAX_BLOCKED_EVENTS : nat := 200.
Definition u64_max : N := 2 ^ 64 - 1.

(** What the host answers: variables of the environment, whether the
    certificate authority can be set up, and the addresses of a name ([None]
    when the lookup fails or times out). *)
Class ProxyEnv := {
  env_var : str → option str;
  new_mitm_state : bool → result anyhow ();
  lookup_host : str → N → option (list IpAddr)
}.

Inductive HostBlockReason := Denied | NotAllowed | NotAllowedLocal.
Inductive HostBlockDecision := Allowed | Blocked (reason : HostBlockReason).
#[export] Instance HostBlockReason_eq_dec : EqDecision HostBlockReason.
Proof. solve_decision. Defined.
#[export] Instance HostBlockDecision_eq_dec : EqDecision HostBlockDecision.
Proof. solve_decision. Defined.

Definition reason_str (r : HostBlockReason) : str :=
  match r with Denied => lit "denied" | NotAllowed => lit "not_allowed" | NotAllowedLocal => lit "not_allowed_local" end.

(** [DomainListKind] *)
Inductive DomainListKind := AllowList | DenyList.
Definition list_name (k : DomainListKind) : str :=
  match k with AllowList => lit "allowlist" | DenyList => lit "denylist" end.
Definition constraint_field (k : DomainListKind) : str :=
  match k with AllowList => lit "network.allowed_domains" | DenyList => lit "network.denied_domains" end.
Definition permission_of (k : DomainListKind) : NetworkDomainPermission :=
  match k with AllowList => Allow | DenyList => Deny end.
Definition entries_of (k : DomainListKind) (c : NetworkProxyConfig) : list str :=
  match k with AllowList => default [] (allowed_domains c) | DenyList => default [] (denied_domains c) end.
Definition opposite_entries (k : DomainListKind) (c : NetworkProxyConfig) : list str :=
  match k with AllowList => default [] (denied_domains c) | DenyList => default [] (allowed_domains c) end.

(** * Decisions *)

(** [globset_matches_host_or_unscoped] *)
Definition globset_matches_host_or_unscoped (set : str → bool) (host : str) : bool :=
  set host || is_some_and set (unscoped_ip_literal host).

(** [is_explicit_local_allowlisted] *)
Definition is_wildcard_pattern (p : str) : bool :=
  bool_decide (p = star) || starts_with p (lit "*.") || starts_with p (lit "**.")
  || contains p (lit "*") || contains p (lit "?").
Definition is_explicit_local_allowlisted (allowed : list str) (host : str) : bool :=
  existsb (λ p,
    let p := trim p in
    if is_wildcard_pattern p then false
    else bool_decide (normalize_host p = host)
         || is_some_and (λ ip, bool_decide (normalize_host p = ip)) (unscoped_ip_literal host)) allowed.

Definition local_literal (host : str) : bool :=
  if is_loopback_host host then true
  else match parse_ip (default host (unscoped_ip_literal host)) with
       | Some ip => is_non_public_ip ip
       | None => false
       end.

Section runtime.
Context `{HostLibs, HttpLibs, Host, ProxyEnv}.

(** [host_resolves_to_non_public_ip] *)
Definition host_resolves_to_non_public_ip (host : str) (port : N) : bool :=
  match parse_ip host with
  | Some ip => is_non_public_ip ip
  | None => match lookup_host host port with Some addrs => existsb is_non_public_ip addrs | None => true end
  end.

(** [host_blocked], once the configuration is loaded *)
Definition host_blocked (s : ConfigState) (host : str) (port : N) : HostBlockDecision :=
  match host_parse host with
  | Err _ => Blocked NotAllowed
  | Ok host =>
      let allowed := allowed_domains (config s) in
      if globset_matches_host_or_unscoped (deny_set s) host then Blocked Denied
      else
        let is_allowlisted := globset_matches_host_or_unscoped (allow_set s) host in
        let blocked_local :=
          if allow_local_binding (config s) then false
          else if local_literal host then negb (is_explicit_local_allowlisted (default [] allowed) host)
          else host_resolves_to_non_public_ip host port in
        if blocked_local then Blocked NotAllowedLocal
        else if bool_decide (allowed = None) || negb is_allowlisted then Blocked NotAllowed
        else Allowed
  end.

(** [is_unix_socket_allowed]; sockets are supported on macOS. *)
Definition is_unix_socket_allowed (supported : bool) (s : ConfigState) (path : str) : bool :=
  if negb supported then false
  else
    let requested := path_new path in
    if negb (is_absolute requested) then false
    else if dangerously_allow_all_unix_sockets (config s) then true
    else match from_absolute_path requested with
         | None => false
         | Some requested_abs =>
             existsb (λ allowed,
               match parse_socket_path allowed with
               | Err _ => false
               | Ok allowed_path =>
                   bool_decide (allowed_path = requested_abs)
                   || match canonicalize requested_abs, canonicalize allowed_path with
                      | Some r, Some a => bool_decide (a = r)
                      | _, _ => false
                      end
               end) (allow_unix_sockets (config s))
         end.

(** [method_allowed] *)
Definition method_allowed (s : ConfigState) (method : str) : bool := allows_method (mode (config s)) method.

(** [NetworkDecision] and [evaluate_host_policy]: the decider is asked about hosts
    that are not listed, and only about those. *)
Inductive NetworkPolicyDecision := DenyIt | Ask.
Inductive NetworkDecisionSource := BaselinePolicy | ModeGuard | ProxyState | Decider.
Inductive NetworkDecision :=
| AllowIt
| DenyWith (reason : str) (source : NetworkDecisionSource) (decision : NetworkPolicyDecision).

Definition REASON_POLICY_DENIED : str := lit "policy_denied".
Definition deny_with_source (reason : str) (source : NetworkDecisionSource) : NetworkDecision :=
  DenyWith (if is_nil reason then REASON_POLICY_DENIED else reason) source DenyIt.
Definition map_decider_decision (d : NetworkDecision) : NetworkDecision :=
  match d with AllowIt => AllowIt | DenyWith reason _ decision => DenyWith reason Decider decision end.
Definition evaluate_host_policy (s : ConfigState) (decider : option (str → N → NetworkDecision)) (host : str) (port : N) :
    NetworkDecision :=
  match host_blocked s host port with
  | Allowed => AllowIt
  | Blocked NotAllowed =>
      match decider with
      | Some decide => map_decider_decision (decide host port)
      | None => deny_with_source (reason_str NotAllowed) BaselinePolicy
      end
  | Blocked reason => deny_with_source (reason_str reason) BaselinePolicy
  end.

(** [rama_net::address::Host] *)
Inductive Target := Address (ip : IpAddr) | Name (domain : str).

(** [target_matches_non_public_addr] and the check of [connect] before it opens
    a connection to [addr] *)
Definition is_localhost_name (name : str) : bool :=
  eq_ignore_ascii_case (trim_end_matches dot name) (lit "localhost").
Definition is_non_public_target (t : Target) : bool :=
  match t with Address ip => is_non_public_ip ip | Name name => is_localhost_name name end.
Definition target_matches_non_public_addr (t : Target) (addr : IpAddr) : bool :=
  match t with
  | Address ip => bool_decide (ip = addr)
  | Name name => is_localhost_name name && is_loopback addr
  end.
Definition allows_non_public_target (to_text : Target → str) (s : ConfigState) (t : Target) (port : N) (addr : IpAddr) :
    bool :=
  if allow_local_binding (config s) then true
  else if negb (target_matches_non_public_addr t addr) then false
  else bool_decide (host_blocked s (to_text t) port = Allowed).
Definition connect_allowed (to_text : Target → str) (s : ConfigState) (t : Target) (port : N) (addr : IpAddr) : bool :=
  negb (is_non_public_ip addr && negb (allows_non_public_target to_text s t port addr)).

(** * Operations *)

(** [build_config_state] *)
Definition build_config_state (c : NetworkProxyConfig) (k : Constraints) : result anyhow ConfigState :=
  let? _ := validate_unix_socket_allowlist_paths c in
  if credential_broker c && negb (mitm c) then Err [lit "network.credential_broker requires network.mitm = true"]
  else
    let allowed := default [] (allowed_domains c) in
    let denied := default [] (denied_domains c) in
    let? _ := result_map_err into_anyhow
                (validate_non_global_wildcard_domain_patterns (lit "network.denied_domains") denied) in
    let? deny_set := result_map_err (λ e, [e]) (compile_denylist_globset denied) in
    let? allow_set := result_map_err (λ e, [e]) (compile_allowlist_globset allowed) in
    let? hooks := compile_mitm_hooks env_var c in
    let? _ := if mitm c then new_mitm_state (allow_upstream_proxy c) else Ok () in
    Ok (mkState c allow_set deny_set (mitm c) hooks k [] 0).

(** The critical section of [record_blocked]. *)
Definition record (entry : BlockedRequest) (s : ConfigState) : ConfigState :=
  let b := blocked s ++ [entry] in
  set_total (N.min (blocked_total s + 1) u64_max) (set_blocked (drop (length b - MAX_BLOCKED_EVENTS) b) s).

(** [drain_blocked] *)
Definition drain_blocked (s : ConfigState) : ConfigState * list BlockedRequest := (set_blocked [] s, blocked s).

(** What [update_domain_list] computes from a snapshot: nothing to do, or the
    candidate state. *)
Definition update_candidate (host : str) (target : DomainListKind) (previous : NetworkProxyConfig) (k : Constraints)
    (b : list BlockedRequest) (total : N) : result anyhow (option ConfigState) :=
  let target_contains := existsb (λ e, bool_decide (normalize_host e = host)) (entries_of target previous) in
  let opposite_contains := existsb (λ e, bool_decide (normalize_host e = host)) (opposite_entries target previous) in
  if target_contains && negb opposite_contains then Ok None
  else
    let candidate := upsert_domain_permission host (permission_of target) normalize_host previous in
    let? _ := result_map_err (λ e, (constraint_field target ++ lit " constrained by managed config") :: into_anyhow e)
                (validate_policy_against_constraints candidate k) in
    let? s := result_map_err (cons (lit "failed to compile updated network " ++ list_name target))
                (build_config_state candidate k) in
    Ok (Some (set_total total (set_blocked b s))).
End runtime.
