(* ===== verification/NetworkRuntime.v ===== *)
(** The operations of the network proxy running at once
    ([NetworkProxyState] of [network-proxy/src/runtime.rs]). The state is behind
    a read-write lock that is released between a snapshot and the change made
    from it, so an operation is a thread whose steps between two holds of the
    lock interleave with those of the others. *)

From S2P Require Import Prelude Text Machine Paths IpAddr NetworkHosts NetworkConfig MitmHooks NetworkState.
From S2P Require Import NetworkHostsSpec.

(** The public operations; reading ones only load the configuration. *)
Inductive Op :=
| SetNetworkMode (m : NetworkMode)
| UpdateDomainList (host : str) (target : DomainListKind)
| RecordBlocked (entry : BlockedRequest)
| DrainBlocked
| ReadState
| ReplaceConfigState (new_state : ConfigState)
| ForceReload.

(** Where an operation is: before [reload_if_needed], between its read and its
    write, behind it, or holding a snapshot. *)
Inductive Thread :=
| Start (op : Op)
| Reloading (op : Op) (new_state : ConfigState) (snap_blocked : list BlockedRequest) (snap_total : N)
| Loaded (op : Op)
| ModeReady (m : NetworkMode) (snap_constraints : Constraints)
| UpdateReady (host : str) (target : DomainListKind) (previous : NetworkProxyConfig) (snap_constraints : Constraints)
    (candidate : ConfigState)
| Done (outcome : result anyhow ()).

Record System := mkSystem { shared : ConfigState; threads : gmap nat Thread }.
Definition move (t : nat) (th : Thread) (sys : System) : System := mkSystem (shared sys) (<[t := th]> (threads sys)).
Definition write (t : nat) (th : Thread) (s : ConfigState) (sys : System) : System :=
  mkSystem s (<[t := th]> (threads sys)).

Section steps.
Context `{HostLibs, HttpLibs, Host, ProxyEnv}.

(** The states that are loaded from files or given by the caller, and whether the
    credential broker runs. *)
Context (reloads : ConfigState → Prop) (broker : bool).

(** [ensure_credential_broker_enablement_unchanged] *)
Definition same_broker (n : ConfigState) : Prop := credential_broker (config n) = broker.
Definition msg_mode_constrained : str := lit "network.mode constrained by managed config".

Inductive step (sys : System) : System → Prop :=
| call t op : threads sys !! t = None → step sys (move t (Start op) sys)
(** [reload_if_needed] *)
| reload_none t op : threads sys !! t = Some (Start op) → op ≠ ForceReload → step sys (move t (Loaded op) sys)
| reload_failed t op e : threads sys !! t = Some (Start op) → step sys (move t (Done (Err e)) sys)
| reload_read t op n :
    threads sys !! t = Some (Start op) → op ≠ ForceReload → reloads n → same_broker n →
    step sys (move t (Reloading op n (blocked (shared sys)) (blocked_total (shared sys))) sys)
| reload_write t op n b total :
    threads sys !! t = Some (Reloading op n b total) →
    step sys (write t (Loaded op) (set_total total (set_blocked b n)) sys)
(** [force_reload] keeps the blocked requests, and takes the total of the new state *)
| force_reload t n :
    threads sys !! t = Some (Start ForceReload) → reloads n → same_broker n →
    step sys (write t (Done (Ok ())) (set_blocked (blocked (shared sys)) n) sys)
(** [replace_config_state] *)
| replace_config_state t n :
    threads sys !! t = Some (Loaded (ReplaceConfigState n)) → reloads n → same_broker n →
    step sys (write t (Done (Ok ()))
                (set_total (blocked_total (shared sys)) (set_blocked (blocked (shared sys)) n)) sys)
(** [set_network_mode] *)
| mode_snapshot t m :
    threads sys !! t = Some (Loaded (SetNetworkMode m)) →
    validate_policy_against_constraints (set_mode m (config (shared sys))) (constraints (shared sys)) = Ok () →
    step sys (move t (ModeReady m (constraints (shared sys))) sys)
| mode_rejected t m e :
    threads sys !! t = Some (Loaded (SetNetworkMode m)) →
    validate_policy_against_constraints (set_mode m (config (shared sys))) (constraints (shared sys)) = Err e →
    step sys (move t (Done (Err (msg_mode_constrained :: into_anyhow e))) sys)
| mode_commit t m :
    threads sys !! t = Some (ModeReady m (constraints (shared sys))) →
    step sys (write t (Done (Ok ())) (set_config (set_mode m (config (shared sys))) (shared sys)) sys)
| mode_retry t m k :
    threads sys !! t = Some (ModeReady m k) → k ≠ constraints (shared sys) →
    step sys (move t (Start (SetNetworkMode m)) sys)
(** [update_domain_list], of a host that is already parsed *)
| update_snapshot t host target candidate :
    threads sys !! t = Some (Loaded (UpdateDomainList host target)) →
    update_candidate host target (config (shared sys)) (constraints (shared sys)) (blocked (shared sys))
      (blocked_total (shared sys)) = Ok (Some candidate) →
    step sys (move t (UpdateReady host target (config (shared sys)) (constraints (shared sys)) candidate) sys)
| update_nothing t host target :
    threads sys !! t = Some (Loaded (UpdateDomainList host target)) →
    update_candidate host target (config (shared sys)) (constraints (shared sys)) (blocked (shared sys))
      (blocked_total (shared sys)) = Ok None →
    step sys (move t (Done (Ok ())) sys)
| update_rejected t host target e :
    threads sys !! t = Some (Loaded (UpdateDomainList host target)) →
    update_candidate host target (config (shared sys)) (constraints (shared sys)) (blocked (shared sys))
      (blocked_total (shared sys)) = Err e →
    step sys (move t (Done (Err e)) sys)
| update_commit t host target candidate :
    threads sys !! t = Some (UpdateReady host target (config (shared sys)) (constraints (shared sys)) candidate) →
    step sys (write t (Done (Ok ())) candidate sys)
| update_retry t host target previous k candidate :
    threads sys !! t = Some (UpdateReady host target previous k candidate) →
    ¬ (previous = config (shared sys) ∧ k = constraints (shared sys)) →
    step sys (move t (Start (UpdateDomainList host target)) sys)
(** [record_blocked], [drain_blocked], and the operations that only read *)
| record_step t entry :
    threads sys !! t = Some (Loaded (RecordBlocked entry)) →
    step sys (write t (Done (Ok ())) (record entry (shared sys)) sys)
| drain_step t :
    threads sys !! t = Some (Loaded DrainBlocked) →
    step sys (write t (Done (Ok ())) (drain_blocked (shared sys)).1 sys)
| read_step t :
    threads sys !! t = Some (Loaded ReadState) → step sys (move t (Done (Ok ())) sys).

Definition initial (s : ConfigState) : System := mkSystem s ∅.
Definition reachable (s : ConfigState) : System → Prop := rtc step (initial s).

(** * What holds at every moment *)

(** The sets are those of the configuration, the configuration is within the
    constraints, and the log is within its bound. *)
Record good (s : ConfigState) : Prop := mkGood {
  good_allow : compile_allowlist_globset (default [] (allowed_domains (config s))) = Ok (allow_set s);
  good_deny : compile_denylist_globset (default [] (denied_domains (config s))) = Ok (deny_set s);
  good_valid : validate_policy_against_constraints (config s) (constraints s) = Ok ();
  good_blocked : length (blocked s) ≤ MAX_BLOCKED_EVENTS;
  good_total : (blocked_total s ≤ u64_max)%N
}.

Lemma good_log b n s :
  good s → length b ≤ MAX_BLOCKED_EVENTS → (n ≤ u64_max)%N → good (set_total n (set_blocked b s)).
Proof. by intros []. Qed.

Lemma build_config_state_Ok c k s :
  build_config_state c k = Ok s →
  config s = c ∧ constraints s = k ∧ blocked s = [] ∧ blocked_total s = 0%N
  ∧ compile_allowlist_globset (default [] (allowed_domains c)) = Ok (allow_set s)
  ∧ compile_denylist_globset (default [] (denied_domains c)) = Ok (deny_set s).
Proof.
  unfold build_config_state. destruct (validate_unix_socket_allowlist_paths c); [|done].
  destruct (_ && _); [done|]. destruct (validate_non_global_wildcard_domain_patterns _ _); [|done]. cbn [result_map_err].
  destruct (compile_denylist_globset _) as [ds|]; [|done]. cbn [result_map_err].
  destruct (compile_allowlist_globset _) as [al|]; [|done]. cbn [result_map_err].
  destruct (compile_mitm_hooks _ _); [|done]. destruct (if mitm c then _ else _); [|done]. by intros [= <-].
Qed.

Lemma update_candidate_Ok host target c k b total candidate :
  update_candidate host target c k b total = Ok (Some candidate) →
  length b ≤ MAX_BLOCKED_EVENTS → (total ≤ u64_max)%N →
  good candidate ∧ constraints candidate = k
  ∧ config candidate = upsert_domain_permission host (permission_of target) normalize_host c
  ∧ blocked candidate = b ∧ blocked_total candidate = total.
Proof.
  unfold update_candidate. destruct (_ && _); [done|]. intros Hu Hb Ht.
  destruct (validate_policy_against_constraints _ k) as [[]|] eqn:Hv; [|done]. cbn [result_map_err] in Hu.
  destruct (build_config_state _ k) as [s|] eqn:Hs; [|done]. injection Hu as <-.
  destruct (build_config_state_Ok _ _ _ Hs) as (Hc & Hk & _ & _ & Ha & Hd). rewrite <- Hc in Ha, Hd.
  split_and!; [|done..]. constructor; [exact Ha|exact Hd| |done|done].
  change (validate_policy_against_constraints (config s) (constraints s) = Ok ()). by rewrite Hc, Hk.
Qed.

(** Only the mode of a configuration is compared with the constraint on modes. *)
Lemma validate_mode_only c m k :
  validate_policy_against_constraints c k = Ok () → validate_mode m k = Ok () →
  validate_policy_against_constraints (set_mode m c) k = Ok ().
Proof.
  unfold validate_policy_against_constraints. intros Hv Hm.
  destruct (result_map_err _ (validate_mitm_hook_config c)) eqn:E1; [|done].
  change (validate_mitm_hook_config (set_mode m c)) with (validate_mitm_hook_config c). rewrite E1.
  change (denied_domains (set_mode m c)) with (denied_domains c).
  destruct (validate_non_global_wildcard_domain_patterns _ _); [|done].
  change (enabled (set_mode m c)) with (enabled c). destruct (validate_flag _ _ _); [|done].
  change (mode (set_mode m c)) with m. rewrite Hm. destruct (validate_mode (mode c) k); [|done]. exact Hv.
Qed.
Lemma validate_gives_mode c k : validate_policy_against_constraints c k = Ok () → validate_mode (mode c) k = Ok ().
Proof.
  unfold validate_policy_against_constraints.
  destruct (result_map_err _ _); [|done]. destruct (validate_non_global_wildcard_domain_patterns _ _); [|done].
  destruct (validate_flag _ _ _); [|done]. by destruct (validate_mode _ _) as [[]|].
Qed.

(** What a thread holds is fit to be written. *)
Definition thread_ok (th : Thread) : Prop :=
  match th with
  | Reloading _ n b total => reloads n ∧ length b ≤ MAX_BLOCKED_EVENTS ∧ (total ≤ u64_max)%N
  | ModeReady m k => validate_mode m k = Ok ()
  | UpdateReady _ _ _ k candidate => good candidate ∧ constraints candidate = k
  | Start _ | Loaded _ | Done _ => True
  end.
Record system_ok (sys : System) : Prop := mkSystemOk {
  shared_good : good (shared sys);
  threads_ok : map_Forall (λ _, thread_ok) (threads sys)
}.

Lemma move_ok t th sys : system_ok sys → thread_ok th → system_ok (move t th sys).
Proof. intros [Hs Ht] Hth. constructor; [done|]. by apply map_Forall_insert_2. Qed.
Lemma write_ok t th s sys : system_ok sys → thread_ok th → good s → system_ok (write t th s sys).
Proof. intros [_ Ht] Hth Hs. constructor; [done|]. by apply map_Forall_insert_2. Qed.

Lemma record_good entry s : good s → good (record entry s).
Proof.
  intros Hs. apply good_log; [done| |apply N.le_min_r]. rewrite length_drop. lia.
Qed.

Lemma set_mode_good m s : good s → validate_mode m (constraints s) = Ok () → good (set_config (set_mode m (config s)) s).
Proof. intros [Ha Hd Hv Hb Ht] Hm. constructor; try done. by apply validate_mode_only. Qed.

Lemma step_ok sys sys' : (∀ n, reloads n → good n) → step sys sys' → system_ok sys → system_ok sys'.
Proof.
  intros Hloads Hstep Hok. pose proof Hok as [Hs Ht].
  assert (∀ t th, threads sys !! t = Some th → thread_ok th) as Hth by (intros t th Hl; by eapply map_Forall_lookup_1 in Ht).
  destruct Hstep;
    match goal with
    | H : threads sys !! _ = Some _ |- _ => apply Hth in H; cbn [thread_ok] in H
    | _ => idtac
    end;
    try (by apply move_ok); try (apply write_ok; [done|done|]).
  - apply move_ok; [done|]. split_and!; [done|apply Hs..].
  - match goal with H : _ ∧ _ ∧ _ |- _ => destruct H as (Hn & Hb & Htot) end. apply good_log; [by apply Hloads|done|done].
  - match goal with H : reloads ?n |- _ => destruct (Hloads n H) as [????] end. constructor; try done. apply Hs.
  - apply good_log; [by apply Hloads|apply Hs|apply Hs].
  - apply move_ok; [done|]. match goal with H : validate_policy_against_constraints _ _ = _ |- _ =>
      exact (validate_gives_mode _ _ H) end.
  - by apply set_mode_good.
  - apply move_ok; [done|]. match goal with H : update_candidate _ _ _ _ _ _ = _ |- _ =>
      destruct (update_candidate_Ok _ _ _ _ _ _ _ H) as (? & ? & _); [apply Hs|apply Hs|done] end.
  - by match goal with H : good _ ∧ _ |- _ => destruct H end.
  - by apply record_good.
  - apply (good_log [] (blocked_total (shared sys)) (shared sys)); [done|simpl; lia|apply Hs].
Qed.

(** C30: however the operations interleave, and whatever configurations within
    their constraints are loaded meanwhile, the sets hosts are matched against
    are those of the configuration in force, that configuration is within the
    constraints in force, and the log of blocked requests stays within its
    bound. *)
Theorem policy_holds_at_every_moment s sys :
  good s → (∀ n, reloads n → good n) → reachable s sys → good (shared sys).
Proof.
  intros Hs Hloads Hr. assert (system_ok (initial s)) as Hok by (constructor; [done|apply map_Forall_empty]).
  apply shared_good. unfold reachable in Hr. induction Hr as [|x y z Hxy _ IH]; [done|].
  apply IH. by eapply step_ok.
Qed.
End steps.
