(* ===== verification/NetworkSpec.v ===== *)
(** What the decisions of the network proxy guarantee: hosts are allowed only
    within what is managed, and local addresses are reached only when they are
    named. *)

From S2P Require Import Prelude Text Machine Paths IpAddr NetworkHosts NetworkConfig MitmHooks NetworkState NetworkRuntime.
From S2P Require Import NetworkHostsSpec.

(** * Normalised hosts are in lower case *)

Abbreviation lower := (Forall (λ c, ¬ (65 ≤ c ≤ 90)%N)).

Lemma lower_to_ascii s : lower (to_ascii_lowercase s).
Proof.
  induction s as [|c s IH]; unfold to_ascii_lowercase in *; csimpl; constructor; [|done]. case_decide; lia.
Qed.
Lemma lower_subset s t : lower t → (∀ c, c ∈ s → c ∈ t) → lower s.
Proof. rewrite !Forall_forall. naive_solver. Qed.

Lemma split_once_str_Some d s a b : split_once_str d s = Some (a, b) → s = a ++ d ++ b.
Proof.
  revert a b. induction s as [|c s IH]; intros a b.
  - simpl. destruct (strip_prefix d []) eqn:E; [|done]. intros [= <- <-]. by apply strip_prefix_Some in E.
  - cbn [split_once_str]. destruct (strip_prefix d (c :: s)) eqn:E.
    + intros [= <- <-]. by apply strip_prefix_Some in E.
    + destruct (split_once_str d s) as [[a' b']|] eqn:E'; [|done]. intros [= <- <-]. simpl. f_equal. by apply IH.
Qed.

Lemma lower_scoped d s t : head d = Some percent → scoped_ip d s = Some t → lower s → lower t.
Proof.
  unfold scoped_ip. destruct (split_once_str d s) as [[ip scope]|] eqn:E; [|done]. simpl.
  destruct (parse_ip ip); [|done]. intros _ [= <-] Hs. apply split_once_str_Some in E. subst.
  rewrite !Forall_app in Hs. destruct Hs as (Hip & _ & Hscope). apply Forall_app. split; [done|].
  constructor; [unfold percent; lia|done].
Qed.

Lemma lower_normalize_dns s : lower (normalize_dns_host_or_ip_literal s).
Proof.
  unfold normalize_dns_host_or_ip_literal.
  assert (lower (trim_end_matches dot (to_ascii_lowercase s))) as Hl.
  { eapply lower_subset; [apply lower_to_ascii|]. intros c. apply trim_end_matches_subset. }
  unfold normalize_ip_literal. destruct (parse_ip _); [done|].
  destruct (scoped_ip (lit "%25") _) as [t|] eqn:E; [by eapply lower_scoped in E|].
  destruct (scoped_ip (lit "%") _) as [t|] eqn:E'; [by eapply lower_scoped in E'|done].
Qed.

Lemma lower_host host h : host_parse host = Ok h → lower h.
Proof.
  unfold host_parse, normalize_host. destruct (before_bracket _); [|destruct (bool_decide _)];
    (destruct (is_nil _); [done|]); intros [= <-]; apply lower_normalize_dns.
Qed.

Lemma unscoped_prefix h ip : unscoped_ip_literal h = Some ip → (∃ rest, h = ip ++ percent :: rest) ∧ is_Some (parse_ip ip).
Proof.
  unfold unscoped_ip_literal. destruct (split_once percent h) as [[a b]|] eqn:E; [|done]. simpl.
  destruct (parse_ip a) eqn:Ep; [|done]. intros [= <-]. apply split_once_Some in E. split; [by exists b|by rewrite Ep].
Qed.

(** * Allowed hosts are managed *)

Section managed.
Context `{HostLibsLaws, HttpLibs, Host}.

Definition url_stable (p : DomainPattern.t) : Prop := url_host (pattern_domain p) = Some (pattern_domain p).

Lemma domain_for_constraints d : domain_text d → url_host d = Some d → parse_domain_for_constraints d = d.
Proof.
  intros Hd Hu. unfold parse_domain_for_constraints. rewrite domain_trim, trim_end_matches_id by (done || apply Hd).
  assert (is_nil d = false) as -> by (pose proof (domain_nonempty _ Hd); by destruct d).
  assert (unbracketed d = d) as ->.
  { assert (91%N ∉ d) as Hn by by apply domain_no_char. clear Hu. destruct d as [|c s]; [done|]. unfold unbracketed.
    rewrite not_elem_of_cons in Hn. destruct Hn as [Hn _]. by repeat (case_match; try done). }
  assert (∀ x, domain_char x = false → contains d [x] = false) as Hc.
  { intros x Hx. apply not_true_iff_false. rewrite contains_char. by apply domain_no_char. }
  change (lit "*") with [42%N]. change (lit "?") with [63%N]. change (lit "%") with [37%N].
  rewrite !Hc by done. simpl. by rewrite Hu.
Qed.

Lemma parse_for_constraints_clean p : clean_pattern p → url_stable p → parse_for_constraints (pattern_text p) = p.
Proof.
  intros Hp Hu. unfold parse_for_constraints. rewrite pattern_text_trim by done.
  destruct (pattern_text_cons p Hp) as (c & s & E). rewrite E. cbn [is_nil]. rewrite <- E. clear c s E.
  destruct p as [d|d|d]; unfold clean_pattern, url_stable in *; cbn [pattern_domain pattern_text] in *.
  - rewrite strip_prefix_app. by rewrite domain_for_constraints.
  - change (strip_prefix (lit "**.") (lit "*." ++ d)) with (@None str). rewrite strip_prefix_app.
    by rewrite domain_for_constraints.
  - rewrite !domain_starless by done. by rewrite domain_for_constraints.
Qed.

Lemma reject_if_Ok b field candidate allowed : reject_if b field candidate allowed = Ok () → b = false.
Proof. by destruct b. Qed.

Lemma validate_policy_domains c k : validate_policy_against_constraints c k = Ok () → validate_allowed_domains c k = Ok ().
Proof.
  unfold validate_policy_against_constraints.
  destruct (result_map_err _ _); [|done]. destruct (validate_non_global_wildcard_domain_patterns _ _); [|done].
  repeat (destruct (validate_flag _ _ _); [|done]). destruct (validate_mode _ _); [|done].
  repeat (destruct (validate_flag _ _ _); [|done]). by destruct (validate_allowed_domains c k) as [[]|].
Qed.

(** What is managed, when nothing beyond it may be listed. *)
Lemma listed_within_managed c k managed entry :
  validate_allowed_domains c k = Ok () → NetworkProxyConstraints.allowed_domains k = Some managed →
  NetworkProxyConstraints.allowlist_expansion_enabled k = None → entry ∈ default [] (allowed_domains c) →
  ∃ m, m ∈ managed ∧ allows (parse_for_constraints m) (parse_for_constraints entry) = true.
Proof.
  unfold validate_allowed_domains. intros Hv Hm Hx Hin. rewrite Hm, Hx in Hv.
  destruct (validate_non_global_wildcard_domain_patterns _ managed); [|done].
  apply reject_if_Ok, negb_false_iff, is_nil_true in Hv.
  destruct (existsb (λ m, allows m (parse_for_constraints entry)) (parse_for_constraints <$> managed)) eqn:E.
  - apply existsb_elem in E as (p & Hp & Ha). apply list_elem_of_fmap in Hp as (m & -> & Hin'). by exists m.
  - exfalso. eapply elem_of_nil. rewrite <- Hv. apply list_elem_of_filter. by split.
Qed.
End managed.

(** * Targets *)

Lemma parsed_local_literal h ip : percent ∉ h → parse_ip h = Some ip → is_non_public_ip ip = true → local_literal h = true.
Proof.
  intros Hp Hip Hn. unfold local_literal. destruct (is_loopback_host h); [done|].
  destruct (unscoped_ip_literal h) as [i|] eqn:E; simpl; [|by rewrite Hip].
  apply unscoped_prefix in E as [[rest ->] _]. exfalso. apply Hp. rewrite elem_of_app. right. left.
Qed.

Lemma trim_end_matches_spec d s : ∃ n, s = trim_end_matches d s ++ replicate n d.
Proof.
  induction s as [|c s [n IH]]; [by exists 0|]. simpl. destruct (trim_end_matches d s) as [|x t] eqn:E.
  - simpl in IH. destruct (decide (c = d)) as [->|]; [exists (S n)|exists n]; simpl; by f_equal.
  - exists n. simpl. by f_equal.
Qed.
Lemma trim_end_matches_app_replicate d s n : trim_end_matches d (s ++ replicate n d) = trim_end_matches d s.
Proof.
  induction s as [|c s IH]; simpl; [|by rewrite IH]. induction n as [|n IH]; [done|]. simpl. rewrite IH.
  by rewrite decide_True.
Qed.
Lemma to_ascii_lowercase_app s t : to_ascii_lowercase (s ++ t) = to_ascii_lowercase s ++ to_ascii_lowercase t.
Proof. apply fmap_app. Qed.

(** localhost, however it is written. *)
Lemma localhost_host name : is_localhost_name name = true → host_parse name = Ok (lit "localhost").
Proof.
  unfold is_localhost_name, eq_ignore_ascii_case. rewrite bool_decide_eq_true.
  destruct (trim_end_matches_spec dot name) as [n Hn]. generalize dependent (trim_end_matches dot name).
  intros t -> Ht. change (to_ascii_lowercase (lit "localhost")) with (lit "localhost") in Ht.
  assert (Forall (λ c, c ∉ [91; 58]%N ∧ is_whitespace c = false) (t ++ replicate n dot)) as Hc.
  { apply Forall_app. split; [|apply Forall_replicate; split; [apply (bool_decide_unpack _); done|done]].
    apply Forall_forall. intros c Hin. apply (list_elem_of_fmap_2 (λ c, if decide (65 ≤ c ≤ 90)%N then (c + 32)%N else c)) in Hin.
    fold (to_ascii_lowercase t) in Hin. rewrite Ht in Hin.
    assert (Forall (λ x, 97 ≤ x ≤ 122)%N (lit "localhost")) as Hl by (repeat constructor; done).
    rewrite Forall_forall in Hl. apply Hl in Hin. assert (65 ≤ c ≤ 122 ∧ (c < 91 ∨ 97 ≤ c))%N as Hr by (case_decide; lia).
    split; [rewrite !not_elem_of_cons; split_and!; [lia|lia|apply not_elem_of_nil]|].
    unfold is_whitespace. rewrite !bool_decide_eq_false_2 by lia. done. }
  unfold host_parse, normalize_host. rewrite trim_id by (eapply Forall_impl; [exact Hc|]; by intros ? []).
  assert (before_bracket (t ++ replicate n dot) = None) as ->.
  { destruct (t ++ replicate n dot) as [|c s]; [done|]. apply Forall_cons in Hc as [[Hc _] _].
    rewrite !not_elem_of_cons in Hc. destruct Hc as [Hc _]. unfold before_bracket. by repeat (case_match; try done). }
  rewrite filter_none; [|intros x Hx <-; rewrite Forall_forall in Hc; apply Hc in Hx as [Hx _]; apply Hx; right; left].
  simpl. unfold normalize_dns_host_or_ip_literal. rewrite to_ascii_lowercase_app, Ht.
  assert (to_ascii_lowercase (replicate n dot) = replicate n dot) as ->.
  { clear. induction n as [|n IH]; [done|]. unfold to_ascii_lowercase in *. csimpl. by rewrite IH. }
  rewrite trim_end_matches_app_replicate. by vm_compute.
Qed.

Section decisions.
Context `{HostLibsLaws, HttpLibs, Host, ProxyEnv}.

(** What an allowed host has passed. *)
Lemma host_blocked_Allowed s host port :
  host_blocked s host port = Allowed →
  ∃ h, host_parse host = Ok h
    ∧ globset_matches_host_or_unscoped (deny_set s) h = false
    ∧ globset_matches_host_or_unscoped (allow_set s) h = true
    ∧ (allow_local_binding (config s) = false →
       if local_literal h then is_explicit_local_allowlisted (default [] (allowed_domains (config s))) h = true
       else host_resolves_to_non_public_ip h port = false).
Proof.
  unfold host_blocked. destruct (host_parse host) as [h|]; [|done].
  destruct (globset_matches_host_or_unscoped (deny_set s) h) eqn:Hd; [done|].
  destruct (if allow_local_binding _ then _ else _) eqn:Hl; [done|].
  destruct (bool_decide (allowed_domains (config s) = None)); [done|].
  destruct (globset_matches_host_or_unscoped (allow_set s) h) eqn:Ha; [|done]. intros _. exists h.
  split_and!; [done..|]. intros Hb. rewrite Hb in Hl. destruct (local_literal h); [by apply negb_false_iff|done].
Qed.

(** A glob of a listed pattern that matches a host. *)
Definition matched_by (entry h : str) : Prop :=
  ∃ candidate g, candidate ∈ expand_domain_pattern (normalize_pattern entry)
    ∧ glob_new candidate = Ok g ∧ glob_match g h = true.

(** A pattern that is written plainly: a domain in lower case, perhaps below a
    wildcard, without a port, brackets or other wildcards, that the URL parser
    leaves as it is. *)
Definition plainly_written (text : str) (p : DomainPattern.t) : Prop :=
  text = pattern_text p ∧ clean_pattern p ∧ url_stable p.

Lemma managed_stands_for entry m pe pm h :
  plainly_written entry pe → plainly_written m pm →
  allows (parse_for_constraints m) (parse_for_constraints entry) = true →
  lower h → matched_by entry h → stands_for pm h.
Proof.
  intros (-> & Hce & Hue) (-> & Hcm & Hum) Ha Hl (candidate & g & Hc & Hg & Hm).
  rewrite !parse_for_constraints_clean in Ha by done.
  apply (allows_included pm pe); [done..|].
  eapply clean_candidate_stands; eauto using to_ascii_lowercase_id.
Qed.

(** C31: Where the managed list of domains bounds what may be listed (nothing is said
    about extending it), in any state that was validated, a host is allowed only
    through an entry that some managed pattern admits: a pattern made of that
    entry matches the host, or the address before its scope.  When both the entry and
    the managed pattern are written plainly (domains in lower case, perhaps below a
    wildcard, without ports, brackets or other wildcards), the managed pattern stands
    for that host itself.  For other spellings it need not: the two are normalised
    differently, which lets an entry reach a host no managed pattern stands for. *)
Theorem allowed_hosts_are_managed s managed host port :
  good s →
  NetworkProxyConstraints.allowed_domains (constraints s) = Some managed →
  NetworkProxyConstraints.allowlist_expansion_enabled (constraints s) = None →
  host_blocked s host port = Allowed →
  ∃ h x entry m, host_parse host = Ok h ∧ (x = h ∨ unscoped_ip_literal h = Some x)
    ∧ entry ∈ default [] (allowed_domains (config s)) ∧ m ∈ managed
    ∧ allows (parse_for_constraints m) (parse_for_constraints entry) = true
    ∧ matched_by entry x
    ∧ ∀ pe pm, plainly_written entry pe → plainly_written m pm → stands_for pm x.
Proof.
  intros Hgood Hm Hx Hall.
  apply host_blocked_Allowed in Hall as (h & Hh & _ & Ha & _). pose proof (lower_host _ _ Hh) as Hlow.
  assert (∃ x, (x = h ∨ unscoped_ip_literal h = Some x) ∧ lower x ∧ allow_set s x = true) as (x & Hxh & Hlx & Hs).
  { unfold globset_matches_host_or_unscoped in Ha. apply orb_true_iff in Ha as [Ha|Ha]; [exists h; by auto|].
    destruct (unscoped_ip_literal h) as [ip|] eqn:Hip; [|done]. simpl in Ha. exists ip. split_and!; [by right| |done].
    destruct (unscoped_prefix _ _ Hip) as [[rest Hr] _]. rewrite Hr, Forall_app in Hlow. by destruct Hlow. }
  destruct (compile_matched _ _ _ _ (good_allow _ Hgood) Hs) as (entry & candidate & g & Hin & Hc & Hg & Hgx).
  destruct (listed_within_managed (config s) (constraints s) managed entry)
    as (m & Hmm & Hal); [by apply validate_policy_domains, Hgood|done..|].
  assert (matched_by entry x) as Hmatch by by exists candidate, g.
  exists h, x, entry, m. split_and!; [done..|]. intros pe pm He Hp. by apply (managed_stands_for entry m pe).
Qed.

(** An entry that names a local host itself, without a wildcard. *)
Definition names_host (pattern h : str) : Prop :=
  is_wildcard_pattern (trim pattern) = false
  ∧ (normalize_host (trim pattern) = h ∨ unscoped_ip_literal h = Some (normalize_host (trim pattern))).

Lemma explicit_names allowed h :
  is_explicit_local_allowlisted allowed h = true ↔ ∃ p, p ∈ allowed ∧ names_host p h.
Proof.
  unfold is_explicit_local_allowlisted. rewrite existsb_elem. apply exist_proper. intros p. unfold names_host.
  destruct (is_wildcard_pattern (trim p)); [naive_solver|]. rewrite orb_true_iff, bool_decide_eq_true.
  destruct (unscoped_ip_literal h) as [ip|]; simpl; rewrite ?bool_decide_eq_true; naive_solver.
Qed.

(** How a target is written: a name as it is, an address so that it is read back
    as that address, without a scope. *)
Definition target_text (to_text : Target → str) (t : Target) : Prop :=
  match t with
  | Address ip => ∃ h, host_parse (to_text t) = Ok h ∧ percent ∉ h ∧ parse_ip h = Some ip
  | Name name => to_text t = name
  end.

(** C32: unless local binding is allowed, a connection to an address that is not
    public is opened only for a target that is that address, or for localhost
    and a loopback address; and the list of allowed domains has an entry,
    without wildcards, that is this very target. *)
Theorem local_addresses_are_named to_text s t port addr :
  target_text to_text t →
  allow_local_binding (config s) = false → is_non_public_ip addr = true →
  connect_allowed to_text s t port addr = true →
  ∃ h p, host_parse (to_text t) = Ok h
    ∧ match t with Address ip => ip = addr | Name _ => h = lit "localhost" ∧ is_loopback addr = true end
    ∧ p ∈ default [] (allowed_domains (config s)) ∧ names_host p h.
Proof.
  intros Htext Hb Hnp. unfold connect_allowed, allows_non_public_target. rewrite Hnp, Hb. simpl. rewrite negb_involutive.
  destruct (target_matches_non_public_addr t addr) eqn:Hm; [|done]. simpl. rewrite bool_decide_eq_true. intros Hall.
  apply host_blocked_Allowed in Hall as (h & Hh & _ & _ & Hlocal). specialize (Hlocal Hb).
  assert (local_literal h = true ∧ match t with Address ip => ip = addr
    | Name _ => h = lit "localhost" ∧ is_loopback addr = true end) as [Hl Ht].
  { destruct t as [ip|name]; simpl in Hm.
    - apply bool_decide_eq_true in Hm as ->. split; [|done]. destruct Htext as (h' & Hh' & Hpc & Hp).
      rewrite Hh in Hh'. injection Hh' as <-. by apply (parsed_local_literal h addr).
    - apply andb_true_iff in Hm as [Hn Hlo]. simpl in Htext. rewrite Htext in Hh. apply localhost_host in Hn. rewrite Hh in Hn.
      injection Hn as ->. by vm_compute. }
  rewrite Hl in Hlocal. apply explicit_names in Hlocal as (p & Hp & Hpn). by exists h, p.
Qed.
End decisions.
