(* ===== verification/NetworkExamples.v ===== *)
(** Concrete runs of the network proxy, with interfaces that satisfy their laws:
    witnesses of the theorems, and what goes wrong when operations interleave or
    hosts are normalised twice. *)

From S2P Require Import Prelude Text Machine Paths IpAddr NetworkHosts NetworkConfig MitmHooks NetworkState NetworkRuntime.
From S2P Require Import NetworkHostsSpec NetworkSpec.

(** Globs without metacharacters, below a wildcard, or the wildcard alone. *)
Inductive DemoGlob := GLiteral (p : str) | GSubdomains (d : str) | GAny.
Definition demo_glob (p : str) : result str DemoGlob :=
  if bool_decide (plain p) then Ok (GLiteral p)
  else if bool_decide (p = star) then Ok GAny
  else match strip_prefix (lit "?*.") p with
       | Some d => if bool_decide (plain d) then Ok (GSubdomains d) else Err (lit "unsupported")
       | None => Err (lit "unsupported")
       end.
Definition demo_match (g : DemoGlob) (s : str) : bool :=
  match g with
  | GLiteral p => eq_ignore_ascii_case s p
  | GAny => true
  | GSubdomains d =>
      match strip_suffix ([dot] ++ to_ascii_lowercase d) (to_ascii_lowercase s) with
      | Some label => negb (is_nil label)
      | None => false
      end
  end.
#[local] Instance demo_libs : HostLibs := {
  glob_new := demo_glob;
  glob_match := demo_match;
  glob_set gs := Ok (λ s, existsb (λ g, demo_match g s) gs);
  url_host d := Some (to_ascii_lowercase d)
}.

#[local] Instance demo_laws : HostLibsLaws.
Proof.
  constructor.
  - by intros gs m [= <-].
  - intros p g Hp Hg s. cbn in Hg. unfold demo_glob in Hg. rewrite bool_decide_eq_true_2 in Hg by done. by injection Hg as <-.
  - intros d g Hd Hg s. cbn [glob_new demo_libs] in Hg. unfold demo_glob in Hg.
    rewrite bool_decide_eq_false_2 in Hg by (unfold plain; rewrite Forall_app; intros [Hf _]; inversion Hf as [|? ? Hc]; by apply Hc; left).
    rewrite bool_decide_eq_false_2 in Hg by (intros E; by destruct d).
    rewrite strip_prefix_app, bool_decide_eq_true_2 in Hg by done. injection Hg as <-. simpl.
    destruct (strip_suffix _ _) as [label|] eqn:E.
    + apply strip_suffix_Some in E. rewrite negb_true_iff, is_nil_false, E. split; [by exists label|].
      intros (label' & Hl & E'). by apply app_inv_tail in E' as ->.
    + split; [done|]. intros (label & _ & E'). exfalso.
      assert (strip_suffix ([dot] ++ to_ascii_lowercase d) (to_ascii_lowercase s) = Some label) as E'' by by apply strip_suffix_Some.
      simpl in E''. congruence.
Qed.

#[local] Existing Instances HookDemo.libs HookDemo.host.
#[local] Instance demo_env : ProxyEnv := {
  env_var _ := None;
  new_mitm_state _ := Ok ();
  lookup_host host _ := if bool_decide (host = lit "api.example.com" ∨ host = lit "evil.com") then Some [V4 0x08080808] else None
}.

(** A managed list, a configuration within it, and the state built from both. *)
Definition managed : list DomainPattern.t := [DomainPattern.ApexAndSubdomains (lit "example.com"); DomainPattern.Exact (lit "localhost")].
Definition listed : list DomainPattern.t := [DomainPattern.SubdomainsOnly (lit "example.com"); DomainPattern.Exact (lit "localhost")].
Definition demo_config : NetworkProxyConfig :=
  set_denied_domains [lit "bad.example.com"] (set_allowed_domains (pattern_text <$> listed) default_config).
Definition demo_constraints : Constraints :=
  NetworkProxyConstraints.mk None None None None None (Some (pattern_text <$> managed)) None None None None None.
Definition demo_state : ConfigState :=
  match build_config_state demo_config demo_constraints with
  | Ok s => s
  | Err _ => mkState demo_config (λ _, false) (λ _, true) false [] demo_constraints [] 0
  end.

Lemma demo_good : good demo_state.
Proof. constructor; [reflexivity|reflexivity|vm_compute; reflexivity|vm_compute; lia|vm_compute; done]. Qed.

Definition request (host : string) : BlockedRequest :=
  mkBlocked (lit host) (lit "not_allowed") None None None (lit "http") None None None None 0.

(** The end of a run. *)
Definition ends_in (sys : System) : Prop := reachable (λ _, False) false demo_state sys.

Ltac take_step c := eapply rtc_l; [eapply c; try (vm_compute; reflexivity); try done|].

Lemma policy_holds_at_every_moment_witness :
  ∃ sys, ends_in sys ∧ threads sys !! 0 = Some (Done (Ok ())) ∧ good (shared sys).
Proof.
  assert (∃ sys, ends_in sys ∧ threads sys !! 0 = Some (Done (Ok ()))) as (sys & Hr & Ht).
  { eexists. split; [unfold ends_in, reachable|].
    - take_step (call (λ _, False) false (initial demo_state) 0 (SetNetworkMode Limited)).
      take_step (reload_none (λ _, False) false (move 0 (Start (SetNetworkMode Limited)) (initial demo_state)) 0).
      eapply rtc_l; [eapply (mode_snapshot _ _ _ 0 Limited); vm_compute; reflexivity|].
      eapply rtc_l; [eapply (mode_commit _ _ _ 0 Limited); vm_compute; reflexivity|]. apply rtc_refl.
    - vm_compute. reflexivity. }
  exists sys. split_and!; [done|done|].
  apply (policy_holds_at_every_moment (λ _, False) false demo_state); [apply demo_good|done|done].
Defined.

(** A blocked request that is recorded between the snapshot and the commit of a
    change to the domains is gone afterwards: the commit compares the
    configuration and the constraints, and writes back the log of the snapshot. *)
Definition deny_more : Op := UpdateDomainList (lit "worse.example.com") DenyList.
Definition before_commit : System :=
  let candidate := update_candidate (lit "worse.example.com") DenyList (config demo_state) (constraints demo_state) [] 0 in
  mkSystem (record (request "evil.com") demo_state)
    (<[1 := Done (Ok ())]>
       {[0 := match candidate with
              | Ok (Some s) =>
                  UpdateReady (lit "worse.example.com") DenyList (config demo_state) (constraints demo_state) s
              | _ => Done (Ok ())
              end]}).

Example concurrent_update_loses_blocked_request :
  ends_in before_commit ∧ blocked (shared before_commit) = [request "evil.com"]
  ∧ ∃ sys, step (λ _, False) false before_commit sys ∧ threads sys !! 0 = Some (Done (Ok ()))
      ∧ blocked (shared sys) = [] ∧ blocked_total (shared sys) = 0%N.
Proof.
  split_and!; [| |].
  - unfold ends_in, reachable.
    eapply rtc_l; [apply (call _ _ _ 0 deny_more); done|].
    eapply rtc_l; [apply (reload_none _ _ _ 0 deny_more); [done|done]|].
    eapply rtc_l; [eapply (update_snapshot _ _ _ 0 _ DenyList); [vm_compute; reflexivity|vm_compute; reflexivity]|].
    eapply rtc_l; [apply (call _ _ _ 1 (RecordBlocked (request "evil.com"))); done|].
    eapply rtc_l; [apply (reload_none _ _ _ 1 (RecordBlocked (request "evil.com"))); [done|done]|].
    eapply rtc_l; [eapply (record_step _ _ _ 1 (request "evil.com")); vm_compute; reflexivity|].
    apply reflexive_eq. vm_compute. reflexivity.
  - vm_compute. reflexivity.
  - eexists. split; [eapply (update_commit _ _ _ 0); vm_compute; reflexivity|]. by vm_compute.
Qed.

(** [force_reload] keeps the log and forgets its total. *)
Example force_reload_forgets_the_total :
  let before := mkSystem (record (request "evil.com") demo_state) {[0 := Start ForceReload]} in
  ∃ sys, step (eq demo_state) false before sys
    ∧ blocked (shared sys) = [request "evil.com"] ∧ blocked_total (shared sys) = 0%N.
Proof. eexists. split; [by eapply (force_reload _ _ _ 0 demo_state)|]. by vm_compute. Qed.

(** A host with a port in brackets keeps the port once, and loses it the second
    time: denying it denies another host, and it stays allowed. *)
Example bracketed_port_is_lost_later :
  normalize_host (lit "[api.example.com:80]") = lit "api.example.com:80"
  ∧ normalize_pattern (lit "api.example.com:80") = lit "api.example.com".
Proof. by vm_compute. Qed.

Lemma allowed_hosts_are_managed_witness :
  ∃ h x entry m, host_parse (lit "API.example.com:443") = Ok h ∧ (x = h ∨ unscoped_ip_literal h = Some x)
    ∧ entry ∈ default [] (allowed_domains (config demo_state)) ∧ m ∈ pattern_text <$> managed
    ∧ allows (parse_for_constraints m) (parse_for_constraints entry) = true
    ∧ matched_by entry x
    ∧ ∀ pe pm, plainly_written entry pe → plainly_written m pm → stands_for pm x.
Proof.
  apply (allowed_hosts_are_managed demo_state (pattern_text <$> managed) _ 443); [apply demo_good|reflexivity|reflexivity|].
  vm_compute. reflexivity.
Defined.

(** An entry with a colon before a wildcard is within the managed domain when the
    constraints are checked, and stands for another host when it is compiled. *)
Definition smuggled_entry : str := lit "evil.com:*.example.com".
Definition smuggled_config : NetworkProxyConfig := set_allowed_domains [smuggled_entry] default_config.
Example colon_entry_escapes_the_managed_domains :
  validate_policy_against_constraints smuggled_config demo_constraints = Ok ()
  ∧ ∃ s, build_config_state smuggled_config demo_constraints = Ok s
      ∧ host_blocked s (lit "evil.com") 443 = Allowed
      ∧ ∀ m, m ∈ managed → ¬ stands_for m (lit "evil.com").
Proof.
  split; [vm_compute; reflexivity|]. eexists. split_and!; [reflexivity|vm_compute; reflexivity|].
  apply Forall_forall. unfold managed. repeat constructor; simpl.
  - intros [E|(label & _ & E)]; [discriminate E|].
    apply (f_equal (λ s, drop 1 (reverse s))) in E. rewrite reverse_app in E. discriminate E.
  - intros E. discriminate E.
Qed.

Lemma local_addresses_are_named_witness :
  ∃ h p, host_parse (lit "LocalHost.") = Ok h ∧ (h = lit "localhost" ∧ is_loopback (V4 0x7f000001) = true)
    ∧ p ∈ default [] (allowed_domains (config demo_state)) ∧ names_host p h.
Proof.
  apply (local_addresses_are_named (λ t, match t with Name name => name | Address _ => [] end)
           demo_state (Name (lit "LocalHost.")) 80 (V4 0x7f000001)); vm_compute; reflexivity.
Defined.
