(* ===== verification/ConfigValues.v ===== *)
(** Values of the configuration and how layers of them are put together:
    [config/src/merge.rs], [key_aliases.rs], [overrides.rs], [fingerprint.rs]
    and the check of [shell_environment_policy.rs].  A table of the [toml] crate
    keeps the order in which its keys were inserted, as the workspace builds it:
    an association list. *)

From S2P Require Import Prelude Text NetworkHosts.

(** * Values *)

(** [toml::Value]; a float and a date are represented by their texts. *)
Module TomlValue.
Inductive t :=
| String (s : str)
| Integer (i : Z)
| Float (f : str)
| Boolean (b : bool)
| Datetime (d : str)
| Array (items : list t)
| Table (table : list (str * t)).
End TomlValue.
Abbreviation Table := TomlValue.Table.

(** [toml::map::Map] *)
Abbreviation TomlMap A := (list (str * A)) (only parsing).

Fixpoint toml_get {A} (key : str) (m : TomlMap A) : option A :=
  match m with
  | [] => None
  | (k, v) :: m => if decide (key = k) then Some v else toml_get key m
  end.
Fixpoint toml_insert {A} (key : str) (value : A) (m : TomlMap A) : TomlMap A :=
  match m with
  | [] => [(key, value)]
  | (k, v) :: m => if decide (key = k) then (key, value) :: m else (k, v) :: toml_insert key value m
  end.
Definition toml_remove {A} (key : str) (m : TomlMap A) : TomlMap A := filter (λ e, e.1 ≠ key) m.
(** [entry(key).or_insert(value)] *)
Definition toml_or_insert {A} (key : str) (value : A) (m : TomlMap A) : TomlMap A :=
  match toml_get key m with Some _ => m | None => m ++ [(key, value)] end.
(** The entries inserted one after the other into an empty table, their keys changed. *)
Definition toml_rekey {A} (f : str → str) (m : TomlMap A) : TomlMap A :=
  foldl (λ m '(k, v), toml_insert (f k) v m) [] m.
Definition contains_key {A} (key : str) (m : TomlMap A) : bool := bool_decide (is_Some (toml_get key m)).

Definition as_table (v : TomlValue.t) : option (TomlMap TomlValue.t) :=
  match v with Table t => Some t | _ => None end.

(** * Key aliases *)

Record ConfigKeyAlias := mkAlias { table_path : list str; legacy_key : str; canonical_key : str }.

Definition CONFIG_KEY_ALIASES : list ConfigKeyAlias :=
  [mkAlias [lit "memories"] (lit "no_memories_if_mcp_or_web_search") (lit "disable_on_external_context");
   mkAlias [lit "agents"] (lit "max_threads") (lit "max_concurrent_threads_per_session")].

Definition normalize_alias {A} (path : list str) (table : TomlMap A) (alias : ConfigKeyAlias) : TomlMap A :=
  if decide (path = table_path alias) then
    match toml_get (legacy_key alias) table with
    | Some value => toml_or_insert (canonical_key alias) value (toml_remove (legacy_key alias) table)
    | None => table
    end
  else table.
Definition normalize_key_aliases {A} (path : list str) (table : TomlMap A) : TomlMap A :=
  foldl (normalize_alias path) table CONFIG_KEY_ALIASES.

Fixpoint normalized_with_key_aliases (value : TomlValue.t) (path : list str) : TomlValue.t :=
  match value with
  | Table table =>
      Table (normalize_key_aliases path
        (toml_rekey (λ key, key)
           ((λ '(key, child), (key, normalized_with_key_aliases child (path ++ [key]))) <$> table)))
  | TomlValue.Array items => TomlValue.Array ((λ item, normalized_with_key_aliases item path) <$> items)
  | value => value
  end.

(** * The filters of the shell environment *)

Definition shell_environment_policy : str := lit "shell_environment_policy".

Inductive ShellEnvironmentPolicyFilterRepresentation := Filters | Legacy.
#[export] Instance FilterRepresentation_eq_dec : EqDecision ShellEnvironmentPolicyFilterRepresentation.
Proof. solve_decision. Defined.

Definition from_policy (policy : TomlValue.t) : option ShellEnvironmentPolicyFilterRepresentation :=
  policy ← as_table policy;
  if contains_key (lit "filters") policy then Some Filters
  else if contains_key (lit "exclude") policy || contains_key (lit "include_only") policy then Some Legacy
  else None.

Definition from_path (path : list str) : option ShellEnvironmentPolicyFilterRepresentation :=
  match path with
  | policy :: field :: _ =>
      if decide (policy = shell_environment_policy) then
        if decide (field = lit "filters") then Some Filters
        else if decide (field = lit "exclude" ∨ field = lit "include_only") then Some Legacy
        else None
      else None
  | _ => None
  end.

Definition from_edit (path : list str) (value : TomlValue.t) : option ShellEnvironmentPolicyFilterRepresentation :=
  if decide (path = [shell_environment_policy]) then from_policy value else from_path path.

Definition displaced_fields (r : ShellEnvironmentPolicyFilterRepresentation) : list str :=
  match r with Filters => [lit "exclude"; lit "include_only"] | Legacy => [lit "filters"] end.

Definition is_shell_environment_filters_path (path : list str) : bool :=
  bool_decide (path = [shell_environment_policy; lit "filters"]).

Definition replace_shell_environment_policy_filter_representation (base overlay : TomlValue.t) (path : list str) :
    TomlValue.t :=
  if decide (path = [shell_environment_policy]) then
    match from_policy overlay, base with
    | Some overlay_representation, Table base =>
        Table (foldl (λ base field, toml_remove field base) base (displaced_fields overlay_representation))
    | _, _ => base
    end
  else base.

Definition is_permission_network_domains_path (path : list str) : bool :=
  match path with
  | [permissions; _; network; domains] =>
      bool_decide (permissions = lit "permissions" ∧ network = lit "network" ∧ domains = lit "domains")
  | _ => false
  end.

(** * Merging *)

(** [str::to_lowercase] of the standard library, the hash of a layer, and what the
    [toml] crate reads from a value by the types of the fields: the field
    [shell_environment_policy] of a document, a list of strings, and filters by
    ascending pattern. *)
Inductive ShellEnvironmentPolicyFilter := Include | Exclude.
#[export] Instance ShellEnvironmentPolicyFilter_eq_dec : EqDecision ShellEnvironmentPolicyFilter.
Proof. solve_decision. Defined.

Class ConfigLibs := {
  config_host_libs :: HostLibs;
  to_lowercase : str → str;
  version_for_toml : TomlValue.t → str;
  read_policy_field : TomlValue.t → result str (option TomlValue.t);
  read_strings : TomlValue.t → result str (list str);
  read_filters : TomlValue.t → result str (list (str * ShellEnvironmentPolicyFilter))
}.

(** A document that is a table has the field it has. *)
Class ConfigLibsLaws `{ConfigLibs} : Prop := {
  read_policy_field_of_table t : read_policy_field (Table t) = Ok (toml_get shell_environment_policy t)
}.

Section merge.
Context {C : ConfigLibs}.

Definition normalize_network_domain_keys {A} (table : TomlMap A) : TomlMap A := toml_rekey normalize_host table.
Definition normalize_case_insensitive_keys {A} (table : TomlMap A) : TomlMap A := toml_rekey to_lowercase table.

(** The keys of both tables of a merge at [path] *)
Definition normalize_keys {A} (path : list str) (table : TomlMap A) : TomlMap A :=
  let table := normalize_key_aliases path table in
  let table := if is_permission_network_domains_path path then normalize_network_domain_keys table else table in
  if is_shell_environment_filters_path path then normalize_case_insensitive_keys table else table.

(** [merge_toml_values_at_path].  The entries of the overlay go with the merge of
    their values while their keys are normalized. *)
Fixpoint merge_toml_values_at_path (overlay : TomlValue.t) (path : list str) (base : TomlValue.t) : TomlValue.t :=
  match overlay, replace_shell_environment_policy_filter_representation base overlay path with
  | Table overlay_table, Table base_table =>
      let entries := (λ '(key, value), (key, (value, merge_toml_values_at_path value))) <$> overlay_table in
      Table (foldl (λ base_table '(key, (value, merge)),
               match toml_get key base_table with
               | Some existing => toml_insert key (merge (path ++ [key]) existing) base_table
               | None => toml_insert key (normalized_with_key_aliases value (path ++ [key])) base_table
               end)
             (normalize_keys path base_table) (normalize_keys path entries))
  | _, _ => normalized_with_key_aliases overlay path
  end.
Definition merge_toml_values (base overlay : TomlValue.t) : TomlValue.t := merge_toml_values_at_path overlay [] base.

(** [root.get(policy)?.get(filters)?.as_table()?.iter().find(..)] *)
Definition shell_environment_filter_entry (root : TomlValue.t) (path : list str) : option (str * TomlValue.t) :=
  match path with
  | [policy; filters; pattern] =>
      if decide (policy = shell_environment_policy ∧ filters = lit "filters") then
        root ← as_table root;
        policy ← toml_get policy root;
        policy ← as_table policy;
        filters ← toml_get filters policy;
        filters ← as_table filters;
        snd <$> list_find (λ entry, to_lowercase entry.1 = to_lowercase pattern) filters
      else None
  | _ => None
  end.

(** * The check of a layer *)

(** The first pattern that was seen before without its case. *)
Fixpoint first_duplicate (seen : list str) (patterns : list str) : option str :=
  match patterns with
  | [] => None
  | pattern :: patterns =>
      if decide (to_lowercase pattern ∈ seen) then Some pattern
      else first_duplicate (to_lowercase pattern :: seen) patterns
  end.

(** A field that may be missing *)
Definition read_field {A} (read : TomlValue.t → result str A) (field : str) (policy : TomlMap TomlValue.t) :
    result str (option A) :=
  match toml_get field policy with
  | Some v => result_map Some (read v)
  | None => Ok None
  end.

(** What [ShellEnvironmentPolicyToml::deserialize] refuses of the three fields. *)
Definition check_filter_fields (exclude include_only : option (list str))
    (filters : option (list (str * ShellEnvironmentPolicyFilter))) : result str unit :=
  match filters with
  | None => Ok ()
  | Some filters =>
      if bool_decide (is_Some exclude) || bool_decide (is_Some include_only)
      then Err (lit "cannot mix `filters` with legacy `exclude` or `include_only`")
      else match first_duplicate [] filters.*1 with
           | Some pattern => Err (lit "duplicate shell environment filter `" ++ pattern ++ lit "` ignoring case")
           | None => Ok ()
           end
  end.

Definition validate_shell_environment_policy_filter_config (value : TomlValue.t) : result str unit :=
  let? policy := read_policy_field value in
  match policy ≫= as_table with
  | None => Ok ()
  | Some policy =>
      let? exclude := read_field read_strings (lit "exclude") policy in
      let? include_only := read_field read_strings (lit "include_only") policy in
      let? filters := read_field read_filters (lit "filters") policy in
      check_filter_fields exclude include_only filters
  end.

End merge.

(** * Overrides of the command line *)

(** The loop of [apply_toml_override], over the segments of the path; the split
    of a text has at least one. *)
Fixpoint apply_override (current : TomlValue.t) (segments : list str) (value : TomlValue.t) : TomlValue.t :=
  match segments with
  | [] => current
  | [segment] =>
      match current with
      | Table table => Table (toml_insert segment value table)
      | _ => Table [(segment, value)]
      end
  | segment :: segments =>
      let table := default [] (as_table current) in
      Table (toml_insert segment
               (apply_override (default (Table []) (toml_get segment table)) segments value) table)
  end.
Definition apply_toml_override (root : TomlValue.t) (path : str) (value : TomlValue.t) : TomlValue.t :=
  apply_override root (split_on 46 path) value.

Definition build_cli_overrides_layer (cli_overrides : list (str * TomlValue.t)) : TomlValue.t :=
  foldl (λ root '(path, value), apply_toml_override root path value) (Table []) cli_overrides.

(** * Origins *)

Fixpoint record_origins {M} (value : TomlValue.t) (meta : M) (path : list str) (origins : gmap str M) : gmap str M :=
  match value with
  | Table table =>
      foldl (λ origins record, record origins) origins
        ((λ '(key, val), record_origins val meta (path ++ [key])) <$> table)
  | TomlValue.Array items =>
      foldl (λ origins record, record origins) origins
        (imap (λ idx record, record (path ++ [decimal_N (N.of_nat idx)]))
           ((λ item, record_origins item meta) <$> items))
  | _ => if is_nil path then origins else <[join (lit ".") path := meta]> origins
  end.
