(* ===== verification/ConfigMergeSpec.v ===== *)
(** What merging does to a configuration.  Seen from one path, the layers are
    asked from the top: the first that has anything to say about the path decides
    what is found there. *)

From S2P Require Import Prelude Text NetworkHosts ConfigValues.

(** * Tables *)

Lemma toml_get_insert {A} k j (v : A) m :
  toml_get k (toml_insert j v m) = if decide (k = j) then Some v else toml_get k m.
Proof. induction m as [|[i x] m IH]; simpl; [done|]. repeat case_decide; simplify_eq/=; repeat case_decide; by simplify_eq. Qed.

Lemma toml_get_app {A} k (m m' : TomlMap A) :
  toml_get k (m ++ m') = match toml_get k m with Some v => Some v | None => toml_get k m' end.
Proof. induction m as [|[i x] m IH]; simpl; [done|]. by case_decide. Qed.

Lemma toml_get_remove {A} k j (m : TomlMap A) :
  toml_get k (toml_remove j m) = if decide (k = j) then None else toml_get k m.
Proof.
  unfold toml_remove. induction m as [|[i x] m IH]; simpl; [by case_decide|].
  rewrite filter_cons. simpl. repeat (case_decide; simplify_eq/=); done.
Qed.

Lemma toml_get_or_insert {A} k j (v : A) m :
  toml_get k (toml_or_insert j v m) =
    if decide (k = j) then Some (default v (toml_get j m)) else toml_get k m.
Proof.
  unfold toml_or_insert. destruct (toml_get j m) as [x|] eqn:Hj.
  - case_decide; by simplify_eq.
  - rewrite toml_get_app. simpl. case_decide; simplify_eq; [by rewrite Hj|by destruct (toml_get k m)].
Qed.

Lemma toml_get_fmap {A B} (f : str → A → B) k (m : TomlMap A) :
  toml_get k ((λ '(k, v), (k, f k v)) <$> m) = f k <$> toml_get k m.
Proof. induction m as [|[i x] m IH]; simpl; [done|]. case_decide; by simplify_eq. Qed.

Lemma toml_get_None {A} k (m : TomlMap A) : toml_get k m = None ↔ k ∉ m.*1.
Proof.
  induction m as [|[i x] m IH]; simpl; [split; [intros _; apply not_elem_of_nil|done]|].
  rewrite not_elem_of_cons. case_decide; naive_solver.
Qed.

Lemma toml_get_elem {A} k (v : A) m : toml_get k m = Some v → (k, v) ∈ m.
Proof.
  induction m as [|[i x] m IH]; simpl; [done|]. case_decide; [intros; simplify_eq; left|intros; right; auto].
Qed.

Lemma toml_get_at {A} k (v : A) m : NoDup m.*1 → (k, v) ∈ m → toml_get k m = Some v.
Proof.
  induction m as [|[i x] m IH]; simpl; [by intros _ ?%not_elem_of_nil|].
  intros [Hi Hm]%NoDup_cons [[= -> ->]|Hin]%elem_of_cons; [by rewrite decide_True|].
  case_decide as Hk; [subst; destruct Hi; by apply (list_elem_of_fmap_2 fst) in Hin|auto].
Qed.

Lemma insert_new {A} k (v : A) m : k ∉ m.*1 → toml_insert k v m = m ++ [(k, v)].
Proof.
  induction m as [|[i x] m IH]; simpl; [done|]. intros [Hk Hm]%not_elem_of_cons.
  rewrite decide_False by done. by rewrite IH.
Qed.

Lemma toml_insert_keys {A} k (v : A) m : (toml_insert k v m).*1 = if decide (k ∈ m.*1) then m.*1 else m.*1 ++ [k].
Proof.
  induction m as [|[i x] m IH]; csimpl; [done|].
  destruct (decide (k = i)) as [->|Hk]; csimpl.
  - by rewrite decide_True by left.
  - rewrite IH. destruct (decide (k ∈ m.*1)).
    + by rewrite decide_True by by right.
    + by rewrite decide_False by (rewrite not_elem_of_cons; auto).
Qed.

Lemma toml_insert_NoDup {A} k (v : A) m : NoDup m.*1 → NoDup (toml_insert k v m).*1.
Proof.
  rewrite toml_insert_keys. intros Hm. case_decide; [done|]. apply NoDup_app. split; [done|].
  split; [by intros x Hx [->|[]%not_elem_of_nil]%elem_of_cons|apply NoDup_singleton].
Qed.

Lemma toml_rekey_NoDup {A} f (m : TomlMap A) : NoDup (toml_rekey f m).*1.
Proof.
  unfold toml_rekey. assert (∀ n : TomlMap A, NoDup n.*1 → NoDup (foldl (λ m '(k, v), toml_insert (f k) v m) n m).*1) as H.
  { induction m as [|[k v] m IH]; intros n Hn; [done|]. simpl. apply IH. by apply toml_insert_NoDup. }
  apply H, NoDup_nil_2.
Qed.

Lemma toml_rekey_id {A} (m : TomlMap A) : NoDup m.*1 → toml_rekey (λ k, k) m = m.
Proof.
  intros Hm. unfold toml_rekey.
  assert (∀ n : TomlMap A, NoDup (n ++ m).*1 → foldl (λ m '(k, v), toml_insert k v m) n m = n ++ m) as H; [|by apply H].
  clear Hm. induction m as [|[k v] m IH]; intros n Hn; simpl; [by rewrite app_nil_r|].
  rewrite insert_new.
  - rewrite IH; [by rewrite <- app_assoc|]. by rewrite <- app_assoc.
  - rewrite fmap_app in Hn. apply NoDup_app in Hn as (_ & Hn & _). intros Hk. apply (Hn _ Hk). by left.
Qed.

Lemma toml_remove_keys {A} k (m : TomlMap A) : (toml_remove k m).*1 = filter (λ j, j ≠ k) m.*1.
Proof.
  unfold toml_remove. induction m as [|[i x] m IH]; csimpl; [done|]. rewrite !filter_cons. csimpl.
  case_decide; csimpl; by rewrite IH.
Qed.

Lemma normalize_alias_NoDup {A} path (m : TomlMap A) alias : NoDup m.*1 → NoDup (normalize_alias path m alias).*1.
Proof.
  intros Hm. unfold normalize_alias. case_decide; [|done]. destruct (toml_get _ m); [|done].
  assert (NoDup (toml_remove (legacy_key alias) m).*1) as Hr by (rewrite toml_remove_keys; by apply NoDup_filter).
  unfold toml_or_insert. destruct (toml_get _ _) eqn:Hg; [done|].
  rewrite <- (insert_new (A:=A)) by by apply toml_get_None. by apply toml_insert_NoDup.
Qed.

Lemma normalize_aliases_NoDup {A} path (m : TomlMap A) : NoDup m.*1 → NoDup (normalize_key_aliases path m).*1.
Proof.
  unfold normalize_key_aliases. revert m. induction CONFIG_KEY_ALIASES as [|a l IH]; intros m Hm; [done|].
  simpl. apply IH. by apply normalize_alias_NoDup.
Qed.

(** Keys are changed without looking at the values. *)
Lemma toml_insert_fmap {A B} (f : A → B) k v (m : TomlMap A) :
  toml_insert k (f v) ((λ '(k, v), (k, f v)) <$> m) = (λ '(k, v), (k, f v)) <$> toml_insert k v m.
Proof. induction m as [|[i x] m IH]; csimpl; [done|]. case_decide; csimpl; [done|]. by rewrite IH. Qed.

Lemma toml_rekey_fmap {A B} (f : A → B) g (m : TomlMap A) :
  toml_rekey g ((λ '(k, v), (k, f v)) <$> m) = (λ '(k, v), (k, f v)) <$> toml_rekey g m.
Proof.
  unfold toml_rekey.
  assert (∀ n : TomlMap A, foldl (λ m '(k, v), toml_insert (g k) v m) ((λ '(k, v), (k, f v)) <$> n) ((λ '(k, v), (k, f v)) <$> m)
            = (λ '(k, v), (k, f v)) <$> foldl (λ m '(k, v), toml_insert (g k) v m) n m) as H; [|by apply (H [])].
  induction m as [|[k v] m IH]; intros n; [done|]. simpl. by rewrite toml_insert_fmap, IH.
Qed.

Lemma toml_remove_fmap {A B} (f : A → B) k (m : TomlMap A) :
  toml_remove k ((λ '(k, v), (k, f v)) <$> m) = (λ '(k, v), (k, f v)) <$> toml_remove k m.
Proof.
  unfold toml_remove. induction m as [|[i x] m IH]; csimpl; [done|]. rewrite !filter_cons. csimpl.
  case_decide; csimpl; by rewrite IH.
Qed.

Lemma normalize_alias_fmap {A B} (f : A → B) path (m : TomlMap A) alias :
  normalize_alias path ((λ '(k, v), (k, f v)) <$> m) alias = (λ '(k, v), (k, f v)) <$> normalize_alias path m alias.
Proof.
  unfold normalize_alias. case_decide; [|done]. rewrite (toml_get_fmap (λ _, f)).
  destruct (toml_get (legacy_key alias) m) as [x|]; [|done]. simpl. rewrite toml_remove_fmap.
  unfold toml_or_insert. rewrite (toml_get_fmap (λ _, f)).
  destruct (toml_get (canonical_key alias) _); [done|]. simpl. by rewrite fmap_app.
Qed.

Lemma normalize_aliases_fmap {A B} (f : A → B) path (m : TomlMap A) :
  normalize_key_aliases path ((λ '(k, v), (k, f v)) <$> m) = (λ '(k, v), (k, f v)) <$> normalize_key_aliases path m.
Proof.
  unfold normalize_key_aliases. revert m. induction CONFIG_KEY_ALIASES as [|a l IH]; intros m; [done|].
  simpl. by rewrite normalize_alias_fmap, IH.
Qed.

(** * Paths into a value *)

(** No table has a key twice: what a reader of TOML returns. *)
Fixpoint wf (v : TomlValue.t) : bool :=
  match v with
  | Table table => bool_decide (NoDup table.*1) && forallb (λ e, wf e.2) table
  | TomlValue.Array items => forallb wf items
  | _ => true
  end.

Fixpoint sub (v : TomlValue.t) (path : list str) : option TomlValue.t :=
  match path with
  | [] => Some v
  | key :: path => match v with Table table => v ← toml_get key table; sub v path | _ => None end
  end.
(** What is at a path, if it is not a table *)
Definition leaf (v : TomlValue.t) (path : list str) : option TomlValue.t :=
  match sub v path with Some (Table _) | None => None | Some x => Some x end.
(** A value says something about a path: there is a value, or one above the path
    that is not a table. *)
Fixpoint covers (v : TomlValue.t) (path : list str) : bool :=
  match path with
  | [] => true
  | key :: path =>
      match v with
      | Table table => match toml_get key table with Some v => covers v path | None => false end
      | _ => true
      end
  end.

(** Below these keys the merge also changes names or drops fields. *)
Definition special (path : list str) (key : str) : bool :=
  is_permission_network_domains_path path || is_shell_environment_filters_path path
  || bool_decide (path = [shell_environment_policy] ∧ key ∈ [lit "filters"; lit "exclude"; lit "include_only"]).
Fixpoint ordinary_from (path : list str) (rest : list str) : bool :=
  match rest with
  | [] => true
  | key :: rest => negb (special path key) && ordinary_from (path ++ [key]) rest
  end.
Definition ordinary (path : list str) : bool := ordinary_from [] path.

Lemma wf_table table : wf (Table table) = true ↔ NoDup table.*1 ∧ ∀ k v, toml_get k table = Some v → wf v = true.
Proof.
  simpl. rewrite andb_true_iff, bool_decide_eq_true, forallb_forall. split; intros [Hn Hf]; (split; [done|]).
  - intros k v Hv%toml_get_elem. apply list_elem_of_In in Hv. by apply (Hf (k, v)).
  - intros [k v] Hin%list_elem_of_In. apply (Hf k v). by apply toml_get_at.
Qed.

Lemma toml_ind (P : TomlValue.t → Prop) :
  (∀ v, (∀ t, v ≠ Table t) → P v) →
  (∀ table, (∀ k v, (k, v) ∈ table → P v) → P (Table table)) → ∀ v, P v.
Proof.
  intros Hother Htable. fix IH 1. intros [s|i|f|b|d|items|table]; try (apply Hother; by intros t).
  assert (Forall (λ e, P e.2) table) as Hall.
  { induction table as [|[k v] table IHt]; [constructor|]. constructor; [exact (IH v)|exact IHt]. }
  apply Htable. intros k v Hin. rewrite Forall_forall in Hall. by apply (Hall (k, v)).
Qed.

(** ** Aliases *)

Lemma alias_paths path : (∀ alias, alias ∈ CONFIG_KEY_ALIASES → path ≠ table_path alias) →
  ∀ {A} (m : TomlMap A), normalize_key_aliases path m = m.
Proof.
  unfold normalize_key_aliases. intros Ha A m. induction CONFIG_KEY_ALIASES as [|a l IH]; [done|]. simpl.
  unfold normalize_alias at 2. rewrite decide_False by (apply Ha; by left). apply IH.
  intros b Hb. apply Ha. by right.
Qed.

Lemma alias_table_path alias : alias ∈ CONFIG_KEY_ALIASES → ∃ key, table_path alias = [key].
Proof. intros [->|[->|[]%not_elem_of_nil]%elem_of_cons]%elem_of_cons; by eexists. Qed.

Lemma alias_paths_length {A} path (m : TomlMap A) : length path ≠ 1 → normalize_key_aliases path m = m.
Proof. intros Hl. apply alias_paths. intros alias [key ->]%alias_table_path ->. done. Qed.

Lemma rekey_children (f : str → TomlValue.t → TomlValue.t) (table : TomlMap TomlValue.t) :
  NoDup table.*1 → toml_rekey (λ key, key) ((λ '(key, child), (key, f key child)) <$> table) =
    (λ '(key, child), (key, f key child)) <$> table.
Proof.
  intros Hn. apply toml_rekey_id. replace ((_ <$> table).*1) with (table.*1); [done|].
  rewrite <- list_fmap_compose. apply list_fmap_ext. by intros _ [k v] _.
Qed.

(** Below the tables with aliases a value keeps its keys. *)
Lemma normalized_deep v path : wf v = true → 2 ≤ length path → normalized_with_key_aliases v path = v.
Proof.
  revert v path. fix IH 1. intros v path Hwf Hl. destruct v as [s|i|f|b|d|items|table]; try done.
  - simpl. f_equal. simpl in Hwf. induction items as [|item items IHi]; [done|]. simpl in *.
    apply andb_true_iff in Hwf as [Hi Hs]. f_equal; [by apply IH|by apply IHi].
  - cbn [normalized_with_key_aliases]. rewrite alias_paths_length by lia. f_equal.
    simpl in Hwf. apply andb_true_iff in Hwf as [Hn Hwf]. apply bool_decide_eq_true in Hn.
    rewrite rekey_children by done. clear Hn. induction table as [|[k v] table IHt]; [done|]. simpl in *.
    apply andb_true_iff in Hwf as [Hi Hs]. f_equal; [f_equal; apply IH; [done|rewrite length_app; lia]|by apply IHt].
Qed.

Lemma aliases_elem {A} path k (v : A) m : toml_get k (normalize_key_aliases path m) = Some v → ∃ j, (j, v) ∈ m.
Proof.
  unfold normalize_key_aliases. revert m. induction CONFIG_KEY_ALIASES as [|a l IH]; intros m; simpl.
  { intros Hv. exists k. by apply toml_get_elem. }
  intros [j Hj]%IH. unfold normalize_alias in Hj. case_decide; [|by exists j].
  destruct (toml_get (legacy_key a) m) as [x|] eqn:Hx; [|by exists j].
  unfold toml_or_insert, toml_remove in Hj. destruct (toml_get (canonical_key a) _).
  - exists j. by apply list_elem_of_filter in Hj as [_ Hj].
  - apply elem_of_app in Hj as [Hj|[= -> ->]%list_elem_of_singleton].
    + exists j. by apply list_elem_of_filter in Hj as [_ Hj].
    + exists (legacy_key a). by apply toml_get_elem.
Qed.

Lemma alias_gone {A} alias (m : TomlMap A) :
  alias ∈ CONFIG_KEY_ALIASES → toml_get (legacy_key alias) (normalize_key_aliases (table_path alias) m) = None.
Proof.
  assert (∀ b, legacy_key b ≠ canonical_key b → toml_get (legacy_key b) (normalize_alias (table_path b) m b) = None) as Hb.
  { intros b Hb. unfold normalize_alias. rewrite decide_True by done.
    destruct (toml_get (legacy_key b) m) eqn:Hg; [|done].
    rewrite toml_get_or_insert, decide_False, toml_get_remove by done. by rewrite decide_True. }
  assert (∀ b p (m : TomlMap A), p ≠ table_path b → normalize_alias p m b = m) as Hne.
  { intros b p m' Hp. unfold normalize_alias. by rewrite decide_False. }
  unfold normalize_key_aliases, CONFIG_KEY_ALIASES.
  intros [->|[->|[]%not_elem_of_nil]%elem_of_cons]%elem_of_cons; cbn [foldl].
  - rewrite (Hne (mkAlias [lit "agents"] _ _)) by done. by apply Hb.
  - rewrite (Hne (mkAlias [lit "memories"] _ _)) by done. by apply Hb.
Qed.

(** ** Values without legacy names *)

Definition canonical (path : list str) (v : TomlValue.t) : Prop :=
  ∀ alias p, alias ∈ CONFIG_KEY_ALIASES → path ++ p = table_path alias → sub v (p ++ [legacy_key alias]) = None.

Lemma canonical_aliases path table : canonical path (Table table) → normalize_key_aliases path table = table.
Proof.
  unfold canonical, normalize_key_aliases. intros Hc.
  induction CONFIG_KEY_ALIASES as [|a l IH]; [done|]. simpl.
  assert (normalize_alias path table a = table) as ->.
  { unfold normalize_alias. case_decide as Hp; [|done]. specialize (Hc a [] (list_elem_of_here _ _)).
    simpl in Hc. rewrite app_nil_r in Hc. apply Hc in Hp. by destruct (toml_get (legacy_key a) table). }
  apply IH. intros b p Hb. apply Hc. by right.
Qed.

Lemma canonical_child path table k v :
  canonical path (Table table) → toml_get k table = Some v → canonical (path ++ [k]) v.
Proof.
  intros Hc Hk alias p Ha Hp. rewrite <- app_assoc in Hp. apply (Hc alias (k :: p) Ha) in Hp. simpl in Hp.
  by rewrite Hk in Hp.
Qed.

(** It is enough to look at the tables with aliases and at the table above them. *)
Lemma canonical_cases path v :
  (∀ alias, alias ∈ CONFIG_KEY_ALIASES → path = table_path alias → sub v [legacy_key alias] = None) →
  (∀ alias k x, alias ∈ CONFIG_KEY_ALIASES → path = [] → table_path alias = [k] → sub v [k] = Some x →
     sub x [legacy_key alias] = None) →
  canonical path v.
Proof.
  intros H0 H1 alias p Ha Hp. destruct (alias_table_path alias Ha) as [k Hk]. rewrite Hk in Hp.
  destruct path as [|j path]; simpl in Hp.
  - subst p. simpl. destruct v as [| | | | | |table]; try done. destruct (toml_get k table) as [x|] eqn:Hx; [|done].
    apply (H1 alias k x); try done. simpl. by rewrite Hx.
  - injection Hp as -> Hp. apply app_nil in Hp as [-> ->]. simpl. by apply H0.
Qed.

(** ** The normalized value *)

Lemma normalized_table path table :
  wf (Table table) = true →
  ∃ table', normalized_with_key_aliases (Table table) path = Table table' ∧
    ∀ k, toml_get k table' =
      (λ child, normalized_with_key_aliases child (path ++ [k])) <$> toml_get k (normalize_key_aliases path table).
Proof.
  intros Hwf. pose proof (proj1 (wf_table table) Hwf) as [Hn Hs]. cbn [normalized_with_key_aliases].
  rewrite (rekey_children (λ key child, normalized_with_key_aliases child (path ++ [key]))) by done.
  eexists. split; [done|]. intros k. destruct (decide (length path = 1)) as [Hl|Hl].
  - assert (∀ key child, (key, child) ∈ table → ∀ j, normalized_with_key_aliases child (path ++ [j]) = child) as Hdeep.
    { intros key child Hin j. apply normalized_deep; [|rewrite length_app; simpl; lia].
      apply (Hs key). by apply toml_get_at. }
    assert ((λ '(key, child), (key, normalized_with_key_aliases child (path ++ [key]))) <$> table = table) as ->.
    { rewrite <- (list_fmap_id table) at 2. apply list_fmap_ext. intros i [key child] Hi%list_elem_of_lookup_2.
      simpl. f_equal. by eapply Hdeep. }
    destruct (toml_get k _) as [v|] eqn:Hv; [|done]. simpl. apply aliases_elem in Hv as [j Hj].
    f_equal. symmetry. by eapply Hdeep.
  - rewrite !alias_paths_length by done.
    by rewrite (toml_get_fmap (λ key child, normalized_with_key_aliases child (path ++ [key]))).
Qed.

Lemma normalized_other v path : (∀ t, v ≠ Table t) → ∀ t, normalized_with_key_aliases v path ≠ Table t.
Proof. intros Hv. destruct v as [| | | | | |t]; try done. by destruct (Hv t). Qed.

Lemma canonical_normalized v path : wf v = true → canonical path (normalized_with_key_aliases v path).
Proof.
  assert (∀ v alias, wf v = true → alias ∈ CONFIG_KEY_ALIASES →
            sub (normalized_with_key_aliases v (table_path alias)) [legacy_key alias] = None) as H0.
  { clear. intros v alias Hwf Ha. destruct v as [| | | | | |table]; try done.
    destruct (normalized_table (table_path alias) table Hwf) as (table' & -> & Ht). simpl.
    by rewrite Ht, alias_gone. }
  intros Hwf. apply canonical_cases; [by intros alias Ha ->; apply H0|].
  intros alias k x Ha -> Hk Hx. destruct v as [| | | | | |table]; try done.
  destruct (normalized_table [] table Hwf) as (table' & He & Ht). rewrite He in Hx. simpl in Hx.
  rewrite Ht in Hx. destruct (toml_get k _) as [c|] eqn:Hc; [|done]. simpl in Hx. injection Hx as <-.
  rewrite <- Hk. apply H0; [|done]. apply aliases_elem in Hc as [j Hj].
  pose proof (proj1 (wf_table table) Hwf) as [Hn Hs]. apply (Hs j). by apply toml_get_at.
Qed.

(** * A merge seen from a path *)

Section merge.
Context {C : ConfigLibs}.

(** The loop over the entries of the overlay *)
Lemma merge_entries_get {A V} (over : str → A → V → V) (fresh : str → A → V)
    (step : TomlMap V → str * A → TomlMap V) (entries : TomlMap A) (b : TomlMap V) k :
  (∀ b key x, step b (key, x) =
     match toml_get key b with
     | Some existing => toml_insert key (over key x existing) b
     | None => toml_insert key (fresh key x) b
     end) →
  NoDup entries.*1 →
  toml_get k (foldl step b entries) =
    match toml_get k entries with
    | Some x => Some (match toml_get k b with Some existing => over k x existing | None => fresh k x end)
    | None => toml_get k b
    end.
Proof.
  intros Hstep. revert b. induction entries as [|[j x] entries IH]; intros b; [done|]. csimpl.
  intros [Hj Hn]%NoDup_cons. rewrite IH, Hstep by done. case_decide as Hk.
  - subst j. apply toml_get_None in Hj as ->. destruct (toml_get k b); by rewrite toml_get_insert, decide_True.
  - destruct (toml_get j b); by rewrite toml_get_insert, decide_False.
Qed.

Lemma normalize_keys_plain {A} path k (m : TomlMap A) :
  special path k = false → normalize_keys path m = normalize_key_aliases path m.
Proof. unfold special, normalize_keys. intros [[-> ->]%orb_false_iff _]%orb_false_iff. done. Qed.

Lemma displaced_get path k overlay base :
  special path k = false →
  ∃ base', replace_shell_environment_policy_filter_representation (Table base) overlay path = Table base' ∧
    toml_get k (normalize_key_aliases path base') = toml_get k (normalize_key_aliases path base).
Proof.
  intros Hs. unfold replace_shell_environment_policy_filter_representation. case_decide as Hp; [|by exists base].
  destruct (from_policy overlay) as [r|]; [|by exists base]. eexists. split; [done|].
  assert (∀ A (m : TomlMap A), normalize_key_aliases path m = m) as Ha.
  { apply alias_paths. intros alias [->|[->|[]%not_elem_of_nil]%elem_of_cons]%elem_of_cons; by subst path. }
  rewrite !Ha. unfold special in Hs. apply orb_false_iff in Hs as [_ Hs]. apply bool_decide_eq_false in Hs.
  assert (∀ fields, (∀ f, f ∈ fields → k ≠ f) →
            ∀ m : TomlMap TomlValue.t, toml_get k (foldl (λ m f, toml_remove f m) m fields) = toml_get k m) as Hf.
  { induction fields as [|f fields IH]; intros Hne m; [done|]. simpl. rewrite IH by (intros; apply Hne; by right).
    rewrite toml_get_remove, decide_False; [done|]. apply Hne. by left. }
  apply Hf. intros f Hin ->. apply Hs. split; [done|].
  destruct r; cbn in Hin; rewrite !elem_of_cons in *; naive_solver.
Qed.

Lemma merge_table_get path o b :
  NoDup o.*1 →
  ∃ m, merge_toml_values_at_path (Table o) path (Table b) = Table m ∧
    ∀ k, special path k = false →
      toml_get k m =
        match toml_get k (normalize_key_aliases path o) with
        | Some v => Some (match toml_get k (normalize_key_aliases path b) with
                          | Some existing => merge_toml_values_at_path v (path ++ [k]) existing
                          | None => normalized_with_key_aliases v (path ++ [k])
                          end)
        | None => toml_get k (normalize_key_aliases path b)
        end.
Proof.
  intros Hn. cbn [merge_toml_values_at_path].
  assert (∃ b', replace_shell_environment_policy_filter_representation (Table b) (Table o) path = Table b') as [b' Hb'].
  { unfold replace_shell_environment_policy_filter_representation.
    case_decide; [destruct (from_policy _)|]; by eexists. }
  rewrite Hb'. eexists. split; [done|]. intros k Hs.
  destruct (displaced_get path k (Table o) b Hs) as (b1 & Hb1 & Hk). rewrite Hb' in Hb1. injection Hb1 as <-.
  rewrite !(normalize_keys_plain path k) by done.
  rewrite normalize_aliases_fmap with (f := λ v, (v, merge_toml_values_at_path v)).
  rewrite (merge_entries_get (λ key x existing, x.2 (path ++ [key]) existing)
             (λ key x, normalized_with_key_aliases x.1 (path ++ [key]))); [|by intros ? ? []|].
  - rewrite (toml_get_fmap (λ _ v, (v, merge_toml_values_at_path v))), Hk. by destruct (toml_get k (normalize_key_aliases path o)).
  - replace ((_ <$> normalize_key_aliases path o).*1) with ((normalize_key_aliases path o).*1).
    + by apply normalize_aliases_NoDup.
    + rewrite <- list_fmap_compose. apply list_fmap_ext. by intros _ [j v] _.
Qed.

Lemma merge_other overlay path base :
  (∀ t, overlay ≠ Table t) ∨ (∀ t, base ≠ Table t) →
  merge_toml_values_at_path overlay path base = normalized_with_key_aliases overlay path.
Proof.
  intros [Ho|Hb]; destruct overlay as [| | | | | |o]; try done; [by destruct (Ho o)|].
  cbn [merge_toml_values_at_path]. unfold replace_shell_environment_policy_filter_representation.
  destruct base as [| | | | | |b]; try (by destruct (Hb b)); by repeat case_match.
Qed.

Lemma canonical_merge v path base :
  wf v = true → canonical path base → canonical path (merge_toml_values_at_path v path base).
Proof.
  assert (∀ v base alias, wf v = true → alias ∈ CONFIG_KEY_ALIASES →
            sub (merge_toml_values_at_path v (table_path alias) base) [legacy_key alias] = None) as H0.
  { clear. intros v base alias Hwf Ha. pose proof (canonical_normalized v (table_path alias) Hwf) as Hc.
    specialize (Hc alias [] Ha). rewrite app_nil_r in Hc. specialize (Hc eq_refl). simpl in Hc.
    destruct v as [| | | | | |o]; try exact Hc.
    destruct base as [| | | | | |b]; try (rewrite merge_other; [exact Hc|by right]).
    destruct (merge_table_get (table_path alias) o b) as (m & -> & Hm); [by apply wf_table in Hwf as [? _]|]. simpl.
    rewrite Hm, !alias_gone by
      (done || by apply elem_of_cons in Ha as [->|[->|[]%not_elem_of_nil]%elem_of_cons]). done. }
  intros Hwf Hb. apply canonical_cases; [by intros alias Ha ->; apply H0|]. intros alias k x Ha -> Hk Hx.
  pose proof (canonical_normalized v [] Hwf) as Hc.
  assert (sub (normalized_with_key_aliases v []) [k] = Some x → sub x [legacy_key alias] = None) as Hn.
  { intros Hx'. specialize (Hc alias [k] Ha (eq_sym Hk)). simpl in Hc, Hx'.
    destruct (normalized_with_key_aliases v []) as [| | | | | |t]; try done.
    destruct (toml_get k t); simpl in *; [by simplify_eq|done]. }
  destruct v as [| | | | | |o]; try by apply Hn.
  destruct base as [| | | | | |b]; try (rewrite merge_other in Hx; [by apply Hn|by right]).
  destruct (merge_table_get [] o b) as (m & Hm & Hget); [by apply wf_table in Hwf as [? _]|].
  rewrite Hm in Hx. simpl in Hx. rewrite Hget, !alias_paths_length in Hx by done.
  apply wf_table in Hwf as Hwf'. destruct Hwf' as [_ Hs].
  destruct (toml_get k o) as [v|] eqn:Hv; [destruct (toml_get k b) as [e|] eqn:He|]; simpl in Hx.
  - injection Hx as <-. rewrite <- Hk. apply H0; [by eapply Hs|done].
  - injection Hx as <-. rewrite <- Hk. pose proof (canonical_normalized v (table_path alias) (Hs _ _ Hv)) as Hcv.
    apply (Hcv alias []); [done|by rewrite app_nil_r].
  - specialize (Hb alias [k] Ha (eq_sym Hk)). simpl in Hb.
    destruct (toml_get k b); simpl in *; [by simplify_eq|done].
Qed.

(** ** What a path shows *)

Lemma leaf_cons table k path :
  leaf (Table table) (k :: path) = toml_get k table ≫= λ v, leaf v path.
Proof. unfold leaf. simpl. by destruct (toml_get k table). Qed.

Lemma covers_other v path : (∀ t, v ≠ Table t) → covers v path = true.
Proof. intros Hv. destruct path; [done|]. destruct v as [| | | | | |t]; try done. by destruct (Hv t). Qed.

Lemma leaf_uncovered v path : covers v path = false → leaf v path = None.
Proof.
  revert v. induction path as [|k path IH]; intros v; [done|]. destruct v as [| | | | | |t]; try done.
  rewrite leaf_cons. simpl. destruct (toml_get k t); simpl; [apply IH|done].
Qed.

Lemma leaf_of_table table : leaf (Table table) [] = None.
Proof. done. Qed.

Lemma merge_leaf v path base p :
  wf v = true → ordinary_from path p = true → canonical path base →
  leaf (merge_toml_values_at_path v path base) p =
    let overlay := normalized_with_key_aliases v path in
    if covers overlay p then leaf overlay p else leaf base p.
Proof.
  cbn zeta. revert path base p. induction v as [v Hother|o IH] using toml_ind; intros path base p Hwf Hord Hc.
  { rewrite merge_other by by left. by rewrite covers_other by by apply normalized_other. }
  destruct (normalized_table path o Hwf) as (o' & Ho' & Hget).
  assert ((∃ b, base = Table b) ∨ ∀ t, base ≠ Table t) as [[b ->]|Hb]
    by (destruct base; try (by right); left; by eexists).
  2: { rewrite merge_other by by right. rewrite Ho'. destruct (covers (Table o') p) eqn:Hp; [done|].
       rewrite leaf_uncovered by done. destruct p as [|k p]; [done|].
       destruct base as [| | | | | |t]; try done. by destruct (Hb t). }
  pose proof (proj1 (wf_table o) Hwf) as [Hn Hs].
  destruct (merge_table_get path o b Hn) as (m & -> & Hm). rewrite Ho'.
  destruct p as [|k p]; [done|]. simpl in Hord. apply andb_true_iff in Hord as [Hsp%negb_true_iff Hord].
  rewrite !leaf_cons, Hm by done. simpl. rewrite Hget, (canonical_aliases path b) by done.
  destruct (toml_get k (normalize_key_aliases path o)) as [v|] eqn:Hv; [|done]. simpl.
  apply aliases_elem in Hv as [j Hj].
  assert (wf v = true) as Hwv by (apply (Hs j); by apply toml_get_at).
  destruct (toml_get k b) as [e|] eqn:He; simpl.
  - apply (IH j v Hj); [done..|]. by eapply canonical_child.
  - destruct (covers _ p) eqn:Hp; [done|]. by apply leaf_uncovered.
Qed.

End merge.

(** * Overrides of the command line *)

Lemma apply_override_cons v k i segments value :
  apply_override v (k :: i :: segments) value =
    let table := default [] (as_table v) in
    Table (toml_insert k (apply_override (default (Table []) (toml_get k table)) (i :: segments) value) table).
Proof. done. Qed.
Lemma sub_cons table k path : sub (Table table) (k :: path) = toml_get k table ≫= λ v, sub v path.
Proof. done. Qed.

Lemma override_read_back segments v value :
  segments ≠ [] → sub (apply_override v segments value) segments = Some value.
Proof.
  revert v. induction segments as [|k segments IH]; [done|]. intros v _. destruct segments as [|j segments].
  - destruct v; simpl; rewrite ?toml_get_insert, ?decide_True by done; done.
  - rewrite apply_override_cons. cbn zeta. rewrite sub_cons, toml_get_insert, decide_True by done. by apply IH.
Qed.

(** What is neither above nor below the path stays. *)
Lemma override_elsewhere segments v value path :
  ¬ segments `prefix_of` path → ¬ path `prefix_of` segments →
  sub (apply_override v segments value) path = sub v path.
Proof.
  revert v path. induction segments as [|k segments IH]; intros v path Hs Hp; [destruct Hs; apply prefix_nil|].
  destruct path as [|j path]; [destruct Hp; apply prefix_nil|].
  assert (∀ table : TomlMap TomlValue.t, j ≠ k → ∀ x, toml_get j (toml_insert k x table) = toml_get j table) as Hother
    by (intros table Hjk x; by rewrite toml_get_insert, decide_False).
  destruct segments as [|i segments].
  - assert (j ≠ k) as Hjk by (intros ->; apply Hs, prefix_cons, prefix_nil).
    destruct v; simpl; rewrite ?Hother, ?decide_False by done; done.
  - rewrite apply_override_cons. cbn zeta. rewrite sub_cons. destruct (decide (j = k)) as [->|Hjk].
    + rewrite toml_get_insert, decide_True by done.
      assert (path ≠ []) as Hne by (intros ->; apply Hp, prefix_cons, prefix_nil).
      change (sub (apply_override (default (Table []) (toml_get k (default [] (as_table v)))) (i :: segments) value) path
              = sub v (k :: path)).
      rewrite IH; [|by intros Hc; apply Hs, prefix_cons|by intros Hc; apply Hp, prefix_cons].
      destruct v as [| | | | | |t]; simpl; try by destruct path.
      destruct (toml_get k t); simpl; [done|by destruct path].
    + rewrite Hother by done. by destruct v.
Qed.

(** Each override is read back, if no later one is above or below it. *)
Lemma cli_override_read_back before path value after :
  Forall (λ e, ¬ split_on 46 e.1 `prefix_of` split_on 46 path ∧ ¬ split_on 46 path `prefix_of` split_on 46 e.1) after →
  sub (build_cli_overrides_layer (before ++ (path, value) :: after)) (split_on 46 path) = Some value.
Proof.
  intros Hafter. unfold build_cli_overrides_layer. rewrite foldl_app. simpl.
  generalize (foldl (λ root '(path, value), apply_toml_override root path value) (Table []) before) as root. intros root.
  assert (sub (apply_toml_override root path value) (split_on 46 path) = Some value) as Hs
    by apply override_read_back, split_on_nonempty.
  revert Hs. generalize (apply_toml_override root path value) as v.
  induction Hafter as [|[q x] after [Hq Hq'] _ IH]; intros v Hs; [done|]. simpl. apply IH.
  unfold apply_toml_override. by rewrite override_elsewhere.
Qed.
