(* ===== verification/ConfigLayers.v ===== *)
(** The stack of configuration layers: [config/src/state.rs] with the sources of
    [config_layer_source.rs], and the constrained values of [constraint.rs].
    What the loader finds on the disk is the list of layers a stack is made of;
    the requirements a stack carries along are a type of their own. *)

From S2P Require Import Prelude Text Paths NetworkHosts ConfigValues.

(** * Sources *)

Module ConfigLayerSource.
Inductive t :=
| Mdm (domain key : str)
| System (file : AbsolutePathBuf)
| EnterpriseManaged (id name : str)
| User (file : AbsolutePathBuf) (profile : option str)
| Project (dot_codex_folder : AbsolutePathBuf)
| SessionFlags
| LegacyManagedConfigTomlFromFile (file : AbsolutePathBuf)
| LegacyManagedConfigTomlFromMdm.
End ConfigLayerSource.
Abbreviation User := ConfigLayerSource.User.
Abbreviation Project := ConfigLayerSource.Project.

(** [ConfigLayerSource::precedence], which is how sources are compared *)
Definition precedence (source : ConfigLayerSource.t) : Z :=
  match source with
  | ConfigLayerSource.Mdm _ _ => 0
  | ConfigLayerSource.System _ => 10
  | ConfigLayerSource.EnterpriseManaged _ _ => 15
  | User _ profile => if bool_decide (is_Some profile) then 21 else 20
  | Project _ => 25
  | ConfigLayerSource.SessionFlags => 30
  | ConfigLayerSource.LegacyManagedConfigTomlFromFile _ => 40
  | ConfigLayerSource.LegacyManagedConfigTomlFromMdm => 50
  end.

Definition CONFIG_TOML_FILE : str := lit "config.toml".

Definition format_config_layer_source (source : ConfigLayerSource.t) (config_toml_file : str) : str :=
  match source with
  | ConfigLayerSource.Mdm domain key => lit "MDM (" ++ domain ++ lit ":" ++ key ++ lit ")"
  | ConfigLayerSource.System file => lit "system (" ++ path_text file ++ lit ")"
  | ConfigLayerSource.EnterpriseManaged id name => lit "enterprise-managed (" ++ name ++ lit ", " ++ id ++ lit ")"
  | User file _ => lit "user (" ++ path_text file ++ lit ")"
  | Project dot_codex_folder =>
      lit "project (" ++ path_text dot_codex_folder ++ lit "/" ++ config_toml_file ++ lit ")"
  | ConfigLayerSource.SessionFlags => lit "session-flags"
  | ConfigLayerSource.LegacyManagedConfigTomlFromFile file =>
      lit "legacy managed_config.toml (" ++ path_text file ++ lit ")"
  | ConfigLayerSource.LegacyManagedConfigTomlFromMdm => lit "legacy managed_config.toml (MDM)"
  end.

(** [ProfileV2Name::from_str] *)
Definition is_profile_byte (c : N) : bool :=
  bool_decide ((48 ≤ c ≤ 57) ∨ (65 ≤ c ≤ 90) ∨ (97 ≤ c ≤ 122) ∨ c = 95 ∨ c = 45)%N.
Definition parse_profile_v2_name (value : str) : option str :=
  if is_nil value || negb (forallb is_profile_byte value) then None else Some value.

(** * Layers *)

Record RawTomlLayer := mkRawToml { contents : str; base_dir : AbsolutePathBuf }.
Record ConfigLayerEntry := mkLayer {
  name : ConfigLayerSource.t;
  config : TomlValue.t;
  version : str;
  disabled_reason : option str;
  layer_raw_toml : option RawTomlLayer;
  hooks_config_folder_override : option AbsolutePathBuf
}.
Record ConfigLayerMetadata := mkMetadata { metadata_name : ConfigLayerSource.t; metadata_version : str }.

Inductive ConfigLayerStackOrdering := LowestPrecedenceFirst | HighestPrecedenceFirst.

Section layers.
Context {C : ConfigLibs}.

Definition new_layer (name : ConfigLayerSource.t) (config : TomlValue.t) : ConfigLayerEntry :=
  mkLayer name config (version_for_toml config) None None None.
Definition new_with_raw_toml (name : ConfigLayerSource.t) (config : TomlValue.t) (raw_toml : str)
    (raw_toml_base_dir : AbsolutePathBuf) : ConfigLayerEntry :=
  mkLayer name config (version_for_toml config) None (Some (mkRawToml raw_toml raw_toml_base_dir)) None.
Definition new_disabled (name : ConfigLayerSource.t) (config : TomlValue.t) (disabled_reason : str) : ConfigLayerEntry :=
  mkLayer name config (version_for_toml config) (Some disabled_reason) None None.

Implicit Types (layer : ConfigLayerEntry).

Definition is_disabled layer : bool := bool_decide (is_Some (disabled_reason layer)).
Definition raw_toml layer : option str := contents <$> layer_raw_toml layer.
Definition raw_toml_base_dir layer : option AbsolutePathBuf := base_dir <$> layer_raw_toml layer.
Definition with_hooks_config_folder_override (folder : option AbsolutePathBuf) layer : ConfigLayerEntry :=
  mkLayer (name layer) (config layer) (version layer) (disabled_reason layer) (layer_raw_toml layer) folder.
Definition metadata layer : ConfigLayerMetadata := mkMetadata (name layer) (version layer).

Definition config_folder layer : option AbsolutePathBuf :=
  match name layer with
  | ConfigLayerSource.System file => parent file
  | User file _ => parent file
  | Project dot_codex_folder => Some dot_codex_folder
  | ConfigLayerSource.Mdm _ _ | ConfigLayerSource.EnterpriseManaged _ _ | ConfigLayerSource.SessionFlags
  | ConfigLayerSource.LegacyManagedConfigTomlFromFile _ | ConfigLayerSource.LegacyManagedConfigTomlFromMdm => None
  end.
Definition hooks_config_folder layer : option AbsolutePathBuf :=
  match hooks_config_folder_override layer with Some folder => Some folder | None => config_folder layer end.

Definition is_user layer : bool := match name layer with User _ _ => true | _ => false end.

(** * The stack *)

Section stack.
Context {Requirements RequirementsToml : Type}.

Record ConfigLayerStack := mkStack {
  layers : list ConfigLayerEntry;
  user_layer_index : option nat;
  requirements : Requirements;
  requirements_toml : RequirementsToml;
  ignore_user_and_project_exec_policy_rules : bool;
  startup_warnings : option (list str)
}.
Implicit Types (s : ConfigLayerStack).

(** An [io::Error] of kind [InvalidData] is its text. *)
Definition validate_layer layer : result str unit :=
  if is_disabled layer then Ok ()
  else result_map_err (λ error,
         lit "invalid shell environment policy in "
           ++ format_config_layer_source (name layer) CONFIG_TOML_FILE ++ lit ": " ++ error)
         (validate_shell_environment_policy_filter_config (config layer)).
Definition validate_enabled_config_layers (layers : list ConfigLayerEntry) : result str unit :=
  result_map (λ _, ()) (try_map validate_layer layers).

Fixpoint is_sorted (sources : list ConfigLayerSource.t) : bool :=
  match sources with
  | [] => true
  | a :: rest =>
      match rest with
      | [] => true
      | b :: _ => bool_decide (precedence a ≤ precedence b)%Z && is_sorted rest
      end
  end.

(** The loop of [verify_layer_ordering]: the index of the last user layer so far
    and the last project folder. *)
Definition check_project (previous : option AbsolutePathBuf) (current : AbsolutePathBuf) : result str unit :=
  match previous with
  | None => Ok ()
  | Some previous =>
      match parent previous with
      | None => Err (lit "project layer has no parent directory")
      | Some parent =>
          if bool_decide (previous = current)
             || negb (existsb (λ ancestor, bool_decide (ancestor = parent)) (ancestors current))
          then Err (lit "project layers are not ordered from root to cwd")
          else Ok ()
      end
  end.
Fixpoint verify_projects (index : nat) (user_layer_index : option nat) (previous : option AbsolutePathBuf)
    (layers : list ConfigLayerEntry) : result str (option nat) :=
  match layers with
  | [] => Ok user_layer_index
  | layer :: layers =>
      let user_layer_index := if is_user layer then Some index else user_layer_index in
      match name layer with
      | Project current =>
          let? _ := check_project previous current in
          verify_projects (S index) user_layer_index (Some current) layers
      | _ => verify_projects (S index) user_layer_index previous layers
      end
  end.
Definition verify_layer_ordering (layers : list ConfigLayerEntry) : result str (option nat) :=
  if is_sorted (name <$> layers) then verify_projects 0 None None layers
  else Err (lit "config layers are not in correct precedence order").

(** [ConfigLayerStack::new] *)
Definition new_stack (layers : list ConfigLayerEntry) (requirements : Requirements)
    (requirements_toml : RequirementsToml) : result str ConfigLayerStack :=
  let? _ := validate_enabled_config_layers layers in
  let? user_layer_index := verify_layer_ordering layers in
  Ok (mkStack layers user_layer_index requirements requirements_toml false None).

Definition with_user_and_project_exec_policy_rules_ignored (ignored : bool) s : ConfigLayerStack :=
  mkStack (layers s) (user_layer_index s) (requirements s) (requirements_toml s) ignored (startup_warnings s).
Definition with_startup_warnings (warnings : list str) s : ConfigLayerStack :=
  mkStack (layers s) (user_layer_index s) (requirements s) (requirements_toml s)
    (ignore_user_and_project_exec_policy_rules s) (Some warnings).

Definition get_layers (ordering : ConfigLayerStackOrdering) (include_disabled : bool) s : list ConfigLayerEntry :=
  let found := filter (λ layer, include_disabled || negb (is_disabled layer)) (layers s) in
  match ordering with HighestPrecedenceFirst => reverse found | LowestPrecedenceFirst => found end.
Definition layers_high_to_low s : list ConfigLayerEntry := get_layers HighestPrecedenceFirst false s.
Definition get_user_layers (ordering : ConfigLayerStackOrdering) (include_disabled : bool) s : list ConfigLayerEntry :=
  filter (λ layer, is_user layer) (get_layers ordering include_disabled s).
Definition get_active_user_layer s : option ConfigLayerEntry := user_layer_index s ≫= (layers s !!.).
Definition get_user_config_file s : option AbsolutePathBuf :=
  layer ← get_active_user_layer s; match name layer with User file _ => Some file | _ => None end.

Definition merge_layers (layers : list ConfigLayerEntry) : TomlValue.t :=
  foldl (λ merged layer, merge_toml_values merged (config layer)) (Table []) layers.
Definition effective_config s : TomlValue.t := merge_layers (get_layers LowestPrecedenceFirst false s).
Definition effective_user_config s : option TomlValue.t :=
  let user_layers := get_user_layers LowestPrecedenceFirst false s in
  if is_nil user_layers then None else Some (merge_layers user_layers).

Definition origins s : gmap str ConfigLayerMetadata :=
  foldl (λ origins layer,
    record_origins (normalized_with_key_aliases (config layer) []) (metadata layer) [] origins)
    ∅ (get_layers LowestPrecedenceFirst false s).

(** ** Replacing user layers *)

(** [position], with [insert] there or [push] *)
Fixpoint insert_layer (user_layer : ConfigLayerEntry) (layers : list ConfigLayerEntry) : list ConfigLayerEntry :=
  match layers with
  | [] => [user_layer]
  | layer :: rest =>
      if bool_decide (precedence (name user_layer) < precedence (name layer))%Z then user_layer :: layers
      else layer :: insert_layer user_layer rest
  end.
Definition has_user_file (config_toml : AbsolutePathBuf) layer : bool :=
  match name layer with User file _ => bool_decide (file = config_toml) | _ => false end.
Fixpoint remove_first (P : ConfigLayerEntry → bool) (layers : list ConfigLayerEntry) : list ConfigLayerEntry :=
  match layers with
  | [] => []
  | layer :: layers => if P layer then layers else layer :: remove_first P layers
  end.
(** [iter().enumerate().rev().find_map(..)] *)
Definition last_user_index (layers : list ConfigLayerEntry) : option nat :=
  last (omap (λ '(index, layer), if is_user layer then Some index else None) (imap pair layers)).
Definition set_layers (layers : list ConfigLayerEntry) s : ConfigLayerStack :=
  mkStack layers (last_user_index layers) (requirements s) (requirements_toml s)
    (ignore_user_and_project_exec_policy_rules s) (startup_warnings s).

Definition with_user_config_profile (config_toml : AbsolutePathBuf) (profile : option str)
    (user_config : TomlValue.t) s : result str ConfigLayerStack :=
  let user_layer := new_layer (User config_toml profile) user_config in
  let? _ := validate_enabled_config_layers [user_layer] in
  Ok (set_layers (insert_layer user_layer (remove_first (has_user_file config_toml) (layers s))) s).

(** [find_map] goes on after a layer whose profile is missing or is no name. *)
Definition profile_of_file (config_toml : AbsolutePathBuf) layer : option str :=
  match name layer with
  | User file profile => if decide (file = config_toml) then profile ≫= parse_profile_v2_name else None
  | _ => None
  end.
Definition with_user_config (config_toml : AbsolutePathBuf) (user_config : TomlValue.t) s : result str ConfigLayerStack :=
  let profile := head (omap (profile_of_file config_toml) (layers s)) in
  with_user_config_profile config_toml profile user_config s.

Definition with_user_layer_from (other : ConfigLayerStack) s : ConfigLayerStack :=
  let user_layers := filter (λ layer, is_user layer) (layers other) in
  let kept := filter (λ layer, negb (is_user layer)) (layers s) in
  set_layers (foldl (λ layers user_layer, insert_layer user_layer layers) kept user_layers) s.

End stack.
End layers.

Arguments ConfigLayerStack : clear implicits.
