(* ===== verification/ConfigLayersSpec.v ===== *)
(** What a stack of layers promises: its order survives every edit of the user
    layers, the highest layer decides, the two forms of the filters of the shell
    environment are never mixed, and the origin of a value is the layer that
    decides it. *)

From Stdlib Require Import Sorted.
From S2P Require Import Prelude Text Paths NetworkHosts ConfigValues ConfigMergeSpec ConfigLayers.

Section layers.
Context {C : ConfigLibs} {Requirements RequirementsToml : Type}.
Abbreviation Stack := (ConfigLayerStack Requirements RequirementsToml).
Implicit Types (s : Stack) (layer : ConfigLayerEntry) (ls : list ConfigLayerEntry).

(** * Order *)

Definition above (a b : ConfigLayerEntry) : Prop := (precedence (name a) ≤ precedence (name b))%Z.

Lemma is_sorted_spec ls : is_sorted (name <$> ls) = true ↔ StronglySorted above ls.
Proof.
  split.
  - intros Hs. apply Sorted_StronglySorted; [intros a b c; unfold above; lia|].
    induction ls as [|a ls IH]; [constructor|]. csimpl in Hs. constructor.
    + apply IH. by destruct ls; [|csimpl in Hs; apply andb_true_iff in Hs as [_ Hs]].
    + destruct ls as [|b ls]; constructor. csimpl in Hs. apply andb_true_iff in Hs as [Hs _].
      by apply bool_decide_eq_true in Hs.
  - induction 1 as [|a ls Hs IH Ha]; [done|]. csimpl. destruct ls as [|b ls]; [done|]. csimpl.
    apply andb_true_iff. split; [|exact IH]. apply bool_decide_eq_true. by apply Forall_cons in Ha as [Ha _].
Qed.

Lemma insert_layer_elem u ls x : x ∈ insert_layer u ls → x = u ∨ x ∈ ls.
Proof.
  induction ls as [|l ls IH]; simpl; [by intros ->%list_elem_of_singleton; left|].
  case_bool_decide; [by intros [->|Hx]%elem_of_cons; [left|right]|].
  intros [->|[->|Hx]%IH]%elem_of_cons; [by right; left|by left|by right; right].
Qed.

Lemma insert_layer_sorted u ls : StronglySorted above ls → StronglySorted above (insert_layer u ls).
Proof.
  induction 1 as [|l ls Hs IH Hl]; simpl; [by repeat constructor|]. case_bool_decide as Hlt.
  - constructor; [by constructor|]. constructor; [unfold above; lia|].
    eapply Forall_impl; [exact Hl|]. unfold above. intros x Hx. lia.
  - constructor; [done|]. apply Forall_forall. intros x [->|Hx]%insert_layer_elem; [unfold above; lia|].
    rewrite Forall_forall in Hl. by apply Hl.
Qed.

Lemma remove_first_sublist P ls : remove_first P ls `sublist_of` ls.
Proof.
  induction ls as [|l ls IH]; simpl; [done|]. destruct (P l); [by apply sublist_cons|by apply sublist_skip].
Qed.

Lemma sorted_sublist (l k : list ConfigLayerEntry) : l `sublist_of` k → StronglySorted above k → StronglySorted above l.
Proof.
  induction 1 as [|x l k Hlk IH|x l k Hlk IH]; [done| |]; intros Hs; apply StronglySorted_inv in Hs as [Hs Hx].
  - constructor; [by apply IH|]. rewrite Forall_forall in *. intros y Hy. apply Hx. by eapply elem_of_submseteq, sublist_submseteq.
  - by apply IH.
Qed.

(** ** The projects *)

Definition project_folder layer : option AbsolutePathBuf :=
  match name layer with Project folder => Some folder | _ => None end.
Fixpoint check_projects (previous : option AbsolutePathBuf) (folders : list AbsolutePathBuf) : result str unit :=
  match folders with
  | [] => Ok ()
  | folder :: folders => let? _ := check_project previous folder in check_projects (Some folder) folders
  end.
Definition user_indexes (from : nat) ls : list nat :=
  omap (λ '(index, layer), if is_user layer then Some index else None) (imap (λ i, pair (from + i)) ls).

Lemma user_indexes_cons from l ls :
  user_indexes from (l :: ls) = (if is_user l then [from] else []) ++ user_indexes (S from) ls.
Proof.
  unfold user_indexes. simpl. rewrite Nat.add_0_r.
  replace (imap ((λ i, pair (from + i)) ∘ S) ls) with (imap (λ i : nat, pair (S from + i)) ls)
    by (apply imap_ext; intros i x _; simpl; f_equal; lia).
  by destruct (is_user l).
Qed.

Lemma last_or {A} (l : list A) x : last (x :: l) = match last l with Some y => Some y | None => Some x end.
Proof. destruct l as [|y l] using rev_ind; [done|]. by rewrite app_comm_cons, !last_snoc. Qed.

Lemma verify_projects_spec index u previous ls :
  verify_projects index u previous ls =
    (let? _ := check_projects previous (omap project_folder ls) in
     Ok (match last (user_indexes index ls) with Some i => Some i | None => u end)).
Proof.
  revert index u previous. induction ls as [|l ls IH]; intros index u previous; [done|].
  rewrite user_indexes_cons. cbn [verify_projects]. unfold is_user, project_folder.
  csimpl. destruct (name l) as [| | |file profile|folder| | |] eqn:Hl; csimpl; rewrite ?Hl; csimpl;
    try (rewrite IH; unfold project_folder; done).
  - rewrite IH. unfold project_folder. destruct (check_projects _ _); [|done]. simpl. f_equal.
    change (index :: user_indexes (S index) ls) with ([index] ++ user_indexes (S index) ls).
    cbn [app]. rewrite last_or. by destruct (last _).
  - destruct (check_project previous folder); [|done]. cbn. apply IH.
Qed.

Lemma last_user_index_spec ls : last_user_index ls = last (user_indexes 0 ls).
Proof. done. Qed.

Lemma verify_spec ls :
  verify_layer_ordering ls = Ok (last_user_index ls) ↔
  StronglySorted above ls ∧ check_projects None (omap project_folder ls) = Ok ().
Proof.
  unfold verify_layer_ordering. rewrite <- is_sorted_spec, verify_projects_spec, last_user_index_spec.
  destruct (is_sorted _); [|naive_solver]. destruct (check_projects _ _) as [[]|]; simpl; [|naive_solver].
  destruct (last _); naive_solver.
Qed.

Lemma verify_index ls i : verify_layer_ordering ls = Ok i → i = last_user_index ls.
Proof.
  unfold verify_layer_ordering. rewrite verify_projects_spec, last_user_index_spec.
  destruct (is_sorted _); [|done]. destruct (check_projects _ _); [|done]. simpl. intros [= <-]. by destruct (last _).
Qed.

Lemma user_has_no_project layer : is_user layer = true → project_folder layer = None.
Proof. unfold is_user, project_folder. by destruct (name layer). Qed.

Lemma insert_layer_projects u ls :
  is_user u = true → omap project_folder (insert_layer u ls) = omap project_folder ls.
Proof.
  intros Hu%user_has_no_project. induction ls as [|l ls IH]; csimpl; [by rewrite Hu|].
  case_bool_decide; csimpl; [by rewrite Hu|]. by rewrite IH.
Qed.

Lemma remove_first_projects P ls :
  (∀ l, P l = true → is_user l = true) → omap project_folder (remove_first P ls) = omap project_folder ls.
Proof.
  intros HP. induction ls as [|l ls IH]; [done|]. csimpl. destruct (P l) eqn:Hl; csimpl; [|by rewrite IH].
  by rewrite user_has_no_project by by apply HP.
Qed.

Lemma filter_projects ls : omap project_folder (filter (λ layer, negb (is_user layer)) ls) = omap project_folder ls.
Proof.
  induction ls as [|l ls IH]; [done|]. rewrite filter_cons. csimpl. case_decide as Hl; csimpl; [by rewrite IH|].
  rewrite user_has_no_project; [done|]. by destruct (is_user l); [|destruct Hl].
Qed.

(** * Stacks that can be made *)

Lemma validate_spec ls : validate_enabled_config_layers ls = Ok () ↔ Forall (λ l, validate_layer l = Ok ()) ls.
Proof.
  unfold validate_enabled_config_layers. induction ls as [|l ls IH]; simpl; [by split|].
  rewrite Forall_cons. destruct (validate_layer l) as [[]|e]; [|naive_solver]. cbn.
  destruct (try_map validate_layer ls); cbn in *; naive_solver.
Qed.

(** A stack that [new] accepts, and every stack edits of it make. *)
Inductive reachable : Stack → Prop :=
| reachable_new ls requirements requirements_toml s :
    new_stack ls requirements requirements_toml = Ok s → reachable s
| reachable_user_config file user_config s s' :
    reachable s → with_user_config file user_config s = Ok s' → reachable s'
| reachable_user_config_profile file profile user_config s s' :
    reachable s → with_user_config_profile file profile user_config s = Ok s' → reachable s'
| reachable_user_layer_from other s : reachable s → reachable other → reachable (with_user_layer_from other s)
| reachable_rules_ignored ignored s :
    reachable s → reachable (with_user_and_project_exec_policy_rules_ignored ignored s)
| reachable_warnings warnings s : reachable s → reachable (with_startup_warnings warnings s).

Definition stack_ok s : Prop :=
  verify_layer_ordering (layers s) = Ok (user_layer_index s) ∧ validate_enabled_config_layers (layers s) = Ok ().

Lemma insert_layer_Forall (P : ConfigLayerEntry → Prop) u ls : P u → Forall P ls → Forall P (insert_layer u ls).
Proof. intros Hu Hls. rewrite Forall_forall in *. intros x [->|Hx]%insert_layer_elem; [done|by apply Hls]. Qed.

Lemma set_layers_ok ls s :
  StronglySorted above ls → check_projects None (omap project_folder ls) = Ok () →
  Forall (λ l, validate_layer l = Ok ()) ls → stack_ok (set_layers ls s).
Proof. intros Hs Hp Hv. split; [by apply verify_spec|by apply validate_spec]. Qed.

Lemma user_config_ok file profile user_config s s' :
  stack_ok s → with_user_config_profile file profile user_config s = Ok s' → stack_ok s'.
Proof.
  intros [Hs Hv] He. unfold with_user_config_profile in He.
  destruct (validate_enabled_config_layers [_]) as [[]|] eqn:Hu; [|done]. injection He as <-.
  assert (verify_layer_ordering (layers s) = Ok (last_user_index (layers s))) as [Hsort Hproj]%verify_spec
    by (by rewrite <- (verify_index _ _ Hs)).
  apply validate_spec in Hu, Hv. rewrite Forall_singleton in Hu. apply set_layers_ok.
  - apply insert_layer_sorted. eapply sorted_sublist; [apply remove_first_sublist|done].
  - rewrite insert_layer_projects by done. rewrite remove_first_projects; [done|].
    intros l. unfold has_user_file, is_user. by destruct (name l).
  - apply insert_layer_Forall; [exact Hu|]. rewrite Forall_forall in *. intros x Hx. apply Hv.
    eapply elem_of_submseteq; [done|]. apply sublist_submseteq, remove_first_sublist.
Qed.

Lemma insert_layers_keep us ls :
  Forall (λ u, is_user u = true) us → StronglySorted above ls →
  let ls' := foldl (λ layers user_layer, insert_layer user_layer layers) ls us in
  StronglySorted above ls' ∧ omap project_folder ls' = omap project_folder ls
  ∧ ∀ P : ConfigLayerEntry → Prop, Forall P us → Forall P ls → Forall P ls'.
Proof.
  cbn zeta. revert ls. induction us as [|u us IH]; intros ls; [by intros|]. intros [Hu Hus]%Forall_cons Hs. simpl.
  destruct (IH (insert_layer u ls) Hus (insert_layer_sorted u ls Hs)) as (Hs' & Hp & Hf).
  split; [done|]. rewrite Hp, insert_layer_projects by done. split; [done|].
  intros P [HPu HPus]%Forall_cons HP. apply Hf; [done|]. by apply insert_layer_Forall.
Qed.

Lemma user_layer_from_ok other s : stack_ok s → stack_ok other → stack_ok (with_user_layer_from other s).
Proof.
  intros [Hs Hv] [_ Hvo].
  assert (verify_layer_ordering (layers s) = Ok (last_user_index (layers s))) as [Hsort Hproj]%verify_spec
    by (by rewrite <- (verify_index _ _ Hs)).
  apply validate_spec in Hv, Hvo. unfold with_user_layer_from.
  destruct (insert_layers_keep (filter (λ layer, is_user layer) (layers other))
              (filter (λ layer, negb (is_user layer)) (layers s))) as (Hs' & Hp & Hf).
  - apply Forall_forall. intros x [Hx _]%list_elem_of_filter. by apply Is_true_eq_true.
  - eapply sorted_sublist; [apply sublist_filter|done].
  - apply set_layers_ok; [done|by rewrite Hp, filter_projects|].
    by apply Hf; apply Forall_kept.
Qed.

Lemma reachable_ok s : reachable s → stack_ok s.
Proof.
  induction 1 as [ls r t s Hn|file config s s' _ IH He|file profile config s s' _ IH He|other s _ IHs _ IHo
                 |ignored s _ IH|warnings s _ IH]; try exact IH.
  - unfold new_stack in Hn. destruct (validate_enabled_config_layers ls) as [[]|] eqn:Hv; [|done]. cbn in Hn.
    destruct (verify_layer_ordering ls) as [i|] eqn:Ho; [|done]. cbn in Hn. by injection Hn as <-.
  - by eapply user_config_ok.
  - by eapply user_config_ok.
  - by apply user_layer_from_ok.
Qed.

(** The active user layer is the user layer of highest precedence. *)
Lemma last_user_layer before ls :
  (last (user_indexes (length before) ls) ≫= λ i, (before ++ ls) !! i) = last (filter (λ layer, is_user layer) ls).
Proof.
  revert before. induction ls as [|l ls IH]; intros before; [done|].
  rewrite user_indexes_cons, filter_cons. specialize (IH (before ++ [l])).
  rewrite length_app, Nat.add_1_r, <- app_assoc in IH. simpl in IH.
  destruct (is_user l) eqn:Hl; cbn [app]; [rewrite decide_True by done|by rewrite decide_False by auto].
  rewrite !last_or, <- IH.
  destruct (last (user_indexes (S (length before)) ls)) as [i|] eqn:Hi; simpl.
  - assert (is_Some ((before ++ l :: ls) !! i)) as [x ->]; [|done]. apply lookup_lt_is_Some.
    apply last_Some_elem_of in Hi. unfold user_indexes in Hi.
    apply list_elem_of_omap in Hi as ([j x] & Hx & Hj). apply elem_of_lookup_imap in Hx as (k & y & [= -> ->] & Hk).
    destruct (is_user y); [|done]. injection Hj as <-. apply lookup_lt_Some in Hk. rewrite length_app. simpl. lia.
  - by rewrite list_lookup_middle.
Qed.

(** The order of the layers survives every edit.  However a stack is made and
    its user layers are replaced, [verify_layer_ordering] accepts it again and
    finds the index it records; every layer that is not disabled is valid; sources
    of a higher precedence come later; and the layer that edits are written to
    (the active user layer) is the last user layer, the profile if there is one. *)
Theorem edits_keep_layers_ordered s :
  reachable s →
  verify_layer_ordering (layers s) = Ok (user_layer_index s)
  ∧ validate_enabled_config_layers (layers s) = Ok ()
  ∧ StronglySorted above (layers s)
  ∧ get_active_user_layer s = last (filter (λ layer, is_user layer) (layers s)).
Proof.
  intros [Hs Hv]%reachable_ok. split; [done|]. split; [done|]. pose proof (verify_index _ _ Hs) as Hi.
  rewrite Hi in Hs. apply verify_spec in Hs as [Hs _]. split; [done|].
  unfold get_active_user_layer. rewrite Hi, last_user_index_spec. apply (last_user_layer []).
Qed.

(** * The layer that decides *)

(** What a layer says, with the names the configuration uses now *)
Definition said (layer : ConfigLayerEntry) : TomlValue.t := normalized_with_key_aliases (config layer) [].
(** The highest layer in effect that covers a path *)
Definition deciding_layer s (path : list str) : option ConfigLayerEntry :=
  snd <$> list_find (λ layer, covers (said layer) path) (layers_high_to_low s).

Lemma merge_layers_snoc ls l : merge_layers (ls ++ [l]) = merge_toml_values (merge_layers ls) (config l).
Proof. unfold merge_layers. by rewrite foldl_app. Qed.

Lemma merge_layers_canonical ls :
  Forall (λ l, wf (config l) = true) ls → canonical [] (merge_layers ls).
Proof.
  induction ls as [|l ls IH] using rev_ind; [by intros _ alias [|k p] _ _|].
  intros [Hls Hl]%Forall_app. rewrite Forall_singleton in Hl. rewrite merge_layers_snoc.
  apply canonical_merge; auto.
Qed.

Lemma merge_layers_leaf ls path :
  Forall (λ l, wf (config l) = true) ls → ordinary path = true →
  leaf (merge_layers ls) path =
    (snd <$> list_find (λ layer, covers (said layer) path) (reverse ls)) ≫= λ layer, leaf (said layer) path.
Proof.
  intros Hwf Hp. induction ls as [|l ls IH] using rev_ind; [by destruct path|].
  apply Forall_app in Hwf as [Hls Hl]. rewrite Forall_singleton in Hl. rewrite merge_layers_snoc, reverse_snoc. simpl.
  unfold merge_toml_values. rewrite merge_leaf; [|done|done|by apply merge_layers_canonical]. cbn zeta.
  change (normalized_with_key_aliases (config l) []) with (said l).
  destruct (covers (said l) path) eqn:Hc; simpl; [done|].
  rewrite IH by done. by destruct (list_find _ (reverse ls)) as [[i x]|].
Qed.

Lemma high_to_low s : layers_high_to_low s = reverse (get_layers LowestPrecedenceFirst false s).
Proof. done. Qed.

Lemma in_effect_Forall (P : ConfigLayerEntry → Prop) s :
  Forall P (layers s) → Forall P (get_layers LowestPrecedenceFirst false s).
Proof. intros HP. unfold get_layers. by apply (Forall_kept P (λ l, false || negb (is_disabled l))). Qed.

Lemma in_effect_elem s layer :
  layer ∈ get_layers LowestPrecedenceFirst false s ↔ layer ∈ layers s ∧ is_disabled layer = false.
Proof. unfold get_layers. rewrite list_elem_of_filter. simpl. destruct (is_disabled layer); naive_solver. Qed.

Lemma found_in_reverse (P : ConfigLayerEntry → bool) ls layer :
  snd <$> list_find P (reverse ls) = Some layer →
  ∃ before after, ls = before ++ layer :: after ∧ P layer = true ∧ Forall (λ l, P l = false) after.
Proof.
  induction ls as [|l ls IH] using rev_ind; [done|]. rewrite reverse_snoc. simpl.
  destruct (P l) eqn:Hl; simpl; [by intros [= <-]; exists ls, []|].
  destruct (list_find P (reverse ls)) as [[i x]|]; [|done]. intros [= <-].
  destruct (IH eq_refl) as (before & after & -> & Hx & Ha). exists before, (after ++ [l]).
  rewrite <- app_assoc. split; [done|]. split; [done|]. apply Forall_app. by rewrite Forall_singleton.
Qed.

Lemma sorted_before (before after : list ConfigLayerEntry) x y :
  StronglySorted above (before ++ x :: after) → y ∈ before → above y x.
Proof.
  induction before as [|z before IH]; [by intros _ ?%not_elem_of_nil|].
  intros [Hs Hz]%StronglySorted_inv [->|Hy]%elem_of_cons; [|by apply IH].
  rewrite Forall_forall in Hz. apply Hz. set_solver.
Qed.

(** C23: The highest layer decides.  At every path where a merge is not about names
    (domains of a network, filters of the shell environment), the effective
    configuration shows what the highest enabled layer shows that says anything
    about the path, a table excepted; no layer that is enabled and says something
    about it has a higher precedence. *)
Theorem effective_config_is_highest_layer s path :
  reachable s → Forall (λ l, wf (config l) = true) (layers s) → ordinary path = true →
  leaf (effective_config s) path = deciding_layer s path ≫= (λ layer, leaf (said layer) path)
  ∧ ∀ layer, deciding_layer s path = Some layer →
      layer ∈ layers s ∧ is_disabled layer = false ∧ covers (said layer) path = true ∧
      ∀ other, other ∈ layers s → is_disabled other = false → covers (said other) path = true → above other layer.
Proof.
  intros [Hs _]%reachable_ok Hwf Hp. split.
  { unfold effective_config. rewrite merge_layers_leaf; [done|by apply in_effect_Forall|done]. }
  pose proof (verify_index _ _ Hs) as Hi. rewrite Hi in Hs. apply verify_spec in Hs as [Hs _].
  intros layer Hd. unfold deciding_layer in Hd. rewrite high_to_low in Hd.
  destruct (found_in_reverse _ _ _ Hd) as (before & after & He & Hc & Hafter).
  assert (layer ∈ get_layers LowestPrecedenceFirst false s) as Hin by (rewrite He; set_solver).
  apply in_effect_elem in Hin as [Hin Hen]. split; [done|]. split; [done|]. split; [done|].
  intros other Ho Hoen Hoc. assert (other ∈ get_layers LowestPrecedenceFirst false s) as Hoin by by apply in_effect_elem.
  assert (StronglySorted above (before ++ layer :: after)) as Hsort
    by (rewrite <- He; eapply sorted_sublist; [apply sublist_filter|done]).
  rewrite He in Hoin. apply elem_of_app in Hoin as [Hoin|[->|Hoin]%elem_of_cons].
  - by eapply sorted_before.
  - unfold above. lia.
  - rewrite Forall_forall in Hafter. by rewrite (Hafter _ Hoin) in Hoc.
Qed.

End layers.
