(* ===== verification/ConfigFiltersSpec.v ===== *)
(** The two forms of the filters of the shell environment.  A layer that is
    accepted never has both; a merge replaces one form by the other; so the
    effective configuration has the form of one layer, and no field of the other. *)

From S2P Require Import Prelude Text NetworkHosts ConfigValues ConfigMergeSpec ConfigLayers ConfigLayersSpec.

Section filters.
Context {C : ConfigLibs} {CL : ConfigLibsLaws}.

(** Both forms in one policy *)
Definition mixed (policy : TomlValue.t) : bool :=
  match policy with
  | Table t => contains_key (lit "filters") t && (contains_key (lit "exclude") t || contains_key (lit "include_only") t)
  | _ => false
  end.
Definition policy_of (v : TomlValue.t) : option TomlValue.t := sub v [shell_environment_policy].
Definition mixed_forms (v : TomlValue.t) : bool := from_option mixed false (policy_of v).
(** The form a configuration uses *)
Definition form (v : TomlValue.t) : option ShellEnvironmentPolicyFilterRepresentation := policy_of v ≫= from_policy.
(** A layer settles the form: it uses one, or what it says leaves no policy to
    keep a form of. *)
Definition settles (v : TomlValue.t) : bool :=
  covers v [shell_environment_policy]
  && match policy_of v with Some (Table t) => bool_decide (is_Some (from_policy (Table t))) | _ => true end.

Implicit Types v e p : TomlValue.t.

Lemma policy_path_plain {A} (m : TomlMap A) : normalize_key_aliases [shell_environment_policy] m = m.
Proof. apply alias_paths. by intros alias [->|[->|[]%not_elem_of_nil]%elem_of_cons]%elem_of_cons. Qed.

Lemma contains_spec {A} k (m : TomlMap A) : contains_key k m = true ↔ is_Some (toml_get k m).
Proof. unfold contains_key. apply bool_decide_eq_true. Qed.

Lemma contains_same {A B} k (m : TomlMap A) (m' : TomlMap B) :
  (is_Some (toml_get k m) ↔ is_Some (toml_get k m')) → contains_key k m = contains_key k m'.
Proof. intros H. unfold contains_key. by apply bool_decide_ext. Qed.

Lemma contains_remove {A} k j (m : TomlMap A) : contains_key k (toml_remove j m) = bool_decide (k ≠ j) && contains_key k m.
Proof.
  unfold contains_key. rewrite toml_get_remove. case_decide; [|by rewrite (bool_decide_true (k ≠ j))].
  by rewrite (bool_decide_false (k ≠ j)) by naive_solver.
Qed.

Lemma forms_of_table t t' :
  (∀ k, k ∈ [lit "filters"; lit "exclude"; lit "include_only"] → contains_key k t = contains_key k t') →
  from_policy (Table t) = from_policy (Table t') ∧ mixed (Table t) = mixed (Table t').
Proof. intros H. unfold from_policy, mixed. simpl. rewrite !H by set_solver. done. Qed.

(** The names of the fields of a policy do not change. *)
Lemma normalized_policy v :
  wf v = true →
  from_policy (normalized_with_key_aliases v [shell_environment_policy]) = from_policy v
  ∧ mixed (normalized_with_key_aliases v [shell_environment_policy]) = mixed v.
Proof.
  intros Hwf. destruct v as [| | | | | |t]; try done.
  destruct (normalized_table [shell_environment_policy] t Hwf) as (t' & -> & Ht). apply forms_of_table.
  intros k _. apply contains_same. by rewrite Ht, policy_path_plain, fmap_is_Some.
Qed.

Lemma merged_policy_contains o (e : TomlMap TomlValue.t) k m :
  NoDup o.*1 →
  merge_toml_values_at_path (Table o) [shell_environment_policy] (Table e) = Table m →
  contains_key k m = contains_key k o ||
    match replace_shell_environment_policy_filter_representation (Table e) (Table o) [shell_environment_policy] with
    | Table e => contains_key k e
    | _ => false
    end.
Proof.
  intros Hn. cbn [merge_toml_values_at_path].
  destruct (replace_shell_environment_policy_filter_representation _ _ _) as [| | | | | |e'] eqn:He.
  1-6: exfalso; revert He; unfold replace_shell_environment_policy_filter_representation;
    rewrite decide_True by done; by destruct (from_policy _).
  intros [= <-]. unfold normalize_keys. cbn [is_permission_network_domains_path].
  change (is_shell_environment_filters_path [shell_environment_policy]) with false. cbn iota.
  rewrite !policy_path_plain. unfold contains_key.
  rewrite (merge_entries_get (λ key x existing, x.2 ([shell_environment_policy] ++ [key]) existing)
             (λ key x, normalized_with_key_aliases x.1 ([shell_environment_policy] ++ [key]))); [|by intros ? ? []|].
  - rewrite (toml_get_fmap (λ _ v, (v, merge_toml_values_at_path v))).
    by destruct (toml_get k o).
  - replace ((_ <$> o).*1) with (o.*1); [done|].
    rewrite <- list_fmap_compose. apply list_fmap_ext. by intros _ [j v] _.
Qed.

(** A merge of two policies *)
Lemma merged_policy v e :
  wf v = true →
  let merged := merge_toml_values_at_path v [shell_environment_policy] e in
  let chosen := from_policy v in
  match v with
  | Table _ =>
      from_policy merged = match chosen with Some r => Some r | None => from_policy e end
      ∧ mixed merged = (if chosen then mixed v else mixed e)
  | _ => from_policy merged = None ∧ mixed merged = false
  end.
Proof.
  cbn zeta. intros Hwf. destruct v as [| | | | | |o]; try (rewrite merge_other; [done|by left]).
  destruct e as [| | | | | |e].
  1-6: (rewrite merge_other by (by right); destruct (normalized_policy _ Hwf) as [H1 H2]; rewrite H1, H2;
        destruct (from_policy (Table o)) as [r|] eqn:Hr; [done|]; split; [done|];
        revert Hr; unfold from_policy, mixed; simpl;
        destruct (contains_key (lit "filters") o); [done|]; by destruct (_ || _)).
  destruct (merge_toml_values_at_path (Table o) [shell_environment_policy] (Table e)) as [| | | | | |m] eqn:Hm.
  1-6: exfalso; destruct (merge_table_get [shell_environment_policy] o e) as (m & Hm' & _);
    [by apply wf_table in Hwf as [? _]|congruence].
  apply wf_table in Hwf as [Hn _].
  pose proof (λ k, merged_policy_contains o e k m Hn Hm) as Hc. clear Hm.
  unfold replace_shell_environment_policy_filter_representation in Hc. rewrite decide_True in Hc by done.
  unfold from_policy, mixed in *. cbn [as_table mbind option_bind] in *. rewrite !Hc.
  destruct (contains_key (lit "filters") o) eqn:Hf; cbn [displaced_fields foldl];
    [|destruct (contains_key (lit "exclude") o || contains_key (lit "include_only") o) eqn:Hl;
      cbn [displaced_fields foldl]].
  - rewrite !contains_remove. cbn. split; [done|]. by rewrite !orb_false_r.
  - rewrite !contains_remove. apply orb_true_iff in Hl as [->| ->]; cbn; by rewrite ?orb_true_r.
  - apply orb_false_iff in Hl as [-> ->]. done.
Qed.

(** ** From one configuration to the next *)

Lemma policy_of_merge base v :
  wf v = true →
  policy_of (merge_toml_values base v) =
    match v with
    | Table o =>
        match toml_get shell_environment_policy o with
        | Some p =>
            Some (match policy_of base with
                  | Some e => merge_toml_values_at_path p [shell_environment_policy] e
                  | None => normalized_with_key_aliases p [shell_environment_policy]
                  end)
        | None => policy_of base
        end
    | _ => None
    end.
Proof.
  intros Hwf. unfold merge_toml_values, policy_of.
  destruct v as [| | | | | |o]; try by rewrite merge_other by by left.
  destruct base as [| | | | | |b].
  1-6: (rewrite merge_other by (by right); destruct (normalized_table [] o Hwf) as (t & -> & Ht); simpl;
        rewrite Ht, alias_paths_length by done; by destruct (toml_get _ o)).
  destruct (merge_table_get [] o b) as (m & -> & Hm); [by apply wf_table in Hwf as [? _]|]. simpl.
  rewrite Hm, !alias_paths_length by done. destruct (toml_get _ o); simpl; [by destruct (toml_get _ b)|by destruct (toml_get _ b)].
Qed.

Lemma policy_of_normalized v :
  wf v = true → policy_of (normalized_with_key_aliases v []) =
    (λ p, normalized_with_key_aliases p [shell_environment_policy]) <$> policy_of v.
Proof.
  intros Hwf. destruct v as [| | | | | |o]; try done. unfold policy_of.
  destruct (normalized_table [] o Hwf) as (t & -> & Ht). simpl. rewrite Ht, alias_paths_length by done.
  by destruct (toml_get _ o).
Qed.

Lemma policy_wf v p : wf v = true → policy_of v = Some p → wf p = true.
Proof.
  intros Hwf Hp. destruct v as [| | | | | |o]; try done. unfold policy_of in Hp. simpl in Hp.
  apply wf_table in Hwf as [_ Hs]. destruct (toml_get _ o) as [x|] eqn:Hx; [|done]. simpl in Hp. injection Hp as <-.
  by eapply Hs.
Qed.

#[local] Arguments shell_environment_policy : simpl never.
#[local] Arguments from_policy : simpl never.
#[local] Arguments mixed : simpl never.
#[local] Arguments lit : simpl never.
#[local] Arguments policy_of : simpl never.

(** The form after a merge, and whether both forms are there *)
Lemma forms_of_merge base v :
  wf v = true → mixed_forms v = false → mixed_forms base = false →
  let overlay := normalized_with_key_aliases v [] in
  form (merge_toml_values base v) = (if settles overlay then form overlay else form base)
  ∧ mixed_forms (merge_toml_values base v) = false.
Proof.
  cbn zeta. intros Hwf Hv Hb. unfold form, mixed_forms, settles in *.
  rewrite policy_of_merge, policy_of_normalized by done.
  destruct v as [| | | | | |o]; try (split; done).
  destruct (normalized_table [] o Hwf) as (t & -> & Ht). specialize (Ht shell_environment_policy).
  rewrite alias_paths_length in Ht by done. cbn [covers]. rewrite Ht. unfold policy_of in Hv at 1. cbn in Hv.
  destruct (toml_get shell_environment_policy o) as [p|] eqn:Hp; [|done].
  assert (wf p = true) as Hwfp by (apply (policy_wf (Table o)); [done|unfold policy_of; simpl; by rewrite Hp]).
  assert (policy_of (Table o) = Some p) as -> by (unfold policy_of; simpl; by rewrite Hp).
  cbn in Hv |- *. destruct (normalized_policy p Hwfp) as [Hn Hm]. rewrite Hn.
  assert (match normalized_with_key_aliases p [shell_environment_policy] with
          | Table t => bool_decide (is_Some (from_policy (Table t)))
          | _ => true
          end = match p with Table _ => bool_decide (is_Some (from_policy p)) | _ => true end) as Hset
    by (rewrite <- Hn; by destruct p).
  rewrite Hset. clear Hset. destruct (policy_of base) as [e|] eqn:He; cbn in Hb |- *.
  - pose proof (merged_policy p e Hwfp) as Hmp. cbn zeta in Hmp.
    destruct p; try (destruct Hmp as [-> ->]; done). destruct Hmp as [-> ->].
    by destruct (from_policy (Table _)).
  - rewrite Hn, Hm. split; [|done]. destruct p; try done.
    by destruct (from_policy (Table _)).
Qed.

(** ** Layers that are accepted *)

Lemma read_field_some {A} (read : TomlValue.t → result str A) field policy x :
  read_field read field policy = Ok x → contains_key field policy = bool_decide (is_Some x).
Proof.
  unfold read_field, contains_key. destruct (toml_get field policy) as [v|]; [|by intros [= <-]].
  destruct (read v); [|done]. by intros [= <-].
Qed.

Lemma accepted_not_mixed v : validate_shell_environment_policy_filter_config v = Ok () → mixed_forms v = false.
Proof.
  intros Hv. destruct v as [| | | | | |o]; try done. unfold mixed_forms, policy_of. simpl.
  unfold validate_shell_environment_policy_filter_config in Hv. rewrite read_policy_field_of_table in Hv. cbn in Hv.
  destruct (toml_get shell_environment_policy o) as [p|]; [|done]. cbn in Hv |- *.
  destruct p as [| | | | | |t]; try done. cbn in Hv |- *.
  apply result_bind_ok in Hv as (exclude & He%read_field_some & Hv).
  apply result_bind_ok in Hv as (include_only & Hi%read_field_some & Hv).
  apply result_bind_ok in Hv as (filters & Hf%read_field_some & Hv).
  unfold mixed. rewrite He, Hi, Hf. destruct filters as [filters|]; [|done]. cbn in Hv |- *.
  by destruct exclude, include_only.
Qed.

Lemma layer_not_mixed layer : validate_layer layer = Ok () → is_disabled layer = false → mixed_forms (config layer) = false.
Proof.
  unfold validate_layer. intros Hv Hd. rewrite Hd in Hv. apply accepted_not_mixed.
  by destruct (validate_shell_environment_policy_filter_config _) as [[]|].
Qed.

Lemma merged_layers_forms ls :
  Forall (λ l, wf (config l) = true ∧ mixed_forms (config l) = false) ls →
  form (merge_layers ls) =
    (snd <$> list_find (λ layer, settles (said layer)) (reverse ls)) ≫= (λ layer, form (said layer))
  ∧ mixed_forms (merge_layers ls) = false.
Proof.
  induction ls as [|l ls IH] using rev_ind; [done|]. intros [Hls Hl]%Forall_app. rewrite Forall_singleton in Hl.
  destruct (IH Hls) as [Hf Hm], Hl as [Hwf Hl]. rewrite merge_layers_snoc, reverse_snoc.
  destruct (forms_of_merge (merge_layers ls) (config l) Hwf Hl Hm) as [-> ->]. split; [|done]. simpl.
  change (normalized_with_key_aliases (config l) []) with (said l). destruct (settles (said l)); [done|].
  rewrite Hf. by destruct (list_find _ (reverse ls)) as [[i x]|].
Qed.

(** C24: The two forms of the shell environment filters never mix.  Whatever
    layers are accepted and however the user layers are replaced, the effective
    configuration does not have the keyed filters beside a legacy list; the form
    it has is that of the highest enabled layer that settles it, and every field
    of the other form in lower layers is gone. *)
Theorem filter_forms_never_mix {Requirements RequirementsToml}
    (s : ConfigLayerStack Requirements RequirementsToml) :
  reachable s → Forall (λ l, wf (config l) = true) (layers s) →
  mixed_forms (effective_config s) = false
  ∧ form (effective_config s) =
      (snd <$> list_find (λ layer, settles (said layer)) (layers_high_to_low s)) ≫= (λ layer, form (said layer)).
Proof.
  intros [_ Hv%validate_spec]%reachable_ok Hwf. unfold effective_config. rewrite high_to_low.
  apply and_comm, merged_layers_forms. apply Forall_forall. intros layer [Hin Hd]%in_effect_elem.
  rewrite Forall_forall in Hv, Hwf. split; [by apply Hwf|]. apply layer_not_mixed; [by apply Hv|done].
Qed.

End filters.
