(* ===== verification/ConfigOriginsSpec.v ===== *)
(** Origins of the values of a configuration: the name of a value that is no table
    and no array is entered once by every layer that has it, the highest last. *)

From S2P Require Import Prelude Text NetworkHosts ConfigValues ConfigMergeSpec ConfigLayers ConfigLayersSpec.

(** The paths of the values a layer enters *)
Fixpoint recorded (v : TomlValue.t) (path : list str) : list (list str) :=
  match v with
  | Table table => concat ((λ '(key, val), recorded val (path ++ [key])) <$> table)
  | TomlValue.Array items =>
      concat (imap (λ idx f, f (path ++ [decimal_N (N.of_nat idx)])) ((λ item, recorded item) <$> items))
  | _ => if is_nil path then [] else [path]
  end.
Definition dotted (path : list str) : str := join (lit ".") path.
Definition enter {M} (meta : M) (origins : gmap str M) (paths : list (list str)) : gmap str M :=
  foldl (λ origins path, <[dotted path := meta]> origins) origins paths.

(** Induction on a value, its tables and its arrays *)
Lemma toml_value_ind (P : TomlValue.t → Prop) :
  (∀ v, (∀ t, v ≠ Table t) → (∀ items, v ≠ TomlValue.Array items) → P v) →
  (∀ items, Forall P items → P (TomlValue.Array items)) →
  (∀ table, Forall (λ e, P e.2) table → P (Table table)) → ∀ v, P v.
Proof.
  intros Hother Harray Htable. fix IH 1. intros [s|i|f|b|d|items|table]; try (by apply Hother).
  - apply Harray. induction items as [|item items IHi]; constructor; [exact (IH item)|exact IHi].
  - apply Htable. induction table as [|[k v] table IHt]; constructor; [exact (IH v)|exact IHt].
Qed.

Lemma enter_app {M} (meta : M) o p q : enter meta o (p ++ q) = enter meta (enter meta o p) q.
Proof. unfold enter. by rewrite foldl_app. Qed.

Lemma enter_each {M} (meta : M) (h : nat → list str) records paths o :
  Forall2 (λ (record : list str → gmap str M → gmap str M) (ps : list str → list (list str)),
             ∀ path o, record path o = enter meta o (ps path)) records paths →
  foldl (λ o record, record o) o (imap (λ i record, record (h i)) records) =
    enter meta o (concat (imap (λ i ps, ps (h i)) paths)).
Proof.
  intros Hall. revert h o. induction Hall as [|record ps records paths Hr Hall IH]; intros h o; [done|].
  simpl. rewrite enter_app, <- Hr. apply (IH (h ∘ S)).
Qed.

Lemma record_origins_enter {M} v (meta : M) path o : record_origins v meta path o = enter meta o (recorded v path).
Proof.
  revert path o. induction v as [v Ht Ha|items IH|table IH] using toml_value_ind; intros path o.
  - destruct v as [| | | | |items|table]; try (simpl; by destruct path); [by destruct (Ha items)|by destruct (Ht table)].
  - apply (enter_each meta (λ idx, path ++ [decimal_N (N.of_nat idx)])).
    induction IH as [|item items Hi _ IH]; constructor; [exact Hi|exact IH].
  - simpl. revert o. induction IH as [|[key val] table Hv _ IH]; intros o; [done|]. simpl in *.
    rewrite enter_app, <- Hv. apply IH.
Qed.

Lemma enter_other {M} (meta : M) o paths key :
  key ∉ dotted <$> paths → enter meta o paths !! key = o !! key.
Proof.
  revert o. induction paths as [|p paths IH]; intros o; [done|]. csimpl. intros [Hk Hp]%not_elem_of_cons.
  unfold enter in *. simpl. rewrite IH by done. by rewrite lookup_insert_ne by done.
Qed.

Lemma enter_this {M} (meta : M) o paths path : path ∈ paths → enter meta o paths !! dotted path = Some meta.
Proof.
  intros Hp%(list_elem_of_fmap_2 dotted). revert o Hp. generalize (dotted path) as key. intros key.
  induction paths as [|p paths IH]; intros o; [by intros ?%not_elem_of_nil|]. csimpl. intros Hp.
  change (enter meta o (p :: paths)) with (enter meta (<[dotted p := meta]> o) paths).
  destruct (decide (key ∈ dotted <$> paths)) as [|Hn]; [by apply IH|].
  apply elem_of_cons in Hp as [->|]; [|done]. rewrite enter_other by done. apply lookup_insert_eq.
Qed.

(** A path is entered below the path it starts at, by a value that says something
    about it; and every value that is no table and no array is entered. *)
Lemma recorded_covers v path p :
  wf v = true → p ∈ recorded v path → ∃ rest, p = path ++ rest ∧ covers v rest = true.
Proof.
  revert path p. induction v as [v Ht Ha|items IH|table IH] using toml_value_ind; intros path p Hwf Hp.
  - exists []. rewrite app_nil_r.
    assert (p ∈ if is_nil path then [] else [path]) as Hp'
      by (destruct v as [| | | | |items|table]; try exact Hp; [by destruct (Ha items)|by destruct (Ht table)]).
    destruct path as [|x path]; simpl in Hp'; [by apply not_elem_of_nil in Hp'|].
    by apply list_elem_of_singleton in Hp' as ->.
  - assert (∃ rest, p = path ++ rest) as [rest ->]; [|by exists rest; split; [done|destruct rest]].
    simpl in Hp. apply elem_of_concat in Hp as (ps & Hp & Hps).
    apply elem_of_lookup_imap in Hps as (i & f & -> & Hf). apply list_lookup_fmap_Some in Hf as (item & -> & Hi).
    apply list_elem_of_lookup_2 in Hi as Hin. rewrite Forall_forall in IH. simpl in Hwf. rewrite forallb_forall in Hwf.
    edestruct (IH _ Hin) as (rest & -> & _); [by apply Hwf, list_elem_of_In|exact Hp|].
    rewrite <- app_assoc. by eexists.
  - simpl in Hp. apply elem_of_concat in Hp as (ps & Hp & Hps).
    apply list_elem_of_fmap in Hps as ([k v] & -> & Hin). rewrite Forall_forall in IH.
    pose proof (proj1 (wf_table table) Hwf) as [Hn Hs]. pose proof (toml_get_at _ _ _ Hn Hin) as Hk.
    edestruct (IH _ Hin) as (rest & -> & Hc); [by eapply Hs|exact Hp|]. exists (k :: rest). simpl.
    rewrite <- app_assoc, Hk. by split.
Qed.

Definition scalar (v : TomlValue.t) : Prop := (∀ t, v ≠ Table t) ∧ ∀ items, v ≠ TomlValue.Array items.

Lemma leaf_recorded v path rest x :
  leaf v rest = Some x → scalar x → path ++ rest ≠ [] → path ++ rest ∈ recorded v path.
Proof.
  revert v path. induction rest as [|k rest IH]; intros v path.
  - rewrite app_nil_r. unfold leaf. simpl. intros Hv [Ht Ha] Hp.
    assert (recorded v path = if is_nil path then [] else [path]) as ->.
    { destruct v; simplify_eq; try done. by edestruct Ha. }
    destruct path; [done|]. by left.
  - destruct v as [| | | | | |table]; try done. rewrite leaf_cons. destruct (toml_get k table) as [v|] eqn:Hk; [|done].
    simpl. intros Hv Hx Hp. apply elem_of_concat. exists (recorded v (path ++ [k])). split.
    + specialize (IH v (path ++ [k]) Hv Hx). rewrite <- app_assoc in IH. by apply IH.
    + apply list_elem_of_fmap. exists (k, v). split; [done|]. by apply toml_get_elem.
Qed.

(** The names of a layer stay distinct when they are changed. *)
Lemma wf_normalized v path : wf v = true → wf (normalized_with_key_aliases v path) = true.
Proof.
  revert path. induction v as [v Ht Ha|items IH|table IH] using toml_value_ind; intros path Hwf.
  - destruct v as [| | | | |items|table]; try done; [by destruct (Ha items)|by destruct (Ht table)].
  - simpl in *. rewrite forallb_forall in *. intros x Hx%list_elem_of_In.
    apply list_elem_of_fmap in Hx as (item & -> & Hin). rewrite Forall_forall in IH.
    apply IH; [done|]. by apply Hwf, list_elem_of_In.
  - destruct (normalized_table path table Hwf) as (t & Ht & Hget). rewrite Ht.
    pose proof (proj1 (wf_table table) Hwf) as [Hn Hs]. apply wf_table. split.
    + injection Ht as <-. apply normalize_aliases_NoDup, toml_rekey_NoDup.
    + intros k v Hk. rewrite Hget in Hk. apply fmap_Some in Hk as (child & Hc & ->).
      apply aliases_elem in Hc as [j Hj]. rewrite Forall_forall in IH. apply (IH _ Hj).
      apply (Hs j). by apply toml_get_at.
Qed.

(** * Origins of a stack *)

Section origins.
Context {C : ConfigLibs} {Requirements RequirementsToml : Type}.
Abbreviation Stack := (ConfigLayerStack Requirements RequirementsToml).

Definition origins_of (ls : list ConfigLayerEntry) : gmap str ConfigLayerMetadata :=
  foldl (λ origins layer, record_origins (said layer) (metadata layer) [] origins) ∅ ls.
(** No layer writes the path another way: a key with a dot could. *)
Definition unambiguous (ls : list ConfigLayerEntry) (path : list str) : Prop :=
  ∀ layer p, layer ∈ ls → p ∈ recorded (said layer) [] → dotted p = dotted path → p = path.

Lemma origins_decide ls path layer x :
  Forall (λ l, wf (config l) = true) ls → unambiguous ls path → path ≠ [] →
  snd <$> list_find (λ layer, covers (said layer) path) (reverse ls) = Some layer →
  leaf (said layer) path = Some x → scalar x →
  origins_of ls !! dotted path = Some (metadata layer).
Proof.
  intros Hwf Hun Hp. induction ls as [|l ls IH] using rev_ind; [done|].
  apply Forall_app in Hwf as [Hls Hl]. rewrite Forall_singleton in Hl. unfold origins_of. rewrite foldl_app. simpl.
  rewrite record_origins_enter. rewrite reverse_snoc. simpl. destruct (covers (said l) path) eqn:Hc; simpl.
  - intros [= <-] Hx Hs. apply enter_this. by eapply (leaf_recorded _ []).
  - destruct (list_find _ (reverse ls)) as [[i y]|]; [|done]. intros [= <-] Hx Hs. rewrite enter_other.
    + apply IH; [done| |done..]. intros l' p Hin. apply Hun. set_solver.
    + intros [p [Hd Hin]]%list_elem_of_fmap. apply eq_sym, (Hun l) in Hd; [|set_solver|done]. subst p.
      apply recorded_covers in Hin as (rest & Hr & Hcov); [|by apply wf_normalized]. simpl in Hr. subst rest.
      by rewrite Hc in Hcov.
Qed.

(** The origin of a value is the layer that decides it.  A value of the effective
    configuration that is no table and no array, at a path that no key with a dot
    writes another way, has as its origin the highest enabled layer that says
    anything about the path, which is where the value is from. *)
Theorem origin_is_the_deciding_layer (s : Stack) path x :
  Forall (λ l, wf (config l) = true) (layers s) → ordinary path = true → path ≠ [] →
  unambiguous (get_layers LowestPrecedenceFirst false s) path →
  leaf (effective_config s) path = Some x → scalar x →
  ∃ layer, deciding_layer s path = Some layer ∧ leaf (said layer) path = Some x
    ∧ origins s !! dotted path = Some (metadata layer).
Proof.
  intros Hwf Hord Hp Hun Hx Hs. apply in_effect_Forall in Hwf. unfold effective_config in Hx.
  rewrite merge_layers_leaf in Hx by done. unfold deciding_layer. rewrite high_to_low.
  destruct (snd <$> list_find _ _) as [layer|] eqn:Hd; [|done]. exists layer. simpl in Hx. split; [done|].
  split; [done|]. by apply (origins_decide _ path layer x).
Qed.

End origins.
