(* ===== verification/ShellEnvironment.v ===== *)
(** The environment of the commands that are run: [ShellEnvironmentPolicy] of
    [protocol/src/config_types.rs], how it is made from the configuration
    ([config/src/shell_environment_policy.rs]), and [protocol/src/shell_environment.rs]
    with [core/src/exec_env.rs], on a system that is not Windows.  The matcher of
    the [wildmatch] crate is an interface. *)

From S2P Require Import Prelude Text NetworkHosts ConfigValues.

Module ShellEnvironmentPolicyInherit.
Inductive t := Core | All | None.
End ShellEnvironmentPolicyInherit.

(** A pattern that ignores case is its text. *)
Abbreviation EnvironmentVariablePattern := str (only parsing).
Class WildMatch := { pattern_matches : EnvironmentVariablePattern → str → bool }.

Record ShellEnvironmentPolicy := mkPolicy {
  inherit : ShellEnvironmentPolicyInherit.t;
  ignore_default_excludes : bool;
  exclude : list EnvironmentVariablePattern;
  set : gmap str str;
  include_only : list EnvironmentVariablePattern;
  use_profile : bool
}.
Definition default_policy : ShellEnvironmentPolicy := mkPolicy ShellEnvironmentPolicyInherit.All true [] ∅ [] false.

(** * From the configuration *)

Record ShellEnvironmentPolicyToml := mkPolicyToml {
  toml_inherit : option ShellEnvironmentPolicyInherit.t;
  toml_ignore_default_excludes : option bool;
  toml_exclude : option (list str);
  toml_set : option (gmap str str);
  toml_include_only : option (list str);
  toml_filters : option (list (str * ShellEnvironmentPolicyFilter));
  experimental_use_profile : option bool
}.

(** [deserialize], of the fields as they were read *)
Definition deserialize_policy `{ConfigLibs} (raw : ShellEnvironmentPolicyToml) : result str ShellEnvironmentPolicyToml :=
  let? _ := check_filter_fields (toml_exclude raw) (toml_include_only raw) (toml_filters raw) in
  Ok raw.

Definition split_filter (found : list str * list str) (filter : str * ShellEnvironmentPolicyFilter) : list str * list str :=
  let '(exclude, include_only) := found in
  match filter.2 with
  | Include => (exclude, include_only ++ [filter.1])
  | Exclude => (exclude ++ [filter.1], include_only)
  end.
Definition policy_from_toml (toml : ShellEnvironmentPolicyToml) : ShellEnvironmentPolicy :=
  let inherit := default ShellEnvironmentPolicyInherit.All (toml_inherit toml) in
  let ignore_default_excludes := default true (toml_ignore_default_excludes toml) in
  let '(exclude, include_only) :=
    match toml_filters toml with
    | Some filters => foldl split_filter ([], []) filters
    | None => (default [] (toml_exclude toml), default [] (toml_include_only toml))
    end in
  mkPolicy inherit ignore_default_excludes exclude (default ∅ (toml_set toml)) include_only
    (default false (experimental_use_profile toml)).

(** * The environment *)

Definition UNIX_CORE_ENV_VARS : list str :=
  lit <$> ["PATH"; "SHELL"; "TMPDIR"; "TEMP"; "TMP"; "HOME"; "LANG"; "LC_ALL"; "LC_CTYPE"; "LOGNAME"; "USER"]%string.
Definition CODEX_THREAD_ID_ENV_VAR : str := lit "CODEX_THREAD_ID".
Definition CODEX_PERMISSION_PROFILE_ENV_VAR : str := lit "CODEX_PERMISSION_PROFILE".
Definition default_excludes : list EnvironmentVariablePattern := lit <$> ["*KEY*"; "*SECRET*"; "*TOKEN*"]%string.

Section environment.
Context `{WildMatch}.

Definition matches_any (name : str) (patterns : list EnvironmentVariablePattern) : bool :=
  existsb (λ pattern, pattern_matches pattern name) patterns.

(** [collect] into a map: a later entry replaces an earlier one. *)
Definition collect_vars (vars : list (str * str)) : gmap str str :=
  foldl (λ env '(key, value), <[key := value]> env) ∅ vars.
Definition is_core (key : str) : bool := existsb (λ allowed, eq_ignore_ascii_case allowed key) UNIX_CORE_ENV_VARS.
Definition retain (keep : str → bool) (env : gmap str str) : gmap str str := filter (λ e, keep e.1) env.

Definition inherited_vars (inherit : ShellEnvironmentPolicyInherit.t) (vars : list (str * str)) : gmap str str :=
  match inherit with
  | ShellEnvironmentPolicyInherit.All => collect_vars vars
  | ShellEnvironmentPolicyInherit.None => ∅
  | ShellEnvironmentPolicyInherit.Core => collect_vars (filter (λ e, is_core e.1) vars)
  end.

Definition populate_env (vars : list (str * str)) (policy : ShellEnvironmentPolicy) (thread_id : option str) : gmap str str :=
  let env := inherited_vars (inherit policy) vars in
  let env := if ignore_default_excludes policy then env
             else retain (λ name, negb (matches_any name default_excludes)) env in
  let env := if is_nil (exclude policy) then env else retain (λ name, negb (matches_any name (exclude policy))) env in
  let env := map_fold (λ key value env, <[key := value]> env) env (set policy) in
  let env := if is_nil (include_only policy) then env else retain (λ name, matches_any name (include_only policy)) env in
  match thread_id with
  | Some thread_id => <[CODEX_THREAD_ID_ENV_VAR := thread_id]> env
  | None => env
  end.

Definition create_env_from_vars (vars : list (str * str)) (policy : ShellEnvironmentPolicy) (thread_id : option str) :
    gmap str str := populate_env vars policy thread_id.

Definition inject_permission_profile_env (env : gmap str str) (active_permission_profile : option str) : gmap str str :=
  let env := delete CODEX_PERMISSION_PROFILE_ENV_VAR env in
  match active_permission_profile with
  | Some id => <[CODEX_PERMISSION_PROFILE_ENV_VAR := id]> env
  | None => env
  end.

(** * What a name is in the environment *)

(** The value the process has for a name: of its last entry. *)
Definition process_value (name : str) (vars : list (str * str)) : option str :=
  snd <$> last (filter (λ e, e.1 = name) vars).
Definition may_inherit (inherit : ShellEnvironmentPolicyInherit.t) (name : str) : bool :=
  match inherit with
  | ShellEnvironmentPolicyInherit.All => true
  | ShellEnvironmentPolicyInherit.None => false
  | ShellEnvironmentPolicyInherit.Core => is_core name
  end.
(** A variable of the process is passed on. *)
Definition passes (policy : ShellEnvironmentPolicy) (name : str) : bool :=
  may_inherit (inherit policy) name
  && (ignore_default_excludes policy || negb (matches_any name default_excludes))
  && negb (matches_any name (exclude policy)).
(** A name may be in the environment, whether inherited or set. *)
Definition is_included (policy : ShellEnvironmentPolicy) (name : str) : bool :=
  is_nil (include_only policy) || matches_any name (include_only policy).
Definition expected_value (vars : list (str * str)) (policy : ShellEnvironmentPolicy) (name : str) : option str :=
  if is_included policy name then
    match set policy !! name with
    | Some value => Some value
    | None => if passes policy name then process_value name vars else None
    end
  else None.

Lemma collect_vars_lookup vars name : collect_vars vars !! name = process_value name vars.
Proof.
  unfold collect_vars, process_value. induction vars as [|[k v] vars IH] using rev_ind; [done|].
  rewrite foldl_app, filter_app. simpl. rewrite filter_cons, filter_nil. simpl.
  destruct (decide (k = name)) as [->|Hk].
  - by rewrite lookup_insert_eq, last_snoc.
  - rewrite lookup_insert_ne, app_nil_r by done. done.
Qed.

Lemma retain_lookup keep env name : retain keep env !! name = if keep name then env !! name else None.
Proof.
  unfold retain. destruct (env !! name) as [v|] eqn:Hv.
  - destruct (keep name) eqn:Hk.
    + apply map_lookup_filter_Some. simpl. by rewrite Hk.
    + apply map_lookup_filter_None. right. simpl. intros x _. rewrite Hk. by intros [].
  - destruct (keep name); apply map_lookup_filter_None; by left.
Qed.

Lemma inherited_lookup i vars name :
  inherited_vars i vars !! name = if may_inherit i name then process_value name vars else None.
Proof.
  destruct i; simpl; rewrite ?collect_vars_lookup; [|done|apply lookup_empty].
  unfold process_value. rewrite list_filter_filter. destruct (is_core name) eqn:Hc.
  - f_equal. f_equal. apply list_filter_iff. intros [k v]. simpl. split; [by intros [Hk _]|].
    intros ->. by rewrite Hc.
  - replace (filter _ vars) with (@nil (str * str)); [done|]. symmetry. induction vars as [|[k v] vars IH]; [done|].
    rewrite filter_cons. simpl. case_decide as Hd; [|done]. destruct Hd as [-> Hk]. by rewrite Hc in Hk.
Qed.

Lemma insert_all_union (entries env : gmap str str) :
  map_fold (λ key value env, <[key := value]> env) env entries = entries ∪ env.
Proof.
  apply (map_fold_weak_ind (λ r m, r = m ∪ env)); [by rewrite map_empty_union|].
  intros k v m r _ ->. by rewrite insert_union_l.
Qed.

Lemma populate_env_without_thread vars policy name :
  populate_env vars policy None !! name = expected_value vars policy name.
Proof.
  unfold populate_env, expected_value, is_included, passes. rewrite insert_all_union.
  assert (∀ keep (empty : bool) env, (if empty then env else retain keep env) !! name =
            if empty || keep name then env !! name else None) as Hr.
  { intros keep [] env; [done|]. apply retain_lookup. }
  rewrite Hr. destruct (is_nil (include_only policy) || _); [|done]. rewrite lookup_union.
  destruct (set policy !! name) as [v|] eqn:Hv; [by rewrite union_Some_l|]. rewrite option_union_left_id, !Hr, inherited_lookup.
  assert (is_nil (exclude policy) || negb (matches_any name (exclude policy)) = negb (matches_any name (exclude policy))) as ->
    by (by destruct (exclude policy)).
  by destruct (may_inherit _ name), (ignore_default_excludes policy), (matches_any name default_excludes),
    (matches_any name (exclude policy)).
Qed.

(** C25: The environment of a command follows the policy.  Two names apart, a
    name is in the environment when the policy includes it and either sets it, and
    then with the value that is set, or inherits it, and then with the value the
    process has; what an exclude matches is never inherited, and what the default
    excludes match is inherited only where the policy ignores them, as it does
    unless it says otherwise.  The two names are the thread id, which is that of the
    thread when one is given and follows the policy when none is, and the permission
    profile, which is that of the turn or missing. *)
Theorem environment_follows_policy vars policy thread_id profile name :
  inject_permission_profile_env (create_env_from_vars vars policy thread_id) profile !! name =
    if decide (name = CODEX_PERMISSION_PROFILE_ENV_VAR) then profile
    else match thread_id with
         | Some thread_id =>
             if decide (name = CODEX_THREAD_ID_ENV_VAR) then Some thread_id else expected_value vars policy name
         | None => expected_value vars policy name
         end.
Proof.
  rewrite <- populate_env_without_thread. unfold inject_permission_profile_env, create_env_from_vars.
  case_decide as Hp; [subst name; destruct profile; [apply lookup_insert_eq|apply lookup_delete_eq]|].
  assert (∀ env : gmap str str, match profile with
            | Some id => <[CODEX_PERMISSION_PROFILE_ENV_VAR:=id]> (delete CODEX_PERMISSION_PROFILE_ENV_VAR env)
            | None => delete CODEX_PERMISSION_PROFILE_ENV_VAR env
            end !! name = env !! name) as ->.
  { intros env. destruct profile; rewrite ?lookup_insert_ne by done; by apply lookup_delete_ne. }
  destruct thread_id as [thread_id|]; [|done]. unfold populate_env at 1.
  case_decide as Ht; [subst name; apply lookup_insert_eq|]. by apply lookup_insert_ne.
Qed.

(** ** The two forms of the filters say the same *)

Definition patterns_of (f : ShellEnvironmentPolicyFilter) (filters : list (str * ShellEnvironmentPolicyFilter)) : list str :=
  fst <$> filter (λ e, e.2 = f) filters.

Lemma split_filters_spec filters exclude include_only :
  foldl split_filter (exclude, include_only) filters =
    (exclude ++ patterns_of Exclude filters, include_only ++ patterns_of Include filters).
Proof.
  revert exclude include_only. induction filters as [|[p []] filters IH]; intros ex inc; simpl.
  - unfold patterns_of. by rewrite !app_nil_r.
  - rewrite IH. unfold patterns_of. rewrite !filter_cons. simpl. by rewrite <- app_assoc.
  - rewrite IH. unfold patterns_of. rewrite !filter_cons. simpl. by rewrite <- app_assoc.
Qed.

(** Keyed filters are read as the legacy lists of their patterns. *)
Lemma filters_are_the_lists i d s p filters :
  policy_from_toml (mkPolicyToml i d None s None (Some filters) p) =
  policy_from_toml (mkPolicyToml i d (Some (patterns_of Exclude filters)) s (Some (patterns_of Include filters)) None p).
Proof. unfold policy_from_toml. simpl. by rewrite split_filters_spec. Qed.

End environment.
