(* ===== verification/Constrained.v ===== *)
(** Values under a constraint: [config/src/constraint.rs].  A value is only ever
    replaced by one that every validator accepts. *)

From S2P Require Import Prelude Text.

Section constrained.
(** The source of a requirement is only passed on; [debug] is how a value is
    written in an error. *)
Context {RequirementSource : Type} (unknown : RequirementSource).

Inductive ConstraintError :=
| InvalidValue (field_name candidate allowed : str) (requirement_source : RequirementSource)
| EmptyField (field_name : str)
| ExecPolicyParse (requirement_source : RequirementSource) (reason : str)
| McpServerRequirementParse (server_name : str) (requirement_source : RequirementSource) (reason : str).
Abbreviation ConstraintResult := (result ConstraintError).

Section values.
Context {T : Type} `{EqDecision T} (debug : T → str).
Implicit Types (value candidate : T).

Record Constrained := mkConstrained {
  value : T;
  validator : T → ConstraintResult unit;
  normalizer : option (T → T)
}.
Implicit Types c : Constrained.

Definition new_constrained (initial_value : T) (validator : T → ConstraintResult unit) : ConstraintResult Constrained :=
  let? _ := validator initial_value in
  Ok (mkConstrained initial_value validator None).
Definition normalized (initial_value : T) (normalizer : T → T) : ConstraintResult Constrained :=
  let validator := λ _ : T, Ok () in
  let normalized := normalizer initial_value in
  let? _ := validator normalized in
  Ok (mkConstrained normalized validator (Some normalizer)).
Definition allow_any (initial_value : T) : Constrained := mkConstrained initial_value (λ _, Ok ()) None.
Definition allow_only (only_value : T) : Constrained :=
  mkConstrained only_value (λ candidate,
    if decide (candidate = only_value) then Ok ()
    else Err (InvalidValue (lit "<unknown>") (debug candidate) (lit "[" ++ debug only_value ++ lit "]") unknown)) None.

Definition can_set candidate c : ConstraintResult unit := validator c candidate.
Definition add_validator (new_validator : T → ConstraintResult unit) c : ConstraintResult Constrained :=
  let combined_validator := λ candidate, let? _ := validator c candidate in new_validator candidate in
  let? _ := combined_validator (value c) in
  Ok (mkConstrained (value c) combined_validator (normalizer c)).
Definition set_value (new_value : T) c : ConstraintResult Constrained :=
  let new_value := match normalizer c with Some normalizer => normalizer new_value | None => new_value end in
  let? _ := validator c new_value in
  Ok (mkConstrained new_value (validator c) (normalizer c)).

(** What a constraint was built from: the validators that were installed, the
    oldest first.  An operation that fails leaves the constraint as it is. *)
Inductive built : list (T → ConstraintResult unit) → Constrained → Prop :=
| built_new v0 f c : new_constrained v0 f = Ok c → built [f] c
| built_normalized v0 f c : normalized v0 f = Ok c → built [] c
| built_any v0 : built [] (allow_any v0)
| built_only v0 : built [validator (allow_only v0)] (allow_only v0)
| built_add fs f c c' : built fs c → add_validator f c = Ok c' → built (fs ++ [f]) c'
| built_set fs v c c' : built fs c → set_value v c = Ok c' → built fs c'.

Definition accepted (fs : list (T → ConstraintResult unit)) value : Prop := Forall (λ f, f value = Ok ()) fs.

Lemma built_validator fs c candidate : built fs c → can_set candidate c = Ok () ↔ accepted fs candidate.
Proof.
  unfold can_set, accepted. intros Hb. revert candidate.
  induction Hb as [v0 f c Hn|v0 f c Hn|v0|v0|fs f c c' _ IH Ha|fs v c c' _ IH Hs]; intros candidate.
  - apply result_bind_ok in Hn as (_ & _ & [= <-]). simpl. by rewrite Forall_singleton.
  - injection Hn as <-. simpl. by rewrite Forall_nil.
  - simpl. by rewrite Forall_nil.
  - by rewrite Forall_singleton.
  - apply result_bind_ok in Ha as (_ & _ & [= <-]). cbn [validator]. rewrite result_bind_ok, Forall_app, Forall_singleton, <- IH.
    split; [by intros ([] & ? & ?)|by intros [? ?]; exists ()].
  - apply result_bind_ok in Hs as (_ & _ & [= <-]). apply IH.
Qed.

(** A value under constraint is accepted by every validator that was installed,
    and a value can be set if and only if they all accept what it is normalized
    to; then that is the value, and the constraint stays. *)
Theorem constrained_value_is_accepted fs c :
  built fs c →
  accepted fs (value c) ∧
  ∀ v, let v' := match normalizer c with Some normalizer => normalizer v | None => v end in
    match set_value v c with
    | Ok c' => accepted fs v' ∧ c' = mkConstrained v' (validator c) (normalizer c)
    | Err _ => ¬ accepted fs v'
    end.
Proof.
  intros Hb. split.
  - rewrite <- (built_validator fs c) by done. unfold can_set.
    destruct Hb as [v0 f c Hn|v0 f c Hn|v0|v0|fs f c c' Hb Ha|fs v c c' Hb Hs].
    + by apply result_bind_ok in Hn as ([] & Hv & [= <-]).
    + by injection Hn as <-.
    + done.
    + simpl. by rewrite decide_True.
    + by apply result_bind_ok in Ha as ([] & Hv & [= <-]).
    + by apply result_bind_ok in Hs as ([] & Hv & [= <-]).
  - intros v. cbn zeta. unfold set_value. pose proof (λ v', built_validator fs c v' Hb) as Hv. unfold can_set in Hv.
    destruct (validator c _) as [[]|] eqn:He; simpl; rewrite <- Hv; [done|by rewrite He].
Qed.

End values.
End constrained.
