(* ===== verification/ConfigExamples.v ===== *)
(** Concrete configurations: layers of a system, a user with a profile and a
    session, with interfaces that satisfy their laws; witnesses of the theorems,
    and what [origins] keeps of fields that are no longer there. *)

From S2P Require Import Prelude Text Paths NetworkHosts NetworkExamples ConfigValues ConfigMergeSpec ConfigLayers.
From S2P Require Import ConfigLayersSpec ConfigFiltersSpec ConfigOriginsSpec ShellEnvironment Constrained.

Definition demo_string (v : TomlValue.t) : result str str :=
  match v with TomlValue.String s => Ok s | _ => Err (lit "expected a string") end.
Definition demo_filter (e : str * TomlValue.t) : result str (str * ShellEnvironmentPolicyFilter) :=
  let? action := demo_string e.2 in
  if decide (action = lit "include") then Ok (e.1, Include)
  else if decide (action = lit "exclude") then Ok (e.1, Exclude)
  else Err (lit "unknown variant").

#[local] Instance demo_config : ConfigLibs := {
  config_host_libs := demo_libs;
  to_lowercase := to_ascii_lowercase;
  version_for_toml v := match v with Table t => decimal_N (N.of_nat (length t)) | _ => [] end;
  read_policy_field v :=
    match v with Table t => Ok (toml_get shell_environment_policy t) | _ => Err (lit "expected a table") end;
  read_strings v := match v with TomlValue.Array items => try_map demo_string items | _ => Err (lit "expected a sequence") end;
  read_filters v := match v with Table t => try_map demo_filter t | _ => Err (lit "expected a map") end
}.
#[local] Instance demo_config_laws : ConfigLibsLaws.
Proof. by constructor. Qed.

Definition string_value (s : string) : TomlValue.t := TomlValue.String (lit s).
Definition entry (key : string) (v : TomlValue.t) : str * TomlValue.t := (lit key, v).

Definition system_config : TomlValue.t :=
  Table [entry "model" (string_value "small");
         entry "agents" (Table [entry "max_threads" (TomlValue.Integer 4)]);
         entry "shell_environment_policy"
           (Table [entry "inherit" (string_value "core");
                   entry "exclude" (TomlValue.Array [string_value "AWS_*"; string_value "GCP_*"])])].
Definition user_config : TomlValue.t :=
  Table [entry "model" (string_value "medium");
         entry "shell_environment_policy" (Table [entry "filters" (Table [entry "SSH_*" (string_value "exclude")])])].
Definition profile_config : TomlValue.t :=
  Table [entry "agents" (Table [entry "max_concurrent_threads_per_session" (TomlValue.Integer 2)])].

Definition system_file : AbsolutePathBuf := path_new (lit "/etc/codex/config.toml").
Definition user_file : AbsolutePathBuf := path_new (lit "/home/me/.codex/config.toml").
Definition profile_file : AbsolutePathBuf := path_new (lit "/home/me/.codex/work.config.toml").

Definition demo_layers : list ConfigLayerEntry :=
  [new_layer (ConfigLayerSource.System system_file) system_config;
   new_layer (User user_file None) user_config;
   new_layer (User profile_file (Some (lit "work"))) profile_config;
   new_disabled (Project (path_new (lit "/repo/.codex"))) (Table [entry "model" (string_value "huge")]) (lit "not trusted");
   new_layer ConfigLayerSource.SessionFlags (build_cli_overrides_layer [(lit "tui.theme", string_value "dark")])].
Definition demo_stack : ConfigLayerStack unit unit := mkStack demo_layers (Some 2) () () false None.
(** The user's own file is written again. *)
Definition edited_stack : ConfigLayerStack unit unit :=
  match with_user_config user_file (Table [entry "model" (string_value "large")]) demo_stack with
  | Ok s => s
  | Err _ => demo_stack
  end.

Lemma demo_reachable : reachable demo_stack.
Proof. apply (reachable_new demo_layers () ()). vm_compute. reflexivity. Qed.
Lemma edited_reachable : reachable edited_stack.
Proof.
  apply (reachable_user_config user_file (Table [entry "model" (string_value "large")]) demo_stack);
    [apply demo_reachable|]. vm_compute. reflexivity.
Qed.
Lemma demo_wf : Forall (λ l, wf (config l) = true) (layers demo_stack).
Proof. repeat constructor. Qed.

(** The profile
    stays above the file of the user, which is written again. *)
Lemma edits_keep_layers_ordered_witness :
  (name <$> layers edited_stack) = (name <$> demo_layers)
  ∧ get_active_user_layer edited_stack = Some (new_layer (User profile_file (Some (lit "work"))) profile_config)
  ∧ get_active_user_layer edited_stack = last (filter (λ layer, is_user layer) (layers edited_stack)).
Proof.
  split; [vm_compute; reflexivity|]. split; [vm_compute; reflexivity|].
  apply (edits_keep_layers_ordered edited_stack edited_reachable).
Defined.

Lemma effective_config_is_highest_layer_witness :
  (name <$> deciding_layer demo_stack [lit "model"]) = Some (User user_file None)
  ∧ leaf (effective_config demo_stack) [lit "model"] = Some (string_value "medium")
  ∧ leaf (effective_config demo_stack) [lit "model"] =
      deciding_layer demo_stack [lit "model"] ≫= (λ layer, leaf (said layer) [lit "model"]).
Proof.
  split; [vm_compute; reflexivity|]. split; [vm_compute; reflexivity|].
  exact (proj1 (effective_config_is_highest_layer demo_stack [lit "model"] demo_reachable demo_wf eq_refl)).
Defined.

(** The legacy name of a key counts as the name it has now. *)
Example legacy_key_is_overridden :
  leaf (effective_config demo_stack) [lit "agents"; lit "max_concurrent_threads_per_session"] = Some (TomlValue.Integer 2)
  ∧ sub (effective_config demo_stack) [lit "agents"; lit "max_threads"] = None.
Proof. split; vm_compute; reflexivity. Qed.

Lemma filter_forms_never_mix_witness :
  form (effective_config demo_stack) = Some Filters
  ∧ sub (effective_config demo_stack) [shell_environment_policy; lit "exclude"] = None
  ∧ mixed_forms (effective_config demo_stack) = false.
Proof.
  split; [vm_compute; reflexivity|]. split; [vm_compute; reflexivity|].
  exact (proj1 (filter_forms_never_mix demo_stack demo_reachable demo_wf)).
Defined.

(** A layer that has both forms is refused. *)
Example mixed_layer_is_refused :
  is_ok (new_stack [new_layer (User user_file None)
    (Table [entry "shell_environment_policy" (Table [entry "filters" (Table []); entry "exclude" (TomlValue.Array [])])])]
    () ()) = false.
Proof. vm_compute. reflexivity. Qed.

(** [origins] is said to be of the merged view, but it keeps the list that the
    filters of the user replaced. *)
Example origins_keep_displaced_fields :
  sub (effective_config demo_stack) [shell_environment_policy; lit "exclude"] = None
  ∧ (metadata_name <$> origins demo_stack !! lit "shell_environment_policy.exclude.0")
    = Some (ConfigLayerSource.System system_file).
Proof. split; vm_compute; reflexivity. Qed.

(** * The environment of a command *)

(** Patterns with a star at the end *)
#[local] Instance demo_wild : WildMatch := {
  pattern_matches pattern name :=
    match strip_suffix (lit "*") pattern with
    | Some prefix => starts_with (to_ascii_lowercase name) (to_ascii_lowercase prefix)
    | None => eq_ignore_ascii_case pattern name
    end
}.

Example environment_of_a_command :
  let policy := policy_from_toml (mkPolicyToml (Some ShellEnvironmentPolicyInherit.All) None None
    (Some {[lit "AWS_REGION" := lit "eu"]}) None (Some [(lit "AWS_*", Exclude); (lit "SSH_*", Exclude)]) None) in
  let env := create_env_from_vars [(lit "aws_key", lit "k"); (lit "HOME", lit "/home/me"); (lit "SSH_AGENT", lit "s")]
               policy (Some (lit "t1")) in
  env = list_to_map [(lit "HOME", lit "/home/me"); (lit "AWS_REGION", lit "eu"); (lit "CODEX_THREAD_ID", lit "t1")].
Proof. vm_compute. reflexivity. Qed.

(** * Constrained values *)

Example only_one_value :
  let c := allow_only () (λ _ : bool, lit "?") true in
  is_ok (set_value true c) = true ∧ is_ok (set_value false c) = false
  ∧ is_ok (add_validator (λ b : bool, if b then Err (EmptyField (lit "field")) else Ok ()) c) = false.
Proof. vm_compute. done. Qed.
